(* ===== verification/_CoqProject ===== *)
-Q . S2P
Prelude.v
Clock.v
Locator.v
Points.v
TextSummary.v
Selection.v
Patch.v
Subscription.v
SumTree.v
TreeFind.v
Cursor.v
TreeWeight.v
ParTree.v
Iter.v
Keyed.v
TreeMap.v
UndoMap.v
OperationQueue.v
Bitmap.v
Utf8.v
Chunk.v
ChunkSummary.v
ChunkPosition.v
Rope.v
RopePosition.v
RopeIter.v
RopeRead.v
History.v
Fragments.v
Buffer.v
BufferOps.v
FragmentLaws.v
Builders.v
Cells.v
EditMachine.v
Snapshot.v
Script.v
Origin.v
Commuting.v
UndoLoop.v
UndoRanges.v
Slices.v
UndoEdit.v
LocalEdit.v
RemoteEdit.v
Convergence.v
Replicas.v
Changes.v
Delivery.v
Deferral.v
Local.v
Network.v
Anchor.v
Resolve.v
AnchorOrder.v
Diff.v
Versions.v
Hunks.v
