(* ===== verification/Prelude.v ===== *)
(** * The text engine of the editor, verified

    The editor keeps the text of a buffer, its history and its derived
    positions in a few crates that the rest of the program is a client of:
    [src/crates/clock], [src/crates/sum_tree], [src/crates/rope] and
    [src/crates/text]. This library models them as Rocq functions and proves
    what makes them correct. The other crates (windows, project, language
    servers, collaboration server, agents, extensions) are effects around this
    core and are not modelled.

    ** How the parts fit together

    A buffer is replicated: every edit carries a Lamport timestamp ([Clock]) and
    the version vector of what its author had seen. Its text is a sequence of
    fragments ordered by dense identifiers ([Locator]) and stored in a B+ tree
    that caches sums of its items ([SumTree]); the rope, the fragments, the
    undo counts, the ordered maps and the queue of deferred operations are all
    instances of this tree. Every reading and every edit of a tree goes through
    a search ([TreeFind]) or a cursor ([Cursor]) that measures positions in some
    dimension of the summaries, and rebuilds the tree by slicing and appending.
    Trees whose items have keys ([Keyed]) are ordered maps ([TreeMap]); the undo
    counts ([UndoMap]), the operation queue ([OperationQueue]) and the map of
    operations in the history ([History]) are such maps. Positions in the text
    are points and offsets in UTF-8 or UTF-16 units ([Points]), summed up in
    text summaries ([TextSummary]), which the chunks of the rope compute from bit
    masks ([Chunk]); edits are reported to subscribers as patches
    ([Patch], [Subscription]).

    ** Files

    - [Prelude]: machine integers as [Z] with explicit wrapping, Rust's
      [Ordering] with the laws of [Ord] as the class [TotalCmp], vectors,
      strings as sequences of scalar values, and [iterate], the loop of which
      every [while] of the code is an instance.
    - [Clock] ([clock/src/clock.rs]): [ReplicaId], [Lamport], [Global].
    - [Locator] ([text/src/locator.rs]): identifiers between identifiers.
    - [Points] ([rope/src/point.rs], [point_utf16.rs], [offset_utf16.rs],
      [unclipped.rs]).
    - [TextSummary] ([TextSummary] in [rope/src/rope.rs], [LineIndent] in
      [text/src/text.rs]).
    - [Selection] ([text/src/selection.rs]).
    - [Patch] ([text/src/patch.rs], [Edit] in [text/src/text.rs]).
    - [Subscription] ([text/src/subscription.rs]): topics over a heap of shared
      patches with weak references.
    - [SumTree] ([sum_tree/src/sum_tree.rs]): the classes [Summary], [Item],
      [Dimension] with their laws, nodes as the arrays of the code beside the
      cached sums, [append], [push], [from_iter], [extend], the ends.
    - [TreeFind] (same file): [find], [find_exact], [find_with_prev].
    - [Cursor] ([sum_tree/src/cursor.rs]): the cursor as a stack of entries, with
      [next], [prev], [seek], [seek_forward], [slice], [suffix], [summary] and
      the filtered walks.
    - [TreeWeight]: how high trees grow; [held w t l] adds a weight to
      [represents] from which a user of trees knows that the stack of a cursor
      does not overflow.
    - [ParTree] ([from_par_iter], [par_extend]): the parallel construction, as
      the groups that it works on.
    - [Iter] (same file): the plain iterator, and a cursor used as one.
    - [Keyed] ([KeyedItem] in [sum_tree.rs], the entries of [tree_map.rs]): the
      interface [KeyedLaws] between sorted trees and their users, [get],
      [insert_or_replace], [remove] and the batch [edit].
    - [TreeMap] ([sum_tree/src/tree_map.rs]): maps and sets.
    - [UndoMap] ([text/src/undo_map.rs]), [OperationQueue]
      ([text/src/operation_queue.rs]), [History] ([History], [Transaction] and
      [Operation] in [text/src/text.rs]).
    - [Bitmap], [Utf8], [Chunk], [ChunkSummary], [ChunkPosition]
      ([rope/src/chunk.rs]): machine words as masks of bits and the search for
      the n-th set bit; what [str] promises about its bytes; chunks and slices
      of them; their summaries and tabs; conversions and clipping of positions.
    - [Rope] ([rope/src/rope.rs]): the tree of chunks; its dimensions
      ([TextDimension], with the class [TextPosition] of those that are positions
      after texts), building, cutting, boundaries of characters, the cursor.
    - [RopePosition] (same file): conversions of positions, clipping, rows.
    - [RopeIter] (same file): the iterators over the chunks, bytes and lines of a
      rope, and comparisons with strings; [RopeRead]: what they read.
    - [Fragments], [Buffer], [BufferOps] ([text/src/text.rs]): fragments with
      their summaries, dimensions and builders; how a snapshot applies local and
      remote edits and undo operations; the replica around it, with its clock,
      transactions, deferred operations and subscriptions.
    - [FragmentLaws]: the laws of the trees of fragments and insertions, exact
      positions in them, and those that are known only at some boundaries.
    - [Builders]: ropes and fragments that are built from the front to the end.
    - [Cells]: a document as a sequence of characters ([atom]), each with the edit
      that inserted it and those that deleted it; fragments as runs of them.
    - [EditMachine]: the loop that walks over the old fragments while it writes
      new ones, shared by both ways to apply an edit ([walk] is its invariant).
    - [Snapshot]: [snapshot_of s cs], the trees of a snapshot index a document.
    - [Script]: what edits mean, on texts and on documents.
    - [Origin], [LocalEdit], [RemoteEdit]: new buffers and the two ways to apply an
      edit, as functions on documents.
    - [UndoLoop], [UndoRanges], [UndoEdit]: undo operations: the loop over the
      fragments, how they are found, and what comes out, as a function on documents.
    - [Slices]: the index of what each edit inserted and deleted, which edits keep
      and undo operations rely on.
    - [Commuting]: the class [Operations] of replicated states: operations that do
      not know of each other commute, and what follows for histories.
    - [Convergence], [Replicas]: an edit as insertions behind characters and
      deletions; concurrent edits commute.
    - [Changes]: edits and undo operations as an instance of [Operations].
    - [Delivery]: [presents s d cs], the invariant of snapshots; receiving operations
      refines their effect on documents, and replicas converge.
    - [Deferral]: [apply_ops], for operations that arrive in any order: those that
      the version does not cover wait in the queue until it does.
    - [Local]: [edit], [undo] and [redo] of a buffer, as further operations of the
      history: the operation that is sent says what was done.
    - [Network]: replicas that do all of this, and send each other what they did, as
      a transition system ([reachable]).
    - [Anchor] ([text/src/anchor.rs] and what [BufferSnapshot] does with anchors),
      [Resolve], [AnchorOrder]: [anchored A x y], the place of an anchor in a document;
      making and resolving anchors, one or many; their order, and how they stay with
      their characters.
    - [Diff] ([Edits] and what [BufferSnapshot] does with it), [Versions], [Hunks]: the
      text of a version ([text_at]); the iterator over the edits since a version,
      which are hunks that turn one text into the other; offsets at a version.

    Names follow the code; where one file of the code holds several types, each
    is a [Module]. A doc comment before a definition ends with the lines it
    models.

    ** What is proved

    - Clocks: packing a timestamp keeps the order, ticking and observing is
      causal, version vectors form a lattice with [join] as least upper bound,
      and comparisons ([observed_all], [changed_since]) mean what they say.
    - Locators: [between] gives an identifier strictly between two others, of
      bounded words, so the order is dense.
    - Positions and summaries: the arithmetic of points is an ordered monoid
      that agrees with parsing text; the summary of a concatenation is the sum
      of the summaries; two deviations of the code are proved as such.
    - Patches: a patch is read as the relation between old and new positions
      that it describes; [compose] is the composition of these relations, and
      the mappings of positions agree with it. A subscriber that consumes
      receives the composition of everything published since.
    - Trees: [wf] is the invariant of the B+ tree (capacities, equal depth, no
      empty inner node, every cached sum up to date). [represents t l] says
      that a well-formed tree holds the sequence [l]: all operations of [SumTree]
      are proved to implement those of sequences, and never to panic. The
      theorems on searches and cursors say where in the sequence they stop.
      [positioned c before after] is the state of a cursor.
    - Maps: sorted trees implement ordered maps ([lookup]); the one-pass batch
      [edit] does what its edits ask for when their keys differ, and an example
      shows what happens when they do not.
    - Undo: inserting undo operations takes the maximum of the counts, in any
      order; the queue keeps one operation per timestamp without failing an
      assertion.
    - Chunks: the chunk of a text ([chunk_of]) has the masks that its characters
      require; building and cutting chunks is joining and cutting texts, the
      summary by counting bits is the one by reading characters, positions are
      converted exactly and clipped to the nearest ones, and the branchless
      search finds the n-th set bit. Where [slice] fails is proved.
    - Ropes: [holds w r s] says that the chunks of [r] spell the text [s]. Building,
      appending, replacing and slicing ropes is what it is on texts, without a
      panic and without cutting a character, however the chunks were cut before;
      the cursor sums up any dimension of the text it passes. Positions are
      converted exactly, and clipped as in the whole text, wherever the chunks
      were cut; where a debug build panics at a position that the text does not
      have is said exactly. No chunk but the last one gets small
      ([check_invariants]). The iterators over a range yield its text, in order or
      reversed, in chunks, bytes or lines, seek to any offset of it, and compare it
      with a string; two of their defects are shown by examples.
    - Weights: joining trees adds their weights, a tree of a weight below 6^16 fits
      the stack, and what is ahead of a cursor bounds what a slice takes.
    - Documents: a snapshot is read as a sequence of characters, and the tree of
      fragments, the two ropes and the trees of insertions and slices are indexes
      of it. A new buffer is one, a local edit does to the visible text what it
      says and returns an operation that does the same to the document, a remote
      edit does what [apply_operation] says: text goes where its author put it
      among the characters that the author had seen, behind newer concurrent
      insertions; no loop runs out of its fuel and nothing panics. An undo
      operation finds the characters of its edits and makes visible exactly those
      whose insertion is not undone and whose deletions all are.
    - Operations: edits and undo operations that do not know of each other commute;
      an operation that could be applied where it was made can be applied wherever
      what its author had seen was applied; so all causal orders of a history give
      the same document. Operations that come before what their authors had seen are
      deferred: after every call of [apply_ops], exactly those are applied whose
      predecessors were all received ([log_ok] says what a history is; [receives],
      what a buffer has applied and what waits).
    - Networks: what replicas do themselves keeps the history one, so nothing is
      assumed of it: in every network that can be reached, what was sent is a
      history, replicas that have seen the same operations show the same text, no
      operation waits where everything has arrived, and no call panics that a
      replica may make ([allowed]).
    - Anchors: an anchor for an offset resolves to that offset, and at any other
      replica that has seen as much, now or later, to the place between the same
      characters; [Anchor::cmp] is the order of the places, which never changes.
    - Diffs: the edits since a version turn the text that the version showed into the
      text of now, with something changed by each and something kept between them;
      at another replica, they turn the text of the one into the text of the other.
      Offsets are taken back to the version, in order and with their characters.
    - History: the calls on the history are the transitions of a state machine
      ([reachable]); no reachable call panics but for a misuse of transactions,
      grouping keeps every edit in order, undo and redo are inverse.

    ** Conventions

    [option] stands for a panic: [None] is a failed assertion, an [unwrap] of
    nothing, an index out of range, or a full array. Results that are optional
    themselves are a second [option] inside. A theorem that a function gives
    [Some] therefore says that the code neither panics nor loops: loops take
    fuel, the definitions that own a loop compute it from their arguments (the
    height or the number of nodes of the tree, the lengths of the patches), and
    the theorems prove that it is enough; iterations over whole collections take
    it as an argument, one more than the number of items being enough. The stack
    of a cursor has room for a tree of height 15, which [stack_capacity] states
    and [fits] requires. A tree may have nodes with few children, so its size
    alone does not bound its height; [TreeWeight] does, from how the tree was
    made: it takes 6^15 items, or as many joins, to get any higher.

    Summaries of trees need not form a monoid: [SummaryLaws] asks for the laws
    on the sequences that occur ([valid]), which are all of them for monoids,
    the sorted ones for maps, and those with growing timestamps for the
    operation queue, where adding summaries can fail an assertion.

    A build is a release build as far as the arithmetic goes (it wraps around).
    Where the code asks for the kind of the build ([debug_assert!], [debug_panic!],
    [cfg!(debug_assertions)]), [debug_assertions] is an argument, and theorems hold
    for both.

    Shared nodes ([Arc]), reference counts and capacities of vectors are not
    observable and not modelled. The order [sort_unstable] gives to equal keys,
    and of iteration over hash maps, is not relied upon by any theorem. A clock
    value, a count or an offset is bounded where the code can overflow it.

    ** Not modelled

    The methods of [BufferSnapshot] that only read the rope at converted positions
    ([text_for_range], [reversed_chars_for_range], [line_indents_in_row_range] and
    the like) are compositions of what is modelled. Left out for good: formatting
    for debugging, serialization, wake-ups of tasks waiting for an edit, and
    everything outside the four crates. *)
From stdpp Require Export base numbers list option gmap sorting strings.
From Stdlib Require Export ZArith Lia.

#[export] Set Default Goal Selector "!".

(** ** Machine integers

    The program's [u16], [u32], [u64] and [usize] values are modelled as [Z].
    Arithmetic that can leave the width is written with the explicit
    reduction of a release build ([profile.release] of Cargo.toml does not
    enable [overflow-checks]); a debug build panics at the same place. *)

Declare Scope zed_scope.
Delimit Scope zed_scope with zed.
#[global] Open Scope Z_scope.

Definition u16_MAX : Z := 2 ^ 16 - 1.
Definition u32_MAX : Z := 2 ^ 32 - 1.
Definition u64_MAX : Z := 2 ^ 64 - 1.

(** [in_width w x]: [x] is a value of the unsigned type of [w] bits. *)
Definition in_width (w x : Z) : Prop := 0 ≤ x < 2 ^ w.
Abbreviation u16_ok := (in_width 16).
Abbreviation u32_ok := (in_width 32).
Abbreviation u64_ok := (in_width 64).

Definition wrap16 (x : Z) : Z := x mod 2 ^ 16.
Definition wrap32 (x : Z) : Z := x mod 2 ^ 32.
Definition wrap64 (x : Z) : Z := x mod 2 ^ 64.

(** [saturating_sub], [saturating_add] and [saturating_mul] of unsigned types. *)
Definition saturating_sub (x y : Z) : Z := Z.max 0 (x - y).
Definition saturating_add (w x y : Z) : Z := Z.min (2 ^ w - 1) (x + y).
Definition saturating_mul (w x y : Z) : Z := Z.min (2 ^ w - 1) (x * y).

Notation "x +w32 y" := (wrap32 (x + y)) (at level 50, left associativity) : zed_scope.
Notation "x -w32 y" := (wrap32 (x - y)) (at level 50, left associativity) : zed_scope.
Notation "x +w64 y" := (wrap64 (x + y)) (at level 50, left associativity) : zed_scope.
Notation "x -w64 y" := (wrap64 (x - y)) (at level 50, left associativity) : zed_scope.
#[global] Open Scope zed_scope.

Create HintDb zed.

Lemma wrap32_id x : u32_ok x → wrap32 x = x.
Proof. apply Z.mod_small. Qed.
Lemma wrap64_id x : u64_ok x → wrap64 x = x.
Proof. apply Z.mod_small. Qed.
Lemma wrap16_id x : u16_ok x → wrap16 x = x.
Proof. apply Z.mod_small. Qed.
Lemma wrap32_ok x : u32_ok (wrap32 x).
Proof. apply Z.mod_pos_bound. lia. Qed.
Lemma wrap64_ok x : u64_ok (wrap64 x).
Proof. apply Z.mod_pos_bound. lia. Qed.
Lemma wrap16_ok x : u16_ok (wrap16 x).
Proof. apply Z.mod_pos_bound. lia. Qed.
#[export] Hint Resolve wrap16_ok wrap32_ok wrap64_ok : zed.

(** Linear arithmetic with the widths unfolded. *)
Ltac width := unfold in_width, u16_MAX, u32_MAX, u64_MAX, saturating_sub,
  saturating_add, saturating_mul in *; lia.

(** Bounds between closed terms, by computation. *)
Ltac closed_arith := vm_compute; repeat split; congruence.

(** Decide the next [if]/[match] on a boolean or a comparison, recording it. *)
Ltac split_if :=
  match goal with
  | |- context [if ?b then _ else _] => destruct b eqn:?
  | |- context [match ?b with _ => _ end] => destruct b eqn:?
  end.

(** Turn the boolean tests of the code into the propositions they decide. *)
Ltac reflect :=
  repeat match goal with
  | H : (_ && _)%bool = true |- _ => apply andb_true_iff in H as [? ?]
  | H : (_ || _)%bool = false |- _ => apply orb_false_iff in H as [? ?]
  | H : negb _ = true |- _ => apply negb_true_iff in H
  | H : negb _ = false |- _ => apply negb_false_iff in H
  | H : Z.ltb _ _ = true |- _ => apply Z.ltb_lt in H
  | H : Z.ltb _ _ = false |- _ => apply Z.ltb_ge in H
  | H : Z.leb _ _ = true |- _ => apply Z.leb_le in H
  | H : Z.leb _ _ = false |- _ => apply Z.leb_gt in H
  | H : Z.eqb _ _ = true |- _ => apply Z.eqb_eq in H
  | H : Z.eqb _ _ = false |- _ => apply Z.eqb_neq in H
  | H : bool_decide _ = true |- _ => apply bool_decide_eq_true in H
  | H : bool_decide _ = false |- _ => apply bool_decide_eq_false in H
  end.

(** ** Orderings: Rust's [Ordering] is [comparison] *)

(** [Ordering::then_with] *)
Definition then_with (c d : comparison) : comparison :=
  match c with Eq => d | _ => c end.

Definition is_lt (c : comparison) : bool := match c with Lt => true | _ => false end.
Definition is_le (c : comparison) : bool := match c with Gt => false | _ => true end.
Definition is_gt (c : comparison) : bool := match c with Gt => true | _ => false end.
Definition is_ge (c : comparison) : bool := match c with Lt => false | _ => true end.
Definition is_eq (c : comparison) : bool := match c with Eq => true | _ => false end.

(** What the program relies on from an [Ord] implementation. *)
Class TotalCmp {A : Type} (cmp : A → A → comparison) : Prop := {
  cmp_eq_iff : ∀ x y, cmp x y = Eq ↔ x = y;
  cmp_antisym : ∀ x y, cmp y x = CompOpp (cmp x y);
  cmp_lt_trans : ∀ x y z, cmp x y = Lt → cmp y z = Lt → cmp x z = Lt;
}.
Arguments cmp_eq_iff {A} cmp {_} _ _.
Arguments cmp_antisym {A} cmp {_} _ _.
Arguments cmp_lt_trans {A} cmp {_} _ _ _ _ _.

Section total_cmp.
Context {A : Type} (cmp : A → A → comparison) `{!TotalCmp cmp}.

Lemma cmp_refl x : cmp x x = Eq.
Proof. by apply (cmp_eq_iff cmp). Qed.
Lemma cmp_gt_lt x y : cmp x y = Gt ↔ cmp y x = Lt.
Proof. rewrite (cmp_antisym cmp x y). destruct (cmp x y); simpl; split; congruence. Qed.
Lemma cmp_lt_irrefl x : cmp x x ≠ Lt.
Proof. rewrite cmp_refl. done. Qed.
Lemma cmp_lt_asym x y : cmp x y = Lt → cmp y x ≠ Lt.
Proof. intros H. rewrite (cmp_antisym cmp x y), H. done. Qed.
Lemma cmp_le_lt_trans x y z : cmp x y ≠ Gt → cmp y z = Lt → cmp x z = Lt.
Proof.
  intros H1 H2. destruct (cmp x y) eqn:E; [|by eapply cmp_lt_trans|done].
  apply (cmp_eq_iff cmp) in E as ->. done.
Qed.
Lemma cmp_lt_le_trans x y z : cmp x y = Lt → cmp y z ≠ Gt → cmp x z = Lt.
Proof.
  intros H1 H2. destruct (cmp y z) eqn:E; [|by eapply cmp_lt_trans|done].
  apply (cmp_eq_iff cmp) in E as ->. done.
Qed.
Lemma cmp_le_trans x y z : cmp x y ≠ Gt → cmp y z ≠ Gt → cmp x z ≠ Gt.
Proof.
  intros H1 H2. destruct (cmp y z) eqn:E; [| |done].
  - apply (cmp_eq_iff cmp) in E as ->. done.
  - rewrite (cmp_le_lt_trans x y z); done.
Qed.
Lemma is_lt_true x y : is_lt (cmp x y) = true ↔ cmp x y = Lt.
Proof. destruct (cmp x y); simpl; split; congruence. Qed.
End total_cmp.

#[global] Instance Z_total_cmp : TotalCmp Z.compare.
Proof.
  split.
  - apply Z.compare_eq_iff.
  - intros. apply Z.compare_antisym.
  - intros x y z. rewrite !Z.compare_lt_iff. lia.
Qed.

(** Lexicographic combination of two total orders through projections. *)
Lemma then_with_total {A B C} (f : A → B) (g : A → C) cb cc :
  TotalCmp cb → TotalCmp cc →
  (∀ x y, f x = f y → g x = g y → x = y) →
  TotalCmp (λ x y, then_with (cb (f x) (f y)) (cc (g x) (g y))).
Proof.
  intros HB HC Hinj. split.
  - intros x y. split; [|intros ->; rewrite (cmp_refl cb), (cmp_refl cc); done].
    unfold then_with. destruct (cb (f x) (f y)) eqn:E; [|done..].
    intros E2. apply (cmp_eq_iff cb) in E. apply (cmp_eq_iff cc) in E2. auto.
  - intros x y. rewrite (cmp_antisym cb (f x) (f y)), (cmp_antisym cc (g x) (g y)).
    by destruct (cb (f x) (f y)).
  - intros x y z. unfold then_with.
    destruct (cb (f x) (f y)) eqn:E1; [|intros _|done].
    + apply (cmp_eq_iff cb) in E1 as ->.
      destruct (cb (f y) (f z)); [|done..]. apply (cmp_lt_trans cc).
    + destruct (cb (f y) (f z)) eqn:E2; [intros _|intros _|done].
      * apply (cmp_eq_iff cb) in E2 as <-. by rewrite E1.
      * by rewrite (cmp_lt_trans cb _ _ _ E1 E2).
Qed.

(** Lexicographic order on sequences: [Ord] of slices and vectors. *)
Fixpoint lex_compare {A} (cmp : A → A → comparison) (l k : list A) : comparison :=
  match l, k with
  | [], [] => Eq
  | [], _ :: _ => Lt
  | _ :: _, [] => Gt
  | x :: l, y :: k => then_with (cmp x y) (lex_compare cmp l k)
  end.

#[global] Instance lex_compare_total {A} (cmp : A → A → comparison) :
  TotalCmp cmp → TotalCmp (lex_compare cmp).
Proof.
  intros HT. split.
  - induction x as [|x l IH]; intros [|y k]; simpl; [done..|].
    split.
    + unfold then_with. destruct (cmp x y) eqn:E; [|done..].
      intros H. apply IH in H as ->. by apply (cmp_eq_iff cmp) in E as ->.
    + intros [= -> ->]. rewrite (cmp_refl cmp). by apply IH.
  - induction x as [|x l IH]; intros [|y k]; simpl; [done..|].
    rewrite (cmp_antisym cmp x y), (IH k). by destruct (cmp x y).
  - induction x as [|x l IH]; intros [|y k] [|z m]; simpl; [done..|].
    unfold then_with. destruct (cmp x y) eqn:E1; [|intros _|done].
    + apply (cmp_eq_iff cmp) in E1 as ->. destruct (cmp y z); [|done..]. apply IH.
    + destruct (cmp y z) eqn:E2; [intros _|intros _|done].
      * apply (cmp_eq_iff cmp) in E2 as <-. by rewrite E1.
      * by rewrite (cmp_lt_trans cmp _ _ _ E1 E2).
Qed.

(** [cmp::max] and [cmp::min] of an [Ord] type: [max] keeps the second
    argument on ties, [min] the first. *)
Definition cmp_max {A} (cmp : A → A → comparison) (x y : A) : A :=
  match cmp x y with Gt => x | _ => y end.
Definition cmp_min {A} (cmp : A → A → comparison) (x y : A) : A :=
  match cmp x y with Gt => y | _ => x end.

(** ** Vectors *)

(** [Vec::resize] with a fill value; shrinks or extends. *)
Definition resize {A} (l : list A) (n : nat) (d : A) : list A :=
  take n l ++ replicate (n - length l) d.

(** [slice::get(i).copied().unwrap_or(d)] at a [Z] index. *)
Definition get_or {A} (l : list A) (i : Z) (d : A) : A :=
  if i <? 0 then d else default d (l !! Z.to_nat i).

Lemma length_resize {A} (l : list A) n d : length (resize l n d) = n.
Proof. unfold resize. rewrite length_app, length_take, length_replicate. lia. Qed.

Lemma resize_lookup_default (l : list Z) n i :
  (length l ≤ n)%nat → default 0 (resize l n 0 !! i) = default 0 (l !! i).
Proof.
  intros Hn. unfold resize. rewrite take_ge by done.
  destruct (decide (i < length l)%nat) as [Hi|Hi].
  - by rewrite lookup_app_l.
  - rewrite lookup_app_r by lia. rewrite (lookup_ge_None_2 l) by lia. simpl.
    destruct (replicate _ _ !! _) eqn:E; [|done].
    by apply lookup_replicate in E as [-> _].
Qed.

(** ** Packing two words into one *)

Lemma lor_shiftl_add n a b :
  0 ≤ n → 0 ≤ b < 2 ^ n → Z.lor (Z.shiftl a n) b = a * 2 ^ n + b.
Proof.
  intros Hn Hb. rewrite <- Z.shiftl_mul_pow2 by done.
  assert (Z.land (Z.shiftl a n) b = 0) as HL.
  { apply Z.bits_inj'. intros i Hi. rewrite Z.land_spec, Z.bits_0.
    destruct (Z.lt_ge_cases i n).
    - by rewrite Z.shiftl_spec_low.
    - rewrite <- (Z.mod_small b (2 ^ n)) by done.
      rewrite Z.mod_pow2_bits_high by lia. apply andb_false_r. }
  rewrite <- (Z.lxor_lor _ _ HL). symmetry. by apply Z.add_nocarry_lxor.
Qed.

(** [((hi as u64) << 32) | lo] for [u32] words does not lose bits. *)
Lemma pack32 a b : u32_ok a → u32_ok b → Z.lor (wrap64 (Z.shiftl a 32)) b = a * 2 ^ 32 + b.
Proof.
  intros Ha Hb. rewrite wrap64_id.
  - apply lor_shiftl_add; width.
  - rewrite Z.shiftl_mul_pow2 by lia. width.
Qed.

(** Comparing packed words is comparing them lexicographically. *)
Lemma pack32_compare a b c d :
  u32_ok a → u32_ok b → u32_ok c → u32_ok d →
  Z.compare (Z.lor (wrap64 (Z.shiftl a 32)) b) (Z.lor (wrap64 (Z.shiftl c 32)) d)
  = then_with (Z.compare a c) (Z.compare b d).
Proof.
  intros. rewrite !pack32 by done. unfold in_width, then_with in *.
  destruct (Z.compare_spec a c); subst.
  - destruct (Z.compare_spec b d); subst; rewrite ?Z.compare_eq_iff, ?Z.compare_lt_iff,
      ?Z.compare_gt_iff; lia.
  - apply Z.compare_lt_iff. lia.
  - apply Z.compare_gt_iff. lia.
Qed.

(** ** Strings

    A [&str] is the list of its Unicode scalar values; its UTF-8 length is the
    sum of the lengths of the encodings of its characters. *)
Abbreviation str := (list Z).

Definition newline : Z := 10.
Definition tab : Z := 9.
Definition space : Z := 32.
Definition carriage_return : Z := 13.

(** [char::len_utf8] and [char::len_utf16] *)
Definition len_utf8 (c : Z) : Z :=
  if c <? 0x80 then 1 else if c <? 0x800 then 2 else if c <? 0x10000 then 3 else 4.
Definition len_utf16 (c : Z) : Z := if c <? 0x10000 then 1 else 2.

(** [str::len]: the length in bytes. *)
Fixpoint str_len (s : str) : Z :=
  match s with [] => 0 | c :: s => len_utf8 c + str_len s end.

(** [str::split(sep)] for a single character. *)
Fixpoint str_split (sep : Z) (s : str) : list str :=
  match s with
  | [] => [[]]
  | c :: s =>
      if c =? sep then [] :: str_split sep s
      else match str_split sep s with
           | l :: ls => (c :: l) :: ls
           | [] => [[c]]
           end
  end.

Lemma len_utf8_bounds c : 1 ≤ len_utf8 c ≤ 4.
Proof. unfold len_utf8. repeat split_if; lia. Qed.
Lemma len_utf16_bounds c : 1 ≤ len_utf16 c ≤ len_utf8 c.
Proof.
  unfold len_utf16, len_utf8. repeat split_if; reflect; lia.
Qed.
Lemma str_len_app s t : str_len (s ++ t) = str_len s + str_len t.
Proof. induction s; simpl; lia. Qed.
Lemma str_len_nonneg s : 0 ≤ str_len s.
Proof. induction s as [|c s IH]; simpl; [lia|]. pose proof (len_utf8_bounds c). lia. Qed.
Lemma str_split_nonempty sep s : str_split sep s ≠ [].
Proof. destruct s as [|c s]; simpl; [done|]. repeat split_if; done. Qed.

(** ** Loops

    A [while] loop as the iteration of its body: [None] is a panic, [inl] the
    next iteration, [inr] the exit. *)
Fixpoint iterate {A R} (step : A → option (A + R)) (fuel : nat) (s : A) : option R :=
  match fuel with
  | O => None
  | S fuel =>
      match step s with
      | Some (inl s) => iterate step fuel s
      | Some (inr r) => Some r
      | None => None
      end
  end.

(** Two loops that do the same, up to what is forgotten of the first one's state. *)
Lemma iterate_map {A B R S} (f : A → B) (g : R → S) (step : A → option (A + R)) (step' : B → option (B + S)) fuel s :
  (∀ s, step' (f s) = sum_map f g <$> step s) → iterate step' fuel (f s) = g <$> iterate step fuel s.
Proof.
  intros H. revert s. induction fuel as [|fuel IH]; intros s; cbn; [done|]. rewrite H.
  destruct (step s) as [[s'|r]|]; cbn; [apply IH|done..].
Qed.

(** [reaches step n s s']: [n] iterations lead from [s] to [s']. *)
Definition reaches {A R} (step : A → option (A + R)) (n : nat) (s s' : A) : Prop :=
  ∀ fuel, iterate step (n + fuel) s = iterate step fuel s'.

Lemma reaches_refl {A R} (step : A → option (A + R)) s : reaches step 0 s s.
Proof. by intros fuel. Qed.
Lemma reaches_step {A R} (step : A → option (A + R)) n s s1 s2 :
  step s = Some (inl s1) → reaches step n s1 s2 → reaches step (S n) s s2.
Proof. intros H Hr fuel. cbn. rewrite H. apply Hr. Qed.
Lemma reaches_trans {A R} (step : A → option (A + R)) n m s1 s2 s3 :
  reaches step n s1 s2 → reaches step m s2 s3 → reaches step (n + m) s1 s3.
Proof. intros H1 H2 fuel. rewrite <- Nat.add_assoc, H1. apply H2. Qed.
Lemma iterate_exit {A R} (step : A → option (A + R)) n fuel s s' r :
  reaches step n s s' → step s' = Some (inr r) → (n < fuel)%nat → iterate step fuel s = Some r.
Proof.
  intros H Hs Hf. replace fuel with (n + S (fuel - n - 1))%nat by lia. rewrite H. cbn. by rewrite Hs.
Qed.
