(* ===== verification/Clock.v ===== *)
(** Logical clocks of the collaborative editor: replica ids, Lamport
  timestamps and version vectors ([crates/clock/src/clock.rs]). *)
From S2P Require Import Prelude.

(** ** ReplicaId: a newtype over [u16] *)
Module ReplicaId.
(** [crates/clock/src/clock.rs:14-14] ReplicaId *)
Record t := mk { id : Z }.
#[global] Instance eq_dec : EqDecision t.
Proof. solve_decision. Defined.

(** [crates/clock/src/clock.rs:18-18] ReplicaId::LOCAL *)
Definition LOCAL : t := mk 0.
(** [crates/clock/src/clock.rs:20-20] ReplicaId::REMOTE_SERVER *)
Definition REMOTE_SERVER : t := mk 1.
(** [crates/clock/src/clock.rs:22-22] ReplicaId::AGENT *)
Definition AGENT : t := mk 2.
(** [crates/clock/src/clock.rs:24-24] ReplicaId::LOCAL_BRANCH *)
Definition LOCAL_BRANCH : t := mk 3.
(** [crates/clock/src/clock.rs:26-26] ReplicaId::FIRST_COLLAB_ID *)
Definition FIRST_COLLAB_ID : t := mk 8.

(** [crates/clock/src/clock.rs:28-30] ReplicaId::new *)
Definition new (n : Z) : t := mk n.
(** [crates/clock/src/clock.rs:32-34] ReplicaId::as_u16 *)
Definition as_u16 (r : t) : Z := id r.
(** The derived [Ord] of the newtype.
    [crates/clock/src/clock.rs:13-13] Ord for ReplicaId *)
Definition cmp (a b : t) : comparison := Z.compare (id a) (id b).
(** [crates/clock/src/clock.rs:36-38] ReplicaId::is_remote *)
Definition is_remote (r : t) : bool :=
  bool_decide (r = REMOTE_SERVER) || is_ge (cmp r FIRST_COLLAB_ID).

Definition ok (r : t) : Prop := u16_ok (id r).

Lemma id_inj a b : id a = id b → a = b.
Proof. destruct a, b; simpl; congruence. Qed.
#[global] Instance cmp_total : TotalCmp cmp.
Proof.
  split; unfold cmp.
  - intros x y. rewrite Z.compare_eq_iff. split; [apply id_inj|congruence].
  - intros. apply (cmp_antisym Z.compare).
  - intros x y z. apply (cmp_lt_trans Z.compare).
Qed.
End ReplicaId.

(** ** Lamport timestamps *)
Module Lamport.
(** [Seq] is [u32].
    [crates/clock/src/clock.rs:63-66] Lamport *)
Record t := mk { value : Z; replica_id : ReplicaId.t }.
#[global] Instance eq_dec : EqDecision t.
Proof. solve_decision. Defined.

Definition ok (t : t) : Prop := u32_ok (value t) ∧ ReplicaId.ok (replica_id t).

(** Closes [ok] goals on concrete timestamps. *)
Ltac lamport_ok := closed_arith.

(** [crates/clock/src/clock.rs:230-233] Lamport::MIN *)
Definition MIN : t := mk 0 (ReplicaId.mk 0).
(** [crates/clock/src/clock.rs:235-238] Lamport::MAX *)
Definition MAX : t := mk u32_MAX (ReplicaId.mk u16_MAX).

(** [crates/clock/src/clock.rs:214-221] Ord for Lamport *)
Definition cmp (a b : t) : comparison :=
  then_with (Z.compare (value a) (value b))
            (ReplicaId.cmp (replica_id a) (replica_id b)).

(** [crates/clock/src/clock.rs:240-245] Lamport::new *)
Definition new (r : ReplicaId.t) : t := mk 1 r.

(** [crates/clock/src/clock.rs:247-249] Lamport::as_u64 *)
Definition as_u64 (t : t) : Z :=
  Z.lor (wrap64 (Z.shiftl (value t) 32)) (ReplicaId.id (replica_id t)).

(** Returns the timestamp issued and the clock after it.
    [crates/clock/src/clock.rs:251-255] Lamport::tick *)
Definition tick (c : t) : t * t := (c, mk (value c +w32 1) (replica_id c)).

(** [crates/clock/src/clock.rs:257-259] Lamport::observe *)
Definition observe (c timestamp : t) : t :=
  mk (Z.max (value c) (value timestamp) +w32 1) (replica_id c).

#[global] Instance cmp_total : TotalCmp cmp.
Proof.
  apply (then_with_total value replica_id); [apply _..|].
  intros [] [] ??; simpl in *; congruence.
Qed.

(** A timestamp strictly precedes another in the total order of events. *)
Abbreviation lamport_lt a b := (cmp a b = Lt).

(** Packing a timestamp into a [u64] preserves and reflects the order of events, so
    the packed value identifies the timestamp; ties between replicas are
    broken by the replica id and the order is total and strict. *)
Theorem as_u64_order a b :
  ok a → ok b →
  Z.compare (as_u64 a) (as_u64 b) = cmp a b ∧
  u64_ok (as_u64 a) ∧ (as_u64 a = as_u64 b → a = b).
Proof.
  intros [Ha Ha'] [Hb Hb']. unfold ReplicaId.ok in *.
  assert (Z.compare (as_u64 a) (as_u64 b) = cmp a b) as E.
  { unfold as_u64, cmp, ReplicaId.cmp. apply pack32_compare; width. }
  split_and!; [done| |].
  - unfold as_u64. rewrite pack32 by width. width.
  - intros Heq. apply (cmp_eq_iff cmp). rewrite <- E. by apply Z.compare_eq_iff.
Qed.

Lemma as_u64_order_witness :
  let a := mk 3 (ReplicaId.mk 9) in let b := mk 3 (ReplicaId.mk 8) in
  cmp a b = Gt ∧ Z.compare (as_u64 a) (as_u64 b) = Gt.
Proof.
  intros a b. split; [reflexivity|].
  rewrite (proj1 (as_u64_order a b ltac:(lamport_ok) ltac:(lamport_ok))). reflexivity.
Defined.

(** C39: Clocks respect causality: the timestamps a replica issues increase, and every
    timestamp it issues after observing a remote one is later than it, as
    long as the 32-bit counter has not reached its last value. *)
Theorem tick_observe_causal (c ts : t) :
  ok c → ok ts → value c < u32_MAX → value ts < u32_MAX →
  let (t1, c1) := tick c in
  lamport_lt t1 (fst (tick c1)) ∧ replica_id c1 = replica_id c ∧
  lamport_lt ts (fst (tick (observe c ts))) ∧
  lamport_lt t1 (fst (tick (observe c ts))) ∧ ok (observe c ts).
Proof.
  intros [Hc Hcr] [Ht Htr] H1 H2. unfold tick, observe, cmp, ok, then_with. simpl.
  rewrite !wrap32_id by width.
  rewrite !(proj2 (Z.compare_lt_iff _ _)) by lia.
  split_and!; try done; width.
Qed.

Lemma tick_observe_causal_witness :
  let c := mk 4 (ReplicaId.mk 0) in let ts := mk 9 (ReplicaId.mk 8) in
  lamport_lt ts (fst (tick (observe c ts))).
Proof.
  intros c ts.
  exact (proj1 (proj2 (proj2 (tick_observe_causal c ts ltac:(lamport_ok)
    ltac:(lamport_ok) ltac:(closed_arith) ltac:(closed_arith))))).
Defined.
End Lamport.

(** ** Global: version vectors *)
Module Global.
(** The vector is indexed by replica id; a missing entry reads as 0. The
    derived [PartialEq] is Leibniz equality of the vectors.
    [crates/clock/src/clock.rs:69-74] Global *)
Record t := mk { values : list Z }.
#[global] Instance eq_dec : EqDecision t.
Proof. solve_decision. Defined.

(** [crates/clock/src/clock.rs:91-93] Global::new *)
Definition new : t := mk [].

(** [crates/clock/src/clock.rs:96-98] Global::get *)
Definition get (g : t) (r : ReplicaId.t) : Z :=
  get_or (values g) (ReplicaId.id r) 0.

(** [crates/clock/src/clock.rs:103-114] Global::observe *)
Definition observe (g : t) (ts : Lamport.t) : t :=
  if 0 <? Lamport.value ts then
    let ix := Z.to_nat (ReplicaId.id (Lamport.replica_id ts)) in
    let new_len := (ix + 1)%nat in
    let vs := if (length (values g) <? new_len)%nat
              then resize (values g) new_len 0 else values g in
    mk (alter (λ entry, Z.max entry (Lamport.value ts)) ix vs)
  else g.

(** [for (left, right) in self.values.iter_mut().zip(&other.values)]: the
    overlapping prefix is updated, the rest of the left vector is kept. *)
Fixpoint zip_update (f : Z → Z → Z) (l k : list Z) : list Z :=
  match l, k with
  | x :: l, y :: k => f x y :: zip_update f l k
  | l, _ => l
  end.

(** The resize at the head of [join] and [meet].
    [crates/clock/src/clock.rs:121-123] Global::join *)
Definition widen (self other : t) : list Z :=
  if (length (values self) <? length (values other))%nat
  then resize (values self) (length (values other)) 0 else values self.

(** [crates/clock/src/clock.rs:120-128] Global::join *)
Definition join (self other : t) : t :=
  let vs := widen self other in
  mk (zip_update Z.max vs (values other)).

(** One step of the match on the two entries of [Global::meet].
    [crates/clock/src/clock.rs:140-146] Global::meet *)
Definition meet_entry (left right : Z) : Z :=
  if left =? 0 then right else if right =? 0 then left else Z.min left right.

(** The [new_len] computed by the loop: one past the last non-zero entry
    among the processed ones. *)
Fixpoint meet_new_len (ix : nat) (l k : list Z) (new_len : nat) : nat :=
  match l, k with
  | x :: l, y :: k =>
      meet_new_len (S ix) l k (if meet_entry x y =? 0 then new_len else S ix)
  | _, _ => new_len
  end.

(** [crates/clock/src/clock.rs:133-158] Global::meet *)
Definition meet (self other : t) : t :=
  let vs := widen self other in
  let new_len := meet_new_len 0 vs (values other) 0 in
  let vs' := zip_update meet_entry vs (values other) in
  if (length (values other) =? length vs')%nat
  then mk (take new_len vs') else mk vs'.

(** [crates/clock/src/clock.rs:160-162] Global::observed *)
Definition observed (g : t) (ts : Lamport.t) : bool :=
  Lamport.value ts <=? get g (Lamport.replica_id ts).

(** [crates/clock/src/clock.rs:193-201] Global::iter *)
Definition iter (g : t) : list Lamport.t :=
  imap (λ ix seq, Lamport.mk seq (ReplicaId.mk (wrap16 (Z.of_nat ix)))) (values g).

(** [crates/clock/src/clock.rs:164-168] Global::observed_any *)
Definition observed_any (self other : t) : bool :=
  existsb (λ '(l, r),
      (0 <? Lamport.value r) && (Lamport.value r <=? Lamport.value l))
    (zip (iter self) (iter other)).

(** [crates/clock/src/clock.rs:170-177] Global::observed_all *)
Definition observed_all (self other : t) : bool :=
  if (length (values self) <? length (values other))%nat then false
  else forallb (λ '(l, r), Lamport.value r <=? Lamport.value l)
         (zip (iter self) (iter other)).

(** [crates/clock/src/clock.rs:179-186] Global::changed_since *)
Definition changed_since (self other : t) : bool :=
  (length (values other) <? length (values self))%nat
  || existsb (λ '(l, r), r <? l) (zip (values self) (values other)).

(** [Iterator::max_by_key] keeps the last of the maximal elements.
    [crates/clock/src/clock.rs:188-190] Global::most_recent *)
Definition most_recent (g : t) : option Lamport.t :=
  foldl (λ acc ts,
      match acc with
      | None => Some ts
      | Some best => if Lamport.value ts <? Lamport.value best then Some best else Some ts
      end) None (iter g).

(** [crates/clock/src/clock.rs:204-212] FromIterator for Global *)
Definition from_iter (locals : list Lamport.t) : t := foldl observe new locals.

(** *** Well-formedness

    Entries are [u32] values, and a vector that is not empty ends in a
    non-zero entry: every constructor and operation of the type keeps it so,
    which is what makes the derived equality and the length comparisons of
    [observed_all] and [changed_since] agree with the entries. *)
Definition normalized (g : t) : Prop :=
  ∀ x, last (values g) = Some x → x ≠ 0.
Definition entries_ok (g : t) : Prop := Forall u32_ok (values g).
Definition wf (g : t) : Prop := entries_ok g ∧ normalized g.

(** Two vectors that read the same everywhere. *)
Definition same (g h : t) : Prop := ∀ r, get g r = get h r.

Definition nth (g : t) (i : nat) : Z := default 0 (values g !! i).

Lemma get_nth g r : 0 ≤ ReplicaId.id r → get g r = nth g (Z.to_nat (ReplicaId.id r)).
Proof. intros. unfold get, get_or, nth. by rewrite (proj2 (Z.ltb_ge _ _)). Qed.

Lemma get_neg g r : ReplicaId.id r < 0 → get g r = 0.
Proof. intros. unfold get, get_or. by rewrite (proj2 (Z.ltb_lt _ _)). Qed.

Lemma nth_get g i : nth g i = get g (ReplicaId.mk (Z.of_nat i)).
Proof. rewrite get_nth by (simpl; lia). simpl. by rewrite Nat2Z.id. Qed.

Lemma same_nth g h : same g h ↔ ∀ i, nth g i = nth h i.
Proof.
  split; intros H i; [by rewrite !nth_get|].
  destruct (Z.le_gt_cases 0 (ReplicaId.id i)).
  - by rewrite !get_nth.
  - by rewrite !get_neg.
Qed.

Lemma nth_ge g i : (length (values g) ≤ i)%nat → nth g i = 0.
Proof. intros. unfold nth. by rewrite lookup_ge_None_2. Qed.

Lemma nth_nonneg g i : entries_ok g → 0 ≤ nth g i.
Proof.
  intros H. unfold nth. destruct (values g !! i) eqn:E; simpl; [|lia].
  eapply Forall_lookup_1 in H; [|done]. width.
Qed.

Lemma normalized_last g n :
  normalized g → length (values g) = S n → nth g n ≠ 0.
Proof.
  intros Hn Hl. unfold nth. assert (∃ x, values g !! n = Some x) as [x Hx]
    by (apply lookup_lt_is_Some; lia).
  rewrite Hx. simpl. apply Hn. rewrite last_lookup, Hl. done.
Qed.

Lemma lookup_zip_update f l k i :
  (length k ≤ length l)%nat →
  zip_update f l k !! i =
    match l !! i with
    | Some x => Some (match k !! i with Some y => f x y | None => x end)
    | None => None
    end.
Proof.
  revert k i. induction l as [|x l IH]; intros [|y k] [|i] H; simpl in *;
    try done; try lia; [by destruct (l !! i)|apply IH; lia].
Qed.

Lemma length_zip_update f l k : length (zip_update f l k) = length l.
Proof. revert k. induction l; intros [|??]; simpl; auto. Qed.

Lemma widen_length self other :
  length (widen self other) = Nat.max (length (values self)) (length (values other)).
Proof.
  unfold widen. destruct (Nat.ltb_spec (length (values self)) (length (values other)));
    rewrite ?length_resize; lia.
Qed.

Lemma widen_lookup self other i :
  default 0 (widen self other !! i) = nth self i.
Proof.
  unfold nth, widen. destruct (Nat.ltb_spec (length (values self)) (length (values other))).
  - apply resize_lookup_default. lia.
  - done.
Qed.

Lemma nth_zip_widen f self other i :
  f 0 0 = 0 → (∀ x, f x 0 = x) →
  nth (mk (zip_update f (widen self other) (values other))) i
  = f (nth self i) (nth other i).
Proof.
  intros H00 Hx0. unfold nth at 1. cbn [values].
  pose proof (widen_length self other) as Hl.
  rewrite lookup_zip_update by lia.
  destruct (widen self other !! i) as [x|] eqn:E.
  - simpl. rewrite <- (widen_lookup self other), E. simpl.
    unfold nth. destruct (values other !! i); simpl; auto.
  - apply lookup_ge_None_1 in E. rewrite !nth_ge by lia. done.
Qed.

Lemma nth_join self other i :
  entries_ok self → nth (join self other) i = Z.max (nth self i) (nth other i).
Proof.
  intros Hok. unfold join.
  destruct (decide (i < length (values other))%nat) as [Hi|Hi].
  - unfold nth at 1. cbn [values].
    pose proof (widen_length self other) as Hl.
    rewrite lookup_zip_update by lia.
    rewrite <- (widen_lookup self other).
    destruct (widen self other !! i) as [x|] eqn:E.
    + unfold nth. destruct (lookup_lt_is_Some_2 (values other) i Hi) as [y ->]. done.
    + apply lookup_ge_None_1 in E. lia.
  - rewrite (nth_ge other) by lia.
    pose proof (nth_nonneg self i Hok).
    unfold nth at 1. cbn [values].
    pose proof (widen_length self other) as Hl.
    rewrite lookup_zip_update by lia. rewrite (lookup_ge_None_2 (values other)) by lia.
    rewrite Z.max_l by lia. rewrite <- (widen_lookup self other).
    by destruct (_ !! i).
Qed.

Lemma nth_take n vs i : nth (mk (take n vs)) i = if decide (i < n)%nat then nth (mk vs) i else 0.
Proof.
  unfold nth. cbn [values]. case_decide.
  - by rewrite lookup_take_lt.
  - by rewrite lookup_take_ge by lia.
Qed.

(** Everything the loop of [meet] saw from [new_len] on is zero, and the entry
    just before it is not. *)
Lemma meet_new_len_spec l k ix n0 :
  length l = length k → (n0 ≤ ix)%nat →
  let n := meet_new_len ix l k n0 in
  (n0 ≤ n ≤ ix + length l)%nat ∧
  (∀ j x, (n ≤ ix + j)%nat → zip_update meet_entry l k !! j = Some x → x = 0) ∧
  (n = n0 ∨ ∃ j x, n = (ix + j + 1)%nat ∧ zip_update meet_entry l k !! j = Some x ∧ x ≠ 0).
Proof.
  revert k ix n0. induction l as [|x l IH]; intros [|y k] ix n0 Hl Hn; simpl in *; try lia.
  - split_and!; [lia|lia| |by left]. intros j ? _. by rewrite lookup_nil.
  - destruct (meet_entry x y =? 0) eqn:E; reflect.
    + destruct (IH k (S ix) n0) as (B & Z0 & NZ); [lia..|].
      split_and!; [lia|lia| |].
      * intros [|j] z Hj; simpl; [congruence|]. apply Z0. lia.
      * destruct NZ as [NZ|(j & z & -> & Hz & ?)]; [by left|right].
        exists (S j), z. split_and!; [lia|done..].
    + destruct (IH k (S ix) (S ix)) as (B & Z0 & NZ); [lia..|].
      split_and!; [lia|lia| |].
      * intros [|j] z Hj; simpl; [lia|]. apply Z0. lia.
      * right. destruct NZ as [->|(j & z & -> & Hz & ?)].
        -- exists 0%nat, (meet_entry x y). split_and!; [lia|done..].
        -- exists (S j), z. split_and!; [lia|done..].
Qed.

Lemma meet_entry_00 : meet_entry 0 0 = 0. Proof. done. Qed.
Lemma meet_entry_x0 x : meet_entry x 0 = x.
Proof. unfold meet_entry. by destruct (Z.eqb_spec x 0). Qed.

Lemma nth_meet self other i :
  nth (meet self other) i = meet_entry (nth self i) (nth other i).
Proof.
  unfold meet. rewrite length_zip_update.
  pose proof (widen_length self other) as Hl.
  destruct (Nat.eqb_spec (length (values other)) (length (widen self other))) as [E|E].
  - rewrite nth_take. case_decide as Hi.
    + apply nth_zip_widen; [done|apply meet_entry_x0].
    + rewrite <- (nth_zip_widen meet_entry) by (done || apply meet_entry_x0).
      destruct (meet_new_len_spec (widen self other) (values other) 0 0) as (_ & Z0 & _);
        [done|lia|].
      unfold nth. cbn [values].
      destruct (zip_update _ _ _ !! i) as [x|] eqn:Ex; [|done].
      simpl. symmetry. apply (Z0 i x); [lia|done].
  - apply nth_zip_widen; [done|apply meet_entry_x0].
Qed.

Lemma nth_observe_pos g ts i :
  nth (observe g ts) i =
    if decide (0 < Lamport.value ts ∧ i = Z.to_nat (ReplicaId.id (Lamport.replica_id ts)))
    then Z.max (nth g i) (Lamport.value ts) else nth g i.
Proof.
  unfold observe. destruct (Z.ltb_spec 0 (Lamport.value ts)) as [Hpos|Hpos]; [|by rewrite decide_False by lia].
  set (ix := Z.to_nat _). unfold nth at 1. cbn [values]. rewrite list_lookup_alter.
  set (vs := if (_ <? _)%nat then _ else _).
  assert (∀ j, default 0 (vs !! j) = nth g j) as Hvs.
  { intros j. unfold vs. case_match eqn:E; [|done]. apply Nat.ltb_lt in E. apply resize_lookup_default. lia. }
  assert (ix < length vs)%nat as Hix.
  { unfold vs. case_match eqn:E; [rewrite length_resize; lia|]. apply Nat.ltb_ge in E. lia. }
  rewrite <- Hvs. destruct (decide (ix = i)) as [<-|D]; [rewrite decide_True by done|by rewrite decide_False by naive_solver].
  by destruct (lookup_lt_is_Some_2 vs ix Hix) as [x ->].
Qed.

Lemma nth_observe g ts i :
  entries_ok g → Lamport.ok ts →
  nth (observe g ts) i =
    if decide (i = Z.to_nat (ReplicaId.id (Lamport.replica_id ts)))
    then Z.max (nth g i) (Lamport.value ts) else nth g i.
Proof.
  intros Hg [Hv _]. rewrite nth_observe_pos. pose proof (nth_nonneg g i Hg). repeat case_decide; try done; [naive_solver|].
  subst. width.
Qed.

Lemma length_observe g ts :
  length (values (observe g ts)) =
    if 0 <? Lamport.value ts
    then Nat.max (length (values g)) (Z.to_nat (ReplicaId.id (Lamport.replica_id ts)) + 1)
    else length (values g).
Proof.
  unfold observe. split_if; [|done]. cbn [values]. rewrite length_alter.
  destruct (Nat.ltb_spec (length (values g))
    (Z.to_nat (ReplicaId.id (Lamport.replica_id ts)) + 1)); rewrite ?length_resize; lia.
Qed.
Lemma nth_eq g h : length (values g) = length (values h) → (∀ i, nth g i = nth h i) → g = h.
Proof.
  intros Hl H. destruct g as [vs], h as [ws]. cbn in *. f_equal. apply list_eq. intros i. specialize (H i). unfold nth in H. cbn in H.
  destruct (vs !! i) eqn:E1, (ws !! i) eqn:E2; cbn in H; try done; [by f_equal| |].
  - apply lookup_lt_Some in E1. apply lookup_ge_None in E2. lia.
  - apply lookup_lt_Some in E2. apply lookup_ge_None in E1. lia.
Qed.
Lemma observe_comm g t1 t2 : observe (observe g t1) t2 = observe (observe g t2) t1.
Proof.
  apply nth_eq; [rewrite !length_observe; repeat split_if; lia|]. intros i. rewrite !nth_observe_pos. repeat case_decide; lia.
Qed.

Lemma entries_ok_nth g : entries_ok g ↔ ∀ i, u32_ok (nth g i).
Proof.
  unfold entries_ok, nth. split.
  - intros H i. destruct (values g !! i) eqn:E; [|simpl; width].
    simpl. by eapply Forall_lookup_1.
  - intros H. apply Forall_lookup_2. intros i x Hx. specialize (H i). by rewrite Hx in H.
Qed.

Lemma normalized_intro g :
  (∀ n, length (values g) = S n → nth g n ≠ 0) → normalized g.
Proof.
  intros H x Hx. rewrite last_lookup in Hx.
  destruct (length (values g)) as [|n] eqn:El; simpl in Hx.
  - apply length_zero_iff_nil in El. by rewrite El in Hx.
  - specialize (H n eq_refl). unfold nth in H. by rewrite Hx in H.
Qed.

Lemma wf_new : wf new.
Proof. split; [constructor|]. intros x. done. Qed.

Lemma wf_observe g ts : wf g → Lamport.ok ts → wf (observe g ts).
Proof.
  intros [He Hn] Hts. split.
  - apply entries_ok_nth. intros i. rewrite nth_observe by done.
    pose proof (proj1 (entries_ok_nth g) He i). destruct Hts. case_decide; width.
  - apply normalized_intro. intros n. rewrite length_observe, nth_observe by done.
    destruct (Z.ltb_spec 0 (Lamport.value ts)) as [Hp|Hp].
    + intros Hl. case_decide as D; [lia|]. apply normalized_last; [done|]. lia.
    + intros Hl. pose proof (normalized_last g n Hn Hl).
      pose proof (nth_nonneg g n He). case_decide; lia.
Qed.

Lemma wf_join self other : wf self → wf other → wf (join self other).
Proof.
  intros [He Hn] [He' Hn']. split.
  - apply entries_ok_nth. intros i. rewrite nth_join by done.
    pose proof (proj1 (entries_ok_nth self) He i).
    pose proof (proj1 (entries_ok_nth other) He' i). width.
  - apply normalized_intro. intros n. rewrite nth_join by done.
    unfold join. cbn [values]. rewrite length_zip_update, widen_length. intros Hl.
    pose proof (nth_nonneg self n He). pose proof (nth_nonneg other n He').
    destruct (Nat.max_spec (length (values self)) (length (values other))) as [[? E]|[? E]];
      rewrite E in Hl.
    + pose proof (normalized_last other n Hn' Hl). lia.
    + pose proof (normalized_last self n Hn Hl). lia.
Qed.

Lemma wf_meet self other : wf self → wf other → wf (meet self other).
Proof.
  intros [He Hn] [He' Hn']. split.
  - apply entries_ok_nth. intros i. rewrite nth_meet. unfold meet_entry.
    pose proof (proj1 (entries_ok_nth self) He i).
    pose proof (proj1 (entries_ok_nth other) He' i).
    repeat split_if; width.
  - apply normalized_intro. unfold meet. rewrite length_zip_update.
    pose proof (widen_length self other) as Hl.
    destruct (Nat.eqb_spec (length (values other)) (length (widen self other))) as [E|E];
      cbn [values]; intros n.
    + rewrite length_take, length_zip_update, nth_take.
      destruct (meet_new_len_spec (widen self other) (values other) 0 0) as (B & _ & NZ);
        [done|lia|].
      intros Hlen. rewrite decide_True by lia. destruct NZ as [NZ|(j & x & Ej & Hx & Hx0)]; [lia|].
      unfold nth. cbn [values]. replace n with j by lia. by rewrite Hx.
    + intros Hlen. rewrite length_zip_update in Hlen.
      rewrite nth_zip_widen by (done || apply meet_entry_x0).
      rewrite (nth_ge other) by lia. rewrite meet_entry_x0.
      apply normalized_last; [done|lia].
Qed.

(** Well-formed vectors that read the same are equal: the derived equality of
    the type is equality of the observed sequence numbers. *)
Lemma wf_ext g h : wf g → wf h → same g h → g = h.
Proof.
  intros [Hg Ng] [Hh Nh] H. rewrite same_nth in H.
  assert (length (values g) = length (values h)) as Hl.
  { destruct (Nat.lt_trichotomy (length (values g)) (length (values h))) as [L|[L|L]]; [|done|].
    - destruct (length (values h)) as [|n] eqn:E; [lia|].
      pose proof (normalized_last h n Nh E). rewrite <- H, nth_ge in H0 by lia. done.
    - destruct (length (values g)) as [|n] eqn:E; [lia|].
      pose proof (normalized_last g n Ng E). rewrite H, nth_ge in H0 by lia. done. }
  destruct g as [l], h as [k]. f_equal. apply list_eq_same_length with (length l); [done|done|].
  intros i x y Hi Hx Hy. specialize (H i). unfold nth in H. cbn in *.
  by rewrite Hx, Hy in H.
Qed.

Lemma iter_values g : Lamport.value <$> iter g = values g.
Proof.
  unfold iter. rewrite fmap_imap. transitivity (imap (λ _ x, x) (values g)); [done|].
  generalize (values g). clear. intros l. induction l as [|x l IH]; [done|].
  rewrite imap_cons. f_equal. exact IH.
Qed.

(** The two scans over zipped iterators only look at the sequence numbers. *)
Lemma existsb_zip_iter (p : Z → Z → bool) a b :
  existsb (λ '(l, r), p (Lamport.value l) (Lamport.value r)) (zip (iter a) (iter b)) = true ↔
  ∃ i x y, values a !! i = Some x ∧ values b !! i = Some y ∧ p x y = true.
Proof.
  rewrite <- (iter_values a), <- (iter_values b).
  generalize (iter a) (iter b). clear. intros l k.
  split.
  - rewrite existsb_exists. intros ([x y] & Hin & Hp).
    apply list_elem_of_In, list_elem_of_lookup in Hin as [i Hi].
    apply lookup_zip_Some in Hi as [Hx Hy].
    exists i, (Lamport.value x), (Lamport.value y). by rewrite !list_lookup_fmap, Hx, Hy.
  - intros (i & x & y & Hx & Hy & Hp). rewrite list_lookup_fmap in Hx, Hy.
    apply fmap_Some in Hx as (tx & Hx & ->). apply fmap_Some in Hy as (ty & Hy & ->).
    apply existsb_exists. exists (tx, ty). split; [|done].
    apply list_elem_of_In, list_elem_of_lookup. exists i.
    by apply lookup_zip_Some.
Qed.

Lemma forallb_zip_iter (p : Z → Z → bool) a b :
  forallb (λ '(l, r), p (Lamport.value l) (Lamport.value r)) (zip (iter a) (iter b)) = true ↔
  ∀ i x y, values a !! i = Some x → values b !! i = Some y → p x y = true.
Proof.
  pose proof (existsb_zip_iter (λ x y, negb (p x y)) a b) as H. cbv beta in H.
  assert (∀ (q : Lamport.t * Lamport.t → bool) l,
    existsb (λ x, negb (q x)) l = negb (forallb q l)) as Hneg.
  { intros q l. induction l as [|x l IH]; simpl; [done|]. rewrite IH. by destruct (q x). }
  assert (existsb (λ '(l, r), negb (p (Lamport.value l) (Lamport.value r)))
    (zip (iter a) (iter b)) = negb (forallb (λ '(l, r),
      p (Lamport.value l) (Lamport.value r)) (zip (iter a) (iter b)))) as E.
  { rewrite <- Hneg. clear H. induction (zip (iter a) (iter b)) as [|[] ? IH]; simpl; [done|].
    by rewrite IH. }
  rewrite E in H. destruct (forallb _ _); simpl in H.
  - split; [|done]. intros _ i x y Hx Hy. destruct (p x y) eqn:Ep; [done|].
    destruct (proj2 H); [|done]. exists i, x, y. by rewrite Ep.
  - split; [done|]. intros Hall. destruct (proj1 H eq_refl) as (i & x & y & Hx & Hy & Hp).
    by rewrite (Hall i x y Hx Hy) in Hp.
Qed.

Lemma observed_any_iff a b :
  entries_ok a → entries_ok b →
  observed_any a b = true ↔ ∃ i, 0 < nth b i ∧ nth b i ≤ nth a i.
Proof.
  intros Ha Hb. unfold observed_any.
  rewrite (existsb_zip_iter (λ x y, (0 <? y) && (y <=? x))). split.
  - intros (i & x & y & Hx & Hy & Hp). reflect. exists i. unfold nth. by rewrite Hx, Hy.
  - intros (i & H1 & H2). unfold nth in *.
    destruct (values b !! i) as [y|] eqn:Ey; [|simpl in *; lia].
    destruct (values a !! i) as [x|] eqn:Ex; [|simpl in *; lia]. simpl in *.
    exists i, x, y. split_and!; [done..|]. apply andb_true_iff.
    by rewrite Z.ltb_lt, Z.leb_le.
Qed.

Lemma observed_all_nth a b :
  wf a → wf b → observed_all a b = true ↔ ∀ i, nth b i ≤ nth a i.
Proof.
  intros [Ha Na] [Hb Nb]. unfold observed_all.
  destruct (Nat.ltb_spec (length (values a)) (length (values b))) as [L|L].
  - split; [done|]. intros H. destruct (length (values b)) as [|n] eqn:E; [lia|].
    pose proof (normalized_last b n Nb E). pose proof (nth_nonneg b n Hb).
    specialize (H n). rewrite (nth_ge a) in H by lia. lia.
  - rewrite (forallb_zip_iter (λ x y, y <=? x)). split.
    + intros H i. unfold nth. destruct (values b !! i) as [y|] eqn:Ey; simpl.
      * destruct (lookup_lt_is_Some_2 (values a) i) as [x Ex];
          [apply lookup_lt_Some in Ey; lia|].
        rewrite Ex. simpl. specialize (H i x y Ex Ey). by reflect.
      * apply (nth_nonneg a i Ha).
    + intros H i x y Hx Hy. specialize (H i). unfold nth in H. rewrite Hx, Hy in H.
      by apply Z.leb_le.
Qed.

Lemma observed_all_get a b :
  wf a → wf b → observed_all a b = true ↔ ∀ r, get b r ≤ get a r.
Proof.
  intros Ha Hb. rewrite observed_all_nth by done. split; intros H r.
  - destruct (Z.le_gt_cases 0 (ReplicaId.id r)).
    + rewrite !get_nth by done. apply H.
    + by rewrite !get_neg.
  - rewrite !nth_get. apply H.
Qed.

Lemma changed_since_observed_all a b :
  changed_since a b = negb (observed_all b a).
Proof.
  unfold changed_since, observed_all.
  destruct (length (values b) <? length (values a))%nat; [done|]. simpl.
  rewrite <- (iter_values a), <- (iter_values b).
  generalize (iter a) (iter b). intros l. induction l as [|x l IH]; intros [|y k]; simpl;
    [done..|]. rewrite IH, negb_andb. f_equal.
  unfold negb. destruct (Z.ltb_spec (Lamport.value y) (Lamport.value x)),
    (Z.leb_spec (Lamport.value x) (Lamport.value y)); (done || lia).
Qed.

#[global] Instance same_equiv : Equivalence same.
Proof. split; unfold same; [done|by intros ?? H r|intros ??? H1 H2 r; by rewrite H1]. Qed.
#[global] Instance get_proper : Proper (same ==> eq ==> eq) get.
Proof. intros g h H r ? <-. apply H. Qed.
#[global] Instance observed_proper : Proper (same ==> eq ==> eq) observed.
Proof. intros g h H ts ? <-. unfold observed. by rewrite H. Qed.

(** ** Properties *)

(** Observing a timestamp raises exactly the entry of its replica, to the maximum of
    the old entry and the timestamp, keeps the vector well formed, and makes
    the timestamp observed. *)
Theorem observe_spec g ts :
  wf g → Lamport.ok ts →
  wf (observe g ts) ∧ observed (observe g ts) ts = true ∧
  ∀ r, ReplicaId.ok r →
    get (observe g ts) r =
      if decide (r = Lamport.replica_id ts) then Z.max (get g r) (Lamport.value ts) else get g r.
Proof.
  intros Hg Hts. pose proof (wf_observe g ts Hg Hts).
  assert (∀ r, ReplicaId.ok r → get (observe g ts) r =
      if decide (r = Lamport.replica_id ts) then Z.max (get g r) (Lamport.value ts) else get g r) as G.
  { intros r Hr. rewrite !get_nth, nth_observe by (done || apply Hg || apply Hr).
    destruct Hts as [_ Hid]. unfold ReplicaId.ok in *.
    destruct (decide (r = Lamport.replica_id ts)) as [->|Hne]; [by rewrite decide_True|].
    rewrite decide_False; [done|]. intros E. apply Hne, ReplicaId.id_inj. width. }
  split_and!; [done| |done].
  unfold observed. rewrite G by apply Hts. rewrite decide_True by done.
  apply Z.leb_le. lia.
Qed.

Lemma observe_spec_witness :
  let g := mk [0; 3] in let ts := Lamport.mk 5 (ReplicaId.mk 2) in
  wf (observe g ts) ∧ values (observe g ts) = [0; 3; 5].
Proof.
  assert (wf (mk [0; 3])) by (split; [repeat constructor; width|by intros x [= <-]]).
  assert (Lamport.ok (Lamport.mk 5 (ReplicaId.mk 2))) by Lamport.lamport_ok.
  intros g ts. split; [apply (observe_spec g ts); done|reflexivity].
Defined.

(** [join] is the least upper bound of two version vectors in the order
    [observed_all], keeps them well formed, and [changed_since] is the
    negation of that order; the order is antisymmetric for the derived
    equality, so replicas that observed the same events have equal versions. *)
Theorem join_least_upper_bound a b c :
  wf a → wf b → wf c →
  wf (join a b) ∧
  observed_all (join a b) a = true ∧ observed_all (join a b) b = true ∧
  (observed_all c a = true → observed_all c b = true → observed_all c (join a b) = true) ∧
  changed_since a b = negb (observed_all b a) ∧
  (observed_all a b = true → observed_all b a = true → a = b).
Proof.
  intros Ha Hb Hc. pose proof (wf_join a b Ha Hb) as Hj.
  rewrite !observed_all_nth by done. split_and!; [done|..].
  - intros i. rewrite nth_join by apply Ha. lia.
  - intros i. rewrite nth_join by apply Ha. lia.
  - intros H1 H2 i. rewrite nth_join by apply Ha. specialize (H1 i). specialize (H2 i). lia.
  - apply changed_since_observed_all.
  - intros H1 H2. apply wf_ext; [done..|]. apply same_nth. intros i.
    specialize (H1 i). specialize (H2 i). lia.
Qed.

Lemma join_least_upper_bound_witness :
  let a := mk [1; 0; 4] in let b := mk [0; 7] in let c := mk [1; 7; 4] in
  join a b = c ∧ observed_all c (join a b) = true.
Proof.
  assert (wf (mk [1; 0; 4])) by (split; [repeat constructor; width|by intros x [= <-]]).
  assert (wf (mk [0; 7])) by (split; [repeat constructor; width|by intros x [= <-]]).
  assert (wf (mk [1; 7; 4])) by (split; [repeat constructor; width|by intros x [= <-]]).
  intros a b c. split; [reflexivity|].
  apply (join_least_upper_bound a b c); try done; reflexivity.
Defined.

(** [meet] takes, entry by entry, the smaller of two observed sequence
    numbers and the observed one when only one side has observed the replica,
    whichever vector is longer, and never leaves trailing zero entries. *)
Theorem meet_spec a b :
  wf a → wf b →
  wf (meet a b) ∧ ∀ r, get (meet a b) r = meet_entry (get a r) (get b r).
Proof.
  intros Ha Hb. split; [by apply wf_meet|]. intros r.
  destruct (Z.le_gt_cases 0 (ReplicaId.id r)).
  - rewrite !get_nth by done. apply nth_meet.
  - by rewrite !get_neg.
Qed.

Lemma meet_spec_witness :
  let a := mk [5; 0; 4] in let b := mk [3; 7] in
  meet a b = mk [3; 7; 4] ∧ get (meet a b) (ReplicaId.mk 0) = 3.
Proof.
  assert (wf (mk [5; 0; 4])) by (split; [repeat constructor; width|by intros x [= <-]]).
  assert (wf (mk [3; 7])) by (split; [repeat constructor; width|by intros x [= <-]]).
  intros a b. split; [reflexivity|].
  rewrite (proj2 (meet_spec a b ltac:(done) ltac:(done))). reflexivity.
Defined.
End Global.
