(* ===== verification/Locator.v ===== *)
(** Dense positions that order the fragments of a buffer
    ([crates/text/src/locator.rs]): sequences of [u64] digits compared
    lexicographically, with [between] to make room at any place. *)
From S2P Require Import Prelude.

Module Locator.
(** [crates/text/src/locator.rs:11-12] Locator *)
Record t := mk { digits : list Z }.
#[global] Instance eq_dec : EqDecision t.
Proof. solve_decision. Defined.

(** The derived lexicographic order of the digit vector.
    [crates/text/src/locator.rs:11-11] Ord for Locator *)
Definition cmp (a b : t) : comparison := lex_compare Z.compare (digits a) (digits b).

(** [crates/text/src/locator.rs:29-32] Locator::min *)
Definition min : t := mk [0].
(** [crates/text/src/locator.rs:34-37] Locator::max *)
Definition max : t := mk [u64_MAX].

(** [resize] to the other length, then [copy_from_slice] over all of it.
    [crates/text/src/locator.rs:47-50] Locator::assign *)
Definition assign (self other : t) : t :=
  let resized := resize (digits self) (length (digits other)) 0 in
  mk (imap (λ i x, default x (digits other !! i)) resized).

(** The digit pushed for a pair of digits: the left one plus 1/2^48 of the
    distance. *)
Definition mid (lhs rhs : Z) : Z := lhs + Z.shiftr (saturating_sub rhs lhs) 48.

(** The zipped loop over the left digits continued by [u64::MIN] and the right
    ones continued by [u64::MAX]; [fuel] bounds the number of iterations. *)
Fixpoint between_loop (fuel : nat) (lhs rhs : list Z) : list Z :=
  match fuel with
  | O => []
  | S fuel =>
      let l := hd 0 lhs in
      let m := mid l (hd u64_MAX rhs) in
      m :: (if l <? m then [] else between_loop fuel (tl lhs) (tl rhs))
  end.

(** One iteration past the longer of the two always breaks the loop
    ([between_loop_fuel]).
    [crates/text/src/locator.rs:52-65] Locator::between *)
Definition between (lhs rhs : t) : t :=
  mk (between_loop (S (Nat.max (length (digits lhs)) (length (digits rhs))))
        (digits lhs) (digits rhs)).

(** [crates/text/src/locator.rs:67-69] Locator::len *)
Definition len (l : t) : Z := Z.of_nat (length (digits l)).
(** [crates/text/src/locator.rs:71-73] Locator::is_empty *)
Definition is_empty (l : t) : bool := len l =? 0.

(** The summary of a locator in a tree keyed by locators is the last one.
    [crates/text/src/locator.rs:98-106] ContextLessSummary for Locator *)
Definition add_summary (self summary : t) : t := assign self summary.

#[global] Instance cmp_total : TotalCmp cmp.
Proof.
  unfold cmp. split.
  - intros [x] [y]. rewrite (cmp_eq_iff (lex_compare Z.compare)). simpl. split; congruence.
  - intros. apply (cmp_antisym (lex_compare Z.compare)).
  - intros x y z. apply (cmp_lt_trans (lex_compare Z.compare)).
Qed.

(** Digits are [u64] values. *)
Definition ok (l : t) : Prop := Forall u64_ok (digits l).
(** A locator that may stand on the right of [between]: it does not end in a
    zero digit (only [min] does). *)
Definition tight (l : t) : Prop := ∃ x, last (digits l) = Some x ∧ x ≠ 0.

Lemma assign_eq self other : assign self other = other.
Proof.
  destruct other as [ds]. unfold assign. f_equal. simpl.
  apply list_eq. intros i. rewrite list_lookup_imap.
  destruct (resize _ _ _ !! i) as [x|] eqn:E; simpl.
  - destruct (ds !! i) eqn:Ed; [done|].
    apply lookup_lt_Some in E. rewrite length_resize in E.
    apply lookup_ge_None_1 in Ed. lia.
  - apply lookup_ge_None_1 in E. rewrite length_resize in E.
    by rewrite lookup_ge_None_2.
Qed.

Lemma hd_ok d l : Forall u64_ok l → u64_ok d → u64_ok (hd d l).
Proof. by intros []. Qed.
Lemma u64_ok_0 : u64_ok 0. Proof. width. Qed.
Lemma u64_ok_MAX : u64_ok u64_MAX. Proof. width. Qed.
#[local] Hint Resolve hd_ok u64_ok_0 u64_ok_MAX : core.

Lemma mid_bounds l r :
  u64_ok l → u64_ok r →
  l ≤ mid l r ∧ (mid l r ≤ r ∨ mid l r = l) ∧ u64_ok (mid l r) ∧
  (l < r → mid l r < r) ∧ (r ≤ l → mid l r = l).
Proof.
  intros Hl Hr. unfold mid, saturating_sub. rewrite Z.shiftr_div_pow2 by lia.
  destruct (Z.le_gt_cases (r - l) 0).
  - rewrite Z.max_l by lia. rewrite Z.div_0_l by lia. width.
  - rewrite Z.max_r by lia.
    assert (0 ≤ (r - l) / 2 ^ 48 < r - l) by
      (split; [apply Z.div_pos; lia|apply Z.div_lt; lia]).
    width.
Qed.

Lemma mid_0_max : 0 <? mid 0 u64_MAX = true.
Proof. reflexivity. Qed.

(** The loop breaks by itself: fuel beyond the bound changes nothing. *)
Lemma between_loop_fuel l r n :
  (Nat.max (length l) (length r) < n)%nat →
  between_loop n l r = between_loop (S (Nat.max (length l) (length r))) l r.
Proof.
  remember (Nat.max (length l) (length r)) as m eqn:Em.
  revert l r n Em. induction m as [|m IH]; intros l r [|n] Em Hn; try lia.
  - destruct l, r; simpl in Em; try lia. cbn [between_loop hd tl]. by rewrite mid_0_max.
  - cbn [between_loop]. f_equal. destruct (_ <? _); [done|].
    destruct (decide (Nat.max (length (tl l)) (length (tl r)) = m)) as [E|E].
    + apply (IH _ _ n); lia.
    + exfalso. destruct l, r; simpl in Em, E; lia.
Qed.

(** Every digit produced is at least the left digit at its place, and the loop
    ends on a strictly larger one, so the result is above the left bound. *)
Lemma between_loop_gt fuel l r :
  Forall u64_ok l → Forall u64_ok r → (length l < fuel)%nat → (length r < fuel)%nat →
  lex_compare Z.compare l (between_loop fuel l r) = Lt.
Proof.
  revert l r. induction fuel as [|fuel IH]; intros l r Hl Hr L1 L2; [lia|].
  cbn [between_loop]. destruct l as [|x l]; [done|]. simpl in L1.
  assert (u64_ok (hd u64_MAX r)) by auto.
  apply Forall_cons in Hl as [Hx Hl]. cbn [hd tl lex_compare].
  destruct (mid_bounds x (hd u64_MAX r)) as (Hge & _); [done..|].
  destruct (Z.ltb_spec x (mid x (hd u64_MAX r))) as [Hlt|Hlt].
  - by rewrite (proj2 (Z.compare_lt_iff _ _)).
  - replace (mid x _) with x by lia. rewrite Z.compare_refl. simpl.
    apply IH; [done|by destruct Hr|lia|destruct r; simpl in *; lia].
Qed.

Lemma last_cons_nonempty (x : Z) l : l ≠ [] → last (x :: l) = last l.
Proof. by destruct l. Qed.

Lemma last_cons_some (x y : Z) l : last l = Some x → last (y :: l) = Some x.
Proof. by destruct l. Qed.

(** Below the right bound, when it is tight. *)
Lemma between_loop_lt fuel l r x :
  Forall u64_ok l → Forall u64_ok r → (length l < fuel)%nat → (length r < fuel)%nat →
  lex_compare Z.compare l r = Lt → last r = Some x → x ≠ 0 →
  lex_compare Z.compare (between_loop fuel l r) r = Lt.
Proof.
  revert l r. induction fuel as [|fuel IH]; intros l r Hl Hr L1 L2 Hlt Hlast Hx; [lia|].
  cbn [between_loop]. destruct r as [|b r]; [by destruct l|].
  apply Forall_cons in Hr as [Hb Hr].
  assert (∃ a, a = hd 0 l) as [a Ea] by eauto. rewrite <- Ea.
  assert (u64_ok a) as Ha by (subst; auto).
  destruct (mid_bounds a b Ha Hb) as (H1 & _ & _ & H4 & H5). cbn [hd tl lex_compare].
  destruct (Z.lt_trichotomy a b) as [Hab|[Hab|Hab]].
  - rewrite (proj2 (Z.compare_lt_iff (mid a b) b)) by auto. done.
  - subst b. rewrite H5 by lia. rewrite Z.compare_refl, Z.ltb_irrefl. cbn [then_with].
    destruct r as [|b' r].
    { (* the last digit of [r] is the left digit: not below [r] *)
      simpl in Hlast. injection Hlast as ->.
      destruct l as [|a' l]; cbn in Ea; subst; [done|]. cbn in Hlt.
      rewrite Z.compare_refl in Hlt. by destruct l. }
    apply IH; [by destruct Hl|done|simpl in *; destruct l; simpl in *; lia|simpl in *; lia| |
      by rewrite last_cons_nonempty in Hlast|done].
    destruct l as [|a' l]; cbn in Ea; subst; [done|]. cbn in Hlt.
    by rewrite Z.compare_refl in Hlt.
  - exfalso. destruct l as [|a' l]; cbn in Ea; subst; [width|]. cbn in Hlt.
    by rewrite (proj2 (Z.compare_gt_iff a' b)) in Hlt by lia.
Qed.

Lemma between_loop_ok fuel l r :
  Forall u64_ok l → Forall u64_ok r → Forall u64_ok (between_loop fuel l r).
Proof.
  revert l r. induction fuel as [|fuel IH]; intros l r Hl Hr; [constructor|].
  cbn [between_loop].
  assert (u64_ok (hd 0 l)) by auto.
  assert (u64_ok (hd u64_MAX r)) by auto.
  constructor; [by apply mid_bounds|]. destruct (_ <? _); [constructor|].
  apply IH; [by destruct Hl|by destruct Hr].
Qed.

Lemma between_loop_last fuel l r :
  Forall u64_ok l → Forall u64_ok r → (length l < fuel)%nat → (length r < fuel)%nat →
  ∃ x, last (between_loop fuel l r) = Some x ∧ 0 < x.
Proof.
  revert l r. induction fuel as [|fuel IH]; intros l r Hl Hr L1 L2; [lia|].
  cbn [between_loop].
  assert (u64_ok (hd 0 l)) by auto.
  assert (u64_ok (hd u64_MAX r)) by auto.
  destruct (Z.ltb_spec (hd 0 l) (mid (hd 0 l) (hd u64_MAX r))) as [Hlt|Hge].
  - eexists; split; [done|]. width.
  - destruct l as [|a l], r as [|b r].
    + pose proof mid_0_max. reflect. simpl in Hge. lia.
    + destruct (IH [] r) as (x & Hx & ?);
        [constructor|by apply Forall_cons in Hr as []|simpl in *; lia..|].
      exists x. split; [by apply last_cons_some|done].
    + destruct (IH l []) as (x & Hx & ?);
        [by apply Forall_cons in Hl as []|constructor|simpl in *; lia..|].
      exists x. split; [by apply last_cons_some|done].
    + destruct (IH l r) as (x & Hx & ?);
        [by apply Forall_cons in Hl as []|by apply Forall_cons in Hr as []|simpl in *; lia..|].
      exists x. split; [by apply last_cons_some|done].
Qed.

Lemma between_ok l r : ok l → ok r → ok (between l r).
Proof. intros. by apply between_loop_ok. Qed.
Lemma between_tight l r : ok l → ok r → tight (between l r).
Proof.
  intros Hl Hr. unfold between, tight. cbn [digits].
  destruct (between_loop_last (S (Nat.max (length (digits l)) (length (digits r))))
    (digits l) (digits r)) as (x & ? & ?); [done..|lia|lia|].
  exists x. split; [done|lia].
Qed.
Lemma between_gt l r : ok l → ok r → cmp l (between l r) = Lt.
Proof. intros. apply between_loop_gt; (done || lia). Qed.
Lemma between_lt l r : ok l → ok r → tight r → cmp l r = Lt → cmp (between l r) r = Lt.
Proof. intros ?? (x & ? & ?) ?. eapply between_loop_lt; (done || lia). Qed.

Lemma min_ok : ok min. Proof. repeat constructor; width. Qed.
Lemma max_ok : ok max. Proof. repeat constructor; width. Qed.
Lemma max_tight : tight max. Proof. eexists; split; [done|]. done. Qed.
#[export] Hint Resolve between_ok between_tight between_gt between_lt min_ok max_ok max_tight : zed.

(** C36: There is always room between two fragment positions: [between] returns, without
    running past the longer operand and with every digit a [u64], a locator
    strictly between its operands which can itself be a right operand again;
    the loop result does not depend on the fuel. *)
Theorem between_dense lhs rhs :
  ok lhs → ok rhs → tight rhs → cmp lhs rhs = Lt →
  cmp lhs (between lhs rhs) = Lt ∧ cmp (between lhs rhs) rhs = Lt ∧
  ok (between lhs rhs) ∧ tight (between lhs rhs) ∧
  ∀ n, (Nat.max (length (digits lhs)) (length (digits rhs)) < n)%nat →
    between lhs rhs = mk (between_loop n (digits lhs) (digits rhs)).
Proof.
  intros. split_and!; [eauto with zed..|].
  intros n Hn. unfold between. by rewrite <- (between_loop_fuel _ _ n).
Qed.

Lemma between_dense_witness :
  let a := between min max in let b := between a max in
  digits a = [65535] ∧ cmp a (between a b) = Lt ∧ cmp (between a b) b = Lt.
Proof.
  assert (ok (between min max)) by eauto with zed.
  assert (ok (between (between min max) max)) by eauto with zed.
  assert (tight (between (between min max) max)) by eauto with zed.
  intros a b. split; [reflexivity|].
  destruct (between_dense a b) as (H2 & H3 & _); [done..|reflexivity|done].
Defined.
End Locator.
