(* ===== verification/Points.v ===== *)
(** Positions in a text: rows and columns in UTF-8 bytes
    ([crates/rope/src/point.rs]) and in UTF-16 code units ([point_utf16.rs]),
    UTF-16 offsets ([offset_utf16.rs]) and the [Unclipped] marker
    ([unclipped.rs]). Rows and columns are [u32], offsets [usize]. *)
From S2P Require Import Prelude.

(** ** Point *)
Module Point.
(** [crates/rope/src/point.rs:8-12] Point *)
Record t := mk { row : Z; column : Z }.
#[global] Instance eq_dec : EqDecision t.
Proof. solve_decision. Defined.
Definition ok (p : t) : Prop := u32_ok (row p) ∧ u32_ok (column p).

(** [crates/rope/src/point.rs:21-24] Point::MAX *)
Definition MAX : t := mk u32_MAX u32_MAX.
(** [crates/rope/src/point.rs:26-28] Point::new *)
Definition new (r c : Z) : t := mk r c.
(** [crates/rope/src/point.rs:30-38] Point::row_range *)
Definition row_range (range : Z * Z) : t * t := (mk (fst range) 0, mk (snd range) 0).
(** [crates/rope/src/point.rs:40-42] Point::zero *)
Definition zero : t := new 0 0.
(** The loop over the enumerated lines, from row [r] on. *)
Fixpoint parse_lines (r : Z) (point : t) (lines : list str) : t :=
  match lines with
  | [] => point
  | line :: lines => parse_lines (r + 1) (mk (wrap32 r) (wrap32 (str_len line))) lines
  end.
(** [crates/rope/src/point.rs:44-51] Point::parse_str *)
Definition parse_str (s : str) : t := parse_lines 0 zero (str_split newline s).
(** [crates/rope/src/point.rs:53-55] Point::is_zero *)
Definition is_zero (p : t) : bool := (row p =? 0) && (column p =? 0).

(** The 64-bit build packs a point into one word.
    [crates/rope/src/point.rs:132-137] Ord for Point *)
Definition cmp (p q : t) : comparison :=
  Z.compare (Z.lor (wrap64 (Z.shiftl (row p) 32)) (column p))
            (Z.lor (wrap64 (Z.shiftl (row q) 32)) (column q)).
(** The 32-bit build.
    [crates/rope/src/point.rs:139-145] Ord for Point *)
Definition cmp_32 (p q : t) : comparison :=
  match Z.compare (row p) (row q) with
  | Eq => Z.compare (column p) (column q)
  | comparison => comparison
  end.

(** [crates/rope/src/point.rs:74-84] Add for Point *)
Definition add (p q : t) : t :=
  if row q =? 0 then new (row p) (column p +w32 column q)
  else new (row p +w32 row q) (column q).
(** [crates/rope/src/point.rs:94-106] Sub for Point *)
Definition sub (p q : t) : t :=
  if row p =? row q then new 0 (column p -w32 column q)
  else new (row p -w32 row q) (column p).
(** [crates/rope/src/point.rs:114-123] AddAssign for Point *)
Definition add_assign (p q : t) : t :=
  if row q =? 0 then mk (row p) (column p +w32 column q)
  else mk (row p +w32 row q) (column q).
(** [crates/rope/src/point.rs:57-63] Point::saturating_sub *)
Definition saturating_sub (p q : t) : t := if is_lt (cmp p q) then zero else sub p q.

(** [q] can be added to [p] without leaving [u32]. *)
Definition fits (p q : t) : Prop :=
  if row q =? 0 then column p + column q < 2 ^ 32 else row p + row q < 2 ^ 32.

Lemma cmp_lex p q :
  ok p → ok q → cmp p q = then_with (Z.compare (row p) (row q)) (Z.compare (column p) (column q)).
Proof. intros [] []. by apply pack32_compare. Qed.

Lemma zero_ok : ok zero. Proof. split; simpl; width. Qed.
Lemma add_ok p q : ok p → ok q → ok (add p q).
Proof. intros [] []. unfold add. split_if; split; simpl; auto with zed. Qed.
Definition shift (p q : t) : t :=
  if row q =? 0 then mk (row p) (column p + column q) else mk (row p + row q) (column q).
Lemma add_id p q : ok p → ok q → fits p q → add p q = shift p q.
Proof.
  intros [] [] Hf. unfold add, fits, shift in *. destruct (row q =? 0); f_equal; apply wrap32_id; width.
Qed.
Lemma add_assign_add p q : add_assign p q = add p q.
Proof. reflexivity. Qed.
Lemma add_zero_l p : ok p → add zero p = p.
Proof.
  intros [Hr Hc]. destruct p as [r c]. unfold add, new. simpl in *.
  destruct (Z.eqb_spec r 0) as [->|]; f_equal; apply wrap32_id; done.
Qed.
Lemma add_zero_r p : ok p → add p zero = p.
Proof.
  intros [Hr Hc]. destruct p as [r c]. unfold add, new. simpl in *.
  f_equal. rewrite Z.add_0_r. by apply wrap32_id.
Qed.

(** *** Texts and their end points

    [advance] is the reference: the position after one more character. *)
Definition advance (p : t) (c : Z) : t :=
  if c =? newline then mk (row p + 1) 0 else mk (row p) (column p + len_utf8 c).

Lemma split_head_len s l ls : str_split newline s = l :: ls → str_len l ≤ str_len s.
Proof.
  revert l ls. induction s as [|y s IH]; intros l ls Es; simpl in *.
  - by injection Es as <- <-.
  - pose proof (len_utf8_bounds y). pose proof (str_len_nonneg s).
    destruct (y =? newline); [injection Es as <- <-; simpl; lia|].
    destruct (str_split newline s) as [|l0 ls0]; injection Es as <- <-; simpl; [lia|].
    specialize (IH l0 ls0 eq_refl). lia.
Qed.

Lemma parse_split s r c l ls :
  str_split newline s = l :: ls →
  0 ≤ r → 0 ≤ c → r + str_len s < 2 ^ 32 → c + str_len s < 2 ^ 32 →
  parse_lines (r + 1) (mk r (c + str_len l)) ls = foldl advance (mk r c) s.
Proof.
  revert r c l ls. induction s as [|x s IH]; intros r c l ls E Hr Hc B1 B2.
  - injection E as <- <-. simpl. f_equal. lia.
  - cbn [str_split] in E. cbn [foldl]. unfold advance at 2. cbn [row column].
    pose proof (len_utf8_bounds x). pose proof (str_len_nonneg s). cbn [str_len] in *.
    destruct (str_split newline s) as [|l' ls'] eqn:Es; [by apply str_split_nonempty in Es|].
    pose proof (split_head_len _ _ _ Es).
    pose proof (str_len_nonneg l').
    destruct (x =? newline).
    + injection E as <- <-. cbn [parse_lines].
      rewrite <- (IH (r + 1) 0 l' ls') by (done || lia).
      rewrite !wrap32_id by width. done.
    + injection E as <- <-. rewrite <- (IH r (c + len_utf8 x) l' ls') by (done || lia).
      cbn [str_len]. do 2 f_equal. lia.
Qed.

Lemma parse_str_advance s : str_len s < 2 ^ 32 → parse_str s = foldl advance zero s.
Proof.
  intros Hs. unfold parse_str. pose proof (str_len_nonneg s).
  destruct (str_split newline s) as [|l ls] eqn:E; [by apply str_split_nonempty in E|].
  cbn [parse_lines]. unfold zero, new. rewrite <- (parse_split s 0 0 l ls) by (done || lia).
  f_equal. f_equal. apply wrap32_id.
  pose proof (split_head_len s l ls E). pose proof (str_len_nonneg l). width.
Qed.

Lemma advance_bounds s p :
  0 ≤ row p → 0 ≤ column p →
  let q := foldl advance p s in
  row p ≤ row q ≤ row p + str_len s ∧ 0 ≤ column q ≤ column p + str_len s.
Proof.
  revert p. induction s as [|c s IH]; intros p Hr Hc; simpl; [lia|].
  pose proof (len_utf8_bounds c). pose proof (str_len_nonneg s).
  assert (0 ≤ row (advance p c) ∧ 0 ≤ column (advance p c)) as [H1 H2]
    by (unfold advance; split_if; simpl; lia).
  specialize (IH (advance p c) H1 H2). simpl in IH. unfold advance in *.
  destruct (c =? newline); simpl in *; lia.
Qed.

(** Reading on from [p] adds the end point of the text read. *)
Lemma advance_shift s p q :
  0 ≤ row q → foldl advance (shift p q) s = shift p (foldl advance q s).
Proof.
  revert q. induction s as [|c s IH]; intros q Hq; [done|].
  cbn [foldl]. rewrite <- IH; [|unfold advance; split_if; simpl; lia].
  f_equal. unfold advance, shift. destruct (c =? newline); cbn [row column].
  - rewrite (proj2 (Z.eqb_neq (row q + 1) 0)) by lia.
    destruct (Z.eqb_spec (row q) 0); cbn [row column]; f_equal; lia.
  - destruct (row q =? 0); cbn [row column]; f_equal; lia.
Qed.

(** ** Properties *)

(** The end point of a concatenation is the sum of the end points: [parse_str] turns
    text concatenation into point addition, and agrees with counting newlines
    and the bytes after the last one, for texts under 4 GiB. *)
Theorem parse_str_app s u :
  str_len (s ++ u) < 2 ^ 32 →
  parse_str (s ++ u) = add (parse_str s) (parse_str u) ∧
  parse_str s = foldl advance zero s ∧ ok (parse_str s).
Proof.
  intros Hlen. rewrite str_len_app in Hlen.
  pose proof (str_len_nonneg s). pose proof (str_len_nonneg u).
  rewrite !parse_str_advance by (rewrite ?str_len_app; lia).
  destruct (advance_bounds s zero) as [[? ?] [? ?]]; [done..|].
  destruct (advance_bounds u zero) as [[? ?] [? ?]]; [done..|]. simpl in *.
  set (ps := foldl advance zero s) in *. set (pu := foldl advance zero u) in *.
  assert (ok ps) by (split; width). assert (ok pu) by (split; width).
  split_and!; [|done|done].
  rewrite foldl_app. fold ps. rewrite add_id; [|done..|unfold fits; split_if; lia].
  unfold pu. rewrite <- advance_shift by done. f_equal.
  unfold shift. simpl. rewrite Z.add_0_r. by destruct ps.
Qed.

Lemma parse_str_app_witness :
  (* "ab\n" followed by "c" *)
  parse_str ([97; 98; 10] ++ [99]) = mk 1 1 ∧
  parse_str ([97; 98; 10] ++ [99]) = add (parse_str [97; 98; 10]) (parse_str [99]).
Proof.
  split; [reflexivity|].
  apply (parse_str_app [97; 98; 10] [99]). closed_arith.
Defined.

(** Points in range form an ordered monoid: the packed 64-bit comparison is the
    lexicographic order of the 32-bit build and total; addition is
    associative with unit [zero]; subtraction undoes it ([p + (q - p) = q]
    whenever [p <= q], without wrapping), and [saturating_sub] stops at zero. *)
Theorem point_ordered_monoid p q r :
  ok p → ok q → ok r → fits p q → fits q r → fits (add p q) r →
  cmp p q = cmp_32 p q ∧
  (cmp p q = Eq ↔ p = q) ∧ cmp q p = CompOpp (cmp p q) ∧
  (cmp p q = Lt → cmp q r = Lt → cmp p r = Lt) ∧
  add (add p q) r = add p (add q r) ∧
  (cmp p q ≠ Gt → add p (sub q p) = q ∧ ok (sub q p)) ∧
  (cmp p q = Lt → saturating_sub p q = zero) ∧
  (cmp p q ≠ Lt → saturating_sub p q = sub p q).
Proof.
  intros Hp Hq Hr F1 F2 F3.
  assert (∀ a b, ok a → ok b → cmp a b = cmp_32 a b) as Hc.
  { intros a b ??. rewrite cmp_lex by done. unfold cmp_32. by destruct (row a ?= row b). }
  rewrite !Hc by done.
  assert (TotalCmp (λ x y, then_with (Z.compare (row x) (row y)) (Z.compare (column x) (column y)))) as HT.
  { apply (then_with_total row column); [apply _..|]. intros [] [] ??; simpl in *; congruence. }
  assert (∀ a b, cmp_32 a b = then_with (Z.compare (row a) (row b)) (Z.compare (column a) (column b))) as H32.
  { intros. unfold cmp_32. by destruct (row a ?= row b). }
  rewrite !H32.
  split_and!.
  - done.
  - apply (cmp_eq_iff _ (TotalCmp:=HT)).
  - apply (cmp_antisym _ (TotalCmp:=HT)).
  - apply (cmp_lt_trans _ (TotalCmp:=HT)).
  - pose proof (add_ok p q Hp Hq). pose proof (add_ok q r Hq Hr).
    rewrite (add_id p q) in * by done. rewrite (add_id q r) by done.
    unfold add, new, fits, shift in *.
    destruct p as [pr pc], q as [qr qc], r as [rr rc], Hp, Hq, Hr. simpl in *.
    destruct (Z.eqb_spec qr 0), (Z.eqb_spec rr 0); simpl in *; subst;
      rewrite ?(proj2 (Z.eqb_neq _ _)) by width; rewrite ?Z.eqb_refl;
      rewrite ?(wrap32_id) by width; f_equal; try lia.
  - destruct p as [pr pc], q as [qr qc], Hp, Hq. simpl in *. unfold sub, add, new, ok. simpl.
    unfold then_with. destruct (Z.compare_spec pr qr), (Z.compare_spec pc qc);
      simpl; try done; intros _; subst; rewrite ?Z.eqb_refl; simpl;
      rewrite ?(proj2 (Z.eqb_neq qr pr)) by lia; simpl;
      rewrite ?(wrap32_id (_ - _)) by width;
      rewrite ?(proj2 (Z.eqb_neq (qr - pr) 0)) by lia;
      split; try (f_equal; rewrite ?wrap32_id by width; lia); split; width.
  - intros E. unfold saturating_sub. rewrite Hc, H32, E by done. done.
  - intros E. unfold saturating_sub. rewrite Hc, H32 by done.
    by destruct (then_with _ _).
Qed.

Lemma point_ordered_monoid_witness :
  let p := mk 1 4 in let q := mk 3 2 in let r := mk 0 5 in
  add p (sub q p) = q ∧ add (add p q) r = add p (add q r).
Proof.
  intros p q r.
  destruct (point_ordered_monoid p q r ltac:(closed_arith) ltac:(closed_arith)
    ltac:(closed_arith) ltac:(closed_arith) ltac:(closed_arith) ltac:(closed_arith))
    as (_ & _ & _ & _ & Ha & Hs & _).
  split; [apply Hs; discriminate|exact Ha].
Defined.
End Point.

(** ** PointUtf16: the same operations on columns of UTF-16 code units *)
Module PointUtf16.
(** [crates/rope/src/point_utf16.rs:7-10] PointUtf16 *)
Record t := mk { row : Z; column : Z }.
#[global] Instance eq_dec : EqDecision t.
Proof. solve_decision. Defined.
Definition ok (p : t) : Prop := u32_ok (row p) ∧ u32_ok (column p).

(** [crates/rope/src/point_utf16.rs:13-16] PointUtf16::MAX *)
Definition MAX : t := mk u32_MAX u32_MAX.
(** [crates/rope/src/point_utf16.rs:18-20] PointUtf16::new *)
Definition new (r c : Z) : t := mk r c.
(** [crates/rope/src/point_utf16.rs:22-24] PointUtf16::zero *)
Definition zero : t := new 0 0.
(** [crates/rope/src/point_utf16.rs:26-28] PointUtf16::is_zero *)
Definition is_zero (p : t) : bool := (row p =? 0) && (column p =? 0).
(** [crates/rope/src/point_utf16.rs:105-110] Ord for PointUtf16 *)
Definition cmp (p q : t) : comparison :=
  Z.compare (Z.lor (wrap64 (Z.shiftl (row p) 32)) (column p))
            (Z.lor (wrap64 (Z.shiftl (row q) 32)) (column q)).
(** [crates/rope/src/point_utf16.rs:112-118] Ord for PointUtf16 *)
Definition cmp_32 (p q : t) : comparison :=
  match Z.compare (row p) (row q) with
  | Eq => Z.compare (column p) (column q)
  | comparison => comparison
  end.
(** [crates/rope/src/point_utf16.rs:47-57] Add for PointUtf16 *)
Definition add (p q : t) : t :=
  if row q =? 0 then new (row p) (column p +w32 column q)
  else new (row p +w32 row q) (column q).
(** [crates/rope/src/point_utf16.rs:67-79] Sub for PointUtf16 *)
Definition sub (p q : t) : t :=
  if row p =? row q then new 0 (column p -w32 column q)
  else new (row p -w32 row q) (column p).
(** [crates/rope/src/point_utf16.rs:87-96] AddAssign for PointUtf16 *)
Definition add_assign (p q : t) : t :=
  if row q =? 0 then mk (row p) (column p +w32 column q)
  else mk (row p +w32 row q) (column q).
(** [crates/rope/src/point_utf16.rs:30-36] PointUtf16::saturating_sub *)
Definition saturating_sub (p q : t) : t := if is_lt (cmp p q) then zero else sub p q.

(** The two types differ only in what a column counts. *)
Definition to_point (p : t) : Point.t := Point.mk (row p) (column p).

(** Row/column arithmetic in UTF-16 code units is the arithmetic of byte positions:
    the embedding into [Point] is injective and commutes with addition, the
    in-place addition, subtraction, saturating subtraction and both
    comparisons. *)
Theorem utf16_is_point p q :
  to_point (add p q) = Point.add (to_point p) (to_point q) ∧
  to_point (add_assign p q) = Point.add_assign (to_point p) (to_point q) ∧
  to_point (sub p q) = Point.sub (to_point p) (to_point q) ∧
  to_point (saturating_sub p q) = Point.saturating_sub (to_point p) (to_point q) ∧
  cmp p q = Point.cmp (to_point p) (to_point q) ∧
  cmp_32 p q = Point.cmp_32 (to_point p) (to_point q) ∧
  (is_zero p = Point.is_zero (to_point p)) ∧
  (to_point p = to_point q ↔ p = q).
Proof.
  unfold add, add_assign, sub, saturating_sub, Point.add, Point.add_assign, Point.sub,
    Point.saturating_sub, sub, Point.sub.
  destruct p as [pr pc], q as [qr qc]. cbn [to_point row column Point.row Point.column].
  split_and!; try reflexivity.
  - by destruct (qr =? 0).
  - by destruct (qr =? 0).
  - by destruct (pr =? qr).
  - change (Point.cmp (to_point (mk pr pc)) (to_point (mk qr qc))) with (cmp (mk pr pc) (mk qr qc)).
    destruct (is_lt _); [done|]. by destruct (pr =? qr).
  - unfold to_point. simpl. split; [by intros [= -> ->]|by intros [= -> ->]].
Qed.
End PointUtf16.

(** ** OffsetUtf16 and Unclipped *)
Module OffsetUtf16.
(** [crates/rope/src/offset_utf16.rs:3-4] OffsetUtf16 *)
Record t := mk { offset : Z }.
#[global] Instance eq_dec : EqDecision t.
Proof. solve_decision. Defined.
(** [crates/rope/src/offset_utf16.rs:14-20] Add for OffsetUtf16 *)
Definition add (a b : t) : t := mk (offset a +w64 offset b).
(** [crates/rope/src/offset_utf16.rs:31-37] Sub for OffsetUtf16 *)
Definition sub (a b : t) : t := mk (offset a -w64 offset b).
(** [crates/rope/src/offset_utf16.rs:45-49] AddAssign for OffsetUtf16 *)
Definition add_assign (a b : t) : t := mk (offset a +w64 offset b).
(** [crates/rope/src/offset_utf16.rs:3-3] Ord for OffsetUtf16 *)
Definition cmp (a b : t) : comparison := Z.compare (offset a) (offset b).
End OffsetUtf16.

Module Unclipped.
(** A position that may lie outside the text.
    [crates/rope/src/unclipped.rs:4-5] Unclipped *)
Record t (A : Type) := mk { inner : A }.
Arguments mk {A} _.
Arguments inner {A} _.
(** [crates/rope/src/unclipped.rs:7-11] From for Unclipped *)
Definition from {A} (value : A) : t A := mk value.
(** [crates/rope/src/unclipped.rs:25-31] Add for Unclipped *)
Definition add {A} (plus : A → A → A) (a b : t A) : t A := mk (plus (inner a) (inner b)).
(** [crates/rope/src/unclipped.rs:33-39] Sub for Unclipped *)
Definition sub {A} (minus : A → A → A) (a b : t A) : t A := mk (minus (inner a) (inner b)).
(** [crates/rope/src/unclipped.rs:41-45] AddAssign for Unclipped *)
Definition add_assign {A} (plus : A → A → A) (a b : t A) : t A := mk (plus (inner a) (inner b)).
(** [crates/rope/src/unclipped.rs:47-51] SubAssign for Unclipped *)
Definition sub_assign {A} (minus : A → A → A) (a b : t A) : t A := mk (minus (inner a) (inner b)).
End Unclipped.
