(* ===== verification/TextSummary.v ===== *)
(** Summaries of text that the rope caches in its tree
    ([TextSummary] in [crates/rope/src/rope.rs]) and the indentation of lines
    ([LineIndent] in [crates/text/src/text.rs]). *)
From S2P Require Import Prelude Points.

Module TextSummary.
(** [crates/rope/src/rope.rs:1282-1304] TextSummary *)
Record t := mk {
  len : Z; chars : Z; len_utf16 : OffsetUtf16.t; lines : Point.t;
  first_line_chars : Z; last_line_chars : Z; last_line_len_utf16 : Z;
  longest_row : Z; longest_row_chars : Z;
}.
#[global] Instance eq_dec : EqDecision t.
Proof. solve_decision. Defined.

(** [crates/rope/src/rope.rs:1385-1388] ContextLessSummary for TextSummary *)
Definition zero : t := mk 0 0 (OffsetUtf16.mk 0) (Point.mk 0 0) 0 0 0 0 0.

(** [crates/rope/src/rope.rs:1307-1312] TextSummary::lines_utf16 *)
Definition lines_utf16 (s : t) : PointUtf16.t :=
  PointUtf16.mk (Point.row (lines s)) (last_line_len_utf16 s).

(** [crates/rope/src/rope.rs:1314-1326] TextSummary::newline *)
Definition newline : t := mk 1 1 (OffsetUtf16.mk 1) (Point.new 1 0) 0 0 0 0 0.

(** [crates/rope/src/rope.rs:1328-1334] TextSummary::add_newline *)
Definition add_newline (s : t) : t :=
  mk (len s +w64 1) (chars s)
     (OffsetUtf16.add_assign (len_utf16 s)
        (OffsetUtf16.mk (OffsetUtf16.offset (len_utf16 s) +w64 1)))
     (Point.add_assign (lines s) (Point.new 1 0))
     (first_line_chars s) 0 0 (longest_row s) (longest_row_chars s).

(** The body of the loop over the characters of the string.
    [crates/rope/src/rope.rs:1347-1369] From for TextSummary *)
Definition from_step (s : t) (c : Z) : t :=
  let chars := chars s +w64 1 in
  let len_utf16 := OffsetUtf16.mk (OffsetUtf16.offset (len_utf16 s) +w64 Prelude.len_utf16 c) in
  let '(lines, last_line_len_utf16, last_line_chars) :=
    if c =? Prelude.newline then (Point.add_assign (lines s) (Point.new 1 0), 0, 0)
    else (Point.mk (Point.row (lines s)) (Point.column (lines s) +w32 len_utf8 c),
          last_line_len_utf16 s +w32 Prelude.len_utf16 c, last_line_chars s +w32 1) in
  let first_line_chars :=
    if Point.row lines =? 0 then last_line_chars else first_line_chars s in
  let '(longest_row, longest_row_chars) :=
    if longest_row_chars s <? last_line_chars then (Point.row lines, last_line_chars)
    else (longest_row s, longest_row_chars s) in
  mk (len s) chars len_utf16 lines first_line_chars last_line_chars last_line_len_utf16
     longest_row longest_row_chars.

Definition with_len (s : t) (n : Z) : t :=
  mk n (chars s) (len_utf16 s) (lines s) (first_line_chars s) (last_line_chars s)
     (last_line_len_utf16 s) (longest_row s) (longest_row_chars s).

(** [crates/rope/src/rope.rs:1337-1383] From for TextSummary *)
Definition from (text : str) : t := with_len (foldl from_step zero text) (str_len text).

(** [crates/rope/src/rope.rs:1404-1433] AddAssign for TextSummary *)
Definition add_assign (self other : t) : t :=
  let joined_chars := last_line_chars self +w32 first_line_chars other in
  let '(lr, lrc) :=
    if longest_row_chars self <? joined_chars then (Point.row (lines self), joined_chars)
    else (longest_row self, longest_row_chars self) in
  let '(lr, lrc) :=
    if lrc <? longest_row_chars other
    then (Point.row (lines self) +w32 longest_row other, longest_row_chars other)
    else (lr, lrc) in
  let flc :=
    if Point.row (lines self) =? 0 then first_line_chars self +w32 first_line_chars other
    else first_line_chars self in
  let '(llc, llu) :=
    if Point.row (lines other) =? 0
    then (last_line_chars self +w32 first_line_chars other,
          last_line_len_utf16 self +w32 last_line_len_utf16 other)
    else (last_line_chars other, last_line_len_utf16 other) in
  mk (len self +w64 len other) (chars self +w64 chars other)
     (OffsetUtf16.add_assign (len_utf16 self) (len_utf16 other))
     (Point.add_assign (lines self) (lines other)) flc llc llu lr lrc.

(** [crates/rope/src/rope.rs:1395-1402] Add for TextSummary *)
Definition add (self rhs : t) : t := add_assign self rhs.

(** [crates/rope/src/rope.rs:1390-1392] TextSummary::add_summary *)
Definition add_summary (self summary : t) : t := add_assign self summary.

(** *** Summaries that count a text

    [counts n s]: the summary of some text of at most [n] bytes. *)
Record counts (n : Z) (s : t) : Prop := {
  c_chars : 0 ≤ chars s ≤ n;
  c_u16 : 0 ≤ OffsetUtf16.offset (len_utf16 s) ≤ n;
  c_row : 0 ≤ Point.row (lines s) ≤ n;
  c_col : 0 ≤ Point.column (lines s) ≤ n;
  c_first : 0 ≤ first_line_chars s ≤ longest_row_chars s;
  c_last : 0 ≤ last_line_chars s ≤ longest_row_chars s;
  c_last_u16 : 0 ≤ last_line_len_utf16 s ≤ n;
  c_longest : 0 ≤ longest_row_chars s ≤ n;
  c_longest_row : 0 ≤ longest_row s ≤ Point.row (lines s);
  c_one_row : Point.row (lines s) = 0 →
    first_line_chars s = last_line_chars s ∧ longest_row_chars s = first_line_chars s ∧
    longest_row s = 0;
}.

Lemma counts_zero : counts 0 zero.
Proof. split; simpl; (lia || done). Qed.

Ltac open_counts :=
  repeat match goal with
  | H : counts _ _ |- _ => destruct H
  | s : t |- _ => destruct s as [? ? [?] [? ?] ? ? ? ? ?]
  end; cbn [len chars len_utf16 lines first_line_chars last_line_chars last_line_len_utf16
    longest_row longest_row_chars Point.row Point.column OffsetUtf16.offset] in *.

Lemma counts_step n s c :
  counts n s → n + len_utf8 c < 2 ^ 32 → counts (n + len_utf8 c) (from_step s c).
Proof.
  intros Hc Hn. pose proof (len_utf8_bounds c). pose proof (len_utf16_bounds c).
  open_counts. unfold from_step, Point.add_assign, Point.new. cbn.
  destruct (c =? Prelude.newline); cbn;
    repeat match goal with |- context [wrap32 ?x] => rewrite (wrap32_id x) by width end;
    repeat match goal with |- context [wrap64 ?x] => rewrite (wrap64_id x) by width end;
    repeat match goal with |- context [if ?b then _ else _] => destruct b eqn:? end;
    reflect; split; cbn; intuition lia.
Qed.

Lemma counts_fold text n s :
  counts n s → n + str_len text < 2 ^ 32 →
  counts (n + str_len text) (foldl from_step s text).
Proof.
  revert n s. induction text as [|c text IH]; intros n s Hc Hn; cbn [foldl str_len] in *.
  - by rewrite Z.add_0_r.
  - pose proof (str_len_nonneg text).
    replace (n + (len_utf8 c + str_len text)) with ((n + len_utf8 c) + str_len text) by lia.
    apply IH; [|lia]. apply counts_step; [done|lia].
Qed.

(** *** The additions without wrap-around, one field at a time *)
Definition step_newline (s : t) : t :=
  mk (len s) (chars s + 1) (OffsetUtf16.mk (OffsetUtf16.offset (len_utf16 s) + 1))
     (Point.mk (Point.row (lines s) + 1) 0) (first_line_chars s) 0 0
     (longest_row s) (longest_row_chars s).
Definition step_char (s : t) (c : Z) : t :=
  let last := last_line_chars s + 1 in
  mk (len s) (chars s + 1)
     (OffsetUtf16.mk (OffsetUtf16.offset (len_utf16 s) + Prelude.len_utf16 c))
     (Point.mk (Point.row (lines s)) (Point.column (lines s) + len_utf8 c))
     (if Point.row (lines s) =? 0 then last else first_line_chars s) last
     (last_line_len_utf16 s + Prelude.len_utf16 c)
     (if longest_row_chars s <? last then Point.row (lines s) else longest_row s)
     (Z.max (longest_row_chars s) last).
Definition plus (x y : t) : t :=
  let joined := last_line_chars x + first_line_chars y in
  let one := Point.row (lines y) =? 0 in
  mk (len x +w64 len y) (chars x + chars y)
     (OffsetUtf16.mk (OffsetUtf16.offset (len_utf16 x) + OffsetUtf16.offset (len_utf16 y)))
     (Point.mk (Point.row (lines x) + Point.row (lines y))
        (if one then Point.column (lines x) + Point.column (lines y)
         else Point.column (lines y)))
     (if Point.row (lines x) =? 0 then first_line_chars x + first_line_chars y
      else first_line_chars x)
     (if one then joined else last_line_chars y)
     (if one then last_line_len_utf16 x + last_line_len_utf16 y else last_line_len_utf16 y)
     (if Z.max (longest_row_chars x) joined <? longest_row_chars y
      then Point.row (lines x) + longest_row y
      else if longest_row_chars x <? joined then Point.row (lines x) else longest_row x)
     (Z.max (Z.max (longest_row_chars x) joined) (longest_row_chars y)).

Ltac unwrap :=
  repeat match goal with
  | |- context [wrap32 ?x] => rewrite (wrap32_id x) by width
  | |- context [wrap64 ?x] => rewrite (wrap64_id x) by width
  end.
Ltac cases_lia :=
  repeat match goal with
  | |- context [Z.eqb ?a ?b] =>
      lazymatch constr:((a, b)) with context [if _ then _ else _] => fail | _ => idtac end;
      destruct (Z.eqb_spec a b)
  | |- context [Z.ltb ?a ?b] =>
      lazymatch constr:((a, b)) with context [if _ then _ else _] => fail | _ => idtac end;
      destruct (Z.ltb_spec a b)
  end; try done; try (exfalso; lia); try lia.

Lemma step_newline_eq n s :
  counts n s → n + 1 < 2 ^ 32 → from_step s Prelude.newline = step_newline s.
Proof.
  intros Hs Hn. open_counts. unfold from_step, step_newline, Point.add_assign, Point.new. cbn.
  unwrap. rewrite (proj2 (Z.eqb_neq (row + 1) 0)) by lia.
  rewrite (proj2 (Z.ltb_ge longest_row_chars0 0)) by lia. done.
Qed.

Lemma step_char_eq n s c :
  counts n s → n + len_utf8 c < 2 ^ 32 → c ≠ Prelude.newline → from_step s c = step_char s c.
Proof.
  intros Hs Hn Hc. pose proof (len_utf8_bounds c). pose proof (len_utf16_bounds c).
  open_counts. unfold from_step, step_char.
  rewrite (proj2 (Z.eqb_neq c Prelude.newline)) by done. cbn. unwrap.
  destruct (Z.ltb_spec longest_row_chars0 (last_line_chars0 + 1)); f_equal; lia.
Qed.

Lemma plus_eq n m x y :
  counts n x → counts m y → n + m < 2 ^ 32 → add_assign x y = plus x y.
Proof.
  intros Hx Hy Hn. open_counts.
  unfold add_assign, plus, Point.add_assign, OffsetUtf16.add_assign. cbn. unwrap.
  destruct (Z.eqb_spec row 0);
  destruct (Z.ltb_spec longest_row_chars1 (last_line_chars1 + first_line_chars0));
    rewrite ?(Z.max_r longest_row_chars1), ?(Z.max_l longest_row_chars1) by lia;
    match goal with |- context [Z.ltb ?a longest_row_chars0] =>
      destruct (Z.ltb_spec a longest_row_chars0) end; cbn; unwrap;
    f_equal; first [lia | f_equal; lia].
Qed.

Lemma counts_plus n m x y : counts n x → counts m y → counts (n + m) (plus x y).
Proof.
  intros Hx Hy. open_counts.
  split; cbn; cases_lia.
Qed.

(** One more character commutes with joining on the left. *)
Lemma add_step n m x y c :
  counts n x → counts m y → n + m + len_utf8 c < 2 ^ 32 →
  from_step (add_assign x y) c = add_assign x (from_step y c).
Proof.
  intros Hx Hy Hn. pose proof (len_utf8_bounds c). pose proof (len_utf16_bounds c).
  assert (0 ≤ n ∧ 0 ≤ m) as [Pn Pm] by (destruct (c_chars _ _ Hx), (c_chars _ _ Hy); lia).
  assert (counts (m + len_utf8 c) (from_step y c)) as Hs by (apply counts_step; [done|lia]).
  pose proof (counts_plus n m x y Hx Hy) as Hp.
  rewrite (plus_eq n m x y), (plus_eq n (m + len_utf8 c) x (from_step y c)) by (done || lia).
  destruct (decide (c = Prelude.newline)) as [->|Hc].
  - rewrite (step_newline_eq (n + m)), (step_newline_eq m) by (done || lia).
    clear Hp Hs. open_counts. unfold step_newline, plus. cbn.
    rewrite (proj2 (Z.eqb_neq (row + 1) 0)) by lia. f_equal; first [lia | f_equal; lia].
  - rewrite (step_char_eq (n + m)), (step_char_eq m) by (done || lia).
    clear Hp Hs. unfold step_char, plus. cbn.
    destruct (Z.eqb_spec (Point.row (lines y)) 0) as [Ry|Ry];
    [destruct (c_one_row _ _ Hy Ry) as (Y1 & Y2 & Y3)|]; open_counts;
    f_equal; try (f_equal; lia); cases_lia.
Qed.

Lemma add_empty_r n x : counts n x → n < 2 ^ 32 → 0 ≤ len x < 2 ^ 64 → add_assign x zero = x.
Proof.
  intros Hx Hn Hl. open_counts.
  unfold add_assign, zero, Point.add_assign, OffsetUtf16.add_assign. cbn. rewrite !Z.add_0_r.
  repeat match goal with
  | |- context [Z.eqb ?a ?b] => destruct (Z.eqb_spec a b); cbn
  | |- context [wrap32 ?x] => rewrite (wrap32_id x) by width
  | |- context [wrap64 ?x] => rewrite (wrap64_id x) by width
  | |- context [Z.ltb ?a ?b] => destruct (Z.ltb_spec a b); cbn
  end; try done; exfalso; lia.
Qed.

Lemma with_len_add x y n m :
  0 ≤ n → 0 ≤ m → n + m < 2 ^ 64 →
  with_len (add_assign x y) (n + m) = add_assign (with_len x n) (with_len y m).
Proof.
  intros. unfold add_assign, with_len. cbn. repeat split_if; cbn;
    rewrite (wrap64_id (n + m)) by width; reflexivity.
Qed.

Lemma fold_add a b :
  str_len a + str_len b < 2 ^ 32 →
  foldl from_step (foldl from_step zero a) b
  = add_assign (foldl from_step zero a) (foldl from_step zero b).
Proof.
  intros Hn. pose proof (str_len_nonneg a). pose proof (str_len_nonneg b).
  pose proof (counts_fold a 0 zero counts_zero ltac:(lia)) as Ha. simpl in Ha.
  revert Hn. induction b as [|c b IH] using rev_ind; intros Hn; simpl in *.
  - rewrite (add_empty_r (str_len a)); [done..|lia|].
    clear. assert (∀ s, len (foldl from_step s a) = len s) as ->.
    { induction a as [|c a IH]; intros s; [done|]. cbn [foldl]. rewrite IH.
      unfold from_step. by repeat split_if. }
    simpl. lia.
  - rewrite !foldl_app. cbn [foldl].
    rewrite str_len_app in Hn, H0. cbn [str_len] in Hn, H0.
    pose proof (str_len_nonneg b). pose proof (len_utf8_bounds c).
    rewrite IH by lia. apply (add_step (str_len a) (str_len b)); [done| |lia].
    apply (counts_fold b 0 zero counts_zero). lia.
Qed.

Lemma from_app a b : str_len (a ++ b) < 2 ^ 32 → from (a ++ b) = add_assign (from a) (from b).
Proof.
  intros Hn. rewrite str_len_app in Hn. pose proof (str_len_nonneg a). pose proof (str_len_nonneg b).
  unfold from. rewrite foldl_app, str_len_app, fold_add by lia. apply with_len_add; lia.
Qed.
(** C37: The cached summary of a concatenation is the sum of the summaries, in every
    field (bytes, characters, UTF-16 units, end point, first, last and longest
    line), and the empty string is the unit; this is what lets the tree answer
    queries from the summaries of its nodes. Texts are under 4 GiB. *)
Theorem summary_app a b :
  str_len (a ++ b) < 2 ^ 32 →
  from (a ++ b) = add (from a) (from b) ∧
  from [] = zero ∧ add (from a) zero = from a.
Proof.
  intros Hn. split_and!; [by apply from_app|done|]. rewrite str_len_app in Hn.
  pose proof (str_len_nonneg a). pose proof (str_len_nonneg b).
  - pose proof (counts_fold a 0 zero counts_zero ltac:(lia)) as Ha. simpl in Ha.
    apply (add_empty_r (str_len a)); [|lia|unfold from; simpl; lia].
    destruct Ha. by split.
Qed.

Lemma summary_app_witness :
  (* "ab\\nc" then "de\\n" *)
  from ([97; 98; 10; 99] ++ [100; 101; 10])
    = add (from [97; 98; 10; 99]) (from [100; 101; 10]) ∧
  longest_row (from ([97; 98; 10; 99] ++ [100; 101; 10])) = 1.
Proof.
  split; [|reflexivity]. apply (summary_app [97; 98; 10; 99] [100; 101; 10]). closed_arith.
Defined.

(** [newline()] is the summary of a line break, but [add_newline] is not the
    addition of it: it leaves the character count unchanged and doubles the
    UTF-16 length, so the two agree only on that part of a summary they both
    treat as text (bytes, end point and last line). *)
Theorem add_newline_diverges s :
  newline = from [Prelude.newline] ∧
  len (add_newline s) = len (add s newline) ∧
  lines (add_newline s) = lines (add s newline) ∧
  last_line_chars (add_newline s) = last_line_chars (add s newline) ∧
  last_line_len_utf16 (add_newline s) = last_line_len_utf16 (add s newline) ∧
  chars (add_newline s) ≠ wrap64 (chars s + 1) ∧
  OffsetUtf16.offset (len_utf16 (add_newline s))
    = wrap64 (OffsetUtf16.offset (len_utf16 s) + wrap64 (OffsetUtf16.offset (len_utf16 s) + 1)) ∧
  add_newline (from [97]) ≠ from [97; Prelude.newline].
Proof.
  unfold add, add_assign, add_newline.
  assert (chars s ≠ wrap64 (chars s + 1)) as Hne.
  { unfold wrap64. intros E. pose proof (Z.mod_pos_bound (chars s + 1) (2 ^ 64) ltac:(lia)) as B.
    pose proof (Z.div_mod (chars s + 1) (2 ^ 64) ltac:(lia)) as D. rewrite <- E in *.
    assert (1 = 2 ^ 64 * ((chars s + 1) / 2 ^ 64)) by lia. nia. }
  repeat split_if; split_and!; cbn; try done.
Qed.
End TextSummary.

(** ** LineIndent *)
Module LineIndent.
(** [crates/text/src/text.rs:641-645] LineIndent *)
Record t := mk { tabs : Z; spaces : Z; line_blank : bool }.
#[global] Instance eq_dec : EqDecision t.
Proof. solve_decision. Defined.

(** The loop over the characters of the line.
    [crates/text/src/text.rs:727-738] LineIndent::from_iter *)
Fixpoint from_iter_loop (chars : str) (tabs spaces : Z) : t :=
  match chars with
  | [] => mk tabs spaces true
  | c :: chars =>
      if c =? tab then from_iter_loop chars (tabs +w32 1) spaces
      else if c =? space then from_iter_loop chars tabs (spaces +w32 1)
      else mk tabs spaces (c =? newline)
  end.
(** [crates/text/src/text.rs:722-745] LineIndent::from_iter *)
Definition from_iter (chars : str) : t := from_iter_loop chars 0 0.

(** The characters of one chunk; [inl] is the [break 'outer].
    [crates/text/src/text.rs:654-665] LineIndent::from_chunks *)
Fixpoint from_chunk (chunk : str) (tabs spaces : Z) : t + (Z * Z) :=
  match chunk with
  | [] => inr (tabs, spaces)
  | ch :: chunk =>
      if ch =? tab then from_chunk chunk (tabs +w32 1) spaces
      else if ch =? space then from_chunk chunk tabs (spaces +w32 1)
      else inl (mk tabs spaces (ch =? newline))
  end.
Fixpoint from_chunks_loop (chunks : list str) (tabs spaces : Z) : t :=
  match chunks with
  | [] => mk tabs spaces true
  | chunk :: chunks =>
      match from_chunk chunk tabs spaces with
      | inl r => r
      | inr (tabs, spaces) => from_chunks_loop chunks tabs spaces
      end
  end.
(** [crates/text/src/text.rs:648-675] LineIndent::from_chunks *)
Definition from_chunks (chunks : list str) : t := from_chunks_loop chunks 0 0.

(** [crates/text/src/text.rs:716-720] From for LineIndent *)
Definition from_str (value : str) : t := from_iter value.
(** [crates/text/src/text.rs:678-684] LineIndent::spaces *)
Definition only_spaces (n : Z) : t := mk 0 n true.
(** [crates/text/src/text.rs:687-693] LineIndent::tabs *)
Definition only_tabs (n : Z) : t := mk n 0 true.
(** [crates/text/src/text.rs:696-698] LineIndent::is_line_empty *)
Definition is_line_empty (i : t) : bool := (tabs i =? 0) && (spaces i =? 0) && line_blank i.
(** [crates/text/src/text.rs:701-703] LineIndent::is_line_blank *)
Definition is_line_blank (i : t) : bool := line_blank i.
(** [crates/text/src/text.rs:706-708] LineIndent::raw_len *)
Definition raw_len (i : t) : Z := tabs i +w32 spaces i.
(** [crates/text/src/text.rs:711-713] LineIndent::len *)
Definition len (i : t) (tab_size : Z) : Z := wrap32 (tabs i * tab_size) +w32 spaces i.

Lemma from_chunk_app chunk rest tabs spaces :
  from_iter_loop (chunk ++ rest) tabs spaces =
    match from_chunk chunk tabs spaces with
    | inl r => r
    | inr (tabs, spaces) => from_iter_loop rest tabs spaces
    end.
Proof.
  revert tabs spaces. induction chunk as [|c chunk IH]; intros; simpl; [done|].
  destruct (c =? tab); [apply IH|]. destruct (c =? space); [apply IH|]. done.
Qed.

(** Reading the indentation chunk by chunk gives the indentation of the concatenated
    text, wherever the chunk boundaries fall; and the indentation read from a
    line of tabs and spaces followed by other text has the raw length of that
    prefix and is blank exactly when a newline or nothing follows. *)
Theorem indent_chunks chunks pre rest :
  Forall (λ c, c = tab ∨ c = space) pre → Z.of_nat (length pre) < 2 ^ 32 →
  (∀ c, head rest = Some c → c ≠ tab ∧ c ≠ space) →
  from_chunks chunks = from_str (concat chunks) ∧
  raw_len (from_str (pre ++ rest)) = Z.of_nat (length pre) ∧
  is_line_blank (from_str (pre ++ rest))
    = match rest with [] => true | c :: _ => c =? newline end.
Proof.
  intros Hpre Hlen Hrest.
  assert (∀ t0 s0, 0 ≤ t0 → 0 ≤ s0 → t0 + s0 + Z.of_nat (length pre) < 2 ^ 32 →
    let i := from_iter_loop (pre ++ rest) t0 s0 in
    raw_len i = t0 + s0 + Z.of_nat (length pre) ∧
    line_blank i = match rest with [] => true | c :: _ => c =? newline end) as H.
  { clear Hlen. induction Hpre as [|c pre Hc Hpre IH]; intros t0 s0 Ht Hs Hb; cbn [app].
    - destruct rest as [|c rest]; cbn.
      + unfold raw_len; cbn. rewrite wrap32_id by width. split; [lia|done].
      + destruct (Hrest c eq_refl) as [H1 H2].
        rewrite (proj2 (Z.eqb_neq c tab)), (proj2 (Z.eqb_neq c space)) by done.
        unfold raw_len; cbn. rewrite wrap32_id by width. split; [lia|done].
    - cbn [length from_iter_loop] in *. destruct Hc as [->| ->]; cbn [Z.eqb].
      + rewrite Z.eqb_refl. rewrite wrap32_id by width.
        destruct (IH (t0 + 1) s0) as [E1 E2]; [lia..|]. rewrite E1, E2. split; [lia|done].
      + change (space =? tab) with false. rewrite Z.eqb_refl. rewrite wrap32_id by width.
        destruct (IH t0 (s0 + 1)) as [E1 E2]; [lia..|]. rewrite E1, E2. split; [lia|done]. }
  split.
  - unfold from_chunks, from_str, from_iter. generalize 0 at 1 3 as t0. generalize 0 as s0.
    induction chunks as [|chunk chunks IH]; intros s0 t0; [done|].
    cbn [from_chunks_loop concat]. rewrite from_chunk_app.
    destruct (from_chunk chunk t0 s0) as [|[]]; [done|]. apply IH.
  - destruct (H 0 0) as [E1 E2]; [lia..|]. unfold from_str, from_iter, is_line_blank.
    rewrite E1, E2. split; [lia|done].
Qed.

Lemma indent_chunks_witness :
  from_chunks [[9; 32]; [32]; [97]] = mk 1 2 false ∧
  raw_len (from_str ([9; 32; 32] ++ [97])) = 3.
Proof.
  destruct (indent_chunks [[9; 32]; [32]; [97]] [9; 32; 32] [97]) as (H1 & H2 & _).
  - do 3 (apply Forall_cons_2; [first [left; reflexivity | right; reflexivity]|]).
    apply Forall_nil_2.
  - closed_arith.
  - intros c [= <-]. split; discriminate.
  - split; [rewrite H1; reflexivity|exact H2].
Defined.
End LineIndent.
