(* ===== verification/Selection.v ===== *)
(** Selections ([crates/text/src/selection.rs]): two ends and the side the
    cursor is on. *)
From S2P Require Import Prelude.

Module Selection.
Section selection.
(** The type of positions with its order, and the type of goals (pixel
    positions kept for vertical motion, which no operation here inspects). *)
Context {T Goal : Type} (cmp : T → T → comparison).

(** [crates/text/src/selection.rs:18-24] Selection *)
Record t := mk { id : Z; start : T; end_ : T; reversed : bool; goal : Goal }.

(** [crates/text/src/selection.rs:28-34] Selection::head *)
Definition head (s : t) : T := if reversed s then start s else end_ s.
(** [crates/text/src/selection.rs:37-43] Selection::tail *)
Definition tail (s : t) : T := if reversed s then end_ s else start s.

(** [crates/text/src/selection.rs:58-63] Selection::collapse_to *)
Definition collapse_to (s : t) (point : T) (new_goal : Goal) : t :=
  mk (id s) point point false new_goal.

(** [crates/text/src/selection.rs:67-69] Selection::is_empty *)
Definition is_empty (s : t) : bool := is_eq (cmp (start s) (end_ s)).

(** [crates/text/src/selection.rs:71-86] Selection::set_head *)
Definition set_head (s : t) (head : T) (new_goal : Goal) : t :=
  if is_lt (cmp head (tail s)) then
    let '(e, r) := if negb (reversed s) then (start s, true) else (end_ s, reversed s) in
    mk (id s) head e r new_goal
  else
    let '(st, r) := if reversed s then (end_ s, false) else (start s, reversed s) in
    mk (id s) st head r new_goal.

(** [crates/text/src/selection.rs:88-103] Selection::set_tail *)
Definition set_tail (s : t) (tail : T) (new_goal : Goal) : t :=
  if is_le (cmp tail (head s)) then
    let '(e, r) := if reversed s then (start s, false) else (end_ s, reversed s) in
    mk (id s) tail e r new_goal
  else
    let '(st, r) := if negb (reversed s) then (end_ s, true) else (start s, reversed s) in
    mk (id s) st tail r new_goal.

(** [crates/text/src/selection.rs:105-116] Selection::set_head_tail *)
Definition set_head_tail (s : t) (head tail : T) (new_goal : Goal) : t :=
  if is_lt (cmp head tail) then mk (id s) head tail true new_goal
  else mk (id s) tail head false new_goal.

(** [crates/text/src/selection.rs:118-124] Selection::swap_head_tail *)
Definition swap_head_tail (s : t) : t :=
  if reversed s then mk (id s) (start s) (end_ s) false (goal s)
  else mk (id s) (end_ s) (start s) (reversed s) (goal s).

(** [crates/text/src/selection.rs:128-130] Selection::range *)
Definition range (s : t) : T * T := (start s, end_ s).

(** [crates/text/src/selection.rs:151-153] Selection::equals *)
Definition equals (s : t) (offset_range : T * T) : bool :=
  is_eq (cmp (start s) offset_range.1) && is_eq (cmp (end_ s) offset_range.2).

(** The range of a selection is not inverted. *)
Definition ordered (s : t) : Prop := cmp (start s) (end_ s) ≠ Gt.
End selection.
Arguments t : clear implicits.

(** [crates/text/src/selection.rs:45-56] Selection::map *)
Definition map {T S Goal} (f : T → S) (s : t T Goal) : t S Goal :=
  mk (id s) (f (start s)) (f (end_ s)) (reversed s) (goal s).

Section laws.
Context {T Goal : Type} (cmp : T → T → comparison) `{!TotalCmp cmp}.
Implicit Types (s : t T Goal).

Lemma cmp_le_opp x y : cmp x y ≠ Lt → cmp y x ≠ Gt.
Proof. rewrite (cmp_antisym cmp x y). by destruct (cmp x y). Qed.
Lemma cmp_gt_opp x y : cmp x y = Gt → cmp y x ≠ Gt.
Proof. rewrite (cmp_antisym cmp x y). by destruct (cmp x y). Qed.

(** Moving one end of an ordered selection moves that end and leaves the other one:
    after [set_head] the head is the new one and the tail is the old tail, after
    [set_tail] conversely, after [set_head_tail] both are the given ones; the
    selection stays ordered, it is reversed exactly when its head is before its
    tail, and its id is kept. *)
Theorem set_ends s h tl g :
  ordered cmp s →
  let s1 := set_head cmp s h g in
  let s2 := set_tail cmp s tl g in
  let s3 := set_head_tail cmp s h tl g in
  (head s1 = h ∧ tail s1 = tail s ∧ ordered cmp s1 ∧ reversed s1 = is_lt (cmp h (tail s))) ∧
  (tail s2 = tl ∧ head s2 = head s ∧ ordered cmp s2 ∧ reversed s2 = is_lt (cmp (head s) tl)) ∧
  (head s3 = h ∧ tail s3 = tl ∧ ordered cmp s3 ∧ reversed s3 = is_lt (cmp h tl)) ∧
  id s1 = id s ∧ id s2 = id s ∧ id s3 = id s.
Proof.
  destruct s as [i st e [|] g0]; cbn; unfold set_head, set_tail, set_head_tail, ordered; cbn;
    intros Ho;
    rewrite (cmp_antisym cmp tl st) || rewrite (cmp_antisym cmp tl e);
    destruct (cmp h e) eqn:E1; destruct (cmp h st) eqn:E2;
    destruct (cmp tl st) eqn:E3; destruct (cmp tl e) eqn:E4;
    destruct (cmp h tl) eqn:E5; cbn; rewrite ?E1, ?E2, ?E3, ?E4, ?E5; split_and!; try done;
    first [ by apply cmp_gt_opp | apply cmp_le_opp; congruence ].
Qed.

(** [swap_head_tail] exchanges head and tail. A reversed selection stays ordered, but a
    non-empty selection that is not reversed is left with its start after its
    end: there the operation swaps the two positions instead of setting the
    [reversed] flag. *)
Theorem swap_head_tail_ends s :
  ordered cmp s →
  head (swap_head_tail s) = tail s ∧ tail (swap_head_tail s) = head s ∧
  reversed (swap_head_tail s) = false ∧
  (ordered cmp (swap_head_tail s) ↔ reversed s = true ∨ is_empty cmp s = true).
Proof.
  destruct s as [i st e [|] g0]; unfold ordered, is_empty; cbn; intros Ho; split_and!; try done.
  - split; auto.
  - rewrite (cmp_antisym cmp st e). destruct (cmp st e); cbn; split; intros H; try done;
      try (by destruct H); auto.
Qed.
End laws.

Lemma set_ends_witness :
  let s := mk (Goal := unit) 7 3 9 false tt in
  set_head Z.compare s 1 tt = mk 7 1 3 true tt ∧
  head (set_head Z.compare s 1 tt) = 1 ∧ tail (set_head Z.compare s 1 tt) = 3.
Proof.
  cbn zeta. split; [reflexivity|].
  destruct (set_ends Z.compare (mk (Goal := unit) 7 3 9 false tt) 1 4 tt) as [(H1 & H2 & _) _].
  - discriminate.
  - split; [exact H1|exact H2].
Defined.

Lemma swap_head_tail_ends_witness :
  let s := mk (Goal := unit) 7 3 9 false tt in
  swap_head_tail s = mk 7 9 3 false tt ∧ ¬ ordered Z.compare (swap_head_tail s).
Proof.
  cbn zeta. split; [reflexivity|].
  destruct (swap_head_tail_ends Z.compare (mk (Goal := unit) 7 3 9 false tt)) as (_ & _ & _ & H).
  - discriminate.
  - rewrite H. intros [E|E]; discriminate.
Defined.
End Selection.
