(* ===== verification/Patch.v ===== *)
(** Edits, patches and subscriptions: [crates/text/src/patch.rs], the [Edit]
    type of [crates/text/src/text.rs] and [crates/text/src/subscription.rs].

    The position type is generic in the code; here it is the [usize] instance,
    as [Z]. Every subtraction of the code is between positions in order when
    the patches describe real edits ([Patch.relates] below), so none wraps. *)
From S2P Require Import Prelude.

(** ** binary_search_by of slices (standard library)

    The search of [core::slice]: halves the candidate range, then one last
    comparison; [inl] is [Ok], [inr] is [Err]. *)
Section binary_search.
Context {A : Type} (f : A → comparison) (l : list A).
Fixpoint binary_search_loop (fuel : nat) (base size : nat) : nat :=
  match fuel with
  | O => base
  | S fuel =>
      if Nat.leb size 1 then base
      else
        let half := Nat.div size 2 in
        let mid := (base + half)%nat in
        let base :=
          match l !! mid with
          | Some x => if is_gt (f x) then base else mid
          | None => base
          end in
        binary_search_loop fuel base (size - half)
  end.
Definition binary_search_by : nat + nat :=
  match l with
  | [] => inr 0%nat
  | _ =>
      let base := binary_search_loop (length l) 0 (length l) in
      match l !! base with
      | Some x =>
          match f x with
          | Eq => inl base
          | Lt => inr (S base)
          | Gt => inr base
          end
      | None => inr base
      end
  end.

(** [f] is below, then equal, then above along the slice. *)
Definition search_sorted : Prop :=
  ∀ i j x y, (i < j)%nat → l !! i = Some x → l !! j = Some y →
    f y ≠ Gt → f x = Lt.

Lemma binary_search_loop_spec fuel base size :
  search_sorted → (size ≤ S fuel)%nat → (1 ≤ size)%nat → (base + size ≤ length l)%nat →
  (∀ j y, (base + size ≤ j)%nat → l !! j = Some y → f y = Gt) →
  (base ≠ 0%nat → ∃ x, l !! base = Some x ∧ f x ≠ Gt) →
  let r := binary_search_loop fuel base size in
  (r < length l)%nat ∧ (∀ j y, (r < j)%nat → l !! j = Some y → f y = Gt) ∧
  (r ≠ 0%nat → ∃ x, l !! r = Some x ∧ f x ≠ Gt).
Proof.
  intros Hs. revert base size. induction fuel as [|fuel IH]; intros base size Hf H1 Hl Hgt Hb.
  - simpl. assert (size = 1%nat) as -> by lia. split_and!; [lia| |done].
    intros j y Hj. apply Hgt. lia.
  - cbn [binary_search_loop]. destruct (Nat.leb_spec size 1) as [Hle|Hlt].
    + assert (size = 1%nat) as -> by lia. split_and!; [lia| |done].
      intros j y Hj. apply Hgt. lia.
    + pose proof (Nat.div_lt size 2 ltac:(lia) ltac:(lia)).
      pose proof (Nat.div_str_pos size 2 ltac:(lia)) as Hpos. pose proof (Nat.Div0.mul_div_le size 2).
      destruct (lookup_lt_is_Some_2 l (base + size / 2)) as [x Hx]; [lia|].
      rewrite Hx. apply IH.
      * lia.
      * lia.
      * destruct (is_gt (f x)); lia.
      * intros j y Hj Hy. destruct (f x) eqn:E; cbn [is_gt] in Hj.
        -- apply (Hgt j); [lia|done].
        -- apply (Hgt j); [lia|done].
        -- destruct (decide (base + size / 2 = j)%nat) as [<-|]; [congruence|].
           assert (f y ≠ Gt → f x = Lt) as Hlt'.
           { apply (Hs (base + size / 2)%nat j); [lia|done|done]. }
           destruct (f y); [| |done]; rewrite Hlt' in E; done.
      * destruct (f x) eqn:E; cbn [is_gt]; intros Hz; eauto.
        -- exists x. split; [done|congruence].
        -- exists x. split; [done|congruence].
Qed.

(** The result for a sorted slice: a hit, or the number of elements below. *)
Lemma binary_search_by_spec :
  search_sorted →
  match binary_search_by with
  | inl i => ∃ x, l !! i = Some x ∧ f x = Eq
  | inr i =>
      (i ≤ length l)%nat ∧ (∀ j x, (j < i)%nat → l !! j = Some x → f x = Lt) ∧
      (∀ j x, (i ≤ j)%nat → l !! j = Some x → f x = Gt)
  end.
Proof.
  intros Hs. unfold binary_search_by. destruct l as [|a l'] eqn:El.
  { split_and!; [done| |]; intros j x; [lia|]. by rewrite lookup_nil. }
  rewrite <- El in *.
  destruct (binary_search_loop_spec (length l) 0 (length l) Hs) as (H1 & H2 & H3);
    [lia|rewrite El; simpl; lia|lia| |done|].
  { intros j y Hj Hy. apply lookup_lt_Some in Hy. lia. }
  set (r := binary_search_loop (length l) 0 (length l)) in *.
  destruct (lookup_lt_is_Some_2 l r H1) as [x Hx]. rewrite Hx.
  assert (∀ j y, (j < r)%nat → l !! j = Some y → f x ≠ Gt → f y = Lt) as Hbelow.
  { intros j y Hj Hy Hn. by apply (Hs j r y x). }
  destruct (f x) eqn:E.
  - eauto.
  - split_and!; [lia| |].
    + intros j y Hj Hy. destruct (decide (j = r)) as [->|]; [congruence|].
      apply (Hbelow j); [lia|done|congruence].
    + intros j y Hj. apply H2. lia.
  - destruct (decide (r = 0%nat)) as [Hz|Hz]; [|destruct (H3 Hz) as (y & Hy & Hn); congruence].
    split_and!; [lia|lia|].
    intros j y Hj Hy. destruct (decide (j = r)) as [->|]; [congruence|].
    apply (H2 j); [lia|done].
Qed.
End binary_search.

(** ** Edit *)
Module Edit.
(** A [Range] is written as its two ends. [crates/text/src/text.rs:526-530] Edit *)
Record t := mk { old_start : Z; old_end : Z; new_start : Z; new_end : Z }.
#[global] Instance eq_dec : EqDecision t.
Proof. solve_decision. Defined.

(** [crates/text/src/text.rs:535-537] Edit::is_empty *)
Definition is_empty (e : t) : bool := (old_start e =? old_end e) && (new_start e =? new_end e).
(** [crates/text/src/text.rs:544-546] Edit::old_len *)
Definition old_len (e : t) : Z := old_end e - old_start e.
(** [crates/text/src/text.rs:548-550] Edit::new_len *)
Definition new_len (e : t) : Z := new_end e - new_start e.
(** The [mem::swap] of the loop body. [crates/text/src/patch.rs:41-43] Patch::invert *)
Definition swap (e : t) : t := mk (new_start e) (new_end e) (old_start e) (old_end e).
End Edit.

(** ** Patch *)
Module Patch.
Import Edit.

(** [crates/text/src/patch.rs:8-8] Patch *)
Definition t : Type := list Edit.t.

(** [crates/text/src/patch.rs:14-16] Patch::empty *)
Definition empty : t := [].

(** The assertion a debug build makes about the edits of a patch: between
    two edits there is unchanged text on both sides. *)
Fixpoint separated_after (last : option Edit.t) (p : t) : bool :=
  match p with
  | [] => true
  | e :: p =>
      match last with
      | Some l => (old_end l <? old_start e) && (new_end l <? new_start e)
      | None => true
      end && separated_after (Some e) p
  end.
(** The check of [Patch::new] under [debug_assertions].
    [crates/text/src/patch.rs:18-31] Patch::new *)
Definition separated (p : t) : bool := separated_after None p.

(** [crates/text/src/patch.rs:40-45] Patch::invert *)
Definition invert (p : t) : t := map swap p.
(** [crates/text/src/patch.rs:47-49] Patch::clear *)
Definition clear (p : t) : t := [].
(** [crates/text/src/patch.rs:51-53] Patch::is_empty *)
Definition is_empty (p : t) : bool := match p with [] => true | _ => false end.

(** [crates/text/src/patch.rs:62-73] Patch::push_maybe_empty *)
Definition push_maybe_empty (p : t) (e : Edit.t) : t :=
  match last p with
  | Some l =>
      if old_start e <=? old_end l
      then removelast p ++ [mk (old_start l) (old_end e) (new_start l) (new_end e)]
      else p ++ [e]
  | None => p ++ [e]
  end.

(** [crates/text/src/patch.rs:55-60] Patch::push *)
Definition push (p : t) (e : Edit.t) : t :=
  if Edit.is_empty e then p else push_maybe_empty p e.

(** The variables of the loop of [compose]: what is left of both iterators
    (their first edits are trimmed in place through [peek_mut]), the result so
    far, and the positions reached in the first and in the last text. *)
Record compose_state := mk_compose {
  olds : t; news : t; composed : t; at_old : Z; at_new : Z;
}.

(** An old edit that ends before the next new edit starts.
    [crates/text/src/patch.rs:100-118] Patch::compose *)
Definition push_old (o : Edit.t) (olds news : t) (st : compose_state) : compose_state :=
  let catchup := old_start o - at_old st in
  let at_old' := at_old st + catchup in
  let at_new' := at_new st + catchup in
  let old_end := at_old' + old_len o in
  let new_end := at_new' + new_len o in
  mk_compose olds news (push (composed st) (mk at_old' old_end at_new' new_end)) old_end new_end.

(** A new edit that ends before the next old edit starts.
    [crates/text/src/patch.rs:121-139] Patch::compose *)
Definition push_new (n : Edit.t) (olds news : t) (st : compose_state) : compose_state :=
  let catchup := new_start n - at_new st in
  let at_old' := at_old st + catchup in
  let at_new' := at_new st + catchup in
  let old_end := at_old' + old_len n in
  let new_end := at_new' + new_len n in
  mk_compose olds news (push (composed st) (mk at_old' old_end at_new' new_end)) old_end new_end.

(** Two edits that intersect: first the part of one that precedes the other.
    [crates/text/src/patch.rs:143-177] Patch::compose *)
Definition align (o n : Edit.t) (olds news : t) (st : compose_state) : compose_state :=
  if new_start o <? old_start n then
    let catchup := old_start o - at_old st in
    let at_old' := at_old st + catchup in
    let at_new' := at_new st + catchup in
    let overshoot := old_start n - new_start o in
    let old_end' := Z.min (at_old' + overshoot) (old_end o) in
    let new_end' := at_new' + overshoot in
    mk_compose (mk old_end' (old_end o) (new_start o + overshoot) (new_end o) :: olds)
      (n :: news)
      (push (composed st) (mk at_old' old_end' at_new' new_end')) old_end' new_end'
  else
    let catchup := new_start n - at_new st in
    let at_old' := at_old st + catchup in
    let at_new' := at_new st + catchup in
    let overshoot := new_start o - old_start n in
    let old_end' := at_old' + overshoot in
    let new_end' := Z.min (at_new' + overshoot) (new_end n) in
    mk_compose (o :: olds)
      (mk (old_start n + overshoot) (old_end n) new_end' (new_end n) :: news)
      (push (composed st) (mk at_old' old_end' at_new' new_end')) old_end' new_end'.

(** Then the overlap, which uses up one of the two.
    [crates/text/src/patch.rs:179-205] Patch::compose *)
Definition overlap (o n : Edit.t) (olds news : t) (st : compose_state) : compose_state :=
  if old_end n <? new_end o then
    let old_end' := at_old st + Z.min (old_len o) (old_len n) in
    let new_end' := at_new st + new_len n in
    mk_compose (mk old_end' (old_end o) (old_end n) (new_end o) :: olds) news
      (push (composed st) (mk (at_old st) old_end' (at_new st) new_end')) old_end' new_end'
  else
    let old_end' := at_old st + old_len o in
    let new_end' := at_new st + Z.min (new_len o) (new_len n) in
    mk_compose olds (mk (new_end o) (old_end n) new_end' (new_end n) :: news)
      (push (composed st) (mk (at_old st) old_end' (at_new st) new_end')) old_end' new_end'.

(** One iteration of the loop; [None] is the [break].
    [crates/text/src/patch.rs:95-209] Patch::compose *)
Definition compose_step (st : compose_state) : option compose_state :=
  match olds st, news st with
  | o :: olds, [] => Some (push_old o olds [] st)
  | [], n :: news => Some (push_new n [] news st)
  | [], [] => None
  | o :: olds, n :: news =>
      if new_end o <? old_start n then Some (push_old o olds (n :: news) st)
      else if old_end n <? new_start o then Some (push_new n (o :: olds) news st)
      else
        let st := align o n olds news st in
        match Patch.olds st, Patch.news st with
        | o :: olds, n :: news => Some (overlap o n olds news st)
        | _, _ => None
        end
  end.

Fixpoint compose_loop (fuel : nat) (st : compose_state) : compose_state :=
  match fuel with
  | O => st
  | S fuel =>
      match compose_step st with
      | Some st => compose_loop fuel st
      | None => st
      end
  end.

(** Every iteration finishes an edit, so as many iterations as there are
    edits reach the [break] ([compose_loop_done]).
    [crates/text/src/patch.rs:88-212] Patch::compose *)
Definition compose (self new_edits : t) : t :=
  composed (compose_loop (length self + length new_edits)
    (mk_compose self new_edits [] 0 0)).

(** [crates/text/src/patch.rs:214-234] Patch::old_to_new *)
Definition old_to_new (p : t) (old : Z) : Z :=
  let at_edit ix :=
    match p !! ix with
    | Some e => if old_end e <=? old then new_end e + (old - old_end e) else new_start e
    | None => old
    end in
  match binary_search_by (λ probe, Z.compare (old_start probe) old) p with
  | inl ix => at_edit ix
  | inr O => old
  | inr (S ix) => at_edit ix
  end.

(** [crates/text/src/patch.rs:241-274] Patch::edit_for_old_position *)
Definition edit_for_old_position (p : t) (old : Z) : Edit.t :=
  let at_edit ix :=
    match p !! ix with
    | Some e =>
        if old_end e <? old then
          let translated := new_end e + (old - old_end e) in
          mk old old translated translated
        else e
    | None => mk old old old old
    end in
  match binary_search_by (λ probe, Z.compare (old_start probe) old) p with
  | inl ix => at_edit ix
  | inr O => mk old old old old
  | inr (S ix) => at_edit ix
  end.

(** *** What a patch says about two texts

    [relates i j p a b]: the edits of [p], read at offset [i] of the old text
    and [j] of the new one, lead from [a] to [b]: between edits the texts are
    equal, and an edit replaces its old range by its new range. *)
Section relates.
Context {A : Type}.
Implicit Types (a b c d g s : list A) (p q : t).
Abbreviation len l := (Z.of_nat (length l)).

Inductive relates : Z → Z → t → list A → list A → Prop :=
  | relates_nil i j g : relates i j [] g g
  | relates_cons i j e p g d s a b :
      old_start e = i + len g → old_end e = old_start e + len d →
      new_start e = j + len g → new_end e = new_start e + len s →
      relates (old_end e) (new_end e) p a b →
      relates i j (e :: p) (g ++ d ++ a) (g ++ s ++ b).

Lemma relates_invert i j p a b : relates i j p a b → relates j i (invert p) b a.
Proof.
  induction 1 as [|i j e p g d s a b H1 H2 H3 H4 _ IH]; [constructor|].
  cbn. by apply relates_cons.
Qed.

Lemma invert_involutive p : invert (invert p) = p.
Proof.
  unfold invert. rewrite map_map. rewrite <- (map_id p) at 2. apply map_ext. by intros [].
Qed.

(** Common text on the new side of the first edits belongs to the gap. *)
Lemma relates_drop i j p h a b :
  relates i j p (h ++ a) b →
  (∀ e, head p = Some e → i + len h ≤ old_start e) →
  ∃ b', b = h ++ b' ∧ relates (i + len h) (j + len h) p a b'.
Proof.
  intros H Hp. inversion H as [|i' j' e p' g d s a' b' H1 H2 H3 H4 Hr]; subst.
  - exists a. split; [done|constructor].
  - specialize (Hp e eq_refl).
    assert (∃ g', g = h ++ g') as [g' ->].
    { match goal with E : _ ++ _ = _ ++ _ |- _ =>
        apply (f_equal (take (length h))) in E; revert E end.
      rewrite take_app_le, take_app_length by lia. intros <-.
      exists (drop (length h) g). by rewrite take_drop. }
    rewrite length_app in *.
    match goal with E : (h ++ g') ++ _ = h ++ a |- _ =>
      rewrite <- app_assoc in E; apply app_inv_head in E; subst a end.
    exists (g' ++ s ++ b'). split; [by rewrite <- app_assoc|].
    apply relates_cons; [lia..|done].
Qed.

Lemma relates_drop_new i j p h a b :
  relates i j p a (h ++ b) →
  (∀ e, head p = Some e → j + len h ≤ new_start e) →
  ∃ a', a = h ++ a' ∧ relates (i + len h) (j + len h) p a' b.
Proof.
  intros H%relates_invert Hp. apply relates_drop in H as (a' & -> & H).
  - exists a'. split; [done|]. apply relates_invert in H. by rewrite invert_involutive in H.
  - intros e. destruct p; [done|]. intros [= <-]. by apply Hp.
Qed.

Lemma relates_uncons i j e p a b :
  relates i j (e :: p) a b →
  ∃ g d s a' b', a = g ++ d ++ a' ∧ b = g ++ s ++ b' ∧
    old_start e = i + len g ∧ old_end e = old_start e + len d ∧
    new_start e = j + len g ∧ new_end e = new_start e + len s ∧
    relates (old_end e) (new_end e) p a' b'.
Proof. inversion 1; subst. naive_solver. Qed.

Lemma relates_nil_inv i j a b : relates i j [] a b → a = b.
Proof. by inversion 1. Qed.

(** *** [push] *)
Lemma relates_gap i j p a b g : relates i j p a b → relates i j p (a ++ g) (b ++ g).
Proof.
  induction 1 as [|i j e p g' d s a b H1 H2 H3 H4 _ IH]; [constructor|].
  rewrite <- !app_assoc. by apply relates_cons.
Qed.

Lemma relates_snoc i j p a b d s :
  relates i j p a b →
  relates i j (p ++ [mk (i + len a) (i + len a + len d) (j + len b) (j + len b + len s)])
    (a ++ d) (b ++ s).
Proof.
  induction 1 as [i j g|i j e p g d' s' a b H1 H2 H3 H4 _ IH].
  - assert (∀ h : list A, g ++ h = g ++ h ++ []) as E by (intros; by rewrite app_nil_r).
    rewrite (E d), (E s). apply relates_cons; cbn; [lia..|constructor].
  - rewrite <- !app_assoc. cbn [app]. apply relates_cons; [done..|].
    rewrite !length_app.
    replace (i + Z.of_nat (length g + (length d' + length a))) with (old_end e + len a) by lia.
    replace (j + Z.of_nat (length g + (length s' + length b))) with (new_end e + len b) by lia.
    done.
Qed.

Lemma relates_merge i j p l a b d s :
  relates i j (p ++ [l]) a b → i + len a ≤ old_end l →
  relates i j (p ++ [mk (old_start l) (i + len a + len d) (new_start l) (j + len b + len s)])
    (a ++ d) (b ++ s).
Proof.
  remember (p ++ [l]) as q eqn:Hq. intros H. revert p Hq.
  induction H as [|i j e q g d' s' a b H1 H2 H3 H4 Hr IH]; intros p Hq Hl.
  { by destruct p. }
  destruct p as [|e' p]; injection Hq as -> ->.
  - apply relates_nil_inv in Hr as <-. rewrite !length_app in *.
    assert (a = []) as -> by (destruct a; [done|simpl in *; lia]).
    rewrite !app_nil_r, <- !app_assoc.
    assert (∀ h h' : list A, g ++ h ++ h' = g ++ (h ++ h') ++ []) as E
      by (intros; by rewrite app_nil_r).
    rewrite (E d'), (E s').
    apply relates_cons; cbn; rewrite ?length_app; cbn in *; [lia..|constructor].
  - rewrite !length_app in *. rewrite <- !app_assoc. cbn [app]. apply relates_cons; [done..|].
    replace (i + Z.of_nat (length g + (length d' + length a))) with (old_end e' + len a) by lia.
    replace (j + Z.of_nat (length g + (length s' + length b))) with (new_end e' + len b) by lia.
    apply IH; [done|lia].
Qed.

Lemma relates_push_maybe_empty i j p a b d s :
  relates i j p a b →
  relates i j
    (push_maybe_empty p (mk (i + len a) (i + len a + len d) (j + len b) (j + len b + len s)))
    (a ++ d) (b ++ s).
Proof.
  intros H. unfold push_maybe_empty. destruct p as [|l p _] using rev_ind.
  - by apply (relates_snoc i j []).
  - rewrite last_snoc. cbn [old_start old_end new_end new_start].
    destruct (Z.leb_spec (i + len a) (old_end l)).
    + rewrite removelast_last. by apply relates_merge.
    + by apply relates_snoc.
Qed.

Lemma relates_push i j p a b d s :
  relates i j p a b →
  relates i j (push p (mk (i + len a) (i + len a + len d) (j + len b) (j + len b + len s)))
    (a ++ d) (b ++ s).
Proof.
  intros H. unfold push, Edit.is_empty. cbn.
  destruct (Z.eqb_spec (i + len a) (i + len a + len d));
    [destruct (Z.eqb_spec (j + len b) (j + len b + len s))|]; cbn;
    try by apply relates_push_maybe_empty.
  assert (d = [] ∧ s = []) as [-> ->].
  { split; apply length_zero_iff_nil; lia. }
  by rewrite !app_nil_r.
Qed.

Lemma relates_advance p a c h d s x x' y y' :
  relates 0 0 p a c →
  x = len (a ++ h) → x' = x + len d → y = len (c ++ h) → y' = y + len s →
  relates 0 0 (push p (mk x x' y y')) ((a ++ h) ++ d) ((c ++ h) ++ s).
Proof.
  intros H -> -> -> ->. pose proof (relates_gap _ _ _ _ _ h H) as Hg.
  by apply (relates_push 0 0 p _ _ d s) in Hg.
Qed.

(** *** The loop of [compose]

    [m] is the position reached in the middle text. *)
Record loop_inv (a c : list A) (st : compose_state) (m : Z) (a2 b2 c2 : list A) : Prop := {
  li_done : ∃ a1 c1, a = a1 ++ a2 ∧ c = c1 ++ c2 ∧ at_old st = len a1 ∧ at_new st = len c1 ∧
    relates 0 0 (composed st) a1 c1;
  li_old : relates (at_old st) m (olds st) a2 b2;
  li_new : relates m (at_new st) (news st) b2 c2;
}.
Definition composing (a c : list A) (st : compose_state) : Prop :=
  ∃ m a2 b2 c2, loop_inv a c st m a2 b2 c2.

(** Pushing one edit that replaces [d] by [s] after a common gap [h]. *)
Lemma loop_inv_push a c st m h d s a2 b2 c2 olds' news' x x' y y' :
  (∃ a1 c1, a = a1 ++ h ++ d ++ a2 ∧ c = c1 ++ h ++ s ++ c2 ∧
     at_old st = len a1 ∧ at_new st = len c1 ∧ relates 0 0 (composed st) a1 c1) →
  x = at_old st + len h → x' = x + len d → y = at_new st + len h → y' = y + len s →
  relates x' m olds' a2 b2 → relates m y' news' b2 c2 →
  loop_inv a c (mk_compose olds' news' (push (composed st) (mk x x' y y')) x' y') m a2 b2 c2.
Proof.
  intros (a1 & c1 & -> & -> & Eo & En & Hd) Hx Hx' Hy Hy' Ho Hn. split; [|done..].
  exists ((a1 ++ h) ++ d), ((c1 ++ h) ++ s). cbn. rewrite <- !app_assoc, !length_app.
  split_and!; [done..|lia|lia|]. rewrite !app_assoc.
  apply relates_advance; rewrite ?length_app; (done || lia).
Qed.

Lemma push_old_inv a c st o olds' :
  composing a c st → olds st = o :: olds' →
  (∀ n, head (news st) = Some n → new_end o < old_start n) →
  composing a c (push_old o olds' (news st) st).
Proof.
  intros (m & a2 & b2 & c2 & [Hd Ho Hn]) Eo Hlt. rewrite Eo in Ho.
  apply relates_uncons in Ho as (g & d & s & a' & b' & -> & -> & H1 & H2 & H3 & H4 & Hr).
  rewrite app_assoc in Hn. apply relates_drop in Hn as (c' & -> & Hn).
  2: { intros n Hh. specialize (Hlt n Hh). rewrite length_app. lia. }
  rewrite length_app in Hn. rewrite <- app_assoc in Hd.
  exists (new_end o), a', b', c'. unfold push_old, old_len, new_len.
  eapply loop_inv_push; [exact Hd|lia..| |].
  - by replace (_ + _) with (old_end o) by lia.
  - replace (new_end o) with (m + Z.of_nat (length g + length s)) by lia.
    by replace (_ + _ + _) with (at_new st + Z.of_nat (length g + length s)) by lia.
Qed.

Lemma push_new_inv a c st n news' :
  composing a c st → news st = n :: news' →
  (∀ o, head (olds st) = Some o → old_end n < new_start o) →
  composing a c (push_new n (olds st) news' st).
Proof.
  intros (m & a2 & b2 & c2 & [Hd Ho Hn]) En Hlt. rewrite En in Hn.
  apply relates_uncons in Hn as (g & d & s & b' & c' & -> & -> & H1 & H2 & H3 & H4 & Hr).
  rewrite app_assoc in Ho. apply relates_drop_new in Ho as (a' & -> & Ho).
  2: { intros o Hh. specialize (Hlt o Hh). rewrite length_app. lia. }
  rewrite length_app in Ho. rewrite <- app_assoc in Hd.
  exists (old_end n), a', b', c'. unfold push_new, old_len, new_len.
  eapply loop_inv_push; [exact Hd|lia..| |].
  - replace (old_end n) with (m + Z.of_nat (length g + length d)) by lia.
    by replace (_ + _ + _) with (at_old st + Z.of_nat (length g + length d)) by lia.
  - by replace (_ + _) with (new_end n) by lia.
Qed.

Lemma app_prefix a b c d :
  a ++ b = c ++ d → (length a ≤ length c)%nat → ∃ r, c = a ++ r ∧ b = r ++ d.
Proof.
  intros E Hl. exists (drop (length a) c).
  assert (a = take (length a) c) as Ha.
  { apply (f_equal (take (length a))) in E. by rewrite take_app_length, take_app_le in E. }
  assert (c = a ++ drop (length a) c) as Hc by (rewrite Ha at 1; by rewrite take_drop).
  split; [done|]. rewrite Hc, <- app_assoc in E. by apply app_inv_head in E.
Qed.

Lemma split_at a n : 0 ≤ n ≤ len a → ∃ x y, a = x ++ y ∧ len x = n.
Proof.
  intros Hn. exists (take (Z.to_nat n) a), (drop (Z.to_nat n) a).
  rewrite take_drop, length_take. split; [done|lia].
Qed.

(** Both next edits start where the loop is. *)
Record aligned (a c : list A) (o n : Edit.t) (olds' news' : t) (st : compose_state) : Prop := {
  al_olds : olds st = o :: olds';
  al_news : news st = n :: news';
  al_inv : ∃ m a2 b2 c2, loop_inv a c st m a2 b2 c2 ∧ new_start o = m ∧ old_start n = m;
  al_old : old_start o = at_old st;
  al_new : new_start n = at_new st;
}.

Lemma align_inv a c st o n olds' news' :
  composing a c st → olds st = o :: olds' → news st = n :: news' →
  old_start n ≤ new_end o → new_start o ≤ old_end n →
  ∃ o' n', aligned a c o' n' olds' news' (align o n olds' news' st).
Proof.
  intros (m & a2 & b2 & c2 & [Hd Ho Hn]) Eo En Hle1 Hle2. rewrite Eo in Ho. rewrite En in Hn.
  apply relates_uncons in Ho as (g1 & d1 & s1 & a' & b1 & -> & -> & O1 & O2 & O3 & O4 & Hr1).
  apply relates_uncons in Hn as (g2 & d2 & s2 & b2 & c' & Eb & -> & N1 & N2 & N3 & N4 & Hr2).
  unfold align. destruct (Z.ltb_spec (new_start o) (old_start n)) as [Hlt|Hge].
  - destruct (app_prefix g1 (s1 ++ b1) g2 (d2 ++ b2)) as (h & -> & Eb'); [done|lia|].
    rewrite length_app in *.
    symmetry in Eb'. destruct (app_prefix h (d2 ++ b2) s1 b1) as (s1' & -> & Eb2); [done|lia|].
    rewrite length_app in *.
    destruct (split_at d1 (Z.min (len h) (len d1))) as (x & y & -> & Hx); [lia|].
    rewrite length_app in *. eexists _, _. split; [done|done| |cbn; lia|cbn; lia].
    exists (old_start n), (y ++ a'), (s1' ++ b1), (s2 ++ c'). cbn. split; [|lia].
    eapply (loop_inv_push a c st _ g1 x h); [|lia..| |].
    + rewrite <- !app_assoc in Hd. exact Hd.
    + apply (relates_cons _ _ _ _ [] y s1'); cbn; [lia..|done].
    + rewrite <- Eb2. apply (relates_cons _ _ _ _ [] d2 s2); cbn; [lia..|done].
  - destruct (app_prefix g2 (d2 ++ b2) g1 (s1 ++ b1)) as (h & -> & Eb'); [done|lia|].
    rewrite length_app in *.
    symmetry in Eb'. destruct (app_prefix h (s1 ++ b1) d2 b2) as (d2' & -> & Eb2); [done|lia|].
    rewrite length_app in *.
    destruct (split_at s2 (Z.min (len h) (len s2))) as (x & y & -> & Hx); [lia|].
    rewrite length_app in *. eexists _, _. split; [done|done| |cbn; lia|cbn; lia].
    exists (new_start o), (d1 ++ a'), (d2' ++ b2), (y ++ c'). cbn. split; [|lia].
    eapply (loop_inv_push a c st _ g2 h x); [|lia..| |].
    + rewrite <- !app_assoc in Hd. exact Hd.
    + rewrite <- Eb2. apply (relates_cons _ _ _ _ [] d1 s1); cbn; [lia..|done].
    + apply (relates_cons _ _ _ _ [] d2' y); cbn; [lia..|done].
Qed.

Lemma overlap_inv a c st o n olds' news' :
  aligned a c o n olds' news' st → composing a c (overlap o n olds' news' st).
Proof.
  intros [Eo En (m & a2 & b2 & c2 & [Hd Ho Hn] & M1 & M2) Ao An]. rewrite Eo in Ho. rewrite En in Hn.
  apply relates_uncons in Ho as (g1 & d1 & s1 & a' & b1 & -> & -> & O1 & O2 & O3 & O4 & Hr1).
  apply relates_uncons in Hn as (g2 & d2 & s2 & b2 & c' & Eb & -> & N1 & N2 & N3 & N4 & Hr2).
  assert (g1 = [] ∧ g2 = []) as [-> ->] by (split; apply length_zero_iff_nil; lia).
  cbn [app length] in *. unfold overlap, old_len, new_len.
  destruct (Z.ltb_spec (old_end n) (new_end o)).
  - symmetry in Eb. destruct (app_prefix d2 b2 s1 b1) as (s1' & -> & ->); [done|lia|].
    rewrite length_app in *.
    destruct (split_at d1 (Z.min (len d1) (len d2))) as (x & y & -> & Hx); [lia|].
    rewrite length_app in *. exists (old_end n), (y ++ a'), (s1' ++ b1), c'.
    eapply (loop_inv_push a c st _ [] x s2); cbn; [|lia..| |].
    + rewrite <- !app_assoc in Hd. exact Hd.
    + apply (relates_cons _ _ _ _ [] y s1'); cbn; [lia..|done].
    + by replace (at_new st + _) with (new_end n) by lia.
  - destruct (app_prefix s1 b1 d2 b2) as (d2' & -> & ->); [done|lia|].
    rewrite length_app in *.
    destruct (split_at s2 (Z.min (len s1) (len s2))) as (x & y & -> & Hx); [lia|].
    rewrite length_app in *. exists (new_end o), a', (d2' ++ b2), (y ++ c').
    eapply (loop_inv_push a c st _ [] d1 x); cbn; [|lia..| |].
    + rewrite <- !app_assoc in Hd. exact Hd.
    + by replace (at_old st + _) with (old_end o) by lia.
    + apply (relates_cons _ _ _ _ [] d2' y); cbn; [lia..|done].
Qed.

Lemma compose_step_inv a c st st' :
  composing a c st → compose_step st = Some st' →
  composing a c st' ∧
  (length (olds st') + length (news st') < length (olds st) + length (news st))%nat.
Proof.
  intros Hi. unfold compose_step.
  destruct (olds st) as [|o olds'] eqn:Eo, (news st) as [|n news'] eqn:En; [done|..].
  - intros [= <-]. split; [|cbn; lia]. rewrite <- Eo.
    apply push_new_inv; [done..|by rewrite Eo].
  - intros [= <-]. split; [|cbn; lia]. rewrite <- En.
    apply push_old_inv; [done..|by rewrite En].
  - destruct (Z.ltb_spec (new_end o) (old_start n)).
    { intros [= <-]. split; [|cbn; lia]. rewrite <- En.
      apply push_old_inv; [done..|rewrite En; by intros ? [= <-]]. }
    destruct (Z.ltb_spec (old_end n) (new_start o)).
    { intros [= <-]. split; [|cbn; lia]. rewrite <- Eo.
      apply push_new_inv; [done..|rewrite Eo; by intros ? [= <-]]. }
    destruct (align_inv a c st o n olds' news') as (o' & n' & Ha); [done..|].
    rewrite (al_olds _ _ _ _ _ _ _ Ha), (al_news _ _ _ _ _ _ _ Ha). intros [= <-].
    split; [by apply overlap_inv|]. unfold overlap. split_if; cbn; lia.
Qed.

Lemma compose_step_none a c st :
  composing a c st → compose_step st = None → olds st = [] ∧ news st = [].
Proof.
  intros Hi. unfold compose_step.
  destruct (olds st) as [|o olds'] eqn:Eo, (news st) as [|n news'] eqn:En; [done..|].
  destruct (Z.ltb_spec (new_end o) (old_start n)); [done|].
  destruct (Z.ltb_spec (old_end n) (new_start o)); [done|].
  destruct (align_inv a c st o n olds' news') as (o' & n' & Ha); [done..|].
  by rewrite (al_olds _ _ _ _ _ _ _ Ha), (al_news _ _ _ _ _ _ _ Ha).
Qed.

(** The loop runs to its [break] within the fuel, keeping the invariant. *)
Lemma compose_loop_done a c fuel st :
  composing a c st → (length (olds st) + length (news st) ≤ fuel)%nat →
  let r := compose_loop fuel st in
  composing a c r ∧ olds r = [] ∧ news r = [] ∧ compose_step r = None.
Proof.
  revert st. induction fuel as [|fuel IH]; intros st Hi Hf; cbn.
  - assert (olds st = [] ∧ news st = []) as [Eo En]
      by (split; apply length_zero_iff_nil; lia).
    split_and!; [done..|]. unfold compose_step. by rewrite Eo, En.
  - destruct (compose_step st) as [st'|] eqn:E.
    + destruct (compose_step_inv a c st st') as [Hi' Hl]; [done..|]. apply IH; [done|lia].
    + destruct (compose_step_none a c st) as [Eo En]; done.
Qed.
End relates.

(** *** Unchanged text between the edits *)
Fixpoint apart_after (at_ : option Z) (p : t) : Prop :=
  match p with
  | [] => True
  | e :: p =>
      match at_ with Some z => z < old_start e | None => True end ∧
      apart_after (Some (old_end e)) p
  end.
Abbreviation apart := (apart_after None).

Lemma apart_snoc z p e :
  apart_after z (p ++ [e]) ↔
  apart_after z p ∧
  match last p, z with
  | Some l, _ => old_end l < old_start e
  | None, Some z => z < old_start e
  | None, None => True
  end.
Proof.
  revert z. induction p as [|x p IH]; intros z; cbn.
  - destruct z; tauto.
  - rewrite IH. destruct p as [|y p]; [cbn; tauto|].
    change (last (x :: y :: p)) with (last (y :: p)).
    destruct (last (y :: p)) eqn:E; [tauto|]. by apply last_None in E.
Qed.

Lemma apart_push p e : apart p → apart (push p e).
Proof.
  intros H. unfold push, push_maybe_empty. destruct (Edit.is_empty e); [done|].
  destruct p as [|l p _] using rev_ind; [done|].
  rewrite last_snoc, removelast_last.
  destruct (Z.leb_spec (old_start e) (old_end l)).
  - apply apart_snoc in H as [H1 H2]. by apply apart_snoc.
  - apply apart_snoc. rewrite last_snoc. done.
Qed.

Lemma apart_step st st' :
  apart (composed st) → compose_step st = Some st' → apart (composed st').
Proof.
  unfold compose_step, push_old, push_new, align, overlap. intros H.
  repeat split_if; cbn; intros E; simplify_eq/=; repeat apply apart_push; try done.
Qed.

Lemma apart_loop fuel st : apart (composed st) → apart (composed (compose_loop fuel st)).
Proof.
  revert st. induction fuel as [|fuel IH]; intros st H; cbn; [done|].
  destruct (compose_step st) eqn:E; [|done]. apply IH. by eapply apart_step.
Qed.

Lemma relates_separated {A} i j p (a b : list A) z :
  relates i j p a b →
  match z with Some l => old_end l = i ∧ new_end l = j | None => True end →
  apart_after (old_end <$> z) p → separated_after z p = true.
Proof.
  intros H. revert z. induction H as [|i j e p g d s a b H1 H2 H3 H4 _ IH]; intros z Hz Ha; [done|].
  destruct Ha as [Ha1 Ha2]. cbn. rewrite (IH (Some e)) by done. rewrite andb_true_r.
  destruct z as [l|]; [|done]. cbn in *. apply andb_true_iff. rewrite !Z.ltb_lt. lia.
Qed.

Lemma compose_leads {A} p q (a b c : list A) :
  relates 0 0 p a b → relates 0 0 q b c →
  relates 0 0 (compose p q) a c ∧
  compose_step
    (compose_loop (length p + length q) (mk_compose p q [] 0 0)) = None.
Proof.
  intros Hp Hq.
  destruct (compose_loop_done a c (length p + length q) (mk_compose p q [] 0 0))
    as ((m & a2 & b2 & c2 & [Hd Ho Hn]) & Eo & En & Hs); [|cbn; lia|].
  - exists 0, a, b, c. split; [|done..]. exists [], []. split_and!; [done..|constructor].
  - rewrite Eo in Ho. rewrite En in Hn.
    apply relates_nil_inv in Ho as ->. apply relates_nil_inv in Hn as ->.
    destruct Hd as (a1 & c1 & -> & -> & _ & _ & Hr).
    split; [by apply relates_gap|done].
Qed.

(** C19: Composition of patches. If a patch leads from a text [a] to [b] and a list of edits
    leads from [b] to [c], then composing them gives a patch that leads from
    [a] to [c]: outside its edits the two texts agree, and its ranges delimit
    the replaced parts. The result also satisfies the check of [Patch::new]
    (unchanged text between any two edits), and the loop reaches its end. *)
Theorem compose_relates {A} p q (a b c : list A) :
  relates 0 0 p a b → relates 0 0 q b c →
  relates 0 0 (compose p q) a c ∧ separated (compose p q) = true ∧
  compose_step
    (compose_loop (length p + length q) (mk_compose p q [] 0 0)) = None.
Proof.
  intros Hp Hq. destruct (compose_leads p q a b c Hp Hq) as [HR Hs].
  split_and!; [done| |done].
  eapply (relates_separated _ _ _ _ _ None); [exact HR|done|]. by apply apart_loop.
Qed.

(* "abcdef" -> "aXYef" -> "aXZZef!" *)
Lemma compose_relates_witness :
  let p := [mk 1 4 1 3] in
  let q := [mk 2 3 2 4; mk 5 5 6 7] in
  let a := [97; 98; 99; 100; 101; 102] in
  let b := [97; 88; 89; 101; 102] in
  let c := [97; 88; 90; 90; 101; 102; 33] in
  compose p q = [mk 1 4 1 4; mk 6 6 6 7] ∧ relates 0 0 (compose p q) a c.
Proof.
  cbn zeta. split; [reflexivity|].
  apply (compose_relates _ _ _ [97; 88; 89; 101; 102]).
  - apply (relates_cons 0 0 _ _ [97] [98; 99; 100] [88; 89] [101; 102] [101; 102]);
      [reflexivity..|constructor].
  - apply (relates_cons 0 0 _ _ [97; 88] [89] [90; 90] [101; 102] [101; 102; 33]);
      [reflexivity..|].
    apply (relates_cons _ _ _ _ [101; 102] [] [33] [] []); [reflexivity..|constructor].
Defined.

(** *** Mapping positions

    A linear scan for the position, from the end [(i, j)] of the last edit. *)
Fixpoint scan (i j : Z) (p : t) (old : Z) : Z :=
  match p with
  | [] => j + (old - i)
  | e :: p =>
      if old <? old_start e then j + (old - i)
      else if old <? old_end e then new_start e
      else scan (old_end e) (new_end e) p old
  end.

(** Edits that stand in order with unchanged text between them. *)
Fixpoint ordered_after (at_ : option Z) (p : t) : Prop :=
  match p with
  | [] => True
  | e :: p =>
      match at_ with Some z => z < old_start e | None => True end ∧
      old_start e ≤ old_end e ∧ ordered_after (Some (old_end e)) p
  end.
Abbreviation ordered := (ordered_after None).

Lemma ordered_after_lookup z p i e :
  ordered_after (Some z) p → p !! i = Some e → z < old_start e ∧ old_start e ≤ old_end e.
Proof.
  revert z i. induction p as [|x p IH]; intros z i Ho Hi; [done|].
  destruct Ho as (H1 & H2 & H3). destruct i as [|i]; [by injection Hi as ->|].
  destruct (IH _ _ H3 Hi). lia.
Qed.

Lemma ordered_lookup_lt z p i j e f :
  ordered_after z p → (i < j)%nat → p !! i = Some e → p !! j = Some f →
  old_start e ≤ old_end e ∧ old_end e < old_start f.
Proof.
  revert z i j. induction p as [|x p IH]; intros z i j Ho Hij Hi Hj; [done|].
  destruct Ho as (_ & H2 & H3). destruct j as [|j]; [lia|]. destruct i as [|i].
  - injection Hi as ->. by destruct (ordered_after_lookup _ _ _ _ H3 Hj).
  - apply (IH _ i j H3); [lia|done|done].
Qed.

Lemma ordered_search z p old :
  ordered_after z p → search_sorted (λ probe, Z.compare (old_start probe) old) p.
Proof.
  intros Ho i j x y Hij Hx Hy Hle. rewrite Z.compare_ngt_iff in Hle. apply Z.compare_lt_iff.
  destruct (ordered_lookup_lt _ _ _ _ _ _ Ho Hij Hx Hy). lia.
Qed.

(** The edit the search finds: the last one that starts at or before [old]. *)
Definition last_at (p : t) (old : Z) (r : option nat) : Prop :=
  match r with
  | None => ∀ i e, p !! i = Some e → old < old_start e
  | Some ix =>
      (∃ e, p !! ix = Some e ∧ old_start e ≤ old) ∧
      (∀ j e, (ix < j)%nat → p !! j = Some e → old < old_start e)
  end.
Definition search_ix (p : t) (old : Z) : option nat :=
  match binary_search_by (λ probe, Z.compare (old_start probe) old) p with
  | inl ix => Some ix
  | inr O => None
  | inr (S ix) => Some ix
  end.

Lemma search_ix_spec p old : ordered p → last_at p old (search_ix p old).
Proof.
  intros Ho. pose proof (binary_search_by_spec _ _ (ordered_search _ _ old Ho)) as H.
  unfold search_ix. destruct (binary_search_by _ p) as [ix|[|ix]].
  - destruct H as (e & He & Ee%Z.compare_eq_iff). split; [exists e; split; [done|lia]|].
    intros j f Hj Hf. destruct (ordered_lookup_lt _ _ _ _ _ _ Ho Hj He Hf). lia.
  - destruct H as (_ & _ & H). intros i e Hi.
    apply Z.compare_gt_iff, (H i e); [lia|done].
  - destruct H as (Hl & Hlt & Hgt). split.
    + destruct (lookup_lt_is_Some_2 p ix) as [e He]; [lia|].
      exists e. split; [done|]. apply Z.lt_le_incl, Z.compare_lt_iff, (Hlt ix e); [lia|done].
    + intros j e Hj He. apply Z.compare_gt_iff, (Hgt j e); [lia|done].
Qed.

Lemma scan_before i j p old :
  (∀ k e, p !! k = Some e → old < old_start e) → scan i j p old = j + (old - i).
Proof.
  destruct p as [|e p]; intros H; cbn; [done|].
  by rewrite (proj2 (Z.ltb_lt old (old_start e))) by (apply (H 0%nat); done).
Qed.

Lemma scan_last_at i j p old r :
  ordered p → last_at p old r →
  scan i j p old =
    match r with
    | None => j + (old - i)
    | Some ix =>
        match p !! ix with
        | Some e => if old_end e <=? old then new_end e + (old - old_end e) else new_start e
        | None => j + (old - i)
        end
    end.
Proof.
  destruct r as [ix|]; [|intros _; apply scan_before].
  generalize (@None Z) as z. revert i j ix. induction p as [|x p IH]; intros i j ix z Ho [(e & He & Hle) Hafter]; [done|].
  destruct Ho as (Hz & H2 & H3). destruct ix as [|ix]; cbn [scan];
    [change ((x :: p) !! 0%nat) with (Some x)|change ((x :: p) !! S ix) with (p !! ix) in *].
  - injection He as ->. rewrite (proj2 (Z.ltb_ge old (old_start e))) by done.
    destruct (Z.ltb_spec old (old_end e)).
    + by rewrite (proj2 (Z.leb_gt _ _)) by done.
    + rewrite (proj2 (Z.leb_le _ _)) by done. apply scan_before.
      intros k f Hf. apply (Hafter (S k) f); [lia|done].
  - destruct (ordered_after_lookup _ _ _ _ H3 He).
    rewrite (proj2 (Z.ltb_ge old (old_start x))), (proj2 (Z.ltb_ge old (old_end x))) by lia.
    rewrite (IH _ _ ix _ H3).
    + unfold t in *. by rewrite He.
    + split; [by exists e|]. intros k f Hk Hf. apply (Hafter (S k) f); [lia|done].
Qed.

Lemma old_to_new_scan p old : ordered p → old_to_new p old = scan 0 0 p old.
Proof.
  intros Ho. rewrite (scan_last_at _ _ _ _ _ Ho (search_ix_spec p old Ho)).
  unfold old_to_new, search_ix.
  destruct (binary_search_by _ p) as [ix|[|ix]]; [|lia|]; destruct (p !! ix); lia.
Qed.

Section positions.
Context {A : Type}.
Implicit Types (a b : list A).

Lemma scan_bounds i j p a b old :
  relates i j p a b → i ≤ old ≤ i + Z.of_nat (length a) →
  j ≤ scan i j p old ≤ j + Z.of_nat (length b).
Proof.
  induction 1 as [|i j e p g d s a b H1 H2 H3 H4 _ IH]; cbn; [lia|].
  rewrite !length_app. destruct (Z.ltb_spec old (old_start e)); [lia|].
  destruct (Z.ltb_spec old (old_end e)); lia.
Qed.

Lemma scan_mono i j p a b x y :
  relates i j p a b → i ≤ x → x ≤ y → y ≤ i + Z.of_nat (length a) →
  scan i j p x ≤ scan i j p y.
Proof.
  intros H. revert x y. induction H as [|i j e p g d s a b H1 H2 H3 H4 Hr IH]; intros x y Hx Hxy Hy; cbn; [lia|].
  rewrite !length_app in Hy.
  destruct (Z.ltb_spec x (old_start e)), (Z.ltb_spec y (old_start e)); try lia.
  - destruct (Z.ltb_spec y (old_end e)); [lia|].
    pose proof (scan_bounds _ _ _ _ _ y Hr). lia.
  - destruct (Z.ltb_spec x (old_end e)), (Z.ltb_spec y (old_end e)); try lia.
    + pose proof (scan_bounds _ _ _ _ _ y Hr). lia.
    + apply IH; lia.
Qed.

Lemma scan_kept i j p a b old :
  relates i j p a b → i ≤ old < i + Z.of_nat (length a) →
  (∀ e, e ∈ p → ¬ (old_start e ≤ old < old_end e)) →
  b !! Z.to_nat (scan i j p old - j) = a !! Z.to_nat (old - i).
Proof.
  induction 1 as [i j g|i j e p g d s a b H1 H2 H3 H4 Hr IH]; intros Ho Hk; cbn.
  { f_equal. lia. }
  rewrite !length_app in Ho. destruct (Z.ltb_spec old (old_start e)).
  { rewrite !lookup_app_l by lia. f_equal. lia. }
  destruct (Z.ltb_spec old (old_end e)) as [Hlt|Hge].
  { destruct (Hk e); [left|lia]. }
  pose proof (scan_bounds _ _ _ _ _ old Hr ltac:(lia)) as Hb.
  rewrite !(lookup_app_r g), !(lookup_app_r s), !(lookup_app_r d) by lia.
  replace (Z.to_nat (scan (old_end e) (new_end e) p old - j) - length g - length s)%nat
    with (Z.to_nat (scan (old_end e) (new_end e) p old - new_end e)) by lia.
  replace (Z.to_nat (old - i) - length g - length d)%nat with (Z.to_nat (old - old_end e)) by lia.
  apply IH; [lia|]. intros f Hf. apply Hk. by right.
Qed.

Lemma scan_inside i j p old z e :
  ordered_after z p → e ∈ p → old_start e ≤ old < old_end e → scan i j p old = new_start e.
Proof.
  intros Ho He Hin. revert i j z Ho. induction p as [|x p IH]; intros i j z Ho; [by apply elem_of_nil in He|].
  destruct Ho as (_ & H2 & H3). apply elem_of_cons in He as [<-|He]; cbn.
  - rewrite (proj2 (Z.ltb_ge _ _)), (proj2 (Z.ltb_lt _ _)) by lia. done.
  - destruct (proj1 (list_elem_of_lookup _ _) He) as [k Hk]. destruct (ordered_after_lookup _ _ _ _ H3 Hk).
    rewrite !(proj2 (Z.ltb_ge _ _)) by lia. by apply (IH He _ _ (Some (old_end x))).
Qed.
End positions.

Lemma relates_ordered {A} i j p (a b : list A) z :
  relates i j p a b → apart_after z p → ordered_after z p.
Proof.
  intros H. revert z. induction H as [|i j e p g d s a b H1 H2 H3 H4 _ IH]; intros z Ha; [done|].
  destruct Ha as [Ha1 Ha2]. cbn. split_and!; [done|lia|]. by apply IH.
Qed.

Lemma separated_apart p o : separated_after o p = true → apart_after (old_end <$> o) p.
Proof.
  revert o. induction p as [|e p IH]; intros o H; [done|]. cbn in *.
  apply andb_true_iff in H as [H1 H2]. split; [|by apply (IH (Some e))].
  destruct o; [|done]. cbn. reflect. done.
Qed.

(** [old_to_new] on a patch that leads from [a] to [b] (with unchanged text between
    its edits): the result is a position of [b], it is monotone in the
    position, a character outside every edited range is found again at the
    mapped position, and a position inside a replaced range goes to the start
    of its replacement. *)
Theorem old_to_new_correct {A} p (a b : list A) :
  relates 0 0 p a b → separated p = true →
  (∀ x, 0 ≤ x ≤ Z.of_nat (length a) → 0 ≤ old_to_new p x ≤ Z.of_nat (length b)) ∧
  (∀ x y, 0 ≤ x → x ≤ y → y ≤ Z.of_nat (length a) → old_to_new p x ≤ old_to_new p y) ∧
  (∀ x, 0 ≤ x < Z.of_nat (length a) →
     (∀ e, e ∈ p → ¬ (old_start e ≤ x < old_end e)) →
     b !! Z.to_nat (old_to_new p x) = a !! Z.to_nat x) ∧
  (∀ e x, e ∈ p → old_start e ≤ x < old_end e → old_to_new p x = new_start e).
Proof.
  intros Hr Hs%separated_apart. pose proof (relates_ordered _ _ _ _ _ _ Hr Hs) as Ho.
  split_and!; intros *; rewrite ?old_to_new_scan by done.
  - intros. by apply (scan_bounds 0 0 _ a).
  - intros. by apply (scan_mono 0 0 _ a b).
  - intros H1 H2. pose proof (scan_kept _ _ _ _ _ _ Hr H1 H2) as E. by rewrite !Z.sub_0_r in E.
  - intros He. by eapply scan_inside.
Qed.

(* "abcdef" -> "aXYef": 'e' moves from 4 to 3, 'c' was replaced *)
Lemma old_to_new_correct_witness :
  old_to_new [mk 1 4 1 3] 2 = 1 ∧
  [97; 88; 89; 101; 102] !! Z.to_nat (old_to_new [mk 1 4 1 3] 4) = Some 101.
Proof.
  destruct (old_to_new_correct [mk 1 4 1 3] [97; 98; 99; 100; 101; 102] [97; 88; 89; 101; 102])
    as (_ & _ & H & H').
  - apply (relates_cons 0 0 _ _ [97] [98; 99; 100] [88; 89] [101; 102] [101; 102]);
      [reflexivity..|constructor].
  - reflexivity.
  - split; [apply (H' (mk 1 4 1 3)); [left|cbn; lia]|].
    rewrite (H 4); [reflexivity|cbn; lia|].
    intros e He. apply list_elem_of_singleton in He as ->. cbn. lia.
Defined.

(** [edit_for_old_position] gives the edit whose old range touches the position (its
    right end included), the only one there is, or, when none does, the empty
    edit at the position and at its image under [old_to_new]. *)
Theorem edit_for_old_position_correct {A} p (a b : list A) old :
  relates 0 0 p a b → separated p = true →
  (∃ e, e ∈ p ∧ old_start e ≤ old ≤ old_end e ∧ edit_for_old_position p old = e ∧
     ∀ f, f ∈ p → old_start f ≤ old ≤ old_end f → f = e) ∨
  ((∀ e, e ∈ p → ¬ (old_start e ≤ old ≤ old_end e)) ∧
   edit_for_old_position p old = mk old old (old_to_new p old) (old_to_new p old)).
Proof.
  intros Hr Hs%separated_apart. pose proof (relates_ordered _ _ _ _ _ _ Hr Hs) as Ho.
  pose proof (search_ix_spec p old Ho) as Hl.
  assert (edit_for_old_position p old = match search_ix p old with
    | Some ix => match p !! ix with
      | Some e => if old_end e <? old
          then mk old old (new_end e + (old - old_end e)) (new_end e + (old - old_end e)) else e
      | None => mk old old old old end
    | None => mk old old old old end) as ->.
  { unfold edit_for_old_position, search_ix. by destruct (binary_search_by _ p) as [|[]]. }
  rewrite (old_to_new_scan p old Ho), (scan_last_at _ _ _ _ _ Ho Hl).
  destruct (search_ix p old) as [ix|]; cbn in Hl.
  - destruct Hl as [(e & He & Hle) Hafter]. rewrite He.
    assert (∀ f, f ∈ p → old_start f ≤ old ≤ old_end f → f = e ∧ old ≤ old_end e) as Huniq.
    { intros f [k Hk]%list_elem_of_lookup Hf.
      destruct (Nat.lt_trichotomy k ix) as [Hlt|[->|Hgt]].
      - destruct (ordered_lookup_lt _ _ _ _ _ _ Ho Hlt Hk He). lia.
      - assert (Some f = Some e) as [= ->]; [|split; [done|lia]]. etransitivity; [symmetry; exact Hk|exact He].
      - specialize (Hafter _ _ Hgt Hk). lia. }
    destruct (Z.ltb_spec (old_end e) old).
    + right. rewrite (proj2 (Z.leb_le _ _)) by lia. split; [|done].
      intros f Hf Ht. destruct (Huniq f Hf Ht). lia.
    + left. exists e. split_and!; [by eapply list_elem_of_lookup_2|done|done|done|].
      intros f Hf Ht. by apply Huniq.
  - right. split; [|by rewrite Z.sub_0_r].
    intros e [k Hk]%list_elem_of_lookup. specialize (Hl _ _ Hk). lia.
Qed.

Lemma edit_for_old_position_correct_witness :
  let p := [mk 1 4 1 3] in
  edit_for_old_position p 4 = mk 1 4 1 3 ∧ edit_for_old_position p 6 = mk 6 6 5 5.
Proof.
  cbn zeta. split; [reflexivity|].
  destruct (edit_for_old_position_correct [mk 1 4 1 3] [97; 98; 99; 100; 101; 102]
    [97; 88; 89; 101; 102] 6) as [(e & He & Ht & _)|[_ H]].
  - apply (relates_cons 0 0 _ _ [97] [98; 99; 100] [88; 89] [101; 102] [101; 102]);
      [reflexivity..|constructor].
  - reflexivity.
  - apply list_elem_of_singleton in He as ->. cbn in Ht. lia.
  - exact H.
Defined.
End Patch.
