(* ===== verification/Subscription.v ===== *)
(** Subscriptions to the edits of a buffer
    ([crates/text/src/subscription.rs]): a topic holds weak references to the
    patches that its subscribers have not consumed yet. *)
From S2P Require Import Prelude Patch.

Module Topic.
Import Edit Patch.

(** The shared cells ([Arc<Mutex<Patch>>]): an address is in the heap as long
    as its subscription is alive. [next] is the next fresh address. *)
Record heap := mk_heap { cells : gmap nat Patch.t; next : nat }.

(** The weak references of the topic.
    [crates/text/src/subscription.rs:8-9] Topic *)
Definition t : Type := list nat.

(** [crates/text/src/subscription.rs:24-28] Topic::subscribe *)
Definition subscribe (h : heap) (self : t) : heap * t * nat :=
  let subscription := next h in
  (mk_heap (<[subscription := Patch.empty]> (cells h)) (S (next h)),
   self ++ [subscription], subscription).

(** The closure that [retain] runs over the references, threading the heap.
    [crates/text/src/subscription.rs:58-66] publish *)
Fixpoint retain (h : gmap nat Patch.t) (subscriptions : t) (edits : list Edit.t) :
    gmap nat Patch.t * t :=
  match subscriptions with
  | [] => (h, [])
  | subscription :: subscriptions =>
      match h !! subscription with
      | Some patch =>
          let '(h, kept) :=
            retain (<[subscription := compose patch edits]> h) subscriptions edits in
          (h, subscription :: kept)
      | None => retain h subscriptions edits
      end
  end.
(** [publish] and [publish_mut] differ only in how the topic's lock is taken.
    [crates/text/src/subscription.rs:30-67] Topic::publish *)
Definition publish (h : heap) (self : t) (edits : list Edit.t) : heap * t :=
  let '(cells', kept) := retain (cells h) self edits in
  (mk_heap cells' (next h), kept).

(** [mem::take]: the accumulated patch, leaving an empty one.
    [crates/text/src/subscription.rs:40-42] Subscription::consume *)
Definition consume (h : heap) (subscription : nat) : heap * option Patch.t :=
  match cells h !! subscription with
  | Some patch => (mk_heap (<[subscription := Patch.empty]> (cells h)) (next h), Some patch)
  | None => (h, None)
  end.

(** Dropping a subscription frees its cell. *)
Definition drop_subscription (h : heap) (subscription : nat) : heap :=
  mk_heap (delete subscription (cells h)) (next h).

(** *** A run of a topic

    Ghost state beside the program's: the current text and, per live
    subscription, the text at the time it subscribed or last consumed. *)
Section run.
Context {A : Type}.
Record world := mk_world {
  w_heap : heap; w_topic : t; w_text : list A; w_seen : gmap nat (list A);
}.

Inductive step : world → world → Prop :=
  | step_subscribe w h tp s :
      subscribe (w_heap w) (w_topic w) = (h, tp, s) →
      step w (mk_world h tp (w_text w) (<[s := w_text w]> (w_seen w)))
  | step_publish w edits text h tp :
      relates 0 0 edits (w_text w) text →
      publish (w_heap w) (w_topic w) edits = (h, tp) →
      step w (mk_world h tp text (w_seen w))
  | step_consume w s h p :
      consume (w_heap w) s = (h, Some p) →
      step w (mk_world h (w_topic w) (w_text w) (<[s := w_text w]> (w_seen w)))
  | step_drop w s :
      step w (mk_world (drop_subscription (w_heap w) s) (w_topic w) (w_text w)
        (delete s (w_seen w))).

Definition start (text : list A) : world := mk_world (mk_heap ∅ 0) [] text ∅.

(** Live subscriptions are the ones with a cell, each has one reference in the
    topic, and its patch leads from the text it has seen to the current one. *)
Record good (w : world) : Prop := {
  g_live : dom (cells (w_heap w)) = dom (w_seen w);
  g_refs : ∀ s, is_Some (cells (w_heap w) !! s) → s ∈ w_topic w;
  g_nodup : NoDup (w_topic w);
  g_fresh : ∀ s, s ∈ w_topic w → (s < next (w_heap w))%nat;
  g_patch : ∀ s p a, cells (w_heap w) !! s = Some p → w_seen w !! s = Some a →
    relates 0 0 p a (w_text w);
}.

Lemma retain_spec subs h edits :
  NoDup subs →
  (∀ s, (retain h subs edits).1 !! s =
    if decide (s ∈ subs) then (λ p, compose p edits) <$> h !! s else h !! s) ∧
  (∀ s, s ∈ (retain h subs edits).2 ↔ s ∈ subs ∧ is_Some (h !! s)) ∧
  NoDup (retain h subs edits).2.
Proof.
  revert h. induction subs as [|x subs IH]; intros h Hnd; cbn.
  - split_and!; [intros s| |constructor].
    + destruct (decide (s ∈ [])) as [H|H]; [by apply elem_of_nil in H|done].
    + intros s. split; [intros H|intros [H _]]; by apply elem_of_nil in H.
  - apply NoDup_cons in Hnd as [Hx Hnd]. destruct (h !! x) as [p|] eqn:E.
    + destruct (IH (<[x:=compose p edits]> h) Hnd) as (H1 & H2 & H3).
      destruct (retain (<[x:=compose p edits]> h) subs edits) as [h' kept]; cbn in *.
      assert (∀ s, s ∈ kept ↔ s ∈ subs ∧ is_Some (h !! s)) as H2'.
      { intros s. rewrite H2. destruct (decide (s = x)) as [->|]; [naive_solver|].
        by rewrite lookup_insert_ne. }
      split_and!.
      * intros s. rewrite H1. destruct (decide (s = x)) as [->|Hs].
        -- rewrite lookup_insert_eq, E. rewrite decide_False by done.
           rewrite decide_True by left. done.
        -- rewrite lookup_insert_ne by done.
           destruct (decide (s ∈ subs)); [rewrite decide_True by by right|rewrite decide_False]; [done..|].
           rewrite elem_of_cons. tauto.
      * intros s. rewrite !elem_of_cons, H2'.
        destruct (decide (s = x)) as [->|]; [rewrite E; naive_solver|naive_solver].
      * apply NoDup_cons. split; [|done]. rewrite H2'. tauto.
    + destruct (IH h Hnd) as (H1 & H2 & H3). split_and!; [| |done].
      * intros s. rewrite H1. destruct (decide (s = x)) as [->|Hs].
        -- rewrite E, decide_False by done. rewrite decide_True by left. done.
        -- destruct (decide (s ∈ subs)); [rewrite decide_True by by right|rewrite decide_False]; [done..|].
           rewrite elem_of_cons. tauto.
      * intros s. rewrite H2, elem_of_cons.
        destruct (decide (s = x)) as [->|]; [rewrite E; split; [tauto|intros [_ [? ?]]; done]|naive_solver].
Qed.

Lemma relates_refl (a : list A) : relates 0 0 Patch.empty a a.
Proof. constructor. Qed.

Lemma good_step w w' : good w → step w w' → good w'.
Proof.
  intros [Hl Hr Hn Hf Hp] Hs.
  destruct Hs as [w h tp s Hs|w edits text h tp Hrel Hs|w s h p Hs|w s].
  - unfold subscribe in Hs. injection Hs as <- <- <-.
    assert (next (w_heap w) ∉ w_topic w) as Hnew by (intros H%Hf; lia).
    split; cbn.
    + by rewrite !dom_insert_L, Hl.
    + intros s. rewrite elem_of_app, list_elem_of_singleton.
      destruct (decide (s = next (w_heap w))) as [->|]; [by right|].
      rewrite lookup_insert_ne by done. auto.
    + apply NoDup_app. split_and!; [done| |apply NoDup_singleton].
      intros x Hx ->%list_elem_of_singleton. done.
    + intros s. rewrite elem_of_app, list_elem_of_singleton. intros [H%Hf| ->]; lia.
    + intros s p a. destruct (decide (s = next (w_heap w))) as [->|].
      * rewrite !lookup_insert_eq. intros [= <-] [= <-]. apply relates_refl.
      * rewrite !lookup_insert_ne by done. apply Hp.
  - unfold publish in Hs. pose proof (retain_spec (w_topic w) (cells (w_heap w)) edits Hn) as (R1 & R2 & R3).
    destruct (retain (cells (w_heap w)) (w_topic w) edits) as [c kept]. injection Hs as <- <-.
    cbn in *.
    assert (∀ s, is_Some (c !! s) ↔ is_Some (cells (w_heap w) !! s)) as HS.
    { intros s. rewrite R1. destruct (decide _); [|done]. by rewrite fmap_is_Some. }
    split; cbn; [| | done | |].
    + rewrite <- Hl. apply set_eq. intros s. rewrite !elem_of_dom. apply HS.
    + intros s H%HS. apply R2. split; [by apply Hr|done].
    + intros s H%R2. apply Hf. tauto.
    + intros s p a Hc Ha. rewrite R1 in Hc.
      destruct (cells (w_heap w) !! s) as [p0|] eqn:E.
      2: { destruct (decide _) in Hc; done. }
      rewrite decide_True in Hc by by apply Hr. injection Hc as <-.
      destruct (compose_leads p0 edits a (w_text w) text) as [HR _]; [by eapply Hp|done|done].
  - unfold consume in Hs. destruct (cells (w_heap w) !! s) as [p'|] eqn:E; [|done].
    injection Hs as <- <-. split; cbn; [| |done|done|].
    + by rewrite !dom_insert_L, Hl.
    + intros x. destruct (decide (x = s)) as [->|]; [intros _; apply Hr; by eexists|].
      rewrite lookup_insert_ne by done. auto.
    + intros x q a. destruct (decide (x = s)) as [->|].
      * rewrite !lookup_insert_eq. intros [= <-] [= <-]. apply relates_refl.
      * rewrite !lookup_insert_ne by done. apply Hp.
  - split; cbn; [| |done|done|].
    + by rewrite !dom_delete_L, Hl.
    + intros x [q H]. apply lookup_delete_Some in H as [_ H]. apply Hr. by eexists.
    + intros x q a H1 H2. apply lookup_delete_Some in H1 as [_ H1].
      apply lookup_delete_Some in H2 as [_ H2]. by eapply Hp.
Qed.

Lemma good_run text w : rtc step (start text) w → good w.
Proof.
  intros H. assert (good (start text)) as Hg.
  { split; cbn.
    - by rewrite !dom_empty_L.
    - intros s [? H']. by rewrite lookup_empty in H'.
    - constructor.
    - intros s H'. by apply elem_of_nil in H'.
    - intros s p a H'. by rewrite lookup_empty in H'. }
  revert Hg. induction H as [|w1 w2 w3 Hs _ IH]; intros Hg; [done|].
  apply IH. by eapply good_step.
Qed.

(** C35: In every run of a topic (subscriptions created, consumed and dropped between
    published edits, in any order), what a live subscription consumes is a patch
    that leads from the text it last saw to the current text, whatever the
    other subscriptions did meanwhile; a dropped one gets nothing. *)
Theorem consume_correct text w s :
  rtc step (start text) w →
  match w_seen w !! s with
  | Some seen => ∃ p h, consume (w_heap w) s = (h, Some p) ∧ relates 0 0 p seen (w_text w)
  | None => consume (w_heap w) s = (w_heap w, None)
  end.
Proof.
  intros Hr. apply good_run in Hr as [Hl _ _ _ Hp]. unfold consume.
  destruct (w_seen w !! s) as [seen|] eqn:E.
  - assert (s ∈ dom (cells (w_heap w))) as Hd by (rewrite Hl; apply elem_of_dom; by eexists).
    apply elem_of_dom in Hd as [p Hd]. rewrite Hd. eexists _, _. split; [done|]. by eapply Hp.
  - assert (s ∉ dom (cells (w_heap w))) as Hd by (rewrite Hl; by apply not_elem_of_dom).
    apply not_elem_of_dom in Hd. by rewrite Hd.
Qed.
End run.

(* Subscribe on "ab", then "ab" -> "axb" -> "axbc". *)
Lemma consume_correct_witness :
  ∃ w : world, rtc step (start [97; 98]) w ∧ w_text w = [97; 120; 98; 99] ∧
    ∃ p h, consume (w_heap w) 0 = (h, Some p) ∧ relates 0 0 p [97; 98] (w_text w).
Proof.
  set (w1 := mk_world (mk_heap {[0%nat := []]} 1) [0%nat] [97; 98] {[0%nat := [97; 98]]}).
  set (w2 := mk_world (mk_heap {[0%nat := [mk 1 1 1 2]]} 1) [0%nat] [97; 120; 98]
    {[0%nat := [97; 98]]}).
  set (w3 := mk_world (mk_heap {[0%nat := [mk 1 1 1 2; mk 2 2 3 4]]} 1) [0%nat] [97; 120; 98; 99]
    {[0%nat := [97; 98]]}).
  assert (rtc step (start [97; 98]) w3) as Hr.
  { apply (rtc_l _ _ w1); [by apply (step_subscribe (start [97; 98]))|].
    apply (rtc_l _ _ w2).
    { apply (step_publish w1 [mk 1 1 1 2]); [|reflexivity].
      apply (relates_cons 0 0 _ _ [97] [] [120] [98] [98]); [reflexivity..|constructor]. }
    apply (rtc_l _ _ w3); [|apply rtc_refl].
    apply (step_publish w2 [mk 3 3 3 4]); [|reflexivity].
    apply (relates_cons 0 0 _ _ [97; 120; 98] [] [99] [] []); [reflexivity..|constructor]. }
  exists w3. split; [done|]. split; [done|].
  exact (consume_correct [97; 98] w3 0 Hr).
Defined.
End Topic.
