(* ===== verification/SumTree.v ===== *)
(** The B+ tree that caches sums of its items
    ([crates/sum_tree/src/sum_tree.rs]): construction, concatenation and
    search. [SumTree.node] keeps the arrays of the code beside the cached
    summaries; [None] is a panic (a full array, [unreachable!], [unwrap] of
    nothing), and the theorems show that well-formed trees never reach one.

    Reference counting ([Arc::make_mut] copies a shared node before writing) is
    not observable, so a node is a value. The context argument [cx] of the
    code's [Summary] trait is an argument of the instance. *)
From S2P Require Import Prelude.

(** [crates/sum_tree/src/sum_tree.rs:51-60] Summary *)
Class Summary (U : Type) := { zero : U; add_summary : U → U → U }.
(** [crates/sum_tree/src/sum_tree.rs:34-38] Item *)
Class Item (T U : Type) := { item_summary : T → U }.
(** [crates/sum_tree/src/sum_tree.rs:95-110] Dimension *)
Class Dimension (D U : Type) := { dzero : D; dadd : D → U → D }.

(** [crates/sum_tree/src/sum_tree.rs:189-195] Bias *)
Inductive bias := Left | Right.
#[global] Instance bias_eq_dec : EqDecision bias.
Proof. solve_decision. Defined.

(** [crates/sum_tree/src/sum_tree.rs:198-203] Bias::invert *)
Definition bias_invert (b : bias) : bias := match b with Left => Right | Right => Left end.

(** [crates/sum_tree/src/sum_tree.rs:105-109] Dimension::from_summary *)
Definition from_summary {D U} `{!Dimension D U} (s : U) : D := dadd dzero s.

(** The instances of the library itself: a summary is a dimension of itself,
    [()] measures nothing, and several dimensions can be tracked at once. *)
(** [crates/sum_tree/src/sum_tree.rs:112-120] Dimension for Summary *)
Instance summary_dimension U `{!Summary U} : Dimension U U :=
  { dzero := zero; dadd := add_summary }.
(** [crates/sum_tree/src/sum_tree.rs:132-136] Dimension for unit *)
Instance unit_dimension U : Dimension unit U := { dzero := tt; dadd := λ _ _, tt }.
(** [crates/sum_tree/src/sum_tree.rs:141-153] Dimension for Dimensions *)
Instance pair_dimension D1 D2 U `{!Dimension D1 U, !Dimension D2 U} : Dimension (D1 * D2) U :=
  { dzero := (dzero, dzero); dadd := λ d s, (dadd d.1 s, dadd d.2 s) }.

(** The test of every seek: an item that ends at a position the target
    compares to as [c] is skipped. *)
Definition skips (c : comparison) (b : bias) : bool :=
  match c, b with Gt, _ => true | Eq, Right => true | _, _ => false end.

(** [crates/sum_tree/src/sum_tree.rs:1381-1391] sum *)
Definition sum {U} `{!Summary U} (l : list U) : U := foldl add_summary zero l.

(** The summary of a sequence of items. *)
Definition measure {T U} `{!Summary U, !Item T U} (l : list T) : U := sum (map item_summary l).

(** What the tree relies on: along the sequences of items that occur
    ([valid]), sums can be split before a non-empty part. A monoid satisfies it
    with every sequence valid, a summary that keeps the last key as well, and
    bounded summaries satisfy it up to their bound. *)
Class SummaryLaws (T U : Type) `{!Summary U, !Item T U} := {
  valid : list T → Prop;
  valid_app : ∀ l k, valid (l ++ k) → valid l ∧ valid k;
  measure_app : ∀ l k, k ≠ [] → valid (l ++ k) → measure (l ++ k) = add_summary (measure l) (measure k);
  measure_one : ∀ x, valid [x] → measure [x] = item_summary x;
}.

(** The position after a sequence of items; unless said otherwise it is what
    the summary of the sequence says. *)
Class Measured (D T U : Type) `{!Summary U, !Item T U, !Dimension D U} := { position_after : list T → D }.
#[export] Instance measured D T U `{!Summary U, !Item T U, !Dimension D U} : Measured D T U | 100 :=
  { position_after := λ l, match l with [] => dzero | _ => dadd dzero (measure l) end }.
Definition dim {T U} D `{Measured D T U} (l : list T) : D := position_after l.
Arguments dim : simpl never.

(** A dimension adds up along the sequence; the summary of several items may be
    too coarse for that ([vague]), the one of a single item is not. *)
Class Positions (D T U : Type) `{!Summary U, !Item T U, !Dimension D U, !SummaryLaws T U, !Measured D T U} := {
  vague : D → Prop;
  dim_start : dim D (T := T) [] = dzero;
  dim_item : ∀ l x, valid (l ++ [x]) → dadd (dim D l) (item_summary x) = dim D (l ++ [x]);
  dim_or_vague : ∀ l k, k ≠ [] → valid (l ++ k) →
    dadd (dim D l) (measure k) = dim D (l ++ k) ∨ vague (dadd (dim D l) (measure k));
}.
(** The usual case: no sum is too coarse. *)
Class DimensionLaws (D T U : Type) `{!Summary U, !Item T U, !Dimension D U, !SummaryLaws T U} := {
  dim_app : ∀ l k, k ≠ [] → valid (l ++ k) → dadd (dim D l) (measure k) = dim D (l ++ k);
}.
Lemma dim_nil {T U D} `{!Summary U, !Item T U, !Dimension D U} : dim (T := T) D [] = dzero.
Proof. done. Qed.
#[export, program] Instance exact_positions D T U `{!Summary U, !Item T U, !Dimension D U, !SummaryLaws T U,
  !DimensionLaws D T U} : Positions D T U | 100 := {| vague := λ _, False |}.
Next Obligation. done. Qed.
Next Obligation.
  intros D T U ????? l x Hv. destruct (valid_app _ _ Hv) as [_ Hx]. by rewrite <- (measure_one x), dim_app.
Qed.
Next Obligation. intros. left. by apply dim_app. Qed.

Lemma dim_pair {T U D1 D2} `{!Summary U, !Item T U, !Dimension D1 U, !Dimension D2 U} (l : list T) :
  dim (D1 * D2) l = (dim D1 l, dim D2 l).
Proof. by destruct l. Qed.
#[export] Instance pair_dimension_laws D1 D2 T U `{!Summary U, !Item T U, !Dimension D1 U, !Dimension D2 U,
  !SummaryLaws T U, !DimensionLaws D1 T U, !DimensionLaws D2 T U} : DimensionLaws (D1 * D2) T U.
Proof. split. intros l k Hk Hv. rewrite !dim_pair. cbn. by rewrite !dim_app. Qed.
(** Where the empty tree is measured, too: its summary adds nothing. *)
Class DimensionZero (D U : Type) `{!Summary U, !Dimension D U} : Prop := { dim_zero : dadd dzero zero = (dzero : D) }.
Lemma dim_measure {T U} D `{!Summary U, !Item T U, !Dimension D U, !DimensionZero D U} (l : list T) :
  dadd dzero (measure l) = dim D l.
Proof. destruct l; [apply dim_zero|done]. Qed.
#[export] Instance pair_zero D1 D2 U `{!Summary U, !Dimension D1 U, !Dimension D2 U, !DimensionZero D1 U, !DimensionZero D2 U} :
  DimensionZero (D1 * D2) U.
Proof. split. cbn. by rewrite !dim_zero. Qed.

#[export] Instance unit_laws T U `{!Summary U, !Item T U, !SummaryLaws T U} : DimensionLaws unit T U.
Proof. split. intros l k _ _. by destruct (dim unit _), (dim unit _). Qed.
#[export] Instance unit_zero U `{!Summary U} : DimensionZero unit U.
Proof. done. Qed.

(** A commutation law that holds for all summaries: then every sequence is valid. *)
Class SummaryMonoid (U : Type) `{!Summary U} : Prop := {
  add_assoc : ∀ x y z : U, add_summary (add_summary x y) z = add_summary x (add_summary y z);
  add_zero_l : ∀ x : U, add_summary zero x = x;
  add_zero_r : ∀ x : U, add_summary x zero = x;
}.

Lemma foldl_add {U} `{!Summary U, !SummaryMonoid U} (l : list U) (x : U) :
  foldl add_summary x l = add_summary x (sum l).
Proof.
  unfold sum. revert x. induction l as [|y l IH]; intros x; cbn; [by rewrite add_zero_r|].
  rewrite IH, (IH (add_summary zero y)), add_zero_l. apply add_assoc.
Qed.

#[export, program] Instance monoid_laws T U `{!Summary U, !Item T U, !SummaryMonoid U} :
  SummaryLaws T U | 10 := {| valid := λ _, True |}.
Next Obligation. done. Qed.
Next Obligation.
  intros. unfold measure. rewrite map_app. unfold sum. rewrite foldl_app. apply foldl_add.
Qed.
Next Obligation. intros. apply add_zero_l. Qed.

(** ** The tree *)
(** [crates/sum_tree/src/sum_tree.rs:15-18] TREE_BASE *)
Definition TREE_BASE : nat := 6.
Abbreviation capacity := (2 * TREE_BASE)%nat.

(** A fixed-capacity array; building one that is too long panics. *)
Definition array {A} (l : list A) : option (list A) :=
  if Nat.leb (length l) capacity then Some l else None.

Module SumTree.
(** [crates/sum_tree/src/sum_tree.rs:1269-1281] Node *)
Inductive node (T U : Type) :=
  | Internal (height : nat) (summary : U) (child_summaries : list U) (child_trees : list (node T U))
  | Leaf (summary : U) (items : list T) (item_summaries : list U).
Arguments Internal {T U}.
Arguments Leaf {T U}.

Section operations.
Context {T U : Type} `{!Summary U, !Item T U}.
Abbreviation tree := (node T U).

(** [crates/sum_tree/src/sum_tree.rs:1317-1319] Node::is_leaf *)
Definition is_leaf (t : tree) : bool := match t with Leaf _ _ _ => true | _ => false end.
(** [crates/sum_tree/src/sum_tree.rs:1321-1326] Node::height *)
Definition height (t : tree) : nat := match t with Internal h _ _ _ => h | Leaf _ _ _ => 0 end.
(** [crates/sum_tree/src/sum_tree.rs:1328-1333] Node::summary *)
Definition summary (t : tree) : U :=
  match t with Internal _ s _ _ => s | Leaf s _ _ => s end.
(** [crates/sum_tree/src/sum_tree.rs:1335-1342] Node::child_summaries *)
Definition child_summaries (t : tree) : list U :=
  match t with Internal _ _ ss _ => ss | Leaf _ _ ss => ss end.
(** [crates/sum_tree/src/sum_tree.rs:1344-1349] Node::child_trees *)
Definition child_trees (t : tree) : option (list tree) :=
  match t with Internal _ _ _ ts => Some ts | Leaf _ _ _ => None end.
(** [crates/sum_tree/src/sum_tree.rs:1351-1356] Node::items *)
Definition items (t : tree) : option (list T) :=
  match t with Internal _ _ _ _ => None | Leaf _ its _ => Some its end.
(** [crates/sum_tree/src/sum_tree.rs:1358-1363] Node::is_underflowing *)
Definition is_underflowing (t : tree) : bool :=
  match t with
  | Internal _ _ _ ts => Nat.ltb (length ts) TREE_BASE
  | Leaf _ its _ => Nat.ltb (length its) TREE_BASE
  end.

(** [crates/sum_tree/src/sum_tree.rs:743-748] SumTree::is_empty *)
Definition is_empty (t : tree) : bool :=
  match t with Internal _ _ _ _ => false | Leaf _ its _ => match its with [] => true | _ => false end end.

(** [crates/sum_tree/src/sum_tree.rs:226-232] SumTree::new *)
Definition new : tree := Leaf zero [] [].

(** [crates/sum_tree/src/sum_tree.rs:723-734] SumTree::extent *)
Definition extent {D} `{!Dimension D U} (t : tree) : D := dadd dzero (summary t).

(** [crates/sum_tree/src/sum_tree.rs:1102-1120] SumTree::from_child_trees *)
Definition from_child_trees (left right : tree) : tree :=
  let child_summaries := [summary left; summary right] in
  Internal (height left + 1) (sum child_summaries) child_summaries [left; right].

(** [last_mut().unwrap()] then an assignment. *)
Definition set_last {A} (l : list A) (x : A) : option (list A) :=
  match l with [] => None | _ => Some (removelast l ++ [x]) end.
Definition set_first {A} (l : list A) (x : A) : option (list A) :=
  match l with [] => None | _ :: l => Some (x :: l) end.

(** What is appended to the children of an internal node: either the children of the other tree,
    or the tree itself, or what the last child splits off.
    [crates/sum_tree/src/sum_tree.rs:812-837] SumTree::push_tree_recursive *)
Definition to_append (rec : tree → tree → option (tree * option tree))
    (h : nat) (css : list U) (cts : list tree) (other : tree) :
    option (list U * list tree * list U * list tree) :=
  if Nat.ltb h (height other) then None else
  let height_delta := (h - height other)%nat in
  if Nat.eqb height_delta 0 then
    ts ← child_trees other; Some (css, cts, child_summaries other, ts)
  else if Nat.eqb height_delta 1 && negb (is_underflowing other) then
    Some (css, cts, [summary other], [other])
  else
    l ← list.last cts;
    '(child, tree_to_append) ← rec l other;
    cts ← set_last cts child;
    css ← set_last css (summary child);
    match tree_to_append with
    | Some split_tree => Some (css, cts, [summary split_tree], [split_tree])
    | None => Some (css, cts, [], [])
    end.

(** [crates/sum_tree/src/sum_tree.rs:889-889] midpoint *)
Definition midpoint (child_count : nat) : nat :=
  Nat.div (child_count + Nat.modulo child_count 2) 2.

(** The fuel bounds the descent; the height of [self] is enough.
    [crates/sum_tree/src/sum_tree.rs:796-918] SumTree::push_tree_recursive *)
Fixpoint push_tree_recursive (fuel : nat) (self other : tree) : option (tree * option tree) :=
  match fuel with
  | O => None
  | S fuel =>
    match self with
    | Internal h s css cts =>
        let s := add_summary s (summary other) in
        '(css, cts, sa, ta) ← to_append (push_tree_recursive fuel) h css cts other;
        let child_count := (length cts + length ta)%nat in
        if Nat.ltb capacity child_count then
          let midpoint := midpoint child_count in
          left_summaries ← array (take midpoint (css ++ sa));
          right_summaries ← array (drop midpoint (css ++ sa));
          left_trees ← array (take midpoint (cts ++ ta));
          right_trees ← array (drop midpoint (cts ++ ta));
          Some (Internal h (sum left_summaries) left_summaries left_trees,
                Some (Internal h (sum right_summaries) right_summaries right_trees))
        else
          css ← array (css ++ sa);
          cts ← array (cts ++ ta);
          Some (Internal h s css cts, None)
    | Leaf s its ss =>
        ois ← items other;
        let child_count := (length its + length ois)%nat in
        if Nat.ltb capacity child_count then
          let midpoint := midpoint child_count in
          left_items ← array (take midpoint (its ++ ois));
          right_items ← array (drop midpoint (its ++ ois));
          left_summaries ← array (take midpoint (ss ++ child_summaries other));
          right_summaries ← array (drop midpoint (ss ++ child_summaries other));
          Some (Leaf (sum left_summaries) left_items left_summaries,
                Some (Leaf (sum right_summaries) right_items right_summaries))
        else
          its ← array (its ++ ois);
          ss ← array (ss ++ child_summaries other);
          Some (Leaf (add_summary s (summary other)) its ss, None)
    end
  end.

(** [usize::div_ceil] by two. *)
Definition div_ceil2 (n : nat) : nat := Nat.div (n + 1) 2.

(** The new value of [large] and the returned node.
    [crates/sum_tree/src/sum_tree.rs:992-1100] SumTree::merge_into_right *)
Definition merge_into_right (small large : tree) : option (tree * option tree) :=
  match small, large with
  | Internal _ small_s small_ss small_ts, Internal h s ss ts =>
      let total_child_count := (length ts + length small_ts)%nat in
      if Nat.leb total_child_count capacity then
        ts ← array (small_ts ++ ts);
        ss ← array (small_ss ++ ss);
        Some (Internal h (add_summary small_s s) ss ts, None)
      else
        let midpoint := div_ceil2 total_child_count in
        left_trees ← array (take midpoint (small_ts ++ ts));
        ts ← array (drop midpoint (small_ts ++ ts));
        left_summaries ← array (take midpoint (small_ss ++ ss));
        ss ← array (drop midpoint (small_ss ++ ss));
        Some (Internal h (sum ss) ss ts,
              Some (Internal h (sum left_summaries) left_summaries left_trees))
  | Leaf small_s small_its small_ss, Leaf s its ss =>
      let total_child_count := (length small_its + length its)%nat in
      if Nat.leb total_child_count capacity then
        its ← array (small_its ++ its);
        ss ← array (small_ss ++ ss);
        Some (Leaf (add_summary small_s s) its ss, None)
      else
        let midpoint := div_ceil2 total_child_count in
        left_items ← array (take midpoint (small_its ++ its));
        its ← array (drop midpoint (small_its ++ its));
        left_summaries ← array (take midpoint (small_ss ++ ss));
        ss ← array (drop midpoint (small_ss ++ ss));
        Some (Leaf (sum ss) its ss, Some (Leaf (sum left_summaries) left_items left_summaries))
  | _, _ => None
  end.

(** [crates/sum_tree/src/sum_tree.rs:921-981] SumTree::append_large *)
Fixpoint append_large (fuel : nat) (small large : tree) : option (tree * option tree) :=
  match fuel with
  | O => None
  | S fuel =>
    if Nat.eqb (height small) (height large) then
      if negb (is_underflowing small) then Some (large, Some small)
      else merge_into_right small large
    else
      match large with
      | Leaf _ _ _ => None
      | Internal h s ss ts =>
          let s := add_summary (summary small) s in
          first ← head ts;
          '(first, res) ← append_large fuel small first;
          ts ← set_first ts first;
          ss ← set_first ss (summary first);
          match res with
          | Some tree =>
              if Nat.ltb (length ts) capacity then
                ss ← array (summary tree :: ss);
                ts ← array (tree :: ts);
                Some (Internal h s ss ts, None)
              else
                new_child_summaries ← array (summary tree :: take TREE_BASE ss);
                new_child_trees ← array (tree :: take TREE_BASE ts);
                Some (Internal h (sum (drop TREE_BASE ss)) (drop TREE_BASE ss) (drop TREE_BASE ts),
                      Some (Internal h (sum new_child_summaries) new_child_summaries new_child_trees))
          | None => Some (Internal h s ss ts, None)
          end
      end
  end.

(** [crates/sum_tree/src/sum_tree.rs:780-794] SumTree::append *)
Definition append (self other : tree) : option tree :=
  if is_empty self then Some other
  else if negb (is_empty other) then
    if Nat.ltb (height self) (height other) then
      '(other, res) ← append_large (S (height other)) self other;
      match res with
      | Some tree => Some (from_child_trees tree other)
      | None => Some other
      end
    else
      '(self, res) ← push_tree_recursive (S (height self)) self other;
      match res with
      | Some split_tree => Some (from_child_trees self split_tree)
      | None => Some self
      end
  else Some self.

(** [crates/sum_tree/src/sum_tree.rs:768-778] SumTree::push *)
Definition push (self : tree) (item : T) : option tree :=
  append self (Leaf (item_summary item) [item] [item_summary item]).

(** [crates/sum_tree/src/sum_tree.rs:243-247] SumTree::from_item *)
Definition from_item (item : T) : option tree := push new item.

(** One leaf per [2 * TREE_BASE] items.
    [crates/sum_tree/src/sum_tree.rs:255-272] SumTree::from_iter *)
Fixpoint leaves_of (fuel : nat) (iter : list T) : option (list tree) :=
  match fuel with
  | O => match iter with [] => Some [] | _ => None end
  | S fuel =>
      match iter with
      | [] => Some []
      | _ =>
          items ← array (take capacity iter);
          let item_summaries := map item_summary items in
          first ← head item_summaries;
          let summary := foldl add_summary first (tail item_summaries) in
          nodes ← leaves_of fuel (drop capacity iter);
          Some (Leaf summary items item_summaries :: nodes)
      end
  end.

(** The parent under construction is [None] or its summary, child summaries and children.
    [crates/sum_tree/src/sum_tree.rs:279-305] SumTree::from_iter *)
Definition add_child (h : nat) (st : list tree * option (U * list U * list tree)) (child : tree) :
    option (list tree * option (U * list U * list tree)) :=
  let '(parents, current) := st in
  let '(s, ss, ts) := default (zero, [], []) current in
  let s := add_summary s (summary child) in
  ss ← array (ss ++ [summary child]);
  ts ← array (ts ++ [child]);
  if Nat.eqb (length ts) capacity then Some (parents ++ [Internal h s ss ts], None)
  else Some (parents, Some (s, ss, ts)).

(** [crates/sum_tree/src/sum_tree.rs:277-306] SumTree::from_iter *)
Definition parents_of (h : nat) (nodes : list tree) : option (list tree) :=
  '(parents, current) ← foldl (λ st child, st ← st; add_child h st child) (Some ([], None)) nodes;
  match current with
  | Some (s, ss, ts) => Some (parents ++ [Internal h s ss ts])
  | None => Some parents
  end.

(** [crates/sum_tree/src/sum_tree.rs:276-308] SumTree::from_iter *)
Fixpoint build_levels (fuel h : nat) (nodes : list tree) : option (list tree) :=
  if Nat.leb (length nodes) 1 then Some nodes
  else
    match fuel with
    | O => None
    | S fuel => parents ← parents_of (h + 1) nodes; build_levels fuel (h + 1) parents
    end.

(** Each level has fewer nodes, so their number bounds the levels.
    [crates/sum_tree/src/sum_tree.rs:249-316] SumTree::from_iter *)
Definition from_iter (iter : list T) : option tree :=
  nodes ← leaves_of (length iter) iter;
  nodes ← build_levels (length nodes) 0 nodes;
  match nodes with
  | [] => Some new
  | [node] => Some node
  | _ => None
  end.

(** [crates/sum_tree/src/sum_tree.rs:750-755] SumTree::extend *)
Definition extend (self : tree) (iter : list T) : option tree :=
  t ← from_iter iter; append self t.

(** The leaves at the two ends of the tree; [unwrap] of the child.
    [crates/sum_tree/src/sum_tree.rs:1122-1129] SumTree::leftmost_leaf *)
Fixpoint leftmost_leaf (fuel : nat) (t : tree) : option tree :=
  match fuel, t with
  | _, Leaf _ _ _ => Some t
  | S fuel, Internal _ _ _ ts => c ← head ts; leftmost_leaf fuel c
  | O, _ => None
  end.
(** [crates/sum_tree/src/sum_tree.rs:1131-1138] SumTree::rightmost_leaf *)
Fixpoint rightmost_leaf (fuel : nat) (t : tree) : option tree :=
  match fuel, t with
  | _, Leaf _ _ _ => Some t
  | S fuel, Internal _ _ _ ts => c ← last ts; rightmost_leaf fuel c
  | O, _ => None
  end.
(** The outer option is the panic, the inner one the result.
    [crates/sum_tree/src/sum_tree.rs:622-624] SumTree::first *)
Definition first (t : tree) : option (option T) :=
  l ← leftmost_leaf (height t) t; its ← items l; Some (head its).
(** [crates/sum_tree/src/sum_tree.rs:626-628] SumTree::last *)
Definition last (t : tree) : option (option T) :=
  l ← rightmost_leaf (height t) t; its ← items l; Some (list.last its).
(** [crates/sum_tree/src/sum_tree.rs:630-632] SumTree::last_summary *)
Definition last_summary (t : tree) : option (option U) :=
  l ← rightmost_leaf (height t) t; Some (list.last (child_summaries l)).

(** The updated tree and the new summary ([None] when there is no item).
    [crates/sum_tree/src/sum_tree.rs:642-676] SumTree::update_last_recursive *)
Fixpoint update_last_recursive (fuel : nat) (f : T → T) (t : tree) : option (tree * option U) :=
  match fuel, t with
  | _, Leaf s its ss =>
      match list.last its, list.last ss with
      | Some item, Some _ =>
          let item := f item in
          let its := removelast its ++ [item] in
          let ss := removelast ss ++ [item_summary item] in
          Some (Leaf (sum ss) its ss, Some (sum ss))
      | _, _ => Some (t, None)
      end
  | S fuel, Internal h s ss ts =>
      child ← list.last ts;
      '(child, r) ← update_last_recursive fuel f child;
      last_summary ← r;
      ts ← set_last ts child;
      ss ← set_last ss last_summary;
      Some (Internal h (sum ss) ss ts, Some (sum ss))
  | O, _ => None
  end.
(** [crates/sum_tree/src/sum_tree.rs:634-640] SumTree::update_last *)
Definition update_last (f : T → T) (t : tree) : option tree :=
  fst <$> update_last_recursive (height t) f t.

(** [crates/sum_tree/src/sum_tree.rs:686-721] SumTree::update_first_recursive *)
Fixpoint update_first_recursive (fuel : nat) (f : T → T) (t : tree) : option (tree * option U) :=
  match fuel, t with
  | _, Leaf s its ss =>
      match its, ss with
      | item :: its, _ :: ss =>
          let item := f item in
          let ss := item_summary item :: ss in
          Some (Leaf (sum ss) (item :: its) ss, Some (sum ss))
      | _, _ => Some (t, None)
      end
  | S fuel, Internal h s ss ts =>
      child ← head ts;
      '(child, r) ← update_first_recursive fuel f child;
      first_summary ← r;
      ts ← set_first ts child;
      ss ← set_first ss first_summary;
      Some (Internal h (sum ss) ss ts, Some (sum ss))
  | O, _ => None
  end.
(** [crates/sum_tree/src/sum_tree.rs:678-684] SumTree::update_first *)
Definition update_first (f : T → T) (t : tree) : option tree :=
  fst <$> update_first_recursive (height t) f t.
End operations.

(** *** Contents and well-formedness *)
Section correctness.
Context {T U : Type} `{!Summary U, !Item T U, !SummaryLaws T U}.
Abbreviation tree := (node T U).
Implicit Types (t : tree) (l k : list T).

(** The items in order. *)
Fixpoint contents t : list T :=
  match t with
  | Internal _ _ _ ts => flat_map contents ts
  | Leaf _ its _ => its
  end.

(** A tree of height [h]: arrays within their capacity, every cached summary
    is the one of what it stands for, all leaves at the same depth, and no
    empty node below the root. *)
Fixpoint wf (h : nat) t : Prop :=
  match h, t with
  | O, Leaf s its ss =>
      (length its ≤ capacity)%nat ∧ ss = map item_summary its ∧ s = measure its
  | S h', Internal h0 s ss ts =>
      h0 = h ∧ ts ≠ [] ∧ (length ts ≤ capacity)%nat ∧ ss = map summary ts ∧
      s = measure (flat_map contents ts) ∧
      Forall (λ t, wf h' t ∧ contents t ≠ []) ts
  | _, _ => False
  end.

(** A node that can stand below the root. *)
Definition sub h t : Prop := wf h t ∧ contents t ≠ [].

Lemma wf_height h t : wf h t → height t = h.
Proof. destruct h, t; cbn; naive_solver. Qed.
Lemma wf_summary h t : wf h t → summary t = measure (contents t).
Proof. destruct h, t; cbn; naive_solver. Qed.
Lemma wf_empty h t : wf h t → is_empty t = true ↔ contents t = [].
Proof.
  destruct h, t as [h0 s ss ts|s its ss]; cbn; try done.
  - intros _. by destruct its.
  - intros (_ & Hne & _ & _ & _ & Hts). split; [done|].
    destruct ts as [|t ts]; [done|]. apply Forall_cons in Hts as [[_ Ht] _]. cbn.
    by intros [? _]%app_eq_nil.
Qed.
Lemma new_ok : wf 0 new.
Proof. cbn. split_and!; [lia|done..]. Qed.
Lemma wf_internal h s ss ts :
  ts ≠ [] → (length ts ≤ capacity)%nat → ss = map summary ts →
  s = measure (flat_map contents ts) → Forall (sub h) ts → wf (S h) (Internal (S h) s ss ts).
Proof. cbn. intuition auto. Qed.
Lemma contents_internal_ne h ts : ts ≠ [] → Forall (sub h) ts → flat_map contents ts ≠ [].
Proof.
  destruct ts as [|t ts]; [done|]. intros _ [[_ Ht] _]%Forall_cons. cbn.
  by intros [? _]%app_eq_nil.
Qed.

(** Summing the summaries of children gives the summary of their contents. *)
Lemma sum_children h ts :
  valid (flat_map contents ts) → Forall (sub h) ts →
  sum (map summary ts) = measure (flat_map contents ts).
Proof.
  induction ts as [|t ts IH] using rev_ind; intros Hv Hf; [done|].
  rewrite flat_map_app in *. cbn [flat_map] in *. rewrite app_nil_r in *.
  apply Forall_app in Hf as [Hf [[Ht Hne] _]%Forall_cons].
  rewrite map_app. unfold sum. rewrite foldl_app. cbn. fold (sum (map summary ts)).
  rewrite IH by (done || by apply valid_app in Hv as [? _]).
  rewrite (wf_summary h t Ht). by rewrite measure_app.
Qed.

Lemma sum_pair h a b :
  valid (contents a ++ contents b) → sub h a → sub h b →
  sum [summary a; summary b] = measure (contents a ++ contents b).
Proof.
  intros Hv Ha Hb. pose proof (sum_children h [a; b]) as H. cbn [map flat_map] in H.
  rewrite app_nil_r in H. apply H; [done|].
  apply Forall_cons. split; [done|by apply Forall_singleton].
Qed.

Lemma array_ok {A} (l : list A) : (length l ≤ capacity)%nat → array l = Some l.
Proof. intros H. unfold array. by rewrite (proj2 (Nat.leb_le _ _)). Qed.

Lemma midpoint_bounds n :
  (capacity < n ≤ 2 * capacity)%nat →
  (0 < midpoint n ≤ capacity ∧ midpoint n < n ∧ n - midpoint n ≤ capacity)%nat.
Proof.
  intros H. unfold midpoint.
  pose proof (Nat.div_mod_eq n 2). pose proof (Nat.mod_upper_bound n 2 ltac:(lia)).
  pose proof (Nat.div_mod_eq (n + n mod 2) 2). pose proof (Nat.mod_upper_bound (n + n mod 2) 2 ltac:(lia)).
  unfold TREE_BASE in *. lia.
Qed.
Lemma div_ceil2_bounds n :
  (capacity < n ≤ 2 * capacity)%nat →
  (0 < div_ceil2 n ≤ capacity ∧ div_ceil2 n < n ∧ n - div_ceil2 n ≤ capacity)%nat.
Proof.
  intros H. unfold div_ceil2. pose proof (Nat.div_mod_eq (n + 1) 2).
  pose proof (Nat.mod_upper_bound (n + 1) 2 ltac:(lia)). unfold TREE_BASE in *. lia.
Qed.

Lemma take_drop_ne {A} n (l : list A) :
  (0 < n)%nat → (n < length l)%nat → take n l ≠ [] ∧ drop n l ≠ [].
Proof.
  intros H1 H2. split; intros E; apply (f_equal length) in E;
    rewrite ?length_take, ?length_drop in E; simpl in E; lia.
Qed.

(** The two halves of a node that is split. *)
Lemma split_internal h m ts :
  (0 < m ≤ capacity)%nat → (m < length ts)%nat → (length ts - m ≤ capacity)%nat →
  Forall (sub h) ts → valid (flat_map contents ts) →
  let l := Internal (S h) (sum (map summary (take m ts))) (map summary (take m ts)) (take m ts) in
  let r := Internal (S h) (sum (map summary (drop m ts))) (map summary (drop m ts)) (drop m ts) in
  sub (S h) l ∧ sub (S h) r ∧ contents l ++ contents r = flat_map contents ts.
Proof.
  intros Hm Hl Hr Hf Hv.
  assert (flat_map contents (take m ts) ++ flat_map contents (drop m ts) = flat_map contents ts) as E
    by by rewrite <- flat_map_app, take_drop.
  rewrite <- E in Hv. apply valid_app in Hv as [Hv1 Hv2].
  destruct (take_drop_ne m ts) as [N1 N2]; [lia..|].
  assert (Forall (sub h) (take m ts)) as F1 by by apply Forall_take.
  assert (Forall (sub h) (drop m ts)) as F2 by by apply Forall_drop.
  split_and!; [| |done]; (split; [|by eapply contents_internal_ne]);
    apply wf_internal; rewrite ?length_take, ?length_drop; try done; try lia;
    by eapply sum_children.
Qed.

Lemma split_leaf m l :
  (0 < m ≤ capacity)%nat → (m < length l)%nat → (length l - m ≤ capacity)%nat →
  let a := Leaf (sum (map item_summary (take m l))) (take m l) (map item_summary (take m l)) in
  let b := Leaf (sum (map item_summary (drop m l))) (drop m l) (map item_summary (drop m l)) in
  sub 0 a ∧ sub 0 b ∧ contents a ++ contents b = l.
Proof.
  intros Hm Hl Hr. destruct (take_drop_ne m l) as [N1 N2]; [lia..|].
  unfold sub. cbn. rewrite length_take, length_drop. unfold TREE_BASE in *.
  split_and!; try done; [lia|apply take_drop].
Qed.

(** *** Pushing a tree that is not higher *)

(** The node updated in place and the one split off to its right. *)
Definition result h (r : tree * option tree) l : Prop :=
  sub h r.1 ∧
  match r.2 with
  | None => contents r.1 = l
  | Some b => sub h b ∧ contents r.1 ++ contents b = l
  end.

Lemma set_last_ok {A} (l : list A) x y : set_last (l ++ [x]) y = Some (l ++ [y]).
Proof.
  unfold set_last. rewrite removelast_last. by destruct l.
Qed.

Lemma height_delta_cases h h' :
  (h' ≤ h)%nat →
  Nat.ltb h h' = false ∧ (h - h' = 0 ↔ h = h')%nat.
Proof. intros H. split; [by apply Nat.ltb_ge|lia]. Qed.

Lemma sub_children h t ts :
  sub (S h) t → child_trees t = Some ts →
  ts ≠ [] ∧ (length ts ≤ capacity)%nat ∧ child_summaries t = map summary ts ∧
  contents t = flat_map contents ts ∧ Forall (sub h) ts.
Proof.
  intros [Hw _]. destruct t as [h0 s ss ts'|]; [|done]. intros [= ->]. cbn in *.
  by destruct Hw as (_ & ? & ? & ? & _ & ?).
Qed.

Definition rec_ok h (rec : tree → tree → option (tree * option tree)) : Prop :=
  ∀ h' a b, sub h a → sub h' b → (h' ≤ h)%nat → valid (contents a ++ contents b) →
    ∃ r, rec a b = Some r ∧ result h r (contents a ++ contents b).

Lemma Forall_snoc {A} (P : A → Prop) (l : list A) x : Forall P (l ++ [x]) ↔ Forall P l ∧ P x.
Proof. by rewrite Forall_app, Forall_singleton. Qed.

(** The case where the last child takes the tree. *)
Lemma append_last_ok rec h h' cts other :
  rec_ok h rec → cts ≠ [] → Forall (sub h) cts → sub h' other → (h' ≤ S h)%nat →
  (S h - h' ≠ 0)%nat → valid (flat_map contents cts ++ contents other) →
  ∃ cts' ta,
    (l ← list.last cts;
     '(child, tree_to_append) ← rec l other;
     cts0 ← set_last cts child;
     css ← set_last (map summary cts) (summary child);
     match tree_to_append with
     | Some split_tree => Some (css, cts0, [summary split_tree], [split_tree])
     | None => Some (css, cts0, [], [])
     end) = Some (map summary cts', cts', map summary ta, ta) ∧
    length cts' = length cts ∧ (length ta ≤ capacity)%nat ∧ Forall (sub h) (cts' ++ ta) ∧
    flat_map contents (cts' ++ ta) = flat_map contents cts ++ contents other.
Proof.
  intros Hrec Hne Hf Ho Hh Hd Hv.
  destruct cts as [|l cts _] using rev_ind; [done|]. clear Hne.
  rewrite last_snoc. cbn [mbind option_bind]. apply Forall_snoc in Hf as [Hf Hl].
  rewrite flat_map_app in *. cbn [flat_map] in *. rewrite app_nil_r, <- app_assoc in *.
  destruct (Hrec h' l other) as ([child o] & -> & Hr1 & Hr2);
    [done|done|lia|by apply valid_app in Hv as [_ ?]|].
  cbn [mbind option_bind fst snd] in *. rewrite set_last_ok. cbn [mbind option_bind].
  rewrite map_app. cbn [map]. rewrite set_last_ok. cbn [mbind option_bind].
  exists (cts ++ [child]), (match o with Some b => [b] | None => [] end).
  rewrite !map_app, !length_app, <- app_assoc, !flat_map_app. cbn [map flat_map length].
  split_and!.
  - by destruct o.
  - done.
  - destruct o; cbn; lia.
  - apply Forall_app. split; [done|]. apply Forall_cons. split; [done|].
    destruct o; [|done]. by apply Forall_singleton; destruct Hr2.
  - f_equal. destruct o; cbn; rewrite !app_nil_r; [by destruct Hr2|done].
Qed.

Lemma to_append_ok rec h h' cts other :
  rec_ok h rec → cts ≠ [] → Forall (sub h) cts → sub h' other → (h' ≤ S h)%nat →
  valid (flat_map contents cts ++ contents other) →
  ∃ cts' ta,
    to_append rec (S h) (map summary cts) cts other
      = Some (map summary cts', cts', map summary ta, ta) ∧
    length cts' = length cts ∧ (length ta ≤ capacity)%nat ∧ Forall (sub h) (cts' ++ ta) ∧
    flat_map contents (cts' ++ ta) = flat_map contents cts ++ contents other.
Proof.
  intros Hrec Hne Hf Ho Hh Hv. unfold to_append. rewrite (wf_height h' other) by apply Ho.
  destruct (height_delta_cases (S h) h' Hh) as [-> Hd].
  destruct (Nat.eqb_spec (S h - h') 0) as [E|E].
  - apply Hd in E as <-. destruct other as [h0 s ss ts|]; [|by destruct Ho].
    destruct (sub_children h (Internal h0 s ss ts) ts Ho eq_refl) as (_ & H2 & H3 & H4 & H5).
    cbn in H3 |- *. rewrite H3. exists cts, ts. split_and!; [done..| |].
    + by apply Forall_app.
    + by rewrite flat_map_app.
  - destruct (Nat.eqb_spec (S h - h') 1); [destruct (is_underflowing other) eqn:Eu|]; cbn [andb negb].
    2: { assert (h' = h) as -> by lia. exists cts, [other]. split_and!; [done|done|cbn; lia| |].
         - apply Forall_app. split; [done|by apply Forall_singleton].
         - rewrite flat_map_app. cbn. by rewrite app_nil_r. }
    all: by apply append_last_ok with (h' := h').
Qed.

Lemma push_tree_recursive_ok fuel h :
  (h < fuel)%nat → rec_ok h (push_tree_recursive fuel).
Proof.
  revert h. induction fuel as [|fuel IH]; intros h Hf h' self other Hs Ho Hh Hv; [lia|].
  cbn [push_tree_recursive]. destruct self as [h0 s css cts|s its ss].
  - destruct h as [|h]; [by destruct Hs|].
    destruct Hs as [(-> & Hne & Hcap & -> & -> & Hcts) _].
    destruct (to_append_ok (push_tree_recursive fuel) h h' cts other) as (cts' & ta & -> & Hlen & Hta & Hall & Hc);
      [apply IH; lia|done..|]. cbn [mbind option_bind].
    cbn [contents] in Hv |- *. rewrite <- Hc in Hv |- *.
    rewrite <- length_app, <- map_app.
    destruct (Nat.ltb_spec capacity (length (cts' ++ ta))) as [Hlt|Hge].
    + destruct (midpoint_bounds (length (cts' ++ ta))) as (M1 & M2 & M3);
        [rewrite length_app in *; lia|].
      rewrite !firstn_map, !skipn_map.
      rewrite !array_ok by (rewrite ?length_map, ?length_take, ?length_drop; lia).
      cbn [mbind option_bind]. eexists. split; [done|].
      destruct (split_internal h (midpoint (length (cts' ++ ta))) (cts' ++ ta))
        as (H1 & H2 & H3); [done..|]. by split_and!.
    + rewrite !array_ok by (rewrite ?length_map; lia). cbn [mbind option_bind].
      assert (cts' ++ ta ≠ []) as Hne'.
      { intros [-> _]%app_eq_nil. by destruct cts. }
      eexists. split; [done|]. split; [|done]. cbn [fst]. split.
      * apply wf_internal; [done..| |done].
        rewrite (wf_summary h' other) by apply Ho. rewrite Hc in Hv |- *.
        rewrite measure_app; [done|apply Ho|done].
      * by eapply contents_internal_ne.
  - destruct h as [|h]; [|by destruct Hs]. assert (h' = 0)%nat as -> by lia.
    destruct Hs as [(Hcap & -> & ->) Hne]. destruct other as [|os oits oss]; [by destruct Ho|].
    destruct Ho as [(Hcap' & -> & ->) Hno]. cbn [items mbind option_bind child_summaries contents] in *.
    rewrite <- length_app, <- map_app.
    destruct (Nat.ltb_spec capacity (length (its ++ oits))) as [Hlt|Hge].
    + destruct (midpoint_bounds (length (its ++ oits))) as (M1 & M2 & M3);
        [rewrite length_app in *; lia|].
      rewrite !firstn_map, !skipn_map.
      rewrite !array_ok by (rewrite ?length_map, ?length_take, ?length_drop; lia).
      cbn [mbind option_bind]. eexists. split; [done|].
      destruct (split_leaf (midpoint (length (its ++ oits))) (its ++ oits))
        as (H1 & H2 & H3); [done..|]. by split_and!.
    + rewrite !array_ok by (rewrite ?length_map; lia). cbn [mbind option_bind].
      eexists. split; [done|]. split; [|done]. split; cbn [fst summary wf].
      * split_and!; [done..|]. by rewrite measure_app.
      * cbn. intros [-> _]%app_eq_nil. done.
Qed.

(** *** Appending a higher tree on the right *)
Definition result_left h (r : tree * option tree) l : Prop :=
  sub h r.1 ∧
  match r.2 with
  | None => contents r.1 = l
  | Some a => sub h a ∧ contents a ++ contents r.1 = l
  end.

Lemma merge_into_right_ok h small large :
  sub h small → sub h large → valid (contents small ++ contents large) →
  ∃ r, merge_into_right small large = Some r ∧ result_left h r (contents small ++ contents large).
Proof.
  intros [Hs Hns] [Hl Hnl] Hv. unfold merge_into_right.
  destruct h as [|h], small as [h1 s1 ss1 ts1|s1 is1 ss1], large as [h2 s2 ss2 ts2|s2 is2 ss2];
    try done.
  - destruct Hs as (C1 & -> & ->), Hl as (C2 & -> & ->). cbn [contents] in *.
    rewrite <- length_app, <- map_app.
    destruct (Nat.leb_spec (length (is1 ++ is2)) capacity) as [Hle|Hgt].
    + rewrite !array_ok by (rewrite ?length_map; lia). cbn [mbind option_bind].
      eexists. split; [done|]. split; [|done]. split; cbn [fst wf contents].
      * split_and!; [done..|]. by rewrite measure_app.
      * by intros [? _]%app_eq_nil.
    + destruct (div_ceil2_bounds (length (is1 ++ is2))) as (M1 & M2 & M3);
        [rewrite length_app in *; lia|].
      rewrite !firstn_map, !skipn_map.
      rewrite !array_ok by (rewrite ?length_map, ?length_take, ?length_drop; lia).
      cbn [mbind option_bind]. eexists. split; [done|].
      destruct (split_leaf (div_ceil2 (length (is1 ++ is2))) (is1 ++ is2))
        as (H1 & H2 & H3); [done..|]. by split_and!.
  - destruct Hs as (-> & N1 & C1 & -> & -> & F1), Hl as (-> & N2 & C2 & -> & -> & F2).
    cbn [contents] in *. rewrite (Nat.add_comm (length ts2)), <- length_app, <- map_app.
    rewrite <- flat_map_app in *. assert (Forall (sub h) (ts1 ++ ts2)) as F by by apply Forall_app.
    destruct (Nat.leb_spec (length (ts1 ++ ts2)) capacity) as [Hle|Hgt].
    + rewrite !array_ok by (rewrite ?length_map; lia). cbn [mbind option_bind].
      assert (ts1 ++ ts2 ≠ []) as N by by intros [? _]%app_eq_nil.
      eexists. split; [done|]. split; [|done]. split; cbn [fst].
      * apply wf_internal; [done..| |done].
        rewrite flat_map_app in *. by rewrite measure_app.
      * by eapply contents_internal_ne.
    + destruct (div_ceil2_bounds (length (ts1 ++ ts2))) as (M1 & M2 & M3);
        [rewrite length_app in *; lia|].
      rewrite !firstn_map, !skipn_map.
      rewrite !array_ok by (rewrite ?length_map, ?length_take, ?length_drop; lia).
      cbn [mbind option_bind]. eexists. split; [done|].
      destruct (split_internal h (div_ceil2 (length (ts1 ++ ts2))) (ts1 ++ ts2))
        as (H1 & H2 & H3); [done..|]. by split_and!.
Qed.

Lemma valid_infix l k m : valid (l ++ k ++ m) → valid (l ++ k).
Proof. rewrite app_assoc. by intros [? _]%valid_app. Qed.

Lemma append_large_ok fuel h' h small large :
  (h < fuel)%nat → sub h' small → sub h large → (h' ≤ h)%nat →
  valid (contents small ++ contents large) →
  ∃ r, append_large fuel small large = Some r ∧ result_left h r (contents small ++ contents large).
Proof.
  revert h large. induction fuel as [|fuel IH]; intros h large Hf Hs Hl Hh Hv; [lia|].
  cbn [append_large]. rewrite (wf_height h' small), (wf_height h large) by (apply Hs || apply Hl).
  destruct (Nat.eqb_spec h' h) as [->|Hne].
  { destruct (is_underflowing small); cbn [negb]; [by apply merge_into_right_ok|].
    eexists. split; [done|]. by split. }
  destruct h as [|h]; [lia|]. destruct large as [h0 s ss ts|]; [|by destruct Hl].
  destruct Hl as [(-> & N & C & -> & -> & F) _]. cbn [contents] in *.
  destruct ts as [|t ts]; [done|]. clear N.
  apply Forall_cons in F as [Ft F]. cbn [head flat_map] in *. cbn [mbind option_bind].
  destruct (IH h t) as ([first res] & -> & H1 & H2); [lia|done|done|lia|exact (valid_infix _ _ _ Hv)|].
  cbn [mbind option_bind fst snd map set_first] in *.
  assert (add_summary (summary small) (measure (contents t ++ flat_map contents ts))
    = measure (contents small ++ contents t ++ flat_map contents ts)) as Es.
  { rewrite (wf_summary h' small) by apply Hs. symmetry. apply measure_app; [|done].
    destruct Ft as [_ Hnt]. by intros [? _]%app_eq_nil. }
  assert (Forall (sub h) (first :: ts)) as Ff by (by apply Forall_cons).
  destruct res as [tr|].
  - destruct H2 as [Htr H2].
    assert (Forall (sub h) (tr :: first :: ts)) as Fa by (by apply Forall_cons).
    assert (flat_map contents (tr :: first :: ts)
      = contents small ++ contents t ++ flat_map contents ts) as Ec.
    { cbn. by rewrite (app_assoc (contents tr)), H2, <- app_assoc. }
    rewrite <- Ec in Hv, Es |- *.
    destruct (Nat.ltb_spec (length (first :: ts)) capacity) as [Hlt|Hge].
    + change (summary first :: map summary ts) with (map summary (first :: ts)).
      change (summary tr :: map summary (first :: ts)) with (map summary (tr :: first :: ts)).
      rewrite !array_ok by (rewrite ?length_map; cbn [length] in *; lia). cbn [mbind option_bind].
      eexists. split; [done|]. split; [|done]. split; cbn [fst].
      * apply wf_internal; [done|cbn [length] in *; lia|done..].
      * by eapply contents_internal_ne.
    + assert (length (first :: ts) = capacity) as El by (cbn [length] in *; lia).
      destruct (split_internal h (S TREE_BASE) (tr :: first :: ts)) as (S1 & S2 & S3);
        [unfold TREE_BASE; lia|cbn [length] in *; unfold TREE_BASE in *; lia..|done|done|].
      rewrite !array_ok by (cbn [length]; rewrite ?length_take; unfold TREE_BASE; lia).
      cbn [mbind option_bind]. change (summary first :: map summary ts) with (map summary (first :: ts)).
      rewrite skipn_map, firstn_map. eexists. split; [done|].
      split; cbn [fst snd]; [exact S2|]. split; [exact S1|exact S3].
  - eexists. split; [done|]. split; cbn [fst snd].
    + split; [|by eapply contents_internal_ne].
      apply wf_internal; [done|done|done| |done]. cbn. by rewrite Es, H2, <- app_assoc.
    + cbn. by rewrite H2, <- app_assoc.
Qed.

(** *** Concatenation *)
Lemma append_ok ha hb a b :
  wf ha a → wf hb b → valid (contents a ++ contents b) →
  ∃ t h, append a b = Some t ∧ wf h t ∧ contents t = contents a ++ contents b.
Proof.
  intros Ha Hb Hv. unfold append.
  pose proof (wf_empty _ _ Ha) as Ea. pose proof (wf_empty _ _ Hb) as Eb.
  destruct (is_empty a).
  { rewrite (proj1 Ea eq_refl). by exists b, hb. }
  destruct (is_empty b); cbn [negb].
  { rewrite (proj1 Eb eq_refl), app_nil_r. by exists a, ha. }
  assert (sub ha a) as Sa by (split; [done|]; by rewrite <- Ea).
  assert (sub hb b) as Sb by (split; [done|]; by rewrite <- Eb).
  rewrite (wf_height _ _ Ha), (wf_height _ _ Hb).
  assert (∀ h x y l, sub h x → sub h y → contents x ++ contents y = l → valid l →
    wf (S h) (from_child_trees x y) ∧ contents (from_child_trees x y) = l) as Hpair.
  { intros h x y l Hx Hy <- Hl. unfold from_child_trees. rewrite (wf_height h x) by apply Hx.
    rewrite Nat.add_1_r. split; [|cbn; by rewrite app_nil_r].
    apply wf_internal; [done|cbn; lia|done| |].
    - cbn. rewrite app_nil_r. by apply (sum_pair h).
    - apply Forall_cons. split; [done|by apply Forall_singleton]. }
  destruct (Nat.ltb_spec ha hb).
  - destruct (append_large_ok (S hb) ha hb a b) as ([o r] & -> & R1 & R2); [lia|done|done|lia|done|].
    cbn [mbind option_bind fst snd] in *. destruct r as [t|].
    + destruct R2 as [R2 R3]. eexists _, _. split; [done|]. by apply (Hpair hb).
    + exists o, hb. by destruct R1.
  - destruct (push_tree_recursive_ok (S ha) ha ltac:(lia) hb a b) as ([o r] & -> & R1 & R2);
      [done|done|lia|done|].
    cbn [mbind option_bind fst snd] in *. destruct r as [t|].
    + destruct R2 as [R2 R3]. eexists _, _. split; [done|]. by apply (Hpair ha).
    + exists o, ha. by destruct R1.
Qed.

Lemma wf_leaf_one x : valid [x] → wf 0 (Leaf (item_summary x) [x] [item_summary x]).
Proof. intros Hv. cbn. split_and!; [lia|done|]. symmetry. by apply measure_one. Qed.

Lemma push_ok h t x :
  wf h t → valid (contents t ++ [x]) →
  ∃ t' h', push t x = Some t' ∧ wf h' t' ∧ contents t' = contents t ++ [x].
Proof.
  intros Ht Hv. apply (append_ok h 0); [done| |done].
  apply wf_leaf_one. by apply valid_app in Hv as [_ ?].
Qed.

(** *** Building from a sequence *)
Lemma leaves_of_ok fuel l :
  (length l ≤ fuel)%nat → valid l →
  ∃ nodes, leaves_of fuel l = Some nodes ∧ Forall (sub 0) nodes ∧ flat_map contents nodes = l ∧
    (length nodes ≤ length l)%nat.
Proof.
  revert l. induction fuel as [|fuel IH]; intros l Hf Hv.
  { destruct l; [by exists []|simpl in *; lia]. }
  destruct l as [|x l]; [by exists []|].
  cbn [leaves_of]. rewrite array_ok by (rewrite length_take; lia). cbn [mbind option_bind].
  assert (take capacity (x :: l) = x :: take (capacity - 1) l) as -> by done.
  assert (drop capacity (x :: l) = drop (capacity - 1) l) as -> by done.
  cbn [map head mbind option_bind tail].
  pose proof (take_drop (capacity - 1) l) as E. rewrite <- E in Hv. rewrite app_comm_cons in Hv.
  destruct (valid_app _ _ Hv) as [Hv1 Hv2].
  destruct (IH (drop (capacity - 1) l)) as (nodes & -> & Hn & Hc & Hl);
    [rewrite length_drop; simpl in *; lia|done|].
  cbn [mbind option_bind]. eexists. split; [done|]. split_and!.
  - apply Forall_cons. split; [|done]. split; [|done]. cbn [wf].
    split_and!; [cbn [length]; rewrite length_take; unfold TREE_BASE; lia|done|].
    unfold measure, sum. cbn. f_equal.
    symmetry. apply (measure_one x). by apply (valid_app [x]) in Hv1 as [? _].
  - cbn. rewrite Hc. f_equal. apply E.
  - cbn [length]. rewrite length_drop in Hl. lia.
Qed.

(** The state of the grouping loop after some nodes. *)
Definition grouping h (nodes : list tree) (st : list tree * option (U * list U * list tree)) : Prop :=
  let '(parents, current) := st in
  let ts := match current with Some (_, _, ts) => ts | None => [] end in
  Forall (sub (S h)) parents ∧
  match current with
  | Some (s, ss, _) => ts ≠ [] ∧ ss = map summary ts ∧ s = sum ss
  | None => True
  end ∧
  Forall (sub h) ts ∧ (length ts < capacity)%nat ∧
  flat_map contents parents ++ flat_map contents ts = flat_map contents nodes ∧
  (capacity * length parents + length ts = length nodes)%nat.

Lemma sum_snoc (l : list U) x : sum (l ++ [x]) = add_summary (sum l) x.
Proof. unfold sum. by rewrite foldl_app. Qed.

Lemma add_child_ok h nodes st t :
  grouping h nodes st → sub h t → valid (flat_map contents (nodes ++ [t])) →
  ∃ st', add_child (S h) st t = Some st' ∧ grouping h (nodes ++ [t]) st'.
Proof.
  destruct st as [parents current]. intros (Hp & Hc & Hts & Hl & Hcont & Hlen) Ht Hv.
  set (ts := match current with Some (_, _, ts) => ts | None => [] end) in *.
  assert (default (zero, [], []) current = (sum (map summary ts), map summary ts, ts)) as E.
  { subst ts. destruct current as [[[s ss] ts]|]; [|done]. by destruct Hc as (_ & -> & ->). }
  unfold add_child. rewrite E, !array_ok by (rewrite length_app, ?length_map; cbn [length]; lia).
  cbn [mbind option_bind].
  change [summary t] with (map summary [t]). rewrite <- map_app, <- sum_snoc.
  change [summary t] with (map summary [t]). rewrite <- map_app.
  assert (Forall (sub h) (ts ++ [t])) as Hts' by by apply Forall_snoc.
  assert (flat_map contents parents ++ flat_map contents (ts ++ [t])
    = flat_map contents (nodes ++ [t])) as Hcont'.
  { by rewrite !flat_map_app, app_assoc, Hcont. }
  assert (ts ++ [t] ≠ []) as Hne by by destruct ts.
  destruct (Nat.eqb_spec (length (ts ++ [t])) capacity) as [Hcap|Hcap].
  - eexists. split; [done|]. rewrite length_app in Hcap. cbn [length] in Hcap.
    split_and!; [|done|constructor|unfold TREE_BASE; cbn; lia| |].
    + apply Forall_snoc. split; [done|]. split; [|by eapply contents_internal_ne].
      apply wf_internal; [done|rewrite length_app; cbn [length]; lia|done| |done].
      apply (sum_children h); [|done]. rewrite <- Hcont' in Hv. by apply valid_app in Hv as [_ ?].
    + rewrite flat_map_app. cbn. by rewrite !app_nil_r.
    + rewrite !length_app. cbn [length]. lia.
  - eexists. split; [done|]. rewrite length_app in Hcap. cbn [length] in Hcap.
    split_and!; try done; rewrite !length_app; cbn [length]; lia.
Qed.

Lemma parents_of_ok h nodes :
  Forall (sub h) nodes → valid (flat_map contents nodes) →
  ∃ parents, parents_of (S h) nodes = Some parents ∧ Forall (sub (S h)) parents ∧
    flat_map contents parents = flat_map contents nodes ∧
    (capacity * length parents < length nodes + capacity)%nat.
Proof.
  intros Hf Hv.
  assert (∃ st, foldl (λ st child, st ← st; add_child (S h) st child) (Some ([], None)) nodes = Some st
    ∧ grouping h nodes st) as (st & E & Hg).
  { clear - Hf Hv. induction nodes as [|t nodes IH] using rev_ind.
    { exists ([], None). split; [done|].
      split_and!; [constructor|done|constructor|unfold TREE_BASE; cbn; lia|done|done]. }
    apply Forall_snoc in Hf as [Hf Ht]. rewrite foldl_app.
    destruct (IH Hf) as (st & -> & Hg).
    { rewrite flat_map_app in Hv. by apply valid_app in Hv as [? _]. }
    cbn [foldl mbind option_bind]. by apply add_child_ok. }
  unfold parents_of. rewrite E. cbn [mbind option_bind].
  destruct st as [parents current]. destruct Hg as (Hp & Hc & Hts & Hl & Hcont & Hlen).
  destruct current as [[[s ss] ts]|].
  - destruct Hc as (Hne & -> & ->). eexists. split; [done|]. split_and!.
    + apply Forall_snoc. split; [done|]. split; [|by eapply contents_internal_ne].
      apply wf_internal; [done|lia|done| |done].
      apply (sum_children h); [|done]. rewrite <- Hcont in Hv. by apply valid_app in Hv as [_ ?].
    + rewrite flat_map_app. cbn. by rewrite app_nil_r.
    + rewrite length_app. cbn [length]. destruct ts; [done|]. cbn [length] in *. lia.
  - exists parents. cbn in Hcont. rewrite app_nil_r in Hcont. split_and!; [done..|].
    cbn [length] in Hlen. lia.
Qed.

Lemma build_levels_ok fuel h nodes :
  (length nodes ≤ S fuel)%nat → Forall (sub h) nodes → valid (flat_map contents nodes) →
  ∃ r h', build_levels fuel h nodes = Some r ∧ (length r ≤ 1)%nat ∧ Forall (sub h') r ∧
    flat_map contents r = flat_map contents nodes.
Proof.
  revert h nodes. induction fuel as [|fuel IH]; intros h nodes Hl Hf Hv; cbn [build_levels].
  - rewrite (proj2 (Nat.leb_le _ _)) by done. by exists nodes, h.
  - destruct (Nat.leb_spec (length nodes) 1); [by exists nodes, h|].
    destruct (parents_of_ok h nodes) as (parents & E & Hp & Hc & Hlen); [done..|].
    rewrite Nat.add_1_r, E. cbn [mbind option_bind].
    destruct (IH (S h) parents) as (r & h' & ? & ? & ? & Hr).
    + unfold TREE_BASE in Hlen. lia.
    + done.
    + by rewrite Hc.
    + exists r, h'. split_and!; [done..|]. by rewrite Hr.
Qed.

Lemma from_iter_ok l :
  valid l → ∃ t h, from_iter l = Some t ∧ wf h t ∧ contents t = l.
Proof.
  intros Hv. unfold from_iter.
  destruct (leaves_of_ok (length l) l) as (nodes & -> & Hn & Hc & Hl); [lia|done|].
  cbn [mbind option_bind].
  destruct (build_levels_ok (length nodes) 0 nodes) as (r & h' & -> & Hr & Hf & Hrc);
    [lia|done|by rewrite Hc|].
  cbn [mbind option_bind]. rewrite Hc in Hrc. destruct r as [|t [|]]; [| |simpl in Hr; lia].
  - exists new, 0%nat. split_and!; [done|apply new_ok|done].
  - exists t, h'. apply Forall_singleton in Hf as [Hf _]. cbn in Hrc. by rewrite app_nil_r in Hrc.
Qed.

Lemma extend_ok h t l :
  wf h t → valid (contents t ++ l) →
  ∃ t' h', extend t l = Some t' ∧ wf h' t' ∧ contents t' = contents t ++ l.
Proof.
  intros Ht Hv. unfold extend.
  destruct (from_iter_ok l) as (t1 & h1 & -> & H1 & <-); [by apply valid_app in Hv as [_ ?]|].
  cbn [mbind option_bind]. by apply (append_ok h h1).
Qed.

(** *** The two ends *)
Lemma contents_snoc (ts : list tree) t :
  flat_map contents (ts ++ [t]) = flat_map contents ts ++ contents t.
Proof. rewrite flat_map_app. cbn. by rewrite app_nil_r. Qed.

Lemma last_app_ne {A} (l k : list A) : k ≠ [] → list.last (l ++ k) = list.last k.
Proof.
  destruct k as [|x k _] using rev_ind; [done|]. intros _. by rewrite app_assoc, !last_snoc.
Qed.
Lemma head_app_ne {A} (l k : list A) : l ≠ [] → head (l ++ k) = head l.
Proof. by destruct l. Qed.

Lemma rightmost_leaf_ok fuel h t :
  wf h t → (h ≤ fuel)%nat →
  ∃ lf, rightmost_leaf fuel t = Some lf ∧ wf 0 lf ∧ list.last (contents lf) = list.last (contents t).
Proof.
  revert fuel t. induction h as [|h IH]; intros fuel t Ht Hf;
    destruct t as [h0 s ss ts|s its ss]; try by destruct Ht.
  - eexists. split; [by destruct fuel|]. done.
  - destruct fuel as [|fuel]; [lia|]. destruct Ht as (_ & Hne & _ & _ & _ & F).
    destruct ts as [|t ts _] using rev_ind; [done|]. cbn [rightmost_leaf].
    rewrite last_snoc. cbn [mbind option_bind]. apply Forall_snoc in F as [_ [Ht Hc]].
    destruct (IH fuel t) as (l & -> & Hl & El); [done|lia|].
    exists l. split_and!; [done..|]. cbn [contents]. rewrite contents_snoc, last_app_ne; done.
Qed.

Lemma leftmost_leaf_ok fuel h t :
  wf h t → (h ≤ fuel)%nat →
  ∃ lf, leftmost_leaf fuel t = Some lf ∧ wf 0 lf ∧ head (contents lf) = head (contents t).
Proof.
  revert fuel t. induction h as [|h IH]; intros fuel t Ht Hf;
    destruct t as [h0 s ss ts|s its ss]; try by destruct Ht.
  - eexists. split; [by destruct fuel|]. done.
  - destruct fuel as [|fuel]; [lia|]. destruct Ht as (_ & Hne & _ & _ & _ & F).
    destruct ts as [|t ts]; [done|]. cbn [leftmost_leaf head mbind option_bind].
    apply Forall_cons in F as [[Ht Hc] _].
    destruct (IH fuel t) as (l & -> & Hl & El); [done|lia|].
    exists l. split_and!; [done..|]. cbn [contents flat_map]. by rewrite head_app_ne.
Qed.

Lemma last_ok h t : wf h t → last t = Some (list.last (contents t)).
Proof.
  intros Ht. unfold last. rewrite (wf_height h t Ht).
  destruct (rightmost_leaf_ok h h t Ht) as (l & -> & Hl & <-); [lia|]. by destruct l.
Qed.
Lemma first_ok h t : wf h t → first t = Some (head (contents t)).
Proof.
  intros Ht. unfold first. rewrite (wf_height h t Ht).
  destruct (leftmost_leaf_ok h h t Ht) as (l & -> & Hl & <-); [lia|]. by destruct l.
Qed.
Lemma last_summary_ok h t : wf h t → last_summary t = Some (item_summary <$> list.last (contents t)).
Proof.
  intros Ht. unfold last_summary. rewrite (wf_height h t Ht).
  destruct (rightmost_leaf_ok h h t Ht) as (l & -> & Hl & <-); [lia|].
  destruct l as [|s its ss]; [done|]. destruct Hl as (_ & -> & _). cbn.
  by rewrite fmap_last.
Qed.

(** Replacing the last (first) item of a sequence. *)
Definition map_last (f : T → T) l : list T :=
  match list.last l with Some x => removelast l ++ [f x] | None => l end.
Definition map_head (f : T → T) l : list T := match l with x :: l => f x :: l | [] => [] end.

Lemma map_last_app f l k : k ≠ [] → map_last f (l ++ k) = l ++ map_last f k.
Proof.
  destruct k as [|x k _] using rev_ind; [done|]. intros _. unfold map_last.
  by rewrite app_assoc, !last_snoc, !removelast_last, <- app_assoc.
Qed.
Lemma map_last_ne f l : l ≠ [] → map_last f l ≠ [].
Proof.
  destruct l as [|x l _] using rev_ind; [done|]. intros _. unfold map_last.
  rewrite last_snoc. by destruct (removelast _).
Qed.

Lemma update_last_recursive_ok f fuel h t :
  wf h t → contents t ≠ [] → (h ≤ fuel)%nat → valid (map_last f (contents t)) →
  ∃ t', update_last_recursive fuel f t = Some (t', Some (summary t')) ∧ sub h t' ∧
    contents t' = map_last f (contents t).
Proof.
  revert fuel t. induction h as [|h IH]; intros fuel t Ht Hne Hf Hv;
    destruct t as [h0 s ss ts|s its ss]; try by destruct Ht.
  - destruct Ht as (C & -> & ->). cbn [contents] in *.
    destruct its as [|x its _] using rev_ind; [done|]. clear Hne.
    unfold map_last in *. rewrite last_snoc, removelast_last in *.
    assert (update_last_recursive fuel f
        (Leaf (measure (its ++ [x])) (its ++ [x]) (map item_summary (its ++ [x])))
      = (let ss := map item_summary (its ++ [f x]) in
         Some (Leaf (sum ss) (its ++ [f x]) ss, Some (sum ss)))) as ->.
    { destruct fuel; cbn [update_last_recursive];
        rewrite map_app; cbn [map]; rewrite !last_snoc, !removelast_last, map_app; done. }
    exists (Leaf (sum (map item_summary (its ++ [f x]))) (its ++ [f x]) (map item_summary (its ++ [f x]))).
    split; [done|]. split; [|done]. split; [|by destruct its].
    cbn. rewrite length_app in *. cbn in *. split_and!; [lia|done..].
  - destruct fuel as [|fuel]; [lia|]. destruct Ht as (-> & _ & C & -> & -> & F).
    cbn [contents] in *. destruct ts as [|t ts _] using rev_ind; [done|]. clear Hne.
    apply Forall_snoc in F as [F [Ht Hc]]. cbn [update_last_recursive].
    rewrite last_snoc, contents_snoc in *. rewrite map_last_app in Hv |- * by done.
    cbn [mbind option_bind].
    destruct (IH fuel t) as (t' & -> & Ht' & Ec); [done..|lia|by apply valid_app in Hv as [_ ?]|].
    cbn [mbind option_bind]. rewrite set_last_ok, map_app. cbn [mbind option_bind map].
    rewrite set_last_ok. cbn [mbind option_bind].
    exists (Internal (S h) (sum (map summary (ts ++ [t']))) (map summary (ts ++ [t'])) (ts ++ [t'])).
    split; [by rewrite map_app|].
    assert (Forall (sub h) (ts ++ [t'])) as F' by by apply Forall_snoc.
    cbn [contents]. rewrite contents_snoc, Ec. split; [|done]. split.
    + apply wf_internal; [by destruct ts| |done| |done].
      * rewrite !length_app in *. done.
      * apply (sum_children h); [|done]. by rewrite contents_snoc, Ec.
    + eapply contents_internal_ne; [|done]. by destruct ts.
Qed.

Lemma update_first_recursive_ok f fuel h t :
  wf h t → contents t ≠ [] → (h ≤ fuel)%nat → valid (map_head f (contents t)) →
  ∃ t', update_first_recursive fuel f t = Some (t', Some (summary t')) ∧ sub h t' ∧
    contents t' = map_head f (contents t).
Proof.
  revert fuel t. induction h as [|h IH]; intros fuel t Ht Hne Hf Hv;
    destruct t as [h0 s ss ts|s its ss]; try by destruct Ht.
  - destruct Ht as (C & -> & ->). destruct its as [|x its]; [done|].
    exists (Leaf (measure (f x :: its)) (f x :: its) (map item_summary (f x :: its))).
    split; [by destruct fuel|]. split; [|done]. split; [|done]. cbn. split_and!; [done..|]. done.
  - destruct fuel as [|fuel]; [lia|]. destruct Ht as (-> & _ & C & -> & -> & F).
    cbn [contents] in *. destruct ts as [|t ts]; [done|]. clear Hne.
    apply Forall_cons in F as [[Ht Hc] F].
    assert (map_head f (flat_map contents (t :: ts)) = map_head f (contents t) ++ flat_map contents ts)
      as Eh by (cbn; by destruct (contents t)).
    cbn [update_first_recursive head mbind option_bind]. rewrite Eh in Hv |- *.
    destruct (IH fuel t) as (t' & -> & Ht' & Ec); [done..|lia|by apply valid_app in Hv as [? _]|].
    cbn [mbind option_bind set_first map].
    exists (Internal (S h) (sum (map summary (t' :: ts))) (map summary (t' :: ts)) (t' :: ts)).
    split; [done|].
    assert (Forall (sub h) (t' :: ts)) as F' by by apply Forall_cons.
    assert (flat_map contents (t' :: ts) = map_head f (contents t) ++ flat_map contents ts) as Ec'
      by (cbn; by rewrite Ec).
    split; [|done]. split; [|by eapply contents_internal_ne].
    apply wf_internal; [done..| |done].
    apply (sum_children h); [|done]. by rewrite Ec'.
Qed.

(** *** The contract of the tree: it stands for a sequence *)
Definition represents t l : Prop := (∃ h, wf h t) ∧ contents t = l.

Lemma represents_summary t l : represents t l → summary t = measure l.
Proof. intros [[h Ht] <-]. by eapply wf_summary. Qed.
Lemma represents_new : represents new [].
Proof. split; [exists 0%nat; apply new_ok|done]. Qed.
Lemma represents_empty t l : represents t l → is_empty t = true ↔ l = [].
Proof. intros [[h Ht] <-]. by eapply wf_empty. Qed.
Lemma represents_append a b l k :
  represents a l → represents b k → valid (l ++ k) →
  ∃ t, append a b = Some t ∧ represents t (l ++ k).
Proof.
  intros [[ha Ha] <-] [[hb Hb] <-] Hv.
  destruct (append_ok ha hb a b) as (t & h & E & Ht & Hc); [done..|].
  exists t. split; [done|]. split; [by exists h|done].
Qed.
Lemma represents_push t l x :
  represents t l → valid (l ++ [x]) → ∃ t', push t x = Some t' ∧ represents t' (l ++ [x]).
Proof.
  intros [[h Ht] <-] Hv. destruct (push_ok h t x) as (t' & h' & E & Ht' & Hc); [done..|].
  exists t'. split; [done|]. split; [by exists h'|done].
Qed.
Lemma represents_from_iter l : valid l → ∃ t, from_iter l = Some t ∧ represents t l.
Proof.
  intros Hv. destruct (from_iter_ok l Hv) as (t & h & E & Ht & Hc).
  exists t. split; [done|]. split; [by exists h|done].
Qed.
Lemma represents_extend t l k :
  represents t l → valid (l ++ k) → ∃ t', extend t k = Some t' ∧ represents t' (l ++ k).
Proof.
  intros [[h Ht] <-] Hv. destruct (extend_ok h t k) as (t' & h' & E & Ht' & Hc); [done..|].
  exists t'. split; [done|]. split; [by exists h'|done].
Qed.

(** C21: Concatenation of trees of any two heights: [append] never panics (no array
    overflows, no unreachable case), and gives a well-formed tree (capacities,
    equal depth of the leaves, no empty inner node, every cached summary up to
    date) that holds the items of both in order and has their sum as its
    summary; [push] is the case of one item. *)
Theorem append_correct a b l k x :
  represents a l → represents b k → valid (l ++ k ++ [x]) →
  (∃ t, append a b = Some t ∧ represents t (l ++ k) ∧
     summary t = measure (l ++ k)) ∧
  (∃ t, push b x = Some t ∧ represents t (k ++ [x])).
Proof.
  intros Ha Hb Hv. assert (valid (l ++ k)) as Hv1.
  { rewrite app_assoc in Hv. by apply valid_app in Hv as [? _]. }
  split.
  - destruct (represents_append a b l k) as (t & E & Ht); [done..|].
    exists t. split_and!; [done..|]. by apply represents_summary.
  - apply represents_push; [done|]. by apply valid_app in Hv as [_ ?].
Qed.

(** Building a tree from a sequence ([from_iter]: full leaves first, then level after
    level of parents) never panics and gives a well-formed tree with exactly
    these items; [extend] appends it. The empty sequence gives [new]. *)
Theorem from_iter_correct t l k :
  represents t l → valid (l ++ k) →
  (∃ t', from_iter k = Some t' ∧ represents t' k ∧ summary t' = measure k) ∧
  (∃ t', extend t k = Some t' ∧ represents t' (l ++ k)) ∧
  from_iter [] = Some new.
Proof.
  intros Ht Hv. split_and!; [|by apply represents_extend|done].
  destruct (represents_from_iter k) as (t' & E & Ht'); [by apply valid_app in Hv as [_ ?]|].
  exists t'. split_and!; [done..|]. by apply represents_summary.
Qed.

Lemma represents_first t l : represents t l → first t = Some (head l).
Proof. intros [[h Ht] <-]. by eapply first_ok. Qed.
Lemma represents_last t l : represents t l → last t = Some (list.last l).
Proof. intros [[h Ht] <-]. by eapply last_ok. Qed.
Lemma wf_no_items h t : wf h t → contents t = [] → ∃ s ss, t = Leaf s [] ss ∧ h = 0%nat.
Proof.
  intros Ht E. apply (wf_empty _ _ Ht) in E as E'. destruct t as [|s its ss]; [done|]. cbn in E. subst its.
  exists s, ss. by destruct h.
Qed.
Lemma represents_update_last f t l :
  represents t l → valid (map_last f l) → ∃ t', update_last f t = Some t' ∧ represents t' (map_last f l).
Proof.
  intros [[h Ht] <-] Hv. unfold update_last. rewrite (wf_height h t Ht).
  destruct (decide (contents t = [])) as [E|E].
  - destruct (wf_no_items h t Ht E) as (s & ss & -> & ->). exists (Leaf s [] ss). split; [done|].
    split; [by exists 0%nat|done].
  - destruct (update_last_recursive_ok f h h t) as (t' & -> & [Ht' _] & Ec); [done..|].
    exists t'. split; [done|]. split; [by exists h|done].
Qed.
Lemma represents_update_first f t l :
  represents t l → valid (map_head f l) → ∃ t', update_first f t = Some t' ∧ represents t' (map_head f l).
Proof.
  intros [[h Ht] <-] Hv. unfold update_first. rewrite (wf_height h t Ht).
  destruct (decide (contents t = [])) as [E|E].
  - destruct (wf_no_items h t Ht E) as (s & ss & -> & ->). exists (Leaf s [] ss). split; [done|].
    split; [by exists 0%nat|done].
  - destruct (update_first_recursive_ok f h h t) as (t' & -> & [Ht' _] & Ec); [done..|].
    exists t'. split; [done|]. split; [by exists h|done].
Qed.
(** The two ends of a tree: [first], [last] and [last_summary] read the first and the
    last item, and [update_first], [update_last] replace just that item and
    refresh every summary on the path; on an empty tree they change nothing. *)
Theorem ends_correct t l f :
  represents t l → valid (map_last f l) → valid (map_head f l) →
  first t = Some (head l) ∧ last t = Some (list.last l) ∧
  last_summary t = Some (item_summary <$> list.last l) ∧
  (∃ t', update_last f t = Some t' ∧ represents t' (map_last f l)) ∧
  (∃ t', update_first f t = Some t' ∧ represents t' (map_head f l)).
Proof.
  intros Ht Hv1 Hv2.
  split_and!; [by apply represents_first|by apply represents_last| |by apply represents_update_last|by apply represents_update_first].
  destruct Ht as [[h Ht] <-]. by eapply last_summary_ok.
Qed.
End correctness.

(** Integers that sum to their total, to evaluate the operations on. *)
Module Example.
#[export] Instance total : Summary Z := { zero := 0; add_summary := Z.add }.
#[export] Instance item : Item Z Z := { item_summary := λ x, x }.
#[export] Instance monoid : SummaryMonoid Z.
Proof. split; intros; cbn; lia. Qed.

Definition upto (n : nat) : list Z := map Z.of_nat (seq 0 n).
Lemma ok (l : list Z) : valid l.
Proof. exact I. Qed.
End Example.
Import Example.

Lemma append_correct_witness :
  ∃ a b t, from_iter (upto 5) = Some a ∧ from_iter (upto 40) = Some b ∧
    append a b = Some t ∧ height a = 0%nat ∧ height b = 1%nat ∧ summary t = 10 + 780.
Proof.
  destruct (represents_from_iter (upto 5) (ok _)) as (a & Ea & Ha).
  destruct (represents_from_iter (upto 40) (ok _)) as (b & Eb & Hb).
  destruct (append_correct a b (upto 5) (upto 40) 7 Ha Hb (ok _)) as [(t & Et & _ & Es) _].
  exists a, b, t. split_and!; [done..| | |by rewrite Es].
  - vm_compute in Ea. by injection Ea as <-.
  - vm_compute in Eb. by injection Eb as <-.
Defined.

Lemma from_iter_correct_witness :
  ∃ t, from_iter (upto 200) = Some t ∧ height t = 2%nat ∧ summary t = 19900.
Proof.
  destruct (from_iter_correct new [] (upto 200) represents_new (ok _)) as ((t & E & _ & Es) & _).
  exists t. split_and!; [done| |by rewrite Es].
  vm_compute in E. by injection E as <-.
Defined.

Lemma ends_correct_witness :
  ∃ t t', from_iter (upto 30) = Some t ∧ last t = Some (Some 29) ∧
    update_last (λ x, x + 100) t = Some t' ∧ summary t' = 435 + 100.
Proof.
  destruct (represents_from_iter (upto 30) (ok _)) as (t & E & Ht).
  destruct (ends_correct t (upto 30) (λ x, x + 100) Ht (ok _) (ok _)) as (_ & Hl & _ & (t' & E' & Ht') & _).
  exists t, t'. split_and!; [done|exact Hl|done|].
  rewrite (represents_summary _ _ Ht'). reflexivity.
Defined.
End SumTree.
