(* ===== verification/TreeFind.v ===== *)
(** Searching the tree by descent ([find], [find_exact], [find_with_prev] and
    [get] of [crates/sum_tree/src/sum_tree.rs]): at each level the children
    that end before the target are skipped using their cached summaries. *)
From S2P Require Import Prelude SumTree.

Module TreeFind.
Import SumTree.

Section operations.
Context {T U D : Type} `{!Summary U, !Item T U, !Dimension D U}.
Abbreviation tree := (node T U).
(** [target.cmp(&location, cx)] of the [SeekTarget] that is looked for. *)
Variable target : D → comparison.
Variable b : bias.

(** [target_in_child]: the target is before the end of the child. *)
Definition stops (c : comparison) : bool :=
  match c, b with Lt, _ => true | Eq, Left => true | _, _ => false end.

(** [crates/sum_tree/src/sum_tree.rs:468-479] SumTree::find_iterate *)
Fixpoint scan_children (pos : D) (cts : list tree) (css : list U) : D * option tree :=
  match cts, css with
  | t :: cts, s :: css =>
      let child_end := dadd pos s in
      if stops (target child_end) then (pos, Some t) else scan_children child_end cts css
  | _, _ => (pos, None)
  end.

(** [crates/sum_tree/src/sum_tree.rs:486-502] SumTree::find_iterate *)
Fixpoint scan_items (exact : bool) (pos : D) (its : list T) (ss : list U) : D * option (T * D) :=
  match its, ss with
  | x :: its, s :: ss =>
      let child_end := dadd pos s in
      let entry_found :=
        if exact then is_eq (target child_end) else stops (target child_end) in
      if entry_found then (pos, Some (x, child_end)) else scan_items exact child_end its ss
  | _, _ => (pos, None)
  end.

(** The loop goes down one level per iteration.
    [crates/sum_tree/src/sum_tree.rs:450-507] SumTree::find_iterate *)
Fixpoint find_iterate (fuel : nat) (exact : bool) (pos : D) (this : tree) :
    option (D * option (T * D)) :=
  match this with
  | Internal _ _ css cts =>
      match fuel, scan_children pos cts css with
      | S fuel, (pos, Some t) => find_iterate fuel exact pos t
      | O, (_, Some _) => None
      | _, (pos, None) => Some (pos, None)
      end
  | Leaf _ its ss => Some (scan_items exact pos its ss)
  end.

Definition find_from (exact : bool) (t : tree) : option (D * D * option T) :=
  let tree_end := dadd dzero (summary t) in
  if skips (target tree_end) b then Some (tree_end, tree_end, None)
  else
    '(pos, r) ← find_iterate (height t) exact dzero t;
    match r with
    | Some (item, end_) => Some (pos, end_, Some item)
    | None => Some (pos, pos, None)
    end.
(** [crates/sum_tree/src/sum_tree.rs:426-448] SumTree::find *)
Definition find (t : tree) : option (D * D * option T) := find_from false t.
(** [crates/sum_tree/src/sum_tree.rs:400-422] SumTree::find_exact *)
Definition find_exact (t : tree) : option (D * D * option T) := find_from true t.

(** [crates/sum_tree/src/sum_tree.rs:554-566] SumTree::find_with_prev_iterate *)
Fixpoint scan_children_prev (prev : option T) (pos : D) (cts : list tree) (css : list U) :
    option (option T * D * option tree) :=
  match cts, css with
  | t :: cts, s :: css =>
      let child_end := dadd pos s in
      if stops (target child_end) then Some (prev, pos, Some t)
      else prev ← last t; scan_children_prev prev child_end cts css
  | _, _ => Some (prev, pos, None)
  end.

(** [crates/sum_tree/src/sum_tree.rs:573-590] SumTree::find_with_prev_iterate *)
Fixpoint scan_items_prev (prev : option T) (pos : D) (its : list T) (ss : list U) :
    D * option (option T * T * D) :=
  match its, ss with
  | x :: its, s :: ss =>
      let child_end := dadd pos s in
      if stops (target child_end) then (pos, Some (prev, x, child_end))
      else scan_items_prev (Some x) child_end its ss
  | _, _ => (pos, None)
  end.

(** [crates/sum_tree/src/sum_tree.rs:535-595] SumTree::find_with_prev_iterate *)
Fixpoint find_with_prev_iterate (fuel : nat) (prev : option T) (pos : D) (this : tree) :
    option (D * option (option T * T * D)) :=
  match this with
  | Internal _ _ css cts =>
      '(prev, pos, child) ← scan_children_prev prev pos cts css;
      match fuel, child with
      | S fuel, Some t => find_with_prev_iterate fuel prev pos t
      | O, Some _ => None
      | _, None => Some (pos, None)
      end
  | Leaf _ its ss => Some (scan_items_prev prev pos its ss)
  end.

(** [crates/sum_tree/src/sum_tree.rs:511-533] SumTree::find_with_prev *)
Definition find_with_prev (t : tree) : option (D * D * option (option T * T)) :=
  let tree_end := dadd dzero (summary t) in
  if skips (target tree_end) b then Some (tree_end, tree_end, None)
  else
    '(pos, r) ← find_with_prev_iterate (height t) None dzero t;
    match r with
    | Some (prev, item, end_) => Some (pos, end_, Some (prev, item))
    | None => Some (pos, pos, None)
    end.
End operations.

(** Whether an item that ends after the sequence [l] is skipped. *)
Definition passed {T U D : Type} `{Measured D T U} (target : D → comparison) (b : bias) (l : list T) : bool :=
  skips (target (dim D l)) b.

Section correctness.
Context {T U D : Type} `{!Summary U, !Item T U, !Dimension D U, !SummaryLaws T U,
  !DimensionLaws D T U, !DimensionZero D U}.
Abbreviation tree := (node T U).
Implicit Types (t : tree) (l k pre : list T).
Variable target : D → comparison.
Variable b : bias.

Lemma stops_skips c : stops b c = negb (skips c b).
Proof. by destruct c, b. Qed.

Abbreviation passed := (TreeFind.passed target b).
Definition reached l : Prop := l = [] ∨ passed l = true.

(** [x] is where the search stops in [pre ++ l]: everything up to it is passed, it is not. *)
Definition stop_at pre l (l1 : list T) x (l2 : list T) : Prop :=
  l = l1 ++ x :: l2 ∧ reached (pre ++ l1) ∧ passed (pre ++ l1 ++ [x]) = false.

Lemma scan_children_ok h pre ts :
  Forall (sub h) ts → valid (pre ++ flat_map contents ts) → reached pre → ts ≠ [] →
  passed (pre ++ flat_map contents ts) = false →
  ∃ ts1 t ts2, ts = ts1 ++ t :: ts2 ∧
    scan_children target b (dim D pre) ts (map summary ts)
      = (dim D (pre ++ flat_map contents ts1), Some t) ∧
    scan_children_prev target b (list.last pre) (dim D pre) ts (map summary ts)
      = Some (list.last (pre ++ flat_map contents ts1), dim D (pre ++ flat_map contents ts1), Some t) ∧
    reached (pre ++ flat_map contents ts1) ∧
    passed (pre ++ flat_map contents ts1 ++ contents t) = false.
Proof.
  revert pre. induction ts as [|t ts IH]; intros pre Hf Hv Hr Hne Hp; [done|].
  apply Forall_cons in Hf as [[Ht Hc] Hf]. cbn [flat_map] in *. rewrite app_assoc in Hv.
  destruct (valid_app _ _ Hv) as [Hv1 _].
  cbn [scan_children scan_children_prev map].
  rewrite (wf_summary h t Ht), dim_app by done. rewrite stops_skips. fold (passed (pre ++ contents t)).
  destruct (passed (pre ++ contents t)) eqn:E; cbn [negb].
  - rewrite (last_ok h t Ht). cbn [mbind option_bind].
    destruct (decide (ts = [])) as [->|Hne'].
    { cbn in Hp. rewrite app_nil_r in Hp. congruence. }
    destruct (IH (pre ++ contents t)) as (ts1 & t' & ts2 & -> & -> & E2 & H1 & H2);
      [done|done|by right|done|by rewrite <- app_assoc|].
    rewrite last_app_ne in E2 by done. rewrite E2.
    exists (t :: ts1), t', ts2. cbn [flat_map]. rewrite <- !app_assoc in *. by split_and!.
  - exists [], t, ts. cbn [flat_map app]. rewrite !app_nil_r. by split_and!.
Qed.

Lemma scan_items_ok pre l :
  valid (pre ++ l) → reached pre → l ≠ [] → passed (pre ++ l) = false →
  ∃ l1 x l2, stop_at pre l l1 x l2 ∧
    scan_items target b false (dim D pre) l (map item_summary l)
      = (dim D (pre ++ l1), Some (x, dim D (pre ++ l1 ++ [x]))) ∧
    scan_items_prev target b (list.last pre) (dim D pre) l (map item_summary l)
      = (dim D (pre ++ l1), Some (list.last (pre ++ l1), x, dim D (pre ++ l1 ++ [x]))).
Proof.
  revert pre. induction l as [|x l IH]; intros pre Hv Hr Hne Hp; [done|].
  cbn [scan_items scan_items_prev map].
  change (x :: l) with ([x] ++ l) in Hv. rewrite app_assoc in Hv.
  destruct (valid_app _ _ Hv) as [Hv1 _]. destruct (valid_app _ _ Hv1) as [_ Hvx].
  rewrite <- (measure_one x), dim_app by done. rewrite stops_skips. fold (passed (pre ++ [x])).
  destruct (passed (pre ++ [x])) eqn:E; cbn [negb].
  - destruct (decide (l = [])) as [->|Hne']; [congruence|].
    destruct (IH (pre ++ [x])) as (l1 & y & l2 & (-> & H1 & H2) & -> & E2);
      [done|by right|done|by rewrite <- app_assoc|].
    rewrite last_snoc in E2. rewrite E2. exists (x :: l1), y, l2.
    unfold stop_at. rewrite <- !app_assoc in *. by split_and!.
  - exists [], x, l. unfold stop_at. rewrite !app_nil_r. by split_and!.
Qed.

Lemma find_iterate_ok fuel h pre t :
  sub h t → (h ≤ fuel)%nat → valid (pre ++ contents t) → reached pre →
  passed (pre ++ contents t) = false →
  ∃ l1 x l2, stop_at pre (contents t) l1 x l2 ∧
    find_iterate target b fuel false (dim D pre) t
      = Some (dim D (pre ++ l1), Some (x, dim D (pre ++ l1 ++ [x]))) ∧
    find_with_prev_iterate target b fuel (list.last pre) (dim D pre) t
      = Some (dim D (pre ++ l1), Some (list.last (pre ++ l1), x, dim D (pre ++ l1 ++ [x]))).
Proof.
  revert h pre t. induction fuel as [|fuel IH]; intros h pre t [Ht Hc] Hf Hv Hr Hp;
    destruct t as [h0 s ss ts|s its ss], h as [|h]; try (by destruct Ht); try lia.
  - destruct Ht as (_ & -> & _). cbn [contents] in *.
    destruct (scan_items_ok pre its) as (l1 & x & l2 & H1 & H2 & H3); [done..|].
    exists l1, x, l2. cbn. by rewrite H2, H3.
  - destruct Ht as (_ & Hne & _ & -> & _ & F). cbn [contents] in *.
    destruct (scan_children_ok h pre ts) as (ts1 & t & ts2 & -> & E1 & E2 & H1 & H2); [done..|].
    apply Forall_app in F as [_ [Hs _]%Forall_cons].
    cbn [find_iterate find_with_prev_iterate]. rewrite E1, E2. cbn [mbind option_bind].
    rewrite flat_map_app in Hv. cbn [flat_map] in Hv.
    assert (valid ((pre ++ flat_map contents ts1) ++ contents t)) as Hv'.
    { rewrite !app_assoc in Hv. by apply valid_app in Hv as [? _]. }
    destruct (IH h (pre ++ flat_map contents ts1) t) as (l1 & x & l2 & (Hl & R1 & R2) & -> & ->);
      [done|lia|done|done|by rewrite <- app_assoc|].
    exists (flat_map contents ts1 ++ l1), x, (l2 ++ flat_map contents ts2).
    unfold stop_at. rewrite <- !app_assoc in *. split_and!; [|done..].
    rewrite flat_map_app. cbn [flat_map]. by rewrite Hl, <- !app_assoc.
  - destruct Ht as (_ & -> & _). cbn [contents] in *.
    destruct (scan_items_ok pre its) as (l1 & x & l2 & H1 & H2 & H3); [done..|].
    exists l1, x, l2. cbn. by rewrite H2, H3.
Qed.

(** What a search over the sequence [l] gives: positions before and after
    the item found, the item before it and the item. *)
Inductive found l : D → D → option (option T * T) → Prop :=
  | found_item l1 x l2 :
      stop_at [] l l1 x l2 →
      found l (dim D l1) (dim D (l1 ++ [x])) (Some (list.last l1, x))
  | found_end : reached l → found l (dim D l) (dim D l) None.

Lemma find_found t l :
  represents t l → valid l →
  ∃ start end_ r, found l start end_ r ∧
    find target b t = Some (start, end_, snd <$> r) ∧
    find_with_prev target b t = Some (start, end_, r).
Proof.
  intros Hrep Hv. pose proof (represents_summary _ _ Hrep) as Hs.
  pose proof (represents_empty _ _ Hrep) as He. destruct Hrep as [[h Ht] <-].
  unfold find, find_from, find_with_prev. rewrite Hs, (dim_measure D (contents t)). fold (passed (contents t)).
  destruct (passed (contents t)) eqn:E.
  { exists (dim D (contents t)), (dim D (contents t)), None. split_and!; [|done..].
    apply found_end. by right. }
  rewrite (wf_height h t Ht). destruct (decide (contents t = [])) as [Ec|Hne].
  - destruct t as [|s its ss]; [by apply He in Ec|]. cbn in Ec. subst its.
    cbn [contents] in *. eexists _, _, None. split; [apply found_end; by left|].
    destruct h; [|by destruct Ht]. cbn. done.
  - destruct (find_iterate_ok h h [] t) as (l1 & x & l2 & H1 & H2 & H3); [done|lia|done|by left|done|].
    rewrite (dim_nil (D := D) (T := T)) in H2, H3. cbn [list.last] in H3. rewrite H2, H3.
    cbn [mbind option_bind]. eexists _, _, (Some (list.last l1, x)).
    split_and!; [|done..]. by apply found_item with l2.
Qed.

(** The comparisons of the target do not increase along the sequence. *)
Definition monotone l : Prop :=
  ∀ k k', (k ++ k') `prefix_of` l → k ≠ [] → passed (k ++ k') = true → passed k = true.

Lemma found_first l start end_ p x :
  monotone l → found l start end_ (Some (p, x)) →
  ∃ l1 l2, l = l1 ++ x :: l2 ∧ start = dim D l1 ∧ end_ = dim D (l1 ++ [x]) ∧
    p = list.last l1 ∧
    (∀ k, k `prefix_of` l1 → k ≠ [] → passed k = true) ∧
    (∀ k, (l1 ++ [x] ++ k) `prefix_of` l → passed (l1 ++ [x] ++ k) = false).
Proof.
  intros Hm H. inversion H as [l1 x' l2 (E & Hr & Hp)|]; subst. cbn in Hr, Hp.
  exists l1, l2. split_and!; try done.
  - intros k [k' ->] Hk. destruct Hr as [Hr|Hr].
    + by apply app_eq_nil in Hr as [? _].
    + apply (Hm k k'); [|done|done]. by exists (x :: l2).
  - intros k [k' Hk]. apply not_true_is_false. intros Hq.
    rewrite app_assoc in Hk, Hq. apply (Hm (l1 ++ [x]) k) in Hq; [congruence| |by destruct l1].
    by exists k'.
Qed.

(** C29: [find] and [find_with_prev] agree with a scan of the items from the left: they
    never panic, and either give the first item the target is not past (an item
    that ends exactly at the target counts as past it when the bias is right),
    with the positions before and after it and the item before it, or the end of
    the sequence when the target is past everything or nothing is there. The
    comparisons of the target are supposed to go down along the sequence. *)
Theorem find_correct t l :
  represents t l → valid l → monotone l →
  ∃ start end_ r,
    find target b t = Some (start, end_, snd <$> r) ∧
    find_with_prev target b t = Some (start, end_, r) ∧
    match r with
    | Some (p, x) =>
        ∃ l1 l2, l = l1 ++ x :: l2 ∧ start = dim D l1 ∧ end_ = dim D (l1 ++ [x]) ∧
          p = list.last l1 ∧
          (∀ k, k `prefix_of` l1 → k ≠ [] → passed k = true) ∧
          (∀ k, (l1 ++ [x] ++ k) `prefix_of` l → passed (l1 ++ [x] ++ k) = false)
    | None =>
        start = dim D l ∧ end_ = dim D l ∧
        ∀ k, k `prefix_of` l → k ≠ [] → passed k = true
    end.
Proof.
  intros Hrep Hv Hm. destruct (find_found t l Hrep Hv) as (start & end_ & r & Hf & E1 & E2).
  exists start, end_, r. split_and!; [done..|]. destruct r as [[p x]|].
  - by apply found_first.
  - inversion Hf as [|Hr]; subst. split_and!; [done..|].
    intros k [k' ->] Hk. destruct Hr as [Hr|Hr].
    + by apply app_eq_nil in Hr as [? _].
    + by apply (Hm k k').
Qed.
End correctness.

(** *** Exact search, for a target that is compared with the left bias *)
Section exact.
Context {T U D : Type} `{!Summary U, !Item T U, !Dimension D U, !SummaryLaws T U,
  !DimensionLaws D T U, !DimensionZero D U}.
Implicit Types (t : node T U) (l k pre : list T).
Variable target : D → comparison.

(** The target stays after, then meets, then stays before the ends of the items. *)
Definition descending l : Prop :=
  ∀ k k', (k ++ k') `prefix_of` l → k ≠ [] →
    (target (dim D (k ++ k')) = Gt → target (dim D k) = Gt) ∧
    (target (dim D k) = Lt → target (dim D (k ++ k')) = Lt).

Lemma desc_gt l k k' :
  descending l → (k ++ k') `prefix_of` l → k ≠ [] →
  target (dim D (k ++ k')) = Gt → target (dim D k) = Gt.
Proof. intros Hd Hp Hk. by apply (Hd k k'). Qed.
Lemma desc_lt l k k' :
  descending l → (k ++ k') `prefix_of` l → k ≠ [] →
  target (dim D k) = Lt → target (dim D (k ++ k')) = Lt.
Proof. intros Hd Hp Hk. by apply (Hd k k'). Qed.
Lemma snoc_ne {A} (l : list A) x : l ++ [x] ≠ [].
Proof. by destruct l. Qed.

Lemma descending_prefix l k : descending (l ++ k) → descending l.
Proof. intros H k1 k2 Hp. apply H. by apply prefix_app_r. Qed.

Lemma passed_gt l : passed target Left l = true ↔ target (dim D l) = Gt.
Proof. unfold passed. by destruct (target (dim D l)). Qed.
Lemma not_passed l : passed target Left l = false → target (dim D l) = Lt ∨ target (dim D l) = Eq.
Proof. unfold passed. destruct (target (dim D l)); auto. done. Qed.

Lemma scan_exact_before pre l :
  valid (pre ++ l) → descending (pre ++ l) → pre ≠ [] → target (dim D pre) = Lt →
  ∃ p, scan_items target Left true (dim D pre) l (map item_summary l) = (p, None).
Proof.
  revert pre. induction l as [|x l IH]; intros pre Hv Hd Hne Hlt; cbn [scan_items map]; [by eexists|].
  change (x :: l) with ([x] ++ l) in Hv, Hd. rewrite app_assoc in Hv, Hd.
  destruct (valid_app _ _ Hv) as [Hv1 _]. destruct (valid_app _ _ Hv1) as [_ Hvx].
  rewrite <- (measure_one x), dim_app by done.
  assert (target (dim D (pre ++ [x])) = Lt) as E.
  { apply (Hd pre [x]); [by apply prefix_app_r|done|done]. }
  rewrite E. apply IH; [done..|by destruct pre|done].
Qed.

Lemma scan_exact_ok pre l l1 x l2 :
  valid (pre ++ l) → descending (pre ++ l) → stop_at target Left pre l l1 x l2 →
  ∃ p, scan_items target Left true (dim D pre) l (map item_summary l)
    = (p, if is_eq (target (dim D (pre ++ l1 ++ [x])))
          then Some (x, dim D (pre ++ l1 ++ [x])) else None).
Proof.
  revert pre l1. induction l as [|y l IH]; intros pre l1 Hv Hd (El & Hr & Hp); [by destruct l1|].
  cbn [scan_items map].
  change (y :: l) with ([y] ++ l) in Hv, Hd. rewrite app_assoc in Hv, Hd.
  destruct (valid_app _ _ Hv) as [Hv1 _]. destruct (valid_app _ _ Hv1) as [_ Hvx].
  rewrite <- (measure_one y), dim_app by done.
  destruct l1 as [|z l1]; injection El as -> ->.
  - cbn [app] in *. destruct (not_passed _ Hp) as [E|E]; rewrite E; cbn [is_eq].
    + destruct (scan_exact_before (pre ++ [x]) l2) as [p ->]; [done|done|by destruct pre|done|].
      by exists p.
    + by eexists.
  - assert (target (dim D (pre ++ [z])) = Gt) as E.
    { destruct Hr as [Hr|Hr]; [by destruct pre|]. apply passed_gt in Hr.
      apply (Hd (pre ++ [z]) l1).
      - exists (x :: l2). by rewrite <- !app_assoc.
      - by destruct pre.
      - by rewrite <- app_assoc. }
    rewrite E. cbn [is_eq].
    destruct (IH (pre ++ [z]) l1) as [p Ep]; [done|done| |].
    { unfold stop_at. rewrite <- !app_assoc. cbn [app]. split_and!; [done| |done].
      by destruct Hr as [Hr|Hr]; [left|right]. }
    exists p. rewrite Ep, <- !app_assoc. done.
Qed.

Lemma find_iterate_exact fuel h pre t :
  sub h t → (h ≤ fuel)%nat → valid (pre ++ contents t) → descending (pre ++ contents t) →
  reached target Left pre → passed target Left (pre ++ contents t) = false →
  ∃ l1 x l2 p, stop_at target Left pre (contents t) l1 x l2 ∧
    find_iterate target Left fuel true (dim D pre) t
      = Some (p, if is_eq (target (dim D (pre ++ l1 ++ [x])))
                 then Some (x, dim D (pre ++ l1 ++ [x])) else None).
Proof.
  revert h pre t. induction fuel as [|fuel IH]; intros h pre t [Ht Hc] Hf Hv Hd Hr Hp;
    destruct t as [h0 s ss ts|s its ss], h as [|h]; try (by destruct Ht); try lia.
  1, 3: destruct Ht as (_ & -> & _); cbn [contents] in *;
    destruct (scan_items_ok target Left pre its) as (l1 & x & l2 & H1 & _); [done..|];
    destruct (scan_exact_ok pre its l1 x l2) as [p E]; [done..|];
    exists l1, x, l2, p; (split; [done|]); cbn [find_iterate]; by rewrite E.
  destruct Ht as (_ & Hne & _ & -> & _ & F). cbn [contents] in *.
  destruct (scan_children_ok target Left h pre ts) as (ts1 & t & ts2 & -> & E1 & _ & H1 & H2); [done..|].
  apply Forall_app in F as [_ [Hs _]%Forall_cons].
  cbn [find_iterate]. rewrite E1.
  rewrite flat_map_app in Hv, Hd. cbn [flat_map] in Hv, Hd. rewrite !app_assoc in Hv, Hd.
  destruct (IH h (pre ++ flat_map contents ts1) t) as (l1 & x & l2 & p & (Hl & R1 & R2) & ->);
    [done|lia|by apply valid_app in Hv as [? _]|by eapply descending_prefix|done|by rewrite <- app_assoc|].
  exists (flat_map contents ts1 ++ l1), x, (l2 ++ flat_map contents ts2), p.
  unfold stop_at. rewrite <- !app_assoc in *. split_and!; [|done..].
  rewrite flat_map_app. cbn [flat_map]. by rewrite Hl, <- !app_assoc.
Qed.

Lemma find_exact_ok t l :
  represents t l → valid l → descending l →
  ∃ start end_ r, find_exact target Left t = Some (start, end_, r) ∧
    match r with
    | Some x => ∃ l1 l2, l = l1 ++ x :: l2 ∧ target (dim D (l1 ++ [x])) = Eq
    | None => ∀ l1 x l2, l = l1 ++ x :: l2 → target (dim D (l1 ++ [x])) ≠ Eq
    end.
Proof.
  intros Hrep Hv Hd. pose proof (represents_summary _ _ Hrep) as Hs.
  pose proof (represents_empty _ _ Hrep) as He. destruct Hrep as [[h Ht] <-].
  unfold find_exact, find_from. rewrite Hs, (dim_measure D (contents t)). fold (passed target Left (contents t)).
  destruct (passed target Left (contents t)) eqn:E.
  { eexists _, _, None. split; [done|]. intros l1 x l2 El. apply passed_gt in E.
    rewrite (desc_gt (contents t) (l1 ++ [x]) l2); [done|done| |apply snoc_ne|];
      rewrite <- app_assoc; cbn [app]; rewrite <- El; done. }
  rewrite (wf_height h t Ht). destruct (decide (contents t = [])) as [Ec|Hne].
  - rewrite Ec. destruct t as [|s its ss]; [by apply He in Ec|]. cbn in Ec. subst its.
    destruct h; [|by destruct Ht]. eexists _, _, None. split; [done|]. by intros [].
  - destruct (find_iterate_exact h h [] t) as (l1 & x & l2 & p & (El & Hr & Hp) & H2);
      [done|lia|done|done|by left|done|].
    rewrite (dim_nil (D := D) (T := T)) in H2. rewrite H2. cbn [mbind option_bind app] in *.
    destruct (target (dim D (l1 ++ [x]))) eqn:Ex; cbn [is_eq].
    + eexists _, _, (Some x). split; [done|]. by exists l1, l2.
    + eexists _, _, None. split; [done|]. intros k1 y k2 Ek.
      assert (l1 ++ x :: l2 = k1 ++ y :: k2) as Eq by by rewrite <- El, <- Ek.
      destruct (decide (length k1 < length l1)%nat) as [Hlt|Hge].
      * (* before the stop: passed *)
        assert (∃ m, l1 = (k1 ++ [y]) ++ m) as [m ->].
        { exists (drop (S (length k1)) l1).
          apply (f_equal (take (S (length k1)))) in Eq.
          rewrite take_app_le in Eq by lia.
          replace (S (length k1)) with (length (k1 ++ [y])) in Eq at 2 by (rewrite length_app; cbn; lia).
          change (y :: k2) with ([y] ++ k2) in Eq. rewrite (app_assoc k1), take_app_length in Eq.
          rewrite <- Eq. by rewrite take_drop. }
        destruct Hr as [Hr|Hr]; [by destruct k1|]. apply passed_gt in Hr.
        rewrite (desc_gt (contents t) (k1 ++ [y]) m); [done|done| |apply snoc_ne|done].
        rewrite El. by apply prefix_app_r.
      * (* at or after the stop: before *)
        assert (∃ m, k1 ++ [y] = (l1 ++ [x]) ++ m) as [m Em].
        { exists (drop (S (length l1)) (k1 ++ [y])).
          apply (f_equal (take (S (length l1)))) in Eq.
          change (y :: k2) with ([y] ++ k2) in Eq. change (x :: l2) with ([x] ++ l2) in Eq.
          rewrite !app_assoc in Eq.
          rewrite (take_app_le (k1 ++ [y])) in Eq by (rewrite length_app; cbn; lia).
          replace (S (length l1)) with (length (l1 ++ [x])) in Eq at 1 by (rewrite length_app; cbn; lia).
          rewrite take_app_length in Eq. rewrite Eq. by rewrite take_drop. }
        rewrite Em. rewrite (desc_lt (contents t) (l1 ++ [x]) m); [done|done| |apply snoc_ne|done].
        rewrite <- Em. exists k2. by rewrite Ek, <- app_assoc.
    + by unfold passed in Hp; rewrite Ex in Hp.
Qed.
End exact.

Import SumTree.Example.

(* The items 0..39, each as long as its value: position 100 lies in item 14, which starts at 91. *)
#[export] Instance total_zero : DimensionZero Z Z.
Proof. done. Qed.
#[export] Instance total_laws : DimensionLaws Z Z Z.
Proof.
  split. intros l k _ _. assert (∀ l : list Z, dim Z l = dadd dzero (measure l)) as E by (by intros []). rewrite !E.
  cbn. unfold measure, sum.
  clear E. rewrite map_app, foldl_app. cbn. generalize (foldl Z.add 0 (map (λ x : Z, x) l)) as y.
  generalize (map (λ x : Z, x) k) as m. intros m.
  assert (∀ x, foldl Z.add x m = x + foldl Z.add 0 m) as E; [|intros y; rewrite (E y); lia].
  induction m as [|z m IH]; intros x; [cbn; lia|].
  change (foldl Z.add (x + z) m = x + foldl Z.add (0 + z) m).
  rewrite (IH (x + z)), (IH (0 + z)). lia.
Qed.

Lemma dim_nonneg (l : list Z) : Forall (λ x, 0 ≤ x) l → 0 ≤ dim Z l.
Proof.
  induction l as [|x l IH] using rev_ind; intros F; [by cbn|].
  rewrite Forall_app, Forall_singleton in F. destruct F as [F Hx].
  rewrite <- (dim_app (D := Z) l [x] (snoc_ne [] x) (ok _)). specialize (IH F).
  change (0 ≤ dim Z l + (0 + x)). lia.
Qed.

Lemma nonneg_monotone x b (l : list Z) :
  Forall (λ x, 0 ≤ x) l → monotone (D := Z) (Z.compare x) b l.
Proof.
  intros F k k' [m ->] _. unfold passed.
  rewrite !Forall_app in F. destruct F as [[_ F] _]. pose proof (dim_nonneg k' F) as H.
  assert (dim Z (k ++ k') = dim Z k + dim Z k') as ->.
  { destruct k' as [|y k']; [by rewrite app_nil_r, Z.add_0_r|].
    by rewrite <- (dim_app (D := Z) k (y :: k') ltac:(done) (ok _)). }
  destruct (Z.compare_spec x (dim Z k + dim Z k')), (Z.compare_spec x (dim Z k)), b;
    cbn; (done || lia).
Qed.

Lemma find_correct_witness :
  ∃ t, from_iter (upto 40) = Some t ∧
    find (D := Z) (Z.compare 100) Left t = Some (91, 105, Some 14).
Proof.
  destruct (represents_from_iter (upto 40) (ok _)) as (t & E & Ht).
  exists t. split; [done|].
  destruct (find_correct (D := Z) (Z.compare 100) Left t (upto 40) Ht (ok _))
    as (start & end_ & r & H & _ & _).
  - apply nonneg_monotone. vm_compute. repeat (constructor; [discriminate|]). constructor.
  - rewrite H. vm_compute in E. injection E as <-. rewrite <- H. reflexivity.
Defined.
End TreeFind.
