(* ===== verification/Cursor.v ===== *)
(** The cursor over a tree ([crates/sum_tree/src/cursor.rs]): a stack of nodes
    with an index into each, and the position of the current item in the
    chosen dimension. The stack is written with its top first; [None] is a
    panic, in particular a stack deeper than its 16 slots. *)
From S2P Require Import Prelude SumTree TreeFind.

Module Cursor.
Import SumTree.

Section operations.
Context {T U D : Type} `{!Summary U, !Item T U, !Dimension D U}.
Abbreviation tree := (node T U).

(** [crates/sum_tree/src/cursor.rs:7-18] StackEntry *)
Record entry := mk_entry { e_tree : tree; e_index : nat; e_position : D }.

(** [crates/sum_tree/src/cursor.rs:30-37] Cursor *)
Record t := mk {
  c_tree : tree; stack : list entry; position : D; did_seek : bool; at_end : bool;
}.

(** [crates/sum_tree/src/cursor.rs:32-32] Cursor::stack *)
Definition stack_capacity : nat := 16.
Definition stack_push (e : entry) (s : list entry) : option (list entry) :=
  if Nat.ltb (length s) stack_capacity then Some (e :: s) else None.

(** [crates/sum_tree/src/cursor.rs:64-73] Cursor::new *)
Definition new (tree : tree) : t := mk tree [] dzero false (SumTree.is_empty tree).

(** [crates/sum_tree/src/cursor.rs:75-80] Cursor::reset *)
Definition reset (c : t) : t := mk (c_tree c) [] dzero false (SumTree.is_empty (c_tree c)).

(** [crates/sum_tree/src/cursor.rs:82-84] Cursor::start *)
Definition start (c : t) : D := position c.

(** [crates/sum_tree/src/cursor.rs:388-393] Cursor::assert_did_seek *)
Definition assert_did_seek (c : t) : option unit := if did_seek c then Some tt else None.

(** The inner option is the result.
    [crates/sum_tree/src/cursor.rs:99-115] Cursor::item *)
Definition item (c : t) : option (option T) :=
  _ ← assert_did_seek c;
  match stack c with
  | e :: _ =>
      match e_tree e with
      | Leaf _ its _ =>
          if Nat.eqb (e_index e) (length its) then Some None
          else Some <$> its !! e_index e
      | Internal _ _ _ _ => None
      end
  | [] => Some None
  end.

(** [crates/sum_tree/src/cursor.rs:118-136] Cursor::item_summary *)
Definition item_summary_at (c : t) : option (option U) :=
  _ ← assert_did_seek c;
  match stack c with
  | e :: _ =>
      match e_tree e with
      | Leaf _ _ ss =>
          if Nat.eqb (e_index e) (length ss) then Some None
          else Some <$> ss !! e_index e
      | Internal _ _ _ _ => None
      end
  | [] => Some None
  end.

(** [crates/sum_tree/src/cursor.rs:87-95] Cursor::end *)
Definition end_ (c : t) : option D :=
  s ← item_summary_at c;
  match s with
  | Some s => Some (dadd (start c) s)
  | None => Some (start c)
  end.

(** The leaf after (before) the top one, found at the nearest ancestor that
    has another child on that side. *)
(** [crates/sum_tree/src/cursor.rs:162-174] Cursor::next_leaf *)
Fixpoint next_leaf (below : list entry) : option (option tree) :=
  match below with
  | [] => Some None
  | e :: below =>
      ts ← child_trees (e_tree e);
      if Nat.ltb (e_index e) (length ts - 1) then
        c ← ts !! (e_index e + 1)%nat; Some <$> leftmost_leaf (height c) c
      else next_leaf below
  end.
(** [crates/sum_tree/src/cursor.rs:200-212] Cursor::prev_leaf *)
Fixpoint prev_leaf (below : list entry) : option (option tree) :=
  match below with
  | [] => Some None
  | e :: below =>
      ts ← child_trees (e_tree e);
      if negb (Nat.eqb (e_index e) 0) then
        c ← ts !! (e_index e - 1)%nat; Some <$> rightmost_leaf (height c) c
      else prev_leaf below
  end.

(** [crates/sum_tree/src/cursor.rs:139-159] Cursor::next_item *)
Definition next_item (c : t) : option (option T) :=
  _ ← assert_did_seek c;
  match stack c with
  | e :: below =>
      its ← items (e_tree e);
      if Nat.eqb (e_index e) (length its - 1) then
        l ← next_leaf below;
        match l with
        | Some l => its ← items l; Some <$> head its
        | None => Some None
        end
      else Some <$> its !! (e_index e + 1)%nat
  | [] => if at_end c then Some None else SumTree.first (c_tree c)
  end.

(** [crates/sum_tree/src/cursor.rs:177-197] Cursor::prev_item *)
Definition prev_item (c : t) : option (option T) :=
  _ ← assert_did_seek c;
  match stack c with
  | e :: below =>
      its ← items (e_tree e);
      if Nat.eqb (e_index e) 0 then
        l ← prev_leaf below;
        match l with
        | Some l => its ← items l; Some <$> list.last its
        | None => Some None
        end
      else Some <$> its !! (e_index e - 1)%nat
  | [] => if at_end c then SumTree.last (c_tree c) else Some None
  end.

(** [slice[i..]] *)
Definition slice_from {A} (l : list A) (i : nat) : option (list A) :=
  if Nat.leb i (length l) then Some (drop i l) else None.

(** *** Moving forward *)

(** The summaries that the filter rejects, added to the positions of the entry and of the cursor.
    [crates/sum_tree/src/cursor.rs:330-339] Cursor::search_forward *)
Fixpoint skip_filtered (filter_node : U → bool) (ss : list U) (idx : nat) (epos pos : D) :
    nat * D * D :=
  match ss with
  | s :: ss =>
      if filter_node s then (idx, epos, pos)
      else skip_filtered filter_node ss (S idx) (dadd epos s) (dadd pos s)
  | [] => (idx, epos, pos)
  end.

(** One iteration of the loop, on the stack, the position and [descend].
    [crates/sum_tree/src/cursor.rs:316-381] Cursor::search_forward *)
Definition forward_step (filter_node : U → bool) (st : list entry * D * bool) :
    option (list entry * D * bool + list entry * D) :=
  let '(stack, pos, descend) := st in
  match stack with
  | [] => Some (inr ([], pos))
  | e :: below =>
      match e_tree e with
      | Internal _ _ css cts =>
          let '(idx, epos) := if descend then (e_index e, e_position e) else (S (e_index e), pos) in
          let '(idx, epos, pos) := skip_filtered filter_node (drop idx css) idx epos pos in
          match cts !! idx with
          | Some subtree =>
              stack ← stack_push (mk_entry subtree 0 pos) (mk_entry (e_tree e) idx epos :: below);
              Some (inl (stack, pos, true))
          | None => Some (inl (below, pos, false))
          end
      | Leaf _ _ ss =>
          '(idx, epos, pos) ←
            (if descend then Some (e_index e, e_position e, pos)
             else s ← ss !! e_index e; Some (S (e_index e), dadd (e_position e) s, dadd pos s));
          let '(idx, epos, pos) := skip_filtered filter_node (drop idx ss) idx epos pos in
          match ss !! idx with
          | Some _ => Some (inr (mk_entry (e_tree e) idx epos :: below, pos))
          | None => Some (inl (below, pos, false))
          end
      end
  end.

(** The iterations a traversal of a subtree takes: one on arrival, one on the
    return from each child. *)
Fixpoint visits (x : tree) : nat :=
  match x with
  | Leaf _ _ _ => 1
  | Internal _ _ _ ts => S (list_sum (map (λ x, S (visits x)) ts))
  end.

(** [crates/sum_tree/src/cursor.rs:296-385] Cursor::search_forward *)
Definition search_forward (filter_node : U → bool) (c : t) : option t :=
  '(stack0, descend, did_seek) ←
    match stack c with
    | [] =>
        if at_end c then Some ([], false, true)
        else s ← stack_push (mk_entry (c_tree c) 0 dzero) []; Some (s, true, true)
    | s => Some (s, false, did_seek c)
    end;
  '(stack, pos) ← iterate (forward_step filter_node) (S (S (visits (c_tree c))))
    (stack0, position c, descend);
  Some (mk (c_tree c) stack pos did_seek
    (match stack with [] => true | _ => at_end c end)).

(** [crates/sum_tree/src/cursor.rs:291-293] Cursor::next *)
Definition next (c : t) : option t := search_forward (λ _, true) c.

(** *** Moving backward *)

(** One iteration of the loop, on the stack, the position and [descending].
    [crates/sum_tree/src/cursor.rs:245-287] Cursor::search_backward *)
Definition backward_step (filter_node : U → bool) (st : list entry * D * bool) :
    option (list entry * D * bool + list entry * D) :=
  let '(stack, pos, descending) := st in
  match stack with
  | [] => Some (inr ([], pos))
  | e :: below =>
      let pos := match below with e' :: _ => e_position e' | [] => dzero end in
      match e_index e, descending with
      | O, false => Some (inl (below, pos, descending))
      | i, _ =>
          let idx := if descending then i else (i - 1)%nat in
          before ← (if Nat.leb idx (length (child_summaries (e_tree e)))
                    then Some (take idx (child_summaries (e_tree e))) else None);
          let pos := foldl dadd pos before in
          s ← child_summaries (e_tree e) !! idx;
          let descending := filter_node s in
          let stack := mk_entry (e_tree e) idx pos :: below in
          match e_tree e with
          | Internal _ _ _ cts =>
              if descending then
                tree ← cts !! idx;
                if Nat.eqb (length (child_summaries tree)) 0 then None else
                stack ← stack_push (mk_entry tree (length (child_summaries tree) - 1) dzero) stack;
                Some (inl (stack, pos, descending))
              else Some (inl (stack, pos, descending))
          | Leaf _ _ _ =>
              if descending then Some (inr (stack, pos)) else Some (inl (stack, pos, descending))
          end
      end
  end.

(** [crates/sum_tree/src/cursor.rs:221-288] Cursor::search_backward *)
Definition search_backward (fuel : nat) (filter_node : U → bool) (c : t) : option t :=
  let at_end0 := if did_seek c then at_end c else true in
  '(stack, pos, at_end) ←
    (if at_end0 then
       let at_end := SumTree.is_empty (c_tree c) in
       if at_end then Some (stack c, dzero, at_end)
       else
         s ← stack_push (mk_entry (c_tree c) (length (child_summaries (c_tree c)))
                (from_summary (summary (c_tree c)))) (stack c);
         Some (s, dzero, at_end)
     else Some (stack c, position c, at_end0));
  '(stack, pos) ← iterate (backward_step filter_node) fuel (stack, pos, false);
  Some (mk (c_tree c) stack pos true at_end).

(** [crates/sum_tree/src/cursor.rs:216-218] Cursor::prev *)
Definition prev (c : t) : option t :=
  search_backward (2 * (length (stack c) + height (c_tree c)) + 4) (λ _, true) c.
(** *** Seeking *)

(** What a seek does with the items it passes.
    [crates/sum_tree/src/cursor.rs:748-763] SeekAggregate *)
Record aggregate (A : Type) := mk_aggregate {
  begin_leaf : A → A;
  end_leaf : A → option A;
  push_item : A → T → U → option A;
  push_tree : A → tree → U → option A;
}.
Arguments begin_leaf {A}.
Arguments end_leaf {A}.
Arguments push_item {A}.
Arguments push_tree {A}.

(** [crates/sum_tree/src/cursor.rs:774-785] SeekAggregate for unit *)
Definition unit_aggregate : aggregate unit :=
  mk_aggregate unit (λ a, a) Some (λ a _ _, Some a) (λ a _ _, Some a).

(** [crates/sum_tree/src/cursor.rs:765-770] SliceSeekAggregate *)
Record slice_state := mk_slice {
  s_tree : tree; leaf_items : list T; leaf_item_summaries : list U; leaf_summary : U;
}.
(** [crates/sum_tree/src/cursor.rs:787-817] SeekAggregate for SliceSeekAggregate *)
Definition slice_aggregate : aggregate slice_state :=
  mk_aggregate slice_state
    (λ a, a)
    (λ a, t ← append (s_tree a) (Leaf (leaf_summary a) (leaf_items a) (leaf_item_summaries a));
          Some (mk_slice t [] [] zero))
    (λ a item summary,
       its ← array (leaf_items a ++ [item]);
       ss ← array (leaf_item_summaries a ++ [summary]);
       Some (mk_slice (s_tree a) its ss (add_summary (leaf_summary a) summary)))
    (λ a tree _,
       t ← append (s_tree a) tree;
       Some (mk_slice t (leaf_items a) (leaf_item_summaries a) (leaf_summary a))).

(** [crates/sum_tree/src/cursor.rs:819-841] SeekAggregate for SummarySeekAggregate *)
Definition summary_aggregate {O} `{!Dimension O U} : aggregate O :=
  mk_aggregate O (λ a, a) Some (λ a _ s, Some (dadd a s)) (λ a _ s, Some (dadd a s)).

Section seek.
Variable target : D → comparison.
Variable b : bias.
Context {A : Type} (agg : aggregate A).

(** The children the target is past; the child it is in, if any.
    [crates/sum_tree/src/cursor.rs:500-526] Cursor::seek_internal *)
Fixpoint seek_children (a : A) (pos epos : D) (idx : nat) (cts : list tree) (css : list U) :
    option (A * D * D * nat * option tree) :=
  match cts, css with
  | child_tree :: cts, s :: css =>
      let child_end := dadd pos s in
      if skips (target child_end) b then
        a ← push_tree agg a child_tree s;
        seek_children a child_end child_end (S idx) cts css
      else Some (a, pos, epos, idx, Some child_tree)
  | _, _ => Some (a, pos, epos, idx, None)
  end.

(** The items the target is past, and whether it stopped at one.
    [crates/sum_tree/src/cursor.rs:535-553] Cursor::seek_internal *)
Fixpoint seek_items (a : A) (pos : D) (idx : nat) (its : list T) (ss : list U) :
    option (A * D * nat * bool) :=
  match its, ss with
  | item :: its, s :: ss =>
      let child_end := dadd pos s in
      if skips (target child_end) b then
        a ← push_item agg a item s; seek_items a child_end (S idx) its ss
      else Some (a, pos, idx, true)
  | _, _ => Some (a, pos, idx, false)
  end.

(** One iteration of the outer loop, on the stack, the position, [ascending] and the aggregate.
    [crates/sum_tree/src/cursor.rs:488-561] Cursor::seek_internal *)
Definition seek_step (st : list entry * D * bool * A) :
    option (list entry * D * bool * A + list entry * D * A) :=
  let '(stack, pos, ascending, a) := st in
  match stack with
  | [] => Some (inr ([], pos, a))
  | e :: below =>
      match e_tree e with
      | Internal _ _ css cts =>
          let '(idx, epos) := if ascending then (S (e_index e), pos) else (e_index e, e_position e) in
          cts ← slice_from cts idx;
          css ← slice_from css idx;
          '(a, pos, epos, idx, child) ← seek_children a pos epos idx cts css;
          match child with
          | Some child_tree =>
              stack ← stack_push (mk_entry child_tree 0 pos) (mk_entry (e_tree e) idx epos :: below);
              Some (inl (stack, pos, false, a))
          | None => Some (inl (below, pos, true, a))
          end
      | Leaf _ its ss =>
          let a := begin_leaf agg a in
          its ← slice_from its (e_index e);
          ss ← slice_from ss (e_index e);
          '(a, pos, idx, stopped) ← seek_items a pos (e_index e) its ss;
          a ← end_leaf agg a;
          match stopped with
          | true => Some (inr (mk_entry (e_tree e) idx (e_position e) :: below, pos, a))
          | false => Some (inl (below, pos, true, a))
          end
      end
  end.

(** The cursor, the aggregate and whether the target is exactly at the end of the item found.
    A subtree is entered at most once.
    [crates/sum_tree/src/cursor.rs:465-574] Cursor::seek_internal *)
Definition seek_internal (a : A) (c : t) : option (t * A * bool) :=
  if is_lt (target (position c)) then None else
  '(stack, did_seek) ←
    (if did_seek c then Some (stack c, true)
     else s ← stack_push (mk_entry (c_tree c) 0 dzero) (stack c); Some (s, true));
  '(stack, pos, a) ←
    iterate seek_step (S (S (visits (c_tree c)))) (stack, position c, false, a);
  let c := mk (c_tree c) stack pos did_seek (match stack with [] => true | _ => false end) in
  s ← (if bool_decide (b = Left) then item_summary_at c else Some None);
  let end_ := match s with Some s => dadd pos s | None => pos end in
  Some (c, a, is_eq (target end_)).
End seek.

(** [crates/sum_tree/src/cursor.rs:408-414] Cursor::seek *)
Definition seek (target : D → comparison) (b : bias) (c : t) : option (t * bool) :=
  '(c, _, r) ← seek_internal target b unit_aggregate tt (reset c); Some (c, r).
(** [crates/sum_tree/src/cursor.rs:423-428] Cursor::seek_forward *)
Definition seek_forward (target : D → comparison) (b : bias) (c : t) : option (t * bool) :=
  '(c, _, r) ← seek_internal target b unit_aggregate tt c; Some (c, r).
(** [crates/sum_tree/src/cursor.rs:432-444] Cursor::slice *)
Definition slice (target : D → comparison) (b : bias) (c : t) : option (t * tree) :=
  '(c, s, _) ← seek_internal target b slice_aggregate (mk_slice SumTree.new [] [] zero) c;
  Some (c, s_tree s).
(** The target of [End] is after every position.
    [crates/sum_tree/src/cursor.rs:447-449] Cursor::suffix *)
Definition suffix (c : t) : option (t * tree) := slice (λ _, Gt) Right c.
(** [crates/sum_tree/src/cursor.rs:452-460] Cursor::summary *)
Definition summary {O} `{!Dimension O U} (target : D → comparison) (b : bias) (c : t) :
    option (t * O) :=
  '(c, s, _) ← seek_internal target b summary_aggregate dzero c; Some (c, s).

End operations.
Arguments entry : clear implicits.
Arguments t : clear implicits.
Arguments begin_leaf {T U A}.
Arguments end_leaf {T U A}.
Arguments push_item {T U A}.
Arguments push_tree {T U A}.
Arguments aggregate : clear implicits.

(** ** Where a cursor is *)
Section located.
Context {T U D : Type} `{!Summary U, !Item T U, !Dimension D U, !SummaryLaws T U,
  !Measured D T U, !Positions D T U}.
Abbreviation tree := (node T U).
Implicit Types (l k before after pre post : list T).

(** The ancestors of a subtree [x] of height [h]: [pre] and [post] are the
    items of the whole tree before and after it, and each entry records the
    position where its current child starts. *)
Inductive spine (root : tree) (hr : nat) : list (entry T U D) → nat → tree → list T → list T → Prop :=
  | spine_root : spine root hr [] hr root [] []
  | spine_child stk h h0 s ss ts i x pre post :
      spine root hr stk (S h) (Internal h0 s ss ts) pre post →
      ts !! i = Some x →
      spine root hr
        (mk_entry (Internal h0 s ss ts) i (dim D (pre ++ flat_map contents (take i ts))) :: stk)
        h x (pre ++ flat_map contents (take i ts)) (flat_map contents (drop (S i) ts) ++ post).

Lemma contents_split (ts : list tree) i x :
  ts !! i = Some x →
  flat_map contents ts
    = flat_map contents (take i ts) ++ contents x ++ flat_map contents (drop (S i) ts).
Proof.
  intros H. rewrite <- (take_drop i ts) at 1. rewrite flat_map_app. by rewrite (drop_S _ _ _ H).
Qed.

Lemma spine_ok root hr stk h x pre post :
  wf hr root → spine root hr stk h x pre post →
  wf h x ∧ contents root = pre ++ contents x ++ post ∧ (length stk + h = hr)%nat ∧
  (stk ≠ [] → contents x ≠ []).
Proof.
  intros Hw. induction 1 as [|stk h h0 s ss ts i x pre post Hs (Hwx & Hc & Hl & _) Hi].
  - split_and!; [done| |done|done]. by rewrite app_nil_r.
  - cbn [contents] in Hc. destruct Hwx as (-> & _ & _ & _ & _ & F).
    destruct (proj1 (Forall_lookup _ _) F i x Hi) as [Hx Hne]. split_and!; [done| | |done].
    + rewrite Hc, (contents_split ts i x Hi). by rewrite <- !app_assoc.
    + cbn [length]. lia.
Qed.

(** *** The iterations of the loops *)
(** Visits of the children from an index on. *)
Definition visits_from (ts : list tree) : nat := list_sum (map (λ x, S (visits x)) ts).

Lemma visits_internal h0 s ss (ts : list tree) : visits (Internal h0 s ss ts) = S (visits_from ts).
Proof. done. Qed.

Lemma visits_from_lookup (ts : list tree) idx j x :
  (idx ≤ j)%nat → ts !! j = Some x →
  (visits_from (drop (S j) ts) + S (visits x) ≤ visits_from (drop idx ts))%nat.
Proof.
  intros Hj Hx. rewrite <- (take_drop_middle _ _ _ Hx) at 2. pose proof (lookup_lt_Some _ _ _ Hx).
  rewrite drop_app_le by (rewrite length_take; lia). unfold visits_from. rewrite map_app, list_sum_app. cbn [map].
  match goal with |- context [list_sum (?a :: ?l)] =>
    change (list_sum (a :: l)) with (a + list_sum l)%nat end. lia.
Qed.

(** The iterations left in the ancestors. *)
Definition visits_above (stk : list (entry T U D)) : nat :=
  list_sum (map (λ e, match e_tree e with
    | Internal _ _ _ ts => S (visits_from (drop (S (e_index e)) ts))
    | Leaf _ _ _ => 0%nat end) stk).

Lemma visits_above_cons h0 s ss ts i epos stk :
  visits_above (mk_entry (Internal h0 s ss ts) i epos :: stk)
  = (S (visits_from (drop (S i) ts)) + visits_above stk)%nat.
Proof. done. Qed.

Lemma visits_above_bound root hr stk h x pre post :
  spine root hr stk h x pre post → (visits x + visits_above stk ≤ visits root)%nat.
Proof.
  induction 1 as [|stk h h0 s ss ts i x pre post Hs IH Hi]; [cbn; lia|].
  rewrite visits_internal in IH.
  assert (visits_from ts = (visits_from (take i ts) + S (visits x) + visits_from (drop (S i) ts))%nat)
    as Ev.
  { rewrite <- (take_drop_middle _ _ _ Hi) at 1. unfold visits_from.
    rewrite map_app, list_sum_app. cbn [map].
    match goal with |- context [list_sum (?a :: ?l)] =>
      change (list_sum (a :: l)) with (a + list_sum l)%nat end. lia. }
  unfold visits_above in *. cbn [map e_tree e_index].
  match goal with |- context [list_sum (?a :: ?l)] =>
    change (list_sum (a :: l)) with (a + list_sum l)%nat end. lia.
Qed.

(** The stack of a cursor that has [before] behind it and [after] ahead: on a
    leaf, at an existing item, or empty at the end. *)
Inductive at_item (root : tree) (hr : nat) : list (entry T U D) → list T → list T → Prop :=
  | at_item_leaf stk s its ss pre post i epos :
      spine root hr stk 0 (Leaf s its ss) pre post → (i < length its)%nat →
      at_item root hr (mk_entry (Leaf s its ss) i epos :: stk)
        (pre ++ take i its) (drop i its ++ post).
Definition located (root : tree) (hr : nat) (stk : list (entry T U D)) before after : Prop :=
  (stk = [] ∧ after = [] ∧ before = contents root) ∨ at_item root hr stk before after.

Lemma at_item_contents root hr stk before after :
  wf hr root → at_item root hr stk before after →
  contents root = before ++ after ∧ after ≠ [] ∧ stk ≠ [] ∧ (length stk = S hr)%nat.
Proof.
  intros Hw H. destruct H as [stk s its ss pre post i epos Hs Hi].
  destruct (spine_ok _ _ _ _ _ _ _ Hw Hs) as (_ & Hc & Hl & _). split_and!.
  - rewrite Hc. cbn [contents]. rewrite <- app_assoc, (app_assoc (take i its)). by rewrite take_drop.
  - intros E. apply app_eq_nil in E as [E _]. apply (f_equal length) in E.
    rewrite length_drop in E. simpl in E. lia.
  - done.
  - cbn [length]. lia.
Qed.

Lemma located_contents root hr stk before after :
  wf hr root → located root hr stk before after → contents root = before ++ after.
Proof.
  intros Hw [(_ & -> & ->)|H]; [by rewrite app_nil_r|]. by eapply at_item_contents.
Qed.

(** The item under the cursor and its summary. *)
Lemma at_item_top root hr stk before after :
  wf hr root → at_item root hr stk before after →
  ∃ e below s its ss i x rest, stk = e :: below ∧ e_tree e = Leaf s its ss ∧ e_index e = i ∧
    its !! i = Some x ∧ ss = map item_summary its ∧ after = x :: rest.
Proof.
  intros Hw H. destruct H as [stk s its ss pre post i epos Hs Hi].
  destruct (spine_ok _ _ _ _ _ _ _ Hw Hs) as ((_ & -> & _) & _).
  destruct (lookup_lt_is_Some_2 its i Hi) as [x Hx].
  eexists _, _, _, _, _, _, x, _. split_and!; [done..|]. by rewrite (drop_S _ _ _ Hx).
Qed.
End located.

(** ** Seeking *)

(** The aggregate [a] stands for the items [l] passed so far; inside a leaf,
    for [l] and the items [k] of the leaf. *)
Record aggregates {T U} `{!Summary U, !Item T U, !SummaryLaws T U} {A}
    (agg : aggregate T U A) (R : A → list T → Prop) (RL : A → list T → list T → Prop) : Prop := {
  ag_begin : ∀ a l, R a l → RL (begin_leaf agg a) l [];
  ag_item : ∀ a l k x, RL a l k → (length k < capacity)%nat → valid (l ++ k ++ [x]) →
    ∃ a', push_item agg a x (item_summary x) = Some a' ∧ RL a' l (k ++ [x]);
  ag_end : ∀ a l k, RL a l k → valid (l ++ k) → ∃ a', end_leaf agg a = Some a' ∧ R a' (l ++ k);
  ag_tree : ∀ a l h t, R a l → sub h t → valid (l ++ contents t) →
    ∃ a', push_tree agg a t (SumTree.summary t) = Some a' ∧ R a' (l ++ contents t);
}.

Section seek.
Context {T U D : Type} `{!Summary U, !Item T U, !Dimension D U, !SummaryLaws T U,
  !Measured D T U, !Positions D T U}.
Abbreviation tree := (node T U).
Implicit Types (l k before after pre post : list T).
Variable target : D → comparison.
Variable b : bias.
(** A sum that is too coarse is looked into. *)
Hypothesis clear : ∀ d, vague d → skips (target d) b = false.
Context {A : Type} (agg : aggregate T U A) (R : A → list T → Prop) (RL : A → list T → list T → Prop).
Hypothesis Hagg : aggregates agg R RL.
Abbreviation passed := (TreeFind.passed (D := D) target b).
Abbreviation step := (seek_step target b agg).

(** Where a seek over [l] stops: it passed [mid] and not the next item. *)
Definition stopped pre mid rest : Prop :=
  (mid = [] ∨ passed (pre ++ mid) = true) ∧
  ∀ x, head rest = Some x → passed (pre ++ mid ++ [x]) = false.

Lemma valid_mid l k m : valid (l ++ k ++ m) → valid (l ++ k) ∧ valid k.
Proof. rewrite app_assoc. intros [H ?]%valid_app. split; [done|]. by apply valid_app in H as [_ ?]. Qed.

Lemma seek_children_ok h pre l a epos idx ts :
  Forall (sub h) ts → valid (pre ++ flat_map contents ts) → valid (l ++ flat_map contents ts) →
  R a l → epos = dim D pre →
  ∃ a' ts1 ts2, ts = ts1 ++ ts2 ∧
    seek_children target b agg a (dim D pre) epos idx ts (map SumTree.summary ts)
      = Some (a', dim D (pre ++ flat_map contents ts1), dim D (pre ++ flat_map contents ts1),
              (idx + length ts1)%nat, head ts2) ∧
    R a' (l ++ flat_map contents ts1) ∧
    (flat_map contents ts1 = [] ∨ passed (pre ++ flat_map contents ts1) = true).
Proof.
  revert pre l a epos idx. induction ts as [|t ts IH]; intros pre l a epos idx Hf Hv Hvl HR ->.
  { exists a, [], []. cbn. rewrite !app_nil_r, Nat.add_0_r. split_and!; auto. }
  apply Forall_cons in Hf as [Ht Hf]. cbn [flat_map map seek_children] in *.
  destruct (valid_mid _ _ _ Hv) as [Hv1 _]. destruct (valid_mid _ _ _ Hvl) as [Hvl1 _].
  destruct (skips (target (dadd (dim D pre) (SumTree.summary t))) b) eqn:E.
  - rewrite (wf_summary h t) in E |- * by apply Ht.
    destruct (dim_or_vague (D := D) pre (contents t)) as [Ed|Ed]; [by apply Ht|done| |by rewrite clear in E].
    rewrite Ed in *. rewrite <- (wf_summary h t) by apply Ht.
    destruct (ag_tree _ _ _ Hagg a l h t) as (a1 & -> & HR1); [done..|].
    cbn [mbind option_bind]. rewrite app_assoc in Hv, Hvl.
    destruct (IH (pre ++ contents t) (l ++ contents t) a1 _ (S idx) Hf Hv Hvl HR1 eq_refl)
      as (a2 & ts1 & ts2 & -> & -> & HR2 & Hp).
    exists a2, (t :: ts1), ts2. cbn [flat_map length]. rewrite <- !app_assoc in *.
    rewrite Nat.add_succ_r. split_and!; [done..|].
    right. destruct Hp as [E1|E1]; [by rewrite E1, app_nil_r|done].
  - exists a, [], (t :: ts). cbn [flat_map app length head]. rewrite !app_nil_r, Nat.add_0_r.
    split_and!; [done..|by left].
Qed.

Lemma seek_items_ok pre l k a idx its :
  valid (pre ++ its) → valid (l ++ k ++ its) → (length k + length its ≤ capacity)%nat →
  RL a l k →
  ∃ a' l1 l2, its = l1 ++ l2 ∧
    seek_items target b agg a (dim D pre) idx its (map item_summary its)
      = Some (a', dim D (pre ++ l1), (idx + length l1)%nat, match l2 with [] => false | _ => true end) ∧
    RL a' l (k ++ l1) ∧ stopped pre l1 l2.
Proof.
  revert pre k a idx. induction its as [|x its IH]; intros pre k a idx Hv Hvl Hl HR.
  { exists a, [], []. cbn. rewrite !app_nil_r, Nat.add_0_r. split_and!; auto. by split; [left|]. }
  cbn [map seek_items length] in *.
  change (x :: its) with ([x] ++ its) in Hv, Hvl.
  destruct (valid_mid _ _ _ Hv) as [Hv1 Hvx]. rewrite (app_assoc k), (app_assoc l) in Hvl.
  destruct (valid_app _ _ Hvl) as [Hvl1 _].
  rewrite dim_item by done. fold (passed (pre ++ [x])).
  destruct (passed (pre ++ [x])) eqn:E.
  - destruct (ag_item _ _ _ Hagg a l k x) as (a1 & -> & HR1); [done|lia|done|].
    cbn [mbind option_bind]. rewrite app_assoc in Hv. rewrite <- app_assoc in Hvl.
    destruct (IH (pre ++ [x]) (k ++ [x]) a1 (S idx) Hv Hvl) as (a2 & l1 & l2 & -> & -> & HR2 & Hs & Hn);
      [rewrite length_app; cbn [length]; lia|done|].
    exists a2, (x :: l1), l2. cbn [length]. rewrite <- !app_assoc in *. rewrite Nat.add_succ_r.
    split_and!; [done..|]. split.
    + right. destruct Hs as [->|E1]; [done|done].
    + intros y Hy. specialize (Hn y Hy). by rewrite <- !app_assoc in *.
  - exists a, [], (x :: its). cbn [app length]. rewrite !app_nil_r, Nat.add_0_r.
    split_and!; [done..|]. split; [by left|]. by intros y [= <-].
Qed.

(** The state with which the loop is left. *)
Definition outcome root hr pre rest l (r : list (entry T U D) * D * A) : Prop :=
  let '(stk, pos, a) := r in
  ∃ mid rest', rest = mid ++ rest' ∧ R a (l ++ mid) ∧ pos = dim D (pre ++ mid) ∧
    stopped pre mid rest' ∧ located root hr stk (pre ++ mid) rest'.

Lemma outcome_shift root hr pre m rest l r :
  outcome root hr (pre ++ m) rest (l ++ m) r →
  (m = [] ∨ passed (pre ++ m) = true) → outcome root hr pre (m ++ rest) l r.
Proof.
  destruct r as [[stk pos] a]. intros (mid & rest' & -> & HR & -> & [Hs Hn] & Hl) Hm.
  exists (m ++ mid), rest'. rewrite <- !app_assoc in *. split_and!; [done..| |done]. split.
  - destruct Hs as [->|Hs].
    + rewrite app_nil_r. destruct Hm as [->|Hm]; [by left|right; by rewrite ?app_nil_r].
    + by right.
  - intros x Hx. specialize (Hn x Hx). by rewrite <- !app_assoc in *.
Qed.

(** What happens on a leaf from the index on. *)
Lemma leaf_step root hr stk s its ss pre post i epos asc l a :
  wf hr root → valid (contents root) → spine root hr stk 0 (Leaf s its ss) pre post →
  (i ≤ length its)%nat → R a l → valid (l ++ drop i its) →
  let st := (mk_entry (Leaf s its ss) i epos :: stk, dim D (pre ++ take i its), asc, a) in
  (∃ r, step st = Some (inr r) ∧
     outcome root hr (pre ++ take i its) (drop i its ++ post) l r) ∨
  (∃ a', step st = Some (inl (stk, dim D (pre ++ its), true, a')) ∧
     R a' (l ++ drop i its) ∧ (drop i its = [] ∨ passed (pre ++ its) = true)).
Proof.
  intros Hw Hv Hs Hi HR Hvl. destruct (spine_ok _ _ _ _ _ _ _ Hw Hs) as ((Hcap & -> & _) & Hc & _).
  cbn [contents] in Hc. rewrite Hc in Hv. cbn [seek_step e_tree e_index e_position].
  unfold slice_from. rewrite length_map, (proj2 (Nat.leb_le _ _)) by done. cbn [mbind option_bind].
  rewrite skipn_map.
  destruct (seek_items_ok (pre ++ take i its) l [] (begin_leaf agg a) i (drop i its))
    as (a1 & l1 & l2 & El & -> & HL & Hst).
  - rewrite <- app_assoc, take_drop. by apply valid_mid in Hv as [? _].
  - done.
  - rewrite length_drop. cbn [length]. lia.
  - by apply (ag_begin _ _ _ Hagg).
  - cbn [mbind option_bind app] in *.
    destruct (ag_end _ _ _ Hagg a1 l l1) as (a2 & -> & HR2); [done| |].
    { rewrite El in Hvl. by apply valid_mid in Hvl as [? _]. }
    cbn [mbind option_bind]. destruct l2 as [|x l2].
    + right. rewrite app_nil_r in El. rewrite <- El, <- app_assoc, take_drop in *. exists a2.
      split_and!; [done..|]. destruct Hst as [Hst _]. rewrite <- app_assoc, take_drop in Hst. done.
    + left. eexists. split; [done|]. exists l1, (x :: l2 ++ post). rewrite El, <- app_assoc.
      split_and!; [done..| |].
      * destruct Hst as [Hst Hn]. split; [done|]. intros y [= <-]. by apply Hn.
      * right.
        assert (take i its ++ l1 = take (i + length l1) its) as Et.
        { rewrite <- (take_drop i its) at 2. rewrite El.
          replace (i + length l1)%nat with (length (take i its) + length l1)%nat
            by (rewrite length_take; lia).
          by rewrite take_app_add, take_app_length. }
        assert (x :: l2 = drop (i + length l1) its) as Ed.
        { rewrite <- drop_drop, El. by rewrite drop_app_length. }
        rewrite <- app_assoc, Et. rewrite app_comm_cons, Ed.
        apply at_item_leaf; [done|].
        apply (f_equal length) in Ed. rewrite length_drop in Ed. cbn [length] in Ed. lia.
Qed.

Lemma stack_push_ok (e : entry T U D) stk :
  (length stk < 16)%nat → stack_push e stk = Some (e :: stk).
Proof. intros H. unfold stack_push, stack_capacity. by rewrite (proj2 (Nat.ltb_lt _ _)). Qed.

(** What happens on an internal node from the index on. *)
Lemma internal_step root hr stk h h0 s ss ts pre post i epos asc l a :
  wf hr root → (hr < 16)%nat → valid (contents root) →
  spine root hr stk (S h) (Internal h0 s ss ts) pre post →
  let idx := if asc : bool then S i else i in
  (idx ≤ length ts)%nat →
  (asc = true ∨ epos = dim D (pre ++ flat_map contents (take idx ts))) →
  R a l → valid (l ++ flat_map contents (drop idx ts)) →
  let st := (mk_entry (Internal h0 s ss ts) i epos :: stk,
             dim D (pre ++ flat_map contents (take idx ts)), asc, a) in
  (∃ j x m a', flat_map contents (take idx ts) ++ m = flat_map contents (take j ts) ∧
     m ++ contents x ++ flat_map contents (drop (S j) ts) = flat_map contents (drop idx ts) ∧
     step st = Some (inl (mk_entry x 0 (dim D (pre ++ flat_map contents (take j ts)))
       :: mk_entry (Internal h0 s ss ts) j (dim D (pre ++ flat_map contents (take j ts))) :: stk,
       dim D (pre ++ flat_map contents (take j ts)), false, a')) ∧
     spine root hr
       (mk_entry (Internal h0 s ss ts) j (dim D (pre ++ flat_map contents (take j ts))) :: stk)
       h x (pre ++ flat_map contents (take j ts)) (flat_map contents (drop (S j) ts) ++ post) ∧
     R a' (l ++ m) ∧ (m = [] ∨ passed (pre ++ flat_map contents (take j ts)) = true) ∧
     (idx ≤ j)%nat ∧ ts !! j = Some x) ∨
  (∃ a', step st = Some (inl (stk, dim D (pre ++ flat_map contents ts), true, a')) ∧
     R a' (l ++ flat_map contents (drop idx ts)) ∧
     (flat_map contents (drop idx ts) = [] ∨ passed (pre ++ flat_map contents ts) = true)).
Proof.
  intros Hw Hhr Hv Hs idx Hidx Hepos HR Hvl.
  destruct (spine_ok _ _ _ _ _ _ _ Hw Hs) as ((-> & Hne & Hcap & -> & _ & F) & Hc & Hl & _).
  cbn [contents] in Hc. rewrite Hc in Hv.
  assert (∀ j, flat_map contents (take j ts) ++ flat_map contents (drop j ts) = flat_map contents ts)
    as Etd by (intros; by rewrite <- flat_map_app, take_drop).
  assert (∃ ep, (if asc then (S i, dim D (pre ++ flat_map contents (take idx ts))) else (i, epos))
    = (idx, ep) ∧ ep = dim D (pre ++ flat_map contents (take idx ts))) as (ep & Eidx & ->).
  { subst idx. destruct asc; [by eexists|]. destruct Hepos as [?| ->]; [done|by eexists]. }
  cbn [seek_step e_tree e_index e_position]. rewrite Eidx.
  unfold slice_from. rewrite length_map, (proj2 (Nat.leb_le _ _)) by done. cbn [mbind option_bind].
  rewrite skipn_map.
  destruct (seek_children_ok h (pre ++ flat_map contents (take idx ts)) l a
      (dim D (pre ++ flat_map contents (take idx ts))) idx (drop idx ts))
    as (a' & ts1 & ts2 & E & -> & HR' & Hp).
  { by apply Forall_drop. }
  { rewrite <- app_assoc, Etd. by apply valid_mid in Hv as [? _]. }
  { done. }
  { done. }
  { done. }
  cbn [mbind option_bind]. rewrite <- !app_assoc in Hp |- *. rewrite <- flat_map_app in Hp |- *.
  assert (ts = take idx ts ++ ts1 ++ ts2) as Ets by by rewrite <- E, take_drop.
  assert (length (take idx ts) = idx) as Elen by (rewrite length_take; lia).
  assert (take (idx + length ts1) ts = take idx ts ++ ts1) as Ej.
  { rewrite Ets at 1. rewrite app_assoc, <- Elen at 1. rewrite <- length_app. apply take_app_length. }
  destruct ts2 as [|x ts2]; cbn [head].
  - right. exists a'. rewrite app_nil_r in E, Ets. rewrite <- E in HR', Hp |- *.
    rewrite take_drop in Hp |- *. done.
  - left. exists (idx + length ts1)%nat, x, (flat_map contents ts1), a'.
    assert (ts !! (idx + length ts1)%nat = Some x) as Hx.
    { rewrite Ets, app_assoc. apply list_lookup_middle. rewrite length_app. lia. }
    assert (drop (S (idx + length ts1)) ts = ts2) as Ed.
    { rewrite Ets at 1. rewrite app_assoc. change (x :: ts2) with ([x] ++ ts2). rewrite app_assoc.
      rewrite drop_app_length'; [done|]. rewrite !length_app. cbn [length]. lia. }
    rewrite Ed, Ej, stack_push_ok by (cbn [length]; lia). cbn [mbind option_bind].
    split_and!; try done.
    + by rewrite flat_map_app.
    + by rewrite E, flat_map_app.
    + rewrite <- Ej, <- Ed. by apply spine_child.
    + lia.
Qed.

(** Entering a subtree: the loop stops inside or passes all of it. *)
Definition enter_ok root hr h : Prop :=
  ∀ x stk pre post l a, spine root hr stk h x pre post → R a l → valid (l ++ contents x) →
    let st := (mk_entry x 0 (dim D pre) :: stk, dim D pre, false, a) in
    (∃ n st' r, (n < visits x)%nat ∧ reaches step n st st' ∧ step st' = Some (inr r) ∧
       outcome root hr pre (contents x ++ post) l r) ∨
    (∃ n a', (n ≤ visits x)%nat ∧ reaches step n st (stk, dim D (pre ++ contents x), true, a') ∧
       R a' (l ++ contents x) ∧ (contents x = [] ∨ passed (pre ++ contents x) = true)).

(** An internal node, from the index on. *)
Lemma node_seek root hr h stk h0 s ss ts pre post m :
  wf hr root → (hr < 16)%nat → valid (contents root) → enter_ok root hr h →
  spine root hr stk (S h) (Internal h0 s ss ts) pre post →
  ∀ asc i epos l a,
  let idx := if asc : bool then S i else i in
  (length ts - idx ≤ m)%nat → (idx ≤ length ts)%nat →
  (asc = true ∨ epos = dim D (pre ++ flat_map contents (take idx ts))) →
  R a l → valid (l ++ flat_map contents (drop idx ts)) →
  let st := (mk_entry (Internal h0 s ss ts) i epos :: stk,
             dim D (pre ++ flat_map contents (take idx ts)), asc, a) in
  (∃ n st' r, (n < S (visits_from (drop idx ts)))%nat ∧ reaches step n st st' ∧ step st' = Some (inr r) ∧
     outcome root hr (pre ++ flat_map contents (take idx ts)) (flat_map contents (drop idx ts) ++ post) l r) ∨
  (∃ n a', (n ≤ S (visits_from (drop idx ts)))%nat ∧
     reaches step n st (stk, dim D (pre ++ flat_map contents ts), true, a') ∧
     R a' (l ++ flat_map contents (drop idx ts)) ∧
     (flat_map contents (drop idx ts) = [] ∨ passed (pre ++ flat_map contents ts) = true)).
Proof.
  intros Hw Hhr Hv Henter Hs. induction m as [m IH] using lt_wf_ind.
  intros asc i epos l a idx Hm Hidx Hepos HR Hvl st.
  destruct (internal_step root hr stk h h0 s ss ts pre post i epos asc l a)
    as [(j & x & mid & a' & E1 & E2 & Hstep & Hs' & HR' & Hmid & Hj & Hx)|(a' & Hstep & HR' & Hp)]; [done..| |].
  - fold idx st in Hstep, Hj, E1, E2. pose proof (visits_from_lookup ts idx j x Hj Hx) as Hvis.
    pose proof (lookup_lt_Some _ _ _ Hx) as Hjlt.
    rewrite <- E2 in Hvl |- *.
    assert (pre ++ flat_map contents (take j ts) = (pre ++ flat_map contents (take idx ts)) ++ mid) as Epre
      by (by rewrite <- app_assoc, E1).
    destruct (Henter x _ _ _ (l ++ mid) a' Hs' HR') as [(n & st' & r & Hn & Hr & Hst & Ho)|(n & a2 & Hn & Hr & HR2 & Hp2)].
    { rewrite !app_assoc in Hvl. by apply valid_app in Hvl as [? _]. }
    + left. exists (S n), st', r. split_and!; [lia| |done|].
      * eapply reaches_step; [exact Hstep|exact Hr].
      * rewrite <- !app_assoc. apply outcome_shift; rewrite <- Epre; done.
    + assert ((pre ++ flat_map contents (take j ts)) ++ contents x = pre ++ flat_map contents (take (S j) ts)) as EposS.
      { rewrite (take_S_r _ _ _ Hx), flat_map_app. cbn. by rewrite app_nil_r, app_assoc. }
      rewrite EposS in Hr, Hp2.
      destruct (IH (length ts - S j)%nat ltac:(lia) true j (dim D (pre ++ flat_map contents (take j ts)))
          ((l ++ mid) ++ contents x) a2)
        as [(n2 & st' & r & Hn2 & Hr2 & Hst & Ho)|(n2 & a3 & Hn2 & Hr2 & HR3 & Hp3)];
        [lia|lia|by left|done|by rewrite <- !app_assoc|..].
      * left. exists (S (n + n2))%nat, st', r. split_and!; [lia| |done|].
        -- eapply reaches_step; [exact Hstep|]. by eapply reaches_trans.
        -- rewrite <- !app_assoc. rewrite <- EposS, Epre in Ho.
           apply outcome_shift; [apply outcome_shift; [done|]|by rewrite <- Epre].
           by rewrite <- Epre, EposS.
      * right. exists (S (n + n2))%nat, a3. split_and!; [lia| | |].
        -- eapply reaches_step; [exact Hstep|]. by eapply reaches_trans.
        -- by rewrite <- !app_assoc in *.
        -- destruct Hp3 as [Hp3|Hp3]; [|by right].
           assert (flat_map contents ts = flat_map contents (take (S j) ts)) as ->.
           { rewrite <- (take_drop (S j) ts) at 1. by rewrite flat_map_app, Hp3, app_nil_r. }
           rewrite Hp3, app_nil_r. destruct Hp2 as [Hp2|Hp2]; [|by right].
           rewrite Hp2, app_nil_r in *. rewrite <- EposS. by destruct Hmid as [->|Hmid]; [left|right].
  - right. exists 1%nat, a'. split_and!; [lia| |done|done]. eapply reaches_step; [exact Hstep|apply reaches_refl].
Qed.

Lemma enter_subtree root hr h :
  wf hr root → (hr < 16)%nat → valid (contents root) → enter_ok root hr h.
Proof.
  intros Hw Hhr Hv. induction h as [|h IH]; intros x stk pre post l a Hs HR Hvl;
    destruct (spine_ok _ _ _ _ _ _ _ Hw Hs) as (Hwx & Hc & _ & _);
    destruct x as [h0 s ss ts|s its ss]; try by destruct Hwx.
  - destruct (leaf_step root hr stk s its ss pre post 0 (dim D pre) false l a)
      as [(r & Hr & Ho)|(a' & Hr & HR' & Hp)]; [done|done|done|lia|done|done|..];
      rewrite ?drop_0, ?take_0, ?app_nil_r in *.
    + left. eexists 0%nat, _, r. split_and!; [cbn; lia|apply reaches_refl|exact Hr|exact Ho].
    + right. exists 1%nat, a'. split_and!; [cbn; lia| |done|done]. eapply reaches_step; [exact Hr|apply reaches_refl].
  - destruct (node_seek root hr h stk h0 s ss ts pre post (length ts) Hw Hhr Hv IH Hs
        false 0 (dim D pre) l a) as [H|H];
      [lia|lia|right; cbn; by rewrite app_nil_r|done|done|left|right];
      rewrite ?take_0, ?drop_0 in *; cbn [flat_map] in *; rewrite ?app_nil_r in *;
      by rewrite visits_internal.
Qed.

(** Going on after a subtree that was passed entirely. *)
Lemma climb root hr stk h x pre post l a :
  wf hr root → (hr < 16)%nat → valid (contents root) →
  spine root hr stk h x pre post → R a l → valid (l ++ post) →
  ∃ n st' r, (n ≤ visits_above stk)%nat ∧ reaches step n (stk, dim D (pre ++ contents x), true, a) st' ∧
    step st' = Some (inr r) ∧ outcome root hr (pre ++ contents x) post l r.
Proof.
  intros Hw Hhr Hv Hs. revert l a.
  induction Hs as [|stk h h0 s ss ts i x pre post Hs IH Hi]; intros l a HR Hvl.
  - eexists 0%nat, _, ([], _, a). split_and!; [lia|apply reaches_refl|done|].
    exists [], []. rewrite !app_nil_r. cbn [app]. split_and!; [done..| |by left].
    split; [by left|done].
  - pose proof (lookup_lt_Some _ _ _ Hi) as Hlt.
    assert ((pre ++ flat_map contents (take i ts)) ++ contents x
      = pre ++ flat_map contents (take (S i) ts)) as Epos.
    { rewrite (take_S_r _ _ _ Hi), flat_map_app. cbn. by rewrite app_nil_r, app_assoc. }
    rewrite Epos. rewrite visits_above_cons. rewrite app_assoc in Hvl. destruct (valid_app _ _ Hvl) as [Hvl1 _].
    destruct (node_seek root hr h stk h0 s ss ts pre post (length ts) Hw Hhr Hv
        (enter_subtree root hr h Hw Hhr Hv) Hs true i (dim D (pre ++ flat_map contents (take i ts))) l a)
      as [(n & st' & r & Hn & Hr & Hst & Ho)|(n & a' & Hn & Hr & HR' & Hp)]; [lia|lia|by left|done|done|..].
    + exists n, st', r. split_and!; [lia|done..].
    + destruct (IH (l ++ flat_map contents (drop (S i) ts)) a') as (n2 & st' & r & Hn2 & Hr2 & Hst & Ho); [done|done|].
      exists (n + n2)%nat, st', r. cbn [contents] in *. split_and!; [lia| |done|].
      * by eapply reaches_trans.
      * assert (pre ++ flat_map contents ts
          = (pre ++ flat_map contents (take (S i) ts)) ++ flat_map contents (drop (S i) ts)) as Ets
          by (by rewrite <- app_assoc, <- flat_map_app, take_drop).
        rewrite Ets in Ho, Hp. by apply outcome_shift.
Qed.

(** Starting at the root. *)
Lemma enter root hr l a :
  wf hr root → (hr < 16)%nat → valid (contents root) → R a l → valid (l ++ contents root) →
  ∃ n st' r, (n ≤ visits root)%nat ∧
    reaches step n ([mk_entry root 0 (dim D [])], dim D [], false, a) st' ∧
    step st' = Some (inr r) ∧ outcome root hr [] (contents root) l r.
Proof.
  intros Hw Hhr Hv HR Hvl.
  destruct (enter_subtree root hr hr Hw Hhr Hv root [] [] [] l a (spine_root root hr) HR Hvl)
    as [(n & st' & r & Hn & Hr & Hst & Ho)|(n & a' & Hn & Hr & HR' & Hp)].
  - rewrite app_nil_r in Ho. exists n, st', r. split_and!; [lia|done..].
  - eexists n, _, ([], dim D (contents root), a'). split_and!; [done|exact Hr|done|].
    exists (contents root), []. rewrite !app_nil_r. cbn [app]. split_and!; [done..| |by left]. by split.
Qed.
End seek.

(** ** The cursor between its operations *)
Section positioned.
Context {T U D : Type} `{!Summary U, !Item T U, !Dimension D U, !SummaryLaws T U,
  !Measured D T U, !Positions D T U}.
Implicit Types (l k before after : list T) (c : t T U D).

(** The cursor has [before] behind it and [after] ahead, in a tree whose
    height fits its stack. *)
Inductive positioned c before after : Prop :=
  | Build_positioned h :
      wf h (c_tree c) → (h < stack_capacity)%nat → valid (contents (c_tree c)) →
      did_seek c = true → position c = dim D before →
      located (c_tree c) h (stack c) before after →
      at_end c = match stack c with [] => true | _ => false end →
      positioned c before after.

(** A cursor that has not moved yet. *)
Inductive fresh c l : Prop :=
  | Build_fresh h :
      wf h (c_tree c) → contents (c_tree c) = l → (h < stack_capacity)%nat → valid l →
      did_seek c = false → stack c = [] → position c = dzero →
      at_end c = SumTree.is_empty (c_tree c) → fresh c l.

Lemma p_position c before after : positioned c before after → position c = dim D before.
Proof. by intros []. Qed.
Lemma f_position c l : fresh c l → position c = dzero.
Proof. by intros []. Qed.

Lemma positioned_contents c before after :
  positioned c before after → contents (c_tree c) = before ++ after.
Proof. intros [h ? ? ? ? ? ? ?]. by eapply located_contents. Qed.
Lemma positioned_valid c before after : positioned c before after → valid (before ++ after).
Proof. intros H. rewrite <- (positioned_contents _ _ _ H). by destruct H. Qed.

Lemma new_fresh (x : node T U) l h :
  wf h x → contents x = l → (h < stack_capacity)%nat → valid l → fresh (new x) l.
Proof. intros Hw Hc Hh Hv. by apply (Build_fresh _ _ h). Qed.
Lemma reset_fresh c before after : positioned c before after → fresh (reset c) (before ++ after).
Proof.
  intros H. pose proof (positioned_contents _ _ _ H) as HC. destruct H as [h ? ? ? ? ? ? ?].
  apply (Build_fresh _ _ h); try done. by rewrite <- HC.
Qed.

Lemma item_ok c before after : positioned c before after → item c = Some (head after).
Proof.
  intros [h Hw Hh Hv Hs Hp Hl He]. unfold item, assert_did_seek. rewrite Hs. cbn [mbind option_bind].
  destruct Hl as [(-> & -> & _)|Hl]; [done|].
  destruct (at_item_top _ _ _ _ _ Hw Hl) as (e & below & s & its & ss & i & x & rest & -> & -> & -> & Hx & -> & ->).
  pose proof (lookup_lt_Some _ _ _ Hx). rewrite (proj2 (Nat.eqb_neq _ _)) by lia. by rewrite Hx.
Qed.

Lemma item_summary_ok c before after :
  positioned c before after → item_summary_at c = Some (item_summary <$> head after).
Proof.
  intros [h Hw Hh Hv Hs Hp Hl He]. unfold item_summary_at, assert_did_seek. rewrite Hs.
  cbn [mbind option_bind]. destruct Hl as [(-> & -> & _)|Hl]; [done|].
  destruct (at_item_top _ _ _ _ _ Hw Hl) as (e & below & s & its & ss & i & x & rest & -> & -> & -> & Hx & -> & ->).
  pose proof (lookup_lt_Some _ _ _ Hx). rewrite length_map, (proj2 (Nat.eqb_neq _ _)) by lia.
  rewrite list_lookup_fmap, Hx. done.
Qed.

Lemma end_ok c before after :
  positioned c before after →
  end_ c = Some (dim D (before ++ match after with x :: _ => [x] | [] => [] end)).
Proof.
  intros H. unfold end_, start. rewrite (item_summary_ok _ _ _ H). cbn [mbind option_bind].
  pose proof (positioned_valid _ _ _ H) as Hv. rewrite (p_position _ _ _ H).
  destruct after as [|x after]; cbn; [by rewrite app_nil_r|].
  change (x :: after) with ([x] ++ after) in Hv. rewrite app_assoc in Hv.
  destruct (valid_app _ _ Hv) as [Hv1 _]. by rewrite dim_item.
Qed.

Section seek.
Variable target : D → comparison.
Variable b : bias.
Hypothesis clear : ∀ d, vague d → skips (target d) b = false.
Abbreviation passed := (TreeFind.passed (D := D) target b).
Context {A : Type} (agg : aggregate T U A) (R : A → list T → Prop) (RL : A → list T → list T → Prop).
Hypothesis Hagg : aggregates agg R RL.

(** The cursor is either somewhere or fresh at the start. *)
Definition ready c before after : Prop :=
  positioned c before after ∨ (before = [] ∧ fresh c after).

Lemma seek_internal_ok c before after a l :
  ready c before after → target (dim D before) ≠ Lt →
  R a l → valid (l ++ after) →
  ∃ c' a' mid after',
    seek_internal target b agg a c =
      Some (c', a', is_eq (target (dim D (before ++ mid ++
        match b, after' with Left, x :: _ => [x] | _, _ => [] end)))) ∧
    c_tree c' = c_tree c ∧ after = mid ++ after' ∧ R a' (l ++ mid) ∧
    stopped target b before mid after' ∧ positioned c' (before ++ mid) after'.
Proof.
  intros Hc Ht HR Hvl. unfold seek_internal.
  assert (position c = dim D before) as Hpos.
  { destruct Hc as [Hc|[-> Hc]]; [by apply p_position in Hc|].
    rewrite (f_position _ _ Hc). by rewrite dim_start. }
  rewrite Hpos. destruct (is_lt (target (dim D before))) eqn:El; [by destruct (target _)|].
  assert (∃ stk h n st' r,
    (if did_seek c then Some (stack c, true)
     else s ← stack_push (mk_entry (c_tree c) 0 dzero) (stack c); Some (s, true)) = Some (stk, true) ∧
    wf h (c_tree c) ∧ (h < stack_capacity)%nat ∧ valid (contents (c_tree c)) ∧
    (n ≤ visits (c_tree c))%nat ∧
    reaches (seek_step target b agg) n (stk, dim D before, false, a) st' ∧
    seek_step target b agg st' = Some (inr r) ∧
    outcome target b R (c_tree c) h before after l r) as
    (stk & h & n & st' & r & -> & Hw & Hh & Hv & Hn & Hreach & Hst & Ho).
  { destruct Hc as [[h Hw Hh Hv Hs _ Hl He]|[-> [h Hw Hcont Hh Hv Hs Hk _ _]]]; rewrite Hs.
    - exists (stack c), h. destruct Hl as [(-> & -> & ->)|Hl].
      + eexists 0%nat, _, ([], _, a). split_and!; [done..|lia|apply reaches_refl|done|].
        exists [], []. rewrite !app_nil_r. split_and!; [done..| |by left]. split; [by left|done].
      + destruct Hl as [stk s its ss pre post i epos Hsp Hi].
        rewrite app_assoc in Hvl. destruct (valid_app _ _ Hvl) as [Hvl1 _].
        destruct (leaf_step target b agg R RL Hagg (c_tree c) h stk s its ss pre post i epos false l a)
          as [(r & Hr & Hout)|(a' & Hstep & HR' & Hp)]; [done|done|done|lia|done|done|..].
        * eexists 0%nat, _, r. split_and!; [done..|lia|apply reaches_refl|exact Hr|exact Hout].
        * destruct (climb target b clear agg R RL Hagg (c_tree c) h stk 0 (Leaf s its ss) pre post
            (l ++ drop i its) a') as (n & st' & r & Hn & Hreach & Hst & Hout); [done..|].
          pose proof (visits_above_bound _ _ _ _ _ _ _ Hsp) as Hvis. cbn [visits] in Hvis.
          exists (S n), st', r. split_and!; [done..|lia| |done|].
          -- eapply reaches_step; [exact Hstep|exact Hreach].
          -- cbn [contents] in Hout.
             assert (pre ++ its = (pre ++ take i its) ++ drop i its) as Eits
               by (by rewrite <- app_assoc, take_drop).
             rewrite Eits in Hout, Hp. by apply outcome_shift.
    - exists [mk_entry (c_tree c) 0 dzero], h. rewrite Hk.
      destruct (enter target b clear agg R RL Hagg (c_tree c) h l a) as (n & st' & r & Hn & Hreach & Hst & Hout);
        [done|done|by rewrite Hcont|done|by rewrite Hcont|].
      rewrite dim_start in Hreach.
      exists n, st', r. rewrite Hcont in *. by rewrite dim_start. }
  cbn [mbind option_bind].
  rewrite (iterate_exit _ _ _ _ _ _ Hreach Hst) by lia.
  destruct r as [[stk' pos'] a']. cbn [mbind option_bind].
  destruct Ho as (mid & after' & -> & HR' & -> & Hstop & Hloc).
  set (c' := mk (c_tree c) stk' (dim D (before ++ mid)) true (match stk' with [] => true | _ => false end)).
  assert (positioned c' (before ++ mid) after') as Hp' by by apply (Build_positioned _ _ _ h).
  exists c', a', mid, after'. split_and!; try done.
  rewrite (item_summary_ok _ _ _ Hp'). rewrite !app_assoc.
  pose proof (end_ok _ _ _ Hp') as Eend. unfold end_, start in Eend.
  rewrite (item_summary_ok _ _ _ Hp') in Eend. cbn [mbind option_bind position c'] in Eend.
  destruct b; cbn [bool_decide decide_rel].
  - rewrite bool_decide_eq_true_2 by done. cbn [mbind option_bind].
    destruct after' as [|x after']; cbn in *; injection Eend as Eend; by rewrite Eend.
  - rewrite bool_decide_eq_false_2 by done. cbn [mbind option_bind]. by rewrite !app_nil_r.
Qed.
End seek.
End positioned.

(** ** The three aggregates *)
Section aggregates.
Context {T U : Type} `{!Summary U, !Item T U, !SummaryLaws T U}.
Implicit Types (l k : list T).

Lemma unit_aggregates : aggregates (unit_aggregate (T := T) (U := U)) (λ _ _, True) (λ _ _ _, True).
Proof. split; intros; eauto. Qed.

Definition slice_repr (a : slice_state (T := T) (U := U)) l : Prop :=
  represents (s_tree a) l ∧ leaf_items a = [] ∧ leaf_item_summaries a = [] ∧ leaf_summary a = zero.
Definition slice_leaf (a : slice_state (T := T) (U := U)) l k : Prop :=
  represents (s_tree a) l ∧ leaf_items a = k ∧ leaf_item_summaries a = map item_summary k ∧
  leaf_summary a = measure k ∧ (length k ≤ capacity)%nat.

Lemma slice_aggregates : aggregates slice_aggregate slice_repr slice_leaf.
Proof.
  split.
  - intros a l (H1 & H2 & H3 & H4). by split_and!; [..|unfold TREE_BASE; cbn; lia].
  - intros a l k x (H1 & H2 & H3 & H4 & H5) Hl Hv. cbn.
    rewrite H2, H3. rewrite !array_ok by (rewrite length_app, ?length_map; cbn [length]; lia).
    cbn [mbind option_bind]. eexists. split; [done|]. split_and!; cbn [s_tree leaf_items leaf_item_summaries leaf_summary].
    + done.
    + done.
    + by rewrite map_app.
    + unfold measure. rewrite H4, map_app. cbn. by rewrite sum_snoc.
    + rewrite length_app. cbn [length]. lia.
  - intros a l k (H1 & H2 & H3 & H4 & H5) Hv. cbn. rewrite H2, H3, H4.
    destruct (represents_append (s_tree a) (Leaf (measure k) k (map item_summary k)) l k) as (t & -> & Ht);
      [done| |done|].
    { split; [|done]. by exists 0%nat. }
    cbn [mbind option_bind]. eexists. split; [done|]. by split_and!.
  - intros a l h t (H1 & H2 & H3 & H4) [Ht _] Hv. cbn.
    destruct (represents_append (s_tree a) t l (contents t)) as (t' & -> & Ht'); [done| |done|].
    { split; [|done]. by exists h. }
    cbn [mbind option_bind]. eexists. split; [done|]. by split_and!.
Qed.

Lemma slice_start : slice_repr (mk_slice SumTree.new [] [] zero) [].
Proof. split_and!; [apply represents_new|done..]. Qed.

Lemma summary_aggregates O `{!Dimension O U, !DimensionLaws O T U} :
  aggregates (T := T) (summary_aggregate (O := O)) (λ a l, a = dim O l) (λ a l k, a = dim O (l ++ k)).
Proof.
  split.
  - intros a l ->. by rewrite app_nil_r.
  - intros a l k x -> Hl Hv. cbn. eexists. split; [done|].
    rewrite app_assoc in Hv |- *. destruct (valid_app _ _ Hv) as [_ Hvx].
    by rewrite <- (measure_one x), dim_app.
  - intros a l k -> Hv. by eexists.
  - intros a l h t -> [Ht Hne] Hv. cbn. eexists. split; [done|].
    by rewrite (wf_summary h t Ht), dim_app.
Qed.
End aggregates.

(** ** What the moves do *)
(** With sums that may be too coarse for the target, [slice] still finds its place. *)
Lemma slice_clear_ok {T U D} `{!Summary U, !Item T U, !Dimension D U, !SummaryLaws T U, !Measured D T U, !Positions D T U}
    (target : D → comparison) b (c : t T U D) before after :
  (∀ d, vague d → skips (target d) b = false) →
  ready c before after → target (dim D before) ≠ Lt →
  ∃ c' x mid after', slice target b c = Some (c', x) ∧ represents x mid ∧
    after = mid ++ after' ∧ stopped target b before mid after' ∧ positioned c' (before ++ mid) after'.
Proof.
  intros Hclear Hc Ht.
  assert (valid after) as Hv.
  { destruct Hc as [Hc|[_ Hc]]; [|by destruct Hc].
    apply positioned_valid in Hc. by apply valid_app in Hc as [_ ?]. }
  destruct (seek_internal_ok target b Hclear _ _ _ slice_aggregates c before after (mk_slice SumTree.new [] [] zero) [])
    as (c' & a' & mid & after' & E & _ & -> & HR & Hs & Hp); [done|done|apply slice_start|done|].
  exists c', (s_tree a'), mid, after'. unfold slice. rewrite E. by destruct HR.
Qed.
Lemma exact_clear {T U D} `{!Summary U, !Item T U, !Dimension D U, !SummaryLaws T U, !DimensionLaws D T U}
    (target : D → comparison) b d :
  vague (T := T) d → skips (target d) b = false.
Proof. by intros []. Qed.

Section moves.
Context {T U D : Type} `{!Summary U, !Item T U, !Dimension D U, !SummaryLaws T U,
  !DimensionLaws D T U}.
Implicit Types (l k before after : list T) (c : t T U D).
Variable target : D → comparison.
Variable b : bias.

(** [crates/sum_tree/src/cursor.rs:566-573] the result of a seek: whether the target is the end of the item *)
Definition hit before after : bool :=
  is_eq (target (dim D (before ++ match b, after with Left, x :: _ => [x] | _, _ => [] end))).

Lemma seek_forward_ok c before after :
  ready c before after → target (dim D before) ≠ Lt →
  ∃ c' mid after', seek_forward target b c = Some (c', hit (before ++ mid) after') ∧
    after = mid ++ after' ∧ stopped target b before mid after' ∧ positioned c' (before ++ mid) after'.
Proof.
  intros Hc Ht.
  assert (valid after) as Hv.
  { destruct Hc as [Hc|[_ Hc]]; [|by destruct Hc].
    apply positioned_valid in Hc. by apply valid_app in Hc as [_ ?]. }
  destruct (seek_internal_ok target b (exact_clear target b) _ _ _ unit_aggregates c before after tt [])
    as (c' & [] & mid & after' & E & _ & -> & _ & Hs & Hp); [done..|].
  exists c', mid, after'. unfold seek_forward. rewrite E. unfold hit.
  by rewrite <- app_assoc.
Qed.

Lemma seek_ok c before after :
  ready c before after → target (dim D []) ≠ Lt →
  ∃ c' mid rest, seek target b c = Some (c', hit mid rest) ∧
    before ++ after = mid ++ rest ∧ stopped target b [] mid rest ∧ positioned c' mid rest.
Proof.
  intros Hc Ht.
  assert (fresh (reset c) (before ++ after)) as Hf.
  { destruct Hc as [Hc|[-> Hc]]; [by apply reset_fresh|].
    destruct Hc as [h ? ? ? ? ? ? ? ?]. by apply (Build_fresh _ _ h). }
  destruct (seek_forward_ok (reset c) [] (before ++ after)) as (c' & mid & rest & E & ? & ? & ?);
    [by right|done|].
  by exists c', mid, rest.
Qed.

Lemma slice_ok c before after :
  ready c before after → target (dim D before) ≠ Lt →
  ∃ c' x mid after', slice target b c = Some (c', x) ∧ represents x mid ∧
    after = mid ++ after' ∧ stopped target b before mid after' ∧ positioned c' (before ++ mid) after'.
Proof. apply slice_clear_ok, exact_clear. Qed.

Lemma summary_ok O `{!Dimension O U, !DimensionLaws O T U} c before after :
  ready c before after → target (dim D before) ≠ Lt →
  ∃ c' mid after', summary (O := O) target b c = Some (c', dim O mid) ∧
    after = mid ++ after' ∧ stopped target b before mid after' ∧ positioned c' (before ++ mid) after'.
Proof.
  intros Hc Ht.
  assert (valid after) as Hv.
  { destruct Hc as [Hc|[_ Hc]]; [|by destruct Hc].
    apply positioned_valid in Hc. by apply valid_app in Hc as [_ ?]. }
  destruct (seek_internal_ok target b (exact_clear target b) _ _ _ (summary_aggregates O) c before after dzero [])
    as (c' & a' & mid & after' & E & _ & -> & HR & Hs & Hp);
    [done|done|by rewrite (dim_nil (D := O) (T := T))|done|].
  exists c', mid, after'. unfold summary. rewrite E. cbn in *. by rewrite HR.
Qed.
End moves.

Section suffix.
Context {T U D : Type} `{!Summary U, !Item T U, !Dimension D U, !SummaryLaws T U,
  !DimensionLaws D T U}.
Implicit Types (l k before after : list T) (c : t T U D).

Lemma suffix_ok c before after :
  ready c before after →
  ∃ c' x, suffix c = Some (c', x) ∧ represents x after ∧ positioned c' (before ++ after) [].
Proof.
  intros Hc. destruct (slice_ok (λ _, Gt) Right c before after Hc)
    as (c' & x & mid & rest & E & Hx & -> & [_ Hn] & Hp); [done|].
  assert (rest = []) as ->.
  { destruct rest as [|y rest]; [done|]. by specialize (Hn y eq_refl). }
  rewrite app_nil_r in *. by exists c', x.
Qed.
End suffix.

(** The rest can be taken whatever the positions are: only a cursor that forgets
    them is looked at. *)
Section forget.
Context {T U D : Type} `{!Summary U, !Item T U, !Dimension D U, !SummaryLaws T U,
  !Measured D T U, !Positions D T U}.
Implicit Types (l k before after : list T) (c : t T U D).
Definition forget_entry (e : entry T U D) : entry T U unit := mk_entry (e_tree e) (e_index e) tt.
Definition forget c : t T U unit := mk (c_tree c) (map forget_entry (stack c)) tt (did_seek c) (at_end c).
Lemma any_unit (u v : unit) : u = v.
Proof. by destruct u, v. Qed.

Lemma forget_spine root hr stk h x pre post :
  spine (D := D) root hr stk h x pre post → spine (D := unit) root hr (map forget_entry stk) h x pre post.
Proof.
  induction 1 as [|stk h h0 s ss ts i x pre post Hs IH Hi]; [constructor|]. cbn [map]. unfold forget_entry at 1.
  cbn [e_tree e_index]. rewrite (any_unit tt (dim unit (pre ++ flat_map contents (take i ts)))). by constructor.
Qed.
Lemma forget_ready c before after : ready c before after → ready (forget c) before after.
Proof.
  intros [[h Hw Hl Hv Hs Hp Hloc He]|[-> [h Hw Hc Hl Hv Hs Hk Hp He]]]; [left|right; split; [done|]].
  - apply (Build_positioned _ _ _ h); cbn [forget c_tree did_seek stack at_end position]; try done.
    + by destruct (dim unit before).
    + destruct Hloc as [(E & -> & ->)|[stk s its ss pre post i epos Hsp Hi]]; [left; by rewrite E|right].
      cbn [map]. unfold forget_entry at 1. cbn [e_tree e_index].
      apply at_item_leaf; [by apply forget_spine|done].
    + rewrite He. by destruct (stack c).
  - apply (Build_fresh _ _ h); cbn [forget c_tree did_seek stack at_end position]; try done. by rewrite Hk.
Qed.

Context {A : Type} (agg : aggregate T U A).
Abbreviation to_end := (λ _, Gt).
Lemma forget_children a pos epos pos' epos' idx cts css :
  seek_children (D := unit) to_end Right agg a pos' epos' idx cts css
  = (λ '(a, _, _, idx, child), (a, tt, tt, idx, child)) <$> seek_children (D := D) to_end Right agg a pos epos idx cts css.
Proof.
  revert a pos epos pos' epos' idx css.
  induction cts as [|x cts IH]; intros a pos epos [] [] idx [|s css]; cbn; try done.
  destruct (push_tree agg a x s); cbn; [apply IH|done].
Qed.
Lemma forget_items a pos pos' idx its ss :
  seek_items (D := unit) to_end Right agg a pos' idx its ss
  = (λ '(a, _, idx, stopped), (a, tt, idx, stopped)) <$> seek_items (D := D) to_end Right agg a pos idx its ss.
Proof.
  revert a pos pos' idx ss. induction its as [|x its IH]; intros a pos [] idx [|s ss]; cbn; try done.
  destruct (push_item agg a x s); cbn; [apply IH|done].
Qed.
Lemma forget_push e stk : stack_push (forget_entry e) (map forget_entry stk) = map forget_entry <$> stack_push e stk.
Proof. unfold stack_push. rewrite length_map. by case_match. Qed.
Lemma forget_step st :
  seek_step (D := unit) to_end Right agg (let '(stk, _, asc, a) := st in (map forget_entry stk, tt, asc, a))
  = sum_map (λ '(stk, _, asc, a), (map forget_entry stk, tt, asc, a)) (λ '(stk, _, a), (map forget_entry stk, tt, a))
    <$> seek_step (D := D) to_end Right agg st.
Proof.
  destruct st as [[[stk pos] asc] a]. destruct stk as [|e stk]; [done|]. cbn [map seek_step].
  change (e_tree (forget_entry e)) with (e_tree e). change (e_index (forget_entry e)) with (e_index e).
  destruct (e_tree e) as [h0 s ss ts|s its ss] eqn:Ee.
  - assert (∃ i q, (if asc : bool then (S (e_index e), pos) else (e_index e, e_position e)) = (i, q) ∧
                   (if asc : bool then (S (e_index e), tt) else (e_index e, e_position (forget_entry e))) = (i, tt))
      as (i & q & -> & ->) by by destruct asc; eexists _, _.
    destruct (slice_from ts i) as [ts'|]; [|done]. cbn [mbind option_bind].
    destruct (slice_from ss i) as [ss'|]; [|done]. cbn [mbind option_bind].
    rewrite (forget_children a pos q _ _ i).
    destruct (seek_children _ _ _ _ _ _ _ _ _) as [[[[[a' pos'] epos'] idx'] child]|]; [|done].
    cbn [fmap option_fmap option_map mbind option_bind]. destruct child as [x|]; [|done].
    pose proof (forget_push (mk_entry x 0 pos') (mk_entry (Internal h0 s ss ts) idx' epos' :: stk)) as Hp.
    change (stack_push (mk_entry x 0 tt) (mk_entry (Internal h0 s ss ts) idx' tt :: map forget_entry stk)
            = map forget_entry <$> stack_push (mk_entry x 0 pos') (mk_entry (Internal h0 s ss ts) idx' epos' :: stk)) in Hp.
    rewrite Hp. clear Hp. by destruct (stack_push _ _).
  - destruct (slice_from its (e_index e)) as [its'|]; [|done]. cbn [mbind option_bind].
    destruct (slice_from ss (e_index e)) as [ss'|]; [|done]. cbn [mbind option_bind].
    rewrite (forget_items (begin_leaf agg a) pos tt).
    destruct (seek_items _ _ _ _ _ _ _ _) as [[[[a' pos'] idx'] stopped]|]; [|done].
    cbn [fmap option_fmap option_map mbind option_bind]. destruct (end_leaf agg a') as [a2|]; [|done].
    by destruct stopped.
Qed.
Lemma forget_seek a c :
  seek_internal (D := unit) to_end Right agg a (forget c)
  = (λ '(c, a, hit), (forget c, a, hit)) <$> seek_internal (D := D) to_end Right agg a c.
Proof.
  unfold seek_internal. cbn [is_lt]. cbn [forget c_tree did_seek stack position].
  assert ((if did_seek c then Some (map forget_entry (stack c), true)
           else s ← stack_push (mk_entry (c_tree c) 0 tt) (map forget_entry (stack c)); Some (s, true))
          = (λ '(stk, s), (map forget_entry stk, s)) <$>
            (if did_seek c then Some (stack c, true)
             else s ← stack_push (mk_entry (c_tree c) 0 dzero) (stack c); Some (s, true))) as E.
  { destruct (did_seek c); [done|]. pose proof (forget_push (mk_entry (c_tree c) 0 dzero) (stack c)) as Hp.
    unfold forget_entry in Hp at 1. cbn [e_tree e_index] in Hp. rewrite Hp. clear Hp. by destruct (stack_push _ _). }
  change (dzero (D := unit)) with tt. rewrite E. clear E.
  destruct (if did_seek c then Some (stack c, true) else _) as [[stk s]|]; cbn [fmap option_fmap option_map mbind option_bind]; [|done].
  pose proof (iterate_map _ _ _ _ (S (S (visits (c_tree c)))) (stk, position c, false, a) forget_step) as Hi.
  cbn beta iota in Hi. rewrite Hi. clear Hi.
  destruct (iterate _ _ _) as [[[stk' pos'] a']|]; [|done]. cbn [fmap option_fmap option_map mbind option_bind].
  rewrite !bool_decide_eq_false_2 by done. cbn [mbind option_bind fmap option_fmap option_map]. unfold forget. cbn. by destruct stk'.
Qed.
End forget.
Lemma suffix_rest {T U D} `{!Summary U, !Item T U, !Dimension D U, !SummaryLaws T U, !Measured D T U, !Positions D T U}
    (c : t T U D) before after :
  ready c before after → ∃ c' x, suffix c = Some (c', x) ∧ represents x after.
Proof.
  intros H%forget_ready. destruct (suffix_ok (forget c) before after H) as (c' & x & E & Hx & _).
  unfold suffix, slice in E. rewrite forget_seek in E. unfold suffix, slice.
  destruct (seek_internal _ _ _ _ c) as [[[c1 a1] r1]|]; [|done]. cbn in *. injection E as <- <-. by exists c1, (s_tree a1).
Qed.

(** ** Moving forward *)
Section forward.
Context {T U D : Type} `{!Summary U, !Item T U, !Dimension D U, !SummaryLaws T U,
  !Measured D T U, !Positions D T U}.
Abbreviation tree := (node T U).
Implicit Types (l k before after pre post : list T).
Variable f : U → bool.
Abbreviation step := (forward_step (T := T) (D := D) f).

(** A filter that rejects a sum rejects what was summed. *)
Definition filter_ok : Prop :=
  ∀ k, valid k → f (measure k) = false → Forall (λ x, f (item_summary x) = false) k.
Hypothesis Hf : filter_ok.
(** A sum that is jumped over is exact. *)
Definition jumps_ok : Prop :=
  ∀ l k, k ≠ [] → valid (l ++ k) → f (measure k) = false → dadd (dim D l) (measure k) = dim D (l ++ k).
Hypothesis Hjump : jumps_ok.
Definition rejected k : Prop := Forall (λ x, f (item_summary x) = false) k.
Definition accepted (k : list T) : Prop := ∀ x, head k = Some x → f (item_summary x) = true.

Lemma skip_items_ok pre idx its :
  valid (pre ++ its) →
  ∃ l1 l2, its = l1 ++ l2 ∧ rejected l1 ∧ accepted l2 ∧
    ∀ epos, ∃ epos', skip_filtered f (map item_summary its) idx epos (dim D pre)
      = ((idx + length l1)%nat, epos', dim D (pre ++ l1)).
Proof.
  revert pre idx. induction its as [|x its IH]; intros pre idx Hv.
  { exists [], []. rewrite !app_nil_r, Nat.add_0_r. split_and!; [done|by apply Forall_nil_2|done|by intros; eexists]. }
  cbn [map skip_filtered]. change (x :: its) with ([x] ++ its) in Hv. rewrite app_assoc in Hv.
  destruct (valid_app _ _ Hv) as [Hv1 _]. destruct (valid_app _ _ Hv1) as [_ Hvx].
  destruct (f (item_summary x)) eqn:E.
  { exists [], (x :: its). cbn [app length]. rewrite !app_nil_r, Nat.add_0_r.
    split_and!; [done|by apply Forall_nil_2|by intros y [= <-]|by intros; eexists]. }
  destruct (IH (pre ++ [x]) (S idx) Hv) as (l1 & l2 & -> & H1 & H2 & H3).
  exists (x :: l1), l2. split_and!; [done|by apply Forall_cons_2|done|]. intros epos.
  destruct (H3 (dadd epos (item_summary x))) as [epos' E']. exists epos'.
  rewrite dim_item by done. rewrite E'.
  cbn [length]. by rewrite Nat.add_succ_r, <- app_assoc.
Qed.

Lemma skip_children_ok h pre idx ts :
  Forall (sub h) ts → valid (pre ++ flat_map contents ts) →
  ∃ ts1 ts2, ts = ts1 ++ ts2 ∧ rejected (flat_map contents ts1) ∧
    skip_filtered f (map SumTree.summary ts) idx (dim D pre) (dim D pre)
      = ((idx + length ts1)%nat, dim D (pre ++ flat_map contents ts1),
         dim D (pre ++ flat_map contents ts1)).
Proof.
  revert pre idx. induction ts as [|t ts IH]; intros pre idx Hs Hv.
  { exists [], []. cbn. rewrite !app_nil_r, Nat.add_0_r. split_and!; [done|by apply Forall_nil_2|done]. }
  apply Forall_cons in Hs as [[Ht Hne] Hs]. cbn [map skip_filtered flat_map] in *.
  destruct (valid_mid _ _ _ Hv) as [Hv1 Hvt].
  rewrite (wf_summary h t Ht). destruct (f (measure (contents t))) eqn:E.
  { exists [], (t :: ts). cbn [flat_map length app]. rewrite !app_nil_r, Nat.add_0_r.
    split_and!; [done|by apply Forall_nil_2|done]. }
  rewrite Hjump by done. rewrite app_assoc in Hv.
  destruct (IH (pre ++ contents t) (S idx) Hs Hv) as (ts1 & ts2 & -> & H1 & ->).
  exists (t :: ts1), ts2. cbn [flat_map length]. rewrite <- app_assoc, Nat.add_succ_r.
  split_and!; [done| |done]. apply Forall_app. split; [by apply Hf|done].
Qed.

(** What the loop is left with: it rejected [mid] and not the next item. *)
Definition forward_outcome root hr pre rest (r : list (entry T U D) * D) : Prop :=
  let '(stk, pos) := r in
  ∃ mid rest', rest = mid ++ rest' ∧ rejected mid ∧ accepted rest' ∧
    pos = dim D (pre ++ mid) ∧ located root hr stk (pre ++ mid) rest'.

Lemma forward_shift root hr pre m rest r :
  forward_outcome root hr (pre ++ m) rest r → rejected m → forward_outcome root hr pre (m ++ rest) r.
Proof.
  destruct r as [stk pos]. intros (mid & rest' & -> & H1 & H2 & -> & H3) Hm.
  exists (m ++ mid), rest'. rewrite <- !app_assoc in *. split_and!; [done| |done..].
  by apply Forall_app.
Qed.

(** A leaf, from the index on. *)
Lemma leaf_forward root hr stk s its ss pre post i epos descend :
  wf hr root → valid (contents root) → spine root hr stk 0 (Leaf s its ss) pre post →
  let idx := if descend : bool then i else S i in
  (idx ≤ length its)%nat →
  let before := if descend then pre ++ take idx its else pre ++ take i its in
  let st := (mk_entry (Leaf s its ss) i epos :: stk, dim D before, descend) in
  (∃ r, step st = Some (inr r) ∧
     forward_outcome root hr (pre ++ take idx its) (drop idx its ++ post) r) ∨
  (step st = Some (inl (stk, dim D (pre ++ its), false)) ∧ rejected (drop idx its)).
Proof.
  intros Hw Hv Hs idx Hi before. destruct (spine_ok _ _ _ _ _ _ _ Hw Hs) as ((Hcap & -> & _) & Hc & _).
  cbn [contents] in Hc. rewrite Hc in Hv. destruct (valid_mid _ _ _ Hv) as [Hv1 _].
  cbn [forward_step e_tree e_index e_position].
  assert (∃ epos1, (if descend then Some (i, epos, dim D before)
     else s0 ← map item_summary its !! i; Some (S i, dadd epos s0, dadd (dim D before) s0))
    = Some (idx, epos1, dim D (pre ++ take idx its))) as [epos1 ->].
  { subst idx before. destruct descend; [by eexists|].
    destruct (lookup_lt_is_Some_2 its i Hi) as [x Hx].
    rewrite list_lookup_fmap, Hx. cbn [fmap option_fmap option_map mbind option_bind].
    eexists. do 2 f_equal. rewrite (take_S_r _ _ _ Hx), app_assoc.
    rewrite <- (take_drop_middle _ _ _ Hx) in Hv1. change (x :: drop (S i) its) with ([x] ++ drop (S i) its) in Hv1.
    rewrite !app_assoc in Hv1. destruct (valid_app _ _ Hv1) as [Hv2 _]. by rewrite dim_item. }
  cbn [mbind option_bind]. rewrite skipn_map.
  destruct (skip_items_ok (pre ++ take idx its) idx (drop idx its)) as (l1 & l2 & El & H1 & H2 & H3).
  { by rewrite <- app_assoc, take_drop. }
  destruct (H3 epos1) as [epos2 ->]. rewrite list_lookup_fmap.
  assert (drop (idx + length l1) its = l2) as Ed.
  { rewrite <- drop_drop, El. apply drop_app_length. }
  assert (take (idx + length l1) its = take idx its ++ l1) as Et.
  { rewrite <- (take_drop idx its) at 1. rewrite El.
    replace (idx + length l1)%nat with (length (take idx its) + length l1)%nat
      by (rewrite length_take; lia).
    by rewrite take_app_add, take_app_length. }
  destruct l2 as [|x l2].
  - right. rewrite app_nil_r in El. rewrite lookup_ge_None_2.
    + cbn. rewrite <- app_assoc, <- El, take_drop in *. done.
    + apply (f_equal length) in Ed. rewrite length_drop in Ed. simpl in Ed. lia.
  - left. assert (its !! (idx + length l1)%nat = Some x) as Hx.
    { by rewrite <- (Nat.add_0_r (idx + length l1)), <- lookup_drop, Ed. }
    rewrite Hx. cbn [fmap option_fmap option_map]. eexists. split; [done|].
    exists l1, (x :: l2 ++ post). rewrite El, <- app_assoc.
    split_and!; [done|done|by intros y [= <-]; apply H2|done|].
    right. rewrite <- app_assoc, <- Et. rewrite app_comm_cons, <- Ed.
    apply at_item_leaf; [done|]. by apply lookup_lt_Some in Hx.
Qed.

(** Entering a subtree: the loop stops inside or leaves it behind. *)
Definition visit_ok root hr h : Prop :=
  ∀ x stk pre post, spine root hr stk h x pre post →
    let st := (mk_entry x 0 (dim D pre) :: stk, dim D pre, true) in
    (∃ n st' r, (n < visits x)%nat ∧ reaches step n st st' ∧ step st' = Some (inr r) ∧
       forward_outcome root hr pre (contents x ++ post) r) ∨
    (∃ n, (n ≤ visits x)%nat ∧ reaches step n st (stk, dim D (pre ++ contents x), false) ∧
       rejected (contents x)).

(** An internal node, from the index on. *)
Lemma node_forward root hr h stk h0 s ss ts pre post m :
  wf hr root → (hr < stack_capacity)%nat → valid (contents root) → visit_ok root hr h →
  spine root hr stk (S h) (Internal h0 s ss ts) pre post →
  ∀ descend i epos,
  let idx := if descend : bool then i else S i in
  (length ts - idx ≤ m)%nat → (idx ≤ length ts)%nat →
  (descend = false ∨ epos = dim D (pre ++ flat_map contents (take idx ts))) →
  let st := (mk_entry (Internal h0 s ss ts) i epos :: stk,
             dim D (pre ++ flat_map contents (take idx ts)), descend) in
  (∃ n st' r, (n < S (visits_from (drop idx ts)))%nat ∧ reaches step n st st' ∧
     step st' = Some (inr r) ∧
     forward_outcome root hr (pre ++ flat_map contents (take idx ts))
       (flat_map contents (drop idx ts) ++ post) r) ∨
  (∃ n, (n ≤ S (visits_from (drop idx ts)))%nat ∧
     reaches step n st (stk, dim D (pre ++ flat_map contents ts), false) ∧
     rejected (flat_map contents (drop idx ts))).
Proof.
  intros Hw Hhr Hv Hvisit Hs.
  destruct (spine_ok _ _ _ _ _ _ _ Hw Hs) as ((-> & Hne & Hcap & -> & _ & F) & Hc & Hl & _).
  cbn [contents] in Hc. rewrite Hc in Hv.
  assert (∀ j, flat_map contents (take j ts) ++ flat_map contents (drop j ts) = flat_map contents ts)
    as Etd by (intros; by rewrite <- flat_map_app, take_drop).
  induction m as [m IH] using lt_wf_ind. intros descend i epos idx Hm Hidx Hepos.
  assert (∃ ep, (if descend then (i, epos) else (S i, dim D (pre ++ flat_map contents (take idx ts))))
    = (idx, ep) ∧ ep = dim D (pre ++ flat_map contents (take idx ts))) as (ep & Eidx & ->).
  { subst idx. destruct descend; [|by eexists]. destruct Hepos as [?| ->]; [done|by intros; eexists]. }
  destruct (skip_children_ok h (pre ++ flat_map contents (take idx ts)) idx (drop idx ts))
    as (ts1 & ts2 & E & Hrej & Eskip).
  { by apply Forall_drop. }
  { rewrite <- app_assoc, Etd. by apply valid_mid in Hv as [? _]. }
  assert (ts = take idx ts ++ ts1 ++ ts2) as Ets by by rewrite <- E, take_drop.
  assert (length (take idx ts) = idx) as Elen by (rewrite length_take; lia).
  assert (take (idx + length ts1) ts = take idx ts ++ ts1) as Ej.
  { rewrite Ets at 1. rewrite app_assoc, <- Elen at 1. rewrite <- length_app. apply take_app_length. }
  assert (step (mk_entry (Internal (S h) s (map SumTree.summary ts) ts) i epos :: stk,
      dim D (pre ++ flat_map contents (take idx ts)), descend)
    = match ts2 with
      | [] => Some (inl (stk, dim D (pre ++ flat_map contents ts), false))
      | x :: _ =>
          Some (inl (mk_entry x 0 (dim D (pre ++ flat_map contents (take (idx + length ts1) ts)))
            :: mk_entry (Internal (S h) s (map SumTree.summary ts) ts) (idx + length ts1)
                 (dim D (pre ++ flat_map contents (take (idx + length ts1) ts))) :: stk,
            dim D (pre ++ flat_map contents (take (idx + length ts1) ts)), true))
      end) as Estep.
  { cbn [forward_step e_tree e_index e_position]. rewrite Eidx, skipn_map, Eskip.
    rewrite <- !app_assoc, <- flat_map_app, <- Ej.
    destruct ts2 as [|x ts2].
    - rewrite lookup_ge_None_2 by (rewrite Ets, !length_app; cbn [length]; lia).
      rewrite app_nil_r in Ets. by rewrite Ej, <- Ets.
    - assert (ts !! (idx + length ts1)%nat = Some x) as ->.
      { rewrite Ets, app_assoc. apply list_lookup_middle. rewrite length_app. lia. }
      unfold stack_capacity in *. rewrite stack_push_ok by (cbn [length]; lia). done. }
  destruct ts2 as [|x ts2].
  - right. exists 1%nat. split_and!; [lia| |].
    + eapply reaches_step; [exact Estep|apply reaches_refl].
    + by rewrite E, app_nil_r.
  - set (j := (idx + length ts1)%nat) in *.
    assert (ts !! j = Some x) as Hx.
    { rewrite Ets, app_assoc. apply list_lookup_middle. unfold j. rewrite length_app. lia. }
    assert (drop (S j) ts = ts2) as Ed.
    { rewrite Ets. rewrite app_assoc. change (x :: ts2) with ([x] ++ ts2). rewrite app_assoc.
      rewrite drop_app_length'; [done|]. unfold j. rewrite !length_app. cbn [length]. lia. }
    assert (visits_from (drop idx ts) = (visits_from ts1 + S (visits x) + visits_from ts2)%nat) as Ev.
    { rewrite E. unfold visits_from. rewrite map_app, list_sum_app. cbn [map].
      match goal with |- context [list_sum (?a :: ?l)] =>
        change (list_sum (a :: l)) with (a + list_sum l)%nat end. lia. }
    pose proof (lookup_lt_Some _ _ _ Hx) as Hjlt.
    assert (flat_map contents (drop idx ts) = flat_map contents ts1 ++ contents x ++ flat_map contents ts2)
      as Ec by (by rewrite E, flat_map_app).
    assert (pre ++ flat_map contents (take j ts)
      = (pre ++ flat_map contents (take idx ts)) ++ flat_map contents ts1) as Epre
      by (by rewrite Ej, flat_map_app, app_assoc).
    pose proof (spine_child root hr stk h (S h) s (map SumTree.summary ts) ts j x pre post Hs Hx) as Hs'.
    destruct (Hvisit _ _ _ _ Hs') as [(n & st' & r & Hn & Hr & Hst & Ho)|(n & Hn & Hr & Hrejx)].
    + left. exists (S n), st', r. split_and!; [lia| |done|].
      * eapply reaches_step; [exact Estep|exact Hr].
      * rewrite Ec, <- !app_assoc. rewrite Epre, Ed in Ho. by apply forward_shift.
    + assert ((pre ++ flat_map contents (take j ts)) ++ contents x
        = pre ++ flat_map contents (take (S j) ts)) as EposS.
      { rewrite (take_S_r _ _ _ Hx), flat_map_app. cbn. by rewrite app_nil_r, app_assoc. }
      rewrite EposS in Hr.
      destruct (IH (length ts - S j)%nat ltac:(unfold j in *; lia) false j
          (dim D (pre ++ flat_map contents (take j ts))))
        as [(n2 & st' & r & Hn2 & Hr2 & Hst & Ho)|(n2 & Hn2 & Hr2 & Hrej2)];
        [lia|lia|by left|..]; rewrite Ed in *.
      * left. exists (S (n + n2))%nat, st', r. split_and!; [lia| |done|].
        -- eapply reaches_step; [exact Estep|]. by eapply reaches_trans.
        -- rewrite Ec. rewrite <- !app_assoc. rewrite <- EposS, Epre in Ho.
           apply forward_shift; [|done]. by apply forward_shift.
      * right. exists (S (n + n2))%nat. split_and!; [lia| |].
        -- eapply reaches_step; [exact Estep|]. by eapply reaches_trans.
        -- rewrite Ec. by repeat (apply Forall_app; split).
Qed.

Lemma visit root hr h :
  wf hr root → (hr < stack_capacity)%nat → valid (contents root) → visit_ok root hr h.
Proof.
  intros Hw Hhr Hv. induction h as [|h IH]; intros x stk pre post Hs;
    destruct (spine_ok _ _ _ _ _ _ _ Hw Hs) as (Hwx & Hc & _ & _);
    destruct x as [h0 s ss ts|s its ss]; try by destruct Hwx.
  - destruct (leaf_forward root hr stk s its ss pre post 0 (dim D pre) true)
      as [(r & Hr & Ho)|[Hr Hrej]]; [done|done|done|lia|..];
      rewrite ?take_0, ?drop_0, ?app_nil_r in *.
    + left. eexists 0%nat, _, r. split_and!; [cbn; lia|apply reaches_refl|exact Hr|exact Ho].
    + right. exists 1%nat. split_and!; [cbn; lia| |done].
      eapply reaches_step; [exact Hr|apply reaches_refl].
  - destruct (node_forward root hr h stk h0 s ss ts pre post (length ts) Hw Hhr Hv IH Hs
        true 0 (dim D pre)) as [H|H]; [lia|lia|right; cbn; by rewrite app_nil_r|left|right];
      rewrite ?take_0, ?drop_0 in *; cbn [flat_map] in *; rewrite ?app_nil_r in *;
      by rewrite visits_internal.
Qed.

(** Going on after a subtree that was left behind. *)
Lemma forward_climb root hr stk h x pre post :
  wf hr root → (hr < stack_capacity)%nat → valid (contents root) →
  spine root hr stk h x pre post →
  ∃ n st' r, (n ≤ visits_above stk)%nat ∧
    reaches step n (stk, dim D (pre ++ contents x), false) st' ∧
    step st' = Some (inr r) ∧ forward_outcome root hr (pre ++ contents x) post r.
Proof.
  intros Hw Hhr Hv Hs. induction Hs as [|stk h h0 s ss ts i x pre post Hs IH Hi].
  - eexists 0%nat, _, ([], _). split_and!; [lia|apply reaches_refl|done|].
    exists [], []. rewrite !app_nil_r. cbn [app].
    split_and!; [done|by apply Forall_nil_2|done|done|by left].
  - destruct (spine_ok _ _ _ _ _ _ _ Hw Hs) as ((-> & _) & _ & Hlen & _).
    pose proof (lookup_lt_Some _ _ _ Hi) as Hlt.
    assert ((pre ++ flat_map contents (take i ts)) ++ contents x
      = pre ++ flat_map contents (take (S i) ts)) as Epos.
    { rewrite (take_S_r _ _ _ Hi), flat_map_app. cbn. by rewrite app_nil_r, app_assoc. }
    rewrite Epos. unfold visits_above. cbn [map e_tree e_index].
    match goal with |- context [list_sum (?a :: ?l)] =>
      change (list_sum (a :: l)) with (a + visits_above stk)%nat end.
    destruct (node_forward root hr h stk (S h) s ss ts pre post (length ts) Hw Hhr Hv
        (visit root hr h Hw Hhr Hv) Hs false i (dim D (pre ++ flat_map contents (take i ts))))
      as [(n & st' & r & Hn & Hr & Hst & Ho)|(n & Hn & Hr & Hrej)]; [lia|lia|by left|..].
    + exists n, st', r. split_and!; [lia|done..].
    + destruct IH as (n2 & st' & r & Hn2 & Hr2 & Hst & Ho).
      exists (n + n2)%nat, st', r. cbn [contents] in *. split_and!; [lia| |done|].
      * by eapply reaches_trans.
      * assert (pre ++ flat_map contents ts
          = (pre ++ flat_map contents (take (S i) ts)) ++ flat_map contents (drop (S i) ts)) as Ets
          by (by rewrite <- app_assoc, <- flat_map_app, take_drop).
        rewrite Ets in Ho. by apply forward_shift.
Qed.

Lemma forward_positioned (c : t T U D) h before rest stk pos :
  wf h (c_tree c) → (h < stack_capacity)%nat → valid (contents (c_tree c)) →
  forward_outcome (c_tree c) h before rest (stk, pos) →
  (stk ≠ [] → at_end c = false) →
  ∃ mid after', rest = mid ++ after' ∧ rejected mid ∧ accepted after' ∧
    positioned (mk (c_tree c) stk pos true (match stk with [] => true | _ => at_end c end))
      (before ++ mid) after'.
Proof.
  intros Hw Hh Hv (mid & after' & -> & H1 & H2 & -> & Hl) Hend.
  exists mid, after'. split_and!; [done..|]. apply (Build_positioned _ _ _ h); try done.
  cbn. destruct stk; [done|]. by rewrite Hend.
Qed.

(** A cursor before the first item: fresh, or moved back past the start. *)
Inductive idle (c : t T U D) l : Prop :=
  | Build_idle h :
      wf h (c_tree c) → contents (c_tree c) = l → (h < stack_capacity)%nat → valid l →
      stack c = [] → position c = dzero → at_end c = SumTree.is_empty (c_tree c) → idle c l.

Lemma fresh_idle (c : t T U D) l : fresh c l → idle c l.
Proof. intros [h ? ? ? ? ? ? ? ?]. by apply (Build_idle _ _ h). Qed.

Lemma search_forward_idle (c : t T U D) l :
  idle c l →
  ∃ c' mid after', search_forward f c = Some c' ∧ l = mid ++ after' ∧ rejected mid ∧ accepted after' ∧
    positioned c' mid after'.
Proof.
  intros [h Hw <- Hh Hv Hs Hp He]. unfold search_forward. rewrite Hs, Hp, He.
  pose proof (wf_empty _ _ Hw) as Hemp. destruct (SumTree.is_empty (c_tree c)).
  - rewrite (proj1 Hemp eq_refl) in *. cbn [mbind option_bind]. cbn [iterate forward_step mbind option_bind].
    eexists _, [], []. split_and!; [done|done|by apply Forall_nil_2|done|].
    apply (Build_positioned _ _ _ h); cbn; try done; try (by rewrite dim_start); try by rewrite (proj1 Hemp eq_refl).
    + left. by rewrite (proj1 Hemp eq_refl).
  - rewrite stack_push_ok by (cbn; lia). cbn [mbind option_bind].
    pose proof (visit (c_tree c) h h Hw Hh Hv (c_tree c) [] [] [] (spine_root _ _)) as Hvis.
    cbn zeta in Hvis. rewrite dim_start in Hvis. cbn [app] in Hvis.
    rewrite app_nil_r in Hvis.
    assert (∃ n st' r, (n ≤ visits (c_tree c))%nat ∧
      reaches step n ([mk_entry (c_tree c) 0 dzero], dzero, true) st' ∧ step st' = Some (inr r) ∧
      forward_outcome (c_tree c) h [] (contents (c_tree c)) r) as (n & st' & r & Hn & Hr & Hst & Ho).
    { destruct Hvis as [(n & st' & r & Hn & H)|(n & Hn & Hr & Hrej)].
      - exists n, st', r. split; [lia|done].
      - eexists n, _, ([], _). split_and!; [done|exact Hr|done|].
        exists (contents (c_tree c)), []. rewrite !app_nil_r. cbn [app].
        split_and!; [done..|by left]. }
    rewrite (iterate_exit _ _ _ _ _ _ Hr Hst) by lia. destruct r as [stk pos].
    cbn [mbind option_bind].
    destruct (forward_positioned c h [] (contents (c_tree c)) stk pos)
      as (mid & after' & H1 & H2 & H3 & H4); try done.
    rewrite He in H4. eexists _, mid, after'. split_and!; [done..|exact H4].
Qed.

Lemma search_forward_ok (c : t T U D) before after :
  positioned c before after →
  match after with
  | [] => search_forward f c = Some c
  | x :: rest =>
      ∃ c' mid after', search_forward f c = Some c' ∧ rest = mid ++ after' ∧ rejected mid ∧
        accepted after' ∧ positioned c' (before ++ [x] ++ mid) after'
  end.
Proof.
  intros [h Hw Hh Hv Hs Hp Hl He]. destruct Hl as [(Hk & -> & ->)|Hl].
  { unfold search_forward. rewrite Hk in He |- *. rewrite He. cbn.
    destruct c; cbn in *; by subst. }
  destruct (at_item_contents _ _ _ _ _ Hw Hl) as (Hcont & Hne & _ & _).
  destruct after as [|x rest]; [done|]. unfold search_forward.
  remember (x :: rest) as after eqn:Eafter. remember (stack c) as stk0 eqn:Estk.
  destruct Hl as [stk s its ss pre post i epos Hsp Hi].
  cbn [mbind option_bind]. rewrite Hp, Hs.
  destruct (lookup_lt_is_Some_2 its i Hi) as [y Hy].
  rewrite (drop_S _ _ _ Hy) in Eafter. cbn [app] in Eafter. injection Eafter as -> <-.
  assert ((pre ++ take i its) ++ [x] = pre ++ take (S i) its) as Epos
    by (by rewrite (take_S_r _ _ _ Hy), app_assoc).
  assert (∃ n st' r, (n ≤ visits (c_tree c))%nat ∧
    reaches step n (mk_entry (Leaf s its ss) i epos :: stk, dim D (pre ++ take i its), false) st' ∧
    step st' = Some (inr r) ∧
    forward_outcome (c_tree c) h (pre ++ take (S i) its) (drop (S i) its ++ post) r)
    as (n & st' & r & Hn & Hr & Hst & Ho).
  { pose proof (visits_above_bound _ _ _ _ _ _ _ Hsp) as Hb. cbn [visits] in Hb.
    destruct (leaf_forward (c_tree c) h stk s its ss pre post i epos false)
      as [(r & Hr & Ho)|[Hr Hrej]]; [done..| |].
    - eexists 0%nat, _, r. split_and!; [lia|apply reaches_refl|exact Hr|exact Ho].
    - destruct (forward_climb (c_tree c) h stk 0 (Leaf s its ss) pre post Hw Hh Hv Hsp)
        as (n & st' & r & Hn & Hreach & Hst & Ho).
      exists (S n), st', r. split_and!; [lia| |done|].
      + eapply reaches_step; [exact Hr|exact Hreach].
      + cbn [contents] in Ho.
        assert (pre ++ its = (pre ++ take (S i) its) ++ drop (S i) its) as Eits
          by (by rewrite <- app_assoc, take_drop).
        rewrite Eits in Ho. by apply forward_shift. }
  rewrite (iterate_exit _ _ _ _ _ _ Hr Hst) by lia. destruct r as [stk' pos'].
  cbn [mbind option_bind].
  destruct (forward_positioned c h _ _ stk' pos' Hw Hh Hv Ho)
    as (mid & after' & H1 & H2 & H3 & H4); [by rewrite He|].
  eexists _, mid, after'. split_and!; [done..|].
  by rewrite app_assoc, Epos.
Qed.
End forward.

(** ** Moving backward *)
Section backward.
Context {T U D : Type} `{!Summary U, !Item T U, !Dimension D U, !SummaryLaws T U,
  !DimensionLaws D T U}.
Abbreviation tree := (node T U).
Implicit Types (l k before after pre post : list T).
Abbreviation step := (backward_step (T := T) (D := D) (λ _ : U, true)).

Lemma spine_top root hr stk h x pre post :
  spine root hr stk h x pre post →
  match stk with e :: _ => e_position e | [] => dzero end = dim D pre.
Proof. intros []; [|done]. symmetry. apply (dim_nil (D := D) (T := T)). Qed.

Lemma foldl_items pre its :
  valid (pre ++ its) → foldl dadd (dim D pre) (map item_summary its) = dim D (pre ++ its).
Proof.
  revert pre. induction its as [|x its IH]; intros pre Hv; cbn; [by rewrite app_nil_r|].
  change (x :: its) with ([x] ++ its) in *. rewrite app_assoc in Hv |- *.
  destruct (valid_app _ _ Hv) as [Hv1 _]. destruct (valid_app _ _ Hv1) as [_ Hvx].
  rewrite <- (measure_one x), dim_app by done. by apply IH.
Qed.

Lemma foldl_children h pre ts :
  Forall (sub h) ts → valid (pre ++ flat_map contents ts) →
  foldl dadd (dim D pre) (map SumTree.summary ts) = dim D (pre ++ flat_map contents ts).
Proof.
  revert pre. induction ts as [|t ts IH]; intros pre Hs Hv; cbn; [by rewrite app_nil_r|].
  apply Forall_cons in Hs as [[Ht Hne] Hs]. cbn [flat_map] in Hv.
  destruct (valid_mid _ _ _ Hv) as [Hv1 _]. rewrite (wf_summary h t Ht), dim_app by done.
  rewrite app_assoc in Hv |- *. by apply IH.
Qed.

(** The items of a node before and from an index on. *)
Definition items_before (x : tree) (i : nat) : list T :=
  match x with Internal _ _ _ ts => flat_map contents (take i ts) | Leaf _ its _ => take i its end.
Definition items_from (x : tree) (i : nat) : list T :=
  match x with Internal _ _ _ ts => flat_map contents (drop i ts) | Leaf _ its _ => drop i its end.

(** What a node looks like when the loop works on its child [i]. *)
Lemma node_at root hr stk h x pre post i pos epos (desc : bool) :
  wf hr root → valid (contents root) → spine root hr stk h x pre post →
  (i < length (child_summaries x))%nat →
  let j := if desc then i else S i in
  let e' := mk_entry x i (dim D (pre ++ items_before x i)) in
  step (mk_entry x j epos :: stk, pos, desc) =
    match x with
    | Internal _ _ _ cts =>
        tree ← cts !! i;
        if Nat.eqb (length (child_summaries tree)) 0 then None else
        stack ← stack_push (mk_entry tree (length (child_summaries tree) - 1) dzero) (e' :: stk);
        Some (inl (stack, dim D (pre ++ items_before x i), true))
    | Leaf _ _ _ => Some (inr (e' :: stk, dim D (pre ++ items_before x i)))
    end.
Proof.
  intros Hw Hv Hs Hi j e'. destruct (spine_ok _ _ _ _ _ _ _ Hw Hs) as (Hwx & Hc & _ & _).
  rewrite Hc in Hv. cbn [backward_step e_index e_tree].
  rewrite (spine_top _ _ _ _ _ _ _ Hs).
  assert (foldl dadd (dim D pre) (take i (child_summaries x)) = dim D (pre ++ items_before x i)) as Epos.
  { destruct x as [h0 s ss ts|s its ss]; destruct h as [|h]; try by destruct Hwx.
    - destruct Hwx as (_ & _ & _ & -> & _ & F). cbn [child_summaries items_before].
      rewrite firstn_map. apply (foldl_children h); [by apply Forall_take|].
      cbn [contents] in Hv. rewrite <- (take_drop i ts), flat_map_app, <- app_assoc in Hv.
      by apply valid_mid in Hv as [? _].
    - destruct Hwx as (_ & -> & _). cbn [child_summaries items_before]. rewrite firstn_map.
      apply foldl_items. cbn [contents] in Hv. rewrite <- (take_drop i its), <- app_assoc in Hv.
      by apply valid_mid in Hv as [? _]. }
  assert (∃ s, child_summaries x !! i = Some s) as [s Hsi] by (by apply lookup_lt_is_Some_2).
  subst j. destruct desc.
  - destruct i; rewrite (proj2 (Nat.leb_le _ _)) by lia; cbn [mbind option_bind];
      rewrite Epos, Hsi; cbn [mbind option_bind]; by destruct x.
  - replace (S i - 1)%nat with i by lia. rewrite (proj2 (Nat.leb_le _ _)) by lia.
    cbn [mbind option_bind]. rewrite Epos, Hsi. cbn [mbind option_bind]. by destruct x.
Qed.

Definition backward_outcome root hr before after (r : list (entry T U D) * D) : Prop :=
  let '(stk, pos) := r in
  (before = [] ∧ stk = [] ∧ pos = dzero) ∨
  ∃ b y, before = b ++ [y] ∧ at_item root hr stk b (y :: after) ∧ pos = dim D b.

Lemma child_summaries_ne h (x : tree) :
  wf h x → contents x ≠ [] → child_summaries x ≠ [].
Proof.
  destruct h, x as [h0 s ss ts|s its ss]; cbn; try done.
  - intros (_ & -> & _). by destruct its.
  - intros (_ & Hne & _ & -> & _). by destruct ts.
Qed.

(** Down to the last item of a subtree, which is also the case of a node
    whose child before the index is entered. *)
Lemma backward_child root hr h :
  wf hr root → (hr < stack_capacity)%nat → valid (contents root) →
  ∀ x stk pre post i pos epos (desc : bool),
  spine root hr stk h x pre post → (i < length (child_summaries x))%nat →
  let j := if desc then i else S i in
  ∃ n st' r, (n ≤ h)%nat ∧ reaches step n (mk_entry x j epos :: stk, pos, desc) st' ∧
    step st' = Some (inr r) ∧
    backward_outcome root hr (pre ++ items_before x (S i)) (items_from x (S i) ++ post) r.
Proof.
  intros Hw Hhr Hv. induction h as [|h IH]; intros x stk pre post i pos epos desc Hs Hi j;
    pose proof (node_at root hr stk _ x pre post i pos epos desc Hw Hv Hs Hi) as Hstep;
    destruct (spine_ok _ _ _ _ _ _ _ Hw Hs) as (Hwx & Hc & Hlen & _);
    destruct x as [h0 s ss ts|s its ss]; try by destruct Hwx.
  - eexists 0%nat, _, _. split_and!; [lia|apply reaches_refl|exact Hstep|].
    right. destruct Hwx as (_ & -> & _). cbn [child_summaries] in Hi. rewrite length_map in Hi.
    destruct (lookup_lt_is_Some_2 its i Hi) as [y Hy]. cbn [items_before items_from].
    exists (pre ++ take i its), y. rewrite (take_S_r _ _ _ Hy), app_assoc. split_and!; [done| |done].
    rewrite app_comm_cons, <- (drop_S _ _ _ Hy). by apply at_item_leaf.
  - destruct Hwx as (-> & _ & _ & -> & _ & F). cbn [child_summaries] in Hi. rewrite length_map in Hi.
    destruct (lookup_lt_is_Some_2 ts i Hi) as [y Hy].
    destruct (proj1 (Forall_lookup _ _) F i y Hy) as [Hwy Hney].
    pose proof (child_summaries_ne h y Hwy Hney) as Hcs.
    cbn [items_before items_from] in *. rewrite Hy in Hstep. cbn [mbind option_bind] in Hstep.
    rewrite (proj2 (Nat.eqb_neq _ _)) in Hstep by (by intros ?%length_zero_iff_nil).
    unfold stack_capacity in *. rewrite stack_push_ok in Hstep by (cbn [length]; lia).
    cbn [mbind option_bind] in Hstep.
    pose proof (spine_child _ _ _ _ _ _ _ _ _ _ _ _ Hs Hy) as Hs'.
    assert (0 < length (child_summaries y))%nat by (by destruct (child_summaries y); [|cbn; lia]).
    destruct (IH y _ _ _ (length (child_summaries y) - 1)%nat
        (dim D (pre ++ flat_map contents (take i ts))) dzero true Hs') as (n & st' & r & Hn & Hr & Hst & Ho);
      [lia|].
    exists (S n), st', r. split_and!; [lia| |done|].
    + eapply reaches_step; [exact Hstep|exact Hr].
    + rewrite (take_S_r _ _ _ Hy), flat_map_app. cbn [flat_map]. rewrite app_nil_r.
      assert (items_before y (S (length (child_summaries y) - 1)) = contents y ∧
        items_from y (S (length (child_summaries y) - 1)) = []) as [E1 E2].
      { replace (S (length (child_summaries y) - 1)) with (length (child_summaries y)) by lia.
        destruct y as [h1 s1 ss1 ts1|s1 its1 ss1]; destruct h; try by destruct Hwy.
        - destruct Hwy as (_ & _ & _ & -> & _). cbn. by rewrite length_map, firstn_all, drop_all.
        - destruct Hwy as (_ & -> & _). cbn. by rewrite length_map, firstn_all, drop_all. }
      rewrite E1, E2 in Ho. by rewrite <- !app_assoc in *.
Qed.

(** From an index of any node of the stack, back to the item before it. *)
Lemma backward_resume root hr stk h x pre post i pos epos :
  wf hr root → (hr < stack_capacity)%nat → valid (contents root) →
  spine root hr stk h x pre post → (i ≤ length (child_summaries x))%nat →
  ∃ n st' r, (n ≤ 1 + length stk + hr)%nat ∧
    reaches step n (mk_entry x i epos :: stk, pos, false) st' ∧
    step st' = Some (inr r) ∧
    backward_outcome root hr (pre ++ items_before x i) (items_from x i ++ post) r.
Proof.
  intros Hw Hhr Hv Hs. revert i pos epos. induction Hs as [|stk h h0 s ss ts k x pre post Hs IH Hk];
    intros i pos epos Hi.
  - destruct i as [|i].
    + exists 1%nat, ([], dzero, false), ([], dzero). split_and!; [lia| |done|].
      * eapply reaches_step; [reflexivity|apply reaches_refl].
      * left. split_and!; [|done..]. by destruct root.
    + destruct (backward_child root hr hr Hw Hhr Hv root [] [] [] i pos epos false)
        as (n & st' & r & Hn & Hr & Hst & Ho); [constructor|lia|].
      exists n, st', r. split_and!; [lia|done..].
  - pose proof (spine_child _ _ _ _ _ _ _ _ _ _ _ _ Hs Hk) as Hs'.
    destruct (spine_ok _ _ _ _ _ _ _ Hw Hs) as ((-> & _ & _ & -> & _) & _ & Hlen & _).
    destruct i as [|i].
    + destruct (IH k (dim D (pre ++ flat_map contents (take k ts)))
          (dim D (pre ++ flat_map contents (take k ts)))) as (n & st' & r & Hn & Hr & Hst & Ho).
      { cbn. rewrite length_map. apply lookup_lt_Some in Hk. lia. }
      exists (S n), st', r. cbn [length]. split_and!; [lia| |done|].
      * eapply reaches_step; [reflexivity|exact Hr].
      * cbn [items_before items_from] in Ho. rewrite (drop_S _ _ _ Hk) in Ho. cbn [flat_map] in Ho.
        assert (items_before x 0 = [] ∧ items_from x 0 = contents x) as [-> ->] by by destruct x.
        rewrite app_nil_r. by rewrite <- app_assoc in Ho.
    + destruct (backward_child root hr h Hw Hhr Hv x _ _ _ i pos epos false Hs')
        as (n & st' & r & Hn & Hr & Hst & Ho); [lia|].
      exists n, st', r. cbn [length]. split_and!; [lia|done..].
Qed.

Lemma prev_finish (c : t T U D) h stk0 pos0 before after n st' r :
  wf h (c_tree c) → (h < stack_capacity)%nat → valid (contents (c_tree c)) →
  contents (c_tree c) = before ++ after → SumTree.is_empty (c_tree c) = false →
  reaches step n (stk0, pos0, false) st' → step st' = Some (inr r) →
  (n < 2 * (length (stack c) + height (c_tree c)) + 4)%nat →
  backward_outcome (c_tree c) h before after r →
  ∃ c', ('(stack, pos) ← iterate step (2 * (length (stack c) + height (c_tree c)) + 4) (stk0, pos0, false);
         Some (mk (c_tree c) stack pos true false)) = Some c' ∧
    ((before = [] ∧ idle c' after) ∨ ∃ b y, before = b ++ [y] ∧ positioned c' b (y :: after)).
Proof.
  intros Hw Hh Hv Hc He Hr Hst Hn Ho. rewrite (iterate_exit _ _ _ _ _ _ Hr Hst) by done.
  destruct r as [stk pos]. cbn [mbind option_bind]. eexists. split; [done|].
  destruct Ho as [(-> & -> & ->)|(b & y & -> & Ha & ->)].
  - left. split; [done|]. apply (Build_idle _ _ h); cbn; try done. by rewrite Hc in Hv.
  - right. exists b, y. split; [done|]. apply (Build_positioned _ _ _ h); cbn; try done.
    + by right.
    + destruct (at_item_contents _ _ _ _ _ Hw Ha) as (_ & _ & Hne & _). by destruct stk.
Qed.

Lemma prev_ok (c : t T U D) before after :
  positioned c before after →
  ∃ c', prev c = Some c' ∧
    ((before = [] ∧ idle c' after) ∨ ∃ b y, before = b ++ [y] ∧ positioned c' b (y :: after)).
Proof.
  intros Hc. pose proof (positioned_contents _ _ _ Hc) as Hcont.
  destruct Hc as [h Hw Hh Hv Hs Hp Hl He]. unfold prev, search_backward. rewrite Hs, He.
  pose proof (wf_empty _ _ Hw) as Hemp.
  destruct Hl as [(Hk & -> & ->)|Hl].
  - rewrite Hk. destruct (SumTree.is_empty (c_tree c)) eqn:Ee.
    + cbn [mbind option_bind]. replace (2 * (length [] + height (c_tree c)) + 4)%nat
        with (S (2 * (length (A := entry T U D) [] + height (c_tree c)) + 3)) by (cbn [length]; lia).
      cbn [iterate backward_step mbind option_bind]. eexists. split; [done|]. left.
      split; [by apply Hemp|]. rewrite (proj1 Hemp eq_refl) in *.
      apply (Build_idle _ _ h); cbn; try done; by rewrite (proj1 Hemp eq_refl).
    + rewrite stack_push_ok by (cbn; lia). cbn [mbind option_bind].
      destruct (backward_resume (c_tree c) h [] h (c_tree c) [] [] (length (child_summaries (c_tree c)))
          dzero (from_summary (SumTree.summary (c_tree c))) Hw Hh Hv (spine_root _ _))
        as (n & st' & r & Hn & Hr & Hst & Ho); [lia|].
      assert (items_before (c_tree c) (length (child_summaries (c_tree c))) = contents (c_tree c) ∧
        items_from (c_tree c) (length (child_summaries (c_tree c))) = []) as [E1 E2].
      { destruct (c_tree c) as [h1 s1 ss1 ts1|s1 its1 ss1]; destruct h; try by destruct Hw.
        - destruct Hw as (_ & _ & _ & -> & _). cbn. by rewrite length_map, firstn_all, drop_all.
        - destruct Hw as (_ & -> & _). cbn. by rewrite length_map, firstn_all, drop_all. }
      rewrite E1, E2 in Ho.
      rewrite <- Hk. apply (prev_finish c h _ _ _ _ n st' r); try done.
      * by rewrite Hk.
      * rewrite (wf_height _ _ Hw). cbn [length] in Hn. lia.
  - assert (SumTree.is_empty (c_tree c) = false) as Ee.
    { apply not_true_iff_false. rewrite Hemp.
      destruct (at_item_contents _ _ _ _ _ Hw Hl) as (-> & Hne & _). by destruct before, after. }
    remember (stack c) as stk0 eqn:Estk. destruct Hl as [stk s its ss pre post i epos Hsp Hi].
    cbn [mbind option_bind]. rewrite Estk.
    destruct (spine_ok _ _ _ _ _ _ _ Hw Hsp) as ((_ & -> & _) & _ & Hlen & _).
    destruct (backward_resume (c_tree c) h stk 0 (Leaf s its (map item_summary its)) pre post i
        (position c) epos Hw Hh Hv Hsp) as (n & st' & r & Hn & Hr & Hst & Ho).
    { cbn. rewrite length_map. lia. }
    apply (prev_finish c h _ _ _ _ n st' r); try done.
    + by rewrite <- Estk.
    + rewrite <- Estk, (wf_height _ _ Hw). cbn [length]. lia.
Qed.

(** Before its first move a cursor goes back from the end. *)
Lemma prev_fresh (c : t T U D) l :
  fresh c l →
  ∃ c', prev c = Some c' ∧
    ((l = [] ∧ idle c' []) ∨ ∃ b y, l = b ++ [y] ∧ positioned c' b [y]).
Proof.
  intros [h Hw Hcont Hh Hv Hs Hk Hp He].
  assert (positioned (mk (c_tree c) [] (dim D l) true true) l []) as Hpos.
  { apply (Build_positioned _ _ _ h); cbn; try done; [by rewrite Hcont|]. by left. }
  destruct (prev_ok _ _ _ Hpos) as (c' & E & H). exists c'. split; [|exact H].
  rewrite <- E. unfold prev, search_backward. rewrite Hs, Hk. done.
Qed.
End backward.

(** ** The neighbours of the current item *)
Section neighbours.
Context {T U D : Type} `{!Summary U, !Item T U, !Dimension D U, !SummaryLaws T U,
  !DimensionLaws D T U}.
Abbreviation tree := (node T U).
Implicit Types (l k before after pre post : list T).

Lemma next_leaf_ok root hr stk h x pre post :
  wf hr root → spine (D := D) root hr stk h x pre post →
  ∃ r, next_leaf stk = Some r ∧
    match r with
    | Some lf => wf 0 lf ∧ post ≠ [] ∧ head (contents lf) = head post
    | None => post = []
    end.
Proof.
  intros Hw Hs. induction Hs as [|stk h h0 s ss ts i x pre post Hs (r & IH & Hr) Hi]; [by exists None|].
  destruct (spine_ok _ _ _ _ _ _ _ Hw Hs) as ((-> & _ & _ & -> & _ & F) & _ & _ & _).
  cbn [next_leaf e_tree child_trees e_index mbind option_bind].
  pose proof (lookup_lt_Some _ _ _ Hi) as Hlt.
  destruct (Nat.ltb_spec i (length ts - 1)).
  - destruct (lookup_lt_is_Some_2 ts (i + 1)) as [y Hy]; [lia|]. rewrite Hy. cbn [mbind option_bind].
    destruct (proj1 (Forall_lookup _ _) F _ _ Hy) as [Hwy Hney].
    rewrite (wf_height _ _ Hwy).
    destruct (leftmost_leaf_ok h h y Hwy) as (lf & -> & Hlf & Eh); [lia|].
    exists (Some lf). split; [done|]. rewrite Nat.add_1_r in Hy. rewrite (drop_S _ _ _ Hy).
    cbn [flat_map]. rewrite <- app_assoc, head_app_ne by done. split_and!; [done| |done].
    by intros [? _]%app_eq_nil.
  - rewrite drop_ge by lia. exists r. split; [done|]. done.
Qed.

Lemma prev_leaf_ok root hr stk h x pre post :
  wf hr root → spine (D := D) root hr stk h x pre post →
  ∃ r, prev_leaf stk = Some r ∧
    match r with
    | Some lf => wf 0 lf ∧ pre ≠ [] ∧ list.last (contents lf) = list.last pre
    | None => pre = []
    end.
Proof.
  intros Hw Hs. induction Hs as [|stk h h0 s ss ts i x pre post Hs (r & IH & Hr) Hi]; [by exists None|].
  destruct (spine_ok _ _ _ _ _ _ _ Hw Hs) as ((-> & _ & _ & -> & _ & F) & _ & _ & _).
  cbn [prev_leaf e_tree child_trees e_index mbind option_bind].
  pose proof (lookup_lt_Some _ _ _ Hi) as Hlt.
  destruct i as [|i]; cbn [Nat.eqb negb].
  - cbn [take flat_map]. rewrite app_nil_r. by exists r.
  - destruct (lookup_lt_is_Some_2 ts i) as [y Hy]; [lia|].
    replace (S i - 1)%nat with i by lia. rewrite Hy. cbn [mbind option_bind].
    destruct (proj1 (Forall_lookup _ _) F _ _ Hy) as [Hwy Hney].
    rewrite (wf_height _ _ Hwy).
    destruct (rightmost_leaf_ok h h y Hwy) as (lf & -> & Hlf & Eh); [lia|].
    exists (Some lf). split; [done|]. rewrite (take_S_r _ _ _ Hy), contents_snoc, app_assoc.
    rewrite last_app_ne by done. split_and!; [done| |done]. by intros [_ ?]%app_eq_nil.
Qed.

Lemma next_item_ok (c : t T U D) before after :
  positioned c before after → next_item c = Some (head (tail after)).
Proof.
  intros [h Hw Hh Hv Hs Hp Hl He]. unfold next_item, assert_did_seek. rewrite Hs. cbn [mbind option_bind].
  destruct Hl as [(Hk & -> & ->)|Hl].
  { rewrite Hk in He |- *. by rewrite He. }
  destruct (stack c) as [|e stk0] eqn:Ek; [by inversion Hl|].
  remember (e :: stk0) as stk' eqn:E. destruct Hl as [stk s its ss pre post i epos Hsp Hi].
  injection E as <- <-. cbn [e_tree e_index items mbind option_bind].
  destruct (lookup_lt_is_Some_2 its i Hi) as [x Hx]. rewrite (drop_S _ _ _ Hx). cbn [app tail].
  destruct (Nat.eqb_spec i (length its - 1)).
  - rewrite drop_ge by lia. cbn [app].
    destruct (next_leaf_ok _ _ _ _ _ _ _ Hw Hsp) as ([lf|] & -> & Hr); cbn [mbind option_bind];
      [|by rewrite Hr].
    destruct Hr as (Hlf & Hne & Eh). destruct lf as [|s1 its1 ss1]; [by destruct Hlf|].
    cbn [items mbind option_bind contents] in *. rewrite Eh. by destruct post.
  - destruct (lookup_lt_is_Some_2 its (i + 1)) as [y Hy]; [lia|]. rewrite Hy.
    rewrite Nat.add_1_r in Hy. by rewrite (drop_S _ _ _ Hy).
Qed.

Lemma prev_item_ok (c : t T U D) before after :
  positioned c before after → prev_item c = Some (list.last before).
Proof.
  intros [h Hw Hh Hv Hs Hp Hl He]. unfold prev_item, assert_did_seek. rewrite Hs. cbn [mbind option_bind].
  destruct Hl as [(Hk & -> & ->)|Hl].
  { rewrite Hk in He |- *. rewrite He. by apply (last_ok h). }
  destruct (stack c) as [|e stk0] eqn:Ek; [by inversion Hl|].
  remember (e :: stk0) as stk' eqn:E. destruct Hl as [stk s its ss pre post i epos Hsp Hi].
  injection E as <- <-. cbn [e_tree e_index items mbind option_bind].
  destruct i as [|i]; cbn [Nat.eqb].
  - cbn [take]. rewrite app_nil_r.
    destruct (prev_leaf_ok _ _ _ _ _ _ _ Hw Hsp) as ([lf|] & -> & Hr); cbn [mbind option_bind];
      [|by rewrite Hr].
    destruct Hr as (Hlf & Hne & Eh). destruct lf as [|s1 its1 ss1]; [by destruct Hlf|].
    cbn [items mbind option_bind contents] in *. rewrite Eh.
    destruct (list.last pre) eqn:El; [done|]. by apply last_None in El.
  - destruct (lookup_lt_is_Some_2 its i) as [y Hy]; [lia|].
    replace (S i - 1)%nat with i by lia. by rewrite Hy, (take_S_r _ _ _ Hy), app_assoc, last_snoc.
Qed.
End neighbours.

(** ** Iteration *)
Section iteration.
Context {T U D : Type} `{!Summary U, !Item T U, !Dimension D U, !SummaryLaws T U,
  !Measured D T U, !Positions D T U}.

(** [crates/sum_tree/src/cursor.rs:665-676] Iterator for Cursor *)
Definition iter_next (c : t T U D) : option (t T U D * option T) :=
  c ← (if did_seek c then Some c else next c);
  x ← item c;
  match x with
  | Some x => c ← next c; Some (c, Some x)
  | None => Some (c, None)
  end.

Fixpoint items_loop (fuel : nat) (c : t T U D) : option (list T) :=
  match fuel with
  | O => None
  | S fuel =>
      x ← item c;
      match x with
      | Some x => c ← next c; l ← items_loop fuel c; Some (x :: l)
      | None => Some []
      end
  end.

Lemma true_filter_ok : filter_ok (T := T) (λ _ : U, true).
Proof. by intros k _. Qed.
Lemma true_jumps_ok : jumps_ok (T := T) (D := D) (λ _ : U, true).
Proof. by intros l k _ _. Qed.
Lemma not_rejected (k : list T) : rejected (λ _ : U, true) k → k = [].
Proof. destruct k as [|x k]; [done|]. by intros [? _]%Forall_cons. Qed.

Lemma next_ok (c : t T U D) before x after :
  positioned c before (x :: after) →
  ∃ c', next c = Some c' ∧ positioned c' (before ++ [x]) after.
Proof.
  intros Hc. destruct (search_forward_ok _ true_filter_ok true_jumps_ok c _ _ Hc)
    as (c' & mid & after' & E & -> & ->%not_rejected & _ & Hp). by exists c'.
Qed.
Lemma next_idle (c : t T U D) l :
  idle c l → ∃ c', next c = Some c' ∧ positioned c' [] l.
Proof.
  intros Hc. destruct (search_forward_idle _ true_filter_ok true_jumps_ok c l Hc)
    as (c' & mid & after' & E & -> & ->%not_rejected & _ & Hp). by exists c'.
Qed.

Lemma items_loop_ok (c : t T U D) before after fuel :
  positioned c before after → (length after < fuel)%nat → items_loop fuel c = Some after.
Proof.
  revert c before fuel. induction after as [|x after IH]; intros c before fuel Hc Hf;
    (destruct fuel as [|fuel]; [lia|]); cbn [items_loop]; rewrite (item_ok _ _ _ Hc);
    cbn [mbind option_bind head]; [done|].
  destruct (next_ok _ _ _ _ Hc) as (c' & -> & Hc'). cbn [mbind option_bind length] in *.
  rewrite (IH c' _ fuel Hc') by lia. done.
Qed.
End iteration.

(** The loop ends with the items; one more iteration than items is enough.
    [crates/sum_tree/src/sum_tree.rs:381-390] SumTree::items *)
Definition items {T U} `{!Summary U, !Item T U} (fuel : nat) (x : node T U) : option (list T) :=
  c ← next (new (D := unit) x); items_loop fuel c.

Lemma exact_jumps {T U D} `{!Summary U, !Item T U, !Dimension D U, !SummaryLaws T U, !DimensionLaws D T U} (f : U → bool) :
  jumps_ok (T := T) (D := D) f.
Proof. intros l k Hk Hv _. by apply dim_app. Qed.

(** ** The contract of the cursor *)
Section contract.
Context {T U D O : Type} `{!Summary U, !Item T U, !Dimension D U, !SummaryLaws T U,
  !DimensionLaws D T U, !Dimension O U, !DimensionLaws O T U}.
Implicit Types (l before after : list T) (c : t T U D).

(** C20: Seeking with a stack through the tree is seeking in the sequence. From a cursor with
    [before] behind and [after] ahead (or a fresh one), and a target that is not
    behind it: [seek_forward], [slice] and [summary] never panic, move over a
    prefix of what is ahead up to the first boundary where the target is passed
    but the next item's end is not, leave the cursor exactly there, and return
    whether the target was hit, the tree of the items moved over, or their sum.
    [suffix] moves to the end and returns all the rest. *)
Theorem seek_correct target b c before after :
  ready c before after → target (dim D before) ≠ Lt →
  (∃ c' mid rest, seek_forward target b c = Some (c', hit target b (before ++ mid) rest) ∧
     after = mid ++ rest ∧ stopped target b before mid rest ∧ positioned c' (before ++ mid) rest) ∧
  (∃ c' x mid rest, slice target b c = Some (c', x) ∧ represents x mid ∧
     after = mid ++ rest ∧ stopped target b before mid rest ∧ positioned c' (before ++ mid) rest) ∧
  (∃ c' mid rest, summary (O := O) target b c = Some (c', dim O mid) ∧
     after = mid ++ rest ∧ stopped target b before mid rest ∧ positioned c' (before ++ mid) rest) ∧
  (∃ c' x, suffix c = Some (c', x) ∧ represents x after ∧ positioned c' (before ++ after) []).
Proof.
  intros Hc Ht. split_and!.
  - by apply seek_forward_ok.
  - by apply slice_ok.
  - by apply summary_ok.
  - by apply suffix_ok.
Qed.

(** C28: Moving item by item. With [before] behind and [x :: after] ahead, [item],
    [next_item], [prev_item], [start] and [end] read the item, its neighbours and
    the positions around it; [next] steps over [x], [prev] over the last item
    of [before] (to before the start when there is none), and [next] undoes
    [prev]. No step panics and the loops end. *)
Theorem step_correct c before x after :
  positioned c before (x :: after) →
  item c = Some (Some x) ∧ next_item c = Some (head after) ∧
  prev_item c = Some (list.last before) ∧
  start c = dim D before ∧ end_ c = Some (dim D (before ++ [x])) ∧
  (∃ c', next c = Some c' ∧ positioned c' (before ++ [x]) after) ∧
  (∃ c', prev c = Some c' ∧
     ((before = [] ∧ idle c' (x :: after)) ∨
      ∃ b y, before = b ++ [y] ∧ positioned c' b (y :: x :: after)) ∧
     ∃ c'', next c' = Some c'' ∧ positioned c'' before (x :: after)).
Proof.
  intros Hc. split_and!.
  - by rewrite (item_ok _ _ _ Hc).
  - by rewrite (next_item_ok _ _ _ Hc).
  - by apply (prev_item_ok _ _ _ Hc).
  - by eapply p_position.
  - by rewrite (end_ok _ _ _ Hc).
  - by apply next_ok.
  - destruct (prev_ok _ _ _ Hc) as (c' & E & H). exists c'. split_and!; [done..|].
    destruct H as [[-> Hi]|(b & y & -> & Hp)]; [by apply next_idle|by apply next_ok].
Qed.

(** A filtered walk ([search_forward], on which [FilterCursor::next] rests) with a filter
    that rejects a sum only if it rejects every summand: it stops at the next
    item that is accepted, having rejected all in between, also when it jumps
    over subtrees by their cached summaries. From the start, the unfiltered walk
    ([items]) visits all items in order. *)
Theorem filter_correct f c before x after y l h :
  filter_ok (T := T) f → positioned c before (x :: after) →
  wf h y → contents y = l → (h < stack_capacity)%nat → valid l →
  (∃ c' mid rest, search_forward f c = Some c' ∧ after = mid ++ rest ∧
     Forall (λ z, f (item_summary z) = false) mid ∧
     (∀ z, head rest = Some z → f (item_summary z) = true) ∧
     positioned c' (before ++ [x] ++ mid) rest) ∧
  (∃ c' mid rest, search_forward f (new (D := D) y) = Some c' ∧ l = mid ++ rest ∧
     Forall (λ z, f (item_summary z) = false) mid ∧
     (∀ z, head rest = Some z → f (item_summary z) = true) ∧ positioned c' mid rest) ∧
  items_loop (S (length after)) <$> next c = Some (Some after).
Proof.
  intros Hf Hc Hw Hcont Hh Hv. split_and!.
  - by apply (search_forward_ok f Hf (exact_jumps f) c before (x :: after)).
  - apply (search_forward_idle f Hf (exact_jumps f)). apply fresh_idle. by eapply new_fresh.
  - destruct (next_ok _ _ _ _ Hc) as (c' & -> & Hc'). cbn [fmap option_fmap option_map].
    rewrite (items_loop_ok c' _ _ (S (length after)) Hc'); [done|lia].
Qed.
End contract.

Import SumTree.Example.
#[local] Existing Instance TreeFind.total_laws.

Lemma first_of (x : node Z Z) h l :
  wf h x → contents x = l → (h < stack_capacity)%nat →
  ∃ c, next (new (D := Z) x) = Some c ∧ positioned c [] l.
Proof.
  intros Hw Hc Hh. apply next_idle, fresh_idle. by apply (new_fresh x l h).
Qed.

Lemma seek_correct_witness :
  ∃ x c c' s, from_iter (upto 40) = Some x ∧ c = new (D := Z) x ∧
    slice (Z.compare 100) Left c = Some (c', s) ∧ contents s = upto 14 ∧ start c' = 91.
Proof.
  destruct (from_iter_ok (upto 40) (ok _)) as (x & h & E & Hw & Hc).
  assert (h < stack_capacity)%nat as Hh.
  { rewrite <- (wf_height h x Hw). vm_compute in E. injection E as <-. vm_compute. lia. }
  destruct (seek_correct (D := Z) (O := Z) (Z.compare 100) Left (new x) [] (upto 40))
    as (_ & (c' & s & mid & rest & Es & Hs & Hr & [H1 H2] & Hp) & _).
  - right. split; [done|]. by apply (new_fresh x _ h).
  - by vm_compute.
  - exists x, (new x), c', s. split_and!; [done..| |].
    + vm_compute in E. injection E as <-. vm_compute in Es. by injection Es as <- <-.
    + vm_compute in E. injection E as <-. vm_compute in Es. by injection Es as <- <-.
Defined.

Lemma step_correct_witness :
  ∃ x c c', from_iter (upto 3) = Some x ∧ next (new (D := Z) x) = Some c ∧
    next_item c = Some (Some 1) ∧ next c = Some c' ∧ start c' = 0.
Proof.
  destruct (from_iter_ok (upto 3) (ok _)) as (x & h & E & Hw & Hc).
  destruct (first_of x h (upto 3)) as (c & En & Hp); [done..| |].
  { rewrite <- (wf_height h x Hw). vm_compute in E. injection E as <-. vm_compute. lia. }
  destruct (step_correct c [] 0 [1; 2] Hp) as (_ & Hn & _ & _ & _ & (c' & Ec & Hc') & _).
  exists x, c, c'. split_and!; [done..|]. unfold start. by rewrite (p_position _ _ _ Hc').
Defined.

(* A filter that rejects everything leads to the end. *)
Lemma filter_correct_witness :
  ∃ x c c', from_iter (upto 40) = Some x ∧ next (new (D := Z) x) = Some c ∧
    search_forward (λ _, false) c = Some c' ∧ start c' = 780.
Proof.
  destruct (from_iter_ok (upto 40) (ok _)) as (x & h & E & Hw & Hc).
  assert (h < stack_capacity)%nat as Hh.
  { rewrite <- (wf_height h x Hw). vm_compute in E. injection E as <-. vm_compute. lia. }
  destruct (first_of x h (upto 40)) as (c & En & Hp); [done..|].
  destruct (filter_correct (D := Z) (λ _, false) c [] 0 (tail (upto 40)) x (upto 40) h)
    as ((c' & mid & rest & Ec & Hm & _ & Hacc & Hp') & _).
  - intros k _ _. by apply Forall_true.
  - done.
  - done.
  - done.
  - done.
  - exact (ok _).
  - exists x, c, c'. split_and!; [done..|]. unfold start. rewrite (p_position _ _ _ Hp').
    destruct rest as [|z rest]; [|by specialize (Hacc z eq_refl)].
    rewrite app_nil_r in Hm. by rewrite <- Hm.
Defined.
End Cursor.
