(* ===== verification/TreeWeight.v ===== *)
(** How high the trees can grow. Nothing keeps a node from having few children
    ([from_iter] leaves the last node of each level as it comes), so the height
    is not bounded by the number of items alone; but appending never lets a node
    with fewer than [TREE_BASE] children below a new parent. The [weight] of a
    tree counts every inner node as if it were half full: no operation makes
    it larger than what it was given, and the height is at most its logarithm, so
    that the stack of a cursor ([sum_tree/src/cursor.rs:32]) has room. *)
From S2P Require Import Prelude SumTree TreeFind Cursor.

Module TreeWeight.
Import SumTree.

Section weight.
Context {T U : Type} `{!Summary U, !Item T U}.
Abbreviation tree := (node T U).
Implicit Types (t a b : tree) (ts : list tree).

Fixpoint weight t : Z :=
  match t with
  | Leaf _ its _ => Z.of_nat (length its)
  | Internal h _ _ ts => foldr (λ t n, Z.max (6 ^ Z.of_nat h) (weight t) + n) 0 ts
  end.
(** What a node of height [h] counts below a parent. *)
Definition inner (h : nat) t : Z := Z.max (6 ^ Z.of_nat (S h)) (weight t).
Definition inners (h : nat) ts : Z := foldr (λ t n, inner h t + n) 0 ts.

(** The shape alone: the heights are right. *)
Fixpoint level (h : nat) t : Prop :=
  match h, t with
  | O, Leaf _ _ _ => True
  | S h', Internal h0 _ _ ts => h0 = h ∧ Forall (level h') ts
  | _, _ => False
  end.
(** The tree that was split off, if any. *)
Definition also (r : option tree) : list tree := match r with Some t => [t] | None => [] end.
Definition full t : Prop := is_underflowing t = false.

Lemma level_height h t : level h t → height t = h.
Proof. destruct h, t; try done. by intros [-> _]. Qed.
Lemma wf_level `{!SummaryLaws T U} h t : wf h t → level h t.
Proof.
  revert t. induction h as [|h IH]; intros [h0 s ss ts|s its ss]; try done.
  intros (-> & _ & _ & _ & _ & F). split; [done|]. eapply Forall_impl; [exact F|].
  intros t [Ht _]. by apply IH.
Qed.

Lemma weight_internal h s ss ts : weight (Internal (S h) s ss ts) = inners h ts.
Proof. done. Qed.
Lemma weight_leaf s (its : list T) ss : weight (Leaf s its ss) = Z.of_nat (length its).
Proof. done. Qed.
Lemma pow6_pos n : 0 < 6 ^ Z.of_nat n.
Proof. apply Z.pow_pos_nonneg; lia. Qed.
Lemma inner_pos h t : 6 ^ Z.of_nat (S h) ≤ inner h t.
Proof. unfold inner. lia. Qed.
Lemma inner_ge h t : weight t ≤ inner h t.
Proof. unfold inner. lia. Qed.
Lemma inners_cons h t ts : inners h (t :: ts) = inner h t + inners h ts.
Proof. done. Qed.
Lemma inners_nil h : inners h [] = 0.
Proof. done. Qed.
Lemma inners_nonneg h ts : 0 ≤ inners h ts.
Proof.
  induction ts as [|t ts IH]; rewrite ?inners_cons, ?inners_nil; [lia|].
  pose proof (inner_pos h t). pose proof (pow6_pos (S h)). lia.
Qed.
Lemma weight_nonneg t : 0 ≤ weight t.
Proof.
  destruct t as [h s ss ts|s its ss]; [|cbn; lia]. cbn.
  induction ts as [|t ts IH]; cbn; [lia|]. pose proof (pow6_pos h). lia.
Qed.
Lemma inners_app h ts us : inners h (ts ++ us) = inners h ts + inners h us.
Proof. induction ts as [|t ts IH]; cbn [app]; rewrite ?inners_cons, ?inners_nil; lia. Qed.
Lemma inners_length h ts : Z.of_nat (length ts) * 6 ^ Z.of_nat (S h) ≤ inners h ts.
Proof.
  induction ts as [|t ts IH]; cbn [length]; rewrite ?inners_cons, ?inners_nil; [lia|].
  pose proof (inner_pos h t). lia.
Qed.

(** A node that is at least half full counts no more than its children. *)
Lemma full_inner h t : level h t → full t → inner h t = weight t.
Proof.
  unfold full. destruct h as [|h], t as [h0 s ss ts|s its ss]; try done; cbn [is_underflowing].
  - intros _ Hf%Nat.ltb_ge. unfold inner. cbn [weight]. change (6 ^ Z.of_nat 1) with 6. unfold TREE_BASE in Hf. lia.
  - intros [-> _] Hf%Nat.ltb_ge. unfold inner. rewrite weight_internal.
    pose proof (inners_length h ts). pose proof (pow6_pos (S h)).
    rewrite (Nat2Z.inj_succ (S h)), Z.pow_succ_r by lia. unfold TREE_BASE in Hf. nia.
Qed.

(** The height is at most the logarithm of the weight. *)
Lemma height_weight h t : level (S h) t → is_empty t = false → child_trees t ≠ Some [] → 6 ^ Z.of_nat (S h) ≤ weight t.
Proof.
  destruct t as [h0 s ss ts|s its ss]; [|done]. intros [-> _] _ Hne. rewrite weight_internal.
  pose proof (inners_length h ts). pose proof (pow6_pos (S h)).
  destruct ts as [|t ts]; [by destruct Hne|]. cbn [length] in *. nia.
Qed.
Lemma weight_fits `{!SummaryLaws T U} h t : wf h t → weight t < 6 ^ 16 → (h < Cursor.stack_capacity)%nat.
Proof.
  intros Hw Hlt. destruct h as [|h]; [unfold Cursor.stack_capacity; lia|].
  pose proof (wf_level _ _ Hw) as Hl. destruct t as [h0 s ss ts|s its ss]; [|done].
  destruct Hw as (-> & Hne & _).
  assert (6 ^ Z.of_nat (S h) ≤ weight (Internal (S h) s ss ts)) as H.
  { apply (height_weight h); [done|done|]. cbn. congruence. }
  assert (Z.of_nat (S h) < 16).
  { apply (Z.pow_lt_mono_r_iff 6); lia. }
  unfold Cursor.stack_capacity. lia.
Qed.

Lemma array_inv {A} (l k : list A) : array l = Some k → k = l.
Proof. unfold array. destruct (Nat.leb _ _); congruence. Qed.
Lemma inners_take_drop h n ts : inners h (take n ts) + inners h (drop n ts) = inners h ts.
Proof. by rewrite <- inners_app, take_drop. Qed.
Lemma set_last_inv {A} (l k : list A) x : set_last l x = Some k → k = removelast l ++ [x].
Proof. destruct l; [done|]. cbn. congruence. Qed.
Lemma last_split {A} (l : list A) x : list.last l = Some x → l = removelast l ++ [x].
Proof.
  intros H. destruct (exists_last (l := l)) as (k & y & ->); [by destruct l|].
  rewrite last_snoc in H. injection H as ->. by rewrite removelast_last.
Qed.
Lemma Forall_removelast {A} (P : A → Prop) (l : list A) : Forall P l → Forall P (removelast l).
Proof.
  destruct l as [|x l] using rev_ind; [done|]. rewrite removelast_last. by intros [? _]%Forall_app.
Qed.
Lemma full_internal h s ss ts : full (Internal h s ss ts) ↔ (TREE_BASE ≤ length ts)%nat.
Proof. unfold full. cbn [is_underflowing]. apply Nat.ltb_ge. Qed.
Lemma full_leaf s (its : list T) ss : full (Leaf (U := U) s its ss) ↔ (TREE_BASE ≤ length its)%nat.
Proof. unfold full. cbn [is_underflowing]. apply Nat.ltb_ge. Qed.

(** What an append gives, at height [h] and with weight at most [w]: the node, or
    two halves. *)
Definition bounded h (r : tree * option tree) (w : Z) : Prop :=
  level h r.1 ∧
  match r.2 with
  | None => weight r.1 ≤ w
  | Some c => level h c ∧ full r.1 ∧ full c ∧ weight r.1 + weight c ≤ w
  end.

(** *** Appending a tree that is not higher *)
Lemma child_trees_level h t ts :
  level (S h) t → child_trees t = Some ts → Forall (level h) ts ∧ weight t = inners h ts.
Proof. destruct t as [h0 s ss us|s its ss]; [|done]. intros [-> F] [= ->]. done. Qed.

Lemma split_bounded h m s1 ss1 s2 ss2 ts w :
  Forall (level h) ts → inners h ts ≤ w →
  (TREE_BASE ≤ m ∧ TREE_BASE + m ≤ length ts)%nat →
  bounded (S h) (Internal (S h) s1 ss1 (take m ts), Some (Internal (S h) s2 ss2 (drop m ts))) w.
Proof.
  intros F Hw Hm. split_and!; cbn [fst snd].
  - split; [done|]. by apply Forall_take.
  - split_and!.
    + split; [done|]. by apply Forall_drop.
    + apply full_internal. rewrite length_take. lia.
    + apply full_internal. rewrite length_drop. lia.
    + rewrite !weight_internal, inners_take_drop. done.
Qed.

Definition rec_bounded (h : nat) (rec : tree → tree → option (tree * option tree)) : Prop :=
  ∀ h' a b r, level h a → level h' b → rec a b = Some r → bounded h r (weight a + weight b).

Lemma bounded_inner h r a w :
  bounded h r (weight a + w) → 0 ≤ w →
  Forall (level h) (r.1 :: also r.2) ∧ inners h (r.1 :: also r.2) ≤ inner h a + w.
Proof.
  destruct r as [x [c|]]; intros [Hx Hr] Hw; cbn [fst snd also] in *.
  - destruct Hr as (Hc & Fx & Fc & Hle). split; [by repeat constructor|].
    rewrite !inners_cons, inners_nil, !full_inner by done. pose proof (inner_ge h a). lia.
  - split; [by repeat constructor|]. rewrite inners_cons, inners_nil. unfold inner. lia.
Qed.

Lemma to_append_bounded rec h h' css cts other css' cts' sa ta :
  rec_bounded h rec → Forall (level h) cts → level h' other →
  to_append rec (S h) css cts other = Some (css', cts', sa, ta) →
  Forall (level h) (cts' ++ ta) ∧ inners h (cts' ++ ta) ≤ inners h cts + weight other.
Proof.
  intros Hrec F Ho. unfold to_append. rewrite (level_height _ _ Ho).
  destruct (Nat.ltb_spec (S h) h'); [done|].
  destruct (Nat.eqb_spec (S h - h') 0) as [Hd|Hd].
  { assert (h' = S h) as -> by lia. destruct (child_trees other) as [ts|] eqn:Ec; [|done].
    intros [= <- <- <- <-]. destruct (child_trees_level h _ _ Ho Ec) as [F' ->].
    rewrite inners_app. split; [by apply Forall_app|lia]. }
  destruct (Nat.eqb (S h - h') 1 && negb (is_underflowing other)) eqn:Ed.
  { apply andb_true_iff in Ed as [E1%Nat.eqb_eq E2%negb_true_iff]. assert (h' = h) as -> by lia.
    intros [= <- <- <- <-]. rewrite inners_app, (inners_cons h other []), inners_nil, full_inner by done.
    split; [|lia]. apply Forall_app. split; [done|by repeat constructor]. }
  destruct (list.last cts) as [l|] eqn:El; [|done]. cbn [mbind option_bind].
  pose proof (last_split _ _ El) as Els.
  assert (level h l) as Hl by (rewrite Els in F; apply Forall_app in F as [_ F]; by inversion F).
  destruct (rec l other) as [[c res]|] eqn:Er; [|done]. cbn [mbind option_bind].
  apply (Hrec h') in Er; [|done|done]. apply bounded_inner in Er as [Fr Hr]; [|apply weight_nonneg].
  destruct (set_last cts c) as [cts1|] eqn:Es; [|done]. cbn [mbind option_bind].
  apply set_last_inv in Es. destruct (set_last css _) as [css1|]; [|done]. cbn [mbind option_bind].
  intros H1. assert (cts' ++ ta = removelast cts ++ c :: also res) as ->.
  { destruct res; injection H1 as <- <- <- <-; subst cts1; cbn [also];
      by rewrite <- ?app_assoc, ?app_nil_r. }
  rewrite inners_app. split.
  { apply Forall_app. split; [by apply Forall_removelast|done]. }
  pose proof (f_equal (inners h) Els) as HE. rewrite inners_app, (inners_cons h l []), inners_nil in HE.
  cbn [fst snd] in Hr. lia.
Qed.

Lemma half_bounds n : (capacity < n)%nat →
  (TREE_BASE ≤ midpoint n ∧ TREE_BASE + midpoint n ≤ n)%nat ∧
  (TREE_BASE ≤ div_ceil2 n ∧ TREE_BASE + div_ceil2 n ≤ n)%nat.
Proof.
  intros H. unfold midpoint, div_ceil2, TREE_BASE in *.
  pose proof (Nat.div_mod n 2). pose proof (Nat.mod_upper_bound n 2).
  pose proof (Nat.div_mod (n + n mod 2) 2). pose proof (Nat.mod_upper_bound (n + n mod 2) 2).
  pose proof (Nat.div_mod (n + 1) 2). pose proof (Nat.mod_upper_bound (n + 1) 2). lia.
Qed.
Lemma split_leaf_bounded m s1 ss1 s2 ss2 (its : list T) w :
  Z.of_nat (length its) ≤ w → (TREE_BASE ≤ m ∧ TREE_BASE + m ≤ length its)%nat →
  bounded 0 (Leaf s1 (take m its) ss1, Some (Leaf s2 (drop m its) ss2)) w.
Proof.
  intros Hw Hm. split; [done|]. cbn [fst snd]. split_and!; [done|..].
  - apply full_leaf. rewrite length_take. lia.
  - apply full_leaf. rewrite length_drop. lia.
  - cbn [weight]. rewrite length_take, length_drop. lia.
Qed.

(** Running through the [array]s of a definition. *)
Ltac arrays H :=
  repeat match type of H with
  | context [array ?l] =>
      let E := fresh "E" in
      destruct (array l) eqn:E; cbn [mbind option_bind] in H; [apply array_inv in E; subst|discriminate H]
  end.

Lemma push_tree_bounded fuel h : rec_bounded h (push_tree_recursive fuel).
Proof.
  revert h. induction fuel as [|fuel IH]; intros h h' a b r Ha Hb H; [done|].
  destruct h as [|h], a as [h0 s css cts|s its ss]; try done; cbn [push_tree_recursive] in H.
  - destruct b as [|s' its' ss']; [done|]. cbn [items mbind option_bind] in H.
    destruct (Nat.ltb_spec capacity (length its + length its')) as [Hc|Hc]; arrays H; injection H as <-.
    + destruct (half_bounds _ Hc) as [Hm _]. apply split_leaf_bounded; rewrite length_app; cbn [weight]; lia.
    + split; [done|]. cbn [fst snd weight]. rewrite length_app. lia.
  - destruct Ha as [-> F].
    destruct (to_append _ _ _ _ _) as [[[[css' cts'] sa] ta]|] eqn:Et; [|done]. cbn [mbind option_bind] in H.
    destruct (to_append_bounded _ _ _ _ _ _ _ _ _ _ (IH h) F Hb Et) as [F' Hw].
    rewrite weight_internal.
    destruct (Nat.ltb_spec capacity (length cts' + length ta)) as [Hc|Hc]; arrays H; injection H as <-.
    + destruct (half_bounds _ Hc) as [Hm _]. apply split_bounded; [done|done|rewrite length_app; lia].
    + split; [by split|]. cbn [fst snd]. by rewrite weight_internal.
Qed.

(** *** Appending a higher tree *)
Lemma merge_bounded h a b r :
  level h a → level h b → merge_into_right a b = Some r → bounded h r (weight a + weight b).
Proof.
  destruct h as [|h], a as [h0 s css cts|s its ss], b as [h1 s' css' cts'|s' its' ss']; try done;
    intros Ha Hb H; cbn [merge_into_right] in H.
  - destruct (Nat.leb_spec (length its + length its') capacity) as [Hc|Hc]; arrays H; injection H as <-.
    + split; [done|]. cbn [fst snd weight]. rewrite length_app. lia.
    + destruct (half_bounds _ Hc) as [_ Hm].
      destruct (split_leaf_bounded (div_ceil2 (length its + length its')) s' [] s' [] (its ++ its')
        (weight (Leaf s its ss) + weight (Leaf s' its' ss'))) as (_ & _ & F1 & F2 & Hw);
        [cbn [weight]; rewrite length_app; lia|rewrite length_app; lia|].
      cbn [fst snd weight] in *. split_and!; [done..|cbn [fst snd]; split_and!; [done|exact F2|exact F1|cbn [weight]; lia]].
  - destruct Ha as [-> Fa], Hb as [-> Fb].
    destruct (Nat.leb_spec (length cts' + length cts) capacity) as [Hc|Hc]; arrays H; injection H as <-.
    + split; [split; [done|by apply Forall_app]|]. cbn [fst snd]. rewrite !weight_internal, inners_app. lia.
    + destruct (half_bounds _ Hc) as [_ Hm].
      destruct (split_bounded h (div_ceil2 (length cts' + length cts)) s' [] s' [] (cts ++ cts')
        (inners h cts + inners h cts')) as (L1 & L2 & F1 & F2 & Hw);
        [by apply Forall_app|rewrite inners_app; lia|rewrite length_app; lia|].
      cbn [fst snd] in *. rewrite !weight_internal in *.
      split; [exact L2|]. cbn [fst snd]. split_and!; [exact L1|exact F2|exact F1|rewrite !weight_internal; lia].
Qed.

Lemma set_first_inv {A} (l k : list A) x : set_first l x = Some k → ∃ y l', l = y :: l' ∧ k = x :: l'.
Proof. destruct l as [|y l]; [done|]. intros [= <-]. by exists y, l. Qed.

(** Below the root the higher tree may be left as it is, beside the lower one. *)
Lemma append_large_bounded fuel h h' a b r :
  level h' a → level h b → append_large fuel a b = Some r →
  (Forall (level h) (also r.2 ++ [r.1]) ∧
   inners h (also r.2 ++ [r.1]) ≤ weight a + inner h b) ∧
  (h' ≠ h → bounded h r (weight a + weight b)).
Proof.
  revert h b r. induction fuel as [|fuel IH]; intros h b r Ha Hb H; [done|]. cbn [append_large] in H.
  rewrite (level_height _ _ Ha), (level_height _ _ Hb) in H.
  assert (∀ r, bounded h r (weight a + weight b) →
    Forall (level h) (also r.2 ++ [r.1]) ∧ inners h (also r.2 ++ [r.1]) ≤ weight a + inner h b)
    as Hin.
  { intros r' Hr. rewrite Z.add_comm in Hr. apply bounded_inner in Hr as [F Hr]; [|apply weight_nonneg].
    rewrite inners_cons in Hr. inversion F; subst.
    rewrite inners_app, inners_cons. rewrite ?inners_nil. split; [|lia].
    apply Forall_app. split; [done|by repeat constructor]. }
  destruct (Nat.eqb_spec h' h) as [->|Hne].
  { split; [|done]. destruct (is_underflowing a) eqn:Eu; cbn [negb] in H; [by apply Hin; eapply merge_bounded|].
    injection H as <-. cbn [fst snd also app]. rewrite !inners_cons, (full_inner h a) by done.
    rewrite ?inners_nil. split; [by repeat constructor|lia]. }
  enough (bounded h r (weight a + weight b)) by (split; [by apply Hin|done]). clear Hin.
  destruct h as [|h], b as [h0 s css cts|s its ss]; try done. destruct Hb as [-> F].
  destruct cts as [|first cts]; [done|]. cbn [head mbind option_bind] in H.
  destruct (append_large fuel a first) as [[first' res]|] eqn:Er; [|done]. cbn [mbind option_bind set_first] in H.
  inversion F as [|? ? Hf F']; subst.
  apply (IH h) in Er as [[Fr Hr] _]; [|done|done].
  destruct (set_first css _) as [css'|]; [|done]. cbn [mbind option_bind fst snd] in *.
  rewrite weight_internal, inners_cons.
  apply Forall_app in Fr as [Fres Ffirst]. rewrite inners_app, (inners_cons h first') in Hr. rewrite ?inners_nil in Hr.
  destruct res as [tree|]; cbn [also] in *.
  - rewrite inners_cons in Hr. inversion Fres; inversion Ffirst; subst.
    destruct (Nat.ltb_spec (length (first' :: cts)) capacity) as [Hc|Hc]; arrays H; injection H as <-.
    + split; [split; [done|by repeat constructor]|]. cbn [fst snd]. rewrite weight_internal, !inners_cons.
      rewrite ?inners_nil in Hr. lia.
    + pose proof (Forall_take (level h) TREE_BASE (first' :: cts)) as Ft.
      pose proof (Forall_drop (level h) TREE_BASE (first' :: cts)) as Fd.
      pose proof (inners_take_drop h TREE_BASE (first' :: cts)) as Etd. rewrite inners_cons in Etd.
      split; [split; [done|apply Fd; by constructor]|]. cbn [fst snd].
      split_and!.
      * split; [done|]. constructor; [done|apply Ft; by constructor].
      * apply full_internal. rewrite length_drop. cbn [length] in *. unfold TREE_BASE in *. lia.
      * apply full_internal. cbn [length] in *. rewrite length_take. unfold TREE_BASE in *. lia.
      * change (drop TREE_BASE (first' :: cts)) with (drop 5 cts) in Etd.
        change (take TREE_BASE (first' :: cts)) with (first' :: take 5 cts) in Etd.
        rewrite !weight_internal, (inners_cons h tree). rewrite ?inners_nil in Hr. lia.
  - injection H as <-. inversion Ffirst; subst. split; [split; [done|by constructor]|].
    cbn [fst snd]. rewrite weight_internal, inners_cons. rewrite ?inners_nil in Hr. lia.
Qed.

Lemma append_bounded ha hb a b r :
  level ha a → level hb b → append a b = Some r →
  ∃ h, level h r ∧ weight r ≤ weight a + weight b.
Proof.
  intros Ha Hb H. unfold append in H. pose proof (weight_nonneg a). pose proof (weight_nonneg b).
  destruct (is_empty a); [injection H as <-; exists hb; split; [done|lia]|].
  destruct (is_empty b); cbn [negb] in H; [injection H as <-; exists ha; split; [done|lia]|].
  rewrite (level_height _ _ Ha), (level_height _ _ Hb) in H.
  assert (∀ h l r w, level h l → level h r → weight l + weight r ≤ w → full l → full r →
    level (S h) (from_child_trees l r) ∧ weight (from_child_trees l r) ≤ w) as Hroot.
  { intros h l r' w Hl Hr Hw Fl Fr. unfold from_child_trees. rewrite (level_height _ _ Hl), Nat.add_1_r.
    split; [split; [done|by repeat constructor]|].
    rewrite weight_internal, !inners_cons, !full_inner by done. rewrite ?inners_nil. lia. }
  destruct (Nat.ltb_spec ha hb) as [Hlt|Hge].
  - destruct (append_large _ a b) as [[x res]|] eqn:E; [|done]. cbn [mbind option_bind] in H.
    apply (append_large_bounded _ hb ha) in E as [_ E]; [|done|done].
    destruct E as [Hx Hres]; [lia|]. cbn [fst snd] in *.
    destruct res as [c|]; injection H as <-; [|by exists hb].
    destruct Hres as (Hc & Fx & Fc & Hw). exists (S hb). apply Hroot; [done..|lia|done|done].
  - destruct (push_tree_recursive _ a b) as [[x res]|] eqn:E; [|done]. cbn [mbind option_bind] in H.
    apply (push_tree_bounded _ ha hb) in E as [Hx Hres]; [|done|done]. cbn [fst snd] in *.
    destruct res as [c|]; injection H as <-; [|by exists ha].
    destruct Hres as (Hc & Fx & Fc & Hw). exists (S ha). by apply Hroot.
Qed.

Lemma push_bounded h t x r :
  level h t → push t x = Some r → ∃ h', level h' r ∧ weight r ≤ weight t + 1.
Proof. intros Ht H. by apply (append_bounded h 0) in H. Qed.

(** *** Building from a sequence
    Only the last node of a level may have few children. *)
Definition items_len (l : list T) : Z := Z.of_nat (length l).

Lemma leaves_bounded fuel (l : list T) nodes :
  leaves_of fuel l = Some nodes →
  Forall (level 0) nodes ∧ inners 0 nodes ≤ items_len l + 6 ∧
  (Z.of_nat (length nodes) - 1) * 12 ≤ items_len l ∧ (l = [] → nodes = []) ∧
  (length nodes = 1%nat → ∀ t, nodes = [t] → weight t ≤ items_len l).
Proof.
  unfold items_len. revert l nodes. induction fuel as [|fuel IH]; intros l nodes H.
  { destruct l; [injection H as <-|done]. rewrite inners_nil. cbn. split_and!; [done|lia..|done|done]. }
  cbn [leaves_of] in H. destruct l as [|x l].
  { injection H as <-. rewrite inners_nil. cbn. split_and!; [done|lia..|done|done]. }
  destruct (array (take capacity (x :: l))) as [its|] eqn:E; [|done]. cbn [mbind option_bind] in H.
  apply array_inv in E. destruct (head _) as [first|]; [|done]. cbn [mbind option_bind] in H.
  destruct (leaves_of fuel (drop capacity (x :: l))) as [nodes'|] eqn:El; [|done].
  cbn [mbind option_bind] in H. injection H as <-.
  assert (length its = Nat.min capacity (S (length l))) as Hits by (by rewrite E, length_take).
  apply IH in El as (F & Hw & Hn & Hnil & _). rewrite length_drop in Hw, Hn.
  assert (Forall (level 0) (Leaf (foldl add_summary first (tail (map item_summary its))) its (map item_summary its) :: nodes')) as F'
    by by constructor.
  split_and!; [done| | |done|].
  - rewrite inners_cons. unfold inner. cbn [weight]. change (6 ^ Z.of_nat 1) with 6. cbn [length] in *.
    unfold TREE_BASE in *. destruct (Nat.le_gt_cases (S (length l)) 12).
    + assert (drop (2 * 6) (x :: l) = []) as Ed by (apply drop_ge; cbn [length]; lia).
      rewrite (Hnil Ed), inners_nil in *. lia.
    + lia.
  - cbn [length] in *. unfold TREE_BASE in *. destruct (Nat.le_gt_cases (S (length l)) 12).
    + assert (drop (2 * 6) (x :: l) = []) as Ed by (apply drop_ge; cbn [length]; lia).
      rewrite (Hnil Ed). cbn [length]. lia.
    + lia.
  - intros _ t [= <- _]. cbn [weight length] in *. lia.
Qed.

(** The state of the grouping loop: complete parents and the one under construction. *)
Definition grouped h (done : list tree) (st : list tree * option (U * list U * list tree)) : Prop :=
  let '(parents, current) := st in
  let ts := match current with Some (_, _, ts) => ts | None => [] end in
  Forall (level (S h)) parents ∧ Forall full parents ∧ Forall (level h) ts ∧
  (length ts < capacity)%nat ∧ (current = None ∨ ts ≠ []) ∧
  inners (S h) parents + inners h ts = inners h done ∧
  (12 * length parents + length ts = length done)%nat.

Lemma add_child_grouped h done st t st' :
  grouped h done st → level h t → add_child (S h) st t = Some st' → grouped h (done ++ [t]) st'.
Proof.
  destruct st as [parents current]. intros (Fp & Ff & Fc & Hlen & _ & Hw & Hn) Ht H.
  unfold add_child in H. destruct (default (zero, [], []) current) as [[s ss] ts] eqn:Ed.
  assert (match current with Some (_, _, ts) => ts | None => [] end = ts) as Ets
    by (destruct current as [[[? ?] ?]|]; cbn in Ed; congruence).
  rewrite Ets in Fc, Hlen, Hw, Hn. clear Ets Ed. arrays H.
  rewrite length_app in H. cbn [length] in H. unfold TREE_BASE in *.
  assert (Forall (level h) (ts ++ [t])) as Fc' by (apply Forall_app; split; [done|by repeat constructor]).
  destruct (Nat.eqb_spec (length ts + 1) (2 * 6)) as [He|He]; injection H as <-; unfold grouped;
    rewrite ?inners_app, ?length_app, ?inners_nil, ?(inners_cons h t []), ?inners_nil; cbn [length].
  - split_and!; [|  |done|unfold TREE_BASE; lia|by left| |lia].
    + apply Forall_app. split; [done|]. constructor; [by split|done].
    + apply Forall_app. split; [done|]. constructor; [|done]. apply full_internal. rewrite length_app. unfold TREE_BASE. cbn. lia.
    + rewrite (inners_cons (S h) _ []), inners_nil, full_inner;
        [rewrite weight_internal, inners_app, (inners_cons h t []), inners_nil; lia|by split|].
      apply full_internal. rewrite length_app. unfold TREE_BASE. cbn. lia.
  - split_and!; [done|done|done|unfold TREE_BASE; lia| |lia|lia]. right. by destruct ts.
Qed.

Lemma parents_bounded h nodes parents :
  Forall (level h) nodes → parents_of (S h) nodes = Some parents →
  Forall (level (S h)) parents ∧
  inners (S h) parents ≤ inners h nodes + 6 ^ Z.of_nat (S (S h)) - 6 ^ Z.of_nat (S h) ∧
  (12 * (Z.of_nat (length parents) - 1) ≤ Z.of_nat (length nodes) - 1) ∧
  (∀ t, parents = [t] → weight t = inners h nodes).
Proof.
  intros F H. unfold parents_of in H.
  assert (∀ don st, grouped h don st → ∀ st', foldl (λ st child, st ← st; add_child (S h) st child) (Some st) nodes = Some st' →
    grouped h (don ++ nodes) st') as Hfold.
  { clear H. induction F as [|t nodes Ht F IH]; intros don st Hg st' H; [injection H as <-; by rewrite app_nil_r|].
    cbn [foldl] in H. change (Some st ≫= λ st, add_child (S h) st t) with (add_child (S h) st t) in H.
    destruct (add_child (S h) st t) as [st1|] eqn:Ea.
    - change (t :: nodes) with ([t] ++ nodes). rewrite app_assoc.
      eapply IH; [by eapply add_child_grouped|exact H].
    - exfalso. clear -H. induction nodes as [|? ? IH]; cbn in H; [done|by apply IH]. }
  destruct (foldl _ _ nodes) as [[ps current]|] eqn:E; [|done]. cbn [mbind option_bind] in H.
  apply (Hfold [] ([], None)) in E; [|unfold grouped; rewrite inners_nil, inners_nil; split_and!; cbn; try done; [unfold TREE_BASE; lia|by left]].
  destruct E as (Fp & Ff & Fc & Hlen & Hne & Hw & Hn). cbn [app] in *.
  pose proof (pow6_pos (S h)) as Hpow.
  assert (6 ^ Z.of_nat (S (S h)) = 6 * 6 ^ Z.of_nat (S h)) as Ep
    by (rewrite (Nat2Z.inj_succ (S h)), Z.pow_succ_r; lia).
  destruct current as [[[s ss] ts]|]; injection H as <-.
  - destruct Hne as [|Hne]; [done|]. pose proof (inners_length h ts).
    destruct ts as [|t ts]; [done|]. cbn [length] in *. rewrite !length_app. cbn [length].
    rewrite inners_app, (inners_cons (S h) _ []), inners_nil. unfold inner at 1. rewrite weight_internal.
    split_and!.
    + apply Forall_app. split; [done|]. constructor; [by split|done].
    + lia.
    + lia.
    + intros t' Et. destruct ps as [|p ps]; [|by destruct ps]. injection Et as <-.
      rewrite inners_nil in Hw. rewrite weight_internal. lia.
  - rewrite inners_nil in Hw. cbn [length] in Hn. split_and!; [done|lia|lia|].
    intros t' ->. rewrite (inners_cons (S h) t' []), inners_nil in Hw. inversion Fp; inversion Ff; subst.
    rewrite full_inner in Hw by done. lia.
Qed.

Lemma levels_bounded fuel h nodes r n :
  Forall (level h) nodes → inners h nodes ≤ n + 6 ^ Z.of_nat (S h) →
  (Z.of_nat (length nodes) - 1) * 12 ^ Z.of_nat (S h) ≤ n →
  (∀ t, nodes = [t] → weight t ≤ 2 * n) → 0 ≤ n →
  build_levels fuel h nodes = Some r → ∃ h', Forall (level h') r ∧ (∀ t, r = [t] → weight t ≤ 2 * n).
Proof.
  revert h nodes. induction fuel as [|fuel IH]; intros h nodes F Hw Hn H1 H0 H; cbn [build_levels] in H;
    destruct (Nat.leb_spec (length nodes) 1) as [Hl|Hl]; try done; try (injection H as <-; by exists h).
  rewrite Nat.add_1_r in H. destruct (parents_of (S h) nodes) as [ps|] eqn:E; [|done].
  cbn [mbind option_bind] in H. apply parents_bounded in E as (Fp & Hp & Hc & Ht); [|done].
  assert (12 ^ Z.of_nat (S (S h)) = 12 * 12 ^ Z.of_nat (S h)) as E12
    by (rewrite (Nat2Z.inj_succ (S h)), Z.pow_succ_r; lia).
  assert (0 < 6 ^ Z.of_nat (S h) ≤ 12 ^ Z.of_nat (S h)) as H6.
  { split; [apply pow6_pos|]. apply Z.pow_le_mono_l. lia. }
  apply (IH (S h) ps); [done|lia| | |done|done].
  - rewrite E12. nia.
  - intros t Et. rewrite (Ht t Et). nia.
Qed.

Lemma from_iter_bounded (l : list T) t :
  from_iter l = Some t → ∃ h, level h t ∧ weight t ≤ 2 * items_len l.
Proof.
  unfold from_iter. destruct (leaves_of _ l) as [nodes|] eqn:El; [|done]. cbn [mbind option_bind].
  apply leaves_bounded in El as (F & Hw & Hn & Hnil & H1).
  destruct (build_levels _ _ nodes) as [r|] eqn:Eb; [|done]. cbn [mbind option_bind].
  assert (0 ≤ items_len l) by (unfold items_len; lia).
  eapply (levels_bounded _ 0 nodes r (items_len l)) in Eb as (h & Fr & Hr); try done; try lia.
  - destruct r as [|x [|]]; intros [= <-].
    + exists 0%nat. split; [done|]. cbn. lia.
    + exists h. inversion Fr; subst. split; [done|]. by apply Hr.
  - intros x ->. specialize (H1 eq_refl x eq_refl). lia.
Qed.
Lemma extend_bounded h t (l : list T) r :
  level h t → extend t l = Some r → ∃ h', level h' r ∧ weight r ≤ weight t + 2 * items_len l.
Proof.
  intros Ht H. unfold extend in H. destruct (from_iter l) as [k|] eqn:E; [|done]. cbn [mbind option_bind] in H.
  apply from_iter_bounded in E as (hk & Hk & Hw). apply (append_bounded h hk) in H as (h' & Hr & Hle); [|done|done].
  exists h'. split; [done|lia].
Qed.

(** *** Replacing the last or the first item *)
Lemma update_last_bounded fuel f h t r :
  level h t → update_last_recursive fuel f t = Some r → level h r.1 ∧ weight r.1 = weight t.
Proof.
  revert h t r. induction fuel as [|fuel IH]; intros h t r Ht H;
    (destruct t as [h0 s ss ts|s its ss]; cbn [update_last_recursive] in H; [try done|
     destruct (list.last its) as [x|] eqn:El, (list.last ss); injection H as <-; cbn [fst]; try done;
     destruct h; [|done]; cbn [weight level]; apply last_split in El;
     (split; [done|]); rewrite El at 2; by rewrite !length_app]).
  destruct h as [|h]; [done|]. destruct Ht as [-> F].
  destruct (list.last ts) as [c|] eqn:El; [|done]. cbn [mbind option_bind] in H.
  apply last_split in El. pose proof F as F'. rewrite El in F'. apply Forall_app in F' as [Fi Fl].
  inversion Fl as [|? ? Hc]; subst.
  destruct (update_last_recursive fuel f c) as [[c' q]|] eqn:E; [|done]. cbn [mbind option_bind] in H.
  apply (IH h) in E as [Hc' Hw]; [|done]. destruct q as [q|]; [|done]. cbn [mbind option_bind fst] in *.
  destruct (set_last ts c') as [ts'|] eqn:Es; [|done]. cbn [mbind option_bind] in H.
  apply set_last_inv in Es. destruct (set_last ss q) as [ss'|]; [|done]. cbn [mbind option_bind] in H.
  injection H as <-. cbn [fst]. rewrite !weight_internal. subst ts'. split.
  - split; [done|]. apply Forall_app. split; [done|]. by repeat constructor.
  - pose proof (f_equal (inners h) El) as HE. rewrite inners_app, (inners_cons h c []) in HE.
    rewrite inners_app, (inners_cons h c' []). unfold inner in *. rewrite Hw. lia.
Qed.
Lemma update_first_bounded fuel f h t r :
  level h t → update_first_recursive fuel f t = Some r → level h r.1 ∧ weight r.1 = weight t.
Proof.
  revert h t r. induction fuel as [|fuel IH]; intros h t r Ht H;
    (destruct t as [h0 s ss ts|s its ss]; cbn [update_first_recursive] in H; [try done|
     destruct its as [|x its], ss; injection H as <-; cbn [fst]; try done; by destruct h]).
  destruct h as [|h]; [done|]. destruct Ht as [-> F].
  destruct ts as [|c ts]; [done|]. cbn [head mbind option_bind] in H. inversion F as [|? ? Hc F']; subst.
  destruct (update_first_recursive fuel f c) as [[c' q]|] eqn:E; [|done]. cbn [mbind option_bind] in H.
  apply (IH h) in E as [Hc' Hw]; [|done]. destruct q as [q|]; [|done]. cbn [mbind option_bind fst set_first] in *.
  destruct (set_first ss q) as [ss'|]; [|done]. cbn [mbind option_bind] in H.
  injection H as <-. cbn [fst]. rewrite !weight_internal, !inners_cons. unfold inner. rewrite Hw.
  split; [|done]. split; [done|]. by constructor.
Qed.

End weight.

(** ** Seeking *)
Section seek.
Context {T U D : Type} `{!Summary U, !Item T U, !Dimension D U}.
Abbreviation tree := (node T U).
Abbreviation entry := (Cursor.entry T U D).
Abbreviation slices := (Cursor.slice_state (T := T) (U := U)).

(** What the entry still has to the right; without the child it is in when [inside]. *)
Definition rest (inside : bool) (e : entry) : Z :=
  match Cursor.e_tree e with
  | Internal h _ _ ts => inners (pred h) (drop (if inside then S (Cursor.e_index e) else Cursor.e_index e) ts)
  | Leaf _ its _ => Z.of_nat (length (drop (Cursor.e_index e) its))
  end.
Fixpoint above (stk : list entry) : Z :=
  match stk with [] => 0 | e :: stk => rest true e + above stk end.
Definition potential (asc : bool) (stk : list entry) : Z :=
  match stk with [] => 0 | e :: stk => rest asc e + above stk end.
Definition leveled (e : entry) : Prop := ∃ h, level h (Cursor.e_tree e).

Lemma rest_nonneg b e : 0 ≤ rest b e.
Proof. unfold rest. destruct (Cursor.e_tree e); [apply inners_nonneg|lia]. Qed.
Lemma above_nonneg stk : 0 ≤ above stk.
Proof. induction stk as [|e stk IH]; cbn [above]; [lia|]. pose proof (rest_nonneg true e). lia. Qed.
Lemma potential_nonneg b stk : 0 ≤ potential b stk.
Proof. destruct stk as [|e stk]; cbn; [lia|]. pose proof (rest_nonneg b e). pose proof (above_nonneg stk). lia. Qed.
Lemma potential_above stk : potential true stk = above stk.
Proof. by destruct stk. Qed.
Lemma rest_start h (x : tree) pos : level h x → rest false (Cursor.mk_entry x 0 pos) ≤ weight x.
Proof.
  unfold rest. cbn [Cursor.e_tree Cursor.e_index]. destruct x as [hx sx ssx tsx|sx itsx ssx]; rewrite skipn_O.
  - destruct h; [done|]. by intros [-> _].
  - by rewrite weight_leaf.
Qed.
Lemma inners_drop h i j (ts : list tree) : (i ≤ j)%nat → inners h (drop j ts) ≤ inners h (drop i ts).
Proof.
  intros Hle. replace j with (i + (j - i))%nat by lia. rewrite <- drop_drop.
  rewrite <- (inners_take_drop h (j - i) (drop i ts)). pose proof (inners_nonneg h (take (j - i) (drop i ts))). lia.
Qed.

(** What an aggregate costs: at most what is passed. *)
Record costs {A} (agg : Cursor.aggregate T U A) (good : A → Prop) (cost : A → Z) : Prop := {
  cost_begin : ∀ a, good a → good (Cursor.begin_leaf agg a) ∧ cost (Cursor.begin_leaf agg a) = cost a;
  cost_item : ∀ a x s a', good a → Cursor.push_item agg a x s = Some a' → good a' ∧ cost a' ≤ cost a + 1;
  cost_end : ∀ a a', good a → Cursor.end_leaf agg a = Some a' → good a' ∧ cost a' ≤ cost a;
  cost_tree : ∀ h a t s a', level h t → good a → Cursor.push_tree agg a t s = Some a' → good a' ∧ cost a' ≤ cost a + weight t;
}.

Lemma unit_costs : costs Cursor.unit_aggregate (λ _, True) (λ _, 0).
Proof.
  split; cbn; intros; split; try done; try lia. pose proof (weight_nonneg t). lia.
Qed.
Lemma summary_costs {O} `{!Dimension O U} :
  costs (Cursor.summary_aggregate (O := O)) (λ _, True) (λ _, 0).
Proof. split; cbn; intros; split; try done; try lia. pose proof (weight_nonneg t). lia. Qed.
Lemma slice_costs :
  costs Cursor.slice_aggregate (λ a : slices, ∃ h, level h (Cursor.s_tree a))
    (λ a, weight (Cursor.s_tree a) + Z.of_nat (length (Cursor.leaf_items a))).
Proof.
  split; cbn.
  - done.
  - intros a x s a' Hg H. destruct (array (Cursor.leaf_items a ++ [x])) as [its'|] eqn:E; [|done].
    destruct (array (Cursor.leaf_item_summaries a ++ [s])); [|done]. cbn [mbind option_bind] in H.
    apply array_inv in E. injection H as <-. cbn. rewrite E, length_app. cbn. split; [done|lia].
  - intros a a' [ha Ha] H. destruct (append (Cursor.s_tree a) _) as [t|] eqn:E; [|done].
    cbn [mbind option_bind] in H. injection H as <-. cbn.
    apply (append_bounded ha 0) in E as (ht & Ht & Hle); [|done|done]. rewrite weight_leaf in Hle.
    split; [by exists ht|lia].
  - intros h a t s a' Ht [ha Ha] H. destruct (append (Cursor.s_tree a) t) as [t'|] eqn:E; [|done].
    cbn [mbind option_bind] in H. injection H as <-. cbn.
    apply (append_bounded ha h) in E as (ht & Ht' & Hle); [|done|done]. split; [by exists ht|lia].
Qed.

Section loop.
Variable target : D → comparison.
Variable b : bias.
Context {A : Type} (agg : Cursor.aggregate T U A) (good : A → Prop) (cost : A → Z).
Hypothesis Hcosts : costs agg good cost.

(** The invariant of the loop: what is collected and what is to come. *)
Definition collects (w : Z) (asc : bool) (stk : list entry) (a : A) : Prop :=
  Forall leveled stk ∧ good a ∧ cost a + potential asc stk ≤ w.

Lemma seek_items_collects a a' pos pos' idx idx' its ss stopped :
  good a → Cursor.seek_items target b agg a pos idx its ss = Some (a', pos', idx', stopped) →
  good a' ∧ (idx ≤ idx')%nat ∧ cost a' ≤ cost a + Z.of_nat (idx' - idx) ∧ (idx' - idx ≤ length its)%nat.
Proof.
  revert a pos idx ss. induction its as [|x its IH]; intros a pos idx ss Hg H; cbn [Cursor.seek_items] in H.
  { injection H as <- <- <- <-. split_and!; [done|lia..]. }
  destruct ss as [|s ss]; [injection H as <- <- <- <-; split_and!; [done|lia..]|].
  destruct (skips _ _); [|injection H as <- <- <- <-; split_and!; [done|lia..]].
  destruct (Cursor.push_item agg a x s) as [a1|] eqn:E; [|done]. cbn [mbind option_bind] in H.
  apply (cost_item _ _ _ Hcosts) in E as [Hg1 Hc1]; [|done]. apply IH in H as (? & ? & ? & ?); [|done].
  cbn [length]. split_and!; [done|lia..].
Qed.

Lemma seek_children_collects h a pos epos idx cts css r w :
  Forall (level h) cts → good a → cost a + inners h cts ≤ w →
  Cursor.seek_children target b agg a pos epos idx cts css = Some r →
  let '(a', _, _, idx', child) := r in
  good a' ∧
  match child with
  | Some x => level h x ∧ ∃ k, drop k cts = x :: drop (S k) cts ∧ idx' = (idx + k)%nat ∧
      cost a' + weight x + inners h (drop (S k) cts) ≤ w
  | None => cost a' ≤ w
  end.
Proof.
  revert a pos epos idx css. induction cts as [|c cts IH]; intros a pos epos idx css F Ha Hw H; cbn [Cursor.seek_children] in H.
  { injection H as <-. rewrite inners_nil in Hw. split; [done|lia]. }
  rewrite inners_cons in Hw. pose proof (inner_pos h c). pose proof (pow6_pos (S h)). pose proof (inners_nonneg h cts).
  destruct css as [|s css]; [injection H as <-; split; [done|lia]|].
  inversion F as [|? ? Hc F']; subst.
  destruct (skips _ _).
  - destruct (Cursor.push_tree agg a c s) as [a1|] eqn:E; [|done]. cbn [mbind option_bind] in H.
    apply (cost_tree _ _ _ Hcosts h) in E as [Hg1 Hc1]; [|done|done].
    apply IH in H; [|done|done|pose proof (inner_ge h c); lia].
    destruct r as [[[[a' pos'] epos'] idx'] child]. destruct H as (Hg & Hr). split; [done|].
    destruct child as [x|]; [|done]. destruct Hr as (Hx & k & Ek & -> & Hk). split; [done|].
    exists (S k). split; [done|]. split; [lia|]. exact Hk.
  - injection H as <-. split; [done|]. split; [done|]. exists 0%nat.
    rewrite skipn_O. change (drop 1 (c :: cts)) with cts. pose proof (inner_ge h c).
    split; [done|]. split; [lia|]. lia.
Qed.

Lemma slice_from_inv {B} (l k : list B) i : Cursor.slice_from l i = Some k → k = drop i l ∧ (i ≤ length l)%nat.
Proof. unfold Cursor.slice_from. destruct (Nat.leb_spec i (length l)); [|done]. by intros [= <-]. Qed.

Lemma seek_step_collects w stk pos asc a r :
  collects w asc stk a → Cursor.seek_step target b agg (stk, pos, asc, a) = Some r →
  match r with
  | inl (stk', _, asc', a') => collects w asc' stk' a'
  | inr (stk', _, a') => collects w false stk' a'
  end.
Proof.
  intros (F & Hg & Hw) H. unfold Cursor.seek_step in H.
  pose proof (potential_nonneg asc stk) as Hp.
  destruct stk as [|e stk]; [injection H as <-; split_and!; [done|done|cbn in *; lia]|].
  inversion F as [|? ? [h He] F']; subst. cbn [potential] in Hw. unfold rest in Hw. pose proof (above_nonneg stk).
  destruct (Cursor.e_tree e) as [h0 s css cts|s its ss] eqn:Ee.
  - destruct h as [|h]; [done|]. destruct He as [-> Fc]. cbn [pred] in Hw.
    assert ((if asc then (S (Cursor.e_index e), pos) else (Cursor.e_index e, Cursor.e_position e)).1
      = (if asc then S (Cursor.e_index e) else Cursor.e_index e)) as Eidx by (by destruct asc).
    destruct (if asc then (S (Cursor.e_index e), pos) else (Cursor.e_index e, Cursor.e_position e)) as [idx epos].
    cbn [fst] in Eidx. rewrite <- Eidx in Hw.
    destruct (Cursor.slice_from cts idx) as [cts'|] eqn:E1; [|done]. cbn [mbind option_bind] in H.
    destruct (Cursor.slice_from css idx) as [css'|]; [|done]. cbn [mbind option_bind] in H.
    apply slice_from_inv in E1 as [-> _].
    destruct (Cursor.seek_children _ _ _ _ _ _ _ _ _) as [[[[[a' pos'] epos'] idx'] child]|] eqn:E2; [|done].
    cbn [mbind option_bind] in H.
    apply (seek_children_collects h _ _ _ _ _ _ _ (w - above stk)) in E2; [|by apply Forall_drop|done|lia].
    destruct E2 as (Hg' & Hc). destruct child as [x|].
    + destruct (Cursor.stack_push _ _) as [stk'|] eqn:Es; [|done]. cbn [mbind option_bind] in H. injection H as <-.
      unfold Cursor.stack_push in Es. destruct (Nat.ltb _ _); [|done]. injection Es as <-.
      destruct Hc as (Hx & k & Ek & -> & Hk). split_and!.
      * constructor; [by exists h|]. constructor; [|done]. cbn. exists (S h). by split.
      * done.
      * rewrite drop_drop in Ek, Hk. cbn [potential above]. unfold rest at 2. cbn [Cursor.e_tree Cursor.e_index pred].
        pose proof (rest_start h x pos' Hx).
        replace (idx + S k)%nat with (S (idx + k)) in Hk by lia. lia.
    + injection H as <-. split_and!; [done..|]. rewrite potential_above. lia.
  - destruct h; [|done].
    destruct (Cursor.slice_from its (Cursor.e_index e)) as [its'|] eqn:E1; [|done]. cbn [mbind option_bind] in H.
    apply slice_from_inv in E1 as [-> Hle].
    destruct (Cursor.slice_from ss _) as [ss'|]; [|done]. cbn [mbind option_bind] in H.
    destruct (Cursor.seek_items _ _ _ _ _ _ _ _) as [[[[a' pos'] idx'] stopped]|] eqn:E2; [|done].
    cbn [mbind option_bind] in H. destruct (cost_begin _ _ _ Hcosts a Hg) as [Hg0 Hc0].
    apply seek_items_collects in E2 as (Hg1 & Hi & Hc1 & Hl); [|done].
    destruct (Cursor.end_leaf agg a') as [a2|] eqn:E3; [|done]. cbn [mbind option_bind] in H.
    apply (cost_end _ _ _ Hcosts) in E3 as [Hg2 Hc2]; [|done]. rewrite length_drop in Hw, Hl.
    destruct stopped; injection H as <-.
    + split_and!; [constructor; [by exists 0%nat|done]|done|].
      cbn [potential]. unfold rest. cbn [Cursor.e_tree Cursor.e_index]. rewrite length_drop. lia.
    + split_and!; [done..|]. rewrite potential_above. lia.
Qed.

Lemma seek_loop_collects w fuel stk pos asc a stk' pos' a' :
  collects w asc stk a → iterate (Cursor.seek_step target b agg) fuel (stk, pos, asc, a) = Some (stk', pos', a') →
  collects w false stk' a'.
Proof.
  revert stk pos asc a. induction fuel as [|fuel IH]; intros stk pos asc a Hc H; [done|]. cbn [iterate] in H.
  destruct (Cursor.seek_step _ _ _ _) as [[[[[stk1 pos1] asc1] a1]|[[stk1 pos1] a1]]|] eqn:E; [| |done].
  - apply (IH stk1 pos1 asc1 a1); [|done]. by apply (seek_step_collects w) in E.
  - injection H as -> -> ->. by apply (seek_step_collects w) in E.
Qed.

(** What a cursor has ahead of it. *)
Definition ahead (c : Cursor.t T U D) : Z :=
  if Cursor.did_seek c then potential false (Cursor.stack c) else weight (Cursor.c_tree c).
Definition shaped (c : Cursor.t T U D) : Prop :=
  Forall leveled (Cursor.stack c) ∧ (∃ h, level h (Cursor.c_tree c)) ∧
  (Cursor.did_seek c = false → Cursor.stack c = []).

Lemma seek_internal_collects c c' a a' r :
  shaped c → good a → Cursor.seek_internal target b agg a c = Some (c', a', r) →
  shaped c' ∧ good a' ∧ cost a' + ahead c' ≤ cost a + ahead c ∧ Cursor.c_tree c' = Cursor.c_tree c.
Proof.
  intros (F & [h Hh] & Hfresh) Hg H. unfold Cursor.seek_internal in H. destruct (is_lt _); [done|].
  assert (∃ stk, (if Cursor.did_seek c then Some (Cursor.stack c, true)
     else s ← Cursor.stack_push (Cursor.mk_entry (Cursor.c_tree c) 0 dzero) (Cursor.stack c); Some (s, true)) = Some (stk, true) ∧
     collects (cost a + ahead c) false stk a) as (stk & E1 & Hc).
  { unfold ahead. destruct (Cursor.did_seek c).
    - eexists. split; [done|]. split_and!; [done..|lia].
    - rewrite Hfresh by done. eexists. split; [done|]. split_and!; [constructor; [by exists h|done]|done|].
      cbn [potential above]. pose proof (rest_start h (Cursor.c_tree c) dzero Hh). lia. }
  rewrite E1 in H. cbn [mbind option_bind] in H.
  destruct (iterate _ _ _) as [[[stk' pos'] a1]|] eqn:E2; [|done]. cbn [mbind option_bind] in H.
  apply (seek_loop_collects _ _ _ _ _ _ _ _ _ Hc) in E2 as (F' & Hg' & Hw).
  destruct (if bool_decide _ then _ else _) as [o|]; [|done]. cbn [mbind option_bind] in H. injection H as <- <- _.
  split_and!; [split_and!; [done|by exists h|done]|done| |done]. unfold ahead at 1. cbn [Cursor.did_seek Cursor.stack]. lia.
Qed.
End loop.

(** *** Moving by items *)
Lemma skip_filtered_idx f (ss : list U) idx (epos pos : D) :
  (idx ≤ (Cursor.skip_filtered f ss idx epos pos).1.1)%nat.
Proof.
  revert idx epos pos. induction ss as [|s ss IH]; intros; cbn; [done|]. destruct (f s); cbn; [done|].
  etrans; [|apply IH]. lia.
Qed.
Lemma forward_step_collects f w stk pos descend r :
  Forall leveled stk → potential (negb descend) stk ≤ w → Cursor.forward_step f (stk, pos, descend) = Some r →
  match r with
  | inl (stk', _, descend') => Forall leveled stk' ∧ potential (negb descend') stk' ≤ w
  | inr (stk', _) => Forall leveled stk' ∧ potential false stk' ≤ w
  end.
Proof.
  intros F Hw H. unfold Cursor.forward_step in H.
  destruct stk as [|e stk]; [injection H as <-; by split|].
  inversion F as [|? ? [h He] F']; subst. cbn [potential] in Hw. unfold rest in Hw. pose proof (above_nonneg stk).
  destruct (Cursor.e_tree e) as [h0 s css cts|s its ss] eqn:Ee.
  - destruct h as [|h]; [done|]. destruct He as [-> Fc]. cbn [pred] in Hw.
    assert ((if descend then (Cursor.e_index e, Cursor.e_position e) else (S (Cursor.e_index e), pos)).1
      = (if negb descend then S (Cursor.e_index e) else Cursor.e_index e)) as Eidx by (by destruct descend).
    destruct (if descend then (Cursor.e_index e, Cursor.e_position e) else (S (Cursor.e_index e), pos)) as [idx epos].
    cbn [fst] in Eidx. rewrite <- Eidx in Hw.
    pose proof (skip_filtered_idx f (drop idx css) idx epos pos) as Hidx.
    destruct (Cursor.skip_filtered _ _ _ _ _) as [[idx' epos'] pos']. cbn [fst] in Hidx.
    destruct (cts !! idx') as [x|] eqn:Ex.
    + destruct (Cursor.stack_push _ _) as [stk'|] eqn:Es; [|done]. cbn [mbind option_bind] in H. injection H as <-.
      unfold Cursor.stack_push in Es. destruct (Nat.ltb _ _); [|done]. injection Es as <-.
      assert (level h x) as Hx by (by eapply (proj1 (Forall_lookup _ _) Fc)). split.
      * constructor; [by exists h|]. constructor; [|done]. exists (S h). by split.
      * cbn [potential above negb]. unfold rest at 2. cbn [Cursor.e_tree Cursor.e_index pred].
        pose proof (rest_start h x pos' Hx) as Hr. pose proof (inners_drop h idx idx' cts Hidx) as Hd.
        rewrite (drop_S _ _ _ Ex), inners_cons in Hd. pose proof (inner_ge h x). lia.
    + injection H as <-. split; [done|]. cbn [negb]. rewrite potential_above.
      pose proof (inners_nonneg h (drop idx cts)). lia.
  - destruct h; [|done]. rewrite length_drop in Hw.
    destruct (if descend then _ else _) as [[[idx epos] pos1]|] eqn:E1; [|done]. cbn [mbind option_bind] in H.
    assert (Cursor.e_index e ≤ idx)%nat as Hle.
    { destruct descend; [by injection E1 as <- _ _|]. destruct (ss !! _); [|done]. injection E1 as <- _ _. lia. }
    pose proof (skip_filtered_idx f (drop idx ss) idx epos pos1) as Hidx.
    destruct (Cursor.skip_filtered _ _ _ _ _) as [[idx' epos'] pos']. cbn [fst] in Hidx.
    destruct (ss !! idx'); injection H as <-.
    + split; [constructor; [by exists 0%nat|done]|].
      cbn [potential]. unfold rest. cbn [Cursor.e_tree Cursor.e_index]. rewrite length_drop. lia.
    + split; [done|]. cbn [negb]. rewrite potential_above. lia.
Qed.
Lemma forward_loop_collects f w fuel stk pos descend stk' pos' :
  Forall leveled stk → potential (negb descend) stk ≤ w →
  iterate (Cursor.forward_step f) fuel (stk, pos, descend) = Some (stk', pos') →
  Forall leveled stk' ∧ potential false stk' ≤ w.
Proof.
  revert stk pos descend. induction fuel as [|fuel IH]; intros stk pos descend F Hw H; [done|]. cbn [iterate] in H.
  destruct (Cursor.forward_step _ _) as [[[[stk1 pos1] d1]|[stk1 pos1]]|] eqn:E; [| |done].
  - apply (forward_step_collects f w) in E as [F1 Hw1]; [|done|done]. by apply (IH stk1 pos1 d1).
  - injection H as -> ->. by apply (forward_step_collects f w) in E.
Qed.

Lemma potential_le stk : potential true stk ≤ potential false stk.
Proof.
  destruct stk as [|e stk]; [done|]. cbn. unfold rest. destruct (Cursor.e_tree e) as [h s ss ts|]; [|lia].
  pose proof (inners_drop (pred h) (Cursor.e_index e) (S (Cursor.e_index e)) ts). lia.
Qed.

Lemma next_collects (c c' : Cursor.t T U D) :
  shaped c → (Cursor.stack c = [] → Cursor.at_end c = false → Cursor.did_seek c = false) →
  Cursor.next c = Some c' →
  shaped c' ∧ ahead c' ≤ ahead c ∧ Cursor.c_tree c' = Cursor.c_tree c.
Proof.
  intros (F & [h Hh] & Hfresh) Hstart H. unfold Cursor.next, Cursor.search_forward in H.
  destruct (Cursor.stack c) as [|e stk] eqn:Es.
  - destruct (Cursor.at_end c) eqn:Ea.
    + cbn [mbind option_bind] in H.
      destruct (iterate _ _ _) as [[s' p]|] eqn:E; [|done]. cbn [mbind option_bind] in H. injection H as <-.
      apply (forward_loop_collects _ 0) in E as [F' Hw]; [|done|done].
      split_and!; [split_and!; [done|by exists h|done]| |done]. unfold ahead. cbn [Cursor.did_seek Cursor.stack].
      pose proof (weight_nonneg (Cursor.c_tree c)). rewrite Es. cbn [potential]. destruct (Cursor.did_seek c); lia.
    + specialize (Hstart eq_refl eq_refl). cbn [mbind option_bind Cursor.stack_push length Nat.ltb Nat.leb Cursor.stack_capacity] in H.
      destruct (iterate _ _ _) as [[s' p]|] eqn:E; [|done]. cbn [mbind option_bind] in H. injection H as <-.
      apply (forward_loop_collects _ (weight (Cursor.c_tree c))) in E as [F' Hw].
      * split_and!; [split_and!; [done|by exists h|done]| |done]. unfold ahead. cbn [Cursor.did_seek Cursor.stack].
        by rewrite Hstart.
      * constructor; [by exists h|done].
      * cbn [potential above negb]. pose proof (rest_start h (Cursor.c_tree c) dzero Hh). lia.
  - cbn [mbind option_bind] in H. destruct (Cursor.did_seek c) eqn:Ed; [|by specialize (Hfresh eq_refl)].
    destruct (iterate _ _ _) as [[s' p]|] eqn:E; [|done]. cbn [mbind option_bind] in H. injection H as <-.
    apply (forward_loop_collects _ (potential false (e :: stk))) in E as [F' Hw]; [|done|apply potential_le].
    split_and!; [split_and!; [done|by exists h|done]| |done]. unfold ahead. cbn [Cursor.did_seek Cursor.stack].
    by rewrite Ed, Es.
Qed.
End seek.

(** ** Trees of bounded weight *)
Section held.
Context {T U D : Type} `{!Summary U, !Item T U, !Dimension D U, !SummaryLaws T U, !DimensionLaws D T U}.
Implicit Types (l k before after : list T).

(** The ancestors of a subtree have to the right of it what the tree has. *)
Lemma spine_above root hr (stk : list (Cursor.entry T U D)) h x pre post :
  wf hr root → Cursor.spine root hr stk h x pre post →
  above stk + (match stk with [] => weight x | _ => inner h x end) ≤ weight root.
Proof.
  intros Hw. induction 1 as [|stk h h0 s ss ts i x pre post Hs IH Hi]; [cbn; lia|].
  destruct (Cursor.spine_ok _ _ _ _ _ _ _ Hw Hs) as (Hwx & _). pose proof (wf_level _ _ Hwx) as [-> _].
  cbn [above]. unfold rest at 1. cbn [Cursor.e_tree Cursor.e_index pred].
  assert (inners h (drop (S i) ts) + inner h x ≤ inners h ts) as Hle.
  { rewrite <- (inners_take_drop h i ts), (drop_S _ _ _ Hi), inners_cons. pose proof (inners_nonneg h (take i ts)). lia. }
  rewrite weight_internal in IH. destruct stk; [lia|]. pose proof (inner_ge (S h) (Internal (S h) s ss ts)) as Hg.
  rewrite weight_internal in Hg. lia.
Qed.

Lemma ready_shaped (c : Cursor.t T U D) before after :
  Cursor.ready c before after → shaped c ∧ ahead c ≤ weight (Cursor.c_tree c).
Proof.
  intros [[h Hw Hh Hv Hs Hpos Hl He]|[_ [h Hw Hcont Hh Hv Hs Hk _ _]]]; unfold shaped, ahead; rewrite Hs.
  - assert (∃ h, level h (Cursor.c_tree c)) as Hlv by (exists h; by apply wf_level).
    destruct Hl as [(-> & _)|[stk s its ss pre post i epos Hsp Hi]].
    { split; [done|]. apply weight_nonneg. }
    pose proof (spine_above _ _ _ _ _ _ _ Hw Hsp) as Hab. cbn [potential]. split; [split_and!; [|done|done]|].
    + constructor; [by exists 0%nat|]. clear Hi Hab. revert Hsp. generalize (Leaf s its ss). generalize 0%nat at 1.
      intros h' x Hsp. clear epos i s its ss. induction Hsp as [|? h'' ? ? ? ? ? ? ? ? Hs' IH]; [done|].
      constructor; [|done]. destruct (Cursor.spine_ok _ _ _ _ _ _ _ Hw Hs') as (Hwx & _).
      exists (S h''). by apply wf_level in Hwx.
    + unfold rest. cbn [Cursor.e_tree Cursor.e_index]. rewrite length_drop.
      destruct stk; cbn [weight] in Hab; [lia|]. pose proof (inner_ge 0 (Leaf s its ss)) as Hg. cbn [weight] in Hg. lia.
  - rewrite Hk. split; [|done]. split_and!; [done|exists h; by apply wf_level|done].
Qed.

(** The slice and what is left do not weigh more than what was ahead. *)
Lemma slice_weight target b (c c' : Cursor.t T U D) x before after :
  Cursor.ready c before after → Cursor.slice target b c = Some (c', x) →
  weight x + ahead c' ≤ ahead c ∧ Cursor.c_tree c' = Cursor.c_tree c.
Proof.
  intros Hc H. apply ready_shaped in Hc as [Hc _]. unfold Cursor.slice in H.
  destruct (Cursor.seek_internal _ _ _ _ _) as [[[c1 a] r]|] eqn:E; [|done]. cbn [mbind option_bind] in H.
  injection H as <- <-.
  apply (seek_internal_collects _ _ _ _ _ slice_costs) in E as (_ & _ & Hle & ->); [|done|by exists 0%nat].
  split; [|done]. cbn in Hle. lia.
Qed.
Lemma seek_forward_weight target b (c c' : Cursor.t T U D) r before after :
  Cursor.ready c before after → Cursor.seek_forward target b c = Some (c', r) →
  ahead c' ≤ ahead c ∧ Cursor.c_tree c' = Cursor.c_tree c.
Proof.
  intros Hc H. apply ready_shaped in Hc as [Hc _]. unfold Cursor.seek_forward in H.
  destruct (Cursor.seek_internal _ _ _ _ _) as [[[c1 a] q]|] eqn:E; [|done]. cbn [mbind option_bind] in H.
  injection H as <- <-.
  apply (seek_internal_collects _ _ _ _ _ unit_costs) in E as (_ & _ & Hle & ->); [|done|done].
  split; [lia|done].
Qed.
Lemma summary_weight {O} `{!Dimension O U} target b (c c' : Cursor.t T U D) (r : O) before after :
  Cursor.ready c before after → Cursor.summary target b c = Some (c', r) →
  ahead c' ≤ ahead c ∧ Cursor.c_tree c' = Cursor.c_tree c.
Proof.
  intros Hc H. apply ready_shaped in Hc as [Hc _]. unfold Cursor.summary in H.
  destruct (Cursor.seek_internal _ _ _ _ _) as [[[c1 a] q]|] eqn:E; [|done]. cbn [mbind option_bind] in H.
  injection H as <- <-.
  apply (seek_internal_collects _ _ _ _ _ summary_costs) in E as (_ & _ & Hle & ->); [|done|done].
  split; [lia|done].
Qed.
Lemma next_weight (c c' : Cursor.t T U D) before after :
  Cursor.ready c before after → Cursor.next c = Some c' →
  ahead c' ≤ ahead c ∧ Cursor.c_tree c' = Cursor.c_tree c.
Proof.
  intros Hc H. pose proof Hc as Hr. apply ready_shaped in Hc as [Hc _].
  apply next_collects in H as (_ & ? & ?); [done|done|].
  destruct Hr as [[h Hw Hh Hv Hs Hpos Hl He]|[_ []]]; [|done]. intros Ek. rewrite Ek in He. congruence.
Qed.

(** The tree stands for [l] and weighs at most [w]. *)
Definition held (w : Z) (t : node T U) l : Prop := represents t l ∧ weight t ≤ w.

Lemma held_level w t l : held w t l → ∃ h, level h t.
Proof. intros [[[h Hw] _] _]. exists h. by apply wf_level. Qed.
Lemma held_weaken w w' t l : held w t l → w ≤ w' → held w' t l.
Proof. intros [H Hw] Hle. split; [done|lia]. Qed.
Lemma held_new : held 0 new [].
Proof. split; [apply represents_new|done]. Qed.
Lemma held_append wa wb a b l k :
  held wa a l → held wb b k → valid (l ++ k) → ∃ t, append a b = Some t ∧ held (wa + wb) t (l ++ k).
Proof.
  intros Ha Hb Hv. destruct (held_level _ _ _ Ha) as [ha La], (held_level _ _ _ Hb) as [hb Lb].
  destruct Ha as [Ha Hwa], Hb as [Hb Hwb].
  destruct (represents_append _ _ _ _ Ha Hb Hv) as (t & E & Ht). exists t. split; [done|]. split; [done|].
  destruct (append_bounded _ _ _ _ _ La Lb E) as (_ & _ & Hle). lia.
Qed.
Lemma held_push w t l x : held w t l → valid (l ++ [x]) → ∃ t', push t x = Some t' ∧ held (w + 1) t' (l ++ [x]).
Proof.
  intros Ht Hv. destruct (held_level _ _ _ Ht) as [h L]. destruct Ht as [Ht Hw].
  destruct (represents_push _ _ _ Ht Hv) as (t' & E & Ht'). exists t'. split; [done|]. split; [done|].
  destruct (push_bounded _ _ _ _ L E) as (_ & _ & Hle). lia.
Qed.
Lemma held_extend w t l k :
  held w t l → valid (l ++ k) → ∃ t', extend t k = Some t' ∧ held (w + 2 * Z.of_nat (length k)) t' (l ++ k).
Proof.
  intros Ht Hv. destruct (held_level _ _ _ Ht) as [h L]. destruct Ht as [Ht Hw].
  destruct (represents_extend _ _ _ Ht Hv) as (t' & E & Ht'). exists t'. split; [done|]. split; [done|].
  destruct (extend_bounded _ _ _ _ L E) as (_ & _ & Hle). unfold items_len in Hle. lia.
Qed.
Lemma held_update_last w t l f :
  held w t l → valid (map_last f l) → ∃ t', update_last f t = Some t' ∧ held w t' (map_last f l).
Proof.
  intros Ht Hv. destruct (held_level _ _ _ Ht) as [h L]. destruct Ht as [Ht Hw].
  destruct (represents_update_last f _ _ Ht Hv) as (t' & E & Ht'). exists t'. split; [done|]. split; [done|].
  unfold update_last in E. apply fmap_Some in E as (r & E & ->).
  destruct (update_last_bounded _ _ _ _ _ L E) as [_ ->]. lia.
Qed.
Lemma held_update_first w t l f :
  held w t l → valid (map_head f l) → ∃ t', update_first f t = Some t' ∧ held w t' (map_head f l).
Proof.
  intros Ht Hv. destruct (held_level _ _ _ Ht) as [h L]. destruct Ht as [Ht Hw].
  destruct (represents_update_first f _ _ Ht Hv) as (t' & E & Ht'). exists t'. split; [done|]. split; [done|].
  unfold update_first in E. apply fmap_Some in E as (r & E & ->).
  destruct (update_first_bounded _ _ _ _ _ L E) as [_ ->]. lia.
Qed.
Lemma held_ready w t l : held w t l → w < 6 ^ 16 → valid l → Cursor.ready (Cursor.new (D := D) t) [] l.
Proof.
  intros [[[h Hw] Hc] Hle] Hlt Hv. right. split; [done|]. eapply Cursor.new_fresh; [done..| |done].
  apply (weight_fits h t); [done|lia].
Qed.
Lemma held_slice target b (c : Cursor.t T U D) before after :
  Cursor.ready c before after → target (dim D before) ≠ Lt →
  ∃ c' x mid rest, Cursor.slice target b c = Some (c', x) ∧ Cursor.c_tree c' = Cursor.c_tree c ∧
    held (ahead c - ahead c') x mid ∧
    after = mid ++ rest ∧ Cursor.stopped target b before mid rest ∧ Cursor.positioned c' (before ++ mid) rest.
Proof.
  intros Hc Ht. destruct (Cursor.slice_ok target b c before after Hc Ht) as (c' & x & mid & rest & E & Hx & H).
  destruct (slice_weight _ _ _ _ _ _ _ Hc E) as [Hle Et].
  exists c', x, mid, rest. split; [done|]. split; [done|]. split; [|done]. split; [done|lia].
Qed.
Lemma held_suffix (c : Cursor.t T U D) before after :
  Cursor.ready c before after →
  ∃ c' x, Cursor.suffix c = Some (c', x) ∧ held (ahead c) x after ∧ Cursor.positioned c' (before ++ after) [].
Proof.
  intros Hc. destruct (Cursor.suffix_ok c before after Hc) as (c' & x & E & Hx & H).
  exists c', x. split; [done|]. split; [|done]. split; [done|].
  destruct (slice_weight _ _ _ _ _ _ _ Hc E) as [Hle _].
  assert (0 ≤ ahead c') by (unfold ahead; destruct (Cursor.did_seek c'); [apply potential_nonneg|apply weight_nonneg]). lia.
Qed.
Lemma ahead_nonneg (c : Cursor.t T U D) : 0 ≤ ahead c.
Proof. unfold ahead. destruct (Cursor.did_seek c); [apply potential_nonneg|apply weight_nonneg]. Qed.

(** C31: The stack of a cursor has room: weights add up when trees are joined, a
    sequence weighs at most twice its length, an update changes nothing, a slice and
    what is left ahead of the cursor weigh no more than what was ahead of it
    before ([ahead], at most the weight of the tree), and a tree lighter than 6^16 has at most 16
    levels. So no tree made from fewer than a million million items, by any
    sequence of these operations, makes a cursor overflow its array. *)
Theorem weights_bound_heights a b k l m x f target bias before after (c : Cursor.t T U D) :
  represents a l → represents b m → valid (l ++ m) → valid (l ++ k) → valid (l ++ [x]) → valid (map_last f l) →
  Cursor.ready c before after → Cursor.c_tree c = a → target (dim D before) ≠ Lt →
  (∃ t, append a b = Some t ∧ represents t (l ++ m) ∧ weight t ≤ weight a + weight b) ∧
  (∃ t, push a x = Some t ∧ represents t (l ++ [x]) ∧ weight t ≤ weight a + 1) ∧
  (∃ t, extend a k = Some t ∧ represents t (l ++ k) ∧ weight t ≤ weight a + 2 * Z.of_nat (length k)) ∧
  (∃ t, update_last f a = Some t ∧ represents t (map_last f l) ∧ weight t ≤ weight a) ∧
  (∃ c' t mid, Cursor.slice target bias c = Some (c', t) ∧ represents t mid ∧
     weight t + ahead c' ≤ ahead c ∧ ahead c ≤ weight a) ∧
  weight (new (T := T) (U := U)) = 0 ∧
  (weight a < 6 ^ 16 → ∃ h, wf h a ∧ (h < Cursor.stack_capacity)%nat).
Proof.
  intros Ha Hb Hvm Hvk Hvx Hvf Hc Ea Ht.
  assert (∀ t n, represents t n → held (weight t) t n) as Hh by (intros; by split).
  split; [destruct (held_append _ _ a b l m (Hh _ _ Ha) (Hh _ _ Hb) Hvm) as (t & E & [? ?]); by exists t|].
  split; [destruct (held_push _ a l x (Hh _ _ Ha) Hvx) as (t & E & [? ?]); by exists t|].
  split; [destruct (held_extend _ a l k (Hh _ _ Ha) Hvk) as (t & E & [? ?]); by exists t|].
  split; [destruct (held_update_last _ a l f (Hh _ _ Ha) Hvf) as (t & E & [? ?]); by exists t|].
  split.
  - destruct (held_slice target bias c before after Hc) as (c' & t & mid & rest & E & _ & [? ?] & _); [done|].
    exists c', t, mid. apply ready_shaped in Hc as [_ Hle]. rewrite Ea in Hle. split_and!; [done|done|lia|done].
  - split; [done|]. intros Hlt. destruct Ha as [[h Hw] _]. exists h. split; [done|]. by apply (weight_fits h a).
Qed.

End held.

Import SumTree.Example.
#[local] Existing Instance TreeFind.total_laws.
Lemma weights_bound_heights_witness :
  ∃ a b t h, from_iter (upto 40) = Some a ∧ from_iter (upto 5) = Some b ∧ append a b = Some t ∧
    weight t ≤ weight a + weight b ∧ wf h t ∧ (h < Cursor.stack_capacity)%nat.
Proof.
  destruct (represents_from_iter (upto 40) (ok _)) as (a & Ea & Ha).
  destruct (represents_from_iter (upto 5) (ok _)) as (b & Eb & Hb).
  assert (∃ h, wf h a ∧ (h < Cursor.stack_capacity)%nat) as (h & Hw & Hh).
  { destruct Ha as [[h Hw] _]. exists h. split; [done|]. apply (weight_fits h a); [done|].
    injection Ea as <-. by vm_compute. }
  destruct (weights_bound_heights (D := Z) a b [] (upto 40) (upto 5) 7 id (Z.compare 3) Left [] (upto 40)
    (Cursor.new a) Ha Hb (ok _) (ok _) (ok _) (ok _)) as ((t & Et & Ht & Hle) & _); [|done|done|].
  { right. split; [done|]. by eapply Cursor.new_fresh; [exact Hw|apply Ha|exact Hh|]. }
  pose proof Ht as [[h' Hw'] _]. exists a, b, t, h'. split_and!; [done..|].
  apply (weight_fits h' t); [done|]. eapply Z.le_lt_trans; [exact Hle|].
  injection Ea as <-. injection Eb as <-. by vm_compute.
Defined.
End TreeWeight.
