(* ===== verification/ParTree.v ===== *)
(** Building a tree in parallel ([from_par_iter], [par_extend] of
    [crates/sum_tree/src/sum_tree.rs]). The parallel iterators of rayon are
    indexed: [chunks], [map] and [collect] give what the sequential ones give,
    whatever the schedule. The tree is the one that [from_iter] builds. *)
From S2P Require Import Prelude SumTree.

Module ParTree.
Import SumTree.

(** [ParallelIterator::chunks]: groups of [n], the last one shorter. *)
Fixpoint chunks_of {A} (fuel n : nat) (l : list A) : list (list A) :=
  match fuel, l with
  | S fuel, _ :: _ => take n l :: chunks_of fuel n (drop n l)
  | _, _ => []
  end.
Definition chunks {A} (n : nat) (l : list A) : list (list A) := chunks_of (length l) n l.

Section operations.
Context {T U : Type} `{!Summary U, !Item T U}.
Abbreviation tree := (node T U).

(** The first summary, [summaries[0].clone()], and the others added to it. *)
Definition sum_from_first (summaries : list U) : option U :=
  match summaries with
  | [] => None
  | first :: summaries => Some (foldl add_summary first summaries)
  end.

(** [crates/sum_tree/src/sum_tree.rs:330-345] SumTree::from_par_iter *)
Definition par_leaf (items : list T) : option tree :=
  items ← array items;
  item_summaries ← array (map item_summary items);
  summary ← sum_from_first item_summaries;
  Some (Leaf summary items item_summaries).

(** [crates/sum_tree/src/sum_tree.rs:354-371] SumTree::from_par_iter *)
Definition par_parent (height : nat) (child_nodes : list tree) : option tree :=
  child_trees ← array child_nodes;
  child_summaries ← array (map summary child_trees);
  summary ← sum_from_first child_summaries;
  Some (Internal height summary child_summaries child_trees).

(** [crates/sum_tree/src/sum_tree.rs:348-373] SumTree::from_par_iter *)
Fixpoint par_levels (fuel height : nat) (nodes : list tree) : option (list tree) :=
  if Nat.leb (length nodes) 1 then Some nodes
  else
    match fuel with
    | O => None
    | S fuel =>
        let height := (height + 1)%nat in
        nodes ← mapM (par_parent height) (chunks capacity nodes);
        par_levels fuel height nodes
    end.

(** [crates/sum_tree/src/sum_tree.rs:318-381] SumTree::from_par_iter *)
Definition from_par_iter (iter : list T) : option tree :=
  nodes ← mapM par_leaf (chunks capacity iter);
  nodes ← par_levels (length nodes) 0 nodes;
  match nodes with
  | [] => Some new
  | [node] => Some node
  | _ => None
  end.

(** [crates/sum_tree/src/sum_tree.rs:757-766] SumTree::par_extend *)
Definition par_extend (self : tree) (iter : list T) : option tree :=
  t ← from_par_iter iter; append self t.
End operations.

Section correct.
Context {T U : Type} `{!Summary U, !Item T U, !SummaryLaws T U}.
Abbreviation tree := (node T U).
Implicit Types (l k : list T) (t : tree) (ts : list tree).

Lemma chunks_of_enough {A} fuel n (l : list A) :
  (0 < n)%nat → (length l ≤ fuel)%nat → chunks_of fuel n l = chunks n l.
Proof.
  intros Hn. unfold chunks. revert l. assert (∀ f g (l : list A), (length l ≤ f)%nat → (length l ≤ g)%nat →
    chunks_of f n l = chunks_of g n l) as H; [|intros; by apply H].
  induction f as [|f IH]; intros g l Hf Hg; destruct l as [|x l]; try by destruct g.
  - cbn in Hf. lia.
  - destruct g; [cbn in Hg; lia|]. cbn [chunks_of]. f_equal. apply IH; rewrite length_drop; cbn [length] in *; lia.
Qed.
Lemma chunks_nil {A} n : chunks n (@nil A) = [].
Proof. done. Qed.
Lemma chunks_step {A} n (l : list A) :
  (0 < n)%nat → l ≠ [] → chunks n l = take n l :: chunks n (drop n l).
Proof.
  intros Hn Hl. destruct l as [|x l]; [done|]. unfold chunks at 1. cbn [length chunks_of]. f_equal.
  apply chunks_of_enough; [done|]. rewrite length_drop. cbn [length]. lia.
Qed.

(** Joining nothing on the left of a sequence that occurs changes nothing. *)
Lemma add_zero_measure k : k ≠ [] → valid k → add_summary zero (measure k) = measure k.
Proof. intros Hk Hv. exact (eq_sym (measure_app [] k Hk Hv)). Qed.

Lemma par_leaf_ok (x : T) l :
  (length (x :: l) ≤ capacity)%nat →
  par_leaf (x :: l)
  = Some (Leaf (foldl add_summary (item_summary x) (map item_summary l)) (x :: l) (map item_summary (x :: l))).
Proof.
  intros Hl. unfold par_leaf. rewrite array_ok by done. cbn [mbind option_bind].
  by rewrite array_ok by (by rewrite length_map).
Qed.
Lemma leaves_agree fuel l :
  (length l ≤ fuel)%nat → ∃ nodes, leaves_of fuel l = Some nodes ∧ mapM par_leaf (chunks capacity l) = Some nodes.
Proof.
  revert l. induction fuel as [|fuel IH]; intros l Hl.
  { destruct l; [by exists []|cbn in Hl; lia]. }
  destruct l as [|x l]; [by exists []|].
  destruct (IH (drop capacity (x :: l))) as (nodes & E1 & E2).
  { rewrite length_drop. cbn [length] in *. unfold TREE_BASE. lia. }
  cbn [leaves_of]. rewrite array_ok by (rewrite length_take; lia). cbn [mbind option_bind].
  rewrite chunks_step by (done || (unfold TREE_BASE; lia)). cbn [mapM].
  assert (take capacity (x :: l) = x :: take (capacity - 1) l) as Et by done.
  rewrite Et, par_leaf_ok by (rewrite <- Et, length_take; lia).
  cbn [map head tail mbind option_bind]. rewrite E1, E2. cbn [mbind option_bind]. by eexists.
Qed.

(** The grouping loop of [from_iter] on at most one group, and on a full one. *)
Abbreviation grouped h := (foldl (λ st child, st ← st; add_child h st child)).
Lemma add_child_room h ps cur s ss ts t :
  default (zero, [], []) cur = (s, ss, ts) → (length ts < capacity)%nat → length ss = length ts →
  add_child h (ps, cur) t =
    if Nat.eqb (S (length ts)) capacity
    then Some (ps ++ [Internal h (add_summary s (summary t)) (ss ++ [summary t]) (ts ++ [t])], None)
    else Some (ps, Some (add_summary s (summary t), ss ++ [summary t], ts ++ [t])).
Proof.
  intros E Hl Hss. unfold add_child. rewrite E.
  rewrite array_ok by (rewrite length_app; cbn [length]; lia). cbn [mbind option_bind].
  rewrite array_ok by (rewrite length_app; cbn [length]; lia). cbn [mbind option_bind].
  rewrite length_app, Nat.add_1_r. done.
Qed.
Lemma groups_some h nodes ps s ss ts :
  (length ts + length nodes < capacity)%nat → length ss = length ts →
  grouped h (Some (ps, Some (s, ss, ts))) nodes
  = Some (ps, Some (foldl add_summary s (map summary nodes), ss ++ map summary nodes, ts ++ nodes)).
Proof.
  revert s ss ts. induction nodes as [|n nodes IH]; intros s ss ts Hl Hss; [cbn; by rewrite !app_nil_r|].
  cbn [length] in Hl. trans (grouped h (add_child h (ps, Some (s, ss, ts)) n) nodes); [done|].
  rewrite (add_child_room _ _ _ s ss ts), (proj2 (Nat.eqb_neq _ _)) by (done || lia).
  rewrite IH by (rewrite ?length_app; cbn [length]; lia). cbn [map foldl]. by rewrite <- !app_assoc.
Qed.

Definition finish h (st : list tree * option (U * list U * list tree)) : list tree :=
  match st with
  | (parents, Some (s, ss, ts)) => parents ++ [Internal h s ss ts]
  | (parents, None) => parents
  end.
Lemma parents_of_finish h nodes :
  parents_of h nodes = finish h <$> grouped h (Some ([], None)) nodes.
Proof. unfold parents_of. by destruct (foldl _ _ nodes) as [[ps [[[s ss] ts]|]]|]. Qed.

(** The first node of a group, from which both versions go on. *)
Definition left_unit t : Prop := add_summary zero (summary t) = summary t.

Lemma group_short h ps t nodes :
  left_unit t → (length (t :: nodes) < capacity)%nat →
  grouped h (Some (ps, None)) (t :: nodes)
  = Some (ps, Some (foldl add_summary (summary t) (map summary nodes), map summary (t :: nodes), t :: nodes)).
Proof.
  intros Ht Hl. cbn [length] in Hl. trans (grouped h (add_child h (ps, None) t) nodes); [done|].
  rewrite (add_child_room _ _ _ zero [] []) by (done || (cbn; lia)). cbn [length app]. rewrite (proj2 (Nat.eqb_neq _ _)) by lia.
  rewrite Ht, groups_some by (done || (cbn [length]; lia)). done.
Qed.
Lemma group_whole h ps t nodes :
  left_unit t → length (t :: nodes) = capacity →
  grouped h (Some (ps, None)) (t :: nodes)
  = Some (ps ++ [Internal h (foldl add_summary (summary t) (map summary nodes)) (map summary (t :: nodes)) (t :: nodes)], None).
Proof.
  intros Ht Hl. cbn [length] in Hl. destruct (exists_last (l := nodes)) as (init & x & ->); [by intros ->|].
  rewrite length_app in Hl. cbn [length] in Hl.
  change (t :: init ++ [x]) with ((t :: init) ++ [x]). rewrite foldl_app, group_short by (done || (cbn [length]; lia)).
  trans (add_child h (ps, Some (foldl add_summary (summary t) (map summary init), map summary (t :: init), t :: init)) x); [done|].
  erewrite add_child_room; [|done|cbn [length]; lia|by rewrite length_map].
  cbn [length]. rewrite (proj2 (Nat.eqb_eq _ _)) by lia.
  rewrite !map_app, foldl_app. done.
Qed.

Lemma par_parent_ok h t nodes :
  (length (t :: nodes) ≤ capacity)%nat →
  par_parent h (t :: nodes)
  = Some (Internal h (foldl add_summary (summary t) (map summary nodes)) (map summary (t :: nodes)) (t :: nodes)).
Proof.
  intros Hl. unfold par_parent. rewrite array_ok by done. cbn [mbind option_bind].
  by rewrite array_ok by (by rewrite length_map).
Qed.

Lemma parents_agree h fuel nodes ps :
  (length nodes ≤ fuel)%nat → Forall left_unit nodes →
  ∃ parents, mapM (par_parent h) (chunks capacity nodes) = Some parents ∧
    finish h <$> grouped h (Some (ps, None)) nodes = Some (ps ++ parents).
Proof.
  revert nodes ps. induction fuel as [|fuel IH]; intros nodes ps Hl F.
  { destruct nodes; [|cbn in Hl; lia]. exists []. by rewrite app_nil_r. }
  destruct nodes as [|t nodes]; [exists []; by rewrite app_nil_r|].
  rewrite chunks_step by (done || (unfold TREE_BASE; lia)). cbn [mapM].
  inversion F as [|? ? Ht F']; subst.
  destruct (Nat.le_gt_cases capacity (length (t :: nodes))) as [Hc|Hc].
  - assert (take capacity (t :: nodes) = t :: take (capacity - 1) nodes) as Et by done.
    assert (length (t :: take (capacity - 1) nodes) = capacity) as Hlen.
    { rewrite <- Et, length_take. lia. }
    destruct (IH (drop capacity (t :: nodes)) (ps ++ [Internal h (foldl add_summary (summary t) (map summary (take (capacity - 1) nodes)))
      (map summary (t :: take (capacity - 1) nodes)) (t :: take (capacity - 1) nodes)])) as (parents & E1 & E2).
    { rewrite length_drop. cbn [length] in *. unfold TREE_BASE in *. lia. }
    { by apply Forall_drop. }
    rewrite Et, par_parent_ok by lia. cbn [mbind option_bind]. rewrite E1. cbn [mbind option_bind].
    eexists. split; [done|]. rewrite <- (take_drop capacity (t :: nodes)) at 1. rewrite foldl_app, Et.
    rewrite group_whole by done. rewrite E2. by rewrite <- app_assoc.
  - rewrite take_ge by (unfold TREE_BASE in *; lia). rewrite drop_ge by lia.
    rewrite par_parent_ok by lia. cbn [mbind option_bind chunks_of chunks length mapM].
    eexists. split; [done|]. by rewrite group_short by done.
Qed.

Lemma sub_left_unit h ts : Forall (sub h) ts → valid (flat_map contents ts) → Forall left_unit ts.
Proof.
  intros F Hv. induction F as [|t ts [Hw Hne] F IH]; [done|]. cbn [flat_map] in Hv.
  destruct (valid_app _ _ Hv) as [H1 H2]. constructor; [|by apply IH].
  unfold left_unit. rewrite (wf_summary _ _ Hw). by apply add_zero_measure.
Qed.

Lemma levels_agree fuel h nodes :
  Forall (sub h) nodes → valid (flat_map contents nodes) → par_levels fuel h nodes = build_levels fuel h nodes.
Proof.
  revert h nodes. induction fuel as [|fuel IH]; intros h nodes F Hv; cbn [par_levels build_levels];
    destruct (Nat.leb _ _); [done..|].
  destruct (parents_agree (h + 1) (length nodes) nodes []) as (parents & E1 & E2); [done|by eapply sub_left_unit|].
  rewrite E1, parents_of_finish, E2. cbn [mbind option_bind app].
  destruct (parents_of_ok h nodes F Hv) as (ps & E & Fp & Ep & _).
  rewrite <- Nat.add_1_r, parents_of_finish, E2 in E. injection E as <-.
  rewrite Nat.add_1_r. apply IH; [done|by rewrite Ep].
Qed.

Lemma par_is_sequential l : valid l → from_par_iter l = from_iter l.
Proof.
  intros Hv. unfold from_par_iter, from_iter.
  destruct (leaves_agree (length l) l) as (nodes & E1 & E2); [done|]. rewrite E1, E2. cbn [mbind option_bind].
  destruct (leaves_of_ok (length l) l) as (nodes' & E & F & Ec & _); [done|done|].
  rewrite E1 in E. injection E as <-. by rewrite (levels_agree _ 0) by (done || by rewrite Ec).
Qed.
Lemma par_extend_extend t l : valid l → par_extend t l = extend t l.
Proof. intros Hv. unfold par_extend, extend. by rewrite par_is_sequential. Qed.

(** Building a tree in parallel, group by group on each level, gives exactly the
    tree that the sequential loop builds, which starts each parent from [zero]
    and appends its children one at a time; hence it never panics, holds
    the items in order, and [par_extend] appends them. *)
Theorem par_iter_sequential t l k :
  represents t l → valid (l ++ k) →
  from_par_iter k = from_iter k ∧ par_extend t k = extend t k ∧
  (∃ r, from_par_iter k = Some r ∧ represents r k) ∧
  (∃ r, par_extend t k = Some r ∧ represents r (l ++ k)).
Proof.
  intros Ht Hv. destruct (valid_app _ _ Hv) as [_ Hk].
  rewrite par_extend_extend, par_is_sequential by done. split_and!; [done|done| |].
  - by apply represents_from_iter.
  - by apply represents_extend.
Qed.
End correct.

Import SumTree.Example.
Lemma par_iter_sequential_witness :
  ∃ t, from_par_iter (upto 200) = Some t ∧ from_iter (upto 200) = Some t ∧ height t = 2%nat.
Proof.
  destruct (par_iter_sequential new [] (upto 200) represents_new (ok _)) as (E & _ & (r & Er & Hr) & _).
  exists r. rewrite <- E. split_and!; [done..|]. injection Er as <-. by vm_compute.
Defined.
End ParTree.
