(* ===== verification/Iter.v ===== *)
(** The plain iterator of a tree ([Iter] in [crates/sum_tree/src/cursor.rs]): a
    stack without positions, one item per [next]. *)
From S2P Require Import Prelude SumTree Cursor.

Module Iter.
Import SumTree.
Section operations.
Context {T U : Type} `{!Summary U, !Item T U}.
Abbreviation tree := (node T U).
Abbreviation entry := (Cursor.entry T U unit).

(** [crates/sum_tree/src/cursor.rs:54-57] Iter *)
Record t := mk { i_tree : tree; i_stack : list entry }.

(** [crates/sum_tree/src/cursor.rs:578-583] Iter::new *)
Definition new (tree : tree) : t := mk tree [].

(** One iteration of the loop of [next]: the stack and [descend].
    [crates/sum_tree/src/cursor.rs:603-639] Iter::next *)
Definition next_step (st : list entry * bool) : option (list entry * bool + list entry * option T) :=
  let '(stk, descend) := st in
  match stk with
  | [] => Some (inr ([], None))
  | Cursor.mk_entry tree i _ :: below =>
      let i := if descend then i else S i in
      let stk := Cursor.mk_entry tree i tt :: below in
      match tree with
      | Internal _ _ _ child_trees =>
          match child_trees !! i with
          | Some subtree => stk ← Cursor.stack_push (Cursor.mk_entry subtree 0 tt) stk; Some (inl (stk, true))
          | None => Some (inl (below, false))
          end
      | Leaf _ items _ =>
          match items !! i with
          | Some next_item => Some (inr (stk, Some next_item))
          | None => Some (inl (below, false))
          end
      end
  end.

(** The loop climbs and descends at most the height of the tree.
    [crates/sum_tree/src/cursor.rs:589-642] Iter::next *)
Definition next (it : t) : option (t * option T) :=
  '(stk, descend) ←
    match i_stack it with
    | [] => stk ← Cursor.stack_push (Cursor.mk_entry (i_tree it) 0 tt) []; Some (stk, true)
    | stk => Some (stk, false)
    end;
  '(stk, item) ← iterate next_step (2 * height (i_tree it) + 3)%nat (stk, descend);
  Some (mk (i_tree it) stk, item).

(** [crates/sum_tree/src/cursor.rs:644-647] Iter::last *)
Definition last (it : t) : option (option T) := SumTree.last (i_tree it).

(** The lower bound; the upper one is [None].
    [crates/sum_tree/src/cursor.rs:649-656] Iter::size_hint *)
Definition size_hint (it : t) : nat :=
  match i_stack it with
  | top :: _ => length (child_summaries (Cursor.e_tree top)) - Cursor.e_index top
  | [] => length (child_summaries (i_tree it))
  end%nat.

(** [for]: the items until [next] gives [None]. *)
Fixpoint collect (fuel : nat) (it : t) : option (list T) :=
  match fuel with
  | O => None
  | S fuel =>
      '(it, item) ← next it;
      match item with
      | Some x => l ← collect fuel it; Some (x :: l)
      | None => Some []
      end
  end.

End operations.
Arguments t : clear implicits.

Section correct.
Context {T U : Type} `{!Summary U, !Item T U, !SummaryLaws T U}.
Implicit Types (l before after pre post : list T).
Abbreviation spine := (Cursor.spine (D := unit)).
Abbreviation at_item := (Cursor.at_item (D := unit)).
Abbreviation entry := (Cursor.entry T U unit).
Abbreviation step := (next_step (T := T) (U := U)).
Variable root : node T U.
Variable hr : nat.
Hypothesis root_ok : wf hr root.
Hypothesis root_fits : (hr < Cursor.stack_capacity)%nat.

(** What the loop ends with: at the first of the items [after], or at the end. *)
Definition exits (n : nat) (st : list entry * bool) before after : Prop :=
  ∃ st' stk r, reaches step n st st' ∧ step st' = Some (inr (stk, r)) ∧ r = head after ∧
    (after = [] ∧ stk = [] ∨ at_item root hr stk before after).

Lemma exits_step n st st' before after :
  step st = Some (inl st') → exits n st' before after → exits (S n) st before after.
Proof.
  intros E (st2 & stk & r & H1 & H2 & H3). exists st2, stk, r. split; [by eapply reaches_step|done].
Qed.

Lemma push_child h h0 s ss ts i x stk pre post pos :
  spine root hr stk (S h) (Internal h0 s ss ts) pre post → ts !! i = Some x →
  Cursor.stack_push (Cursor.mk_entry x 0 tt) (Cursor.mk_entry (Internal h0 s ss ts) i pos :: stk)
    = Some (Cursor.mk_entry x 0 tt :: Cursor.mk_entry (Internal h0 s ss ts) i tt :: stk) ∧
  spine root hr (Cursor.mk_entry (Internal h0 s ss ts) i tt :: stk) h x
    (pre ++ flat_map contents (take i ts)) (flat_map contents (drop (S i) ts) ++ post).
Proof.
  intros Hs Hi. split.
  - destruct (Cursor.spine_ok _ _ _ _ _ _ _ root_ok Hs) as (_ & _ & Hl & _). destruct pos.
    unfold Cursor.stack_push. cbn [length].
    destruct (Nat.ltb_spec (S (length stk)) Cursor.stack_capacity); [done|lia].
  - pose proof (Cursor.spine_child (D := unit) root hr stk h h0 s ss ts i x pre post Hs Hi) as H. by destruct (dim unit _).
Qed.

Lemma descends h x stk pre post :
  spine root hr stk h x pre post → contents x ≠ [] →
  ∃ n, (n ≤ h)%nat ∧ exits n (Cursor.mk_entry x 0 tt :: stk, true) pre (contents x ++ post).
Proof.
  revert x stk pre post. induction h as [|h IH]; intros x stk pre post Hs Hne;
    destruct (Cursor.spine_ok _ _ _ _ _ _ _ root_ok Hs) as (Hw & _);
    destruct x as [h0 s ss ts|s its ss]; try by destruct Hw.
  - cbn [contents] in *. destruct its as [|x its]; [done|]. exists 0%nat. split; [done|].
    exists (Cursor.mk_entry (Leaf s (x :: its) ss) 0 tt :: stk, true),
      (Cursor.mk_entry (Leaf s (x :: its) ss) 0 tt :: stk), (Some x).
    split_and!; [apply reaches_refl|done..|]. right.
    rewrite <- (app_nil_r pre). apply (Cursor.at_item_leaf (D := unit) root hr stk s (x :: its) ss pre post 0 tt Hs).
    cbn. lia.
  - destruct Hw as (_ & Hts & _ & _ & _ & F). destruct ts as [|y ts]; [done|].
    destruct (push_child h h0 s ss (y :: ts) 0 y stk pre post tt Hs eq_refl) as [E Hs'].
    apply Forall_cons in F as [[Hy Hyne] F].
    destruct (IH y _ _ _ Hs' Hyne) as (n & Hn & Hex). exists (S n). split; [lia|].
    cbn [contents flat_map take drop] in *. rewrite app_nil_r, app_assoc in Hex.
    eapply exits_step; [|exact Hex]. cbn. by rewrite E.
Qed.

Lemma climbs stk h x pre post :
  spine root hr stk h x pre post →
  ∃ n, (n ≤ 2 * hr - h)%nat ∧ exits n (stk, false) (pre ++ contents x) post.
Proof.
  induction 1 as [|stk h h0 s ss ts i x pre post Hs IH Hi].
  - exists 0%nat. split; [lia|]. exists ([], false), [], None.
    split_and!; [apply reaches_refl|done..|by left].
  - destruct (Cursor.spine_ok _ _ _ _ _ _ _ root_ok Hs) as (Hw & _ & Hl & _).
    destruct (ts !! S i) as [y|] eqn:Hy.
    + destruct (push_child h h0 s ss ts (S i) y stk pre post tt Hs Hy) as [E Hs'].
      destruct Hw as (_ & _ & _ & _ & _ & F).
      destruct (proj1 (Forall_lookup _ _) F _ _ Hy) as [_ Hyne].
      destruct (descends h y _ _ _ Hs' Hyne) as (n & Hn & Hex). exists (S n). split; [lia|].
      rewrite (drop_S ts y (S i) Hy). cbn [flat_map]. rewrite (take_S_r ts i x Hi) in Hex.
      rewrite flat_map_app in Hex. cbn [flat_map] in Hex. rewrite app_nil_r in Hex.
      rewrite <- !app_assoc in *. eapply exits_step; [|exact Hex]. cbn. rewrite Hy. by rewrite E.
    + destruct IH as (n & Hn & Hex). exists (S n). split; [lia|].
      assert (drop (S i) ts = []) as Hd by by apply drop_ge, lookup_ge_None.
      eapply exits_step; [cbn; by rewrite Hy|]. cbn [contents] in Hex.
      rewrite (Cursor.contents_split ts i x Hi), Hd in Hex. cbn [flat_map app] in Hex.
      rewrite app_nil_r in Hex. rewrite Hd. cbn [flat_map app]. by rewrite <- app_assoc.
Qed.

(** What the iterator still has to give: everything before the first [next]
    and after the last one (it starts again), what is behind the current item
    otherwise. *)
Inductive ahead (it : t T U) l : Prop :=
  | ahead_start : i_tree it = root → i_stack it = [] → contents root = l → ahead it l
  | ahead_at before x : i_tree it = root → at_item root hr (i_stack it) before (x :: l) → ahead it l.

Lemma run_exits fuel n stk descend before after :
  exits n (stk, descend) before after → (n < fuel)%nat →
  ∃ stk', iterate step fuel (stk, descend) = Some (stk', head after) ∧
    (after = [] ∧ stk' = [] ∨ at_item root hr stk' before after).
Proof.
  intros (st' & stk' & r & H1 & H2 & -> & H3) Hn. exists stk'. split; [|done].
  by eapply iterate_exit.
Qed.

Lemma start_exits :
  ∃ n, (n ≤ S hr)%nat ∧ exits n ([Cursor.mk_entry root 0 tt], true) [] (contents root).
Proof.
  destruct (decide (contents root = [])) as [E|E].
  - exists 1%nat. split; [lia|]. rewrite E. destruct root as [h s ss ts|s its ss] eqn:Er.
    + assert (SumTree.is_empty root = true) as He by by apply (wf_empty hr); rewrite Er.
      by rewrite Er in He.
    + cbn in E. subst its. exists ([], false), [], None. split_and!; [|done..|by left].
      by eapply reaches_step; [|apply reaches_refl].
  - destruct (descends hr root [] [] []) as (n & Hn & Hex); [constructor|done|].
    rewrite app_nil_r in Hex. exists n. split; [lia|done].
Qed.

Lemma step_exits stk before x l :
  at_item root hr stk before (x :: l) →
  stk ≠ [] ∧ ∃ n, (n ≤ 2 * hr + 1)%nat ∧ exits n (stk, false) (before ++ [x]) l.
Proof.
  remember (x :: l) as after eqn:E. intros Ha. revert E.
  destruct Ha as [stk0 s its ss pre post i epos Hs Hi]. intros E. split; [done|].
  destruct (lookup_lt_is_Some_2 its i Hi) as [y Hy]. rewrite (drop_S _ _ _ Hy) in E.
  injection E as <- <-. rewrite <- app_assoc, <- (take_S_r its i y Hy).
  destruct (its !! S i) as [z|] eqn:Hz.
  - exists 0%nat. split; [lia|].
    exists (Cursor.mk_entry (Leaf s its ss) i epos :: stk0, false),
      (Cursor.mk_entry (Leaf s its ss) (S i) tt :: stk0), (Some z).
    split_and!; [apply reaches_refl|cbn; by rewrite Hz|by rewrite (drop_S _ _ _ Hz)|].
    right. apply Cursor.at_item_leaf; [done|]. by eapply lookup_lt_Some.
  - apply lookup_ge_None in Hz. rewrite drop_ge, take_ge by done.
    destruct (climbs stk0 0 _ pre post Hs) as (n & Hn & Hex). exists (S n). split; [lia|].
    eapply exits_step; [|exact Hex]. cbn. by rewrite (lookup_ge_None_2 its (S i)).
Qed.

Lemma iter_next_ok (it : t T U) l :
  ahead it l →
  ∃ it', next it = Some (it', head l) ∧
    match l with
    | [] => i_stack it' = [] ∧ i_tree it' = root
    | x :: l' => i_tree it' = root ∧ ∃ before, at_item root hr (i_stack it') before (x :: l') end.
Proof.
  intros H. unfold next.
  assert (∃ n stk d before, (n < 2 * hr + 3)%nat ∧ i_tree it = root ∧
    match i_stack it with
    | [] => stk ← Cursor.stack_push (Cursor.mk_entry (i_tree it) 0 tt) []; Some (stk, true)
    | stk => Some (stk, false) end = Some (stk, d) ∧ exits n (stk, d) before l)
    as (n & stk & d & before & Hn & Et & -> & Hex).
  { destruct H as [Et Es <-|before x Et Ha].
    - destruct start_exits as (n & Hn & Hex). exists n, [Cursor.mk_entry root 0 tt], true, [].
      rewrite Es, Et. split_and!; [lia|done..].
    - destruct (step_exits _ _ _ _ Ha) as (Hne & n & Hn & Hex).
      exists n, (i_stack it), false, (before ++ [x]). split_and!; [lia|done| |done].
      by destruct (i_stack it). }
  cbn [mbind option_bind]. rewrite Et, (wf_height hr root root_ok).
  destruct (run_exits (2 * hr + 3) n stk d before l Hex Hn) as (stk' & -> & H').
  cbn [mbind option_bind]. exists (mk root stk'). split; [done|].
  destruct H' as [[-> ->]|Ha]; [done|].
  destruct (Cursor.at_item_contents _ _ _ _ _ root_ok Ha) as (_ & Hl & Hne & _).
  destruct l as [|x l]; [done|]. split; [done|]. by exists before.
Qed.

Lemma collect_ok (it : t T U) l fuel : ahead it l → (length l < fuel)%nat → collect fuel it = Some l.
Proof.
  revert it fuel. induction l as [|x l IH]; intros it [|fuel] Hit Hf; try (cbn in Hf; lia);
    destruct (iter_next_ok it _ Hit) as (it' & E & H'); cbn [collect]; rewrite E; cbn [mbind option_bind head].
  - done.
  - destruct H' as (Et & before & H'). rewrite (IH it' fuel); [done|by eapply ahead_at|].
    cbn in Hf. lia.
Qed.

(** The bound [size_hint] gives at the start, where the stack is empty. *)
Lemma children_bound h x : wf h x → (length (child_summaries x) ≤ length (contents x))%nat.
Proof.
  destruct h, x as [h0 s ss ts|s its ss]; try done.
  - intros (_ & -> & _). cbn. by rewrite length_map.
  - intros (_ & _ & _ & -> & _ & F). cbn. rewrite length_map. clear -F.
    induction F as [|y ts [_ Hy] F IH]; [done|]. cbn [flat_map length]. rewrite length_app.
    destruct (contents y); [done|]. cbn [length]. lia.
Qed.

(** On an item, the top of the stack is its leaf. *)
Lemma size_hint_at (it : t T U) before x l :
  at_item root hr (i_stack it) before (x :: l) → (size_hint it ≤ S (length l))%nat ∧ (0 < size_hint it)%nat.
Proof.
  unfold size_hint. remember (x :: l) as after eqn:E. intros Ha. revert E.
  destruct Ha as [stk s its ss pre post i epos Hs Hi]. intros E.
  destruct (Cursor.spine_ok _ _ _ _ _ _ _ root_ok Hs) as ((_ & -> & _) & _).
  apply (f_equal length) in E. rewrite length_app, length_drop in E. cbn [length] in E.
  cbn [Cursor.e_tree Cursor.e_index child_summaries]. rewrite length_map. lia.
Qed.
End correct.

Section contract.
Context {T U : Type} `{!Summary U, !Item T U, !SummaryLaws T U}.
Implicit Types (l : list T).

(** A loop over [iter] sees exactly the items of the tree, in order, each once: every
    [next] ends within twice the height of the tree and does not panic, and
    gives the next item, then [None] (after which the iterator starts again). *)
Theorem iter_correct (x : node T U) h :
  wf h x → (h < Cursor.stack_capacity)%nat →
  ∃ it, collect (S (length (contents x))) (new x) = Some (contents x) ∧
    (next (new x) = Some (it, head (contents x))) ∧
    (contents x ≠ [] → collect (length (contents x)) it = Some (tail (contents x))).
Proof.
  intros Hw Hh. assert (ahead x h (new x) (contents x)) as Ha by by apply ahead_start.
  destruct (iter_next_ok x h Hw Hh (new x) _ Ha) as (it & E & H). exists it. split_and!.
  - by eapply collect_ok; [..|lia].
  - done.
  - destruct (contents x) as [|y l]; [done|]. intros _. destruct H as (Et & before & H).
    eapply collect_ok; [done|done|by eapply ahead_at|cbn; lia].
Qed.

(** The lower bound of [size_hint] holds before the first [next], where it
    counts the children of the root. On an item it can be one too high: it
    counts the item [next] has already returned, so after the last item of a
    tree it promises one more (against the contract of [Iterator::size_hint]). *)
Theorem size_hint_bound (x : node T U) h :
  wf h x → (h < Cursor.stack_capacity)%nat →
  (size_hint (new x) ≤ length (contents x))%nat ∧
  (contents x ≠ [] → ∃ it before y l, next (new x) = Some (it, Some y) ∧
     i_tree it = x ∧ Cursor.at_item x h (i_stack it) before (y :: l)) ∧
  (∀ it before y l, i_tree it = x → Cursor.at_item x h (i_stack it) before (y :: l) →
     (size_hint it ≤ S (length l))%nat ∧
     (∃ it', next it = Some (it', head l)) ∧ (l = [] → size_hint it = 1%nat)).
Proof.
  intros Hw Hh. split_and!; [by eapply children_bound| |].
  - intros Hne. destruct (iter_next_ok x h Hw Hh (new x) (contents x)) as (it & E & H); [by apply ahead_start|].
    destruct (contents x) as [|y l]; [done|]. destruct H as (Et & before & H).
    by exists it, before, y, l.
  - intros it before y l Et H. destruct (size_hint_at x h Hw Hh it before y l H) as [H1 H2].
    destruct (iter_next_ok x h Hw Hh it l) as (it' & E & _); [by eapply ahead_at|].
    split_and!; [done|by exists it'|]. intros ->. cbn [length] in H1. lia.
Qed.
End contract.

(** A cursor used as an iterator: [for] over [Cursor::next]. *)
Section cursor.
Context {T U D : Type} `{!Summary U, !Item T U, !Dimension D U}.
Fixpoint collect_cursor (fuel : nat) (c : Cursor.t T U D) : option (list T) :=
  match fuel with
  | O => None
  | S fuel =>
      '(c, item) ← Cursor.iter_next c;
      match item with
      | Some x => l ← collect_cursor fuel c; Some (x :: l)
      | None => Some []
      end
  end.

Lemma cursor_next_ok `{!SummaryLaws T U, !DimensionLaws D T U} (c : Cursor.t T U D) before after :
  Cursor.positioned c before after →
  ∃ c', Cursor.iter_next c = Some (c', head after) ∧
    match after with [] => True | x :: after => Cursor.positioned c' (before ++ [x]) after end.
Proof.
  intros Hc. unfold Cursor.iter_next.
  assert (Cursor.did_seek c = true) as -> by (by destruct Hc). cbn [mbind option_bind].
  rewrite (Cursor.item_ok _ _ _ Hc). destruct after as [|x after]; cbn [mbind option_bind head].
  - by exists c.
  - destruct (Cursor.next_ok _ _ _ _ Hc) as (c' & -> & Hc'). by exists c'.
Qed.
Lemma collect_cursor_ok `{!SummaryLaws T U, !DimensionLaws D T U} (c : Cursor.t T U D) before after fuel :
  Cursor.positioned c before after → (length after < fuel)%nat → collect_cursor fuel c = Some after.
Proof.
  revert c before fuel. induction after as [|x after IH]; intros c before fuel Hc Hf;
    (destruct fuel as [|fuel]; [lia|]); cbn [collect_cursor];
    destruct (cursor_next_ok c _ _ Hc) as (c' & -> & Hc'); cbn [mbind option_bind head]; [done|].
  cbn [length] in Hf. by rewrite (IH c' _ fuel Hc') by lia.
Qed.
End cursor.

Import SumTree.Example.
Lemma iter_correct_witness :
  ∃ x, from_iter (upto 100) = Some x ∧ collect 101 (new x) = Some (upto 100).
Proof.
  destruct (represents_from_iter (upto 100) (ok _)) as (x & E & (h & Hw) & Hc).
  exists x. split; [done|].
  destruct (iter_correct x h Hw) as (it & H & _).
  - rewrite <- (wf_height h x Hw). vm_compute in E. injection E as <-. vm_compute. lia.
  - by rewrite Hc in H.
Defined.

Lemma size_hint_bound_witness :
  ∃ x it, from_iter [7] = Some x ∧ next (new x) = Some (it, Some 7) ∧ size_hint it = 1%nat ∧
    option_map snd (next it) = Some None.
Proof.
  destruct (represents_from_iter [7] (ok _)) as (x & E & (h & Hw) & Hc).
  destruct (size_hint_bound x h Hw) as (_ & H2 & H3).
  { rewrite <- (wf_height h x Hw). vm_compute in E. injection E as <-. vm_compute. lia. }
  destruct H2 as (it & before & y & l & H & Et & Ha); [by rewrite Hc|].
  vm_compute in E. injection E as <-. vm_compute in H. injection H as <- <-.
  eexists _, _. split_and!; [by vm_compute|by vm_compute| |by vm_compute].
  destruct (H3 _ _ _ _ Et Ha) as (_ & _ & H4). apply H4.
  apply Cursor.at_item_contents in Ha as (Ec & _); [|done]. rewrite Hc in Ec.
  destruct before as [|z [|? ?]]; [by injection Ec|by injection Ec; intros; subst|done].
Defined.
End Iter.
