(* ===== verification/Keyed.v ===== *)
(** Trees of keyed items ([KeyedItem] and [insert_or_replace], [remove],
    [edit], [get] in [crates/sum_tree/src/sum_tree.rs]): the items are sorted by
    a key that is also a dimension of the tree. *)
From S2P Require Import Prelude SumTree TreeFind Cursor.

(** [crates/sum_tree/src/sum_tree.rs:41-45] KeyedItem *)
Class KeyedItem (T U D : Type) := { key : T → D; kcmp : D → D → comparison }.

Module Keyed.
Import SumTree.

(** [crates/sum_tree/src/sum_tree.rs:1366-1370] Edit *)
Inductive edit (T D : Type) :=
  | Insert (item : T)
  | Remove (key : D).
Arguments Insert {T D}.
Arguments Remove {T D}.

Section operations.
Context {T U D : Type} `{!Summary U, !Item T U, !Dimension D U, !KeyedItem T U D}.
Abbreviation tree := (node T U).

(** [crates/sum_tree/src/sum_tree.rs:1372-1379] Edit::key *)
Definition edit_key (e : edit T D) : D := match e with Insert x => key x | Remove k => k end.

Definition same_key (x : T) (k : D) : bool := is_eq (kcmp (key x) k).

(** [if let Some(item) = item && item.key() == key]: the cursor steps over the
    item with this key, which is returned. *)
Definition take_key (item : option T) (k : D) (cursor : Cursor.t T U D) :
    option (Cursor.t T U D * option T) :=
  match item with
  | Some x =>
      if same_key x k then cursor ← Cursor.next cursor; Some (cursor, Some x)
      else Some (cursor, None)
  | None => Some (cursor, None)
  end.

(** [crates/sum_tree/src/sum_tree.rs:1150-1171] SumTree::insert_or_replace *)
Definition insert_or_replace (t : tree) (item : T) : option (tree * option T) :=
  '(cursor, new_tree) ← Cursor.slice (kcmp (key item)) Left (Cursor.new (D := D) t);
  cursor_item ← Cursor.item cursor;
  '(cursor, replaced) ← take_key cursor_item (key item) cursor;
  new_tree ← push new_tree item;
  '(_, suffix) ← Cursor.suffix cursor;
  t ← append new_tree suffix;
  Some (t, replaced).

(** [crates/sum_tree/src/sum_tree.rs:1173-1188] SumTree::remove *)
Definition remove (t : tree) (k : D) : option (tree * option T) :=
  '(cursor, new_tree) ← Cursor.slice (kcmp k) Left (Cursor.new (D := D) t);
  item ← Cursor.item cursor;
  '(cursor, removed) ← take_key item k cursor;
  '(_, suffix) ← Cursor.suffix cursor;
  t ← append new_tree suffix;
  Some (t, removed).

(** [sort_unstable_by_key]: insertion keeps equal keys in order, the one the
    code gets for them is not specified. *)
Fixpoint insert_sorted (e : edit T D) (es : list (edit T D)) : list (edit T D) :=
  match es with
  | [] => [e]
  | e' :: es' =>
      if is_le (kcmp (edit_key e) (edit_key e')) then e :: es else e' :: insert_sorted e es'
  end.
Definition sort_edits (es : list (edit T D)) : list (edit T D) := foldr insert_sorted [] es.

(** When the item at the cursor is below the next key, the buffered items are
    flushed and the items below the key follow.
    [crates/sum_tree/src/sum_tree.rs:1210-1220] SumTree::edit *)
Definition edit_advance (cursor : Cursor.t T U D) (new_tree : tree) (buffered : list T) (new_key : D) :
    option (Cursor.t T U D * tree * list T * option T) :=
  old_item ← Cursor.item cursor;
  match old_item with
  | Some x =>
      if is_lt (kcmp (key x) new_key) then
        new_tree ← extend new_tree buffered;
        '(cursor, slice) ← Cursor.slice (kcmp new_key) Left cursor;
        new_tree ← append new_tree slice;
        old_item ← Cursor.item cursor;
        Some (cursor, new_tree, [], old_item)
      else Some (cursor, new_tree, buffered, old_item)
  | None => Some (cursor, new_tree, buffered, old_item)
  end.

(** The cursor, the new tree, the buffered items and the removed ones.
    [crates/sum_tree/src/sum_tree.rs:1208-1235] SumTree::edit *)
Definition edit_step (st : Cursor.t T U D * tree * list T * list T) (e : edit T D) :
    option (Cursor.t T U D * tree * list T * list T) :=
  let '(cursor, new_tree, buffered, removed) := st in
  let new_key := edit_key e in
  '(cursor, new_tree, buffered, old_item) ← edit_advance cursor new_tree buffered new_key;
  '(cursor, old) ← take_key old_item new_key cursor;
  Some (cursor, new_tree, match e with Insert item => buffered ++ [item] | Remove _ => buffered end,
    removed ++ option_list old).

Fixpoint edit_loop (es : list (edit T D)) (st : Cursor.t T U D * tree * list T * list T) :
    option (Cursor.t T U D * tree * list T * list T) :=
  match es with
  | [] => Some st
  | e :: es => st ← edit_step st e; edit_loop es st
  end.

(** [crates/sum_tree/src/sum_tree.rs:1190-1243] SumTree::edit *)
Definition edit_tree (t : tree) (edits : list (edit T D)) : option (tree * list T) :=
  match edits with
  | [] => Some (t, [])
  | _ =>
      '(cursor, _) ← Cursor.seek (kcmp dzero) Left (Cursor.new (D := D) t);
      '(cursor, new_tree, buffered, removed) ←
        edit_loop (sort_edits edits) (cursor, SumTree.new, [], []);
      new_tree ← extend new_tree buffered;
      '(_, suffix) ← Cursor.suffix cursor;
      t ← append new_tree suffix;
      Some (t, removed)
  end.

(** [crates/sum_tree/src/sum_tree.rs:1245-1255] SumTree::get *)
Definition get (t : tree) (k : D) : option (option T) :=
  '(_, _, item) ← TreeFind.find_exact (D := D) (kcmp k) Left t; Some item.
End operations.

(** ** Sorted sequences of items *)
Section sorted.
Context {T U D : Type} `{!Summary U, !Item T U, !Dimension D U, !KeyedItem T U D}.
Implicit Types (l k : list T) (x y : T).

Definition before x y : Prop := kcmp (key x) (key y) = Lt.
Definition sorted l : Prop := StronglySorted before l.
End sorted.

(** What an instance of [KeyedItem] has to ensure: the dimension after a
    sequence is the key of its last item, which is what a search compares with. *)
Class KeyedLaws (T U D : Type)
    `{!Summary U, !Item T U, !Dimension D U, !KeyedItem T U D, !SummaryLaws T U} := {
  kcmp_total : TotalCmp (kcmp (T := T));
  item_ok : T → Prop;
  valid_sorted : ∀ l, valid l ↔ sorted (D := D) l ∧ Forall item_ok l;
  key_dim : ∀ l x, valid (l ++ [x]) → dim D (l ++ [x]) = key x;
  zero_dim : dadd dzero (zero (U := U)) = (dzero : D);
  key_min : ∀ x, item_ok x → kcmp (T := T) (key x) dzero ≠ Lt;
}.
#[export] Existing Instance kcmp_total.

Section laws.
Context {T U D : Type} `{!Summary U, !Item T U, !Dimension D U, !KeyedItem T U D,
  !SummaryLaws T U, !DimensionLaws D T U, !KeyedLaws T U D}.
Implicit Types (l m : list T) (x y : T) (k : D).
#[export] Instance keyed_zero : DimensionZero D U.
Proof. split. apply zero_dim. Qed.
Abbreviation cmp := (kcmp (T := T) (D := D)).
Abbreviation srt := (sorted (D := D)).

Lemma sorted_app l m :
  srt (l ++ m) ↔ srt l ∧ srt m ∧ ∀ x y, x ∈ l → y ∈ m → cmp (key x) (key y) = Lt.
Proof.
  unfold sorted. induction l as [|a l IH]; cbn.
  - split; [intros H; split_and!; [constructor|done|]|tauto].
    intros x y Hx. by apply elem_of_nil in Hx.
  - split.
    + intros [K1 K2]%StronglySorted_inv. apply IH in K1 as (Hl & Hm & Hlm).
      rewrite Forall_app in K2. destruct K2 as [K2 K3]. split_and!; [by constructor|done|].
      intros x y Hx Hy. apply elem_of_cons in Hx as [->|Hx]; [|by apply Hlm].
      by apply (proj1 (Forall_forall _ _) K3).
    + intros (H1 & Hm & Hlm). apply StronglySorted_inv in H1 as [H1 H2].
      constructor.
      * apply IH. split_and!; [done..|]. intros x y Hx Hy. apply Hlm; [by right|done].
      * apply Forall_app. split; [done|]. apply Forall_forall. intros y Hy. apply Hlm; [left|done].
Qed.

Lemma sorted_nil : srt [].
Proof. constructor. Qed.
Lemma sorted_one x : srt [x].
Proof. repeat constructor. Qed.
Lemma sorted_cons x l : srt (x :: l) ↔ srt l ∧ ∀ y, y ∈ l → cmp (key x) (key y) = Lt.
Proof.
  change (x :: l) with ([x] ++ l). rewrite sorted_app. split.
  - intros (_ & H1 & H2). split; [done|]. intros y. apply H2. left.
  - intros [H1 H2]. split_and!; [apply sorted_one|done|].
    intros a y ->%list_elem_of_singleton. apply H2.
Qed.

(** The items below a key and above it. *)
Definition below k l : list T := filter (λ x, cmp (key x) k = Lt) l.
Definition above k l : list T := filter (λ x, cmp (key x) k = Gt) l.
Definition lookup k l : option T := find (λ x, same_key x k) l.

Lemma filter_all (P : T → Prop) `{!∀ x, Decision (P x)} l : (∀ x, x ∈ l → P x) → filter P l = l.
Proof.
  induction l as [|x l IH]; intros HP; [done|].
  rewrite filter_cons_True by (apply HP; left). f_equal. apply IH. intros y Hy. apply HP. by right.
Qed.
Lemma filter_none (P : T → Prop) `{!∀ x, Decision (P x)} l : (∀ x, x ∈ l → ¬ P x) → filter P l = [].
Proof.
  induction l as [|x l IH]; intros HP; [done|].
  rewrite filter_cons_False by (apply HP; left). apply IH. intros y Hy. apply HP. by right.
Qed.

(** A sorted sequence around a key. *)
Lemma sorted_around l m k :
  srt (l ++ m) → (∀ x, x ∈ l → cmp (key x) k = Lt) → (∀ x, head m = Some x → cmp (key x) k ≠ Lt) →
  below k (l ++ m) = l ∧
  (∀ x m', m = x :: m' → cmp (key x) k = Eq → above k (l ++ m) = m' ∧ lookup k (l ++ m) = Some x) ∧
  ((∀ x, head m = Some x → cmp (key x) k ≠ Eq) → above k (l ++ m) = m ∧ lookup k (l ++ m) = None).
Proof.
  intros (Hl & Hm & Hlm)%sorted_app Hlow Hhead.
  assert (∀ x, x ∈ m → cmp (key x) k ≠ Lt) as Hhigh.
  { destruct m as [|a m]; [by intros x ?%elem_of_nil|]. apply sorted_cons in Hm as [_ Hm].
    specialize (Hhead a eq_refl). intros x [->|Hx]%elem_of_cons; [done|]. intros E.
    apply Hhead. eapply (cmp_lt_trans cmp); [by apply Hm|done]. }
  assert (lookup k (l ++ m) = lookup k m) as Elk.
  { clear Hl Hlm. unfold lookup. induction l as [|a l IH]; [done|]. cbn. unfold same_key at 1.
    rewrite (Hlow a) by left. cbn. apply IH. intros x Hx. apply Hlow. by right. }
  split_and!.
  - unfold below. rewrite filter_app, filter_all, (filter_none _ m), app_nil_r; auto.
  - intros x m' -> Ex. split.
    + unfold above. rewrite filter_app, (filter_none _ l); [|intros y Hy; rewrite Hlow by done; done].
      cbn [app]. rewrite filter_cons_False by (rewrite Ex; done). apply filter_all.
      intros y Hy. apply sorted_cons in Hm as [_ Hm]. specialize (Hm y Hy).
      apply (cmp_eq_iff cmp) in Ex. rewrite <- Ex. by apply (cmp_gt_lt cmp).
    + rewrite Elk. unfold lookup. cbn. unfold same_key. by rewrite Ex.
  - intros Hne. assert (∀ x, x ∈ m → cmp (key x) k = Gt) as Hgt.
    { destruct m as [|a m]; [by intros x ?%elem_of_nil|]. apply sorted_cons in Hm as [_ Hm].
      specialize (Hhead a eq_refl). specialize (Hne a eq_refl).
      assert (cmp (key a) k = Gt) as Ea by (by destruct (cmp (key a) k)).
      intros x [->|Hx]%elem_of_cons; [done|]. apply (cmp_gt_lt cmp).
      eapply (cmp_lt_trans cmp); [by apply (cmp_gt_lt cmp)|by apply Hm]. }
    split.
    + unfold above. rewrite filter_app, (filter_none _ l), (filter_all _ m); [done|done|].
      intros y Hy. rewrite Hlow by done. done.
    + rewrite Elk. clear -Hgt. unfold lookup. induction m as [|a m IH]; [done|]. cbn.
      unfold same_key at 1. rewrite (Hgt a) by left. cbn. apply IH. intros x Hx. apply Hgt. by right.
Qed.

(** Where a search for a key stops. *)
Lemma stopped_key k pre mid rest :
  valid (pre ++ mid ++ rest) → (∀ x, x ∈ pre → cmp (key x) k = Lt) →
  Cursor.stopped (D := D) (cmp k) Left pre mid rest →
  (∀ x, x ∈ mid → cmp (key x) k = Lt) ∧ (∀ x, head rest = Some x → cmp (key x) k ≠ Lt).
Proof.
  intros Hv Hpre [Hmid Hrest]. split.
  - destruct Hmid as [->|Hmid]; [by intros x ?%elem_of_nil|].
    destruct mid as [|z mid _] using rev_ind; [by intros x ?%elem_of_nil|].
    unfold TreeFind.passed in Hmid. rewrite app_assoc, key_dim in Hmid.
    2: { rewrite !app_assoc in Hv. apply valid_app in Hv as [Hv _]. done. }
    assert (cmp (key z) k = Lt) as Ez.
    { apply (cmp_gt_lt cmp). by destruct (cmp k (key z)). }
    apply valid_sorted in Hv as [Hs _]. apply sorted_app in Hs as (_ & Hs & _).
    apply sorted_app in Hs as (Hs & _ & _). apply sorted_app in Hs as (_ & _ & Hs).
    intros x [Hx| ->%list_elem_of_singleton]%elem_of_app; [|done].
    eapply (cmp_lt_trans cmp); [apply Hs; [done|left]|done].
  - intros x Hx. specialize (Hrest x Hx). unfold TreeFind.passed in Hrest.
    destruct rest as [|y rest]; [done|]. injection Hx as ->.
    rewrite app_assoc, key_dim in Hrest.
    2: { change (x :: rest) with ([x] ++ rest) in Hv. rewrite !app_assoc in Hv.
         by apply valid_app in Hv as [Hv _]. }
    intros E. apply (cmp_gt_lt cmp) in E. by rewrite E in Hrest.
Qed.
End laws.

(** ** Sequences as ordered maps: the abstract operations *)
Section spec.
Context {T U D : Type} `{!Summary U, !Item T U, !Dimension D U, !KeyedItem T U D}.
Implicit Types (l : list T) (e : edit T D).

Definition replace (x : T) l : list T := below (key x) l ++ [x] ++ above (key x) l.
Definition delete k l : list T := below k l ++ above k l.
Definition apply_edit e l : list T :=
  match e with Insert x => replace x l | Remove k => delete k l end.
(** One edit after the other; the second component is what they displace. *)
Fixpoint apply_edits (es : list (edit T D)) l : list T * list T :=
  match es with
  | [] => (l, [])
  | e :: es =>
      let '(l', removed) := apply_edits es (apply_edit e l) in
      (l', option_list (lookup (edit_key e) l) ++ removed)
  end.
Definition inserted e : option T := match e with Insert x => Some x | Remove _ => None end.
Definition edit_ok `{!SummaryLaws T U, !DimensionLaws D T U, !KeyedLaws T U D} e : Prop :=
  match e with Insert x => item_ok x | Remove k => kcmp (T := T) k dzero ≠ Lt end.
End spec.

(** A tree whose items the stack of a cursor can reach. *)
Definition fits {T U} `{!Summary U, !Item T U, !SummaryLaws T U} (t : node T U) (l : list T) : Prop :=
  ∃ h, wf h t ∧ contents t = l ∧ (h < Cursor.stack_capacity)%nat ∧ valid l.

Section correct.
Context {T U D : Type} `{!Summary U, !Item T U, !Dimension D U, !KeyedItem T U D,
  !SummaryLaws T U, !DimensionLaws D T U, !KeyedLaws T U D}.
Implicit Types (l m before rest : list T) (x y : T) (k : D) (e : edit T D) (c : Cursor.t T U D).
Abbreviation cmp := (kcmp (T := T) (D := D)).
Abbreviation srt := (sorted (D := D)).

Lemma fits_ready t l : fits t l → Cursor.ready (Cursor.new (D := D) t) [] l.
Proof. intros (h & Hw & Hc & Hh & Hv). right. split; [done|]. by eapply Cursor.new_fresh. Qed.

Lemma edit_key_min e : edit_ok e → cmp (edit_key e) dzero ≠ Lt.
Proof. destruct e; cbn; [apply key_min|done]. Qed.

(** A slice up to a key. *)
Lemma slice_key c before rest k :
  Cursor.ready c before rest → valid (before ++ rest) → cmp k dzero ≠ Lt →
  (∀ x, x ∈ before → cmp (key x) k = Lt) →
  ∃ c' t mid rest', Cursor.slice (cmp k) Left c = Some (c', t) ∧ represents t mid ∧
    rest = mid ++ rest' ∧ Cursor.positioned c' (before ++ mid) rest' ∧
    (∀ x, x ∈ mid → cmp (key x) k = Lt) ∧ (∀ x, head rest' = Some x → cmp (key x) k ≠ Lt).
Proof.
  intros Hc Hv Hz Hb.
  destruct (Cursor.slice_ok (cmp k) Left c before rest Hc) as (c' & t & mid & rest' & E & Ht & -> & Hs & Hp).
  - destruct before as [|y b _] using rev_ind; [by rewrite dim_nil|].
    rewrite key_dim by by apply valid_app in Hv as [? _].
    specialize (Hb y). rewrite (cmp_antisym cmp (key y)), Hb; [done|]. apply elem_of_app. right. left.
  - destruct (stopped_key k before mid rest' Hv Hb Hs) as [H1 H2].
    exists c', t, mid, rest'. by split_and!.
Qed.

Lemma sorted_filter (P : T → Prop) `{!∀ x, Decision (P x)} l : srt l → srt (filter P l).
Proof.
  induction l as [|x l IH]; intros Hs; [done|]. apply sorted_cons in Hs as [Hs Hx].
  destruct (decide (P x)); [rewrite filter_cons_True by done|rewrite filter_cons_False by done; by apply IH].
  apply sorted_cons. split; [by apply IH|]. intros y [_ Hy]%list_elem_of_filter. by apply Hx.
Qed.
Lemma forall_filter (P Q : T → Prop) `{!∀ x, Decision (P x)} l : Forall Q l → Forall Q (filter P l).
Proof. rewrite !Forall_forall. intros HQ x [_ Hx]%list_elem_of_filter. by apply HQ. Qed.
Lemma replace_valid x l : valid l → item_ok x → valid (replace x l).
Proof.
  rewrite !valid_sorted. intros [Hs Ho] Hx. unfold replace, below, above. split.
  - apply sorted_app. split_and!; [by apply sorted_filter|apply sorted_cons; split|].
    + by apply sorted_filter.
    + intros y [Hy _]%list_elem_of_filter. by apply (cmp_gt_lt cmp).
    + intros a b [Ha _]%list_elem_of_filter [->|[Hb _]%list_elem_of_filter]%elem_of_cons; [done|].
      eapply (cmp_lt_trans cmp); [done|]. by apply (cmp_gt_lt cmp).
  - apply Forall_app. split; [by apply forall_filter|]. apply Forall_cons. split; [done|].
    by apply forall_filter.
Qed.
Lemma delete_valid k l : valid l → valid (delete k l).
Proof.
  rewrite !valid_sorted. intros [Hs Ho]. unfold delete, below, above. split.
  - apply sorted_app. split_and!; [by apply sorted_filter..|].
    intros a b [Ha _]%list_elem_of_filter [Hb _]%list_elem_of_filter.
    eapply (cmp_lt_trans cmp); [done|]. by apply (cmp_gt_lt cmp).
  - apply Forall_app. split; by apply forall_filter.
Qed.
Lemma apply_edit_valid e l : valid l → edit_ok e → valid (apply_edit e l).
Proof. destruct e; cbn; [apply replace_valid|intros ? _; by apply delete_valid]. Qed.

(** The cursor at the first item that is not below the key: what replacing or
    deleting the key does to the sequence. *)
Lemma at_key_spec l rest k :
  valid (l ++ rest) → (∀ x, x ∈ l → cmp (key x) k = Lt) →
  (∀ x, head rest = Some x → cmp (key x) k ≠ Lt) →
  (∃ x rest', rest = x :: rest' ∧ same_key x k = true ∧
     below k (l ++ rest) = l ∧ above k (l ++ rest) = rest' ∧ lookup k (l ++ rest) = Some x) ∨
  ((∀ x, head rest = Some x → same_key x k = false) ∧
     below k (l ++ rest) = l ∧ above k (l ++ rest) = rest ∧ lookup k (l ++ rest) = None).
Proof.
  intros Hv Hl Hr. apply valid_sorted in Hv as [Hs _].
  destruct (sorted_around l rest k Hs Hl Hr) as (H1 & H2 & H3).
  destruct (head rest) as [x|] eqn:E.
  - destruct rest as [|y rest']; [done|]. injection E as ->.
    destruct (cmp (key x) k) eqn:Ex; [left|by destruct (Hr x)|right].
    + exists x, rest'. unfold same_key. rewrite Ex. destruct (H2 x rest'); [done..|]. by split_and!.
    + destruct H3 as [H3 H4]; [intros ? [= <-]; congruence|].
      split_and!; [|done..]. intros ? [= <-]. unfold same_key. by rewrite Ex.
  - right. destruct H3 as [H3 H4]; [done|]. by split_and!.
Qed.

(** Taking the item at the cursor out when it has the key. *)
Lemma take_key_ok c l before rest k :
  Cursor.positioned c before rest → valid (l ++ rest) → (∀ x, x ∈ l → cmp (key x) k = Lt) →
  (∀ x, head rest = Some x → cmp (key x) k ≠ Lt) →
  ∃ c' mid, take_key (head rest) k c = Some (c', lookup k (l ++ rest)) ∧
    rest = mid ++ above k (l ++ rest) ∧ below k (l ++ rest) = l ∧
    (∀ x, x ∈ mid → cmp (key x) k = Eq) ∧
    Cursor.positioned c' (before ++ mid) (above k (l ++ rest)).
Proof.
  intros Hp Hv Hl Hr.
  destruct (at_key_spec l rest k Hv Hl Hr) as [(x & rest' & -> & H1 & H2 & H3 & H4)|(H1 & H2 & H3 & H4)].
  - destruct (Cursor.next_ok _ _ _ _ Hp) as (c' & E & Hp'). exists c', [x].
    rewrite H2, H3, H4. cbn [head]. unfold take_key. rewrite H1, E. split_and!; try done.
    intros y ->%list_elem_of_singleton. unfold same_key in H1. by destruct (cmp (key x) k).
  - exists c, []. rewrite H2, H3, H4, app_nil_r. split_and!; try done.
    + unfold take_key. destruct (head rest) as [x|]; [|done]. by rewrite (H1 x).
    + by intros ? ?%elem_of_nil.
Qed.

Lemma suffix_append c before rest t l :
  Cursor.ready c before rest → represents t l → valid (l ++ rest) →
  ∃ c' s t', Cursor.suffix c = Some (c', s) ∧ append t s = Some t' ∧ represents t' (l ++ rest).
Proof.
  intros Hc Ht Hv. destruct (Cursor.suffix_ok _ _ _ Hc) as (c' & s & E & Hs & _).
  destruct (represents_append t s l rest) as (t' & E' & Ht'); [done..|]. by exists c', s, t'.
Qed.

Lemma insert_or_replace_ok t l x :
  fits t l → item_ok x →
  ∃ t', insert_or_replace t x = Some (t', lookup (key x) l) ∧ represents t' (replace x l).
Proof.
  intros Hf Hx. pose proof Hf as (h & _ & _ & _ & Hv).
  destruct (slice_key (Cursor.new t) [] l (key x)) as (c & t1 & l1 & rest & E1 & Ht1 & -> & Hc & H1 & H2);
    [by apply fits_ready|done|by apply key_min|by intros ? ?%elem_of_nil|].
  pose proof (replace_valid x _ Hv Hx) as Hv'. unfold insert_or_replace, replace in *.
  rewrite E1. cbn [mbind option_bind]. rewrite (Cursor.item_ok _ _ _ Hc). cbn [mbind option_bind].
  destruct (take_key_ok c l1 l1 rest (key x)) as (c2 & mid & E2 & _ & Hbelow & _ & Hc2); [done..|].
  rewrite E2. rewrite Hbelow in *. cbn [mbind option_bind].
  destruct (represents_push t1 l1 x) as (t2 & -> & Ht2);
    [done|by rewrite app_assoc in Hv'; apply valid_app in Hv' as [? _]|]. cbn [mbind option_bind].
  destruct (suffix_append c2 (l1 ++ mid) (above (key x) (l1 ++ rest)) t2 (l1 ++ [x]))
    as (c3 & s & t3 & -> & E3 & Ht3); [by left|done|by rewrite <- app_assoc|].
  cbn [mbind option_bind]. rewrite E3. exists t3. by rewrite <- app_assoc in Ht3.
Qed.

Lemma remove_ok t l k :
  fits t l → cmp k dzero ≠ Lt →
  ∃ t', remove t k = Some (t', lookup k l) ∧ represents t' (delete k l).
Proof.
  intros Hf Hk. pose proof Hf as (h & _ & _ & _ & Hv).
  destruct (slice_key (Cursor.new t) [] l k) as (c & t1 & l1 & rest & E1 & Ht1 & -> & Hc & H1 & H2);
    [by apply fits_ready|done|done|by intros ? ?%elem_of_nil|].
  pose proof (delete_valid k _ Hv) as Hv'. unfold remove, delete in *.
  rewrite E1. cbn [mbind option_bind]. rewrite (Cursor.item_ok _ _ _ Hc). cbn [mbind option_bind].
  destruct (take_key_ok c l1 l1 rest k) as (c2 & mid & E2 & _ & Hbelow & _ & Hc2); [done..|].
  rewrite E2. rewrite Hbelow in *. cbn [mbind option_bind].
  destruct (suffix_append c2 (l1 ++ mid) (above k (l1 ++ rest)) t1 l1)
    as (c3 & s & t3 & -> & E3 & Ht3); [by left|done..|].
  cbn [mbind option_bind]. rewrite E3. by exists t3.
Qed.

(** *** Batches of edits *)
Lemma advance_ok c t buf n before rest k :
  represents t n → Cursor.positioned c before rest → valid (before ++ rest) →
  valid (n ++ buf ++ rest) → (∀ x, x ∈ before → cmp (key x) k = Lt) →
  (∀ x, x ∈ n ++ buf → cmp (key x) k = Lt) → cmp k dzero ≠ Lt →
  ∃ c' t' buf' n' m rest', edit_advance c t buf k = Some (c', t', buf', head rest') ∧
    represents t' n' ∧ n' ++ buf' = n ++ buf ++ m ∧ rest = m ++ rest' ∧
    Cursor.positioned c' (before ++ m) rest' ∧ (∀ x, x ∈ m → cmp (key x) k = Lt) ∧
    (∀ x, head rest' = Some x → cmp (key x) k ≠ Lt).
Proof.
  intros Ht Hc Hv Hv' Hb Hn Hk. unfold edit_advance. rewrite (Cursor.item_ok _ _ _ Hc).
  cbn [mbind option_bind].
  destruct (match head rest with Some x => is_lt (cmp (key x) k) | None => false end) eqn:E.
  - destruct (head rest) as [x|]; [|done]. rewrite E.
    destruct (represents_extend t n buf) as (t1 & -> & Ht1);
      [done|by rewrite app_assoc in Hv'; apply valid_app in Hv' as [? _]|].
    destruct (slice_key c before rest k) as (c2 & s & m & rest' & E2 & Hs & -> & Hc2 & H1 & H2);
      [by left|done..|].
    cbn [mbind option_bind]. rewrite E2. cbn [mbind option_bind].
    destruct (represents_append t1 s (n ++ buf) m) as (t2 & -> & Ht2); [done..| |].
    { rewrite !app_assoc in Hv'. by apply valid_app in Hv' as [? _]. }
    cbn [mbind option_bind]. rewrite (Cursor.item_ok _ _ _ Hc2). cbn [mbind option_bind].
    exists c2, t2, [], ((n ++ buf) ++ m), m, rest'. split_and!; try done.
    by rewrite app_nil_r, app_assoc.
  - exists c, t, buf, n, [], rest. split_and!; try done.
    + destruct (head rest); [by rewrite E|done].
    + by rewrite app_nil_r.
    + by rewrite app_nil_r.
    + by intros ? ?%elem_of_nil.
    + intros x Hx. rewrite Hx in E. by destruct (cmp (key x) k).
Qed.

(** Between two edits: the new tree and the buffer hold what is below the
    remaining edits, the cursor is at the rest. *)
Definition editing (st : Cursor.t T U D * node T U * list T * list T) (es : list (edit T D)) l removed :=
  let '(c, t, buf, rem) := st in
  ∃ n before rest, represents t n ∧ Cursor.positioned c before rest ∧ valid (before ++ rest) ∧
    l = n ++ buf ++ rest ∧ rem = removed ∧
    ∀ e x, e ∈ es → x ∈ n ++ buf ++ before → cmp (key x) (edit_key e) = Lt.

Definition edits_sorted (es : list (edit T D)) : Prop :=
  StronglySorted (λ e f, cmp (edit_key e) (edit_key f) = Lt) es.

Lemma edit_step_ok st e es l removed :
  editing st (e :: es) l removed → valid l → edits_sorted (e :: es) → edit_ok e →
  ∃ st', edit_step st e = Some st' ∧
    editing st' es (apply_edit e l) (removed ++ option_list (lookup (edit_key e) l)).
Proof.
  destruct st as [[[c t] buf] rem]. intros (n & before & rest & Ht & Hc & Hv & -> & -> & Hlow) Hl Hes He.
  set (k := edit_key e).
  assert (∀ x, x ∈ n ++ buf ++ before → cmp (key x) k = Lt) as Hk by (intros x; apply Hlow; left).
  destruct (advance_ok c t buf n before rest k) as (c2 & t2 & buf2 & n2 & m & rest2 & E2 & Ht2 & En & -> & Hc2 & H1 & H2);
    [done..| | |by apply edit_key_min|].
  { intros x Hx. apply Hk. rewrite !elem_of_app. auto. }
  { intros x Hx. apply Hk. rewrite app_assoc. apply elem_of_app. by left. }
  assert (n ++ buf ++ m ++ rest2 = (n2 ++ buf2) ++ rest2) as El by by rewrite En, <- !app_assoc.
  rewrite El in *.
  destruct (take_key_ok c2 (n2 ++ buf2) (before ++ m) rest2 k) as (c3 & m2 & E3 & Hr & Hbelow & H4 & Hc3); try done.
  { intros x Hx. rewrite En, app_assoc in Hx. apply elem_of_app in Hx as [Hx|Hx]; [|by apply H1].
    apply Hk. rewrite app_assoc. apply elem_of_app. by left. }
  cbn [edit_step]. fold k. rewrite E2. cbn [mbind option_bind]. rewrite E3. cbn [mbind option_bind].
  eexists. split; [done|]. cbn [editing].
  exists n2, ((before ++ m) ++ m2), (above k ((n2 ++ buf2) ++ rest2)). split_and!; try done.
  - clear -Hv Hr. revert Hr. generalize (above k ((n2 ++ buf2) ++ rest2)). intros a ->.
    by rewrite <- !app_assoc.
  - destruct e; cbn [apply_edit]; unfold replace, delete; fold k; subst k; cbn [edit_key] in *;
      rewrite Hbelow; by rewrite <- !app_assoc.
  - apply StronglySorted_inv in Hes as [_ Hes]. rewrite Forall_forall in Hes.
    intros e' x He' Hx. specialize (Hes _ He'). fold k in Hes.
    assert (cmp (key x) k ≠ Gt) as Hle; [|by eapply (cmp_le_lt_trans cmp)].
    assert (x ∈ n2 ++ buf2 ∨ x ∈ before ∨ x ∈ m ∨ x ∈ m2 ∨ inserted e = Some x) as Hcases.
    { rewrite !elem_of_app in Hx. rewrite elem_of_app. destruct e; cbn [inserted].
      - rewrite elem_of_app, list_elem_of_singleton in Hx. naive_solver.
      - naive_solver. }
    destruct Hcases as [Hx'|[Hx'|[Hx'|[Hx'|Hx']]]].
    + rewrite En, app_assoc in Hx'. apply elem_of_app in Hx' as [Hx'|Hx']; [|by rewrite H1].
      rewrite Hk; [done|]. rewrite app_assoc. apply elem_of_app. by left.
    + rewrite Hk; [done|]. rewrite !elem_of_app. auto.
    + by rewrite H1.
    + by rewrite H4.
    + destruct e; [|done]. injection Hx' as ->. unfold k. cbn. by rewrite (cmp_refl cmp).
Qed.

Lemma edit_loop_ok es st l removed :
  editing st es l removed → valid l → edits_sorted es → Forall edit_ok es →
  ∃ st', edit_loop es st = Some st' ∧
    editing st' [] (apply_edits es l).1 (removed ++ (apply_edits es l).2) ∧
    valid (apply_edits es l).1.
Proof.
  revert st l removed. induction es as [|e es IH]; intros st l removed Hst Hv Hes Ho.
  - exists st. cbn. by rewrite app_nil_r.
  - apply Forall_cons in Ho as [He Ho].
    destruct (edit_step_ok st e es l removed) as (st1 & E & H1); [done..|].
    apply StronglySorted_inv in Hes as [Hes _].
    destruct (IH st1 _ _ H1) as (st2 & E2 & H2 & H3); [by apply apply_edit_valid|done..|].
    exists st2. cbn [edit_loop apply_edits]. rewrite E. cbn [mbind option_bind].
    destruct (apply_edits es (apply_edit e l)) as [l' r]. cbn [fst snd] in *.
    by rewrite app_assoc.
Qed.

Lemma insert_sorted_perm e es : insert_sorted (T := T) e es ≡ₚ e :: es.
Proof.
  induction es as [|f es IH]; cbn; [done|]. destruct (is_le _); [done|]. rewrite IH. constructor.
Qed.
Lemma sort_edits_perm es : sort_edits (T := T) es ≡ₚ es.
Proof. induction es as [|e es IH]; cbn; [done|]. by rewrite insert_sorted_perm, IH. Qed.

Lemma insert_sorted_sorted e es :
  edits_sorted es → edit_key e ∉ map edit_key es → edits_sorted (insert_sorted e es).
Proof.
  induction es as [|f es IH]; intros Hes He; [repeat constructor|].
  cbn [insert_sorted]. apply StronglySorted_inv in Hes as [Hes Hf]. cbn in He.
  apply not_elem_of_cons in He as [He1 He2].
  destruct (cmp (edit_key e) (edit_key f)) eqn:E; cbn [is_le].
  - by apply (cmp_eq_iff cmp) in E.
  - constructor; [by constructor|]. constructor; [done|]. eapply Forall_impl; [done|].
    intros g Hg. by eapply (cmp_lt_trans cmp).
  - constructor; [by apply IH|]. apply (cmp_gt_lt cmp) in E. rewrite insert_sorted_perm. by constructor.
Qed.
Lemma sort_edits_sorted es : NoDup (map edit_key es) → edits_sorted (sort_edits es).
Proof.
  induction es as [|e es IH]; cbn [map]; intros Hnd; [constructor|].
  apply NoDup_cons in Hnd as [He Hnd]. apply insert_sorted_sorted; [by apply IH|].
  by rewrite sort_edits_perm.
Qed.

Lemma edit_tree_ok t l es :
  fits t l → NoDup (map edit_key es) → Forall edit_ok es →
  ∃ t', edit_tree t es = Some (t', (apply_edits (sort_edits es) l).2) ∧
    represents t' (apply_edits (sort_edits es) l).1 ∧ valid (apply_edits (sort_edits es) l).1.
Proof.
  intros Hf Hnd Ho. pose proof Hf as (h & _ & _ & _ & Hv).
  destruct es as [|e0 es0] eqn:Ees.
  { exists t. split_and!; [done| |done]. destruct Hf as (h' & ? & ? & _). split; [by exists h'|done]. }
  rewrite <- Ees in *. unfold edit_tree.
  destruct (Cursor.seek_ok (cmp dzero) Left (Cursor.new (D := D) t) [] l)
    as (c & mid & rest & E1 & El & Hs & Hc); [by apply fits_ready|by rewrite dim_nil, (cmp_refl cmp)|].
  cbn [app] in El. subst l.
  assert (mid = []) as ->.
  { destruct (stopped_key dzero [] mid rest) as [Hm _]; [done|by intros ? ?%elem_of_nil|done|].
    destruct mid as [|x mid]; [done|]. exfalso. apply (key_min x); [|apply Hm; left].
    apply valid_sorted in Hv as [_ Hall]. by apply Forall_cons in Hall as [? _]. }
  destruct (edit_loop_ok (sort_edits es) (c, SumTree.new, [], []) rest [])
    as ([[[c2 t2] buf] rem] & E2 & (n & before & rest2 & Ht2 & Hc2 & _ & El & -> & _) & Hv2).
  { exists [], [], rest. split_and!; try done; [apply represents_new|].
    intros e x _ Hx. by apply elem_of_nil in Hx. }
  { done. }
  { by apply sort_edits_sorted. }
  { by rewrite sort_edits_perm. }
  rewrite Ees. rewrite <- Ees. rewrite E1. cbn [mbind option_bind]. rewrite E2. cbn [mbind option_bind app].
  cbn [app] in *. rewrite El in *.
  destruct (represents_extend t2 n buf) as (t3 & -> & Ht3);
    [done|by rewrite app_assoc in Hv2; apply valid_app in Hv2 as [? _]|]. cbn [mbind option_bind].
  destruct (suffix_append c2 before rest2 t3 (n ++ buf)) as (c3 & s & t4 & -> & E4 & Ht4);
    [by left|done|by rewrite <- app_assoc|].
  cbn [mbind option_bind]. rewrite E4. exists t4. by rewrite <- app_assoc in Ht4.
Qed.

(** *** What can be looked up *)
Lemma cmp_is_eq k k' : is_eq (cmp k k') = true ↔ k = k'.
Proof. rewrite <- (cmp_eq_iff cmp). by destruct (cmp k k'). Qed.

Lemma sorted_split k l : srt l → l = below k l ++ option_list (lookup k l) ++ above k l.
Proof.
  induction l as [|x l IH]; intros Hs; [done|]. apply sorted_cons in Hs as [Hs Hx].
  unfold below, above, lookup in *. cbn [find]. unfold same_key in *.
  destruct (cmp (key x) k) eqn:E; cbn [is_eq].
  - assert (key x = k) as <- by by apply (cmp_eq_iff cmp).
    rewrite filter_cons_False by by rewrite E. rewrite filter_cons_False by by rewrite E.
    rewrite filter_none by (intros y Hy; rewrite (cmp_antisym cmp (key x)), (Hx y Hy); done).
    rewrite filter_all; [done|]. intros y Hy. by rewrite (cmp_antisym cmp (key x)), (Hx y Hy).
  - rewrite filter_cons_True by done. rewrite filter_cons_False by by rewrite E.
    cbn [app]. f_equal. by apply IH.
  - assert (∀ y, y ∈ l → cmp (key y) k = Gt) as Hgt.
    { intros y Hy. apply (cmp_gt_lt cmp). eapply (cmp_lt_trans cmp); [by apply (cmp_gt_lt cmp)|by apply Hx]. }
    rewrite filter_cons_False by by rewrite E. rewrite filter_cons_True by done.
    rewrite filter_none, (filter_all _ l); [|done|intros y Hy; by rewrite Hgt].
    assert (find (λ y, is_eq (cmp (key y) k)) l = None) as ->; [|done].
    clear -Hgt. induction l as [|y l IH]; [done|]. cbn. rewrite (Hgt y) by left. cbn.
    apply IH. intros z Hz. apply Hgt. by right.
Qed.

Lemma lookup_app k l m : lookup k (l ++ m) = match lookup k l with Some x => Some x | None => lookup k m end.
Proof. unfold lookup. induction l as [|x l IH]; cbn; [done|]. by destruct (same_key x k). Qed.
Lemma lookup_Some k l x : lookup k l = Some x → x ∈ l ∧ key x = k.
Proof.
  unfold lookup. induction l as [|y l IH]; cbn; [done|]. unfold same_key at 1.
  destruct (cmp (key y) k) eqn:E; cbn [is_eq].
  - intros [= ->]. split; [left|]. by apply (cmp_eq_iff cmp).
  - intros H. apply IH in H as [? ?]. split; [by right|done].
  - intros H. apply IH in H as [? ?]. split; [by right|done].
Qed.
Lemma lookup_none k l : (∀ x, x ∈ l → key x ≠ k) → lookup k l = None.
Proof.
  intros Hl. destruct (lookup k l) as [x|] eqn:E; [|done].
  apply lookup_Some in E as [E1 E2]. by destruct (Hl x).
Qed.
Lemma lookup_one k x : lookup k [x] = if same_key x k then Some x else None.
Proof. unfold lookup. cbn. by destruct (same_key x k). Qed.
Lemma same_key_true x k : same_key x k = true ↔ key x = k.
Proof.
  unfold same_key. rewrite <- (cmp_eq_iff cmp). by destruct (cmp (key x) k).
Qed.

Lemma lookup_elem l x : srt l → x ∈ l → lookup (key x) l = Some x.
Proof.
  intros Hs (l1 & l2 & ->)%list_elem_of_split. apply sorted_app in Hs as (_ & _ & Hs).
  rewrite lookup_app, lookup_none.
  - unfold lookup. cbn. unfold same_key. by rewrite (cmp_refl cmp).
  - intros y Hy E. specialize (Hs y x Hy (list_elem_of_here _ _)). by rewrite E, (cmp_refl cmp) in Hs.
Qed.

(** The key [k'] itself is neither below nor above it. *)
Lemma lookup_parts k k' l o :
  srt l → (∀ y, o = Some y → key y = k') →
  lookup k (below k' l ++ option_list o ++ above k' l) = if is_eq (cmp k k') then o else lookup k l.
Proof.
  intros Hs Ho. destruct (is_eq (cmp k k')) eqn:E.
  - apply cmp_is_eq in E as ->. rewrite !lookup_app.
    rewrite (lookup_none k' (below k' l)).
    2: { intros x [Hx _]%list_elem_of_filter <-. by apply (cmp_lt_irrefl cmp) in Hx. }
    destruct o as [y|]; [change (option_list (Some y)) with [y]|].
    + rewrite lookup_one. assert (same_key y k' = true) as -> by by apply same_key_true, Ho. done.
    + cbn. apply lookup_none. intros x [Hx _]%list_elem_of_filter <-. by rewrite (cmp_refl cmp) in Hx.
  - assert (∀ p, (∀ y, p = Some y → key y = k') → lookup k (option_list p) = None) as Hp.
    { intros p Hp. apply lookup_none. intros x Hx Hk. destruct p as [y|]; [|by apply elem_of_nil in Hx].
      apply list_elem_of_singleton in Hx as ->. rewrite <- Hk, (Hp y), (cmp_refl cmp) in E by done. done. }
    rewrite (sorted_split k' l Hs) at 3. rewrite !lookup_app.
    rewrite (Hp o) by done. rewrite Hp by (intros y Hy; by apply lookup_Some in Hy as [_ ?]). done.
Qed.

Lemma edit_as_parts e l :
  apply_edit e l = below (edit_key e) l ++ option_list (inserted e) ++ above (edit_key e) l.
Proof. by destruct e. Qed.
Lemma lookup_edit k e l :
  srt l → lookup k (apply_edit e l) = if is_eq (cmp k (edit_key e)) then inserted e else lookup k l.
Proof.
  intros Hs. rewrite edit_as_parts. apply lookup_parts; [done|]. by destruct e; cbn; [intros y [= ->]|].
Qed.

(** Edits with distinct keys do not see each other. *)
Lemma apply_edits_ok es l :
  valid l → Forall edit_ok es → NoDup (map edit_key es) →
  (∀ k, lookup k (apply_edits es l).1 =
    match find (λ e, is_eq (cmp k (edit_key e))) es with Some e => inserted e | None => lookup k l end) ∧
  (apply_edits es l).2 = omap (λ e, lookup (edit_key e) l) es.
Proof.
  revert l. induction es as [|e es IH]; intros l Hv Ho Hnd; [done|].
  apply Forall_cons in Ho as [He Ho]. cbn [map] in Hnd. apply NoDup_cons in Hnd as [Hne Hnd].
  destruct (IH (apply_edit e l)) as [H1 H2]; [by apply apply_edit_valid|done..|].
  cbn [apply_edits find omap list_omap]. apply valid_sorted in Hv as [Hs _].
  destruct (apply_edits es (apply_edit e l)) as [l' r]. cbn [fst snd] in *. split.
  - intros k. rewrite H1. destruct (is_eq (cmp k (edit_key e))) eqn:E.
    + apply cmp_is_eq in E as ->. rewrite lookup_edit, (cmp_refl cmp) by done. cbn [is_eq].
      destruct (find _ es) as [f|] eqn:Ef; [|done]. apply find_some in Ef as [Hf Ef].
      exfalso. apply Hne. apply cmp_is_eq in Ef as ->.
      apply list_elem_of_In. apply in_map, Hf.
    + destruct (find _ es); [done|]. by rewrite lookup_edit, E.
  - assert (r = omap (λ f, lookup (edit_key f) l) es) as ->.
    { rewrite H2. clear -Hne Hs KeyedLaws0. induction es as [|f es IH]; [done|].
      cbn [map] in Hne. apply not_elem_of_cons in Hne as [Hne1 Hne2]. cbn [omap list_omap].
      rewrite lookup_edit, IH by done.
      destruct (cmp (edit_key f) (edit_key e)) eqn:E; [|done..].
      by apply (cmp_eq_iff cmp) in E. }
    by destruct (lookup (edit_key e) l).
Qed.

(** Inserting under new keys only adds the items. *)
Lemma apply_edits_fresh es l :
  valid l → Forall edit_ok es → NoDup (map edit_key es) →
  (∀ e, e ∈ es → lookup (edit_key e) l = None) →
  (apply_edits es l).1 ≡ₚ omap inserted es ++ l.
Proof.
  revert l. induction es as [|e es IH]; intros l Hv Ho Hnd Hfr; [done|].
  apply Forall_cons in Ho as [He Ho]. cbn [map] in Hnd. apply NoDup_cons in Hnd as [Hne Hnd].
  pose proof (proj1 (proj1 (valid_sorted l) Hv)) as Hs.
  assert ((apply_edits es (apply_edit e l)).1 ≡ₚ omap inserted es ++ apply_edit e l) as IH'.
  { apply IH; [by apply apply_edit_valid|done..|]. intros f Hf. rewrite lookup_edit by done.
    destruct (is_eq _) eqn:E; [|apply Hfr; by right]. apply cmp_is_eq in E. destruct Hne.
    rewrite <- E. by apply list_elem_of_In, in_map, list_elem_of_In. }
  cbn [apply_edits]. destruct (apply_edits es (apply_edit e l)) as [l' r]. cbn [fst] in *.
  rewrite IH', edit_as_parts. clear IH'.
  pose proof (sorted_split (edit_key e) l Hs) as El. rewrite (Hfr e) in El by left.
  cbn [option_list app] in El. set (a := below (edit_key e) l) in *. set (b := above (edit_key e) l) in *.
  rewrite El. cbn [omap list_omap]. destruct (inserted e) as [x|]; cbn [option_list app]; [|done].
  change (x :: b) with ([x] ++ b). change (x :: omap inserted es ++ a ++ b) with ([x] ++ omap inserted es ++ a ++ b).
  solve_Permutation.
Qed.

Lemma sorted_perm_unique l m : srt l → srt m → l ≡ₚ m → l = m.
Proof.
  intros Hl Hm. apply (StronglySorted_unique_strong before); try done.
  intros x y _ _ Hx Hy. by destruct (cmp_lt_asym cmp _ _ Hx).
Qed.

(** *** Lookup in the tree *)
Lemma sorted_descending l k : valid l → TreeFind.descending (D := D) (cmp k) l.
Proof.
  intros Hv p q [r ->] Hp. destruct (decide (q = [])) as [->|Hq]; [by rewrite app_nil_r|].
  apply valid_app in Hv as [Hv _].
  destruct p as [|x p _] using rev_ind; [done|]. destruct q as [|y q _] using rev_ind; [done|].
  pose proof (proj1 (valid_app _ _ Hv)) as Hv1. rewrite app_assoc in *. rewrite !key_dim by done.
  assert (cmp (key x) (key y) = Lt) as Hxy.
  { apply valid_sorted in Hv as [Hs _]. rewrite <- !app_assoc in Hs.
    apply sorted_app in Hs as (_ & Hs & _). apply sorted_app in Hs as (_ & _ & Hs).
    apply Hs; [left|]. apply elem_of_app. right. left. }
  split.
  - intros Hk%(cmp_gt_lt cmp). apply (cmp_gt_lt cmp). by eapply (cmp_lt_trans cmp).
  - intros Hk. by eapply (cmp_lt_trans cmp).
Qed.

Lemma get_ok t l k : represents t l → valid l → get t k = Some (lookup k l).
Proof.
  intros Ht Hv. unfold get.
  destruct (TreeFind.find_exact_ok (D := D) (cmp k) t l) as (s & e & r & -> & H);
    [done..|by apply sorted_descending|]. cbn [mbind option_bind]. f_equal.
  destruct r as [x|].
  - destruct H as (l1 & l2 & -> & H). rewrite key_dim in H.
    2: { change (x :: l2) with ([x] ++ l2) in Hv. rewrite app_assoc in Hv. by apply valid_app in Hv as [? _]. }
    apply (cmp_eq_iff cmp) in H as ->. apply valid_sorted in Hv as [Hs _].
    symmetry. apply lookup_elem; [done|]. apply elem_of_app. right. left.
  - symmetry. apply lookup_none. intros x (l1 & l2 & ->)%list_elem_of_split E.
    apply (H l1 x l2); [done|]. rewrite key_dim.
    2: { change (x :: l2) with ([x] ++ l2) in Hv. rewrite app_assoc in Hv. by apply valid_app in Hv as [? _]. }
    by rewrite E, (cmp_refl cmp).
Qed.

Lemma find_edit es e l :
  NoDup (map edit_key es) → e ∈ es →
  match find (λ f, is_eq (cmp (edit_key e) (edit_key f))) es with
  | Some f => inserted f | None => lookup (edit_key e) l end = inserted e.
Proof.
  induction es as [|f es IH]; intros Hnd He; [by apply elem_of_nil in He|].
  cbn [map] in Hnd. apply NoDup_cons in Hnd as [Hf Hnd]. cbn [find].
  apply elem_of_cons in He as [->|He]; [by rewrite (cmp_refl cmp)|].
  destruct (is_eq _) eqn:E; [|by apply IH]. apply cmp_is_eq in E. destruct Hf. rewrite <- E.
  by apply list_elem_of_In, in_map, list_elem_of_In.
Qed.

(** A sorted tree is an ordered map. [get] finds the item with the key;
    [insert_or_replace] gives a sorted tree with the new item under its key,
    everything else as before, and hands back what it displaced; [remove] takes
    out exactly the item with the key. No operation panics. *)
Theorem keyed_correct t l x k :
  fits t l → item_ok x → cmp k dzero ≠ Lt →
  get t k = Some (lookup k l) ∧
  (∃ t' l', insert_or_replace t x = Some (t', lookup (key x) l) ∧ represents t' l' ∧ valid l' ∧
     ∀ k', lookup k' l' = if is_eq (cmp k' (key x)) then Some x else lookup k' l) ∧
  (∃ t' l', remove t k = Some (t', lookup k l) ∧ represents t' l' ∧ valid l' ∧
     ∀ k', lookup k' l' = if is_eq (cmp k' k) then None else lookup k' l).
Proof.
  intros Hf Hx Hk. pose proof Hf as (h & Hw & Hc & _ & Hv).
  pose proof (proj1 (valid_sorted l) Hv) as [Hs _]. split_and!.
  - apply get_ok; [split; [by exists h|done]|done].
  - destruct (insert_or_replace_ok t l x) as (t' & E & Ht); [done..|].
    exists t', (replace x l). split_and!; [done..|by apply replace_valid|].
    intros k'. by apply (lookup_edit k' (Insert x)).
  - destruct (remove_ok t l k) as (t' & E & Ht); [done..|].
    exists t', (delete k l). split_and!; [done..|by apply delete_valid|].
    intros k'. by apply (lookup_edit k' (Remove k)).
Qed.

Lemma edit_tree_spec t l es :
  fits t l → NoDup (map edit_key es) → Forall edit_ok es →
  ∃ t' l' removed, edit_tree t es = Some (t', removed) ∧ represents t' l' ∧ valid l' ∧
    (∀ e, e ∈ es → lookup (edit_key e) l' = inserted e) ∧
    (∀ k, k ∉ map edit_key es → lookup k l' = lookup k l) ∧
    removed = omap (λ e, lookup (edit_key e) l) (sort_edits es) ∧ sort_edits es ≡ₚ es.
Proof.
  intros Hf Hnd Ho. destruct (edit_tree_ok t l es Hf Hnd Ho) as (t' & E & Ht & Hv').
  pose proof Hf as (h & _ & _ & _ & Hv).
  destruct (apply_edits_ok (sort_edits es) l) as [H1 H2]; [done| | |].
  - by rewrite sort_edits_perm.
  - by rewrite sort_edits_perm.
  - exists t', (apply_edits (sort_edits es) l).1, (apply_edits (sort_edits es) l).2.
    split_and!; try done; [| |apply sort_edits_perm].
    + intros e He. rewrite H1. apply find_edit; [|by rewrite sort_edits_perm..].
      by rewrite sort_edits_perm.
    + intros k Hk. rewrite H1. destruct (find _ _) as [f|] eqn:Ef; [|done].
      apply find_some in Ef as [Hf' Ef%cmp_is_eq]. destruct Hk. subst k.
      apply list_elem_of_In, in_map. rewrite <- list_elem_of_In in *. by rewrite <- sort_edits_perm.
Qed.

(** C25: A batch of edits with distinct keys, in any order: [edit] sorts them and
    merges them into the tree in one pass, which gives what the edits ask for
    (the inserted item, or nothing, under each edited key; the old items under
    the others), and returns the displaced items in the order of their keys. *)
Theorem edit_correct t l es :
  fits t l → NoDup (map edit_key es) → Forall edit_ok es →
  ∃ t' l' removed, edit_tree t es = Some (t', removed) ∧ represents t' l' ∧ valid l' ∧
    (∀ e, e ∈ es → lookup (edit_key e) l' = inserted e) ∧
    (∀ k, k ∉ map edit_key es → lookup k l' = lookup k l) ∧
    removed = omap (λ e, lookup (edit_key e) l) (sort_edits es) ∧ sort_edits es ≡ₚ es.
Proof. apply edit_tree_spec. Qed.
End correct.
End Keyed.

(** ** The entries of a map

    The summary of a map entry is its key; adding keeps the right one. *)
Class Ord (K : Type) := { compare : K → K → comparison; compare_total :: TotalCmp compare }.

(** [Ord] of [Option]: [None] comes first. *)
Definition option_compare {K} `{!Ord K} (x y : option K) : comparison :=
  match x, y with
  | None, None => Eq | None, Some _ => Lt | Some _, None => Gt
  | Some x, Some y => compare x y
  end.
#[export] Instance option_compare_total K `{!Ord K} : TotalCmp option_compare.
Proof.
  split.
  - intros [x|] [y|]; cbn; try done. rewrite (cmp_eq_iff compare). split; [by intros ->|by intros [= ->]].
  - intros [x|] [y|]; cbn; try done. apply (cmp_antisym compare).
  - intros [x|] [y|] [z|]; cbn; try done. apply (cmp_lt_trans compare).
Qed.

(** [crates/sum_tree/src/tree_map.rs:12-16] MapEntry *)
Record MapEntry (K V : Type) := mk_entry { entry_key : K; value : V }.
Arguments mk_entry {K V}.
Arguments entry_key {K V}.
Arguments value {K V}.
#[global] Instance MapEntry_eq_dec K V `{!EqDecision K, !EqDecision V} : EqDecision (MapEntry K V).
Proof. solve_decision. Defined.

(** [crates/sum_tree/src/tree_map.rs:18-25] MapKey *)
Definition MapKey (K : Type) := option K.
Section map_entry.
Context {K V : Type} `{!Ord K}.
(** [crates/sum_tree/src/tree_map.rs:276-287] Summary for MapKey *)
#[export] Instance MapKey_summary : Summary (MapKey K) :=
  { zero := None; add_summary := λ _ s, s }.
(** [crates/sum_tree/src/tree_map.rs:289-300] Dimension for MapKeyRef *)
#[export] Instance MapKeyRef_dimension : Dimension (MapKey K) (MapKey K) :=
  { dzero := None; dadd := λ _ s, s }.
(** [crates/sum_tree/src/tree_map.rs:252-262] Item for MapEntry *)
#[export] Instance MapEntry_item : Item (MapEntry K V) (MapKey K) :=
  { item_summary := λ e, Some (entry_key e) }.
(** [crates/sum_tree/src/tree_map.rs:264-274] KeyedItem for MapEntry *)
#[export] Instance MapEntry_keyed : KeyedItem (MapEntry K V) (MapKey K) (MapKey K) :=
  { key := λ e, Some (entry_key e); kcmp := option_compare }.

Lemma measure_snoc (l : list (MapEntry K V)) e : measure (l ++ [e]) = Some (entry_key e).
Proof. unfold measure, sum. by rewrite map_app, foldl_app. Qed.

#[export, program] Instance MapEntry_laws : SummaryLaws (MapEntry K V) (MapKey K) :=
  {| valid := Keyed.sorted (D := MapKey K) |}.
Next Obligation. intros l k (H1 & H2 & _)%Keyed.sorted_app. done. Qed.
Next Obligation.
  intros l k Hk _. destruct k as [|e k _] using rev_ind; [done|].
  rewrite app_assoc, !measure_snoc. done.
Qed.
Next Obligation. done. Qed.

#[export] Instance MapKey_zero : DimensionZero (MapKey K) (MapKey K).
Proof. done. Qed.
#[export] Instance MapEntry_dimension_laws : DimensionLaws (MapKey K) (MapEntry K V) (MapKey K).
Proof.
  split. intros l k Hk Hv. destruct k as [|e k _] using rev_ind; [done|].
  rewrite <- !(dim_measure (MapKey K) (T := MapEntry K V)), app_assoc, !measure_snoc. done.
Qed.

#[export, program] Instance MapEntry_keyed_laws :
  Keyed.KeyedLaws (MapEntry K V) (MapKey K) (MapKey K) := {| Keyed.item_ok := λ _, True |}.
Next Obligation.
  intros l. split; [|by intros [? _]]. intros H. split; [done|]. by apply Forall_forall.
Qed.
Next Obligation. intros l e _. by rewrite <- dim_measure, measure_snoc. Qed.
Next Obligation. done. Qed.
Next Obligation. done. Qed.
End map_entry.

(** ** Concrete maps *)
Module Example.
Import SumTree.
#[export] Instance Z_ord : Ord Z := { compare := Z.compare }.
Abbreviation entry := (MapEntry Z Z).
Definition squares (n : nat) : list entry := map (λ i, mk_entry (2 * Z.of_nat i) (Z.of_nat (i * i))) (seq 0 n).

Lemma sorted_check (l : list entry) :
  bool_decide (Forall (λ p, entry_key p.1 < entry_key p.2) (zip l (tail l))) = true → valid l.
Proof.
  intros H%bool_decide_eq_true. cbn. apply Sorted_StronglySorted.
  { intros x y z. unfold Keyed.before. cbn. rewrite !Z.compare_lt_iff. lia. }
  induction l as [|x [|y l] IH]; [by constructor|by repeat constructor|].
  cbn in H. apply Forall_cons in H as [H1 H2]. constructor; [by apply IH|].
  constructor. unfold Keyed.before. cbn. by apply Z.compare_lt_iff.
Qed.

Lemma fits_from (n : nat) :
  valid (squares n) → (match from_iter (squares n) with Some t => Nat.ltb (height t) 16 | None => false end) = true →
  ∃ t, from_iter (squares n) = Some t ∧ Keyed.fits t (squares n).
Proof.
  intros Hv E. destruct (represents_from_iter (squares n) Hv) as (t & Et & [[h Hh] Hc]).
  exists t. split; [done|]. exists h. split_and!; [done..| |done].
  rewrite Et, (wf_height h t Hh) in E. by apply Nat.ltb_lt.
Qed.
End Example.
Import Example.

Lemma keyed_correct_witness :
  ∃ t t' old, SumTree.from_iter (squares 100) = Some t ∧
    Keyed.insert_or_replace t (mk_entry 30 7) = Some (t', Some old) ∧ value old = 225 ∧
    Keyed.get t (Some 31) = Some None.
Proof.
  destruct (fits_from 100) as (t & E & Hf); [by apply sorted_check|by vm_compute|].
  destruct (Keyed.keyed_correct t (squares 100) (mk_entry 30 7) (Some 31) Hf)
    as (H1 & (t' & _ & H2 & _) & _); [exact I|done|].
  exists t, t', (mk_entry 30 225). split_and!; [done|exact H2|done|exact H1].
Defined.

Lemma edit_correct_witness :
  ∃ t t', SumTree.from_iter (squares 40) = Some t ∧
    Keyed.edit_tree t [Keyed.Insert (mk_entry 33 1); Keyed.Remove (Some 4); Keyed.Insert (mk_entry 2 5)]
      = Some (t', [mk_entry 2 1; mk_entry 4 4]).
Proof.
  destruct (fits_from 40) as (t & E & Hf); [by apply sorted_check|by vm_compute|].
  destruct (Keyed.edit_correct t (squares 40)
    [Keyed.Insert (mk_entry 33 1); Keyed.Remove (Some 4); Keyed.Insert (mk_entry 2 5)] Hf)
    as (t' & l' & r & H1 & _ & _ & _ & _ & -> & _).
  - apply (bool_decide_eq_true_1 _). by vm_compute.
  - by repeat constructor.
  - exists t, t'. split; [done|exact H1].
Defined.
