(* ===== verification/TreeMap.v ===== *)
(** The ordered map and set on a tree of entries ([TreeMap] and [TreeSet] in
    [crates/sum_tree/src/tree_map.rs]). The entries, their summary and the
    dimension of their keys are in [Keyed]. [None] is a panic. *)
From S2P Require Import Prelude SumTree TreeFind Cursor Iter Keyed.

Module TreeMap.
Import SumTree.
Section operations.
Context {K V : Type} `{!Ord K}.
Abbreviation entry := (MapEntry K V).
Abbreviation cursor := (Cursor.t entry (MapKey K) (MapKey K)).

(** [crates/sum_tree/src/tree_map.rs:7-10] TreeMap *)
Definition TreeMap : Type := node (MapEntry K V) (MapKey K).

(** A [MapKeyRef] as a target.
    [crates/sum_tree/src/tree_map.rs:302-309] SeekTarget for MapKeyRef *)
Definition MapKeyRef_cmp (k cursor_location : MapKey K) : comparison := option_compare k cursor_location.

(** A [MapSeekTarget] is the function that compares it with a key; before the
    first entry the location has none.
    [crates/sum_tree/src/tree_map.rs:217-230] MapSeekTargetAdaptor *)
Definition MapSeekTargetAdaptor (cmp_cursor : K → comparison) (cursor_location : MapKey K) : comparison :=
  match cursor_location with Some key => cmp_cursor key | None => Gt end.
(** [crates/sum_tree/src/tree_map.rs:236-240] MapSeekTarget for K *)
Definition key_target (self cursor_location : K) : comparison := compare self cursor_location.

(** [crates/sum_tree/src/tree_map.rs:242-250] TreeMap::default *)
Definition default : TreeMap := new.
(** [crates/sum_tree/src/tree_map.rs:42-50] TreeMap::from_ordered_entries *)
Definition from_ordered_entries (entries : list (K * V)) : option TreeMap :=
  from_iter (map (λ '(k, v), mk_entry k v) entries).
(** [crates/sum_tree/src/tree_map.rs:52-54] TreeMap::is_empty *)
Definition is_empty (m : TreeMap) : bool := SumTree.is_empty m.

(** [crates/sum_tree/src/tree_map.rs:60-73] TreeMap::get *)
Definition get (m : TreeMap) (key : K) : option (option V) :=
  '(_, _, item) ← TreeFind.find (MapKeyRef_cmp (Some key)) Left m;
  Some match item with
       | Some item => if is_eq (compare key (entry_key item)) then Some (value item) else None
       | None => None
       end.
(** [crates/sum_tree/src/tree_map.rs:56-58] TreeMap::contains_key *)
Definition contains_key (m : TreeMap) (key : K) : option bool :=
  r ← get m key; Some (bool_decide (is_Some r)).

(** [crates/sum_tree/src/tree_map.rs:79-83] TreeMap::insert_or_replace *)
Definition insert_or_replace (m : TreeMap) (key : K) (v : V) : option (TreeMap * option V) :=
  '(m, old) ← Keyed.insert_or_replace (T := entry) (D := MapKey K) m (mk_entry key v);
  Some (m, option_map value old).
(** [crates/sum_tree/src/tree_map.rs:75-77] TreeMap::insert *)
Definition insert (m : TreeMap) (key : K) (v : V) : option TreeMap :=
  '(m, _) ← Keyed.insert_or_replace (T := entry) (D := MapKey K) m (mk_entry key v); Some m.

(** [crates/sum_tree/src/tree_map.rs:85-91] TreeMap::extend *)
Definition extend (m : TreeMap) (iter : list (K * V)) : option TreeMap :=
  '(m, _) ← Keyed.edit_tree (T := entry) (D := MapKey K) m (map (λ '(k, v), Keyed.Insert (mk_entry k v)) iter);
  Some m.
(** [crates/sum_tree/src/tree_map.rs:93-95] TreeMap::clear *)
Definition clear (m : TreeMap) : TreeMap := new.

(** [crates/sum_tree/src/tree_map.rs:97-110] TreeMap::remove *)
Definition remove (m : TreeMap) (key : K) : option (TreeMap * option V) :=
  '(cursor, new_tree) ← Cursor.slice (MapKeyRef_cmp (Some key)) Left (Cursor.new m);
  end_ ← Cursor.end_ cursor;
  '(cursor, removed) ←
    (if is_eq (MapKeyRef_cmp (Some key) end_) then
       item ← Cursor.item cursor;
       item ← item;
       cursor ← Cursor.next cursor;
       Some (cursor, Some (value item))
     else Some (cursor, None));
  '(_, suffix) ← Cursor.suffix cursor;
  m ← append new_tree suffix;
  Some (m, removed).

(** [crates/sum_tree/src/tree_map.rs:112-121] TreeMap::remove_range *)
Definition remove_range (m : TreeMap) (start end_ : K → comparison) : option TreeMap :=
  '(cursor, new_tree) ← Cursor.slice (MapSeekTargetAdaptor start) Left (Cursor.new m);
  '(cursor, _) ← Cursor.seek (MapSeekTargetAdaptor end_) Left cursor;
  '(_, suffix) ← Cursor.suffix cursor;
  append new_tree suffix.

(** [crates/sum_tree/src/tree_map.rs:124-130] TreeMap::closest *)
Definition closest (m : TreeMap) (key : K) : option (option (K * V)) :=
  '(cursor, _) ← Cursor.seek (MapKeyRef_cmp (Some key)) Right (Cursor.new m);
  cursor ← Cursor.prev cursor;
  item ← Cursor.item cursor;
  Some (option_map (λ item, (entry_key item, value item)) item).

(** The iterator of a cursor, run to its end.
    [crates/sum_tree/src/tree_map.rs:132-138] TreeMap::iter_from *)
Definition iter_from (fuel : nat) (m : TreeMap) (from : K) : option (list (K * V)) :=
  '(cursor, _) ← Cursor.seek (MapKeyRef_cmp (Some from)) Left (Cursor.new m);
  l ← Iter.collect_cursor fuel cursor;
  Some (map (λ item, (entry_key item, value item)) l).

(** [f] changes the value and returns something.
    [crates/sum_tree/src/tree_map.rs:140-158] TreeMap::update *)
Definition update {R : Type} (m : TreeMap) (key : K) (f : V → V * R) : option (TreeMap * option R) :=
  '(cursor, new_tree) ← Cursor.slice (MapKeyRef_cmp (Some key)) Left (Cursor.new m);
  end_ ← Cursor.end_ cursor;
  '(cursor, new_tree, result) ←
    (if is_eq (MapKeyRef_cmp (Some key) end_) then
       item ← Cursor.item cursor;
       updated ← item;
       let '(v, result) := f (value updated) in
       new_tree ← push new_tree (mk_entry (entry_key updated) v);
       cursor ← Cursor.next cursor;
       Some (cursor, new_tree, Some result)
     else Some (cursor, new_tree, None));
  '(_, suffix) ← Cursor.suffix cursor;
  m ← append new_tree suffix;
  Some (m, result).

(** [crates/sum_tree/src/tree_map.rs:165-170] TreeMap::retain *)
Fixpoint retain_loop (fuel : nat) (predicate : K → V → bool) (cursor : cursor) (new_map : TreeMap) :
    option TreeMap :=
  match fuel with
  | O => None
  | S fuel =>
      item ← Cursor.item cursor;
      match item with
      | Some item =>
          new_map ← (if predicate (entry_key item) (value item) then push new_map item else Some new_map);
          cursor ← Cursor.next cursor;
          retain_loop fuel predicate cursor new_map
      | None => Some new_map
      end
  end.
(** [crates/sum_tree/src/tree_map.rs:160-174] TreeMap::retain *)
Definition retain (fuel : nat) (m : TreeMap) (predicate : K → V → bool) : option TreeMap :=
  cursor ← Cursor.next (Cursor.new m); retain_loop fuel predicate cursor new.

(** [crates/sum_tree/src/tree_map.rs:176-178] TreeMap::iter *)
Definition iter (fuel : nat) (m : TreeMap) : option (list (K * V)) :=
  l ← Iter.collect fuel (Iter.new m); Some (map (λ e, (entry_key e, value e)) l).
(** [crates/sum_tree/src/tree_map.rs:180-182] TreeMap::values *)
Definition values (fuel : nat) (m : TreeMap) : option (list V) :=
  l ← Iter.collect fuel (Iter.new m); Some (map value l).
(** [crates/sum_tree/src/tree_map.rs:184-186] TreeMap::first *)
Definition first (m : TreeMap) : option (option (K * V)) :=
  e ← SumTree.first m; Some (option_map (λ e, (entry_key e, value e)) e).
(** [crates/sum_tree/src/tree_map.rs:188-190] TreeMap::last *)
Definition last (m : TreeMap) : option (option (K * V)) :=
  e ← SumTree.last m; Some (option_map (λ e, (entry_key e, value e)) e).

(** [crates/sum_tree/src/tree_map.rs:192-204] TreeMap::insert_tree *)
Definition insert_tree (fuel : nat) (m other : TreeMap) : option TreeMap :=
  l ← iter fuel other;
  '(m, _) ← Keyed.edit_tree (T := entry) (D := MapKey K) m (map (λ '(k, v), Keyed.Insert (mk_entry k v)) l);
  Some m.
End operations.
Arguments TreeMap : clear implicits.

(** ** The set *)
Section set.
Context {K : Type} `{!Ord K}.
(** [crates/sum_tree/src/tree_map.rs:36-39] TreeSet *)
Definition TreeSet : Type := TreeMap K unit.
(** [crates/sum_tree/src/tree_map.rs:324-328] TreeSet::from_ordered_entries *)
Definition set_from_ordered_entries (entries : list K) : option TreeSet :=
  from_ordered_entries (map (λ key, (key, tt)) entries).
(** [crates/sum_tree/src/tree_map.rs:330-332] TreeSet::is_empty *)
Definition set_is_empty (s : TreeSet) : bool := is_empty s.
(** [crates/sum_tree/src/tree_map.rs:334-336] TreeSet::insert *)
Definition set_insert (s : TreeSet) (key : K) : option TreeSet := insert s key tt.
(** [crates/sum_tree/src/tree_map.rs:338-340] TreeSet::remove *)
Definition set_remove (s : TreeSet) (key : K) : option (TreeSet * bool) :=
  '(s, r) ← remove s key; Some (s, bool_decide (is_Some r)).
(** [crates/sum_tree/src/tree_map.rs:342-344] TreeSet::extend *)
Definition set_extend (s : TreeSet) (iter : list K) : option TreeSet :=
  extend s (map (λ key, (key, tt)) iter).
(** [crates/sum_tree/src/tree_map.rs:346-348] TreeSet::contains *)
Definition set_contains (s : TreeSet) (key : K) : option bool :=
  r ← get s key; Some (bool_decide (is_Some r)).
(** [crates/sum_tree/src/tree_map.rs:350-352] TreeSet::iter *)
Definition set_iter (fuel : nat) (s : TreeSet) : option (list K) :=
  l ← iter fuel s; Some (map fst l).
(** [crates/sum_tree/src/tree_map.rs:354-356] TreeSet::iter_from *)
Definition set_iter_from (fuel : nat) (s : TreeSet) (key : K) : option (list K) :=
  l ← iter_from fuel s key; Some (map fst l).
End set.
Arguments TreeSet : clear implicits.

(** ** Sorted entries cut by a predicate on keys *)
Section cut.
Context {K V : Type} `{!Ord K}.
Abbreviation entry := (MapEntry K V).
Implicit Types (l mid rest : list entry) (e : entry) (k : K) (p : K → bool).

(** A predicate that holds up to some key. *)
Definition initial p : Prop := ∀ a b, compare a b = Lt → p b = true → p a = true.
Definition cut p l : list entry * list entry :=
  (filter (λ e, p (entry_key e) = true) l, filter (λ e, p (entry_key e) = false) l).

Lemma dim_snoc l e : dim (MapKey K) (l ++ [e]) = Some (entry_key e).
Proof. by rewrite <- (dim_measure (MapKey K) (T := MapEntry K V)), measure_snoc. Qed.

Lemma sorted_le l e mid : valid (l ++ e :: mid) → ∀ x, x ∈ l → compare (entry_key x) (entry_key e) = Lt.
Proof. intros (_ & _ & H)%Keyed.sorted_app x Hx. apply (H x e); [done|left]. Qed.

Lemma cut_app p l m :
  (∀ e, e ∈ l → p (entry_key e) = true) → (∀ e, e ∈ m → p (entry_key e) = false) →
  cut p (l ++ m) = (l, m).
Proof.
  intros Hl Hm. unfold cut. rewrite !filter_app.
  rewrite (Keyed.filter_all _ l), (Keyed.filter_none _ m), (Keyed.filter_none _ l), (Keyed.filter_all _ m), app_nil_r; try done.
  - intros e He. by rewrite Hl.
  - intros e He. by rewrite Hm.
Qed.

Lemma initial_split p l :
  initial p → valid l → ∃ l1 l2, l = l1 ++ l2 ∧
    (∀ e, e ∈ l1 → p (entry_key e) = true) ∧ (∀ e, e ∈ l2 → p (entry_key e) = false).
Proof.
  intros Hp. induction l as [|e l IH]; intros Hv.
  - exists [], []. split_and!; [done|by intros ? ?%elem_of_nil..].
  - apply Keyed.sorted_cons in Hv as [Hv He]. destruct (p (entry_key e)) eqn:E.
    + destruct IH as (l1 & l2 & -> & H1 & H2); [done|]. exists (e :: l1), l2.
      split_and!; [done| |done]. intros x [->|Hx]%elem_of_cons; [done|by apply H1].
    + exists [], (e :: l). split_and!; [done|by intros ? ?%elem_of_nil|].
      intros x [->|Hx]%elem_of_cons; [done|]. apply not_true_is_false. intros Hx'.
      rewrite (Hp (entry_key e) (entry_key x)) in E; [done|by apply He|done].
Qed.

(** Where a seek stops when its target is past the keys that satisfy [p]. *)
Lemma stopped_cut (target : MapKey K → comparison) b p mid rest :
  initial p → valid (mid ++ rest) →
  (∀ k, skips (target (Some k)) b = p k) →
  Cursor.stopped (D := MapKey K) target b [] mid rest →
  (∀ e, e ∈ mid → p (entry_key e) = true) ∧ (∀ e, e ∈ rest → p (entry_key e) = false) ∧
  cut p (mid ++ rest) = (mid, rest).
Proof.
  intros Hp Hv Ht [Hmid Hrest].
  assert (∀ e, e ∈ mid → p (entry_key e) = true) as Hm.
  { destruct Hmid as [->|Hmid]; [by intros ? ?%elem_of_nil|].
    destruct mid as [|z mid _] using rev_ind; [by intros ? ?%elem_of_nil|].
    unfold TreeFind.passed in Hmid. cbn [app] in Hmid. rewrite dim_snoc, Ht in Hmid.
    rewrite <- app_assoc in Hv. intros e [He| ->%list_elem_of_singleton]%elem_of_app; [|done].
    eapply Hp; [|done]. by apply (sorted_le mid z rest). }
  assert (∀ e, e ∈ rest → p (entry_key e) = false) as Hr.
  { destruct rest as [|z rest]; [by intros ? ?%elem_of_nil|].
    specialize (Hrest z eq_refl). unfold TreeFind.passed in Hrest. cbn [app] in Hrest.
    rewrite dim_snoc, Ht in Hrest. apply Keyed.sorted_app in Hv as (_ & [_ Hv]%Keyed.sorted_cons & _).
    intros e [->|He]%elem_of_cons; [done|]. apply not_true_is_false. intros E.
    rewrite (Hp (entry_key z) (entry_key e)) in Hrest; [done|by apply Hv|done]. }
  split_and!; [done..|by apply cut_app].
Qed.

Definition before_key k k' : bool := is_lt (compare k' k).
Definition upto_key k k' : bool := is_le (compare k' k).
Lemma initial_before k : initial (before_key k).
Proof.
  intros a b Hab. unfold before_key. rewrite !(is_lt_true compare). by apply (cmp_lt_trans compare).
Qed.
Lemma initial_upto k : initial (upto_key k).
Proof.
  intros a b Hab Hb. unfold upto_key in *. destruct (compare a k) eqn:E; [done..|].
  assert (compare b k ≠ Gt) as Hb' by by destruct (compare b k).
  by rewrite (cmp_lt_le_trans compare a b k) in E.
Qed.
Lemma skips_before k k' : skips (MapKeyRef_cmp (Some k) (Some k')) Left = before_key k k'.
Proof. unfold before_key. cbn. rewrite (cmp_antisym compare k k'). by destruct (compare k k'). Qed.
Lemma skips_upto k k' : skips (MapKeyRef_cmp (Some k) (Some k')) Right = upto_key k k'.
Proof. unfold upto_key. cbn. rewrite (cmp_antisym compare k k'). by destruct (compare k k'). Qed.
End cut.

(** ** What the operations do to the entries *)
Section correct.
Context {K V : Type} `{!Ord K}.
Abbreviation entry := (MapEntry K V).
Abbreviation cursor := (Cursor.t entry (MapKey K) (MapKey K)).
Abbreviation lookup := (Keyed.lookup (T := entry) (U := MapKey K) (D := MapKey K)).
Abbreviation replace := (Keyed.replace (T := entry) (U := MapKey K) (D := MapKey K)).
Abbreviation below := (Keyed.below (T := entry) (U := MapKey K) (D := MapKey K)).
Abbreviation above := (Keyed.above (T := entry) (U := MapKey K) (D := MapKey K)).
Abbreviation delete := (Keyed.delete (T := entry) (U := MapKey K) (D := MapKey K)).
Implicit Types (m : TreeMap K V) (l mid rest : list entry) (e : entry) (k : K) (p : K → bool) (c : cursor).

Lemma option_compare_sym k k' : option_compare (Some k) (Some k') = CompOpp (option_compare (Some k') (Some k)).
Proof. apply (cmp_antisym option_compare). Qed.

Lemma lookup_value e k : Keyed.same_key (D := MapKey K) e (Some k) = is_eq (compare k (entry_key e)).
Proof. unfold Keyed.same_key. cbn. rewrite (cmp_antisym compare k). by destruct (compare k (entry_key e)). Qed.

(** The cut a slice or a seek makes. *)
Lemma slice_cut m l (target : MapKey K → comparison) b p :
  Keyed.fits m l → initial p → (∀ k, skips (target (Some k)) b = p k) → target None ≠ Lt →
  ∃ c t mid rest, Cursor.slice target b (Cursor.new m) = Some (c, t) ∧ represents t mid ∧
    l = mid ++ rest ∧ Cursor.positioned c mid rest ∧ cut p l = (mid, rest) ∧
    (∀ e, e ∈ mid → p (entry_key e) = true) ∧ (∀ e, e ∈ rest → p (entry_key e) = false).
Proof.
  intros Hf Hp Ht Hn. pose proof Hf as (h & _ & _ & _ & Hv).
  destruct (Cursor.slice_ok target b (Cursor.new m) [] l) as (c & t & mid & rest & E & H1 & -> & H2 & H3);
    [by apply Keyed.fits_ready|done|].
  destruct (stopped_cut target b p mid rest Hp Hv Ht H2) as (H4 & H5 & H6). by exists c, t, mid, rest.
Qed.
Lemma seek_cut c l mid0 rest0 (target : MapKey K → comparison) b p :
  Cursor.ready c mid0 rest0 → mid0 ++ rest0 = l → valid l →
  initial p → (∀ k, skips (target (Some k)) b = p k) → target None ≠ Lt →
  ∃ c' hit mid rest, Cursor.seek target b c = Some (c', hit) ∧ l = mid ++ rest ∧
    Cursor.positioned c' mid rest ∧ cut p l = (mid, rest) ∧
    (∀ e, e ∈ mid → p (entry_key e) = true) ∧ (∀ e, e ∈ rest → p (entry_key e) = false).
Proof.
  intros Hc <- Hv Hp Ht Hn.
  destruct (Cursor.seek_ok target b c mid0 rest0 Hc) as (c' & mid & rest & E & El & H2 & H3); [done|].
  rewrite El in *. destruct (stopped_cut target b p mid rest Hp Hv Ht H2) as (H4 & H5 & H6).
  by eexists c', _, mid, rest.
Qed.

(** [end] tells whether the entry at the cursor has the key. *)
Lemma end_is_key c mid rest k :
  Cursor.positioned c mid rest → (∀ e, e ∈ mid → before_key k (entry_key e) = true) →
  ∃ d, Cursor.end_ c = Some d ∧
    is_eq (MapKeyRef_cmp (Some k) d) =
      match head rest with Some e => Keyed.same_key (D := MapKey K) e (Some k) | None => false end.
Proof.
  intros Hc Hm. rewrite (Cursor.end_ok _ _ _ Hc). eexists. split; [done|].
  destruct rest as [|e rest]; cbn [head].
  - rewrite app_nil_r. destruct mid as [|z mid _] using rev_ind; [done|]. rewrite dim_snoc.
    specialize (Hm z). unfold before_key in Hm. cbn. rewrite (cmp_antisym compare (entry_key z)).
    destruct (compare (entry_key z) k); [|done..].
    assert (is_lt Eq = true) as Hx; [apply Hm; apply elem_of_app; right; left|done].
  - by rewrite dim_snoc, lookup_value.
Qed.

Lemma map_get_ok m l k : Keyed.fits m l → get m k = Some (value <$> lookup (Some k) l).
Proof.
  intros (h & Hw & Hc & _ & Hv). unfold get.
  destruct (TreeFind.find_found (D := MapKey K) (MapKeyRef_cmp (Some k)) Left m l)
    as (s & e & r & Hf & -> & _); [split; [by exists h|done]|done|].
  cbn [mbind option_bind]. f_equal.
  assert (∃ mid rest, l = mid ++ rest ∧ (snd <$> r) = head rest ∧
    Cursor.stopped (D := MapKey K) (MapKeyRef_cmp (Some k)) Left [] mid rest) as (mid & rest & -> & -> & Hs).
  { destruct Hf as [l1 x l2 (-> & H1 & H2)|H1].
    - exists l1, (x :: l2). split_and!; [done..|]. split; [exact H1|]. intros y [= <-]. exact H2.
    - exists l, []. split_and!; [by rewrite app_nil_r|done|]. split; [exact H1|done]. }
  destruct (stopped_cut _ Left (before_key k) mid rest (initial_before k) Hv (skips_before k) Hs) as (H1 & H2 & _).
  rewrite Keyed.lookup_app, Keyed.lookup_none.
  2: { intros x Hx E. injection E as E. specialize (H1 x Hx). unfold before_key in H1.
       by rewrite E, (cmp_refl compare) in H1. }
  destruct rest as [|y rest]; [done|]. cbn [head]. unfold Keyed.lookup. cbn [find].
  rewrite lookup_value. destruct (is_eq (compare k (entry_key y))) eqn:Ey; [done|].
  fold (lookup (Some k) rest). rewrite Keyed.lookup_none; [done|].
  intros x Hx E. injection E as E. specialize (H2 y (list_elem_of_here _ _)).
  apply Keyed.sorted_app in Hv as (_ & [_ Hv]%Keyed.sorted_cons & _). specialize (Hv x Hx).
  unfold before_key in H2. unfold Keyed.before in Hv. cbn in Hv. by rewrite <- E, Hv in H2.
Qed.

(** Taking out the entry at the cursor if it has the key. *)
Lemma take_entry c mid rest k t :
  Cursor.positioned c mid rest → represents t mid → valid (mid ++ rest) →
  (∀ e, e ∈ mid → before_key k (entry_key e) = true) → (∀ e, e ∈ rest → before_key k (entry_key e) = false) →
  ∃ d c' skipped, Cursor.end_ c = Some d ∧
    is_eq (MapKeyRef_cmp (Some k) d) = bool_decide (is_Some (lookup (Some k) (mid ++ rest))) ∧
    Cursor.item c = Some (head rest) ∧
    below (Some k) (mid ++ rest) = mid ∧
    match lookup (Some k) (mid ++ rest) with
    | Some e => head rest = Some e ∧ entry_key e = k ∧ Cursor.next c = Some c'
    | None => c' = c ∧ rest = above (Some k) (mid ++ rest)
    end ∧
    Cursor.positioned c' (mid ++ skipped) (above (Some k) (mid ++ rest)).
Proof.
  intros Hc Ht Hv Hm Hr. destruct (end_is_key c mid rest k Hc Hm) as (d & -> & Ed).
  destruct (Keyed.at_key_spec (D := MapKey K) mid rest (Some k) Hv)
    as [(e & rest' & -> & H1 & H2 & H3 & H4)|(H1 & H2 & H3 & H4)].
  - intros e He. apply (is_lt_true compare). by apply Hm.
  - intros e He%head_Some_elem_of E. specialize (Hr e He). unfold before_key in Hr. cbn in E.
    by rewrite E in Hr.
  - destruct (Cursor.next_ok _ _ _ _ Hc) as (c' & E & Hp). exists d, c', [e].
    rewrite H2, H3, H4, Ed, (Cursor.item_ok _ _ _ Hc). cbn [head]. rewrite H1.
    apply Keyed.same_key_true in H1. injection H1 as H1. by split_and!.
  - exists d, c, []. rewrite H2, H3, H4, Ed, (Cursor.item_ok _ _ _ Hc), app_nil_r.
    split_and!; try done. destruct (head rest) as [e|]; [|done]. by rewrite (H1 e).
Qed.

Lemma map_remove_ok m l k :
  Keyed.fits m l →
  ∃ m', remove m k = Some (m', value <$> lookup (Some k) l) ∧ represents m' (delete (Some k) l).
Proof.
  intros Hf. pose proof Hf as (h & _ & _ & _ & Hv). unfold remove.
  destruct (slice_cut m l (MapKeyRef_cmp (Some k)) Left (before_key k))
    as (c & t & mid & rest & -> & Ht & -> & Hc & _ & Hm & Hr);
    [done|apply initial_before|apply skips_before|done|]. cbn [mbind option_bind].
  destruct (take_entry c mid rest k t) as (d & c' & sk & -> & Ed & Ei & Hb & Hl & Hc'); [done..|].
  cbn [mbind option_bind]. rewrite Ed.
  destruct (Keyed.suffix_append c' (mid ++ sk) (above (Some k) (mid ++ rest)) t mid)
    as (c2 & s & m' & E1 & E2 & Hm'); [by left|done| |].
  { pose proof (Keyed.delete_valid (D := MapKey K) (Some k) _ Hv) as H. unfold Keyed.delete in H.
    by rewrite Hb in H. }
  unfold Keyed.delete. rewrite Hb.
  destruct (lookup (Some k) (mid ++ rest)) as [e|].
  - destruct Hl as (E & _ & En). cbn [bool_decide]. rewrite bool_decide_eq_true_2 by by exists e.
    rewrite Ei, E. cbn [mbind option_bind]. rewrite En. cbn [mbind option_bind].
    rewrite E1. cbn [mbind option_bind]. rewrite E2. by exists m'.
  - destruct Hl as [-> _]. rewrite bool_decide_eq_false_2 by (by intros [? ?]).
    cbn [mbind option_bind]. rewrite E1. cbn [mbind option_bind]. rewrite E2. by exists m'.
Qed.

Lemma update_ok {R} m l k (f : V → V * R) :
  Keyed.fits m l →
  ∃ m', update m k f = Some (m', (λ e, (f (value e)).2) <$> lookup (Some k) l) ∧
    represents m' match lookup (Some k) l with
                  | Some e => replace (mk_entry k (f (value e)).1) l | None => l end.
Proof.
  intros Hf. pose proof Hf as (h & _ & _ & _ & Hv). unfold update.
  destruct (slice_cut m l (MapKeyRef_cmp (Some k)) Left (before_key k))
    as (c & t & mid & rest & -> & Ht & -> & Hc & _ & Hm & Hr);
    [done|apply initial_before|apply skips_before|done|]. cbn [mbind option_bind].
  destruct (take_entry c mid rest k t) as (d & c' & sk & -> & Ed & Ei & Hb & Hl & Hc'); [done..|].
  cbn [mbind option_bind]. rewrite Ed.
  destruct (lookup (Some k) (mid ++ rest)) as [e|].
  - destruct Hl as (E & Ek & En). rewrite bool_decide_eq_true_2 by by exists e.
    rewrite Ei, E. cbn [mbind option_bind fmap option_fmap option_map]. rewrite Ek.
    destruct (f (value e)) as [v r]. cbn [fst snd].
    pose proof (Keyed.replace_valid (D := MapKey K) (mk_entry k v) _ Hv I) as Hv'.
    unfold Keyed.replace in *. cbn [key MapEntry_keyed entry_key] in *. rewrite Hb in *.
    destruct (represents_push t mid (mk_entry k v)) as (t2 & -> & Ht2);
      [done|by rewrite app_assoc in Hv'; apply valid_app in Hv' as [? _]|].
    cbn [mbind option_bind]. rewrite En. cbn [mbind option_bind].
    destruct (Keyed.suffix_append c' (mid ++ sk) (above (Some k) (mid ++ rest)) t2 (mid ++ [mk_entry k v]))
      as (c2 & s & m' & -> & E2 & Hm'); [by left|done|by rewrite <- app_assoc|].
    cbn [mbind option_bind]. rewrite E2. exists m'. by rewrite <- app_assoc in Hm'.
  - destruct Hl as [-> Er]. rewrite bool_decide_eq_false_2 by (by intros [? ?]).
    cbn [mbind option_bind fmap option_fmap option_map].
    destruct (Keyed.suffix_append c mid rest t mid) as (c2 & s & m' & -> & E2 & Hm'); [by left|done..|].
    cbn [mbind option_bind]. rewrite E2. by exists m'.
Qed.

Definition target_ok (f : K → comparison) : Prop := initial (λ k, is_gt (f k)).

Lemma remove_range_ok m l (start end_ : K → comparison) :
  Keyed.fits m l → target_ok start → target_ok end_ → (∀ k, start k = Gt → end_ k = Gt) →
  ∃ m' l', remove_range m start end_ = Some m' ∧ represents m' l' ∧ valid l' ∧
    l' = filter (λ e, is_gt (start (entry_key e)) || negb (is_gt (end_ (entry_key e))) = true) l.
Proof.
  intros Hf Hs He Hse. pose proof Hf as (h & _ & _ & _ & Hv). unfold remove_range.
  destruct (slice_cut m l (MapSeekTargetAdaptor start) Left (λ k, is_gt (start k)))
    as (c & t & mid & rest & -> & Ht & El & Hc & _ & Hm & Hr); [done|done|by intros k; cbn; destruct (start k)|done|].
  cbn [mbind option_bind].
  destruct (seek_cut c l mid rest (MapSeekTargetAdaptor end_) Left (λ k, is_gt (end_ k)))
    as (c2 & hit & mid2 & rest2 & -> & El2 & Hc2 & _ & Hm2 & Hr2);
    [by left|done|done|done|by intros k; cbn; destruct (end_ k)|done|].
  cbn [mbind option_bind].
  assert (∃ x, mid2 = mid ++ x ∧ rest = x ++ rest2) as (x & -> & ->).
  { assert (mid ++ rest = mid2 ++ rest2) as E by congruence.
    apply app_eq_inv in E as [(x & -> & ->)|(x & -> & ->)]; [|by exists x].
    destruct x as [|y x]; [exists []; by rewrite !app_nil_r|]. exfalso.
    specialize (Hr2 y (list_elem_of_here _ _)). cbn in Hr2.
    assert (is_gt (start (entry_key y)) = true) as Hy by (apply Hm, elem_of_app; right; left).
    rewrite Hse in Hr2; [done|]. by destruct (start (entry_key y)). }
  assert (mid ++ rest2 = filter (λ e, is_gt (start (entry_key e)) || negb (is_gt (end_ (entry_key e))) = true) l) as Ef.
  { rewrite El, !filter_app, (Keyed.filter_all _ mid), (Keyed.filter_none _ x), (Keyed.filter_all _ rest2); try done.
    - intros e Hin. by rewrite (Hr2 e), orb_true_r.
    - intros e Hin. rewrite (Hr e) by (apply elem_of_app; by left).
      by rewrite (Hm2 e) by (apply elem_of_app; by right).
    - intros e Hin. by rewrite (Hm e). }
  assert (valid (mid ++ rest2)) as Hv'.
  { rewrite Ef. by apply Keyed.sorted_filter. }
  destruct (Keyed.suffix_append c2 (mid ++ x) rest2 t mid) as (c3 & s & m' & -> & E2 & Hm');
    [by left|done..|].
  cbn [mbind option_bind]. by exists m', (mid ++ rest2).
Qed.

Lemma idle_item c l : Cursor.idle c l → Cursor.did_seek c = true → Cursor.item c = Some None.
Proof. intros [h ? ? ? ? Hs ? ?] Hd. unfold Cursor.item, Cursor.assert_did_seek. by rewrite Hd, Hs. Qed.
Lemma prev_did_seek c c' : Cursor.prev c = Some c' → Cursor.did_seek c' = true.
Proof.
  unfold Cursor.prev, Cursor.search_backward. intros H.
  repeat (apply bind_Some in H as ([? ?] & _ & H) || destruct p). by injection H as <-.
Qed.

Lemma closest_ok m l k :
  Keyed.fits m l →
  closest m k = Some ((λ e, (entry_key e, value e)) <$> list.last (cut (upto_key k) l).1).
Proof.
  intros Hf. pose proof Hf as (h & _ & _ & _ & Hv). unfold closest.
  destruct (seek_cut (Cursor.new m) l [] l (MapKeyRef_cmp (Some k)) Right (upto_key k))
    as (c & hit & mid & rest & -> & -> & Hc & -> & _ & _);
    [by apply Keyed.fits_ready|done|done|apply initial_upto|apply skips_upto|done|].
  cbn [mbind option_bind fst]. destruct (Cursor.prev_ok _ _ _ Hc) as (c' & E & H). rewrite E.
  cbn [mbind option_bind]. apply prev_did_seek in E. destruct H as [[-> Hi]|(b & y & -> & Hp)].
  - by rewrite (idle_item _ _ Hi E).
  - rewrite (Cursor.item_ok _ _ _ Hp), last_snoc. done.
Qed.

Lemma iter_from_ok m l k fuel :
  Keyed.fits m l → (length l < fuel)%nat →
  iter_from fuel m k = Some (map (λ e, (entry_key e, value e)) (cut (before_key k) l).2).
Proof.
  intros Hf Hl. pose proof Hf as (h & _ & _ & _ & Hv). unfold iter_from.
  destruct (seek_cut (Cursor.new m) l [] l (MapKeyRef_cmp (Some k)) Left (before_key k))
    as (c & hit & mid & rest & -> & -> & Hc & -> & _ & _);
    [by apply Keyed.fits_ready|done|done|apply initial_before|apply skips_before|done|].
  cbn [mbind option_bind snd]. rewrite length_app in Hl.
  rewrite (Iter.collect_cursor_ok c mid rest fuel Hc); [done|lia].
Qed.

Lemma retain_loop_ok (predicate : K → V → bool) fuel c t before rest done_ :
  Cursor.positioned c before rest → represents t done_ →
  valid (done_ ++ filter (λ e, predicate (entry_key e) (value e) = true) rest) → (length rest < fuel)%nat →
  ∃ m', retain_loop fuel predicate c t = Some m' ∧
    represents m' (done_ ++ filter (λ e, predicate (entry_key e) (value e) = true) rest).
Proof.
  revert c t before done_ fuel. induction rest as [|e rest IH]; intros c t before done_ [|fuel] Hc Ht Hv Hf;
    try lia; cbn [retain_loop]; rewrite (Cursor.item_ok _ _ _ Hc); cbn [mbind option_bind head].
  - exists t. by rewrite app_nil_r.
  - destruct (Cursor.next_ok _ _ _ _ Hc) as (c' & E & Hc'). cbn [length] in Hf.
    destruct (predicate (entry_key e) (value e)) eqn:Ep.
    + rewrite filter_cons_True in * by done.
      destruct (represents_push t done_ e) as (t2 & -> & Ht2); [done| |].
      { change (e :: ?x) with ([e] ++ x) in Hv. rewrite app_assoc in Hv. by apply valid_app in Hv as [? _]. }
      cbn [mbind option_bind]. rewrite E. cbn [mbind option_bind].
      destruct (IH c' t2 (before ++ [e]) (done_ ++ [e]) fuel) as (m' & Em & Hm');
        [done|done|by rewrite <- app_assoc|lia|]. exists m'. by rewrite <- app_assoc in Hm'.
    + rewrite filter_cons_False in * by by rewrite Ep.
      cbn [mbind option_bind]. rewrite E. cbn [mbind option_bind].
      by destruct (IH c' t (before ++ [e]) done_ fuel) as (m' & Em & Hm'); [..|lia|exists m'].
Qed.

Lemma retain_ok m l (predicate : K → V → bool) fuel :
  Keyed.fits m l → (length l < fuel)%nat →
  ∃ m', retain fuel m predicate = Some m' ∧
    represents m' (filter (λ e, predicate (entry_key e) (value e) = true) l).
Proof.
  intros Hf Hl. pose proof Hf as (h & Hw & Hc & Hh & Hv). unfold retain.
  destruct (Cursor.next_idle (Cursor.new m) l) as (c & -> & Hp).
  { apply Cursor.fresh_idle. by eapply Cursor.new_fresh. }
  cbn [mbind option_bind].
  destruct (retain_loop_ok predicate fuel c new [] l []) as (m' & E & Hm'); [done|apply represents_new| |done|].
  - by apply Keyed.sorted_filter.
  - by exists m'.
Qed.

Lemma iter_ok m l fuel :
  Keyed.fits m l → (length l < fuel)%nat → iter fuel m = Some (map (λ e, (entry_key e, value e)) l).
Proof.
  intros (h & Hw & Hc & Hh & _) Hl. unfold iter.
  rewrite (Iter.collect_ok m h Hw Hh (Iter.new m) l fuel); [done|by apply Iter.ahead_start|done].
Qed.
End correct.

Section contract.
Context {K V R : Type} `{!Ord K}.
Abbreviation entry := (MapEntry K V).
Abbreviation lookup := (Keyed.lookup (T := entry) (U := MapKey K) (D := MapKey K)).
Implicit Types (m : TreeMap K V) (l : list entry) (k : K) (v : V).

Lemma lookup_replace k k' v l :
  valid l → lookup (Some k') (Keyed.replace (D := MapKey K) (mk_entry k v) l)
    = if is_eq (compare k' k) then Some (mk_entry k v) else lookup (Some k') l.
Proof. exact (Keyed.lookup_edit (D := MapKey K) (Some k') (Keyed.Insert (mk_entry k v)) l). Qed.
Lemma lookup_delete k k' l :
  valid l → lookup (Some k') (Keyed.delete (D := MapKey K) (Some k) l)
    = if is_eq (compare k' k) then None else lookup (Some k') l.
Proof. exact (Keyed.lookup_edit (D := MapKey K) (Some k') (Keyed.Remove (Some k)) l). Qed.

(** C30: The map operations on a tree that holds the sorted entries [l]: none
    panics; [get] and [contains_key] look the key up; [insert_or_replace],
    [remove] and [update] return what the key had before, and afterwards the key
    has the new value (none, the result of the function) and every other key
    what it had. *)
Theorem map_correct m l k v (f : V → V * R) :
  Keyed.fits m l →
  get m k = Some (value <$> lookup (Some k) l) ∧
  contains_key m k = Some (bool_decide (is_Some (lookup (Some k) l))) ∧
  (∃ m' l', insert_or_replace m k v = Some (m', value <$> lookup (Some k) l) ∧
     represents m' l' ∧ valid l' ∧
     ∀ k', lookup (Some k') l' = if is_eq (compare k' k) then Some (mk_entry k v) else lookup (Some k') l) ∧
  (∃ m' l', remove m k = Some (m', value <$> lookup (Some k) l) ∧ represents m' l' ∧ valid l' ∧
     ∀ k', lookup (Some k') l' = if is_eq (compare k' k) then None else lookup (Some k') l) ∧
  (∃ m' l', update m k f = Some (m', (λ e, (f (value e)).2) <$> lookup (Some k) l) ∧
     represents m' l' ∧ valid l' ∧
     ∀ k', lookup (Some k') l' =
       if is_eq (compare k' k) then (λ e, mk_entry k (f (value e)).1) <$> lookup (Some k) l
       else lookup (Some k') l).
Proof.
  intros Hf. pose proof Hf as (h & _ & _ & _ & Hv). split_and!.
  - by apply map_get_ok.
  - unfold contains_key. rewrite (map_get_ok m l k Hf). cbn. f_equal.
    by destruct (lookup (Some k) l).
  - destruct (Keyed.insert_or_replace_ok (D := MapKey K) m l (mk_entry k v) Hf) as (m' & E & Hm'); [exact I|].
    eexists m', _. unfold insert_or_replace. rewrite E. split_and!; [done|done|by apply Keyed.replace_valid|].
    intros k'. by apply lookup_replace.
  - destruct (map_remove_ok m l k Hf) as (m' & E & Hm'). eexists m', _.
    split_and!; [done|done|by apply Keyed.delete_valid|].
    intros k'. by apply lookup_delete.
  - destruct (update_ok m l k f Hf) as (m' & E & Hm'). eexists m', _. split_and!; [done|done|..].
    + destruct (lookup (Some k) l); [by apply Keyed.replace_valid|done].
    + intros k'. destruct (lookup (Some k) l) as [e|] eqn:El.
      * by apply lookup_replace.
      * destruct (is_eq (compare k' k)) eqn:E'; [|done].
        assert (k' = k) as -> by (apply (cmp_eq_iff compare); by destruct (compare k' k)). done.
Qed.

(** The operations on ranges of keys: [closest] is the last entry with a key up
    to the given one, [iter_from] the entries from the key on, in order;
    [remove_range] keeps the entries below the start and from the end on (for a
    start that is not after the end); [retain] keeps what the predicate accepts;
    [iter] is every entry. None panics or runs forever. *)
Theorem range_correct m l k (start end_ : K → comparison) (predicate : K → V → bool) :
  Keyed.fits m l → target_ok start → target_ok end_ → (∀ k, start k = Gt → end_ k = Gt) →
  closest m k = Some ((λ e, (entry_key e, value e)) <$>
    list.last (filter (λ e, is_le (compare (entry_key e) k) = true) l)) ∧
  iter_from (S (length l)) m k = Some (map (λ e, (entry_key e, value e))
    (filter (λ e, is_lt (compare (entry_key e) k) = false) l)) ∧
  iter (S (length l)) m = Some (map (λ e, (entry_key e, value e)) l) ∧
  (∃ m', remove_range m start end_ = Some m' ∧
     represents m' (filter (λ e, is_gt (start (entry_key e)) || negb (is_gt (end_ (entry_key e))) = true) l)) ∧
  (∃ m', retain (S (length l)) m predicate = Some m' ∧
     represents m' (filter (λ e, predicate (entry_key e) (value e) = true) l)).
Proof.
  intros Hf Hs He Hse. split_and!.
  - by apply closest_ok.
  - apply iter_from_ok; [done|lia].
  - apply iter_ok; [done|lia].
  - destruct (remove_range_ok m l start end_ Hf Hs He Hse) as (m' & l' & E & Hm' & _ & ->). by exists m'.
  - apply retain_ok; [done|lia].
Qed.

(** A batch with the same key twice breaks the map: [extend] (and [insert_tree],
    [SumTree::edit] underneath) only compares each new entry with the old tree,
    so two inserts of one key both stay, the map then iterates over both, and
    [remove] of the key leaves one of them behind. *)
Theorem extend_duplicates k v w :
  ∃ m m', extend default [(k, v); (k, w)] = Some m ∧
    iter 3 m = Some [(k, v); (k, w)] ∧
    remove m k = Some (m', Some v) ∧ iter 2 m' = Some [(k, w)].
Proof.
  assert (extend default [(k, v); (k, w)]
    = Some (Leaf (Some k) [mk_entry k v; mk_entry k w] [Some k; Some k])) as E.
  { unfold extend, Keyed.edit_tree. cbn [map]. unfold Keyed.sort_edits.
    cbn [foldr Keyed.insert_sorted Keyed.edit_key key MapEntry_keyed kcmp entry_key option_compare].
    rewrite (cmp_refl compare). reflexivity. }
  eexists _, (Leaf (Some k) [mk_entry k w] [Some k]). split_and!; [done|reflexivity| |reflexivity].
  pose proof (cmp_refl compare k) as Ek. clear E. destruct Ord0 as [cmp total]. cbn in Ek.
  cbv. repeat (rewrite Ek; cbv beta iota). reflexivity.
Qed.
End contract.

Import Keyed.Example.
Lemma map_correct_witness :
  ∃ m m', SumTree.from_iter (squares 100) = Some m ∧
    update m 30 (λ v, (v + 1, v)) = Some (m', Some 225) ∧ contains_key m 31 = Some false.
Proof.
  destruct (fits_from 100) as (m & E & Hf); [by apply sorted_check|by vm_compute|].
  destruct (map_correct m (squares 100) 30 0 (λ v, (v + 1, v)) Hf)
    as (_ & _ & _ & _ & m' & l' & H & _).
  destruct (map_correct m (squares 100) 31 0 (λ v, (v + 1, v)) Hf) as (_ & H2 & _).
  exists m, m'. split_and!; [done|exact H|exact H2].
Defined.

Lemma range_correct_witness :
  ∃ m m', SumTree.from_iter (squares 50) = Some m ∧
    closest m 31 = Some (Some (30, 225)) ∧
    iter_from 51 m 95 = Some [(96, 48 * 48); (98, 49 * 49)] ∧
    remove_range m (Z.compare 10) (Z.compare 90) = Some m' ∧ SumTree.summary m' = Some 98.
Proof.
  destruct (fits_from 50) as (m & E & Hf); [by apply sorted_check|by vm_compute|].
  assert (∀ z, target_ok (Z.compare z)) as Ht.
  { intros z a b. cbn. rewrite Z.compare_lt_iff. intros Hab.
    destruct (Z.compare_spec z b), (Z.compare_spec z a); cbn; try done; lia. }
  destruct (range_correct m (squares 50) 31 (Z.compare 10) (Z.compare 90) (λ _ _, true) Hf)
    as (H1 & _ & _ & (m' & H3 & H4) & _); [apply Ht..| |].
  { intros k. rewrite !Z.compare_gt_iff. lia. }
  destruct (range_correct m (squares 50) 95 (Z.compare 10) (Z.compare 90) (λ _ _, true) Hf)
    as (_ & H2 & _); [apply Ht..| |].
  { intros k. rewrite !Z.compare_gt_iff. lia. }
  exists m, m'. split_and!; [done|exact H1|exact H2|exact H3|].
  rewrite (represents_summary _ _ H4). reflexivity.
Defined.
End TreeMap.
