(* ===== verification/UndoMap.v ===== *)
(** How often each edit was undone ([UndoMap] in [crates/text/src/undo_map.rs]):
    a tree of counts keyed by the edit and the undo operation. *)
From S2P Require Import Prelude Clock SumTree TreeFind Cursor Iter Keyed.

#[global] Instance lamport_countable : Countable Lamport.t.
Proof.
  by refine (inj_countable' (λ t, (Lamport.value t, ReplicaId.id (Lamport.replica_id t)))
    (λ p, Lamport.mk p.1 (ReplicaId.mk p.2)) _); intros [? [?]].
Defined.

(** [crates/text/src/text.rs:633-637] UndoOperation *)
Record UndoOperation := mk_undo {
  timestamp : Lamport.t; version : Global.t; counts : gmap Lamport.t Z;
}.

Module UndoMap.
Import SumTree.

(** [crates/text/src/undo_map.rs:28-32] UndoMapKey *)
Record UndoMapKey := mk_key { edit_id : Lamport.t; undo_id : Lamport.t }.
(** [crates/text/src/undo_map.rs:6-10] UndoMapEntry *)
Record UndoMapEntry := mk_entry { entry_key : UndoMapKey; undo_count : Z }.

(** The derived [Ord].
    [crates/text/src/undo_map.rs:28-32] Ord for UndoMapKey *)
Definition key_cmp (a b : UndoMapKey) : comparison :=
  then_with (Lamport.cmp (edit_id a) (edit_id b)) (Lamport.cmp (undo_id a) (undo_id b)).
#[export] Instance key_cmp_total : TotalCmp key_cmp.
Proof.
  apply (then_with_total edit_id undo_id Lamport.cmp Lamport.cmp); try apply _.
  intros [] []. cbn. congruence.
Qed.

(** [crates/text/src/undo_map.rs:34-45] Summary for UndoMapKey *)
#[export] Instance UndoMapKey_summary : Summary UndoMapKey :=
  { zero := mk_key Lamport.MIN Lamport.MIN; add_summary := λ self summary, cmp_max key_cmp self summary }.
(** [crates/text/src/undo_map.rs:12-18] Item for UndoMapEntry *)
#[export] Instance UndoMapEntry_item : Item UndoMapEntry UndoMapKey := { item_summary := entry_key }.
(** [crates/text/src/undo_map.rs:20-26] KeyedItem for UndoMapEntry *)
#[export] Instance UndoMapEntry_keyed : KeyedItem UndoMapEntry UndoMapKey UndoMapKey :=
  { key := entry_key; kcmp := key_cmp }.

(** [crates/text/src/undo_map.rs:47-48] UndoMap *)
Definition UndoMap : Type := node UndoMapEntry UndoMapKey.
Abbreviation cursor := (Cursor.t UndoMapEntry UndoMapKey UndoMapKey).

(** [crates/text/src/undo_map.rs:52-64] UndoMap::insert *)
Definition undo_edits (undo : UndoOperation) : list (Keyed.edit UndoMapEntry UndoMapKey) :=
  map (λ '(edit_id, count), Keyed.Insert (mk_entry (mk_key edit_id (timestamp undo)) count))
    (map_to_list (counts undo)).
(** [crates/text/src/undo_map.rs:51-66] UndoMap::insert *)
Definition insert (m : UndoMap) (undo : UndoOperation) : option UndoMap :=
  '(m, _) ← Keyed.edit_tree m (undo_edits undo); Some m.

(** The loop of [was_undone]; the one of [undo_count] counts every entry.
    [crates/text/src/undo_map.rs:81-90] UndoMap::was_undone *)
Fixpoint count_loop (fuel : nat) (observed : UndoMapEntry → bool) (id : Lamport.t) (cursor : cursor)
    (count : Z) : option Z :=
  match fuel with
  | O => None
  | S fuel =>
      '(cursor, entry) ← Cursor.iter_next cursor;
      match entry with
      | Some entry =>
          if bool_decide (edit_id (entry_key entry) ≠ id) then Some count
          else count_loop fuel observed id cursor
                 (if observed entry then Z.max count (undo_count entry) else count)
      | None => Some count
      end
  end.

(** [crates/text/src/undo_map.rs:95-114] UndoMap::undo_count *)
Definition count (fuel : nat) (m : UndoMap) (edit_id : Lamport.t) : option Z :=
  '(cursor, _) ← Cursor.seek (key_cmp (mk_key edit_id Lamport.MIN)) Left (Cursor.new m);
  count_loop fuel (λ _, true) edit_id cursor 0.
(** [crates/text/src/undo_map.rs:68-70] UndoMap::is_undone *)
Definition is_undone (fuel : nat) (m : UndoMap) (edit_id : Lamport.t) : option bool :=
  n ← count fuel m edit_id; Some (Z.rem n 2 =? 1).
(** [crates/text/src/undo_map.rs:71-93] UndoMap::was_undone *)
Definition was_undone (fuel : nat) (m : UndoMap) (edit_id : Lamport.t) (version : Global.t) : option bool :=
  '(cursor, _) ← Cursor.seek (key_cmp (mk_key edit_id Lamport.MIN)) Left (Cursor.new m);
  n ← count_loop fuel (λ e, Global.observed version (undo_id (entry_key e))) edit_id cursor 0;
  Some (Z.rem n 2 =? 1).

(** ** The laws of the tree: the largest key is the last one *)
Definition entry_ok (e : UndoMapEntry) : Prop :=
  Lamport.ok (edit_id (entry_key e)) ∧ Lamport.ok (undo_id (entry_key e)).

Lemma lamport_min t : Lamport.ok t → Lamport.cmp t Lamport.MIN ≠ Lt.
Proof.
  intros [H1 H2]. unfold Lamport.cmp, ReplicaId.cmp, ReplicaId.ok in *. cbn.
  destruct (Z.compare_spec (Lamport.value t) 0); cbn; [|width|done].
  rewrite Z.compare_lt_iff. width.
Qed.
Lemma zero_le e : entry_ok e → key_cmp (entry_key e) zero ≠ Lt.
Proof.
  intros [H1%lamport_min H2%lamport_min]. unfold key_cmp. cbn.
  by destruct (Lamport.cmp (edit_id (entry_key e)) Lamport.MIN).
Qed.

Lemma max_right a b : key_cmp a b ≠ Gt → cmp_max key_cmp a b = b.
Proof. unfold cmp_max. by destruct (key_cmp a b). Qed.
Lemma not_lt_gt a b : key_cmp a b ≠ Lt → key_cmp b a ≠ Gt.
Proof. intros H E. by apply H, (cmp_gt_lt key_cmp). Qed.

Lemma max_either a b : cmp_max key_cmp a b = a ∨ cmp_max key_cmp a b = b.
Proof. unfold cmp_max. destruct (key_cmp a b); auto. Qed.

Implicit Types (l k : list UndoMapEntry) (e : UndoMapEntry).
Lemma measure_max l e : measure (l ++ [e]) = cmp_max key_cmp (measure l) (entry_key e).
Proof. unfold measure, sum. by rewrite map_app, foldl_app. Qed.

Lemma measure_le l e :
  entry_ok e → (∀ x, x ∈ l → key_cmp (entry_key x) (entry_key e) ≠ Gt) →
  key_cmp (measure l) (entry_key e) ≠ Gt.
Proof.
  intros He. induction l as [|x l IH] using rev_ind; intros Hl.
  - by apply not_lt_gt, zero_le.
  - rewrite measure_max. destruct (max_either (measure l) (entry_key x)) as [-> | ->].
    + apply IH. intros y Hy. apply Hl, elem_of_app. by left.
    + apply Hl, elem_of_app. right. left.
Qed.

(** The entries of a map. *)
Definition ok l : Prop := Keyed.sorted (D := UndoMapKey) l ∧ Forall entry_ok l.

Lemma undo_ok_app l k : ok (l ++ k) → ok l ∧ ok k.
Proof. intros [(H1 & H2 & _)%Keyed.sorted_app [H3 H4]%Forall_app]. done. Qed.
Lemma ok_last l k e : ok (l ++ k ++ [e]) → entry_ok e ∧ ∀ x, x ∈ l → key_cmp (entry_key x) (entry_key e) ≠ Gt.
Proof.
  intros [(_ & _ & H)%Keyed.sorted_app Ho]. rewrite !Forall_app in Ho.
  destruct Ho as (_ & _ & [Ho _]%Forall_cons). split; [done|]. intros x Hx.
  specialize (H x e Hx). cbn in H. rewrite H; [done|]. apply elem_of_app. right. left.
Qed.
Lemma undo_measure_snoc l e : ok (l ++ [e]) → measure (l ++ [e]) = entry_key e.
Proof.
  intros H. destruct (ok_last l [] e H) as [He Hl]. rewrite measure_max.
  apply max_right. by apply measure_le.
Qed.

#[export, program] Instance UndoMapEntry_laws : SummaryLaws UndoMapEntry UndoMapKey := {| valid := ok |}.
Next Obligation. exact undo_ok_app. Qed.
Next Obligation.
  intros l k Hk Hv. destruct k as [|e k _] using rev_ind; [done|].
  pose proof (proj2 (undo_ok_app _ _ Hv)) as Hv2. rewrite (undo_measure_snoc k e Hv2).
  destruct (ok_last l k e Hv) as [He Hl]. rewrite app_assoc in *. rewrite undo_measure_snoc by done.
  symmetry. apply max_right. by apply measure_le.
Qed.
Next Obligation. intros e He. by apply (undo_measure_snoc [] e). Qed.

Lemma zero_add l : ok l → add_summary zero (measure l) = measure l.
Proof.
  intros Hv. destruct l as [|e l _] using rev_ind; [done|]. rewrite undo_measure_snoc by done.
  apply max_right, not_lt_gt, zero_le. by destruct (ok_last l [] e Hv).
Qed.
#[export] Instance UndoMapKey_zero : DimensionZero UndoMapKey UndoMapKey.
Proof. done. Qed.
#[export] Instance UndoMapKey_dimension_laws : DimensionLaws UndoMapKey UndoMapEntry UndoMapKey.
Proof.
  split. intros l k Hk Hv. rewrite <- !(dim_measure UndoMapKey (T := UndoMapEntry)). destruct (undo_ok_app _ _ Hv) as [H1 H2].
  cbn [dadd dzero summary_dimension]. rewrite !zero_add by done. by rewrite measure_app.
Qed.

#[export, program] Instance UndoMapEntry_keyed_laws :
  Keyed.KeyedLaws UndoMapEntry UndoMapKey UndoMapKey := {| Keyed.item_ok := entry_ok |}.
Next Obligation. done. Qed.
Next Obligation. intros l e Hv. rewrite <- (dim_measure UndoMapKey (T := UndoMapEntry)). cbn [dadd dzero summary_dimension]. by rewrite zero_add, undo_measure_snoc. Qed.
Next Obligation. done. Qed.
Next Obligation. exact zero_le. Qed.

(** ** What is counted *)
(** The largest count of the entries of an edit that are observed. *)
Definition undos (observed : UndoMapEntry → bool) (id : Lamport.t) l : Z :=
  foldr (λ e n, if bool_decide (edit_id (entry_key e) = id) && observed e then Z.max n (undo_count e) else n) 0 l.

Lemma undos_cons observed id e l :
  undos observed id (e :: l) =
  if bool_decide (edit_id (entry_key e) = id) && observed e
  then Z.max (undos observed id l) (undo_count e) else undos observed id l.
Proof. done. Qed.
Lemma undos_nonneg observed id l : 0 ≤ undos observed id l.
Proof. induction l as [|e l IH]; [done|]. rewrite undos_cons. destruct (_ && _); lia. Qed.
Lemma undos_app observed id l k :
  undos observed id (l ++ k) = Z.max (undos observed id l) (undos observed id k).
Proof.
  induction l as [|e l IH].
  - cbn [app]. pose proof (undos_nonneg observed id k). cbn [undos foldr]. lia.
  - cbn [app]. rewrite !undos_cons, IH. destruct (_ && _); lia.
Qed.
#[export] Instance undos_perm observed id : Proper (Permutation ==> eq) (undos observed id).
Proof.
  intros l k H. induction H as [|e l k H IH|e f l|l k m H1 IH1 H2 IH2]; try congruence.
  - by rewrite !undos_cons, IH.
  - rewrite !undos_cons. destruct (bool_decide (edit_id (entry_key e) = id) && _), (_ && _); lia.
Qed.
Lemma undos_other observed id l :
  (∀ e, e ∈ l → edit_id (entry_key e) ≠ id) → undos observed id l = 0.
Proof.
  induction l as [|e l IH]; intros Hl; [done|]. rewrite undos_cons, bool_decide_eq_false_2.
  - apply IH. intros x Hx. apply Hl. by right.
  - apply Hl. left.
Qed.

(** ** Counting *)
Lemma count_loop_ok observed id (c : cursor) before after n fuel :
  Cursor.positioned c before after → (length after < fuel)%nat → 0 ≤ n →
  (∀ e, e ∈ after → Lamport.cmp (edit_id (entry_key e)) id ≠ Lt) →
  Keyed.sorted (D := UndoMapKey) after →
  count_loop fuel observed id c n = Some (Z.max n (undos observed id after)).
Proof.
  revert c before n fuel. induction after as [|e after IH]; intros c before n [|fuel] Hc Hf Hn Hge Hs; try lia;
    destruct (Iter.cursor_next_ok c _ _ Hc) as (c' & E & Hc'); cbn [count_loop]; rewrite E;
    cbn [mbind option_bind head].
  - cbn. f_equal. lia.
  - apply Keyed.sorted_cons in Hs as [Hs He]. rewrite undos_cons. cbn [length] in Hf.
    destruct (decide (edit_id (entry_key e) = id)) as [Hid|Hid].
    + rewrite bool_decide_eq_false_2 by tauto. rewrite (bool_decide_eq_true_2 _ Hid). cbn [andb].
      rewrite (IH c' _ _ fuel Hc'); [|lia| |intros x Hx; apply Hge; by right|done].
      * f_equal. destruct (observed e); lia.
      * destruct (observed e); lia.
    + rewrite bool_decide_eq_true_2, (bool_decide_eq_false_2 _ Hid) by done. cbn [andb].
      rewrite undos_other; [f_equal; lia|]. intros x Hx Hx'. specialize (He x Hx).
      cbn in He. unfold key_cmp, then_with in He. rewrite Hx' in He. apply (Hge e); [left|].
      destruct (Lamport.cmp (edit_id (entry_key e)) id) eqn:E'; [|done..].
      by apply (cmp_eq_iff Lamport.cmp) in E'.
Qed.

Lemma key_lt_min e id :
  entry_ok e → key_cmp (entry_key e) (mk_key id Lamport.MIN) = Lt ↔ Lamport.cmp (edit_id (entry_key e)) id = Lt.
Proof.
  intros [_ H%lamport_min]. unfold key_cmp, then_with. cbn.
  destruct (Lamport.cmp (edit_id (entry_key e)) id); done.
Qed.

Lemma seek_id m l id :
  Keyed.fits m l → Lamport.ok id →
  ∃ c hit before after,
    Cursor.seek (key_cmp (mk_key id Lamport.MIN)) Left (Cursor.new m) = Some (c, hit) ∧
    l = before ++ after ∧ Cursor.positioned c before after ∧ Keyed.sorted (D := UndoMapKey) after ∧
    (∀ e, e ∈ before → edit_id (entry_key e) ≠ id) ∧
    (∀ e, e ∈ after → Lamport.cmp (edit_id (entry_key e)) id ≠ Lt).
Proof.
  intros Hf Hid. pose proof Hf as (h & _ & _ & _ & Hv).
  destruct (Cursor.seek_ok (key_cmp (mk_key id Lamport.MIN)) Left (Cursor.new m) [] l)
    as (c & mid & rest & E & El & Hst & Hc); [by apply Keyed.fits_ready| |].
  { change (key_cmp (mk_key id Lamport.MIN) zero ≠ Lt).
    apply (zero_le (UndoMap.mk_entry (mk_key id Lamport.MIN) 0)). by split; [|split; closed_arith]. }
  cbn [app] in El. subst l. eexists c, _, mid, rest. split; [done|].
  destruct (Keyed.stopped_key (D := UndoMapKey) (mk_key id Lamport.MIN) [] mid rest) as [H1 H2];
    [done|by intros ? ?%elem_of_nil|done|].
  destruct Hv as [Hs Ho]. apply Keyed.sorted_app in Hs as (Hs1 & Hs2 & Hs3).
  apply Forall_app in Ho as [Ho1 Ho2]. rewrite Forall_forall in Ho1, Ho2. split_and!; try done.
  - intros e He Hid'. specialize (H1 e He). cbn in H1. apply key_lt_min in H1; [|by apply Ho1].
    rewrite Hid' in H1. by apply (cmp_lt_irrefl Lamport.cmp) in H1.
  - destruct rest as [|x rest]; [by intros ? ?%elem_of_nil|]. specialize (H2 x eq_refl). cbn in H2.
    rewrite (key_lt_min x id) in H2 by (apply Ho2; left). apply Keyed.sorted_cons in Hs2 as [_ Hx].
    intros e [->|He]%elem_of_cons; [done|]. intros E'. specialize (Hx e He). cbn in Hx. apply H2.
    unfold key_cmp, then_with in Hx. destruct (Lamport.cmp (edit_id (entry_key x)) (edit_id (entry_key e))) eqn:Ex; try done.
    + apply (cmp_eq_iff Lamport.cmp) in Ex. by rewrite Ex.
    + by eapply (cmp_lt_trans Lamport.cmp).
Qed.

Lemma count_from observed m l id fuel :
  Keyed.fits m l → Lamport.ok id → (length l < fuel)%nat →
  ∃ c hit, Cursor.seek (key_cmp (mk_key id Lamport.MIN)) Left (Cursor.new m) = Some (c, hit) ∧
    count_loop fuel observed id c 0 = Some (undos observed id l).
Proof.
  intros Hf Hid Hl. destruct (seek_id m l id Hf Hid) as (c & hit & before & after & E & -> & Hc & Hs & H1 & H2).
  exists c, hit. split; [done|]. rewrite length_app in Hl.
  rewrite (count_loop_ok observed id c before after 0 fuel Hc); [|lia|lia|done|done].
  rewrite undos_app, (undos_other observed id before H1). pose proof (undos_nonneg observed id after). f_equal; lia.
Qed.

(** ** Inserting an undo operation *)
Definition entries (undo : UndoOperation) : list UndoMapEntry :=
  map (λ '(id, n), mk_entry (mk_key id (timestamp undo)) n) (map_to_list (counts undo)).
Definition undo_ok (undo : UndoOperation) : Prop :=
  Lamport.ok (timestamp undo) ∧ ∀ id n, counts undo !! id = Some n → Lamport.ok id ∧ 0 ≤ n.

Lemma entries_ok undo : undo_ok undo → Forall entry_ok (entries undo).
Proof.
  intros [Ht Hc]. apply Forall_forall. intros e He. apply list_elem_of_fmap in He as ([id n] & -> & He).
  apply elem_of_map_to_list, Hc in He as [? _]. done.
Qed.
Lemma entries_keys undo : NoDup (map entry_key (entries undo)).
Proof.
  unfold entries. rewrite map_map. pose proof (NoDup_fst_map_to_list (counts undo)) as H.
  induction (map_to_list (counts undo)) as [|[id n] l IH]; cbn; [constructor|].
  cbn in H. apply NoDup_cons in H as [H1 H2]. constructor; [|by apply IH].
  intros Hin. apply H1. apply list_elem_of_fmap in Hin as ([id' n'] & Heq & Hin). injection Heq as ->.
  apply list_elem_of_fmap. by exists (id', n').
Qed.
Lemma undos_entries observed id undo :
  (∀ id n, counts undo !! id = Some n → 0 ≤ n) → (∀ e, e ∈ entries undo → observed e = true) →
  undos observed id (entries undo) = default 0 (counts undo !! id).
Proof.
  intros Hc Ho. destruct (counts undo !! id) as [n|] eqn:E; cbn [default].
  - apply elem_of_map_to_list in E as Hin. specialize (Hc id n E).
    apply elem_of_Permutation in Hin as [k Hk]. unfold entries in *.
    assert (observed (mk_entry (mk_key id (timestamp undo)) n) = true) as Hob.
    { apply Ho. rewrite Hk. left. }
    pose proof (NoDup_fst_map_to_list (counts undo)) as Hnd. rewrite Hk in *. cbn in Hnd.
    cbn [map] in *. rewrite undos_cons. cbn [edit_id entry_key]. rewrite bool_decide_eq_true_2, Hob by done.
    cbn. rewrite undos_other; [lia|]. intros e He. apply NoDup_cons in Hnd as [Hnd _].
    apply list_elem_of_fmap in He as ([id' n'] & -> & He). cbn. intros ->. apply Hnd.
    apply list_elem_of_fmap. by exists (id, n').
  - apply undos_other. intros e He. apply list_elem_of_fmap in He as ([id' n'] & -> & He). cbn. intros ->.
    apply elem_of_map_to_list in He. congruence.
Qed.

Lemma undo_edits_inserted undo : omap Keyed.inserted (undo_edits undo) = entries undo.
Proof.
  unfold undo_edits, entries. induction (map_to_list (counts undo)) as [|[id n] l IH]; [done|].
  cbn. by rewrite <- IH.
Qed.
Lemma undo_edits_keys undo : map Keyed.edit_key (undo_edits undo) = map entry_key (entries undo).
Proof. unfold undo_edits, entries. rewrite !map_map. apply map_ext. by intros []. Qed.
Lemma undo_edits_ok undo : undo_ok undo → Forall (Keyed.edit_ok (T := UndoMapEntry)) (undo_edits undo).
Proof.
  intros [Ht Hc]. apply Forall_forall. intros e He. apply list_elem_of_fmap in He as ([id n] & -> & He).
  apply elem_of_map_to_list, Hc in He as [? _]. done.
Qed.

(** The undo operation was not inserted before. *)
Definition new_undo undo l : Prop := ∀ e, e ∈ l → undo_id (entry_key e) ≠ timestamp undo.

Lemma insert_ok m l undo :
  Keyed.fits m l → undo_ok undo → new_undo undo l →
  ∃ m' l', insert m undo = Some m' ∧ represents m' l' ∧ ok l' ∧ l' ≡ₚ entries undo ++ l.
Proof.
  intros Hf Hu Hnew. pose proof Hf as (h & _ & _ & _ & Hv).
  assert (NoDup (map (Keyed.edit_key (U := UndoMapKey)) (undo_edits undo))) as Hnd.
  { rewrite undo_edits_keys. apply entries_keys. }
  destruct (Keyed.edit_tree_ok m l (undo_edits undo)) as (m' & E & Hm' & Hv'); [done..|by apply undo_edits_ok|].
  eexists m', _. unfold insert. rewrite E. split_and!; [done|exact Hm'|exact Hv'|].
  rewrite (Keyed.apply_edits_fresh (D := UndoMapKey) _ l Hv).
  - rewrite (Keyed.sort_edits_perm (undo_edits undo)), undo_edits_inserted. done.
  - rewrite Keyed.sort_edits_perm. by apply undo_edits_ok.
  - by rewrite Keyed.sort_edits_perm.
  - intros e He. rewrite Keyed.sort_edits_perm in He.
    apply list_elem_of_fmap in He as ([id n] & -> & _). apply Keyed.lookup_none.
    intros x Hx Hk. apply (Hnew x Hx). cbn in Hk. by rewrite Hk.
Qed.

(** Counting: the cursor of [undo_count] and [was_undone] starts at the first
    entry of the edit and stops behind the last one, so they give the largest
    count of the edit's entries ([was_undone]: of those the version has
    observed), and [is_undone], [was_undone] whether it is odd. *)
Theorem undo_count_correct m l id version :
  Keyed.fits m l → Lamport.ok id →
  let fuel := S (length l) in
  let seen e := Global.observed version (undo_id (entry_key e)) in
  count fuel m id = Some (undos (λ _, true) id l) ∧
  is_undone fuel m id = Some (Z.odd (undos (λ _, true) id l)) ∧
  was_undone fuel m id version = Some (Z.odd (undos seen id l)).
Proof.
  intros Hf Hid fuel seen.
  assert (∀ n, 0 ≤ n → (Z.rem n 2 =? 1) = Z.odd n) as Hodd.
  { intros n Hn. rewrite Z.rem_mod_nonneg, Zmod_odd by lia. by destruct (Z.odd n). }
  assert (count fuel m id = Some (undos (λ _, true) id l)) as Hc.
  { destruct (count_from (λ _, true) m l id fuel Hf Hid) as (c & hit & E & H); [unfold fuel; lia|].
    unfold count. rewrite E. exact H. }
  split_and!; [done| |].
  - unfold is_undone. rewrite Hc. cbn. by rewrite Hodd by apply undos_nonneg.
  - destruct (count_from seen m l id fuel Hf Hid) as (c & hit & E & H); [unfold fuel; lia|].
    unfold was_undone. rewrite E. cbn [mbind option_bind]. fold seen. rewrite H. cbn.
    by rewrite Hodd by apply undos_nonneg.
Qed.

(** Inserting a new undo operation: every edit it names then counts the larger
    of its old count and the operation's, and a version that has not observed
    the operation counts as before. *)
Theorem undo_insert_correct m l undo version :
  Keyed.fits m l → undo_ok undo → new_undo undo l →
  let seen e := Global.observed version (undo_id (entry_key e)) in
  ∃ m' l', insert m undo = Some m' ∧ represents m' l' ∧ ok l' ∧
    (∀ id, undos (λ _, true) id l' = Z.max (default 0 (counts undo !! id)) (undos (λ _, true) id l)) ∧
    (∀ id, undos seen id l' =
      if Global.observed version (timestamp undo)
      then Z.max (default 0 (counts undo !! id)) (undos seen id l) else undos seen id l).
Proof.
  intros Hf Hu Hnew seen. destruct (insert_ok m l undo Hf Hu Hnew) as (m' & l' & E & Hm' & Hl' & Hp).
  exists m', l'. destruct Hu as [_ Hc]. split_and!; [done..| |].
  - intros id. rewrite Hp, undos_app, undos_entries; [done|by intros; eapply Hc|done].
  - intros id. rewrite Hp, undos_app. destruct (Global.observed version (timestamp undo)) eqn:Eo.
    + rewrite undos_entries; [done|by intros; eapply Hc|].
      intros e He. by apply list_elem_of_fmap in He as ([? ?] & -> & _).
    + assert (undos seen id (entries undo) = 0) as ->; [|pose proof (undos_nonneg seen id l); lia].
      assert (∀ e, e ∈ entries undo → seen e = false) as Hs.
      { intros e He. by apply list_elem_of_fmap in He as ([? ?] & -> & _). }
      clear -Hs. induction (entries undo) as [|e k IH]; [done|].
      rewrite undos_cons, (Hs e) by left. rewrite andb_false_r. apply IH. intros x Hx. apply Hs. by right.
Qed.

(** Replicas that receive two undo operations in different orders end with the
    same entries, so with the same counts. *)
Theorem undo_insert_commutes m l u1 u2 m1 l1 m2 l2 :
  Keyed.fits m l → undo_ok u1 → undo_ok u2 → timestamp u1 ≠ timestamp u2 →
  new_undo u1 l → new_undo u2 l →
  insert m u1 = Some m1 → Keyed.fits m1 l1 → insert m u2 = Some m2 → Keyed.fits m2 l2 →
  ∃ m12 m21 l', insert m1 u2 = Some m12 ∧ insert m2 u1 = Some m21 ∧
    represents m12 l' ∧ represents m21 l'.
Proof.
  intros Hf H1 H2 Hne N1 N2 E1 F1 E2 F2.
  destruct (insert_ok m l u1 Hf H1 N1) as (? & k1 & E1' & [_ R1] & _ & P1).
  destruct (insert_ok m l u2 Hf H2 N2) as (? & k2 & E2' & [_ R2] & _ & P2).
  rewrite E1 in E1'. injection E1' as <-. rewrite E2 in E2'. injection E2' as <-.
  assert (l1 = k1) as -> by (destruct F1 as (? & _ & <- & _); done).
  assert (l2 = k2) as -> by (destruct F2 as (? & _ & <- & _); done).
  assert (∀ u v k, new_undo u l → timestamp u ≠ timestamp v → k ≡ₚ entries v ++ l → new_undo u k) as Hnew.
  { intros u v k Hn Huv Hk e He. rewrite Hk in He. apply elem_of_app in He as [He|He]; [|by apply Hn].
    apply list_elem_of_fmap in He as ([? ?] & -> & _). cbn. congruence. }
  destruct (insert_ok m1 k1 u2 F1 H2) as (m12 & l12 & -> & R12 & [S12 _] & P12); [by eapply (Hnew u2 u1)|].
  destruct (insert_ok m2 k2 u1 F2 H1) as (m21 & l21 & -> & R21 & [S21 _] & P21); [by eapply (Hnew u1 u2)|].
  assert (l12 = l21) as ->.
  { apply (Keyed.sorted_perm_unique (D := UndoMapKey)); [done..|]. rewrite P12, P21, P1, P2. solve_Permutation. }
  by exists m12, m21, l21.
Qed.

(** ** Concrete maps *)
Definition ts (v r : Z) : Lamport.t := Lamport.mk v (ReplicaId.mk r).
Definition undo1 : UndoOperation := mk_undo (ts 5 1) Global.new {[ts 1 0 := 1; ts 2 0 := 1]}.
Definition undo2 : UndoOperation := mk_undo (ts 6 2) Global.new {[ts 1 0 := 2]}.

Lemma undo_check undo :
  bool_decide (0 ≤ Lamport.value (timestamp undo) < 2 ^ 32 ∧
               0 ≤ ReplicaId.id (Lamport.replica_id (timestamp undo)) < 2 ^ 16) = true →
  bool_decide (Forall (λ p, (0 ≤ Lamport.value p.1 < 2 ^ 32 ∧
    0 ≤ ReplicaId.id (Lamport.replica_id p.1) < 2 ^ 16) ∧ 0 ≤ p.2) (map_to_list (counts undo))) = true →
  undo_ok undo.
Proof.
  intros H1%bool_decide_eq_true H2%bool_decide_eq_true. split; [exact H1|].
  intros id n Hn. apply elem_of_map_to_list in Hn. by apply (proj1 (Forall_forall _ _) H2 (id, n)).
Qed.
Lemma fits_new : Keyed.fits (new : UndoMap) [].
Proof.
  exists 0%nat. split_and!; [apply new_ok|done|unfold Cursor.stack_capacity; lia|].
  split; [apply Keyed.sorted_nil|by apply Forall_nil].
Qed.
(** Trees of one leaf fit. *)
Lemma fits_leaf (m : UndoMap) l : represents m l → ok l → height m = 0%nat → Keyed.fits m l.
Proof.
  intros [[h Hw] Hc] Hv Hh. exists h. split_and!; [done..| |done].
  rewrite <- (wf_height h m Hw), Hh. unfold Cursor.stack_capacity. lia.
Qed.

Lemma undo_count_correct_witness :
  ∃ m, insert new undo1 = Some m ∧ count 3 m (ts 2 0) = Some 1 ∧ is_undone 3 m (ts 2 0) = Some true ∧
    was_undone 3 m (ts 2 0) Global.new = Some false.
Proof.
  destruct (insert_ok new [] undo1 fits_new) as (m & l & E & Hm & Hl & Hp);
    [by apply undo_check; vm_compute|by intros ? ?%elem_of_nil|].
  exists m. split; [done|].
  assert (Keyed.fits m l) as Hf.
  { apply fits_leaf; [done..|]. vm_compute in E. by injection E as <-. }
  assert (length l = 2%nat) as Hn by by rewrite Hp.
  destruct (undo_count_correct m l (ts 2 0) Global.new Hf) as (H1 & H2 & H3); [split; closed_arith|].
  rewrite Hn in *. rewrite H1, H2, H3, !Hp. by vm_compute.
Defined.

Lemma undo_insert_correct_witness :
  ∃ m l', insert new undo1 = Some m ∧ represents m l' ∧ undos (λ _, true) (ts 1 0) l' = 1.
Proof.
  destruct (undo_insert_correct new [] undo1 Global.new fits_new) as (m & l & E & Hm & Hl & H & _);
    [by apply undo_check; vm_compute|by intros ? ?%elem_of_nil|].
  exists m, l. split_and!; [done..|]. by rewrite H.
Defined.

Lemma undo_insert_commutes_witness :
  ∃ m1 m2 m12 m21 l', insert new undo1 = Some m1 ∧ insert new undo2 = Some m2 ∧
    insert m1 undo2 = Some m12 ∧ insert m2 undo1 = Some m21 ∧ contents m12 = l' ∧ contents m21 = l'.
Proof.
  assert (undo_ok undo1) as H1 by by apply undo_check; vm_compute.
  assert (undo_ok undo2) as H2 by by apply undo_check; vm_compute.
  destruct (insert_ok new [] undo1 fits_new) as (m1 & l1 & E1 & R1 & O1 & _); [done|by intros ? ?%elem_of_nil|].
  destruct (insert_ok new [] undo2 fits_new) as (m2 & l2 & E2 & R2 & O2 & _); [done|by intros ? ?%elem_of_nil|].
  destruct (undo_insert_commutes new [] undo1 undo2 m1 l1 m2 l2) as (m12 & m21 & l' & E12 & E21 & [_ C12] & [_ C21]);
    [apply fits_new|done|done|done|by intros ? ?%elem_of_nil|by intros ? ?%elem_of_nil|done| |done| |].
  - apply fits_leaf; [done..|]. vm_compute in E1. by injection E1 as <-.
  - apply fits_leaf; [done..|]. vm_compute in E2. by injection E2 as <-.
  - by exists m1, m2, m12, m21, l'.
Defined.
End UndoMap.
