(* ===== verification/OperationQueue.v ===== *)
(** Deferred operations ([OperationQueue] in
    [crates/text/src/operation_queue.rs]): a tree of operations sorted by
    timestamp. Adding summaries asserts that the timestamps grow, so a summary
    is an [option] here and [None] is a failed assertion; that the tree has a
    summary shows that none failed. *)
From S2P Require Import Prelude Clock SumTree TreeFind Cursor Iter Keyed.

(** [crates/text/src/operation_queue.rs:5-7] Operation *)
Class Operation (T : Type) := { lamport_timestamp : T → Lamport.t }.
#[export] Instance Lamport_ord : Ord Lamport.t := { compare := Lamport.cmp }.

Module OperationQueue.
Import SumTree.

(** [crates/text/src/operation_queue.rs:15-16] OperationKey *)
Definition OperationKey : Type := Lamport.t.
(** [crates/text/src/operation_queue.rs:18-22] OperationSummary *)
Record OperationSummary := mk_summary { key : OperationKey; len : Z }.

(** [crates/text/src/operation_queue.rs:79-83] OperationSummary::add_summary *)
Definition summary_add (self other : OperationSummary) : option OperationSummary :=
  if is_lt (Lamport.cmp (key self) (key other)) then Some (mk_summary (key other) (len self +w64 len other))
  else None.
(** [crates/text/src/operation_queue.rs:71-84] Summary for OperationSummary *)
#[export] Instance OperationSummary_summary : Summary (option OperationSummary) := {
  zero := Some (mk_summary Lamport.MIN 0);
  add_summary := λ self other, self ← self; other ← other; summary_add self other;
}.
(** [crates/text/src/operation_queue.rs:98-107] Dimension for OperationKey *)
#[export] Instance OperationKey_dimension : Dimension (option OperationKey) (option OperationSummary) := {
  dzero := Some Lamport.MIN;
  dadd := λ self summary,
    self ← self; summary ← summary;
    if is_le (Lamport.cmp self (key summary)) then Some (key summary) else None;
}.

Section queue.
Context {T : Type} `{!Operation T}.
(** [crates/text/src/operation_queue.rs:9-10] OperationItem *)
Record OperationItem := mk_item { op : T }.
Definition timestamp (i : OperationItem) : Lamport.t := lamport_timestamp (op i).

(** [crates/text/src/operation_queue.rs:109-118] Item for OperationItem *)
#[export] Instance OperationItem_item : Item OperationItem (option OperationSummary) :=
  { item_summary := λ i, Some (mk_summary (timestamp i) 1) }.
(** [crates/text/src/operation_queue.rs:120-126] KeyedItem for OperationItem *)
#[export] Instance OperationItem_keyed :
  KeyedItem OperationItem (option OperationSummary) (option OperationKey) :=
  { key := λ i, Some (timestamp i); kcmp := option_compare (K := Lamport.t) }.

(** [crates/text/src/operation_queue.rs:12-13] OperationQueue *)
Definition OperationQueue : Type := node OperationItem (option OperationSummary).
(** [crates/text/src/operation_queue.rs:30-39] OperationQueue::new *)
Definition new : OperationQueue := SumTree.new.
(** [None] would be a failed assertion.
    [crates/text/src/operation_queue.rs:41-43] OperationQueue::len *)
Definition queue_len (q : OperationQueue) : option Z := s ← summary q; Some (len s).
(** [crates/text/src/operation_queue.rs:45-47] OperationQueue::is_empty *)
Definition is_empty (q : OperationQueue) : option bool := n ← queue_len q; Some (n =? 0).

(** [sort_unstable_by_key]: the order of equal timestamps is not specified. *)
Fixpoint insert_sorted (x : T) (ops : list T) : list T :=
  match ops with
  | [] => [x]
  | y :: ops' =>
      if is_le (Lamport.cmp (lamport_timestamp x) (lamport_timestamp y)) then x :: ops
      else y :: insert_sorted x ops'
  end.
Definition sort_by_timestamp (ops : list T) : list T := foldr insert_sorted [] ops.
(** [dedup_by_key]: of consecutive elements with one key the first stays. *)
Fixpoint dedup_from (prev : T) (ops : list T) : list T :=
  match ops with
  | [] => []
  | x :: ops =>
      if bool_decide (lamport_timestamp x = lamport_timestamp prev) then dedup_from prev ops
      else x :: dedup_from x ops
  end.
Definition dedup_by_timestamp (ops : list T) : list T :=
  match ops with [] => [] | x :: ops => x :: dedup_from x ops end.

(** [crates/text/src/operation_queue.rs:49-58] OperationQueue::insert *)
Definition insert (q : OperationQueue) (ops : list T) : option OperationQueue :=
  let ops := dedup_by_timestamp (sort_by_timestamp ops) in
  '(q, _) ← Keyed.edit_tree (T := OperationItem) (D := option OperationKey) q
    (map (λ op, Keyed.Insert (mk_item op)) ops);
  Some q.
(** The queue that is left and the one returned.
    [crates/text/src/operation_queue.rs:60-64] OperationQueue::drain *)
Definition drain (q : OperationQueue) : OperationQueue * OperationQueue := (SumTree.new, q).
(** [crates/text/src/operation_queue.rs:66-68] OperationQueue::iter *)
Definition iter (fuel : nat) (q : OperationQueue) : option (list T) :=
  l ← Iter.collect fuel (Iter.new q); Some (map op l).
End queue.
Arguments OperationItem : clear implicits.
Arguments OperationQueue : clear implicits.

(** ** The laws of the tree *)
Section laws.
Context {T : Type} `{!Operation T}.
Abbreviation item := (OperationItem T).
Implicit Types (l k : list item) (x : item).
Abbreviation sorted := (Keyed.sorted (T := item) (U := option OperationSummary) (D := option OperationKey)).

(** Every operation has a timestamp above [Lamport::MIN]: clocks start at one. *)
Definition item_ok x : Prop := Lamport.cmp Lamport.MIN (timestamp x) = Lt.
Definition ok l : Prop := sorted l ∧ Forall item_ok l.

Definition last_key l : Lamport.t := default Lamport.MIN (timestamp <$> list.last l).
Definition total l : OperationSummary := mk_summary (last_key l) (wrap64 (Z.of_nat (length l))).

Lemma queue_ok_app l k : ok (l ++ k) → ok l ∧ ok k.
Proof. intros [(H1 & H2 & _)%Keyed.sorted_app [H3 H4]%Forall_app]. done. Qed.

Lemma last_key_lt l k x : ok (l ++ k ++ [x]) → Lamport.cmp (last_key l) (timestamp x) = Lt.
Proof.
  intros [(_ & _ & H)%Keyed.sorted_app Ho]. unfold last_key.
  destruct l as [|y l _] using rev_ind; cbn [list.last fmap option_fmap option_map default].
  - apply Forall_app in Ho as [_ Ho]. apply Forall_app in Ho as [_ Ho]. by apply Forall_cons in Ho as [? _].
  - rewrite last_snoc. cbn. apply (H y x); apply elem_of_app; right; left.
Qed.
Lemma last_key_snoc l x : last_key (l ++ [x]) = timestamp x.
Proof. unfold last_key. by rewrite last_snoc. Qed.

Lemma wrap64_plus a b : wrap64 (wrap64 a + wrap64 b) = wrap64 (a + b).
Proof. unfold wrap64. symmetry. apply Zplus_mod. Qed.

Lemma measure_total l : ok l → measure l = Some (total l).
Proof.
  induction l as [|x l IH] using rev_ind; intros Hv; [done|].
  pose proof (proj1 (queue_ok_app _ _ Hv)) as Hl. unfold measure, sum in *. rewrite map_app, foldl_app, IH by done.
  cbn. unfold summary_add. cbn [key total]. rewrite (last_key_lt l [] x Hv). cbn [is_lt].
  unfold total. rewrite last_key_snoc, length_app, Nat2Z.inj_add. cbn [length len].
  change 1 with (wrap64 1). by rewrite wrap64_plus.
Qed.

#[export, program] Instance OperationItem_laws : SummaryLaws item (option OperationSummary) := {| valid := ok |}.
Next Obligation. exact queue_ok_app. Qed.
Next Obligation.
  intros l k Hk Hv. destruct (queue_ok_app _ _ Hv) as [Hl Hk']. rewrite !measure_total by done.
  destruct k as [|x k _] using rev_ind; [done|]. cbn. unfold summary_add. cbn [key total].
  rewrite last_key_snoc, (last_key_lt l k x Hv). cbn [is_lt]. unfold total.
  rewrite app_assoc, last_key_snoc, !length_app, !Nat2Z.inj_add. cbn [len].
  by rewrite wrap64_plus, Z.add_assoc.
Qed.
Next Obligation. intros x Hv. by rewrite measure_total. Qed.

#[export] Instance OperationKey_zero : DimensionZero (option OperationKey) (option OperationSummary).
Proof. done. Qed.
Lemma dim_last l : ok l → dim (option OperationKey) l = Some (last_key l).
Proof.
  intros Hv. rewrite <- (dim_measure (option OperationKey) (T := item)). rewrite measure_total by done. cbn [dadd dzero OperationKey_dimension mbind option_bind].
  cbn [key total]. destruct l as [|x l _] using rev_ind; [done|].
  rewrite last_key_snoc. pose proof (last_key_lt [] l x Hv) as E. cbn in E. by rewrite E.
Qed.
#[export] Instance OperationKey_laws : DimensionLaws (option OperationKey) item (option OperationSummary).
Proof.
  split. intros l k Hk Hv. destruct (queue_ok_app _ _ Hv) as [Hl Hk'].
  rewrite !dim_last, measure_total by done. destruct k as [|x k _] using rev_ind; [done|].
  cbn [dadd OperationKey_dimension mbind option_bind key total].
  rewrite app_assoc, !last_key_snoc, (last_key_lt l k x Hv). done.
Qed.

#[export, program] Instance OperationItem_keyed_laws :
  Keyed.KeyedLaws item (option OperationSummary) (option OperationKey) := {| Keyed.item_ok := item_ok |}.
Next Obligation. done. Qed.
Next Obligation. intros l x Hv. by rewrite dim_last, last_key_snoc. Qed.
Next Obligation. done. Qed.
Next Obligation.
  intros x Hx. cbn. unfold item_ok in Hx. rewrite (cmp_antisym Lamport.cmp Lamport.MIN), Hx. done.
Qed.
End laws.

(** ** Inserting operations *)
Section correct.
Context {T : Type} `{!Operation T}.
Abbreviation item := (OperationItem T).
Abbreviation sorted := (Keyed.sorted (T := item) (U := option OperationSummary) (D := option OperationKey)).
Abbreviation lookup := (Keyed.lookup (T := item) (U := option OperationSummary) (D := option OperationKey)).
Implicit Types (l k : list item) (ops : list T) (x y : T) (q : OperationQueue T) (t : Lamport.t).
Abbreviation ts := (lamport_timestamp (T := T)).

Definition weakly_sorted ops : Prop := StronglySorted (λ x y, Lamport.cmp (ts x) (ts y) ≠ Gt) ops.
Definition strictly_sorted ops : Prop := StronglySorted (λ x y, Lamport.cmp (ts x) (ts y) = Lt) ops.

Lemma insert_op_perm x ops : insert_sorted x ops ≡ₚ x :: ops.
Proof. induction ops as [|y ops IH]; cbn; [done|]. destruct (is_le _); [done|]. rewrite IH. constructor. Qed.
Lemma sort_perm ops : sort_by_timestamp ops ≡ₚ ops.
Proof. induction ops as [|x ops IH]; cbn; [done|]. by rewrite insert_op_perm, IH. Qed.

Lemma insert_op_sorted x ops : weakly_sorted ops → weakly_sorted (insert_sorted x ops).
Proof.
  induction ops as [|y ops IH]; intros Hs; [repeat constructor|].
  apply StronglySorted_inv in Hs as Hs'. destruct Hs' as [Hs' Hy]. cbn.
  destruct (Lamport.cmp (ts x) (ts y)) eqn:E; cbn [is_le].
  1-2: constructor; [done|]; constructor; [by rewrite E|]; eapply Forall_impl; [exact Hy|];
    intros z Hz; eapply (cmp_le_trans Lamport.cmp); [|exact Hz]; by rewrite E.
  constructor; [by apply IH|]. rewrite insert_op_perm. constructor; [|done].
  apply (cmp_gt_lt Lamport.cmp) in E. by rewrite E.
Qed.
Lemma sort_sorted ops : weakly_sorted (sort_by_timestamp ops).
Proof. induction ops as [|x ops IH]; cbn; [constructor|]. by apply insert_op_sorted. Qed.

Lemma dedup_from_sorted p ops :
  weakly_sorted (p :: ops) → strictly_sorted (p :: dedup_from p ops) ∧
  (∀ x, x ∈ dedup_from p ops → x ∈ ops) ∧
  (∀ x, x ∈ ops → ∃ y, y ∈ p :: dedup_from p ops ∧ ts y = ts x).
Proof.
  revert p. induction ops as [|x ops IH]; intros p Hs.
  - split_and!; [repeat constructor|done|by intros ? ?%elem_of_nil].
  - apply StronglySorted_inv in Hs as [Hs Hp]. apply Forall_cons in Hp as [Hpx Hp]. cbn [dedup_from].
    destruct (decide (ts x = ts p)) as [E|E].
    + rewrite bool_decide_eq_true_2 by done. apply StronglySorted_inv in Hs as [Hs _].
      destruct (IH p) as (H1 & H2 & H3); [by constructor|]. split_and!; [done|intros z Hz; right; by apply H2|].
      intros z [->|Hz]%elem_of_cons; [exists p; split; [left|done]|by apply H3].
    + rewrite bool_decide_eq_false_2 by done. destruct (IH x Hs) as (H1 & H2 & H3). split_and!.
      * apply StronglySorted_inv in H1 as H1'. destruct H1' as [_ Hx].
        assert (Lamport.cmp (ts p) (ts x) = Lt) as Hlt.
        { destruct (Lamport.cmp (ts p) (ts x)) eqn:E'; [|done..]. apply (cmp_eq_iff Lamport.cmp) in E'. congruence. }
        constructor; [done|]. constructor; [done|]. eapply Forall_impl; [exact Hx|].
        intros z Hz. by eapply (cmp_lt_trans Lamport.cmp).
      * intros z [->|Hz]%elem_of_cons; [left|right; by apply H2].
      * intros z [->|Hz]%elem_of_cons; [exists x; split; [right; left|done]|].
        destruct (H3 z Hz) as (y & Hy & Ey). exists y. split; [by right|done].
Qed.

Lemma strictly_sorted_nodup ops : strictly_sorted ops → NoDup (map ts ops).
Proof.
  induction ops as [|x ops IH]; intros Hs; cbn; [constructor|].
  apply StronglySorted_inv in Hs as [Hs Hx]. constructor; [|by apply IH].
  intros (y & Ey & Hy)%list_elem_of_fmap. apply (proj1 (Forall_forall _ _) Hx) in Hy.
  rewrite Ey in Hy. by apply (cmp_lt_irrefl Lamport.cmp) in Hy.
Qed.

Lemma dedup_ok ops :
  weakly_sorted ops →
  NoDup (map ts (dedup_by_timestamp ops)) ∧ (∀ x, x ∈ dedup_by_timestamp ops → x ∈ ops) ∧
  (∀ x, x ∈ ops → ∃ y, y ∈ dedup_by_timestamp ops ∧ ts y = ts x).
Proof.
  intros Hs. destruct ops as [|x k].
  - split_and!; [constructor|done|by intros ? ?%elem_of_nil].
  - destruct (dedup_from_sorted x k Hs) as (H1 & H2 & H3). cbn [dedup_by_timestamp]. split_and!.
    + by apply strictly_sorted_nodup.
    + intros z [->|Hz]%elem_of_cons; [left|right; by apply H2].
    + intros z [->|Hz]%elem_of_cons; [exists x; split; [left|done]|by apply H3].
Qed.
(** Sorting and removing duplicates: one operation per timestamp. *)
Lemma dedup_sort_ok ops :
  NoDup (map ts (dedup_by_timestamp (sort_by_timestamp ops))) ∧
  (∀ x, x ∈ dedup_by_timestamp (sort_by_timestamp ops) → x ∈ ops) ∧
  (∀ t, t ∈ map ts (dedup_by_timestamp (sort_by_timestamp ops)) ↔ t ∈ map ts ops).
Proof.
  destruct (dedup_ok _ (sort_sorted ops)) as (H1 & H2 & H3). split_and!; [done|..].
  - intros x Hx. rewrite <- (sort_perm ops). by apply H2.
  - intros t. rewrite !list_elem_of_fmap. split; intros (x & -> & Hx).
    + exists x. split; [done|]. rewrite <- (sort_perm ops). by apply H2.
    + rewrite <- (sort_perm ops) in Hx. destruct (H3 x Hx) as (y & Hy & E). by exists y.
Qed.

Lemma lookup_op l i : sorted l → i ∈ l → lookup (Some (timestamp i)) l = Some i.
Proof. exact (Keyed.lookup_elem (D := option OperationKey) l i). Qed.

Lemma queue_insert_ok q l ops :
  Keyed.fits q l → Forall (λ x, item_ok (mk_item x)) ops →
  ∃ q' l', insert q ops = Some q' ∧ represents q' l' ∧ ok l' ∧
    (∀ x, x ∈ dedup_by_timestamp (sort_by_timestamp ops) → lookup (Some (ts x)) l' = Some (mk_item x)) ∧
    (∀ t, t ∉ map ts ops → lookup (Some t) l' = lookup (Some t) l).
Proof.
  intros Hf Ho. unfold insert. destruct (dedup_sort_ok ops) as (Hnd & Hin & Hts).
  set (d := dedup_by_timestamp (sort_by_timestamp ops)) in *.
  set (es := map (λ op, Keyed.Insert (mk_item op)) d : list (Keyed.edit item (option OperationKey))).
  assert (map (Keyed.edit_key (U := option OperationSummary)) es = map Some (map ts d)) as Ek.
  { unfold es. rewrite !map_map. done. }
  destruct (Keyed.edit_tree_spec q l es Hf) as (q' & l' & r & E & Hq & Hv' & H1 & H2 & _).
  { rewrite Ek. apply (NoDup_fmap_2 Some). exact Hnd. }
  { apply Forall_forall. intros e (x & -> & Hx)%list_elem_of_fmap. cbn.
    apply (proj1 (Forall_forall _ _) Ho), Hin, Hx. }
  exists q', l'. rewrite E. split_and!; [done|done|done| |].
  - intros x Hx. apply (H1 (Keyed.Insert (mk_item x))). apply list_elem_of_fmap. by exists x.
  - intros t Ht. apply H2. rewrite Ek. intros (t' & [= <-] & Ht')%list_elem_of_fmap. by apply Ht, Hts.
Qed.

(** Where the operations of the queue come from. *)
Lemma insert_from l l' ops i :
  sorted l' →
  (∀ x, x ∈ dedup_by_timestamp (sort_by_timestamp ops) → lookup (Some (ts x)) l' = Some (mk_item x)) →
  (∀ t, t ∉ map ts ops → lookup (Some t) l' = lookup (Some t) l) →
  i ∈ l' → op i ∈ ops ∨ i ∈ l ∧ timestamp i ∉ map ts ops.
Proof.
  intros Hs' Hnew Hold Hi. destruct (dedup_sort_ok ops) as (_ & Hin & Hts).
  assert (lookup (Some (timestamp i)) l' = Some i) as Ei by by apply lookup_op.
  destruct (decide (timestamp i ∈ map ts ops)) as [Ht|Ht].
  - left. apply Hts in Ht. apply list_elem_of_fmap in Ht as (y & Ey & Hy).
    rewrite Ey, (Hnew y Hy) in Ei. injection Ei as <-. by apply Hin.
  - right. split; [|done]. apply (Keyed.lookup_Some (Some (timestamp i)) l). by rewrite <- Hold.
Qed.

Lemma queue_insert_runs q l ops :
  Keyed.fits q l → Forall (λ x, item_ok (mk_item x)) ops →
  ∃ q' l', insert q ops = Some q' ∧ represents q' l' ∧ ok l' ∧
    StronglySorted (λ i j, Lamport.cmp (timestamp i) (timestamp j) = Lt) l' ∧
    queue_len q' = Some (wrap64 (Z.of_nat (length l'))) ∧
    (∀ t, t ∈ map timestamp l' ↔ t ∈ map ts ops ∨ t ∈ map timestamp l) ∧
    (∀ x, mk_item x ∈ l' → x ∈ ops ∨ mk_item x ∈ l ∧ ts x ∉ map ts ops) ∧
    (∀ fuel h, wf h q' → (h < Cursor.stack_capacity)%nat → (length l' < fuel)%nat →
       iter fuel q' = Some (map op l')) ∧
    drain q' = (new, q').
Proof.
  intros Hf Ho. destruct (dedup_sort_ok ops) as (_ & _ & Hts). pose proof Hf as (h & _ & _ & _ & [Hs _]).
  destruct (queue_insert_ok q l ops Hf Ho) as (q' & l' & E & Hq & Hv' & Hnew & Hold). pose proof Hv' as [Hs' _].
  exists q', l'. split_and!; [done|done|done|done|..|done].
  - unfold queue_len. rewrite (represents_summary _ _ Hq), measure_total by done. done.
  - intros t. split.
    + intros (i & -> & Hi)%list_elem_of_fmap.
      destruct (insert_from l l' ops i Hs' Hnew Hold Hi) as [Hi'|[Hi' _]]; [left|right];
        apply list_elem_of_fmap; [by exists (op i)|by exists i].
    + intros Ht. assert (∃ i, lookup (Some t) l' = Some i ∧ timestamp i = t) as (i & Hi & <-).
      { destruct (decide (t ∈ map ts ops)) as [Ht'|Ht'].
        - apply Hts, list_elem_of_fmap in Ht' as (x & -> & Hx). exists (mk_item x). by rewrite (Hnew x).
        - destruct Ht as [Ht|Ht]; [done|]. apply list_elem_of_fmap in Ht as (i & -> & Hi).
          exists i. by rewrite Hold, lookup_op. }
      apply list_elem_of_fmap. exists i. split; [done|]. by apply (Keyed.lookup_Some (Some (timestamp i)) l').
  - intros x Hx. by apply (insert_from l l' ops (mk_item x)).
  - intros fuel h' Hw Hh Hl. destruct Hq as [_ <-]. unfold iter.
    rewrite (Iter.collect_ok q' h' Hw Hh (Iter.new q') (contents q') fuel); [done|by apply Iter.ahead_start|done].
Qed.

(** Inserting operations into the queue, in any order and with repetitions: no
    assertion on the order of timestamps fails ([len] is defined and counts the
    operations); the queue then has exactly one operation for every timestamp
    it had or was given, one of the given ones where there is one, and [iter]
    yields them by increasing timestamp. [drain] empties the queue. *)
Theorem queue_insert_correct q l ops :
  Keyed.fits q l → Forall (λ x, item_ok (mk_item x)) ops →
  ∃ q' l', insert q ops = Some q' ∧ represents q' l' ∧
    StronglySorted (λ i j, Lamport.cmp (timestamp i) (timestamp j) = Lt) l' ∧
    queue_len q' = Some (wrap64 (Z.of_nat (length l'))) ∧
    (∀ t, t ∈ map timestamp l' ↔ t ∈ map ts ops ∨ t ∈ map timestamp l) ∧
    (∀ x, mk_item x ∈ l' → x ∈ ops ∨ mk_item x ∈ l ∧ ts x ∉ map ts ops) ∧
    (∀ fuel h, wf h q' → (h < Cursor.stack_capacity)%nat → (length l' < fuel)%nat →
       iter fuel q' = Some (map op l')) ∧
    drain q' = (new, q').
Proof.
  intros Hf Ho. destruct (queue_insert_runs q l ops Hf Ho) as (q' & l' & H1 & H2 & _ & H). by exists q', l'.
Qed.
End correct.

(** ** A concrete queue *)
#[local] Instance Lamport_operation : Operation Lamport.t := { lamport_timestamp := λ t, t }.
Definition at_time (v r : Z) : Lamport.t := Lamport.mk v (ReplicaId.mk r).

Lemma queue_insert_correct_witness :
  ∃ q, insert (T := Lamport.t) new [at_time 5 1; at_time 2 0; at_time 5 1; at_time 5 0] = Some q ∧
    queue_len q = Some 3 ∧ iter 4 q = Some [at_time 2 0; at_time 5 0; at_time 5 1].
Proof.
  destruct (queue_insert_correct (T := Lamport.t) new []
    [at_time 5 1; at_time 2 0; at_time 5 1; at_time 5 0])
    as (q & l & E & Hq & _ & Hn & _ & _ & Hi & _).
  - exists 0%nat. split_and!; [apply new_ok|done|unfold Cursor.stack_capacity; lia|].
    split; [apply Keyed.sorted_nil|by apply Forall_nil].
  - by repeat (apply Forall_cons_2; [vm_compute; reflexivity|]); apply Forall_nil.
  - exists q. split; [done|]. destruct Hq as [_ Hc].
    vm_compute in E. injection E as <-. vm_compute in Hc. subst l.
    split; [exact Hn|]. apply (Hi 4%nat 0%nat); [|unfold Cursor.stack_capacity; lia|cbn; lia].
    split_and!; [cbn; lia|done|by vm_compute].
Defined.
End OperationQueue.
