(* ===== verification/Bitmap.v ===== *)
(** Machine words as bit masks: the operations of [u64] and [u128] that the
    chunks of the rope use, masks as lists of bits, and the search for the
    n-th set bit ([nth_set_bit] in [crates/rope/src/chunk.rs]), which is
    branchless arithmetic on packed counts. *)
From S2P Require Import Prelude.

Module Bitmap.
(** ** Operations of unsigned integers of [w] bits *)

Fixpoint count_ones (w : nat) (x : Z) : Z :=
  match w with
  | O => 0
  | S w => Z.b2z (Z.odd x) + count_ones w (Z.div2 x)
  end.
Fixpoint trailing_zeros (w : nat) (x : Z) : Z :=
  match w with
  | O => 0
  | S w => if Z.odd x then 0 else 1 + trailing_zeros w (Z.div2 x)
  end.
Definition leading_zeros (w : nat) (x : Z) : Z :=
  if x =? 0 then Z.of_nat w else Z.of_nat w - 1 - Z.log2 x.
Fixpoint reverse_bits (w : nat) (x : Z) : Z :=
  match w with
  | O => 0
  | S w => Z.b2z (Z.odd x) * 2 ^ Z.of_nat w + reverse_bits w (Z.div2 x)
  end.
(** [!x] *)
Definition not (w x : Z) : Z := 2 ^ w - 1 - x.
(** [x << n] and [x >> n]: a release build reduces the distance modulo the width. *)
Definition shl (w x n : Z) : Z := Z.shiftl x (n mod w) mod 2 ^ w.
Definition shr (w x n : Z) : Z := Z.shiftr x (n mod w).
Definition unbounded_shl (w x n : Z) : Z := if n <? w then Z.shiftl x n mod 2 ^ w else 0.
Definition unbounded_shr (w x n : Z) : Z := if n <? w then Z.shiftr x n else 0.
Definition wrapping_sub (w x y : Z) : Z := (x - y) mod 2 ^ w.

(** The release build, and every build but the unit tests of the crate.
    [crates/rope/src/chunk.rs:8-9] Bitmap *)
Definition BITS : nat := 128.
Definition MAX : Z := 2 ^ 128 - 1.

(** ** Masks as lists of bits, the lowest first *)

Fixpoint of_bits (bs : list bool) : Z :=
  match bs with [] => 0 | b :: bs => Z.b2z b + 2 * of_bits bs end.
(** The number of set bits. *)
Fixpoint ones (bs : list bool) : Z :=
  match bs with [] => 0 | b :: bs => Z.b2z b + ones bs end.

Lemma of_bits_bound bs : 0 ≤ of_bits bs < 2 ^ Z.of_nat (length bs).
Proof.
  induction bs as [|b bs IH]; [done|]. cbn [of_bits length].
  rewrite Nat2Z.inj_succ, Z.pow_succ_r by lia. destruct b; cbn [Z.b2z]; lia.
Qed.
Lemma odd_of_bits b bs : Z.odd (of_bits (b :: bs)) = b.
Proof. cbn [of_bits]. rewrite Z.odd_add_mul_2. by destruct b. Qed.
Lemma div2_of_bits b bs : Z.div2 (of_bits (b :: bs)) = of_bits bs.
Proof.
  cbn [of_bits]. rewrite Z.div2_div. symmetry. apply (Z.div_unique _ _ _ (Z.b2z b)); [|lia].
  left. destruct b; simpl; lia.
Qed.
Lemma of_bits_app a b : of_bits (a ++ b) = of_bits a + 2 ^ Z.of_nat (length a) * of_bits b.
Proof.
  induction a as [|x a IH]; [cbn; lia|]. cbn [of_bits length app]. rewrite IH.
  rewrite Nat2Z.inj_succ, Z.pow_succ_r by lia. lia.
Qed.
Lemma of_bits_false n : of_bits (replicate n false) = 0.
Proof. induction n as [|n IH]; [done|]. cbn. by rewrite IH. Qed.
Lemma of_bits_pad bs n : of_bits (bs ++ replicate n false) = of_bits bs.
Proof. rewrite of_bits_app, of_bits_false. lia. Qed.
Lemma of_bits_take_drop n bs :
  of_bits bs = of_bits (take n bs) + 2 ^ Z.of_nat n * of_bits (drop n bs).
Proof.
  destruct (decide (n ≤ length bs)%nat) as [H|H].
  - rewrite <- (take_drop n bs) at 1. rewrite of_bits_app, length_take, Nat.min_l by done. done.
  - rewrite take_ge, drop_ge by lia. cbn [of_bits]. lia.
Qed.
Lemma take_bound n bs : 0 ≤ of_bits (take n bs) < 2 ^ Z.of_nat n.
Proof.
  pose proof (of_bits_bound (take n bs)) as [H1 H2]. split; [done|].
  eapply Z.lt_le_trans; [exact H2|]. apply Z.pow_le_mono_r; [lia|].
  rewrite length_take. lia.
Qed.
Lemma land_ones_bits bs n : Z.land (of_bits bs) (Z.ones (Z.of_nat n)) = of_bits (take n bs).
Proof.
  rewrite Z.land_ones by lia. rewrite (of_bits_take_drop n bs).
  pose proof (take_bound n bs). rewrite Z.mul_comm, Z.mod_add by lia. by apply Z.mod_small.
Qed.
Lemma shiftr_bits bs n : Z.shiftr (of_bits bs) (Z.of_nat n) = of_bits (drop n bs).
Proof.
  rewrite Z.shiftr_div_pow2 by lia. rewrite (of_bits_take_drop n bs).
  pose proof (take_bound n bs). rewrite Z.mul_comm, Z.div_add by lia.
  rewrite Z.div_small by done. lia.
Qed.
Lemma lor_shiftl_bits a b :
  Z.lor (of_bits a) (Z.shiftl (of_bits b) (Z.of_nat (length a))) = of_bits (a ++ b).
Proof.
  rewrite Z.lor_comm, lor_shiftl_add, of_bits_app; [lia|lia|apply of_bits_bound].
Qed.
Lemma testbit_bits bs n : Z.testbit (of_bits bs) (Z.of_nat n) = nth n bs false.
Proof.
  rewrite Z.testbit_odd, shiftr_bits. revert n.
  induction bs as [|b bs IH]; intros [|n]; [done..|apply odd_of_bits|]. apply IH.
Qed.

Lemma ones_app a b : ones (a ++ b) = ones a + ones b.
Proof. induction a; simpl; lia. Qed.
Lemma ones_bounds bs : 0 ≤ ones bs ≤ Z.of_nat (length bs).
Proof. induction bs as [|[] bs IH]; simpl length; cbn [ones Z.b2z]; lia. Qed.
Lemma ones_false n : ones (replicate n false) = 0.
Proof. by induction n. Qed.
Lemma ones_reverse bs : ones (reverse bs) = ones bs.
Proof. induction bs; [done|]. rewrite reverse_cons, ones_app, IHbs. cbn. lia. Qed.

Lemma count_ones_bits w bs : (length bs ≤ w)%nat → count_ones w (of_bits bs) = ones bs.
Proof.
  revert bs. induction w as [|w IH]; intros [|b bs] Hl; cbn [length] in *; [done|lia| |].
  - specialize (IH [] ltac:(simpl; lia)). cbn in *. lia.
  - cbn [count_ones]. rewrite odd_of_bits, div2_of_bits, IH by lia. done.
Qed.
Lemma trailing_zeros_zero w : trailing_zeros w 0 = Z.of_nat w.
Proof. induction w as [|w IH]; [done|]. cbn -[Z.of_nat] in *. lia. Qed.
Lemma trailing_zeros_bits w n bs :
  (n < w)%nat → trailing_zeros w (of_bits (replicate n false ++ true :: bs)) = Z.of_nat n.
Proof.
  revert w. induction n as [|n IH]; intros [|w] Hn; [lia| |lia|]; cbn [trailing_zeros replicate app].
  - by rewrite odd_of_bits.
  - rewrite odd_of_bits, div2_of_bits, IH by lia. lia.
Qed.
Lemma leading_zeros_zero w : leading_zeros w 0 = Z.of_nat w.
Proof. done. Qed.
Lemma leading_zeros_bits w a n :
  leading_zeros w (of_bits (a ++ true :: replicate n false)) = Z.of_nat w - 1 - Z.of_nat (length a).
Proof.
  rewrite of_bits_app. cbn [of_bits]. rewrite of_bits_false. cbn [Z.b2z].
  pose proof (of_bits_bound a). unfold leading_zeros.
  rewrite (proj2 (Z.eqb_neq _ _)) by lia. f_equal.
  apply Z.log2_unique; [lia|]. rewrite Z.pow_succ_r by lia. lia.
Qed.
Lemma reverse_bits_bits w bs : length bs = w → reverse_bits w (of_bits bs) = of_bits (reverse bs).
Proof.
  revert bs. induction w as [|w IH]; intros [|b bs] Hl; [done..|]. injection Hl as Hl.
  cbn [reverse_bits]. rewrite odd_of_bits, div2_of_bits, IH by done.
  rewrite reverse_cons, of_bits_app, length_reverse, Hl. cbn [of_bits]. lia.
Qed.

(** ** The n-th set bit *)

(** The five halvings of the search: [t] counts the set bits of the upper half
    of the block that ends at [s]. *)
Definition select (t s n k : Z) : Z * Z :=
  (s -w64 Z.shiftr (Z.land (t -w64 n) 256) k, n -w64 Z.land t (Z.shiftr (t -w64 n) 8)).

(** [crates/rope/src/chunk.rs:783-819] nth_set_bit_u64 *)
Definition nth_set_bit_u64 (v n : Z) : Z :=
  let v := reverse_bits 64 v in
  let s := 64 in
  let a := v -w64 Z.land (Z.shiftr v 1) (u64_MAX / 3) in
  let b := Z.land a (u64_MAX / 5) +w64 Z.land (Z.shiftr a 2) (u64_MAX / 5) in
  let c := Z.land (b +w64 Z.shiftr b 4) (u64_MAX / 0x11) in
  let d := Z.land (c +w64 Z.shiftr c 8) (u64_MAX / 0x101) in
  let t := Z.shiftr d 32 +w64 Z.shiftr d 48 in
  let '(s, n) := select t s n 3 in
  let t := Z.land (shr 64 d (s -w64 16)) 0xff in
  let '(s, n) := select t s n 4 in
  let t := Z.land (shr 64 c (s -w64 8)) 0xf in
  let '(s, n) := select t s n 5 in
  let t := Z.land (shr 64 b (s -w64 4)) 0x7 in
  let '(s, n) := select t s n 6 in
  let t := Z.land (shr 64 a (s -w64 2)) 0x3 in
  let '(s, n) := select t s n 7 in
  let t := Z.land (shr 64 v (s -w64 1)) 0x1 in
  let s := s -w64 Z.shiftr (Z.land (t -w64 n) 256) 8 in
  65 -w64 s -w64 1.

(** [crates/rope/src/chunk.rs:756-767] nth_set_bit *)
Definition nth_set_bit (v n : Z) : Z :=
  let low := wrap64 v in
  let high := wrap64 (Z.shiftr v 64) in
  let low_count := count_ones 64 low in
  if low_count <? n then 64 +w64 nth_set_bit_u64 high (n -w64 low_count)
  else nth_set_bit_u64 low n.

(** *** Words as packed fields *)

Definition pack (w : Z) (l : list Z) : Z := foldr (λ x acc, x + 2 ^ w * acc) 0 l.
(** Fields with an even index, and sums of neighbours. *)
Fixpoint evens (l : list Z) : list Z :=
  match l with x :: _ :: l => x :: evens l | l => l end.
Fixpoint pairs (l : list Z) : list Z :=
  match l with x :: y :: l => x + y :: pairs l | l => l end.
(** The mask of the lower halves of [k] fields of [2 * w] bits. *)
Definition halves (w : Z) (k : nat) : Z := pack (2 * w) (replicate k (2 ^ w - 1)).

(** Induction on two elements at a time. *)
Lemma pairs_ind {A} (P : list A → Prop) :
  P [] → (∀ x, P [x]) → (∀ x y l, P l → P (x :: y :: l)) → ∀ l, P l.
Proof.
  intros H0 H1 H2 l. enough (P l ∧ ∀ x, P (x :: l)) by tauto.
  induction l as [|y l [IH1 IH2]]; split; [done|done|apply IH2|].
  intros x. by apply H2.
Qed.

Definition small (B : Z) (l : list Z) : Prop := Forall (λ x, 0 ≤ x ≤ B) l.

Lemma pack_bits bs : of_bits bs = pack 1 (map Z.b2z bs).
Proof. induction bs as [|b bs IH]; [done|]. cbn [of_bits map pack foldr]. by rewrite IH. Qed.
Lemma pack_bound w B l : 0 ≤ w → small B l → B < 2 ^ w → 0 ≤ pack w l < 2 ^ (w * Z.of_nat (length l)).
Proof.
  intros Hw Hl HB. induction Hl as [|x l Hx Hl IH].
  - cbn. rewrite Z.mul_0_r. done.
  - cbn [pack foldr length]. change (foldr _ 0 l) with (pack w l).
    rewrite Nat2Z.inj_succ, Z.mul_succ_r, Z.pow_add_r by lia.
    rewrite (Z.mul_comm (2 ^ (w * _))). nia.
Qed.
Lemma pack_nonneg w B l : 0 ≤ w → small B l → 0 ≤ pack w l.
Proof.
  intros Hw Hl. induction Hl as [|x l Hx Hl IH]; [done|]. cbn [pack foldr].
  change (foldr _ 0 l) with (pack w l). pose proof (Z.pow_nonneg 2 w). nia.
Qed.
Lemma testbit_split w x a i :
  0 ≤ x < 2 ^ w → 0 ≤ w → 0 ≤ i →
  Z.testbit (x + 2 ^ w * a) i = if i <? w then Z.testbit x i else Z.testbit a (i - w).
Proof.
  intros Hx Hw Hi. destruct (Z.ltb_spec i w).
  - rewrite <- (Z.mod_pow2_bits_low _ w) by lia.
    rewrite Z.mul_comm, Z.mod_add by lia. by rewrite Z.mod_small.
  - replace i with ((i - w) + w) at 1 by lia. rewrite <- Z.div_pow2_bits by lia.
    rewrite Z.mul_comm, Z.div_add by lia. by rewrite Z.div_small.
Qed.
Lemma land_split w x a y b :
  0 ≤ w → 0 ≤ x < 2 ^ w → 0 ≤ y < 2 ^ w →
  Z.land (x + 2 ^ w * a) (y + 2 ^ w * b) = Z.land x y + 2 ^ w * Z.land a b.
Proof.
  intros Hw Hx Hy.
  assert (0 ≤ Z.land x y < 2 ^ w) as Hl.
  { split; [apply Z.land_nonneg; lia|].
    rewrite <- (Z.mod_small x (2 ^ w)), <- Z.land_ones, <- Z.land_assoc, (Z.land_comm _ y),
      Z.land_assoc, Z.land_ones by lia.
    apply Z.mod_pos_bound. lia. }
  apply Z.bits_inj'. intros i Hi. rewrite Z.land_spec, !testbit_split by done.
  destruct (i <? w); by rewrite Z.land_spec.
Qed.
Lemma pack_shiftr w B l : 0 ≤ w → small B l → B < 2 ^ w → Z.shiftr (pack w l) w = pack w (tail l).
Proof.
  intros Hw Hl HB. rewrite Z.shiftr_div_pow2 by done. destruct Hl as [|x l Hx Hl]; [done|].
  cbn [pack foldr tail]. change (foldr _ 0 l) with (pack w l).
  rewrite Z.mul_comm, Z.div_add by lia. rewrite Z.div_small by lia. lia.
Qed.
Lemma pack_shiftr_drop w B l i :
  0 ≤ w → small B l → B < 2 ^ w → Z.shiftr (pack w l) (w * Z.of_nat i) = pack w (drop i l).
Proof.
  intros Hw Hl HB. revert l Hl. induction i as [|i IH]; intros l Hl.
  - rewrite Z.mul_0_r, Z.shiftr_0_r. done.
  - rewrite Nat2Z.inj_succ, Z.mul_succ_r, Z.add_comm, <- Z.shiftr_shiftr, (pack_shiftr w B) by first [done|lia].
    rewrite IH; [|destruct Hl; [constructor|done]]. by destruct l as [|x l]; [destruct i|].
Qed.
Lemma land_mask w x : 0 ≤ w → 0 ≤ x < 2 ^ w → Z.land x (2 ^ w - 1) = x.
Proof.
  intros Hw Hx. rewrite Z.sub_1_r, <- Z.ones_equiv, Z.land_ones by done. by apply Z.mod_small.
Qed.
Lemma pack_nth w B k l i :
  0 ≤ k ≤ w → small B l → B < 2 ^ k →
  Z.land (Z.shiftr (pack w l) (w * Z.of_nat i)) (2 ^ k - 1) = nth i l 0.
Proof.
  intros Hk Hl HB. pose proof (Z.pow_le_mono_r 2 k w ltac:(lia) ltac:(lia)).
  rewrite (pack_shiftr_drop w B) by first [done|lia].
  rewrite Z.sub_1_r, <- Z.ones_equiv, Z.land_ones by lia.
  rewrite <- (Nat.add_0_r i) at 2. rewrite <- nth_skipn. change (skipn i l) with (drop i l).
  destruct (Forall_drop _ i l Hl) as [|x r Hx Hr]; [done|].
  cbn [pack foldr nth]. replace w with (k + (w - k)) by lia. rewrite Z.pow_add_r by lia.
  rewrite <- Z.mul_assoc, Z.mul_comm, Z.mod_add by lia. apply Z.mod_small. lia.
Qed.
Lemma land_halves w B l k :
  0 ≤ w → small B l → B < 2 ^ w → (length l ≤ 2 * k)%nat →
  Z.land (pack w l) (halves w k) = pack (2 * w) (evens l).
Proof.
  intros Hw Hl HB. revert k Hl. induction l as [|x|x y l IH] using pairs_ind; intros k Hl Hk.
  - apply Z.land_0_l.
  - destruct k as [|k]; [cbn in Hk; lia|]. inv Hl.
    cbn [evens]. unfold halves. cbn [pack foldr replicate]. rewrite !Z.mul_0_r, !Z.add_0_r.
    pose proof (Z.pow_le_mono_r 2 w (2 * w) ltac:(lia) ltac:(lia)).
    rewrite <- (Z.add_0_r x), <- (Z.mul_0_r (2 ^ (2 * w))) at 1.
    rewrite land_split by lia. rewrite land_mask, Z.land_0_l by lia. lia.
  - destruct k as [|k]; [cbn in Hk; lia|]. inversion Hl as [|?? Hx Hl2]; subst. inversion Hl2 as [|?? Hy Hl3]; subst.
    cbn [evens]. unfold halves. cbn [pack foldr replicate].
    change (foldr _ 0 (replicate k _)) with (halves w k).
    change (foldr _ 0 l) with (pack w l). change (foldr _ 0 (evens l)) with (pack (2 * w) (evens l)).
    assert (2 ^ (2 * w) = 2 ^ w * 2 ^ w) as E by (rewrite <- Z.pow_add_r; [f_equal; lia|lia..]).
    replace (x + 2 ^ w * (y + 2 ^ w * pack w l)) with ((x + 2 ^ w * y) + 2 ^ (2 * w) * pack w l) by (rewrite E; ring).
    rewrite land_split by nia. rewrite IH by first [done|cbn in Hk; lia]. f_equal.
    rewrite <- (Z.add_0_r (2 ^ w - 1)), <- (Z.mul_0_r (2 ^ w)), land_split by lia.
    rewrite land_mask, Z.land_0_r by lia. lia.
Qed.

(** *** The parallel counts *)

(** Sums of each field with the next one. *)
Fixpoint adj (l : list Z) : list Z :=
  match l with x :: (y :: _) as r => x + y :: adj r | l => l end.

Lemma small_mono B C l : small B l → B ≤ C → small C l.
Proof. intros H HB. eapply Forall_impl; [exact H|]. cbn. lia. Qed.
Lemma small_tail B l : small B l → small B (tail l).
Proof. destruct 1; [constructor|done]. Qed.
Lemma small_pairs B l : 0 ≤ B → small B l → small (2 * B) (pairs l).
Proof.
  intros HB. induction l as [|x|x y l IH] using pairs_ind; intros H; [constructor| |]; inv H.
  - constructor; [lia|constructor].
  - inv H3. constructor; [lia|]. by apply IH.
Qed.
Lemma small_adj B l : 0 ≤ B → small B l → small (2 * B) (adj l).
Proof.
  intros HB H. induction H as [|x l Hx Hl IH]; [constructor|].
  destruct Hl as [|y l Hy Hl]; constructor; (done || lia).
Qed.
Lemma evens_adj l : evens (adj l) = pairs l.
Proof.
  induction l as [|x|x y l IH] using pairs_ind; [done..|].
  destruct l as [|z l]; [done|]. change (pairs (x :: y :: z :: l)) with (x + y :: pairs (z :: l)). by rewrite <- IH.
Qed.
Lemma pack_cons w x l : pack w (x :: l) = x + 2 ^ w * pack w l.
Proof. done. Qed.
Lemma pack_adj w l : pack w l + pack w (tail l) = pack w (adj l).
Proof.
  induction l as [|x l IH]; [done|]. destruct l as [|y l]; [cbn; lia|].
  cbn [tail] in *. change (adj (x :: y :: l)) with (x + y :: adj (y :: l)).
  rewrite (pack_cons w (x + y)), <- IH, !pack_cons. ring.
Qed.
Lemma evens_cons y l : evens (y :: l) = y :: evens (tail l).
Proof. by destruct l. Qed.
Lemma pack_evens w l : pack w (evens l) + pack w (evens (tail l)) = pack w (pairs l).
Proof.
  induction l as [|x|x y l IH] using pairs_ind; [done|cbn; lia|].
  rewrite (evens_cons x). cbn [tail]. rewrite (evens_cons y). cbn [pairs]. rewrite !pack_cons, <- IH. ring.
Qed.
Lemma pack_sub l : pack 1 l - pack 2 (evens (tail l)) = pack 2 (pairs l).
Proof.
  induction l as [|x|x y l IH] using pairs_ind; [done|cbn; lia|].
  cbn [tail]. rewrite evens_cons. cbn [pairs]. rewrite !pack_cons, <- IH.
  change (2 ^ 2) with 4. change (2 ^ 1) with 2. ring.
Qed.
Lemma length_pairs l k : length l = (2 * k)%nat → length (pairs l) = k.
Proof.
  revert k. induction l as [|x|x y l IH] using pairs_ind; intros k Hk; cbn [length pairs] in *; [lia..|].
  destruct k as [|k]; [lia|]. rewrite (IH k); lia.
Qed.

Lemma sub_stage l : length l = 64%nat → small 1 l →
  pack 1 l -w64 Z.land (Z.shiftr (pack 1 l) 1) (u64_MAX / 3) = pack 2 (pairs l).
Proof.
  intros Hn Hl. change (u64_MAX / 3) with (halves 1 32).
  rewrite (pack_shiftr 1 1), (land_halves 1 1), pack_sub; [|lia|by apply small_tail|lia| |lia|done|lia].
  - apply wrap64_id. pose proof (pack_bound 2 2 (pairs l) ltac:(lia)) as B.
    rewrite (length_pairs _ 32) in B by done. apply B; [by apply (small_pairs 1)|done].
  - destruct l; cbn in *; lia.
Qed.
Lemma add_stage l : length l = 32%nat → small 2 l →
  Z.land (pack 2 l) (u64_MAX / 5) +w64 Z.land (Z.shiftr (pack 2 l) 2) (u64_MAX / 5) = pack 4 (pairs l).
Proof.
  intros Hn Hl. change (u64_MAX / 5) with (halves 2 16).
  rewrite (pack_shiftr 2 2), !(land_halves 2 2); [|lia|by apply small_tail|lia| |lia|done|lia|lia|lia|done|lia].
  - change (2 * 2) with 4. rewrite pack_evens.
    apply wrap64_id. pose proof (pack_bound 4 4 (pairs l) ltac:(lia)) as B.
    rewrite (length_pairs _ 16) in B by done. apply B; [by apply (small_pairs 2)|done].
  - destruct l; cbn in *; lia.
Qed.
Lemma fold_stage w B l k :
  length l = (2 * k)%nat → small B l → 0 ≤ B → 2 * B < 2 ^ w → w * Z.of_nat (2 * k) = 64 → 0 < w →
  Z.land (pack w l +w64 Z.shiftr (pack w l) w) (halves w k) = pack (2 * w) (pairs l).
Proof.
  intros Hn Hl HB H2 H64 Hw. rewrite (pack_shiftr w B) by (done || lia).
  assert (length (adj l) = length l) as Ha.
  { clear. induction l as [|x [|y l] IH]; [done..|]. cbn [adj tail length] in *. by rewrite IH. }
  rewrite pack_adj, wrap64_id.
  - rewrite (land_halves w (2 * B)), evens_adj; [done|lia|by apply small_adj|lia|lia].
  - pose proof (pack_bound w (2 * B) (adj l) ltac:(lia)) as Hb. rewrite Ha, Hn, H64 in Hb.
    apply Hb; [by apply small_adj|lia].
Qed.

(** *** One halving *)

(** [counted w l bs]: [l] counts the bits of [bs] in blocks of [w]. *)
Definition counted (w : nat) (l : list Z) (bs : list bool) : Prop :=
  ∀ i, nth i l 0 = ones (take (w * S i) bs) - ones (take (w * i) bs).

Lemma nth_pairs l i : nth i (pairs l) 0 = nth (2 * i) l 0 + nth (2 * i + 1) l 0.
Proof.
  revert i. induction l as [|x|x y l IH] using pairs_ind; intros i.
  - by destruct i.
  - destruct i as [|i]; [cbn; lia|]. rewrite !nth_overflow by (cbn; lia). done.
  - destruct i as [|i]; [done|]. cbn [pairs nth]. rewrite IH.
    replace (2 * S i)%nat with (S (S (2 * i))) by lia. done.
Qed.
Lemma counted_bits bs : counted 1 (map Z.b2z bs) bs.
Proof.
  intros i. rewrite !Nat.mul_1_l. revert i. induction bs as [|b bs IH]; intros [|i]; cbn [map nth].
  - done.
  - done.
  - by destruct b.
  - rewrite IH, !firstn_cons. cbn [ones]. lia.
Qed.
Lemma counted_pairs w v l bs : v = (2 * w)%nat → counted w l bs → counted v (pairs l) bs.
Proof.
  intros -> H i. rewrite nth_pairs, !H.
  replace (w * S (2 * i + 1))%nat with (2 * w * S i)%nat by lia.
  replace (w * S (2 * i))%nat with (w * (2 * i + 1))%nat by lia.
  replace (w * (2 * i))%nat with (2 * w * i)%nat by lia. lia.
Qed.

(** The two tests on the sign bit, by exhaustion of the counts that occur;
    [e] is what the first count has above its low half. *)
Definition select_ok (u e n : Z) : bool :=
  let t := u + 65536 * e in
  bool_decide (Z.land (t -w64 n) 256 = (if u <? n then 256 else 0)) &&
  bool_decide (Z.land t (Z.shiftr (t -w64 n) 8) = (if u <? n then u else 0)).
Lemma select_all :
  forallb (λ u, forallb (λ e, forallb (λ n, select_ok (Z.of_nat u) (Z.of_nat e) (Z.of_nat n))
    (seq 0 65)) (seq 0 17)) (seq 0 33) = true.
Proof. vm_compute. reflexivity. Qed.
Lemma select_signs u e n :
  0 ≤ u ≤ 32 → 0 ≤ e ≤ 16 → 0 ≤ n ≤ 64 →
  Z.land (u + 65536 * e -w64 n) 256 = (if u <? n then 256 else 0) ∧
  Z.land (u + 65536 * e) (Z.shiftr (u + 65536 * e -w64 n) 8) = (if u <? n then u else 0).
Proof.
  intros Hu He Hn. pose proof select_all as H.
  rewrite forallb_forall in H. specialize (H (Z.to_nat u) ltac:(apply in_seq; lia)).
  rewrite forallb_forall in H. specialize (H (Z.to_nat e) ltac:(apply in_seq; lia)).
  rewrite forallb_forall in H. specialize (H (Z.to_nat n) ltac:(apply in_seq; lia)).
  rewrite !Z2Nat.id in H by lia. unfold select_ok in H. by reflect.
Qed.

(** The search is in the block of [w] bits that ends at [s], of which the
    [n]-th from the top is wanted: it is the [n0]-th of the whole word. *)
Definition searching (bs : list bool) (n0 : Z) (w s : nat) (n : Z) : Prop :=
  (∃ j, s = (w * S j)%nat) ∧ (s ≤ length bs)%nat ∧
  1 ≤ n ≤ ones (take s bs) - ones (take (s - w) bs) ∧
  n0 = n + (ones bs - ones (take s bs)).

Lemma select_step bs n0 h s n k t e :
  (length bs = 64)%nat → searching bs n0 (2 * h) s n → (0 < h)%nat → t = ones (take s bs) - ones (take (s - h) bs) →
  0 ≤ t ≤ 32 → 0 ≤ e ≤ 16 → Z.shiftr 256 k = Z.of_nat h →
  ∃ s' n', select (t + 65536 * e) (Z.of_nat s) n k = (Z.of_nat s', n') ∧ searching bs n0 h s' n'.
Proof.
  intros Hlen ((j & Hj) & Hs & Hn & H0) Hh Ht Hb He Hk.
  pose proof (ones_bounds (take s bs)) as [_ B]. rewrite length_take in B.
  pose proof (ones_bounds (take (s - 2 * h) bs)) as [B1 _].
  destruct (select_signs t e n Hb He ltac:(lia)) as [E1 E2].
  unfold select. rewrite E1, E2. clear E1 E2.
  destruct (Z.ltb_spec t n); rewrite ?Hk, ?Z.shiftr_0_l, ?Z.sub_0_r.
  - exists (s - h)%nat, (n - t). split.
    + rewrite !wrap64_id by width. f_equal. lia.
    + unfold searching. replace (s - h - h)%nat with (s - 2 * h)%nat by lia.
      split_and!; [exists (2 * j)%nat; lia|lia..].
  - exists s, n. split; [by rewrite !wrap64_id by width|].
    split_and!; [exists (2 * j + 1)%nat; lia|lia..].
Qed.

(** Reading the count of the upper half of the block. *)
Lemma select_field bs n0 (w : nat) s n k B l :
  searching bs n0 (2 * w) s n → (length bs = 64)%nat → (0 < w)%nat → counted w l bs → small B l →
  0 ≤ k ≤ Z.of_nat w → B < 2 ^ k →
  Z.land (shr 64 (pack (Z.of_nat w) l) (Z.of_nat s -w64 Z.of_nat w)) (2 ^ k - 1)
  = ones (take s bs) - ones (take (s - w) bs).
Proof.
  intros ((j & Hj) & Hs & _) Hl Hw Hc HB Hk H2. unfold shr.
  rewrite wrap64_id, Z.mod_small by width.
  replace (Z.of_nat s - Z.of_nat w) with (Z.of_nat w * Z.of_nat (2 * j + 1)) by lia.
  rewrite (pack_nth _ B) by done. rewrite Hc. do 3 f_equal; lia.
Qed.

Lemma searching_done bs n0 s n :
  searching bs n0 1 s n →
  ∃ a b, bs = a ++ true :: b ∧ length a = (s - 1)%nat ∧ n0 = ones b + 1 ∧ (0 < s ≤ length bs)%nat.
Proof.
  intros ((j & ->) & Hs & Hn & H0). rewrite Nat.mul_1_l in *.
  replace (S j - 1)%nat with j in * by lia.
  destruct (bs !! j) as [b|] eqn:E; [|apply lookup_ge_None in E; lia].
  rewrite (take_S_r _ _ _ E), ones_app in Hn, H0. cbn [ones] in *.
  destruct b; cbn [Z.b2z] in *; [|lia].
  pose proof (take_drop_middle _ _ _ E) as Ebs.
  assert (ones bs = ones (take j bs) + (1 + ones (drop (S j) bs))) as Eo
    by (by rewrite <- Ebs at 1; rewrite ones_app).
  exists (take j bs), (drop (S j) bs). split_and!; [done| |lia|lia|done].
  rewrite length_take. lia.
Qed.

(** A block has at most as many set bits as bits. *)
Lemma small_counted (w : nat) l bs : counted w l bs → small (Z.of_nat w) l.
Proof.
  intros H. apply Forall_lookup_2. intros i x Hx.
  apply (nth_lookup_Some _ _ 0) in Hx. rewrite H in Hx. subst x.
  assert (take (w * S i) bs = take (w * i) bs ++ take w (drop (w * i) bs)) as ->.
  { rewrite take_drop_commute. rewrite <- (take_drop (w * i) (take (w * S i) bs)) at 1.
    f_equal; [|f_equal; f_equal; lia]. rewrite take_take. f_equal. lia. }
  rewrite ones_app. pose proof (ones_bounds (take w (drop (w * i) bs))) as B.
  rewrite length_take in B. lia.
Qed.

(** The first count, of the upper 32 bits, is read off two fields at once. *)
Lemma select_top (d0 d1 d2 d3 : Z) :
  0 ≤ d0 ≤ 16 → 0 ≤ d1 ≤ 16 → 0 ≤ d2 ≤ 16 → 0 ≤ d3 ≤ 16 →
  let d := pack 16 [d0; d1; d2; d3] in
  Z.shiftr d 32 +w64 Z.shiftr d 48 = (d2 + d3) + 65536 * d3.
Proof.
  intros. assert (small 16 [d0; d1; d2; d3]) as Hs by (repeat constructor; lia).
  pose proof (pack_shiftr_drop 16 16 _ 2 ltac:(lia) Hs ltac:(lia)) as E2.
  pose proof (pack_shiftr_drop 16 16 _ 3 ltac:(lia) Hs ltac:(lia)) as E3.
  change (16 * Z.of_nat 2) with 32 in E2. change (16 * Z.of_nat 3) with 48 in E3.
  unfold d. rewrite E2, E3. cbn [drop pack foldr]. change (2 ^ 16) with 65536.
  rewrite wrap64_id by width. lia.
Qed.

Lemma fold_stage_4 l : length l = 16%nat → small 4 l →
  Z.land (pack 4 l +w64 Z.shiftr (pack 4 l) 4) (u64_MAX / 0x11) = pack 8 (pairs l).
Proof. intros Hn Hl. apply (fold_stage 4 4 l 8); done. Qed.
Lemma fold_stage_8 l : length l = 8%nat → small 8 l →
  Z.land (pack 8 l +w64 Z.shiftr (pack 8 l) 8) (u64_MAX / 0x101) = pack 16 (pairs l).
Proof. intros Hn Hl. apply (fold_stage 8 8 l 4); done. Qed.

(** One of the middle rounds, from the fields of width [w]. *)
Lemma select_round bs n0 (w : nat) s n k B l m wz mask :
  wz = Z.of_nat w → mask = 2 ^ m - 1 → length bs = 64%nat → counted w l bs → small B l → B < 2 ^ m → 0 ≤ m ≤ Z.of_nat w → 0 ≤ B ≤ 32 →
  (0 < w)%nat → Z.shiftr 256 k = Z.of_nat w →
  searching bs n0 (2 * w) s n →
  ∃ s' n', select (Z.land (shr 64 (pack wz l) (Z.of_nat s -w64 wz)) mask)
    (Z.of_nat s) n k = (Z.of_nat s', n') ∧ searching bs n0 w s' n'.
Proof.
  intros -> -> Hlen Hc Hl HB Hm H32 Hw Hk Hs. rewrite (select_field bs n0 w s n m B) by done.
  destruct Hs as ((j & Hj) & Hs). set (t := ones (take s bs) - ones (take (s - w) bs)).
  assert (0 ≤ t ≤ B) as Ht.
  { unfold t. replace s with (w * S (2 * j + 1))%nat by lia.
    replace (w * S (2 * j + 1) - w)%nat with (w * (2 * j + 1))%nat by lia. rewrite <- Hc.
    destruct (nth_in_or_default (2 * j + 1) l 0) as [Hi|Hi].
    - unfold small in Hl. rewrite Forall_forall in Hl. apply Hl. by apply list_elem_of_In.
    - rewrite Hi. lia. }
  destruct (select_step bs n0 w s n k t 0 Hlen) as (s' & n' & E & H'); [|done|done|lia|done|done|].
  - split; [by exists j|done].
  - rewrite Z.mul_0_r, Z.add_0_r in E. by exists s', n'.
Qed.

(** A word has one [n]-th set bit. *)
Lemma set_bit_unique a b x y :
  a ++ true :: b = x ++ true :: y → ones a = ones x → a = x.
Proof.
  revert x. induction a as [|u a IH]; intros [|v x] Eab Eo; cbn [app ones] in *; [done| | |].
  - injection Eab as <- _. pose proof (ones_bounds x). cbn [Z.b2z] in *. lia.
  - injection Eab as -> _. pose proof (ones_bounds a). cbn [Z.b2z] in *. lia.
  - injection Eab as <- Eab. rewrite (IH x); [done|done|lia].
Qed.

(** [stage w bs l]: the fields of width [w] count the bits of [bs]. *)
Definition stage (w : nat) (bs : list bool) (l : list Z) : Prop := counted w l bs ∧ small (Z.of_nat w) l.

Lemma parallel_counts bs :
  length bs = 64%nat →
  let v := of_bits bs in
  ∃ l1 l2 l3 l4, stage 1 bs (map Z.b2z bs) ∧ stage 2 bs l1 ∧ stage 4 bs l2 ∧ stage 8 bs l3 ∧
  stage 16 bs l4 ∧ length l4 = 4%nat ∧
  v -w64 Z.land (Z.shiftr v 1) (u64_MAX / 3) = pack 2 l1 ∧
  Z.land (pack 2 l1) (u64_MAX / 5) +w64 Z.land (Z.shiftr (pack 2 l1) 2) (u64_MAX / 5) = pack 4 l2 ∧
  Z.land (pack 4 l2 +w64 Z.shiftr (pack 4 l2) 4) (u64_MAX / 0x11) = pack 8 l3 ∧
  Z.land (pack 8 l3 +w64 Z.shiftr (pack 8 l3) 8) (u64_MAX / 0x101) = pack 16 l4.
Proof.
  intros Hn v. set (l0 := map Z.b2z bs). set (l1 := pairs l0). set (l2 := pairs l1).
  set (l3 := pairs l2). exists l1, l2, l3, (pairs l3).
  assert (counted 1 l0 bs) as C0 by apply counted_bits.
  assert (counted 2 l1 bs) as C1 by (by apply (counted_pairs 1)).
  assert (counted 4 l2 bs) as C2 by (by apply (counted_pairs 2)).
  assert (counted 8 l3 bs) as C3 by (by apply (counted_pairs 4)).
  assert (counted 16 (pairs l3) bs) as C4 by (by apply (counted_pairs 8)).
  assert (length l0 = 64%nat) as L0 by (unfold l0; by rewrite length_map).
  assert (length l1 = 32%nat) as L1 by (by apply length_pairs).
  assert (length l2 = 16%nat) as L2 by (by apply length_pairs).
  assert (length l3 = 8%nat) as L3 by (by apply length_pairs).
  pose proof (small_counted _ _ _ C0). pose proof (small_counted _ _ _ C1).
  pose proof (small_counted _ _ _ C2). pose proof (small_counted _ _ _ C3).
  pose proof (small_counted _ _ _ C4). unfold stage. split_and!; try done.
  - by apply length_pairs.
  - unfold v. rewrite pack_bits. apply sub_stage; done.
  - apply add_stage; done.
  - apply fold_stage_4; done.
  - apply fold_stage_8; done.
Qed.

(** The first round halves the word. *)
Lemma first_round bs n0 l :
  length bs = 64%nat → stage 16 bs l → length l = 4%nat → searching bs n0 64 64 n0 →
  ∃ s n, select (Z.shiftr (pack 16 l) 32 +w64 Z.shiftr (pack 16 l) 48) 64 n0 3 = (Z.of_nat s, n) ∧
    searching bs n0 32 s n.
Proof.
  intros Hn [Hc Hs] Hl I. destruct l as [|d0 [|d1 [|d2 [|d3 [|]]]]]; try done.
  pose proof (Hc 2%nat) as E2. pose proof (Hc 3%nat) as E3. cbn [nth] in E2, E3.
  change (16 * 4)%nat with 64%nat in E3. change (16 * 3)%nat with 48%nat in *.
  change (16 * 2)%nat with 32%nat in E2.
  inversion Hs as [|?? B0 S5]; subst. inversion S5 as [|?? B1 S6]; subst.
  inversion S6 as [|?? B2 S7]; subst. inversion S7 as [|?? B3 _]; subst.
  rewrite select_top by done. apply (select_step bs n0 32 64 n0 3 _ _ Hn I); [lia| |lia|lia|done].
  change (64 - 32)%nat with 32%nat. lia.
Qed.

Lemma nth_set_bit_u64_ok a b :
  length (a ++ true :: b) = 64%nat →
  nth_set_bit_u64 (of_bits (a ++ true :: b)) (ones a + 1) = Z.of_nat (length a).
Proof.
  intros Hlen. set (n0 := ones a + 1). unfold nth_set_bit_u64.
  rewrite reverse_bits_bits by done. set (rs := reverse (a ++ true :: b)).
  assert (length rs = 64%nat) as Hrs by (unfold rs; by rewrite length_reverse).
  destruct (parallel_counts rs Hrs) as
    (l1 & l2 & l3 & l4 & [C0 S0] & [C1 S1] & [C2 S2] & [C3 S3] & C4 & L4 & -> & -> & -> & ->).
  assert (searching rs n0 64 64 n0) as I.
  { assert (ones rs = ones a + 1 + ones b) as Ho.
    { unfold rs. rewrite ones_reverse, ones_app. cbn [ones Z.b2z]. lia. }
    pose proof (ones_bounds a). pose proof (ones_bounds b). unfold searching.
    rewrite take_ge by lia. change (64 - 64)%nat with 0%nat. cbn [take ones].
    unfold n0. split_and!; [by exists 0%nat|try lia..]. rewrite firstn_0. cbn [ones]. lia. }
  destruct (first_round rs n0 l4 Hrs C4 L4 I) as (s1 & n1 & -> & I1). destruct C4 as [C4 S4].
  destruct (select_round rs n0 16 s1 n1 4 16 l4 8 16 255 eq_refl eq_refl Hrs C4 S4) as (s2 & n2 & -> & I2); [lia..|done|done|].
  destruct (select_round rs n0 8 s2 n2 5 8 l3 4 8 15 eq_refl eq_refl Hrs C3 S3) as (s3 & n3 & -> & I3); [lia..|done|done|].
  destruct (select_round rs n0 4 s3 n3 6 4 l2 3 4 7 eq_refl eq_refl Hrs C2 S2) as (s4 & n4 & -> & I4); [lia..|done|done|].
  destruct (select_round rs n0 2 s4 n4 7 2 l1 2 2 3 eq_refl eq_refl Hrs C1 S1) as (s5 & n5 & -> & I5); [lia..|done|done|].
  rewrite pack_bits.
  destruct (select_round rs n0 1 s5 n5 8 1 _ 1 1 1 eq_refl eq_refl Hrs C0 S0) as (s6 & n6 & E & I6); [lia..|done|done|].
  injection E as E _. etrans; [apply (f_equal (λ x, 65 -w64 x -w64 1) E)|].
  destruct (searching_done rs n0 s6 n6 I6) as (a' & b' & Er & El & En & Es).
  assert (reverse b' = a) as <-.
  { symmetry. apply (set_bit_unique _ b _ (reverse a')); [|rewrite ones_reverse; lia].
    rewrite <- (reverse_involutive (a ++ _)). fold rs. rewrite Er, reverse_app, reverse_cons.
    by rewrite <- app_assoc. }
  assert (length rs = (length a' + S (length b'))%nat) as Ers by (by rewrite Er, length_app).
  rewrite length_reverse, (wrap64_id (65 - _)), wrap64_id by width. lia.
Qed.

Lemma wrap64_bits bs : wrap64 (of_bits bs) = of_bits (take 64 bs).
Proof. rewrite <- land_ones_bits, Z.land_ones by lia. done. Qed.

Lemma nth_set_bit_ok a b :
  (length (a ++ true :: b) ≤ 128)%nat →
  nth_set_bit (of_bits (a ++ true :: b)) (ones a + 1) = Z.of_nat (length a).
Proof.
  intros Hl. set (bs := (a ++ true :: b) ++ replicate (128 - length (a ++ true :: b)) false).
  assert (length bs = 128%nat) as Hn by (unfold bs; rewrite length_app, length_replicate; lia).
  rewrite <- (of_bits_pad _ (128 - length (a ++ true :: b))). fold bs.
  unfold nth_set_bit. change (Z.shiftr (of_bits bs) 64) with (Z.shiftr (of_bits bs) (Z.of_nat 64)).
  rewrite shiftr_bits, !wrap64_bits.
  rewrite (take_ge (drop 64 bs)) by (rewrite length_drop; lia).
  rewrite count_ones_bits by (rewrite length_take; lia).
  assert (bs = a ++ true :: (b ++ replicate (128 - length (a ++ true :: b)) false)) as Ebs
    by (unfold bs; by rewrite <- app_assoc).
  revert Ebs. generalize (b ++ replicate (128 - length (a ++ true :: b)) false) as c. intros c Ebs.
  pose proof (ones_bounds a) as Ba. rewrite Ebs in *. rewrite length_app in Hn. cbn [length] in Hn.
  destruct (decide (length a < 64)%nat) as [H|H].
  - assert (take 64 (a ++ true :: c) = a ++ true :: take (63 - length a) c) as Et.
    { rewrite take_app_ge by lia. f_equal. by replace (64 - length a)%nat with (S (63 - length a)) by lia. }
    rewrite Et, ones_app. cbn [ones Z.b2z]. pose proof (ones_bounds (take (63 - length a) c)).
    rewrite (proj2 (Z.ltb_ge _ _)) by lia. apply nth_set_bit_u64_ok.
    rewrite <- Et, length_take, length_app. cbn [length]. lia.
  - assert (drop 64 (a ++ true :: c) = drop 64 a ++ true :: c) as Ed by (rewrite drop_app_le by lia; done).
    assert (take 64 (a ++ true :: c) = take 64 a) as Et by (rewrite take_app_le by lia; done).
    rewrite Ed, Et. assert (ones a = ones (take 64 a) + ones (drop 64 a)) as Eo
      by (rewrite <- (take_drop 64 a) at 1; apply ones_app).
    pose proof (ones_bounds (drop 64 a)). pose proof (ones_bounds (take 64 a)).
    rewrite (proj2 (Z.ltb_lt _ _)) by lia. rewrite Eo.
    rewrite (wrap64_id (_ - _)) by (rewrite length_drop in *; width).
    replace (ones (take 64 a) + ones (drop 64 a) + 1 - ones (take 64 a)) with (ones (drop 64 a) + 1) by lia.
    rewrite nth_set_bit_u64_ok by (rewrite length_app, length_drop; cbn [length]; lia).
    rewrite length_drop, wrap64_id by width. lia.
Qed.

(** The search by parallel counts finds the n-th set bit of a 128-bit word,
    counting from the lowest: if [ones a] bits are set below a set bit, it is
    the bit number [ones a + 1] and its position is returned. All intermediate
    words stay in 64 bits. *)
Theorem nth_set_bit_correct a b :
  (length (a ++ true :: b) ≤ 128)%nat →
  nth_set_bit (of_bits (a ++ true :: b)) (ones a + 1) = Z.of_nat (length a).
Proof. apply nth_set_bit_ok. Qed.

Lemma nth_set_bit_correct_witness :
  nth_set_bit 13 3 = 3 ∧ nth_set_bit (2 ^ 100 + 13) 4 = 100.
Proof.
  split.
  - apply (nth_set_bit_correct [true; false; true] []). vm_compute. lia.
  - apply (nth_set_bit_correct ([true; false; true; true] ++ replicate 96 false) []). vm_compute. lia.
Defined.
End Bitmap.
