(* ===== verification/Utf8.v ===== *)
(** Text as UTF-8 bytes: what the chunks of the rope use of the standard
    library's [str], whose methods count bytes, and how it reads on the scalar
    values that the bytes encode. *)
From S2P Require Import Prelude.

(** A [char]. *)
Definition is_scalar (c : Z) : Prop := 0 ≤ c < 0xD800 ∨ 0xE000 ≤ c < 0x110000.
#[export] Instance is_scalar_dec c : Decision (is_scalar c).
Proof. unfold is_scalar. apply _. Defined.

(** [char::encode_utf8] *)
Definition encode_char (c : Z) : list Z :=
  if c <? 0x80 then [c]
  else if c <? 0x800 then [0xC0 + c / 64; 0x80 + c mod 64]
  else if c <? 0x10000 then [0xE0 + c / 4096; 0x80 + c / 64 mod 64; 0x80 + c mod 64]
  else [0xF0 + c / 262144; 0x80 + c / 4096 mod 64; 0x80 + c / 64 mod 64; 0x80 + c mod 64].
Definition encode (s : str) : list Z := concat (map encode_char s).

(** [str::len] *)
Definition len (text : list Z) : Z := Z.of_nat (length text).

(** The comparison of bytes as [i8].
    [crates/util/src/util.rs:55-58] is_utf8_char_boundary *)
Definition is_utf8_char_boundary (u8 : Z) : bool :=
  -0x40 <=? (if u8 <? 128 then u8 else u8 - 256).

(** [str::is_char_boundary] *)
Definition is_char_boundary (text : list Z) (index : Z) : bool :=
  if index =? 0 then true
  else if len text <=? index then index =? len text
  else is_utf8_char_boundary (get_or text index 0).
(** [str::floor_char_boundary] and [str::ceil_char_boundary]: the last one
    before and the first one after; some byte in four is one. *)
Fixpoint floor_loop (fuel : nat) (text : list Z) (index : Z) : Z :=
  match fuel with
  | O => index
  | S fuel => if is_char_boundary text index then index else floor_loop fuel text (index - 1)
  end.
Definition floor_char_boundary (text : list Z) (index : Z) : Z :=
  if len text <=? index then len text else floor_loop 4 text index.
Fixpoint ceil_loop (fuel : nat) (text : list Z) (index : Z) : Z :=
  match fuel with
  | O => index
  | S fuel => if is_char_boundary text index then index else ceil_loop fuel text (index + 1)
  end.
Definition ceil_char_boundary (text : list Z) (index : Z) : Z :=
  if len text <=? index then len text else ceil_loop 4 text index.
(** [str::split_at] and [&text[start..end]], which panic at other indices. *)
Definition split_at (text : list Z) (mid : Z) : option (list Z * list Z) :=
  if is_char_boundary text mid
  then Some (take (Z.to_nat mid) text, drop (Z.to_nat mid) text) else None.
Definition str_index (text : list Z) (start stop : Z) : option (list Z) :=
  if (start <=? stop) && is_char_boundary text start && is_char_boundary text stop
  then Some (take (Z.to_nat (stop - start)) (drop (Z.to_nat start) text)) else None.

(** ** Texts of scalar values *)

Definition scalars (s : str) : Prop := Forall is_scalar s.

Lemma scalars_app s t : scalars (s ++ t) ↔ scalars s ∧ scalars t.
Proof. apply Forall_app. Qed.

Lemma encode_app s t : encode (s ++ t) = encode s ++ encode t.
Proof. unfold encode. by rewrite map_app, concat_app. Qed.
Lemma encode_cons c s : encode (c :: s) = encode_char c ++ encode s.
Proof. done. Qed.
Lemma length_encode_char c : Z.of_nat (length (encode_char c)) = len_utf8 c.
Proof. unfold encode_char, len_utf8. by repeat split_if. Qed.
Lemma len_encode s : len (encode s) = str_len s.
Proof.
  unfold len. induction s as [|c s IH]; [done|].
  rewrite encode_cons, length_app, Nat2Z.inj_add, length_encode_char, IH. done.
Qed.
Lemma length_encode s : length (encode s) = Z.to_nat (str_len s).
Proof. rewrite <- len_encode. unfold len. lia. Qed.

(** The bytes of a character: the first one starts it, the others do not. *)
Lemma encode_char_bytes c :
  is_scalar c → ∃ b bs, encode_char c = b :: bs ∧
    0 ≤ b < 256 ∧ is_utf8_char_boundary b = true ∧ (240 ≤ b ↔ len_utf8 c = 4) ∧
    (b < 128 ↔ len_utf8 c = 1) ∧ (b < 128 → b = c) ∧ length bs = Z.to_nat (len_utf8 c - 1) ∧
    Forall (λ x, 128 ≤ x < 192) bs.
Proof.
  intros Hc. assert (0 ≤ c < 0x110000) as H by (destruct Hc; lia). clear Hc.
  pose proof (Z.mod_pos_bound c 64). pose proof (Z.mod_pos_bound (c / 64) 64).
  pose proof (Z.mod_pos_bound (c / 4096) 64).
  pose proof (Z.div_pos c 64). pose proof (Z.div_lt_upper_bound c 64 32).
  pose proof (Z.div_pos c 4096). pose proof (Z.div_lt_upper_bound c 4096 16).
  pose proof (Z.div_pos c 262144). pose proof (Z.div_lt_upper_bound c 262144 5).
  pose proof (Z.div_le_lower_bound c 64 2).
  assert (∀ b, 0 ≤ b < 128 ∨ 192 ≤ b → is_utf8_char_boundary b = true) as Hb.
  { intros b Hb. unfold is_utf8_char_boundary. apply Z.leb_le. split_if; reflect; lia. }
  unfold encode_char, len_utf8. repeat split_if; reflect; eexists _, _;
    (split; [done|]); (split_and!; first [done|lia|apply Hb; lia|repeat constructor; lia]).
Qed.
Lemma continuation_byte b : 128 ≤ b < 192 → is_utf8_char_boundary b = false.
Proof.
  intros H. unfold is_utf8_char_boundary. rewrite (proj2 (Z.ltb_ge _ _)) by lia. apply Z.leb_gt. lia.
Qed.

Lemma take_encode s t : take (Z.to_nat (str_len s)) (encode (s ++ t)) = encode s.
Proof. by rewrite encode_app, take_app_length' by (by rewrite length_encode). Qed.
Lemma drop_encode s t : drop (Z.to_nat (str_len s)) (encode (s ++ t)) = encode t.
Proof. by rewrite encode_app, drop_app_length' by (by rewrite length_encode). Qed.

(** The byte at an index that is not the start of a character. *)
Lemma boundary_split s n :
  scalars s → 0 ≤ n ≤ str_len s → is_char_boundary (encode s) n = true →
  ∃ a b, s = a ++ b ∧ n = str_len a.
Proof.
  intros Hs Hn Hb. revert n Hn Hb. induction Hs as [|c s Hc Hs IH]; intros n Hn Hb.
  - exists [], []. cbn in *. split; [done|lia].
  - destruct (Z.eq_dec n 0) as [->|Hne]; [by exists [], (c :: s)|]. cbn [str_len] in Hn.
    pose proof (len_utf8_bounds c) as Bc.
    assert (∀ m, len_utf8 c ≤ m → m ≠ 0 → is_char_boundary (encode (c :: s)) m
      = is_char_boundary (encode s) (m - len_utf8 c) ∨ m = len_utf8 c) as Hshift.
    { intros m Hm Hm0. destruct (decide (m = len_utf8 c)) as [->|Hmc]; [by right|left].
      unfold is_char_boundary. rewrite (proj2 (Z.eqb_neq m 0)), (proj2 (Z.eqb_neq (m - _) 0)) by lia.
      rewrite !len_encode. cbn [str_len].
      replace (str_len s <=? m - len_utf8 c) with (len_utf8 c + str_len s <=? m)
        by (apply eq_true_iff_eq; rewrite !Z.leb_le; lia).
      destruct (_ <=? _); [apply eq_true_iff_eq; rewrite !Z.eqb_eq; lia|].
      f_equal. unfold get_or. rewrite !(proj2 (Z.ltb_ge _ _)) by lia.
      rewrite encode_cons, lookup_app_r by (pose proof (length_encode_char c); lia).
      f_equal. f_equal. pose proof (length_encode_char c). lia. }
    destruct (decide (n < len_utf8 c)) as [Hlt|Hge].
    + exfalso. destruct (encode_char_bytes c Hc) as (b & bs & E & _ & _ & _ & _ & _ & Hl & Hbs).
      unfold is_char_boundary in Hb. rewrite (proj2 (Z.eqb_neq n 0)) in Hb by done.
      rewrite len_encode in Hb. cbn [str_len] in Hb. pose proof (str_len_nonneg s).
      rewrite (proj2 (Z.leb_gt _ _)) in Hb by lia.
      unfold get_or in Hb. rewrite (proj2 (Z.ltb_ge n 0)) in Hb by lia.
      rewrite encode_cons, E in Hb. replace (Z.to_nat n) with (S (Z.to_nat (n - 1))) in Hb by lia.
      change (((b :: bs) ++ encode s) !! S ?k) with ((bs ++ encode s) !! k) in Hb. rewrite lookup_app_l in Hb by lia.
      destruct (lookup_lt_is_Some_2 bs (Z.to_nat (n - 1))) as [x Hx]; [lia|].
      rewrite Hx in Hb. cbn in Hb. rewrite continuation_byte in Hb; [done|].
      unfold scalars in *. rewrite Forall_lookup in Hbs. by apply (Hbs _ _ Hx).
    + destruct (Hshift n ltac:(lia) Hne) as [E|E].
      * rewrite E in Hb. destruct (IH (n - len_utf8 c)) as (a & b & -> & Ha); [lia|done|].
        exists (c :: a), b. cbn. split; [done|lia].
      * exists [c], s. split; [done|]. cbn. lia.
Qed.
Lemma boundary_app a b : scalars (a ++ b) → is_char_boundary (encode (a ++ b)) (str_len a) = true.
Proof.
  intros Hs. apply scalars_app in Hs as [_ Hs]. unfold is_char_boundary.
  destruct (Z.eqb_spec (str_len a) 0); [done|]. rewrite len_encode, str_len_app.
  destruct (Z.leb_spec (str_len a + str_len b) (str_len a)); [apply Z.eqb_eq; pose proof (str_len_nonneg b); lia|].
  destruct Hs as [|c b Hc _]; [cbn in *; lia|]. pose proof (str_len_nonneg a).
  unfold get_or. rewrite (proj2 (Z.ltb_ge _ _)) by lia.
  rewrite encode_app, lookup_app_r by (rewrite length_encode; lia).
  rewrite length_encode, Nat.sub_diag, encode_cons.
  by destruct (encode_char_bytes c Hc) as (x & bs & -> & _ & Hx & _).
Qed.
Lemma boundary_spec s n :
  scalars s → 0 ≤ n → is_char_boundary (encode s) n = true ↔ ∃ a b, s = a ++ b ∧ n = str_len a.
Proof.
  intros Hs Hn0. split; [|intros (a & b & -> & ->); by apply boundary_app].
  intros Hb. destruct (decide (0 ≤ n ≤ str_len s)) as [Hn|Hn]; [by apply boundary_split|].
  exfalso. unfold is_char_boundary in Hb. rewrite len_encode in Hb. pose proof (str_len_nonneg s).
  destruct (Z.eqb_spec n 0); [lia|]. destruct (Z.leb_spec (str_len s) n).
  - apply Z.eqb_eq in Hb. lia.
  - lia.
Qed.

(** Every index is in a character. *)
Lemma split_point s n : 0 ≤ n < str_len s →
  ∃ a c b, s = a ++ c :: b ∧ str_len a ≤ n < str_len a + len_utf8 c.
Proof.
  revert n. induction s as [|c s IH]; intros n Hn; cbn [str_len] in Hn; [lia|].
  destruct (decide (n < len_utf8 c)).
  - exists [], c, s. cbn. split; [done|lia].
  - destruct (IH (n - len_utf8 c)) as (a & d & b & -> & H); [lia|].
    exists (c :: a), d, b. cbn. split; [done|lia].
Qed.
Lemma not_boundary a c b n :
  scalars (a ++ c :: b) → str_len a < n < str_len a + len_utf8 c →
  is_char_boundary (encode (a ++ c :: b)) n = false.
Proof.
  intros Hs Hn. apply not_true_iff_false. intros Hb. pose proof (str_len_nonneg a).
  apply boundary_spec in Hb as (x & y & E & ->); [|done|lia].
  apply app_eq_inv in E as [(k & -> & _)|(k & -> & E)].
  - rewrite str_len_app in Hn. pose proof (str_len_nonneg k). lia.
  - rewrite str_len_app in Hn. destruct k as [|d k]; [cbn in Hn; lia|].
    injection E as <- _. cbn [str_len] in Hn. pose proof (str_len_nonneg k). lia.
Qed.
Lemma floor_spec a c b n :
  scalars (a ++ c :: b) → str_len a ≤ n < str_len a + len_utf8 c →
  floor_char_boundary (encode (a ++ c :: b)) n = str_len a.
Proof.
  intros Hs Hn. unfold floor_char_boundary. rewrite len_encode, str_len_app. cbn [str_len].
  pose proof (str_len_nonneg b). rewrite (proj2 (Z.leb_gt _ _)) by lia.
  assert (∀ k m, (Z.to_nat (m - str_len a) < k)%nat → str_len a ≤ m < str_len a + len_utf8 c →
    floor_loop k (encode (a ++ c :: b)) m = str_len a) as Hloop.
  { induction k as [|k IH]; intros m Hk Hm; [lia|]. cbn [floor_loop].
    destruct (decide (m = str_len a)) as [->|Hne]; [by rewrite boundary_app|].
    rewrite not_boundary by (done || lia). apply IH; lia. }
  apply Hloop; [|done]. pose proof (len_utf8_bounds c). lia.
Qed.
Lemma floor_end s n : str_len s ≤ n → floor_char_boundary (encode s) n = str_len s.
Proof. intros H. unfold floor_char_boundary. rewrite len_encode. by rewrite (proj2 (Z.leb_le _ _)). Qed.
Lemma ceil_spec a c b n :
  scalars (a ++ c :: b) → str_len a < n ≤ str_len a + len_utf8 c →
  ceil_char_boundary (encode (a ++ c :: b)) n = str_len a + len_utf8 c.
Proof.
  intros Hs Hn. unfold ceil_char_boundary. rewrite len_encode, str_len_app. cbn [str_len].
  pose proof (str_len_nonneg b). destruct (Z.leb_spec (str_len a + (len_utf8 c + str_len b)) n); [lia|].
  assert (∀ k m, (Z.to_nat (str_len a + len_utf8 c - m) < k)%nat → str_len a < m ≤ str_len a + len_utf8 c →
    ceil_loop k (encode (a ++ c :: b)) m = str_len a + len_utf8 c) as Hloop.
  { induction k as [|k IH]; intros m Hk Hm; [lia|]. cbn [ceil_loop].
    destruct (decide (m = str_len a + len_utf8 c)) as [->|Hne].
    - assert (a ++ c :: b = (a ++ [c]) ++ b) as E by (by rewrite <- app_assoc). rewrite E in *.
      replace (str_len a + len_utf8 c) with (str_len (a ++ [c])) by (rewrite str_len_app; cbn; lia).
      by rewrite boundary_app.
    - rewrite not_boundary by (done || lia). apply IH; lia. }
  apply Hloop; [|done]. pose proof (len_utf8_bounds c). lia.
Qed.
Lemma ceil_end s n : str_len s ≤ n → ceil_char_boundary (encode s) n = str_len s.
Proof. intros H. unfold ceil_char_boundary. rewrite len_encode. by rewrite (proj2 (Z.leb_le _ _)). Qed.
Lemma floor_ceil_boundary text n :
  0 ≤ n → is_char_boundary text n = true →
  floor_char_boundary text n = n ∧ ceil_char_boundary text n = n.
Proof.
  intros Hn Hb. unfold floor_char_boundary, ceil_char_boundary.
  destruct (Z.leb_spec (len text) n) as [Hle|Hgt].
  - unfold is_char_boundary in Hb. destruct (Z.eqb_spec n 0) as [->|].
    + assert (0 ≤ len text) by (unfold len; lia). lia.
    + rewrite (proj2 (Z.leb_le _ _)) in Hb by done. apply Z.eqb_eq in Hb. by rewrite Hb.
  - cbn [floor_loop ceil_loop]. by rewrite Hb.
Qed.
(** The neighbouring boundaries cut the text. *)
Lemma ceil_cuts s n : scalars s → 0 ≤ n →
  ∃ x y, s = x ++ y ∧ ceil_char_boundary (encode s) n = str_len x ∧ (is_char_boundary (encode s) n = true → str_len x = n).
Proof.
  intros Hs Hn. destruct (is_char_boundary (encode s) n) eqn:Hb.
  - destruct (floor_ceil_boundary _ n Hn Hb) as [_ ->]. apply boundary_spec in Hb as (x & y & -> & ->); [|done..]. by exists x, y.
  - destruct (Z.le_gt_cases (str_len s) n) as [Hle|Hlt]; [exists s, []; by rewrite app_nil_r, ceil_end|].
    destruct (split_point s n) as (a & c & b & -> & Hc); [lia|]. exists (a ++ [c]), b. split; [by rewrite <- app_assoc|]. split; [|done].
    rewrite str_len_app. cbn [str_len]. rewrite Z.add_0_r. apply ceil_spec; [done|].
    destruct (Z.eq_dec n (str_len a)) as [->|]; [by rewrite boundary_app in Hb|lia].
Qed.
Lemma floor_cuts s n : scalars s → 0 ≤ n →
  ∃ x y, s = x ++ y ∧ floor_char_boundary (encode s) n = str_len x ∧ (is_char_boundary (encode s) n = true → str_len x = n).
Proof.
  intros Hs Hn. destruct (is_char_boundary (encode s) n) eqn:Hb.
  - destruct (floor_ceil_boundary _ n Hn Hb) as [-> _]. apply boundary_spec in Hb as (x & y & -> & ->); [|done..]. by exists x, y.
  - destruct (Z.le_gt_cases (str_len s) n) as [Hle|Hlt]; [exists s, []; by rewrite app_nil_r, floor_end|].
    destruct (split_point s n) as (a & c & b & -> & Hc); [lia|]. exists a, (c :: b). split; [done|]. split; [|done]. by apply floor_spec.
Qed.

Lemma str_split_at_ok a b : scalars (a ++ b) → split_at (encode (a ++ b)) (str_len a) = Some (encode a, encode b).
Proof. intros Hs. unfold split_at. by rewrite boundary_app, take_encode, drop_encode. Qed.
Lemma str_index_ok a b c :
  scalars (a ++ b ++ c) →
  str_index (encode (a ++ b ++ c)) (str_len a) (str_len (a ++ b)) = Some (encode b).
Proof.
  intros Hs. unfold str_index. rewrite boundary_app by done. rewrite (app_assoc a b c) at 1.
  rewrite boundary_app by (by rewrite <- app_assoc). pose proof (str_len_nonneg b).
  rewrite str_len_app, (proj2 (Z.leb_le _ _)) by lia. cbn [andb].
  replace (str_len a + str_len b - str_len a) with (str_len b) by lia.
  by rewrite drop_encode, take_encode.
Qed.
