(* ===== verification/Chunk.v ===== *)
(** Chunks of the rope ([crates/rope/src/chunk.rs]): up to 128 bytes of text
    with bit masks that mark the starts of its characters, its UTF-16 units,
    its newlines and its tabs, so that positions are converted by counting
    bits. The definitions, what they represent, and the operations that build
    and cut chunks; [ChunkPosition] has the conversions of positions. *)
From S2P Require Import Prelude Points TextSummary SumTree Bitmap Utf8.

(** [MAX_BASE] is the number of bits of a mask in every build but the unit tests.
    [crates/rope/src/chunk.rs:14-14] MAX_BASE *)
Definition MAX_BASE : Z := Z.of_nat Bitmap.BITS.
(** [crates/rope/src/chunk.rs:13-13] MIN_BASE *)
Definition MIN_BASE : Z := MAX_BASE / 2.

(** [crates/rope/src/chunk.rs:36-38] saturating_shl_mask *)
Definition saturating_shl_mask (offset : Z) : Z :=
  Bitmap.wrapping_sub 128 (Bitmap.unbounded_shl 128 1 offset) 1.
(** [crates/rope/src/chunk.rs:41-43] saturating_shr_mask *)
Definition saturating_shr_mask (offset : Z) : Z :=
  Bitmap.not 128 (Bitmap.unbounded_shr 128 Bitmap.MAX offset).

(** ** Slices of chunks *)
Module ChunkSlice.
Import Bitmap.
(** [crates/rope/src/chunk.rs:218-224] ChunkSlice *)
Record t := mk { chars : Z; chars_utf16 : Z; newlines : Z; tabs : Z; text : list Z }.
Definition empty : t := mk 0 0 0 0 [].

(** [crates/rope/src/chunk.rs:240-242] ChunkSlice::is_empty *)
Definition is_empty (self : t) : bool := Utf8.len (text self) =? 0.
(** [crates/rope/src/chunk.rs:245-247] ChunkSlice::is_char_boundary *)
Definition is_char_boundary (self : t) (offset : Z) : bool :=
  negb (Z.land (unbounded_shl 128 1 (wrap32 offset)) (chars self) =? 0)
  || (offset =? Utf8.len (text self)).
(** [None] is the panic.
    [crates/rope/src/chunk.rs:442-452] ChunkSlice::assert_char_boundary *)
Definition assert_char_boundary (PANIC : bool) (self : t) (offset : Z) : option bool :=
  if is_char_boundary self offset then Some true
  else if PANIC then None else Some false.
(** [crates/rope/src/chunk.rs:454-456] ChunkSlice::floor_char_boundary *)
Definition floor_char_boundary (self : t) (index : Z) : Z := Utf8.floor_char_boundary (text self) index.

(** [crates/rope/src/chunk.rs:250-280] ChunkSlice::split_at *)
Definition split_at (self : t) (mid : Z) : option (t * t) :=
  if mid =? MAX_BASE then Some (self, empty)
  else
    let mask := wrapping_sub 128 (shl 128 1 mid) 1 in
    '(left_text, right_text) ← Utf8.split_at (text self) mid;
    Some (mk (Z.land (chars self) mask) (Z.land (chars_utf16 self) mask)
             (Z.land (newlines self) mask) (Z.land (tabs self) mask) left_text,
          mk (shr 128 (chars self) mid) (shr 128 (chars_utf16 self) mid)
             (shr 128 (newlines self) mid) (shr 128 (tabs self) mid) right_text).

(** [crates/rope/src/chunk.rs:283-314] ChunkSlice::slice *)
Definition slice (self : t) (start stop : Z) : option t :=
  if start =? MAX_BASE then Some empty
  else
    b ← assert_char_boundary false self start;
    let start := if (b : bool) then start else ceil_char_boundary (text self) start in
    b ← assert_char_boundary false self stop;
    let stop :=
      if (b : bool) then stop
      else if stop <? start then start else Utf8.floor_char_boundary (text self) stop in
    let mask := wrapping_sub 128 (unbounded_shl 128 1 (wrap32 stop)) 1 in
    text ← str_index (text self) start stop;
    Some (mk (shr 128 (Z.land (chars self) mask) start) (shr 128 (Z.land (chars_utf16 self) mask) start)
             (shr 128 (Z.land (newlines self) mask) start) (shr 128 (Z.land (tabs self) mask) start) text).

(** *** Summaries *)

(** [crates/rope/src/chunk.rs:335-337] ChunkSlice::len *)
Definition len (self : t) : Z := Utf8.len (text self).
(** [crates/rope/src/chunk.rs:341-343] ChunkSlice::len_utf16 *)
Definition len_utf16 (self : t) : OffsetUtf16.t := OffsetUtf16.mk (count_ones BITS (chars_utf16 self)).
(** [crates/rope/src/chunk.rs:347-351] ChunkSlice::lines *)
Definition lines (self : t) : Point.t :=
  let row := count_ones BITS (newlines self) in
  let column := leading_zeros BITS (newlines self) -w32 (Z.of_nat BITS -w32 wrap32 (Utf8.len (text self))) in
  Point.new row column.
(** [crates/rope/src/chunk.rs:355-357] ChunkSlice::first_line_chars *)
Definition first_line_chars (self : t) : Z :=
  count_ones BITS (Z.land (chars self) (saturating_shl_mask (trailing_zeros BITS (newlines self)))).
(** [crates/rope/src/chunk.rs:361-363] ChunkSlice::last_line_chars *)
Definition last_line_chars (self : t) : Z :=
  count_ones BITS (Z.land (chars self) (saturating_shr_mask (leading_zeros BITS (newlines self)))).
(** [crates/rope/src/chunk.rs:367-369] ChunkSlice::last_line_len_utf16 *)
Definition last_line_len_utf16 (self : t) : Z :=
  count_ones BITS (Z.land (chars_utf16 self) (saturating_shr_mask (leading_zeros BITS (newlines self)))).

(** The state of the loop of [longest_row]. *)
Record rows := mk_rows {
  r_chars : Z; r_newlines : Z; r_total : Z; r_row : Z; r_longest : Z; r_longest_chars : Z;
}.
(** [row_chars as u8] *)
Definition wrap8 (x : Z) : Z := x mod 2 ^ 8.
(** One iteration of the loop, or the end of the function.
    [crates/rope/src/chunk.rs:381-404] ChunkSlice::longest_row *)
Definition longest_row_step (s : rows) : option (rows + Z * (Z * Z)) :=
  let '(mk_rows chars newlines total row longest longest_chars) := s in
  if 0 <? newlines then
    let newline_ix := trailing_zeros BITS newlines in
    let row_chars :=
      wrap8 (count_ones BITS (Z.land chars (wrapping_sub 128 (shl 128 1 newline_ix) 1))) in
    let total := total +w64 row_chars in
    let '(longest, longest_chars) :=
      if longest_chars <? row_chars then (row, row_chars) else (longest, longest_chars) in
    Some (inl (mk_rows (shr 128 (shr 128 chars newline_ix) 1) (shr 128 (shr 128 newlines newline_ix) 1)
                 (total +w64 1) (row +w32 1) longest longest_chars))
  else
    let row_chars := wrap8 (count_ones BITS chars) in
    let total := total +w64 row_chars in
    Some (inr (total, if longest_chars <? row_chars then (row, row_chars) else (longest, longest_chars))).
(** The number of characters, the longest row and its characters.
    [crates/rope/src/chunk.rs:374-405] ChunkSlice::longest_row *)
Definition longest_row (self : t) : option (Z * (Z * Z)) :=
  iterate longest_row_step (S (S BITS)) (mk_rows (chars self) (newlines self) 0 0 0 0).
(** [crates/rope/src/chunk.rs:317-331] ChunkSlice::text_summary *)
Definition text_summary (self : t) : option TextSummary.t :=
  '(chars, (longest_row, longest_row_chars)) ← longest_row self;
  Some (TextSummary.mk (len self) chars (len_utf16 self) (lines self) (first_line_chars self)
          (last_line_chars self) (last_line_len_utf16 self) longest_row longest_row_chars).

(** *** Positions

    [debug_assertions] says whether it is a debug build. *)
(** [debug_panic!]: it panics in a debug build; a release build writes a log
    entry and goes on. *)
Definition debug_panic {A} (debug_assertions : bool) (rest : option A) : option A :=
  if debug_assertions then None else rest.

(** [crates/rope/src/chunk.rs:408-414] ChunkSlice::offset_to_point *)
Definition offset_to_point (self : t) (offset : Z) : Point.t :=
  let mask := wrapping_sub 128 (unbounded_shl 128 1 (wrap32 offset)) 1 in
  let row := count_ones BITS (Z.land (newlines self) mask) in
  let newline_ix := Z.of_nat BITS -w32 leading_zeros BITS (Z.land (newlines self) mask) in
  let column := wrap32 (offset -w64 newline_ix) in
  Point.new row column.

(** [crates/rope/src/chunk.rs:655-674] ChunkSlice::offset_range_for_row *)
Definition offset_range_for_row (self : t) (row : Z) : Z * Z :=
  let row_start := if 0 <? row then nth_set_bit (newlines self) row +w64 1 else 0 in
  let row_len :=
    if row_start =? MAX_BASE then 0
    else Z.min (trailing_zeros BITS (shr 128 (newlines self) row_start))
               (wrap32 (Utf8.len (text self) -w64 row_start)) in
  (row_start, row_start +w64 row_len).
(** [Range::len] *)
Definition range_len (range : Z * Z) : Z := saturating_sub (snd range) (fst range).

(** [crates/rope/src/chunk.rs:417-438] ChunkSlice::point_to_offset *)
Definition point_to_offset (debug_assertions : bool) (self : t) (point : Point.t) : option Z :=
  if Point.row (lines self) <? Point.row point then debug_panic debug_assertions (Some (len self))
  else
    let row_offset_range := offset_range_for_row self (Point.row point) in
    if wrap32 (range_len row_offset_range) <? Point.column point
    then debug_panic debug_assertions (Some (snd row_offset_range))
    else Some (fst row_offset_range +w64 Point.column point).

(** [crates/rope/src/chunk.rs:472-475] ChunkSlice::offset_to_offset_utf16 *)
Definition offset_to_offset_utf16 (self : t) (offset : Z) : OffsetUtf16.t :=
  let mask := wrapping_sub 128 (unbounded_shl 128 1 (wrap32 offset)) 1 in
  OffsetUtf16.mk (count_ones BITS (Z.land (chars_utf16 self) mask)).
(** [crates/rope/src/chunk.rs:459-469] ChunkSlice::point_to_offset_utf16 *)
Definition point_to_offset_utf16 (debug_assertions : bool) (self : t) (point : Point.t) : option OffsetUtf16.t :=
  if Point.row (lines self) <? Point.row point then debug_panic debug_assertions (Some (len_utf16 self))
  else offset_to_offset_utf16 self <$> point_to_offset debug_assertions self point.
(** [crates/rope/src/chunk.rs:478-497] ChunkSlice::offset_utf16_to_offset *)
Definition offset_utf16_to_offset (self : t) (target : OffsetUtf16.t) : Z :=
  if OffsetUtf16.offset target =? 0 then 0
  else
    let ix := nth_set_bit (chars_utf16 self) (OffsetUtf16.offset target) +w64 1 in
    if ix =? MAX_BASE then MAX_BASE
    else
      let utf8_additional_len :=
        Z.min (trailing_zeros BITS (shr 128 (chars_utf16 self) ix)) (Utf8.len (text self) -w64 ix) in
      ix +w64 utf8_additional_len.

(** [crates/rope/src/chunk.rs:500-510] ChunkSlice::offset_to_point_utf16 *)
Definition offset_to_point_utf16 (self : t) (offset : Z) : PointUtf16.t :=
  let mask := saturating_shl_mask (wrap32 offset) in
  let row := count_ones BITS (Z.land (newlines self) (saturating_shl_mask (wrap32 offset))) in
  let newline_ix := Z.of_nat BITS -w32 leading_zeros BITS (Z.land (newlines self) mask) in
  let column :=
    if newline_ix =? MAX_BASE then 0
    else count_ones BITS (shr 128 (Z.land (chars_utf16 self) mask) newline_ix) in
  PointUtf16.new row column.
(** [crates/rope/src/chunk.rs:513-515] ChunkSlice::point_to_point_utf16 *)
Definition point_to_point_utf16 (debug_assertions : bool) (self : t) (point : Point.t) : option PointUtf16.t :=
  offset_to_point_utf16 self <$> point_to_offset debug_assertions self point.

(** The loop that steps to a boundary of the text.
    [crates/rope/src/chunk.rs:547-551] ChunkSlice::point_utf16_to_offset *)
Fixpoint back_to_boundary (fuel : nat) (text : list Z) (offset : Z) : option Z :=
  match fuel with
  | O => None
  | S fuel =>
      if Utf8.is_char_boundary text offset then Some offset
      else back_to_boundary fuel text (offset -w64 1)
  end.
(** [crates/rope/src/chunk.rs:518-562] ChunkSlice::point_utf16_to_offset *)
Definition point_utf16_to_offset (debug_assertions : bool) (self : t) (point : PointUtf16.t) (clip : bool) : option Z :=
  let debug_panic := debug_panic (A := Z) (debug_assertions && negb clip) in
  let lines := lines self in
  if Point.row lines <? PointUtf16.row point then debug_panic (Some (len self))
  else
    let row_offset_range := offset_range_for_row self (PointUtf16.row point) in
    line ← slice self (fst row_offset_range) (snd row_offset_range);
    if last_line_len_utf16 line <? PointUtf16.column point then debug_panic (Some (snd row_offset_range))
    else
      let offset := fst row_offset_range in
      if 0 <? PointUtf16.column point then
        let offset :=
          offset +w64 offset_utf16_to_offset line (OffsetUtf16.mk (PointUtf16.column point)) in
        if Utf8.is_char_boundary (text self) offset then Some offset
        else debug_panic (back_to_boundary (length (text self)) (text self) (offset -w64 1))
      else Some offset.

(** [crates/rope/src/chunk.rs:565-584] ChunkSlice::unclipped_point_utf16_to_point *)
Definition unclipped_point_utf16_to_point (self : t) (point : Unclipped.t PointUtf16.t) : option Point.t :=
  let max_point := lines self in
  let row := PointUtf16.row (Unclipped.inner point) in
  let column := PointUtf16.column (Unclipped.inner point) in
  if Point.row max_point <? row then Some max_point
  else
    let row_offset_range := offset_range_for_row self row in
    line ← slice self (fst row_offset_range) (snd row_offset_range);
    if column =? 0 then Some (Point.new row 0)
    else if wrap32 (OffsetUtf16.offset (len_utf16 line)) <=? column
    then Some (Point.new row (wrap32 (len line)))
    else
      c ← back_to_boundary (S (length (text line))) (text line)
            (offset_utf16_to_offset line (OffsetUtf16.mk column));
      Some (Point.new row (wrap32 c)).

(** The loop that steps to a boundary in the direction of the bias.
    [crates/rope/src/chunk.rs:643-649] ChunkSlice::clip_offset_utf16 *)
Fixpoint to_boundary (fuel : nat) (bias : bias) (text : list Z) (offset : Z) : option Z :=
  match fuel with
  | O => None
  | S fuel =>
      if Utf8.is_char_boundary text offset then Some offset
      else to_boundary fuel bias text
             match bias with Left => offset -w64 1 | Right => offset +w64 1 end
  end.
(** [crates/rope/src/chunk.rs:636-652] ChunkSlice::clip_offset_utf16 *)
Definition clip_offset_utf16 (self : t) (target : OffsetUtf16.t) (bias : bias) : option OffsetUtf16.t :=
  if OffsetUtf16.offset target =? 0 then Some (OffsetUtf16.mk 0)
  else if is_ge (OffsetUtf16.cmp target (len_utf16 self)) then Some (len_utf16 self)
  else
    offset ← to_boundary (S (length (text self))) bias (text self) (offset_utf16_to_offset self target);
    Some (offset_to_offset_utf16 self offset).
(** [crates/rope/src/chunk.rs:624-633] ChunkSlice::clip_point_utf16 *)
Definition clip_point_utf16 (self : t) (point : Unclipped.t PointUtf16.t) (bias : bias)
  : option PointUtf16.t :=
  let max_point := lines self in
  let row := PointUtf16.row (Unclipped.inner point) in
  if Point.row max_point <? row
  then Some (PointUtf16.new (Point.row max_point) (last_line_len_utf16 self))
  else
    let range := offset_range_for_row self row in
    line ← slice self (fst range) (snd range);
    column ← clip_offset_utf16 line (OffsetUtf16.mk (PointUtf16.column (Unclipped.inner point))) bias;
    Some (PointUtf16.new row (wrap32 (OffsetUtf16.offset column))).

(** *** Clipping to grapheme clusters

    [GraphemeCursor] belongs to [unicode_segmentation]: a cursor in a whole
    text decides whether an offset is a boundary of grapheme clusters. *)
Section graphemes.
Variable is_boundary : list Z → Z → bool.

(** [crates/rope/src/chunk.rs:605-618] ChunkSlice::clip_point *)
Fixpoint clip_column (fuel : nat) (line : t) (bias : bias) (column : Z) : option Z :=
  match fuel with
  | O => None
  | S fuel =>
      if is_char_boundary line column && is_boundary (text line) column then Some column
      else clip_column fuel line bias
             match bias with Left => column -w64 1 | Right => column +w64 1 end
  end.
(** [crates/rope/src/chunk.rs:587-621] ChunkSlice::clip_point *)
Definition clip_point (self : t) (point : Point.t) (bias : bias) : option Point.t :=
  let max_point := lines self in
  if Point.row max_point <? Point.row point then Some max_point
  else
    let range := offset_range_for_row self (Point.row point) in
    line ← slice self (fst range) (snd range);
    if Point.column point =? 0 then Some point
    else if wrap32 (len line) <=? Point.column point
    then Some (Point.new (Point.row point) (wrap32 (len line)))
    else
      let column := Point.column point in
      let bytes := text line in
      before ← bytes !! Z.to_nat (column - 1);
      after ← bytes !! Z.to_nat column;
      if (before <? 128) && (after <? 128)
      then Some (Point.new (Point.row point) (wrap32 column))
      else
        column ← clip_column (S (length bytes)) line bias column;
        Some (Point.new (Point.row point) (wrap32 column)).
End graphemes.
End ChunkSlice.

(** ** Chunks *)
Module Chunk.
Import Bitmap.
(** [crates/rope/src/chunk.rs:17-33] Chunk *)
Record t := mk { chars : Z; chars_utf16 : Z; newlines : Z; tabs : Z; text : list Z }.
Definition default : t := mk 0 0 0 0 [].

(** [ArrayString::push_str], [unwrap]ped: there is room for [MAX_BASE] bytes. *)
Definition push_text (buf : list Z) (s : list Z) : option (list Z) :=
  if Utf8.len buf + Utf8.len s <=? MAX_BASE then Some (buf ++ s) else None.

(** The masks of the bytes of one group, as [u8]s. *)
Record flags := mk_flags { f_chars : Z; f_newlines : Z; f_tabs : Z; f_utf16 : Z }.
(** [crates/rope/src/chunk.rs:75-83] Chunk::new *)
Fixpoint group_flags (ix : Z) (chunk : list Z) (f : flags) : flags :=
  match chunk with
  | [] => f
  | b :: chunk =>
      group_flags (ix + 1) chunk
        (mk_flags
           (Z.lor (f_chars f) (Z.shiftl (Z.b2z (is_utf8_char_boundary b)) ix))
           (Z.lor (f_newlines f) (Z.shiftl (Z.b2z (b =? newline)) ix))
           (Z.lor (f_tabs f) (Z.shiftl (Z.b2z (b =? tab)) ix))
           (Z.lor (f_utf16 f) (Z.shiftl (Z.b2z (240 <=? b)) ix)))
  end.
(** The arrays of bytes that become the masks. *)
Record arrays := mk_arrays {
  chars_bytes : list Z; newlines_bytes : list Z; tabs_bytes : list Z; chars_utf16_bytes : list Z;
}.
(** [crates/rope/src/chunk.rs:65-91] Chunk::new *)
Definition new_step (s : list Z * nat * arrays) : option ((list Z * nat * arrays) + arrays) :=
  let '(bytes, chunk_ix, a) := s in
  match bytes with
  | [] => Some (inr a)
  | _ =>
      let n := Nat.min (length bytes) 8 in
      let f := group_flags 0 (take n bytes) (mk_flags 0 0 0 0) in
      guard (chunk_ix < length (chars_bytes a))%nat;;
      Some (inl (drop n bytes, S chunk_ix,
        mk_arrays (<[chunk_ix := f_chars f]> (chars_bytes a))
          (<[chunk_ix := f_newlines f]> (newlines_bytes a))
          (<[chunk_ix := f_tabs f]> (tabs_bytes a))
          (<[chunk_ix := f_utf16 f]> (chars_utf16_bytes a))))
  end.
(** [Bitmap::from_le_bytes] *)
Definition from_le_bytes (bytes : list Z) : Z := foldr (λ b acc, b + 256 * acc) 0 bytes.
(** [crates/rope/src/chunk.rs:49-102] Chunk::new *)
Definition new (text : list Z) : option t :=
  text ← push_text [] text;
  let zeros := replicate (BITS / 8) 0 in
  a ← iterate new_step (S (length text)) (text, 0%nat, mk_arrays zeros zeros zeros zeros);
  let chars := from_le_bytes (chars_bytes a) in
  Some (mk chars (Z.lor (shl 128 (from_le_bytes (chars_utf16_bytes a)) 1) chars)
          (from_le_bytes (newlines_bytes a)) (from_le_bytes (tabs_bytes a)) text).

(** [crates/rope/src/chunk.rs:151-159] Chunk::as_slice *)
Definition as_slice (self : t) : ChunkSlice.t :=
  ChunkSlice.mk (chars self) (chars_utf16 self) (newlines self) (tabs self) (text self).
(** [crates/rope/src/chunk.rs:226-236] Into<Chunk> for ChunkSlice *)
Definition from_slice (self : ChunkSlice.t) : option t :=
  text ← push_text [] (ChunkSlice.text self);
  Some (mk (ChunkSlice.chars self) (ChunkSlice.chars_utf16 self) (ChunkSlice.newlines self)
          (ChunkSlice.tabs self) text).

(** [crates/rope/src/chunk.rs:115-126] Chunk::append *)
Definition append (self : t) (slice : ChunkSlice.t) : option t :=
  if ChunkSlice.is_empty slice then Some self
  else
    let base_ix := Utf8.len (text self) in
    text ← push_text (text self) (ChunkSlice.text slice);
    Some (mk (Z.lor (chars self) (shl 128 (ChunkSlice.chars slice) base_ix))
             (Z.lor (chars_utf16 self) (shl 128 (ChunkSlice.chars_utf16 slice) base_ix))
             (Z.lor (newlines self) (shl 128 (ChunkSlice.newlines slice) base_ix))
             (Z.lor (tabs self) (shl 128 (ChunkSlice.tabs slice) base_ix)) text).
(** [crates/rope/src/chunk.rs:129-148] Chunk::prepend *)
Definition prepend (self : t) (slice : ChunkSlice.t) : option t :=
  if ChunkSlice.is_empty slice then Some self
  else if Utf8.len (text self) =? 0 then new (ChunkSlice.text slice)
  else
    let shift := Utf8.len (ChunkSlice.text slice) in
    new_text ← push_text [] (ChunkSlice.text slice);
    new_text ← push_text new_text (text self);
    Some (mk (Z.lor (ChunkSlice.chars slice) (shl 128 (chars self) shift))
             (Z.lor (ChunkSlice.chars_utf16 slice) (shl 128 (chars_utf16 self) shift))
             (Z.lor (ChunkSlice.newlines slice) (shl 128 (newlines self) shift))
             (Z.lor (ChunkSlice.tabs slice) (shl 128 (tabs self) shift)) new_text).
(** [crates/rope/src/chunk.rs:105-107] Chunk::push_str *)
Definition push_str (self : t) (text : list Z) : option t :=
  c ← new text; append self (as_slice c).
(** [crates/rope/src/chunk.rs:110-112] Chunk::prepend_str *)
Definition prepend_str (self : t) (text : list Z) : option t :=
  c ← new text; prepend self (as_slice c).

(** [crates/rope/src/chunk.rs:162-164] Chunk::slice *)
Definition slice (self : t) (start stop : Z) : option ChunkSlice.t :=
  ChunkSlice.slice (as_slice self) start stop.
(** [crates/rope/src/chunk.rs:182-184] Chunk::is_char_boundary *)
Definition is_char_boundary (self : t) (offset : Z) : bool :=
  negb (Z.land (unbounded_shl 128 1 (wrap32 offset)) (chars self) =? 0)
  || (offset =? Utf8.len (text self)).
(** [crates/rope/src/chunk.rs:190-198] Chunk::floor_char_boundary *)
Fixpoint floor_loop (fuel : nat) (text : list Z) (i : Z) : option Z :=
  match fuel with
  | O => None
  | S fuel =>
      if 0 <? i then
        b ← text !! Z.to_nat i;
        if is_utf8_char_boundary b then Some i else floor_loop fuel text (i -w64 1)
      else Some i
  end.
(** [crates/rope/src/chunk.rs:186-200] Chunk::floor_char_boundary *)
Definition floor_char_boundary (self : t) (index : Z) : option Z :=
  if Utf8.len (text self) <=? index then Some (Utf8.len (text self))
  else floor_loop (S (length (text self))) (text self) index.
(** A release build; a debug build panics in both cases.
    [crates/rope/src/chunk.rs:204-214] Chunk::assert_char_boundary *)
Definition assert_char_boundary (PANIC : bool) (self : t) (offset : Z) : option bool :=
  if is_char_boundary self offset then Some true
  else if PANIC then None else Some false.
End Chunk.

(** ** Tabs *)
Module Tabs.
Import Bitmap.
(** [crates/rope/src/chunk.rs:685-688] Tabs *)
Record t := mk { tabs : Z; chars : Z }.
(** [crates/rope/src/chunk.rs:691-694] TabPosition *)
Record TabPosition := mk_position { byte_offset : Z; char_offset : Z }.
(** [crates/rope/src/chunk.rs:677-682] ChunkSlice::tabs *)
Definition of_slice (self : ChunkSlice.t) : t := mk (ChunkSlice.tabs self) (ChunkSlice.chars self).
(** [crates/rope/src/chunk.rs:696-718] Iterator for Tabs *)
Definition next (self : t) : t * option TabPosition :=
  if tabs self =? 0 then (self, None)
  else
    let tab_offset := trailing_zeros BITS (tabs self) in
    let chars_mask := wrapping_sub 128 (shl 128 1 tab_offset) 1 in
    let char_offset := count_ones BITS (Z.land (chars self) chars_mask) in
    (mk (Z.lxor (tabs self) (shl 128 1 tab_offset)) (chars self),
     Some (mk_position tab_offset char_offset)).
(** The items that the iterator yields. *)
Fixpoint collect (fuel : nat) (self : t) : option (list TabPosition) :=
  match fuel with
  | O => None
  | S fuel =>
      match next self with
      | (_, None) => Some []
      | (self, Some x) => l ← collect fuel self; Some (x :: l)
      end
  end.
End Tabs.

(** ** The chunk of a text *)

(** One bit per byte: [f c] are the bits of the character [c]. *)
Definition marks (f : Z → list bool) (s : str) : list bool := concat (map f s).
(** A bit at the start of the character, and none in the rest. *)
Definition at_start (b : bool) (c : Z) : list bool := b :: replicate (Z.to_nat (len_utf8 c - 1)) false.
Definition char_bits (c : Z) : list bool := at_start true c.
Definition utf16_bits (c : Z) : list bool :=
  if len_utf16 c =? 2 then [true; true; false; false] else at_start true c.
Definition newline_bits (c : Z) : list bool := at_start (c =? newline) c.
Definition tab_bits (c : Z) : list bool := at_start (c =? tab) c.

Definition mask (f : Z → list bool) (s : str) : Z := Bitmap.of_bits (marks f s).
Definition slice_of (s : str) : ChunkSlice.t :=
  ChunkSlice.mk (mask char_bits s) (mask utf16_bits s) (mask newline_bits s) (mask tab_bits s) (encode s).
Definition chunk_of (s : str) : Chunk.t :=
  Chunk.mk (mask char_bits s) (mask utf16_bits s) (mask newline_bits s) (mask tab_bits s) (encode s).

(** Reading the fields of the chunk and the slice of a text. *)
Ltac fields := cbn [mbind option_bind Chunk.chars Chunk.chars_utf16 Chunk.newlines Chunk.tabs Chunk.text
  chunk_of ChunkSlice.chars ChunkSlice.chars_utf16 ChunkSlice.newlines ChunkSlice.tabs ChunkSlice.text slice_of].

(** The functions that give one bit per byte. *)
Class Bits (f : Z → list bool) := length_bits c : Z.of_nat (length (f c)) = len_utf8 c.
Lemma length_at_start b c : Z.of_nat (length (at_start b c)) = len_utf8 c.
Proof. pose proof (len_utf8_bounds c). unfold at_start. cbn [length]. rewrite length_replicate. lia. Qed.
#[export] Instance char_bits_ok : Bits char_bits.
Proof. intros c. apply length_at_start. Qed.
#[export] Instance newline_bits_ok : Bits newline_bits.
Proof. intros c. apply length_at_start. Qed.
#[export] Instance tab_bits_ok : Bits tab_bits.
Proof. intros c. apply length_at_start. Qed.
Lemma len_utf16_two c : len_utf16 c = 2 ↔ len_utf8 c = 4.
Proof. unfold len_utf16, len_utf8. repeat split_if; reflect; split; intros; try lia. Qed.
#[export] Instance utf16_bits_ok : Bits utf16_bits.
Proof.
  intros c. unfold utf16_bits. destruct (Z.eqb_spec (len_utf16 c) 2) as [H|]; [|apply length_at_start].
  by apply len_utf16_two in H as ->.
Qed.

Section marks.
Context (f : Z → list bool) `{!Bits f}.
Lemma marks_app s t : marks f (s ++ t) = marks f s ++ marks f t.
Proof. unfold marks. by rewrite map_app, concat_app. Qed.
Lemma marks_cons c s : marks f (c :: s) = f c ++ marks f s.
Proof. done. Qed.
Lemma length_marks s : length (marks f s) = Z.to_nat (str_len s).
Proof.
  enough (Z.of_nat (length (marks f s)) = str_len s) by lia.
  induction s as [|c s IH]; [done|]. rewrite marks_cons, length_app, Nat2Z.inj_add, IH, length_bits. done.
Qed.
Lemma take_marks s t : take (Z.to_nat (str_len s)) (marks f (s ++ t)) = marks f s.
Proof. by rewrite marks_app, take_app_length' by (by rewrite length_marks). Qed.
Lemma drop_marks s t : drop (Z.to_nat (str_len s)) (marks f (s ++ t)) = marks f t.
Proof. by rewrite marks_app, drop_app_length' by (by rewrite length_marks). Qed.
Lemma mask_bound s : 0 ≤ mask f s < 2 ^ str_len s.
Proof.
  unfold mask. pose proof (Bitmap.of_bits_bound (marks f s)) as H. rewrite length_marks in H.
  pose proof (str_len_nonneg s). by rewrite Z2Nat.id in H.
Qed.

(** Shifting, masking and joining masks is cutting and joining texts. *)
Lemma mask_shiftr s t : Z.shiftr (mask f (s ++ t)) (str_len s) = mask f t.
Proof.
  unfold mask. pose proof (str_len_nonneg s).
  rewrite <- (Z2Nat.id (str_len s)), Bitmap.shiftr_bits by done. by rewrite drop_marks.
Qed.
Lemma mask_land s t : Z.land (mask f (s ++ t)) (Z.ones (str_len s)) = mask f s.
Proof.
  unfold mask. pose proof (str_len_nonneg s).
  rewrite <- (Z2Nat.id (str_len s)), Bitmap.land_ones_bits by done. by rewrite take_marks.
Qed.
Lemma mask_lor s t : Z.lor (mask f s) (Z.shiftl (mask f t) (str_len s)) = mask f (s ++ t).
Proof.
  unfold mask. pose proof (str_len_nonneg s).
  rewrite <- (Z2Nat.id (str_len s)), <- length_marks, Bitmap.lor_shiftl_bits by done. by rewrite marks_app.
Qed.
Lemma mask_shl s t :
  str_len s + str_len t ≤ 128 → t ≠ [] →
  Bitmap.shl 128 (mask f t) (str_len s) = Z.shiftl (mask f t) (str_len s).
Proof.
  intros H Ht. unfold Bitmap.shl. pose proof (str_len_nonneg s).
  assert (0 < str_len t) by (destruct t as [|c t]; [done|]; cbn [str_len]; pose proof (len_utf8_bounds c); pose proof (str_len_nonneg t); lia).
  rewrite (Z.mod_small (str_len s)) by lia. apply Z.mod_small.
  rewrite Z.shiftl_mul_pow2 by done. pose proof (mask_bound t).
  pose proof (Z.pow_le_mono_r 2 (str_len t) (128 - str_len s) ltac:(lia) ltac:(lia)).
  pose proof (Z.pow_add_r 2 (str_len s) (128 - str_len s) ltac:(lia) ltac:(lia)) as E.
  replace (str_len s + (128 - str_len s)) with 128 in E by lia. rewrite E. nia.
Qed.
End marks.
Arguments Bits f : clear implicits.

Lemma mask_nil f : mask f [] = 0.
Proof. done. Qed.
Lemma mul_pow_mask n : 0 ≤ n → 2 ^ n - 1 = Z.ones n.
Proof. intros. rewrite Z.ones_equiv. lia. Qed.

(** The masks that the code computes for the first [n] bits. *)
Lemma low_mask n : 0 ≤ n ≤ 128 → Bitmap.wrapping_sub 128 (Bitmap.unbounded_shl 128 1 n) 1 = Z.ones n.
Proof.
  intros Hn. unfold Bitmap.wrapping_sub, Bitmap.unbounded_shl. destruct (Z.ltb_spec n 128).
  - rewrite Z.shiftl_1_l. pose proof (Z.pow_lt_mono_r 2 n 128 ltac:(lia) ltac:(lia)).
    pose proof (Z.pow_pos_nonneg 2 n ltac:(lia) ltac:(lia)).
    rewrite (Z.mod_small (2 ^ n)), Z.mod_small, Z.ones_equiv by lia. lia.
  - by replace n with 128 by lia.
Qed.
Lemma low_mask_shl n : 0 ≤ n < 128 → Bitmap.wrapping_sub 128 (Bitmap.shl 128 1 n) 1 = Z.ones n.
Proof.
  intros Hn. rewrite <- low_mask by lia. unfold Bitmap.unbounded_shl, Bitmap.shl.
  rewrite (proj2 (Z.ltb_lt _ _)), (Z.mod_small n) by lia. done.
Qed.

(** ** Building chunks *)

(** The tests on the bytes of a text are the bits of its characters. *)
Lemma map_encode_char (p : Z → bool) c b bs :
  encode_char c = b :: bs → length bs = Z.to_nat (len_utf8 c - 1) → Forall (λ x, 128 ≤ x < 192) bs →
  (∀ x, 128 ≤ x < 192 → p x = false) → map p (encode_char c) = at_start (p b) c.
Proof.
  intros -> Hl Hbs Hp. cbn [map]. unfold at_start. rewrite <- Hl. clear Hl. f_equal.
  induction Hbs as [|x bs Hx Hbs IH]; [done|]. cbn [map length replicate]. by rewrite IH, Hp.
Qed.
Lemma map_encode (p : Z → bool) (q : Z → bool) s :
  scalars s → (∀ x, 128 ≤ x < 192 → p x = false) →
  (∀ c b bs, is_scalar c → encode_char c = b :: bs → p b = q c) →
  map p (encode s) = marks (λ c, at_start (q c) c) s.
Proof.
  intros Hs Hp Hq. induction Hs as [|c s Hc Hs IH]; [done|].
  rewrite encode_cons, map_app, IH. cbn [marks map concat]. f_equal.
  destruct (encode_char_bytes c Hc) as (b & bs & E & _ & _ & _ & _ & _ & Hl & Hbs).
  rewrite (map_encode_char p c b bs) by done. by rewrite (Hq c b bs).
Qed.
Lemma map_char_bits s : scalars s → map is_utf8_char_boundary (encode s) = marks char_bits s.
Proof.
  intros Hs. apply (map_encode _ (λ _, true)); [done|apply continuation_byte|].
  intros c b bs Hc E. destruct (encode_char_bytes c Hc) as (b' & bs' & E' & _ & Hb & _). congruence.
Qed.
Lemma map_ascii_bits k s :
  0 ≤ k < 128 → scalars s → map (λ b, b =? k) (encode s) = marks (λ c, at_start (c =? k) c) s.
Proof.
  intros Hk Hs. apply map_encode; [done|intros x Hx; apply Z.eqb_neq; lia|].
  intros c b bs Hc E. destruct (encode_char_bytes c Hc) as (b' & bs' & E' & H0 & _ & _ & H1 & H2 & _).
  assert (b' = b) as -> by congruence. apply eq_true_iff_eq. rewrite !Z.eqb_eq.
  split; [intros ->; by rewrite <- H2 by lia|intros ->].
  apply H2. apply H1. unfold len_utf8. by rewrite (proj2 (Z.ltb_lt _ _)) by lia.
Qed.
Definition lead4_bits (c : Z) : list bool := at_start (len_utf8 c =? 4) c.
Lemma map_lead4_bits s : scalars s → map (λ b, 240 <=? b) (encode s) = marks lead4_bits s.
Proof.
  intros Hs. apply (map_encode _ (λ c, len_utf8 c =? 4)); [done|intros x Hx; apply Z.leb_gt; lia|].
  intros c b bs Hc E. destruct (encode_char_bytes c Hc) as (b' & bs' & E' & _ & _ & H & _).
  assert (b' = b) as -> by congruence. apply eq_true_iff_eq. by rewrite Z.leb_le, Z.eqb_eq.
Qed.
#[export] Instance lead4_bits_ok : Bits lead4_bits.
Proof. intros c. apply length_at_start. Qed.

(** *** The loop over groups of eight bytes *)

(** [loaded k done arr p]: the first [k] bytes of the array hold the bits of
    the bytes that are [done]. *)
Definition loaded (p : Z → bool) (k : nat) (done : list Z) (arr : list Z) : Prop :=
  length arr = 16%nat ∧ Chunk.from_le_bytes arr = Bitmap.of_bits (map p done) ∧
  ∀ i, (k ≤ i < 16)%nat → arr !! i = Some 0.

Lemma from_le_insert arr k x :
  arr !! k = Some 0 →
  Chunk.from_le_bytes (<[k := x]> arr) = Chunk.from_le_bytes arr + 2 ^ (8 * Z.of_nat k) * x.
Proof.
  revert k. induction arr as [|y arr IH]; intros [|k] H; try done.
  - injection H as ->. cbn. lia.
  - change (<[S k := x]> (y :: arr)) with (y :: <[k := x]> arr).
    change (Chunk.from_le_bytes (?a :: ?l)) with (a + 256 * Chunk.from_le_bytes l).
    rewrite IH by done. replace (8 * Z.of_nat (S k)) with (8 + 8 * Z.of_nat k) by lia.
    rewrite Z.pow_add_r by lia. change (2 ^ 8) with 256. lia.
Qed.
Lemma loaded_step p k done arr g :
  loaded p k done arr → length done = (8 * k)%nat → (k < 16)%nat →
  loaded p (S k) (done ++ g) (<[k := Bitmap.of_bits (map p g)]> arr).
Proof.
  intros (Hl & He & Hz) Hd Hk. split_and!.
  - by rewrite length_insert.
  - rewrite from_le_insert by (apply Hz; lia). rewrite He, map_app, Bitmap.of_bits_app, length_map, Hd.
    do 3 f_equal. lia.
  - intros i Hi. rewrite list_lookup_insert_ne by lia. apply Hz. lia.
Qed.

(** The flags of a group, one mask at a time. *)
Lemma lor_bit pre b ix :
  ix = Z.of_nat (length pre) →
  Z.lor (Bitmap.of_bits pre) (Z.shiftl (Z.b2z b) ix) = Bitmap.of_bits (pre ++ [b]).
Proof.
  intros ->. rewrite <- Bitmap.lor_shiftl_bits. do 2 f_equal. cbn [Bitmap.of_bits]. lia.
Qed.
Definition flags_of (g : list Z) : Chunk.flags :=
  Chunk.mk_flags (Bitmap.of_bits (map is_utf8_char_boundary g))
    (Bitmap.of_bits (map (λ b, b =? newline) g)) (Bitmap.of_bits (map (λ b, b =? tab) g))
    (Bitmap.of_bits (map (λ b, 240 <=? b) g)).
Lemma group_flags_ok pre g :
  Chunk.group_flags (Z.of_nat (length pre)) g (flags_of pre) = flags_of (pre ++ g).
Proof.
  revert pre. induction g as [|b g IH]; intros pre; [by rewrite app_nil_r|].
  cbn [Chunk.group_flags]. change (b :: g) with ([b] ++ g). rewrite app_assoc, <- IH.
  rewrite length_app. replace (Z.of_nat (length pre + length [b])) with (Z.of_nat (length pre) + 1) by (cbn; lia).
  f_equal. unfold flags_of at 1 2 3 4 5. cbn [Chunk.f_chars Chunk.f_newlines Chunk.f_tabs Chunk.f_utf16].
  rewrite !lor_bit by (by rewrite length_map). by rewrite !map_app.
Qed.

Lemma group_flags_start g : Chunk.group_flags 0 g (Chunk.mk_flags 0 0 0 0) = flags_of g.
Proof. exact (group_flags_ok [] g). Qed.

Definition all_loaded (k : nat) (done : list Z) (a : Chunk.arrays) : Prop :=
  loaded is_utf8_char_boundary k done (Chunk.chars_bytes a) ∧
  loaded (λ b, b =? newline) k done (Chunk.newlines_bytes a) ∧
  loaded (λ b, b =? tab) k done (Chunk.tabs_bytes a) ∧
  loaded (λ b, 240 <=? b) k done (Chunk.chars_utf16_bytes a).

Lemma new_loop fuel bytes k done a :
  (length bytes < fuel)%nat → (bytes = [] ∨ length done = (8 * k)%nat) →
  (length done + length bytes ≤ 128)%nat → all_loaded k done a →
  ∃ k' a', iterate Chunk.new_step fuel (bytes, k, a) = Some a' ∧ all_loaded k' (done ++ bytes) a'.
Proof.
  revert bytes k done a. induction fuel as [|fuel IH]; intros bytes k done a Hf Hk Hn Ha; [lia|].
  cbn [iterate Chunk.new_step]. destruct bytes as [|b bytes]; [rewrite app_nil_r; by exists k, a|].
  destruct Hk as [|Hk]; [done|]. set (bs := b :: bytes) in *. set (n := Nat.min (length bs) 8).
  rewrite !group_flags_start. destruct Ha as (A1 & A2 & A3 & A4).
  assert (0 < length bs)%nat as Hb by (unfold bs; cbn [length]; lia).
  rewrite option_guard_True by (destruct A1 as [-> _]; lia). cbn [mbind option_bind app].
  edestruct (IH (drop n bs) (S k) (done ++ take n bs)) as (k' & a' & -> & Ha').
  - rewrite length_drop. lia.
  - rewrite length_app, length_take. unfold n.
    destruct (decide (length bs ≤ 8)%nat); [left; apply drop_ge; lia|right; lia].
  - rewrite length_app, length_take, length_drop. lia.
  - split_and!; (apply loaded_step; [done|done|lia]).
  - exists k', a'. rewrite <- app_assoc, take_drop in Ha'. done.
Qed.

(** *** UTF-16 units: the second bit of a four-byte character *)

Fixpoint orbs (a b : list bool) : list bool :=
  match a, b with
  | x :: a, y :: b => (x || y) :: orbs a b
  | [], b => b
  | a, [] => a
  end.
Lemma nth_orbs a b i : nth i (orbs a b) false = nth i a false || nth i b false.
Proof.
  revert b i. induction a as [|x a IH]; intros [|y b] [|i]; cbn [orbs nth]; try done.
  - by rewrite orb_false_r.
  - by rewrite orb_false_r.
Qed.
Lemma lor_bits a b : Z.lor (Bitmap.of_bits a) (Bitmap.of_bits b) = Bitmap.of_bits (orbs a b).
Proof.
  apply Z.bits_inj'. intros i Hi. rewrite <- (Z2Nat.id i), Z.lor_spec by done.
  by rewrite !Bitmap.testbit_bits, nth_orbs.
Qed.
Lemma orbs_app a b c d : length a = length c → orbs (a ++ b) (c ++ d) = orbs a c ++ orbs b d.
Proof.
  revert c. induction a as [|x a IH]; intros [|y c] H; try done. cbn. by rewrite IH by (by injection H).
Qed.
Lemma utf16_marks s : orbs (false :: marks lead4_bits s) (marks char_bits s) = marks utf16_bits s ++ [false].
Proof.
  induction s as [|c s IH]; [done|]. rewrite !marks_cons, <- app_assoc, <- IH.
  pose proof (len_utf8_bounds c) as B. unfold lead4_bits, char_bits, utf16_bits, at_start.
  destruct (Z.eqb_spec (len_utf8 c) 4) as [E|E].
  - rewrite (proj2 (Z.eqb_eq (len_utf16 c) 2)) by (by apply len_utf16_two). rewrite E. done.
  - rewrite (proj2 (Z.eqb_neq (len_utf16 c) 2)) by (by rewrite len_utf16_two).
    assert (∀ n X, false :: (replicate n false ++ X) = replicate n false ++ false :: X) as Hr
      by (intros n X; induction n as [|n IHn]; cbn; [done|by rewrite <- IHn]).
    rewrite app_comm_cons, <- replicate_S. cbn [replicate app]. rewrite Hr.
    change (orbs (false :: ?a) (true :: ?b)) with (true :: orbs a b).
    cbn [app]. f_equal. rewrite orbs_app by done. f_equal.
    generalize (Z.to_nat (len_utf8 c - 1)). intros n. induction n as [|n IHn]; cbn; [done|by rewrite IHn].
Qed.
(** The shift loses no bit: the last byte does not start a long character. *)
Lemma lead4_shl s : str_len s ≤ 128 →
  Bitmap.shl 128 (mask lead4_bits s) 1 = Bitmap.of_bits (false :: marks lead4_bits s).
Proof.
  intros Hs. unfold Bitmap.shl. change (1 mod 128) with 1.
  assert (Z.shiftl (mask lead4_bits s) 1 = Bitmap.of_bits (false :: marks lead4_bits s)) as ->
    by (rewrite Z.shiftl_mul_pow2 by done; cbn [Bitmap.of_bits Z.b2z]; unfold mask; lia).
  apply Z.mod_small. split; [apply Bitmap.of_bits_bound|].
  assert (∃ l, marks lead4_bits s = l ++ [false] ∨ s = []) as [l [E| ->]]; [|rewrite E|done].
  - destruct s as [|c s _] using rev_ind; [exists []; by right|].
    rewrite marks_app. unfold marks at 2. cbn [map concat]. rewrite app_nil_r.
    unfold lead4_bits at 2, at_start. pose proof (len_utf8_bounds c).
    destruct (Z.to_nat (len_utf8 c - 1)) as [|n] eqn:En.
    + rewrite (proj2 (Z.eqb_neq (len_utf8 c) 4)) by lia. eexists; by left.
    + rewrite replicate_S_end, app_comm_cons, app_assoc. eexists; by left.
  - assert (length (l ++ [false]) ≤ 128)%nat as Hl by (rewrite <- E, length_marks by apply _; lia).
    rewrite length_app in Hl. cbn [length] in Hl. rewrite app_comm_cons, (Bitmap.of_bits_pad _ 1).
    pose proof (Bitmap.of_bits_bound (false :: l)) as [_ B]. eapply Z.lt_le_trans; [exact B|].
    apply Z.pow_le_mono_r; [lia|]. cbn [length]. lia.
Qed.

Lemma push_text_ok s t :
  Chunk.push_text (encode s) (encode t)
  = if str_len (s ++ t) <=? 128 then Some (encode (s ++ t)) else None.
Proof. unfold Chunk.push_text. by rewrite !len_encode, str_len_app, encode_app. Qed.

Lemma push_text_start s :
  Chunk.push_text [] (encode s) = if str_len s <=? 128 then Some (encode s) else None.
Proof. exact (push_text_ok [] s). Qed.

Lemma chunk_new_ok s : scalars s → str_len s ≤ 128 → Chunk.new (encode s) = Some (chunk_of s).
Proof.
  intros Hs Hl. unfold Chunk.new. rewrite push_text_start, (proj2 (Z.leb_le _ _)) by lia.
  cbn [mbind option_bind].
  set (zeros := replicate (Bitmap.BITS / 8) 0).
  assert (∀ p, loaded p 0 [] zeros) as Hz.
  { intros p. split_and!; [done|done|]. intros i Hi.
    change (replicate 16 0 !! i = Some 0). apply lookup_replicate_2. lia. }
  destruct (new_loop (S (length (encode s))) (encode s) 0 [] (Chunk.mk_arrays zeros zeros zeros zeros))
    as (k & a & -> & (_ & A1 & _) & (_ & A2 & _) & (_ & A3 & _) & (_ & A4 & _)).
  - lia.
  - by right.
  - pose proof (length_encode s). cbn [length]. lia.
  - split_and!; apply Hz.
  - cbn [mbind option_bind app] in *. unfold chunk_of. rewrite A1, A2, A3, A4.
    rewrite map_char_bits, map_lead4_bits, !map_ascii_bits by (done || (unfold newline, tab; lia)).
    f_equal. f_equal. change (Bitmap.of_bits (marks lead4_bits s)) with (mask lead4_bits s).
    rewrite lead4_shl, lor_bits, utf16_marks by done. by apply (Bitmap.of_bits_pad _ 1).
Qed.
Lemma new_too_long s : 128 < str_len s → Chunk.new (encode s) = None.
Proof.
  intros Hl. unfold Chunk.new. by rewrite push_text_start, (proj2 (Z.leb_gt _ _)) by lia.
Qed.

Lemma str_len_zero s : str_len s = 0 ↔ s = [].
Proof.
  split; [|by intros ->]. destruct s as [|c s]; [done|]. cbn [str_len].
  pose proof (len_utf8_bounds c). pose proof (str_len_nonneg s). lia.
Qed.
Lemma slice_is_empty s : ChunkSlice.is_empty (slice_of s) = bool_decide (s = []).
Proof.
  unfold ChunkSlice.is_empty. fields. rewrite len_encode.
  destruct (Z.eqb_spec (str_len s) 0) as [E|E]; rewrite str_len_zero in E.
  - by rewrite bool_decide_true.
  - by rewrite bool_decide_false.
Qed.
Lemma chunk_append_ok s t :
  str_len s ≤ 128 →
  Chunk.append (chunk_of s) (slice_of t)
  = if str_len (s ++ t) <=? 128 then Some (chunk_of (s ++ t)) else None.
Proof.
  intros Hs. unfold Chunk.append. rewrite slice_is_empty. destruct (bool_decide_reflect (t = [])) as [->|Ht].
  - rewrite app_nil_r. by rewrite (proj2 (Z.leb_le _ _)).
  - fields. rewrite push_text_ok, len_encode.
    destruct (Z.leb_spec (str_len (s ++ t)) 128) as [H|H]; [|done]. rewrite str_len_app in H.
    fields.
    rewrite !mask_shl, !mask_lor by (done || apply _). done.
Qed.
Lemma chunk_prepend_ok s t :
  scalars t → str_len s ≤ 128 →
  Chunk.prepend (chunk_of s) (slice_of t)
  = if str_len (t ++ s) <=? 128 then Some (chunk_of (t ++ s)) else None.
Proof.
  intros Hsc Hs. unfold Chunk.prepend. rewrite slice_is_empty. destruct (bool_decide_reflect (t = [])) as [->|Ht].
  - cbn [app]. by rewrite (proj2 (Z.leb_le _ _)).
  - fields. rewrite len_encode.
    destruct (Z.eqb_spec (str_len s) 0) as [E|E]; rewrite str_len_zero in E.
    + subst s. rewrite app_nil_r. destruct (Z.leb_spec (str_len t) 128); [by apply chunk_new_ok|by apply new_too_long].
    + rewrite len_encode, push_text_start, str_len_app. pose proof (str_len_nonneg s).
      destruct (Z.leb_spec (str_len t) 128); cbn [mbind option_bind];
        [|by rewrite (proj2 (Z.leb_gt _ _)) by lia].
      rewrite push_text_ok, str_len_app. destruct (Z.leb_spec (str_len t + str_len s) 128); [|done].
      fields.
      rewrite !mask_shl, !mask_lor by (done || apply _). done.
Qed.
Lemma as_slice_ok s : Chunk.as_slice (chunk_of s) = slice_of s.
Proof. done. Qed.
Lemma from_slice_ok s : str_len s ≤ 128 → Chunk.from_slice (slice_of s) = Some (chunk_of s).
Proof.
  intros Hs. unfold Chunk.from_slice. fields.
  by rewrite push_text_start, (proj2 (Z.leb_le _ _)).
Qed.

(** ** Cutting chunks *)

Lemma nth_map_boundary l i : nth i (map is_utf8_char_boundary l) false =
  match l !! i with Some b => is_utf8_char_boundary b | None => false end.
Proof. revert i. induction l as [|x l IH]; intros [|i]; try done. apply IH. Qed.

Lemma land_one_bit m n : 0 ≤ n → Z.land (Z.shiftl 1 n) m =? 0 = negb (Z.testbit m n).
Proof.
  intros Hn. destruct (Z.testbit m n) eqn:E; cbn [negb].
  - apply Z.eqb_neq. intros H. apply (f_equal (λ x, Z.testbit x n)) in H.
    rewrite Z.land_spec, Z.shiftl_spec, Z.sub_diag, E, Z.bits_0 in H by done. done.
  - apply Z.eqb_eq. apply Z.bits_inj'. intros i Hi. rewrite Z.land_spec, Z.shiftl_spec, Z.bits_0 by done.
    destruct (decide (i = n)) as [->|Hne]; [by rewrite E, andb_false_r|].
    destruct (decide (i < n)); [by rewrite (Z.testbit_neg_r 1) by lia|].
    replace (i - n) with (Z.succ (i - n - 1)) by lia. change 1 with (2 * 0 + 1).
    by rewrite Z.testbit_odd_succ, Z.testbit_0_l by lia.
Qed.

(** The masks know the boundaries of the text. *)
Lemma is_char_boundary_ok s n :
  scalars s → str_len s ≤ 128 → 0 ≤ n < 2 ^ 32 →
  ChunkSlice.is_char_boundary (slice_of s) n = Utf8.is_char_boundary (encode s) n.
Proof.
  intros Hs Hl Hn. unfold ChunkSlice.is_char_boundary, Utf8.is_char_boundary.
  fields. rewrite wrap32_id, len_encode by width.
  assert (negb (Z.land (Bitmap.unbounded_shl 128 1 n) (mask char_bits s) =? 0)
    = match encode s !! Z.to_nat n with Some b => is_utf8_char_boundary b | None => false end) as ->.
  { unfold Bitmap.unbounded_shl. destruct (Z.ltb_spec n 128).
    - rewrite Z.mod_small by (rewrite Z.shiftl_1_l; pose proof (Z.pow_lt_mono_r 2 n 128); lia).
      rewrite land_one_bit, negb_involutive by lia. unfold mask. rewrite <- map_char_bits by done.
      rewrite <- (Z2Nat.id n) at 1 by lia. rewrite Bitmap.testbit_bits. apply nth_map_boundary.
    - rewrite lookup_ge_None_2 by (rewrite length_encode; lia). done. }
  destruct (Z.leb_spec (str_len s) n) as [H|H].
  - rewrite lookup_ge_None_2 by (rewrite length_encode; lia). cbn [orb].
    destruct (Z.eqb_spec n 0) as [->|]; [|done]. apply Z.eqb_eq. pose proof (str_len_nonneg s). lia.
  - rewrite (proj2 (Z.eqb_neq n (str_len s))), orb_false_r by lia. unfold get_or.
    rewrite (proj2 (Z.ltb_ge n 0)) by lia.
    destruct (lookup_lt_is_Some_2 (encode s) (Z.to_nat n)) as [b Hb]; [rewrite length_encode; lia|].
    rewrite Hb. cbn [default]. destruct (Z.eqb_spec n 0) as [->|]; [|done].
    destruct Hs as [|c s Hc Hs]; [done|]. rewrite encode_cons in Hb.
    destruct (encode_char_bytes c Hc) as (x & bs & E & _ & Hx & _). rewrite E in Hb. by injection Hb as <-.
Qed.

Lemma chunk_split_at_ok a b :
  scalars (a ++ b) → str_len (a ++ b) ≤ 128 →
  ChunkSlice.split_at (slice_of (a ++ b)) (str_len a) = Some (slice_of a, slice_of b).
Proof.
  intros Hs Hl. unfold ChunkSlice.split_at. change MAX_BASE with 128. rewrite str_len_app in Hl.
  pose proof (str_len_nonneg a). pose proof (str_len_nonneg b).
  destruct (Z.eqb_spec (str_len a) 128) as [E|E].
  - assert (b = []) as -> by (apply str_len_zero; lia). by rewrite app_nil_r.
  - fields.
    rewrite Utf8.str_split_at_ok by done. cbn [mbind option_bind]. rewrite low_mask_shl by lia.
    unfold Bitmap.shr. rewrite (Z.mod_small (str_len a)) by lia.
    rewrite !mask_land, !mask_shiftr by apply _. done.
Qed.

(** What remains of the masks after a cut on both sides. *)
Lemma mask_cut f `{!Bits f} a b c :
  0 ≤ str_len a < 128 →
  Bitmap.shr 128 (Z.land (mask f (a ++ b ++ c)) (Z.ones (str_len (a ++ b)))) (str_len a) = mask f b.
Proof.
  intros Ha. unfold Bitmap.shr. rewrite (Z.mod_small (str_len a)) by lia.
  rewrite app_assoc, mask_land, mask_shiftr by done. done.
Qed.
Lemma slice_masks a b c :
  scalars (a ++ b ++ c) → str_len (a ++ b ++ c) ≤ 128 → str_len a < 128 →
  let s := a ++ b ++ c in
  let m := Bitmap.wrapping_sub 128 (Bitmap.unbounded_shl 128 1 (wrap32 (str_len (a ++ b)))) 1 in
  (text ← str_index (encode s) (str_len a) (str_len (a ++ b));
   Some (ChunkSlice.mk (Bitmap.shr 128 (Z.land (mask char_bits s) m) (str_len a))
     (Bitmap.shr 128 (Z.land (mask utf16_bits s) m) (str_len a))
     (Bitmap.shr 128 (Z.land (mask newline_bits s) m) (str_len a))
     (Bitmap.shr 128 (Z.land (mask tab_bits s) m) (str_len a)) text)) = Some (slice_of b).
Proof.
  intros Hs Hl Ha s m. pose proof (str_len_nonneg a). pose proof (str_len_nonneg (a ++ b)).
  assert (str_len (a ++ b) ≤ 128) as Hab.
  { rewrite app_assoc, str_len_app in Hl. pose proof (str_len_nonneg c). lia. }
  unfold s, m. rewrite str_index_ok by done. cbn [mbind option_bind].
  rewrite wrap32_id, low_mask, !mask_cut by (first [apply _|width|lia]). done.
Qed.

(** Cutting at boundaries. *)
Lemma chunk_slice_ok a b c :
  scalars (a ++ b ++ c) → str_len (a ++ b ++ c) ≤ 128 →
  ChunkSlice.slice (slice_of (a ++ b ++ c)) (str_len a) (str_len (a ++ b)) = Some (slice_of b).
Proof.
  intros Hs Hl. pose proof (str_len_nonneg a). pose proof (str_len_nonneg b). pose proof (str_len_nonneg c).
  pose proof Hl as Hl'. rewrite !str_len_app in Hl'. unfold ChunkSlice.slice. change MAX_BASE with 128.
  destruct (Z.eqb_spec (str_len a) 128) as [E|E].
  - assert (b = []) as -> by (apply str_len_zero; lia). done.
  - unfold ChunkSlice.assert_char_boundary.
    rewrite (is_char_boundary_ok _ (str_len a)), boundary_app by (done || lia). cbn [mbind option_bind].
    rewrite is_char_boundary_ok by (rewrite ?str_len_app; done || lia).
    rewrite (app_assoc a b c) at 1. rewrite boundary_app by (by rewrite <- app_assoc). cbn [mbind option_bind].
    apply slice_masks; [done|done|lia].
Qed.
(** Two cuts in order are three parts. *)
Lemma two_cuts (x y u v : str) : x ++ y = u ++ v → str_len x ≤ str_len u → ∃ m, u = x ++ m ∧ y = m ++ v.
Proof.
  intros E Hl. apply app_eq_inv in E as [(k & -> & ->)|(k & -> & ->)]; [|by exists k].
  rewrite str_len_app in Hl. pose proof (str_len_nonneg k). assert (k = []) as -> by (apply str_len_zero; lia).
  exists []. by rewrite !app_nil_r.
Qed.
(** Where [slice] starts and stops: the start moves up to a boundary, the stop down, but not below the start. *)
Definition slice_start (s : str) (start : Z) : Z := Utf8.ceil_char_boundary (encode s) start.
Definition slice_stop (s : str) (start stop : Z) : Z :=
  if Utf8.is_char_boundary (encode s) stop then stop
  else if stop <? slice_start s start then slice_start s start else Utf8.floor_char_boundary (encode s) stop.
Lemma slice_stop_cuts s start stop : scalars s → 0 ≤ start → 0 ≤ stop → ∃ u v, s = u ++ v ∧ slice_stop s start stop = str_len u.
Proof.
  intros Hs H1 H2. unfold slice_stop. destruct (floor_cuts s stop Hs H2) as (u & v & E & Ef & Hf).
  destruct (Utf8.is_char_boundary (encode s) stop); [exists u, v; by rewrite Hf|].
  destruct (stop <? slice_start s start); [|by exists u, v]. destruct (ceil_cuts s start Hs H1) as (x & y & -> & Ec & _). by exists x, y.
Qed.
Lemma slice_general s start stop :
  scalars s → str_len s ≤ 128 → 0 ≤ start < 2 ^ 32 → 0 ≤ stop < 2 ^ 32 → start ≠ 128 →
  (slice_start s start ≤ slice_stop s start stop → slice_start s start < 128 →
   ∃ x m y, s = x ++ m ++ y ∧ str_len x = slice_start s start ∧ str_len (x ++ m) = slice_stop s start stop ∧
     ChunkSlice.slice (slice_of s) start stop = Some (slice_of m)) ∧
  (slice_stop s start stop < slice_start s start → ChunkSlice.slice (slice_of s) start stop = None).
Proof.
  intros Hs Hl H1 H2 Hne. destruct (ceil_cuts s start Hs (proj1 H1)) as (x & y & E & Ec & Hc).
  assert ((if Utf8.is_char_boundary (encode s) start then start else Utf8.ceil_char_boundary (encode s) start) = slice_start s start) as Estart.
  { unfold slice_start. rewrite Ec. destruct (Utf8.is_char_boundary (encode s) start); [by rewrite Hc|done]. }
  destruct (slice_stop_cuts s start stop Hs (proj1 H1) (proj1 H2)) as (u & v & E2 & Eu).
  assert (ChunkSlice.slice (slice_of s) start stop =
    (text ← str_index (encode s) (slice_start s start) (slice_stop s start stop);
     let m := Bitmap.wrapping_sub 128 (Bitmap.unbounded_shl 128 1 (wrap32 (slice_stop s start stop))) 1 in
     Some (ChunkSlice.mk (Bitmap.shr 128 (Z.land (mask char_bits s) m) (slice_start s start))
       (Bitmap.shr 128 (Z.land (mask utf16_bits s) m) (slice_start s start))
       (Bitmap.shr 128 (Z.land (mask newline_bits s) m) (slice_start s start))
       (Bitmap.shr 128 (Z.land (mask tab_bits s) m) (slice_start s start)) text))) as ->.
  { unfold ChunkSlice.slice. rewrite (proj2 (Z.eqb_neq start _)) by done. unfold ChunkSlice.assert_char_boundary.
    rewrite !is_char_boundary_ok by done. rewrite <- Estart. unfold slice_stop.
    rewrite <- Estart. by destruct (Utf8.is_char_boundary (encode s) start), (Utf8.is_char_boundary (encode s) stop). }
  rewrite Eu. unfold slice_start. rewrite Ec. split.
  - intros Hle Hlt. destruct (two_cuts x y u v) as (m & -> & ->); [by rewrite <- E|done|]. exists x, m, v. split_and!; [done..|].
    rewrite E in *. by apply slice_masks.
  - intros Hgt. unfold str_index. by rewrite (proj2 (Z.leb_gt _ _)).
Qed.

(** Chunks represent texts: [new], [append], [prepend], [push_str] and
    [prepend_str] build the chunk of the text that their arguments spell, with
    the masks that its characters require, and panic exactly when the text (or
    the part that is added) has more than 128 bytes. *)
Theorem chunk_build_correct s t :
  scalars s → scalars t → str_len s ≤ 128 →
  let fits u := if str_len u <=? 128 then Some (chunk_of u) else None in
  Chunk.new (encode t) = fits t ∧
  Chunk.append (chunk_of s) (slice_of t) = fits (s ++ t) ∧
  Chunk.prepend (chunk_of s) (slice_of t) = fits (t ++ s) ∧
  Chunk.push_str (chunk_of s) (encode t) = fits (s ++ t) ∧
  Chunk.prepend_str (chunk_of s) (encode t) = fits (t ++ s).
Proof.
  intros Hs Ht Hl fits. pose proof (str_len_nonneg s).
  assert (Chunk.new (encode t) = fits t) as Hn.
  { unfold fits. destruct (Z.leb_spec (str_len t) 128); [by apply chunk_new_ok|by apply new_too_long]. }
  pose proof (chunk_append_ok s t Hl) as Ha. pose proof (chunk_prepend_ok s t Ht Hl) as Hp.
  split_and!; [done|done|done| |]; unfold Chunk.push_str, Chunk.prepend_str; rewrite Hn; unfold fits;
    destruct (Z.leb_spec (str_len t) 128); cbn [mbind option_bind]; try done;
    rewrite str_len_app; by rewrite (proj2 (Z.leb_gt _ _)) by lia.
Qed.
Lemma chunk_build_correct_witness :
  (* "a" followed by a character of four bytes and a tab *)
  Chunk.push_str (chunk_of [97]) [240; 159; 152; 128; 9]
    = Some (Chunk.mk 35 39 0 32 [97; 240; 159; 152; 128; 9]).
Proof.
  destruct (chunk_build_correct [97] [0x1F600; 9]) as (_ & _ & _ & H & _).
  - repeat constructor; cbv; intuition congruence.
  - apply Forall_cons. split; [right; lia|]. apply Forall_cons. split; [left; lia|constructor].
  - vm_compute. congruence.
  - vm_compute in H. exact H.
Defined.

(** C40: Cutting chunks. [split_at] at a boundary gives the two parts of the text,
    and joining them again gives the chunk back; at 128, the capacity of a chunk,
    it gives the whole chunk and an empty one, whatever its length; everywhere
    else it panics. [slice] is empty from 128 on; from any other start it moves
    the start up to the next boundary and the end down to the last one (not below
    the start), also when both are in the same character or beyond the text, and
    gives the text between them, unless the start moves up to 128
    ([slice_end_of_full_chunk]); it panics if the end is a boundary before the
    start. *)
Theorem chunk_cut_correct s a b start stop mid :
  scalars s → str_len s ≤ 128 → s = a ++ b → 0 ≤ start < 2 ^ 32 → 0 ≤ stop < 2 ^ 32 →
  (∃ l r k, ChunkSlice.split_at (slice_of s) (str_len a) = Some (l, r) ∧ l = slice_of a ∧ r = slice_of b ∧
    Chunk.from_slice l = Some k ∧ Chunk.append k r = Some (chunk_of s)) ∧
  ChunkSlice.split_at (slice_of s) 128 = Some (slice_of s, slice_of []) ∧
  (mid ≠ 128 → Utf8.is_char_boundary (encode s) mid = false → ChunkSlice.split_at (slice_of s) mid = None) ∧
  ChunkSlice.slice (slice_of s) 128 stop = Some (slice_of []) ∧
  (start ≠ 128 → slice_start s start ≤ slice_stop s start stop → slice_start s start < 128 →
   ∃ x m y, s = x ++ m ++ y ∧ str_len x = slice_start s start ∧ str_len (x ++ m) = slice_stop s start stop ∧
     ChunkSlice.slice (slice_of s) start stop = Some (slice_of m)) ∧
  (start ≠ 128 → slice_stop s start stop < slice_start s start → ChunkSlice.slice (slice_of s) start stop = None).
Proof.
  intros Hs Hl -> H1 H2. split; [|split; [done|split; [|split; [done|]]]].
  - assert (str_len a ≤ 128) as Ha by (rewrite str_len_app in Hl; pose proof (str_len_nonneg b); lia).
    exists (slice_of a), (slice_of b), (chunk_of a). split_and!; [by apply chunk_split_at_ok|done|done|by apply from_slice_ok|].
    rewrite chunk_append_ok by done. by rewrite (proj2 (Z.leb_le _ _)).
  - intros Hne Hb. unfold ChunkSlice.split_at. rewrite (proj2 (Z.eqb_neq mid MAX_BASE)) by done.
    unfold Utf8.split_at. fields. by rewrite Hb.
  - split; intros Hne; by apply slice_general.
Qed.
Lemma chunk_cut_correct_witness :
  (* "aé" and "b"; from inside of the "é" to the same place *)
  ChunkSlice.split_at (slice_of [97; 233; 98]) 3 = Some (slice_of [97; 233], slice_of [98]) ∧
  ChunkSlice.split_at (slice_of [97; 233; 98]) 2 = None ∧
  ChunkSlice.slice (slice_of [97; 233; 98]) 2 2 = Some (slice_of []).
Proof.
  destruct (chunk_cut_correct [97; 233; 98] [97; 233] [98] 2 2 2) as (H1 & _ & H2 & _ & H3 & _).
  - apply Forall_cons. split; [left; lia|]. apply Forall_cons. split; [left; lia|].
    apply Forall_cons. split; [left; lia|constructor].
  - vm_compute. congruence.
  - reflexivity.
  - lia.
  - lia.
  - destruct H1 as (l & r & k & E & -> & -> & _). split; [exact E|]. split; [apply H2; [lia|reflexivity]|].
    destruct H3 as (x & m & y & _ & Hx & Hm & Hs); [lia|vm_compute; congruence|reflexivity|].
    assert (m = []) as ->; [|exact Hs]. apply str_len_zero. rewrite str_len_app in Hm.
    change (slice_start [97; 233; 98] 2) with 3 in Hx. change (slice_stop [97; 233; 98] 2 2) with 3 in Hm. lia.
Defined.

(** The recovery of [slice] from a start that is not a boundary fails in the
    last character of a full chunk: the start moves to 128, the distance of the
    shift, which a release build takes modulo 128 (a debug build panics). The
    result has no text but the masks of the whole chunk, so it counts characters
    and lines that it does not have. *)
Theorem slice_end_of_full_chunk a c start :
  scalars (a ++ [c]) → str_len (a ++ [c]) = 128 →
  str_len a < start < 128 →
  let r := ChunkSlice.mk (mask char_bits (a ++ [c])) (mask utf16_bits (a ++ [c]))
             (mask newline_bits (a ++ [c])) (mask tab_bits (a ++ [c])) [] in
  ChunkSlice.slice (slice_of (a ++ [c])) start 128 = Some r ∧
  ChunkSlice.len r = 0 ∧ 0 < OffsetUtf16.offset (ChunkSlice.len_utf16 r).
Proof.
  intros Hs Hl Hstart r. pose proof (str_len_nonneg a).
  assert (len_utf8 c = 128 - str_len a) as Hc by (rewrite str_len_app in Hl; cbn [str_len] in Hl; lia).
  split_and!; [|done|].
  - unfold ChunkSlice.slice. change MAX_BASE with 128. rewrite (proj2 (Z.eqb_neq start 128)) by lia.
    unfold ChunkSlice.assert_char_boundary.
    rewrite (is_char_boundary_ok _ start), not_boundary by (done || lia). cbn [mbind option_bind].
    rewrite (is_char_boundary_ok _ 128) by (done || lia). rewrite <- Hl at 1.
    rewrite <- (app_nil_r (a ++ [c])) at 1. rewrite boundary_app by (by rewrite app_nil_r).
    fields. rewrite ceil_spec by (done || lia).
    replace (str_len a + len_utf8 c) with 128 by lia. rewrite <- Hl at 1 2.
    pose proof (str_index_ok (a ++ [c]) [] [] ) as Hi. rewrite !app_nil_r in Hi. rewrite Hi by done.
    cbn [mbind option_bind]. change (wrap32 128) with 128. rewrite low_mask by lia. unfold r. f_equal.
    assert (∀ f, Bits f → Bitmap.shr 128 (Z.land (mask f (a ++ [c])) (Z.ones 128)) 128 = mask f (a ++ [c])) as Hm.
    { intros f Hf. unfold Bitmap.shr. change (128 mod 128) with 0. rewrite Z.shiftr_0_r.
      rewrite <- Hl. rewrite <- (app_nil_r (a ++ [c])) at 1. by apply mask_land. }
    fields. by rewrite !Hm by apply _.
  - cbn [ChunkSlice.len_utf16 OffsetUtf16.offset ChunkSlice.chars_utf16 r].
    unfold mask. rewrite Bitmap.count_ones_bits by (rewrite length_marks by apply _; change Bitmap.BITS with 128%nat; lia).
    rewrite marks_app, Bitmap.ones_app. pose proof (Bitmap.ones_bounds (marks utf16_bits a)).
    unfold marks at 2. cbn [map concat]. rewrite app_nil_r. unfold utf16_bits at 2, at_start.
    split_if; cbn [Bitmap.ones Z.b2z]; [lia|].
    pose proof (Bitmap.ones_bounds (replicate (Z.to_nat (len_utf8 c - 1)) false)). lia.
Qed.
Lemma slice_end_of_full_chunk_witness :
  ∃ r, ChunkSlice.slice (slice_of (replicate 126 97 ++ [233])) 127 128 = Some r ∧
    ChunkSlice.text r = [] ∧ OffsetUtf16.offset (ChunkSlice.len_utf16 r) = 127.
Proof.
  destruct (slice_end_of_full_chunk (replicate 126 97) 233 127) as (H & _ & _).
  - apply Forall_app. split; [|apply Forall_cons; split; [left; lia|constructor]].
    apply Forall_replicate. left. lia.
  - reflexivity.
  - split; reflexivity.
  - eexists. split; [exact H|]. split; reflexivity.
Defined.
