(* ===== verification/ChunkSummary.v ===== *)
(** The summary that a chunk computes by counting bits is the one that reading
    its characters gives ([ChunkSlice::text_summary] and the methods it calls,
    [crates/rope/src/chunk.rs:317-405]); the positions of its tabs. *)
From S2P Require Import Prelude Points TextSummary SumTree Bitmap Utf8 Chunk.

(** ** Lines of a text *)

Definition no_newline (s : str) : Prop := Forall (λ c, c ≠ newline) s.
Definition newline_count (s : str) : Z := Z.of_nat (length (filter (λ c, c = newline) s)).
(** The length in UTF-16 units. *)
Fixpoint utf16_len (s : str) : Z := match s with [] => 0 | c :: s => len_utf16 c + utf16_len s end.
Fixpoint first_line (s : str) : str :=
  match s with
  | [] => []
  | c :: s => if c =? newline then [] else c :: first_line s
  end.
Definition last_line (s : str) : str :=
  foldl (λ l c, if c =? newline then [] else l ++ [c]) [] s.

Lemma utf16_len_app s t : utf16_len (s ++ t) = utf16_len s + utf16_len t.
Proof. induction s; cbn; lia. Qed.
Lemma utf16_len_bounds s : 0 ≤ utf16_len s ≤ str_len s.
Proof. induction s as [|c s IH]; cbn; [lia|]. pose proof (len_utf16_bounds c). lia. Qed.
Lemma length_str_len s : Z.of_nat (length s) ≤ str_len s.
Proof. induction s as [|c s IH]; cbn [length str_len]; [lia|]. pose proof (len_utf8_bounds c). lia. Qed.
Lemma newline_count_app s t : newline_count (s ++ t) = newline_count s + newline_count t.
Proof. unfold newline_count. rewrite filter_app, length_app. lia. Qed.
Lemma newline_count_zero s : newline_count s = 0 ↔ no_newline s.
Proof.
  unfold newline_count, no_newline. induction s as [|c s IH]; [by split; [constructor|]|].
  destruct (decide (c = newline)) as [->|H].
  - rewrite filter_cons_True by done. cbn [length]. split; [lia|]. intros Hf. by inversion Hf.
  - rewrite filter_cons_False, IH by done. split; [by constructor|intros Hf; by inversion Hf].
Qed.
Lemma newline_count_nonneg s : 0 ≤ newline_count s.
Proof. unfold newline_count. lia. Qed.
Lemma last_line_snoc s c : last_line (s ++ [c]) = if c =? newline then [] else last_line s ++ [c].
Proof. unfold last_line. by rewrite foldl_app. Qed.
Lemma last_line_split s :
  no_newline (last_line s) ∧ (no_newline s ∧ last_line s = s ∨ ∃ p, s = p ++ newline :: last_line s).
Proof.
  induction s as [|c s [Hl IH]] using rev_ind; [by split; [constructor|left; split; [constructor|]]|].
  rewrite last_line_snoc. destruct (Z.eqb_spec c newline) as [->|Hc].
  - split; [constructor|right]. by exists s.
  - split; [apply Forall_app; by repeat constructor|].
    destruct IH as [[Hs E]|[p E]]; [left|right].
    + split; [apply Forall_app; by repeat constructor|by rewrite E].
    + exists p. by rewrite E at 1; rewrite <- app_assoc.
Qed.
Lemma first_line_split s :
  no_newline (first_line s) ∧ (no_newline s ∧ first_line s = s ∨ ∃ r, s = first_line s ++ newline :: r).
Proof.
  induction s as [|c s [Hl IH]]; [by split; [constructor|left; split; [constructor|]]|].
  cbn [first_line]. destruct (Z.eqb_spec c newline) as [->|Hc].
  - split; [constructor|right]. by exists s.
  - split; [by constructor|]. destruct IH as [[Hs E]|[r E]]; [left|right].
    + split; [by constructor|by rewrite E].
    + exists r. cbn. by rewrite <- E.
Qed.
Lemma first_line_snoc s c :
  first_line (s ++ [c]) = if newline_count s =? 0 then (if c =? newline then s else s ++ [c]) else first_line s.
Proof.
  induction s as [|x s IH]; cbn [app first_line]; [by destruct (c =? newline)|].
  change (x :: s) with ([x] ++ s). rewrite newline_count_app.
  destruct (Z.eqb_spec x newline) as [->|Hx].
  - change (newline_count [newline]) with 1. pose proof (newline_count_nonneg s).
    by rewrite (proj2 (Z.eqb_neq _ 0)) by lia.
  - assert (newline_count [x] = 0) as -> by (apply newline_count_zero; by repeat constructor).
    rewrite IH, Z.add_0_l. by destruct (newline_count s =? 0), (c =? newline).
Qed.

(** ** The summary of a text, field by field *)

Lemma from_fields s :
  str_len s < 2 ^ 32 →
  let f := foldl TextSummary.from_step TextSummary.zero s in
  TextSummary.counts (str_len s) f ∧
  TextSummary.chars f = Z.of_nat (length s) ∧
  TextSummary.len_utf16 f = OffsetUtf16.mk (utf16_len s) ∧
  TextSummary.lines f = Point.mk (newline_count s) (str_len (last_line s)) ∧
  TextSummary.first_line_chars f = Z.of_nat (length (first_line s)) ∧
  TextSummary.last_line_chars f = Z.of_nat (length (last_line s)) ∧
  TextSummary.last_line_len_utf16 f = utf16_len (last_line s).
Proof.
  induction s as [|c s IH] using rev_ind; intros Hn; [by split_and!; try apply TextSummary.counts_zero|].
  rewrite str_len_app in Hn. cbn [str_len] in Hn. pose proof (len_utf8_bounds c). pose proof (str_len_nonneg s).
  destruct IH as (Hc & E1 & E2 & E3 & E4 & E5 & E6); [lia|].
  rewrite foldl_app. cbn [foldl]. set (f := foldl TextSummary.from_step TextSummary.zero s) in *.
  rewrite str_len_app. cbn [str_len]. split.
  { rewrite Z.add_0_r. apply TextSummary.counts_step; [done|lia]. }
  rewrite last_line_snoc, first_line_snoc, newline_count_app, utf16_len_app, length_app.
  destruct (Z.eqb_spec c newline) as [->|Hne].
  - rewrite (TextSummary.step_newline_eq (str_len s)) by (done || lia).
    unfold TextSummary.step_newline. cbn [TextSummary.chars TextSummary.len_utf16 TextSummary.lines
      TextSummary.first_line_chars TextSummary.last_line_chars TextSummary.last_line_len_utf16].
    rewrite E1, E2, E3, E4. split_and!; try done; [cbn [length]; lia|].
    destruct (Z.eqb_spec (newline_count s) 0) as [E|]; [|done]. f_equal.
    apply newline_count_zero in E. destruct (first_line_split s) as [_ [[_ ->]|[r Er]]]; [done|].
    rewrite Er in E. apply Forall_app in E as [_ E]. by inversion E.
  - rewrite (TextSummary.step_char_eq (str_len s)) by (done || lia).
    unfold TextSummary.step_char. cbn [TextSummary.chars TextSummary.len_utf16 TextSummary.lines
      TextSummary.first_line_chars TextSummary.last_line_chars TextSummary.last_line_len_utf16].
    rewrite E1, E2, E3, E4, E5, E6. cbn [Point.row Point.column OffsetUtf16.offset].
    assert (newline_count [c] = 0) as -> by (apply newline_count_zero; by repeat constructor).
    rewrite str_len_app, utf16_len_app, !length_app. cbn [str_len utf16_len length].
    split_and!; try (f_equal; lia); try lia.
    destruct (Z.eqb_spec (newline_count s) 0) as [E|]; [|done].
    apply newline_count_zero in E. destruct (last_line_split s) as [_ [[_ ->]|[p Ep]]].
    + rewrite length_app. cbn [length]. lia.
    + rewrite Ep in E. apply Forall_app in E as [_ E]. by inversion E.
Qed.

(** ** Counting bits *)

Lemma count_mask f `{!Bits f} s :
  str_len s ≤ 128 → Bitmap.count_ones Bitmap.BITS (mask f s) = Bitmap.ones (marks f s).
Proof.
  intros Hs. apply Bitmap.count_ones_bits. rewrite length_marks by done.
  change Bitmap.BITS with 128%nat. lia.
Qed.
Lemma ones_marks f (w : Z → Z) s :
  (∀ c, Bitmap.ones (f c) = w c) → Bitmap.ones (marks f s) = foldr (λ c n, w c + n) 0 s.
Proof.
  intros Hw. induction s as [|c s IH]; [done|]. rewrite marks_cons, Bitmap.ones_app, Hw, IH. done.
Qed.
Lemma ones_at_start b c : Bitmap.ones (at_start b c) = Z.b2z b.
Proof. unfold at_start. cbn [Bitmap.ones]. rewrite Bitmap.ones_false. lia. Qed.
Lemma ones_chars s : Bitmap.ones (marks char_bits s) = Z.of_nat (length s).
Proof.
  rewrite (ones_marks _ (λ _, 1)) by (intros c; apply ones_at_start).
  induction s as [|c s IH]; [done|]. cbn [foldr length]. rewrite IH. lia.
Qed.
Lemma ones_utf16 s : Bitmap.ones (marks utf16_bits s) = utf16_len s.
Proof.
  rewrite (ones_marks _ len_utf16); [done|]. intros c. unfold utf16_bits.
  destruct (Z.eqb_spec (len_utf16 c) 2) as [->|H]; [done|]. rewrite ones_at_start. revert H.
  unfold len_utf16. split_if; intros; [done|lia].
Qed.
Lemma ones_newlines s : Bitmap.ones (marks newline_bits s) = newline_count s.
Proof.
  rewrite (ones_marks _ (λ c, Z.b2z (c =? newline))) by (intros c; apply ones_at_start).
  induction s as [|c s IH]; [done|]. cbn [foldr]. rewrite IH. change (c :: s) with ([c] ++ s).
  rewrite newline_count_app. f_equal. unfold newline_count. destruct (Z.eqb_spec c newline) as [->|H]; [done|].
  by rewrite filter_cons_False.
Qed.

(** *** The newlines: the first and the last set bit *)

Lemma marks_none k s :
  Forall (λ c, c ≠ k) s →
  marks (λ c, at_start (c =? k) c) s = replicate (Z.to_nat (str_len s)) false.
Proof.
  induction 1 as [|c s Hc Hs IH]; [done|]. rewrite marks_cons, IH. unfold at_start.
  rewrite (proj2 (Z.eqb_neq c k)) by done. pose proof (len_utf8_bounds c). pose proof (str_len_nonneg s).
  cbn [str_len]. rewrite Z2Nat.inj_add, replicate_add by lia. f_equal.
  rewrite <- replicate_S. f_equal. lia.
Qed.
Lemma marks_no_newline s : no_newline s → marks newline_bits s = replicate (Z.to_nat (str_len s)) false.
Proof. apply marks_none. Qed.
Lemma marks_no_tab s : Forall (λ c, c ≠ tab) s → marks tab_bits s = replicate (Z.to_nat (str_len s)) false.
Proof. apply marks_none. Qed.
Lemma mask_no_newline s : no_newline s → mask newline_bits s = 0.
Proof. intros H. unfold mask. rewrite marks_no_newline by done. apply Bitmap.of_bits_false. Qed.
Lemma marks_newline s : marks newline_bits (newline :: s) = true :: marks newline_bits s.
Proof. done. Qed.
Lemma trailing_newlines a b :
  no_newline a → str_len a < 128 →
  Bitmap.trailing_zeros Bitmap.BITS (mask newline_bits (a ++ newline :: b)) = str_len a.
Proof.
  intros Ha Hl. unfold mask. rewrite marks_app, marks_newline, marks_no_newline by (done || apply _).
  rewrite Bitmap.trailing_zeros_bits by (change Bitmap.BITS with 128%nat; lia).
  apply Z2Nat.id, str_len_nonneg.
Qed.
Lemma trailing_no_newlines s :
  no_newline s → Bitmap.trailing_zeros Bitmap.BITS (mask newline_bits s) = 128.
Proof. intros H. by rewrite mask_no_newline, Bitmap.trailing_zeros_zero. Qed.
Lemma leading_newlines a b :
  no_newline b → str_len a < 128 →
  Bitmap.leading_zeros Bitmap.BITS (mask newline_bits (a ++ newline :: b)) = 127 - str_len a.
Proof.
  intros Hb Hl. unfold mask. rewrite marks_app, marks_newline, (marks_no_newline b) by (done || apply _).
  rewrite Bitmap.leading_zeros_bits, length_marks by apply _. pose proof (str_len_nonneg a).
  change (Z.of_nat Bitmap.BITS) with 128. lia.
Qed.
Lemma leading_no_newlines s :
  no_newline s → Bitmap.leading_zeros Bitmap.BITS (mask newline_bits s) = 128.
Proof. intros H. by rewrite mask_no_newline. Qed.

(** *** The masks for the first and the last line *)

Lemma saturating_shl_mask_ok n : 0 ≤ n ≤ 128 → saturating_shl_mask n = Z.ones n.
Proof. apply low_mask. Qed.
Lemma saturating_shr_mask_ok n : 0 ≤ n ≤ 128 → saturating_shr_mask n = 2 ^ (128 - n) * Z.ones n.
Proof.
  intros Hn. unfold saturating_shr_mask, Bitmap.not, Bitmap.unbounded_shr. rewrite Z.ones_equiv.
  assert (2 ^ 128 = 2 ^ (128 - n) * 2 ^ n) as E by (rewrite <- Z.pow_add_r by lia; f_equal; lia).
  destruct (Z.ltb_spec n 128) as [H|H].
  - assert (Z.shiftr Bitmap.MAX n = 2 ^ (128 - n) - 1) as ->; [|rewrite E; lia].
    rewrite Z.shiftr_div_pow2 by lia. unfold Bitmap.MAX. symmetry.
    apply (Z.div_unique _ _ _ (2 ^ n - 1)); [left|rewrite E]; pose proof (Z.pow_pos_nonneg 2 n); lia.
  - by replace n with 128 by lia.
Qed.
Lemma mask_high f `{!Bits f} a b :
  str_len (a ++ b) ≤ 128 →
  Z.land (mask f (a ++ b)) (saturating_shr_mask (128 - str_len a))
  = Bitmap.of_bits (replicate (Z.to_nat (str_len a)) false ++ marks f b).
Proof.
  intros Hl. rewrite str_len_app in Hl. pose proof (str_len_nonneg a). pose proof (str_len_nonneg b).
  rewrite saturating_shr_mask_ok by lia. replace (128 - (128 - str_len a)) with (str_len a) by lia.
  unfold mask. rewrite marks_app, !Bitmap.of_bits_app, Bitmap.of_bits_false, length_replicate, length_marks by done.
  rewrite !Z2Nat.id by done. change (Bitmap.of_bits (marks f a)) with (mask f a).
  change (Bitmap.of_bits (marks f b)) with (mask f b).
  rewrite <- (Z.add_0_l (2 ^ str_len a * Z.ones _)).
  rewrite Bitmap.land_split; [|done|by apply mask_bound|pose proof (Z.pow_pos_nonneg 2 (str_len a)); lia].
  rewrite Z.land_0_r. do 2 f_equal. rewrite Z.land_ones by lia. apply Z.mod_small.
  pose proof (mask_bound f b) as B. pose proof (Z.pow_le_mono_r 2 (str_len b) (128 - str_len a)). lia.
Qed.
Lemma count_high f `{!Bits f} a b :
  str_len (a ++ b) ≤ 128 →
  Bitmap.count_ones Bitmap.BITS (Z.land (mask f (a ++ b)) (saturating_shr_mask (128 - str_len a)))
  = Bitmap.ones (marks f b).
Proof.
  intros Hl. rewrite mask_high by done. rewrite str_len_app in Hl.
  pose proof (str_len_nonneg a). pose proof (str_len_nonneg b). rewrite Bitmap.count_ones_bits.
  - by rewrite Bitmap.ones_app, Bitmap.ones_false.
  - rewrite length_app, length_replicate, length_marks by done. change Bitmap.BITS with 128%nat. lia.
Qed.
Lemma count_low f `{!Bits f} a b :
  str_len (a ++ b) ≤ 128 →
  Bitmap.count_ones Bitmap.BITS (Z.land (mask f (a ++ b)) (Z.ones (str_len a))) = Bitmap.ones (marks f a).
Proof.
  intros Hl. rewrite str_len_app in Hl. pose proof (str_len_nonneg b).
  rewrite mask_land by done. apply count_mask; [done|lia].
Qed.

(** ** The methods on the slice of a text *)

Lemma first_line_chars_ok s :
  str_len s ≤ 128 → ChunkSlice.first_line_chars (slice_of s) = Z.of_nat (length (first_line s)).
Proof.
  intros Hl. unfold ChunkSlice.first_line_chars. fields.
  destruct (first_line_split s) as [Hf [[Hs E]|[r E]]].
  - rewrite trailing_no_newlines, saturating_shl_mask_ok, E by (done || lia).
    pose proof (mask_bound char_bits s). pose proof (Z.pow_le_mono_r 2 (str_len s) 128 ltac:(lia) Hl).
    rewrite Z.land_ones, Z.mod_small by lia. rewrite count_mask by (done || apply _). apply ones_chars.
  - set (a := first_line s) in *. clearbody a. subst s. pose proof Hl as Hl'.
    rewrite str_len_app in Hl'. cbn [str_len] in Hl'. change (len_utf8 newline) with 1 in Hl'.
    pose proof (str_len_nonneg r). pose proof (str_len_nonneg a).
    rewrite trailing_newlines, saturating_shl_mask_ok by (done || lia).
    rewrite count_low by (done || apply _). apply ones_chars.
Qed.
(** What the last newline leaves, for any of the masks. *)
Lemma count_last_line f `{!Bits f} s :
  str_len s ≤ 128 →
  Bitmap.count_ones Bitmap.BITS (Z.land (mask f s)
    (saturating_shr_mask (Bitmap.leading_zeros Bitmap.BITS (mask newline_bits s))))
  = Bitmap.ones (marks f (last_line s)).
Proof.
  intros Hl. destruct (last_line_split s) as [Hf [[Hs E]|[p E]]].
  - rewrite leading_no_newlines, E by done. exact (count_high f [] s Hl).
  - set (b := last_line s) in *. clearbody b. subst s. pose proof Hl as Hl'.
    rewrite str_len_app in Hl'. cbn [str_len] in Hl'. change (len_utf8 newline) with 1 in Hl'.
    pose proof (str_len_nonneg b). rewrite leading_newlines by (done || lia).
    replace (127 - str_len p) with (128 - str_len (p ++ [newline])) by (rewrite str_len_app; cbn; lia).
    change (newline :: b) with ([newline] ++ b) in *. rewrite app_assoc in Hl |- *. by apply count_high.
Qed.
Lemma last_line_chars_ok s :
  str_len s ≤ 128 → ChunkSlice.last_line_chars (slice_of s) = Z.of_nat (length (last_line s)).
Proof. intros Hl. rewrite <- ones_chars. apply (count_last_line char_bits s Hl). Qed.
Lemma last_line_len_utf16_ok s :
  str_len s ≤ 128 → ChunkSlice.last_line_len_utf16 (slice_of s) = utf16_len (last_line s).
Proof. intros Hl. rewrite <- ones_utf16. apply (count_last_line utf16_bits s Hl). Qed.
Lemma len_ok s : ChunkSlice.len (slice_of s) = str_len s.
Proof. apply len_encode. Qed.
Lemma len_utf16_ok s : str_len s ≤ 128 → ChunkSlice.len_utf16 (slice_of s) = OffsetUtf16.mk (utf16_len s).
Proof. intros Hl. unfold ChunkSlice.len_utf16. fields. by rewrite count_mask, ones_utf16 by (done || apply _). Qed.
Lemma last_line_le s : str_len (last_line s) ≤ str_len s.
Proof.
  destruct (last_line_split s) as [_ [[_ ->]|[p E]]]; [done|]. rewrite E at 2. rewrite str_len_app.
  cbn [str_len]. pose proof (str_len_nonneg p). pose proof (len_utf8_bounds newline). lia.
Qed.
Lemma lines_ok s :
  str_len s ≤ 128 → ChunkSlice.lines (slice_of s) = Point.mk (newline_count s) (str_len (last_line s)).
Proof.
  intros Hl. unfold ChunkSlice.lines, Point.new. fields. pose proof (str_len_nonneg s).
  rewrite count_mask, ones_newlines, len_encode by (done || apply _). f_equal.
  change (Z.of_nat Bitmap.BITS) with 128.
  rewrite (wrap32_id (str_len s)), (wrap32_id (128 - _)) by width.
  destruct (last_line_split s) as [Hf [[Hs E]|[p E]]].
  - rewrite leading_no_newlines, E by done. rewrite wrap32_id by width. lia.
  - set (b := last_line s) in *. clearbody b. subst s. rewrite str_len_app in *. cbn [str_len] in *.
    change (len_utf8 newline) with 1 in *. pose proof (str_len_nonneg p). pose proof (str_len_nonneg b).
    rewrite leading_newlines by (done || lia). rewrite wrap32_id by width. lia.
Qed.

(** ** The longest row *)

(** Reading a line without its newline: the summary keeps the longer row. *)
Lemma read_line l n st :
  no_newline l → TextSummary.counts n st → n + str_len l < 2 ^ 32 →
  let f := foldl TextSummary.from_step st l in
  let k := TextSummary.last_line_chars st + Z.of_nat (length l) in
  TextSummary.counts (n + str_len l) f ∧
  TextSummary.chars f = TextSummary.chars st + Z.of_nat (length l) ∧
  Point.row (TextSummary.lines f) = Point.row (TextSummary.lines st) ∧
  TextSummary.last_line_chars f = k ∧
  (TextSummary.longest_row f, TextSummary.longest_row_chars f)
    = if TextSummary.longest_row_chars st <? k then (Point.row (TextSummary.lines st), k)
      else (TextSummary.longest_row st, TextSummary.longest_row_chars st).
Proof.
  intros Hl Hc Hn. split; [by apply TextSummary.counts_fold|]. revert n st Hc Hn.
  induction Hl as [|c l Hne Hl IH]; intros n st Hc Hn.
  - cbn [foldl length]. rewrite !Z.add_0_r. split_and!; [done..|].
    destruct (TextSummary.c_last _ _ Hc). by rewrite (proj2 (Z.ltb_ge _ _)) by lia.
  - cbn [foldl length str_len] in *. pose proof (str_len_nonneg l). pose proof (len_utf8_bounds c).
    assert (TextSummary.counts (n + len_utf8 c) (TextSummary.from_step st c)) as Hc'
      by (apply TextSummary.counts_step; [done|lia]).
    destruct (IH _ _ Hc') as (E1 & E2 & E3 & E4); [lia|]. rewrite E1, E2, E3, E4. clear E1 E2 E3 E4 IH.
    rewrite (TextSummary.step_char_eq n) by (done || lia). unfold TextSummary.step_char.
    cbn [TextSummary.chars TextSummary.lines TextSummary.last_line_chars TextSummary.longest_row
      TextSummary.longest_row_chars Point.row].
    destruct (TextSummary.c_last _ _ Hc). split_and!; [lia|done|lia|].
    pose proof (Zle_0_nat (length l)). rewrite Nat2Z.inj_succ.
    repeat match goal with |- context [Z.ltb ?a ?b] => destruct (Z.ltb_spec a b) end;
      try (exfalso; lia); f_equal; lia.
Qed.

Lemma mask_newline_pos a b :
  0 < mask newline_bits (a ++ newline :: b).
Proof.
  unfold mask. rewrite marks_app, marks_newline, Bitmap.of_bits_app.
  pose proof (Bitmap.of_bits_bound (marks newline_bits a)).
  pose proof (Bitmap.of_bits_bound (marks newline_bits b)).
  cbn [Bitmap.of_bits Z.b2z]. pose proof (Z.pow_pos_nonneg 2 (Z.of_nat (length (marks newline_bits a)))). nia.
Qed.
Lemma mask_shr f `{!Bits f} a b : str_len a < 128 → Bitmap.shr 128 (mask f (a ++ b)) (str_len a) = mask f b.
Proof.
  intros Ha. pose proof (str_len_nonneg a). unfold Bitmap.shr. rewrite Z.mod_small by lia. by apply mask_shiftr.
Qed.
Lemma wrap8_chars s : str_len s ≤ 128 → ChunkSlice.wrap8 (Z.of_nat (length s)) = Z.of_nat (length s).
Proof. intros Hs. pose proof (length_str_len s). apply Z.mod_small. lia. Qed.

Lemma longest_loop fuel t n st :
  TextSummary.counts n st → TextSummary.last_line_chars st = 0 → n + str_len t < 2 ^ 32 →
  str_len t ≤ 128 → newline_count t < Z.of_nat fuel →
  let f := foldl TextSummary.from_step st t in
  iterate ChunkSlice.longest_row_step fuel
    (ChunkSlice.mk_rows (mask char_bits t) (mask newline_bits t) (TextSummary.chars st)
       (Point.row (TextSummary.lines st)) (TextSummary.longest_row st) (TextSummary.longest_row_chars st))
  = Some (TextSummary.chars f, (TextSummary.longest_row f, TextSummary.longest_row_chars f)).
Proof.
  revert t n st. induction fuel as [|fuel IH]; intros t n st Hc H0 Hn Ht Hf; [pose proof (newline_count_nonneg t); lia|].
  pose proof (TextSummary.c_chars _ _ Hc). pose proof (TextSummary.c_row _ _ Hc).
  cbn [iterate ChunkSlice.longest_row_step]. destruct (first_line_split t) as [Hl [[Hs _]|[r E]]].
  - (* the last row *)
    destruct (read_line t n st Hs Hc Hn) as (Hcf & E1 & _ & _ & E4).
    rewrite mask_no_newline by done. cbn [Z.ltb Z.compare].
    rewrite count_mask, ones_chars, wrap8_chars by (done || apply _). rewrite H0, Z.add_0_l in E4.
    pose proof (TextSummary.c_chars _ _ Hcf). rewrite wrap64_id by width. by rewrite E1, E4.
  - (* a row and its newline *)
    set (l := first_line t) in *. clearbody l. subst t.
    rewrite newline_count_app in Hf. change (newline :: r) with ([newline] ++ r) in Hf.
    rewrite newline_count_app in Hf. change (newline_count [newline]) with 1 in Hf.
    pose proof (newline_count_nonneg l). pose proof Ht as Ht'. rewrite str_len_app in Ht', Hn.
    cbn [str_len] in Ht', Hn. change (len_utf8 newline) with 1 in *.
    pose proof (str_len_nonneg l). pose proof (str_len_nonneg r).
    destruct (read_line l n st Hl Hc ltac:(lia)) as (Hcf & E1 & E2 & E3 & E4).
    pose proof (TextSummary.c_chars _ _ Hcf). pose proof (TextSummary.c_row _ _ Hcf).
    rewrite (proj2 (Z.ltb_lt _ _)) by apply mask_newline_pos.
    rewrite trailing_newlines, low_mask_shl by (done || lia).
    rewrite count_low, ones_chars, wrap8_chars by (done || apply _ || lia).
    rewrite !mask_shr by (lia || apply _).
    change (newline :: r) with ([newline] ++ r). change 1 with (str_len [newline]) at 1 2.
    rewrite !mask_shr by (done || apply _). rewrite H0, Z.add_0_l in E4.
    rewrite foldl_app, foldl_app. cbn [foldl].
    set (g := foldl TextSummary.from_step st l) in *.
    assert (TextSummary.counts (n + str_len l + 1) (TextSummary.from_step g newline)) as Hcg
      by (apply (TextSummary.counts_step _ _ newline); [done|change (len_utf8 newline) with 1; lia]).
    pose proof (TextSummary.step_newline_eq _ _ Hcf ltac:(lia)) as Eg.
    specialize (IH r (n + str_len l + 1) (TextSummary.from_step g newline) Hcg).
    rewrite Eg in IH |- *. unfold TextSummary.step_newline in IH |- *.
    cbn [TextSummary.chars TextSummary.lines TextSummary.last_line_chars TextSummary.longest_row
      TextSummary.longest_row_chars Point.row] in IH |- *.
    rewrite E1, E2 in *. rewrite (wrap64_id (TextSummary.chars st + Z.of_nat (length l))) by width.
    rewrite wrap64_id, wrap32_id by width.
    destruct (_ <? _); injection E4 as E4 E5; rewrite <- IH by (done || lia); by rewrite E4, E5.
Qed.

Lemma text_summary_ok s :
  str_len s ≤ 128 → ChunkSlice.text_summary (slice_of s) = Some (TextSummary.from s).
Proof.
  intros Hl. unfold ChunkSlice.text_summary, ChunkSlice.longest_row. fields.
  assert (newline_count s < Z.of_nat (S (S Bitmap.BITS))) as Hf.
  { pose proof (length_str_len s). unfold newline_count.
    pose proof (length_filter (λ c, c = newline) s). change Bitmap.BITS with 128%nat. lia. }
  pose proof (longest_loop _ s 0 TextSummary.zero TextSummary.counts_zero eq_refl ltac:(lia) Hl Hf) as H.
  cbn [TextSummary.zero TextSummary.chars TextSummary.lines TextSummary.longest_row
    TextSummary.longest_row_chars Point.row] in H.
  rewrite H. cbn [mbind option_bind]. f_equal.
  destruct (from_fields s ltac:(lia)) as (_ & E1 & E2 & E3 & E4 & E5 & E6).
  unfold TextSummary.from, TextSummary.with_len. rewrite E1, E2, E3, E4, E5, E6.
  by rewrite len_ok, len_utf16_ok, lines_ok, first_line_chars_ok, last_line_chars_ok, last_line_len_utf16_ok.
Qed.
(** C33: The summary that a chunk computes from its masks (bytes, characters, UTF-16
    units, end point, first, last and longest line, with the loop over its
    newlines) is the one that reading its characters one by one gives; in
    particular no count wraps around. *)
Theorem text_summary_correct s :
  str_len s ≤ 128 → ChunkSlice.text_summary (slice_of s) = Some (TextSummary.from s).
Proof. apply text_summary_ok. Qed.
Lemma text_summary_correct_witness :
  (* "a", newline, "éb" and a character of four bytes *)
  ChunkSlice.text_summary (slice_of [97; 10; 233; 98; 0x1F600])
  = Some (TextSummary.mk 9 5 (OffsetUtf16.mk 6) (Point.mk 1 7) 1 3 4 1 3).
Proof. rewrite text_summary_correct; [reflexivity|vm_compute; congruence]. Defined.

(** ** Tabs *)

(** The tabs of a text that follows [bytes] bytes and [n] characters. *)
Fixpoint tab_positions (bytes n : Z) (s : str) : list Tabs.TabPosition :=
  match s with
  | [] => []
  | c :: s =>
      let rest := tab_positions (bytes + len_utf8 c) (n + 1) s in
      if c =? tab then Tabs.mk_position bytes n :: rest else rest
  end.

Lemma lxor_lowest n bs :
  Z.lxor (Bitmap.of_bits (replicate n false ++ true :: bs)) (Z.shiftl 1 (Z.of_nat n))
  = Bitmap.of_bits (replicate (S n) false ++ bs).
Proof.
  rewrite Z.shiftl_1_l. set (z := Bitmap.of_bits (replicate (S n) false ++ bs)).
  assert (Z.land z (2 ^ Z.of_nat n) = 0) as Hz.
  { apply Z.bits_inj'. intros i Hi. rewrite Z.land_spec, Z.pow2_bits_eqb, Z.bits_0 by lia.
    destruct (Z.eqb_spec (Z.of_nat n) i) as [<-|]; [|apply andb_false_r].
    unfold z. rewrite Bitmap.testbit_bits, app_nth1 by (rewrite length_replicate; lia).
    by rewrite nth_lookup, lookup_replicate_2 by lia. }
  assert (Bitmap.of_bits (replicate n false ++ true :: bs) = z + 2 ^ Z.of_nat n) as ->.
  { unfold z. rewrite replicate_S_end, <- app_assoc. cbn [app].
    rewrite !Bitmap.of_bits_app, Bitmap.of_bits_false, length_replicate. cbn [Bitmap.of_bits Z.b2z]. lia. }
  rewrite Z.add_nocarry_lxor by done. by rewrite Z.lxor_assoc, Z.lxor_nilpotent, Z.lxor_0_r.
Qed.

(** The iterator after the tabs of [a]: those of [r] remain. *)
Definition tabs_after (a r : str) : Tabs.t :=
  Tabs.mk (Bitmap.of_bits (replicate (Z.to_nat (str_len a)) false ++ marks tab_bits r))
    (mask char_bits (a ++ r)).

Lemma tabs_next_none a r : Forall (λ c, c ≠ tab) r → Tabs.next (tabs_after a r) = (tabs_after a r, None).
Proof.
  intros Hr. unfold Tabs.next, tabs_after. cbn [Tabs.tabs]. rewrite marks_no_tab by done.
  by rewrite <- replicate_add, Bitmap.of_bits_false.
Qed.
Lemma tabs_next_some a r k :
  Forall (λ c, c ≠ tab) r → str_len (a ++ r ++ tab :: k) ≤ 128 →
  Tabs.next (tabs_after a (r ++ tab :: k))
  = (tabs_after (a ++ r ++ [tab]) k,
     Some (Tabs.mk_position (str_len (a ++ r)) (Z.of_nat (length (a ++ r))))).
Proof.
  intros Hr Hl. unfold tabs_after.
  pose proof (str_len_nonneg a). pose proof (str_len_nonneg r). pose proof (str_len_nonneg k).
  pose proof Hl as Hl'. rewrite !str_len_app in Hl'. cbn [str_len] in Hl'. change (len_utf8 tab) with 1 in Hl'.
  assert (replicate (Z.to_nat (str_len a)) false ++ marks tab_bits (r ++ tab :: k)
    = replicate (Z.to_nat (str_len (a ++ r))) false ++ true :: marks tab_bits k) as ->.
  { rewrite marks_app by apply _. change (marks tab_bits (tab :: k)) with (true :: marks tab_bits k).
    rewrite (marks_no_tab r) by done.
    by rewrite str_len_app, Z2Nat.inj_add, replicate_add, <- app_assoc by done. }
  unfold Tabs.next. cbn [Tabs.tabs Tabs.chars]. rewrite (proj2 (Z.eqb_neq _ 0)).
  2:{ rewrite Bitmap.of_bits_app. cbn [Bitmap.of_bits Z.b2z].
      pose proof (Bitmap.of_bits_bound (marks tab_bits k)).
      pose proof (Bitmap.of_bits_bound (replicate (Z.to_nat (str_len (a ++ r))) false)).
      pose proof (Z.pow_pos_nonneg 2 (Z.of_nat (length (replicate (Z.to_nat (str_len (a ++ r))) false)))). nia. }
  assert (0 ≤ str_len (a ++ r) < 128) as Har by (rewrite str_len_app; lia).
  rewrite Bitmap.trailing_zeros_bits by (change Bitmap.BITS with 128%nat; lia).
  rewrite Z2Nat.id, low_mask_shl by lia. rewrite (app_assoc a r (tab :: k)) in *.
  assert ((a ++ r ++ [tab]) ++ k = (a ++ r) ++ tab :: k) as -> by (by rewrite <- !app_assoc).
  rewrite count_low, ones_chars by (done || apply _). f_equal. f_equal.
  unfold Bitmap.shl. rewrite (Z.mod_small (str_len (a ++ r))), Z.mod_small.
  2:{ rewrite Z.shiftl_1_l. pose proof (Z.pow_lt_mono_r 2 (str_len (a ++ r)) 128). lia. }
  2:{ lia. }
  rewrite <- (Z2Nat.id (str_len (a ++ r))) at 2 by lia. rewrite lxor_lowest. do 3 f_equal.
  rewrite !str_len_app. cbn [str_len]. change (len_utf8 tab) with 1. lia.
Qed.

Lemma tab_positions_app bytes n a r :
  tab_positions bytes n (a ++ r)
  = tab_positions bytes n a ++ tab_positions (bytes + str_len a) (n + Z.of_nat (length a)) r.
Proof.
  revert bytes n. induction a as [|c a IH]; intros bytes n.
  - cbn [app tab_positions str_len length]. by rewrite !Z.add_0_r.
  - cbn [app tab_positions str_len length]. rewrite IH.
    replace (bytes + len_utf8 c + str_len a) with (bytes + (len_utf8 c + str_len a)) by lia.
    replace (n + 1 + Z.of_nat (length a)) with (n + Z.of_nat (S (length a))) by lia.
    by destruct (c =? tab).
Qed.
Lemma tab_positions_none bytes n a : Forall (λ c, c ≠ tab) a → tab_positions bytes n a = [].
Proof.
  intros H. revert bytes n. induction H as [|c a Hc Ha IH]; intros; [done|]. cbn [tab_positions].
  by rewrite (proj2 (Z.eqb_neq c tab)).
Qed.
Lemma first_tab s : Forall (λ c, c ≠ tab) s ∨ ∃ r k, s = r ++ tab :: k ∧ Forall (λ c, c ≠ tab) r.
Proof.
  induction s as [|c s [H|(r & k & -> & H)]]; [by left; constructor| |].
  - destruct (decide (c = tab)) as [->|Hc]; [right; exists [], s; split; [done|constructor]|].
    left. by constructor.
  - destruct (decide (c = tab)) as [->|Hc]; right.
    + exists [], (r ++ tab :: k). split; [done|constructor].
    + exists (c :: r), k. split; [done|by constructor].
Qed.
Lemma collect_tabs fuel a r :
  str_len (a ++ r) ≤ 128 → (length r < fuel)%nat →
  Tabs.collect fuel (tabs_after a r) = Some (tab_positions (str_len a) (Z.of_nat (length a)) r).
Proof.
  revert a r. induction fuel as [|fuel IH]; intros a r Hl Hf; [lia|]. cbn [Tabs.collect].
  destruct (first_tab r) as [Hr|(l & k & -> & Hr)].
  - by rewrite tabs_next_none, tab_positions_none.
  - rewrite tabs_next_some by done. rewrite length_app in Hf. cbn [length] in Hf.
    assert ((a ++ l ++ [tab]) ++ k = a ++ l ++ tab :: k) as E by (by rewrite <- !app_assoc).
    rewrite IH by (rewrite ?E; done || lia). cbn [mbind option_bind].
    rewrite tab_positions_app, (tab_positions_none _ _ l) by done. cbn [app tab_positions].
    rewrite Z.eqb_refl, !str_len_app, !length_app, !Nat2Z.inj_add. do 3 f_equal; cbn [str_len length]; lia.
Qed.

(** Iterating over the tabs of a chunk yields exactly its tab characters, in
    order, each with its byte offset and the number of characters before it,
    and ends. *)
Theorem tabs_correct s :
  str_len s ≤ 128 →
  Tabs.collect (S (length s)) (Tabs.of_slice (slice_of s)) = Some (tab_positions 0 0 s).
Proof. intros Hl. exact (collect_tabs (S (length s)) [] s Hl ltac:(lia)). Qed.
Lemma tabs_correct_witness :
  Tabs.collect 5 (Tabs.of_slice (slice_of [233; 9; 97; 9]))
  = Some [Tabs.mk_position 2 1; Tabs.mk_position 4 3].
Proof. apply (tabs_correct [233; 9; 97; 9]). vm_compute. congruence. Defined.
