(* ===== verification/ChunkPosition.v ===== *)
(** Conversions between byte offsets, points and their UTF-16 counterparts in a
    chunk ([crates/rope/src/chunk.rs:408-674]), against the positions that
    reading the text gives; clipping of positions that are not in the text. *)
From S2P Require Import Prelude Points TextSummary SumTree Bitmap Utf8 Chunk ChunkSummary.

(** ** Positions of a text *)

(** The position after [a], in each of the coordinates. *)
Definition point_of (a : str) : Point.t := Point.mk (newline_count a) (str_len (last_line a)).
Definition point_utf16_of (a : str) : PointUtf16.t :=
  PointUtf16.mk (newline_count a) (utf16_len (last_line a)).

(** The row [r] of [s] is [l], after the rows [p] and before the rest [q]. *)
Definition row_at (s : str) (r : Z) (p l q : str) : Prop :=
  s = p ++ l ++ q ∧ newline_count p = r ∧ (p = [] ∨ ∃ p', p = p' ++ [newline]) ∧
  no_newline l ∧ (q = [] ∨ ∃ q', q = newline :: q').

Lemma no_newline_app a b : no_newline (a ++ b) ↔ no_newline a ∧ no_newline b.
Proof. apply Forall_app. Qed.
Lemma newline_count_snoc p : newline_count (p ++ [newline]) = newline_count p + 1.
Proof. by rewrite newline_count_app. Qed.
Lemma newline_count_none s : no_newline s → newline_count s = 0.
Proof. apply newline_count_zero. Qed.
Lemma last_line_none s : no_newline s → last_line s = s.
Proof.
  intros H. destruct (last_line_split s) as [_ [[_ E]|[p E]]]; [done|].
  rewrite E in H. apply Forall_app in H as [_ H]. by inversion H.
Qed.
Lemma last_line_app p l : (p = [] ∨ ∃ p', p = p' ++ [newline]) → no_newline l → last_line (p ++ l) = l.
Proof.
  intros [->|[p' ->]] Hl; [by apply last_line_none|].
  unfold last_line. rewrite foldl_app. change (foldl _ [] (p' ++ [newline])) with (last_line (p' ++ [newline])).
  rewrite last_line_snoc. exact (last_line_none l Hl).
Qed.

(** The row that the position after [a] is in. *)
Lemma row_of a b :
  ∃ p q, row_at (a ++ b) (newline_count a) p (last_line a ++ first_line b) q ∧ a = p ++ last_line a.
Proof.
  destruct (first_line_split b) as [Hf Hb]. destruct (last_line_split a) as [Hl Ha].
  assert (∃ q, b = first_line b ++ q ∧ (q = [] ∨ ∃ q', q = newline :: q')) as (q & Eb & Hq).
  { destruct Hb as [[_ E]|[r E]]; [exists []; rewrite app_nil_r; by split; [|left]|].
    exists (newline :: r). split; [done|right]. by exists r. }
  assert (∃ p, a = p ++ last_line a ∧ (p = [] ∨ ∃ p', p = p' ++ [newline]) ∧ newline_count p = newline_count a)
    as (p & Ea & Hp & Hn).
  { destruct Ha as [[Hs E]|[r E]].
    - exists []. split_and!; [by rewrite E|by left|]. symmetry. by apply newline_count_none.
    - exists (r ++ [newline]). split_and!; [by rewrite <- app_assoc|right; by exists r|].
      rewrite E, newline_count_snoc, newline_count_app. change (newline :: ?l) with ([newline] ++ l).
      rewrite newline_count_app, (newline_count_none _ Hl). done. }
  exists p, q. split; [|done]. split_and!; [|done|done|by apply no_newline_app|done].
  rewrite Ea at 1. rewrite Eb at 1. by rewrite <- !app_assoc.
Qed.
Lemma row_exists s r : 0 ≤ r ≤ newline_count s → ∃ p l q, row_at s r p l q.
Proof.
  intros Hr. assert (∃ a b, s = a ++ b ∧ newline_count a = r) as (a & b & -> & <-).
  { induction s as [|c s IH] using rev_ind.
    - exists [], []. split; [done|]. change (newline_count []) with 0 in *. lia.
    - destruct (decide (r ≤ newline_count s)) as [H|H].
      + destruct IH as (a & b & -> & Ha); [lia|]. exists a, (b ++ [c]). by rewrite app_assoc.
      + exists (s ++ [c]), []. rewrite app_nil_r. split; [done|]. rewrite newline_count_app in *.
        enough (newline_count [c] ≤ 1) by lia. unfold newline_count.
        pose proof (length_filter (λ c, c = newline) [c]) as B. cbn [length] in B. lia. }
  destruct (row_of a b) as (p & q & H & _). by eexists _, _, _.
Qed.
Lemma row_at_bound s r p l q : row_at s r p l q → 0 ≤ r ≤ newline_count s.
Proof.
  intros (-> & <- & _). rewrite newline_count_app. pose proof (newline_count_nonneg p).
  pose proof (newline_count_nonneg (l ++ q)). lia.
Qed.
Lemma row_at_len s r p l q :
  row_at s r p l q → str_len p + str_len l + str_len q = str_len s ∧ 0 ≤ str_len p ∧ 0 ≤ str_len l ∧ 0 ≤ str_len q.
Proof.
  intros (-> & _). rewrite !str_len_app. pose proof (str_len_nonneg p). pose proof (str_len_nonneg l).
  pose proof (str_len_nonneg q). lia.
Qed.

(** ** Rows *)

Lemma offset_range_for_row_ok s r p l q :
  str_len s ≤ 128 → row_at s r p l q →
  ChunkSlice.offset_range_for_row (slice_of s) r = (str_len p, str_len (p ++ l)).
Proof.
  intros Hs Hr. pose proof (row_at_len _ _ _ _ _ Hr) as (El & ? & ? & ?).
  unfold ChunkSlice.offset_range_for_row. fields. change MAX_BASE with 128. rewrite len_encode.
  assert ((if 0 <? r then Bitmap.nth_set_bit (mask newline_bits s) r +w64 1 else 0) = str_len p) as ->.
  { destruct Hr as (E & Hp & [->|[p' ->]] & _).
    - change (newline_count []) with 0 in Hp. by subst r.
    - rewrite newline_count_snoc in Hp. pose proof (newline_count_nonneg p').
      rewrite (proj2 (Z.ltb_lt 0 r)) by lia. rewrite str_len_app. change (str_len [newline]) with 1.
      rewrite str_len_app in El. change (str_len [newline]) with 1 in El. pose proof (str_len_nonneg p').
      assert (mask newline_bits s = Bitmap.of_bits (marks newline_bits p' ++ true :: marks newline_bits (l ++ q))) as ->.
      { rewrite E, <- app_assoc. unfold mask. rewrite marks_app by apply _. done. }
      rewrite <- Hp, <- ones_newlines, Bitmap.nth_set_bit_ok, length_marks by
        (first [apply _|rewrite length_app; cbn [length]; rewrite !length_marks, str_len_app by apply _; lia]).
      rewrite Z2Nat.id, wrap64_id by width. done. }
  rewrite str_len_app. destruct (Z.eqb_spec (str_len p) 128) as [E|E].
  - rewrite Z.add_0_r, wrap64_id by width. do 2 f_equal. lia.
  - assert (Z.min (Bitmap.trailing_zeros Bitmap.BITS (Bitmap.shr 128 (mask newline_bits s) (str_len p)))
      (wrap32 (str_len s -w64 str_len p)) = str_len l) as ->; [|by rewrite wrap64_id by width].
    rewrite (wrap64_id (_ - _)), wrap32_id by width.
    destruct Hr as (-> & _ & _ & Hl & [->|[q' ->]]); rewrite mask_shr by (lia || apply _).
    + rewrite app_nil_r, trailing_no_newlines in * by done. cbn [str_len] in *. lia.
    + cbn [str_len] in *. change (len_utf8 newline) with 1 in *. pose proof (str_len_nonneg q').
      rewrite trailing_newlines by (done || lia). lia.
Qed.

Lemma row_slice s r p l q :
  scalars s → str_len s ≤ 128 → row_at s r p l q →
  ChunkSlice.slice (slice_of s) (str_len p) (str_len (p ++ l)) = Some (slice_of l).
Proof. intros Hsc Hs (-> & _). by apply chunk_slice_ok. Qed.

(** ** Offsets and points *)

Lemma prefix_len a b : str_len (a ++ b) ≤ 128 → 0 ≤ str_len a ≤ 128.
Proof. rewrite str_len_app. pose proof (str_len_nonneg a). pose proof (str_len_nonneg b). lia. Qed.

(** The index after the last newline of [a], as the code counts it. *)
Lemma newline_ix_ok a b :
  str_len (a ++ b) ≤ 128 →
  Z.of_nat Bitmap.BITS -w32 Bitmap.leading_zeros Bitmap.BITS
    (Z.land (mask newline_bits (a ++ b)) (Z.ones (str_len a)))
  = str_len a - str_len (last_line a).
Proof.
  intros Hs. pose proof (prefix_len a b Hs). rewrite mask_land by apply _.
  change (Z.of_nat Bitmap.BITS) with 128. destruct (last_line_split a) as [Hl [[Ha E]|[p E]]].
  - rewrite leading_no_newlines, E by done. rewrite wrap32_id by width. lia.
  - set (l := last_line a) in *. clearbody l. subst a. rewrite str_len_app in *. cbn [str_len] in *.
    change (len_utf8 newline) with 1 in *. pose proof (str_len_nonneg p). pose proof (str_len_nonneg l).
    rewrite leading_newlines by (done || lia). rewrite wrap32_id by width. lia.
Qed.

Lemma offset_to_point_ok a b :
  str_len (a ++ b) ≤ 128 → ChunkSlice.offset_to_point (slice_of (a ++ b)) (str_len a) = point_of a.
Proof.
  intros Hs. pose proof (prefix_len a b Hs). unfold ChunkSlice.offset_to_point, point_of, Point.new. fields.
  rewrite (wrap32_id (str_len a)), low_mask, newline_ix_ok by (done || lia || width).
  rewrite count_low, ones_newlines by (done || apply _).
  pose proof (last_line_le a). pose proof (str_len_nonneg (last_line a)).
  rewrite wrap64_id, wrap32_id by width. f_equal. lia.
Qed.

(** A debug build does not accept a column beyond the row. *)
Definition accepted (debug_assertions exact : bool) {A} (rest : A) : option A := if debug_assertions && negb exact then None else Some rest.
Lemma accepted_exact debug {A} (rest : A) : accepted debug true rest = Some rest.
Proof. unfold accepted. by rewrite andb_false_r. Qed.
Lemma accepted_panic debug {A} (rest : A) : ChunkSlice.debug_panic debug (Some rest) = accepted debug false rest.
Proof. unfold accepted. by rewrite andb_true_r. Qed.
Lemma accepted_release exact {A} (rest : A) : accepted false exact rest = Some rest.
Proof. done. Qed.
Lemma point_to_offset_row debug s r p l q c :
  str_len s ≤ 128 → row_at s r p l q → 0 ≤ c →
  ChunkSlice.point_to_offset debug (slice_of s) (Point.mk r c) = accepted debug (c <=? str_len l) (str_len p + Z.min c (str_len l)).
Proof.
  intros Hs Hr Hc. pose proof (row_at_bound _ _ _ _ _ Hr). pose proof (row_at_len _ _ _ _ _ Hr) as (? & ? & ? & ?).
  unfold ChunkSlice.point_to_offset. rewrite lines_ok by done. cbn [Point.row Point.column].
  rewrite (proj2 (Z.ltb_ge _ _)) by lia. rewrite (offset_range_for_row_ok s r p l q) by done.
  unfold ChunkSlice.range_len, saturating_sub. cbn [fst snd].
  rewrite str_len_app, Z.max_r, (wrap32_id (_ - _)) by width.
  destruct (Z.ltb_spec (str_len p + str_len l - str_len p) c).
  - rewrite (proj2 (Z.leb_gt _ _)), <- accepted_panic by lia. do 2 f_equal. lia.
  - rewrite (proj2 (Z.leb_le _ _)), accepted_exact by lia. rewrite wrap64_id by width. f_equal. lia.
Qed.
Lemma point_to_offset_ok debug a b :
  str_len (a ++ b) ≤ 128 → ChunkSlice.point_to_offset debug (slice_of (a ++ b)) (point_of a) = Some (str_len a).
Proof.
  intros Hs. destruct (row_of a b) as (p & q & Hr & Ea). pose proof (str_len_nonneg (last_line a)).
  unfold point_of. rewrite (point_to_offset_row _ _ _ p (last_line a ++ first_line b) q) by done.
  rewrite str_len_app. pose proof (str_len_nonneg (first_line b)). rewrite (proj2 (Z.leb_le _ _)), accepted_exact, Z.min_l by lia.
  by rewrite <- str_len_app, <- Ea.
Qed.
Lemma point_to_offset_beyond debug s r c :
  str_len s ≤ 128 → newline_count s < r →
  ChunkSlice.point_to_offset debug (slice_of s) (Point.mk r c) = accepted debug false (str_len s).
Proof.
  intros Hs Hr. unfold ChunkSlice.point_to_offset. rewrite lines_ok by done. cbn [Point.row].
  rewrite (proj2 (Z.ltb_lt _ _)), len_ok by lia. apply accepted_panic.
Qed.

(** ** UTF-16 units *)

Lemma offset_to_offset_utf16_ok a b :
  str_len (a ++ b) ≤ 128 →
  ChunkSlice.offset_to_offset_utf16 (slice_of (a ++ b)) (str_len a) = OffsetUtf16.mk (utf16_len a).
Proof.
  intros Hs. pose proof (prefix_len a b Hs). unfold ChunkSlice.offset_to_offset_utf16. fields.
  rewrite (wrap32_id (str_len a)), low_mask by (lia || width).
  by rewrite count_low, ones_utf16 by (done || apply _).
Qed.
Lemma offset_to_point_utf16_ok a b :
  str_len (a ++ b) ≤ 128 →
  ChunkSlice.offset_to_point_utf16 (slice_of (a ++ b)) (str_len a) = point_utf16_of a.
Proof.
  intros Hs. pose proof (prefix_len a b Hs). unfold ChunkSlice.offset_to_point_utf16, point_utf16_of, PointUtf16.new.
  fields. rewrite (wrap32_id (str_len a)), saturating_shl_mask_ok, newline_ix_ok by (done || lia || width).
  rewrite count_low, ones_newlines by (done || apply _). f_equal. change MAX_BASE with 128.
  pose proof (last_line_le a). pose proof (str_len_nonneg (last_line a)).
  destruct (Z.eqb_spec (str_len a - str_len (last_line a)) 128) as [E|E].
  - assert (last_line a = []) as -> by (apply str_len_zero; lia). done.
  - rewrite mask_land by apply _. destruct (last_line_split a) as [_ [[_ El]|[p El]]].
    + rewrite El, Z.sub_diag. unfold Bitmap.shr. rewrite Z.mod_0_l, Z.shiftr_0_r by done.
      rewrite count_mask, ones_utf16 by (lia || apply _). done.
    + set (l := last_line a) in *. clearbody l. subst a.
      change (p ++ newline :: l) with (p ++ [newline] ++ l) in *. rewrite app_assoc in *.
      rewrite (str_len_app (p ++ [newline]) l) in *.
      replace (str_len (p ++ [newline]) + str_len l - str_len l) with (str_len (p ++ [newline])) in * by lia.
      rewrite mask_shr by (apply _ || lia). rewrite count_mask, ones_utf16 by (lia || apply _). done.
Qed.

(** The last UTF-16 unit of a text in the masks, and the bytes after it. *)
Lemma utf16_last a :
  a ≠ [] → ∃ bs z, marks utf16_bits a = bs ++ true :: replicate z false ∧ utf16_len a = Bitmap.ones bs + 1.
Proof.
  intros Ha. destruct a as [|c a _] using rev_ind; [done|]. clear Ha.
  rewrite marks_app by apply _. unfold marks at 2. cbn [map concat]. rewrite app_nil_r, utf16_len_app.
  cbn [utf16_len]. unfold utf16_bits at 2. destruct (Z.eqb_spec (len_utf16 c) 2) as [->|H].
  - exists (marks utf16_bits a ++ [true]), 2%nat. rewrite <- app_assoc. split; [done|].
    rewrite Bitmap.ones_app, ones_utf16. cbn. lia.
  - exists (marks utf16_bits a), (Z.to_nat (len_utf8 c - 1)). split; [done|]. rewrite ones_utf16.
    pose proof (len_utf16_bounds c). revert H. unfold len_utf16. split_if; lia.
Qed.
Lemma first_utf16_bit b : b ≠ [] → ∃ bs, marks utf16_bits b = true :: bs.
Proof.
  destruct b as [|c b]; [done|]. intros _. rewrite marks_cons. unfold utf16_bits at 1.
  split_if; by eexists.
Qed.

(** The search for a unit, from the bit before it on. *)
Lemma utf16_search s bs z rest :
  str_len s ≤ 128 → marks utf16_bits s = bs ++ true :: replicate z false ++ rest →
  (rest = [] ∨ ∃ r, rest = true :: r) →
  ChunkSlice.offset_utf16_to_offset (slice_of s) (OffsetUtf16.mk (Bitmap.ones bs + 1))
  = Z.of_nat (length bs + 1 + z).
Proof.
  intros Hs Hm Hr. pose proof (Bitmap.ones_bounds bs). pose proof (length_marks utf16_bits s) as Hlen.
  rewrite Hm, length_app in Hlen. cbn [length] in Hlen. rewrite length_app, length_replicate in Hlen.
  pose proof (str_len_nonneg s). unfold ChunkSlice.offset_utf16_to_offset. cbn [OffsetUtf16.offset]. fields.
  rewrite (proj2 (Z.eqb_neq _ 0)) by lia. unfold mask. rewrite Hm.
  rewrite Bitmap.nth_set_bit_ok by (rewrite length_app; cbn [length]; rewrite length_app, length_replicate; lia).
  rewrite wrap64_id by width. change MAX_BASE with 128.
  destruct (Z.eqb_spec (Z.of_nat (length bs) + 1) 128) as [E|E]; [lia|]. rewrite len_encode.
  assert (Bitmap.shr 128 (Bitmap.of_bits (bs ++ true :: replicate z false ++ rest)) (Z.of_nat (length bs) + 1)
    = Bitmap.of_bits (replicate z false ++ rest)) as ->.
  { unfold Bitmap.shr. rewrite Z.mod_small by lia.
    replace (Z.of_nat (length bs) + 1) with (Z.of_nat (length (bs ++ [true]))) by (rewrite length_app; cbn; lia).
    rewrite Bitmap.shiftr_bits. f_equal.
    assert (bs ++ true :: replicate z false ++ rest = (bs ++ [true]) ++ replicate z false ++ rest) as ->
      by (by rewrite <- app_assoc). apply drop_app_length. }
  rewrite (wrap64_id (_ - _)) by width. destruct Hr as [->|[r ->]].
  - rewrite app_nil_r, Bitmap.of_bits_false, Bitmap.trailing_zeros_zero. cbn [length] in Hlen.
    change (Z.of_nat Bitmap.BITS) with 128. rewrite wrap64_id by width. lia.
  - cbn [length] in Hlen. rewrite Bitmap.trailing_zeros_bits by (change Bitmap.BITS with 128%nat; lia).
    rewrite wrap64_id by width. lia.
Qed.

Lemma offset_utf16_to_offset_ok a b :
  str_len (a ++ b) ≤ 128 →
  ChunkSlice.offset_utf16_to_offset (slice_of (a ++ b)) (OffsetUtf16.mk (utf16_len a)) = str_len a.
Proof.
  intros Hs. destruct (decide (a = [])) as [->|Ha]; [done|].
  destruct (utf16_last a Ha) as (bs & z & Hm & Hn). rewrite Hn.
  pose proof (length_marks utf16_bits a) as Hl. rewrite Hm, length_app in Hl. cbn [length] in Hl.
  rewrite length_replicate in Hl. pose proof (str_len_nonneg a).
  rewrite (utf16_search _ bs z (marks utf16_bits b)); [lia|done| |].
  - rewrite marks_app, Hm, <- app_assoc by apply _. done.
  - destruct (decide (b = [])) as [->|Hb]; [by left|right]. by apply first_utf16_bit.
Qed.
(** Between the two units of a character the search stops after its first byte. *)
Lemma offset_utf16_inside a c b :
  str_len (a ++ c :: b) ≤ 128 → len_utf16 c = 2 →
  ChunkSlice.offset_utf16_to_offset (slice_of (a ++ c :: b)) (OffsetUtf16.mk (utf16_len a + 1)) = str_len a + 1.
Proof.
  intros Hs Hc. pose proof (length_marks utf16_bits a) as Hl. pose proof (str_len_nonneg a).
  rewrite <- ones_utf16. rewrite (utf16_search _ (marks utf16_bits a) 0 (true :: [false; false] ++ marks utf16_bits b)).
  - lia.
  - done.
  - rewrite marks_app, marks_cons by apply _. unfold utf16_bits at 2. by rewrite Hc.
  - right. by eexists.
Qed.

(** ** Clipping UTF-16 positions *)

(** The longest prefix of at most [n] units, the shortest one of at least [n]. *)
Fixpoint prefix16 (l : str) (n : Z) : str :=
  match l with
  | [] => []
  | c :: l => if len_utf16 c <=? n then c :: prefix16 l (n - len_utf16 c) else []
  end.
Fixpoint cover16 (l : str) (n : Z) : str :=
  match l with
  | [] => []
  | c :: l => if 0 <? n then c :: cover16 l (n - len_utf16 c) else []
  end.

Lemma len_utf16_cases c : len_utf16 c = 1 ∨ len_utf16 c = 2.
Proof. unfold len_utf16. split_if; lia. Qed.
Lemma utf16_cases l n : 0 ≤ n →
  (utf16_len l < n ∧ prefix16 l n = l ∧ cover16 l n = l) ∨
  (∃ a b, l = a ++ b ∧ n = utf16_len a ∧ prefix16 l n = a ∧ cover16 l n = a) ∨
  (∃ a c b, l = a ++ c :: b ∧ len_utf16 c = 2 ∧ n = utf16_len a + 1 ∧ prefix16 l n = a ∧ cover16 l n = a ++ [c]).
Proof.
  revert n. induction l as [|c l IH]; intros n Hn.
  - destruct (decide (n = 0)) as [->|]; [right; left; by exists [], []|left]. cbn. split_and!; [lia|done..].
  - cbn [prefix16 cover16 utf16_len]. destruct (Z.ltb_spec 0 n) as [H|H].
    2:{ right; left. exists [], (c :: l). assert (n = 0) as -> by lia. split_and!; try done.
        destruct (len_utf16_cases c) as [E|E]; by rewrite E. }
    destruct (Z.leb_spec (len_utf16 c) n) as [H2|H2].
    + destruct (IH (n - len_utf16 c)) as [(? & -> & ->)|[(a & b & -> & Ha & -> & ->)|(a & d & b & -> & Hd & Ha & -> & ->)]].
      * lia.
      * left. split_and!; [lia|done..].
      * right; left. exists (c :: a), b. split_and!; try done. cbn [utf16_len]. lia.
      * right; right. exists (c :: a), d, b. split_and!; try done. cbn [utf16_len]. lia.
    + right; right. destruct (len_utf16_cases c) as [E|E]; [lia|].
      exists [], c, l. cbn [utf16_len app]. rewrite E. split_and!; try done; [lia|].
      replace (n - 2) with (-1) by lia. by destruct l.
Qed.

(** A byte inside of a character is not a boundary; the loops walk out of it. *)
Lemma long_char c : len_utf16 c = 2 → len_utf8 c = 4.
Proof. apply len_utf16_two. Qed.
Lemma inside_not_boundary a c b k :
  scalars (a ++ c :: b) → len_utf16 c = 2 → 0 < k < 4 →
  Utf8.is_char_boundary (encode (a ++ c :: b)) (str_len a + k) = false.
Proof. intros Hs Hc Hk. apply not_boundary; [done|]. rewrite (long_char c Hc). lia. Qed.
Lemma boundary_after a c b :
  scalars (a ++ c :: b) →
  Utf8.is_char_boundary (encode (a ++ c :: b)) (str_len a + len_utf8 c) = true.
Proof.
  intros Hs. assert (a ++ c :: b = (a ++ [c]) ++ b) as E by (by rewrite <- app_assoc). rewrite E in *.
  replace (str_len a + len_utf8 c) with (str_len (a ++ [c])) by (rewrite str_len_app; cbn; lia).
  by apply boundary_app.
Qed.

(** Nor a UTF-16 column beyond the row or inside of a character, unless it is clipped. *)
Definition exact16 (l : str) (c : Z) : bool := utf16_len (prefix16 l c) =? c.
Lemma point_utf16_to_offset_row debug s r p l q c clip :
  scalars s → str_len s ≤ 128 → row_at s r p l q → 0 ≤ c →
  ChunkSlice.point_utf16_to_offset debug (slice_of s) (PointUtf16.mk r c) clip
  = accepted debug (clip || exact16 l c) (str_len (p ++ prefix16 l c)).
Proof.
  intros Hsc Hs Hr Hc. pose proof (row_at_bound _ _ _ _ _ Hr). pose proof (row_at_len _ _ _ _ _ Hr) as (? & ? & ? & ?).
  unfold ChunkSlice.point_utf16_to_offset. rewrite lines_ok by done. cbn [Point.row PointUtf16.row PointUtf16.column].
  rewrite (proj2 (Z.ltb_ge _ _)) by lia. rewrite (offset_range_for_row_ok s r p l q) by done. cbn [fst snd].
  rewrite (row_slice s r p l q) by done. cbn [mbind option_bind]. rewrite last_line_len_utf16_ok by lia.
  destruct Hr as (Es & _ & _ & Hl & _). rewrite last_line_none by done. unfold exact16.
  destruct (utf16_cases l c Hc) as [(Hlt & -> & _)|[(a & b & E & Ec & -> & _)|(a & d & b & E & Hd & Ec & -> & _)]].
  - rewrite (proj2 (Z.ltb_lt _ _)), (proj2 (Z.eqb_neq _ c)), orb_false_r by lia. unfold ChunkSlice.debug_panic, accepted. by destruct debug, clip.
  - subst c. rewrite Z.eqb_refl, orb_true_r, accepted_exact.
    subst l. rewrite utf16_len_app. pose proof (utf16_len_bounds b). rewrite (proj2 (Z.ltb_ge _ _)) by lia.
    destruct (Z.ltb_spec 0 (utf16_len a)) as [Ha|Ha].
    + rewrite offset_utf16_to_offset_ok by lia. rewrite str_len_app in *. pose proof (str_len_nonneg a).
      pose proof (str_len_nonneg b). rewrite wrap64_id by width. fields.
      rewrite <- str_len_app, Es. rewrite <- app_assoc, (app_assoc p), boundary_app; [done|].
      by rewrite <- app_assoc, (app_assoc a), <- Es.
    + assert (a = []) as ->; [|by rewrite app_nil_r]. destruct a as [|x a]; [done|]. cbn [utf16_len] in Ha.
      pose proof (len_utf16_bounds x). pose proof (utf16_len_bounds a). lia.
  - subst c. rewrite (proj2 (Z.eqb_neq _ (utf16_len a + 1))), orb_false_r by lia.
    subst l. rewrite utf16_len_app. cbn [utf16_len]. pose proof (utf16_len_bounds a). pose proof (utf16_len_bounds b).
    rewrite (proj2 (Z.ltb_ge _ _)), (proj2 (Z.ltb_lt 0 _)) by lia.
    rewrite offset_utf16_inside by (done || lia). rewrite str_len_app in *. cbn [str_len] in *.
    pose proof (str_len_nonneg a). pose proof (str_len_nonneg b). pose proof (len_utf8_bounds d).
    rewrite wrap64_id by width. fields.
    assert (s = (p ++ a) ++ d :: b ++ q) as Ep by (rewrite Es; by rewrite <- !app_assoc).
    replace (str_len p + (str_len a + 1)) with (str_len (p ++ a) + 1) by (rewrite str_len_app; lia).
    rewrite Ep in *. rewrite inside_not_boundary by done.
    rewrite wrap64_id by (rewrite str_len_app; width). replace (str_len (p ++ a) + 1 - 1) with (str_len (p ++ a)) by lia.
    assert (0 < length (encode ((p ++ a) ++ d :: b ++ q)))%nat as Hpos by (rewrite length_encode, !str_len_app; cbn [str_len]; pose proof (str_len_nonneg (b ++ q)); lia).
    destruct (length (encode ((p ++ a) ++ d :: b ++ q))) as [|fuel]; [lia|].
    cbn [ChunkSlice.back_to_boundary]. rewrite boundary_app by done. rewrite str_len_app.
    unfold ChunkSlice.debug_panic, accepted. by destruct debug, clip.
Qed.

Lemma unclipped_row s r p l q c :
  scalars s → str_len s ≤ 128 → row_at s r p l q → 0 ≤ c →
  ChunkSlice.unclipped_point_utf16_to_point (slice_of s) (Unclipped.mk (PointUtf16.mk r c))
  = Some (Point.mk r (str_len (prefix16 l c))).
Proof.
  intros Hsc Hs Hr Hc. pose proof (row_at_bound _ _ _ _ _ Hr). pose proof (row_at_len _ _ _ _ _ Hr) as (? & ? & ? & ?).
  unfold ChunkSlice.unclipped_point_utf16_to_point, Point.new. cbn [Unclipped.inner PointUtf16.row PointUtf16.column].
  rewrite lines_ok by done. cbn [Point.row]. rewrite (proj2 (Z.ltb_ge _ _)) by lia.
  rewrite (offset_range_for_row_ok s r p l q) by done. cbn [fst snd].
  rewrite (row_slice s r p l q) by done. cbn [mbind option_bind].
  rewrite len_utf16_ok, len_ok by lia. cbn [OffsetUtf16.offset]. pose proof (utf16_len_bounds l).
  rewrite (wrap32_id (utf16_len l)), (wrap32_id (str_len l)) by width.
  assert (scalars l) as Hscl by (destruct Hr as (-> & _); by apply scalars_app in Hsc as [_ [? _]%scalars_app]).
  destruct (utf16_cases l c Hc) as [(Hlt & -> & _)|[(a & b & E & -> & -> & _)|(a & d & b & E & Hd & -> & -> & _)]].
  - rewrite (proj2 (Z.eqb_neq c 0)), (proj2 (Z.leb_le _ _)) by lia. done.
  - subst l. rewrite utf16_len_app in *. pose proof (utf16_len_bounds a). pose proof (utf16_len_bounds b).
    destruct (Z.eqb_spec (utf16_len a) 0) as [Ha|Ha].
    { assert (a = []) as ->; [|done]. destruct a as [|x a]; [done|]. cbn [utf16_len] in *.
      pose proof (len_utf16_bounds x). pose proof (utf16_len_bounds a). lia. }
    destruct (Z.leb_spec (utf16_len a + utf16_len b) (utf16_len a)) as [Hb|Hb].
    { assert (b = []) as ->; [|by rewrite app_nil_r]. destruct b as [|x b]; [done|]. cbn [utf16_len] in *.
      pose proof (len_utf16_bounds x). pose proof (utf16_len_bounds b). lia. }
    rewrite offset_utf16_to_offset_ok by lia. cbn [ChunkSlice.back_to_boundary]. fields.
    rewrite boundary_app by done. cbn [mbind option_bind]. rewrite str_len_app in *.
    pose proof (str_len_nonneg a). pose proof (str_len_nonneg b). by rewrite wrap32_id by width.
  - subst l. rewrite utf16_len_app in *. cbn [utf16_len] in *. pose proof (utf16_len_bounds a). pose proof (utf16_len_bounds b).
    rewrite (proj2 (Z.eqb_neq _ 0)), (proj2 (Z.leb_gt _ _)) by lia.
    rewrite offset_utf16_inside by (done || lia). fields.
    assert (0 < length (encode (a ++ d :: b)))%nat as Hpos.
    { rewrite length_encode, str_len_app. cbn [str_len]. pose proof (len_utf8_bounds d).
      pose proof (str_len_nonneg a). pose proof (str_len_nonneg b). lia. }
    destruct (length (encode (a ++ d :: b))) as [|fuel]; [lia|].
    cbn [ChunkSlice.back_to_boundary]. rewrite inside_not_boundary by done.
    rewrite str_len_app in *. cbn [str_len] in *. pose proof (str_len_nonneg a). pose proof (str_len_nonneg b).
    pose proof (len_utf8_bounds d).
    rewrite wrap64_id by width. replace (str_len a + 1 - 1) with (str_len a) by lia.
    rewrite boundary_app by done. cbn [mbind option_bind]. by rewrite wrap32_id by width.
Qed.

Definition clipped16 (bias : bias) (l : str) (n : Z) : str :=
  match bias with Left => prefix16 l n | Right => cover16 l n end.

Lemma to_boundary_left fuel a c b :
  scalars (a ++ c :: b) → str_len (a ++ c :: b) ≤ 128 → len_utf16 c = 2 → (2 ≤ fuel)%nat →
  ChunkSlice.to_boundary fuel Left (encode (a ++ c :: b)) (str_len a + 1) = Some (str_len a).
Proof.
  intros Hs Hl Hc Hf. destruct fuel as [|[|fuel]]; [lia..|]. cbn [ChunkSlice.to_boundary].
  pose proof (prefix_len _ _ Hl). rewrite inside_not_boundary by done.
  rewrite wrap64_id by width. replace (str_len a + 1 - 1) with (str_len a) by lia. by rewrite boundary_app.
Qed.
Lemma to_boundary_right fuel a c b :
  scalars (a ++ c :: b) → str_len (a ++ c :: b) ≤ 128 → len_utf16 c = 2 → (4 ≤ fuel)%nat →
  ChunkSlice.to_boundary fuel Right (encode (a ++ c :: b)) (str_len a + 1) = Some (str_len (a ++ [c])).
Proof.
  intros Hs Hl Hc Hf. destruct fuel as [|[|[|[|fuel]]]]; [lia..|]. cbn [ChunkSlice.to_boundary].
  pose proof (prefix_len _ _ Hl).
  rewrite inside_not_boundary by done. rewrite wrap64_id by width.
  replace (str_len a + 1 + 1) with (str_len a + 2) by lia.
  rewrite inside_not_boundary by done. rewrite wrap64_id by width.
  replace (str_len a + 2 + 1) with (str_len a + 3) by lia.
  rewrite inside_not_boundary by done. rewrite wrap64_id by width.
  replace (str_len a + 3 + 1) with (str_len a + len_utf8 c) by (rewrite (long_char c Hc); lia).
  rewrite boundary_after by done. rewrite str_len_app. cbn [str_len]. by rewrite Z.add_0_r.
Qed.

Lemma clip_offset_utf16_ok s n bias :
  scalars s → str_len s ≤ 128 → 0 ≤ n →
  ChunkSlice.clip_offset_utf16 (slice_of s) (OffsetUtf16.mk n) bias
  = Some (OffsetUtf16.mk (utf16_len (clipped16 bias s n))).
Proof.
  intros Hsc Hs Hn. unfold ChunkSlice.clip_offset_utf16, OffsetUtf16.cmp. rewrite len_utf16_ok by done.
  cbn [OffsetUtf16.offset]. fields. pose proof (utf16_len_bounds s).
  destruct (Z.eqb_spec n 0) as [->|Hne].
  { do 2 f_equal. destruct bias, s as [|c s]; try done. cbn [clipped16 prefix16].
    by destruct (len_utf16_cases c) as [E|E]; rewrite E. }
  assert (∀ a b, is_ge (Z.compare a b) = true ↔ b ≤ a) as Hge.
  { intros a b. destruct (Z.compare_spec a b); cbn; split; (done || lia). }
  destruct (utf16_cases s n Hn) as [(Hlt & E1 & E2)|[(a & b & E & Hn' & E1 & E2)|(a & d & b & E & Hd & Hn' & E1 & E2)]].
  - assert (clipped16 bias s n = s) as -> by (by destruct bias). by rewrite (proj2 (Hge n (utf16_len s))) by lia.
  - assert (clipped16 bias s n = a) as -> by (by destruct bias). clear E1 E2. subst s n.
    destruct (is_ge _) eqn:Eg.
    + apply Hge in Eg. rewrite utf16_len_app in *. pose proof (utf16_len_bounds b). do 2 f_equal. lia.
    + rewrite offset_utf16_to_offset_ok by done. cbn [ChunkSlice.to_boundary].
      rewrite boundary_app by done. cbn [mbind option_bind]. by rewrite offset_to_offset_utf16_ok.
  - subst s n. destruct (is_ge _) eqn:Eg.
    { apply Hge in Eg. rewrite utf16_len_app in *. cbn [utf16_len] in *. pose proof (utf16_len_bounds b). lia. }
    rewrite offset_utf16_inside by done.
    assert (4 ≤ length (encode (a ++ d :: b)))%nat as Hf.
    { rewrite length_encode, str_len_app. cbn [str_len]. rewrite (long_char d Hd).
      pose proof (str_len_nonneg a). pose proof (str_len_nonneg b). lia. }
    destruct bias; cbn [clipped16]; rewrite ?E1, ?E2.
    + rewrite to_boundary_left by (done || lia). cbn [mbind option_bind]. by rewrite offset_to_offset_utf16_ok.
    + rewrite to_boundary_right by (done || lia). cbn [mbind option_bind].
      assert (a ++ d :: b = (a ++ [d]) ++ b) as Eb by (by rewrite <- app_assoc). rewrite Eb in *.
      by rewrite offset_to_offset_utf16_ok.
Qed.

Lemma clipped16_bounds bias l n : 0 ≤ n → 0 ≤ utf16_len (clipped16 bias l n) ≤ str_len l.
Proof.
  intros Hn. pose proof (utf16_len_bounds l).
  destruct (utf16_cases l n Hn) as [(Hlt & E1 & E2)|[(a & b & E & Hn' & E1 & E2)|(a & d & b & E & Hd & Hn' & E1 & E2)]];
    destruct bias; cbn [clipped16]; rewrite ?E1, ?E2; try done; subst l; rewrite ?utf16_len_app, ?str_len_app in *;
    cbn [utf16_len str_len] in *; pose proof (utf16_len_bounds a); pose proof (utf16_len_bounds b); 
    try pose proof (len_utf16_bounds d); lia.
Qed.
Lemma clip_point_utf16_row s r p l q c bias :
  scalars s → str_len s ≤ 128 → row_at s r p l q → 0 ≤ c →
  ChunkSlice.clip_point_utf16 (slice_of s) (Unclipped.mk (PointUtf16.mk r c)) bias
  = Some (PointUtf16.mk r (utf16_len (clipped16 bias l c))).
Proof.
  intros Hsc Hs Hr Hc. pose proof (row_at_bound _ _ _ _ _ Hr). pose proof (row_at_len _ _ _ _ _ Hr) as (? & ? & ? & ?).
  unfold ChunkSlice.clip_point_utf16, PointUtf16.new. cbn [Unclipped.inner PointUtf16.row PointUtf16.column].
  rewrite lines_ok by done. cbn [Point.row]. rewrite (proj2 (Z.ltb_ge _ _)) by lia.
  rewrite (offset_range_for_row_ok s r p l q) by done. cbn [fst snd].
  rewrite (row_slice s r p l q) by done. cbn [mbind option_bind].
  assert (scalars l) as Hscl by (destruct Hr as (-> & _); by apply scalars_app in Hsc as [_ [? _]%scalars_app]).
  rewrite clip_offset_utf16_ok by (done || lia). cbn [mbind option_bind OffsetUtf16.offset].
  pose proof (clipped16_bounds bias l c Hc). by rewrite wrap32_id by width.
Qed.

Lemma byte_nonneg l i b : scalars l → encode l !! i = Some b → 0 ≤ b.
Proof.
  intros Hs. revert i. induction Hs as [|c l Hc Hs IH]; intros i Hi; [done|].
  rewrite encode_cons in Hi. apply lookup_app_Some in Hi as [Hi|[_ Hi]]; [|by apply (IH _ Hi)].
  destruct (encode_char_bytes c Hc) as (x & bs & E & Hx & _ & _ & _ & _ & _ & Hbs). rewrite E in Hi.
  destruct i as [|i]; [injection Hi as <-; lia|]. rewrite Forall_lookup in Hbs. specialize (Hbs i b Hi). lia.
Qed.

(** ** Clipping to grapheme clusters *)
Section graphemes.
Variable is_boundary : list Z → Z → bool.

(** The offsets at which the loop stops. *)
Definition stops (l : str) (k : Z) : bool := Utf8.is_char_boundary (encode l) k && is_boundary (encode l) k.

Lemma clip_column_left fuel l c :
  scalars l → str_len l ≤ 128 → 0 ≤ c ≤ str_len l → stops l 0 = true → (Z.to_nat c < fuel)%nat →
  ∃ c', ChunkSlice.clip_column is_boundary fuel (slice_of l) Left c = Some c' ∧
    0 ≤ c' ≤ c ∧ stops l c' = true ∧ ∀ k, c' < k ≤ c → stops l k = false.
Proof.
  intros Hs Hl. revert c. induction fuel as [|fuel IH]; intros c Hc H0 Hf; [lia|].
  cbn [ChunkSlice.clip_column]. rewrite is_char_boundary_ok by (done || lia). fields.
  change (Utf8.is_char_boundary (encode l) c && is_boundary (encode l) c) with (stops l c).
  destruct (stops l c) eqn:E; [exists c; split_and!; try done; lia|].
  assert (c ≠ 0) by congruence. rewrite wrap64_id by width.
  destruct (IH (c - 1)) as (c' & -> & Hb & Hs' & Hk); [lia|done|lia|].
  exists c'. split_and!; try done; try lia. intros k Hk'.
  destruct (decide (k = c)) as [->|]; [done|]. apply Hk. lia.
Qed.
Lemma clip_column_right fuel l c :
  scalars l → str_len l ≤ 128 → 0 ≤ c ≤ str_len l → stops l (str_len l) = true →
  (Z.to_nat (str_len l - c) < fuel)%nat →
  ∃ c', ChunkSlice.clip_column is_boundary fuel (slice_of l) Right c = Some c' ∧
    c ≤ c' ≤ str_len l ∧ stops l c' = true ∧ ∀ k, c ≤ k < c' → stops l k = false.
Proof.
  intros Hs Hl. revert c. induction fuel as [|fuel IH]; intros c Hc H0 Hf; [lia|].
  cbn [ChunkSlice.clip_column]. rewrite is_char_boundary_ok by (done || lia). fields.
  change (Utf8.is_char_boundary (encode l) c && is_boundary (encode l) c) with (stops l c).
  destruct (stops l c) eqn:E; [exists c; split_and!; try done; lia|].
  assert (c ≠ str_len l) by congruence. rewrite wrap64_id by width.
  destruct (IH (c + 1)) as (c' & -> & Hb & Hs' & Hk); [lia|done|lia|].
  exists c'. split_and!; try done; try lia. intros k Hk'.
  destruct (decide (k = c)) as [->|]; [done|]. apply Hk. lia.
Qed.

(** The nearest column in the direction of the bias at which the loop stops. *)
Definition nearest (bias : bias) (l : str) (c c' : Z) : Prop :=
  stops l c' = true ∧
  match bias with
  | Left => 0 ≤ c' ≤ c ∧ ∀ k, c' < k ≤ c → stops l k = false
  | Right => c ≤ c' ≤ str_len l ∧ ∀ k, c ≤ k < c' → stops l k = false
  end.

Hypothesis boundary_start : ∀ text, is_boundary text 0 = true.
Hypothesis boundary_end : ∀ text, is_boundary text (Utf8.len text) = true.

Lemma stops_ends l : scalars l → stops l 0 = true ∧ stops l (str_len l) = true.
Proof.
  intros Hs. unfold stops. rewrite boundary_start. rewrite <- len_encode at 2. rewrite boundary_end, !andb_true_r.
  split; [done|]. rewrite <- (app_nil_r l) at 1. apply boundary_app. by rewrite app_nil_r.
Qed.
Lemma clip_column_ok l c bias :
  scalars l → str_len l ≤ 128 → 0 ≤ c ≤ str_len l →
  ∃ c', ChunkSlice.clip_column is_boundary (S (length (encode l))) (slice_of l) bias c = Some c' ∧ nearest bias l c c'.
Proof.
  intros Hs Hl Hc. destruct (stops_ends l Hs) as [H0 H1]. pose proof (length_encode l). destruct bias.
  - destruct (clip_column_left (S (length (encode l))) l c) as (c' & E & Hc'); [done|done|done|done|lia|].
    exists c'. unfold nearest. tauto.
  - destruct (clip_column_right (S (length (encode l))) l c) as (c' & E & Hc'); [done|done|done|done|lia|].
    exists c'. unfold nearest. tauto.
Qed.

(** Clipping a point to the text always ends, in the nearest position in the
    direction of the bias that separates characters and grapheme clusters;
    points beyond the text or the row go to its end, and a position between
    two ASCII characters stays. The search for clusters relies on what the
    rules of segmentation say first: both ends of a text are boundaries. *)
Theorem clip_point_correct s r p l q c bias :
  scalars s → str_len s ≤ 128 → 0 ≤ c →
  (newline_count s < r →
   ChunkSlice.clip_point is_boundary (slice_of s) (Point.mk r c) bias = Some (point_of s)) ∧
  (row_at s r p l q →
   ∃ c', ChunkSlice.clip_point is_boundary (slice_of s) (Point.mk r c) bias = Some (Point.mk r c') ∧
     Utf8.is_char_boundary (encode l) c' = true ∧ 0 ≤ c' ≤ str_len l ∧
     (c = 0 → c' = 0) ∧ (str_len l ≤ c → c' = str_len l) ∧
     (0 < c < str_len l →
      if (get_or (encode l) (c - 1) 0 <? 128) && (get_or (encode l) c 0 <? 128) then c' = c
      else nearest bias l c c')).
Proof.
  intros Hsc Hs Hc. split.
  { intros Hr. unfold ChunkSlice.clip_point. rewrite lines_ok by done. cbn [Point.row].
    by rewrite (proj2 (Z.ltb_lt _ _)). }
  intros Hr. pose proof (row_at_bound _ _ _ _ _ Hr). pose proof (row_at_len _ _ _ _ _ Hr) as (? & ? & ? & ?).
  assert (scalars l) as Hscl by (destruct Hr as (-> & _); by apply scalars_app in Hsc as [_ [? _]%scalars_app]).
  assert (Utf8.is_char_boundary (encode l) (str_len l) = true) as Hend by (destruct (stops_ends l Hscl) as [_ [? _]%andb_true_iff]; done).
  unfold ChunkSlice.clip_point, Point.new. rewrite lines_ok by done. cbn [Point.row Point.column].
  rewrite (proj2 (Z.ltb_ge _ _)) by lia. rewrite (offset_range_for_row_ok s r p l q) by done. cbn [fst snd].
  rewrite (row_slice s r p l q) by done. cbn [mbind option_bind]. rewrite len_ok, wrap32_id by width.
  destruct (Z.eqb_spec c 0) as [->|Hne]; [exists 0; split_and!; try done; lia|].
  destruct (Z.leb_spec (str_len l) c); [exists (str_len l); split_and!; try done; lia|]. fields.
  assert (∀ k, 0 ≤ k < str_len l → encode l !! Z.to_nat k = Some (get_or (encode l) k 0)) as Hget.
  { intros k Hk. unfold get_or. rewrite (proj2 (Z.ltb_ge _ _)) by lia.
    destruct (lookup_lt_is_Some_2 (encode l) (Z.to_nat k)) as [x Hx]; [rewrite length_encode; lia|].
    by rewrite Hx. }
  rewrite !Hget by lia. cbn [mbind option_bind].
  destruct (_ && _) eqn:Ea.
  - exists c. rewrite wrap32_id by width. split_and!; try done; try lia.
    apply andb_true_iff in Ea as [_ Ea%Z.ltb_lt]. unfold Utf8.is_char_boundary.
    rewrite (proj2 (Z.eqb_neq c 0)), len_encode, (proj2 (Z.leb_gt _ _)) by (done || lia).
    unfold is_utf8_char_boundary. rewrite (proj2 (Z.ltb_lt _ _)) by done. apply Z.leb_le.
    enough (0 ≤ get_or (encode l) c 0) by lia. apply (byte_nonneg l (Z.to_nat c)); [done|]. apply Hget. lia.
  - destruct (clip_column_ok l c bias Hscl ltac:(lia) ltac:(lia)) as (c' & -> & Hn). cbn [mbind option_bind].
    assert (0 ≤ c' ≤ str_len l ∧ Utf8.is_char_boundary (encode l) c' = true) as [Hb Hcb].
    { destruct Hn as [[E1 E2]%andb_true_iff Hn]. split; [|done]. destruct bias; lia. }
    rewrite wrap32_id by width. exists c'. split_and!; try done; lia.
Qed.
End graphemes.

(** A cluster starts everywhere but at the accent U+0301. *)
Definition no_accent (text : list Z) (n : Z) : bool :=
  (n =? 0) || (n =? Utf8.len text) || negb (get_or text n 0 =? 204).
Lemma clip_point_correct_witness :
  (* "e", the accent, "a": between the letter and its accent *)
  ChunkSlice.clip_point no_accent (slice_of [101; 0x301; 97]) (Point.mk 0 1) Left = Some (Point.mk 0 0) ∧
  ∃ c, ChunkSlice.clip_point no_accent (slice_of [101; 0x301; 97]) (Point.mk 0 1) Right = Some (Point.mk 0 c) ∧
    nearest no_accent Right [101; 0x301; 97] 1 c.
Proof.
  split; [reflexivity|].
  destruct (clip_point_correct no_accent) with
    (s := [101; 0x301; 97]) (r := 0) (p := @nil Z) (l := [101; 0x301; 97]) (q := @nil Z) (c := 1) (bias := Right)
    as [_ H].
  - done.
  - intros text. unfold no_accent. by rewrite Z.eqb_refl, orb_true_r.
  - apply Forall_cons. split; [left; lia|]. apply Forall_cons. split; [left; lia|].
    apply Forall_cons. split; [left; lia|constructor].
  - vm_compute. congruence.
  - lia.
  - destruct H as (c & H & _ & _ & _ & _ & Hn).
    + split_and!; [done|done|by left| |by left]. by repeat constructor.
    + exists c. split; [exact H|]. apply Hn. split; [lia|]. vm_compute. reflexivity.
Defined.

(** The four ways to name the position after a prefix [a] of the text of a
    chunk (byte offset, point, UTF-16 offset, UTF-16 point) are converted into
    each other exactly: every conversion of the code is the one that reading
    the prefix defines, so converting there and back gives the position again. *)
Theorem positions_roundtrip debug a b :
  scalars (a ++ b) → str_len (a ++ b) ≤ 128 →
  let s := slice_of (a ++ b) in
  ChunkSlice.offset_to_point s (str_len a) = point_of a ∧
  ChunkSlice.point_to_offset debug s (point_of a) = Some (str_len a) ∧
  ChunkSlice.offset_to_offset_utf16 s (str_len a) = OffsetUtf16.mk (utf16_len a) ∧
  ChunkSlice.offset_utf16_to_offset s (OffsetUtf16.mk (utf16_len a)) = str_len a ∧
  ChunkSlice.point_to_offset_utf16 debug s (point_of a) = Some (OffsetUtf16.mk (utf16_len a)) ∧
  ChunkSlice.offset_to_point_utf16 s (str_len a) = point_utf16_of a ∧
  ChunkSlice.point_to_point_utf16 debug s (point_of a) = Some (point_utf16_of a) ∧
  (∀ clip, ChunkSlice.point_utf16_to_offset debug s (point_utf16_of a) clip = Some (str_len a)) ∧
  ChunkSlice.unclipped_point_utf16_to_point s (Unclipped.mk (point_utf16_of a)) = Some (point_of a) ∧
  point_of a = Point.parse_str a.
Proof.
  intros Hsc Hs s. destruct (row_of a b) as (p & q & Hr & Ea).
  pose proof (utf16_len_bounds (last_line a)) as [Hc _].
  assert (prefix16 (last_line a ++ first_line b) (utf16_len (last_line a)) = last_line a) as Hp.
  { clear. induction (last_line a) as [|c l IH].
    - cbn [app utf16_len]. destruct (first_line b) as [|c l]; [done|]. cbn [prefix16].
      by destruct (len_utf16_cases c) as [E|E]; rewrite E.
    - cbn [app utf16_len prefix16]. pose proof (utf16_len_bounds l). rewrite (proj2 (Z.leb_le _ _)) by lia.
      by replace (len_utf16 c + utf16_len l - len_utf16 c) with (utf16_len l) by lia; rewrite IH. }
  split_and!.
  - by apply offset_to_point_ok.
  - by apply point_to_offset_ok.
  - by apply offset_to_offset_utf16_ok.
  - by apply offset_utf16_to_offset_ok.
  - unfold ChunkSlice.point_to_offset_utf16. unfold s. rewrite lines_ok by done. cbn [Point.row point_of].
    pose proof (row_at_bound _ _ _ _ _ Hr). rewrite (proj2 (Z.ltb_ge _ _)) by lia.
    change (Point.mk (newline_count a) (str_len (last_line a))) with (point_of a).
    rewrite point_to_offset_ok by done. cbn. f_equal. by apply offset_to_offset_utf16_ok.
  - by apply offset_to_point_utf16_ok.
  - unfold ChunkSlice.point_to_point_utf16, s. rewrite point_to_offset_ok by done. cbn. f_equal. by apply offset_to_point_utf16_ok.
  - intros clip. unfold s, point_utf16_of. rewrite (point_utf16_to_offset_row _ _ _ p _ q) by done.
    unfold exact16. by rewrite Hp, Z.eqb_refl, orb_true_r, accepted_exact, <- Ea.
  - unfold s, point_utf16_of, point_of. rewrite (unclipped_row _ _ p _ q) by done. by rewrite Hp.
  - rewrite Point.parse_str_advance by (pose proof (prefix_len a b Hs); lia). unfold point_of. clear.
    induction a as [|c a IH] using rev_ind; [done|]. rewrite foldl_app, <- IH. cbn [foldl].
    unfold Point.advance. cbn [Point.row Point.column]. rewrite last_line_snoc, newline_count_app.
    destruct (Z.eqb_spec c newline) as [->|Hc]; [done|].
    rewrite (newline_count_none [c]) by (by repeat constructor). rewrite str_len_app. cbn [str_len]. f_equal; lia.
Qed.
Lemma positions_roundtrip_witness :
  (* "a", newline and a character of four bytes | "b" *)
  ChunkSlice.offset_to_point_utf16 (slice_of ([97; 10; 0x1F600] ++ [98])) 6 = PointUtf16.mk 1 2 ∧
  ChunkSlice.point_utf16_to_offset true (slice_of ([97; 10; 0x1F600] ++ [98])) (PointUtf16.mk 1 2) false = Some 6.
Proof.
  destruct (positions_roundtrip true [97; 10; 0x1F600] [98]) as (_ & _ & _ & _ & _ & H1 & _ & H2 & _).
  - apply Forall_cons. split; [left; lia|]. apply Forall_cons. split; [left; lia|].
    apply Forall_cons. split; [right; lia|]. apply Forall_cons. split; [left; lia|constructor].
  - vm_compute. congruence.
  - split; [exact H1|exact (H2 false)].
Defined.

(** UTF-16 positions from outside are clipped: in a row [l], a
    column inside of a character goes to its start (to its end for [Right]),
    one beyond the row to its end; a row beyond the text goes to the end of the
    text. The loops that look for a boundary end. The conversions that are not
    asked to clip do the same in a release build, and panic in a debug build
    exactly at the positions that are not in the text. *)
Theorem clip_utf16_correct debug s r p l q c bias clip :
  scalars s → str_len s ≤ 128 → 0 ≤ c →
  let utf16 := PointUtf16.mk r c in
  (row_at s r p l q →
   ChunkSlice.point_utf16_to_offset debug (slice_of s) utf16 clip = accepted debug (clip || exact16 l c) (str_len (p ++ prefix16 l c)) ∧
   ChunkSlice.unclipped_point_utf16_to_point (slice_of s) (Unclipped.mk utf16)
     = Some (Point.mk r (str_len (prefix16 l c))) ∧
   ChunkSlice.clip_point_utf16 (slice_of s) (Unclipped.mk utf16) bias
     = Some (PointUtf16.mk r (utf16_len (clipped16 bias l c))) ∧
   ChunkSlice.point_to_offset debug (slice_of s) (Point.mk r c) = accepted debug (c <=? str_len l) (str_len p + Z.min c (str_len l))) ∧
  (newline_count s < r →
   ChunkSlice.point_utf16_to_offset debug (slice_of s) utf16 clip = accepted debug clip (str_len s) ∧
   ChunkSlice.unclipped_point_utf16_to_point (slice_of s) (Unclipped.mk utf16) = Some (point_of s) ∧
   ChunkSlice.clip_point_utf16 (slice_of s) (Unclipped.mk utf16) bias = Some (point_utf16_of s) ∧
   ChunkSlice.point_to_offset debug (slice_of s) (Point.mk r c) = accepted debug false (str_len s)) ∧
  ChunkSlice.clip_offset_utf16 (slice_of s) (OffsetUtf16.mk c) bias
    = Some (OffsetUtf16.mk (utf16_len (clipped16 bias s c))).
Proof.
  intros Hsc Hs Hc utf16. split_and!.
  - intros Hr. split_and!; [by apply (point_utf16_to_offset_row debug s r p l q)|by apply (unclipped_row s r p l q)|
      by apply (clip_point_utf16_row s r p l q)|by apply (point_to_offset_row debug s r p l q)].
  - intros Hr. split_and!.
    + unfold ChunkSlice.point_utf16_to_offset. rewrite lines_ok by done. cbn [Point.row PointUtf16.row utf16].
rewrite (proj2 (Z.ltb_lt _ _)), len_ok by done. unfold ChunkSlice.debug_panic, accepted. by destruct debug, clip.    + unfold ChunkSlice.unclipped_point_utf16_to_point. cbn [Unclipped.inner PointUtf16.row utf16].
      rewrite lines_ok by done. cbn [Point.row]. by rewrite (proj2 (Z.ltb_lt _ _)).
    + unfold ChunkSlice.clip_point_utf16. cbn [Unclipped.inner PointUtf16.row utf16].
      rewrite lines_ok by done. cbn [Point.row]. rewrite (proj2 (Z.ltb_lt _ _)) by done.
      by rewrite last_line_len_utf16_ok.
    + by apply point_to_offset_beyond.
  - by apply clip_offset_utf16_ok.
Qed.
Lemma clip_utf16_correct_witness :
  (* column 1 is between the two units of the character *)
  ChunkSlice.clip_point_utf16 (slice_of [0x1F600; 98]) (Unclipped.mk (PointUtf16.mk 0 1)) Right
    = Some (PointUtf16.mk 0 2) ∧
  ChunkSlice.point_utf16_to_offset true (slice_of [0x1F600; 98]) (PointUtf16.mk 0 1) true = Some 0 ∧
  ChunkSlice.point_utf16_to_offset true (slice_of [0x1F600; 98]) (PointUtf16.mk 0 1) false = None.
Proof.
  destruct (clip_utf16_correct true [0x1F600; 98] 0 [] [0x1F600; 98] [] 1 Right true) as (H & _).
  - apply Forall_cons. split; [right; lia|]. apply Forall_cons. split; [left; lia|constructor].
  - vm_compute. congruence.
  - lia.
  - destruct H as (H1 & _ & H2 & _); [|split; [exact H2|split; [exact H1|reflexivity]]].
    split_and!; [done|done|by left| |by left]. by repeat constructor.
Defined.
