(* ===== verification/Rope.v ===== *)
(** The rope ([crates/rope/src/rope.rs]): a text as a tree of chunks. Its
    summaries and dimensions, the operations that build and cut ropes, and the
    cursor; that they are those of texts. The iterators over the chunks are in
    [RopeIter], conversions of positions in [RopePosition]. *)
From S2P Require Import Prelude Points TextSummary SumTree TreeFind Cursor TreeWeight ParTree.
From S2P Require Import Bitmap Utf8 Chunk ChunkSummary ChunkPosition.

(** ** Summaries and dimensions *)
(** [crates/rope/src/rope.rs:1266-1268] ChunkSummary *)
Record chunk_summary := mk_summary { text : TextSummary.t }.

(** [crates/rope/src/rope.rs:1270-1278] ContextLessSummary for ChunkSummary *)
#[export] Instance chunk_summary_summary : Summary chunk_summary :=
  { zero := mk_summary TextSummary.zero;
    add_summary := λ s summary, mk_summary (TextSummary.add_assign (text s) (text summary)) }.

(** The loop of [text_summary] always ends ([text_summary_correct]).
    [crates/rope/src/rope.rs:1255-1263] Item for Chunk *)
#[export] Instance chunk_item : Item Chunk.t chunk_summary :=
  { item_summary := λ c, mk_summary (default TextSummary.zero (ChunkSlice.text_summary (Chunk.as_slice c))) }.


(** The positions that a text is measured in.
    [crates/rope/src/rope.rs:1441-1447] TextDimension *)
Class TextDimension (D : Type) := {
  td_dimension :: Dimension D chunk_summary;
  from_text_summary : TextSummary.t → D;
  from_chunk : ChunkSlice.t → option D;
  td_add_assign : D → D → D;
}.

(** [crates/rope/src/rope.rs:1492-1514] TextDimension for usize *)
#[export] Instance usize_dimension : TextDimension Z :=
  { td_dimension := {| dzero := 0; dadd := λ d s, d +w64 TextSummary.len (text s) |};
    from_text_summary := TextSummary.len;
    from_chunk := λ c, Some (ChunkSlice.len c);
    td_add_assign := λ d e, d +w64 e }.

(** [crates/rope/src/rope.rs:1516-1538] TextDimension for OffsetUtf16 *)
#[export] Instance offset_utf16_dimension : TextDimension OffsetUtf16.t :=
  { td_dimension := {| dzero := OffsetUtf16.mk 0; dadd := λ d s, OffsetUtf16.add_assign d (TextSummary.len_utf16 (text s)) |};
    from_text_summary := TextSummary.len_utf16;
    from_chunk := λ c, Some (ChunkSlice.len_utf16 c);
    td_add_assign := OffsetUtf16.add_assign }.

(** [crates/rope/src/rope.rs:1540-1562] TextDimension for Point *)
#[export] Instance point_dimension : TextDimension Point.t :=
  { td_dimension := {| dzero := Point.zero; dadd := λ d s, Point.add_assign d (TextSummary.lines (text s)) |};
    from_text_summary := TextSummary.lines;
    from_chunk := λ c, Some (ChunkSlice.lines c);
    td_add_assign := Point.add_assign }.

(** [crates/rope/src/rope.rs:1564-1590] TextDimension for PointUtf16 *)
#[export] Instance point_utf16_dimension : TextDimension PointUtf16.t :=
  { td_dimension := {| dzero := PointUtf16.zero; dadd := λ d s, PointUtf16.add_assign d (TextSummary.lines_utf16 (text s)) |};
    from_text_summary := TextSummary.lines_utf16;
    from_chunk := λ c, Some (PointUtf16.mk (Point.row (ChunkSlice.lines c)) (ChunkSlice.last_line_len_utf16 c));
    td_add_assign := PointUtf16.add_assign }.

(** [crates/rope/src/rope.rs:1468-1490] TextDimension for TextSummary *)
#[export] Instance text_summary_dimension : TextDimension TextSummary.t :=
  { td_dimension := {| dzero := TextSummary.zero; dadd := λ d s, TextSummary.add_assign d (text s) |};
    from_text_summary := λ s, s;
    from_chunk := ChunkSlice.text_summary;
    td_add_assign := TextSummary.add_assign }.

(** [crates/rope/src/rope.rs:1449-1466] TextDimension for Dimensions *)
#[export] Instance dimensions_dimension D1 D2 `{!TextDimension D1, !TextDimension D2} : TextDimension (D1 * D2) :=
  { td_dimension := pair_dimension D1 D2 chunk_summary;
    from_text_summary := λ s, (from_text_summary s, from_text_summary s);
    from_chunk := λ c, d1 ← from_chunk c; d2 ← from_chunk c; Some (d1, d2);
    td_add_assign := λ d e, (td_add_assign d.1 e.1, td_add_assign d.2 e.2) }.

(** ** What the tree of chunks measures *)

(** The texts of the chunks of a rope. *)
Definition piece (s : str) : Prop := scalars s ∧ str_len s ≤ 128 ∧ s ≠ [].
Definition chunks_of (ss : list str) : list Chunk.t := map chunk_of ss.
(** Texts under 4 GiB. *)
Definition sized (s : str) : Prop := str_len s < 2 ^ 32.

Lemma sized_app a b : sized (a ++ b) → sized a ∧ sized b.
Proof. unfold sized. rewrite str_len_app. pose proof (str_len_nonneg a). pose proof (str_len_nonneg b). lia. Qed.

Lemma chunk_item_summary_ok s : str_len s ≤ 128 → item_summary (chunk_of s) = mk_summary (TextSummary.from s).
Proof.
  intros H. cbn [item_summary chunk_item]. rewrite as_slice_ok.
  assert (ChunkSlice.text_summary (slice_of s) = Some (TextSummary.from s)) as -> by (by apply text_summary_ok). done.
Qed.

Lemma concat_len (ss : list str) : str_len (concat ss) = foldr (λ s n, str_len s + n) 0 ss.
Proof. induction ss as [|s ss IH]; [done|]. cbn. by rewrite str_len_app, IH. Qed.
Lemma concat_app (ss rr : list str) : concat (ss ++ rr) = concat ss ++ concat rr.
Proof. induction ss as [|s ss IH]; [done|]. cbn. by rewrite IH, app_assoc. Qed.

Lemma chunks_of_app ss rr : chunks_of (ss ++ rr) = chunks_of ss ++ chunks_of rr.
Proof. apply map_app. Qed.

Lemma measure_pieces ss :
  Forall piece ss → sized (concat ss) → measure (chunks_of ss) = mk_summary (TextSummary.from (concat ss)).
Proof.
  induction ss as [|s ss IH] using rev_ind; intros F Hs; [done|].
  apply Forall_app in F as [F Fs]. inversion Fs as [|? ? (Hsc & Hl & Hne) _]; subst.
  rewrite concat_app in Hs |- *. cbn [concat] in *. rewrite app_nil_r in *.
  unfold chunks_of. rewrite map_app. unfold measure. rewrite map_app; cbn [map]; rewrite SumTree.sum_snoc.
  fold (chunks_of ss) (measure (chunks_of ss)). rewrite IH by (done || by apply sized_app in Hs as [? _]).
  rewrite chunk_item_summary_ok by done. by rewrite TextSummary.from_app.
Qed.

#[export, program] Instance chunk_laws : SummaryLaws Chunk.t chunk_summary :=
  {| valid := λ l, ∃ ss, l = chunks_of ss ∧ Forall piece ss ∧ sized (concat ss) |}.
Next Obligation.
  intros l k (ss & E & F & Hs). unfold chunks_of in E. symmetry in E. apply map_eq_app in E as (s1 & s2 & -> & <- & <-).
  apply Forall_app in F as [F1 F2]. rewrite concat_app in Hs. apply sized_app in Hs as [H1 H2].
  split; [by exists s1|by exists s2].
Qed.
Next Obligation.
  intros l k _ (ss & E & F & Hs). unfold chunks_of in E. symmetry in E. apply map_eq_app in E as (s1 & s2 & -> & <- & <-).
  change (measure (chunks_of s1 ++ chunks_of s2) = add_summary (measure (chunks_of s1)) (measure (chunks_of s2))).
  apply Forall_app in F as [F1 F2]. rewrite <- chunks_of_app, measure_pieces by (done || by apply Forall_app).
  rewrite concat_app in *. destruct (sized_app _ _ Hs). rewrite !measure_pieces by done. by rewrite TextSummary.from_app.
Qed.
Next Obligation.
  intros x (ss & E & F & Hs). destruct ss as [|s [|]]; [done| |done]. injection E as ->.
  inversion F as [|? ? (_ & Hl & _) _]; subst. rewrite chunk_item_summary_ok by done.
  pose proof (measure_pieces [s] F Hs) as H. cbn [concat chunks_of map] in H. by rewrite app_nil_r in H.
Qed.

(** [pos s]: the position after the text [s]; what the code adds up is it. *)
Class TextPosition (D : Type) `{!TextDimension D} := {
  pos : str → D;
  pos_nil : dzero = pos [];
  pos_app a b : sized (a ++ b) → dadd (pos a) (mk_summary (TextSummary.from b)) = pos (a ++ b);
  pos_chunk s : str_len s ≤ 128 → from_chunk (slice_of s) = Some (pos s);
  pos_summary s : sized s → from_text_summary (TextSummary.from s) = pos s;
  pos_add a b : sized (a ++ b) → td_add_assign (pos a) (pos b) = pos (a ++ b);
}.
Arguments pos D {_ _} _.

Lemma from_projections s :
  sized s →
  TextSummary.len (TextSummary.from s) = str_len s ∧
  TextSummary.chars (TextSummary.from s) = Z.of_nat (length s) ∧
  TextSummary.len_utf16 (TextSummary.from s) = OffsetUtf16.mk (utf16_len s) ∧
  TextSummary.lines (TextSummary.from s) = point_of s ∧
  TextSummary.lines_utf16 (TextSummary.from s) = point_utf16_of s.
Proof.
  intros Hs. destruct (from_fields s Hs) as (_ & E0 & E1 & E2 & _ & _ & E3).
  unfold TextSummary.from, TextSummary.lines_utf16. cbn [TextSummary.with_len TextSummary.len TextSummary.chars
    TextSummary.len_utf16 TextSummary.lines TextSummary.last_line_len_utf16].
  rewrite E0, E1, E2, E3. done.
Qed.
Lemma sized_bounds s : sized s → 0 ≤ str_len s < 2 ^ 32 ∧ 0 ≤ utf16_len s < 2 ^ 32.
Proof. unfold sized. pose proof (str_len_nonneg s). pose proof (utf16_len_bounds s). lia. Qed.
Lemma chunk_sized s : str_len s ≤ 128 → sized s.
Proof. unfold sized. lia. Qed.

(** Positions of concatenations, from the sums of summaries. *)
Lemma from_app_fields a b :
  sized (a ++ b) →
  str_len a +w64 str_len b = str_len (a ++ b) ∧
  OffsetUtf16.add_assign (OffsetUtf16.mk (utf16_len a)) (OffsetUtf16.mk (utf16_len b)) = OffsetUtf16.mk (utf16_len (a ++ b)) ∧
  Point.add_assign (point_of a) (point_of b) = point_of (a ++ b) ∧
  PointUtf16.add_assign (point_utf16_of a) (point_utf16_of b) = point_utf16_of (a ++ b).
Proof.
  intros Hs. destruct (sized_app _ _ Hs) as [Ha Hb].
  destruct (from_projections _ Ha) as (L1 & _ & U1 & P1 & Q1).
  destruct (from_projections _ Hb) as (L2 & _ & U2 & P2 & Q2).
  destruct (from_projections _ Hs) as (L & _ & U & P & Q).
  rewrite <- L1, <- L2, <- U1, <- U2, <- P1, <- P2, <- Q1, <- Q2, <- L, <- U, <- P, <- Q.
  rewrite TextSummary.from_app by done. generalize (TextSummary.from a), (TextSummary.from b). clear.
  intros x y. unfold TextSummary.add_assign.
  split_and!; repeat (case_match; try done); try done.
  all: unfold TextSummary.lines_utf16, PointUtf16.add_assign, Point.add_assign; cbn. all: repeat case_match; simplify_eq/=; try done.
Qed.

#[export, program] Instance usize_position : TextPosition Z := {| pos := str_len |}.
Next Obligation. done. Qed.
Next Obligation.
  intros a b Hs. cbn -[TextSummary.from TextSummary.lines_utf16]. destruct (sized_app _ _ Hs) as [_ Hb]. destruct (from_projections _ Hb) as (-> & _).
  by apply from_app_fields.
Qed.
Next Obligation. intros s Hl. cbn -[ChunkSlice.len]. by rewrite len_ok. Qed.
Next Obligation. intros s Hs. by apply from_projections. Qed.
Next Obligation. intros a b Hs. by apply from_app_fields. Qed.

#[export, program] Instance offset_utf16_position : TextPosition OffsetUtf16.t :=
  {| pos := λ s, OffsetUtf16.mk (utf16_len s) |}.
Next Obligation. done. Qed.
Next Obligation.
  intros a b Hs. cbn -[TextSummary.from TextSummary.lines_utf16]. destruct (sized_app _ _ Hs) as [_ Hb]. destruct (from_projections _ Hb) as (_ & _ & -> & _).
  by apply from_app_fields.
Qed.
Next Obligation. intros s Hl. cbn -[ChunkSlice.len_utf16]. by rewrite len_utf16_ok. Qed.
Next Obligation. intros s Hs. by apply from_projections. Qed.
Next Obligation. intros a b Hs. by apply from_app_fields. Qed.

#[export, program] Instance point_position : TextPosition Point.t := {| pos := point_of |}.
Next Obligation. done. Qed.
Next Obligation.
  intros a b Hs. cbn -[TextSummary.from TextSummary.lines_utf16]. destruct (sized_app _ _ Hs) as [_ Hb]. destruct (from_projections _ Hb) as (_ & _ & _ & -> & _).
  by apply from_app_fields.
Qed.
Next Obligation. intros s Hl. cbn -[ChunkSlice.lines]. by rewrite lines_ok. Qed.
Next Obligation. intros s Hs. by apply from_projections. Qed.
Next Obligation. intros a b Hs. by apply from_app_fields. Qed.

#[export, program] Instance point_utf16_position : TextPosition PointUtf16.t := {| pos := point_utf16_of |}.
Next Obligation. done. Qed.
Next Obligation.
  intros a b Hs. cbn -[TextSummary.from TextSummary.lines_utf16]. destruct (sized_app _ _ Hs) as [_ Hb]. destruct (from_projections _ Hb) as (_ & _ & _ & _ & ->).
  by apply from_app_fields.
Qed.
Next Obligation. intros s Hl. cbn -[ChunkSlice.lines ChunkSlice.last_line_len_utf16]. by rewrite lines_ok, last_line_len_utf16_ok. Qed.
Next Obligation. intros s Hs. by apply from_projections. Qed.
Next Obligation. intros a b Hs. by apply from_app_fields. Qed.

#[export, program] Instance text_summary_position : TextPosition TextSummary.t := {| pos := TextSummary.from |}.
Next Obligation. done. Qed.
Next Obligation. intros a b Hs. cbn. by rewrite TextSummary.from_app. Qed.
Next Obligation. intros s Hl. by apply text_summary_ok. Qed.
Next Obligation. done. Qed.
Next Obligation. intros a b Hs. by apply eq_sym, TextSummary.from_app. Qed.

#[export, program] Instance dimensions_position D1 D2 `{TextPosition D1, TextPosition D2} : TextPosition (D1 * D2) :=
  {| pos := λ s, (pos D1 s, pos D2 s) |}.
Next Obligation. intros. cbn. by rewrite !pos_nil. Qed.
Next Obligation. intros. cbn. by rewrite !pos_app. Qed.
Next Obligation. intros. cbn. by rewrite !pos_chunk. Qed.
Next Obligation. intros. cbn. by rewrite !pos_summary. Qed.
Next Obligation. intros. cbn. by rewrite !pos_add. Qed.

Section position.
Context {D : Type} `{TextPosition D}.
#[export] Instance text_position_zero : DimensionZero D chunk_summary.
Proof. split. change zero with (mk_summary (TextSummary.from [])). rewrite !pos_nil. by apply (pos_app []). Qed.
Lemma dim_pieces ss : Forall piece ss → sized (concat ss) → dim D (chunks_of ss) = pos D (concat ss).
Proof. intros F Hs. rewrite <- (dim_measure D (T := Chunk.t)), measure_pieces by done. rewrite pos_nil. by apply pos_app. Qed.

#[export] Instance text_dimension_laws : DimensionLaws D Chunk.t chunk_summary.
Proof.
  split.
  - intros l k _ (ss & E & F & Hs). symmetry in E. apply map_eq_app in E as (s1 & s2 & -> & <- & <-).
    change (dadd (dim D (chunks_of s1)) (measure (chunks_of s2)) = dim D (chunks_of s1 ++ chunks_of s2)).
    apply Forall_app in F as [F1 F2]. rewrite <- chunks_of_app, (dim_pieces (s1 ++ s2)) by (done || by apply Forall_app).
    rewrite concat_app in *. destruct (sized_app _ _ Hs). rewrite dim_pieces, measure_pieces by done. by apply pos_app.
Qed.
End position.

(** ** The rope *)
Module Rope.
Import Bitmap.

(** [crates/rope/src/rope.rs:26-28] Rope *)
Definition t : Type := SumTree.node Chunk.t chunk_summary.
(** [crates/rope/src/rope.rs:31-33] Rope::new *)
Definition new : t := SumTree.new.
(** [crates/rope/src/rope.rs:312-314] Rope::summary *)
Definition summary (self : t) : TextSummary.t := text (SumTree.summary self).
(** [crates/rope/src/rope.rs:316-318] Rope::len *)
Definition len (self : t) : Z := SumTree.extent self.
(** [crates/rope/src/rope.rs:320-322] Rope::is_empty *)
Definition is_empty (self : t) : bool := len self =? 0.
(** [crates/rope/src/rope.rs:324-326] Rope::max_point *)
Definition max_point (self : t) : Point.t := SumTree.extent self.
(** [crates/rope/src/rope.rs:328-330] Rope::max_point_utf16 *)
Definition max_point_utf16 (self : t) : PointUtf16.t := SumTree.extent self.

(** *** Growing *)

(** The loops that look for a boundary, above and below.
    [crates/rope/src/rope.rs:157-159] Rope::push *)
Fixpoint split_above (fuel : nat) (is_boundary : Z → bool) (split_ix : Z) : option Z :=
  match fuel with
  | O => None
  | S fuel => if is_boundary split_ix then Some split_ix else split_above fuel is_boundary (split_ix +w64 1)
  end.
(** [crates/rope/src/rope.rs:191-193] Rope::push *)
Fixpoint split_below (fuel : nat) (is_boundary : Z → bool) (split_ix : Z) : option Z :=
  match fuel with
  | O => None
  | S fuel => if is_boundary split_ix then Some split_ix else split_below fuel is_boundary (split_ix -w64 1)
  end.

(** How much of a text the last chunk, of length [last_len], takes.
    [crates/rope/src/rope.rs:150-161] Rope::push *)
Definition split_for_last (last_len text_len : Z) (is_boundary : Z → bool) : option Z :=
  if last_len +w64 text_len <=? MAX_BASE then Some text_len
  else split_above (S (Z.to_nat text_len)) is_boundary
         (Z.min (saturating_sub MIN_BASE last_len) text_len).

(** [update_last] calls its closure on the last chunk, if any; the rest of the
    text is what the closure leaves in [text].
    [crates/rope/src/rope.rs:148-170] Rope::push *)
Definition push_to_last (self : t) (text : list Z) : option (t * list Z) :=
  last ← SumTree.last self;
  match last with
  | None => Some (self, text)
  | Some last_chunk =>
      split_ix ← split_for_last (Utf8.len (Chunk.text last_chunk)) (Utf8.len text) (Utf8.is_char_boundary text);
      '(suffix, remainder) ← Utf8.split_at text split_ix;
      last_chunk ← Chunk.push_str last_chunk suffix;
      chunks ← SumTree.update_last (λ _, last_chunk) self;
      Some (chunks, remainder)
  end.

(** One iteration of the loop that cuts a text into chunks; [capacity] is the one of
    the array, if the chunks are collected in one.
    [crates/rope/src/rope.rs:189-197] Rope::push *)
Definition cut_step (capacity : option nat) (st : list Z * list (list Z)) :
    option (list Z * list (list Z) + list (list Z)) :=
  let '(text, new_chunks) := st in
  if Utf8.len text =? 0 then Some (inr new_chunks)
  else
    split_ix ← split_below (S (Z.to_nat MAX_BASE)) (Utf8.is_char_boundary text) (Z.min MAX_BASE (Utf8.len text));
    '(chunk, remainder) ← Utf8.split_at text split_ix;
    match capacity with
    | Some n => guard (length new_chunks < n)%nat;; Some (inl (remainder, new_chunks ++ [chunk]))
    | None => Some (inl (remainder, new_chunks ++ [chunk]))
    end.

(** [crates/rope/src/rope.rs:178-178] NUM_CHUNKS *)
Definition NUM_CHUNKS : nat := 4.
(** [crates/rope/src/rope.rs:235-235] PARALLEL_THRESHOLD *)
Definition PARALLEL_THRESHOLD : nat := 84 * (2 * TREE_BASE).

(** [crates/rope/src/rope.rs:205-246] Rope::push_large *)
Definition push_large (self : t) (text : list Z) : option t :=
  new_chunks ← iterate (cut_step None) (S (length text)) (text, []);
  new_chunks' ← mapM Chunk.new new_chunks;
  if Nat.leb PARALLEL_THRESHOLD (length new_chunks)
  then ParTree.par_extend self new_chunks'
  else SumTree.extend self new_chunks'.

(** [crates/rope/src/rope.rs:147-202] Rope::push *)
Definition push (self : t) (text : list Z) : option t :=
  '(self, text) ← push_to_last self text;
  if Utf8.len text =? 0 then Some self
  else if Z.of_nat NUM_CHUNKS * MAX_BASE - Z.of_nat NUM_CHUNKS * 4 <? Utf8.len text
  then push_large self text
  else
    new_chunks ← iterate (cut_step (Some NUM_CHUNKS)) (S (length text)) (text, []);
    new_chunks ← mapM Chunk.new new_chunks;
    SumTree.extend self new_chunks.

(** [crates/rope/src/rope.rs:621-627] From for Rope *)
Definition from (text : list Z) : option t := push new text.

(** [crates/rope/src/rope.rs:629-637] FromIterator for Rope *)
Definition from_iter (iter : list (list Z)) : option t :=
  foldl (λ rope chunk, rope ← rope; push rope chunk) (Some new) iter.

(** [crates/rope/src/rope.rs:248-274] Rope::push_chunk *)
Definition push_chunk (self : t) (chunk : ChunkSlice.t) : option t :=
  last ← SumTree.last self;
  '(self, chunk) ←
    match last with
    | None => Some (self, chunk)
    | Some last_chunk =>
        split_ix ← split_for_last (Utf8.len (Chunk.text last_chunk)) (ChunkSlice.len chunk)
                     (ChunkSlice.is_char_boundary chunk);
        '(suffix, remainder) ← ChunkSlice.split_at chunk split_ix;
        last_chunk ← Chunk.append last_chunk suffix;
        chunks ← SumTree.update_last (λ _, last_chunk) self;
        Some (chunks, remainder)
    end;
  if ChunkSlice.is_empty chunk then Some self
  else chunk ← Chunk.from_slice chunk; SumTree.push self chunk.

(** [crates/rope/src/rope.rs:104-122] Rope::append *)
Definition append (self rope : t) : option t :=
  first ← SumTree.first rope;
  last ← SumTree.last self;
  match first with
  | Some chunk =>
      if match last with Some c => Utf8.len (Chunk.text c) <? MIN_BASE | None => false end
         || (Utf8.len (Chunk.text chunk) <? MIN_BASE)
      then
        self ← push_chunk self (Chunk.as_slice chunk);
        chunks ← Cursor.next (Cursor.new (D := unit) rope);
        chunks ← Cursor.next chunks;
        '(_, suffix) ← Cursor.suffix chunks;
        SumTree.append self suffix
      else SumTree.append self rope
  | None => SumTree.append self rope
  end.

(** What the test build asserts of the chunks after every operation that builds a
    rope: no chunk but the last one is small, up to a character that did not fit.
    [crates/rope/src/rope.rs:298-310] Rope::check_invariants *)
Definition check_invariants (self : t) : bool :=
  forallb (λ chunk, MIN_BASE <=? Utf8.len (Chunk.text chunk) +w64 3) (removelast (SumTree.contents self)).

(** [crates/rope/src/rope.rs:276-296] Rope::push_front *)
Definition push_front (self : t) (text : list Z) : option t :=
  if Utf8.len text =? 0 then Some self
  else if is_empty self then push self text
  else
    first ← SumTree.first self;
    match first with
    | Some c =>
        if Utf8.len (Chunk.text c) +w64 Utf8.len text <=? MAX_BASE then
          c ← Chunk.prepend_str c text;
          SumTree.update_first (λ _, c) self
        else suffix ← from text; append suffix self
    | None => suffix ← from text; append suffix self
    end.

(** *** Cutting: the cursor of a rope *)
(** [crates/rope/src/rope.rs:678-682] Cursor *)
Record cursor := mk_cursor { c_rope : t; c_chunks : Cursor.t Chunk.t chunk_summary Z; c_offset : Z }.

(** [crates/rope/src/rope.rs:685-693] Cursor::new *)
Definition cursor_at (rope : t) (offset : Z) : option cursor :=
  '(chunks, _) ← Cursor.seek (Z.compare offset) Right (Cursor.new rope);
  Some (mk_cursor rope chunks offset).

(** The assertions of the cursor's methods. *)
Definition assert_ahead (c : cursor) (end_offset : Z) : option unit :=
  if (c_offset c <=? end_offset) && (end_offset <=? len (c_rope c)) then Some tt else None.

(** [crates/rope/src/rope.rs:695-709] Cursor::seek_forward *)
Definition seek_forward (c : cursor) (end_offset : Z) : option cursor :=
  _ ← assert_ahead c end_offset;
  '(chunks, _) ← Cursor.seek_forward (Z.compare end_offset) Right (c_chunks c);
  Some (mk_cursor (c_rope c) chunks end_offset).

(** The part of the current chunk up to [end_offset]; none at the end.
    [crates/rope/src/rope.rs:724-727] Cursor::slice *)
Definition start_slice (c : cursor) (end_offset : Z) : option (option ChunkSlice.t) :=
  start_chunk ← Cursor.item (c_chunks c);
  match start_chunk with
  | Some start_chunk =>
      chunk_end ← Cursor.end_ (c_chunks c);
      let start_ix := c_offset c -w64 Cursor.start (c_chunks c) in
      let end_ix := Z.min end_offset chunk_end -w64 Cursor.start (c_chunks c) in
      Some <$> Chunk.slice start_chunk start_ix end_ix
  | None => Some None
  end.
(** The part of the last chunk, after the chunks in between.
    [crates/rope/src/rope.rs:735-738] Cursor::slice *)
Definition end_slice (chunks : Cursor.t Chunk.t chunk_summary Z) (end_offset : Z) : option (option ChunkSlice.t) :=
  end_chunk ← Cursor.item chunks;
  match end_chunk with
  | Some end_chunk => Some <$> Chunk.slice end_chunk 0 (end_offset -w64 Cursor.start chunks)
  | None => Some None
  end.
Definition push_slice (self : t) (chunk : option ChunkSlice.t) : option t :=
  match chunk with Some chunk => push_chunk self chunk | None => Some self end.

(** [crates/rope/src/rope.rs:711-743] Cursor::slice *)
Definition cursor_slice (c : cursor) (end_offset : Z) : option (cursor * t) :=
  _ ← assert_ahead c end_offset;
  chunk ← start_slice c end_offset;
  slice ← push_slice new chunk;
  chunk_end ← Cursor.end_ (c_chunks c);
  '(chunks, slice) ←
    (if chunk_end <? end_offset then
       chunks ← Cursor.next (c_chunks c);
       '(chunks, middle) ← Cursor.slice (Z.compare end_offset) Right chunks;
       slice ← append slice middle;
       chunk ← end_slice chunks end_offset;
       slice ← push_slice slice chunk;
       Some (chunks, slice)
     else Some (c_chunks c, slice));
  Some (mk_cursor (c_rope c) chunks end_offset, slice).

(** [crates/rope/src/rope.rs:745-775] Cursor::summary *)
Definition cursor_summary {D} `{!TextDimension D} (c : cursor) (end_offset : Z) : option (cursor * D) :=
  let add summary (chunk : option ChunkSlice.t) :=
    match chunk with
    | Some chunk => d ← from_chunk chunk; Some (td_add_assign summary d)
    | None => Some summary
    end in
  _ ← assert_ahead c end_offset;
  chunk ← start_slice c end_offset;
  summary ← add dzero chunk;
  chunk_end ← Cursor.end_ (c_chunks c);
  '(chunks, summary) ←
    (if chunk_end <? end_offset then
       chunks ← Cursor.next (c_chunks c);
       '(chunks, middle) ← Cursor.summary (O := D) (Z.compare end_offset) Right chunks;
       let summary := td_add_assign summary middle in
       chunk ← end_slice chunks end_offset;
       summary ← add summary chunk;
       Some (chunks, summary)
     else Some (c_chunks c, summary));
  Some (mk_cursor (c_rope c) chunks end_offset, summary).

(** [crates/rope/src/rope.rs:777-779] Cursor::suffix *)
Definition cursor_suffix (c : cursor) : option t :=
  snd <$> cursor_slice c (SumTree.extent (c_rope c)).
(** [crates/rope/src/rope.rs:781-783] Cursor::offset *)
Definition cursor_offset (c : cursor) : Z := c_offset c.

(** [crates/rope/src/rope.rs:124-132] Rope::replace *)
Definition replace (self : t) (start stop : Z) (text : list Z) : option t :=
  cursor ← cursor_at self 0;
  '(cursor, before) ← cursor_slice cursor start;
  new_rope ← append new before;
  cursor ← seek_forward cursor stop;
  new_rope ← push new_rope text;
  suffix ← cursor_suffix cursor;
  append new_rope suffix.

(** [crates/rope/src/rope.rs:134-138] Rope::slice *)
Definition slice (self : t) (start stop : Z) : option t :=
  cursor ← cursor_at self 0;
  cursor ← seek_forward cursor start;
  snd <$> cursor_slice cursor stop.

(** *** Boundaries of characters *)
(** [find::<usize, _>((), &offset, Bias::Left)] *)
Definition find_offset (self : t) (offset : Z) : option (Z * Z * option Chunk.t) :=
  TreeFind.find (Z.compare offset) Left self.

(** [crates/rope/src/rope.rs:42-50] Rope::is_char_boundary *)
Definition is_char_boundary (self : t) (offset : Z) : option bool :=
  if SumTree.is_empty self then Some (offset =? 0)
  else
    '(start, _, item) ← find_offset self offset;
    let chunk_offset := offset -w64 start in
    Some (match item with Some chunk => Chunk.is_char_boundary chunk chunk_offset | None => false end).

(** A release build: a failed assertion of a chunk is [Some false] or a panic.
    [crates/rope/src/rope.rs:54-80] Rope::assert_char_boundary *)
Definition assert_char_boundary (PANIC : bool) (self : t) (offset : Z) : option bool :=
  if SumTree.is_empty self && (offset =? 0) then Some true
  else
    '(start, _, item) ← find_offset self offset;
    match item with
    | Some chunk => Chunk.assert_char_boundary PANIC chunk (offset -w64 start)
    | None => if PANIC then None else Some false
    end.

(** [crates/rope/src/rope.rs:82-91] Rope::floor_char_boundary *)
Definition floor_char_boundary (self : t) (index : Z) : option Z :=
  if len self <=? index then Some (len self)
  else
    '(start, _, item) ← find_offset self index;
    let chunk_offset := index -w64 start in
    Some (match item with
          | Some chunk => start +w64 Utf8.floor_char_boundary (Chunk.text chunk) chunk_offset
          | None => len self
          end).

(** [crates/rope/src/rope.rs:93-102] Rope::ceil_char_boundary *)
Definition ceil_char_boundary (self : t) (index : Z) : option Z :=
  if len self <? index then Some (len self)
  else
    '(start, _, item) ← find_offset self index;
    let chunk_offset := index -w64 start in
    Some (match item with
          | Some chunk => start +w64 Utf8.ceil_char_boundary (Chunk.text chunk) chunk_offset
          | None => len self
          end).

(** *** Ropes that stand for texts *)

(** The chunks of [r] spell [s], and none is empty; [w] bounds the weight. *)
Definition spells (w : Z) (r : t) (ss : list str) : Prop :=
  TreeWeight.held w r (chunks_of ss) ∧ Forall piece ss ∧ sized (concat ss).
Definition holds (w : Z) (r : t) (s : str) : Prop := ∃ ss, spells w r ss ∧ concat ss = s.

(** No piece but the last one is small. *)
Definition large (x : str) : Prop := 61 ≤ str_len x.
Definition filled (ss : list str) : Prop := Forall large (removelast ss).

Lemma spells_valid w r ss : spells w r ss → valid (chunks_of ss).
Proof. intros (_ & F & Hs). by exists ss. Qed.
Lemma pieces_valid ss : Forall piece ss → sized (concat ss) → valid (chunks_of ss).
Proof. intros F Hs. by exists ss. Qed.
Lemma spells_holds w r ss : spells w r ss → holds w r (concat ss).
Proof. intros H. by exists ss. Qed.
Lemma spells_weaken w w' r ss : spells w r ss → w ≤ w' → spells w' r ss.
Proof. intros (H & ?) ?. split; [|done]. by eapply TreeWeight.held_weaken. Qed.
Lemma spells_represents w r ss : spells w r ss → SumTree.represents r (chunks_of ss).
Proof. by intros [[? _] _]. Qed.
Lemma spells_new : spells 0 new [].
Proof. split; [apply TreeWeight.held_new|]. split; [done|]. unfold sized. cbn. lia. Qed.
Lemma pieces_scalars ss : Forall piece ss → scalars (concat ss).
Proof.
  induction 1 as [|s ss [Hs _] F IH]; [by constructor|]. cbn. by apply scalars_app.
Qed.

Lemma extent_ok {D} `{TextPosition D} w r ss : spells w r ss → SumTree.extent r = pos D (concat ss).
Proof.
  intros Hr. pose proof Hr as (_ & F & Hs). unfold SumTree.extent.
  rewrite (SumTree.represents_summary _ _ (spells_represents _ _ _ Hr)), measure_pieces by done.
  rewrite pos_nil. by apply pos_app.
Qed.
Lemma rope_len_ok w r s : holds w r s → len r = str_len s.
Proof. intros (ss & Hr & <-). exact (extent_ok (D := Z) _ _ _ Hr). Qed.
Lemma rope_summary_ok w r s : holds w r s → summary r = TextSummary.from s.
Proof.
  intros (ss & Hr & <-). pose proof Hr as (_ & F & Hs). unfold summary.
  by rewrite (SumTree.represents_summary _ _ (spells_represents _ _ _ Hr)), measure_pieces.
Qed.
Lemma is_empty_ok w r s : holds w r s → is_empty r = bool_decide (s = []).
Proof.
  intros Hr. unfold is_empty. rewrite (rope_len_ok _ _ _ Hr).
  destruct (Z.eqb_spec (str_len s) 0) as [E|E].
  - apply str_len_zero in E. by rewrite bool_decide_eq_true_2.
  - rewrite bool_decide_eq_false_2; [done|]. intros ->. done.
Qed.
Lemma spells_empty w r ss : spells w r ss → SumTree.is_empty r = bool_decide (ss = []).
Proof.
  intros Hr. apply spells_represents in Hr. pose proof (SumTree.represents_empty _ _ Hr) as He.
  destruct (bool_decide_reflect (ss = [])) as [->|Hne].
  - by apply He.
  - destruct (SumTree.is_empty r); [|done]. destruct He as [He _]. specialize (He eq_refl).
    by destruct ss.
Qed.
Lemma concat_nil_pieces ss : Forall piece ss → concat ss = [] → ss = [].
Proof. destruct 1 as [|s ss (_ & _ & Hne) _]; [done|]. cbn. intros [-> _]%app_nil. done. Qed.

(** *** Filled ropes *)
Lemma filled_app ss us : us ≠ [] → filled (ss ++ us) ↔ Forall large ss ∧ filled us.
Proof. intros H. unfold filled. rewrite removelast_app by done. apply Forall_app. Qed.
Lemma filled_snoc ss x : filled (ss ++ [x]) ↔ Forall large ss.
Proof. rewrite filled_app by done. split; [by intros [? _]|]. intros H. split; [done|by constructor]. Qed.
Lemma large_filled ss : Forall large ss → filled ss.
Proof. destruct ss as [|x ss _] using rev_ind; [done|]. intros [? _]%Forall_app. by apply filled_snoc. Qed.
Lemma spells_invariants w r ss : spells w r ss → check_invariants r = true ↔ filled ss.
Proof.
  intros Hr. pose proof (spells_represents _ _ _ Hr) as [_ E]. destruct Hr as (_ & F & _). unfold check_invariants. rewrite E.
  destruct ss as [|x ss _] using rev_ind; [split; [by constructor|done]|]. rewrite filled_snoc. unfold chunks_of. rewrite map_app. cbn [map]. rewrite removelast_last.
  apply Forall_app in F as [F _]. clear E. induction F as [|y ss (_ & Hl & _) F IH]; [split; [by constructor|done]|]. cbn [map forallb]. rewrite andb_true_iff, IH, Forall_cons.
  change (Chunk.text (chunk_of y)) with (encode y). rewrite len_encode. pose proof (str_len_nonneg y). rewrite wrap64_id by width. rewrite Z.leb_le.
  change MIN_BASE with 64. unfold large. split; (intros [? ?]; split; [lia|done]).
Qed.
Lemma invariants_new : check_invariants new = true.
Proof. done. Qed.

(** *** The loops over boundaries *)
Lemma split_above_loop fuel s p a c b n :
  scalars s → sized s → (∀ k, 0 ≤ k ≤ str_len s → p k = Utf8.is_char_boundary (encode s) k) →
  s = a ++ c :: b → str_len a < n ≤ str_len a + len_utf8 c → str_len a + len_utf8 c - n < Z.of_nat fuel →
  split_above fuel p n = Some (str_len (a ++ [c])).
Proof.
  intros Hsc Hs Hp -> . revert n. unfold sized in Hs. pose proof (str_len_nonneg a). pose proof (str_len_nonneg b).
  rewrite str_len_app in Hp, Hs |- *. cbn [str_len] in *. rewrite Z.add_0_r.
  induction fuel as [|fuel IH]; intros n Hn Hf; [lia|]. cbn [split_above]. rewrite Hp by lia.
  destruct (Z.eq_dec n (str_len a + len_utf8 c)) as [->|Hne].
  - assert (Utf8.is_char_boundary (encode (a ++ c :: b)) (str_len a + len_utf8 c) = true) as ->; [|done].
    by apply boundary_after.
  - rewrite not_boundary by (done || lia). rewrite wrap64_id by width. apply IH; lia.
Qed.
Lemma split_above_ok fuel s p n :
  scalars s → sized s → (∀ k, 0 ≤ k ≤ str_len s → p k = Utf8.is_char_boundary (encode s) k) →
  0 ≤ n ≤ str_len s → str_len s - n < Z.of_nat fuel →
  ∃ a b, s = a ++ b ∧ split_above fuel p n = Some (str_len a) ∧ n ≤ str_len a < n + 4 ∧
    (Utf8.is_char_boundary (encode s) n = true → str_len a = n).
Proof.
  intros Hsc Hs Hp Hn Hf. destruct (Utf8.is_char_boundary (encode s) n) eqn:Eb.
  { destruct fuel; [lia|]. cbn [split_above]. rewrite Hp, Eb by lia.
    apply boundary_split in Eb as (a & b & -> & ->); [|done|done]. exists a, b. split_and!; [done|done|lia|lia|done]. }
  assert (n < str_len s) as Hlt.
  { destruct (Z.eq_dec n (str_len s)) as [->|]; [|lia]. exfalso. rewrite <- (app_nil_r s) in Eb at 1.
    rewrite boundary_app in Eb; [done|by rewrite app_nil_r]. }
  destruct (split_point s n) as (a & c & b & -> & Hc); [lia|]. pose proof (len_utf8_bounds c).
  assert (n ≠ str_len a) as Hne.
  { intros ->. rewrite boundary_app in Eb; done. }
  exists (a ++ [c]), b. split_and!; [by rewrite <- app_assoc| | | |intros; congruence].
  - eapply split_above_loop; [done|done|done|done|lia|]. rewrite str_len_app in Hf. cbn [str_len] in Hf.
    pose proof (str_len_nonneg b). lia.
  - rewrite str_len_app. cbn [str_len]. lia.
  - rewrite str_len_app. cbn [str_len]. lia.
Qed.
(** The same downwards. *)
Lemma split_below_ok fuel s n :
  scalars s → sized s → 0 ≤ n ≤ str_len s → n < Z.of_nat fuel →
  ∃ a b, s = a ++ b ∧ split_below fuel (Utf8.is_char_boundary (encode s)) n = Some (str_len a) ∧
    n - 4 < str_len a ≤ n ∧ (Utf8.is_char_boundary (encode s) n = true → str_len a = n).
Proof.
  intros Hsc Hs. revert n. induction fuel as [|fuel IH]; intros n Hn Hf; [lia|]. cbn [split_below].
  destruct (Utf8.is_char_boundary (encode s) n) eqn:Eb.
  { apply boundary_split in Eb as (a & b & -> & ->); [|done|done]. exists a, b. split_and!; [done|done|lia|lia|done]. }
  assert (n ≠ 0) as Hn0 by (by intros ->). unfold sized in Hs. rewrite wrap64_id by width.
  destruct (Z.eq_dec n (str_len s)) as [->|Hne].
  { exfalso. rewrite <- (app_nil_r s) in Eb at 1. rewrite boundary_app in Eb; [done|by rewrite app_nil_r]. }
  destruct (split_point s n) as (a & c & b & Es & Hc); [lia|]. pose proof (len_utf8_bounds c).
  assert (n ≠ str_len a) as Hna by (intros ->; rewrite Es, boundary_app in Eb; [done|by rewrite <- Es]).
  pose proof (str_len_nonneg a).
  exists a, (c :: b). split; [done|]. split; [|split; [lia|done]].
  assert (str_len a < n) as Hlt by lia. assert (n - 1 < Z.of_nat fuel) as Hf' by lia. clear Hna IH.
  clear Hf Eb Hn0 Hne. revert n Hlt Hc Hf' Hn. induction fuel as [|fuel IH]; intros n Hlt Hc Hf' Hn; [lia|].
  cbn [split_below]. destruct (Z.eq_dec (n - 1) (str_len a)) as [->|Hne].
  - assert (Utf8.is_char_boundary (encode s) (str_len a) = true) as ->; [|done].
    rewrite Es. apply boundary_app. by rewrite <- Es.
  - assert (Utf8.is_char_boundary (encode s) (n - 1) = false) as ->.
    { rewrite Es in Hsc |- *. apply not_boundary; [done|lia]. }
    rewrite wrap64_id by width. apply IH; lia.
Qed.

(** *** Pushing text *)
Lemma split_for_last_ok x u p :
  0 ≤ x ≤ 128 → scalars u → sized u → (∀ k, 0 ≤ k ≤ str_len u → p k = Utf8.is_char_boundary (encode u) k) →
  ∃ a b, u = a ++ b ∧ split_for_last x (str_len u) p = Some (str_len a) ∧ x + str_len a ≤ 128 ∧
    (b ≠ [] → 64 ≤ x + str_len a ∧ (a = [] ∨ 61 ≤ str_len b)).
Proof.
  intros Hx Hsc Hs Hp. pose proof (str_len_nonneg u). unfold sized in Hs. unfold split_for_last.
  rewrite wrap64_id by width. change MAX_BASE with 128. change MIN_BASE with 64.
  destruct (Z.leb_spec (x + str_len u) 128) as [Hle|Hgt].
  { exists u, []. by rewrite app_nil_r. }
  assert (∀ a : str, a = [] ∨ 0 < str_len a) as Hpos.
  { intros a. destruct (Z.eq_dec (str_len a) 0) as [E|]; [left; by apply str_len_zero|right; pose proof (str_len_nonneg a); lia]. }
  destruct (split_above_ok (S (Z.to_nat (str_len u))) u p (Z.min (saturating_sub 64 x) (str_len u)))
    as (a & b & -> & E & Ha & H0); [done|done|done|unfold saturating_sub; lia|unfold saturating_sub; lia|].
  exists a, b. unfold saturating_sub in *. rewrite str_len_app in *. split; [done|]. split; [done|].
  destruct (Z.le_gt_cases 64 x) as [Hx'|].
  - rewrite Z.max_l in H0 by lia. rewrite Z.min_l in H0 by lia.
    specialize (H0 eq_refl). split; [lia|]. intros _. split; [lia|]. left. destruct (Hpos a); [done|lia].
  - split; [lia|]. intros Hb. destruct (Hpos b); [done|]. split; [lia|]. right. lia.
Qed.

Lemma map_last_snoc {A} (f : A → A) l x : SumTree.map_last f (l ++ [x]) = l ++ [f x].
Proof. unfold SumTree.map_last. by rewrite last_snoc, removelast_last. Qed.
Lemma chunks_of_snoc ss x : chunks_of (ss ++ [x]) = chunks_of ss ++ [chunk_of x].
Proof. apply chunks_of_app. Qed.

(** Replacing the last chunk. *)
Lemma update_last_spells w r ss x y :
  spells w r (ss ++ [x]) → piece y → sized (concat (ss ++ [y])) →
  ∃ r', SumTree.update_last (λ _, chunk_of y) r = Some r' ∧ spells w r' (ss ++ [y]).
Proof.
  intros (Hr & F & _) Hy Hs. apply Forall_app in F as [F _].
  assert (Forall piece (ss ++ [y])) as F' by (apply Forall_app; split; [done|by constructor]).
  destruct (TreeWeight.held_update_last w r (chunks_of (ss ++ [x])) (λ _, chunk_of y)) as (r' & E & Hr'); [done|..].
  { rewrite chunks_of_snoc, map_last_snoc, <- chunks_of_snoc. by apply pieces_valid. }
  exists r'. split; [done|]. rewrite chunks_of_snoc, map_last_snoc, <- chunks_of_snoc in Hr'. by split.
Qed.
Lemma last_spells w r ss : spells w r ss → SumTree.last r = Some (list.last (chunks_of ss)).
Proof. intros Hr. by apply SumTree.represents_last, (spells_represents w). Qed.
Lemma first_spells w r ss : spells w r ss → SumTree.first r = Some (head (chunks_of ss)).
Proof. intros Hr. by apply SumTree.represents_first, (spells_represents w). Qed.

Lemma piece_app x a : piece x → scalars a → str_len x + str_len a ≤ 128 → piece (x ++ a).
Proof.
  intros (Hsc & Hl & Hne) Ha Hle. split_and!; [by apply scalars_app|by rewrite str_len_app|].
  by intros [-> _]%app_nil.
Qed.
Lemma text_chunk_of x : Chunk.text (chunk_of x) = encode x.
Proof. done. Qed.
Lemma push_str_ok s t : scalars s → scalars t → str_len s + str_len t ≤ 128 →
  Chunk.push_str (chunk_of s) (encode t) = Some (chunk_of (s ++ t)).
Proof.
  intros Hs Ht Hle. pose proof (str_len_nonneg s). pose proof (str_len_nonneg t).
  unfold Chunk.push_str. rewrite chunk_new_ok by (done || lia). cbn [mbind option_bind].
  rewrite as_slice_ok, chunk_append_ok by lia. rewrite str_len_app. by rewrite (proj2 (Z.leb_le _ _)).
Qed.

Lemma push_to_last_ok w r ss u :
  spells w r ss → scalars u → sized (concat ss ++ u) →
  ∃ r' ss' v, push_to_last r (encode u) = Some (r', encode v) ∧ spells w r' ss' ∧ scalars v ∧
    concat ss' ++ v = concat ss ++ u ∧ str_len v ≤ str_len u ∧ (filled ss → filled ss' ∧ (v ≠ [] → Forall large ss')).
Proof.
  intros Hr Hu Hs. unfold push_to_last. rewrite (last_spells _ _ _ Hr). cbn [mbind option_bind].
  destruct ss as [|x ss _] using rev_ind; [exists r, [], u; split_and!; try done|].
  rewrite chunks_of_snoc, last_snoc, text_chunk_of, !len_encode.
  pose proof Hr as (_ & F & _). apply Forall_app in F as [_ F]. inversion F as [|? ? Hx _]; subst.
  pose proof Hx as (Hxs & Hxl & Hxn). pose proof (str_len_nonneg x).
  destruct (sized_app _ _ Hs) as [_ Hsu].
  destruct (split_for_last_ok (str_len x) u (Utf8.is_char_boundary (encode u))) as (a & b & -> & -> & Hle & Hmin);
    [lia|done|done|done|]. cbn [mbind option_bind].
  rewrite Utf8.str_split_at_ok by done. cbn [mbind option_bind].
  apply scalars_app in Hu as [Ha Hb].
  rewrite push_str_ok by done. cbn [mbind option_bind].
  assert (concat (ss ++ [x ++ a]) ++ b = concat (ss ++ [x]) ++ a ++ b) as Ec.
  { rewrite !concat_app. cbn. by rewrite !app_nil_r, <- !app_assoc. }
  destruct (update_last_spells w r ss x (x ++ a)) as (r' & -> & Hr'); [done|by apply piece_app| |].
  { rewrite <- Ec in Hs. by apply sized_app in Hs as [? _]. }
  cbn [mbind option_bind]. exists r', (ss ++ [x ++ a]), b. split_and!; [done..| |].
  - rewrite str_len_app. pose proof (str_len_nonneg a). lia.
  - rewrite !filled_snoc. intros Hf. split; [done|]. intros Hne. apply Forall_app. split; [done|]. constructor; [|done].
    unfold large. rewrite str_len_app. destruct (Hmin Hne). lia.
Qed.

(** The loop that cuts a text into chunks. *)
Lemma encode_nil_len u : (Utf8.len (encode u) =? 0) = bool_decide (u = []).
Proof.
  rewrite len_encode. destruct (Z.eqb_spec (str_len u) 0) as [E|E].
  - apply str_len_zero in E. by rewrite bool_decide_eq_true_2.
  - rewrite bool_decide_eq_false_2; [done|]. by intros ->.
Qed.
Definition has_room (capacity : option nat) (acc : list (list Z)) (u : str) : Prop :=
  match capacity with
  | Some n => u = [] ∨ Z.of_nat (length acc) * 125 + str_len u ≤ 125 * (Z.of_nat n - 1) + 121
  | None => True
  end.
Lemma cut_loop capacity fuel u acc :
  scalars u → sized u → str_len u < Z.of_nat fuel → has_room capacity acc u →
  ∃ us, iterate (cut_step capacity) fuel (encode u, acc) = Some (acc ++ map encode us) ∧
    concat us = u ∧ Forall piece us ∧ filled us.
Proof.
  revert u acc. induction fuel as [|fuel IH]; intros u acc Hsc Hs Hf Hroom.
  { pose proof (str_len_nonneg u). lia. }
  cbn [iterate]. unfold cut_step at 1. rewrite encode_nil_len.
  destruct (bool_decide_reflect (u = [])) as [->|Hne]; [exists []; rewrite app_nil_r; split_and!; [done|done|done|by constructor]|].
  assert (0 < str_len u) as Hpos.
  { pose proof (str_len_nonneg u). destruct (Z.eq_dec (str_len u) 0) as [E|]; [|lia]. by apply str_len_zero in E. }
  rewrite len_encode. change MAX_BASE with 128.
  destruct (split_below_ok (S (Z.to_nat 128)) u (Z.min 128 (str_len u))) as (a & b & -> & -> & Ha & Hb);
    [done|done|lia|lia|]. cbn [mbind option_bind].
  rewrite Utf8.str_split_at_ok by done. cbn [mbind option_bind].
  apply scalars_app in Hsc as [Hsa Hsb]. destruct (sized_app _ _ Hs) as [_ Hsz].
  rewrite str_len_app in *. pose proof (str_len_nonneg b) as Hb0.
  assert (b = [] ∨ 125 ≤ str_len a) as Hab.
  { destruct (Z.le_gt_cases (str_len a + str_len b) 128) as [Hle|Hgt]; [left|right; lia].
    apply str_len_zero. rewrite Z.min_r in Hb by done.
    enough (Utf8.is_char_boundary (encode (a ++ b)) (str_len a + str_len b) = true) as H by (specialize (Hb H); lia).
    rewrite <- (app_nil_r (a ++ b)) at 1. rewrite <- str_len_app. apply boundary_app. rewrite app_nil_r.
    by apply scalars_app. }
  assert (piece a) as Hpa.
  { split_and!; [done|lia|]. intros ->. cbn [str_len] in *. destruct Hab as [->|]; [cbn in Hpos; lia|lia]. }
  assert (0 < str_len a) as Ha0.
  { destruct Hab as [->|]; [cbn [str_len] in Hpos; lia|lia]. }
  assert (has_room capacity (acc ++ [encode a]) b) as Hroom'.
  { destruct capacity as [n|]; [|done]. cbn in Hroom |- *. rewrite length_app. cbn [length].
    destruct Hab as [->|]; [by left|right]. destruct Hroom as [[-> ->]%app_nil|]; [done|]. rewrite str_len_app in *. lia. }
  destruct (IH b (acc ++ [encode a])) as (us & E & <- & F & Hfill); [done|done|lia|done|].
  exists (a :: us). rewrite <- app_assoc in E. cbn [map concat].
  split_and!; [|done|by constructor|].
  2:{ destruct us as [|y us]; [by constructor|]. change (a :: y :: us) with ([a] ++ y :: us). apply filled_app; [done|]. split; [|done].
    constructor; [|done]. destruct Hab as [Hab|]; [|unfold large; lia]. cbn in Hab. apply Forall_cons in F as [(_ & _ & Hy) _].
    apply app_nil in Hab as [? _]. done. }
  destruct capacity as [n|]; [|exact E].
  cbn in Hroom. destruct Hroom as [Hn|Hroom]; [by destruct Hne|]. rewrite str_len_app in Hroom.
  rewrite (option_guard_True (length acc < n)%nat) by lia. exact E.
Qed.

Lemma new_chunks_ok us : Forall piece us → mapM Chunk.new (map encode us) = Some (chunks_of us).
Proof.
  induction 1 as [|u us (Hsc & Hl & _) F IH]; [done|]. cbn. rewrite chunk_new_ok by done. cbn [mbind option_bind].
  by rewrite IH.
Qed.
Lemma pieces_length us : Forall piece us → Z.of_nat (length us) ≤ str_len (concat us).
Proof.
  induction 1 as [|u us (_ & _ & Hne) F IH]; [done|]. cbn [concat length]. rewrite str_len_app.
  pose proof (str_len_nonneg u). destruct (Z.eq_dec (str_len u) 0) as [E|]; [|lia]. by apply str_len_zero in E.
Qed.

(** Appending chunks at the end. *)
Lemma extend_spells w r ss us :
  spells w r ss → Forall piece us → sized (concat ss ++ concat us) →
  ∃ r', SumTree.extend r (chunks_of us) = Some r' ∧
    spells (w + 2 * Z.of_nat (length us)) r' (ss ++ us).
Proof.
  intros (Hr & F & Hs) Fu Hsu. rewrite <- concat_app in Hsu.
  assert (Forall piece (ss ++ us)) as F' by (by apply Forall_app).
  destruct (TreeWeight.held_extend w r (chunks_of ss) (chunks_of us)) as (r' & E & Hr'); [done| |].
  { rewrite <- chunks_of_app. by apply pieces_valid. }
  exists r'. split; [done|]. rewrite <- chunks_of_app in Hr'. unfold chunks_of at 1 in Hr'. rewrite length_map in Hr'.
  by split.
Qed.

Lemma push_large_ok w r ss v :
  spells w r ss → scalars v → sized (concat ss ++ v) →
  ∃ r', push_large r (encode v) = Some r' ∧ holds (w + 2 * str_len v) r' (concat ss ++ v) ∧
    (v ≠ [] → Forall large ss → check_invariants r' = true).
Proof.
  intros Hr Hv Hs. destruct (sized_app _ _ Hs) as [Hs1 Hs2]. unfold push_large.
  pose proof (str_len_nonneg v). rewrite length_encode.
  destruct (cut_loop None (S (Z.to_nat (str_len v))) v []) as (us & -> & <- & F & Hfill); [done|done|lia|done|].
  cbn [mbind option_bind app]. rewrite new_chunks_ok by done. cbn [mbind option_bind].
  destruct (extend_spells w r ss us) as (r' & E & Hr'); [done..|].
  pose proof (pieces_length us F).
  assert (holds (w + 2 * str_len (concat us)) r' (concat ss ++ concat us)) as Hh.
  { exists (ss ++ us). rewrite concat_app. split; [|done]. eapply spells_weaken; [done|lia]. }
  exists r'. split; [|split; [done|]].
  2:{ intros Hv' Hlarge. apply (spells_invariants _ _ _ Hr'). apply filled_app; [|done]. by intros ->. }
  destruct (Nat.leb _ _); [|done]. rewrite ParTree.par_extend_extend; [done|]. by apply pieces_valid.
Qed.

(** The weight that a text of [n] bytes adds is at most [2 * n]. *)
Lemma rope_push_filled w r s u :
  holds w r s → scalars u → sized (s ++ u) →
  ∃ r', push r (encode u) = Some r' ∧ holds (w + 2 * str_len u) r' (s ++ u) ∧ (check_invariants r = true → check_invariants r' = true).
Proof.
  intros (ss & Hr & <-) Hu Hs. unfold push. pose proof (str_len_nonneg u).
  destruct (push_to_last_ok w r ss u) as (r' & ss' & v & -> & Hr' & Hv & Ec & Hle & Hfill); [done..|].
  rewrite <- (spells_invariants _ _ _ Hr), <- (spells_invariants _ _ _ Hr') in Hfill.
  cbn [mbind option_bind]. rewrite encode_nil_len, <- Ec in *.
  assert (∀ r s, holds (w + 2 * str_len v) r s → holds (w + 2 * str_len u) r s) as Hweak.
  { intros x y (zz & Hz & <-). exists zz. split; [|done]. eapply spells_weaken; [done|lia]. }
  destruct (bool_decide_reflect (v = [])) as [->|Hne].
  { exists r'. split; [done|]. rewrite app_nil_r. split; [|by intros [? _]%Hfill]. apply Hweak. exists ss'. split; [|done]. by eapply spells_weaken; [done|cbn; lia]. }
  rewrite len_encode. change (Z.of_nat NUM_CHUNKS * MAX_BASE - Z.of_nat NUM_CHUNKS * 4) with 496.
  destruct (Z.ltb_spec 496 (str_len v)) as [Hlarge|Hsmall].
  { destruct (push_large_ok w r' ss' v) as (r'' & -> & Hr'' & Hinv); [done..|]. exists r''. split; [done|]. split; [by apply Hweak|].
    intros Hi. apply Hinv; [done|]. by apply Hfill. }
  destruct (sized_app _ _ Hs) as [_ Hsv]. rewrite length_encode.
  destruct (cut_loop (Some NUM_CHUNKS) (S (Z.to_nat (str_len v))) v []) as (us & -> & <- & F & Hus); [done|done| | |].
  { pose proof (str_len_nonneg v). lia. }
  { right. unfold NUM_CHUNKS. cbn [length]. lia. }
  cbn [mbind option_bind app]. rewrite new_chunks_ok by done. cbn [mbind option_bind].
  destruct (extend_spells w r' ss' us) as (r'' & E & Hr''); [done..|].
  pose proof (pieces_length us F). exists r''. split; [done|]. split.
  - apply Hweak. exists (ss' ++ us). rewrite concat_app. split; [|done]. eapply spells_weaken; [done|lia].
  - intros Hi. apply (spells_invariants _ _ _ Hr''), filled_app; [by intros ->|]. split; [by apply Hfill|done].
Qed.
Lemma rope_push_ok w r s u :
  holds w r s → scalars u → sized (s ++ u) →
  ∃ r', push r (encode u) = Some r' ∧ holds (w + 2 * str_len u) r' (s ++ u).
Proof. intros Hr Hu Hs. destruct (rope_push_filled w r s u Hr Hu Hs) as (r' & E & Hr' & _). by exists r'. Qed.
Lemma holds_new : holds 0 new [].
Proof. exists []. split; [apply spells_new|done]. Qed.
Lemma from_ok u : scalars u → sized u → ∃ r, from (encode u) = Some r ∧ holds (2 * str_len u) r u.
Proof. intros Hu Hs. by apply (rope_push_ok 0 new [] u holds_new). Qed.

(** *** Pushing chunks *)
Lemma push_chunk_filled w r ss u :
  spells w r ss → scalars u → str_len u ≤ 128 → sized (concat ss ++ u) →
  ∃ r' ss', push_chunk r (slice_of u) = Some r' ∧ spells (w + 1) r' ss' ∧ concat ss' = concat ss ++ u ∧
    (filled ss → filled ss' ∧ (large u → Forall large ss')).
Proof.
  intros Hr Hu Hl Hs. unfold push_chunk. rewrite (last_spells _ _ _ Hr). cbn [mbind option_bind].
  assert (∃ r' ss' v,
    match list.last (chunks_of ss) with
    | None => Some (r, slice_of u)
    | Some last_chunk =>
        split_ix ← split_for_last (Utf8.len (Chunk.text last_chunk)) (ChunkSlice.len (slice_of u))
                     (ChunkSlice.is_char_boundary (slice_of u));
        '(suffix, remainder) ← ChunkSlice.split_at (slice_of u) split_ix;
        last_chunk ← Chunk.append last_chunk suffix;
        chunks ← SumTree.update_last (λ _, last_chunk) r;
        Some (chunks, remainder)
    end = Some (r', slice_of v) ∧ spells w r' ss' ∧ scalars v ∧ str_len v ≤ 128 ∧ concat ss' ++ v = concat ss ++ u ∧
      (filled ss → filled ss' ∧ (v ≠ [] → Forall large ss') ∧ (large u → Forall large ss' ∧ (v ≠ [] → large v))))
    as (r' & ss' & v & -> & Hr' & Hv & Hvl & Ec & Hfill).
  { destruct ss as [|x ss _] using rev_ind; [by exists r, [], u; split_and!|].
    rewrite chunks_of_snoc, last_snoc, text_chunk_of, len_encode, ChunkSummary.len_ok.
    pose proof Hr as (_ & F & _). apply Forall_app in F as [_ F]. inversion F as [|? ? Hx _]; subst.
    pose proof Hx as (Hxs & Hxl & Hxn). pose proof (str_len_nonneg x).
    destruct (split_for_last_ok (str_len x) u (ChunkSlice.is_char_boundary (slice_of u))) as (a & b & -> & -> & Hle & Hmin);
      [lia|done|by apply chunk_sized|intros k Hk; apply is_char_boundary_ok; [done|done|lia]|]. cbn [mbind option_bind].
    rewrite chunk_split_at_ok by done. cbn [mbind option_bind].
    rewrite chunk_append_ok, str_len_app, (proj2 (Z.leb_le _ _)) by lia. cbn [mbind option_bind].
    pose proof Hu as Hu'. apply scalars_app in Hu' as [Ha Hb].
    assert (concat (ss ++ [x ++ a]) ++ b = concat (ss ++ [x]) ++ a ++ b) as Ec.
    { rewrite !concat_app. cbn. by rewrite !app_nil_r, <- !app_assoc. }
    destruct (update_last_spells w r ss x (x ++ a)) as (r' & -> & Hr'); [done|by apply piece_app| |].
    { rewrite <- Ec in Hs. by apply sized_app in Hs as [? _]. }
    cbn [mbind option_bind]. exists r', (ss ++ [x ++ a]), b. split_and!; [done..| |done|].
    { rewrite str_len_app in Hl. pose proof (str_len_nonneg a). lia. }
    rewrite !filled_snoc. intros Hf. unfold large. rewrite str_len_app in *. pose proof (str_len_nonneg a).
    split; [done|]. split; [|intros Hlu; split].
    - intros Hne. apply Forall_app. split; [done|]. constructor; [|done]. rewrite str_len_app. destruct (Hmin Hne). lia.
    - apply Forall_app. split; [done|]. constructor; [|done]. rewrite str_len_app. destruct (decide (b = [])) as [->|Hne]; [cbn in Hlu; lia|destruct (Hmin Hne); lia].
    - intros Hne. destruct (Hmin Hne) as [_ [->|]]; [cbn in Hlu; lia|done]. }
  cbn [mbind option_bind]. rewrite slice_is_empty, <- Ec in *.
  destruct (bool_decide_reflect (v = [])) as [->|Hne].
  { exists r', ss'. split; [done|]. rewrite app_nil_r. split; [by eapply spells_weaken; [done|lia]|]. split; [done|].
    intros Hf. destruct (Hfill Hf) as (? & _ & Hl'). split; [done|]. intros Hlu. by apply Hl'. }
  rewrite from_slice_ok by done. cbn [mbind option_bind].
  pose proof Hr' as (Hh & F & _).
  assert (Forall piece (ss' ++ [v])) as F' by (apply Forall_app; split; [done|by repeat constructor]).
  assert (concat (ss' ++ [v]) = concat ss' ++ v) as Ec' by (rewrite concat_app; cbn; by rewrite app_nil_r).
  destruct (TreeWeight.held_push w r' (chunks_of ss') (chunk_of v)) as (r'' & E & Hr''); [done| |].
  { rewrite <- chunks_of_snoc. apply pieces_valid; [done|by rewrite Ec']. }
  exists r'', (ss' ++ [v]). split; [done|]. split; [|split; [done|]].
  - split; [by rewrite chunks_of_snoc|]. split; [done|by rewrite Ec'].
  - intros Hf. destruct (Hfill Hf) as (_ & H1 & H2). split; [apply filled_snoc; by apply H1|]. intros Hu'. destruct (H2 Hu') as [H3 H4].
    apply Forall_app. split; [done|]. constructor; [by apply H4|done].
Qed.
Lemma push_chunk_ok w r ss u :
  spells w r ss → scalars u → str_len u ≤ 128 → sized (concat ss ++ u) →
  ∃ r', push_chunk r (slice_of u) = Some r' ∧ holds (w + 1) r' (concat ss ++ u).
Proof. intros Hr Hu Hl Hs. destruct (push_chunk_filled w r ss u Hr Hu Hl Hs) as (r' & ss' & E & Hr' & Ec & _). exists r'. split; [done|]. by exists ss'. Qed.

(** *** Appending ropes *)
Lemma ready_at {D} `{TextPosition D} w r ss :
  spells w r ss → w < 6 ^ 16 → Cursor.ready (Cursor.new (D := D) r) [] (chunks_of ss).
Proof. intros Hr Hw. pose proof (spells_valid _ _ _ Hr). destruct Hr as [Hh _]. by apply (TreeWeight.held_ready w). Qed.
Lemma weight_at w r ss : spells w r ss → TreeWeight.weight r ≤ w.
Proof. by intros [[_ ?] _]. Qed.

Lemma suffix_after_first w r x ss :
  spells w r (x :: ss) → w < 6 ^ 16 →
  ∃ r', (chunks ← Cursor.next (Cursor.new (D := unit) r); chunks ← Cursor.next chunks;
         snd <$> Cursor.suffix chunks) = Some r' ∧ spells w r' ss.
Proof.
  intros Hr Hw. pose proof Hr as (Hh & F & Hs). pose proof (spells_valid _ _ _ Hr) as Hv.
  destruct (TreeWeight.held_ready (D := unit) w r (chunks_of (x :: ss)) Hh Hw Hv) as [Hc|[_ Hf]].
  { destruct Hc as [h ? ? ? Hd ? ? ?]. done. }
  destruct (Cursor.next_idle _ _ (Cursor.fresh_idle _ _ Hf)) as (c & E & Hc).
  destruct (Cursor.next_ok c [] (chunk_of x) (chunks_of ss) Hc) as (c' & E' & Hc').
  rewrite E. cbn [mbind option_bind]. rewrite E'. cbn [mbind option_bind].
  assert (Cursor.ready (Cursor.new (D := unit) r) [] (chunks_of (x :: ss))) as Hc0 by (by right).
  pose proof (TreeWeight.ready_shaped _ _ _ Hc0) as [_ Hle0].
  apply (TreeWeight.next_weight _ _ _ _ Hc0) in E as [Hle1 _].
  apply (TreeWeight.next_weight _ _ [] (chunks_of (x :: ss))) in E' as [Hle2 _]; [|by left].
  destruct (TreeWeight.held_suffix c' ([] ++ [chunk_of x]) (chunks_of ss)) as (c'' & r' & E'' & Hr' & _); [by left|].
  exists r'. rewrite E''. split; [done|]. pose proof (weight_at _ _ _ Hr). cbn [Cursor.c_tree Cursor.new] in Hle0.
  split; [eapply TreeWeight.held_weaken; [exact Hr'|lia]|]. inversion F; subst. cbn [concat] in Hs. apply sized_app in Hs as [_ Hs]. done.
Qed.

Lemma append_spells wa wb a b ss us :
  spells wa a ss → spells wb b us → sized (concat ss ++ concat us) →
  ∃ r, SumTree.append a b = Some r ∧ spells (wa + wb) r (ss ++ us).
Proof.
  intros (Ha & Fa & _) (Hb & Fb & _) Hs. rewrite <- concat_app in Hs.
  assert (Forall piece (ss ++ us)) as F by (by apply Forall_app).
  destruct (TreeWeight.held_append wa wb a b (chunks_of ss) (chunks_of us)) as (r & E & Hr); [done|done| |].
  { rewrite <- chunks_of_app. by apply pieces_valid. }
  exists r. split; [done|]. by rewrite <- chunks_of_app in Hr.
Qed.

Lemma rope_append_filled wa wb a b s u :
  holds wa a s → holds wb b u → wb < 6 ^ 16 → sized (s ++ u) →
  ∃ r, append a b = Some r ∧ holds (wa + wb + 1) r (s ++ u) ∧
    (check_invariants a = true → check_invariants b = true → check_invariants r = true).
Proof.
  intros (ss & Ha & <-) (us & Hb & <-) Hw Hs. unfold append.
  rewrite (first_spells _ _ _ Hb), (last_spells _ _ _ Ha). cbn [mbind option_bind].
  assert ((us = [] ∨ Forall large ss ∨ ¬ filled ss) → ∃ r, SumTree.append a b = Some r ∧ holds (wa + wb + 1) r (concat ss ++ concat us) ∧
    (check_invariants a = true → check_invariants b = true → check_invariants r = true)) as Hplain.
  { intros Hor. destruct (append_spells _ _ _ _ _ _ Ha Hb Hs) as (r & E & Hr). exists r. split; [done|]. split.
    - rewrite <- concat_app. exists (ss ++ us). split; [|done]. eapply spells_weaken; [done|lia].
    - rewrite (spells_invariants _ _ _ Ha), (spells_invariants _ _ _ Hb), (spells_invariants _ _ _ Hr). intros Hfa Hfb.
      destruct (decide (us = [])) as [->|Hne]; [by rewrite app_nil_r|]. apply filled_app; [done|]. split; [|done]. by destruct Hor as [?|[?|?]]. }
  destruct us as [|x us]; [by apply Hplain; left|]. change (head (chunks_of (x :: us))) with (Some (chunk_of x)). cbn beta iota.
  destruct (_ || _) eqn:Eor.
  2:{ apply Hplain. right. apply orb_false_iff in Eor as [Elast _]. destruct ss as [|y ss _] using rev_ind; [left; by constructor|]. rewrite filled_snoc.
    rewrite chunks_of_snoc, last_snoc, text_chunk_of, len_encode in Elast. apply Z.ltb_ge in Elast. change MIN_BASE with 64 in Elast.
    destruct (decide (Forall large ss)) as [Hl|Hl]; [left|by right]. apply Forall_app. split; [done|]. constructor; [unfold large; lia|done]. }
  clear Hplain.
  pose proof Hb as (_ & Fb & Hsb). inversion Fb as [|? ? (Hxs & Hxl & _) Fu]; subst. cbn [concat] in *.
  rewrite as_slice_ok. rewrite app_assoc in Hs.
  destruct (push_chunk_filled wa a ss x) as (a' & ss' & -> & Ha' & Ec & Hfill); [done|done|done|by apply sized_app in Hs as [? _]|].
  cbn [mbind option_bind].
  destruct (suffix_after_first wb b x us Hb Hw) as (b' & E & Hb').
  destruct (Cursor.next (Cursor.new (D := unit) b)) as [c|]; [|done]. cbn [mbind option_bind] in *.
  destruct (Cursor.next c) as [c'|]; [|done]. cbn [mbind option_bind] in *.
  destruct (Cursor.suffix c') as [[c'' b'']|]; [|done]. injection E as ->. cbn [mbind option_bind].
  destruct (append_spells (wa + 1) wb a' b' ss' us) as (r & -> & Hr); [done|done|by rewrite Ec|].
  exists r. split; [done|]. split.
  - exists (ss' ++ us). split; [eapply spells_weaken; [done|lia]|]. by rewrite concat_app, Ec, app_assoc.
  - rewrite (spells_invariants _ _ _ Ha), (spells_invariants _ _ _ Hb), (spells_invariants _ _ _ Hr). intros Hfa Hfb.
    destruct (Hfill Hfa) as [H1 H2]. destruct (decide (us = [])) as [->|Hne]; [by rewrite app_nil_r|].
    change (x :: us) with ([x] ++ us) in Hfb. apply filled_app in Hfb as [Hx Hus]; [|done]. apply Forall_cons in Hx as [Hx _]. apply filled_app; [done|]. split; [by apply H2|done].
Qed.
Lemma rope_append_ok wa wb a b s u :
  holds wa a s → holds wb b u → wb < 6 ^ 16 → sized (s ++ u) →
  ∃ r, append a b = Some r ∧ holds (wa + wb + 1) r (s ++ u).
Proof. intros Ha Hb Hw Hs. destruct (rope_append_filled wa wb a b s u Ha Hb Hw Hs) as (r & E & Hr & _). by exists r. Qed.

Lemma first_len w r x ss : spells w r (x :: ss) → piece x.
Proof. intros (_ & F & _). by inversion F. Qed.

Lemma push_front_ok w r s u :
  holds w r s → w < 6 ^ 16 → scalars u → sized (u ++ s) →
  ∃ r', push_front r (encode u) = Some r' ∧ holds (w + 2 * str_len u + 1) r' (u ++ s) ∧ (check_invariants r = true → check_invariants r' = true).
Proof.
  intros Hr Hw Hu Hs. unfold push_front. pose proof (str_len_nonneg u). rewrite encode_nil_len.
  destruct (bool_decide_reflect (u = [])) as [->|Hne].
  { exists r. split; [done|]. split; [|done]. destruct Hr as (ss & Hr & <-). exists ss. split; [|done]. eapply spells_weaken; [done|cbn; lia]. }
  rewrite (is_empty_ok _ _ _ Hr). destruct (bool_decide_reflect (s = [])) as [->|Hse].
  { destruct (rope_push_filled w r [] u Hr Hu) as (r' & -> & (ss & Hr' & Ec) & Hinv); [by rewrite app_nil_r in Hs|].
    exists r'. split; [done|]. split; [|done]. exists ss. rewrite app_nil_r. split; [|done]. eapply spells_weaken; [done|lia]. }
  destruct (sized_app _ _ Hs) as [Hsu _].
  assert (∃ r', (suffix ← from (encode u); append suffix r) = Some r' ∧ holds (w + 2 * str_len u + 1) r' (u ++ s) ∧ (check_invariants r = true → check_invariants r' = true)) as Hgen.
  { destruct (rope_push_filled 0 new [] u holds_new Hu Hsu) as (f & Ef & Hf & Hfi). unfold from. rewrite Ef. cbn [mbind option_bind].
    destruct (rope_append_filled _ _ _ _ _ _ Hf Hr Hw Hs) as (r' & E & (ss & Hr' & Ec) & Hinv).
    exists r'. split; [done|]. split; [|intros Hi; apply Hinv; [by apply Hfi|done]]. exists ss. split; [|done]. eapply spells_weaken; [done|lia]. }
  destruct Hr as (ss & Hr & <-). rewrite (first_spells _ _ _ Hr). cbn [mbind option_bind].
  destruct ss as [|x ss]; [done|]. change (head (chunks_of (x :: ss))) with (Some (chunk_of x)). cbn beta iota.
  pose proof (first_len _ _ _ _ Hr) as (Hxs & Hxl & Hxn). pose proof (str_len_nonneg x).
  unfold sized in Hsu. rewrite text_chunk_of, !len_encode, wrap64_id by width. change MAX_BASE with 128.
  destruct (Z.leb_spec (str_len x + str_len u) 128) as [Hle|Hgt]; [|done].
  clear Hgen. unfold Chunk.prepend_str. rewrite chunk_new_ok by (done || lia). cbn [mbind option_bind].
  rewrite as_slice_ok, chunk_prepend_ok, str_len_app by done. rewrite (proj2 (Z.leb_le _ _)) by lia. cbn [mbind option_bind].
  pose proof Hr as (Hh & F & _). inversion F as [|? ? _ F']; subst.
  assert (piece (u ++ x)) as Hp.
  { split_and!; [by apply scalars_app|rewrite str_len_app; lia|by intros [? _]%app_nil]. }
  assert (concat ((u ++ x) :: ss) = u ++ concat (x :: ss)) as Ec by (cbn; by rewrite <- app_assoc).
  destruct (TreeWeight.held_update_first w r (chunks_of (x :: ss)) (λ _, chunk_of (u ++ x))) as (r' & E & Hr'); [done| |].
  { change (valid (chunks_of ((u ++ x) :: ss))). apply pieces_valid; [by constructor|by rewrite Ec]. }
  assert (spells (w + 2 * str_len u + 1) r' ((u ++ x) :: ss)) as Hsp.
  { split; [eapply TreeWeight.held_weaken; [exact Hr'|lia]|]. split; [by constructor|by rewrite Ec]. }
  exists r'. split; [done|]. split; [by exists ((u ++ x) :: ss)|].
  rewrite (spells_invariants _ _ _ Hr), (spells_invariants _ _ _ Hsp). unfold filled. destruct ss as [|y ss]; [done|].
  change (removelast (?z :: y :: ss)) with (z :: removelast (y :: ss)). rewrite !Forall_cons. unfold large. rewrite str_len_app. intros [? ?]. split; [lia|done].
Qed.

(** *** The cursor of a rope, at a boundary of its text *)

(** Linear arithmetic on the lengths of concatenations. *)
Ltac pose_lens :=
  repeat match goal with
  | H : context [str_len ?s] |- _ =>
      lazymatch goal with _ : 0 ≤ str_len s |- _ => fail | _ => pose proof (str_len_nonneg s) end
  | |- context [str_len ?s] =>
      lazymatch goal with _ : 0 ≤ str_len s |- _ => fail | _ => pose proof (str_len_nonneg s) end
  end.
Ltac lens := unfold sized in *; rewrite ?concat_app in *; cbn [concat] in *; rewrite ?str_len_app in *; cbn [str_len] in *; pose_lens;
  repeat (rewrite wrap64_id by width); try lia.
Lemma app_by_len a b c d :
  a ++ b = c ++ d → str_len c ≤ str_len a → ∃ p, a = c ++ p ∧ d = p ++ b.
Proof.
  intros E Hle. apply app_eq_inv in E as [(k & -> & ->)|(k & -> & ->)]; [by exists k|].
  rewrite str_len_app in Hle. pose proof (str_len_nonneg k). assert (k = []) as -> by (apply str_len_zero; lia).
  exists []. by rewrite !app_nil_r.
Qed.
Lemma chunks_split ss l k : chunks_of ss = l ++ k → ∃ s1 s2, ss = s1 ++ s2 ∧ l = chunks_of s1 ∧ k = chunks_of s2.
Proof.
  intros E. unfold chunks_of in E. apply map_eq_app in E as (s1 & s2 & -> & <- & <-). by exists s1, s2.
Qed.

(** The position after [a] in [a ++ b]: in a chunk [p ++ q], or at the end. *)
Inductive chunk_at (before after : list str) (a b : str) : Prop :=
  | in_chunk p q rest :
      after = (p ++ q) :: rest → a = concat before ++ p → b = q ++ concat rest → chunk_at before after a b
  | at_end : after = [] → a = concat before → b = [] → chunk_at before after a b.

Lemma chunk_at_concat before after a b : chunk_at before after a b → concat (before ++ after) = a ++ b.
Proof.
  rewrite concat_app. intros [p q rest -> -> ->| -> -> ->]; cbn [concat]; by rewrite <- ?app_assoc, ?app_nil_r.
Qed.
Lemma chunk_at_intro before after a b :
  concat (before ++ after) = a ++ b → str_len (concat before) ≤ str_len a →
  (∀ x, head after = Some x → str_len a ≤ str_len (concat before ++ x)) → chunk_at before after a b.
Proof.
  intros E Hle Hx. rewrite concat_app in E.
  destruct (app_by_len a b (concat before) (concat after)) as (p & -> & E'); [done|done|].
  destruct after as [|x after].
  - cbn in E'. symmetry in E'. apply app_nil in E' as [-> ->]. rewrite app_nil_r. by apply at_end.
  - cbn in E'. specialize (Hx x eq_refl). rewrite !str_len_app in Hx.
    destruct (app_by_len x (concat after) p b) as (q & -> & ->); [done|lia|]. by eapply in_chunk.
Qed.

Record at_offset (w v : Z) (c : cursor) (a b : str) (before after : list str) : Prop := {
  o_rope : spells w (c_rope c) (before ++ after);
  o_tree : Cursor.c_tree (c_chunks c) = c_rope c;
  o_ahead : TreeWeight.ahead (c_chunks c) ≤ v;
  o_chunks : Cursor.positioned (c_chunks c) (chunks_of before) (chunks_of after);
  o_offset : c_offset c = str_len a;
  o_at : chunk_at before after a b;
}.

Lemma at_concat w v c a b before after : at_offset w v c a b before after → concat (before ++ after) = a ++ b.
Proof. intros H. by apply chunk_at_concat, H. Qed.
Lemma at_dims w v c a b before after :
  at_offset w v c a b before after →
  Forall piece before ∧ Forall piece after ∧ sized (concat before ++ concat after) ∧
  ∀ {D} `{TextPosition D}, dim D (chunks_of before) = pos D (concat before).
Proof.
  intros [(_ & F & Hs) _ _ _ _ _]. apply Forall_app in F as [F1 F2]. rewrite concat_app in Hs.
  split_and!; [done..|]. intros. apply dim_pieces; [done|]. by apply sized_app in Hs as [? _].
Qed.
Lemma assert_ahead_ok w v c a m d before after :
  at_offset w v c a (m ++ d) before after → assert_ahead c (str_len (a ++ m)) = Some tt.
Proof.
  intros H. unfold assert_ahead. pose proof (at_concat _ _ _ _ _ _ _ H) as Ec. destruct H as [Hr _ _ _ -> _].
  assert (len (c_rope c) = str_len ((a ++ m) ++ d)) as ->.
  { rewrite <- app_assoc, <- Ec. eapply rope_len_ok. by eapply spells_holds. }
  rewrite (str_len_app (a ++ m) d), (str_len_app a m). pose proof (str_len_nonneg m). pose proof (str_len_nonneg d).
  by rewrite !(proj2 (Z.leb_le _ _)) by lia.
Qed.

(** Where a seek to the right stops, in terms of the text. *)
Lemma stopped_right w (r : t) ss k before mid rest :
  spells w r ss → ss = before ++ mid ++ rest →
  Cursor.stopped (D := Z) (Z.compare k) Right (chunks_of before) (chunks_of mid) (chunks_of rest) →
  str_len (concat before) ≤ k →
  str_len (concat (before ++ mid)) ≤ k ∧ (∀ x, head rest = Some x → k < str_len (concat (before ++ mid) ++ x)).
Proof.
  intros (_ & F & Hs) -> [Hmid Hrest] Hk. rewrite app_assoc in F, Hs.
  pose proof F as F0. apply Forall_app in F as [F1 F2].
  rewrite concat_app in Hs. destruct (sized_app _ _ Hs) as [Hs1 Hs2].
  rewrite <- chunks_of_app in *. unfold TreeFind.passed in *. split.
  - destruct Hmid as [Hmid|Hmid].
    + destruct mid; [by rewrite app_nil_r|done].
    + rewrite dim_pieces in Hmid by done. change (pos Z) with str_len in Hmid.
      destruct (Z.compare_spec k (str_len (concat (before ++ mid)))); cbn in Hmid; [lia|done|lia].
  - intros x Hx. destruct rest as [|y rest]; [done|]. injection Hx as ->.
    specialize (Hrest (chunk_of x) eq_refl). change [chunk_of x] with (chunks_of [x]) in Hrest.
    rewrite <- !chunks_of_app, dim_pieces in Hrest.
    + change (pos Z) with str_len in Hrest. rewrite app_assoc, concat_app in Hrest. cbn [concat] in Hrest.
      rewrite app_nil_r in Hrest.
      destruct (Z.compare_spec k (str_len (concat (before ++ mid) ++ x))); cbn in Hrest; [done|lia|done].
    + apply Forall_app in F0 as [Fa Fb]. inversion Fb; subst. rewrite app_assoc. apply Forall_app. split; [done|]. by constructor; [|constructor].
    + rewrite app_assoc, concat_app. cbn [concat] in *. rewrite app_nil_r. rewrite app_assoc in Hs. by apply sized_app in Hs as [? _].
Qed.

Lemma cursor_at_ok w r a b :
  holds w r (a ++ b) → w < 6 ^ 16 →
  ∃ c before after, cursor_at r (str_len a) = Some c ∧ at_offset w w c a b before after ∧ c_rope c = r.
Proof.
  intros (ss & Hr & Ec) Hw. unfold cursor_at.
  pose proof (str_len_nonneg a).
  destruct (Cursor.seek_ok (D := Z) (Z.compare (str_len a)) Right (Cursor.new r) [] (chunks_of ss))
    as (c' & mid & rest & E & El & Hst & Hc).
  { by eapply ready_at. }
  { change (dim Z (@nil Chunk.t)) with 0. cbn. destruct (Z.compare_spec (str_len a) 0); done || lia. }
  rewrite E. cbn [mbind option_bind]. apply chunks_split in El as (s1 & s2 & -> & -> & ->).
  destruct (stopped_right w r (s1 ++ s2) (str_len a) [] s1 s2) as [H1 H2]; [done|done|done|cbn; lia|].
  assert (Cursor.ready (Cursor.reset (Cursor.new (D := Z) r)) [] (chunks_of (s1 ++ s2))) as Hready by (by eapply ready_at).
  unfold Cursor.seek in E. destruct (Cursor.seek_internal _ _ _ _ _) as [[[c'' u] e]|] eqn:E'; [|done].
  cbn [mbind option_bind] in E. injection E as -> _.
  assert (Cursor.seek_forward (Z.compare (str_len a)) Right (Cursor.reset (Cursor.new (D := Z) r)) = Some (c', e)) as E2.
  { unfold Cursor.seek_forward. by rewrite E'. }
  destruct (TreeWeight.seek_forward_weight _ _ _ _ _ _ _ Hready E2) as [Hle Et].
  pose proof (TreeWeight.ready_shaped _ _ _ Hready) as [_ Hle']. cbn in Et.
  change (TreeWeight.weight (Cursor.c_tree (Cursor.reset (Cursor.new (D := Z) r)))) with (TreeWeight.weight r) in Hle'.
  pose proof (weight_at _ _ _ Hr).
  eexists _, s1, s2. split; [done|]. split; [|done]. split; [done|done|cbn; lia|done|done|].
  apply chunk_at_intro; [done|done|]. intros x Hx. specialize (H2 x Hx). cbn [app] in H2. lia.
Qed.

Lemma cursor_seek_forward_ok w v c a m d before after :
  at_offset w v c a (m ++ d) before after →
  ∃ c' before' after', seek_forward c (str_len (a ++ m)) = Some c' ∧ at_offset w v c' (a ++ m) d before' after' ∧
    c_rope c' = c_rope c.
Proof.
  intros H. unfold seek_forward. rewrite (assert_ahead_ok _ _ _ _ _ _ _ _ H). cbn [mbind option_bind].
  pose proof (at_concat _ _ _ _ _ _ _ H) as Ec. pose proof (at_dims _ _ _ _ _ _ _ H) as (_ & _ & _ & Hd).
  destruct H as [Hr Ht Hv Hc Ho Ha].
  assert (str_len (concat before) ≤ str_len (a ++ m)) as Hle.
  { rewrite str_len_app. pose proof (str_len_nonneg m).
    destruct Ha as [p q rest _ -> _|_ -> _]; [rewrite str_len_app; pose proof (str_len_nonneg p)|]; lia. }
  destruct (Cursor.seek_forward_ok (D := Z) (Z.compare (str_len (a ++ m))) Right (c_chunks c) (chunks_of before) (chunks_of after))
    as (c' & mid & rest & E & El & Hst & Hc'); [by left| |].
  { rewrite (Hd Z _ _). change (pos Z) with str_len.
    destruct (Z.compare_spec (str_len (a ++ m)) (str_len (concat before))); done || lia. }
  rewrite E. cbn [mbind option_bind]. apply chunks_split in El as (s1 & s2 & -> & -> & ->).
  destruct (stopped_right w (c_rope c) _ (str_len (a ++ m)) before s1 s2 Hr) as [H1 H2]; [done|done|done|].
  rewrite app_assoc in Hr, Ec. rewrite <- chunks_of_app in Hc'.
  eexists _, (before ++ s1), s2. split; [done|]. split; [|done].
  apply (TreeWeight.seek_forward_weight _ _ _ _ _ (chunks_of before) (chunks_of (s1 ++ s2))) in E as [Hle' E];
    [|by left].
  split; [done|cbn; by rewrite E|cbn; lia|done|done|]. apply chunk_at_intro; [by rewrite Ec, app_assoc|done|].
  intros x Hx. specialize (H2 x Hx). lia.
Qed.

(** The slices of the first and of the last chunk. *)
Lemma piece_slice p m q :
  piece (p ++ m ++ q) → Chunk.slice (chunk_of (p ++ m ++ q)) (str_len p) (str_len (p ++ m)) = Some (slice_of m).
Proof. intros (Hsc & Hl & _). unfold Chunk.slice. rewrite as_slice_ok. by apply chunk_slice_ok. Qed.

Lemma item_end w v c a b before after :
  at_offset w v c a b before after →
  Cursor.item (c_chunks c) = Some (head (chunks_of after)) ∧
  Cursor.start (c_chunks c) = str_len (concat before) ∧
  Cursor.end_ (c_chunks c) = Some (str_len (concat before ++ match after with x :: _ => x | [] => [] end)).
Proof.
  intros H. pose proof (at_dims _ _ _ _ _ _ _ H) as (F1 & F2 & Hs & Hd). destruct H as [_ _ _ Hc _ _].
  split_and!.
  - by apply (Cursor.item_ok _ (chunks_of before)).
  - unfold Cursor.start. rewrite (Cursor.p_position _ _ _ Hc). exact (Hd Z _ _).
  - rewrite (Cursor.end_ok _ _ _ Hc). destruct after as [|x after]; cbn [chunks_of map].
    + rewrite !app_nil_r. f_equal. exact (Hd Z _ _).
    + rewrite <- chunks_of_snoc, dim_pieces.
      * rewrite concat_app. cbn [concat]. by rewrite app_nil_r.
      * apply Forall_app. inversion F2; subst. split; [done|]. by constructor; [|constructor].
      * rewrite concat_app. cbn [concat] in *. rewrite app_nil_r. rewrite app_assoc in Hs. by apply sized_app in Hs as [? _].
Qed.

(** What a slice takes of the current chunk and where it ends. *)
Inductive first_part (m d : str) (before after : list str) (p : str) : option str → str → Prop :=
  | part_inside q rest : after = (p ++ m ++ q) :: rest → first_part m d before after p (Some m) []
  | part_beyond q rest m' : after = (p ++ q) :: rest → m = q ++ m' → m' ≠ [] →
      first_part m d before after p (Some q) m'
  | part_end : after = [] → m = [] → d = [] → first_part m d before after p None [].

Lemma start_slice_ok w v c a m d before after :
  at_offset w v c a (m ++ d) before after →
  ∃ p o m', a = concat before ++ p ∧ first_part m d before after p o m' ∧
    start_slice c (str_len (a ++ m)) = Some (slice_of <$> o) ∧
    m = default [] o ++ m' ∧ (o = None → before ++ after = before) ∧
    ∃ stop, Cursor.end_ (c_chunks c) = Some stop ∧ (stop <? str_len (a ++ m)) = negb (bool_decide (m' = [])).
Proof.
  intros H. destruct (item_end _ _ _ _ _ _ _ H) as (Hi & Hst & He).
  pose proof (at_dims _ _ _ _ _ _ _ H) as (F1 & F2 & Hs & _).
  pose proof H as [_ _ _ _ Ho Ha]. unfold start_slice. rewrite Hi, He, Hst, Ho. cbn [mbind option_bind].
  destruct Ha as [p q rest -> -> Eb| -> -> Eb].
  - cbn [chunks_of map head mbind option_bind]. inversion F2 as [|? ? Hp _]; subst.
    assert (str_len (concat before ++ p) -w64 str_len (concat before) = str_len p) as -> by lens.
    destruct (Z.le_gt_cases (str_len m) (str_len q)) as [Hle|Hgt].
    + destruct (app_by_len q (concat rest) m d) as (q' & -> & ->); [done|done|].
      exists p, (Some m), []. split_and!; [done|by econstructor| |by rewrite app_nil_r|done|].
      * assert (Z.min (str_len ((concat before ++ p) ++ m)) (str_len (concat before ++ p ++ m ++ q')) -w64 str_len (concat before)
          = str_len (p ++ m)) as -> by lens.
        by rewrite piece_slice.
      * eexists. split; [done|]. rewrite bool_decide_eq_true_2 by done. cbn. apply Z.ltb_ge. lens.
    + destruct (app_by_len m d q (concat rest)) as (m' & -> & E); [done|lia|].
      assert (m' ≠ []) as Hne by (intros ->; rewrite app_nil_r in Hgt; lia).
      exists p, (Some q), m'. split_and!; [done|by eapply part_beyond| |done|done|].
      * assert (Z.min (str_len ((concat before ++ p) ++ q ++ m')) (str_len (concat before ++ p ++ q)) -w64 str_len (concat before)
          = str_len (p ++ q)) as -> by lens.
        rewrite <- (app_nil_r (p ++ q)) in Hp |- * at 1. rewrite <- app_assoc in Hp |- *. by rewrite piece_slice.
      * eexists. split; [done|]. rewrite bool_decide_eq_false_2 by done. cbn. apply Z.ltb_lt.
        assert (str_len m' ≠ 0) by (intros E0; by apply str_len_zero in E0). lens.
  - apply app_nil in Eb as [-> ->]. exists [], None, []. rewrite !app_nil_r. cbn [chunks_of map head mbind option_bind].
    split_and!; [done|by apply part_end|done|done|done|]. eexists. split; [done|]. cbn. apply Z.ltb_ge. lens.
Qed.

(** After a part of the current chunk the cursor is in or at the end of the same chunk. *)
Lemma stays w v c a m d before after p o :
  at_offset w v c a (m ++ d) before after → a = concat before ++ p → first_part m d before after p o [] →
  at_offset w v (mk_cursor (c_rope c) (c_chunks c) (str_len (a ++ m))) (a ++ m) d before after.
Proof.
  intros H -> Hp. pose proof (at_concat _ _ _ _ _ _ _ H) as Ec. destruct H as [Hr Ht Hv Hc _ _].
  split; [done..|]. apply chunk_at_intro; [by rewrite Ec, !app_assoc|cbn; lens|].
  intros x Hx. inversion Hp as [q rest Eaf| |Eaf]; subst; [|done|done]. injection Hx as <-. lens.
Qed.

Lemma next_chunk w v c a b before x rest :
  at_offset w v c a b before (x :: rest) →
  ∃ c', Cursor.next (c_chunks c) = Some c' ∧
    Cursor.positioned c' (chunks_of (before ++ [x])) (chunks_of rest) ∧ Cursor.c_tree c' = c_rope c ∧
    TreeWeight.ahead c' ≤ v.
Proof.
  intros [Hr Ht Hv Hc _ _]. destruct (Cursor.next_ok (c_chunks c) (chunks_of before) (chunk_of x) (chunks_of rest) Hc)
    as (c' & E & Hc'). exists c'. split; [done|]. rewrite chunks_of_snoc. split; [done|].
  apply (TreeWeight.next_weight _ _ (chunks_of before) (chunks_of (x :: rest))) in E as [Hle E]; [|by left].
  split; [congruence|lia].
Qed.

(** The chunks between the first and the last one, and the last one. *)
Lemma whole_chunks w (r : t) (c1 : Cursor.t Chunk.t chunk_summary Z) before x rest a p q m' d :
  spells w r (before ++ x :: rest) → Cursor.positioned c1 (chunks_of (before ++ [x])) (chunks_of rest) →
  Cursor.c_tree c1 = r → x = p ++ q → a = concat before ++ p → concat rest = m' ++ d →
  let k := str_len (a ++ q ++ m') in
  dim Z (chunks_of (before ++ [x])) ≤ k ∧
  ∀ c2 mid rest', Cursor.positioned c2 (chunks_of ((before ++ [x]) ++ mid)) (chunks_of rest') →
    Cursor.c_tree c2 = r → rest = mid ++ rest' →
    Cursor.stopped (D := Z) (Z.compare k) Right (chunks_of (before ++ [x])) (chunks_of mid) (chunks_of rest') →
    (∃ o, end_slice c2 k = Some (slice_of <$> o) ∧ m' = concat mid ++ default [] o ∧ (∀ y, o = Some y → scalars y ∧ str_len y ≤ 128)) ∧
    at_offset w (TreeWeight.ahead c2) (mk_cursor r c2 k) (a ++ q ++ m') d ((before ++ [x]) ++ mid) rest'.
Proof.
  intros Hr Hc Ht -> -> Er k.
  assert (before ++ (p ++ q) :: rest = (before ++ [p ++ q]) ++ rest) as Es by (by rewrite <- app_assoc).
  rewrite Es in Hr. pose proof Hr as (_ & F & Hs). apply Forall_app in F as [F1 F2].
  rewrite concat_app in Hs.
  assert (dim Z (chunks_of (before ++ [p ++ q])) = str_len (concat (before ++ [p ++ q]))) as Ed.
  { rewrite dim_pieces; [done|done|]. by apply sized_app in Hs as [? _]. }
  split.
  { rewrite Ed. subst k. lens. }
  intros c2 mid rest' Hc2 Ht2 -> Hst.
  destruct (stopped_right w r _ k (before ++ [p ++ q]) mid rest' Hr) as [H1 H2]; [done|done|subst k; lens|].
  assert (chunk_at ((before ++ [p ++ q]) ++ mid) rest' ((concat before ++ p) ++ q ++ m') d) as Hat.
  { apply chunk_at_intro; [|done|].
    - rewrite concat_app in Er. rewrite !concat_app. cbn [concat]. rewrite app_nil_r, <- !app_assoc. by rewrite Er.
    - intros y Hy. specialize (H2 y Hy). subst k. lia. }
  split.
  - unfold end_slice. rewrite (Cursor.item_ok _ _ _ Hc2). cbn [mbind option_bind].
    unfold Cursor.start. rewrite (Cursor.p_position _ _ _ Hc2).
    assert (Forall piece mid ∧ Forall piece rest') as [Fm Fr] by (by apply Forall_app in F2).
    rewrite dim_pieces; [|by apply Forall_app|rewrite concat_app in *; lens].
    change (pos Z) with str_len.
    destruct Hat as [p' q' rest'' -> Ea _| -> Ea _].
    + exists (Some p'). cbn [chunks_of map head fmap option_fmap option_map].
      assert (k -w64 str_len (concat ((before ++ [p ++ q]) ++ mid)) = str_len p') as ->.
      { subst k. rewrite Ea. clear -Hs. lens. }
      inversion Fr as [|? ? Hp' _]; subst.
      pose proof (piece_slice [] p' q' Hp') as Esl. cbn [app str_len] in Esl. rewrite Esl. clear Esl.
      split_and!; [done| |].
      * rewrite !concat_app in Ea. cbn [concat] in Ea. rewrite app_nil_r, <- !app_assoc in Ea.
        by apply app_inv_head, app_inv_head, app_inv_head in Ea.
      * intros y [= <-]. destruct Hp' as (Hsc & Hl & _). apply scalars_app in Hsc as [? _]. split; [done|]. lens.
    + exists None. cbn. split_and!; [done| |done].
      rewrite app_nil_r. rewrite !concat_app in Ea. cbn [concat] in Ea. rewrite app_nil_r, <- !app_assoc in Ea.
      by apply app_inv_head, app_inv_head, app_inv_head in Ea.
  - split; [|exact Ht2|done|exact Hc2|done|exact Hat]. by rewrite <- app_assoc.
Qed.

Lemma push_slice_ok w r s o :
  holds w r s → (∀ y, o = Some y → scalars y ∧ str_len y ≤ 128) → sized (s ++ default [] o) →
  ∃ r', push_slice r (slice_of <$> o) = Some r' ∧ holds (w + 1) r' (s ++ default [] o).
Proof.
  intros (ss & Hr & <-) Ho Hs. destruct o as [y|]; cbn in *.
  - destruct (Ho y eq_refl). destruct (push_chunk_ok w r ss y) as (r' & E & Hr'); [done..|]. by exists r'.
  - exists r. split; [done|]. exists ss. rewrite app_nil_r. split; [|done]. eapply spells_weaken; [done|lia].
Qed.

Lemma first_part_sized w v c a m d before after p o m' :
  at_offset w v c a (m ++ d) before after → first_part m d before after p o m' →
  (∀ y, o = Some y → scalars y ∧ str_len y ≤ 128) ∧ sized (a ++ m ++ d) ∧ scalars (m ++ d).
Proof.
  intros H Hp. pose proof (at_dims _ _ _ _ _ _ _ H) as (F1 & F2 & Hs & _).
  pose proof (at_concat _ _ _ _ _ _ _ H) as Ec. rewrite concat_app in Ec.
  split; [|split; [by rewrite <- Ec|]].
  - intros y ->. inversion Hp as [q rest Ea|q rest m0 Ea|]; subst.
    + inversion F2 as [|? ? (Hsc & Hl & _)]; subst. apply scalars_app in Hsc as [_ Hsc]. apply scalars_app in Hsc as [? _].
      split; [done|]. lens.
    + inversion F2 as [|? ? (Hsc & Hl & _)]; subst. apply scalars_app in Hsc as [_ Hsc]. split; [done|]. lens.
  - assert (scalars (concat (before ++ after))) as Hsc by (apply pieces_scalars; by apply Forall_app).
    rewrite concat_app, Ec in Hsc. by apply scalars_app in Hsc as [_ ?].
Qed.

Lemma holds_weaken w w' r s : holds w r s → w ≤ w' → holds w' r s.
Proof. intros (ss & Hr & Es) Hle. exists ss. split; [by eapply spells_weaken|done]. Qed.
Lemma at_weaken w v v' c a b before after :
  at_offset w v c a b before after → v ≤ v' → at_offset w v' c a b before after.
Proof. intros [? ? ? ? ? ?] Hle. split; [done|done|lia|done..]. Qed.

(** The slice and what is left do not weigh more than what was ahead, but for the
    chunks that are cut. *)
Lemma cursor_slice_ok w v c a m d before after :
  at_offset w v c a (m ++ d) before after → w < 6 ^ 16 →
  ∃ c' r v' before' after', cursor_slice c (str_len (a ++ m)) = Some (c', r) ∧ holds (v - v' + 3) r m ∧
    at_offset w v' c' (a ++ m) d before' after' ∧ c_rope c' = c_rope c ∧ 0 ≤ v' ≤ v.
Proof.
  intros H Hw. unfold cursor_slice. rewrite (assert_ahead_ok _ _ _ _ _ _ _ _ H). cbn [mbind option_bind].
  destruct (start_slice_ok _ _ _ _ _ _ _ _ H) as (p & o & m' & Ea & Hp & -> & Em & _ & stop & -> & Estop).
  cbn [mbind option_bind]. rewrite Estop.
  destruct (first_part_sized _ _ _ _ _ _ _ _ _ _ _ H Hp) as (Ho & Hs & Hsc).
  pose proof (TreeWeight.ahead_nonneg (c_chunks c)). pose proof (o_ahead _ _ _ _ _ _ _ H) as Hv.
  destruct (push_slice_ok 0 new [] o holds_new Ho) as (r1 & -> & Hr1).
  { rewrite Em in Hs. clear -Hs. destruct o; cbn [default from_option id app] in *; [lens|done]. }
  cbn [mbind option_bind app]. destruct (bool_decide_reflect (m' = [])) as [->|Hne]; cbn [negb].
  - eexists _, r1, v, before, after. rewrite app_nil_r in Em. split; [done|].
    split; [|split; [by eapply stays|split; [done|lia]]].
    eapply holds_weaken; [|instantiate (1 := 0 + 1); lia]. by rewrite Em.
  - inversion Hp as [|q rest m0 Eaf Emq _|]; subst; [done| |done]. cbn [default from_option id] in *.
    destruct (next_chunk _ _ _ _ _ _ _ _ H) as (c1 & -> & Hc1 & Ht1 & Hv1). cbn [mbind option_bind].
    assert (concat rest = m' ++ d) as Er.
    { pose proof (at_concat _ _ _ _ _ _ _ H) as Ec. rewrite concat_app in Ec. cbn [concat] in Ec.
      rewrite <- !app_assoc in Ec. by apply app_inv_head, app_inv_head, app_inv_head in Ec. }
    destruct (whole_chunks w (c_rope c) c1 before (p ++ q) rest (concat before ++ p) p q m' d
      (o_rope _ _ _ _ _ _ _ H) Hc1 Ht1 eq_refl eq_refl Er) as [Hk Hwhole].
    destruct (TreeWeight.held_slice (Z.compare (str_len ((concat before ++ p) ++ q ++ m'))) Right c1
      (chunks_of (before ++ [p ++ q])) (chunks_of rest)) as (c2 & x & mid & rest' & E & Ht2 & Hx & El & Hst & Hc2).
    { by left. }
    { destruct (Z.compare_spec (str_len ((concat before ++ p) ++ q ++ m')) (dim Z (chunks_of (before ++ [p ++ q]))));
        [done|lia|done]. }
    rewrite E. cbn [mbind option_bind]. apply chunks_split in El as (s1 & s2 & -> & -> & ->).
    rewrite <- chunks_of_app in Hc2.
    destruct (Hwhole c2 s1 s2 Hc2) as [(o2 & Ee & Em & Ho2) Hat]; [congruence|done|done|].
    pose proof (TreeWeight.ahead_nonneg c2) as Hv2.
    assert (TreeWeight.ahead c1 - TreeWeight.ahead c2 < 6 ^ 16) as Hlt.
    { enough (TreeWeight.ahead c1 ≤ w) by lia.
      pose proof (TreeWeight.ready_shaped c1 (chunks_of (before ++ [p ++ q])) (chunks_of (s1 ++ s2))) as [_ Hle].
      { by left. }
      rewrite Ht1 in Hle. pose proof (weight_at _ _ _ (o_rope _ _ _ _ _ _ _ H)). lia. }
    assert (holds (TreeWeight.ahead c1 - TreeWeight.ahead c2) x (concat s1)) as Hx2.
    { exists s1. split; [|done]. split; [done|].
      pose proof (at_dims _ _ _ _ _ _ _ H) as (_ & F2 & Hs2 & _).
      inversion F2 as [|? ? _ F3]; subst. apply Forall_app in F3 as [F3 _]. split; [done|]. rewrite concat_app in *. lens. }
    destruct (rope_append_ok (0 + 1) _ r1 x q (concat s1) Hr1 Hx2 Hlt) as (r2 & -> & Hr2); [rewrite Em in Hs; lens|].
    cbn [mbind option_bind]. rewrite Ee. cbn [mbind option_bind].
    destruct (push_slice_ok _ r2 _ o2 Hr2 Ho2) as (r3 & -> & Hr3); [rewrite Em in Hs; lens|].
    cbn [mbind option_bind]. eexists _, r3, (TreeWeight.ahead c2), _, _. split; [done|].
    pose proof (TreeWeight.weight_nonneg x). pose proof (proj2 Hx).
    split; [|split; [exact Hat|split; [done|lia]]].
    rewrite Em. rewrite <- app_assoc in Hr3. eapply holds_weaken; [exact Hr3|lia].
Qed.

Lemma cursor_suffix_ok w v c a b before after :
  at_offset w v c a b before after → w < 6 ^ 16 → ∃ r, cursor_suffix c = Some r ∧ holds (v + 3) r b.
Proof.
  intros H Hw. unfold cursor_suffix. pose proof (at_concat _ _ _ _ _ _ _ H) as Ec.
  assert ((SumTree.extent (c_rope c) : Z) = str_len (a ++ b)) as ->.
  { rewrite <- Ec. exact (extent_ok (D := Z) w (c_rope c) _ (o_rope _ _ _ _ _ _ _ H)). }
  rewrite <- (app_nil_r b) in H. destruct (cursor_slice_ok _ _ _ _ _ _ _ _ H Hw) as (c' & r & v' & ? & ? & -> & Hr & _ & _ & ?).
  exists r. split; [done|]. eapply holds_weaken; [done|lia].
Qed.

Lemma slice_range_ok w r a m d :
  holds w r (a ++ m ++ d) → w < 6 ^ 16 →
  ∃ r', slice r (str_len a) (str_len (a ++ m)) = Some r' ∧ holds (w + 3) r' m.
Proof.
  intros Hr Hw. unfold slice. destruct (cursor_at_ok w r [] (a ++ m ++ d) Hr Hw) as (c & b1 & a1 & Ec & Hc & _).
  cbn [str_len] in Ec. rewrite Ec. cbn [mbind option_bind].
  destruct (cursor_seek_forward_ok _ _ _ _ _ _ _ _ Hc) as (c1 & b2 & a2 & E1 & Hc1 & _).
  cbn [app] in E1, Hc1. rewrite E1. cbn [mbind option_bind].
  destruct (cursor_slice_ok _ _ _ _ _ _ _ _ Hc1 Hw) as (c2 & r' & v' & ? & ? & -> & Hr' & _ & _ & ?).
  exists r'. split; [done|]. eapply holds_weaken; [done|lia].
Qed.

Lemma holds_text w r s : holds w r s → scalars s ∧ sized s.
Proof. intros (ss & (_ & F & Hs) & <-). split; [by apply pieces_scalars|done]. Qed.

Lemma replace_ok w r a m d u :
  holds w r (a ++ m ++ d) → w + 3 < 6 ^ 16 → scalars u → sized (a ++ u ++ d) →
  ∃ r', replace r (str_len a) (str_len (a ++ m)) (encode u) = Some r' ∧
    holds (w + 2 * str_len u + 8) r' (a ++ u ++ d).
Proof.
  intros Hr Hw3 Hu Hs. assert (w < 6 ^ 16) as Hw by lia. unfold replace.
  destruct (holds_text _ _ _ Hr) as [Hsc Hsz].
  destruct (cursor_at_ok w r [] (a ++ m ++ d) Hr Hw) as (c & b1 & a1 & Ec & Hc & _).
  cbn [str_len] in Ec. rewrite Ec. cbn [mbind option_bind].
  destruct (cursor_slice_ok _ _ _ _ _ _ _ _ Hc Hw) as (c1 & x & v1 & b2 & a2 & E1 & Hx & Hc1 & _ & Hv1).
  cbn [app] in E1, Hc1. rewrite E1. cbn [mbind option_bind].
  destruct (rope_append_ok 0 _ new x [] a holds_new Hx) as (n & -> & Hn); [lia|by apply sized_app in Hsz as [? _]|].
  cbn [mbind option_bind app] in *.
  destruct (cursor_seek_forward_ok _ _ _ _ _ _ _ _ Hc1) as (c2 & b3 & a3 & -> & Hc2 & _). cbn [mbind option_bind].
  destruct (rope_push_ok _ n a u Hn Hu) as (n' & -> & Hn'); [rewrite app_assoc in Hs; by apply sized_app in Hs as [? _]|].
  cbn [mbind option_bind].
  destruct (cursor_suffix_ok _ _ _ _ _ _ _ Hc2 Hw) as (y & -> & Hy). cbn [mbind option_bind].
  destruct (rope_append_ok _ _ n' y (a ++ u) d Hn' Hy) as (r' & E & Hr'); [lia|by rewrite <- app_assoc|].
  exists r'. split; [done|]. rewrite <- app_assoc in Hr'. eapply holds_weaken; [done|lia].
Qed.

(** *** Measuring with the cursor *)
Lemma cursor_summary_ok {D} `{TextPosition D} w v c a m d before after :
  at_offset w v c a (m ++ d) before after → w < 6 ^ 16 →
  ∃ c' before' after', cursor_summary (D := D) c (str_len (a ++ m)) = Some (c', pos D m) ∧
    at_offset w v c' (a ++ m) d before' after' ∧ c_rope c' = c_rope c.
Proof.
  intros Ho Hw. unfold cursor_summary. rewrite (assert_ahead_ok _ _ _ _ _ _ _ _ Ho). cbn [mbind option_bind].
  destruct (start_slice_ok _ _ _ _ _ _ _ _ Ho) as (p & o & m' & Ea & Hp & -> & Em & _ & stop & -> & Estop).
  cbn [mbind option_bind].
  destruct (first_part_sized _ _ _ _ _ _ _ _ _ _ _ Ho Hp) as (Hpart & Hs & Hsc).
  assert (∀ s o, (∀ y, o = Some y → scalars y ∧ str_len y ≤ 128) → sized (s ++ default [] o) →
    match slice_of <$> o with
    | Some chunk => d ← from_chunk chunk; Some (td_add_assign (pos D s) d)
    | None => Some (pos D s)
    end = Some (pos D (s ++ default [] o))) as Hadd.
  { intros s [y|] Hy Hsy; cbn [fmap option_fmap option_map default from_option id] in *; [|by rewrite app_nil_r].
    rewrite pos_chunk by (by apply Hy). cbn [mbind option_bind]. by rewrite pos_add. }
  rewrite pos_nil. rewrite (Hadd [] o Hpart) by (rewrite Em in Hs; clear -Hs; destruct o; cbn [default from_option id app] in *; [lens|done]).
  cbn [mbind option_bind app]. rewrite Estop.
  destruct (bool_decide_reflect (m' = [])) as [->|Hne]; cbn [negb].
  - eexists _, before, after. rewrite app_nil_r in Em. rewrite <- Em. split; [done|]. split; [by eapply stays|done].
  - inversion Hp as [|q rest m0 Eaf Emq _|]; subst; [done| |done]. cbn [default from_option id] in *.
    destruct (next_chunk _ _ _ _ _ _ _ _ Ho) as (c1 & -> & Hc1 & Ht1 & Hv1). cbn [mbind option_bind].
    assert (concat rest = m' ++ d) as Er.
    { pose proof (at_concat _ _ _ _ _ _ _ Ho) as Ec. rewrite concat_app in Ec. cbn [concat] in Ec.
      rewrite <- !app_assoc in Ec. by apply app_inv_head, app_inv_head, app_inv_head in Ec. }
    destruct (whole_chunks w (c_rope c) c1 before (p ++ q) rest (concat before ++ p) p q m' d
      (o_rope _ _ _ _ _ _ _ Ho) Hc1 Ht1 eq_refl eq_refl Er) as [Hk Hwhole].
    destruct (Cursor.summary_ok (Z.compare (str_len ((concat before ++ p) ++ q ++ m'))) Right D c1
      (chunks_of (before ++ [p ++ q])) (chunks_of rest)) as (c2 & mid & rest' & E & El & Hst & Hc2).
    { by left. }
    { destruct (Z.compare_spec (str_len ((concat before ++ p) ++ q ++ m')) (dim Z (chunks_of (before ++ [p ++ q]))));
        [done|lia|done]. }
    rewrite E. cbn [mbind option_bind]. 
    apply (TreeWeight.summary_weight _ _ _ _ _ (chunks_of (before ++ [p ++ q])) (chunks_of rest)) in E as [Hle Et]; [|by left].
    apply chunks_split in El as (s1 & s2 & -> & -> & ->). rewrite <- chunks_of_app in Hc2.
    destruct (Hwhole c2 s1 s2 Hc2) as [(o2 & Ee & Em & Ho2) Hat]; [congruence|done|done|].
    pose proof (at_dims _ _ _ _ _ _ _ Ho) as (_ & F2 & Hs2 & _). inversion F2 as [|? ? _ F3]; subst.
    apply Forall_app in F3 as [F3 _].
    assert (sized (q ++ concat s1 ++ default [] o2)) as Hsm by (clear -Hs; lens).
    rewrite dim_pieces by (done || (clear -Hsm; lens)).
    rewrite pos_add by (clear -Hsm; lens). rewrite Ee. cbn [mbind option_bind].
    rewrite (Hadd _ o2 Ho2) by (clear -Hsm; lens). cbn [mbind option_bind]. rewrite <- (app_assoc q (concat s1)).
    eexists _, _, _. split; [done|]. split; [eapply at_weaken; [exact Hat|lia]|done].
Qed.

(** *** Searching for the chunk of a position *)
Inductive found_piece {D} `{TextPosition D} (target : D → comparison) (b : bias) (ss : list str) :
    D * D * option Chunk.t → Prop :=
  | piece_found before x rest :
      ss = before ++ x :: rest → before = [] ∨ skips (target (pos D (concat before))) b = true →
      skips (target (pos D (concat before ++ x))) b = false →
      found_piece target b ss (pos D (concat before), pos D (concat before ++ x), Some (chunk_of x))
  | no_piece :
      ss = [] ∨ skips (target (pos D (concat ss))) b = true →
      found_piece target b ss (pos D (concat ss), pos D (concat ss), None).

Lemma find_pieces {D} `{TextPosition D} (target : D → comparison) b w r ss :
  spells w r ss → ∃ f, TreeFind.find target b r = Some f ∧ found_piece target b ss f.
Proof.
  intros Hr. pose proof (spells_valid _ _ _ Hr) as Hv. pose proof Hr as (_ & F & Hs).
  destruct (TreeFind.find_found target b r (chunks_of ss) (spells_represents _ _ _ Hr) Hv)
    as (start & end_ & o & Hf & E & _).
  exists (start, end_, snd <$> o). split; [done|]. clear E.
  destruct Hf as [l1 x l2 (El & Hreach & Hstop)|Hreach].
  - apply chunks_split in El as (s1 & s2 & -> & -> & E2). destruct s2 as [|y s2]; [done|].
    injection E2 as -> _. apply Forall_app in F as [F1 F2]. inversion F2 as [|? ? Fy _]; subst.
    assert (sized (concat s1 ++ y)) as Hsy by (clear -Hs; lens).
    assert (Forall piece (s1 ++ [y])) as Fsy by (apply Forall_app; split; [done|by constructor; [|constructor]]).
    assert (concat (s1 ++ [y]) = concat s1 ++ y) as Ey by (rewrite concat_app; cbn; by rewrite app_nil_r).
    unfold TreeFind.passed, TreeFind.reached in *. cbn [app] in *. unfold TreeFind.passed in *.
    assert (dim D (chunks_of s1 ++ [chunk_of y]) = pos D (concat s1 ++ y)) as E1
      by (by rewrite <- chunks_of_snoc, dim_pieces, Ey by (done || by rewrite Ey)).
    assert (dim D (chunks_of s1) = pos D (concat s1)) as E2 by (apply dim_pieces; [done|clear -Hs; lens]).
    rewrite E1 in Hstop |- *. rewrite E2 in Hreach |- *. cbn [fmap option_fmap option_map snd].
    eapply piece_found; [done| |done]. destruct Hreach as [Hn|Hp]; [left; by destruct s1|by right].
  - rewrite dim_pieces by done. apply no_piece. unfold TreeFind.reached, TreeFind.passed in Hreach.
    destruct Hreach as [Hn|Hp]; [left; by destruct ss|right]. by rewrite dim_pieces in Hp.
Qed.

(** With the left bias the chunk found for an offset reaches up to it. *)
Lemma find_offset_ok w r s n :
  holds w r s → 0 ≤ n →
  ∃ f, find_offset r n = Some f ∧
    ((s = [] ∨ str_len s < n) ∧ f = (str_len s, str_len s, None) ∨
     ∃ a x b, s = a ++ x ++ b ∧ piece x ∧ sized s ∧ (a = [] ∨ str_len a < n) ∧ n ≤ str_len (a ++ x) ∧
       f = (str_len a, str_len (a ++ x), Some (chunk_of x))).
Proof.
  intros (ss & Hr & <-) Hn. pose proof Hr as (_ & F & Hs).
  destruct (find_pieces (D := Z) (Z.compare n) Left _ _ _ Hr) as (f & E & Hf). exists f. split; [done|].
  assert (∀ k, skips (Z.compare n k) Left = (k <? n)) as Hskip.
  { intros k. destruct (Z.compare_spec n k) as [->|Hlt|Hgt]; cbn; symmetry; [apply Z.ltb_irrefl|apply Z.ltb_ge; lia|by apply Z.ltb_lt]. }
  change (pos Z) with str_len in Hf. destruct Hf as [before x rest -> Hb Hx|Hp].
  - right. rewrite Hskip in Hx. apply Z.ltb_ge in Hx.
    exists (concat before), x, (concat rest). rewrite concat_app in *. cbn [concat] in *.
    apply Forall_app in F as [_ F]. inversion F; subst. split_and!; try done.
    destruct Hb as [->|Hb]; [by left|right]. rewrite Hskip in Hb. by apply Z.ltb_lt in Hb.
  - left. split; [|done]. destruct Hp as [->|Hp]; [by left|right]. rewrite Hskip in Hp. by apply Z.ltb_lt in Hp.
Qed.

Lemma chunk_boundary x n : piece x → 0 ≤ n < 2 ^ 32 → Chunk.is_char_boundary (chunk_of x) n = Utf8.is_char_boundary (encode x) n.
Proof. intros (Hsc & Hl & _) Hn. by apply (is_char_boundary_ok x n). Qed.

(** A boundary of the whole text is one of the chunk that contains it. *)
Lemma boundary_in_piece a x b n :
  scalars (a ++ x ++ b) → str_len a ≤ n ≤ str_len (a ++ x) →
  Utf8.is_char_boundary (encode (a ++ x ++ b)) n = Utf8.is_char_boundary (encode x) (n - str_len a).
Proof.
  intros Hsc Hn. pose proof (str_len_nonneg a).
  assert (scalars x) as Hx by (apply scalars_app in Hsc as [_ Hsc]; by apply scalars_app in Hsc as [? _]).
  rewrite str_len_app in Hn. apply eq_true_iff_eq. rewrite !boundary_spec by (done || lia). split.
  - intros (p & q & E & ->). destruct (app_by_len p q a (x ++ b)) as (p' & -> & E'); [done|lia|].
    rewrite str_len_app in *. destruct (app_by_len x b p' q) as (q' & -> & _); [done|lia|].
    exists p', q'. split; [done|lia].
  - intros (p & q & -> & Hp). exists (a ++ p), (q ++ b). rewrite str_len_app. split; [by rewrite <- !app_assoc|lia].
Qed.

Lemma is_char_boundary_rope w r s n :
  holds w r s → 0 ≤ n < 2 ^ 64 → is_char_boundary r n = Some (Utf8.is_char_boundary (encode s) n).
Proof.
  intros Hr Hn. unfold is_char_boundary. pose proof Hr as (ss & Hss & Ec). destruct (holds_text _ _ _ Hr) as [Hsc Hs].
  rewrite (spells_empty _ _ _ Hss).
  destruct (bool_decide_reflect (ss = [])) as [->|Hne].
  { subst s. f_equal. unfold Utf8.is_char_boundary. change (Utf8.len (encode (concat []))) with 0.
    destruct (Z.eqb_spec n 0); [done|]. destruct (Z.leb_spec 0 n); [done|lia]. }
  assert (s ≠ []) as Hse. { subst s. intros E. apply Hne. apply concat_nil_pieces; [apply Hss|done]. }
  destruct (find_offset_ok w r s n Hr) as (f & -> & Hf); [lia|]. cbn [mbind option_bind].
  destruct Hf as [[[?|Hlt] ->]|(a & x & b & -> & Hx & _ & Ha & Hle & ->)]; [done| |].
  - f_equal. unfold Utf8.is_char_boundary. pose proof (str_len_nonneg s). rewrite len_encode.
    destruct (Z.eqb_spec n 0); [lia|]. rewrite (proj2 (Z.leb_le _ _)) by lia. symmetry. apply Z.eqb_neq. lia.
  - f_equal. assert (str_len a ≤ n) as Han by (destruct Ha as [->|]; [cbn; lia|lia]).
    pose proof (str_len_nonneg a).
    assert (n - str_len a < 2 ^ 32) by (rewrite str_len_app in Hle; destruct Hx as (_ & Hl & _); lia).
    rewrite wrap64_id by width. rewrite chunk_boundary by (done || lia). by rewrite boundary_in_piece.
Qed.

Lemma assert_char_boundary_rope w r s n PANIC :
  holds w r s → 0 ≤ n < 2 ^ 64 →
  assert_char_boundary PANIC r n
  = if Utf8.is_char_boundary (encode s) n then Some true else if PANIC then None else Some false.
Proof.
  intros Hr Hn. pose proof (is_char_boundary_rope _ _ _ _ Hr Hn) as Hb. unfold is_char_boundary in Hb.
  unfold assert_char_boundary. destruct (SumTree.is_empty r) eqn:Ee; cbn [andb].
  - injection Hb as Hb. destruct (Z.eqb_spec n 0) as [->|Hn0]; [by rewrite <- Hb|].
    rewrite <- Hb. destruct (find_offset_ok w r s n Hr) as (f & -> & Hf); [lia|]. cbn [mbind option_bind].
    destruct Hf as [[_ ->]|(a & x & b & -> & (_ & _ & Hx) & _)]; [done|exfalso].
    destruct Hr as (ss & Hss & Ec). rewrite (spells_empty _ _ _ Hss) in Ee. apply bool_decide_eq_true in Ee as ->.
    cbn in Ec. symmetry in Ec. apply app_nil in Ec as [_ Ec]. by apply app_nil in Ec as [? _].
  - destruct (find_offset r n) as [[[start end_] item]|]; [|done]. cbn [mbind option_bind] in *.
    injection Hb as <-. by destruct item.
Qed.

(** An offset that is not a boundary is inside of a character. *)
Lemma inside_char s n :
  scalars s → 0 ≤ n ≤ str_len s → Utf8.is_char_boundary (encode s) n = false →
  ∃ a c b, s = a ++ c :: b ∧ str_len a < n < str_len a + len_utf8 c.
Proof.
  intros Hsc Hn Hb. assert (n ≠ str_len s) as Hne.
  { intros ->. rewrite <- (app_nil_r s) in Hb at 1. rewrite boundary_app in Hb; [done|by rewrite app_nil_r]. }
  destruct (split_point s n) as (a & c & b & -> & Hc); [lia|]. exists a, c, b. split; [done|].
  assert (n ≠ str_len a); [|lia]. intros ->. by rewrite boundary_app in Hb.
Qed.
Lemma floor_in_piece a x b n :
  scalars (a ++ x ++ b) → str_len a ≤ n ≤ str_len (a ++ x) →
  Utf8.floor_char_boundary (encode (a ++ x ++ b)) n = str_len a + Utf8.floor_char_boundary (encode x) (n - str_len a) ∧
  Utf8.ceil_char_boundary (encode (a ++ x ++ b)) n = str_len a + Utf8.ceil_char_boundary (encode x) (n - str_len a).
Proof.
  intros Hsc Hn. pose proof (boundary_in_piece _ _ _ _ Hsc Hn) as Hb. pose proof (str_len_nonneg a).
  assert (scalars x) as Hx by (apply scalars_app in Hsc as [_ Hsc]; by apply scalars_app in Hsc as [? _]).
  rewrite str_len_app in Hn. destruct (Utf8.is_char_boundary (encode x) (n - str_len a)) eqn:E.
  - destruct (floor_ceil_boundary (encode (a ++ x ++ b)) n ltac:(lia) Hb) as [-> ->].
    destruct (floor_ceil_boundary (encode x) (n - str_len a) ltac:(lia) E) as [-> ->]. lia.
  - destruct (inside_char x (n - str_len a)) as (p & c & q & -> & Hc); [done|lia|done|].
    assert (a ++ (p ++ c :: q) ++ b = (a ++ p) ++ c :: (q ++ b)) as Es by (by rewrite <- !app_assoc).
    rewrite Es in Hsc |- *. rewrite !floor_spec, !ceil_spec by (done || (rewrite ?str_len_app; lia)).
    rewrite str_len_app. lia.
Qed.

Lemma floor_ceil_rope w r s n :
  holds w r s → 0 ≤ n < 2 ^ 64 →
  floor_char_boundary r n = Some (Utf8.floor_char_boundary (encode s) n) ∧
  ceil_char_boundary r n = Some (Utf8.ceil_char_boundary (encode s) n).
Proof.
  intros Hr Hn. destruct (holds_text _ _ _ Hr) as [Hsc Hs]. unfold floor_char_boundary, ceil_char_boundary.
  rewrite !(rope_len_ok _ _ _ Hr).
  assert (str_len s ≤ n → Utf8.floor_char_boundary (encode s) n = str_len s ∧ Utf8.ceil_char_boundary (encode s) n = str_len s) as Hend.
  { intros Hle. by rewrite floor_end, ceil_end. }
  destruct (find_offset_ok w r s n Hr) as (f & -> & Hf); [lia|]. cbn [mbind option_bind].
  destruct Hf as [[[->|Hlt] ->]|(a & x & b & -> & Hx & _ & Ha & Hle & ->)].
  - destruct Hend as [-> ->]; [cbn; lia|]. cbn [str_len]. by destruct (Z.leb _ _), (Z.ltb _ _).
  - destruct Hend as [-> ->]; [lia|]. by destruct (Z.leb _ _), (Z.ltb _ _).
  - assert (str_len a ≤ n) as Han by (destruct Ha as [->|]; [cbn; lia|lia]). pose proof (str_len_nonneg a).
    destruct (floor_in_piece a x b n Hsc (conj Han Hle)) as [Ef Ec].
    assert (str_len a + str_len x < 2 ^ 32) as Hax by (clear -Hs; lens). rewrite str_len_app in Hle.
    rewrite (wrap64_id (n - str_len a)) by width. rewrite text_chunk_of.
    assert (scalars x) as Hxs by apply Hx.
    assert (0 ≤ Utf8.floor_char_boundary (encode x) (n - str_len a) ≤ str_len x ∧
      0 ≤ Utf8.ceil_char_boundary (encode x) (n - str_len a) ≤ str_len x) as [Hfl Hcl].
    { destruct (Utf8.is_char_boundary (encode x) (n - str_len a)) eqn:E.
      - destruct (floor_ceil_boundary (encode x) (n - str_len a) ltac:(lia) E) as [-> ->]. lia.
      - destruct (inside_char x (n - str_len a)) as (p & c & q & -> & Hc); [done|lia|done|].
        rewrite floor_spec, ceil_spec by (done || lia). pose proof (str_len_nonneg p). pose proof (str_len_nonneg q).
        rewrite str_len_app in *. cbn [str_len] in *. pose proof (len_utf8_bounds c). lia. }
    rewrite !wrap64_id by width. rewrite <- Ef, <- Ec. split.
    + destruct (Z.leb_spec (str_len (a ++ x ++ b)) n) as [Hl|Hl]; [|done]. by destruct (Hend Hl) as [-> _].
    + destruct (Z.ltb_spec (str_len (a ++ x ++ b)) n) as [Hl|Hl]; [|done]. by destruct (Hend ltac:(lia)) as [_ ->].
Qed.

Lemma rope_from_iter_ok w r s us :
  holds w r s → Forall scalars us → sized (s ++ concat us) →
  ∃ r', foldl (λ rope chunk, rope ← rope; push rope chunk) (Some r) (map encode us) = Some r' ∧
    holds (w + 2 * str_len (concat us)) r' (s ++ concat us) ∧ (check_invariants r = true → check_invariants r' = true).
Proof.
  intros Hr F. revert w r s Hr. induction F as [|u us Hu F IH]; intros w r s Hr Hs.
  { exists r. cbn [concat]. rewrite app_nil_r. split; [done|]. split; [|done]. eapply holds_weaken; [done|cbn; lia]. }
  cbn [concat] in *. rewrite app_assoc in Hs.
  destruct (rope_push_filled w r s u Hr Hu) as (r1 & E & Hr1 & Hi1); [by apply sized_app in Hs as [? _]|].
  cbn [map foldl]. change (Some r ≫= λ rope, push rope (encode u)) with (push r (encode u)). rewrite E.
  destruct (IH _ _ _ Hr1 Hs) as (r2 & E2 & Hr2 & Hi2). exists r2. split; [done|]. rewrite app_assoc. split; [|by intros ?%Hi1%Hi2].
  eapply holds_weaken; [exact Hr2|]. rewrite str_len_app. lia.
Qed.

(** C23: Building ropes is concatenating texts: [push] at the end, [push_front], [append] and
    collecting an iterator of strings never panic (no string is cut inside of a
    character, no chunk and no array of chunks overflows), whatever chunks the
    ropes had before, and the rope then spells the concatenation, with its length
    and its summary. They keep what the test build asserts after each of them: no
    chunk but the last one is under half of the capacity (less the three bytes of a
    character that did not fit), also at the seam of two ropes, and a rope that is
    made from strings is such a rope. Weights bound the height of the trees. *)
Theorem rope_build_correct w wb r b s u us :
  holds w r s → holds wb b u → w < 6 ^ 16 → wb < 6 ^ 16 → Forall scalars us →
  sized (s ++ u) → sized (u ++ s) → sized (concat us) →
  (∃ r', push r (encode u) = Some r' ∧ holds (w + 2 * str_len u) r' (s ++ u) ∧
     len r' = str_len (s ++ u) ∧ summary r' = TextSummary.from (s ++ u) ∧
     (check_invariants r = true → check_invariants r' = true)) ∧
  (∃ r', push_front r (encode u) = Some r' ∧ holds (w + 2 * str_len u + 1) r' (u ++ s) ∧
     (check_invariants r = true → check_invariants r' = true)) ∧
  (∃ r', append r b = Some r' ∧ holds (w + wb + 1) r' (s ++ u) ∧
     (check_invariants r = true → check_invariants b = true → check_invariants r' = true)) ∧
  (∃ r', from_iter (map encode us) = Some r' ∧ holds (2 * str_len (concat us)) r' (concat us) ∧ check_invariants r' = true) ∧
  (∃ r', from (encode u) = Some r' ∧ holds (2 * str_len u) r' u ∧ check_invariants r' = true) ∧
  (is_empty r = true ↔ s = []).
Proof.
  intros Hr Hb Hw Hwb Fus Hs1 Hs2 Hs3. destruct (holds_text _ _ _ Hb) as [Hu Hsu].
  split.
  { destruct (rope_push_filled w r s u Hr Hu Hs1) as (r' & E & Hr' & Hi). exists r'. split_and!; [done|done| | |done].
    - by eapply rope_len_ok.
    - by eapply rope_summary_ok. }
  split; [by apply push_front_ok|]. split; [by apply rope_append_filled|].
  split; [destruct (rope_from_iter_ok 0 new [] us holds_new Fus Hs3) as (r' & E & Hr' & Hi); exists r'; by auto using invariants_new|].
  split; [destruct (rope_push_filled 0 new [] u holds_new Hu Hsu) as (r' & E & Hr' & Hi); exists r'; by auto using invariants_new|].
  rewrite (is_empty_ok _ _ _ Hr). apply bool_decide_eq_true.
Qed.

Lemma not_ahead w v c a b before after n :
  at_offset w v c a b before after → n < str_len a ∨ str_len (a ++ b) < n →
  seek_forward c n = None ∧ cursor_slice c n = None ∧ cursor_summary (D := Z) c n = None.
Proof.
  intros H Hn. assert (assert_ahead c n = None) as E.
  { unfold assert_ahead. rewrite (o_offset _ _ _ _ _ _ _ H).
    rewrite (rope_len_ok w (c_rope c) (a ++ b)).
    - destruct (Z.leb_spec (str_len a) n), (Z.leb_spec n (str_len (a ++ b))); done || lia.
    - rewrite <- (at_concat _ _ _ _ _ _ _ H). eapply spells_holds, H. }
  unfold seek_forward, cursor_slice, cursor_summary. by rewrite E.
Qed.

(** C22: Cutting ropes is cutting texts: between two boundaries, [slice] gives the text
    between them and [replace] puts another text there. A cursor of the rope at a
    boundary (at the start of a chunk, inside of it or at its end) moves
    forward, slices and sums over any dimension exactly the text up to the next
    boundary, and asserts that it is not asked to go back or beyond the
    end. *)
Theorem rope_cut_correct D `{TextPosition D} w v r a m d u c before after n :
  holds w r (a ++ m ++ d) → w + 3 < 6 ^ 16 → scalars u → sized (a ++ u ++ d) →
  at_offset w v c a (m ++ d) before after → n < str_len a ∨ str_len (a ++ m ++ d) < n →
  (∃ r', slice r (str_len a) (str_len (a ++ m)) = Some r' ∧ holds (w + 3) r' m) ∧
  (∃ r', replace r (str_len a) (str_len (a ++ m)) (encode u) = Some r' ∧
     holds (w + 2 * str_len u + 8) r' (a ++ u ++ d)) ∧
  (∃ c' b' a', cursor_at r (str_len a) = Some c' ∧ at_offset w w c' a (m ++ d) b' a') ∧
  (∃ c' b' a', seek_forward c (str_len (a ++ m)) = Some c' ∧ at_offset w v c' (a ++ m) d b' a') ∧
  (∃ c' x v' b' a', cursor_slice c (str_len (a ++ m)) = Some (c', x) ∧ holds (v - v' + 3) x m ∧
     at_offset w v' c' (a ++ m) d b' a') ∧
  (∃ c' b' a', cursor_summary (D := D) c (str_len (a ++ m)) = Some (c', pos D m) ∧
     at_offset w v c' (a ++ m) d b' a') ∧
  (∃ x, cursor_suffix c = Some x ∧ holds (v + 3) x (m ++ d)) ∧
  seek_forward c n = None ∧ cursor_slice c n = None ∧ cursor_summary (D := Z) c n = None.
Proof.
  intros Hr Hw Hu Hs Hc Hn. assert (w < 6 ^ 16) as Hw' by lia.
  split; [by eapply slice_range_ok|]. split; [by apply replace_ok|].
  split; [destruct (cursor_at_ok w r a (m ++ d) Hr Hw') as (c' & b' & a' & ? & ? & _); by eauto|].
  split; [destruct (cursor_seek_forward_ok _ _ _ _ _ _ _ _ Hc) as (c' & b' & a' & ? & ? & _); by eauto|].
  split; [destruct (cursor_slice_ok _ _ _ _ _ _ _ _ Hc Hw') as (c' & x & v' & b' & a' & ? & ? & ? & _); by eauto 10|].
  split; [destruct (cursor_summary_ok (D := D) _ _ _ _ _ _ _ _ Hc Hw') as (c' & b' & a' & ? & ? & _); by eauto|].
  split; [by eapply cursor_suffix_ok|]. by eapply not_ahead.
Qed.

(** The boundaries of characters of a rope are those of its text, for every offset,
    also at the seams of chunks and beyond the end: [is_char_boundary], the
    assertion (which panics or reports the others) and the nearest boundary below
    and above, to which [clip_offset] moves an offset. *)
Theorem rope_boundaries_correct w r s n PANIC :
  holds w r s → 0 ≤ n < 2 ^ 64 →
  is_char_boundary r n = Some (Utf8.is_char_boundary (encode s) n) ∧
  assert_char_boundary PANIC r n
    = (if Utf8.is_char_boundary (encode s) n then Some true else if PANIC then None else Some false) ∧
  floor_char_boundary r n = Some (Utf8.floor_char_boundary (encode s) n) ∧
  ceil_char_boundary r n = Some (Utf8.ceil_char_boundary (encode s) n).
Proof.
  intros Hr Hn. split; [by eapply is_char_boundary_rope|].
  split; [by eapply assert_char_boundary_rope|by eapply floor_ceil_rope].
Qed.

(** A text of several chunks: [n] times "ab", "é" and a character of four bytes. *)
Definition sample (n : nat) : str := concat (replicate n [97; 98; 233; 0x1F600]).
Lemma sample_ok n : Nat.leb n 1000 = true → scalars (sample n) ∧ sized (sample n).
Proof.
  intros Hn%Nat.leb_le. assert (scalars (sample n) ∧ str_len (sample n) = 8 * Z.of_nat n) as [Hs Hl].
  { clear Hn. induction n as [|n [IH1 IH2]]; [by split; [constructor|]|].
    unfold sample in *. cbn [replicate concat]. split.
    - apply scalars_app. split; [|done]. unfold scalars. apply Forall_forall. intros x Hx.
      repeat (apply elem_of_cons in Hx as [->|Hx]; [unfold is_scalar; lia|]). by apply elem_of_nil in Hx.
    - rewrite str_len_app, IH2. cbn. lia. }
  split; [done|]. unfold sized. rewrite Hl. lia.
Qed.
Lemma sample_rope n : Nat.leb n 1000 = true →
  ∃ r, from (encode (sample n)) = Some r ∧ holds (2 * str_len (sample n)) r (sample n).
Proof. intros Hn. destruct (sample_ok n Hn). by apply from_ok. Qed.

Lemma rope_build_correct_witness :
  ∃ r r', from (encode (sample 100)) = Some r ∧ push r (encode (sample 20)) = Some r' ∧
    len r' = 960 ∧ holds 1920 r' (sample 120).
Proof.
  destruct (sample_rope 100 eq_refl) as (r & E & Hr). destruct (sample_rope 20 eq_refl) as (b & Eb & Hb).
  destruct (rope_build_correct _ _ r b _ _ [] Hr Hb) as ((r' & E' & Hr' & Hl & _) & _);
    [by vm_compute|by vm_compute|done|by vm_compute..|].
  exists r, r'. split_and!; [done|done|rewrite Hl; by vm_compute|].
  assert (sample 100 ++ sample 20 = sample 120) as Es by (by vm_compute). rewrite Es in Hr'.
  eapply holds_weaken; [exact Hr'|by vm_compute].
Defined.

Lemma rope_cut_correct_witness :
  (* cut 80 bytes out of the middle of 800 *)
  ∃ r x, from (encode (sample 100)) = Some r ∧
    replace r (str_len (sample 50)) (str_len (sample 50 ++ sample 10)) (encode [9]) = Some x ∧
    holds 1610 x (sample 50 ++ [9] ++ sample 40).
Proof.
  destruct (sample_rope 100 eq_refl) as (r & E & Hr).
  assert (sample 100 = sample 50 ++ sample 10 ++ sample 40) as Es by (by vm_compute). rewrite Es in Hr.
  destruct (cursor_at_ok _ r (sample 50) _ Hr ltac:(by vm_compute)) as (c & b1 & a1 & Ec & Hc & _).
  destruct (rope_cut_correct Z (2 * str_len (sample 50 ++ sample 10 ++ sample 40)) (2 * str_len (sample 50 ++ sample 10 ++ sample 40)) r (sample 50) (sample 10) (sample 40) [9] c b1 a1 (-1) Hr) as (_ & (x & Ex & Hx) & _);
    [by vm_compute|by constructor; [left; lia|constructor]|by vm_compute|exact Hc|by left; vm_compute|].
  exists r, x. split_and!; [done|done|]. eapply holds_weaken; [exact Hx|by vm_compute].
Defined.

Lemma rope_boundaries_correct_witness :
  ∃ r, from (encode (sample 100)) = Some r ∧
    floor_char_boundary r 127 = Some 124 ∧ ceil_char_boundary r 127 = Some 128.
Proof.
  destruct (sample_rope 100 eq_refl) as (r & E & Hr). exists r.
  destruct (rope_boundaries_correct _ r _ 127 true Hr) as (_ & _ & Ef & Ec); [lia|].
  split; [done|]. rewrite Ef, Ec. split; by vm_compute.
Defined.
End Rope.
