(* ===== verification/RopePosition.v ===== *)
(** Conversions between offsets, points and their UTF-16 counterparts in a rope
    ([crates/rope/src/rope.rs:369-618]): the chunk that contains a position is
    found in the tree, and the chunk converts the rest. *)
From S2P Require Import Prelude Points TextSummary SumTree TreeFind Cursor.
From S2P Require Import Bitmap Utf8 Chunk ChunkSummary ChunkPosition Rope.

Module RopePosition.
Import Rope.

(** A target in the first of two dimensions. *)
Definition by_first {K V} (cmp : K → K → comparison) (target : K) (d : K * V) : comparison := cmp target d.1.

(** [crates/rope/src/rope.rs:369-381] Rope::offset_to_offset_utf16 *)
Definition offset_to_offset_utf16 (self : t) (offset : Z) : option OffsetUtf16.t :=
  if TextSummary.len (summary self) <=? offset then Some (TextSummary.len_utf16 (summary self))
  else
    '(start, _, item) ← TreeFind.find (by_first (V := OffsetUtf16.t) Z.compare offset) Left self;
    let overshoot := offset -w64 start.1 in
    Some (OffsetUtf16.add start.2
      match item with
      | Some chunk => ChunkSlice.offset_to_offset_utf16 (Chunk.as_slice chunk) overshoot
      | None => OffsetUtf16.mk 0
      end).

(** [crates/rope/src/rope.rs:383-395] Rope::offset_utf16_to_offset *)
Definition offset_utf16_to_offset (self : t) (offset : OffsetUtf16.t) : option Z :=
  if is_ge (OffsetUtf16.cmp offset (TextSummary.len_utf16 (summary self))) then Some (TextSummary.len (summary self))
  else
    '(start, _, item) ← TreeFind.find (by_first (V := Z) OffsetUtf16.cmp offset) Left self;
    let overshoot := OffsetUtf16.sub offset start.1 in
    Some (start.2 +w64
      match item with
      | Some chunk => ChunkSlice.offset_utf16_to_offset (Chunk.as_slice chunk) overshoot
      | None => 0
      end).

(** [crates/rope/src/rope.rs:397-409] Rope::offset_to_point *)
Definition offset_to_point (self : t) (offset : Z) : option Point.t :=
  if TextSummary.len (summary self) <=? offset then Some (TextSummary.lines (summary self))
  else
    '(start, _, item) ← TreeFind.find (by_first (V := Point.t) Z.compare offset) Left self;
    let overshoot := offset -w64 start.1 in
    Some (Point.add start.2
      match item with
      | Some chunk => ChunkSlice.offset_to_point (Chunk.as_slice chunk) overshoot
      | None => Point.zero
      end).

(** [crates/rope/src/rope.rs:411-423] Rope::offset_to_point_utf16 *)
Definition offset_to_point_utf16 (self : t) (offset : Z) : option PointUtf16.t :=
  if TextSummary.len (summary self) <=? offset then Some (TextSummary.lines_utf16 (summary self))
  else
    '(start, _, item) ← TreeFind.find (by_first (V := PointUtf16.t) Z.compare offset) Left self;
    let overshoot := offset -w64 start.1 in
    Some (PointUtf16.add start.2
      match item with
      | Some chunk => ChunkSlice.offset_to_point_utf16 (Chunk.as_slice chunk) overshoot
      | None => PointUtf16.zero
      end).

(** What a conversion adds for the chunk it found, if there is one. *)
Definition in_chunk_or {A} (d : A) (item : option Chunk.t) (f : ChunkSlice.t → option A) : option A :=
  match item with Some chunk => f (Chunk.as_slice chunk) | None => Some d end.

(** The conversions that do not clip: a chunk panics at a position that it does not
    have in a debug build. *)
Section build.
Variable debug_assertions : bool.
(** [crates/rope/src/rope.rs:425-437] Rope::point_to_point_utf16 *)
Definition point_to_point_utf16 (self : t) (point : Point.t) : option PointUtf16.t :=
  if is_ge (Point.cmp point (TextSummary.lines (summary self))) then Some (TextSummary.lines_utf16 (summary self))
  else
    '(start, _, item) ← TreeFind.find (by_first (V := PointUtf16.t) Point.cmp point) Left self;
    let overshoot := Point.sub point start.1 in
    d ← in_chunk_or PointUtf16.zero item (λ chunk, ChunkSlice.point_to_point_utf16 debug_assertions chunk overshoot);
    Some (PointUtf16.add start.2 d).

(** [crates/rope/src/rope.rs:439-452] Rope::point_utf16_to_point *)
Definition point_utf16_to_point (self : t) (point : PointUtf16.t) : option Point.t :=
  if is_ge (PointUtf16.cmp point (TextSummary.lines_utf16 (summary self))) then Some (TextSummary.lines (summary self))
  else
    '(cursor, _) ← Cursor.seek (by_first (V := Point.t) PointUtf16.cmp point) Left (Cursor.new self);
    let overshoot := PointUtf16.sub point (Cursor.start cursor).1 in
    item ← Cursor.item cursor;
    d ← in_chunk_or Point.zero item (λ chunk,
          offset ← ChunkSlice.point_utf16_to_offset debug_assertions chunk overshoot false;
          Some (ChunkSlice.offset_to_point chunk offset));
    Some (Point.add (Cursor.start cursor).2 d).

(** [crates/rope/src/rope.rs:455-464] Rope::point_to_offset *)
Definition point_to_offset (self : t) (point : Point.t) : option Z :=
  if is_ge (Point.cmp point (TextSummary.lines (summary self))) then Some (TextSummary.len (summary self))
  else
    '(start, _, item) ← TreeFind.find (by_first (V := Z) Point.cmp point) Left self;
    let overshoot := Point.sub point start.1 in
    d ← in_chunk_or 0 item (λ chunk, ChunkSlice.point_to_offset debug_assertions chunk overshoot);
    Some (start.2 +w64 d).

(** [crates/rope/src/rope.rs:466-477] Rope::point_to_offset_utf16 *)
Definition point_to_offset_utf16 (self : t) (point : Point.t) : option OffsetUtf16.t :=
  if is_ge (Point.cmp point (TextSummary.lines (summary self))) then Some (TextSummary.len_utf16 (summary self))
  else
    '(cursor, _) ← Cursor.seek (by_first (V := OffsetUtf16.t) Point.cmp point) Left (Cursor.new self);
    let overshoot := Point.sub point (Cursor.start cursor).1 in
    item ← Cursor.item cursor;
    d ← in_chunk_or (OffsetUtf16.mk 0) item (λ chunk, ChunkSlice.point_to_offset_utf16 debug_assertions chunk overshoot);
    Some (OffsetUtf16.add (Cursor.start cursor).2 d).

(** [crates/rope/src/rope.rs:491-503] Rope::point_utf16_to_offset_impl *)
Definition point_utf16_to_offset_impl (self : t) (point : PointUtf16.t) (clip : bool) : option Z :=
  if is_ge (PointUtf16.cmp point (TextSummary.lines_utf16 (summary self))) then Some (TextSummary.len (summary self))
  else
    '(start, _, item) ← TreeFind.find (by_first (V := Z) PointUtf16.cmp point) Left self;
    let overshoot := PointUtf16.sub point start.1 in
    d ← in_chunk_or 0 item (λ chunk, ChunkSlice.point_utf16_to_offset debug_assertions chunk overshoot clip);
    Some (start.2 +w64 d).

(** [crates/rope/src/rope.rs:505-520] Rope::point_utf16_to_offset_utf16_impl *)
Definition point_utf16_to_offset_utf16_impl (self : t) (point : PointUtf16.t) (clip : bool) : option OffsetUtf16.t :=
  if is_ge (PointUtf16.cmp point (TextSummary.lines_utf16 (summary self))) then Some (TextSummary.len_utf16 (summary self))
  else
    '(cursor, _) ← Cursor.seek (by_first (V := OffsetUtf16.t) PointUtf16.cmp point) Left (Cursor.new self);
    let overshoot := PointUtf16.sub point (Cursor.start cursor).1 in
    item ← Cursor.item cursor;
    d ← in_chunk_or (OffsetUtf16.mk 0) item (λ chunk,
          offset ← ChunkSlice.point_utf16_to_offset debug_assertions chunk overshoot clip;
          Some (ChunkSlice.offset_to_offset_utf16 chunk offset));
    Some (OffsetUtf16.add (Cursor.start cursor).2 d).

(** [crates/rope/src/rope.rs:479-481] Rope::point_utf16_to_offset *)
Definition point_utf16_to_offset (self : t) (point : PointUtf16.t) : option Z :=
  point_utf16_to_offset_impl self point false.
(** [crates/rope/src/rope.rs:483-485] Rope::point_utf16_to_offset_utf16 *)
Definition point_utf16_to_offset_utf16 (self : t) (point : PointUtf16.t) : option OffsetUtf16.t :=
  point_utf16_to_offset_utf16_impl self point false.
(** [crates/rope/src/rope.rs:487-489] Rope::unclipped_point_utf16_to_offset *)
Definition unclipped_point_utf16_to_offset (self : t) (point : Unclipped.t PointUtf16.t) : option Z :=
  point_utf16_to_offset_impl self (Unclipped.inner point) true.

(** [crates/rope/src/rope.rs:140-145] Rope::slice_rows *)
Definition slice_rows (self : t) (start end_ : Z) : option t :=
  start ← point_to_offset self (Point.new start 0);
  end_ ← point_to_offset self (Point.new end_ 0);
  slice self start end_.
End build.

(** [crates/rope/src/rope.rs:522-534] Rope::unclipped_point_utf16_to_point *)
Definition unclipped_point_utf16_to_point (self : t) (point : Unclipped.t PointUtf16.t) : option Point.t :=
  if is_ge (PointUtf16.cmp (Unclipped.inner point) (TextSummary.lines_utf16 (summary self)))
  then Some (TextSummary.lines (summary self))
  else
    '(start, _, item) ← TreeFind.find (by_first (V := Point.t) PointUtf16.cmp (Unclipped.inner point)) Left self;
    let overshoot := Unclipped.mk (PointUtf16.sub (Unclipped.inner point) start.1) in
    d ← in_chunk_or Point.zero item (λ chunk, ChunkSlice.unclipped_point_utf16_to_point chunk overshoot);
    Some (Point.add start.2 d).

(** *** Clipping *)

(** [crates/rope/src/rope.rs:536-541] Rope::clip_offset *)
Definition clip_offset (self : t) (offset : Z) (bias : bias) : option Z :=
  match bias with
  | Left => floor_char_boundary self offset
  | Right => ceil_char_boundary self offset
  end.

(** [crates/rope/src/rope.rs:543-551] Rope::clip_offset_utf16 *)
Definition clip_offset_utf16 (self : t) (offset : OffsetUtf16.t) (bias : bias) : option OffsetUtf16.t :=
  '(start, _, item) ← TreeFind.find (OffsetUtf16.cmp offset) Right self;
  match item with
  | Some chunk =>
      let overshoot := OffsetUtf16.sub offset start in
      d ← ChunkSlice.clip_offset_utf16 (Chunk.as_slice chunk) overshoot bias;
      Some (OffsetUtf16.add start d)
  | None => Some (TextSummary.len_utf16 (summary self))
  end.

(** [crates/rope/src/rope.rs:563-571] Rope::clip_point_utf16 *)
Definition clip_point_utf16 (self : t) (point : Unclipped.t PointUtf16.t) (bias : bias) : option PointUtf16.t :=
  '(start, _, item) ← TreeFind.find (PointUtf16.cmp (Unclipped.inner point)) Right self;
  match item with
  | Some chunk =>
      let overshoot := Unclipped.mk (PointUtf16.sub (Unclipped.inner point) start) in
      d ← ChunkSlice.clip_point_utf16 (Chunk.as_slice chunk) overshoot bias;
      Some (PointUtf16.add start d)
  | None => Some (TextSummary.lines_utf16 (summary self))
  end.

Section graphemes.
(** The search for the boundaries of grapheme clusters ([ChunkPosition]). *)
Variable is_boundary : list Z → Z → bool.
(** [crates/rope/src/rope.rs:553-561] Rope::clip_point *)
Definition clip_point (self : t) (point : Point.t) (bias : bias) : option Point.t :=
  '(start, _, item) ← TreeFind.find (Point.cmp point) Right self;
  match item with
  | Some chunk =>
      let overshoot := Point.sub point start in
      d ← ChunkSlice.clip_point is_boundary (Chunk.as_slice chunk) overshoot bias;
      Some (Point.add start d)
  | None => Some (TextSummary.lines (summary self))
  end.

(** [crates/rope/src/rope.rs:615-618] Rope::line_len *)
Definition line_len (self : t) (row : Z) : option Z :=
  Point.column <$> clip_point self (Point.new row u32_MAX) Left.
End graphemes.

(** ** Where a position is found *)

(** The chunk of a rope in which a search stops, and the text before it. *)
Inductive located (target : str → comparison) (b : bias) (s : str) : str → option Chunk.t → Prop :=
  | located_in a x rest :
      s = a ++ x ++ rest → piece x → a = [] ∨ skips (target a) b = true → skips (target (a ++ x)) b = false →
      located target b s a (Some (chunk_of x))
  | located_end : s = [] ∨ skips (target s) b = true → located target b s s None.

Section located.
Context {D : Type} `{TextPosition D}.
Implicit Types target : D → comparison.

Lemma find_located target b w r s :
  holds w r s →
  ∃ a stop item, TreeFind.find target b r = Some (pos D a, stop, item) ∧
    located (λ t, target (pos D t)) b s a item.
Proof.
  intros (ss & Hr & <-). destruct (find_pieces target b w r ss Hr) as (f & -> & Hf).
  destruct Hr as (_ & F & Hs). destruct Hf as [before x rest -> H1 H2|Hn].
  - eexists _, _, _. split; [done|]. apply Forall_app in F as [_ F]. inversion F; subst.
    apply (located_in _ _ _ _ _ (concat rest)); [by rewrite concat_app|done| |done].
    destruct H1 as [->|H1]; [by left|by right].
  - eexists _, _, _. split; [done|]. constructor. destruct Hn as [->|Hn]; [by left|by right].
Qed.

(** The cursor stops there, too. *)
Lemma seek_located target b w r s :
  holds w r s → w < 6 ^ 16 → target (pos D []) ≠ Lt →
  ∃ c e a item, Cursor.seek target b (Cursor.new r) = Some (c, e) ∧ Cursor.start c = pos D a ∧
    Cursor.item c = Some item ∧ located (λ t, target (pos D t)) b s a item.
Proof.
  intros (ss & Hr & <-) Hw Ht. pose proof Hr as (_ & F & Hs).
  destruct (Cursor.seek_ok target b (Cursor.new r) [] (chunks_of ss)) as (c & mid & rest & E & El & [Hm Hn] & Hc).
  { by eapply ready_at. }
  { change (@nil Chunk.t) with (chunks_of []). by rewrite dim_pieces by done. }
  apply chunks_split in El as (s1 & s2 & -> & -> & ->). cbn [app] in *.
  unfold TreeFind.passed in *. apply Forall_app in F as [F1 F2]. rewrite concat_app in Hs.
  destruct (sized_app _ _ Hs) as [Hs1 _].
  assert (dim D (chunks_of s1) = pos D (concat s1)) as E1 by (by apply dim_pieces).
  eexists c, _, (concat s1), (head (chunks_of s2)). split; [exact E|]. split_and!.
  - unfold Cursor.start. by rewrite (Cursor.p_position _ _ _ Hc), E1.
  - by apply (Cursor.item_ok _ (chunks_of s1)).
  - rewrite E1 in Hm. assert (concat s1 = [] ∨ skips (target (pos D (concat s1))) b = true) as Hm'.
    { destruct Hm as [Hm|Hm]; [left; by destruct s1|by right]. }
    destruct s2 as [|x s2].
    + rewrite concat_app. cbn [concat]. rewrite !app_nil_r. by constructor.
    + inversion F2; subst. apply (located_in _ _ _ _ _ (concat s2)); [by rewrite concat_app|done|done|].
      specialize (Hn (chunk_of x) eq_refl). rewrite <- chunks_of_snoc, dim_pieces, concat_app in Hn.
      * cbn [concat] in Hn. by rewrite app_nil_r in Hn.
      * apply Forall_app. split; [done|by constructor].
      * rewrite concat_app. cbn [concat] in *. rewrite app_nil_r. rewrite app_assoc in Hs. by apply sized_app in Hs as [? _].
Qed.
End located.

(** ** Exact positions *)

(** Positions whose order is that of the prefixes they follow. *)
Class TextKey {K} `{TextPosition K} (cmp : K → K → comparison) (sub : K → K → K) : Prop := {
  key_cmp a b c d : a ++ b = c ++ d → sized (a ++ b) → cmp (pos K a) (pos K c) = Z.compare (str_len a) (str_len c);
  key_sub a p : sized (a ++ p) → sub (pos K (a ++ p)) (pos K a) = pos K p;
}.

Lemma sub64_len a b : sized (a ++ b) → str_len (a ++ b) -w64 str_len a = str_len b.
Proof. intros Hs. lens. Qed.
#[export] Instance usize_key : TextKey Z.compare (λ a b, a -w64 b).
Proof. split; [done|]. intros a p Hs. by apply sub64_len. Qed.

Lemma utf16_compare (f : str → Z) a b c d :
  (∀ s t, f (s ++ t) = f s + f t) → (∀ s, s ≠ [] → 0 < f s) → f [] = 0 →
  a ++ b = c ++ d → Z.compare (f a) (f c) = Z.compare (str_len a) (str_len c).
Proof.
  intros Hadd Hpos H0 E.
  assert (∀ u, f u = 0 ∧ str_len u = 0 ∨ 0 < f u ∧ 0 < str_len u) as Hu.
  { intros u. destruct u as [|x u]; [by left|right]. split; [by apply Hpos|].
    cbn [str_len]. pose proof (len_utf8_bounds x). pose proof (str_len_nonneg u). lia. }
  apply app_eq_inv in E as [(k & -> & _)|(k & -> & _)]; rewrite Hadd, str_len_app; destruct (Hu k) as [[? ?]|[? ?]];
    repeat match goal with |- context [Z.compare ?x ?y] => destruct (Z.compare_spec x y) end; done || lia.
Qed.
#[export] Instance offset_utf16_key : TextKey OffsetUtf16.cmp OffsetUtf16.sub.
Proof.
  split.
  - intros a b c d E _. unfold OffsetUtf16.cmp. cbn [pos offset_utf16_position OffsetUtf16.offset].
    apply (utf16_compare utf16_len a b c d); [exact utf16_len_app| |done|done].
    intros [|x s] ?; [done|]. cbn [utf16_len]. destruct (len_utf16_cases x); pose proof (utf16_len_bounds s); lia.
  - intros a p Hs. cbn. unfold OffsetUtf16.sub. cbn. f_equal. rewrite utf16_len_app. destruct (sized_app _ _ Hs) as [Ha Hp].
    destruct (sized_bounds _ Ha) as [_ ?]. destruct (sized_bounds _ Hp) as [_ ?]. rewrite wrap64_id by width. lia.
Qed.

(** *** Points *)
Lemma last_line_cat a p : last_line (a ++ p) = if newline_count p =? 0 then last_line a ++ p else last_line p.
Proof.
  induction p as [|c p IH] using rev_ind; [by rewrite !app_nil_r|].
  rewrite app_assoc, !last_line_snoc, IH. pose proof (newline_count_nonneg p).
  destruct (Z.eqb_spec c newline) as [->|Hc].
  - rewrite newline_count_snoc. by destruct (Z.eqb_spec (newline_count p + 1) 0); [lia|].
  - rewrite newline_count_app, (newline_count_none [c]), Z.add_0_r by (by constructor).
    destruct (newline_count p =? 0); [by rewrite app_assoc|done].
Qed.
Lemma newline_count_le s : newline_count s ≤ str_len s.
Proof.
  transitivity (Z.of_nat (length s)); [|apply length_str_len]. unfold newline_count. apply inj_le, length_filter.
Qed.
Lemma row_bounds s : sized s → 0 ≤ newline_count s < 2 ^ 32 ∧ 0 ≤ str_len (last_line s) < 2 ^ 32 ∧
  0 ≤ utf16_len (last_line s) < 2 ^ 32.
Proof.
  intros Hs. pose proof (newline_count_le s). pose proof (newline_count_nonneg s). pose proof (last_line_le s).
  pose proof (utf16_len_bounds (last_line s)). pose proof (str_len_nonneg (last_line s)). unfold sized in Hs. lia.
Qed.
Lemma point_ok s : sized s → Point.ok (point_of s) ∧ Point.ok (PointUtf16.to_point (point_utf16_of s)).
Proof. intros Hs. destruct (row_bounds s Hs) as (? & ? & ?). split; split; cbn; width. Qed.

(** Rows and columns are ordered as the prefixes, in any unit [f] of columns. *)
Lemma lex_compare (f : str → Z) a b c d :
  (∀ s t, f (s ++ t) = f s + f t) → (∀ s, s ≠ [] → 0 < f s) → f [] = 0 →
  a ++ b = c ++ d →
  then_with (Z.compare (newline_count a) (newline_count c)) (Z.compare (f (last_line a)) (f (last_line c)))
  = Z.compare (str_len a) (str_len c).
Proof.
  intros Hadd Hpos H0 E.
  assert (∀ u, f u = 0 ∧ str_len u = 0 ∨ 0 < f u ∧ 0 < str_len u) as Hu.
  { intros u. destruct u as [|x u]; [by left|right]. split; [by apply Hpos|].
    cbn [str_len]. pose proof (len_utf8_bounds x). pose proof (str_len_nonneg u). lia. }
  apply app_eq_inv in E as [(k & -> & _)|(k & -> & _)]; rewrite newline_count_app, last_line_cat, str_len_app;
    pose proof (newline_count_nonneg k); pose proof (newline_count_le k); destruct (Hu k) as [[? ?]|[? ?]];
    destruct (Z.eqb_spec (newline_count k) 0); try lia; rewrite ?Hadd;
    repeat match goal with |- context [Z.compare ?x ?y] => destruct (Z.compare_spec x y); cbn [then_with]; try lia end; done.
Qed.
Lemma utf16_len_pos s : s ≠ [] → 0 < utf16_len s.
Proof. destruct s as [|x s]; [done|]. intros _. cbn [utf16_len]. destruct (len_utf16_cases x); pose proof (utf16_len_bounds s); lia. Qed.
Lemma str_len_pos s : s ≠ [] → 0 < str_len s.
Proof. intros Hs. pose proof (str_len_nonneg s). destruct (Z.eq_dec (str_len s) 0) as [E|E]; [by apply str_len_zero in E|lia]. Qed.

#[export] Instance point_key : TextKey Point.cmp Point.sub.
Proof.
  split.
  - intros a b c d E Hs. destruct (sized_app _ _ Hs) as [Ha _]. rewrite E in Hs. destruct (sized_app _ _ Hs) as [Hc _].
    cbn [pos point_position]. rewrite Point.cmp_lex by (by apply point_ok).
    apply (lex_compare str_len a b c d); [exact str_len_app|exact str_len_pos|done|done].
  - intros a p Hs. cbn [pos point_position]. unfold Point.sub, point_of, Point.new. cbn [Point.row Point.column].
    destruct (row_bounds _ Hs) as (? & Hc & _). destruct (sized_app _ _ Hs) as [Ha Hp].
    destruct (row_bounds _ Ha) as (? & ? & _). destruct (row_bounds _ Hp) as (? & ? & _).
    revert Hc. rewrite newline_count_app, last_line_cat. pose proof (newline_count_nonneg p).
    destruct (Z.eqb_spec (newline_count p) 0) as [E|E]; intros Hc;
      destruct (Z.eqb_spec (newline_count a + newline_count p) (newline_count a)); try lia.
    + rewrite str_len_app in *. rewrite E, (last_line_none p) by (by apply newline_count_zero). pose proof (str_len_nonneg p).
      f_equal. rewrite wrap32_id by width. lia.
    + f_equal. rewrite wrap32_id by width. lia.
Qed.
#[export] Instance point_utf16_key : TextKey PointUtf16.cmp PointUtf16.sub.
Proof.
  split.
  - intros a b c d E Hs. destruct (sized_app _ _ Hs) as [Ha _]. rewrite E in Hs. destruct (sized_app _ _ Hs) as [Hc _].
    cbn [pos point_utf16_position]. destruct (PointUtf16.utf16_is_point (point_utf16_of a) (point_utf16_of c)) as (_ & _ & _ & _ & -> & _).
    rewrite Point.cmp_lex by (by apply point_ok).
    apply (lex_compare utf16_len a b c d); [exact utf16_len_app|exact utf16_len_pos|done|done].
  - intros a p Hs. cbn [pos point_utf16_position]. unfold PointUtf16.sub, point_utf16_of, PointUtf16.new. cbn [PointUtf16.row PointUtf16.column].
    destruct (row_bounds _ Hs) as (? & _ & Hc). destruct (sized_app _ _ Hs) as [Ha Hp].
    destruct (row_bounds _ Ha) as (? & _ & ?). destruct (row_bounds _ Hp) as (? & _ & ?).
    revert Hc. rewrite newline_count_app, last_line_cat. pose proof (newline_count_nonneg p).
    destruct (Z.eqb_spec (newline_count p) 0) as [E|E]; intros Hc;
      destruct (Z.eqb_spec (newline_count a + newline_count p) (newline_count a)); try lia.
    + rewrite utf16_len_app in *. rewrite E, (last_line_none p) by (by apply newline_count_zero). pose proof (utf16_len_bounds p).
      f_equal. rewrite wrap32_id by width. lia.
    + f_equal. rewrite wrap32_id by width. lia.
Qed.

Section exact.
Context {K D : Type} `{TextKey K cmp sub, TextPosition D}.

Lemma exact_located bias a b c item :
  located (λ t, cmp (pos K a) (pos K t)) bias (a ++ b) c item → sized (a ++ b) → b ≠ [] →
  ∃ p q, a = c ++ p ∧ item = Some (chunk_of (p ++ q)) ∧ piece (p ++ q).
Proof.
  intros Hl Hs Hb. pose proof (str_len_pos b Hb). pose proof (str_len_nonneg a).
  assert (∀ t u, a ++ b = t ++ u → cmp (pos K a) (pos K t) = Z.compare (str_len a) (str_len t)) as Hcmp.
  { intros t u E. by apply (key_cmp (cmp := cmp) (sub := sub) a b t u). }
  destruct Hl as [c x rest E Hx Hc Hstop|Hc].
  - rewrite (Hcmp c (x ++ rest)) in Hc by done. rewrite (Hcmp (c ++ x) rest) in Hstop by (by rewrite <- app_assoc).
    assert (str_len c ≤ str_len a) as Hle.
    { destruct Hc as [->|Hc]; [done|]. destruct (Z.compare_spec (str_len a) (str_len c)); [lia|by destruct bias|lia]. }
    destruct (app_by_len a b c (x ++ rest) E Hle) as (p & -> & E').
    symmetry in E'. destruct (app_by_len x rest p b) as (q & -> & _).
    { done. } { destruct (Z.compare_spec (str_len (c ++ p)) (str_len (c ++ x))) as [Hz|Hz|Hz]; rewrite !str_len_app in Hz; [lia|lia|done]. }
    by exists p, q.
  - rewrite (Hcmp (a ++ b) []) in Hc by (by rewrite app_nil_r). rewrite str_len_app in Hc.
    destruct Hc as [Hc|Hc]; [by apply app_eq_nil in Hc as [-> ?]|].
    destruct (Z.compare_spec (str_len a) (str_len a + str_len b)); [lia|by destruct bias|lia].
Qed.

(** What a conversion needs from the chunk [p ++ q] that it finds. *)
Record found_at (a c p q : str) : Prop := {
  f_text : a = c ++ p;
  f_scalars : scalars (p ++ q);
  f_len : str_len (p ++ q) ≤ 128;
  f_sub : sub (pos K a) (pos K c) = pos K p;
  f_add : td_add_assign (pos D c) (pos D p) = pos D a;
}.
Lemma exact_found a b c p q : sized (a ++ b) → a = c ++ p → piece (p ++ q) → found_at a c p q.
Proof.
  intros Hs -> (? & ? & _). destruct (sized_app _ _ Hs) as [Ha _].
  split; [done|done|done|by apply (key_sub (cmp := cmp) (sub := sub))|by apply pos_add].
Qed.

Lemma exact_find w r a b :
  holds w r (a ++ b) → b ≠ [] →
  ∃ c p q stop, found_at a c p q ∧
    TreeFind.find (by_first (V := D) cmp (pos K a)) Left r = Some (pos K c, pos D c, stop, Some (chunk_of (p ++ q))).
Proof.
  intros Hr Hb. destruct (holds_text _ _ _ Hr) as [_ Hs].
  destruct (find_located (D := K * D) (by_first cmp (pos K a)) Left w r (a ++ b) Hr) as (c & stop & item & E & Hl).
  destruct (exact_located Left a b c item Hl Hs Hb) as (p & q & -> & -> & Hx).
  exists c, p, q, stop. split; [by eapply exact_found|done].
Qed.
Lemma exact_seek w r a b :
  holds w r (a ++ b) → w < 6 ^ 16 → b ≠ [] →
  ∃ c p q cur e, found_at a c p q ∧
    Cursor.seek (by_first (V := D) cmp (pos K a)) Left (Cursor.new r) = Some (cur, e) ∧
    Cursor.start cur = (pos K c, pos D c) ∧ Cursor.item cur = Some (Some (chunk_of (p ++ q))).
Proof.
  intros Hr Hw Hb. destruct (holds_text _ _ _ Hr) as [_ Hs].
  destruct (seek_located (D := K * D) (by_first cmp (pos K a)) Left w r (a ++ b) Hr Hw) as (cur & e & c & item & E & E1 & E2 & Hl).
  { unfold by_first. cbn. rewrite (key_cmp (cmp := cmp) (sub := sub) a b [] (a ++ b)) by done.
    pose proof (str_len_nonneg a). cbn. by destruct (Z.compare_spec (str_len a) 0); try lia. }
  destruct (exact_located Left a b c item Hl Hs Hb) as (p & q & -> & -> & Hx).
  exists c, p, q, cur, e. split; [by eapply exact_found|done].
Qed.
Lemma exact_end a b : sized (a ++ b) → is_ge (cmp (pos K a) (pos K (a ++ b))) = bool_decide (b = []).
Proof.
  intros Hs. rewrite (key_cmp (cmp := cmp) (sub := sub) a b (a ++ b) []) by (rewrite ?app_nil_r; done).
  rewrite str_len_app. destruct b as [|x b].
  - rewrite Z.add_0_r. by rewrite Z.compare_refl.
  - pose proof (str_len_pos (x :: b) ltac:(done)). by destruct (Z.compare_spec (str_len a) (str_len a + str_len (x :: b))) as [?|?|?]; [lia| |lia].
Qed.
End exact.
Arguments found_at K D {_ _ _ _} sub a c p q : rename.
Arguments exact_find {K D _ _} cmp sub {_ _ _} w r a b.

Section roundtrip.
Context (w : Z) (r : t) (a b : str) (Hr : holds w r (a ++ b)) (Hw : w < 6 ^ 16).

(** The summary of the rope, in every position. *)
Lemma ends_of :
  TextSummary.len (summary r) = str_len (a ++ b) ∧
  TextSummary.len_utf16 (summary r) = pos OffsetUtf16.t (a ++ b) ∧
  TextSummary.lines (summary r) = pos Point.t (a ++ b) ∧
  TextSummary.lines_utf16 (summary r) = pos PointUtf16.t (a ++ b).
Proof.
  rewrite (rope_summary_ok _ _ _ Hr). destruct (from_projections (a ++ b)) as (-> & _ & -> & -> & ->); [|done].
  by apply (holds_text _ _ _ Hr).
Qed.
Lemma rope_sized : sized (a ++ b).
Proof. by apply (holds_text _ _ _ Hr). Qed.
Lemma len_end : (str_len (a ++ b) <=? str_len a) = bool_decide (b = []).
Proof.
  rewrite <- (exact_end (cmp := Z.compare) (sub := λ a b, a -w64 b) a b rope_sized). cbn.
  by destruct (Z.leb_spec (str_len (a ++ b)) (str_len a)), (Z.compare_spec (str_len a) (str_len (a ++ b))); try lia.
Qed.
End roundtrip.

(** A conversion of the position after [a]: at the end of the text, or in the chunk found. *)
Ltac at_text_end :=
  match goal with
  | |- context [bool_decide (?b = [])] =>
      destruct (bool_decide_reflect (b = [])) as [->|Hb]; [by rewrite app_nil_r|]
  end.
Ltac cbn_pos H :=
  cbn [pos td_add_assign usize_position offset_utf16_position point_position point_utf16_position
       usize_dimension offset_utf16_dimension point_dimension point_utf16_dimension] in H.
Ltac end_guard T := let H := fresh in pose proof T as H; cbn_pos H; rewrite H; clear H.
Ltac in_found T :=
  let H := fresh "H" in pose proof T as H; cbn_pos H;
  let c := fresh "c" in let p := fresh "p" in let q := fresh "q" in let stop := fresh "stop" in
  let E := fresh "E" in let Es := fresh "Es" in let El := fresh "El" in let Esub := fresh "Esub" in let Eadd := fresh "Eadd" in
  destruct H as (c & p & q & stop & [E Es El Esub Eadd] & ->); cbn_pos Esub; cbn_pos Eadd;
  cbn [mbind option_bind fst snd in_chunk_or]; rewrite as_slice_ok, ?Esub.

Ltac in_sought T :=
  let H := fresh "H" in pose proof T as H; cbn_pos H;
  let c := fresh "c" in let p := fresh "p" in let q := fresh "q" in let cur := fresh "cur" in let e := fresh "e" in
  let E := fresh "E" in let Es := fresh "Es" in let El := fresh "El" in let Esub := fresh "Esub" in let Eadd := fresh "Eadd" in
  let Est := fresh "Est" in let Eit := fresh "Eit" in
  destruct H as (c & p & q & cur & e & [E Es El Esub Eadd] & -> & Est & Eit); cbn_pos Est; cbn_pos Esub; cbn_pos Eadd;
  cbn [mbind option_bind]; rewrite Est, Eit; cbn [mbind option_bind fst snd in_chunk_or]; rewrite as_slice_ok, ?Esub.

Section conversions.
Context (debug : bool) (w : Z) (r : t) (a b : str) (Hr : holds w r (a ++ b)) (Hw : w < 6 ^ 16).

Lemma rope_offset_to_offset_utf16 : offset_to_offset_utf16 r (str_len a) = Some (OffsetUtf16.mk (utf16_len a)).
Proof.
  unfold offset_to_offset_utf16. destruct (ends_of w r a b Hr) as (E1 & E2 & E3 & E4). cbn_pos E2. cbn_pos E3. cbn_pos E4. rewrite ?E1, ?E2, ?E3, ?E4.
  rewrite (len_end w r a b Hr). at_text_end.
  in_found (exact_find (D := OffsetUtf16.t) Z.compare (λ a b, a -w64 b) w r a b Hr Hb).
  rewrite offset_to_offset_utf16_ok by done. by rewrite <- Eadd.
Qed.

Lemma rope_offset_utf16_to_offset : offset_utf16_to_offset r (OffsetUtf16.mk (utf16_len a)) = Some (str_len a).
Proof.
  unfold offset_utf16_to_offset. destruct (ends_of w r a b Hr) as (E1 & E2 & E3 & E4). cbn_pos E2. cbn_pos E3. cbn_pos E4. rewrite ?E1, ?E2, ?E3, ?E4.
  end_guard (exact_end (cmp := OffsetUtf16.cmp) (sub := OffsetUtf16.sub) a b (rope_sized w r a b Hr)). at_text_end.
  in_found (exact_find (D := Z) OffsetUtf16.cmp OffsetUtf16.sub w r a b Hr Hb).
  rewrite offset_utf16_to_offset_ok by done. by rewrite <- Eadd.
Qed.

Lemma rope_offset_to_point : offset_to_point r (str_len a) = Some (point_of a).
Proof.
  unfold offset_to_point. destruct (ends_of w r a b Hr) as (E1 & E2 & E3 & E4). cbn_pos E2. cbn_pos E3. cbn_pos E4. rewrite ?E1, ?E2, ?E3, ?E4.
  rewrite (len_end w r a b Hr). at_text_end.
  in_found (exact_find (D := Point.t) Z.compare (λ a b, a -w64 b) w r a b Hr Hb).
  rewrite offset_to_point_ok by done. by rewrite <- Eadd.
Qed.

Lemma rope_offset_to_point_utf16 : offset_to_point_utf16 r (str_len a) = Some (point_utf16_of a).
Proof.
  unfold offset_to_point_utf16. destruct (ends_of w r a b Hr) as (E1 & E2 & E3 & E4). cbn_pos E2. cbn_pos E3. cbn_pos E4. rewrite ?E1, ?E2, ?E3, ?E4.
  rewrite (len_end w r a b Hr). at_text_end.
  in_found (exact_find (D := PointUtf16.t) Z.compare (λ a b, a -w64 b) w r a b Hr Hb).
  rewrite offset_to_point_utf16_ok by done. by rewrite <- Eadd.
Qed.

Lemma rope_point_to_point_utf16 : point_to_point_utf16 debug r (point_of a) = Some (point_utf16_of a).
Proof.
  unfold point_to_point_utf16. destruct (ends_of w r a b Hr) as (E1 & E2 & E3 & E4). cbn_pos E2. cbn_pos E3. cbn_pos E4. rewrite ?E1, ?E2, ?E3, ?E4.
  end_guard (exact_end (cmp := Point.cmp) (sub := Point.sub) a b (rope_sized w r a b Hr)). at_text_end.
  in_found (exact_find (D := PointUtf16.t) Point.cmp Point.sub w r a b Hr Hb).
  destruct (positions_roundtrip debug p q Es El) as (_ & _ & _ & _ & _ & _ & -> & _). cbn [mbind option_bind]. by rewrite <- Eadd.
Qed.

Lemma rope_point_to_offset : point_to_offset debug r (point_of a) = Some (str_len a).
Proof.
  unfold point_to_offset. destruct (ends_of w r a b Hr) as (E1 & E2 & E3 & E4). cbn_pos E2. cbn_pos E3. cbn_pos E4. rewrite ?E1, ?E2, ?E3, ?E4.
  end_guard (exact_end (cmp := Point.cmp) (sub := Point.sub) a b (rope_sized w r a b Hr)). at_text_end.
  in_found (exact_find (D := Z) Point.cmp Point.sub w r a b Hr Hb).
  rewrite point_to_offset_ok by done. cbn [mbind option_bind]. by rewrite <- Eadd.
Qed.

Lemma rope_point_to_offset_utf16 : point_to_offset_utf16 debug r (point_of a) = Some (OffsetUtf16.mk (utf16_len a)).
Proof.
  unfold point_to_offset_utf16. destruct (ends_of w r a b Hr) as (E1 & E2 & E3 & E4). cbn_pos E2. cbn_pos E3. cbn_pos E4. rewrite ?E1, ?E2, ?E3, ?E4.
  end_guard (exact_end (cmp := Point.cmp) (sub := Point.sub) a b (rope_sized w r a b Hr)). at_text_end.
  in_sought (exact_seek (D := OffsetUtf16.t) (cmp := Point.cmp) (sub := Point.sub) w r a b Hr Hw Hb).
  destruct (positions_roundtrip debug p q Es El) as (_ & _ & _ & _ & -> & _). cbn [mbind option_bind]. by rewrite <- Eadd.
Qed.

Lemma rope_point_utf16_to_offset clip : point_utf16_to_offset_impl debug r (point_utf16_of a) clip = Some (str_len a).
Proof.
  unfold point_utf16_to_offset_impl. destruct (ends_of w r a b Hr) as (E1 & E2 & E3 & E4). cbn_pos E2. cbn_pos E3. cbn_pos E4. rewrite ?E1, ?E2, ?E3, ?E4.
  end_guard (exact_end (cmp := PointUtf16.cmp) (sub := PointUtf16.sub) a b (rope_sized w r a b Hr)). at_text_end.
  in_found (exact_find (D := Z) PointUtf16.cmp PointUtf16.sub w r a b Hr Hb).
  destruct (positions_roundtrip debug p q Es El) as (_ & _ & _ & _ & _ & _ & _ & Ecl & Eun & _). rewrite Ecl. cbn [mbind option_bind]. by rewrite <- Eadd.
Qed.

Lemma rope_point_utf16_to_offset_utf16 clip : point_utf16_to_offset_utf16_impl debug r (point_utf16_of a) clip = Some (OffsetUtf16.mk (utf16_len a)).
Proof.
  unfold point_utf16_to_offset_utf16_impl. destruct (ends_of w r a b Hr) as (E1 & E2 & E3 & E4). cbn_pos E2. cbn_pos E3. cbn_pos E4. rewrite ?E1, ?E2, ?E3, ?E4.
  end_guard (exact_end (cmp := PointUtf16.cmp) (sub := PointUtf16.sub) a b (rope_sized w r a b Hr)). at_text_end.
  in_sought (exact_seek (D := OffsetUtf16.t) (cmp := PointUtf16.cmp) (sub := PointUtf16.sub) w r a b Hr Hw Hb).
  destruct (positions_roundtrip debug p q Es El) as (_ & _ & _ & _ & _ & _ & _ & Ecl & Eun & _). rewrite Ecl. cbn [mbind option_bind]. rewrite offset_to_offset_utf16_ok by done. by rewrite <- Eadd.
Qed.

Lemma rope_point_utf16_to_point : point_utf16_to_point debug r (point_utf16_of a) = Some (point_of a).
Proof.
  unfold point_utf16_to_point. destruct (ends_of w r a b Hr) as (E1 & E2 & E3 & E4). cbn_pos E2. cbn_pos E3. cbn_pos E4. rewrite ?E1, ?E2, ?E3, ?E4.
  end_guard (exact_end (cmp := PointUtf16.cmp) (sub := PointUtf16.sub) a b (rope_sized w r a b Hr)). at_text_end.
  in_sought (exact_seek (D := Point.t) (cmp := PointUtf16.cmp) (sub := PointUtf16.sub) w r a b Hr Hw Hb).
  destruct (positions_roundtrip debug p q Es El) as (_ & _ & _ & _ & _ & _ & _ & Ecl & Eun & _). rewrite Ecl. cbn [mbind option_bind]. rewrite offset_to_point_ok by done. by rewrite <- Eadd.
Qed.

Lemma rope_unclipped_to_point : unclipped_point_utf16_to_point r (Unclipped.mk (point_utf16_of a)) = Some (point_of a).
Proof.
  unfold unclipped_point_utf16_to_point. cbn [Unclipped.inner]. destruct (ends_of w r a b Hr) as (E1 & E2 & E3 & E4). cbn_pos E2. cbn_pos E3. cbn_pos E4. rewrite ?E1, ?E2, ?E3, ?E4.
  end_guard (exact_end (cmp := PointUtf16.cmp) (sub := PointUtf16.sub) a b (rope_sized w r a b Hr)). at_text_end.
  in_found (exact_find (D := Point.t) PointUtf16.cmp PointUtf16.sub w r a b Hr Hb).
  destruct (positions_roundtrip debug p q Es El) as (_ & _ & _ & _ & _ & _ & _ & Ecl & Eun & _). rewrite Eun. cbn [mbind option_bind]. by rewrite <- Eadd.
Qed.
End conversions.

(** ** Positions that need not be in the text *)

Lemma ends_line_app a p : (p = [] ∨ ∃ p', p = p' ++ [newline]) → p ≠ [] → ∃ p', a ++ p = p' ++ [newline].
Proof. intros [->|[p' ->]] Hp; [done|]. exists (a ++ p'). by rewrite app_assoc. Qed.
Lemma newline_not_none (s : str) : ¬ no_newline (newline :: s) ∧ ¬ no_newline (s ++ [newline]).
Proof.
  split; intros Hn; [by inversion Hn|]. apply no_newline_app in Hn as [_ Hn]. by inversion Hn.
Qed.
(** A row is determined by its number. *)
Lemma row_same_start p p2 l l2 q q2 r :
  row_at (p ++ l ++ q) r p l q → row_at (p2 ++ l2 ++ q2) r p2 l2 q2 → p ++ l ++ q = p2 ++ l2 ++ q2 → p = p2.
Proof.
  intros (_ & Hr & Hp & _ & _) (_ & Hr2 & Hp2 & _ & _) E.
  apply app_eq_inv in E as [(d & -> & _)|(d & -> & _)]; rewrite newline_count_app in *;
    assert (no_newline d) as Hd by (apply newline_count_zero; lia);
    destruct d as [|y d _] using rev_ind; rewrite ?app_nil_r; try done.
  - destruct Hp as [Hn|[p' Hn]]; [by destruct p2|]. rewrite app_assoc in Hn. apply app_inj_tail in Hn as [_ ->].
    by destruct (newline_not_none d).
  - destruct Hp2 as [Hn|[p' Hn]]; [by destruct p|]. rewrite app_assoc in Hn. apply app_inj_tail in Hn as [_ ->].
    by destruct (newline_not_none d).
Qed.
Lemma row_at_unique s r p l q p2 l2 q2 : row_at s r p l q → row_at s r p2 l2 q2 → p = p2 ∧ l = l2 ∧ q = q2.
Proof.
  intros H H2. pose proof H as (E & _ & _ & Hl & Hq). pose proof H2 as (E2 & _ & _ & Hl2 & Hq2).
  assert (p = p2) as <- by (subst s; eapply row_same_start; [exact H|by rewrite <- E2|congruence]).
  rewrite E in E2. apply app_inv_head in E2. split; [done|].
  apply app_eq_inv in E2 as [(d & -> & ->)|(d & -> & ->)].
  - destruct d as [|y d]; [by rewrite app_nil_r|]. exfalso. destruct Hq2 as [?|[? [= -> _]]]; [done|].
    apply no_newline_app in Hl as [_ Hl]. by apply newline_not_none in Hl.
  - destruct d as [|y d]; [by rewrite app_nil_r|]. exfalso. destruct Hq as [?|[? [= -> _]]]; [done|].
    apply no_newline_app in Hl2 as [_ Hl2]. by apply newline_not_none in Hl2.
Qed.

(** The part of a row that lies in the piece [x] of a text. *)
Record row_in (r : Z) (p l : str) (a x p' l' q' l1 l3 : str) : Prop := {
  ri_row : row_at x (r - newline_count a) p' l' q';
  ri_line : l = l1 ++ l' ++ l3;
  ri_before : p ++ l1 = a ++ p';
  ri_first : r = newline_count a → l1 = last_line a;
  ri_later : r ≠ newline_count a → l1 = [];
  ri_rest : l3 = [] ∨ r = newline_count (a ++ x) ∧ last_line (a ++ x) = l1 ++ l';
}.
Lemma row_in_piece a x b r p l q :
  row_at (a ++ x ++ b) r p l q → newline_count a ≤ r ≤ newline_count (a ++ x) →
  ∃ p' l' q' l1 l3, row_in r p l a x p' l' q' l1 l3.
Proof.
  intros Hrow Hr. rewrite newline_count_app in Hr.
  destruct (row_exists x (r - newline_count a)) as (p' & l' & q' & Hx); [lia|].
  pose proof Hx as (Ex & Hn & Hp' & Hl' & Hq').
  assert (∃ p0, a = p0 ++ last_line a ∧ newline_count p0 = newline_count a ∧ (p0 = [] ∨ ∃ p', p0 = p' ++ [newline])) as (p0 & Ea & Hn0 & Hp0).
  { destruct (row_of a []) as (p0 & q0 & (_ & ? & ? & _) & E). by exists p0. }
  destruct (last_line_split a) as [Hla _]. destruct (first_line_split b) as [Hfb Hb].
  assert (r = newline_count a → p' = []) as Hfirst.
  { intros E. destruct Hp' as [->|[p2 ->]]; [done|]. rewrite newline_count_snoc in Hn. pose proof (newline_count_nonneg p2). lia. }
  set (l1 := if r =? newline_count a then last_line a else []).
  set (l3 := match q' with [] => first_line b | _ => [] end).
  assert (∃ p1, p1 ++ l1 = a ++ p' ∧ newline_count p1 = r ∧ (p1 = [] ∨ ∃ p', p1 = p' ++ [newline])) as (p1 & E1 & Hn1 & Hp1).
  { unfold l1. destruct (Z.eqb_spec r (newline_count a)) as [E|E].
    - exists p0. rewrite (Hfirst E), app_nil_r. split; [done|]. by rewrite Hn0.
    - exists (a ++ p'). rewrite app_nil_r, newline_count_app. split; [done|]. split; [lia|]. right. apply ends_line_app; [done|].
      intros ->. cbn in Hn. change (newline_count []) with 0 in Hn. lia. }
  assert (∃ q1, l3 ++ q1 = q' ++ b ∧ (q1 = [] ∨ ∃ q0, q1 = newline :: q0)) as (q1 & E3 & Hq1).
  { unfold l3. destruct Hq' as [->|[q0 ->]].
    - destruct Hb as [[_ ->]|[r0 Hb]]; [exists []; rewrite app_nil_r; by split; [|left]|].
      exists (newline :: r0). split; [done|]. right. by exists r0.
    - exists ((newline :: q0) ++ b). split; [done|]. right. by exists (q0 ++ b). }
  assert (no_newline (l1 ++ l' ++ l3)) as Hl.
  { apply no_newline_app. split; [|apply no_newline_app; split; [done|]].
    - unfold l1. destruct (r =? newline_count a); [done|by constructor].
    - unfold l3. destruct q'; [done|by constructor]. }
  destruct (row_at_unique _ _ _ _ _ p1 (l1 ++ l' ++ l3) q1 Hrow) as (-> & -> & ->).
  { split_and!; [|done|done|done|done].
    transitivity ((a ++ p') ++ l' ++ q' ++ b); [|by rewrite <- E1, <- E3, <- !app_assoc].
    rewrite Ex. by rewrite <- !app_assoc. }
  exists p', l', q', l1, l3. split; [done|done|done| | |].
  - intros E. unfold l1. by rewrite (proj2 (Z.eqb_eq _ _) E).
  - intros E. unfold l1. by rewrite (proj2 (Z.eqb_neq _ _) E).
  - destruct q' as [|y q']; [right|by left]. rewrite app_nil_r in Ex.
    rewrite newline_count_app, Ex, newline_count_app, (newline_count_none l') by done. split; [lia|].
    rewrite app_assoc, <- E1, <- app_assoc. apply last_line_app; [done|].
    by rewrite app_assoc in Hl; apply no_newline_app in Hl as [? _].
Qed.

(** The search for row [r], column [c], where columns are counted by [f]. *)
Section rows.
Variable f : str → Z.
Hypothesis f_app : ∀ s t, f (s ++ t) = f s + f t.
Hypothesis f_nil : f [] = 0.
Hypothesis f_nonneg : ∀ s, 0 ≤ f s.
Definition in_row (r c : Z) (t : str) : comparison :=
  then_with (Z.compare r (newline_count t)) (Z.compare c (f (last_line t))).

Lemma in_row_cases r c t bias :
  if skips (in_row r c t) bias then newline_count t < r ∨ newline_count t = r ∧ f (last_line t) ≤ c
  else r < newline_count t ∨ newline_count t = r ∧ c ≤ f (last_line t).
Proof.
  unfold in_row. destruct (Z.compare_spec r (newline_count t)) as [->|?|?]; cbn [then_with].
  - destruct (Z.compare_spec c (f (last_line t))); destruct bias; cbn; lia.
  - destruct bias; cbn; lia.
  - destruct bias; cbn; lia.
Qed.

(** In the piece that is found, row and column are those of the piece. *)
Record found_row (r c : Z) (p l a x p' l' q' l1 l3 : str) : Prop := {
  fr_in : row_in r p l a x p' l' q' l1 l3;
  fr_piece : piece x;
  fr_row : newline_count a ≤ r;
  fr_start : f l1 ≤ c;
  fr_stop : l3 = [] ∨ c ≤ f (l1 ++ l');
}.
Lemma row_located bias s a item r p l q c :
  located (in_row r c) bias s a item → row_at s r p l q → 0 ≤ c →
  (item = None ∧ a = s ∧ q = [] ∧ f l ≤ c) ∨
  ∃ x p' l' q' l1 l3 rest, item = Some (chunk_of x) ∧ s = a ++ x ++ rest ∧ found_row r c p l a x p' l' q' l1 l3.
Proof.
  intros Hl Hrow Hc. destruct Hl as [a x rest -> Hx Ha Hax|Hs].
  - right. assert (newline_count a < r ∨ newline_count a = r ∧ f (last_line a) ≤ c) as Ha'.
    { destruct Ha as [->|Ha]; [|pose proof (in_row_cases r c a bias) as H; by rewrite Ha in H].
      change (newline_count []) with 0. change (last_line []) with (@nil Z). rewrite f_nil.
      pose proof (row_at_bound _ _ _ _ _ Hrow). lia. }
    pose proof (in_row_cases r c (a ++ x) bias) as Hax'. rewrite Hax in Hax'.
    destruct (row_in_piece a x rest r p l q Hrow) as (p' & l' & q' & l1 & l3 & Hin); [lia|].
    exists x, p', l', q', l1, l3, rest. split; [done|]. split; [done|]. split; [done|done|lia| |].
    + destruct (Z.eq_dec r (newline_count a)) as [E|E]; [rewrite (ri_first _ _ _ _ _ _ _ _ _ _ Hin E); lia|].
      rewrite (ri_later _ _ _ _ _ _ _ _ _ _ Hin E). lia.
    + destruct (ri_rest _ _ _ _ _ _ _ _ _ _ Hin) as [->|[E <-]]; [by left|right; lia].
  - left. split_and!; [done|done| |].
    + destruct Hrow as (-> & Hn & _ & _ & Hq). destruct Hq as [->|[q' ->]]; [done|]. exfalso.
      assert (r < newline_count (p ++ l ++ newline :: q')) as Hlt.
      { rewrite !newline_count_app. change (newline :: q') with ([newline] ++ q'). rewrite newline_count_app.
        pose proof (newline_count_nonneg l). pose proof (newline_count_nonneg q').
        change (newline_count [newline]) with 1. lia. }
      destruct Hs as [Hs|Hs]; [by destruct p, l|].
      pose proof (in_row_cases r c (p ++ l ++ newline :: q') bias) as H. rewrite Hs in H. lia.
    + pose proof (row_at_bound _ _ _ _ _ Hrow). destruct Hs as [->|Hs].
      { destruct Hrow as (E & _). symmetry in E. apply app_eq_nil in E as [_ [-> _]%app_eq_nil]. lia. }
      pose proof (in_row_cases r c s bias) as H1. rewrite Hs in H1.
      assert (newline_count s = r ∧ f (last_line s) ≤ c) as [E H2] by lia. clear H1 Hs H.
      destruct (row_of s []) as (p2 & q2 & H2' & _). rewrite app_nil_r, E in H2'.
      destruct (row_at_unique _ _ _ _ _ _ _ _ Hrow H2') as (_ & -> & _). cbn [first_line]. by rewrite app_nil_r.
Qed.

Lemma beyond_last_row s r c : newline_count s < r → is_ge (in_row r c s) = true.
Proof. intros Hr. unfold in_row. by destruct (Z.compare_spec r (newline_count s)); try lia. Qed.
Lemma not_beyond s r p l q c : row_at s r p l q → is_ge (in_row r c s) = false → q ≠ [] ∨ c < f l.
Proof.
  intros Hrow Hge. destruct q as [|y q]; [right|by left]. destruct Hrow as (-> & Hr & Hp & Hl & _). rewrite app_nil_r in *.
  unfold in_row in Hge. rewrite newline_count_app, (newline_count_none l Hl), Z.add_0_r, Hr, Z.compare_refl in Hge.
  cbn in Hge. rewrite last_line_app in Hge by done. by destruct (Z.compare_spec c (f l)).
Qed.
Lemma is_beyond s r p l q c : row_at s r p l q → is_ge (in_row r c s) = true → q = [] ∧ f l ≤ c.
Proof.
  intros Hrow Hge. destruct q as [|y q].
  - split; [done|]. destruct Hrow as (-> & Hr & Hp & Hl & _). rewrite app_nil_r in *.
    unfold in_row in Hge. rewrite newline_count_app, (newline_count_none l Hl), Z.add_0_r, Hr, Z.compare_refl in Hge.
    cbn in Hge. rewrite last_line_app in Hge by done. by destruct (Z.compare_spec c (f l)); try lia.
  - exfalso. destruct Hrow as (-> & Hr & Hp & Hl & Hq). destruct Hq as [?|[q' [= -> ->]]]; [done|].
    unfold in_row in Hge. rewrite !newline_count_app in Hge. change (newline :: q') with ([newline] ++ q') in Hge.
    rewrite newline_count_app in Hge. change (newline_count [newline]) with 1 in Hge.
    pose proof (newline_count_nonneg l). pose proof (newline_count_nonneg q').
    destruct (Z.compare_spec r (newline_count p + (newline_count l + (1 + newline_count q')))); [lia|done|lia].
Qed.
End rows.

(** The two kinds of points. *)
Lemma point_in_row r c t : u32_ok r → u32_ok c → sized t → Point.cmp (Point.mk r c) (point_of t) = in_row str_len r c t.
Proof. intros Hr Hc Ht. rewrite Point.cmp_lex by (done || by apply point_ok). done. Qed.
Lemma point_utf16_in_row r c t :
  u32_ok r → u32_ok c → sized t → PointUtf16.cmp (PointUtf16.mk r c) (point_utf16_of t) = in_row utf16_len r c t.
Proof.
  intros Hr Hc Ht. destruct (PointUtf16.utf16_is_point (PointUtf16.mk r c) (point_utf16_of t)) as (_ & _ & _ & _ & -> & _).
  rewrite Point.cmp_lex by (done || by apply point_ok). done.
Qed.

Lemma located_ext t1 t2 bias s a item :
  (∀ u v, s = u ++ v → t1 u = t2 u) → located t1 bias s a item → located t2 bias s a item.
Proof.
  intros Ht [c x rest E Hx Hc Hstop|Hc].
  - apply (located_in _ _ _ _ _ rest); [done|done|by rewrite <- (Ht c (x ++ rest))|].
    by rewrite <- (Ht (c ++ x) rest) by (by rewrite <- app_assoc).
  - constructor. by rewrite <- (Ht s []) by (by rewrite app_nil_r).
Qed.

(** What the conversions of rows need of points, in units [f]. *)
Class RowKey {K} `{TextPosition K} (cmp : K → K → comparison) (sub add : K → K → K) (f : str → Z) (mk : Z → Z → K) : Prop := {
  rk_app s t : f (s ++ t) = f s + f t;
  rk_nil : f [] = 0;
  rk_nonneg s : 0 ≤ f s;
  rk_le s : f s ≤ str_len s;
  rk_cmp r c t : u32_ok r → u32_ok c → sized t → cmp (mk r c) (pos K t) = in_row f r c t;
  rk_sub r c a : u32_ok r → u32_ok c → newline_count a ≤ r → (r = newline_count a → f (last_line a) ≤ c) → sized a →
    sub (mk r c) (pos K a) = mk (r - newline_count a) (c - (if r =? newline_count a then f (last_line a) else 0));
  rk_add r d a : u32_ok r → newline_count a ≤ r → 0 ≤ d → f (last_line a) + d < 2 ^ 32 → sized a →
    add (pos K a) (mk (r - newline_count a) d) = mk r ((if r =? newline_count a then f (last_line a) else 0) + d);
}.
#[export] Instance point_row_key : RowKey Point.cmp Point.sub Point.add str_len Point.mk.
Proof.
  split; [exact str_len_app|done|exact str_len_nonneg|done| | |].
  - intros r c t ???. by apply point_in_row.
  - intros r c a ?? Hr Hc Ha. cbn. destruct (row_bounds a Ha) as (? & ? & _). unfold Point.sub, Point.new. cbn.
    destruct (Z.eqb_spec r (newline_count a)) as [->|?]; f_equal; try lia; apply wrap32_id; width.
  - intros r d a ? Hr Hd Hl Ha. cbn. destruct (row_bounds a Ha) as (? & ? & _). unfold Point.add, Point.new. cbn.
    destruct (Z.eqb_spec (r - newline_count a) 0), (Z.eqb_spec r (newline_count a)); try lia; f_equal; try lia;
      rewrite wrap32_id by width; lia.
Qed.
#[export] Instance point_utf16_row_key : RowKey PointUtf16.cmp PointUtf16.sub PointUtf16.add utf16_len PointUtf16.mk.
Proof.
  split; [exact utf16_len_app|done|apply utf16_len_bounds|apply utf16_len_bounds| | |].
  - intros r c t ???. by apply point_utf16_in_row.
  - intros r c a ?? Hr Hc Ha. cbn. destruct (row_bounds a Ha) as (? & _ & ?). unfold PointUtf16.sub, PointUtf16.new. cbn.
    destruct (Z.eqb_spec r (newline_count a)) as [->|?]; f_equal; try lia; apply wrap32_id; width.
  - intros r d a ? Hr Hd Hl Ha. cbn. destruct (row_bounds a Ha) as (? & _ & ?). unfold PointUtf16.add, PointUtf16.new. cbn.
    destruct (Z.eqb_spec (r - newline_count a) 0), (Z.eqb_spec r (newline_count a)); try lia; f_equal; try lia;
      rewrite wrap32_id by width; lia.
Qed.

(** Adding to the position before the piece, in any units [g]. *)
Lemma add_in_row `{HK : RowKey K cmp sub add g mk} r p l a x p' l' q' l1 l3 d :
  row_in r p l a x p' l' q' l1 l3 → newline_count a ≤ r → u32_ok r → 0 ≤ d ≤ str_len x → sized (a ++ x) →
  add (pos K a) (mk (r - newline_count a) d) = mk r (g l1 + d).
Proof.
  intros Hin Hle Hr Hd Hs. destruct (sized_app _ _ Hs) as [Ha _].
  rewrite (rk_add (cmp := cmp) (sub := sub) (f := g)); [|done|done|lia| |done].
  - f_equal. f_equal. destruct (Z.eqb_spec r (newline_count a)) as [E|E].
    + by rewrite (ri_first _ _ _ _ _ _ _ _ _ _ Hin E).
    + rewrite (ri_later _ _ _ _ _ _ _ _ _ _ Hin E). symmetry. apply (rk_nil (RowKey := HK)).
  - unfold sized in Hs. rewrite str_len_app in Hs. pose proof (rk_le (RowKey := HK) (last_line a)). pose proof (last_line_le a). lia.
Qed.

Lemma add_point r p l a x p' l' q' l1 l3 d :
  row_in r p l a x p' l' q' l1 l3 → newline_count a ≤ r → u32_ok r → 0 ≤ d ≤ str_len x → sized (a ++ x) →
  Point.add (point_of a) (Point.mk (r - newline_count a) d) = Point.mk r (str_len l1 + d).
Proof. exact (add_in_row (HK := point_row_key) r p l a x p' l' q' l1 l3 d). Qed.
Lemma add_point16 r p l a x p' l' q' l1 l3 d :
  row_in r p l a x p' l' q' l1 l3 → newline_count a ≤ r → u32_ok r → 0 ≤ d ≤ str_len x → sized (a ++ x) →
  PointUtf16.add (point_utf16_of a) (PointUtf16.mk (r - newline_count a) d) = PointUtf16.mk r (utf16_len l1 + d).
Proof. exact (add_in_row (HK := point_utf16_row_key) r p l a x p' l' q' l1 l3 d). Qed.

Section row_key.
Context {K D : Type} `{HK : RowKey K cmp sub add f mk} `{TextPosition D}.
Context (w : Z) (t : Rope.t) (s : str) (r c : Z) (p l q : str).
Context (Ht : holds w t s) (Hrow : row_at s r p l q) (Hr : u32_ok r) (Hc : u32_ok c).

Lemma found_key a x p' l' q' l1 l3 :
  found_row f r c p l a x p' l' q' l1 l3 → sized a →
  sub (mk r c) (pos K a) = mk (r - newline_count a) (c - f l1).
Proof.
  intros [Hin _ Hle Hst _] Ha.
  rewrite (rk_sub (add := add) (f := f)) by (done || intros Er; by rewrite <- (ri_first _ _ _ _ _ _ _ _ _ _ Hin Er)).
  do 2 f_equal. destruct (Z.eqb_spec r (newline_count a)) as [E|E].
  - by rewrite (ri_first _ _ _ _ _ _ _ _ _ _ Hin E).
  - rewrite (ri_later _ _ _ _ _ _ _ _ _ _ Hin E). symmetry. apply (rk_nil (RowKey := HK)).
Qed.

Lemma key_located bias a item :
  located (λ u, cmp (mk r c) (pos K u)) bias s a item →
  (item = None ∧ a = s ∧ q = [] ∧ f l ≤ c) ∨
  ∃ x p' l' q' l1 l3 rest, item = Some (chunk_of x) ∧ s = a ++ x ++ rest ∧ found_row f r c p l a x p' l' q' l1 l3.
Proof.
  intros Hl. destruct (holds_text _ _ _ Ht) as [_ Hs].
  apply (row_located f (rk_nil (RowKey := HK)) bias); [|done|].
  - eapply located_ext; [|exact Hl]. intros u v ->. apply (rk_cmp (RowKey := HK)); [done|done|].
    by apply sized_app in Hs as [? _].
  - unfold in_width in Hc. lia.
Qed.
(** What is found before the end of the text, and for [clip] before or at it. *)
Record row_found (a x p' l' q' l1 l3 rest : str) : Prop := {
  rf_text : s = a ++ x ++ rest;
  rf_row : found_row f r c p l a x p' l' q' l1 l3;
  rf_scalars : scalars x;
  rf_len : str_len x ≤ 128;
  rf_sized : sized (a ++ x);
  rf_sub : sub (mk r c) (pos K a) = mk (r - newline_count a) (c - f l1);
}.
Lemma row_found_intro a x p' l' q' l1 l3 rest :
  s = a ++ x ++ rest → found_row f r c p l a x p' l' q' l1 l3 → row_found a x p' l' q' l1 l3 rest.
Proof.
  intros E Hf. destruct (holds_text _ _ _ Ht) as [_ Hs]. rewrite E, app_assoc in Hs. apply sized_app in Hs as [Hs _].
  destruct (sized_app _ _ Hs) as [Ha _].
  destruct (fr_piece _ _ _ _ _ _ _ _ _ _ _ _ Hf) as (? & ? & _).
  split; [done|done|done|done|done|]. by apply (found_key _ x p' l' q' l1 l3).
Qed.

Lemma find_row :
  is_ge (in_row f r c s) = false →
  ∃ a x p' l' q' l1 l3 rest stop, row_found a x p' l' q' l1 l3 rest ∧
    TreeFind.find (by_first (V := D) cmp (mk r c)) Left t = Some (pos K a, pos D a, stop, Some (chunk_of x)).
Proof.
  intros Hge. pose proof (not_beyond f s r p l q c Hrow Hge) as Hq.
  destruct (find_located (D := K * D) (by_first cmp (mk r c)) Left w t s Ht) as (a & stop & item & E & Hl).
  destruct (key_located Left a item Hl) as [(_ & _ & -> & ?)|(x & p' & l' & q' & l1 & l3 & rest & -> & Es & Hf)].
  { destruct Hq; [done|lia]. }
  exists a, x, p', l', q', l1, l3, rest, stop. split; [by apply row_found_intro|done].
Qed.
Lemma seek_row :
  w < 6 ^ 16 → is_ge (in_row f r c s) = false →
  ∃ a x p' l' q' l1 l3 rest cur e, row_found a x p' l' q' l1 l3 rest ∧
    Cursor.seek (by_first (V := D) cmp (mk r c)) Left (Cursor.new t) = Some (cur, e) ∧
    Cursor.start cur = (pos K a, pos D a) ∧ Cursor.item cur = Some (Some (chunk_of x)).
Proof.
  intros Hw Hge. pose proof (not_beyond f s r p l q c Hrow Hge) as Hq.
  destruct (seek_located (D := K * D) (by_first cmp (mk r c)) Left w t s Ht Hw) as (cur & e & a & item & E & E1 & E2 & Hl).
  { unfold by_first. cbn [fst pos dimensions_position]. rewrite (rk_cmp (RowKey := HK)) by done.
    unfold in_row. change (newline_count []) with 0. change (last_line []) with (@nil Z). rewrite (rk_nil (RowKey := HK)).
    unfold in_width in Hr, Hc. destruct (Z.compare_spec r 0), (Z.compare_spec c 0); cbn; try done; lia. }
  destruct (key_located Left a item Hl) as [(_ & _ & -> & ?)|(x & p' & l' & q' & l1 & l3 & rest & -> & Es & Hf)].
  { destruct Hq; [done|lia]. }
  exists a, x, p', l', q', l1, l3, rest, cur, e. split; [by apply row_found_intro|done].
Qed.
Lemma clip_row :
  ∃ a stop item, TreeFind.find (cmp (mk r c)) Right t = Some (pos K a, stop, item) ∧
    ((item = None ∧ q = [] ∧ f l ≤ c) ∨
     ∃ x p' l' q' l1 l3 rest, item = Some (chunk_of x) ∧ row_found a x p' l' q' l1 l3 rest).
Proof.
  destruct (find_located (cmp (mk r c)) Right w t s Ht) as (a & stop & item & E & Hl).
  exists a, stop, item. split; [done|].
  destruct (key_located Right a item Hl) as [(-> & _ & -> & ?)|(x & p' & l' & q' & l1 & l3 & rest & -> & Es & Hf)].
  - by left.
  - right. exists x, p', l', q', l1, l3, rest. split; [done|]. by apply row_found_intro.
Qed.
End row_key.

(** *** UTF-16 columns in a part of a row *)
Lemma clipped16_app bias l1 m c : utf16_len l1 ≤ c → clipped16 bias (l1 ++ m) c = l1 ++ clipped16 bias m (c - utf16_len l1).
Proof.
  revert c; induction l1 as [|y l1 IH]; intros c Hc; [cbn; by rewrite Z.sub_0_r|].
  cbn [utf16_len] in Hc. pose proof (utf16_len_bounds l1). pose proof (len_utf16_cases y).
  assert (clipped16 bias ((y :: l1) ++ m) c = y :: clipped16 bias (l1 ++ m) (c - len_utf16 y)) as ->.
  { destruct bias; cbn [clipped16 prefix16 cover16 app]; [by rewrite (proj2 (Z.leb_le _ _)) by lia|by rewrite (proj2 (Z.ltb_lt _ _)) by lia]. }
  rewrite IH by lia. cbn [utf16_len app]. by replace (c - (len_utf16 y + utf16_len l1)) with (c - len_utf16 y - utf16_len l1) by lia.
Qed.
Lemma clipped16_within bias l m c : 0 ≤ c ≤ utf16_len l → clipped16 bias (l ++ m) c = clipped16 bias l c.
Proof.
  revert c; induction l as [|y l IH]; intros c Hc; cbn [utf16_len] in Hc.
  - assert (c = 0) as -> by lia. destruct m as [|z m]; [done|]. pose proof (len_utf16_cases z).
    destruct bias; cbn [clipped16 prefix16 cover16 app]; [by rewrite (proj2 (Z.leb_gt _ _)) by lia|done].
  - pose proof (utf16_len_bounds l). pose proof (len_utf16_cases y). destruct bias; cbn [clipped16 prefix16 cover16 app] in *.
    + destruct (Z.leb_spec (len_utf16 y) c); [|done]. f_equal. apply IH. lia.
    + destruct (Z.ltb_spec 0 c); [|done]. f_equal. destruct (Z.leb_spec 0 (c - len_utf16 y)); [apply IH; lia|].
      clear IH. destruct l as [|z l]; cbn [app cover16]; [|by rewrite (proj2 (Z.ltb_ge _ _)) by lia].
      destruct m; [done|]. cbn [cover16]. by rewrite (proj2 (Z.ltb_ge _ _)) by lia.
Qed.
Lemma clipped16_all bias l c : utf16_len l ≤ c → clipped16 bias l c = l.
Proof.
  intros Hc. rewrite <- (app_nil_r l) at 1. rewrite clipped16_app by done.
  destruct bias; cbn; by rewrite app_nil_r.
Qed.
Lemma clipped16_prefix bias l c : ∃ k, l = clipped16 bias l c ++ k.
Proof.
  revert c; induction l as [|y l IH]; intros c; [exists []; by destruct bias|].
  destruct bias; cbn [clipped16 prefix16 cover16].
  - destruct (len_utf16 y <=? c); [|by eexists]. destruct (IH (c - len_utf16 y)) as [k E]. exists k. cbn in *. congruence.
  - destruct (0 <? c); [|by eexists]. destruct (IH (c - len_utf16 y)) as [k E]. exists k. cbn in *. congruence.
Qed.
Lemma clipped16_row bias l1 l' l3 c :
  utf16_len l1 ≤ c → l3 = [] ∨ c ≤ utf16_len (l1 ++ l') →
  clipped16 bias (l1 ++ l' ++ l3) c = l1 ++ clipped16 bias l' (c - utf16_len l1).
Proof.
  intros H1 H3. rewrite clipped16_app by done. f_equal. destruct H3 as [->|H3]; [by rewrite app_nil_r|].
  rewrite utf16_len_app in H3. apply clipped16_within. lia.
Qed.

(** The text before a column of the row, in the rope and in the piece. *)
Section parts.
Context {K} `{HK : RowKey K cmp sub add f mk}.
Context (t : Rope.t) (s : str) (r c : Z) (p l : str) (a x p' l' q' l1 l3 rest : str).
Context (Hf : row_found (sub := sub) (f := f) (mk := mk) s r c p l a x p' l' q' l1 l3 rest).
Lemma part_row : row_at x (r - newline_count a) p' l' q'.
Proof. apply (ri_row _ _ _ _ _ _ _ _ _ _ (fr_in _ _ _ _ _ _ _ _ _ _ _ _ (rf_row _ _ _ _ _ _ _ _ _ _ _ _ _ Hf))). Qed.
Lemma part_line : l = l1 ++ l' ++ l3.
Proof. apply (ri_line _ _ _ _ _ _ _ _ _ _ (fr_in _ _ _ _ _ _ _ _ _ _ _ _ (rf_row _ _ _ _ _ _ _ _ _ _ _ _ _ Hf))). Qed.
Lemma part_before k : a ++ p' ++ k = p ++ l1 ++ k.
Proof.
  by rewrite !app_assoc, (ri_before _ _ _ _ _ _ _ _ _ _ (fr_in _ _ _ _ _ _ _ _ _ _ _ _ (rf_row _ _ _ _ _ _ _ _ _ _ _ _ _ Hf))).
Qed.
Lemma part_column : 0 ≤ c - f l1 ∧ (l3 = [] ∨ c ≤ f (l1 ++ l')).
Proof.
  pose proof (fr_start _ _ _ _ _ _ _ _ _ _ _ _ (rf_row _ _ _ _ _ _ _ _ _ _ _ _ _ Hf)).
  split; [lia|]. apply (fr_stop _ _ _ _ _ _ _ _ _ _ _ _ (rf_row _ _ _ _ _ _ _ _ _ _ _ _ _ Hf)).
Qed.
End parts.

(** *** Conversions by rows *)
(** What is known of the chunk that was found. *)
Notation find_point D :=
  (find_row (D := D) (cmp := Point.cmp) (sub := Point.sub) (add := Point.add) (f := str_len) (mk := Point.mk)).
Notation find_point16 D :=
  (find_row (D := D) (cmp := PointUtf16.cmp) (sub := PointUtf16.sub) (add := PointUtf16.add) (f := utf16_len) (mk := PointUtf16.mk)).
Notation seek_point16 D :=
  (seek_row (D := D) (cmp := PointUtf16.cmp) (sub := PointUtf16.sub) (add := PointUtf16.add) (f := utf16_len) (mk := PointUtf16.mk)).
Ltac open_row Hf :=
  match type of Hf with
  | row_found ?s ?r ?c ?p ?l ?a ?x ?p' ?l' ?q' ?l1 ?l3 ?rest =>
      pose proof (rf_scalars _ _ _ _ _ _ _ _ _ _ _ _ _ Hf) as Esc;
      pose proof (rf_len _ _ _ _ _ _ _ _ _ _ _ _ _ Hf) as El;
      pose proof (rf_sub _ _ _ _ _ _ _ _ _ _ _ _ _ Hf) as Esub;
      pose proof (fr_in _ _ _ _ _ _ _ _ _ _ _ _ (rf_row _ _ _ _ _ _ _ _ _ _ _ _ _ Hf)) as Ein;
      pose proof (fr_row _ _ _ _ _ _ _ _ _ _ _ _ (rf_row _ _ _ _ _ _ _ _ _ _ _ _ _ Hf)) as Ele;
      pose proof (rf_text _ _ _ _ _ _ _ _ _ _ _ _ _ Hf) as Etext;
      pose proof (part_row _ _ _ _ _ _ _ _ _ _ _ _ _ Hf) as Erow;
      pose proof (part_line _ _ _ _ _ _ _ _ _ _ _ _ _ Hf) as Eline;
      pose proof (part_before _ _ _ _ _ _ _ _ _ _ _ _ _ Hf) as Ebefore;
      pose proof (part_column _ _ _ _ _ _ _ _ _ _ _ _ _ Hf) as Ecol;
      pose proof (rf_sized _ _ _ _ _ _ _ _ _ _ _ _ _ Hf) as Esized;
      pose proof (f_equal str_len (Ebefore [])) as Estr;
      cbn [pos point_position point_utf16_position] in *; clear Hf
  end.
Ltac in_found_row T :=
  let Hf := fresh "Hf" in
  destruct T as (a & x & p' & l' & q' & l1 & l3 & rest & stop & Hf & ->); open_row Hf;
  cbn [mbind option_bind fst snd in_chunk_or pos usize_position point_position offset_utf16_position point_utf16_position];
  rewrite as_slice_ok.
Ltac in_sought_row T :=
  let Hf := fresh "Hf" in let Est := fresh "Est" in let Eit := fresh "Eit" in
  destruct T as (a & x & p' & l' & q' & l1 & l3 & rest & cur & e & Hf & -> & Est & Eit); open_row Hf;
  cbn [mbind option_bind]; rewrite Est, Eit;
  cbn [mbind option_bind fst snd in_chunk_or pos usize_position point_position offset_utf16_position point_utf16_position];
  rewrite as_slice_ok.
(** Whether a position in row [l] is accepted: in a release build all are; in a
    debug build a column is not beyond the row (of the last row it may be), nor
    inside of a character unless it is clipped. [q] is what follows the row. *)
Definition column_accepted (l q : str) (c : Z) : bool := (c <=? str_len l) || bool_decide (q = []).
Definition column16_accepted (l q : str) (c : Z) : bool := exact16 l c || bool_decide (q = [] ∧ utf16_len l ≤ c).
Section row_conversions.
Context (debug : bool) (w : Z) (t : Rope.t) (s : str) (r c : Z) (p l q : str).
Context (Ht : holds w t s) (Hw : w < 6 ^ 16) (Hrow : row_at s r p l q) (Hr : u32_ok r) (Hc : u32_ok c).

Lemma text_sized : sized s.
Proof. by apply (holds_text _ _ _ Ht). Qed.
Lemma row_text : q = [] → s = p ++ l.
Proof. intros ->. destruct Hrow as (-> & _). by rewrite app_nil_r. Qed.
Lemma summary_ends :
  TextSummary.len (summary t) = str_len s ∧ TextSummary.len_utf16 (summary t) = OffsetUtf16.mk (utf16_len s) ∧
  TextSummary.lines (summary t) = point_of s ∧ TextSummary.lines_utf16 (summary t) = point_utf16_of s.
Proof.
  assert (holds w t (s ++ [])) as H by (by rewrite app_nil_r).
  pose proof (ends_of w t s [] H) as E. rewrite app_nil_r in E. exact E.
Qed.

Lemma point_to_offset_row_rope :
  point_to_offset debug t (Point.mk r c) = accepted debug (column_accepted l q c) (str_len p + Z.min c (str_len l)).
Proof.
  unfold point_to_offset. destruct summary_ends as (-> & _ & -> & _).
  rewrite point_in_row by (done || apply text_sized).
  destruct (is_ge (in_row str_len r c s)) eqn:Hge.
  - destruct (is_beyond str_len s r p l q c Hrow Hge) as [Hq Hlc]. unfold column_accepted.
    rewrite (bool_decide_eq_true_2 (q = [])), orb_true_r, accepted_exact, (row_text Hq), str_len_app by done. do 2 f_equal. lia.
  - in_found_row (find_point Z w t s r c p l q Ht Hrow Hr Hc Hge).
    rewrite Esub, (point_to_offset_row debug x _ p' l' q' _ El Erow (proj1 Ecol)).
    assert ((c - str_len l1 <=? str_len l') = column_accepted l q c) as ->.
    { unfold column_accepted. pose proof (not_beyond str_len s r p l q c Hrow Hge) as Hnb. rewrite Eline, !str_len_app in *. pose proof (str_len_nonneg l3).
      apply eq_true_iff_eq. rewrite orb_true_iff, !Z.leb_le, bool_decide_eq_true. destruct Ecol as [_ [->|Ecol]]; cbn [str_len] in *.
      - split; [intros ?; left; lia|]. intros [?|Hq]; [lia|]. destruct Hnb; [done|lia].
      - rewrite ?str_len_app in Ecol. split; [intros ?; left; lia|lia]. }
    unfold accepted. destruct (debug && _); [done|]. cbn [mbind option_bind].
    rewrite !str_len_app in Estr.
    assert (str_len l3 = 0 ∨ c ≤ str_len l1 + str_len l') as Hc3
      by (rewrite str_len_app in Ecol; destruct (proj2 Ecol) as [->|?]; [by left|by right]).
    destruct Ecol as [Ecol _]. rewrite Eline. destruct Erow as (-> & _). f_equal. lens.
Qed.

(** UTF-16 columns. *)
Lemma prefix_in_row l1 l' l3 :
  l = l1 ++ l' ++ l3 → 0 ≤ c - utf16_len l1 ∧ (l3 = [] ∨ c ≤ utf16_len (l1 ++ l')) →
  prefix16 l c = l1 ++ prefix16 l' (c - utf16_len l1).
Proof. intros -> [H1 H2]. by apply (clipped16_row Left); [lia|]. Qed.
Lemma prefix_end : q = [] ∧ utf16_len l ≤ c → p ++ prefix16 l c = s ∧ prefix16 l c = l.
Proof. intros [Hq Hl]. pose proof (clipped16_all Left l c Hl) as E. cbn in E. by rewrite E, (row_text Hq). Qed.

(** In the part of the row that the chunk has. *)
Lemma part_accepted l1 l' l3 :
  l = l1 ++ l' ++ l3 → 0 ≤ c - utf16_len l1 ∧ (l3 = [] ∨ c ≤ utf16_len (l1 ++ l')) → is_ge (in_row utf16_len r c s) = false →
  exact16 l' (c - utf16_len l1) = column16_accepted l q c.
Proof.
  intros El Hcol Hge. pose proof (not_beyond utf16_len s r p l q c Hrow Hge) as Hnb. unfold column16_accepted, exact16.
  rewrite (prefix_in_row _ _ _ El Hcol), utf16_len_app. rewrite (bool_decide_eq_false_2 (q = [] ∧ _)), orb_false_r by (intros [? ?]; destruct Hnb; [done|lia]).
  apply eq_true_iff_eq. rewrite !Z.eqb_eq. lia.
Qed.
Lemma end_accepted : q = [] ∧ utf16_len l ≤ c → column16_accepted l q c = true.
Proof. intros H. unfold column16_accepted. by rewrite (bool_decide_eq_true_2 _ H), orb_true_r. Qed.
Lemma point_utf16_to_offset_rope clip :
  point_utf16_to_offset_impl debug t (PointUtf16.mk r c) clip = accepted debug (clip || column16_accepted l q c) (str_len (p ++ prefix16 l c)).
Proof.
  unfold point_utf16_to_offset_impl. destruct summary_ends as (-> & _ & _ & ->).
  rewrite point_utf16_in_row by (done || apply text_sized).
  destruct (is_ge (in_row utf16_len r c s)) eqn:Hge.
  - pose proof (is_beyond utf16_len s r p l q c Hrow Hge) as Hq. rewrite (end_accepted Hq), orb_true_r, accepted_exact.
    destruct (prefix_end Hq) as [-> _]. done.
  - in_found_row (find_point16 Z w t s r c p l q Ht Hrow Hr Hc Hge).
    rewrite Esub, (point_utf16_to_offset_row debug x _ p' l' q' _ clip Esc El Erow (proj1 Ecol)), (part_accepted _ _ _ Eline Ecol Hge).
    unfold accepted. destruct (debug && _); [done|]. cbn [mbind option_bind].
    rewrite (prefix_in_row _ _ _ Eline Ecol), <- (Ebefore (prefix16 l' _)).
    destruct (clipped16_prefix Left l' (c - utf16_len l1)) as [k Ek]. cbn [clipped16] in Ek.
    destruct Erow as (Ex & _). rewrite Ex, Ek in Esized. f_equal. clear - Esized. lens.
Qed.
Lemma point_utf16_to_offset_utf16_rope clip :
  point_utf16_to_offset_utf16_impl debug t (PointUtf16.mk r c) clip = accepted debug (clip || column16_accepted l q c) (OffsetUtf16.mk (utf16_len (p ++ prefix16 l c))).
Proof.
  unfold point_utf16_to_offset_utf16_impl. destruct summary_ends as (_ & -> & _ & ->).
  rewrite point_utf16_in_row by (done || apply text_sized).
  destruct (is_ge (in_row utf16_len r c s)) eqn:Hge.
  - pose proof (is_beyond utf16_len s r p l q c Hrow Hge) as Hq. rewrite (end_accepted Hq), orb_true_r, accepted_exact.
    destruct (prefix_end Hq) as [-> _]. done.
  - in_sought_row (seek_point16 OffsetUtf16.t w t s r c p l q Ht Hrow Hr Hc Hw Hge).
    rewrite Esub, (point_utf16_to_offset_row debug x _ p' l' q' _ clip Esc El Erow (proj1 Ecol)), (part_accepted _ _ _ Eline Ecol Hge).
    unfold accepted. destruct (debug && _); [done|]. cbn [mbind option_bind].
    destruct (clipped16_prefix Left l' (c - utf16_len l1)) as [k Ek]. cbn [clipped16] in Ek.
    destruct Erow as (Ex & _). 
    assert (x = (p' ++ prefix16 l' (c - utf16_len l1)) ++ k ++ q') as Ex' by (rewrite Ex, Ek at 1; by rewrite <- !app_assoc).
    rewrite Ex' in El |- *. rewrite offset_to_offset_utf16_ok by done.
    rewrite (prefix_in_row _ _ _ Eline Ecol), <- (Ebefore (prefix16 l' _)). unfold OffsetUtf16.add. cbn [OffsetUtf16.offset].
    do 2 f_equal. rewrite Ex' in Esized. rewrite !app_assoc in Esized. apply sized_app in Esized as [Es _].
    apply sized_app in Es as [Es _]. rewrite !app_assoc. rewrite utf16_len_app. 
    destruct (sized_bounds _ Es) as [_ Hb]. rewrite utf16_len_app in Hb. 
    rewrite !utf16_len_app in *. rewrite wrap64_id by width. lia.
Qed.
Lemma prefix_in_piece bias l' n x p' q' :
  x = p' ++ l' ++ q' → 0 ≤ str_len (clipped16 bias l' n) ≤ str_len x ∧ 0 ≤ utf16_len (clipped16 bias l' n) ≤ str_len x.
Proof.
  intros ->. destruct (clipped16_prefix bias l' n) as [k E]. apply (f_equal str_len) in E. rewrite str_len_app in E.
  pose proof (utf16_len_bounds (clipped16 bias l' n)). rewrite !str_len_app. pose_lens. lia.
Qed.
Lemma end_point : q = [] → point_of s = Point.mk r (str_len l) ∧ point_utf16_of s = PointUtf16.mk r (utf16_len l).
Proof.
  intros Hq. rewrite (row_text Hq). destruct Hrow as (_ & Hn & Hp & Hl & _). unfold point_of, point_utf16_of.
  rewrite newline_count_app, (newline_count_none l Hl), last_line_app, Hn, Z.add_0_r by done. done.
Qed.
Lemma unclipped_rope :
  unclipped_point_utf16_to_point t (Unclipped.mk (PointUtf16.mk r c)) = Some (Point.mk r (str_len (prefix16 l c))).
Proof.
  unfold unclipped_point_utf16_to_point. cbn [Unclipped.inner]. destruct summary_ends as (_ & _ & -> & ->).
  rewrite point_utf16_in_row by (done || apply text_sized).
  destruct (is_ge (in_row utf16_len r c s)) eqn:Hge.
  - pose proof (is_beyond utf16_len s r p l q c Hrow Hge) as [Hq Hl].
    destruct (prefix_end (conj Hq Hl)) as [_ ->]. by destruct (end_point Hq) as [-> _].
  - in_found_row (find_point16 Point.t w t s r c p l q Ht Hrow Hr Hc Hge).
    rewrite Esub, (unclipped_row x _ p' l' q' _ Esc El Erow (proj1 Ecol)). cbn [mbind option_bind].
    rewrite (prefix_in_row _ _ _ Eline Ecol), str_len_app. f_equal. 
    apply (add_point r p l a x p' l' q' l1 l3); [done|done|done| |done].
    destruct Erow as (Ex & _). apply (prefix_in_piece Left l' (c - utf16_len l1) x p' q' Ex).
Qed.
Lemma point_utf16_to_point_rope :
  point_utf16_to_point debug t (PointUtf16.mk r c) = accepted debug (column16_accepted l q c) (Point.mk r (str_len (prefix16 l c))).
Proof.
  unfold point_utf16_to_point. destruct summary_ends as (_ & _ & -> & ->).
  rewrite point_utf16_in_row by (done || apply text_sized).
  destruct (is_ge (in_row utf16_len r c s)) eqn:Hge.
  - pose proof (is_beyond utf16_len s r p l q c Hrow Hge) as [Hq Hl]. rewrite (end_accepted (conj Hq Hl)), accepted_exact.
    destruct (prefix_end (conj Hq Hl)) as [_ ->]. by destruct (end_point Hq) as [-> _].
  - in_sought_row (seek_point16 Point.t w t s r c p l q Ht Hrow Hr Hc Hw Hge).
    rewrite Esub, (point_utf16_to_offset_row debug x _ p' l' q' _ false Esc El Erow (proj1 Ecol)), (part_accepted _ _ _ Eline Ecol Hge). cbn [orb].
    unfold accepted. destruct (debug && _); [done|]. cbn [mbind option_bind].
    destruct (clipped16_prefix Left l' (c - utf16_len l1)) as [k Ek]. cbn [clipped16] in Ek.
    pose proof Erow as (Ex & Hn & Hp' & Hl' & _).
    assert (x = (p' ++ prefix16 l' (c - utf16_len l1)) ++ k ++ q') as Ex' by (rewrite Ex, Ek at 1; by rewrite <- !app_assoc).
    rewrite Ex' in El. pose proof (offset_to_point_ok _ _ El) as Eo. rewrite <- Ex' in Eo. rewrite Eo.
    rewrite (prefix_in_row _ _ _ Eline Ecol), str_len_app. f_equal.
    assert (no_newline (prefix16 l' (c - utf16_len l1))) as Hk by (rewrite Ek in Hl'; by apply no_newline_app in Hl' as [? _]).
    unfold point_of at 2. rewrite newline_count_app, (newline_count_none _ Hk), last_line_app, Hn, Z.add_0_r by done.
    apply (add_point r p l a x p' l' q' l1 l3); [done|done|done| |done].
    apply (prefix_in_piece Left l' (c - utf16_len l1) x p' q' Ex).
Qed.
Lemma clip_point_utf16_rope bias :
  clip_point_utf16 t (Unclipped.mk (PointUtf16.mk r c)) bias = Some (PointUtf16.mk r (utf16_len (clipped16 bias l c))).
Proof.
  unfold clip_point_utf16. cbn [Unclipped.inner].
  destruct (clip_row (K := PointUtf16.t) (cmp := PointUtf16.cmp) (sub := PointUtf16.sub) (add := PointUtf16.add)
    (f := utf16_len) (mk := PointUtf16.mk) w t s r c p l q Ht Hrow Hr Hc) as (a & stop & item & -> & [(-> & Hq & Hl)|Hf]).
  - cbn [mbind option_bind]. destruct summary_ends as (_ & _ & _ & ->). destruct (end_point Hq) as [_ ->].
    by rewrite clipped16_all.
  - destruct Hf as (x & p' & l' & q' & l1 & l3 & rest & -> & Hf). open_row Hf. cbn [mbind option_bind pos point_utf16_position].
    rewrite as_slice_ok, Esub, (clip_point_utf16_row x _ p' l' q' _ bias Esc El Erow (proj1 Ecol)). cbn [mbind option_bind].
    rewrite Eline, (clipped16_row bias l1 l' l3 c), utf16_len_app by (destruct Ecol; lia || done). f_equal.
    apply (add_point16 r p l a x p' l' q' l1 l3); [done|done|done| |done].
    destruct Erow as (Ex & _). apply (prefix_in_piece bias l' (c - utf16_len l1) x p' q' Ex).
Qed.
End row_conversions.

(** Rows after the last one. *)
Section beyond.
Context (debug : bool) (w : Z) (t : Rope.t) (s : str) (r c : Z).
Context (Ht : holds w t s) (Hr : u32_ok r) (Hc : u32_ok c) (Hlast : newline_count s < r).

Lemma beyond_guard :
  is_ge (Point.cmp (Point.mk r c) (point_of s)) = true ∧ is_ge (PointUtf16.cmp (PointUtf16.mk r c) (point_utf16_of s)) = true.
Proof.
  destruct (holds_text _ _ _ Ht) as [_ Hs].
  rewrite point_in_row, point_utf16_in_row by done. split; by apply beyond_last_row.
Qed.
Lemma beyond_item f a item : located (in_row f r c) Right s a item → item = None.
Proof.
  intros [y x rest E _ _ Hstop|_]; [|done]. exfalso.
  pose proof (in_row_cases f r c (y ++ x) Right) as H. rewrite Hstop in H.
  rewrite E, app_assoc, newline_count_app in Hlast. pose proof (newline_count_nonneg rest). lia.
Qed.
Lemma beyond_find {K} `{HK : RowKey K cmp sub add f mk} :
  ∃ a stop, TreeFind.find (cmp (mk r c)) Right t = Some (pos K a, stop, None).
Proof.
  destruct (holds_text _ _ _ Ht) as [_ Hs].
  destruct (find_located (cmp (mk r c)) Right w t s Ht) as (a & stop & item & E & Hl).
  exists a, stop. rewrite E. do 2 f_equal. apply (beyond_item f a). eapply located_ext; [|exact Hl].
  intros u v ->. apply (rk_cmp (RowKey := HK)); [done|done|]. by apply sized_app in Hs as [? _].
Qed.
Lemma beyond_ok clip bias :
  point_to_offset debug t (Point.mk r c) = Some (str_len s) ∧
  point_utf16_to_offset_impl debug t (PointUtf16.mk r c) clip = Some (str_len s) ∧
  point_utf16_to_offset_utf16_impl debug t (PointUtf16.mk r c) clip = Some (OffsetUtf16.mk (utf16_len s)) ∧
  point_utf16_to_point debug t (PointUtf16.mk r c) = Some (point_of s) ∧
  unclipped_point_utf16_to_point t (Unclipped.mk (PointUtf16.mk r c)) = Some (point_of s) ∧
  clip_point_utf16 t (Unclipped.mk (PointUtf16.mk r c)) bias = Some (point_utf16_of s).
Proof.
  destruct beyond_guard as [G1 G2]. destruct (summary_ends w t s Ht) as (E1 & E2 & E3 & E4).
  unfold point_to_offset, point_utf16_to_offset_impl, point_utf16_to_offset_utf16_impl, point_utf16_to_point,
    unclipped_point_utf16_to_point, clip_point_utf16. cbn [Unclipped.inner].
  rewrite E1, E2, E3, E4, G1, G2. split_and!; try done.
  destruct (beyond_find (cmp := PointUtf16.cmp) (sub := PointUtf16.sub) (add := PointUtf16.add) (mk := PointUtf16.mk))
    as (a & stop & ->). done.
Qed.
End beyond.

(** An offset in UTF-16 units is clipped as in the whole text. *)
Lemma clip_offset_utf16_rope w t s n bias :
  holds w t s → 0 ≤ n < 2 ^ 64 →
  clip_offset_utf16 t (OffsetUtf16.mk n) bias = Some (OffsetUtf16.mk (utf16_len (clipped16 bias s n))).
Proof.
  intros Ht Hn. unfold clip_offset_utf16. destruct (holds_text _ _ _ Ht) as [_ Hs].
  destruct (find_located (OffsetUtf16.cmp (OffsetUtf16.mk n)) Right w t s Ht) as (a & stop & item & -> & Hl).
  cbn [mbind option_bind]. destruct Hl as [a x rest -> (Hsc & Hlen & _) Ha Hax|Hend].
  - change (OffsetUtf16.cmp _ (pos OffsetUtf16.t (a ++ x))) with (n ?= utf16_len (a ++ x)) in Hax.
    change (OffsetUtf16.cmp _ (pos OffsetUtf16.t a)) with (n ?= utf16_len a) in Ha.
    assert (utf16_len a ≤ n) as H1.
    { destruct Ha as [->|Ha]; [cbn; lia|]. by destruct (Z.compare_spec n (utf16_len a)); try lia. }
    assert (n < utf16_len (a ++ x)) as H2 by (destruct (Z.compare_spec n (utf16_len (a ++ x))); done).
    rewrite app_assoc in Hs. apply sized_app in Hs as [Hs _]. destruct (sized_bounds _ Hs) as [_ Hb].
    rewrite clipped16_row by (done || right; lia). rewrite utf16_len_app in *.
    pose proof (utf16_len_bounds a). pose proof (utf16_len_bounds x).
    rewrite as_slice_ok. cbn [pos offset_utf16_position]. unfold OffsetUtf16.sub. cbn [OffsetUtf16.offset].
    rewrite (wrap64_id (n - utf16_len a)) by width. rewrite clip_offset_utf16_ok by (done || lia).
    cbn [mbind option_bind]. unfold OffsetUtf16.add. cbn [OffsetUtf16.offset]. do 2 f_equal.
    pose proof (clipped16_bounds bias x (n - utf16_len a) ltac:(lia)) as Hcb. rewrite wrap64_id by width. done.
  - destruct (summary_ends w t s Ht) as (_ & -> & _). rewrite clipped16_all; [done|].
    destruct Hend as [->|Hend]; [cbn; lia|].
    change (OffsetUtf16.cmp _ (pos OffsetUtf16.t s)) with (n ?= utf16_len s) in Hend.
    by destruct (Z.compare_spec n (utf16_len s)); try lia.
Qed.

(** *** Clipping to grapheme clusters *)
Section graphemes.
Variable is_boundary : list Z → Z → bool.
Hypothesis boundary_start : ∀ text, is_boundary text 0 = true.
Hypothesis boundary_end : ∀ text, is_boundary text (Utf8.len text) = true.

(** Column [c'] of the row [l]: where clipping column [c] leads. Inside of the part
    [l'] of the row that is in the chunk, to the nearest boundary. *)
Record clipped (bias : bias) (l : str) (c c' : Z) : Prop := {
  cl_boundary : Utf8.is_char_boundary (encode l) c' = true;
  cl_range : 0 ≤ c' ≤ str_len l;
  cl_before : bias = Left → c' ≤ c;
  cl_after : bias = Right → Z.min c (str_len l) ≤ c';
  cl_end : str_len l ≤ c → c' = str_len l;
  cl_nearest : 0 < c < str_len l → c' = c ∨
    ∃ l1 l' l3, l = l1 ++ l' ++ l3 ∧ nearest is_boundary bias l' (c - str_len l1) (c' - str_len l1);
}.

Lemma clipped_in_chunk bias x r p' l' q' l1 l3 l n :
  scalars x → scalars l → str_len x ≤ 128 → row_at x r p' l' q' → l = l1 ++ l' ++ l3 →
  0 ≤ n → l3 = [] ∨ n ≤ str_len l' →
  ∃ c, ChunkSlice.clip_point is_boundary (slice_of x) (Point.mk r n) bias = Some (Point.mk r c) ∧
    0 ≤ c ≤ str_len l' ∧ clipped bias l (str_len l1 + n) (str_len l1 + c).
Proof.
  intros Hx Hl Hlen Hrow El Hn Hl3.
  destruct (clip_point_correct is_boundary boundary_start boundary_end x r p' l' q' n bias Hx Hlen Hn) as [_ H].
  destruct (H Hrow) as (c & E & Hb & Hc & H0 & Hend & Hin). exists c. split; [done|]. split; [done|]. clear H E.
  assert (str_len l = str_len l1 + str_len l' + str_len l3) as Elen by (rewrite El, !str_len_app; lia).
  pose proof (str_len_nonneg l1). pose proof (str_len_nonneg l3).
  assert (str_len l3 = 0 ∨ n ≤ str_len l') as Hl3' by (destruct Hl3 as [->|?]; [by left|by right]).
  assert (match bias with Left => c ≤ n | Right => Z.min n (str_len l') ≤ c end ∧
    (0 < n < str_len l' → c = n ∨ nearest is_boundary bias l' n c)) as [Hside Hnear].
  { destruct (Z.eq_dec n 0) as [->|Hn0]; [rewrite (H0 eq_refl); destruct bias; lia|].
    destruct (Z.le_gt_cases (str_len l') n) as [Hge|Hlt]; [rewrite (Hend Hge); destruct bias; lia|].
    specialize (Hin ltac:(lia)). destruct (_ && _); [subst c; split; [destruct bias; lia|by left]|].
    split; [|by right]. destruct Hin as [_ Hin]. destruct bias; lia. }
  split.
  - rewrite El in Hl |- *. rewrite boundary_in_piece by (done || rewrite str_len_app; lia).
    by replace (str_len l1 + c - str_len l1) with c by lia.
  - lia.
  - intros ->. lia.
  - intros ->. lia.
  - intros Hge. rewrite Hend by lia. lia.
  - intros Hr. destruct (Z.eq_dec c n) as [->|Hne]; [by left|right]. exists l1, l', l3. split; [done|].
    assert (0 < n < str_len l') as Hn'.
    { destruct (Z.eq_dec n 0) as [->|?]; [specialize (H0 eq_refl); lia|]. destruct (Z.le_gt_cases (str_len l') n); [|lia].
      specialize (Hend ltac:(lia)). lia. }
    destruct (Hnear Hn') as [?|?]; [lia|]. by replace (str_len l1 + n - str_len l1) with n by lia; replace (str_len l1 + c - str_len l1) with c by lia.
Qed.

Lemma clip_point_rope w t s r c p l q bias :
  holds w t s → u32_ok r → u32_ok c → row_at s r p l q →
  ∃ c', clip_point is_boundary t (Point.mk r c) bias = Some (Point.mk r c') ∧ clipped bias l c c'.
Proof.
  intros Ht Hr Hc Hrow. unfold clip_point. destruct (holds_text _ _ _ Ht) as [Hsc Hs].
  assert (scalars l) as Hl by (destruct Hrow as (-> & _); apply Forall_app in Hsc as [_ Hsc]; by apply Forall_app in Hsc as [? _]).
  destruct (clip_row (K := Point.t) (cmp := Point.cmp) (sub := Point.sub) (add := Point.add)
    (f := str_len) (mk := Point.mk) w t s r c p l q Ht Hrow Hr Hc) as (a & stop & item & -> & [(-> & Hq & Hle)|Hf]).
  - cbn [mbind option_bind]. destruct (summary_ends w t s Ht) as (_ & _ & -> & _).
    edestruct end_point as [-> _]; [exact Ht|exact Hrow|exact Hq|]. exists (str_len l). split; [done|]. pose proof (str_len_nonneg l).
    split; try lia. rewrite <- (app_nil_r l) at 1. apply boundary_app. by rewrite app_nil_r.
  - destruct Hf as (x & p' & l' & q' & l1 & l3 & rest & -> & Hf). open_row Hf. cbn [mbind option_bind pos point_position].
    rewrite as_slice_ok, Esub. destruct Ecol as [Ecol Ecol3].
    destruct (clipped_in_chunk bias x _ p' l' q' l1 l3 l (c - str_len l1) Esc Hl El Erow Eline Ecol) as (d & -> & Hd & Hcl).
    { destruct Ecol3 as [?|H]; [by left|right]. rewrite str_len_app in H. lia. }
    cbn [mbind option_bind]. exists (str_len l1 + d). split.
    + f_equal. apply (add_point r p l a x p' l' q' l1 l3); [done|done|done| |done].
      destruct Erow as (-> & _). rewrite !str_len_app. pose_lens. lia.
    + by replace (str_len l1 + (c - str_len l1)) with c in Hcl by lia.
Qed.
Lemma clip_point_beyond w t s r c bias :
  holds w t s → u32_ok r → u32_ok c → newline_count s < r →
  clip_point is_boundary t (Point.mk r c) bias = Some (point_of s).
Proof.
  intros Ht Hr Hc Hlast. unfold clip_point.
  destruct (beyond_find w t s r c Ht Hr Hc Hlast (cmp := Point.cmp) (sub := Point.sub) (add := Point.add) (mk := Point.mk))
    as (a & stop & ->). by destruct (summary_ends w t s Ht) as (_ & _ & -> & _).
Qed.
End graphemes.

(** *** Rows *)
Lemma zero_column : u32_ok 0.
Proof. width. Qed.
Lemma slice_rows_ok debug w t s r1 r2 p1 m l1 q1 d :
  holds w t s → w < 6 ^ 16 → u32_ok r1 → u32_ok r2 → row_at s r1 p1 l1 q1 → s = p1 ++ m ++ d →
  (∃ l2 q2, row_at s r2 (p1 ++ m) l2 q2) ∨ newline_count s < r2 ∧ d = [] →
  ∃ t', slice_rows debug t r1 r2 = Some t' ∧ holds (w + 3) t' m.
Proof.
  intros Ht Hw Hr1 Hr2 H1 Es H2. unfold slice_rows, Point.new.
  assert (∀ l, Z.min 0 (str_len l) = 0) as Hmin by (intros l; pose proof (str_len_nonneg l); lia).
  assert (∀ l q, column_accepted l q 0 = true) as Hacc.
  { intros l q. unfold column_accepted. pose proof (str_len_nonneg l). by rewrite (proj2 (Z.leb_le _ _)). }
  rewrite (point_to_offset_row_rope debug w t s r1 0 p1 l1 q1 Ht H1 Hr1 zero_column). rewrite Hacc, accepted_exact, Hmin, Z.add_0_r. cbn [mbind option_bind].
  assert (point_to_offset debug t (Point.mk r2 0) = Some (str_len (p1 ++ m))) as ->.
  { destruct H2 as [(l2 & q2 & H2)|[H2 ->]].
    - rewrite (point_to_offset_row_rope debug w t s r2 0 _ l2 q2 Ht H2 Hr2 zero_column). by rewrite Hacc, accepted_exact, Hmin, Z.add_0_r.
    - rewrite app_nil_r in Es. rewrite <- Es. by apply (beyond_ok debug w t s r2 0 Ht Hr2 zero_column H2 false Left). }
  cbn [mbind option_bind]. subst s. by apply (slice_range_ok w t p1 m d).
Qed.

(** C32: Every conversion of a rope between byte offsets, points, UTF-16 offsets and
    UTF-16 points is exact at every boundary of the text: it maps the position
    after a prefix [a] to the other position after [a], in whatever chunk and at
    whatever seam that is, so there and back is the identity; a debug build does
    not panic there. *)
Theorem rope_positions_roundtrip debug w r a b :
  holds w r (a ++ b) → w < 6 ^ 16 →
  offset_to_point r (str_len a) = Some (point_of a) ∧ point_to_offset debug r (point_of a) = Some (str_len a) ∧
  offset_to_offset_utf16 r (str_len a) = Some (OffsetUtf16.mk (utf16_len a)) ∧
  offset_utf16_to_offset r (OffsetUtf16.mk (utf16_len a)) = Some (str_len a) ∧
  offset_to_point_utf16 r (str_len a) = Some (point_utf16_of a) ∧
  point_utf16_to_offset debug r (point_utf16_of a) = Some (str_len a) ∧
  unclipped_point_utf16_to_offset debug r (Unclipped.mk (point_utf16_of a)) = Some (str_len a) ∧
  point_to_point_utf16 debug r (point_of a) = Some (point_utf16_of a) ∧
  point_utf16_to_point debug r (point_utf16_of a) = Some (point_of a) ∧
  unclipped_point_utf16_to_point r (Unclipped.mk (point_utf16_of a)) = Some (point_of a) ∧
  point_to_offset_utf16 debug r (point_of a) = Some (OffsetUtf16.mk (utf16_len a)) ∧
  point_utf16_to_offset_utf16 debug r (point_utf16_of a) = Some (OffsetUtf16.mk (utf16_len a)).
Proof.
  intros Hr Hw.
  split_and!; eauto using rope_offset_to_point, rope_point_to_offset, rope_offset_to_offset_utf16, rope_offset_utf16_to_offset,
    rope_offset_to_point_utf16, rope_point_utf16_to_offset, rope_point_to_point_utf16, rope_point_utf16_to_point,
    rope_unclipped_to_point, rope_point_to_offset_utf16, rope_point_utf16_to_offset_utf16.
Qed.

(** C34: Positions from outside are clamped to the text of the rope: in row
    [l] of the text a column beyond the row goes to its end, a UTF-16 column between
    the two units of a character to its start (or to its end, if it is clipped to
    the right), a row beyond the last one goes to the end of the text. The chunk
    where the row was cut and the row inside of the chunk make no difference. What
    is clipped ([clip_*], [unclipped_*] and [clip] set) is so in every build. The
    other conversions clamp in a release build only: a debug build panics exactly
    at a column that is beyond a row which is not the last one, and at a UTF-16
    column inside of a character. *)
Theorem rope_clip_correct debug w t s r c p l q n bias clip :
  holds w t s → w < 6 ^ 16 → u32_ok r → u32_ok c → 0 ≤ n < 2 ^ 64 →
  let utf16 := PointUtf16.mk r c in
  (row_at s r p l q →
   point_to_offset debug t (Point.mk r c)
     = (if debug && negb (column_accepted l q c) then None else Some (str_len p + Z.min c (str_len l))) ∧
   point_utf16_to_offset_impl debug t utf16 clip
     = (if debug && negb (clip || column16_accepted l q c) then None else Some (str_len (p ++ prefix16 l c))) ∧
   point_utf16_to_offset_utf16_impl debug t utf16 clip
     = (if debug && negb (clip || column16_accepted l q c) then None else Some (OffsetUtf16.mk (utf16_len (p ++ prefix16 l c)))) ∧
   point_utf16_to_point debug t utf16
     = (if debug && negb (column16_accepted l q c) then None else Some (Point.mk r (str_len (prefix16 l c)))) ∧
   unclipped_point_utf16_to_point t (Unclipped.mk utf16) = Some (Point.mk r (str_len (prefix16 l c))) ∧
   clip_point_utf16 t (Unclipped.mk utf16) bias = Some (PointUtf16.mk r (utf16_len (clipped16 bias l c)))) ∧
  (newline_count s < r →
   point_to_offset debug t (Point.mk r c) = Some (str_len s) ∧
   point_utf16_to_offset_impl debug t utf16 clip = Some (str_len s) ∧
   point_utf16_to_offset_utf16_impl debug t utf16 clip = Some (OffsetUtf16.mk (utf16_len s)) ∧
   point_utf16_to_point debug t utf16 = Some (point_of s) ∧
   unclipped_point_utf16_to_point t (Unclipped.mk utf16) = Some (point_of s) ∧
   clip_point_utf16 t (Unclipped.mk utf16) bias = Some (point_utf16_of s)) ∧
  clip_offset_utf16 t (OffsetUtf16.mk n) bias = Some (OffsetUtf16.mk (utf16_len (clipped16 bias s n))) ∧
  clip_offset t n bias = Some (match bias with
                               | Left => Utf8.floor_char_boundary (encode s) n
                               | Right => Utf8.ceil_char_boundary (encode s) n
                               end).
Proof.
  intros Ht Hw Hr Hc Hn utf16. split.
  - intros Hrow. split_and!; eauto using point_to_offset_row_rope, point_utf16_to_offset_rope, point_utf16_to_offset_utf16_rope,
      point_utf16_to_point_rope, unclipped_rope, clip_point_utf16_rope.
  - split; [intros Hlast; by apply (beyond_ok debug w)|]. split; [by apply (clip_offset_utf16_rope w)|].
    destruct (floor_ceil_rope w t s n Ht Hn) as [? ?]. by destruct bias.
Qed.

(** Clipping a point always ends, at a boundary of characters in the same row, on the
    side of the bias, at the end of the row for a column beyond it, and nowhere
    else than at the nearest boundary of grapheme clusters of the part of the row
    in the chunk; so [line_len] is the length of the row (of the last one for
    rows beyond it), and [slice_rows] cuts out whole rows. *)
Theorem rope_clip_point_correct debug is_boundary w t s r c p l q bias r2 m d :
  (∀ text, is_boundary text 0 = true) → (∀ text, is_boundary text (Utf8.len text) = true) →
  holds w t s → w < 6 ^ 16 → u32_ok r → u32_ok c → u32_ok r2 →
  (row_at s r p l q →
   (∃ c', clip_point is_boundary t (Point.mk r c) bias = Some (Point.mk r c') ∧ clipped is_boundary bias l c c') ∧
   line_len is_boundary t r = Some (str_len l) ∧
   (s = p ++ m ++ d → (∃ l2 q2, row_at s r2 (p ++ m) l2 q2) ∨ newline_count s < r2 ∧ d = [] →
    ∃ t', slice_rows debug t r r2 = Some t' ∧ holds (w + 3) t' m)) ∧
  (newline_count s < r →
   clip_point is_boundary t (Point.mk r c) bias = Some (point_of s) ∧
   line_len is_boundary t r = Some (str_len (last_line s))).
Proof.
  intros Hb0 Hb1 Ht Hw Hr Hc Hr2. assert (u32_ok u32_MAX) as Hm by width. split.
  - intros Hrow. split_and!.
    + by eapply clip_point_rope.
    + destruct (clip_point_rope is_boundary Hb0 Hb1 w t s r u32_MAX p l q Left Ht Hr Hm Hrow) as (c' & E & Hcl).
      unfold line_len, Point.new. rewrite E. cbn. f_equal. apply (cl_end _ _ _ _ _ Hcl).
      destruct (holds_text _ _ _ Ht) as [_ Hs]. pose proof (row_at_len _ _ _ _ _ Hrow). unfold sized in Hs.
      unfold u32_MAX. lia.
    + intros Es H2. by eapply slice_rows_ok.
  - intros Hlast. split; [by eapply clip_point_beyond|]. unfold line_len, Point.new.
    by rewrite (clip_point_beyond is_boundary w t s r u32_MAX Left Ht Hr Hm Hlast).
Qed.

(** Two rows of several chunks each. *)
Definition two_rows : str := (sample 50 ++ [newline]) ++ sample 20.
Lemma two_rows_rope :
  ∃ r, from (encode two_rows) = Some r ∧ holds (2 * str_len two_rows) r two_rows ∧
    row_at two_rows 1 (sample 50 ++ [newline]) (sample 20) [].
Proof.
  destruct (sample_ok 50 eq_refl) as [H1 _], (sample_ok 20 eq_refl) as [H2 _].
  assert (scalars two_rows) as Hs.
  { unfold two_rows. rewrite !scalars_app. split; [split; [done|]|done]. constructor; [|constructor]. unfold is_scalar, newline. lia. }
  destruct (from_ok two_rows Hs) as (r & ? & ?); [by vm_compute|]. exists r. split; [done|]. split; [done|].
  split_and!; [by rewrite app_nil_r|by vm_compute|right; by eexists| |by left].
  apply (bool_decide_unpack _). by vm_compute.
Qed.

Lemma rope_positions_roundtrip_witness :
  ∃ r, from (encode two_rows) = Some r ∧ offset_to_point r 417 = Some (Point.mk 1 16) ∧
    point_utf16_to_offset true r (PointUtf16.mk 1 10) = Some 417.
Proof.
  destruct two_rows_rope as (r & E & Hr & _). exists r. split; [done|].
  destruct (rope_positions_roundtrip true _ r ((sample 50 ++ [newline]) ++ sample 2) (sample 18) Hr) as (H1 & _ & _ & _ & _ & H2 & _).
  { by vm_compute. }
  split; [exact H1|exact H2].
Defined.
Lemma rope_clip_correct_witness :
  (* column 4 of row 1 is between the two units of the first wide character *)
  ∃ r, from (encode two_rows) = Some r ∧
    point_utf16_to_offset_impl true r (PointUtf16.mk 1 4) true = Some 405 ∧
    point_utf16_to_offset_impl true r (PointUtf16.mk 1 4) false = None ∧
    point_utf16_to_offset_impl false r (PointUtf16.mk 1 4) false = Some 405 ∧
    clip_point_utf16 r (Unclipped.mk (PointUtf16.mk 1 4)) Right = Some (PointUtf16.mk 1 5) ∧
    point_to_offset true r (Point.mk 7 0) = Some 561.
Proof.
  destruct two_rows_rope as (r & E & Hr & Hrow). exists r. split; [done|].
  destruct (rope_clip_correct true _ r _ 1 4 (sample 50 ++ [newline]) (sample 20) [] 0 Right true Hr) as [H _]; [by vm_compute|width|width|lia|].
  destruct (H Hrow) as (_ & H1 & _ & _ & _ & H2).
  destruct (rope_clip_correct true _ r _ 1 4 (sample 50 ++ [newline]) (sample 20) [] 0 Right false Hr) as [Hd _]; [by vm_compute|width|width|lia|].
  destruct (Hd Hrow) as (_ & H4 & _).
  destruct (rope_clip_correct false _ r _ 1 4 (sample 50 ++ [newline]) (sample 20) [] 0 Right false Hr) as [Hn _]; [by vm_compute|width|width|lia|].
  destruct (Hn Hrow) as (_ & H5 & _).
  destruct (rope_clip_correct true _ r _ 7 0 [] [] [] 0 Right true Hr) as (_ & H' & _); [by vm_compute|width|width|lia|].
  destruct (H' ltac:(by vm_compute)) as (H3 & _).
  split; [exact H1|]. split; [exact H4|]. split; [exact H5|]. split; [exact H2|exact H3].
Defined.
Lemma rope_clip_point_correct_witness :
  ∃ r r', from (encode two_rows) = Some r ∧ line_len no_accent r 1 = Some 160 ∧ line_len no_accent r 9 = Some 160 ∧
    slice_rows true r 1 2 = Some r' ∧ holds (2 * str_len two_rows + 3) r' (sample 20).
Proof.
  destruct two_rows_rope as (r & E & Hr & Hrow). exists r.
  destruct (rope_clip_point_correct true no_accent _ r _ 1 0 (sample 50 ++ [newline]) (sample 20) [] Left 2 (sample 20) [] ltac:(done)
    ltac:(intros; unfold no_accent; by rewrite Z.eqb_refl, orb_true_r) Hr) as [H _]; [by vm_compute|width|width|width|].
  destruct (H Hrow) as (_ & H1 & H2). assert (two_rows = (sample 50 ++ [newline]) ++ sample 20 ++ []) as E2 by (by rewrite app_nil_r).
  destruct (H2 E2) as (r' & Es & Hr'); [right; split; [by vm_compute|done]|].
  destruct (rope_clip_point_correct true no_accent _ r _ 9 0 [] [] [] Left 2 [] [] ltac:(done)
    ltac:(intros; unfold no_accent; by rewrite Z.eqb_refl, orb_true_r) Hr) as [_ H']; [by vm_compute|width|width|width|].
  destruct (H' ltac:(by vm_compute)) as (_ & H3).
  exists r'. split; [done|]. split; [exact H1|]. split; [exact H3|]. split; [exact Es|exact Hr'].
Defined.
End RopePosition.
