(* ===== verification/RopeIter.v ===== *)
(** Reading a rope ([crates/rope/src/rope.rs]): the iterators over its chunks, bytes and
    lines, and the comparisons with strings. A [&str] is the list of its bytes. *)
From S2P Require Import Prelude Points TextSummary SumTree TreeFind Cursor TreeWeight Utf8 Bitmap Chunk ChunkSummary Rope RopePosition.
Import Rope.

(** ** Strings *)
(** [str::chars] *)
Fixpoint str_chars (text : list Z) : list Z :=
  match text with
  | [] => []
  | b0 :: text =>
      if b0 <? 0x80 then b0 :: str_chars text
      else
        match text with
        | [] => []
        | b1 :: text =>
            if b0 <? 0xE0 then (b0 - 0xC0) * 64 + (b1 - 0x80) :: str_chars text
            else
              match text with
              | [] => []
              | b2 :: text =>
                  if b0 <? 0xF0 then (b0 - 0xE0) * 4096 + (b1 - 0x80) * 64 + (b2 - 0x80) :: str_chars text
                  else
                    match text with
                    | [] => []
                    | b3 :: text => (b0 - 0xF0) * 262144 + (b1 - 0x80) * 4096 + (b2 - 0x80) * 64 + (b3 - 0x80) :: str_chars text
                    end
              end
        end
  end.
(** [str::find] and [str::rfind] of an ASCII character. *)
Fixpoint str_find (c : Z) (text : list Z) : option Z :=
  match text with
  | [] => None
  | b :: text => if b =? c then Some 0 else Z.succ <$> str_find c text
  end.
Definition str_rfind (c : Z) (text : list Z) : option Z := (λ i, Utf8.len text - 1 - i) <$> str_find c (rev text).
(** [str::starts_with] and [str::ends_with] *)
Definition starts_with (text pattern : list Z) : bool := bool_decide (take (length pattern) text = pattern).
Definition ends_with (text pattern : list Z) : bool := bool_decide (drop (length text - length pattern) text = pattern ∧ (length pattern ≤ length text)%nat).
(** [str::get] *)
Definition str_get (text : list Z) (start stop : Z) : option (list Z) := Utf8.str_index text start stop.

(** ** Chunks *)
Module Chunks.
Abbreviation chunk_cursor := (Cursor.t Chunk.t chunk_summary Z).
(** [crates/rope/src/rope.rs:798-803] Chunks *)
Record t := mk { chunks : chunk_cursor; range : Z * Z; offset : Z; reversed : bool }.
Implicit Types (self : t).
Definition set_chunks chunks self : t := mk chunks (range self) (offset self) (reversed self).
Definition set_offset offset self : t := mk (chunks self) (range self) offset (reversed self).
Definition chunk_end self : option Z := Cursor.end_ (chunks self).
Definition chunk_start self : Z := Cursor.start (chunks self).
Definition seek_chunks (b : bias) (target : Z) self : option t :=
  '(chunks, _) ← Cursor.seek (Z.compare target) b (chunks self); Some (set_chunks chunks self).
Definition seek_chunks_forward (b : bias) (target : Z) self : option t :=
  '(chunks, _) ← Cursor.seek_forward (Z.compare target) b (chunks self); Some (set_chunks chunks self).
(** [crates/rope/src/rope.rs:806-825] Chunks::new *)
Definition new (rope : Rope.t) (range : Z * Z) (reversed : bool) : option t :=
  let offset := if reversed then range.2 else range.1 in
  '(chunks, _) ← Cursor.seek (Z.compare offset) (if reversed then Left else Right) (Cursor.new rope);
  item ← Cursor.item chunks;
  _ ← match item with
      | Some chunk => Chunk.assert_char_boundary true chunk (offset -w64 Cursor.start chunks)
      | None => Some true
      end;
  Some (mk chunks range offset reversed).
(** [crates/rope/src/rope.rs:827-837] Chunks::offset_is_valid *)
Definition offset_is_valid self : bool :=
  if reversed self then ((range self).1 <? offset self) && (offset self <=? (range self).2)
  else ((range self).1 <=? offset self) && (offset self <? (range self).2).
(** [usize::clamp] *)
Definition clamp (x min max : Z) : option Z := if min <=? max then Some (Z.max min (Z.min x max)) else None.
(** [crates/rope/src/rope.rs:843-861] Chunks::seek *)
Definition seek self (offset : Z) : option t :=
  offset ← clamp offset (range self).1 (range self).2;
  end_ ← chunk_end self;
  self ←
    (if reversed self then
       if end_ <? offset then seek_chunks_forward Left offset self
       else if offset <=? chunk_start self then seek_chunks Left offset self
       else Some self
     else
       if end_ <=? offset then seek_chunks_forward Right offset self
       else if offset <? chunk_start self then seek_chunks Right offset self
       else Some self);
  Some (set_offset offset self).
(** [crates/rope/src/rope.rs:863-866] Chunks::set_range *)
Definition set_range self (range : Z * Z) : option t := seek (mk (chunks self) range (offset self) (reversed self)) range.1.
(** The part of the current chunk that is ahead.
    [crates/rope/src/rope.rs:971-979] Chunks::peek *)
Definition slice_range self : option (Z * Z) :=
  let chunk_start := chunk_start self in
  if reversed self then Some (Z.max chunk_start (range self).1 -w64 chunk_start, offset self -w64 chunk_start)
  else end_ ← chunk_end self; Some (offset self -w64 chunk_start, Z.min end_ (range self).2 -w64 chunk_start).
(** [crates/rope/src/rope.rs:964-982] Chunks::peek *)
Definition peek self : option (option (list Z)) :=
  if negb (offset_is_valid self) then Some None
  else
    item ← Cursor.item (chunks self);
    match item with
    | None => Some None
    | Some chunk => '(start, stop) ← slice_range self; Some <$> Utf8.str_index (Chunk.text chunk) start stop
    end.
(** The cursor goes on when the chunk is exhausted.
    [crates/rope/src/rope.rs:1091-1101] Iterator for Chunks *)
Definition advance self (len : Z) : option t :=
  if reversed self then
    let self := set_offset (offset self -w64 len) self in
    if offset self <=? chunk_start self then c ← Cursor.prev (chunks self); Some (set_chunks c self) else Some self
  else
    let self := set_offset (offset self +w64 len) self in
    end_ ← chunk_end self;
    if end_ <=? offset self then c ← Cursor.next (chunks self); Some (set_chunks c self) else Some self.
(** [crates/rope/src/rope.rs:1089-1104] Iterator for Chunks *)
Definition next self : option (t * option (list Z)) :=
  chunk ← peek self;
  match chunk with
  | None => Some (self, None)
  | Some chunk => self ← advance self (Utf8.len chunk); Some (self, Some chunk)
  end.
(** All that the iterator yields. *)
Fixpoint collect (fuel : nat) self : option (list (list Z)) :=
  match fuel with
  | O => None
  | S fuel =>
      '(self, chunk) ← next self;
      match chunk with
      | None => Some []
      | Some chunk => rest ← collect fuel self; Some (chunk :: rest)
      end
  end.
(** Enough for a rope: one more than its chunks. *)
Definition enough self : nat := S (S (length (SumTree.contents (Cursor.c_tree (chunks self))))).
Definition all self : option (list (list Z)) := collect (enough self) self.

Definition has_newline (summary : chunk_summary) : bool := 0 <? Point.row (TextSummary.lines (text summary)).
(** What follows the line break that ends the current line.
    [crates/rope/src/rope.rs:881-899] Chunks::next_line *)
Definition to_next_line self (chunk : list Z) : option (t * bool) :=
  let found self := offset self <=? (range self).2 in
  '(self, found) ←
    match str_find newline chunk with
    | Some newline_ix => let self := set_offset (offset self +w64 newline_ix +w64 1) self in Some (self, found self)
    | None =>
        c ← Cursor.search_forward has_newline (chunks self);
        let self := set_chunks c self in
        let self := set_offset (chunk_start self) self in
        chunk ← peek self;
        match chunk ≫= str_find newline with
        | Some newline_ix => let self := set_offset (offset self +w64 newline_ix +w64 1) self in Some (self, found self)
        | None => end_ ← chunk_end self; Some (set_offset end_ self, false)
        end
    end;
  end_ ← chunk_end self;
  if offset self =? end_ then '(self, _) ← next self; Some (self, found) else Some (self, found).
(** [crates/rope/src/rope.rs:876-908] Chunks::next_line *)
Definition next_line self : option (t * bool) :=
  if reversed self then None
  else
    chunk ← peek self;
    '(self, found) ← match chunk with Some chunk => to_next_line self chunk | None => Some (self, false) end;
    if (range self).2 <? offset self then
      let self := set_offset (Z.min (offset self) (range self).2) self in
      self ← seek_chunks Right (offset self) self; Some (self, found)
    else Some (self, found).
(** The line break before the line in the current chunk.
    [crates/rope/src/rope.rs:926-938] Chunks::prev_line *)
Definition break_in_chunk self : option (option t) :=
  item ← Cursor.item (chunks self);
  match item with
  | Some chunk =>
      let end_ix := offset self -w64 chunk_start self in
      last ← (if (1 <=? end_ix) then Chunk.text chunk !! Z.to_nat (end_ix - 1) else None);
      let end_ix := if last =? newline then end_ix - 1 else end_ix in
      before ← Utf8.str_index (Chunk.text chunk) 0 end_ix;
      Some (match str_rfind newline before with
            | Some newline_ix => Some (set_offset (chunk_start self +w64 newline_ix +w64 1) self)
            | None => None
            end)
  | None => Some None
  end.
(** Back to a chunk with a line break.
    [crates/rope/src/rope.rs:940-961] Chunks::prev_line *)
Definition break_before self (initial_offset : Z) (fuel : nat) : option (t * bool) :=
  c ← Cursor.search_backward fuel has_newline (chunks self);
  let self := set_chunks c self in
  let self := set_offset (chunk_start self) self in
  item ← Cursor.item (chunks self);
  let self := match item ≫= λ chunk, str_rfind newline (Chunk.text chunk) with
              | Some newline_ix => set_offset (offset self +w64 newline_ix +w64 1) self
              | None => self
              end in
  if match item ≫= λ chunk, str_rfind newline (Chunk.text chunk) with Some _ => offset_is_valid self | None => false end then
    end_ ← chunk_end self;
    self ← (if offset self =? end_ then c ← Cursor.next (chunks self); Some (set_chunks c self) else Some self);
    Some (self, true)
  else
    self ← (if negb (offset_is_valid self) || match item with None => true | Some _ => false end then
              let self := set_offset (range self).1 self in seek_chunks Right (offset self) self
            else Some self);
    Some (self, (offset self <? initial_offset) && (offset self =? 0)).
(** [crates/rope/src/rope.rs:917-962] Chunks::prev_line *)
Definition prev_line self (fuel : nat) : option (t * bool) :=
  if reversed self then None
  else
    let initial_offset := offset self in
    self ← (if offset self =? chunk_start self then c ← Cursor.prev (chunks self); Some (set_chunks c self) else Some self);
    found ← break_in_chunk self;
    match found with
    | Some self' => if offset_is_valid self' then Some (self', true) else break_before self' initial_offset fuel
    | None => break_before self initial_offset fuel
    end.

(** [crates/rope/src/rope.rs:786-795] ChunkBitmaps *)
Record bitmaps := mk_bitmaps { b_text : list Z; b_chars : Z; b_tabs : Z; b_newlines : Z }.
(** [crates/rope/src/rope.rs:985-1015] Chunks::peek_with_bitmaps *)
Definition peek_with_bitmaps self : option (option bitmaps) :=
  if negb (offset_is_valid self) then Some None
  else
    item ← Cursor.item (chunks self);
    match item with
    | None => Some None
    | Some chunk =>
        '(start, stop) ← slice_range self;
        text ← Utf8.str_index (Chunk.text chunk) start stop;
        Some (Some (mk_bitmaps text (Z.shiftr (Chunk.chars chunk) start) (Z.shiftr (Chunk.tabs chunk) start) (Z.shiftr (Chunk.newlines chunk) start)))
    end.
(** [crates/rope/src/rope.rs:1068-1083] Iterator for ChunkWithBitmaps *)
Definition next_with_bitmaps self : option (t * option bitmaps) :=
  chunk ← peek_with_bitmaps self;
  match chunk with
  | None => Some (self, None)
  | Some chunk => self ← advance self (Utf8.len (b_text chunk)); Some (self, Some chunk)
  end.

(** One chunk of a comparison with a string.
    [crates/rope/src/rope.rs:1031-1037] Chunks::equals_str *)
Definition equals_step_back (other : list Z) (st : t * Z) : option (t * Z + bool) :=
  let '(self, offset) := st in
  '(self, chunk) ← next self;
  match chunk with
  | None => Some (inr (offset =? 0))
  | Some chunk =>
      prefix ← Utf8.str_index other 0 offset;
      Some (if ends_with prefix chunk then inl (self, offset -w64 Utf8.len chunk) else inr false)
  end.
(** [crates/rope/src/rope.rs:1043-1052] Chunks::equals_str *)
Definition equals_step (other : list Z) (st : t * Z) : option (t * Z + bool) :=
  let '(self, offset) := st in
  '(self, chunk) ← next self;
  match chunk with
  | None => Some (inr (offset =? Utf8.len other))
  | Some chunk =>
      if Utf8.len other <=? offset then Some (inr false)
      else
        suffix ← Utf8.str_index other offset (Utf8.len other);
        Some (if starts_with suffix chunk then inl (self, offset +w64 Utf8.len chunk) else inr false)
  end.
(** [crates/rope/src/rope.rs:1027-1059] Chunks::equals_str *)
Definition equals_str self (other : list Z) : option bool :=
  if reversed self then iterate (equals_step_back other) (enough self) (self, Utf8.len other)
  else iterate (equals_step other) (enough self) (self, 0).
End Chunks.

(** ** Bytes *)
Module Bytes.
(** [crates/rope/src/rope.rs:1107-1111] Bytes *)
Record t := mk { chunks : Chunks.chunk_cursor; range : Z * Z; reversed : bool }.
Implicit Types (self : t).
(** [crates/rope/src/rope.rs:1114-1126] Bytes::new *)
Definition new (rope : Rope.t) (range : Z * Z) (reversed : bool) : option t :=
  '(chunks, _) ← (if reversed then Cursor.seek (Z.compare range.2) Left (Cursor.new rope) else Cursor.seek (Z.compare range.1) Right (Cursor.new rope));
  Some (mk chunks range reversed).
(** [crates/rope/src/rope.rs:1128-1140] Bytes::peek *)
Definition peek self : option (option (list Z)) :=
  item ← Cursor.item (chunks self);
  match item with
  | None => Some None
  | Some chunk =>
      chunk_end ← Cursor.end_ (chunks self);
      let chunk_start := Cursor.start (chunks self) in
      if reversed self && (chunk_end <=? (range self).1) then Some None
      else if (range self).2 <=? chunk_start then Some None
      else
        let start := saturating_sub (range self).1 chunk_start in
        let stop := Z.min (Utf8.len (Chunk.text chunk)) ((range self).2 -w64 chunk_start) in
        if start <=? stop then Some (Some (take (Z.to_nat (stop - start)) (drop (Z.to_nat start) (Chunk.text chunk)))) else None
  end.
(** To the next chunk.
    [crates/rope/src/rope.rs:1149-1153] Iterator for Bytes *)
Definition advance self : option t :=
  c ← (if reversed self then Cursor.prev (chunks self) else Cursor.next (chunks self)); Some (mk c (range self) (reversed self)).
(** [crates/rope/src/rope.rs:1146-1156] Iterator for Bytes *)
Definition next self : option (t * option (list Z)) :=
  result ← peek self;
  match result with
  | Some _ => self ← advance self; Some (self, result)
  | None => Some (self, None)
  end.
(** The bytes written to a buffer of [n] bytes.
    [crates/rope/src/rope.rs:1160-1183] Read for Bytes *)
Definition read self (n : nat) : option (t * list Z) :=
  chunk ← peek self;
  match chunk with
  | None => Some (self, [])
  | Some chunk =>
      let len := Nat.min n (length chunk) in
      let '(self, buf) :=
        if reversed self then
          (mk (chunks self) ((range self).1, (range self).2 -w64 Z.of_nat len) (reversed self), rev (drop (length chunk - len) chunk))
        else (mk (chunks self) ((range self).1 +w64 Z.of_nat len, (range self).2) (reversed self), take len chunk) in
      self ← (if Nat.eqb len (length chunk) then advance self else Some self);
      Some (self, buf)
  end.
Fixpoint collect (fuel : nat) self : option (list (list Z)) :=
  match fuel with
  | O => None
  | S fuel =>
      '(self, chunk) ← next self;
      match chunk with
      | None => Some []
      | Some chunk => rest ← collect fuel self; Some (chunk :: rest)
      end
  end.
Definition all self : option (list (list Z)) := collect (S (S (length (SumTree.contents (Cursor.c_tree (chunks self)))))) self.
End Bytes.

(** ** Lines *)
Module Lines.
(** [crates/rope/src/rope.rs:1186-1191] Lines *)
Record t := mk { chunks : Chunks.t; current_line : list Z; done : bool; reversed : bool }.
Implicit Types (self : t).
(** [crates/rope/src/rope.rs:1017-1025] Chunks::lines *)
Definition lines (self : Chunks.t) : t := mk self [] false (Chunks.reversed self).
(** A chunk: a line break in it ends the line.
    [crates/rope/src/rope.rs:1201-1238] Lines::next *)
Definition next_step self : option (t + t * list Z) :=
  chunk ← Chunks.peek (chunks self);
  match chunk with
  | None => Some (inr (mk (chunks self) (current_line self) true (reversed self), current_line self))
  | Some chunk =>
      let chunk_lines := str_split newline chunk in
      match (if reversed self then rev chunk_lines else chunk_lines) with
      | chunk_line :: rest =>
          let done := match rest with [] => false | _ => true end in
          let offset := Chunks.offset (chunks self) in
          c ← (if done then
                 Chunks.seek (chunks self)
                   (if reversed self then offset -w64 Utf8.len chunk_line -w64 1 else offset +w64 Utf8.len chunk_line +w64 1)
               else Some (chunks self));
          let line := if reversed self then chunk_line ++ current_line self else current_line self ++ chunk_line in
          if done then Some (inr (mk c (match current_line self with [] => [] | _ => line end) false (reversed self), line))
          else '(c, _) ← Chunks.next c; Some (inl (mk c line false (reversed self)))
      | [] => '(c, _) ← Chunks.next (chunks self); Some (inl (mk c (current_line self) false (reversed self)))
      end
  end.
(** [crates/rope/src/rope.rs:1194-1242] Lines::next *)
Definition next self : option (t * option (list Z)) :=
  if done self then Some (self, None)
  else
    '(self, line) ← iterate next_step (Chunks.enough (chunks self)) (mk (chunks self) [] (done self) (reversed self));
    Some (self, Some line).
(** [crates/rope/src/rope.rs:1244-1248] Lines::seek *)
Definition seek self (offset : Z) : option t := c ← Chunks.seek (chunks self) offset; Some (mk c [] false (reversed self)).
(** [crates/rope/src/rope.rs:1250-1252] Lines::offset *)
Definition offset self : Z := Chunks.offset (chunks self).
(** All that it yields, with fuel for the number of lines. *)
Fixpoint collect (fuel : nat) self : option (list (list Z)) :=
  match fuel with
  | O => None
  | S fuel =>
      '(self, line) ← next self;
      match line with
      | None => Some []
      | Some line => rest ← collect fuel self; Some (line :: rest)
      end
  end.
End Lines.

(** ** Ropes *)
(** [crates/rope/src/rope.rs:361-363] Rope::chunks_in_range *)
Definition chunks_in_range (self : Rope.t) (range : Z * Z) : option Chunks.t := Chunks.new self range false.
(** [crates/rope/src/rope.rs:365-367] Rope::reversed_chunks_in_range *)
Definition reversed_chunks_in_range (self : Rope.t) (range : Z * Z) : option Chunks.t := Chunks.new self range true.
(** [crates/rope/src/rope.rs:357-359] Rope::chunks *)
Definition rope_chunks (self : Rope.t) : option Chunks.t := chunks_in_range self (0, Rope.len self).
(** [crates/rope/src/rope.rs:349-351] Rope::bytes_in_range *)
Definition bytes_in_range (self : Rope.t) (range : Z * Z) : option Bytes.t := Bytes.new self range false.
(** [crates/rope/src/rope.rs:353-355] Rope::reversed_bytes_in_range *)
Definition reversed_bytes_in_range (self : Rope.t) (range : Z * Z) : option Bytes.t := Bytes.new self range true.
(** [crates/rope/src/rope.rs:340-342] Rope::chars_at *)
Definition chars_at (self : Rope.t) (start : Z) : option (list Z) :=
  c ← chunks_in_range self (start, Rope.len self); l ← Chunks.all c; Some (flat_map str_chars l).
(** [crates/rope/src/rope.rs:336-338] Rope::chars *)
Definition chars (self : Rope.t) : option (list Z) := chars_at self 0.
(** [crates/rope/src/rope.rs:344-347] Rope::reversed_chars_at *)
Definition reversed_chars_at (self : Rope.t) (start : Z) : option (list Z) :=
  c ← reversed_chunks_in_range self (0, start); l ← Chunks.all c; Some (flat_map (λ chunk, rev (str_chars chunk)) l).
(** [crates/rope/src/rope.rs:654-659] Display for Rope *)
Definition to_string (self : Rope.t) : option (list Z) := c ← rope_chunks self; l ← Chunks.all c; Some (concat l).
(** [crates/rope/src/rope.rs:578-590] Rope::starts_with *)
Definition starts_with_step (st : Chunks.t * list Z) : option (Chunks.t * list Z + bool) :=
  let '(self, remaining) := st in
  '(self, chunk) ← Chunks.next self;
  match chunk with
  | None => Some (inr (Utf8.len remaining =? 0))
  | Some chunk =>
      match str_get chunk 0 (Z.min (Utf8.len remaining) (Utf8.len chunk)) with
      | None => Some (inr false)
      | Some chunk =>
          if starts_with remaining chunk then
            remaining ← Utf8.str_index remaining (Utf8.len chunk) (Utf8.len remaining);
            Some (if Utf8.len remaining =? 0 then inr true else inl (self, remaining))
          else Some (inr false)
      end
  end.
(** [crates/rope/src/rope.rs:573-592] Rope::starts_with *)
Definition rope_starts_with (self : Rope.t) (pattern : list Z) : option bool :=
  if Rope.len self <? Utf8.len pattern then Some false
  else c ← chunks_in_range self (0, Rope.len self); iterate starts_with_step (Chunks.enough c) (c, pattern).
(** [crates/rope/src/rope.rs:599-611] Rope::ends_with *)
Definition ends_with_step (st : Chunks.t * list Z) : option (Chunks.t * list Z + bool) :=
  let '(self, remaining) := st in
  '(self, chunk) ← Chunks.next self;
  match chunk with
  | None => Some (inr (Utf8.len remaining =? 0))
  | Some chunk =>
      match str_get chunk (Utf8.len chunk -w64 Z.min (Utf8.len remaining) (Utf8.len chunk)) (Utf8.len chunk) with
      | None => Some (inr false)
      | Some chunk =>
          if ends_with remaining chunk then
            remaining ← Utf8.str_index remaining 0 (Utf8.len remaining -w64 Utf8.len chunk);
            Some (if Utf8.len remaining =? 0 then inr true else inl (self, remaining))
          else Some (inr false)
      end
  end.
(** [crates/rope/src/rope.rs:594-613] Rope::ends_with *)
Definition rope_ends_with (self : Rope.t) (pattern : list Z) : option bool :=
  if Rope.len self <? Utf8.len pattern then Some false
  else c ← reversed_chunks_in_range self (0, Rope.len self); iterate ends_with_step (Chunks.enough c) (c, pattern).
