(* ===== verification/RopeRead.v ===== *)
(** What the iterators over a rope read ([RopeIter]): the text of their range, in its
    order or reversed, in chunks, bytes and lines; seeking, and comparing with a string.
    The state of an iterator is a cut of the text at the boundary where it is
    ([forward], [backward]), and its cursor is at the chunk ahead of the cut, or,
    reversed, behind it ([right], [left]). *)
From S2P Require Import Prelude Points TextSummary SumTree TreeFind Cursor TreeWeight Utf8 Bitmap Chunk ChunkSummary Rope RopePosition RopeIter.
Import Rope.

(** ** Strings of scalar values *)
Lemma str_chars_app s z : scalars s → str_chars (encode s ++ z) = s ++ str_chars z.
Proof.
  induction 1 as [|c s Hc Hs IH]; [done|]. rewrite encode_cons, <- app_assoc. cbn [app]. rewrite <- IH. clear IH.
  pose proof (Z.div_mod c 64) as D1. pose proof (Z.div_mod (c / 64) 64) as D2. pose proof (Z.div_mod (c / 4096) 64) as D3.
  pose proof (Z.mod_pos_bound c 64) as M1. pose proof (Z.mod_pos_bound (c / 64) 64) as M2. pose proof (Z.mod_pos_bound (c / 4096) 64) as M3.
  rewrite Z.div_div in D2 by done. change (64 * 64) with 4096 in D2. rewrite Z.div_div in D3 by done. change (4096 * 64) with 262144 in D3.
  unfold encode_char. destruct (Z.ltb_spec c 0x80) as [L|L].
  { cbn [app str_chars]. by rewrite (proj2 (Z.ltb_lt _ _)) by done. }
  destruct (Z.ltb_spec c 0x800); [|destruct (Z.ltb_spec c 0x10000)]; cbn [app str_chars];
    rewrite (proj2 (Z.ltb_ge _ 128)) by lia; [rewrite (proj2 (Z.ltb_lt _ 0xE0)) by (pose proof (Z.div_lt_upper_bound c 64 32); lia)| |];
    [|rewrite (proj2 (Z.ltb_ge _ 0xE0)) by (pose proof (Z.div_pos c 4096); lia); rewrite (proj2 (Z.ltb_lt _ 0xF0)) by (pose proof (Z.div_lt_upper_bound c 4096 16); lia)|
      rewrite (proj2 (Z.ltb_ge _ 0xE0)), (proj2 (Z.ltb_ge _ 0xF0)) by (pose proof (Z.div_pos c 262144); lia)]; f_equal; lia.
Qed.
Lemma str_chars_encode s : scalars s → str_chars (encode s) = s.
Proof. intros H. pose proof (str_chars_app s [] H) as E. by rewrite !app_nil_r in E. Qed.
Lemma encode_inj s t : scalars s → scalars t → encode s = encode t → s = t.
Proof. intros Hs Ht E. by rewrite <- (str_chars_encode s), E, str_chars_encode. Qed.
Lemma encode_prefix s k : scalars s → scalars k → encode k `prefix_of` encode s ↔ k `prefix_of` s.
Proof.
  intros Hs Hk. split.
  - intros [z E]. exists (str_chars z). by rewrite <- str_chars_app, <- E, str_chars_encode.
  - intros [t ->]. exists (encode t). by rewrite encode_app.
Qed.
Lemma encode_suffix s k : scalars s → scalars k → encode k `suffix_of` encode s ↔ k `suffix_of` s.
Proof.
  intros Hs Hk. split.
  - intros [z E]. destruct k as [|c k]; [by exists s; rewrite app_nil_r|].
    assert (Utf8.is_char_boundary (encode s) (Z.of_nat (length z)) = true) as Hb.
    { unfold Utf8.is_char_boundary. destruct (Z.eqb_spec (Z.of_nat (length z)) 0); [done|]. unfold Utf8.len. rewrite E, length_app, encode_cons, length_app.
      pose proof (length_encode_char c). pose proof (len_utf8_bounds c). rewrite (proj2 (Z.leb_gt _ _)) by lia. unfold get_or.
      rewrite (proj2 (Z.ltb_ge _ _)), Nat2Z.id, lookup_app_r, Nat.sub_diag by lia. apply Forall_cons in Hk as [Hc _].
      by destruct (encode_char_bytes c Hc) as (b & bs & -> & _ & Hb & _). }
    apply boundary_spec in Hb as (a & q & -> & Hl); [|done|lia]. exists a. f_equal. apply encode_inj; [by apply scalars_app in Hs as [_ ?]|done|].
    rewrite encode_app in E. apply app_inj_1 in E as [_ E]; [done|]. rewrite length_encode. lia.
  - intros [t ->]. exists (encode t). by rewrite encode_app.
Qed.
Lemma starts_with_encode s k : scalars s → scalars k → starts_with (encode s) (encode k) = bool_decide (k `prefix_of` s).
Proof.
  intros Hs Hk. unfold starts_with. apply bool_decide_ext. rewrite <- encode_prefix by done. split.
  - intros E. exists (drop (length (encode k)) (encode s)). by rewrite <- E at 1; rewrite take_drop.
  - intros [z ->]. by rewrite take_app_length.
Qed.
Lemma ends_with_encode s k : scalars s → scalars k → ends_with (encode s) (encode k) = bool_decide (k `suffix_of` s).
Proof.
  intros Hs Hk. unfold ends_with. apply bool_decide_ext. rewrite <- encode_suffix by done. split.
  - intros [E Hl]. exists (take (length (encode s) - length (encode k)) (encode s)). by rewrite <- E at 2; rewrite take_drop.
  - intros [z ->]. rewrite length_app, Nat.add_sub. split; [by rewrite drop_app_length|lia].
Qed.
Lemma str_index_from a b : scalars (a ++ b) → str_index (encode (a ++ b)) (str_len a) (Utf8.len (encode (a ++ b))) = Some (encode b).
Proof. intros H. rewrite len_encode. pose proof (str_index_ok a b []) as E. rewrite !app_nil_r in E. by apply E. Qed.
Lemma str_index_to a b : scalars (a ++ b) → str_index (encode (a ++ b)) 0 (str_len a) = Some (encode a).
Proof. intros H. by apply (str_index_ok [] a b). Qed.
(** *** Lines of a text *)
Lemma split_part (bs t : list Z) : Forall (λ b, b ≠ newline) bs →
  str_split newline (bs ++ t) = match str_split newline t with l :: ls => (bs ++ l) :: ls | [] => [bs] end.
Proof.
  induction 1 as [|b bs Hb F IH]; cbn [app]; [by destruct (str_split newline t) eqn:E; [by apply str_split_nonempty in E|]|].
  cbn [str_split]. rewrite (proj2 (Z.eqb_neq _ _) Hb), IH. destruct (str_split newline t) eqn:E; [by apply str_split_nonempty in E|done].
Qed.
Lemma split_one (l : list Z) : Forall (λ b, b ≠ newline) l → str_split newline l = [l].
Proof. intros H. rewrite <- (app_nil_r l) at 1. rewrite (split_part l [] H). cbn. by rewrite app_nil_r. Qed.
Lemma split_first (l s : list Z) : Forall (λ b, b ≠ newline) l → str_split newline (l ++ newline :: s) = l :: str_split newline s.
Proof. intros H. rewrite (split_part l _ H). cbn. by rewrite app_nil_r. Qed.
Lemma split_final (s l : list Z) : Forall (λ b, b ≠ newline) l → str_split newline (s ++ newline :: l) = str_split newline s ++ [l].
Proof.
  intros H. induction s as [|c s IH]; cbn [app str_split]; [by rewrite (split_one l H)|]. rewrite IH.
  destruct (c =? newline); [done|]. destruct (str_split newline s) eqn:E; [by apply str_split_nonempty in E|done].
Qed.
Lemma first_break (s : list Z) : Forall (λ b, b ≠ newline) s ∨ ∃ l s', s = l ++ newline :: s' ∧ Forall (λ b, b ≠ newline) l.
Proof.
  induction s as [|c s IH]; [by left|]. destruct (Z.eq_dec c newline) as [->|Hc]; [right; by exists [], s|].
  destruct IH as [?|(l & s' & -> & ?)]; [left; by constructor|right]. exists (c :: l), s'. split; [done|by constructor].
Qed.
Lemma last_break (s : list Z) : Forall (λ b, b ≠ newline) s ∨ ∃ s' l, s = s' ++ newline :: l ∧ Forall (λ b, b ≠ newline) l.
Proof.
  induction s as [|c s IH] using rev_ind; [by left|]. destruct (Z.eq_dec c newline) as [->|Hc]; [right; by exists s, []|].
  destruct IH as [?|(s' & l & -> & ?)]; [left|right].
  - apply Forall_app. split; [done|by constructor].
  - exists s', (l ++ [c]). split; [by rewrite <- app_assoc|]. apply Forall_app. split; [done|by constructor].
Qed.
Lemma split_encode s : scalars s → str_split newline (encode s) = map encode (str_split newline s).
Proof.
  induction 1 as [|c s Hc Hs IH]; [done|]. rewrite encode_cons. destruct (Z.eq_dec c newline) as [->|Hn].
  - cbn [str_split]. rewrite Z.eqb_refl. cbn [map]. by rewrite <- IH.
  - rewrite split_part.
    + rewrite IH. cbn [str_split]. rewrite (proj2 (Z.eqb_neq _ _) Hn). destruct (str_split newline s) as [|l ls] eqn:E; [by apply str_split_nonempty in E|].
      cbn [map]. by rewrite encode_cons.
    + destruct (encode_char_bytes c Hc) as (b & bs & -> & _ & _ & _ & _ & Hb & _ & F). constructor.
      * intros ->. apply Hn. symmetry. by apply Hb.
      * eapply Forall_impl; [exact F|]. intros y Hy ->. unfold newline in Hy. lia.
Qed.

(** ** The cursor of the chunks, at a place in the text *)
Section places.
Variable ss : list str.
Hypothesis pieces : Forall piece ss.
Hypothesis text_sized : sized (concat ss).
Abbreviation cursor := Chunks.chunk_cursor.
Definition at_chunk (cur : cursor) (before after : list str) : Prop := ss = before ++ after ∧ Cursor.positioned cur (chunks_of before) (chunks_of after).
Lemma split_pieces (before after : list str) : ss = before ++ after → Forall piece before ∧ Forall piece after ∧ sized (concat before) ∧ concat ss = concat before ++ concat after.
Proof.
  intros E. pose proof pieces as F. pose proof text_sized as Hs. rewrite E in F, Hs. rewrite concat_app in Hs. apply Forall_app in F as [F1 F2]. apply sized_app in Hs as [H1 _].
  split_and!; [done..|]. by rewrite E, concat_app.
Qed.
Lemma dim_before (before after : list str) : ss = before ++ after → dim Z (chunks_of before) = str_len (concat before).
Proof. intros E. destruct (split_pieces _ _ E) as (F & _ & Hs & _). rewrite dim_pieces by done. done. Qed.
Lemma at_start cur before after : at_chunk cur before after → Cursor.start cur = str_len (concat before).
Proof. intros [E Hc]. unfold Cursor.start. rewrite (Cursor.p_position _ _ _ Hc). by eapply dim_before. Qed.
Lemma at_end cur before after : at_chunk cur before after → Cursor.end_ cur = Some (str_len (concat before ++ match after with x :: _ => x | [] => [] end)).
Proof.
  intros [E Hc]. rewrite (Cursor.end_ok _ _ _ Hc). f_equal. destruct after as [|x after]; cbn [chunks_of map].
  - rewrite !app_nil_r. by eapply dim_before.
  - rewrite <- chunks_of_snoc, (dim_before (before ++ [x]) after) by by rewrite <- app_assoc. rewrite concat_app. cbn [concat]. by rewrite app_nil_r.
Qed.
Lemma at_item cur before after : at_chunk cur before after → Cursor.item cur = Some (chunk_of <$> head after).
Proof. intros [E Hc]. rewrite (Cursor.item_ok _ _ _ Hc). by destruct after. Qed.
Lemma at_contents cur before after : at_chunk cur before after → length (SumTree.contents (Cursor.c_tree cur)) = length ss.
Proof. intros [E Hc]. rewrite (Cursor.positioned_contents _ _ _ Hc), E. unfold chunks_of. by rewrite !length_app, !length_map. Qed.
Lemma at_next cur before x after : at_chunk cur before (x :: after) → ∃ cur', Cursor.next cur = Some cur' ∧ at_chunk cur' (before ++ [x]) after.
Proof.
  intros [E Hc]. destruct (Cursor.next_ok cur (chunks_of before) (chunk_of x) (chunks_of after) Hc) as (cur' & En & Hc'). exists cur'. split; [done|].
  split; [by rewrite <- app_assoc|by rewrite chunks_of_snoc].
Qed.
Definition placed (cur : cursor) : Prop := ∃ before after, at_chunk cur before after.
(** Between two characters, and not at the end of a chunk; [n] chunks are ahead. *)
Inductive right (cur : cursor) : str → str → nat → Prop :=
  | right_in before p q rest : at_chunk cur before ((p ++ q) :: rest) → q ≠ [] → right cur (concat before ++ p) (q ++ concat rest) (S (length rest))
  | right_end : at_chunk cur ss [] → right cur (concat ss) [] 0.
(** Between two characters, and not at the start of a chunk; [n] chunks are behind. *)
Inductive left (cur : cursor) : str → str → nat → Prop :=
  | left_in before p q rest : at_chunk cur before ((p ++ q) :: rest) → p ≠ [] → left cur (concat before ++ p) (q ++ concat rest) (S (length before))
  | left_start : (Cursor.idle cur (chunks_of ss) ∨ at_chunk cur [] ss) → left cur [] (concat ss) 0.
Lemma right_text cur a b n : right cur a b n → a ++ b = concat ss.
Proof.
  destruct 1 as [before p q rest [E _] _|_]; [|by rewrite app_nil_r]. destruct (split_pieces _ _ E) as (_ & _ & _ & ->). cbn [concat]. by rewrite <- !app_assoc.
Qed.
Lemma left_text cur a b n : left cur a b n → a ++ b = concat ss.
Proof.
  destruct 1 as [before p q rest [E _] _|_]; [|done]. destruct (split_pieces _ _ E) as (_ & _ & _ & ->). cbn [concat]. by rewrite <- !app_assoc.
Qed.
Lemma right_count cur a b n : right cur a b n → (n ≤ length ss)%nat ∧ length (SumTree.contents (Cursor.c_tree cur)) = length ss.
Proof.
  destruct 1 as [before p q rest H _|H]; (split; [|by eapply at_contents]); [|lia]. destruct H as [-> _]. rewrite length_app. cbn. lia.
Qed.
Lemma left_count cur a b n : left cur a b n → (n ≤ length ss)%nat ∧ length (SumTree.contents (Cursor.c_tree cur)) = length ss.
Proof.
  destruct 1 as [before p q rest H _|[H|H]].
  - split; [|by eapply at_contents]. destruct H as [-> _]. rewrite length_app. cbn. lia.
  - split; [lia|]. destruct H as [h _ E _ _ _ _ _]. rewrite E. unfold chunks_of. by rewrite length_map.
  - split; [lia|by eapply at_contents].
Qed.
Lemma str_nil_or (t : str) : t = [] ∨ 0 < str_len t.
Proof. destruct t as [|c t]; [by left|right]. cbn. pose proof (len_utf8_bounds c). pose proof (str_len_nonneg t). unfold str_len in *. lia. Qed.
(** *** Seeking *)
Lemma chunk_of_cut (before after : list str) (a b : str) : ss = before ++ after → a ++ b = concat ss → str_len (concat before) ≤ str_len a →
  (∀ x, head after = Some x → str_len a ≤ str_len (concat before ++ x)) → chunk_at before after a b.
Proof. intros E Et H1 H2. apply chunk_at_intro; [by rewrite <- E|done|done]. Qed.
Lemma to_right cur before after (a b : str) : at_chunk cur before after → a ++ b = concat ss → str_len (concat before) ≤ str_len a →
  (∀ x, head after = Some x → str_len a < str_len (concat before ++ x)) → ∃ n, right cur a b n.
Proof.
  intros H Et H1 H2. destruct (chunk_of_cut before after a b (proj1 H) Et H1) as [p q rest -> -> ->| -> -> ->].
  - intros x Hx. specialize (H2 x Hx). lia.
  - eexists. apply right_in; [done|]. intros ->. specialize (H2 _ eq_refl). rewrite app_nil_r in H2. lia.
  - exists 0%nat. pose proof (proj1 H) as E. rewrite app_nil_r in E. subst before. by apply right_end.
Qed.
Lemma to_left cur before after (a b : str) : at_chunk cur before after → a ++ b = concat ss → (before = [] ∨ str_len (concat before) < str_len a) →
  (∀ x, head after = Some x → str_len a ≤ str_len (concat before ++ x)) → ∃ n, left cur a b n.
Proof.
  intros H Et H1 H2. destruct (chunk_of_cut before after a b (proj1 H) Et) as [p q rest -> -> ->| -> -> ->].
  - destruct H1 as [->|?]; [apply str_len_nonneg|lia].
  - done.
  - destruct (decide (p = [])) as [->|Hp]; [|eexists; by apply left_in]. destruct H1 as [->|H1]; [|rewrite app_nil_r in H1; lia].
    exists 0%nat. cbn [concat app] in *. pose proof (proj1 H) as E. cbn [app] in E. assert (q ++ concat rest = concat ss) as -> by by rewrite E. apply left_start. right. by rewrite <- E in H.
  - destruct H1 as [H1|H1]; [|lia]. exists 0%nat. subst before. destruct H as [E H]. cbn [concat app] in *. pose proof (left_start cur) as Hl. rewrite E in Hl. cbn in Hl. apply Hl. right. by split.
Qed.
Lemma passed_at b k (before after : list str) : ss = before ++ after → TreeFind.passed (D := Z) (Z.compare k) b (chunks_of before) = true ↔
  match b with Left => str_len (concat before) < k | Right => str_len (concat before) ≤ k end.
Proof.
  intros E. unfold TreeFind.passed. rewrite (dim_before _ _ E). destruct (Z.compare_spec k (str_len (concat before))), b; cbn; split; (discriminate || reflexivity || lia).
Qed.
Lemma stopped_at b k (before mid rest : list str) : ss = before ++ mid ++ rest → Cursor.stopped (D := Z) (Z.compare k) b (chunks_of before) (chunks_of mid) (chunks_of rest) →
  (mid = [] ∨ match b with Left => str_len (concat (before ++ mid)) < k | Right => str_len (concat (before ++ mid)) ≤ k end) ∧
  ∀ x, head rest = Some x → match b with Left => k ≤ str_len (concat (before ++ mid) ++ x) | Right => k < str_len (concat (before ++ mid) ++ x) end.
Proof.
  intros E [H1 H2]. split.
  - destruct H1 as [H1|H1]; [left; by destruct mid|right]. rewrite <- chunks_of_app in H1. apply (passed_at b k (before ++ mid) rest) in H1; [done|by rewrite <- app_assoc].
  - intros x Hx. destruct rest as [|y rest]; [done|]. injection Hx as ->. specialize (H2 (chunk_of x) eq_refl).
    change [chunk_of x] with (chunks_of [x]) in H2. rewrite <- !chunks_of_app in H2.
    pose proof (passed_at b k (before ++ mid ++ [x]) rest) as Hp. rewrite H2, <- !app_assoc in Hp. specialize (Hp E).
    rewrite (app_assoc before), (concat_app _ [x]) in Hp. cbn [concat] in Hp. rewrite app_nil_r in Hp. destruct b.
    + destruct (Z.le_gt_cases k (str_len (concat (before ++ mid) ++ x))) as [?|?]; [done|]. assert (false = true) by (apply Hp; lia). done.
    + destruct (Z.lt_ge_cases k (str_len (concat (before ++ mid) ++ x))) as [?|?]; [done|]. assert (false = true) by (apply Hp; lia). done.
Qed.
Lemma seek_place b cur (before after : list str) (a t : str) : (at_chunk cur before after ∨ (before = [] ∧ after = ss ∧ Cursor.ready cur [] (chunks_of ss))) → a ++ t = concat ss →
  ∃ cur' hit n, Cursor.seek (Z.compare (str_len a)) b cur = Some (cur', hit) ∧ (match b with Left => left | Right => right end) cur' a t n ∧ placed cur'.
Proof.
  intros H Et. assert (∃ bf af, Cursor.ready cur bf af ∧ bf ++ af = chunks_of ss) as (bf & af & Hr & Es).
  { destruct H as [[E Hc]|(-> & -> & Hc)]; [exists (chunks_of before), (chunks_of after); split; [by left|by rewrite E, chunks_of_app]|by exists [], (chunks_of ss)]. }
  destruct (Cursor.seek_ok (D := Z) (Z.compare (str_len a)) b cur bf af Hr) as (cur' & mid & rest & -> & El & Hst & Hc').
  { change (dim Z (@nil Chunk.t)) with 0. pose proof (str_len_nonneg a). destruct (Z.compare_spec (str_len a) 0); done || lia. }
  rewrite Es in El. apply chunks_split in El as (s1 & s2 & E & -> & ->). eexists cur', _.
  destruct (stopped_at b (str_len a) [] s1 s2 E Hst) as [H1 H2]. cbn [app] in H1, H2. pose proof (str_len_nonneg a).
  assert (at_chunk cur' s1 s2) as Hat by done. destruct b.
  - destruct (to_left cur' s1 s2 a t Hat Et H1 H2) as [n Hn]. exists n. split_and!; [done..|by eexists _, _].
  - destruct (to_right cur' s1 s2 a t Hat Et) as [n Hn]; [destruct H1 as [->|?]; [done|done]|done|exists n; split_and!; [done..|by eexists _, _]].
Qed.
Lemma seek_forward_place b cur (before after : list str) (a t : str) : at_chunk cur before after → a ++ t = concat ss → str_len (concat before) < str_len a ∨ (b = Right ∧ str_len (concat before) ≤ str_len a) →
  ∃ cur' hit n, Cursor.seek_forward (Z.compare (str_len a)) b cur = Some (cur', hit) ∧ (match b with Left => left | Right => right end) cur' a t n ∧ placed cur'.
Proof.
  intros [E Hc] Et Hlt. destruct (Cursor.seek_forward_ok (D := Z) (Z.compare (str_len a)) b cur (chunks_of before) (chunks_of after)) as (cur' & mid & rest & -> & El & Hst & Hc'); [by left| |].
  { rewrite (dim_before _ _ E). destruct (Z.compare_spec (str_len a) (str_len (concat before))); done || lia. }
  apply chunks_split in El as (s1 & s2 & -> & -> & ->). rewrite <- chunks_of_app in Hc'. eexists cur', _.
  destruct (stopped_at b (str_len a) before s1 s2 E Hst) as [H1 H2].
  assert (at_chunk cur' (before ++ s1) s2) as Hat by (split; [by rewrite <- app_assoc|done]). destruct b.
  - destruct (to_left cur' _ s2 a t Hat Et) as [n Hn]; [|done|exists n; split_and!; [done..|by eexists _, _]]. right. destruct H1 as [->|?]; [|done]. rewrite app_nil_r. destruct Hlt as [?|[? _]]; done.
  - destruct (to_right cur' _ s2 a t Hat Et) as [n Hn]; [|done|exists n; split_and!; [done..|by eexists _, _]]. destruct H1 as [->|?]; [|done]. rewrite app_nil_r. destruct Hlt as [?|[_ ?]]; lia.
Qed.
End places.

(** ** What the iterators yield *)
Section machine.
Variable ss : list str.
Hypothesis pieces : Forall piece ss.
Hypothesis text_sized : sized (concat ss).
Abbreviation right := (right ss).
Abbreviation left := (left ss).
Abbreviation at_chunk := (at_chunk ss).
(** An iterator over the part [u ++ v] of the text, between [x] and [y]; it is before [v]. *)
Record forward (self : Chunks.t) (x u v y : str) (n : nat) : Prop := {
  f_range : Chunks.range self = (str_len x, str_len (x ++ u ++ v));
  f_offset : Chunks.offset self = str_len (x ++ u);
  f_reversed : Chunks.reversed self = false;
  f_place : right (Chunks.chunks self) (x ++ u) (v ++ y) n;
}.
(** A reversed one, which is behind [u]. *)
Record backward (self : Chunks.t) (x u v y : str) (n : nat) : Prop := {
  b_range : Chunks.range self = (str_len x, str_len (x ++ u ++ v));
  b_offset : Chunks.offset self = str_len (x ++ u);
  b_reversed : Chunks.reversed self = true;
  b_place : left (Chunks.chunks self) (x ++ u) (v ++ y) n;
}.
Lemma text_bounds (a b : str) : a ++ b = concat ss → 0 ≤ str_len a ∧ 0 ≤ str_len b ∧ str_len a + str_len b < 2 ^ 32.
Proof. intros E. pose proof text_sized as H. rewrite <- E in H. unfold sized in H. rewrite str_len_app in H. pose proof (str_len_nonneg a). pose proof (str_len_nonneg b). lia. Qed.
Lemma wrap_len a : 0 ≤ a < 2 ^ 32 → wrap64 a = a.
Proof. intros H. apply wrap64_id. width. Qed.
Lemma forward_valid self x u v y n : forward self x u v y n → Chunks.offset_is_valid self = bool_decide (v ≠ []).
Proof.
  intros [Er Eo Ev _]. unfold Chunks.offset_is_valid. rewrite Ev, Er, Eo. cbn [fst snd]. rewrite !str_len_app. pose proof (str_len_nonneg u).
  rewrite (proj2 (Z.leb_le _ _)) by lia. cbn [andb]. destruct (str_nil_or v) as [->|Hv].
  - cbn [str_len]. by rewrite Z.add_0_r, Z.ltb_irrefl.
  - rewrite (proj2 (Z.ltb_lt _ _)) by lia. symmetry. apply bool_decide_eq_true. by intros ->.
Qed.
Lemma backward_valid self x u v y n : backward self x u v y n → Chunks.offset_is_valid self = bool_decide (u ≠ []).
Proof.
  intros [Er Eo Ev _]. unfold Chunks.offset_is_valid. rewrite Ev, Er, Eo. cbn [fst snd]. rewrite !str_len_app. pose proof (str_len_nonneg v).
  rewrite (proj2 (Z.leb_le _ _)) by lia. rewrite andb_true_r. destruct (str_nil_or u) as [->|Hu].
  - cbn [str_len]. by rewrite Z.add_0_r, Z.ltb_irrefl.
  - rewrite (proj2 (Z.ltb_lt _ _)) by lia. symmetry. apply bool_decide_eq_true. by intros ->.
Qed.
Lemma right_next cur before after : at_chunk cur before after → right cur (concat before) (concat after) (length after).
Proof.
  intros H. destruct after as [|c after].
  - pose proof (proj1 H) as E. rewrite app_nil_r in E. subst before. by apply right_end.
  - assert (c ≠ []) as Hc. { destruct (split_pieces ss pieces text_sized _ _ (proj1 H)) as (_ & F & _). apply Forall_cons in F as [(_ & _ & Hc) _]. done. }
    pose proof (right_in ss cur before [] c after H Hc) as Hr. by rewrite app_nil_r in Hr.
Qed.
Lemma left_prev cur before after : at_chunk cur before after → ∃ cur', Cursor.prev cur = Some cur' ∧ left cur' (concat before) (concat after) (length before).
Proof.
  intros [E Hc]. destruct (Cursor.prev_ok cur _ _ Hc) as (cur' & En & H). exists cur'. split; [done|]. destruct H as [[Hb Hi]|(b & c & Hb & Hc')].
  - assert (before = []) as -> by by destruct before. cbn [concat app] in *. subst after. apply left_start. by left.
  - destruct (chunks_split before b [c]) as (s1 & s2 & -> & -> & E2); [done|]. destruct s2 as [|d [|]]; [done| |done]. cbn in E2. injection E2 as ->.
    assert (at_chunk cur' s1 (d :: after)) as Hat by (split; [by rewrite E, <- app_assoc|done]).
    destruct (split_pieces ss pieces text_sized _ _ E) as (F & _). apply Forall_app in F as [_ [(_ & _ & Hd) _]%Forall_cons].
    rewrite concat_app, length_app, Nat.add_1_r. cbn [concat]. rewrite app_nil_r.
    pose proof (left_in ss cur' s1 d [] after) as Hl. rewrite !app_nil_r in Hl. by apply Hl.
Qed.
Lemma piece_index p m q : piece (p ++ m ++ q) → Utf8.str_index (Chunk.text (chunk_of (p ++ m ++ q))) (str_len p) (str_len p + str_len m) = Some (encode m).
Proof. intros (Hs & _). rewrite text_chunk_of, <- str_len_app. by apply str_index_ok. Qed.
Lemma forward_step self x u v y n : forward self x u v y n → v ≠ [] →
  ∃ k v' self' n', v = k ++ v' ∧ k ≠ [] ∧ Chunks.peek self = Some (Some (encode k)) ∧ Chunks.advance self (str_len k) = Some self' ∧
    forward self' x (u ++ k) v' y n' ∧ (v' = [] ∨ (n' < n)%nat).
Proof.
  intros Hf Hv. pose proof (forward_valid _ _ _ _ _ _ Hf) as Hvalid. rewrite bool_decide_eq_true_2 in Hvalid by done. destruct Hf as [Er Eo Ev Hp].
  pose proof (right_text ss pieces text_sized _ _ _ _ Hp) as Et. unfold Chunks.peek. rewrite Hvalid. cbn [negb].
  remember (x ++ u) as a eqn:Ea. remember (v ++ y) as t eqn:Eb. destruct Hp as [before p q rest Hat Hq|Hat]; [|by destruct v].
  destruct (split_pieces ss pieces text_sized _ _ (proj1 Hat)) as (F1 & F2 & _ & Es). apply Forall_cons in F2 as [Hpq F2].
  rewrite (at_item ss _ _ _ Hat). cbn [mbind option_bind fmap option_fmap option_map head].
  unfold Chunks.slice_range, Chunks.chunk_start, Chunks.chunk_end. rewrite Ev, Er, Eo, (at_start ss pieces text_sized _ _ _ Hat), (at_end ss pieces text_sized _ _ _ Hat). cbn [mbind option_bind fst snd].
  pose proof (text_bounds _ _ Et) as (B1 & B2 & B3). rewrite !str_len_app in B1, B2, B3. pose proof (str_len_nonneg p). pose proof (str_len_nonneg q). pose proof (str_len_nonneg (concat before)). pose proof (str_len_nonneg (concat rest)).
  assert (∃ k v' q', v = k ++ v' ∧ q = k ++ q' ∧ k ≠ [] ∧ (v' = [] ∨ q' = [])) as (k & v' & q' & -> & -> & Hk & Hor).
  { apply app_eq_inv in Eb as [(z & -> & _)|(z & -> & _)]; [exists v, [], z|exists q, z, []]; rewrite ?app_nil_r; (split_and!; [done..|]); [by left|by right]. }
  assert (str_len (x ++ u ++ k ++ v') = str_len (concat before) + str_len p + str_len k + str_len v') as El.
  { rewrite (app_assoc x), str_len_app, <- Ea, !str_len_app. lia. }
  pose proof (str_len_nonneg k). pose proof (str_len_nonneg v'). pose proof (str_len_nonneg q'). rewrite !str_len_app in *.
  exists k, v'. pose proof (f_equal str_len Eb) as Ebl. rewrite !str_len_app in Ebl. pose proof (str_len_nonneg y).
  assert (str_len (concat before) + str_len p -w64 str_len (concat before) = str_len p) as ->. { rewrite wrap_len by lia. lia. }
  assert (Z.min (str_len (concat before) + (str_len p + (str_len k + str_len q'))) (str_len x + (str_len u + (str_len k + str_len v'))) -w64 str_len (concat before) = str_len p + str_len k) as ->.
  { assert (str_len q' = 0 ∨ str_len v' = 0) as Hz by (destruct Hor as [-> | ->]; [by right|by left]). rewrite wrap_len; lia. }
  rewrite (piece_index p k q') by done. cbn [fmap option_fmap option_map].
  unfold Chunks.advance. rewrite Ev, Eo. cbn [Chunks.offset Chunks.set_offset]. unfold Chunks.chunk_end. cbn [Chunks.chunks Chunks.set_offset].
  rewrite (at_end ss pieces text_sized _ _ _ Hat). cbn [mbind option_bind]. rewrite !str_len_app. rewrite wrap_len by lia.
  destruct (Z.leb_spec (str_len (concat before) + (str_len p + (str_len k + str_len q'))) (str_len (concat before) + str_len p + str_len k)) as [L|L].
  - assert (q' = []) as -> by (destruct (str_nil_or q'); [done|lia]). rewrite app_nil_r in *.
    destruct (at_next ss _ _ _ _ Hat) as (cur' & -> & Hat'). cbn [mbind option_bind]. eexists _, _. split_and!; [done|done|done|done| |].
    + split; cbn; [by rewrite Er, !str_len_app; do 2 f_equal; lia|rewrite app_assoc, <- Ea, !str_len_app; lia|done|].
      replace (x ++ u ++ k) with (concat (before ++ [p ++ k])) by (rewrite concat_app, app_assoc, <- Ea; cbn [concat]; by rewrite app_nil_r, <- app_assoc).
      assert (v' ++ y = concat rest) as -> by (rewrite <- !app_assoc in Eb; by apply app_inv_head in Eb). by apply right_next.
    + right. lia.
  - destruct Hor as [-> | ->]; [|cbn in L; lia]. eexists _, _. split_and!; [done|done|done|done| |by left].
    split; cbn; [by rewrite Er, !str_len_app; do 2 f_equal; cbn; lia|rewrite app_assoc, <- Ea, !str_len_app; lia|done|].
    rewrite app_nil_r in Eb. rewrite <- !app_assoc in Eb. apply app_inv_head in Eb. rewrite app_assoc, <- Ea, <- Eb, <- app_assoc. apply (right_in ss _ before (p ++ k) q' rest).
    + by rewrite <- app_assoc.
    + intros ->. cbn in L. lia.
Qed.
Lemma backward_step self x u v y n : backward self x u v y n → u ≠ [] →
  ∃ k u' self' n', u = u' ++ k ∧ k ≠ [] ∧ Chunks.peek self = Some (Some (encode k)) ∧ Chunks.advance self (str_len k) = Some self' ∧
    backward self' x u' (k ++ v) y n' ∧ (u' = [] ∨ (n' < n)%nat).
Proof.
  intros Hf Hu. pose proof (backward_valid _ _ _ _ _ _ Hf) as Hvalid. rewrite bool_decide_eq_true_2 in Hvalid by done. destruct Hf as [Er Eo Ev Hp].
  pose proof (left_text ss pieces text_sized _ _ _ _ Hp) as Et. unfold Chunks.peek. rewrite Hvalid. cbn [negb].
  remember (x ++ u) as a eqn:Ea. remember (v ++ y) as t eqn:Eb. destruct Hp as [before p q rest Hat Hq|Hat]; [|by destruct x, u].
  destruct (split_pieces ss pieces text_sized _ _ (proj1 Hat)) as (F1 & F2 & _ & Es). apply Forall_cons in F2 as [Hpq F2].
  rewrite (at_item ss _ _ _ Hat). cbn [mbind option_bind fmap option_fmap option_map head].
  unfold Chunks.slice_range, Chunks.chunk_start. rewrite Ev, Er, Eo, (at_start ss pieces text_sized _ _ _ Hat). cbn [mbind option_bind fst snd].
  pose proof (text_bounds _ _ Et) as (B1 & B2 & B3). rewrite !str_len_app in B1, B2, B3. pose proof (str_len_nonneg p). pose proof (str_len_nonneg (concat before)).
  assert (∃ k u' p', u = u' ++ k ∧ p = p' ++ k ∧ k ≠ [] ∧ (u' = [] ∨ p' = [])) as (k & u' & p' & -> & -> & Hk & Hor).
  { apply app_eq_inv in Ea as [(z & _ & ->)|(z & _ & ->)]; [exists p, z, []|exists u, [], z]; rewrite ?app_nil_r; (split_and!; [done..|]); [by right|by left]. }
  pose proof (f_equal str_len Ea) as Eal. rewrite !str_len_app in *.
  pose proof (str_len_nonneg k). pose proof (str_len_nonneg u'). pose proof (str_len_nonneg p'). pose proof (str_len_nonneg x). pose proof (str_len_nonneg q).
  exists k, u'.
  assert (str_len (concat before) + (str_len p' + str_len k) -w64 str_len (concat before) = str_len p' + str_len k) as ->. { rewrite wrap_len by lia. lia. }
  assert (Z.max (str_len (concat before)) (str_len x) -w64 str_len (concat before) = str_len p') as ->.
  { assert (str_len u' = 0 ∨ str_len p' = 0) as Hz by (destruct Hor as [-> | ->]; [by left|by right]). rewrite wrap_len; lia. }
  rewrite <- app_assoc in Hpq. pose proof (piece_index p' k q Hpq) as Hix. rewrite app_assoc in Hix. rewrite Hix. cbn [fmap option_fmap option_map].
  unfold Chunks.advance. rewrite Ev, Eo. cbn [Chunks.offset Chunks.set_offset]. unfold Chunks.chunk_start. cbn [Chunks.chunks Chunks.set_offset].
  rewrite (at_start ss pieces text_sized _ _ _ Hat). rewrite wrap_len by lia.
  assert (x ++ u' = concat before ++ p') as Ea' by (rewrite !app_assoc in Ea; by apply app_inv_tail in Ea).
  destruct (Z.leb_spec (str_len (concat before) + (str_len p' + str_len k) - str_len k) (str_len (concat before))) as [L|L].
  - assert (p' = []) as -> by (destruct (str_nil_or p'); [done|lia]).
    destruct (left_prev _ _ _ Hat) as (cur' & -> & Hat'). cbn [mbind option_bind]. eexists _, _. split_and!; [done|done|done|done| |].
    + split; cbn; [rewrite Er, !str_len_app; do 2 f_equal; lia|rewrite Ea', !str_len_app; cbn; lia|done|].
      rewrite Ea', app_nil_r, <- app_assoc, <- Eb. cbn [concat app] in Hat'. by rewrite <- app_assoc in Hat'.
    + right. lia.
  - destruct Hor as [-> | ->]; [|cbn in L; lia]. eexists _, _. split_and!; [done|done|done|done| |by left].
    split; cbn; [rewrite Er, !str_len_app; do 2 f_equal; cbn; lia|rewrite app_nil_r in Ea'; rewrite app_nil_r, Ea', !str_len_app; lia|done|].
    rewrite Ea', <- app_assoc, <- Eb. replace (k ++ q ++ concat rest) with ((k ++ q) ++ concat rest) by by rewrite app_assoc. apply (left_in ss _ before p' (k ++ q) rest).
    + by rewrite app_assoc.
    + intros ->. cbn in L. lia.
Qed.
(** *** All the chunks *)
Lemma forward_next self x u v y n : forward self x u v y n →
  (v = [] ∧ Chunks.next self = Some (self, None)) ∨
  ∃ k v' self' n', v = k ++ v' ∧ k ≠ [] ∧ Chunks.next self = Some (self', Some (encode k)) ∧ forward self' x (u ++ k) v' y n' ∧ (v' = [] ∨ (n' < n)%nat).
Proof.
  intros Hf. destruct (decide (v = [])) as [->|Hv].
  - left. split; [done|]. unfold Chunks.next, Chunks.peek. rewrite (forward_valid _ _ _ _ _ _ Hf). by cbn.
  - right. destruct (forward_step _ _ _ _ _ _ Hf Hv) as (k & v' & self' & n' & E & Hk & Hp & Ha & Hf' & Hn). exists k, v', self', n'.
    unfold Chunks.next. rewrite Hp. cbn [mbind option_bind]. by rewrite len_encode, Ha.
Qed.
Lemma backward_next self x u v y n : backward self x u v y n →
  (u = [] ∧ Chunks.next self = Some (self, None)) ∨
  ∃ k u' self' n', u = u' ++ k ∧ k ≠ [] ∧ Chunks.next self = Some (self', Some (encode k)) ∧ backward self' x u' (k ++ v) y n' ∧ (u' = [] ∨ (n' < n)%nat).
Proof.
  intros Hf. destruct (decide (u = [])) as [->|Hv].
  - left. split; [done|]. unfold Chunks.next, Chunks.peek. rewrite (backward_valid _ _ _ _ _ _ Hf). by cbn.
  - right. destruct (backward_step _ _ _ _ _ _ Hf Hv) as (k & u' & self' & n' & E & Hk & Hp & Ha & Hf' & Hn). exists k, u', self', n'.
    unfold Chunks.next. rewrite Hp. cbn [mbind option_bind]. by rewrite len_encode, Ha.
Qed.
(** Fuel for what is ahead. *)
Definition fueled (v : str) (n fuel : nat) : Prop := (1 + (if decide (v = []) then 0 else n) < fuel)%nat ∨ (v = [] ∧ (0 < fuel)%nat).
Lemma fueled_step v v' n n' fuel : fueled v n (S fuel) → v ≠ [] → v' = [] ∨ (n' < n)%nat → (0 < n)%nat → fueled v' n' fuel.
Proof.
  intros [H|[-> _]] Hv Hn Hpos; [|done]. destruct (decide (v = [])); [done|]. unfold fueled. destruct Hn as [-> | Hn]; [right; split; [done|lia]|].
  left. destruct (decide (v' = [])); lia.
Qed.
Lemma right_pos cur a b n : right cur a b n → b ≠ [] → (0 < n)%nat.
Proof. intros [before p q rest _ _|_] Hb; [lia|done]. Qed.
Lemma left_pos cur a b n : left cur a b n → a ≠ [] → (0 < n)%nat.
Proof. intros [before p q rest _ _|_] Hb; [lia|done]. Qed.
Lemma app_not_nil {A} (k l : list A) : k ≠ [] → k ++ l ≠ [] ∧ l ++ k ≠ [].
Proof. intros H. split; intros [E1 E2]%app_eq_nil; done. Qed.
Lemma forward_collect fuel self x u v y n : forward self x u v y n → fueled v n fuel →
  ∃ ks, Chunks.collect fuel self = Some (map encode ks) ∧ concat ks = v ∧ Forall (λ k, k ≠ []) ks.
Proof.
  revert self u v n. induction fuel as [|fuel IH]; intros self u v n Hf Hfuel; [destruct Hfuel as [?|[_ ?]]; lia|]. cbn [Chunks.collect].
  destruct (forward_next _ _ _ _ _ _ Hf) as [[-> ->]|(k & v' & self' & n' & -> & Hk & -> & Hf' & Hn)]; cbn [mbind option_bind]; [by exists []|].
  destruct (app_not_nil k v' Hk) as [Hne _]. destruct (IH _ _ _ _ Hf') as (ks & -> & <- & Hks).
  - apply (fueled_step _ _ _ _ _ Hfuel Hne Hn). eapply right_pos; [apply Hf|]. rewrite <- app_assoc. by apply (app_not_nil k).
  - exists (k :: ks). cbn. split_and!; [done|done|by constructor].
Qed.
Lemma backward_collect fuel self x u v y n : backward self x u v y n → fueled u n fuel →
  ∃ ks, Chunks.collect fuel self = Some (map encode ks) ∧ concat (rev ks) = u ∧ Forall (λ k, k ≠ []) ks.
Proof.
  revert self u v n. induction fuel as [|fuel IH]; intros self u v n Hf Hfuel; [destruct Hfuel as [?|[_ ?]]; lia|]. cbn [Chunks.collect].
  destruct (backward_next _ _ _ _ _ _ Hf) as [[-> ->]|(k & u' & self' & n' & -> & Hk & -> & Hf' & Hn)]; cbn [mbind option_bind]; [by exists []|].
  destruct (app_not_nil k u' Hk) as [_ Hne]. destruct (IH _ _ _ _ Hf') as (ks & -> & <- & Hks).
  - apply (fueled_step _ _ _ _ _ Hfuel Hne Hn). eapply left_pos; [apply Hf|]. rewrite app_assoc. by apply (app_not_nil k).
  - exists (k :: ks). cbn. rewrite concat_app. cbn [concat]. rewrite app_nil_r. split_and!; [done|done|by constructor].
Qed.
Lemma forward_fuel self x u v y n : forward self x u v y n → fueled v n (Chunks.enough self).
Proof.
  intros [_ _ _ H]. apply right_count in H as [H1 H2]; [|done..]. unfold Chunks.enough. rewrite H2. left. destruct (decide _); lia.
Qed.
Lemma backward_fuel self x u v y n : backward self x u v y n → fueled u n (Chunks.enough self).
Proof.
  intros [_ _ _ H]. apply left_count in H as [H1 H2]; [|done..]. unfold Chunks.enough. rewrite H2. left. destruct (decide _); lia.
Qed.
(** *** Seeking *)
Lemma reseek_right cur before after (a t : str) : at_chunk cur before after → a ++ t = concat ss → ∃ e cur' n, Cursor.end_ cur = Some e ∧ right cur' a t n ∧
  (if e <=? str_len a then fst <$> Cursor.seek_forward (Z.compare (str_len a)) Right cur
   else if str_len a <? Cursor.start cur then fst <$> Cursor.seek (Z.compare (str_len a)) Right cur else Some cur) = Some cur'.
Proof.
  intros H Et. pose proof (at_end ss pieces text_sized _ _ _ H) as He. pose proof (at_start ss pieces text_sized _ _ _ H) as Hs. exists (str_len (concat before ++ match after with [] => [] | x :: _ => x end)). rewrite He, Hs.
  destruct (Z.leb_spec (str_len (concat before ++ match after with [] => [] | x :: _ => x end)) (str_len a)) as [L|L].
  - destruct (seek_forward_place ss pieces text_sized Right _ _ _ a t H Et) as (cur' & hit & n & -> & Hr & _).
    + right. split; [done|]. rewrite str_len_app in L. pose proof (str_len_nonneg (match after with [] => [] | x :: _ => x end)). lia.
    + by exists cur', n.
  - destruct (Z.ltb_spec (str_len a) (str_len (concat before))) as [L2|L2].
    + destruct (seek_place ss pieces text_sized Right _ _ _ a t (or_introl H) Et) as (cur' & hit & n & -> & Hr & _). by exists cur', n.
    + destruct (to_right ss _ _ _ a t H Et L2) as [n Hn]; [|by exists cur, n]. intros c Hc. destruct after as [|d after]; [done|]. by injection Hc as ->.
Qed.
Lemma reseek_left cur before after (a t : str) : at_chunk cur before after → a ++ t = concat ss → ∃ e cur' n, Cursor.end_ cur = Some e ∧ left cur' a t n ∧
  (if e <? str_len a then fst <$> Cursor.seek_forward (Z.compare (str_len a)) Left cur
   else if str_len a <=? Cursor.start cur then fst <$> Cursor.seek (Z.compare (str_len a)) Left cur else Some cur) = Some cur'.
Proof.
  intros H Et. pose proof (at_end ss pieces text_sized _ _ _ H) as He. pose proof (at_start ss pieces text_sized _ _ _ H) as Hs. exists (str_len (concat before ++ match after with [] => [] | x :: _ => x end)). rewrite He, Hs.
  destruct (Z.ltb_spec (str_len (concat before ++ match after with [] => [] | x :: _ => x end)) (str_len a)) as [L|L].
  - destruct (seek_forward_place ss pieces text_sized Left _ _ _ a t H Et) as (cur' & hit & n & -> & Hr & _).
    + left. rewrite str_len_app in L. pose proof (str_len_nonneg (match after with [] => [] | x :: _ => x end)). lia.
    + by exists cur', n.
  - destruct (Z.leb_spec (str_len a) (str_len (concat before))) as [L2|L2].
    + destruct (seek_place ss pieces text_sized Left _ _ _ a t (or_introl H) Et) as (cur' & hit & n & -> & Hr & _). by exists cur', n.
    + destruct (to_left ss _ _ _ a t H Et (or_intror L2)) as [n Hn]; [|by exists cur, n]. intros c Hc. destruct after as [|d after]; [done|]. by injection Hc as ->.
Qed.
Lemma clamp_ok x m k : 0 ≤ str_len m → Chunks.clamp k x (x + str_len m) = Some (Z.max x (Z.min k (x + str_len m))).
Proof. intros H. unfold Chunks.clamp. by rewrite (proj2 (Z.leb_le _ _)) by lia. Qed.
Lemma forward_seek self x u v y n k u' v' : forward self x u v y n → u' ++ v' = u ++ v → Z.max (str_len x) (Z.min k (str_len (x ++ u ++ v))) = str_len (x ++ u') →
  ∃ self' n', Chunks.seek self k = Some self' ∧ forward self' x u' v' y n'.
Proof.
  intros [Er Eo Ev Hp] Eu Ek. pose proof (right_text ss pieces text_sized _ _ _ _ Hp) as Et. unfold Chunks.seek. rewrite Er. cbn [fst snd].
  rewrite (str_len_app x (u ++ v)), clamp_ok by apply str_len_nonneg. rewrite <- str_len_app, Ek. cbn [mbind option_bind]. rewrite Ev.
  assert (∃ before after, at_chunk (Chunks.chunks self) before after) as (before & after & Hat) by (destruct Hp; eauto).
  assert ((x ++ u') ++ (v' ++ y) = concat ss) as Et' by (rewrite <- Et, <- !app_assoc; f_equal; by rewrite (app_assoc u'), Eu, app_assoc).
  destruct (reseek_right _ _ _ _ _ Hat Et') as (e & cur' & n' & He & Hr & Hs). unfold Chunks.chunk_end, Chunks.chunk_start, Chunks.seek_chunks_forward, Chunks.seek_chunks.
  rewrite He. cbn [mbind option_bind].
  exists (Chunks.mk cur' (Chunks.range self) (str_len (x ++ u')) false), n'. split; [|split; cbn; [by rewrite Er, Eu|done..]].
  revert Hs. unfold Chunks.set_chunks, Chunks.set_offset. destruct (e <=? str_len (x ++ u')); [|destruct (str_len (x ++ u') <? Cursor.start (Chunks.chunks self))].
  - by destruct (Cursor.seek_forward _ _ _) as [[c h]|]; cbn; intros [= ->]; rewrite Ev.
  - by destruct (Cursor.seek _ _ _) as [[c h]|]; cbn; intros [= ->]; rewrite Ev.
  - intros [= <-]. cbn. rewrite <- Ev. by destruct self.
Qed.
Lemma backward_seek self x u v y n k u' v' : backward self x u v y n → placed ss (Chunks.chunks self) → u' ++ v' = u ++ v → Z.max (str_len x) (Z.min k (str_len (x ++ u ++ v))) = str_len (x ++ u') →
  ∃ self' n', Chunks.seek self k = Some self' ∧ backward self' x u' v' y n'.
Proof.
  intros [Er Eo Ev Hp] (before & after & Hat) Eu Ek. pose proof (left_text ss pieces text_sized _ _ _ _ Hp) as Et. unfold Chunks.seek. rewrite Er. cbn [fst snd].
  rewrite (str_len_app x (u ++ v)), clamp_ok by apply str_len_nonneg. rewrite <- str_len_app, Ek. cbn [mbind option_bind]. rewrite Ev.
  assert ((x ++ u') ++ (v' ++ y) = concat ss) as Et' by (rewrite <- Et, <- !app_assoc; f_equal; by rewrite (app_assoc u'), Eu, app_assoc).
  destruct (reseek_left _ _ _ _ _ Hat Et') as (e & cur' & n' & He & Hr & Hs). unfold Chunks.chunk_end, Chunks.chunk_start, Chunks.seek_chunks_forward, Chunks.seek_chunks.
  rewrite He. cbn [mbind option_bind].
  exists (Chunks.mk cur' (Chunks.range self) (str_len (x ++ u')) true), n'. split; [|split; cbn; [by rewrite Er, Eu|done..]].
  revert Hs. unfold Chunks.set_chunks, Chunks.set_offset. destruct (e <? str_len (x ++ u')); [|destruct (str_len (x ++ u') <=? Cursor.start (Chunks.chunks self))].
  - by destruct (Cursor.seek_forward _ _ _) as [[c h]|]; cbn; intros [= ->]; rewrite Ev.
  - by destruct (Cursor.seek _ _ _) as [[c h]|]; cbn; intros [= ->]; rewrite Ev.
  - intros [= <-]. cbn. rewrite <- Ev. by destruct self.
Qed.
(** A new iterator over [m], between [x] and [y]. *)
Lemma boundary_at p q o : piece (p ++ q) → str_len o + str_len p < 2 ^ 32 → Chunk.assert_char_boundary true (chunk_of (p ++ q)) (str_len (o ++ p) -w64 str_len o) = Some true.
Proof.
  intros H Hl. rewrite str_len_app. pose proof (str_len_nonneg p). pose proof (str_len_nonneg o). rewrite wrap_len by lia. replace (str_len o + str_len p - str_len o) with (str_len p) by lia.
  unfold Chunk.assert_char_boundary. rewrite chunk_boundary by (done || lia). destruct H as (Hs & _). by rewrite Utf8.boundary_app.
Qed.
Lemma assert_right cur a b n : right cur a b n → ∃ item, Cursor.item cur = Some item ∧
  match item with Some c => Chunk.assert_char_boundary true c (str_len a -w64 Cursor.start cur) | None => Some true end = Some true.
Proof.
  intros H. pose proof (right_text ss pieces text_sized _ _ _ _ H) as Et. destruct H as [before p q rest Hat Hq|Hat]; rewrite (at_item ss _ _ _ Hat), (at_start ss pieces text_sized _ _ _ Hat); eexists; (split; [done|]); [|done].
  cbn. destruct (text_bounds _ _ Et) as (B1 & B2 & B3). rewrite !str_len_app in *. destruct (split_pieces ss pieces text_sized _ _ (proj1 Hat)) as (_ & F%Forall_cons & _). rewrite <- str_len_app.
  apply boundary_at; [apply F|]. pose proof (str_len_nonneg (concat before)). lia.
Qed.
Lemma assert_left cur a b n : left cur a b n → placed ss cur → ∃ item, Cursor.item cur = Some item ∧
  match item with Some c => Chunk.assert_char_boundary true c (str_len a -w64 Cursor.start cur) | None => Some true end = Some true.
Proof.
  intros H (bf & af & Hpl). pose proof (left_text ss pieces text_sized _ _ _ _ H) as Et. destruct H as [before p q rest Hat Hq|Hat].
  - rewrite (at_item ss _ _ _ Hat), (at_start ss pieces text_sized _ _ _ Hat); eexists; (split; [done|]).
    cbn. destruct (text_bounds _ _ Et) as (B1 & B2 & B3). rewrite !str_len_app in *. destruct (split_pieces ss pieces text_sized _ _ (proj1 Hat)) as (_ & F%Forall_cons & _). rewrite <- str_len_app.
    apply boundary_at; [apply F|]. pose proof (str_len_nonneg (concat before)). lia.
  - rewrite (at_item ss _ _ _ Hpl). eexists. split; [done|].
    assert (Cursor.start cur = 0) as ->. { destruct Hat as [[]|Hat]; [done|]. by rewrite (at_start ss pieces text_sized _ _ _ Hat). }
    destruct af as [|c af]; [done|]. cbn. destruct (split_pieces ss pieces text_sized _ _ (proj1 Hpl)) as (_ & F%Forall_cons & _).
    apply (boundary_at [] c []); [apply F|done].
Qed.
Lemma chunks_new w r x m y reversed : spells w r ss → w < 6 ^ 16 → x ++ m ++ y = concat ss → ∃ self n,
  Chunks.new r (str_len x, str_len (x ++ m)) reversed = Some self ∧ placed ss (Chunks.chunks self) ∧ if reversed then backward self x m [] y n else forward self x [] m y n.
Proof.
  intros Hr Hw E. pose proof (ready_at (D := Z) w r ss Hr Hw) as Hready. unfold Chunks.new. cbn [fst snd]. destruct reversed.
  - destruct (seek_place ss pieces text_sized Left _ [] ss (x ++ m) y (or_intror (conj eq_refl (conj eq_refl Hready)))) as (cur & hit & n & -> & Hl & Hpl); [by rewrite <- app_assoc|].
    cbn [mbind option_bind]. destruct (assert_left _ _ _ _ Hl Hpl) as (item & -> & Hi). cbn [mbind option_bind]. rewrite Hi. cbn [mbind option_bind].
    eexists _, n. split_and!; [done|done|]. split; cbn; [by rewrite app_nil_r|done..].
  - destruct (seek_place ss pieces text_sized Right _ [] ss x (m ++ y) (or_intror (conj eq_refl (conj eq_refl Hready)))) as (cur & hit & n & -> & Hl & Hpl); [done|].
    cbn [mbind option_bind]. destruct (assert_right _ _ _ _ Hl) as (item & -> & Hi). cbn [mbind option_bind]. rewrite Hi. cbn [mbind option_bind].
    eexists _, n. split_and!; [done|done|]. split; cbn; [done|by rewrite app_nil_r|done|by rewrite app_nil_r].
Qed.
(** *** Comparisons with a string *)
Lemma text_scalars (a b : str) : a ++ b = concat ss → scalars a ∧ scalars b.
Proof. intros E. apply scalars_app. rewrite E. by apply pieces_scalars. Qed.
Lemma forward_text self x u v y n : forward self x u v y n → x ++ u ++ v ++ y = concat ss.
Proof. intros [_ _ _ H]. apply right_text in H; [|done..]. by rewrite <- H, <- app_assoc. Qed.
Lemma backward_text self x u v y n : backward self x u v y n → x ++ u ++ v ++ y = concat ss.
Proof. intros [_ _ _ H]. apply left_text in H; [|done..]. by rewrite <- H, <- app_assoc. Qed.
Lemma forward_ahead self x u v y n fuel k v' : forward self x u v y n → fueled v n (S fuel) → v = k ++ v' → k ≠ [] → ∀ n', v' = [] ∨ (n' < n)%nat → fueled v' n' fuel.
Proof.
  intros Hf Hfuel -> Hk n' Hn. destruct (app_not_nil k v' Hk) as [Hne _]. apply (fueled_step _ _ _ _ _ Hfuel Hne Hn).
  eapply right_pos; [apply Hf|]. rewrite <- app_assoc. by apply (app_not_nil k).
Qed.
Lemma backward_behind self x u v y n fuel k u' : backward self x u v y n → fueled u n (S fuel) → u = u' ++ k → k ≠ [] → ∀ n', u' = [] ∨ (n' < n)%nat → fueled u' n' fuel.
Proof.
  intros Hf Hfuel -> Hk n' Hn. destruct (app_not_nil k u' Hk) as [_ Hne]. apply (fueled_step _ _ _ _ _ Hfuel Hne Hn).
  eapply left_pos; [apply Hf|]. rewrite app_assoc. by apply (app_not_nil k).
Qed.
Lemma not_fueled v n : ¬ fueled v n 0.
Proof. intros [?|[_ ?]]; lia. Qed.
Lemma equals_forward fuel self x u v y n o : forward self x u v y n → fueled v n fuel → scalars (u ++ o) →
  iterate (Chunks.equals_step (encode (u ++ o))) fuel (self, str_len u) = Some (bool_decide (v = o)).
Proof.
  revert self u v n o. induction fuel as [|fuel IH]; intros self u v n o Hf Hfuel Ho; [by apply not_fueled in Hfuel|]. cbn [iterate Chunks.equals_step].
  pose proof (forward_text _ _ _ _ _ _ Hf) as Et.
  destruct (forward_next _ _ _ _ _ _ Hf) as [[-> ->]|(k & v' & self' & n' & -> & Hk & -> & Hf' & Hn)]; cbn [mbind option_bind]; rewrite len_encode, str_len_app.
  - f_equal. destruct (str_nil_or o) as [->|Hpos]; [by rewrite Z.add_0_r, Z.eqb_refl|]. rewrite (proj2 (Z.eqb_neq _ _)) by lia. symmetry. apply bool_decide_eq_false. by intros <-.
  - destruct (str_nil_or o) as [->|Hpos].
    { rewrite Z.add_0_r, Z.leb_refl. transitivity (Some false); [done|]. symmetry. f_equal. apply bool_decide_eq_false. by apply (app_not_nil k v'). }
    rewrite (proj2 (Z.leb_gt _ _)) by lia. rewrite <- str_len_app, <- (len_encode (u ++ o)), str_index_from by done. cbn [mbind option_bind].
    assert (scalars (x ++ u) ∧ scalars ((k ++ v') ++ y)) as [_ Hsk] by (apply text_scalars; by rewrite <- Et, <- !app_assoc). apply scalars_app in Hsk as [[Hsk _]%scalars_app _].
    rewrite starts_with_encode by (done || by apply scalars_app in Ho as [_ ?]). destruct (bool_decide_reflect (k `prefix_of` o)) as [[o' ->]|Hno].
    + rewrite len_encode, wrap_len.
      * rewrite <- str_len_app, (app_assoc u k o'), (IH _ _ _ _ _ Hf'); [|by apply (forward_ahead _ _ _ _ _ _ _ _ _ Hf Hfuel eq_refl Hk)|by rewrite <- app_assoc].
        f_equal. apply bool_decide_ext. split; [by intros ->|by intros ?%app_inv_head].
      * destruct (text_bounds ((x ++ u) ++ k) (v' ++ y)) as (B1 & B2 & B3); [by rewrite <- Et, <- !app_assoc|]. rewrite !str_len_app in *. pose proof (str_len_nonneg x). pose proof (str_len_nonneg u). pose proof (str_len_nonneg k). lia.
    + symmetry. f_equal. apply bool_decide_eq_false. intros <-. by apply Hno, prefix_app_r.
Qed.
Lemma equals_backward fuel self x u v y n o : backward self x u v y n → fueled u n fuel → scalars (o ++ v) → str_len o < 2 ^ 64 →
  iterate (Chunks.equals_step_back (encode (o ++ v))) fuel (self, str_len o) = Some (bool_decide (u = o)).
Proof.
  revert self u v n o. induction fuel as [|fuel IH]; intros self u v n o Hf Hfuel Ho Hlo; [by apply not_fueled in Hfuel|]. cbn [iterate Chunks.equals_step_back].
  pose proof (backward_text _ _ _ _ _ _ Hf) as Et.
  destruct (backward_next _ _ _ _ _ _ Hf) as [[-> ->]|(k & u' & self' & n' & -> & Hk & -> & Hf' & Hn)]; cbn [mbind option_bind].
  - f_equal. destruct (str_nil_or o) as [->|Hpos]; [done|]. rewrite (proj2 (Z.eqb_neq _ _)) by lia. symmetry. apply bool_decide_eq_false. by intros <-.
  - rewrite str_index_to by done. cbn [mbind option_bind].
    assert (scalars (x ++ u') ∧ scalars (k ++ v ++ y)) as [_ Hsk] by (apply text_scalars; by rewrite <- Et, <- !app_assoc). apply scalars_app in Hsk as [Hsk _].
    rewrite ends_with_encode by (done || by apply scalars_app in Ho as [? _]). destruct (bool_decide_reflect (k `suffix_of` o)) as [[o' ->]|Hno].
    + rewrite len_encode, str_len_app in *. pose proof (str_len_nonneg o'). pose proof (str_len_nonneg k).
      rewrite wrap64_id by width. replace (str_len o' + str_len k - str_len k) with (str_len o') by lia.
      rewrite <- (app_assoc o' k v), (IH _ _ _ _ _ Hf'); [|by apply (backward_behind _ _ _ _ _ _ _ _ _ Hf Hfuel eq_refl Hk)|by rewrite app_assoc|lia].
      f_equal. apply bool_decide_ext. split; [by intros ->|by intros ?%app_inv_tail].
    + symmetry. f_equal. apply bool_decide_eq_false. intros <-. by apply Hno, suffix_app_r.
Qed.
(** A chunk cut to the length of the pattern. *)
Lemma min_boundary (k p : str) (a b : str) : scalars k → Utf8.is_char_boundary (encode k) (str_len a) = false → k = a ++ b → False.
Proof. intros Hk Hb ->. by rewrite Utf8.boundary_app in Hb. Qed.
Lemma cut_prefix k p : scalars k →
  match str_get (encode k) 0 (Z.min (str_len p) (str_len k)) with
  | None => ∀ r, ¬ p `prefix_of` (k ++ r)
  | Some cut => ∃ k' z, cut = encode k' ∧ k = k' ++ z ∧ str_len k' = Z.min (str_len p) (str_len k)
  end.
Proof.
  intros Hk. unfold str_get, Utf8.str_index. pose proof (str_len_nonneg p). pose proof (str_len_nonneg k). rewrite (proj2 (Z.leb_le _ _)) by lia. cbn [andb].
  replace (Utf8.is_char_boundary (encode k) 0) with true by done. cbn [andb]. destruct (Utf8.is_char_boundary (encode k) (Z.min (str_len p) (str_len k))) eqn:Eb.
  - apply boundary_spec in Eb as (k1 & k2 & -> & Hl); [|done|lia]. exists k1, k2. by rewrite Z.sub_0_r, drop_0, Hl, take_encode.
  - intros r [z E]. apply app_eq_inv in E as [(w & -> & _)|(w & -> & _)]; rewrite str_len_app in Eb; pose proof (str_len_nonneg w).
    + rewrite Z.min_l in Eb by lia. by eapply (min_boundary (p ++ w) p p).
    + rewrite Z.min_r in Eb by lia. eapply (min_boundary k k k []); [done..|]. by rewrite app_nil_r.
Qed.
Lemma cut_suffix k p : scalars k → str_len k < 2 ^ 32 →
  match str_get (encode k) (Utf8.len (encode k) -w64 Z.min (str_len p) (str_len k)) (Utf8.len (encode k)) with
  | None => ∀ r, ¬ p `suffix_of` (r ++ k)
  | Some cut => ∃ k' z, cut = encode k' ∧ k = z ++ k' ∧ str_len k' = Z.min (str_len p) (str_len k)
  end.
Proof.
  intros Hk Hl. unfold str_get, Utf8.str_index. rewrite len_encode. pose proof (str_len_nonneg p). pose proof (str_len_nonneg k). rewrite wrap_len by lia.
  rewrite (proj2 (Z.leb_le _ _)) by lia. cbn [andb].
  assert (Utf8.is_char_boundary (encode k) (str_len k) = true) as -> by (rewrite <- (app_nil_r k) at 1; apply Utf8.boundary_app; by rewrite app_nil_r). rewrite andb_true_r.
  destruct (Utf8.is_char_boundary (encode k) (str_len k - Z.min (str_len p) (str_len k))) eqn:Eb.
  - apply boundary_spec in Eb as (k1 & k2 & -> & Hk1); [|done|lia]. exists k2, k1. rewrite str_len_app in *.
    rewrite Hk1, drop_encode. split_and!; [|done|lia]. apply take_ge. rewrite length_encode. lia.
  - intros r [z E]. symmetry in E. apply app_eq_inv in E as [(w & -> & ->)|(w & -> & ->)]; rewrite ?str_len_app in Eb; pose proof (str_len_nonneg w).
    + rewrite Z.min_l in Eb by lia. replace (str_len w + str_len p - str_len p) with (str_len w) in Eb by lia. by eapply (min_boundary (w ++ p) p w).
    + rewrite Z.min_r in Eb by lia. rewrite Z.sub_diag in Eb. by eapply (min_boundary k k []).
Qed.
Lemma starts_with_runs fuel self x u v y n p : forward self x u v y n → fueled v n fuel → scalars p →
  iterate starts_with_step fuel (self, encode p) = Some (bool_decide (p `prefix_of` v)).
Proof.
  revert self u v n p. induction fuel as [|fuel IH]; intros self u v n p Hf Hfuel Hp; [by apply not_fueled in Hfuel|]. cbn [iterate starts_with_step].
  pose proof (forward_text _ _ _ _ _ _ Hf) as Et.
  destruct (forward_next _ _ _ _ _ _ Hf) as [[-> ->]|(k & v' & self' & n' & -> & Hk & -> & Hf' & Hn)]; cbn [mbind option_bind].
  - f_equal. rewrite encode_nil_len. apply bool_decide_ext. split; [by intros ->|]. intros [z E]. symmetry in E. by apply app_eq_nil in E as [? _].
  - assert (scalars (x ++ u) ∧ scalars ((k ++ v') ++ y)) as [_ Hsk] by (apply text_scalars; by rewrite <- Et, <- !app_assoc). apply scalars_app in Hsk as [[Hsk _]%scalars_app _].
    rewrite !len_encode. pose proof (cut_prefix k p Hsk) as Hcut. destruct (str_get _ _ _) as [cut|].
    + destruct Hcut as (k' & z & -> & -> & Hl). apply scalars_app in Hsk as [Hsk' _]. rewrite starts_with_encode by done.
      destruct (bool_decide_reflect (k' `prefix_of` p)) as [[p' ->]|Hno].
      * rewrite len_encode, <- (len_encode (k' ++ p')), str_index_from by done. cbn [mbind option_bind]. rewrite encode_nil_len.
        destruct (bool_decide_reflect (p' = [])) as [->|Hne].
        -- symmetry. f_equal. apply bool_decide_eq_true. rewrite app_nil_r, <- app_assoc. by apply prefix_app_r.
        -- assert (z = []) as -> by (destruct (str_nil_or z) as [|Hz]; [done|destruct (str_nil_or p') as [|Hp']; [done|]]; rewrite !str_len_app in Hl; lia).
           rewrite app_nil_r in *. rewrite (IH _ _ _ _ _ Hf'); [|by apply (forward_ahead _ _ _ _ _ _ _ _ _ Hf Hfuel eq_refl Hk)|by apply scalars_app in Hp as [_ ?]].
           f_equal. apply bool_decide_ext. split; [by apply prefix_app|by apply prefix_app_inv].
      * symmetry. f_equal. apply bool_decide_eq_false. intros [r E]. rewrite <- app_assoc in E. apply app_eq_inv in E as [(w & E1 & _)|(w & -> & _)].
        -- apply Hno. rewrite E1 in Hl. rewrite !str_len_app in Hl. pose proof (str_len_nonneg z). destruct (str_nil_or w) as [->|Hw]; [rewrite app_nil_r in E1; by subst|]. lia.
        -- apply Hno. by exists w.
    + symmetry. f_equal. by apply bool_decide_eq_false.
Qed.
Lemma ends_with_runs fuel self x u v y n p : backward self x u v y n → fueled u n fuel → scalars p → str_len p < 2 ^ 64 →
  iterate ends_with_step fuel (self, encode p) = Some (bool_decide (p `suffix_of` u)).
Proof.
  revert self u v n p. induction fuel as [|fuel IH]; intros self u v n p Hf Hfuel Hp Hlp; [by apply not_fueled in Hfuel|]. cbn [iterate ends_with_step].
  pose proof (backward_text _ _ _ _ _ _ Hf) as Et.
  destruct (backward_next _ _ _ _ _ _ Hf) as [[-> ->]|(k & u' & self' & n' & -> & Hk & -> & Hf' & Hn)]; cbn [mbind option_bind].
  - f_equal. rewrite encode_nil_len. apply bool_decide_ext. split; [by intros ->|]. intros [z E]. symmetry in E. by apply app_eq_nil in E as [_ ?].
  - assert ((x ++ u') ++ (k ++ v ++ y) = concat ss) as Et2 by by rewrite <- Et, <- !app_assoc.
    destruct (text_scalars _ _ Et2) as [_ [Hsk _]%scalars_app]. destruct (text_bounds _ _ Et2) as (B1 & _ & B3). rewrite (str_len_app k), (str_len_app v) in B3.
    pose proof (str_len_nonneg v). pose proof (str_len_nonneg y). rewrite (len_encode p). rewrite (len_encode k) at 2. pose proof (cut_suffix k p Hsk ltac:(lia)) as Hcut. destruct (str_get _ _ _) as [cut|].
    + destruct Hcut as (k' & z & -> & -> & Hl). apply scalars_app in Hsk as [_ Hsk']. rewrite ends_with_encode by done.
      destruct (bool_decide_reflect (k' `suffix_of` p)) as [[p' ->]|Hno].
      * rewrite len_encode. assert (str_len (p' ++ k') -w64 str_len k' = str_len p') as ->.
        { rewrite str_len_app in *. pose proof (str_len_nonneg p'). pose proof (str_len_nonneg k'). rewrite wrap64_id by width. lia. }
        rewrite str_index_to by done. cbn [mbind option_bind]. rewrite encode_nil_len.
        destruct (bool_decide_reflect (p' = [])) as [->|Hne].
        -- symmetry. f_equal. apply bool_decide_eq_true. rewrite app_assoc. by apply suffix_app_r.
        -- assert (z = []) as -> by (destruct (str_nil_or z) as [|Hz]; [done|destruct (str_nil_or p') as [|Hp']; [done|]]; rewrite !str_len_app in Hl; lia).
           cbn [app] in *. rewrite (IH _ _ _ _ _ Hf'); [|by apply (backward_behind _ _ _ _ _ _ _ _ _ Hf Hfuel eq_refl Hk)|by apply scalars_app in Hp as [? _]|rewrite str_len_app in Hlp; pose proof (str_len_nonneg k'); lia].
           f_equal. apply bool_decide_ext. split; [by apply suffix_app|by apply suffix_app_inv].
      * symmetry. f_equal. apply bool_decide_eq_false. intros [r E]. rewrite app_assoc in E. symmetry in E. apply app_eq_inv in E as [(w & _ & E1)|(w & _ & ->)].
        -- apply Hno. rewrite E1 in Hl. rewrite !str_len_app in Hl. pose proof (str_len_nonneg z). destruct (str_nil_or w) as [->|Hw]; [cbn in E1; by subst|]. lia.
        -- apply Hno. by exists w.
    + symmetry. f_equal. by apply bool_decide_eq_false.
Qed.
(** *** Lines *)
Ltac cats := rewrite <- ?app_assoc; cbn [app]; rewrite <- ?app_assoc; done.
Abbreviation plain := (Forall (λ b, b ≠ newline)).
Lemma split_chunk k : scalars k → (plain k ∧ str_split newline (encode k) = [encode k]) ∨
  ∃ l k' rest, k = l ++ newline :: k' ∧ plain l ∧ str_split newline (encode k) = encode l :: rest ∧ rest ≠ [].
Proof.
  intros Hs. rewrite split_encode by done. destruct (first_break k) as [H|(l & k' & -> & H)].
  - left. by rewrite split_one.
  - right. exists l, k', (map encode (str_split newline k')). rewrite split_first by done. split_and!; [done..|].
    intros E. apply map_eq_nil in E. by apply str_split_nonempty in E.
Qed.
Lemma split_chunk_rev k : scalars k → (plain k ∧ rev (str_split newline (encode k)) = [encode k]) ∨
  ∃ k' l rest, k = k' ++ newline :: l ∧ plain l ∧ rev (str_split newline (encode k)) = encode l :: rest ∧ rest ≠ [].
Proof.
  intros Hs. rewrite split_encode by done. destruct (last_break k) as [H|(k' & l & -> & H)].
  - left. by rewrite split_one.
  - right. exists k', l, (rev (map encode (str_split newline k'))). rewrite split_final, map_app, rev_app_distr by done. split_and!; [done..|].
    intros E. apply (f_equal (@length _)) in E. rewrite length_rev, length_map in E. destruct (str_split newline k') eqn:E'; [by apply str_split_nonempty in E'|done].
Qed.
Lemma line_forward fuel self x u v y n acc o : forward (Lines.chunks self) x (u ++ acc) v y n → Lines.current_line self = encode acc →
  Lines.done self = false → Lines.reversed self = false → fueled v n fuel → o = u ++ acc →
  ∃ self' l, iterate Lines.next_step fuel self = Some (self', encode (acc ++ l)) ∧ plain l ∧ Lines.reversed self' = false ∧
    ((v = l ∧ Lines.done self' = true) ∨
     ∃ v' n', v = l ++ newline :: v' ∧ Lines.done self' = false ∧ forward (Lines.chunks self') x (o ++ l ++ [newline]) v' y n').
Proof.
  revert self v n acc o. induction fuel as [|fuel IH]; intros self v n acc o Hf Hcur Hdone Hrev Hfuel ->; [by apply not_fueled in Hfuel|].
  pose proof (forward_text _ _ _ _ _ _ Hf) as Et. cbn [iterate]. unfold Lines.next_step at 1. rewrite Hrev.
  destruct (decide (v = [])) as [->|Hv].
  { unfold Chunks.peek. rewrite (forward_valid _ _ _ _ _ _ Hf). cbn. rewrite Hcur. eexists _, []. rewrite app_nil_r. split_and!; [done|by constructor|done|by left]. }
  destruct (forward_step _ _ _ _ _ _ Hf Hv) as (k & v' & c' & n' & -> & Hk & Hp & Ha & Hf' & Hn). rewrite Hp. cbn [mbind option_bind].
  assert (scalars k) as Hsk.
  { assert (scalars (x ++ (u ++ acc)) ∧ scalars (k ++ v' ++ y)) as [_ [? _]%scalars_app]; [apply text_scalars; by rewrite <- Et, <- !app_assoc|done]. }
  destruct (split_chunk k Hsk) as [[Hpl ->]|(l & k' & rest & -> & Hpl & -> & Hrest)].
  - cbn [mbind option_bind]. unfold Chunks.next. rewrite Hp. cbn [mbind option_bind]. rewrite len_encode, Ha. cbn [mbind option_bind].
    rewrite Hcur, <- encode_app.
    destruct (IH (Lines.mk c' (encode (acc ++ k)) false false) v' n' (acc ++ k) (u ++ acc ++ k)) as (self' & l & E & Hl & Hr & Hor);
      [cbn; by rewrite app_assoc|done..|by apply (forward_ahead _ _ _ _ _ _ _ _ _ Hf Hfuel eq_refl Hk)|done|].
    exists self', (k ++ l). rewrite app_assoc. split; [exact E|]. split; [by apply Forall_app|]. split; [done|].
    destruct Hor as [[-> Hd]|(w & m & -> & Hd & Hw)]; [by left|right]. exists w, m. split; [by rewrite <- app_assoc|]. split; [done|]. revert Hw. by rewrite <- !app_assoc.
  - destruct rest as [|r0 rest]; [done|]. rewrite (f_offset _ _ _ _ _ _ Hf).
    assert (str_len (x ++ u ++ acc) +w64 Utf8.len (encode l) +w64 1 = str_len (x ++ (u ++ acc) ++ l ++ [newline])) as ->.
    { destruct (text_bounds (x ++ (u ++ acc) ++ l ++ [newline]) (k' ++ v' ++ y)) as (B1 & B2 & B3).
      { rewrite <- Et. cats. }
      rewrite len_encode, !str_len_app in *. change (str_len [newline]) with 1 in *. pose proof (str_len_nonneg x). pose proof (str_len_nonneg u). pose proof (str_len_nonneg acc). pose proof (str_len_nonneg l).
      rewrite !wrap_len by (rewrite ?wrap_len by lia; lia). lia. }
    destruct (forward_seek (Lines.chunks self) x (u ++ acc) ((l ++ newline :: k') ++ v') y n (str_len (x ++ (u ++ acc) ++ l ++ [newline])) ((u ++ acc) ++ l ++ [newline]) (k' ++ v')) as (c2 & n2 & -> & Hc2).
    + done.
    + cats.
    + rewrite <- (app_assoc l). cbn [app]. rewrite !str_len_app. cbn [str_len]. rewrite !str_len_app. pose proof (str_len_nonneg u). pose proof (str_len_nonneg acc). pose proof (str_len_nonneg l). pose proof (str_len_nonneg k'). pose proof (str_len_nonneg v'). change (len_utf8 newline) with 1. lia.
    + cbn [mbind option_bind]. rewrite Hcur, <- encode_app. eexists _, l. split; [done|]. split; [done|]. split; [done|]. right. exists (k' ++ v'), n2. cbn [Lines.done Lines.chunks]. split; [by rewrite <- app_assoc|]. split; [done|]. revert Hc2. by rewrite <- !app_assoc.
Qed.
Lemma left_placed cur a b n : left cur a b n → a ≠ [] → placed ss cur.
Proof. intros [before p q rest Hat _|_] Ha; [by eexists _, _|done]. Qed.
Lemma line_backward fuel self x u v y n acc : backward (Lines.chunks self) x u (acc ++ v) y n → Lines.current_line self = encode acc →
  Lines.done self = false → Lines.reversed self = true → fueled u n fuel →
  ∃ self' l, iterate Lines.next_step fuel self = Some (self', encode (l ++ acc)) ∧ plain l ∧ Lines.reversed self' = true ∧
    ((u = l ∧ Lines.done self' = true) ∨
     ∃ u' n', u = u' ++ newline :: l ∧ Lines.done self' = false ∧ backward (Lines.chunks self') x u' (newline :: l ++ acc ++ v) y n').
Proof.
  revert self u n acc. induction fuel as [|fuel IH]; intros self u n acc Hf Hcur Hdone Hrev Hfuel; [by apply not_fueled in Hfuel|].
  pose proof (backward_text _ _ _ _ _ _ Hf) as Et. cbn [iterate]. unfold Lines.next_step at 1. rewrite Hrev.
  destruct (decide (u = [])) as [->|Hu].
  { unfold Chunks.peek. rewrite (backward_valid _ _ _ _ _ _ Hf). cbn. rewrite Hcur. eexists _, []. split_and!; [done|by constructor|done|by left]. }
  destruct (backward_step _ _ _ _ _ _ Hf Hu) as (k & u' & c' & n' & -> & Hk & Hp & Ha & Hf' & Hn). rewrite Hp. cbn [mbind option_bind].
  assert (scalars k) as Hsk.
  { assert (scalars (x ++ u') ∧ scalars (k ++ (acc ++ v) ++ y)) as [_ [? _]%scalars_app]; [apply text_scalars; by rewrite <- Et, <- !app_assoc|done]. }
  destruct (split_chunk_rev k Hsk) as [[Hpl ->]|(k' & l & rest & -> & Hpl & -> & Hrest)].
  - cbn [mbind option_bind]. unfold Chunks.next. rewrite Hp. cbn [mbind option_bind]. rewrite len_encode, Ha. cbn [mbind option_bind].
    rewrite Hcur, <- encode_app.
    destruct (IH (Lines.mk c' (encode (k ++ acc)) false true) u' n' (k ++ acc)) as (self' & l & E & Hl & Hr & Hor);
      [cbn; by rewrite <- app_assoc|done..|by apply (backward_behind _ _ _ _ _ _ _ _ _ Hf Hfuel eq_refl Hk)|].
    exists self', (l ++ k). rewrite <- app_assoc. split; [exact E|]. split; [by apply Forall_app|]. split; [done|].
    destruct Hor as [[-> Hd]|(w & m & -> & Hd & Hw)]; [by left|right]. exists w, m. split; [cats|]. split; [done|]. revert Hw. rewrite <- !app_assoc. by rewrite <- ?app_assoc.
  - destruct rest as [|r0 rest]; [done|]. rewrite (b_offset _ _ _ _ _ _ Hf).
    assert (str_len (x ++ u' ++ k' ++ newline :: l) -w64 Utf8.len (encode l) -w64 1 = str_len (x ++ u' ++ k')) as ->.
    { destruct (text_bounds (x ++ u' ++ k' ++ newline :: l) ((acc ++ v) ++ y)) as (B1 & B2 & B3).
      { rewrite <- Et. cats. }
      rewrite len_encode, !str_len_app in *. cbn [str_len] in *. change (len_utf8 newline) with 1 in *. pose proof (str_len_nonneg x). pose proof (str_len_nonneg u'). pose proof (str_len_nonneg k'). pose proof (str_len_nonneg l).
      rewrite !wrap_len by (rewrite ?wrap_len by lia; lia). lia. }
    destruct (backward_seek (Lines.chunks self) x (u' ++ k' ++ newline :: l) (acc ++ v) y n (str_len (x ++ u' ++ k')) (u' ++ k') (newline :: l ++ acc ++ v)) as (c2 & n2 & -> & Hc2).
    + done.
    + eapply left_placed; [apply Hf|]. intros [_ [_ [_ E]%app_nil]%app_nil]%app_nil. done.
    + cats.
    + rewrite !str_len_app. cbn [str_len]. pose proof (str_len_nonneg u'). pose proof (str_len_nonneg acc). pose proof (str_len_nonneg l). pose proof (str_len_nonneg k'). pose proof (str_len_nonneg v). change (len_utf8 newline) with 1. lia.
    + cbn [mbind option_bind]. rewrite Hcur, <- encode_app. eexists _, l. split; [done|]. split; [done|]. split; [done|]. right. exists (u' ++ k'), n2. cbn [Lines.done Lines.chunks].
      split; [cats|]. split; [done|exact Hc2].
Qed.
Lemma lines_forward fuel self x u v y n : forward (Lines.chunks self) x u v y n → Lines.done self = false → Lines.reversed self = false →
  (length (str_split newline v) < fuel)%nat → Lines.collect fuel self = Some (map encode (str_split newline v)).
Proof.
  revert self u v n. induction fuel as [|fuel IH]; intros self u v n Hf Hd Hr Hfuel; [lia|]. cbn [Lines.collect]. unfold Lines.next. rewrite Hd.
  destruct (line_forward (Chunks.enough (Lines.chunks self)) (Lines.mk (Lines.chunks self) [] (Lines.done self) (Lines.reversed self)) x u v y n [] u) as (self' & l & E & Hl & Hr' & Hor);
    [cbn; by rewrite app_nil_r|done|done|done|by eapply forward_fuel|by rewrite app_nil_r|].
  rewrite Hd in E. rewrite E. cbn [mbind option_bind app]. destruct Hor as [[-> Hd']|(v' & n' & -> & Hd' & Hf')].
  - rewrite split_one by done. destruct fuel as [|fuel]; [rewrite split_one in Hfuel by done; cbn in Hfuel; lia|]. cbn [Lines.collect]. unfold Lines.next. by rewrite Hd'.
  - rewrite split_first in Hfuel |- * by done. cbn [length] in Hfuel. rewrite (IH _ _ _ _ Hf' Hd' Hr') by lia. done.
Qed.
Lemma lines_backward fuel self x u v y n : backward (Lines.chunks self) x u v y n → Lines.done self = false → Lines.reversed self = true →
  (length (str_split newline u) < fuel)%nat → Lines.collect fuel self = Some (map encode (rev (str_split newline u))).
Proof.
  revert self u v n. induction fuel as [|fuel IH]; intros self u v n Hf Hd Hr Hfuel; [lia|]. cbn [Lines.collect]. unfold Lines.next. rewrite Hd.
  destruct (line_backward (Chunks.enough (Lines.chunks self)) (Lines.mk (Lines.chunks self) [] (Lines.done self) (Lines.reversed self)) x u v y n []) as (self' & l & E & Hl & Hr' & Hor);
    [done|done|done|done|by eapply backward_fuel|].
  rewrite Hd in E. rewrite E. cbn [mbind option_bind]. rewrite app_nil_r. destruct Hor as [[-> Hd']|(u' & n' & -> & Hd' & Hf')].
  - rewrite split_one by done. destruct fuel as [|fuel]; [rewrite split_one in Hfuel by done; cbn in Hfuel; lia|]. cbn [Lines.collect]. unfold Lines.next. by rewrite Hd'.
  - rewrite split_final in Hfuel |- * by done. rewrite length_app in Hfuel. cbn [length] in Hfuel. rewrite (IH _ _ _ _ Hf' Hd' Hr') by lia. by rewrite rev_app_distr.
Qed.
End machine.

(** ** Reading ropes *)
Lemma flat_chars (ks : list str) : scalars (concat ks) → flat_map str_chars (map encode ks) = concat ks.
Proof.
  induction ks as [|k ks IH]; intros H; [done|]. cbn in *. apply scalars_app in H as [Hk Hks]. by rewrite str_chars_encode, IH.
Qed.
Lemma flat_chars_rev (ks : list str) : scalars (concat (rev ks)) → flat_map (λ chunk, rev (str_chars chunk)) (map encode ks) = rev (concat (rev ks)).
Proof.
  induction ks as [|k ks IH]; intros H; [done|]. cbn in *. rewrite concat_app in *. cbn [concat] in *. rewrite app_nil_r in *. apply scalars_app in H as [Hks Hk].
  by rewrite str_chars_encode, IH, rev_app_distr.
Qed.
Lemma holds_scalars w r (a b : str) : holds w r (a ++ b) → scalars a ∧ scalars b.
Proof. intros H. apply scalars_app. by apply (holds_text _ _ _ H). Qed.
Lemma concat_encode (ks : list str) : concat (map encode ks) = encode (concat ks).
Proof. induction ks as [|k ks IH]; [done|]. cbn [map concat]. by rewrite encode_app, IH. Qed.
Section rope.
Context (w : Z) (r : Rope.t) (x m y : str) (Hr : holds w r (x ++ m ++ y)) (Hw : w < 6 ^ 16).
Lemma chunks_forward : ∃ c, chunks_in_range r (str_len x, str_len (x ++ m)) = Some c ∧
  ∃ ss n, Forall piece ss ∧ sized (concat ss) ∧ forward ss c x [] m y n.
Proof.
  pose proof Hr as (ss & Hs & E). destruct Hs as (Hh & F & Hz). destruct (chunks_new ss F Hz w r x m y false) as (c & n & Ec & _ & Hc); [by split|done|done|].
  exists c. split; [done|]. by exists ss, n.
Qed.
Lemma chunks_backward : ∃ c, reversed_chunks_in_range r (str_len x, str_len (x ++ m)) = Some c ∧
  ∃ ss n, Forall piece ss ∧ sized (concat ss) ∧ placed ss (Chunks.chunks c) ∧ backward ss c x m [] y n.
Proof.
  pose proof Hr as (ss & Hs & E). destruct Hs as (Hh & F & Hz). destruct (chunks_new ss F Hz w r x m y true) as (c & n & Ec & Hp & Hc); [by split|done|done|].
  exists c. split; [done|]. by exists ss, n.
Qed.
Lemma read_forward : ∃ c ks, chunks_in_range r (str_len x, str_len (x ++ m)) = Some c ∧ Chunks.all c = Some (map encode ks) ∧ concat ks = m ∧ Forall (λ k, k ≠ []) ks.
Proof.
  destruct chunks_forward as (c & E & ss & n & F & Hz & Hc). destruct (forward_collect ss F Hz (Chunks.enough c) c x [] m y n Hc) as (ks & Ek & Em & Hk); [by eapply forward_fuel|].
  by exists c, ks.
Qed.
Lemma read_backward : ∃ c ks, reversed_chunks_in_range r (str_len x, str_len (x ++ m)) = Some c ∧ Chunks.all c = Some (map encode ks) ∧ concat (rev ks) = m ∧ Forall (λ k, k ≠ []) ks.
Proof.
  destruct chunks_backward as (c & E & ss & n & F & Hz & _ & Hc). destruct (backward_collect ss F Hz (Chunks.enough c) c x m [] y n Hc) as (ks & Ek & Em & Hk); [by eapply backward_fuel|].
  by exists c, ks.
Qed.
End rope.

(** Reading a rope: between two boundaries of characters its chunks are parts of the text,
    none of them empty, that make up the text between them, in order, or, for the
    reversed iterator, from the last one to the first; so [chars_at] and
    [reversed_chars_at] are the characters after (before) an offset, and [to_string] is
    the text. Nothing panics. *)
Theorem rope_chunks_correct w r x m y : holds w r (x ++ m ++ y) → w < 6 ^ 16 →
  (∃ c ks, chunks_in_range r (str_len x, str_len (x ++ m)) = Some c ∧ Chunks.all c = Some (map encode ks) ∧ concat ks = m ∧ Forall (λ k, k ≠ []) ks) ∧
  (∃ c ks, reversed_chunks_in_range r (str_len x, str_len (x ++ m)) = Some c ∧ Chunks.all c = Some (map encode ks) ∧ concat (rev ks) = m ∧ Forall (λ k, k ≠ []) ks) ∧
  chars_at r (str_len x) = Some (m ++ y) ∧ reversed_chars_at r (str_len x) = Some (rev x) ∧ to_string r = Some (encode (x ++ m ++ y)).
Proof.
  intros Hr Hw. pose proof (rope_len_ok _ _ _ Hr) as Hl. split; [by eapply read_forward|]. split; [by eapply read_backward|]. split; [|split].
  - unfold chars_at. rewrite Hl. destruct (read_forward w r x (m ++ y) []) as (c & ks & E & Ek & Em & _); [by rewrite app_nil_r|done|].
    rewrite E. cbn [mbind option_bind]. rewrite Ek. cbn [mbind option_bind]. rewrite flat_chars, Em; [done|]. rewrite Em. by eapply holds_scalars.
  - unfold reversed_chars_at. destruct (read_backward w r [] x (m ++ y) Hr Hw) as (c & ks & E & Ek & Em & _). cbn [str_len app] in E.
    rewrite E. cbn [mbind option_bind]. rewrite Ek. cbn [mbind option_bind]. rewrite flat_chars_rev, Em; [done|]. rewrite Em. by destruct (holds_scalars _ _ _ _ Hr).
  - unfold to_string, rope_chunks. rewrite Hl. destruct (read_forward w r [] (x ++ m ++ y) []) as (c & ks & E & Ek & Em & _); [by rewrite app_nil_r|done|].
    cbn [str_len app] in E. rewrite E. cbn [mbind option_bind]. rewrite Ek. cbn [mbind option_bind]. by rewrite concat_encode, Em.
Qed.
(** Seeking: an iterator over the text [u ++ v] between two boundaries, asked to seek to any
    offset, moves to the offset in its range that is nearest to it; if that is between
    [u] and [v], it goes on with [v], or, reversed, with [u]. *)
Theorem rope_seek_correct w r x u v y k : holds w r (x ++ (u ++ v) ++ y) → w < 6 ^ 16 →
  Z.max (str_len x) (Z.min k (str_len (x ++ u ++ v))) = str_len (x ++ u) →
  (∃ c c' ks, chunks_in_range r (str_len x, str_len (x ++ u ++ v)) = Some c ∧ Chunks.seek c k = Some c' ∧
     Chunks.offset c' = str_len (x ++ u) ∧ Chunks.all c' = Some (map encode ks) ∧ concat ks = v) ∧
  (∃ c c' ks, reversed_chunks_in_range r (str_len x, str_len (x ++ u ++ v)) = Some c ∧ Chunks.seek c k = Some c' ∧
     Chunks.offset c' = str_len (x ++ u) ∧ Chunks.all c' = Some (map encode ks) ∧ concat (rev ks) = u).
Proof.
  intros Hr Hw Hk. split.
  - destruct (chunks_forward w r x (u ++ v) y Hr Hw) as (c & E & ss & n & F & Hz & Hc).
    destruct (forward_seek ss F Hz c x [] (u ++ v) y n k u v Hc eq_refl Hk) as (c' & n' & Es & Hc').
    destruct (forward_collect ss F Hz (Chunks.enough c') c' x u v y n' Hc') as (ks & Ek & Em & _); [by eapply forward_fuel|].
    exists c, c', ks. split_and!; [done|done|apply Hc'|done|done].
  - destruct (chunks_backward w r x (u ++ v) y Hr Hw) as (c & E & ss & n & F & Hz & Hp & Hc).
    destruct (backward_seek ss F Hz c x (u ++ v) [] y n k u v Hc Hp) as (c' & n' & Es & Hc'); [by rewrite app_nil_r|by rewrite app_nil_r|].
    destruct (backward_collect ss F Hz (Chunks.enough c') c' x u v y n' Hc') as (ks & Ek & Em & _); [by eapply backward_fuel|].
    exists c, c', ks. split_and!; [done|done|apply Hc'|done|done].
Qed.
(** Comparing: [equals_str] of the chunks in a range, in either direction, says whether the
    text of the range is the string; [starts_with] and [ends_with] whether the string is
    a prefix or a suffix of the text of the rope. The string is never cut inside of a
    character, and nothing panics. *)
Theorem rope_compare_correct w r x m y o : holds w r (x ++ m ++ y) → w < 6 ^ 16 → scalars o → str_len o < 2 ^ 64 →
  (∃ c, chunks_in_range r (str_len x, str_len (x ++ m)) = Some c ∧ Chunks.equals_str c (encode o) = Some (bool_decide (m = o))) ∧
  (∃ c, reversed_chunks_in_range r (str_len x, str_len (x ++ m)) = Some c ∧ Chunks.equals_str c (encode o) = Some (bool_decide (m = o))) ∧
  rope_starts_with r (encode o) = Some (bool_decide (o `prefix_of` x ++ m ++ y)) ∧
  rope_ends_with r (encode o) = Some (bool_decide (o `suffix_of` x ++ m ++ y)).
Proof.
  intros Hr Hw Ho Hlo. pose proof (rope_len_ok _ _ _ Hr) as Hl. split; [|split; [|split]].
  - destruct (chunks_forward w r x m y Hr Hw) as (c & E & ss & n & F & Hz & Hc). exists c. split; [done|]. unfold Chunks.equals_str.
    rewrite (f_reversed _ _ _ _ _ _ _ Hc). apply (equals_forward ss F Hz _ c x [] m y n o Hc); [by eapply forward_fuel|done].
  - destruct (chunks_backward w r x m y Hr Hw) as (c & E & ss & n & F & Hz & _ & Hc). exists c. split; [done|]. unfold Chunks.equals_str.
    rewrite (b_reversed _ _ _ _ _ _ _ Hc), len_encode. rewrite <- (app_nil_r o) at 1. apply (equals_backward ss F Hz _ c x m [] y n o Hc); [by eapply backward_fuel|by rewrite app_nil_r|done].
  - unfold rope_starts_with. rewrite Hl, len_encode. destruct (Z.ltb_spec (str_len (x ++ m ++ y)) (str_len o)) as [Hlt|_].
    { symmetry. f_equal. apply bool_decide_eq_false. intros [z E]. rewrite E, str_len_app in Hlt. pose proof (str_len_nonneg z). lia. }
    destruct (chunks_forward w r [] (x ++ m ++ y) []) as (c & E & ss & n & F & Hz & Hc); [by rewrite app_nil_r|done|]. cbn [str_len app] in E. rewrite E. cbn [mbind option_bind].
    apply (starts_with_runs ss F Hz _ c [] [] (x ++ m ++ y) [] n o Hc); [by eapply forward_fuel|done].
  - unfold rope_ends_with. rewrite Hl, len_encode. destruct (Z.ltb_spec (str_len (x ++ m ++ y)) (str_len o)) as [Hlt|_].
    { symmetry. f_equal. apply bool_decide_eq_false. intros [z E]. rewrite E, str_len_app in Hlt. pose proof (str_len_nonneg z). lia. }
    destruct (chunks_backward w r [] (x ++ m ++ y) []) as (c & E & ss & n & F & Hz & _ & Hc); [by rewrite app_nil_r|done|]. cbn [str_len app] in E. rewrite E. cbn [mbind option_bind].
    apply (ends_with_runs ss F Hz _ c [] (x ++ m ++ y) [] [] n o Hc); [by eapply backward_fuel|done|done].
Qed.
(** Lines: the lines of a range are the parts of its text between the line breaks, the last
    one also when it is empty, in order or, reversed, from the last one to the first. *)
Theorem rope_lines_correct w r x m y fuel : holds w r (x ++ m ++ y) → w < 6 ^ 16 → (length (str_split newline m) < fuel)%nat →
  (∃ c, chunks_in_range r (str_len x, str_len (x ++ m)) = Some c ∧ Lines.collect fuel (Lines.lines c) = Some (map encode (str_split newline m))) ∧
  (∃ c, reversed_chunks_in_range r (str_len x, str_len (x ++ m)) = Some c ∧ Lines.collect fuel (Lines.lines c) = Some (map encode (rev (str_split newline m)))).
Proof.
  intros Hr Hw Hf. split.
  - destruct (chunks_forward w r x m y Hr Hw) as (c & E & ss & n & F & Hz & Hc). exists c. split; [done|].
    eapply (lines_forward ss F Hz fuel (Lines.lines c) x [] m y n); [done|done|apply Hc|done].
  - destruct (chunks_backward w r x m y Hr Hw) as (c & E & ss & n & F & Hz & _ & Hc). exists c. split; [done|].
    eapply (lines_backward ss F Hz fuel (Lines.lines c) x m [] y n); [done|done|apply Hc|done].
Qed.
(** A reversed iterator that has yielded the first chunk of a rope has left the chunks: its
    cursor is before all of them, where [seek_forward] does not start again, so that
    [Chunks::seek] back to the end finds nothing. *)
Definition seek_after_all (text : list Z) : option (list (list Z) * Z * list (list Z)) :=
  r ← from text; c ← reversed_chunks_in_range r (0, Rope.len r);
  '(c, first) ← Chunks.next c; c ← Chunks.seek c (Rope.len r); rest ← Chunks.all c;
  Some (match first with Some s => [s] | None => [] end, Chunks.offset c, rest).
Example exhausted_seek : seek_after_all [97; 98; 99] = Some ([[97; 98; 99]], 3, []).
Proof. vm_compute. reflexivity. Qed.

(** ** Bytes of a range *)
(** What [lo..hi] has of bytes that start at [off]. *)
Definition window (bytes : list Z) (off lo hi : Z) : list Z := take (Z.to_nat (hi - Z.max lo off)) (drop (Z.to_nat (lo - off)) bytes).
Lemma window_app (a b : list Z) off lo hi : window (a ++ b) off lo hi = window a off lo hi ++ window b (off + Utf8.len a) lo hi.
Proof.
  unfold window, Utf8.len. rewrite drop_app, take_app. f_equal. rewrite length_drop. f_equal; [lia|]. f_equal. lia.
Qed.
Lemma window_before (a : list Z) off lo hi : off + Utf8.len a ≤ lo → window a off lo hi = [].
Proof. intros H. unfold window, Utf8.len in *. rewrite drop_ge by lia. by destruct (Z.to_nat _). Qed.
Lemma window_after (a : list Z) off lo hi : hi ≤ off → window a off lo hi = [].
Proof. intros H. unfold window. by replace (Z.to_nat (hi - Z.max lo off)) with 0%nat by lia. Qed.
Lemma idle_chunk (cur cur' : Chunks.chunk_cursor) l : Cursor.prev cur = Some cur' → Cursor.idle cur' l → Cursor.item cur' = Some None.
Proof.
  intros Ep [h _ _ _ _ Es _ _]. unfold Cursor.item. rewrite Es.
  assert (Cursor.did_seek cur' = true) as Hd.
  { unfold Cursor.prev, Cursor.search_backward in Ep.
    apply bind_Some in Ep as ([[? ?] ?] & _ & Ep). apply bind_Some in Ep as ([? ?] & _ & Ep). by injection Ep as <-. }
  unfold Cursor.assert_did_seek. by rewrite Hd.
Qed.
Section bytes.
Variable ss : list str.
Hypothesis pieces : Forall piece ss.
Hypothesis text_sized : sized (concat ss).
Variables (lo hi : Z).
Hypothesis lo_hi : 0 ≤ lo ≤ hi.
Hypothesis in_text : hi ≤ str_len (concat ss).
Abbreviation at_chunk := (at_chunk ss).
Lemma bytes_bounds before c after : ss = before ++ c :: after → 0 ≤ str_len (concat before) ∧ 0 ≤ str_len c ∧ str_len (concat before) + str_len c ≤ str_len (concat ss) < 2 ^ 32.
Proof.
  intros E. pose proof text_sized as H. unfold sized in H. rewrite E, concat_app, str_len_app in *. cbn [concat] in *. rewrite str_len_app in *.
  pose proof (str_len_nonneg (concat before)). pose proof (str_len_nonneg c). pose proof (str_len_nonneg (concat after)). lia.
Qed.
Lemma bytes_end self before after : at_chunk (Bytes.chunks self) before after → Bytes.range self = (lo, hi) → hi ≤ str_len (concat before) → Bytes.peek self = Some None.
Proof.
  intros Hat Er Hh. unfold Bytes.peek. rewrite (at_item ss _ _ _ Hat). destruct after as [|c after]; [done|]. cbn [mbind option_bind fmap option_fmap option_map head].
  rewrite (at_end ss pieces text_sized _ _ _ Hat), (at_start ss pieces text_sized _ _ _ Hat). cbn [mbind option_bind]. destruct (_ && _); [done|].
  rewrite Er. cbn [snd]. by rewrite (proj2 (Z.leb_le _ _)).
Qed.
Lemma bytes_peek self before c after : at_chunk (Bytes.chunks self) before (c :: after) → Bytes.range self = (lo, hi) →
  lo ≤ str_len (concat before) + str_len c → str_len (concat before) < hi → Bytes.reversed self = false ∨ lo < str_len (concat before) + str_len c →
  Bytes.peek self = Some (Some (window (encode c) (str_len (concat before)) lo hi)).
Proof.
  intros Hat Er Hl Hh Hrev. destruct (bytes_bounds _ _ _ (proj1 Hat)) as (B1 & B2 & B3). unfold Bytes.peek. rewrite (at_item ss _ _ _ Hat). cbn [mbind option_bind fmap option_fmap option_map head].
  rewrite (at_end ss pieces text_sized _ _ _ Hat), (at_start ss pieces text_sized _ _ _ Hat). cbn [mbind option_bind]. rewrite Er, str_len_app. cbn [fst snd].
  replace (Bytes.reversed self && (str_len (concat before) + str_len c <=? lo)) with false
    by (destruct Hrev as [->|?]; [done|by rewrite (proj2 (Z.leb_gt _ _)), andb_false_r by lia]).
  rewrite (proj2 (Z.leb_gt _ _)), text_chunk_of, len_encode by lia. unfold saturating_sub. rewrite wrap_len by (pose proof text_sized as H; unfold sized in H; lia).
  rewrite (proj2 (Z.leb_le _ _)) by lia. do 2 f_equal. unfold window.
  replace (Z.to_nat (Z.max 0 (lo - str_len (concat before)))) with (Z.to_nat (lo - str_len (concat before))) by lia.
  pose proof (length_encode c) as El. destruct (Z.le_gt_cases (str_len c) (hi - str_len (concat before))) as [Hle|Hgt].
  - rewrite Z.min_l by lia. rewrite !take_ge by (rewrite length_drop; lia). done.
  - f_equal. lia.
Qed.
Lemma bytes_forward fuel self before after : at_chunk (Bytes.chunks self) before after → Bytes.range self = (lo, hi) → Bytes.reversed self = false →
  (∀ c, head after = Some c → lo ≤ str_len (concat before) + str_len c) → (length after < fuel)%nat →
  ∃ l, Bytes.collect fuel self = Some l ∧ concat l = window (encode (concat after)) (str_len (concat before)) lo hi.
Proof.
  revert self before after. induction fuel as [|fuel IH]; intros self before after Hat Er Hrev Hlo Hfuel; [lia|]. cbn [Bytes.collect]. unfold Bytes.next.
  destruct (Z.le_gt_cases hi (str_len (concat before))) as [Hh|Hh].
  { rewrite (bytes_end self before after) by done. exists []. cbn. by rewrite window_after. }
  destruct after as [|c after].
  { exfalso. pose proof (proj1 Hat) as E. rewrite app_nil_r in E. rewrite <- E in Hh. lia. }
  rewrite (bytes_peek self before c after) by (done || (apply Hlo; done) || by left). cbn [mbind option_bind]. unfold Bytes.advance. rewrite Hrev.
  destruct (at_next ss _ _ _ _ Hat) as (cur' & -> & Hat'). cbn [mbind option_bind].
  assert (str_len (concat (before ++ [c])) = str_len (concat before) + str_len c) as El by (rewrite concat_app, str_len_app; cbn [concat]; by rewrite app_nil_r).
  destruct (IH (Bytes.mk cur' (Bytes.range self) false) (before ++ [c]) after) as (l & -> & Hl); [done|done|done| |cbn in Hfuel; lia|].
  { intros d Hd. rewrite El. pose proof (Hlo c eq_refl). pose proof (str_len_nonneg d). lia. }
  eexists. split; [done|]. cbn [concat]. rewrite Hl, El, encode_app, window_app, len_encode. done.
Qed.
Lemma bytes_backward fuel self before c after : at_chunk (Bytes.chunks self) before (c :: after) → Bytes.range self = (lo, hi) → Bytes.reversed self = true →
  (before = [] ∨ str_len (concat before) < hi) → (S (length before) < fuel)%nat →
  ∃ l, Bytes.collect fuel self = Some l ∧ concat (rev l) = window (encode (concat (before ++ [c]))) 0 lo hi.
Proof.
  revert self before c after. induction fuel as [|fuel IH]; intros self before c after Hat Er Hrev Hhi Hfuel; [lia|]. cbn [Bytes.collect]. unfold Bytes.next.
  destruct (bytes_bounds _ _ _ (proj1 Hat)) as (B1 & B2 & B3).
  assert (str_len (concat (before ++ [c])) = str_len (concat before) + str_len c) as El by (rewrite concat_app, str_len_app; cbn [concat]; by rewrite app_nil_r).
  destruct (Z.le_gt_cases hi (str_len (concat before))) as [Hh|Hh].
  { rewrite (bytes_end self before (c :: after)) by done. exists []. cbn. rewrite window_after; [done|]. destruct Hhi as [->|?]; [|lia]. cbn in Hh. lia. }
  destruct (Z.le_gt_cases (str_len (concat before) + str_len c) lo) as [Hl|Hl].
  { assert (Bytes.peek self = Some None) as ->.
    { unfold Bytes.peek. rewrite (at_item ss _ _ _ Hat). cbn [mbind option_bind fmap option_fmap option_map head]. rewrite (at_end ss pieces text_sized _ _ _ Hat), Hrev, Er, str_len_app.
      cbn [mbind option_bind fst andb]. by rewrite (proj2 (Z.leb_le _ _)). }
    exists []. cbn. rewrite window_before; [done|]. rewrite len_encode, El. lia. }
  rewrite (bytes_peek self before c after) by (done || lia || by right). cbn [mbind option_bind]. unfold Bytes.advance. rewrite Hrev.
  rewrite concat_app, encode_app, window_app, len_encode. cbn [concat]. rewrite app_nil_r, Z.add_0_l.
  destruct (Cursor.prev_ok _ _ _ (proj2 Hat)) as (cur' & Ep & Hp). rewrite Ep. cbn [mbind option_bind].
  destruct Hp as [[Hb Hi]|(b & d & Hb & Hc')].
  - assert (before = []) as -> by by destruct before. destruct fuel as [|fuel]; [cbn in Hfuel; lia|]. cbn [Bytes.collect]. unfold Bytes.next, Bytes.peek. cbn [Bytes.chunks].
    rewrite (idle_chunk _ _ _ Ep Hi). eexists. split; [done|]. cbn. unfold window at 2. rewrite drop_nil. destruct (Z.to_nat _); by rewrite app_nil_r.
  - destruct (chunks_split before b [d]) as (s1 & s2 & -> & -> & E2); [done|]. destruct s2 as [|e [|]]; [done| |done]. cbn in E2. injection E2 as ->.
    destruct (IH (Bytes.mk cur' (Bytes.range self) true) s1 e (c :: after)) as (l & -> & Hll).
    + split; [rewrite (proj1 Hat); by rewrite <- app_assoc|done].
    + done.
    + done.
    + rewrite concat_app, str_len_app in Hh. cbn [concat] in Hh. rewrite app_nil_r in Hh. right. pose proof (str_len_nonneg e). lia.
    + rewrite length_app in Hfuel. cbn in Hfuel. lia.
    + eexists. split; [done|]. cbn [rev]. rewrite List.concat_app. cbn [concat]. by rewrite Hll, app_nil_r.
Qed.
End bytes.
Lemma bytes_start ss b (cur : Chunks.chunk_cursor) k : Forall piece ss → sized (concat ss) → Cursor.ready cur [] (chunks_of ss) → 0 ≤ k →
  ∃ cur' hit before after, Cursor.seek (Z.compare k) b cur = Some (cur', hit) ∧ at_chunk ss cur' before after ∧
    (before = [] ∨ match b with Left => str_len (concat before) < k | Right => str_len (concat before) ≤ k end) ∧
    ∀ c, head after = Some c → match b with Left => k ≤ str_len (concat before ++ c) | Right => k < str_len (concat before ++ c) end.
Proof.
  intros F Hz Hr Hk. destruct (Cursor.seek_ok (D := Z) (Z.compare k) b cur [] (chunks_of ss) Hr) as (cur' & mid & rest & E & El & Hst & Hc').
  { change (dim Z (@nil Chunk.t)) with 0. destruct (Z.compare_spec k 0); done || lia. }
  cbn [app] in El. apply chunks_split in El as (s1 & s2 & E1 & -> & ->). eexists cur', _, s1, s2. split; [exact E|]. split; [by split|].
  exact (stopped_at ss F Hz b k [] s1 s2 E1 Hst).
Qed.
(** Bytes: the slices of bytes that the iterators over any range yield, at boundaries of
    characters or not, make up the bytes of the text in the range, in order, or,
    reversed, from the last slice to the first. *)
Theorem rope_bytes_correct w r s lo hi : holds w r s → w < 6 ^ 16 → 0 ≤ lo ≤ hi → hi ≤ str_len s →
  (∃ b l, bytes_in_range r (lo, hi) = Some b ∧ Bytes.all b = Some l ∧ concat l = take (Z.to_nat (hi - lo)) (drop (Z.to_nat lo) (encode s))) ∧
  (∃ b l, reversed_bytes_in_range r (lo, hi) = Some b ∧ Bytes.all b = Some l ∧ concat (rev l) = take (Z.to_nat (hi - lo)) (drop (Z.to_nat lo) (encode s))).
Proof.
  intros (ss & Hs & <-) Hw Hlo Hhi. destruct Hs as (Hh & F & Hz). assert (spells w r ss) as Hs by done. pose proof (ready_at (D := Z) w r ss Hs Hw) as Hready.
  assert (∀ bytes : list Z, window bytes 0 lo hi = take (Z.to_nat (hi - lo)) (drop (Z.to_nat lo) bytes)) as Hwin.
  { intros bytes. unfold window. by rewrite Z.sub_0_r, Z.max_l by lia. }
  rewrite <- Hwin. split.
  - destruct (bytes_start ss Right (Cursor.new r) lo F Hz Hready) as (cur & hit & before & after & E & Hat & Hb & Ha); [lia|].
    unfold bytes_in_range, Bytes.new. cbn [fst snd]. rewrite E. cbn [mbind option_bind]. eexists. 
    destruct (bytes_forward ss F Hz lo hi Hlo Hhi (S (S (length (SumTree.contents (Cursor.c_tree cur))))) (Bytes.mk cur (lo, hi) false) before after) as (l & El & Hl); [done..| | |].
    { intros c Hc. specialize (Ha c Hc). rewrite str_len_app in Ha. cbn in Ha. lia. }
    { rewrite (at_contents ss _ _ _ Hat), (proj1 Hat), length_app. lia. }
    exists l. split; [done|]. split; [exact El|]. rewrite Hl, (proj1 Hat), concat_app, encode_app, window_app, Z.add_0_l, len_encode.
    rewrite (window_before (encode (concat before))); [done|]. rewrite len_encode. destruct Hb as [->|Hb]; cbn in *; lia.
  - destruct (bytes_start ss Left (Cursor.new r) hi F Hz Hready) as (cur & hit & before & after & E & Hat & Hb & Ha); [lia|].
    unfold reversed_bytes_in_range, Bytes.new. cbn [fst snd]. rewrite E. cbn [mbind option_bind]. eexists.
    destruct after as [|c after].
    { pose proof (proj1 Hat) as E1. rewrite app_nil_r in E1. subst before. assert (ss = []) as -> by (destruct Hb; [done|lia]). exists []. split; [done|].
      unfold Bytes.all. cbn [Bytes.collect]. unfold Bytes.next. rewrite (bytes_end [] F Hz lo hi (Bytes.mk cur (lo, hi) true) [] [] Hat) by (done || (cbn in *; lia)).
      split; [done|]. cbn. unfold window. by rewrite drop_nil, take_nil. }
    destruct (bytes_backward ss F Hz lo hi Hlo Hhi (S (S (length (SumTree.contents (Cursor.c_tree cur))))) (Bytes.mk cur (lo, hi) true) before c after) as (l & El & Hl); [done..| |].
    { rewrite (at_contents ss _ _ _ Hat), (proj1 Hat), length_app. cbn. lia. }
    exists l. split; [done|]. split; [exact El|]. rewrite Hl, (proj1 Hat). specialize (Ha c eq_refl). cbn in Ha.
    replace (before ++ c :: after) with ((before ++ [c]) ++ after) by by rewrite <- app_assoc. rewrite (concat_app _ after), encode_app, window_app.
    rewrite (window_after (encode (concat after))); [by rewrite app_nil_r|]. rewrite len_encode, concat_app. cbn [concat]. rewrite app_nil_r. lia.
Qed.
(** The bits of the last chunk of a range are shifted to its start, but not cut at its
    end: of "ab", the range of the "a" comes with the bits of both characters. *)
Example bitmaps_beyond : (r ← from [97; 98]; c ← chunks_in_range r (0, 1); snd <$> Chunks.next_with_bitmaps c) = Some (Some (Chunks.mk_bitmaps [97] 3 0 0)).
Proof. vm_compute. reflexivity. Qed.
