(* ===== verification/History.v ===== *)
(** Undo history ([History] and [Transaction] in [crates/text/src/text.rs]): the
    stacks of transactions, nesting, and grouping by time. A [Vec] used as a
    stack has its top at the end. [None] is a panic: a failed assertion, an
    [unwrap] of nothing or an index out of range. *)
From S2P Require Import Prelude Clock SumTree TreeFind Cursor Iter Keyed TreeMap UndoMap OperationQueue Rope.

(** [FullOffset] is an offset counting deleted text too.
    [crates/text/src/text.rs:624-630] EditOperation *)
Record EditOperation := mk_edit_op {
  edit_timestamp : Lamport.t; edit_version : Global.t;
  ranges : list (Z * Z); new_text : list (list Z);
}.
(** [crates/text/src/text.rs:618-622] Operation *)
Inductive Operation := EditOp (edit : EditOperation) | UndoOp (undo : UndoOperation).
(** [crates/text/src/text.rs:3363-3368] Operation::timestamp *)
Definition op_timestamp (op : Operation) : Lamport.t :=
  match op with EditOp edit => edit_timestamp edit | UndoOp undo => timestamp undo end.
(** [crates/text/src/text.rs:3359-3361] Operation::replica_id *)
Definition op_replica_id (op : Operation) : ReplicaId.t := Lamport.replica_id (op_timestamp op).
(** [crates/text/src/text.rs:3370-3375] Operation::as_edit *)
Definition as_edit (op : Operation) : option EditOperation :=
  match op with EditOp edit => Some edit | _ => None end.
(** [crates/text/src/text.rs:3377-3379] Operation::is_edit *)
Definition is_edit (op : Operation) : bool := match op with EditOp _ => true | _ => false end.
(** [crates/text/src/text.rs:3382-3389] operation_queue::Operation for Operation *)
#[export] Instance Operation_operation : OperationQueue.Operation Operation :=
  { lamport_timestamp := op_timestamp }.

(** ** Searching a vector from its end *)
Section vectors.
Context {A : Type}.
(** [Iterator::rposition] *)
Fixpoint rposition (p : A → bool) (l : list A) : option nat :=
  match l with
  | [] => None
  | x :: l => match rposition p l with Some i => Some (S i) | None => if p x then Some 0%nat else None end
  end.
(** [Iterator::rfind] *)
Definition rfind (p : A → bool) (l : list A) : option A := i ← rposition p l; l !! i.
(** [Vec::remove] *)
Definition vec_remove (l : list A) (i : nat) : option (A * list A) :=
  x ← l !! i; Some (x, take i l ++ drop (S i) l).
(** [Vec::pop] *)
Definition vec_pop (l : list A) : option (A * list A) :=
  x ← list.last l; Some (x, removelast l).
(** Assigning through [last_mut]. *)
Definition update_top (f : A → A) (l : list A) : list A :=
  match list.last l with Some x => removelast l ++ [f x] | None => l end.
End vectors.

Module History.
(** [crates/text/src/text.rs:134-139] Transaction *)
Record Transaction := mk_transaction { id : Lamport.t; edit_ids : list Lamport.t; start : Global.t }.
(** [Instant] counts nanoseconds.
    [crates/text/src/text.rs:126-132] HistoryEntry *)
Record HistoryEntry := mk_entry {
  transaction : Transaction; first_edit_at : Z; last_edit_at : Z; suppress_grouping : bool;
}.
(** [crates/text/src/text.rs:153-160] History *)
Record History := mk {
  base_text : Rope.t;
  operations : TreeMap.TreeMap Lamport.t Operation;
  undo_stack : list HistoryEntry;
  redo_stack : list HistoryEntry;
  transaction_depth : nat;
  group_interval : Z;
}.

(** [crates/text/src/text.rs:142-144] Transaction::merge_in *)
Definition merge_in (self other : Transaction) : Transaction :=
  mk_transaction (id self) (edit_ids self ++ edit_ids other) (start self).
(** [crates/text/src/text.rs:147-151] HistoryEntry::transaction_id *)
Definition transaction_id (e : HistoryEntry) : Lamport.t := id (transaction e).
Definition has_id (t : Lamport.t) (e : HistoryEntry) : bool := bool_decide (transaction_id e = t).

Definition set_transaction (f : Transaction → Transaction) (e : HistoryEntry) : HistoryEntry :=
  mk_entry (f (transaction e)) (first_edit_at e) (last_edit_at e) (suppress_grouping e).
Definition set_last_edit_at (now : Z) (e : HistoryEntry) : HistoryEntry :=
  mk_entry (transaction e) (first_edit_at e) now (suppress_grouping e).
Definition push_edit_id (t : Lamport.t) (tr : Transaction) : Transaction :=
  mk_transaction (id tr) (edit_ids tr ++ [t]) (start tr).
Definition set_stacks (h : History) (undo redo : list HistoryEntry) : History :=
  mk (base_text h) (operations h) undo redo (transaction_depth h) (group_interval h).
Definition set_depth (h : History) (n : nat) : History :=
  mk (base_text h) (operations h) (undo_stack h) (redo_stack h) n (group_interval h).
Definition assert (b : bool) : option unit := if b then Some tt else None.
Definition no_transaction (h : History) : bool := Nat.eqb (transaction_depth h) 0.

(** The interval outside of tests is 300 ms.
    [crates/text/src/text.rs:218-232] History::new *)
Definition new (base_text : Rope.t) : History := mk base_text TreeMap.default [] [] 0 300000000.
(** [crates/text/src/text.rs:1637-1639] Buffer::set_group_interval *)
Definition set_group_interval (h : History) (interval : Z) : History :=
  mk (base_text h) (operations h) (undo_stack h) (redo_stack h) (transaction_depth h) interval.

(** [crates/text/src/text.rs:234-236] History::push *)
Definition push (h : History) (op : Operation) : option History :=
  ops ← TreeMap.insert (operations h) (op_timestamp op) op;
  Some (mk (base_text h) ops (undo_stack h) (redo_stack h) (transaction_depth h) (group_interval h)).

(** A new entry at the top of the undo stack. *)
Definition push_entry (h : History) (tr : Transaction) (now : Z) : History :=
  set_stacks h (undo_stack h ++ [mk_entry tr now now false]) (redo_stack h).

(** The history, the clock and the id of a new outermost transaction.
    [crates/text/src/text.rs:238-261] History::start_transaction *)
Definition start_transaction (h : History) (start : Global.t) (now : Z) (clock : Lamport.t) :
    History * Lamport.t * option Lamport.t :=
  let h := set_depth h (S (transaction_depth h)) in
  if Nat.eqb (transaction_depth h) 1 then
    let '(id, clock) := Lamport.tick clock in
    (push_entry h (mk_transaction id [] start) now, clock, Some id)
  else (h, clock, None).

(** [crates/text/src/text.rs:263-286] History::end_transaction *)
Definition end_transaction (h : History) (now : Z) : option (History * option HistoryEntry) :=
  _ ← assert (negb (no_transaction h));
  let h := set_depth h (transaction_depth h - 1) in
  if Nat.eqb (transaction_depth h) 0 then
    last ← list.last (undo_stack h);
    match edit_ids (transaction last) with
    | [] => Some (set_stacks h (removelast (undo_stack h)) (redo_stack h), None)
    | _ =>
        let h := set_stacks h (update_top (set_last_edit_at now) (undo_stack h)) [] in
        entry ← list.last (undo_stack h); Some (h, Some entry)
    end
  else Some (h, None).

(** [crates/text/src/text.rs:320-337] History::group_trailing *)
Definition group_trailing (h : History) (n : nat) : option (History * option Lamport.t) :=
  if Nat.ltb (length (undo_stack h)) n then None else
  let new_len := (length (undo_stack h) - n)%nat in
  let entries_to_keep := take new_len (undo_stack h) in
  let entries_to_merge := drop new_len (undo_stack h) in
  let push_all tr := foldl (λ tr entry, foldl (λ tr id, push_edit_id id tr) tr (edit_ids (transaction entry)))
                       tr entries_to_merge in
  let kept := update_top (λ last_entry,
      let last_entry := set_transaction push_all last_entry in
      match list.last entries_to_merge with
      | Some entry => set_last_edit_at (last_edit_at entry) last_entry
      | None => last_entry
      end) entries_to_keep in
  let h := set_stacks h kept (redo_stack h) in
  Some (h, transaction_id <$> list.last (undo_stack h)).

(** Whether the entry [entry] is grouped with the one before it; subtracting
    [Instant]s saturates.
    [crates/text/src/text.rs:293-295] History::group *)
Definition grouped_with (interval : Z) (prev_entry entry : HistoryEntry) : bool :=
  negb (suppress_grouping prev_entry) &&
  (saturating_sub (first_edit_at entry) (last_edit_at prev_entry) <? interval).

(** The loop, on the entries below [entry] from the top.
    [crates/text/src/text.rs:292-301] History::group *)
Fixpoint group_count (interval : Z) (entry : HistoryEntry) (entries : list HistoryEntry) : nat :=
  match entries with
  | prev_entry :: entries =>
      if grouped_with interval prev_entry entry then S (group_count interval prev_entry entries) else 0
  | [] => 0
  end.
(** [crates/text/src/text.rs:288-304] History::group *)
Definition group (h : History) : option (History * option Lamport.t) :=
  group_trailing h match rev (undo_stack h) with
                   | entry :: entries => group_count (group_interval h) entry entries
                   | [] => 0
                   end.

(** The loop, from the top; [None] when nothing is grouped.
    [crates/text/src/text.rs:307-317] History::group_until *)
Fixpoint group_until_count (t : Lamport.t) (count : nat) (entries : list HistoryEntry) : option nat :=
  match entries with
  | [] => None
  | entry :: entries =>
      if has_id t entry then Some count
      else if suppress_grouping entry then None
      else group_until_count t (S count) entries
  end.
(** [crates/text/src/text.rs:306-318] History::group_until *)
Definition group_until (h : History) (t : Lamport.t) : option History :=
  match group_until_count t 0 (rev (undo_stack h)) with
  | Some count => '(h, _) ← group_trailing h count; Some h
  | None => Some h
  end.

(** [crates/text/src/text.rs:339-345] History::finalize_last_transaction *)
Definition finalize_last_transaction (h : History) : History * option Transaction :=
  let undo := update_top (λ e, mk_entry (transaction e) (first_edit_at e) (last_edit_at e) true) (undo_stack h) in
  (set_stacks h undo (redo_stack h), transaction <$> list.last undo).

(** [crates/text/src/text.rs:347-355] History::push_transaction *)
Definition push_transaction (h : History) (tr : Transaction) (now : Z) : option History :=
  _ ← assert (no_transaction h); Some (push_entry h tr now).
(** [crates/text/src/text.rs:368-388] History::push_empty_transaction *)
Definition push_empty_transaction (h : History) (start : Global.t) (now : Z) (clock : Lamport.t) :
    option (History * Lamport.t * Lamport.t) :=
  _ ← assert (no_transaction h);
  let '(id, clock) := Lamport.tick clock in
  Some (push_entry h (mk_transaction id [] start) now, clock, id).

(** [crates/text/src/text.rs:390-396] History::push_undo *)
Definition push_undo (h : History) (op_id : Lamport.t) : option History :=
  _ ← assert (negb (no_transaction h));
  op ← TreeMap.get (operations h) op_id;
  match op with
  | Some (EditOp _) =>
      _ ← list.last (undo_stack h);
      Some (set_stacks h (update_top (set_transaction (push_edit_id op_id)) (undo_stack h)) (redo_stack h))
  | _ => Some h
  end.

(** [crates/text/src/text.rs:398-406] History::pop_undo *)
Definition pop_undo (h : History) : option (History * option HistoryEntry) :=
  _ ← assert (no_transaction h);
  match vec_pop (undo_stack h) with
  | Some (entry, undo) => Some (set_stacks h undo (redo_stack h ++ [entry]), Some entry)
  | None => Some (h, None)
  end.
(** [crates/text/src/text.rs:488-496] History::pop_redo *)
Definition pop_redo (h : History) : option (History * option HistoryEntry) :=
  _ ← assert (no_transaction h);
  match vec_pop (redo_stack h) with
  | Some (entry, redo) => Some (set_stacks h (undo_stack h ++ [entry]) redo, Some entry)
  | None => Some (h, None)
  end.

(** [crates/text/src/text.rs:408-418] History::remove_from_undo *)
Definition remove_from_undo (h : History) (t : Lamport.t) : option (History * option HistoryEntry) :=
  _ ← assert (no_transaction h);
  match rposition (has_id t) (undo_stack h) with
  | Some entry_ix =>
      '(entry, undo) ← vec_remove (undo_stack h) entry_ix;
      Some (set_stacks h undo (redo_stack h ++ [entry]), Some entry)
  | None => Some (h, None)
  end.

(** The history and the entries that moved.
    [crates/text/src/text.rs:420-433] History::remove_from_undo_until *)
Definition remove_from_undo_until (h : History) (t : Lamport.t) : option (History * list HistoryEntry) :=
  _ ← assert (no_transaction h);
  match rposition (has_id t) (undo_stack h) with
  | Some entry_ix =>
      let moved := rev (drop entry_ix (undo_stack h)) in
      Some (set_stacks h (take entry_ix (undo_stack h)) (redo_stack h ++ moved), moved)
  | None => Some (h, [])
  end.
(** [crates/text/src/text.rs:498-511] History::remove_from_redo *)
Definition remove_from_redo (h : History) (t : Lamport.t) : option (History * list HistoryEntry) :=
  _ ← assert (no_transaction h);
  match rposition (has_id t) (redo_stack h) with
  | Some entry_ix =>
      let moved := rev (drop entry_ix (redo_stack h)) in
      Some (set_stacks h (undo_stack h ++ moved) (take entry_ix (redo_stack h)), moved)
  | None => Some (h, [])
  end.

(** [crates/text/src/text.rs:435-452] History::forget *)
Definition forget (h : History) (t : Lamport.t) : option (History * option Transaction) :=
  _ ← assert (no_transaction h);
  match rposition (has_id t) (undo_stack h) with
  | Some entry_ix =>
      '(entry, undo) ← vec_remove (undo_stack h) entry_ix;
      Some (set_stacks h undo (redo_stack h), Some (transaction entry))
  | None =>
      match rposition (has_id t) (redo_stack h) with
      | Some entry_ix =>
          '(entry, redo) ← vec_remove (redo_stack h) entry_ix;
          Some (set_stacks h (undo_stack h) redo, Some (transaction entry))
      | None => Some (h, None)
      end
  end.

(** [crates/text/src/text.rs:454-465] History::transaction *)
Definition get_transaction (h : History) (t : Lamport.t) : option Transaction :=
  transaction <$> match rfind (has_id t) (undo_stack h) with
                  | Some entry => Some entry
                  | None => rfind (has_id t) (redo_stack h)
                  end.
(** The change [f] through the reference; nothing when there is no such transaction.
    [crates/text/src/text.rs:467-478] History::transaction_mut *)
Definition transaction_mut (h : History) (t : Lamport.t) (f : Transaction → Transaction) : History :=
  match rposition (has_id t) (undo_stack h) with
  | Some i => set_stacks h (alter (set_transaction f) i (undo_stack h)) (redo_stack h)
  | None =>
      match rposition (has_id t) (redo_stack h) with
      | Some i => set_stacks h (undo_stack h) (alter (set_transaction f) i (redo_stack h))
      | None => h
      end
  end.
(** [crates/text/src/text.rs:480-486] History::merge_transactions *)
Definition merge_transactions (h : History) (t destination : Lamport.t) : option History :=
  '(h, tr) ← forget h t;
  match tr with
  | Some tr =>
      Some (transaction_mut h destination (λ d, mk_transaction (id d) (edit_ids d ++ edit_ids tr) (start d)))
  | None => Some h
  end.

(** What a buffer does with its history when a transaction ends.
    [crates/text/src/text.rs:1326-1334] Buffer::end_transaction_at *)
Definition end_transaction_at (h : History) (now : Z) : option (History * option (Lamport.t * Global.t)) :=
  '(h, entry) ← end_transaction h now;
  match entry with
  | Some entry =>
      let since := start (transaction entry) in
      '(h, t) ← group h;
      t ← t;
      Some (h, Some (t, since))
  | None => Some (h, None)
  end.
(** [crates/text/src/text.rs:1305-1307] Buffer::peek_undo_stack *)
Definition peek_undo_stack (h : History) : option HistoryEntry := list.last (undo_stack h).
(** [crates/text/src/text.rs:1309-1311] Buffer::peek_redo_stack *)
Definition peek_redo_stack (h : History) : option HistoryEntry := list.last (redo_stack h).

(** ** Vectors *)
Section vector_lemmas.
Context {A : Type}.
Implicit Types (l m : list A) (x : A) (p : A → bool).

Lemma rposition_none p l : (∀ x, x ∈ l → p x = false) → rposition p l = None.
Proof.
  induction l as [|x l IH]; intros Hl; [done|]. cbn. rewrite IH by (intros y Hy; apply Hl; by right).
  by rewrite (Hl x) by left.
Qed.
Lemma rposition_at p l x m :
  p x = true → (∀ y, y ∈ m → p y = false) → rposition p (l ++ x :: m) = Some (length l).
Proof.
  intros Hx Hm. induction l as [|y l IH]; cbn.
  - by rewrite (rposition_none p m Hm), Hx.
  - by rewrite IH.
Qed.
(** The last element that satisfies [p]. *)
Lemma rposition_cases p l :
  (rposition p l = None ∧ ∀ x, x ∈ l → p x = false) ∨
  ∃ l1 x l2, l = l1 ++ x :: l2 ∧ rposition p l = Some (length l1) ∧ p x = true ∧ ∀ y, y ∈ l2 → p y = false.
Proof.
  induction l as [|x l IH]; [left; split; [done|by intros ? ?%elem_of_nil]|].
  destruct IH as [[E Hl]|(l1 & y & l2 & -> & E & Hy & H2)].
  - destruct (p x) eqn:Ex.
    + right. exists [], x, l. cbn. rewrite E, Ex. done.
    + left. cbn. rewrite E, Ex. split; [done|]. by intros y [->|Hy]%elem_of_cons; [|apply Hl].
  - right. exists (x :: l1), y, l2. cbn. by rewrite E.
Qed.
Lemma vec_remove_at l x m : vec_remove (l ++ x :: m) (length l) = Some (x, l ++ m).
Proof.
  unfold vec_remove. rewrite list_lookup_middle by done. cbn. f_equal. f_equal.
  rewrite take_app_length. f_equal. rewrite (cons_middle x l m), app_assoc.
  rewrite drop_app_ge by (rewrite length_app; cbn; lia).
  rewrite length_app. cbn. by replace (S (length l) - (length l + 1))%nat with 0%nat by lia.
Qed.
Lemma removelast_snoc l x : removelast (l ++ [x]) = l.
Proof. by rewrite removelast_app, app_nil_r. Qed.
Lemma vec_pop_snoc l x : vec_pop (l ++ [x]) = Some (x, l).
Proof. unfold vec_pop. by rewrite last_snoc, removelast_snoc. Qed.
Lemma update_top_snoc f l x : update_top f (l ++ [x]) = l ++ [f x].
Proof. unfold update_top. by rewrite last_snoc, removelast_snoc. Qed.
Lemma update_top_nil f l : update_top f l = [] ↔ l = [].
Proof.
  destruct l as [|x l _] using rev_ind; [done|]. rewrite update_top_snoc. by destruct l.
Qed.
End vector_lemmas.

Section correct.
Implicit Types (h : History) (e : HistoryEntry) (l : list HistoryEntry) (interval : Z).

Lemma set_stacks_same h : set_stacks h (undo_stack h) (redo_stack h) = h.
Proof. by destruct h. Qed.

(** ** Grouping *)

(** The entry that a run of entries is merged into. *)
Definition merge_run e (merged : list HistoryEntry) : HistoryEntry :=
  mk_entry
    (mk_transaction (transaction_id e) (flat_map (λ e, edit_ids (transaction e)) (e :: merged)) (start (transaction e)))
    (first_edit_at e) (default (last_edit_at e) (last_edit_at <$> list.last merged)) (suppress_grouping e).
(** Each entry is grouped with the next one. *)
Fixpoint linked interval l : Prop :=
  match l with
  | a :: ((b :: _) as l) => grouped_with interval a b = true ∧ linked interval l
  | _ => True
  end.

Lemma linked_snoc interval l a b :
  linked interval (l ++ [a]) → grouped_with interval a b = true → linked interval (l ++ [a; b]).
Proof.
  induction l as [|x [|y l] IH]; intros Hl Hab; [done|by destruct Hl|].
  destruct Hl as [H1 H2]. split; [done|]. by apply IH.
Qed.

Lemma group_count_ok interval entry entries :
  ∃ run rest, entries = run ++ rest ∧ length run = group_count interval entry entries ∧
    linked interval (rev (entry :: run)) ∧
    ∀ e merged, rev (entry :: run) = e :: merged →
      ∀ p, head rest = Some p → grouped_with interval p e = false.
Proof.
  revert entry. induction entries as [|prev entries IH]; intros entry.
  - exists [], []. split_and!; done.
  - cbn [group_count]. destruct (grouped_with interval prev entry) eqn:E.
    + destruct (IH prev) as (run & rest & -> & Hl & Hlk & Hr). exists (prev :: run), rest.
      split_and!; [done|cbn; by rewrite Hl| |].
      * cbn [rev]. rewrite <- app_assoc. apply linked_snoc; done.
      * intros e merged He. cbn [rev] in He, Hr.
        destruct (rev run) as [|z zs]; cbn in He; injection He as -> _; by eapply Hr.
    + exists [], (prev :: entries). split_and!; try done.
      intros e merged [= <- <-] p [= <-]. done.
Qed.

Lemma foldl_push tr es : foldl (λ tr id, push_edit_id id tr) tr es = mk_transaction (id tr) (edit_ids tr ++ es) (start tr).
Proof.
  revert tr. induction es as [|t es IH]; intros tr; cbn.
  - rewrite app_nil_r. by destruct tr.
  - rewrite IH. cbn. by rewrite <- app_assoc.
Qed.
Lemma foldl_push_all tr l :
  foldl (λ tr entry, foldl (λ tr id, push_edit_id id tr) tr (edit_ids (transaction entry))) tr l
  = mk_transaction (id tr) (edit_ids tr ++ flat_map (λ e, edit_ids (transaction e)) l) (start tr).
Proof.
  revert tr. induction l as [|e l IH]; intros tr; cbn.
  - rewrite app_nil_r. by destruct tr.
  - rewrite foldl_push, IH. cbn. by rewrite <- app_assoc.
Qed.

Lemma group_trailing_ok h keep e merged :
  undo_stack h = keep ++ e :: merged →
  group_trailing h (length merged)
  = Some (set_stacks h (keep ++ [merge_run e merged]) (redo_stack h), Some (transaction_id e)).
Proof.
  intros Hu. unfold group_trailing. rewrite Hu, length_app. cbn [length].
  destruct (Nat.ltb_spec (length keep + S (length merged)) (length merged)); [lia|].
  replace (length keep + S (length merged) - length merged)%nat with (length (keep ++ [e]))
    by (rewrite length_app; cbn; lia).
  rewrite (cons_middle e keep merged), app_assoc, take_app_length, drop_app_length, update_top_snoc.
  cbn [undo_stack set_stacks]. rewrite last_snoc. cbn [fmap option_fmap option_map].
  unfold set_transaction. rewrite foldl_push_all. unfold merge_run, transaction_id.
  destruct (list.last merged); done.
Qed.

Lemma group_ok h :
  undo_stack h ≠ [] →
  ∃ keep e merged, undo_stack h = keep ++ e :: merged ∧ linked (group_interval h) (e :: merged) ∧
    (∀ p, list.last keep = Some p → grouped_with (group_interval h) p e = false) ∧
    group h = Some (set_stacks h (keep ++ [merge_run e merged]) (redo_stack h), Some (transaction_id e)).
Proof.
  intros Hne. unfold group. destruct (rev (undo_stack h)) as [|entry entries] eqn:Er.
  { apply (f_equal (@rev _)) in Er. by rewrite rev_involutive in Er. }
  destruct (group_count_ok (group_interval h) entry entries) as (run & rest & -> & Hl & Hlk & Hr).
  destruct (rev (entry :: run)) as [|e merged] eqn:Ee.
  { apply (f_equal length) in Ee. rewrite length_rev in Ee. done. }
  assert (undo_stack h = rev rest ++ e :: merged) as Hu.
  { rewrite <- (rev_involutive (undo_stack h)), Er, <- Ee.
    change (entry :: run ++ rest) with ((entry :: run) ++ rest). by rewrite rev_app_distr. }
  exists (rev rest), e, merged. split_and!; [done..| |].
  - intros p Hp. apply (Hr e merged eq_refl). destruct rest as [|r rest]; [done|].
    cbn in Hp. by rewrite last_snoc in Hp.
  - rewrite <- Hl. replace (length run) with (length merged); [by apply group_trailing_ok|].
    apply (f_equal length) in Ee. rewrite length_rev in Ee. by injection Ee as ->.
Qed.

Lemma group_until_count_ok t l :
  match group_until_count t 0 (rev l) with
  | Some n => ∃ keep e merged, l = keep ++ e :: merged ∧ length merged = n ∧ has_id t e = true ∧
      Forall (λ e, has_id t e = false ∧ suppress_grouping e = false) merged
  | None => True
  end.
Proof.
  assert (∀ entries count, match group_until_count t count entries with
    | Some n => ∃ merged e keep, entries = merged ++ e :: keep ∧ n = (count + length merged)%nat ∧
        has_id t e = true ∧ Forall (λ e, has_id t e = false ∧ suppress_grouping e = false) merged
    | None => True end) as Hgen.
  { induction entries as [|x entries IH]; intros count; cbn; [done|].
    destruct (has_id t x) eqn:Ex; [exists [], x, entries; split_and!; [done|cbn; lia|done|by apply Forall_nil]|].
    destruct (suppress_grouping x) eqn:Es; [done|]. specialize (IH (S count)).
    destruct (group_until_count t (S count) entries) as [n|]; [|done].
    destruct IH as (merged & e & keep & -> & -> & He & Hm). exists (x :: merged), e, keep.
    split_and!; [done|cbn; lia|done|by apply Forall_cons_2]. }
  specialize (Hgen (rev l) 0%nat). destruct (group_until_count t 0 (rev l)) as [n|]; [|done].
  destruct Hgen as (merged & e & keep & El & -> & He & Hm). exists (rev keep), e, (rev merged).
  split_and!; [|by rewrite length_rev|done|].
  - rewrite <- (rev_involutive l), El, rev_app_distr. cbn. by rewrite <- app_assoc.
  - apply Forall_forall. intros x Hx. apply (proj1 (Forall_forall _ _) Hm).
    by apply list_elem_of_In, in_rev, list_elem_of_In.
Qed.
End correct.

(** ** The history as a state machine *)
Inductive call :=
  | Push (op : Operation) | Start (start : Global.t) (now : Z) | PushUndo (op_id : Lamport.t) | End_ (now : Z)
  | Finalize | GroupUntil (t : Lamport.t) | SetGroupInterval (interval : Z)
  | PushTransaction (tr : Transaction) (now : Z) | PushEmpty (start : Global.t) (now : Z)
  | Undo | UndoOne (t : Lamport.t) | UndoUntil (t : Lamport.t)
  | Redo | RedoUntil (t : Lamport.t) | Forget (t : Lamport.t) | Merge (t destination : Lamport.t).

Definition state : Type := History * Lamport.t.
Definition run (c : call) (s : state) : option state :=
  let '(h, clock) := s in
  match c with
  | Push op => h ← push h op; Some (h, clock)
  | Start start now => let '(h, clock, _) := start_transaction h start now clock in Some (h, clock)
  | PushUndo t => h ← push_undo h t; Some (h, clock)
  | End_ now => '(h, _) ← end_transaction_at h now; Some (h, clock)
  | Finalize => Some (fst (finalize_last_transaction h), clock)
  | GroupUntil t => h ← group_until h t; Some (h, clock)
  | SetGroupInterval d => Some (set_group_interval h d, clock)
  | PushTransaction tr now => h ← push_transaction h tr now; Some (h, clock)
  | PushEmpty start now => '(h, clock, _) ← push_empty_transaction h start now clock; Some (h, clock)
  | Undo => '(h, _) ← pop_undo h; Some (h, clock)
  | UndoOne t => '(h, _) ← remove_from_undo h t; Some (h, clock)
  | UndoUntil t => '(h, _) ← remove_from_undo_until h t; Some (h, clock)
  | Redo => '(h, _) ← pop_redo h; Some (h, clock)
  | RedoUntil t => '(h, _) ← remove_from_redo h t; Some (h, clock)
  | Forget t => '(h, _) ← forget h t; Some (h, clock)
  | Merge t d => h ← merge_transactions h t d; Some (h, clock)
  end.

(** Calls that assert an open transaction, and those that assert that none is open. *)
Definition needs_transaction (c : call) : bool := match c with PushUndo _ | End_ _ => true | _ => false end.
Definition needs_none (c : call) : bool :=
  match c with
  | Push _ | Start _ _ | PushUndo _ | End_ _ | Finalize | GroupUntil _ | SetGroupInterval _ => false
  | _ => true
  end.

(** Everything a fresh history can become; the map of operations stays within
    the reach of a cursor (a tree of height 16 has more than 6^16 operations). *)
Inductive reachable : state → Prop :=
  | reachable_new base clock : reachable (new base, clock)
  | reachable_run c s s' :
      reachable s → run c s = Some s' → (SumTree.height (operations s'.1) < Cursor.stack_capacity)%nat → reachable s'.

Section machine.
Implicit Types (h : History) (e : HistoryEntry) (c : call) (s : state).

Definition inv h : Prop :=
  (transaction_depth h ≠ 0%nat → undo_stack h ≠ []) ∧
  (∃ l, SumTree.represents (operations h) l ∧ valid l) ∧ (SumTree.height (operations h) < Cursor.stack_capacity)%nat.

Lemma inv_fits h : inv h → ∃ l, Keyed.fits (operations h) l.
Proof.
  intros (_ & (l & [[n Hw] Hc] & Hv) & Hh). exists l, n. split_and!; [done..| |done].
  by rewrite <- (SumTree.wf_height n _ Hw).
Qed.

(** What a call leaves of the operations and the depth. *)
Definition keeps h h' : Prop :=
  operations h' = operations h ∧ transaction_depth h' = transaction_depth h ∧
  (undo_stack h ≠ [] → transaction_depth h ≠ 0%nat → undo_stack h' ≠ []).
Lemma keeps_inv h h' : keeps h h' → inv h → inv h'.
Proof.
  intros (E1 & E2 & H) (H1 & H2 & H3). unfold inv. rewrite E1, E2. split_and!; [|done..].
  intros Hd. by apply H, Hd; apply H1.
Qed.

Lemma no_transaction_true h : no_transaction h = true ↔ transaction_depth h = 0%nat.
Proof. apply Nat.eqb_eq. Qed.

Lemma group_some h : undo_stack h ≠ [] → ∃ h' t, group h = Some (h', Some t) ∧
  operations h' = operations h ∧ transaction_depth h' = transaction_depth h ∧ undo_stack h' ≠ [].
Proof.
  intros Hne. destruct (group_ok h Hne) as (keep & e & merged & _ & _ & _ & ->).
  eexists _, _. split_and!; [done..|]. cbn. by destruct keep.
Qed.

Lemma update_top_ne {A} (f : A → A) (l : list A) : l ≠ [] → update_top f l ≠ [].
Proof. intros H E. by apply update_top_nil in E. Qed.

Lemma end_transaction_at_some h now :
  inv h → transaction_depth h ≠ 0%nat → ∃ h' r, end_transaction_at h now = Some (h', r) ∧ inv h'.
Proof.
  intros Hinv Hd. pose proof Hinv as (H1 & H2 & H3). specialize (H1 Hd).
  unfold end_transaction_at, end_transaction, assert. destruct (no_transaction h) eqn:En;
    [by apply no_transaction_true in En|]. cbn [negb mbind option_bind].
  cbn [transaction_depth set_depth undo_stack set_stacks redo_stack].
  destruct (Nat.eqb_spec (transaction_depth h - 1) 0) as [E|E].
  - destruct (undo_stack h) as [|last l _] eqn:Eu using rev_ind; [done|]. rewrite last_snoc. cbn [mbind option_bind].
    destruct (edit_ids (transaction last)) as [|t0 ts0].
    + cbn [mbind option_bind]. eexists _, _. split; [done|]. split; [|done]. cbn. by rewrite E.
    + rewrite update_top_snoc, last_snoc. cbn [mbind option_bind].
      destruct (group_some (set_stacks (set_depth h (transaction_depth h - 1)) (l ++ [set_last_edit_at now last]) []))
        as (h' & t1 & -> & E1 & E2 & E3); [by destruct l|].
      cbn [mbind option_bind]. eexists _, _. split; [done|]. split; [done|]. by rewrite E1.
  - cbn [mbind option_bind]. eexists _, _. split; [done|]. split; [|done]. cbn. intros _. done.
Qed.

Lemma push_some h op : inv h → ∃ h', push h op = Some h' ∧
  ((SumTree.height (operations h') < Cursor.stack_capacity)%nat → inv h').
Proof.
  intros Hinv. destruct (inv_fits h Hinv) as [l Hf]. destruct Hinv as (H1 & _). unfold push, TreeMap.insert.
  destruct (Keyed.insert_or_replace_ok (D := MapKey Lamport.t) (operations h) l (Keyed.mk_entry (op_timestamp op) op) Hf)
    as (t & E & Ht); [exact I|].
  rewrite E. cbn [mbind option_bind]. eexists. split; [done|]. intros Hh. split_and!; [done| |done].
  eexists. split; [exact Ht|]. apply Keyed.replace_valid; [|exact I]. by destruct Hf as (? & _ & _ & _ & Hv).
Qed.

Lemma push_undo_some h t : inv h → transaction_depth h ≠ 0%nat → ∃ h', push_undo h t = Some h' ∧ keeps h h'.
Proof.
  intros Hinv Hd. destruct (inv_fits h Hinv) as [l Hf]. destruct Hinv as (H1 & _). specialize (H1 Hd).
  unfold push_undo, assert. destruct (no_transaction h) eqn:En; [by apply no_transaction_true in En|].
  cbn [negb mbind option_bind]. rewrite (TreeMap.map_get_ok _ l t Hf). cbn [mbind option_bind].
  destruct (value <$> _) as [[edit|undo]|].
  - destruct (list.last (undo_stack h)) eqn:El; [|by apply last_None in El].
    cbn [mbind option_bind]. eexists. split; [done|]. split_and!; [done..|]. intros _ _. by apply update_top_ne.
  - by exists h.
  - by exists h.
Qed.

Lemma group_until_some h t : ∃ h', group_until h t = Some h' ∧ keeps h h'.
Proof.
  unfold group_until. pose proof (group_until_count_ok t (undo_stack h)) as H.
  destruct (group_until_count t 0 (rev (undo_stack h))) as [n|]; [|by exists h].
  destruct H as (keep & e & merged & Eu & <- & _). rewrite (group_trailing_ok h keep e merged Eu).
  cbn [mbind option_bind]. eexists. split; [done|]. split_and!; [done..|]. intros _ _. cbn. by destruct keep.
Qed.

Lemma forget_some h t : transaction_depth h = 0%nat → ∃ h' r, forget h t = Some (h', r) ∧ keeps h h'.
Proof.
  intros Hd. unfold forget, assert. apply no_transaction_true in Hd as Hd'. rewrite Hd'. cbn [mbind option_bind].
  destruct (rposition_cases (has_id t) (undo_stack h)) as [[-> _]|(l1 & x & l2 & El & -> & _)].
  - destruct (rposition_cases (has_id t) (redo_stack h)) as [[-> _]|(l1 & x & l2 & El & -> & _)].
    + by exists h, None.
    + rewrite El, vec_remove_at. cbn. eexists _, _. split; [done|]. by split_and!.
  - rewrite El, vec_remove_at. cbn. eexists _, _. split; [done|]. split_and!; [done..|]. by rewrite Hd.
Qed.

Lemma keeps_idle h undo redo : transaction_depth h = 0%nat → keeps h (set_stacks h undo redo).
Proof. intros Hd. split_and!; [done..|]. by rewrite Hd. Qed.

(** Every call that its assertions allow succeeds. *)
Lemma run_some c h clock :
  inv h → (needs_transaction c = true → transaction_depth h ≠ 0%nat) →
  (needs_none c = true → transaction_depth h = 0%nat) →
  ∃ h' clock', run c (h, clock) = Some (h', clock') ∧
    ((SumTree.height (operations h') < Cursor.stack_capacity)%nat → inv h').
Proof.
  intros Hinv Ht Hn.
  assert (needs_none c = true → assert (no_transaction h) = Some tt) as Ha.
  { intros H. apply Hn, no_transaction_true in H. unfold assert. by rewrite H. }
  assert (∀ h', keeps h h' → (SumTree.height (operations h') < Cursor.stack_capacity)%nat → inv h') as Hk.
  { intros h' H _. by eapply keeps_inv. }
  destruct c; cbn [run needs_transaction needs_none] in *; try specialize (Ha eq_refl); try specialize (Hn eq_refl);
    try specialize (Ht eq_refl).
  - destruct (push_some h op Hinv) as (h' & -> & H). cbn. by eexists _, _.
  - unfold start_transaction. cbn [set_depth transaction_depth]. destruct (Nat.eqb_spec (S (transaction_depth h)) 1) as [E|E].
    + eexists _, _. split; [done|]. intros _. destruct Hinv as (_ & H2 & H3).
      split_and!; [|done..]. cbn. intros _ H. by destruct (undo_stack h).
    + eexists _, _. split; [done|]. intros _. destruct Hinv as (H1 & H2 & H3).
      split_and!; [|done..]. cbn. intros _. apply H1. lia.
  - destruct (push_undo_some h op_id Hinv Ht) as (h' & -> & H). cbn. eexists _, _. split; [done|by apply Hk].
  - destruct (end_transaction_at_some h now Hinv Ht) as (h' & r & -> & H). cbn. by eexists _, _.
  - eexists _, _. split; [done|]. apply Hk. split_and!; [done..|]. intros H _. by apply update_top_ne.
  - destruct (group_until_some h t) as (h' & -> & H). cbn. eexists _, _. split; [done|by apply Hk].
  - eexists _, _. split; [done|]. apply Hk. by split_and!.
  - unfold push_transaction. rewrite Ha. cbn. eexists _, _. split; [done|]. by apply Hk, keeps_idle.
  - unfold push_empty_transaction. rewrite Ha. cbn. eexists _, _. split; [done|]. by apply Hk, keeps_idle.
  - unfold pop_undo. rewrite Ha. cbn. destruct (vec_pop _) as [[? ?]|]; cbn; eexists _, _; (split; [done|]);
      [by apply Hk, keeps_idle|done].
  - unfold remove_from_undo. rewrite Ha. cbn.
    destruct (rposition_cases (has_id t) (undo_stack h)) as [[-> _]|(l1 & x & l2 & El & -> & _)].
    + cbn. eexists _, _. by split.
    + rewrite El, vec_remove_at. cbn. eexists _, _. split; [done|]. by apply Hk, keeps_idle.
  - unfold remove_from_undo_until. rewrite Ha. cbn. destruct (rposition _ _); cbn; eexists _, _; (split; [done|]);
      [by apply Hk, keeps_idle|done].
  - unfold pop_redo. rewrite Ha. cbn. destruct (vec_pop _) as [[? ?]|]; cbn; eexists _, _; (split; [done|]);
      [by apply Hk, keeps_idle|done].
  - unfold remove_from_redo. rewrite Ha. cbn. destruct (rposition _ _); cbn; eexists _, _; (split; [done|]);
      [by apply Hk, keeps_idle|done].
  - destruct (forget_some h t Hn) as (h' & r & -> & H). cbn. eexists _, _. split; [done|by apply Hk].
  - unfold merge_transactions. destruct (forget_some h t Hn) as (h' & r & -> & H). cbn [mbind option_bind].
    destruct r as [tr|]; cbn [mbind option_bind]; eexists _, _; (split; [done|]); [|by apply Hk].
    apply Hk. destruct H as (E1 & E2 & _). unfold transaction_mut.
    repeat (destruct (rposition _ _)); (split_and!; [done..|]); by rewrite Hn.
Qed.

Lemma run_needs c h clock s' :
  run c (h, clock) = Some s' →
  (needs_transaction c = true → transaction_depth h ≠ 0%nat) ∧ (needs_none c = true → transaction_depth h = 0%nat).
Proof.
  intros E. split; intros Hc; destruct c; try done;
    cbn in E; unfold push_undo, end_transaction_at, end_transaction, push_transaction,
      push_empty_transaction, pop_undo, remove_from_undo, remove_from_undo_until, pop_redo, remove_from_redo,
      merge_transactions, forget, assert in E; destruct (no_transaction h) eqn:En; try done;
    try by apply no_transaction_true.
  all: intros Hd; apply no_transaction_true in Hd; congruence.
Qed.

Lemma reachable_inv s : reachable s → inv s.1.
Proof.
  induction 1 as [base clock|c [h clock] [h' clock'] Hr IH E Hh].
  - split_and!; [done| |cbn; unfold Cursor.stack_capacity; lia].
    exists []. split; [apply SumTree.represents_new|apply Keyed.sorted_nil].
  - cbn [fst] in *. destruct (run_needs c h clock _ E) as [H1 H2].
    destruct (run_some c h clock IH H1 H2) as (h2 & clock2 & E2 & H). rewrite E in E2.
    injection E2 as -> ->. by apply H.
Qed.

(** ** Entries by id *)
Definition ids h : list Lamport.t := map transaction_id (undo_stack h ++ redo_stack h).
Definition without (t : Lamport.t) (l : list HistoryEntry) : list HistoryEntry := filter (λ e, has_id t e = false) l.
Definition change (t : Lamport.t) (f : Transaction → Transaction) (l : list HistoryEntry) : list HistoryEntry :=
  map (λ e, if has_id t e then set_transaction f e else e) l.

Lemma has_id_true t e : has_id t e = true ↔ transaction_id e = t.
Proof. apply bool_decide_eq_true. Qed.
Lemma without_absent t l : (∀ e, e ∈ l → has_id t e = false) → without t l = l.
Proof. intros H. by apply Keyed.filter_all. Qed.
Lemma change_absent t f l : (∀ e, e ∈ l → has_id t e = false) → change t f l = l.
Proof.
  unfold change. induction l as [|e l IH]; intros H; [done|]. cbn [map]. rewrite (H e), IH; [done| |left].
  intros x Hx. apply H. by right.
Qed.
Lemma nodup_unique t l1 x l2 :
  NoDup (map transaction_id (l1 ++ x :: l2)) → has_id t x = true →
  (∀ e, e ∈ l1 → has_id t e = false) ∧ (∀ e, e ∈ l2 → has_id t e = false).
Proof.
  rewrite map_app. cbn. intros (_ & H1 & [H2 _]%NoDup_cons)%NoDup_app Hx. apply has_id_true in Hx.
  split; intros e He; apply bool_decide_eq_false; intros Ht.
  - apply (H1 (transaction_id e)); [by apply list_elem_of_fmap_2|]. rewrite Ht, <- Hx. left.
  - apply H2. rewrite Hx, <- Ht. by apply list_elem_of_fmap_2.
Qed.
Lemma nodup_other t l m x l1 l2 :
  NoDup (map transaction_id (l ++ m)) → l = l1 ++ x :: l2 → has_id t x = true → ∀ e, e ∈ m → has_id t e = false.
Proof.
  intros Hnd -> Hx. rewrite <- app_assoc in Hnd. cbn in Hnd.
  destruct (nodup_unique t l1 x (l2 ++ m) Hnd Hx) as [_ H]. intros e He. apply H, elem_of_app. by right.
Qed.
Lemma without_at t l1 x l2 :
  NoDup (map transaction_id (l1 ++ x :: l2)) → has_id t x = true → without t (l1 ++ x :: l2) = l1 ++ l2.
Proof.
  intros Hnd Hx. destruct (nodup_unique t l1 x l2 Hnd Hx) as [H1 H2]. unfold without.
  rewrite filter_app, filter_cons_False by by rewrite Hx. fold (without t l1) (without t l2).
  by rewrite !without_absent.
Qed.
Lemma change_at t f l1 x l2 :
  NoDup (map transaction_id (l1 ++ x :: l2)) → has_id t x = true →
  change t f (l1 ++ x :: l2) = l1 ++ set_transaction f x :: l2.
Proof.
  intros Hnd Hx. destruct (nodup_unique t l1 x l2 Hnd Hx) as [H1 H2]. unfold change.
  rewrite map_app. cbn. rewrite Hx. fold (change t f l1) (change t f l2). by rewrite !change_absent.
Qed.
Lemma alter_at (f : HistoryEntry → HistoryEntry) l1 x l2 : alter f (length l1) (l1 ++ x :: l2) = l1 ++ f x :: l2.
Proof. induction l1 as [|y l1 IH]; [done|]. cbn. f_equal. apply IH. Qed.

Lemma nodup_stacks h : NoDup (ids h) → NoDup (map transaction_id (undo_stack h)) ∧ NoDup (map transaction_id (redo_stack h)).
Proof. unfold ids. rewrite map_app. by intros (? & _ & ?)%NoDup_app. Qed.

Lemma forget_ok h t :
  transaction_depth h = 0%nat → NoDup (ids h) →
  forget h t = Some (set_stacks h (without t (undo_stack h)) (without t (redo_stack h)), get_transaction h t).
Proof.
  intros Hd Hnd. destruct (nodup_stacks h Hnd) as [Hu Hr]. unfold forget, get_transaction, rfind, assert.
  apply no_transaction_true in Hd as ->. cbn [mbind option_bind].
  destruct (rposition_cases (has_id t) (undo_stack h)) as [[-> Hno]|(l1 & x & l2 & El & -> & Hx & _)].
  - rewrite (without_absent t _ Hno).
    destruct (rposition_cases (has_id t) (redo_stack h)) as [[-> Hno']|(l1 & x & l2 & El & -> & Hx & _)].
    + cbn. by rewrite (without_absent t _ Hno'), set_stacks_same.
    + rewrite El in *. rewrite vec_remove_at, without_at by done. cbn. by rewrite list_lookup_middle.
  - rewrite (without_absent t (redo_stack h)) by by eapply nodup_other.
    rewrite El in *. rewrite vec_remove_at, without_at by done. cbn. by rewrite list_lookup_middle.
Qed.

Lemma transaction_mut_ok h t f :
  NoDup (ids h) → transaction_mut h t f = set_stacks h (change t f (undo_stack h)) (change t f (redo_stack h)).
Proof.
  intros Hnd. destruct (nodup_stacks h Hnd) as [Hu Hr]. unfold transaction_mut.
  destruct (rposition_cases (has_id t) (undo_stack h)) as [[-> Hno]|(l1 & x & l2 & El & -> & Hx & _)].
  - rewrite (change_absent t f _ Hno).
    destruct (rposition_cases (has_id t) (redo_stack h)) as [[-> Hno']|(l1 & x & l2 & El & -> & Hx & _)].
    + by rewrite (change_absent t f _ Hno'), set_stacks_same.
    + rewrite El in *. by rewrite alter_at, change_at.
  - rewrite (change_absent t f (redo_stack h)) by by eapply nodup_other.
    rewrite El in *. by rewrite alter_at, change_at.
Qed.

Lemma without_ids h t : NoDup (ids h) → NoDup (ids (set_stacks h (without t (undo_stack h)) (without t (redo_stack h)))).
Proof.
  unfold ids, without. cbn [undo_stack redo_stack set_stacks]. rewrite <- filter_app.
  generalize (undo_stack h ++ redo_stack h). induction l as [|e l IH]; [done|]. cbn [map]. intros [H1 H2]%NoDup_cons.
  destruct (decide (has_id t e = false)); [rewrite filter_cons_True by done|rewrite filter_cons_False by done; by apply IH].
  cbn. apply NoDup_cons. split; [|by apply IH]. intros Hin. apply H1.
  apply list_elem_of_fmap in Hin as (x & -> & [_ Hx]%list_elem_of_filter). by apply list_elem_of_fmap_2.
Qed.
End machine.

Section contract.
Implicit Types (h : History) (e : HistoryEntry) (l : list HistoryEntry) (c : call) (s : state).

(** The edits of a stack, oldest first. *)
Definition edits l : list Lamport.t := flat_map (λ e, edit_ids (transaction e)) l.

(** C27: The history never panics by itself: from a fresh history, whatever calls came
    before, a call panics only if it ends or extends a transaction while none is
    open, or undoes, redoes, pushes, forgets or merges transactions while one is.
    So an open transaction always has its entry on the undo stack. *)
Theorem history_no_panic c h clock :
  reachable (h, clock) →
  (run c (h, clock) = None ↔
    (needs_transaction c = true ∧ transaction_depth h = 0%nat) ∨
    (needs_none c = true ∧ transaction_depth h ≠ 0%nat)) ∧
  (transaction_depth h ≠ 0%nat → undo_stack h ≠ []).
Proof.
  intros Hr. pose proof (reachable_inv _ Hr) as Hinv. cbn in Hinv. split; [|apply Hinv]. split.
  - intros E. destruct (decide (needs_transaction c = true ∧ transaction_depth h = 0%nat)) as [H1|H1]; [by left|].
    right. destruct (needs_none c) eqn:En.
    + split; [done|]. intros Hd. destruct (run_some c h clock Hinv) as (h' & clock' & E' & _); [|done|congruence].
      intros Ht _. by apply H1.
    + exfalso. destruct (run_some c h clock Hinv) as (h' & clock' & E' & _); [|by rewrite En|congruence].
      intros Ht Hd. by apply H1.
  - intros H. destruct (run c (h, clock)) eqn:E; [|done]. apply run_needs in E as [H1 H2].
    destruct H as [[Ht Hd]|[Hn Hd]]; [by apply H1 in Ht|by apply H2 in Hn].
Qed.

(** C24: Ending a transaction. A nested one only counts down. The outermost one
    disappears if it has no edits, and the redo stack stays; otherwise the redo
    stack is cleared, and the entry is merged into the run of entries before it
    that are each within the group interval of the next one and not finalized
    (the longest such run, up to [p]); the run keeps the id and the start of its
    first entry, which is the id returned, and no edit is lost or reordered. *)
Theorem end_transaction_correct h l last now :
  transaction_depth h ≠ 0%nat → undo_stack h = l ++ [last] →
  match transaction_depth h with
  | 1%nat =>
      match edit_ids (transaction last) with
      | [] => end_transaction_at h now = Some (set_depth (set_stacks h l (redo_stack h)) 0, None)
      | _ =>
          ∃ keep e merged, l ++ [set_last_edit_at now last] = keep ++ e :: merged ∧
            linked (group_interval h) (e :: merged) ∧
            (∀ p, list.last keep = Some p → grouped_with (group_interval h) p e = false) ∧
            end_transaction_at h now
              = Some (set_depth (set_stacks h (keep ++ [merge_run e merged]) []) 0,
                      Some (transaction_id e, start (transaction last))) ∧
            edits (keep ++ [merge_run e merged]) = edits (undo_stack h)
      end
  | n => end_transaction_at h now = Some (set_depth h (n - 1), None)
  end.
Proof.
  intros Hd Hu. unfold end_transaction_at, end_transaction, assert.
  destruct (no_transaction h) eqn:En; [by apply no_transaction_true in En|]. cbn [negb mbind option_bind].
  cbn [transaction_depth set_depth undo_stack set_stacks redo_stack].
  destruct (transaction_depth h) as [|[|n]] eqn:Edepth; [done| |done].
  cbn [Nat.eqb Nat.sub]. rewrite Hu, last_snoc. cbn [mbind option_bind].
  destruct (edit_ids (transaction last)) as [|t ts] eqn:Ee; [by rewrite removelast_snoc|].
  rewrite update_top_snoc, last_snoc. cbn [mbind option_bind].
  destruct (group_ok (set_stacks (set_depth h 0) (l ++ [set_last_edit_at now last]) []))
    as (keep & e & merged & Eu & H1 & H2 & Eg); [by destruct l|].
  cbn [undo_stack set_stacks] in Eu.
  exists keep, e, merged. split_and!; [done|exact H1|exact H2| |].
  - rewrite Eg. done.
  - unfold edits. transitivity (flat_map (λ e, edit_ids (transaction e)) (l ++ [set_last_edit_at now last])).
    + rewrite Eu, !flat_map_app. cbn. by rewrite app_nil_r.
    + rewrite !flat_map_app. done.
Qed.

(** C38: Undo and redo are inverse. [pop_redo] after [pop_undo] restores the history;
    undoing everything down to a transaction moves exactly it and the newer ones,
    newest first, and redoing up to the formerly newest one puts them back in
    order; an unknown id changes nothing. ([push_transaction] leaves the redo
    stack as it is, as [push_empty_transaction] does.) *)
Theorem undo_redo_roundtrip h t :
  transaction_depth h = 0%nat → NoDup (ids h) →
  (∀ l e, undo_stack h = l ++ [e] →
     pop_undo h = Some (set_stacks h l (redo_stack h ++ [e]), Some e) ∧
     pop_redo (set_stacks h l (redo_stack h ++ [e])) = Some (h, Some e)) ∧
  (∀ keep e moved z, undo_stack h = keep ++ e :: moved → transaction_id e = t →
     list.last (e :: moved) = Some z →
     let h' := set_stacks h keep (redo_stack h ++ rev (e :: moved)) in
     remove_from_undo_until h t = Some (h', rev (e :: moved)) ∧
     remove_from_redo h' (transaction_id z) = Some (h, e :: moved)) ∧
  (t ∉ map transaction_id (undo_stack h) → remove_from_undo_until h t = Some (h, [])) ∧
  (∀ tr now, push_transaction h tr now
     = Some (set_stacks h (undo_stack h ++ [mk_entry tr now now false]) (redo_stack h))).
Proof.
  intros Hd Hnd. apply no_transaction_true in Hd. unfold pop_undo, pop_redo, remove_from_undo_until,
    remove_from_redo, push_transaction, assert. unfold no_transaction in *.
  cbn [transaction_depth set_stacks]. rewrite Hd. cbn [mbind option_bind]. split_and!.
  - intros l e Hu. rewrite Hu, vec_pop_snoc. split; [done|]. cbn [redo_stack set_stacks undo_stack].
    rewrite vec_pop_snoc, <- Hu. by destruct h.
  - intros keep e moved z Hu Ht Hz. unfold ids in Hnd. rewrite Hu, <- app_assoc in Hnd.
    cbn [app] in Hnd. rewrite Hu. apply has_id_true in Ht.
    destruct (nodup_unique t keep e _ Hnd Ht) as [_ Hm].
    rewrite rposition_at; [|done|intros y Hy; apply Hm, elem_of_app; by left].
    rewrite take_app_length, drop_app_length. split; [done|].
    destruct (rev (e :: moved)) as [|z' m] eqn:Er.
    { apply (f_equal length) in Er. by rewrite length_rev in Er. }
    assert (e :: moved = rev m ++ [z']) as Eem by by rewrite <- (rev_involutive (e :: moved)), Er.
    rewrite Eem, last_snoc in Hz. injection Hz as ->. cbn [redo_stack set_stacks].
    rewrite rposition_at.
    + rewrite take_app_length, drop_app_length. cbn [undo_stack set_stacks].
      rewrite <- Er, rev_involutive, <- Hu. by destruct h.
    + by apply has_id_true.
    + change (keep ++ e :: moved ++ redo_stack h) with (keep ++ (e :: moved) ++ redo_stack h) in Hnd.
      rewrite Eem, app_assoc in Hnd. rewrite map_app in Hnd. apply NoDup_app in Hnd as (Hnd & _).
      rewrite app_assoc in Hnd. destruct (nodup_unique (transaction_id z) (keep ++ rev m) z [] Hnd) as [H _];
        [by apply has_id_true|].
      intros y Hy. apply H, elem_of_app. right. by apply list_elem_of_In, in_rev; rewrite rev_involutive; apply list_elem_of_In.
  - intros Ht. rewrite rposition_none; [done|]. intros e He. apply bool_decide_eq_false. intros E.
    apply Ht. rewrite <- E. by apply list_elem_of_fmap_2.
  - done.
Qed.

(** [forget] takes the transaction with the id out of the stack it is on and
    returns it; [merge_transactions] moves its edits to the end of the
    destination's, and every other entry stays where it was. Merging into itself
    or into an unknown transaction drops the edits. *)
Theorem merge_transactions_correct h t destination :
  transaction_depth h = 0%nat → NoDup (ids h) →
  forget h t = Some (set_stacks h (without t (undo_stack h)) (without t (redo_stack h)), get_transaction h t) ∧
  merge_transactions h t destination = Some
    match get_transaction h t with
    | Some tr =>
        let merge l := change destination (λ d, merge_in d tr) (without t l) in
        set_stacks h (merge (undo_stack h)) (merge (redo_stack h))
    | None => h
    end ∧
  (get_transaction h t = None ↔ t ∉ ids h).
Proof.
  intros Hd Hnd. pose proof (forget_ok h t Hd Hnd) as Hf. split_and!; [done| |].
  - unfold merge_transactions. rewrite Hf. cbn [mbind option_bind].
    destruct (get_transaction h t) as [tr|] eqn:E.
    + by rewrite transaction_mut_ok by by apply without_ids.
    + f_equal. unfold get_transaction, rfind in E.
      destruct (rposition_cases (has_id t) (undo_stack h)) as [[E1 H1]|(l1 & x & l2 & El & E1 & _)];
        rewrite E1 in E; cbn in E; [|by rewrite El, list_lookup_middle in E].
      destruct (rposition_cases (has_id t) (redo_stack h)) as [[E2 H2]|(l1 & x & l2 & El & E2 & _)];
        rewrite E2 in E; cbn in E; [|by rewrite El, list_lookup_middle in E].
      rewrite !without_absent by done. apply set_stacks_same.
  - unfold get_transaction, rfind, ids. rewrite map_app, elem_of_app, !list_elem_of_fmap.
    destruct (rposition_cases (has_id t) (undo_stack h)) as [[E1 H1]|(l1 & x & l2 & El & E1 & Hx & _)].
    + destruct (rposition_cases (has_id t) (redo_stack h)) as [[E2 H2]|(l1 & x & l2 & El & E2 & Hx & _)];
        rewrite E1, E2; cbn.
      * split; [|done]. intros _ [(e & Ee & He)|(e & Ee & He)].
        -- apply H1 in He. symmetry in Ee. apply has_id_true in Ee. congruence.
        -- apply H2 in He. symmetry in Ee. apply has_id_true in Ee. congruence.
      * rewrite El, list_lookup_middle by done. split; [done|]. intros []. right. exists x.
        split; [symmetry; by apply has_id_true|]. apply elem_of_app. right. left.
    + rewrite E1, El. cbn. rewrite list_lookup_middle by done. split; [done|]. intros []. left. exists x.
      split; [symmetry; by apply has_id_true|]. apply elem_of_app. right. left.
Qed.
End contract.

(** ** A concrete history *)
Section example.
Definition at_ (v : Z) : Lamport.t := Lamport.mk v (ReplicaId.mk 0).
Definition entry_at (v first last : Z) (edits : list Z) : HistoryEntry :=
  mk_entry (mk_transaction (at_ v) (map at_ edits) Global.new) first last false.
Definition example : History :=
  mk Rope.new TreeMap.default [entry_at 1 0 10 [2]; entry_at 3 500000000 500000010 [4]; entry_at 5 600000000 600000000 [6; 7]]
    [entry_at 9 0 0 [10]] 1 300000000.
End example.

Lemma history_no_panic_witness :
  run (End_ 5) (new Rope.new, at_ 1) = None ∧
  (∃ s, run (Start Global.new 3) (new Rope.new, at_ 1) = Some s ∧ run Undo s = None ∧ undo_stack s.1 ≠ []).
Proof.
  assert (reachable (new Rope.new, at_ 1)) as H0 by apply reachable_new.
  split; [apply (history_no_panic (End_ 5) (new Rope.new) (at_ 1) H0); left; done|].
  assert (∃ h clock, run (Start Global.new 3) (new Rope.new, at_ 1) = Some (h, clock) ∧ transaction_depth h = 1%nat ∧
    reachable (h, clock)) as (h & clock & E & Hd & Hr).
  { eexists _, _. split; [done|]. split; [done|]. apply (reachable_run (Start Global.new 3) (new Rope.new, at_ 1)); [exact H0|done|].
    cbn. unfold Cursor.stack_capacity. lia. }
  exists (h, clock). destruct (history_no_panic Undo h clock Hr) as [H1 H2].
  split_and!; [done|apply H1; right; rewrite Hd; done|apply H2; by rewrite Hd].
Defined.

Lemma end_transaction_correct_witness :
  ∃ h, end_transaction_at example 600000005 = Some (h, Some (at_ 3, Global.new)) ∧
    map transaction_id (undo_stack h) = [at_ 1; at_ 3] ∧ edits (undo_stack h) = map at_ [2; 4; 6; 7] ∧
    redo_stack h = [].
Proof.
  destruct (end_transaction_correct example [entry_at 1 0 10 [2]; entry_at 3 500000000 500000010 [4]]
    (entry_at 5 600000000 600000000 [6; 7]) 600000005) as (keep & e & merged & H1 & H2 & H3 & H4 & H5);
    [done|done|].
  assert (end_transaction_at example 600000005 = Some (set_depth (set_stacks example
    [entry_at 1 0 10 [2]; entry_at 3 500000000 600000005 [4; 6; 7]] []) 0, Some (at_ 3, Global.new))) as E
    by by vm_compute.
  eexists. split; [exact E|]. rewrite H4 in E. injection E as E1 _. cbn [app] in E1.
  cbn [undo_stack set_depth set_stacks redo_stack]. rewrite <- E1. split_and!; [|by rewrite H5|done].
  rewrite E1. by vm_compute.
Defined.

Lemma undo_redo_roundtrip_witness :
  ∃ h' moved, let h := set_depth example 0 in
    remove_from_undo_until h (at_ 3) = Some (h', moved) ∧ map transaction_id moved = [at_ 5; at_ 3] ∧
    remove_from_redo h' (at_ 5) = Some (h, rev moved).
Proof.
  destruct (undo_redo_roundtrip (set_depth example 0) (at_ 3)) as (_ & H & _);
    [done|by apply (bool_decide_eq_true_1 _); vm_compute|].
  destruct (H [entry_at 1 0 10 [2]] (entry_at 3 500000000 500000010 [4])
    [entry_at 5 600000000 600000000 [6; 7]] (entry_at 5 600000000 600000000 [6; 7])) as [H1 H2]; [done..|].
  eexists _, _. split_and!; [exact H1|done|exact H2].
Defined.

Lemma merge_transactions_correct_witness :
  ∃ h, merge_transactions (set_depth example 0) (at_ 5) (at_ 9) = Some h ∧
    edits (redo_stack h) = map at_ [10; 6; 7] ∧ get_transaction (set_depth example 0) (at_ 8) = None.
Proof.
  assert (transaction_depth (set_depth example 0) = 0%nat) as Hd by done.
  assert (NoDup (ids (set_depth example 0))) as Hnd by by apply (bool_decide_eq_true_1 _); vm_compute.
  destruct (merge_transactions_correct _ (at_ 5) (at_ 9) Hd Hnd) as (_ & H1 & _).
  destruct (merge_transactions_correct _ (at_ 8) (at_ 9) Hd Hnd) as (_ & _ & H2).
  eexists. split_and!; [exact H1|by vm_compute|].
  apply H2. apply (bool_decide_eq_true_1 _). by vm_compute.
Defined.
End History.
