(* ===== verification/Fragments.v ===== *)
(** The fragments of a buffer ([Fragment], [InsertionFragment],
    [InsertionSlice] and their trees in [crates/text/src/text.rs]): pieces of
    insertions in the order of the text, with what was deleted; the builders
    that edits write the new fragments and the new ropes with. *)
From S2P Require Import Prelude Clock Locator SumTree TreeFind Cursor TreeWeight ParTree Iter Keyed TreeMap UndoMap.
From S2P Require Import Rope.

(** ** Fragments *)
Module Fragment.
(** [crates/text/src/text.rs:568-577] Fragment *)
Record t := mk {
  id : Locator.t;
  timestamp : Lamport.t;
  insertion_offset : Z;
  len : Z;
  visible : bool;
  deletions : list Lamport.t;
  max_undos : Global.t;
}.

(** What the edits write to a copy of a fragment. *)
Definition set_id (x : Locator.t) (f : t) : t :=
  mk x (timestamp f) (insertion_offset f) (len f) (visible f) (deletions f) (max_undos f).
Definition set_range (offset n : Z) (f : t) : t :=
  mk (id f) (timestamp f) offset n (visible f) (deletions f) (max_undos f).
Definition set_visible (b : bool) (f : t) : t :=
  mk (id f) (timestamp f) (insertion_offset f) (len f) b (deletions f) (max_undos f).
Definition push_deletion (x : Lamport.t) (f : t) : t :=
  mk (id f) (timestamp f) (insertion_offset f) (len f) (visible f) (deletions f ++ [x]) (max_undos f).
Definition observe_undo (x : Lamport.t) (f : t) : t :=
  mk (id f) (timestamp f) (insertion_offset f) (len f) (visible f) (deletions f) (Global.observe (max_undos f) x).
End Fragment.

(** [crates/text/src/text.rs:588-592] FragmentTextSummary *)
Record FragmentTextSummary := mk_text { visible : Z; deleted : Z }.
(** [crates/text/src/text.rs:579-586] FragmentSummary *)
Record FragmentSummary := mk_fragment_summary {
  text : FragmentTextSummary;
  max_id : Locator.t;
  max_version : Global.t;
  min_insertion_version : Global.t;
  max_insertion_version : Global.t;
}.
(** [crates/text/src/text.rs:3126-3164] Item for Fragment *)
#[export] Instance fragment_item : Item Fragment.t FragmentSummary :=
  { item_summary := λ self,
      let max_version := Global.observe Global.new (Fragment.timestamp self) in
      let max_version := foldl Global.observe max_version (Fragment.deletions self) in
      let max_version := Global.join max_version (Fragment.max_undos self) in
      let min_insertion_version := Global.observe Global.new (Fragment.timestamp self) in
      let max_insertion_version := min_insertion_version in
      mk_fragment_summary
        (if Fragment.visible self then mk_text (Fragment.len self) 0 else mk_text 0 (Fragment.len self))
        (Fragment.id self) max_version min_insertion_version max_insertion_version }.
(** [crates/text/src/text.rs:3166-3195] Summary for FragmentSummary *)
#[export] Instance fragment_summary_summary : Summary FragmentSummary :=
  { zero := mk_fragment_summary (mk_text 0 0) Locator.min Global.new Global.new Global.new;
    add_summary := λ self other,
      mk_fragment_summary
        (mk_text (visible (text self) +w64 visible (text other)) (deleted (text self) +w64 deleted (text other)))
        (Locator.assign (max_id self) (max_id other))
        (Global.join (max_version self) (max_version other))
        (Global.meet (min_insertion_version self) (min_insertion_version other))
        (Global.join (max_insertion_version self) (max_insertion_version other)) }.

(** ** Dimensions *)
(** [crates/text/src/text.rs:594-603] Dimension for FragmentTextSummary *)
#[export] Instance fragment_text_dimension : Dimension FragmentTextSummary FragmentSummary :=
  { dzero := mk_text 0 0;
    dadd := λ self summary,
      mk_text (visible self +w64 visible (text summary)) (deleted self +w64 deleted (text summary)) }.
(** [crates/text/src/text.rs:3269-3277] Dimension for usize *)
#[export] Instance visible_dimension : Dimension Z FragmentSummary :=
  { dzero := 0; dadd := λ self summary, self +w64 visible (text summary) }.
(** [crates/text/src/text.rs:3243-3244] FullOffset *)
Record FullOffset := mk_full { full : Z }.
(** [crates/text/src/text.rs:3279-3287] Dimension for FullOffset *)
#[export] Instance full_offset_dimension : Dimension FullOffset FragmentSummary :=
  { dzero := mk_full 0;
    dadd := λ self summary, mk_full (full self +w64 (visible (text summary) +w64 deleted (text summary))) }.
(** [crates/text/src/text.rs:3289-3297] Dimension for Option *)
#[export] Instance locator_dimension : Dimension (option Locator.t) FragmentSummary :=
  { dzero := None; dadd := λ _ summary, Some (max_id summary) }.
(** [crates/text/src/text.rs:3309-3313] VersionedFullOffset *)
Inductive VersionedFullOffset := Offset (offset : Z) | Invalid.
(** [crates/text/src/text.rs:3316-3322] VersionedFullOffset::full_offset *)
Definition full_offset (v : VersionedFullOffset) : option Z :=
  match v with Offset position => Some position | Invalid => None end.
(** The context is the version of the edit.
    [crates/text/src/text.rs:3331-3346] Dimension for VersionedFullOffset *)
Definition versioned_dimension (version : Global.t) : Dimension VersionedFullOffset FragmentSummary :=
  {| dzero := Offset 0;
     dadd := λ self summary,
       match self with
       | Offset offset =>
           if Global.observed_all version (max_insertion_version summary)
           then Offset (offset +w64 (visible (text summary) +w64 deleted (text summary)))
           else if Global.observed_any version (min_insertion_version summary) then Invalid
           else Offset offset
       | Invalid => Invalid
       end |}.
(** The target is an offset in every seek.
    [crates/text/src/text.rs:3348-3356] SeekTarget for VersionedFullOffset *)
Definition versioned_target (a : Z) (cursor_position : VersionedFullOffset) : comparison :=
  match cursor_position with Offset b => Z.compare a b | Invalid => Lt end.
(** [crates/text/src/text.rs:3299-3307] SeekTarget for usize *)
Definition visible_target (self : Z) (cursor_location : FragmentTextSummary) : comparison :=
  Z.compare self (visible cursor_location).

(** ** Insertions and their slices *)
(** [crates/text/src/text.rs:605-610] InsertionFragment *)
Record InsertionFragment := mk_insertion { if_timestamp : Lamport.t; split_offset : Z; fragment_id : Locator.t }.
(** [crates/text/src/text.rs:612-616] InsertionFragmentKey *)
Record InsertionFragmentKey := mk_key { k_timestamp : Lamport.t; k_split_offset : Z }.
(** The derived [Ord].
    [crates/text/src/text.rs:612-616] Ord for InsertionFragmentKey *)
Definition insertion_key_cmp (a b : InsertionFragmentKey) : comparison :=
  then_with (Lamport.cmp (k_timestamp a) (k_timestamp b)) (Z.compare (k_split_offset a) (k_split_offset b)).
(** [crates/text/src/text.rs:3230-3241] Summary for InsertionFragmentKey *)
#[export] Instance insertion_key_summary : Summary InsertionFragmentKey :=
  { zero := mk_key Lamport.MIN 0; add_summary := λ _ summary, summary }.
(** [crates/text/src/text.rs:3197-3206] Item for InsertionFragment *)
#[export] Instance insertion_item : Item InsertionFragment InsertionFragmentKey :=
  { item_summary := λ self, mk_key (if_timestamp self) (split_offset self) }.
(** [crates/text/src/text.rs:3208-3214] KeyedItem for InsertionFragment *)
#[export] Instance insertion_keyed : KeyedItem InsertionFragment InsertionFragmentKey InsertionFragmentKey :=
  { key := λ self, mk_key (if_timestamp self) (split_offset self); kcmp := insertion_key_cmp }.
(** [crates/text/src/text.rs:3217-3223] InsertionFragment::new *)
Definition insertion_new (fragment : Fragment.t) : InsertionFragment :=
  mk_insertion (Fragment.timestamp fragment) (Fragment.insertion_offset fragment) (Fragment.id fragment).
(** [crates/text/src/text.rs:3225-3227] InsertionFragment::insert_new *)
Definition insert_new (fragment : Fragment.t) : Keyed.edit InsertionFragment InsertionFragmentKey :=
  Keyed.Insert (insertion_new fragment).

(** [crates/text/src/text.rs:162-172] InsertionSlice *)
Record InsertionSlice := mk_slice {
  edit_id_value : Z;
  edit_id_replica_id : ReplicaId.t;
  insertion_id_value : Z;
  insertion_id_replica_id : ReplicaId.t;
  range_start : Z;
  range_end : Z;
}.
Definition slice_edit_id (s : InsertionSlice) : Lamport.t := Lamport.mk (edit_id_value s) (edit_id_replica_id s).
Definition slice_insertion_id (s : InsertionSlice) : Lamport.t :=
  Lamport.mk (insertion_id_value s) (insertion_id_replica_id s).
(** [crates/text/src/text.rs:174-197] Ord for InsertionSlice *)
Definition slice_cmp (self other : InsertionSlice) : comparison :=
  then_with (Lamport.cmp (slice_edit_id self) (slice_edit_id other))
    (then_with (Lamport.cmp (slice_insertion_id self) (slice_insertion_id other))
       (then_with (Z.compare (range_start self) (range_start other)) (Z.compare (range_end self) (range_end other)))).
Lemma pair_cmp_total {A B} (ca : A → A → comparison) (cb : B → B → comparison) :
  TotalCmp ca → TotalCmp cb → TotalCmp (λ x y : A * B, then_with (ca x.1 y.1) (cb x.2 y.2)).
Proof. intros Ha Hb. apply (then_with_total fst snd ca cb Ha Hb). intros [] []. cbn. congruence. Qed.
#[export] Instance slice_cmp_total : TotalCmp slice_cmp.
Proof.
  apply (then_with_total slice_edit_id (λ s, (slice_insertion_id s, (range_start s, range_end s))) Lamport.cmp
    (λ x y, then_with (Lamport.cmp x.1 y.1) (then_with (Z.compare x.2.1 y.2.1) (Z.compare x.2.2 y.2.2)))).
  - apply _.
  - apply (pair_cmp_total Lamport.cmp (λ x y, then_with (Z.compare x.1 y.1) (Z.compare x.2 y.2))); [apply _|].
    apply pair_cmp_total; apply _.
  - intros [] []. unfold slice_edit_id, slice_insertion_id. cbn. congruence.
Qed.
#[export] Instance locator_ord : Ord Locator.t := { compare := Locator.cmp }.
#[export] Instance slice_ord : Ord InsertionSlice := { compare := slice_cmp }.
#[export] Instance insertion_key_cmp_total : TotalCmp insertion_key_cmp.
Proof.
  apply (then_with_total k_timestamp k_split_offset Lamport.cmp Z.compare); [apply _..|].
  intros [] []. cbn. congruence.
Qed.
(** [crates/text/src/text.rs:206-214] InsertionSlice::from_fragment *)
Definition from_fragment (edit_id : Lamport.t) (fragment : Fragment.t) : InsertionSlice :=
  mk_slice (Lamport.value edit_id) (Lamport.replica_id edit_id)
    (Lamport.value (Fragment.timestamp fragment)) (Lamport.replica_id (Fragment.timestamp fragment))
    (Fragment.insertion_offset fragment) (Fragment.insertion_offset fragment +w32 Fragment.len fragment).

(** ** Visibility *)
(** One more iteration than the map has entries. *)
Definition undo_fuel (undos : UndoMap.UndoMap) : nat := S (length (SumTree.contents undos)).
(** [Iterator::all] *)
Fixpoint all_deletions (p : Lamport.t → option bool) (l : list Lamport.t) : option bool :=
  match l with
  | [] => Some true
  | x :: l => b ← p x; if (b : bool) then all_deletions p l else Some false
  end.
(** [crates/text/src/text.rs:3113-3115] Fragment::is_visible *)
Definition is_visible (self : Fragment.t) (undos : UndoMap.UndoMap) : option bool :=
  undone ← UndoMap.is_undone (undo_fuel undos) undos (Fragment.timestamp self);
  if (undone : bool) then Some false
  else all_deletions (UndoMap.is_undone (undo_fuel undos) undos) (Fragment.deletions self).
(** [crates/text/src/text.rs:3117-3123] Fragment::was_visible *)
Definition was_visible (self : Fragment.t) (version : Global.t) (undos : UndoMap.UndoMap) : option bool :=
  if Global.observed version (Fragment.timestamp self) then
    undone ← UndoMap.was_undone (undo_fuel undos) undos (Fragment.timestamp self) version;
    if (undone : bool) then Some false
    else
      all_deletions (λ d,
        if negb (Global.observed version d) then Some true
        else UndoMap.was_undone (undo_fuel undos) undos d version) (Fragment.deletions self)
  else Some false.

(** ** The builders *)
Abbreviation fragment_tree := (SumTree.node Fragment.t FragmentSummary).
Module FragmentBuilder.
(** [crates/text/src/text.rs:2894-2897] FragmentChunk *)
Inductive chunk := Tree (tree : fragment_tree) | Loose (fragments : list Fragment.t).
(** [crates/text/src/text.rs:2899-2902] FragmentBuilder *)
Record t := mk { chunks : list chunk; summary : FragmentSummary }.

(** [crates/text/src/text.rs:2905-2912] FragmentBuilder::new *)
Definition new (init : fragment_tree) : t :=
  mk (if SumTree.is_empty init then [] else [Tree init]) (SumTree.summary init).
(** [crates/text/src/text.rs:2913-2918] FragmentBuilder::append *)
Definition append (self : t) (items : fragment_tree) : t :=
  if SumTree.is_empty items then self
  else mk (chunks self ++ [Tree items]) (add_summary (summary self) (SumTree.summary items)).
(** [crates/text/src/text.rs:2919-2926] FragmentBuilder::push *)
Definition push (self : t) (fragment : Fragment.t) : t :=
  mk (match list.last (chunks self) with
      | Some (Loose fragments) => removelast (chunks self) ++ [Loose (fragments ++ [fragment])]
      | _ => chunks self ++ [Loose [fragment]]
      end)
     (add_summary (summary self) (item_summary fragment)).
(** [crates/text/src/text.rs:2927-2946] FragmentBuilder::to_sum_tree *)
Definition to_sum_tree (self : t) : option fragment_tree :=
  foldl (λ tree chunk,
      tree ← tree;
      match chunk with
      | Tree subtree => SumTree.append tree subtree
      | Loose fragments =>
          if Nat.ltb 1024 (length fragments)
          then subtree ← ParTree.from_par_iter fragments; SumTree.append tree subtree
          else subtree ← SumTree.from_iter fragments; SumTree.append tree subtree
      end) (Some SumTree.new) (chunks self).
End FragmentBuilder.

Module RopeBuilder.
(** [crates/text/src/text.rs:2952-2957] RopeBuilder *)
Record t := mk {
  old_visible_cursor : Rope.cursor;
  old_deleted_cursor : Rope.cursor;
  new_visible : Rope.t;
  new_deleted : Rope.t;
}.
(** [crates/text/src/text.rs:2960-2967] RopeBuilder::new *)
Definition new (old_visible_cursor old_deleted_cursor : Rope.cursor) : t :=
  mk old_visible_cursor old_deleted_cursor Rope.new Rope.new.
(** [crates/text/src/text.rs:2979-2992] RopeBuilder::push *)
Definition push (self : t) (len : Z) (was_visible is_visible : bool) : option t :=
  '(visible_cursor, deleted_cursor, text) ←
    (if was_visible then
       '(c, text) ← Rope.cursor_slice (old_visible_cursor self) (Rope.cursor_offset (old_visible_cursor self) +w64 len);
       Some (c, old_deleted_cursor self, text)
     else
       '(c, text) ← Rope.cursor_slice (old_deleted_cursor self) (Rope.cursor_offset (old_deleted_cursor self) +w64 len);
       Some (old_visible_cursor self, c, text));
  if is_visible then
    new_visible ← Rope.append (new_visible self) text;
    Some (mk visible_cursor deleted_cursor new_visible (new_deleted self))
  else
    new_deleted ← Rope.append (new_deleted self) text;
    Some (mk visible_cursor deleted_cursor (new_visible self) new_deleted).
(** [crates/text/src/text.rs:2969-2972] RopeBuilder::append *)
Definition append (self : t) (len : FragmentTextSummary) : option t :=
  self ← push self (visible len) true true;
  push self (deleted len) false false.
(** [crates/text/src/text.rs:2974-2977] RopeBuilder::push_fragment *)
Definition push_fragment (self : t) (fragment : Fragment.t) (was_visible : bool) : option t :=
  push self (Fragment.len fragment) was_visible (Fragment.visible fragment).
(** [crates/text/src/text.rs:2994-2996] RopeBuilder::push_str *)
Definition push_str (self : t) (text : list Z) : option t :=
  new_visible ← Rope.push (new_visible self) text;
  Some (mk (old_visible_cursor self) (old_deleted_cursor self) new_visible (new_deleted self)).
(** [crates/text/src/text.rs:2998-3002] RopeBuilder::finish *)
Definition finish (self : t) : option (Rope.t * Rope.t) :=
  visible ← Rope.cursor_suffix (old_visible_cursor self);
  new_visible ← Rope.append (new_visible self) visible;
  deleted ← Rope.cursor_suffix (old_deleted_cursor self);
  new_deleted ← Rope.append (new_deleted self) deleted;
  Some (new_visible, new_deleted).
End RopeBuilder.
