(* ===== verification/Buffer.v ===== *)
(** The buffer ([Buffer] and [BufferSnapshot] in [crates/text/src/text.rs]): a
    text that replicas edit concurrently, as fragments of insertions, with the
    operations that make, exchange and apply edits and undos. Futures that wait
    for operations are left out; so are the tasks that are woken up. *)
From S2P Require Import Prelude Clock Locator Patch Subscription SumTree TreeFind Cursor TreeWeight ParTree Iter Keyed TreeMap.
From S2P Require Import UndoMap OperationQueue Utf8 Rope History Fragments.

Module Buffer.
(** [crates/text/src/text.rs:3577-3581] LineEnding *)
Inductive LineEnding := Unix | Windows.

(** [crates/text/src/text.rs:112-124] BufferSnapshot *)
Record BufferSnapshot := mk_snapshot {
  visible_text : Rope.t;
  deleted_text : Rope.t;
  fragments : fragment_tree;
  insertions : SumTree.node InsertionFragment InsertionFragmentKey;
  insertion_slices : TreeMap.TreeSet InsertionSlice;
  undo_map : UndoMap.UndoMap;
  version : Global.t;
  remote_id : Z;
  replica_id : ReplicaId.t;
  line_ending : LineEnding;
}.
(** [crates/text/src/text.rs:55-55] MAX_INSERTION_LEN *)
Definition MAX_INSERTION_LEN : Z := u32_MAX.

(** ** The variables of an edit
    Both ways to apply an edit walk over the old fragments and write new ones;
    [fragment_start] is how far the current old fragment was consumed. *)
Section edit.
Context {D : Type} `{!Dimension D FragmentSummary}.
Record edit_state := mk_state {
  old_fragments : Cursor.t Fragment.t FragmentSummary D;
  fragment_start : Z;
  new_fragments : FragmentBuilder.t;
  new_ropes : RopeBuilder.t;
  new_insertions : list (Keyed.edit InsertionFragment InsertionFragmentKey);
  slices : list InsertionSlice;
  insertion_offset : Z;
  edits_patch : Patch.t;
}.
Definition set_old (c : Cursor.t Fragment.t FragmentSummary D) (st : edit_state) : edit_state :=
  mk_state c (fragment_start st) (new_fragments st) (new_ropes st) (new_insertions st) (slices st)
    (insertion_offset st) (edits_patch st).
Definition set_start (n : Z) (st : edit_state) : edit_state :=
  mk_state (old_fragments st) n (new_fragments st) (new_ropes st) (new_insertions st) (slices st)
    (insertion_offset st) (edits_patch st).
Definition push_slice (s : InsertionSlice) (st : edit_state) : edit_state :=
  mk_state (old_fragments st) (fragment_start st) (new_fragments st) (new_ropes st) (new_insertions st) (slices st ++ [s])
    (insertion_offset st) (edits_patch st).
Definition push_edit (e : Edit.t) (st : edit_state) : edit_state :=
  mk_state (old_fragments st) (fragment_start st) (new_fragments st) (new_ropes st) (new_insertions st) (slices st)
    (insertion_offset st) (Patch.push (edits_patch st) e).
(** Where the new text has got to. *)
Definition new_start (st : edit_state) : Z := visible (text (FragmentBuilder.summary (new_fragments st))).
(** The identifier that the next fragment has to follow. *)
Definition new_max_id (st : edit_state) : Locator.t := max_id (FragmentBuilder.summary (new_fragments st)).
(** [new_ropes.push_fragment], [new_fragments.push] *)
Definition push_fragment (f : Fragment.t) (was_visible : bool) (st : edit_state) : option edit_state :=
  ropes ← RopeBuilder.push_fragment (new_ropes st) f was_visible;
  Some (mk_state (old_fragments st) (fragment_start st) (FragmentBuilder.push (new_fragments st) f) ropes
    (new_insertions st) (slices st) (insertion_offset st) (edits_patch st)).
(** The same after [new_insertions.push]. *)
Definition emit (f : Fragment.t) (was_visible : bool) (st : edit_state) : option edit_state :=
  push_fragment f was_visible
    (mk_state (old_fragments st) (fragment_start st) (new_fragments st) (new_ropes st) (new_insertions st ++ [insert_new f])
       (slices st) (insertion_offset st) (edits_patch st)).
(** [item().unwrap()] *)
Definition current (st : edit_state) : option Fragment.t := f ← Cursor.item (old_fragments st); f.

(** The position of a fragment in the unit of the ranges; [None] is a panic. *)
Variable pos : D → option Z.
Definition current_start (st : edit_state) : option Z := pos (Cursor.start (old_fragments st)).
Definition current_end (st : edit_state) : option Z := e ← Cursor.end_ (old_fragments st); pos e.
(** The current fragment from [fragment_start] up to [stop]. *)
Definition part (stop : Z) (st : edit_state) (f : Fragment.t) : option Fragment.t :=
  start ← current_start st;
  Some (Fragment.set_range (Fragment.insertion_offset f +w32 wrap32 (fragment_start st -w64 start))
          (wrap32 (stop -w64 fragment_start st)) f).
(** [crates/text/src/text.rs:995-1001] Buffer::apply_remote_edit *)
Definition push_suffix (fragment_end : Z) (st : edit_state) : option edit_state :=
  f ← current st;
  suffix ← part fragment_end st f;
  emit suffix (Fragment.visible suffix) st.
(** [old_fragments.next()] *)
Definition advance (st : edit_state) : option edit_state :=
  c ← Cursor.next (old_fragments st); Some (set_old c st).
(** If the current fragment has been partially consumed, then consume the rest.
    [crates/text/src/text.rs:1124-1136] Buffer::apply_remote_edit *)
Definition finish_fragment (st : edit_state) : option edit_state :=
  start ← current_start st;
  if start <? fragment_start st then
    fragment_end ← current_end st;
    st ← (if fragment_start st <? fragment_end then push_suffix fragment_end st else Some st);
    advance st
  else Some st.
(** Reusing the fragments before the start of a range.
    [crates/text/src/text.rs:1006-1010] Buffer::apply_remote_edit *)
Definition reuse (target : D → comparison) (b : bias) (st : edit_state) : option edit_state :=
  '(c, slice) ← Cursor.slice target b (old_fragments st);
  ropes ← RopeBuilder.append (new_ropes st) (text (SumTree.summary slice));
  start ← pos (Cursor.start c);
  Some (mk_state c start (FragmentBuilder.append (new_fragments st) slice) ropes (new_insertions st) (slices st)
    (insertion_offset st) (edits_patch st)).
(** [crates/text/src/text.rs:986-1011] Buffer::apply_remote_edit *)
Definition jump_ahead (target : D → comparison) (b : bias) (range_start : Z) (st : edit_state) : option edit_state :=
  fragment_end ← current_end st;
  if fragment_end <? range_start then
    st ← finish_fragment st;
    reuse target b st
  else Some st.
(** The part of the current fragment that precedes the range.
    [crates/text/src/text.rs:1042-1052] Buffer::apply_remote_edit *)
Definition push_prefix (range_start : Z) (st : edit_state) : option edit_state :=
  if fragment_start st <? range_start then
    f ← current st;
    prefix ← part range_start st f;
    st ← (let prefix := Fragment.set_id (Locator.between (new_max_id st) (Fragment.id prefix)) prefix in
          emit prefix (Fragment.visible prefix) st);
    Some (set_start range_start st)
  else Some st.

(** The loop over the pieces of an insertion, on [text_offset] and the state.
    [crates/text/src/text.rs:1876-1903] push_fragments_for_insertion *)
Definition insertion_step (new_text : list Z) (timestamp : Lamport.t) (next_fragment_id : Locator.t)
    (loop : Z * edit_state) : option (Z * edit_state + edit_state) :=
  let '(text_offset, st) := loop in
  if text_offset <? Utf8.len new_text then
    let target_end := Z.min (Utf8.len new_text) (text_offset +w64 MAX_INSERTION_LEN) in
    let chunk_end := if target_end =? Utf8.len new_text then target_end
                     else Utf8.floor_char_boundary new_text target_end in
    if chunk_end =? text_offset then Some (inr st)
    else
      let chunk_len := chunk_end -w64 text_offset in
      let fragment := Fragment.mk (Locator.between (new_max_id st) next_fragment_id) timestamp (insertion_offset st)
                        (wrap32 chunk_len) true [] Global.new in
      Some (inl (chunk_end,
        mk_state (old_fragments st) (fragment_start st) (FragmentBuilder.push (new_fragments st) fragment) (new_ropes st)
          (new_insertions st ++ [insert_new fragment]) (slices st ++ [from_fragment timestamp fragment])
          (insertion_offset st +w32 wrap32 chunk_len) (edits_patch st)))
  else Some (inr st).
(** [crates/text/src/text.rs:1864-1905] push_fragments_for_insertion *)
Definition push_fragments_for_insertion (new_text : list Z) (timestamp : Lamport.t) (next_fragment_id : Locator.t)
    (st : edit_state) : option edit_state :=
  st ← iterate (insertion_step new_text timestamp next_fragment_id) (S (length new_text)) (0, st);
  ropes ← RopeBuilder.push_str (new_ropes st) new_text;
  Some (mk_state (old_fragments st) (fragment_start st) (new_fragments st) ropes (new_insertions st) (slices st)
    (insertion_offset st) (edits_patch st)).
(** The new text goes before the current fragment; [old_start] is where that is in the old text.
    [crates/text/src/text.rs:1983-2004] BufferSnapshot::apply_edit_internal *)
Definition insert_text (new_text : list Z) (timestamp : Lamport.t) (old_start : Z) (st : edit_state) : option edit_state :=
  let start := new_start st in
  item ← Cursor.item (old_fragments st);
  let next_fragment_id := match item with Some f => Fragment.id f | None => Locator.max end in
  st ← push_fragments_for_insertion new_text timestamp next_fragment_id st;
  Some (push_edit (Edit.mk old_start old_start start (start +w64 Utf8.len new_text)) st).
End edit.
Arguments edit_state : clear implicits.

(** ** Local edits *)
Section local.
(** [Regex::replace_all] of the line separators by newlines: the new text, if
    there was anything to replace. *)
Variable replace_all : list Z → option (list Z).
(** [crates/text/src/text.rs:3631-3637] LineEnding::normalize_arc *)
Definition normalize_arc (text : list Z) : list Z :=
  match replace_all text with Some replaced => replaced | None => text end.

Abbreviation state := (edit_state FragmentTextSummary).
(** Positions in the visible text. *)
Definition visible_pos (d : FragmentTextSummary) : option Z := Some (visible d).

(** One iteration of the loop that deletes what intersects the range.
    [crates/text/src/text.rs:2006-2038] BufferSnapshot::apply_edit_internal *)
Definition local_delete_step (timestamp : Lamport.t) (range_end : Z) (st : state) : option (state + state) :=
  if fragment_start st <? range_end then
    fragment ← current st;
    fragment_end ← current_end visible_pos st;
    let intersection_end := Z.min range_end fragment_end in
    intersection ←
      (if Fragment.visible fragment then
         f ← part visible_pos intersection_end st fragment;
         let f := Fragment.set_id (Locator.between (new_max_id st) (Fragment.id f)) f in
         Some (Fragment.set_visible false (Fragment.push_deletion timestamp f))
       else Some fragment);
    st ←
      (if 0 <? Fragment.len intersection then
         let st :=
           if Fragment.visible fragment && negb (Fragment.visible intersection) then
             push_slice (from_fragment timestamp intersection)
               (push_edit (Edit.mk (fragment_start st) intersection_end (new_start st) (new_start st)) st)
           else st in
         st ← emit intersection (Fragment.visible fragment) st;
         Some (set_start intersection_end st)
       else Some st);
    st ← (if fragment_end <=? range_end then advance st else Some st);
    Some (inl st)
  else Some (inr st).

(** The iterations: one for each fragment that is left, one for a part of the
    last one, one to leave. *)
Definition delete_fuel (tree : fragment_tree) : nat := S (S (S (length (SumTree.contents tree)))).

(** One edit: the state, the range in the full text, and the new text.
    [crates/text/src/text.rs:1946-2043] BufferSnapshot::apply_edit_internal *)
Definition local_edit (tree : fragment_tree) (timestamp : Lamport.t) (edit : (Z * Z) * list Z) (st : state) :
    option (state * (Z * Z) * list Z) :=
  let '((range_start, range_end), new_text) := edit in
  let new_text := normalize_arc new_text in
  st ← jump_ahead visible_pos (visible_target range_start) Right range_start st;
  let full_range_start := range_start +w64 deleted (Cursor.start (old_fragments st)) in
  st ← push_prefix visible_pos range_start st;
  st ← (if Utf8.len new_text =? 0 then Some st else insert_text new_text timestamp (fragment_start st) st);
  st ← iterate (local_delete_step timestamp range_end) (delete_fuel tree) st;
  let full_range_end := range_end +w64 deleted (Cursor.start (old_fragments st)) in
  Some (st, (full_range_start, full_range_end), new_text).
Fixpoint local_edits (tree : fragment_tree) (timestamp : Lamport.t) (edits : list ((Z * Z) * list Z)) (st : state) :
    option (state * list (Z * Z) * list (list Z)) :=
  match edits with
  | [] => Some (st, [], [])
  | edit :: edits =>
      '(st, range, new_text) ← local_edit tree timestamp edit st;
      '(st, ranges, new_texts) ← local_edits tree timestamp edits st;
      Some (st, range :: ranges, new_text :: new_texts)
  end.

(** The rest of the old fragments, and the new trees.
    [crates/text/src/text.rs:2045-2069] BufferSnapshot::apply_edit_internal *)
Definition finish_edit {D} `{!Dimension D FragmentSummary} (pos : D → option Z) (self : BufferSnapshot)
    (st : edit_state D) : option BufferSnapshot :=
  st ← finish_fragment pos st;
  '(_, suffix) ← Cursor.suffix (old_fragments st);
  ropes ← RopeBuilder.append (new_ropes st) (text (SumTree.summary suffix));
  let new_fragments := FragmentBuilder.append (new_fragments st) suffix in
  '(visible_text, deleted_text) ← RopeBuilder.finish ropes;
  fragments ← FragmentBuilder.to_sum_tree new_fragments;
  '(insertions, _) ← Keyed.edit_tree (insertions self) (new_insertions st);
  insertion_slices ← TreeMap.set_extend (insertion_slices self) (slices st);
  Some (mk_snapshot visible_text deleted_text fragments insertions insertion_slices (undo_map self) (version self)
    (remote_id self) (replica_id self) (line_ending self)).

(** The state before the first range.
    [crates/text/src/text.rs:1938-1945] BufferSnapshot::apply_edit_internal *)
Definition start_edit {D} `{!Dimension D FragmentSummary} (pos : D → option Z) (self : BufferSnapshot)
    (target : D → comparison) (b : bias) : option (edit_state D) :=
  visible_cursor ← Rope.cursor_at (visible_text self) 0;
  deleted_cursor ← Rope.cursor_at (deleted_text self) 0;
  '(c, slice) ← Cursor.slice target b (Cursor.new (fragments self));
  let new_fragments := FragmentBuilder.new slice in
  ropes ← RopeBuilder.append (RopeBuilder.new visible_cursor deleted_cursor)
            (text (FragmentBuilder.summary new_fragments));
  start ← pos (Cursor.start c);
  Some (mk_state c start new_fragments ropes [] [] 0 []).

(** [crates/text/src/text.rs:1916-2070] BufferSnapshot::apply_edit_internal *)
Definition apply_edit_internal (self : BufferSnapshot) (edits : list ((Z * Z) * list Z)) (timestamp : Lamport.t) :
    option (BufferSnapshot * EditOperation * Patch.t) :=
  match edits with
  | [] => Some (self, mk_edit_op timestamp (version self) [] [], [])
  | ((first_start, _), _) :: _ =>
      st ← start_edit visible_pos self (visible_target first_start) Right;
      '(st, ranges, new_text) ← local_edits (fragments self) timestamp edits st;
      snapshot ← finish_edit visible_pos self st;
      Some (snapshot, mk_edit_op timestamp (version self) ranges new_text, edits_patch st)
  end.
End local.

(** ** Remote edits *)
Section remote.
(** The version that the edit was made at. *)
Variable version : Global.t.
#[local] Instance versioned_offset_dimension : Dimension VersionedFullOffset FragmentSummary := versioned_dimension version.
Abbreviation state := (edit_state (VersionedFullOffset * Z)).
(** Positions in the text with deletions at that version. *)
Definition versioned_pos (d : VersionedFullOffset * Z) : option Z := full_offset d.1.

(** The end of a fragment that the edit comes after.
    [crates/text/src/text.rs:1013-1025] Buffer::apply_remote_edit *)
Definition pass_boundary (range_start : Z) (st : state) : option state :=
  fragment_end ← current_end versioned_pos st;
  if (fragment_end =? range_start) && (fragment_start st <? fragment_end) then
    st ← push_suffix versioned_pos fragment_end st;
    st ← advance st;
    start ← current_start versioned_pos st;
    Some (set_start start st)
  else Some st.
(** Insertions that are concurrent to this edit, but have a higher timestamp.
    [crates/text/src/text.rs:1029-1038] Buffer::apply_remote_edit *)
Definition skip_step (timestamp : Lamport.t) (range_start : Z) (st : state) : option (state + state) :=
  item ← Cursor.item (old_fragments st);
  match item with
  | Some fragment =>
      if (fragment_start st =? range_start) && is_gt (Lamport.cmp (Fragment.timestamp fragment) timestamp) then
        st ← push_fragment fragment (Fragment.visible fragment) st;
        st ← advance st;
        Some (inl st)
      else Some (inr st)
  | None => Some (inr st)
  end.
(** Where the new text goes, in the old visible text.
    [crates/text/src/text.rs:1056-1059] Buffer::apply_remote_edit *)
Definition remote_old_start (st : state) : option Z :=
  item ← Cursor.item (old_fragments st);
  let old_start := (Cursor.start (old_fragments st)).2 in
  if match item with Some f => Fragment.visible f | None => false end then
    start ← current_start versioned_pos st;
    Some (old_start +w64 (fragment_start st -w64 start))
  else Some old_start.
(** [crates/text/src/text.rs:1083-1119] Buffer::apply_remote_edit *)
Definition remote_delete_step (undos : UndoMap.UndoMap) (timestamp : Lamport.t) (range_end : Z) (st : state) :
    option (state + state) :=
  if fragment_start st <? range_end then
    fragment ← current st;
    fragment_end ← current_end versioned_pos st;
    let intersection_end := Z.min range_end fragment_end in
    '(intersection, st) ←
      (if Global.observed version (Fragment.timestamp fragment) then
         f ← part versioned_pos intersection_end st fragment;
         let f := Fragment.set_id (Locator.between (new_max_id st) (Fragment.id f)) f in
         was_visible ← was_visible fragment version undos;
         if (was_visible : bool) then
           let f := Fragment.set_visible false (Fragment.push_deletion timestamp f) in
           Some (f, push_slice (from_fragment timestamp f) st)
         else Some (f, st)
       else Some (fragment, st));
    st ←
      (if 0 <? Fragment.len intersection then
         st ←
           (if Fragment.visible fragment && negb (Fragment.visible intersection) then
              start ← current_start versioned_pos st;
              let old_start := (Cursor.start (old_fragments st)).2 +w64 (fragment_start st -w64 start) in
              Some (push_edit (Edit.mk old_start (old_start +w64 Fragment.len intersection) (new_start st) (new_start st)) st)
            else Some st);
         st ← emit intersection (Fragment.visible fragment) st;
         Some (set_start intersection_end st)
       else Some st);
    st ← (if fragment_end <=? range_end then advance st else Some st);
    Some (inl st)
  else Some (inr st).

(** [crates/text/src/text.rs:985-1120] Buffer::apply_remote_edit *)
Definition remote_edit (self : BufferSnapshot) (timestamp : Lamport.t) (edit : (Z * Z) * list Z) (st : state) :
    option state :=
  let '((range_start, range_end), new_text) := edit in
  st ← jump_ahead versioned_pos (λ d, versioned_target range_start d.1) Left range_start st;
  st ← pass_boundary range_start st;
  st ← iterate (skip_step timestamp range_start) (delete_fuel (fragments self)) st;
  st ← push_prefix versioned_pos range_start st;
  st ← (if Utf8.len new_text =? 0 then Some st
        else old_start ← remote_old_start st; insert_text new_text timestamp old_start st);
  iterate (remote_delete_step (undo_map self) timestamp range_end) (delete_fuel (fragments self)) st.
Fixpoint remote_edits (self : BufferSnapshot) (timestamp : Lamport.t) (edits : list ((Z * Z) * list Z)) (st : state) :
    option state :=
  match edits with
  | [] => Some st
  | edit :: edits => st ← remote_edit self timestamp edit st; remote_edits self timestamp edits st
  end.
(** The snapshot and the patch that is published.
    [crates/text/src/text.rs:957-1150] Buffer::apply_remote_edit *)
Definition apply_remote_edit (self : BufferSnapshot) (ranges : list (Z * Z)) (new_text : list (list Z))
    (timestamp : Lamport.t) : option (BufferSnapshot * Patch.t) :=
  match ranges with
  | [] => Some (self, [])
  | (first_start, _) :: _ =>
      st ← start_edit versioned_pos self (λ d, versioned_target first_start d.1) Left;
      st ← remote_edits self timestamp (zip ranges new_text) st;
      snapshot ← finish_edit versioned_pos self st;
      Some (snapshot, edits_patch st)
  end.
End remote.

(** ** Undo *)
(** The order of the insertion slices: by insertion, start, and the larger one first. *)
Definition slice_key_le (a b : InsertionSlice) : bool :=
  is_le (then_with (Lamport.cmp (slice_insertion_id a) (slice_insertion_id b))
           (then_with (Z.compare (range_start a) (range_start b)) (Z.compare (range_end b) (range_end a)))).
(** [sort_unstable_by_key], [sort_unstable]: the order of equal keys is not specified. *)
Fixpoint insert_by {A} (le : A → A → bool) (x : A) (l : list A) : list A :=
  match l with
  | [] => [x]
  | y :: l' => if le x y then x :: l else y :: insert_by le x l'
  end.
Definition sort_by {A} (le : A → A → bool) (l : list A) : list A := foldr (insert_by le) [] l.
(** [Iterator::take_while] *)
Fixpoint take_while {A} (p : A → bool) (l : list A) : list A :=
  match l with
  | [] => []
  | x :: l => if p x then x :: take_while p l else []
  end.
(** The insertion slices changed by the edits.
    [crates/text/src/text.rs:1157-1177] Buffer::fragment_ids_for_edits *)
Fixpoint slices_for_edits (self : BufferSnapshot) (edit_ids : list Lamport.t) : option (list InsertionSlice) :=
  match edit_ids with
  | [] => Some []
  | edit_id :: edit_ids =>
      let insertion_slice := mk_slice (Lamport.value edit_id) (Lamport.replica_id edit_id)
        (Lamport.value Lamport.MIN) (Lamport.replica_id Lamport.MIN) 0 0 in
      from ← TreeMap.set_iter_from (S (length (SumTree.contents (insertion_slices self)))) (insertion_slices self) insertion_slice;
      rest ← slices_for_edits self edit_ids;
      Some (take_while (λ slice, bool_decide (slice_edit_id slice = edit_id)) from ++ rest)
  end.
Abbreviation insertion_cursor := (Cursor.t InsertionFragment InsertionFragmentKey InsertionFragmentKey).
(** The fragments of one slice, from the cursor on.
    [crates/text/src/text.rs:1208-1215] Buffer::fragment_ids_for_edits *)
Definition collect_step (insertion_slice : InsertionSlice) (st : insertion_cursor * list Locator.t) :
    option (insertion_cursor * list Locator.t + insertion_cursor * list Locator.t) :=
  let '(cursor, fragment_ids) := st in
  item ← Cursor.item cursor;
  match item with
  | Some item =>
      if negb (bool_decide (if_timestamp item = slice_insertion_id insertion_slice))
         || (range_end insertion_slice <=? split_offset item)
      then Some (inr st)
      else cursor ← Cursor.next cursor; Some (inl (cursor, fragment_ids ++ [fragment_id item]))
  | None => Some (inr st)
  end.
(** [crates/text/src/text.rs:1193-1215] Buffer::fragment_ids_for_edits *)
Definition collect_slice (fuel : nat) (st : insertion_cursor * list Locator.t) (insertion_slice : InsertionSlice) :
    option (insertion_cursor * list Locator.t) :=
  let '(cursor, fragment_ids) := st in
  let insertion_id := slice_insertion_id insertion_slice in
  cursor ←
    (if negb (bool_decide (insertion_id = k_timestamp (Cursor.start cursor)))
        || (k_split_offset (Cursor.start cursor) <? range_start insertion_slice)
     then '(cursor, _) ← Cursor.seek_forward (insertion_key_cmp (mk_key insertion_id (range_start insertion_slice))) Left cursor;
          Some cursor
     else Some cursor);
  iterate (collect_step insertion_slice) fuel (cursor, fragment_ids).
(** [crates/text/src/text.rs:1152-1219] Buffer::fragment_ids_for_edits *)
Definition fragment_ids_for_edits (self : BufferSnapshot) (edit_ids : list Lamport.t) : option (list Locator.t) :=
  slices ← slices_for_edits self edit_ids;
  let slices := sort_by slice_key_le slices in
  let fuel := S (length (SumTree.contents (insertions self))) in
  '(_, fragment_ids) ← foldl (λ st slice, st ← st; collect_slice fuel st slice) (Some (Cursor.new (insertions self), [])) slices;
  Some (sort_by (λ a b, is_le (Locator.cmp a b)) fragment_ids).

(** The old fragments, the new ones, the ropes and the patch. *)
Record undo_state := mk_undo_state {
  u_old : Cursor.t Fragment.t FragmentSummary (option Locator.t * Z);
  u_new : fragment_tree;
  u_ropes : RopeBuilder.t;
  u_edits : Patch.t;
}.
(** [crates/text/src/text.rs:1233-1261] Buffer::apply_undo *)
Definition undo_fragment (undos : UndoMap.UndoMap) (undo_timestamp : Lamport.t) (st : undo_state) (fragment_id : Locator.t) :
    option undo_state :=
  '(old_fragments, preceding_fragments) ← Cursor.slice (λ d, option_compare (Some fragment_id) d.1) Left (u_old st);
  new_ropes ← RopeBuilder.append (u_ropes st) (text (SumTree.summary preceding_fragments));
  new_fragments ← SumTree.append (u_new st) preceding_fragments;
  item ← Cursor.item old_fragments;
  match item with
  | Some fragment =>
      let fragment_was_visible := Fragment.visible fragment in
      visible_now ← is_visible fragment undos;
      let fragment := Fragment.observe_undo undo_timestamp (Fragment.set_visible visible_now fragment) in
      let old_start := (Cursor.start old_fragments).2 in
      let new_start := visible (text (SumTree.summary new_fragments)) in
      let edits :=
        if fragment_was_visible && negb (Fragment.visible fragment)
        then Patch.push (u_edits st) (Edit.mk old_start (old_start +w64 Fragment.len fragment) new_start new_start)
        else if negb fragment_was_visible && Fragment.visible fragment
        then Patch.push (u_edits st) (Edit.mk old_start old_start new_start (new_start +w64 Fragment.len fragment))
        else u_edits st in
      new_ropes ← RopeBuilder.push_fragment new_ropes fragment fragment_was_visible;
      new_fragments ← SumTree.push new_fragments fragment;
      old_fragments ← Cursor.next old_fragments;
      Some (mk_undo_state old_fragments new_fragments new_ropes edits)
  | None => Some (mk_undo_state old_fragments new_fragments new_ropes (u_edits st))
  end.
(** The snapshot and the patch that is published.
    [crates/text/src/text.rs:1221-1274] Buffer::apply_undo *)
Definition apply_undo (self : BufferSnapshot) (undo : UndoOperation) : option (BufferSnapshot * Patch.t) :=
  undo_map ← UndoMap.insert (undo_map self) undo;
  visible_cursor ← Rope.cursor_at (visible_text self) 0;
  deleted_cursor ← Rope.cursor_at (deleted_text self) 0;
  fragment_ids ← fragment_ids_for_edits self (map fst (map_to_list (counts undo)));
  st ← foldl (λ st fragment_id, st ← st; undo_fragment undo_map (timestamp undo) st fragment_id)
         (Some (mk_undo_state (Cursor.new (fragments self)) SumTree.new (RopeBuilder.new visible_cursor deleted_cursor) []))
         fragment_ids;
  '(_, suffix) ← Cursor.suffix (u_old st);
  new_ropes ← RopeBuilder.append (u_ropes st) (text (SumTree.summary suffix));
  new_fragments ← SumTree.append (u_new st) suffix;
  '(visible_text, deleted_text) ← RopeBuilder.finish new_ropes;
  Some (mk_snapshot visible_text deleted_text new_fragments (insertions self) (insertion_slices self) undo_map (version self)
    (remote_id self) (replica_id self) (line_ending self), u_edits st).
End Buffer.
