(* ===== verification/BufferOps.v ===== *)
(** The operations of a replica ([Buffer] in [crates/text/src/text.rs]): a
    snapshot, its history, and the operations that wait for others. The heap of
    the subscriptions is passed along; the times at which transactions start
    and end are arguments. Futures that wait for operations, and the tasks that
    are woken up, are left out. [None] is a panic. *)
From S2P Require Import Prelude Clock Locator Points Patch Subscription SumTree TreeFind Cursor TreeWeight ParTree Iter Keyed TreeMap.
From S2P Require Import UndoMap OperationQueue Utf8 Rope RopePosition History Fragments Buffer.

Import Buffer.

(** ** Positions *)
(** [crates/text/src/text.rs:3391-3405] ToOffset *)
Class ToOffset (S : Type) := { to_offset : S → BufferSnapshot → option Z }.
(** [crates/text/src/text.rs:3394-3399] ToOffset::to_next_offset *)
Definition to_next_offset {S} `{!ToOffset S} (self : S) (snapshot : BufferSnapshot) : option Z :=
  offset ← to_offset self snapshot; Rope.ceil_char_boundary (visible_text snapshot) (offset +w64 1).
(** [crates/text/src/text.rs:3400-3404] ToOffset::to_previous_offset *)
Definition to_previous_offset {S} `{!ToOffset S} (self : S) (snapshot : BufferSnapshot) : option Z :=
  offset ← to_offset self snapshot; Rope.floor_char_boundary (visible_text snapshot) (saturating_sub offset 1).
(** [debug_assertions] makes the assertion panic.
    [crates/text/src/text.rs:3414-3426] ToOffset for usize *)
#[export] Instance to_offset_usize (debug_assertions : bool) : ToOffset Z :=
  { to_offset := λ self snapshot,
      is_boundary ← Rope.assert_char_boundary debug_assertions (visible_text snapshot) self;
      if negb is_boundary then Rope.floor_char_boundary (visible_text snapshot) self else Some self }.
(** [crates/text/src/text.rs:3407-3412] ToOffset for Point *)
#[export] Instance to_offset_point (debug_assertions : bool) : ToOffset Point.t :=
  { to_offset := λ self snapshot, RopePosition.point_to_offset debug_assertions (visible_text snapshot) self }.
(** [crates/text/src/text.rs:3442-3447] ToOffset for PointUtf16 *)
#[export] Instance to_offset_point_utf16 (debug_assertions : bool) : ToOffset PointUtf16.t :=
  { to_offset := λ self snapshot, RopePosition.point_utf16_to_offset debug_assertions (visible_text snapshot) self }.
(** [crates/text/src/text.rs:3449-3454] ToOffset for Unclipped *)
#[export] Instance to_offset_unclipped (debug_assertions : bool) : ToOffset (Unclipped.t PointUtf16.t) :=
  { to_offset := λ self snapshot, RopePosition.unclipped_point_utf16_to_offset debug_assertions (visible_text snapshot) self }.

(** [crates/text/src/text.rs:2127-2129] BufferSnapshot::row_count *)
Definition row_count (self : BufferSnapshot) : Z := Point.row (Rope.max_point (visible_text self)) +w32 1.
(** [crates/text/src/text.rs:2131-2133] BufferSnapshot::len *)
Definition len (self : BufferSnapshot) : Z := Rope.len (visible_text self).
(** [crates/text/src/text.rs:2302-2310] BufferSnapshot::line_len *)
Definition line_len (debug_assertions : bool) (self : BufferSnapshot) (row : Z) : option Z :=
  let to_offset := to_offset (ToOffset := to_offset_point debug_assertions) in
  row_start_offset ← to_offset (Point.mk row 0) self;
  row_end_offset ←
    (if Point.row (Rope.max_point (visible_text self)) <=? row then Some (len self)
     else to_previous_offset (ToOffset0 := to_offset_point debug_assertions) (Point.mk (row +w32 1) 0) self);
  Some (wrap32 (row_end_offset -w64 row_start_offset)).

(** ** Line endings *)
Definition CR : Z := 13.
Definition LF : Z := 10.
Section line_ending.
(** Whether the program is compiled for Unix. *)
Variable cfg_unix : bool.
(** [crates/text/src/text.rs:3583-3591] LineEnding::default *)
Definition default_line_ending : LineEnding := if cfg_unix then Unix else Windows.
(** [str::find] of a byte. *)
Fixpoint find_byte (b : Z) (text : list Z) : option nat :=
  match text with
  | [] => None
  | c :: text => if c =? b then Some 0%nat else S <$> find_byte b text
  end.
(** [crates/text/src/text.rs:3608-3623] LineEnding::detect *)
Definition detect (text : list Z) : option LineEnding :=
  max_ix ← Rope.split_below (S (Z.to_nat 1000)) (Utf8.is_char_boundary text) (Z.min (Utf8.len text) 1000);
  head ← Utf8.str_index text 0 max_ix;
  match find_byte LF head with
  | Some (S ix) => Some (if bool_decide (text !! ix = Some CR) then Windows else Unix)
  | Some O => Some Unix
  | None => Some default_line_ending
  end.
End line_ending.

(** ** The state *)
(** [crates/text/src/text.rs:59-68] Buffer *)
Record Buffer := mk_buffer {
  snapshot : BufferSnapshot;
  history : History.History;
  deferred_ops : OperationQueue.OperationQueue Operation;
  deferred_replicas : list ReplicaId.t;
  lamport_clock : Lamport.t;
  subscriptions : Topic.t;
}.
Definition set_snapshot (s : BufferSnapshot) (self : Buffer) : Buffer :=
  mk_buffer s (history self) (deferred_ops self) (deferred_replicas self) (lamport_clock self) (subscriptions self).
Definition set_history (h : History.History) (self : Buffer) : Buffer :=
  mk_buffer (snapshot self) h (deferred_ops self) (deferred_replicas self) (lamport_clock self) (subscriptions self).
Definition set_deferred (q : OperationQueue.OperationQueue Operation) (r : list ReplicaId.t) (self : Buffer) : Buffer :=
  mk_buffer (snapshot self) (history self) q r (lamport_clock self) (subscriptions self).
Definition set_clock (c : Lamport.t) (self : Buffer) : Buffer :=
  mk_buffer (snapshot self) (history self) (deferred_ops self) (deferred_replicas self) c (subscriptions self).
Definition set_subscriptions (t : Topic.t) (self : Buffer) : Buffer :=
  mk_buffer (snapshot self) (history self) (deferred_ops self) (deferred_replicas self) (lamport_clock self) t.
Definition set_version (v : Global.t) (s : BufferSnapshot) : BufferSnapshot :=
  mk_snapshot (visible_text s) (deleted_text s) (fragments s) (insertions s) (insertion_slices s) (undo_map s) v
    (remote_id s) (replica_id s) (line_ending s).
(** [self.snapshot.version.observe] *)
Definition observe_version (t : Lamport.t) (self : Buffer) : Buffer :=
  set_snapshot (set_version (Global.observe (version (snapshot self)) t) (snapshot self)) self.
(** [crates/text/src/text.rs:905-907] Buffer::set_line_ending *)
Definition set_line_ending (l : LineEnding) (self : Buffer) : Buffer :=
  let s := snapshot self in
  set_snapshot (mk_snapshot (visible_text s) (deleted_text s) (fragments s) (insertions s) (insertion_slices s) (undo_map s)
    (version s) (remote_id s) (replica_id s) l) self.
(** [self.subscriptions.publish_mut] *)
Definition publish (h : Topic.heap) (edits : Patch.t) (self : Buffer) : Topic.heap * Buffer :=
  let '(h, t) := Topic.publish h (subscriptions self) edits in (h, set_subscriptions t self).

(** *** New buffers *)
Abbreviation insertion_tree := (SumTree.node InsertionFragment InsertionFragmentKey).
(** The loop over the pieces of the text: the trees, the previous locator, and
    how far it has got, in the insertion and in the text.
    [crates/text/src/text.rs:778-803] Buffer::new_normalized *)
Definition base_step (visible_text : Rope.t) (insertion_timestamp : Lamport.t)
    (st : fragment_tree * insertion_tree * Locator.t * Z * Z) :
    option (fragment_tree * insertion_tree * Locator.t * Z * Z + fragment_tree * insertion_tree) :=
  let '(fragments, insertions, prev_locator, insertion_offset, text_offset) := st in
  if text_offset <? Rope.len visible_text then
    let target_end := Z.min (Rope.len visible_text) (text_offset +w64 MAX_INSERTION_LEN) in
    chunk_end ← (if target_end =? Rope.len visible_text then Some target_end
                 else Rope.floor_char_boundary visible_text target_end);
    let chunk_len := chunk_end -w64 text_offset in
    let fragment_id := Locator.between prev_locator Locator.max in
    let fragment := Fragment.mk fragment_id insertion_timestamp insertion_offset (wrap32 chunk_len) true [] Global.new in
    insertions ← SumTree.push insertions (insertion_new fragment);
    fragments ← SumTree.push fragments fragment;
    Some (inl (fragments, insertions, fragment_id, insertion_offset +w32 wrap32 chunk_len, chunk_end))
  else Some (inr (fragments, insertions)).
(** [crates/text/src/text.rs:755-827] Buffer::new_normalized *)
Definition new_normalized (replica_id : ReplicaId.t) (remote_id : Z) (line_ending : LineEnding) (normalized : Rope.t) :
    option Buffer :=
  let history := History.new normalized in
  let lamport_clock := Lamport.new replica_id in
  let visible_text := History.base_text history in
  '(fragments, insertions, lamport_clock, version) ←
    (if negb (Rope.is_empty visible_text) then
       let insertion_timestamp := Lamport.new ReplicaId.LOCAL in
       '(fragments, insertions) ←
         iterate (base_step visible_text insertion_timestamp) (S (Z.to_nat (Rope.len visible_text)))
           (SumTree.new, SumTree.new, Locator.min, 0, 0);
       Some (fragments, insertions, Lamport.observe lamport_clock insertion_timestamp,
             Global.observe Global.new insertion_timestamp)
     else Some (SumTree.new, SumTree.new, lamport_clock, Global.new));
  Some (mk_buffer
    (mk_snapshot visible_text Rope.new fragments insertions TreeMap.default (SumTree.new (Summary0 := UndoMap.UndoMapKey_summary)) version remote_id replica_id line_ending)
    history OperationQueue.new [] lamport_clock []).
(** The history starts again with the base text.
    [crates/text/src/text.rs:841-852] Buffer::branch *)
Definition branch (self : Buffer) : Buffer :=
  mk_buffer (snapshot self) (History.new (History.base_text (history self))) OperationQueue.new []
    (Lamport.new ReplicaId.LOCAL_BRANCH) [].

(** *** Transactions *)
(** [crates/text/src/text.rs:1317-1320] Buffer::start_transaction_at *)
Definition start_transaction_at (self : Buffer) (now : Z) : Buffer * option Lamport.t :=
  let '(h, clock, id) := History.start_transaction (history self) (version (snapshot self)) now (lamport_clock self) in
  (set_clock clock (set_history h self), id).
(** [crates/text/src/text.rs:1326-1334] Buffer::end_transaction_at *)
Definition end_transaction_at (self : Buffer) (now : Z) : option (Buffer * option (Lamport.t * Global.t)) :=
  '(h, r) ← History.end_transaction_at (history self) now; Some (set_history h self, r).
(** [crates/text/src/text.rs:1336-1338] Buffer::finalize_last_transaction *)
Definition finalize_last_transaction (self : Buffer) : Buffer * option History.Transaction :=
  let '(h, t) := History.finalize_last_transaction (history self) in (set_history h self, t).
(** [crates/text/src/text.rs:1340-1342] Buffer::group_until_transaction *)
Definition group_until_transaction (self : Buffer) (transaction_id : Lamport.t) : option Buffer :=
  h ← History.group_until (history self) transaction_id; Some (set_history h self).
(** [crates/text/src/text.rs:1386-1388] Buffer::forget_transaction *)
Definition forget_transaction (self : Buffer) (transaction_id : Lamport.t) : option (Buffer * option History.Transaction) :=
  '(h, t) ← History.forget (history self) transaction_id; Some (set_history h self, t).
(** [crates/text/src/text.rs:1394-1396] Buffer::merge_transactions *)
Definition merge_transactions (self : Buffer) (transaction destination : Lamport.t) : option Buffer :=
  h ← History.merge_transactions (history self) transaction destination; Some (set_history h self).
(** [crates/text/src/text.rs:1447-1449] Buffer::push_transaction *)
Definition push_transaction (self : Buffer) (transaction : History.Transaction) (now : Z) : option Buffer :=
  h ← History.push_transaction (history self) transaction now; Some (set_history h self).
(** [crates/text/src/text.rs:1464-1467] Buffer::push_empty_transaction *)
Definition push_empty_transaction (self : Buffer) (now : Z) : option (Buffer * Lamport.t) :=
  '(h, clock, id) ← History.push_empty_transaction (history self) (version (snapshot self)) now (lamport_clock self);
  Some (set_clock clock (set_history h self), id).

(** *** Applying operations *)
(** [crates/text/src/text.rs:1221-1274] Buffer::apply_undo *)
Definition apply_undo (h : Topic.heap) (self : Buffer) (undo : UndoOperation) : option (Topic.heap * Buffer) :=
  '(s, edits) ← Buffer.apply_undo (snapshot self) undo;
  Some (publish h edits (set_snapshot s self)).
(** [crates/text/src/text.rs:957-1150] Buffer::apply_remote_edit *)
Definition apply_remote_edit (h : Topic.heap) (self : Buffer) (edit : EditOperation) : option (Topic.heap * Buffer) :=
  match ranges edit with
  | [] => Some (h, self)
  | _ =>
      '(s, edits) ← Buffer.apply_remote_edit (edit_version edit) (snapshot self) (ranges edit) (new_text edit) (edit_timestamp edit);
      Some (publish h edits (set_snapshot s self))
  end.
(** [crates/text/src/text.rs:924-955] Buffer::apply_op *)
Definition apply_op (h : Topic.heap) (self : Buffer) (op : Operation) : option (Topic.heap * Buffer) :=
  if negb (Global.observed (version (snapshot self)) (op_timestamp op)) then
    '(h, self) ← match op with
                 | EditOp edit => apply_remote_edit h self edit
                 | UndoOp undo => apply_undo h self undo
                 end;
    let self := observe_version (op_timestamp op) self in
    Some (h, set_clock (Lamport.observe (lamport_clock self) (op_timestamp op)) self)
  else Some (h, self).
(** [crates/text/src/text.rs:1290-1299] Buffer::can_apply_op *)
Definition can_apply_op (self : Buffer) (op : Operation) : bool :=
  if bool_decide (op_replica_id op ∈ deferred_replicas self) then false
  else Global.observed_all (version (snapshot self))
         match op with EditOp edit => edit_version edit | UndoOp undo => UndoMap.version undo end.
(** [HashSet::insert] *)
Definition set_insert (r : ReplicaId.t) (l : list ReplicaId.t) : list ReplicaId.t :=
  if bool_decide (r ∈ l) then l else r :: l.
(** Applying an operation or deferring it; [record] is what is done with it first.
    [crates/text/src/text.rs:910-919] Buffer::apply_ops *)
Fixpoint apply_or_defer (record : Operation → Buffer → option Buffer) (h : Topic.heap) (self : Buffer) (ops deferred : list Operation) :
    option (Topic.heap * Buffer * list Operation) :=
  match ops with
  | [] => Some (h, self, deferred)
  | op :: ops =>
      self ← record op self;
      if can_apply_op self op then
        '(h, self) ← apply_op h self op;
        apply_or_defer record h self ops deferred
      else
        let self := set_deferred (deferred_ops self) (set_insert (op_replica_id op) (deferred_replicas self)) self in
        apply_or_defer record h self ops (deferred ++ [op])
  end.
Definition defer (self : Buffer) (deferred : list Operation) : option Buffer :=
  q ← OperationQueue.insert (deferred_ops self) deferred; Some (set_deferred q (deferred_replicas self) self).
(** [crates/text/src/text.rs:1276-1288] Buffer::flush_deferred_ops *)
Definition flush_deferred_ops (h : Topic.heap) (self : Buffer) : option (Topic.heap * Buffer) :=
  let '(q, drained) := OperationQueue.drain (deferred_ops self) in
  let self := set_deferred q [] self in
  ops ← OperationQueue.iter (S (length (SumTree.contents drained))) drained;
  '(h, self, deferred) ← apply_or_defer (λ _ self, Some self) h self ops [];
  self ← defer self deferred;
  Some (h, self).
(** [self.history.push] *)
Definition record_op (op : Operation) (self : Buffer) : option Buffer :=
  history ← History.push (history self) op; Some (set_history history self).
(** [crates/text/src/text.rs:909-922] Buffer::apply_ops *)
Definition apply_ops (h : Topic.heap) (self : Buffer) (ops : list Operation) : option (Topic.heap * Buffer) :=
  '(h, self, deferred) ← apply_or_defer record_op h self ops [];
  self ← defer self deferred;
  flush_deferred_ops h self.
(** [crates/text/src/text.rs:1301-1303] Buffer::has_deferred_ops *)
Definition has_deferred_ops (self : Buffer) : option bool := b ← OperationQueue.is_empty (deferred_ops self); Some (negb b).

(** *** Local edits *)
Section local.
Variable replace_all : list Z → option (list Z).
Context {S : Type} `{!ToOffset S}.
(** The ranges as offsets.
    [crates/text/src/text.rs:897-899] Buffer::apply_local_edit *)
Definition edit_offsets (s : BufferSnapshot) (edits : list ((S * S) * list Z)) : option (list ((Z * Z) * list Z)) :=
  mapM (λ '((start, stop), new_text), start ← to_offset start s; stop ← to_offset stop s; Some ((start, stop), new_text)) edits.
(** [crates/text/src/text.rs:892-903] Buffer::apply_local_edit *)
Definition apply_local_edit (h : Topic.heap) (self : Buffer) (edits : list ((S * S) * list Z)) (timestamp : Lamport.t) :
    option (Topic.heap * Buffer * EditOperation) :=
  edits ← edit_offsets (snapshot self) edits;
  '(s, edit_op, edits_patch) ← apply_edit_internal replace_all (snapshot self) edits timestamp;
  let '(h, self) := publish h edits_patch (set_snapshot s self) in
  Some (h, self, edit_op).
(** [crates/text/src/text.rs:870-890] Buffer::edit *)
Definition edit (h : Topic.heap) (self : Buffer) (started ended : Z) (edits : list ((S * S) * list Z)) :
    option (Topic.heap * Buffer * Operation) :=
  let '(self, _) := start_transaction_at self started in
  let '(timestamp, clock) := Lamport.tick (lamport_clock self) in
  '(h, self, edit_op) ← apply_local_edit h (set_clock clock self) edits timestamp;
  let operation := EditOp edit_op in
  self ← record_op operation self;
  history ← History.push_undo (history self) (op_timestamp operation);
  let self := observe_version (op_timestamp operation) (set_history history self) in
  '(self, _) ← end_transaction_at self ended;
  Some (h, self, operation).

(** [crates/text/src/text.rs:1681-1685] EditedBufferSnapshot *)
Record EditedBufferSnapshot := mk_edited { base_version : Global.t; edited_snapshot : BufferSnapshot; did_edit : bool }.
(** [crates/text/src/text.rs:1641-1668] Buffer::snapshot_with_edits *)
Definition snapshot_with_edits (self : Buffer) (edits : list ((S * S) * list Z)) : option (Buffer * EditedBufferSnapshot) :=
  let base_version := version (snapshot self) in
  edits ← edit_offsets (snapshot self) edits;
  match edits with
  | [] => Some (self, mk_edited base_version (snapshot self) false)
  | _ =>
      let '(timestamp, clock) := Lamport.tick (lamport_clock self) in
      '(s, _, _) ← apply_edit_internal replace_all (snapshot self) edits timestamp;
      Some (set_clock clock self, mk_edited base_version (set_version (Global.observe (version s) timestamp) s) true)
  end.
End local.
(** [crates/text/src/text.rs:1670-1678] Buffer::fast_forward *)
Definition fast_forward (self : Buffer) (edited : EditedBufferSnapshot) : option Buffer :=
  if Global.changed_since (version (snapshot self)) (base_version edited) then None
  else
    let self := set_snapshot (edited_snapshot edited) self in
    Some (set_clock (foldl Lamport.observe (lamport_clock self) (Global.iter (version (edited_snapshot edited)))) self).

(** *** Undo and redo *)
(** [crates/text/src/text.rs:1434-1445] Buffer::undo_operations *)
Definition undo_operations (h : Topic.heap) (self : Buffer) (counts : gmap Lamport.t Z) :
    option (Topic.heap * Buffer * Operation) :=
  let '(timestamp, clock) := Lamport.tick (lamport_clock self) in
  let self := set_clock clock self in
  let undo := mk_undo timestamp (version (snapshot self)) counts in
  '(h, self) ← apply_undo h (observe_version timestamp self) undo;
  Some (h, self, UndoOp undo).
(** [crates/text/src/text.rs:1423-1432] Buffer::undo_or_redo *)
Definition undo_or_redo (h : Topic.heap) (self : Buffer) (transaction : History.Transaction) :
    option (Topic.heap * Buffer * Operation) :=
  counts ← foldl (λ counts edit_id,
      counts ← counts;
      n ← UndoMap.count (undo_fuel (undo_map (snapshot self))) (undo_map (snapshot self)) edit_id;
      Some (<[edit_id := saturating_add 32 n 1]> counts)) (Some (∅ : gmap Lamport.t Z)) (History.edit_ids transaction);
  '(h, self, operation) ← undo_operations h self counts;
  self ← record_op operation self;
  Some (h, self, operation).
(** [crates/text/src/text.rs:1352-1361] Buffer::undo *)
Definition undo (h : Topic.heap) (self : Buffer) : option (Topic.heap * Buffer * option (Lamport.t * Operation)) :=
  '(history, entry) ← History.pop_undo (history self);
  let self := set_history history self in
  match entry with
  | Some entry =>
      let transaction := History.transaction entry in
      '(h, self, op) ← undo_or_redo h self transaction;
      Some (h, self, Some (History.id transaction, op))
  | None => Some (h, self, None)
  end.
(** [crates/text/src/text.rs:1398-1407] Buffer::redo *)
Definition redo (h : Topic.heap) (self : Buffer) : option (Topic.heap * Buffer * option (Lamport.t * Operation)) :=
  '(history, entry) ← History.pop_redo (history self);
  let self := set_history history self in
  match entry with
  | Some entry =>
      let transaction := History.transaction entry in
      '(h, self, op) ← undo_or_redo h self transaction;
      Some (h, self, Some (History.id transaction, op))
  | None => Some (h, self, None)
  end.
(** [crates/text/src/text.rs:1363-1370] Buffer::undo_transaction *)
Definition undo_transaction (h : Topic.heap) (self : Buffer) (transaction_id : Lamport.t) :
    option (Topic.heap * Buffer * option Operation) :=
  '(history, entry) ← History.remove_from_undo (history self) transaction_id;
  let self := set_history history self in
  match entry with
  | Some entry => '(h, self, op) ← undo_or_redo h self (History.transaction entry); Some (h, self, Some op)
  | None => Some (h, self, None)
  end.
(** [undo_or_redo] of each transaction. *)
Fixpoint undo_or_redo_all (h : Topic.heap) (self : Buffer) (transactions : list History.Transaction) :
    option (Topic.heap * Buffer * list Operation) :=
  match transactions with
  | [] => Some (h, self, [])
  | transaction :: transactions =>
      '(h, self, op) ← undo_or_redo h self transaction;
      '(h, self, ops) ← undo_or_redo_all h self transactions;
      Some (h, self, op :: ops)
  end.
(** [crates/text/src/text.rs:1372-1384] Buffer::undo_to_transaction *)
Definition undo_to_transaction (h : Topic.heap) (self : Buffer) (transaction_id : Lamport.t) :
    option (Topic.heap * Buffer * list Operation) :=
  '(history, entries) ← History.remove_from_undo_until (history self) transaction_id;
  undo_or_redo_all h (set_history history self) (map History.transaction entries).
(** [crates/text/src/text.rs:1409-1421] Buffer::redo_to_transaction *)
Definition redo_to_transaction (h : Topic.heap) (self : Buffer) (transaction_id : Lamport.t) :
    option (Topic.heap * Buffer * list Operation) :=
  '(history, entries) ← History.remove_from_redo (history self) transaction_id;
  undo_or_redo_all h (set_history history self) (map History.transaction entries).

(** [crates/text/src/text.rs:1548-1550] Buffer::subscribe *)
Definition subscribe (h : Topic.heap) (self : Buffer) : Topic.heap * Buffer * nat :=
  let '(h, t, s) := Topic.subscribe h (subscriptions self) in (h, set_subscriptions t self, s).

(** ** The text at a version, and where edits are *)
Abbreviation filter_cursor := (Cursor.t Fragment.t FragmentSummary FragmentTextSummary).
(** One iteration: the fragments, the cursors in the two texts, and the rope so far.
    [crates/text/src/text.rs:2089-2109] BufferSnapshot::rope_for_version *)
Definition version_step (self : BufferSnapshot) (version : Global.t) (filter_node : FragmentSummary → bool)
    (st : filter_cursor * Rope.cursor * Rope.cursor * Rope.t) :
    option (filter_cursor * Rope.cursor * Rope.cursor * Rope.t + filter_cursor * Rope.cursor * Rope.t) :=
  let '(cursor, visible_cursor, deleted_cursor, rope) := st in
  item ← Cursor.item cursor;
  match item with
  | None => Some (inr (cursor, visible_cursor, rope))
  | Some fragment =>
      let start := Cursor.start cursor in
      '(visible_cursor, rope) ←
        (if Rope.cursor_offset visible_cursor <? visible start then
           '(c, text) ← Rope.cursor_slice visible_cursor (visible start);
           rope ← Rope.append rope text; Some (c, rope)
         else Some (visible_cursor, rope));
      end_ ← Cursor.end_ cursor;
      was_visible ← was_visible fragment version (undo_map self);
      '(visible_cursor, deleted_cursor, rope) ←
        (if (was_visible : bool) then
           if Fragment.visible fragment then
             '(c, text) ← Rope.cursor_slice visible_cursor (visible end_);
             rope ← Rope.append rope text; Some (c, deleted_cursor, rope)
           else
             c ← Rope.seek_forward deleted_cursor (deleted start);
             '(c, text) ← Rope.cursor_slice c (deleted end_);
             rope ← Rope.append rope text; Some (visible_cursor, c, rope)
         else if Fragment.visible fragment then
           c ← Rope.seek_forward visible_cursor (visible end_); Some (c, deleted_cursor, rope)
         else Some (visible_cursor, deleted_cursor, rope));
      cursor ← Cursor.search_forward filter_node cursor;
      Some (inl (cursor, visible_cursor, deleted_cursor, rope))
  end.
(** [crates/text/src/text.rs:2076-2117] BufferSnapshot::rope_for_version *)
Definition rope_for_version (self : BufferSnapshot) (version : Global.t) : option Rope.t :=
  let filter_node := λ summary, negb (Global.observed_all version (max_version summary)) in
  cursor ← Cursor.search_forward filter_node (Cursor.new (fragments self));
  visible_cursor ← Rope.cursor_at (visible_text self) 0;
  deleted_cursor ← Rope.cursor_at (deleted_text self) 0;
  '(cursor, visible_cursor, rope) ←
    iterate (version_step self version filter_node) (S (length (SumTree.contents (fragments self))))
      (cursor, visible_cursor, deleted_cursor, Rope.new);
  if Rope.cursor_offset visible_cursor <? visible (Cursor.start cursor) then
    '(_, text) ← Rope.cursor_slice visible_cursor (visible (Cursor.start cursor));
    Rope.append rope text
  else Some rope.

Abbreviation id_cursor := (Cursor.t Fragment.t FragmentSummary (option Locator.t * Z)).
(** The ranges of the fragments in the visible text.
    [crates/text/src/text.rs:1493-1507] Buffer::edited_ranges_for_edit_ids *)
Fixpoint offset_ranges (cursor : id_cursor) (fragment_ids : list Locator.t) : option (list (Z * Z)) :=
  match fragment_ids with
  | [] => Some []
  | fragment_id :: fragment_ids =>
      '(cursor, _) ← Cursor.seek_forward (λ d, option_compare (Some fragment_id) d.1) Left cursor;
      fragment ← Cursor.item cursor;
      rest ← offset_ranges cursor fragment_ids;
      match fragment with
      | Some fragment =>
          let start_offset := (Cursor.start cursor).2 in
          Some ((start_offset, start_offset +w64 (if Fragment.visible fragment then Fragment.len fragment else 0)) :: rest)
      | None => Some rest
      end
  end.
(** Combining adjacent ranges; [prev_range] is the one that may still grow.
    [crates/text/src/text.rs:1509-1524] Buffer::edited_ranges_for_edit_ids *)
Fixpoint disjoint_ranges (prev_range : option (Z * Z)) (ranges : list (Z * Z)) : list (Z * Z) :=
  match ranges with
  | [] => match prev_range with Some prev => [prev] | None => [] end
  | range :: ranges =>
      match prev_range with
      | Some prev =>
          if prev.2 =? range.1 then disjoint_ranges (Some (prev.1, range.2)) ranges
          else prev :: disjoint_ranges (Some range) ranges
      | None => disjoint_ranges (Some range) ranges
      end
  end.
(** [crates/text/src/text.rs:1526-1535] Buffer::edited_ranges_for_edit_ids *)
Fixpoint ranges_in {D} `{!TextDimension D} (position : D) (rope_cursor : Rope.cursor) (ranges : list (Z * Z)) :
    option (list (D * D)) :=
  match ranges with
  | [] => Some []
  | range :: ranges =>
      '(rope_cursor, d) ← Rope.cursor_summary rope_cursor range.1;
      let start := td_add_assign position d in
      '(rope_cursor, d) ← Rope.cursor_summary rope_cursor range.2;
      let end_ := td_add_assign start d in
      rest ← ranges_in end_ rope_cursor ranges;
      Some ((start, end_) :: rest)
  end.
(** The ranges where the edits' fragments are now, in the given unit.
    [crates/text/src/text.rs:1482-1536] Buffer::edited_ranges_for_edit_ids *)
Definition edited_ranges_for_edit_ids {D} `{!TextDimension D} (self : BufferSnapshot) (edit_ids : list Lamport.t) :
    option (list (D * D)) :=
  fragment_ids ← fragment_ids_for_edits self edit_ids;
  ranges ← offset_ranges (Cursor.new (fragments self)) fragment_ids;
  rope_cursor ← Rope.cursor_at (visible_text self) 0;
  ranges_in (dzero (D := D) (U := chunk_summary)) rope_cursor (disjoint_ranges None ranges).
(** [crates/text/src/text.rs:1538-1546] Buffer::edited_ranges_for_transaction *)
Definition edited_ranges_for_transaction {D} `{!TextDimension D} (self : Buffer) (transaction : History.Transaction) :
    option (list (D * D)) :=
  edited_ranges_for_edit_ids (snapshot self) (History.edit_ids transaction).
