(* ===== verification/FragmentLaws.v ===== *)
(** The trees of fragments and of insertions satisfy the laws that the trees and
    their cursors rely on: what their summaries and dimensions are of a sequence
    of fragments. *)
From S2P Require Import Prelude Clock Locator SumTree TreeFind Cursor TreeWeight ParTree Iter Keyed TreeMap UndoMap.
From S2P Require Import Rope Fragments.

(** ** Lengths *)
Section lengths.
Implicit Types (l k : list Fragment.t) (f : Fragment.t).
Definition visible_len f : Z := if Fragment.visible f then Fragment.len f else 0.
Definition deleted_len f : Z := if Fragment.visible f then 0 else Fragment.len f.
Fixpoint total (m : Fragment.t → Z) l : Z := match l with [] => 0 | f :: l => m f + total m l end.

Lemma total_app m l k : total m (l ++ k) = total m l + total m k.
Proof. induction l as [|f l IH]; cbn; [done|]. rewrite IH. lia. Qed.
Lemma total_cons m f l : total m (f :: l) = m f + total m l.
Proof. done. Qed.
Lemma total_nonneg m l : (∀ f, f ∈ l → 0 ≤ m f) → 0 ≤ total m l.
Proof.
  induction l as [|f l IH]; intros H; cbn; [done|].
  assert (0 ≤ m f) by (apply H; left). assert (0 ≤ total m l) by (apply IH; intros; apply H; by right). lia.
Qed.
End lengths.

(** ** The summary of a sequence of fragments *)
(** The fields of a fragment are in range. Clocks start at one. *)
Record fragment_ok (f : Fragment.t) : Prop := {
  ok_timestamp : Lamport.ok (Fragment.timestamp f);
  ok_value : 0 < Lamport.value (Fragment.timestamp f);
  ok_deletions : Forall Lamport.ok (Fragment.deletions f);
  ok_undos : Global.wf (Fragment.max_undos f);
  ok_len : 0 ≤ Fragment.len f < 2 ^ 32;
  ok_offset : 0 ≤ Fragment.insertion_offset f < 2 ^ 32;
}.
Definition versions_ok (s : FragmentSummary) : Prop :=
  Global.wf (max_version s) ∧ Global.wf (min_insertion_version s) ∧ Global.wf (max_insertion_version s).

Lemma wf_foldl_observe ts g : Global.wf g → Forall Lamport.ok ts → Global.wf (foldl Global.observe g ts).
Proof.
  intros Hg H. revert g Hg. induction H as [|t ts Ht _ IH]; intros g Hg; cbn; [done|].
  by apply IH, Global.wf_observe.
Qed.
Lemma item_versions_ok f : fragment_ok f → versions_ok (item_summary f).
Proof.
  intros []. cbn. split_and!; cbn; [apply Global.wf_join; [apply wf_foldl_observe|]|..];
    try done; by apply Global.wf_observe; [apply Global.wf_new|].
Qed.
Lemma zero_versions_ok : versions_ok zero.
Proof. split_and!; apply Global.wf_new. Qed.
Lemma add_versions_ok s t : versions_ok s → versions_ok t → versions_ok (add_summary s t).
Proof. intros (?&?&?) (?&?&?). split_and!; cbn; by (apply Global.wf_join || apply Global.wf_meet). Qed.

Lemma join_assoc a b c : Global.wf a → Global.wf b → Global.wf c →
  Global.join (Global.join a b) c = Global.join a (Global.join b c).
Proof.
  intros Ha Hb Hc. assert (Global.wf (Global.join a b)) by by apply Global.wf_join.
  assert (Global.wf (Global.join b c)) by by apply Global.wf_join.
  apply Global.wf_ext; [by apply Global.wf_join..|]. apply Global.same_nth. intros i.
  repeat match goal with H : Global.wf _ |- _ => destruct H end. rewrite !Global.nth_join by done. lia.
Qed.
Lemma meet_assoc a b c : Global.wf a → Global.wf b → Global.wf c →
  Global.meet (Global.meet a b) c = Global.meet a (Global.meet b c).
Proof.
  intros Ha Hb Hc. assert (Global.wf (Global.meet a b)) by by apply Global.wf_meet.
  assert (Global.wf (Global.meet b c)) by by apply Global.wf_meet.
  apply Global.wf_ext; [by apply Global.wf_meet..|]. apply Global.same_nth. intros i.
  rewrite !Global.nth_meet.
  pose proof (Global.nth_nonneg a i (proj1 Ha)). pose proof (Global.nth_nonneg b i (proj1 Hb)).
  pose proof (Global.nth_nonneg c i (proj1 Hc)).
  unfold Global.meet_entry. repeat (case_match; try lia).
Qed.
Lemma join_new g : Global.wf g → Global.join Global.new g = g.
Proof.
  intros Hg. apply Global.wf_ext; [apply Global.wf_join; [apply Global.wf_new|done]|done|].
  apply Global.same_nth. intros i. rewrite Global.nth_join by apply Global.wf_new.
  pose proof (Global.nth_nonneg g i (proj1 Hg)). change (Global.nth Global.new i) with 0. lia.
Qed.
Lemma meet_new g : Global.wf g → Global.meet Global.new g = g.
Proof.
  intros Hg. apply Global.wf_ext; [apply Global.wf_meet; [apply Global.wf_new|done]|done|].
  apply Global.same_nth. intros i. by rewrite Global.nth_meet.
Qed.
Lemma fragment_summary_eq s t :
  text s = text t → max_id s = max_id t → max_version s = max_version t →
  min_insertion_version s = min_insertion_version t → max_insertion_version s = max_insertion_version t → s = t.
Proof. destruct s, t. cbn. congruence. Qed.

Lemma add_fragment_assoc (a b c : FragmentSummary) :
  versions_ok a → versions_ok b → versions_ok c →
  add_summary (add_summary a b) c = add_summary a (add_summary b c).
Proof.
  intros (?&?&?) (?&?&?) (?&?&?). apply fragment_summary_eq; cbn.
  - f_equal; unfold wrap64; rewrite Z.add_mod_idemp_l, Z.add_mod_idemp_r, Z.add_assoc; done.
  - by rewrite !Locator.assign_eq.
  - by rewrite join_assoc.
  - by rewrite meet_assoc.
  - by rewrite join_assoc.
Qed.
Lemma measure_snoc_fragment (l : list Fragment.t) f : measure (l ++ [f]) = add_summary (measure l) (item_summary f).
Proof. unfold measure, sum. by rewrite map_app, foldl_app. Qed.
Lemma measure_versions_ok l : Forall fragment_ok l → versions_ok (measure l).
Proof.
  induction l as [|f l IH] using rev_ind; intros H; [apply zero_versions_ok|].
  apply Forall_app in H as [Hl [Hf _]%Forall_cons]. rewrite measure_snoc_fragment.
  apply add_versions_ok; [by apply IH|by apply item_versions_ok].
Qed.
Lemma measure_one_fragment f : fragment_ok f → measure [f] = item_summary f.
Proof.
  intros Hf. pose proof (item_versions_ok f Hf) as (?&?&?). destruct Hf. unfold measure, sum.
  cbn [map foldl]. apply fragment_summary_eq; cbn [add_summary fragment_summary_summary max_id max_version
    min_insertion_version max_insertion_version text zero].
  - cbn. destruct (Fragment.visible f); cbn; f_equal; apply Z.mod_small; lia.
  - by rewrite Locator.assign_eq.
  - by rewrite join_new.
  - by rewrite meet_new.
  - by rewrite join_new.
Qed.

#[export, program] Instance fragment_laws : SummaryLaws Fragment.t FragmentSummary :=
  {| valid := Forall fragment_ok |}.
Next Obligation. intros l k H. by apply Forall_app in H. Qed.
Next Obligation.
  intros l k Hk H. induction k as [|f k IH] using rev_ind; [done|]. clear Hk.
  apply Forall_app in H as [Hl H]. apply Forall_app in H as [Hk [Hf _]%Forall_cons].
  destruct k as [|g k].
  - cbn [app]. by rewrite measure_snoc_fragment, measure_one_fragment.
  - rewrite app_assoc, !measure_snoc_fragment, IH by (done || by apply Forall_app).
    apply add_fragment_assoc; [by apply measure_versions_ok..|by apply item_versions_ok].
Qed.
Next Obligation. intros f [Hf _]%Forall_cons. by apply measure_one_fragment. Qed.

(** *** Lengths, the last identifier, versions *)
Lemma wrap64_add_l a b : wrap64 (wrap64 a + b) = wrap64 (a + b).
Proof. unfold wrap64. by rewrite Z.add_mod_idemp_l. Qed.
Lemma wrap64_add_r a b : wrap64 (a + wrap64 b) = wrap64 (a + b).
Proof. unfold wrap64. by rewrite Z.add_mod_idemp_r. Qed.
Lemma wrap64_wrap a : wrap64 (wrap64 a) = wrap64 a.
Proof. unfold wrap64. by rewrite Z.mod_mod. Qed.
Lemma wrap64_small a : 0 ≤ a < 2 ^ 64 → wrap64 a = a.
Proof. apply Z.mod_small. Qed.
Lemma measure_text (l : list Fragment.t) :
  text (measure l) = mk_text (wrap64 (total visible_len l)) (wrap64 (total deleted_len l)).
Proof.
  induction l as [|f l IH] using rev_ind; [done|].
  rewrite measure_snoc_fragment, !total_app. cbn [add_summary fragment_summary_summary text]. rewrite IH. cbn.
  unfold visible_len, deleted_len. destruct (Fragment.visible f); cbn; by rewrite ?wrap64_add_l, ?Z.add_0_r.
Qed.
Definition last_id (l : list Fragment.t) : Locator.t := default Locator.min (Fragment.id <$> list.last l).
Lemma measure_id (l : list Fragment.t) : max_id (measure l) = last_id l.
Proof.
  destruct l as [|f l _] using rev_ind; [done|]. unfold last_id. rewrite measure_snoc_fragment, list.last_snoc.
  cbn. by rewrite Locator.assign_eq.
Qed.

Lemma dim_text (l : list Fragment.t) :
  dim FragmentTextSummary l = mk_text (wrap64 (total visible_len l)) (wrap64 (total deleted_len l)).
Proof.
  destruct l as [|f l]; [done|]. change (dim FragmentTextSummary (f :: l)) with
    (dadd (D := FragmentTextSummary) dzero (measure (f :: l))).
  cbn [dadd fragment_text_dimension]. rewrite measure_text. cbn [visible deleted dzero]. by rewrite !wrap64_add_r.
Qed.
Lemma dim_visible (l : list Fragment.t) : dim Z l = wrap64 (total visible_len l).
Proof.
  destruct l as [|f l]; [done|]. change (dim Z (f :: l)) with (dadd (D := Z) dzero (measure (f :: l))).
  cbn [dadd visible_dimension]. rewrite measure_text. cbn [visible dzero]. by rewrite wrap64_add_r.
Qed.
Lemma dim_full (l : list Fragment.t) : dim FullOffset l = mk_full (wrap64 (total Fragment.len l)).
Proof.
  destruct l as [|f l]; [done|]. change (dim FullOffset (f :: l)) with (dadd (D := FullOffset) dzero (measure (f :: l))).
  cbn [dadd full_offset_dimension]. rewrite measure_text. cbn [visible deleted dzero full]. f_equal.
  rewrite Z.add_0_l, wrap64_add_l, wrap64_add_r, wrap64_wrap. f_equal. generalize (f :: l) as k. clear.
  induction k as [|f k IH]; [done|]. cbn. rewrite <- IH. unfold visible_len, deleted_len.
  destruct (Fragment.visible f); lia.
Qed.
Lemma dim_locator (l : list Fragment.t) : dim (option Locator.t) l = Fragment.id <$> list.last l.
Proof.
  destruct l as [|f l _] using rev_ind; [done|]. rewrite list.last_snoc.
  transitivity (Some (max_id (measure (l ++ [f])))); [by destruct l|].
  rewrite measure_id. unfold last_id. by rewrite list.last_snoc.
Qed.
#[export] Instance fragment_text_laws : DimensionLaws FragmentTextSummary Fragment.t FragmentSummary.
Proof.
  split. intros l k _ _. rewrite !dim_text, !total_app. cbn [dadd fragment_text_dimension]. rewrite measure_text.
  cbn [visible deleted]. by rewrite !wrap64_add_l, !wrap64_add_r.
Qed.
#[export] Instance visible_laws : DimensionLaws Z Fragment.t FragmentSummary.
Proof.
  split. intros l k _ _. rewrite !dim_visible, !total_app. cbn [dadd visible_dimension]. rewrite measure_text.
  cbn [visible]. by rewrite !wrap64_add_l, !wrap64_add_r.
Qed.
#[export] Instance locator_laws : DimensionLaws (option Locator.t) Fragment.t FragmentSummary.
Proof.
  split. intros l k Hk _. rewrite (dim_locator (l ++ k)), SumTree.last_app_ne by done. cbn. rewrite measure_id.
  unfold last_id. destruct k as [|f k _] using rev_ind; [done|]. by rewrite list.last_snoc.
Qed.

(** *** The offsets of a version *)
Section versioned.
Variable version : Global.t.
Hypothesis version_ok : Global.wf version.
Definition observed_len (f : Fragment.t) : Z :=
  if Global.observed version (Fragment.timestamp f) then Fragment.len f else 0.

Lemma nth_single ts i : Lamport.ok ts →
  Global.nth (Global.observe Global.new ts) i
  = if decide (i = Z.to_nat (ReplicaId.id (Lamport.replica_id ts))) then Lamport.value ts else 0.
Proof.
  intros Ht. rewrite Global.nth_observe by (done || apply Global.wf_new). change (Global.nth Global.new i) with 0.
  case_decide; [|done]. destruct Ht as [[? ?] _]. lia.
Qed.
Lemma observed_nth ts : Lamport.ok ts →
  Global.observed version ts = (Lamport.value ts <=? Global.nth version (Z.to_nat (ReplicaId.id (Lamport.replica_id ts)))).
Proof. intros [_ [? ?]]. unfold Global.observed. by rewrite Global.get_nth. Qed.
(** What the versions of a summary say: a maximum and a minimum per replica. *)
Abbreviation replica_ix f := (Z.to_nat (ReplicaId.id (Lamport.replica_id (Fragment.timestamp f)))).
Lemma item_versions f i : fragment_ok f →
  Global.nth (max_insertion_version (item_summary f)) i = (if decide (i = replica_ix f) then Lamport.value (Fragment.timestamp f) else 0) ∧
  Global.nth (min_insertion_version (item_summary f)) i = (if decide (i = replica_ix f) then Lamport.value (Fragment.timestamp f) else 0).
Proof. intros []. cbn [item_summary fragment_item max_insertion_version min_insertion_version]. by rewrite nth_single. Qed.
Lemma snoc_versions l f i : Forall fragment_ok (l ++ [f]) →
  let m := Lamport.value (Fragment.timestamp f) in
  Global.nth (max_insertion_version (measure (l ++ [f]))) i
  = (if decide (i = replica_ix f) then Z.max (Global.nth (max_insertion_version (measure l)) i) m
     else Global.nth (max_insertion_version (measure l)) i) ∧
  Global.nth (min_insertion_version (measure (l ++ [f]))) i
  = (if decide (i = replica_ix f) then Global.meet_entry (Global.nth (min_insertion_version (measure l)) i) m
     else Global.nth (min_insertion_version (measure l)) i).
Proof.
  intros [Hl [Hf _]%Forall_cons]%Forall_app m. destruct (measure_versions_ok l Hl) as (_ & Hmin & Hmax).
  destruct (item_versions f i Hf) as [E1 E2]. rewrite measure_snoc_fragment.
  cbn [add_summary fragment_summary_summary max_insertion_version min_insertion_version].
  rewrite Global.nth_join, Global.nth_meet, E1, E2 by apply Hmax.
  pose proof (Global.nth_nonneg _ i (proj1 Hmax)).
  case_decide; [done|]. split; [lia|apply Global.meet_entry_x0].
Qed.
Lemma min_version_nonneg l i : Forall fragment_ok l → 0 ≤ Global.nth (min_insertion_version (measure l)) i.
Proof. intros H. apply Global.nth_nonneg. apply (measure_versions_ok l H). Qed.

(** All of a sequence was observed, or one of it. *)
Lemma observed_all_spec l : Forall fragment_ok l →
  Global.observed_all version (max_insertion_version (measure l)) = true ↔
  Forall (λ f, Global.observed version (Fragment.timestamp f) = true) l.
Proof.
  intros Hl. rewrite Global.observed_all_nth by (done || apply (measure_versions_ok l Hl)).
  induction l as [|f l IH] using rev_ind.
  { split; [done|]. intros _ i. change (0 ≤ Global.nth version i). by apply Global.nth_nonneg, version_ok. }
  pose proof Hl as [Hl' [Hf _]%Forall_cons]%Forall_app. rewrite SumTree.Forall_snoc, <- (IH Hl').
  rewrite observed_nth by apply Hf. rewrite Z.leb_le.
  setoid_rewrite (λ i, proj1 (snoc_versions l f i Hl)). split.
  - intros H. split; [intros i; specialize (H i)|specialize (H (replica_ix f))]; case_decide; (lia || done).
  - intros [H1 H2] i. specialize (H1 i). case_decide; [subst; lia|done].
Qed.
Lemma observed_any_spec l : Forall fragment_ok l →
  Global.observed_any version (min_insertion_version (measure l)) = true ↔
  Exists (λ f, Global.observed version (Fragment.timestamp f) = true) l.
Proof.
  intros Hl. pose proof (measure_versions_ok l Hl) as (_ & Hmin & _).
  rewrite Global.observed_any_iff by (apply version_ok || apply Hmin). clear Hmin.
  induction l as [|f l IH] using rev_ind.
  { rewrite Exists_nil. split; [|done]. by intros (i & Hi & _). }
  pose proof Hl as [Hl' [Hf _]%Forall_cons]%Forall_app. rewrite Exists_app, Exists_cons, Exists_nil, <- (IH Hl').
  rewrite observed_nth by apply Hf. rewrite Z.leb_le.
  setoid_rewrite (λ i, proj2 (snoc_versions l f i Hl)). pose proof (ok_value f Hf) as Hv.
  pose proof (λ i, min_version_nonneg l i Hl') as Hn. split.
  - intros (i & Hi1 & Hi2). case_decide as Hd; [|by left; exists i]. subst i. specialize (Hn (replica_ix f)).
    unfold Global.meet_entry in *. repeat case_match; try (right; left; lia); try lia.
    destruct (Z.min_dec (Global.nth (min_insertion_version (measure l)) (replica_ix f)) (Lamport.value (Fragment.timestamp f)))
      as [E|E]; rewrite E in *; [|by right; left]. left. exists (replica_ix f). lia.
  - intros [(i & Hi1 & Hi2)|[H|[]]]; [exists i; specialize (Hn i)|exists (replica_ix f); specialize (Hn (replica_ix f))];
      case_decide as Hd; try done; unfold Global.meet_entry; repeat case_match; lia.
Qed.

Lemma all_observed_len l : Forall (λ f, Global.observed version (Fragment.timestamp f) = true) l →
  total observed_len l = total Fragment.len l.
Proof. unfold observed_len. induction 1 as [|f l Hf _ IH]; cbn; [done|]. by rewrite Hf, IH. Qed.
Lemma none_observed_len l : ¬ Exists (λ f, Global.observed version (Fragment.timestamp f) = true) l →
  total observed_len l = 0.
Proof.
  unfold observed_len. induction l as [|f l IH]; [done|]. rewrite Exists_cons. intros H. cbn.
  destruct (Global.observed _ _); [by destruct H; left|]. rewrite IH; [done|tauto].
Qed.

(** The position after a sequence in the text of the version, and in the visible text. *)
#[local] Instance versioned_offset_dimension : Dimension VersionedFullOffset FragmentSummary := versioned_dimension version.
#[local] Instance versioned_measured : Measured (VersionedFullOffset * Z) Fragment.t FragmentSummary :=
  { position_after := λ l, (Offset (wrap64 (total observed_len l)), wrap64 (total visible_len l)) }.
Lemma dim_versioned (l : list Fragment.t) :
  dim (VersionedFullOffset * Z) l = (Offset (wrap64 (total observed_len l)), wrap64 (total visible_len l)).
Proof. done. Qed.
Lemma text_len_total (l : list Fragment.t) :
  wrap64 (visible (text (measure l)) + deleted (text (measure l))) = wrap64 (total Fragment.len l).
Proof.
  pose proof (dim_full l) as H. destruct l as [|f l]; [done|].
  change (dim FullOffset (f :: l)) with (dadd (D := FullOffset) dzero (measure (f :: l))) in H.
  injection H as H. cbn [full dzero] in H. by rewrite Z.add_0_l, wrap64_wrap in H.
Qed.
Lemma versioned_add l k : Forall fragment_ok k →
  Exists (λ f, Global.observed version (Fragment.timestamp f) = true) k →
  ¬ Forall (λ f, Global.observed version (Fragment.timestamp f) = true) k →
  (dadd (dim (VersionedFullOffset * Z) l) (measure k)).1 = Invalid.
Proof.
  intros Hk Hany Hall. rewrite dim_versioned. cbn [dadd pair_dimension fst snd versioned_offset_dimension versioned_dimension].
  apply observed_any_spec in Hany as ->; [|done]. rewrite <- observed_all_spec in Hall by done.
  by destruct (Global.observed_all _ _).
Qed.
Lemma versioned_add_exact l k : Forall fragment_ok k →
  Forall (λ f, Global.observed version (Fragment.timestamp f) = true) k ∨
    ¬ Exists (λ f, Global.observed version (Fragment.timestamp f) = true) k →
  dadd (dim (VersionedFullOffset * Z) l) (measure k) = dim (VersionedFullOffset * Z) (l ++ k).
Proof.
  intros Hk H. rewrite !dim_versioned, !total_app. cbn [dadd pair_dimension fst snd versioned_offset_dimension versioned_dimension visible_dimension].
  rewrite text_len_total, measure_text. cbn [visible]. rewrite <- observed_all_spec, <- observed_any_spec in H by done.
  f_equal; [|by rewrite wrap64_add_l, wrap64_add_r].
  destruct (Global.observed_all _ _) eqn:Ea.
  - rewrite (all_observed_len k (proj1 (observed_all_spec k Hk) Ea)). by rewrite wrap64_add_l, wrap64_add_r.
  - destruct H as [H|H]; [done|]. destruct (Global.observed_any _ _) eqn:Eb; [done|].
    rewrite (none_observed_len k), Z.add_0_r; [done|]. rewrite <- observed_any_spec by done. by rewrite Eb.
Qed.
#[local, program] Instance versioned_positions : Positions (VersionedFullOffset * Z) Fragment.t FragmentSummary :=
  {| vague := λ d, d.1 = Invalid |}.
Next Obligation. done. Qed.
Next Obligation.
  intros l f [_ Hf]%Forall_app. rewrite <- measure_one_fragment by by apply Forall_cons in Hf as [? _].
  apply versioned_add_exact; [done|]. rewrite Forall_cons, Exists_cons, Exists_nil.
  destruct (Global.observed version (Fragment.timestamp f)); [left|right]; naive_solver.
Qed.
Next Obligation.
  intros l k _ [_ Hk]%Forall_app.
  destruct (decide (Forall (λ f, Global.observed version (Fragment.timestamp f) = true) k)) as [Ha|Ha];
    [left; by apply versioned_add_exact; auto|].
  destruct (decide (Exists (λ f, Global.observed version (Fragment.timestamp f) = true) k)) as [He|He];
    [by right; apply versioned_add|]. left. by apply versioned_add_exact; auto.
Qed.
End versioned.

(** ** The tree of insertions: sorted by timestamp and offset *)
Record insertion_ok (i : InsertionFragment) : Prop := {
  io_timestamp : Lamport.ok (if_timestamp i);
  io_offset : 0 ≤ split_offset i;
}.
Abbreviation insertions_sorted := (Keyed.sorted (T := InsertionFragment) (U := InsertionFragmentKey) (D := InsertionFragmentKey)).
Lemma measure_snoc_insertion (l : list InsertionFragment) i : measure (l ++ [i]) = item_summary i.
Proof. unfold measure, sum. by rewrite map_app, foldl_app. Qed.
#[export, program] Instance insertion_laws : SummaryLaws InsertionFragment InsertionFragmentKey :=
  {| valid := λ l, insertions_sorted l ∧ Forall insertion_ok l |}.
Next Obligation. intros l k [(H1 & H2 & _)%Keyed.sorted_app [H3 H4]%Forall_app]. done. Qed.
Next Obligation.
  intros l k Hk _. destruct k as [|i k _] using rev_ind; [done|]. by rewrite app_assoc, !measure_snoc_insertion.
Qed.
Next Obligation. done. Qed.
#[export] Instance insertion_zero : DimensionZero InsertionFragmentKey InsertionFragmentKey.
Proof. done. Qed.
#[export] Instance insertion_dimension_laws : DimensionLaws InsertionFragmentKey InsertionFragment InsertionFragmentKey.
Proof.
  split. intros l k Hk _. destruct k as [|i k _] using rev_ind; [done|].
  rewrite <- !(dim_measure InsertionFragmentKey (T := InsertionFragment)), app_assoc, !measure_snoc_insertion. done.
Qed.
#[export, program] Instance insertion_keyed_laws :
  Keyed.KeyedLaws InsertionFragment InsertionFragmentKey InsertionFragmentKey := {| Keyed.item_ok := insertion_ok |}.
Next Obligation. done. Qed.
Next Obligation.
  intros l i _. by rewrite <- (dim_measure InsertionFragmentKey (T := InsertionFragment)), measure_snoc_insertion.
Qed.
Next Obligation. done. Qed.
Next Obligation.
  intros [ts off fid] [Ht Ho]. cbn in *. unfold insertion_key_cmp. cbn. destruct Ht as [[Hv _] [Hr _]].
  unfold Lamport.cmp, Lamport.MIN, ReplicaId.cmp. cbn.
  destruct (Z.compare_spec (Lamport.value ts) 0); cbn; [|lia|done].
  destruct (Z.compare_spec (ReplicaId.id (Lamport.replica_id ts)) 0); cbn; [|lia|done].
  destruct (Z.compare_spec off 0); cbn; [done|lia|done].
Qed.
