(* ===== verification/Builders.v ===== *)
(** The builders of fragments and ropes ([FragmentBuilder] and [RopeBuilder] in
    [crates/text/src/text.rs]): what they write. *)
From S2P Require Import Prelude Clock Locator SumTree TreeFind Cursor TreeWeight ParTree Iter Keyed TreeMap UndoMap.
From S2P Require Import Utf8 Chunk Rope Fragments FragmentLaws.

(** ** Ropes *)
Definition room : Z := 6 ^ 16 - 3.
(** A cursor between the texts [a] and [b]. *)
Definition between (c : Rope.cursor) (a b : str) : Prop :=
  ∃ w v before after, Rope.at_offset w v c a b before after ∧ w < room ∧ v < room.
(** A rope that holds a text. *)
Definition has (r : Rope.t) (s : str) : Prop := ∃ w, Rope.holds w r s.

Lemma between_start r w s : Rope.holds w r s → w < room → ∃ c, Rope.cursor_at r 0 = Some c ∧ between c [] s.
Proof.
  unfold room. intros Hr Hw. destruct (Rope.cursor_at_ok w r [] s Hr) as (c & before & after & E & Hc & _); [lia|].
  exists c. split; [exact E|]. by exists w, w, before, after.
Qed.
Lemma between_sized c a b : between c a b → sized (a ++ b).
Proof.
  intros (w & v & before & after & Hc & _). rewrite <- (Rope.at_concat _ _ _ _ _ _ _ Hc).
  apply (Rope.o_rope _ _ _ _ _ _ _ Hc).
Qed.
(** Moving the next part of an old text to the end of a new one. *)
Lemma slice_append c a m b r s :
  between c a (m ++ b) → has r s → sized (s ++ m) →
  ∃ c' x r', Rope.cursor_slice c (Rope.cursor_offset c +w64 str_len m) = Some (c', x) ∧
    Rope.append r x = Some r' ∧ between c' (a ++ m) b ∧ has r' (s ++ m).
Proof.
  intros Hb (wr & Hr) Hs. pose proof (between_sized _ _ _ Hb) as Hsz. destruct Hb as (w & v & before & after & Hc & Hw & Hv).
  unfold Rope.cursor_offset. rewrite (Rope.o_offset _ _ _ _ _ _ _ Hc). unfold room in *.
  assert (str_len a +w64 str_len m = str_len (a ++ m)) as ->.
  { rewrite str_len_app. apply wrap64_small. pose proof (str_len_nonneg a). pose proof (str_len_nonneg m).
    pose proof (str_len_nonneg b). unfold sized in Hsz. rewrite !str_len_app in Hsz. lia. }
  destruct (Rope.cursor_slice_ok w v c a m b before after Hc) as (c' & x & v' & before' & after' & E & Hx & Hc' & _ & Hv'); [lia|].
  destruct (Rope.rope_append_ok wr _ r x s m Hr Hx) as (r' & Er & Hr'); [lia|done|].
  exists c', x, r'. split_and!; [done|done| |by eexists]. exists w, v', before', after'. unfold room. split_and!; [done|lia..].
Qed.
Lemma rope_suffix_append c a b r s :
  between c a b → has r s → sized (s ++ b) →
  ∃ x r', Rope.cursor_suffix c = Some x ∧ Rope.append r x = Some r' ∧ has r' (s ++ b).
Proof.
  intros (w & v & before & after & Hc & Hw & Hv) (wr & Hr) Hs. unfold room in *.
  destruct (Rope.cursor_suffix_ok w v c a b before after Hc) as (x & E & Hx); [lia|].
  destruct (Rope.rope_append_ok wr _ r x s b Hr Hx) as (r' & Er & Hr'); [lia|done|].
  exists x, r'. split_and!; [done..|by eexists].
Qed.

(** How far the builder has got in the old texts, and what it wrote: [av] and
    [bv] are behind and ahead in the old visible text, [ad] and [bd] in the
    deleted one, [ov] and [od] are the new texts. *)
Record ropes_at (rb : RopeBuilder.t) (av bv ad bd ov od : str) : Prop := {
  r_visible : between (RopeBuilder.old_visible_cursor rb) av bv;
  r_deleted : between (RopeBuilder.old_deleted_cursor rb) ad bd;
  r_new_visible : has (RopeBuilder.new_visible rb) ov;
  r_new_deleted : has (RopeBuilder.new_deleted rb) od;
}.
Definition pick (b : bool) (s : str) : str := if b then s else [].

Lemma ropes_push rb (was now : bool) t av bv ad bd ov od :
  ropes_at rb av (pick was t ++ bv) ad (pick (negb was) t ++ bd) ov od →
  sized (ov ++ pick now t) → sized (od ++ pick (negb now) t) →
  ∃ rb', RopeBuilder.push rb (str_len t) was now = Some rb' ∧
    ropes_at rb' (av ++ pick was t) bv (ad ++ pick (negb was) t) bd (ov ++ pick now t) (od ++ pick (negb now) t).
Proof.
  intros [Hv Hd Hnv Hnd] Hsv Hsd. unfold RopeBuilder.push.
  destruct was, now; cbn [pick negb app] in *; rewrite ?app_nil_r in *;
    match goal with
    | H : between _ _ (t ++ _), N : has ?r _, S : sized (_ ++ t) |- context [Rope.append ?r _] =>
        destruct (slice_append _ _ _ _ _ _ H N S) as (c & x & r' & -> & E & Hc & Hr)
    end; cbn [mbind option_bind]; rewrite E; cbn [mbind option_bind]; eexists; (split; [done|]); by split.
Qed.
Lemma ropes_append rb (v d : str) av bv ad bd ov od :
  ropes_at rb av (v ++ bv) ad (d ++ bd) ov od → sized (ov ++ v) → sized (od ++ d) →
  ∃ rb', RopeBuilder.append rb (mk_text (str_len v) (str_len d)) = Some rb' ∧
    ropes_at rb' (av ++ v) bv (ad ++ d) bd (ov ++ v) (od ++ d).
Proof.
  intros H Hv Hd. unfold RopeBuilder.append. cbn [visible deleted].
  destruct (ropes_push rb true true v av bv ad (d ++ bd) ov od H Hv) as (rb1 & -> & H1).
  { cbn [pick negb]. rewrite app_nil_r. by destruct (r_new_deleted _ _ _ _ _ _ _ H) as (? & [_ ?]%Rope.holds_text). }
  cbn [pick negb] in H1. rewrite !app_nil_r in H1. cbn [mbind option_bind].
  destruct (ropes_push rb1 false false d (av ++ v) bv ad bd (ov ++ v) od H1) as (rb2 & -> & H2); cbn [pick negb] in *;
    rewrite ?app_nil_r in *; [done..|]. by exists rb2.
Qed.
Lemma ropes_push_str rb u av bv ad bd ov od :
  ropes_at rb av bv ad bd ov od → scalars u → sized (ov ++ u) →
  ∃ rb', RopeBuilder.push_str rb (encode u) = Some rb' ∧ ropes_at rb' av bv ad bd (ov ++ u) od.
Proof.
  intros [Hv Hd (w & Hnv) Hnd] Hu Hs. unfold RopeBuilder.push_str.
  destruct (Rope.rope_push_ok w _ ov u Hnv Hu Hs) as (r & -> & Hr). cbn [mbind option_bind].
  eexists. split; [done|]. split; [done..|by eexists|done].
Qed.
Lemma ropes_finish rb av bv ad bd ov od :
  ropes_at rb av bv ad bd ov od → sized (ov ++ bv) → sized (od ++ bd) →
  ∃ rv rd, RopeBuilder.finish rb = Some (rv, rd) ∧ has rv (ov ++ bv) ∧ has rd (od ++ bd).
Proof.
  intros [Hv Hd Hnv Hnd] Hsv Hsd. unfold RopeBuilder.finish.
  destruct (rope_suffix_append _ _ _ _ _ Hv Hnv Hsv) as (x & r & -> & E & Hr). cbn [mbind option_bind]. rewrite E.
  destruct (rope_suffix_append _ _ _ _ _ Hd Hnd Hsd) as (y & q & -> & E' & Hq). cbn [mbind option_bind]. rewrite E'.
  cbn [mbind option_bind]. by exists r, q.
Qed.

(** ** Fragments *)
Definition chunk_fragments (c : FragmentBuilder.chunk) : list Fragment.t :=
  match c with FragmentBuilder.Tree t => SumTree.contents t | FragmentBuilder.Loose l => l end.
Definition chunk_ok (c : FragmentBuilder.chunk) : Prop :=
  match c with FragmentBuilder.Tree t => ∃ h, SumTree.wf h t | FragmentBuilder.Loose _ => True end.
(** The builder has been given the fragments [l]. *)
Record built (fb : FragmentBuilder.t) (l : list Fragment.t) : Prop := {
  b_chunks : Forall chunk_ok (FragmentBuilder.chunks fb);
  b_fragments : flat_map chunk_fragments (FragmentBuilder.chunks fb) = l;
  b_summary : FragmentBuilder.summary fb = measure l;
}.

Lemma built_new t l : SumTree.represents t l → built (FragmentBuilder.new t) l.
Proof.
  intros Ht. pose proof (SumTree.represents_empty _ _ Ht) as He. unfold FragmentBuilder.new.
  split; cbn; [| |by apply SumTree.represents_summary].
  - destruct (SumTree.is_empty t); [done|]. apply Forall_singleton. by destruct Ht.
  - destruct (SumTree.is_empty t); [symmetry; by apply He|]. cbn. rewrite app_nil_r. by destruct Ht.
Qed.
Lemma built_append fb l t k :
  built fb l → SumTree.represents t k → Forall fragment_ok (l ++ k) → built (FragmentBuilder.append fb t) (l ++ k).
Proof.
  intros [Hc Hf Hs] Ht Hok. pose proof (SumTree.represents_empty _ _ Ht) as He. unfold FragmentBuilder.append.
  destruct (SumTree.is_empty t).
  { rewrite (proj1 He eq_refl), app_nil_r. by split. }
  split; cbn [FragmentBuilder.chunks FragmentBuilder.summary].
  - apply Forall_app. split; [done|]. apply Forall_singleton. by destruct Ht.
  - rewrite flat_map_app, Hf. cbn. rewrite app_nil_r. by destruct Ht as [_ ->].
  - rewrite Hs, (SumTree.represents_summary _ _ Ht). symmetry. apply measure_app; [|done].
    intros ->. destruct He as [_ He]. by specialize (He eq_refl).
Qed.
Lemma built_push fb l f :
  built fb l → built (FragmentBuilder.push fb f) (l ++ [f]).
Proof.
  intros [Hc Hf Hs]. unfold FragmentBuilder.push.
  split; cbn [FragmentBuilder.chunks FragmentBuilder.summary]; [| |by rewrite Hs, measure_snoc_fragment];
    destruct (FragmentBuilder.chunks fb) as [|c cs _] using rev_ind; cbn in *;
    rewrite ?list.last_snoc, ?removelast_last; try by (constructor || (by rewrite <- Hf)).
  - apply SumTree.Forall_snoc in Hc as [Hc1 Hc2]. destruct c; repeat (apply Forall_app; split); repeat constructor; done.
  - rewrite flat_map_app in Hf. rewrite <- Hf. destruct c; rewrite ?flat_map_app; cbn; by rewrite ?app_nil_r, ?app_assoc.
Qed.
Lemma built_tree fb l :
  built fb l → Forall fragment_ok l → ∃ t, FragmentBuilder.to_sum_tree fb = Some t ∧ SumTree.represents t l.
Proof.
  intros [Hc <- _]. unfold FragmentBuilder.to_sum_tree. generalize (FragmentBuilder.chunks fb) Hc. clear.
  intros cs. induction cs as [|c cs IH] using rev_ind; intros Hc Hok.
  { exists SumTree.new. split; [done|]. apply SumTree.represents_new. }
  apply SumTree.Forall_snoc in Hc as [Hc1 Hc2]. rewrite flat_map_app in Hok |- *. cbn [flat_map] in *. rewrite app_nil_r in *.
  destruct (IH Hc1) as (t & Et & Ht); [by apply Forall_app in Hok as [? _]|].
  rewrite foldl_app. cbn [foldl]. rewrite Et. cbn [mbind option_bind].
  destruct c as [s|f]; cbn [chunk_fragments chunk_ok] in *.
  - apply SumTree.represents_append; [done| |done]. by split.
  - assert (valid f) as Hv by by apply Forall_app in Hok as [_ ?].
    assert (∃ s, SumTree.from_iter f = Some s ∧ SumTree.represents s f) as (s & Es & Hs)
      by by apply SumTree.represents_from_iter.
    rewrite ParTree.par_is_sequential, Es by done. cbn [mbind option_bind].
    assert (SumTree.append t s = (if Nat.ltb 1024 (length f) then SumTree.append t s else SumTree.append t s)) as <-
      by by destruct (Nat.ltb _ _).
    by apply SumTree.represents_append.
Qed.
