(* ===== verification/Cells.v ===== *)
(** What a buffer holds, seen without trees: fragments beside their texts
    ([cell]), and the characters of the document with what is known of each
    ([atom]), deleted ones included. *)
From stdpp Require Import sorting.
From S2P Require Import Prelude Clock Locator SumTree UndoMap.
From S2P Require Import Utf8 Fragments FragmentLaws Builders.

(** ** Characters *)
Record atom := mk_atom {
  a_timestamp : Lamport.t;
  a_offset : Z;
  a_char : Z;
  a_visible : bool;
  a_deletions : list Lamport.t;
  a_undos : Global.t;
}.
Definition a_len (a : atom) : Z := len_utf8 (a_char a).
Implicit Types (l k : list atom) (f : Fragment.t).
(** The characters [s] of a fragment from an offset in its insertion on. *)
Fixpoint atoms_from f (offset : Z) (s : str) : list atom :=
  match s with
  | [] => []
  | c :: s =>
      mk_atom (Fragment.timestamp f) offset c (Fragment.visible f) (Fragment.deletions f) (Fragment.max_undos f)
        :: atoms_from f (offset + len_utf8 c) s
  end.
Definition text_of (now : bool) l : str := map a_char (filter (λ a, a_visible a = now) l).
(** The bytes of those characters that count. *)
Definition measured_len (p : atom → bool) l : Z := foldr (λ a n, (if p a then a_len a else 0) + n) 0 l.

Lemma text_of_app b l k : text_of b (l ++ k) = text_of b l ++ text_of b k.
Proof. unfold text_of. by rewrite list.filter_app, map_app. Qed.
Lemma measured_cons p a l : measured_len p (a :: l) = (if p a then a_len a else 0) + measured_len p l.
Proof. done. Qed.
Lemma measured_app p l k : measured_len p (l ++ k) = measured_len p l + measured_len p k.
Proof. induction l as [|a l IH]; cbn [measured_len foldr app] in *; [done|]. unfold measured_len in *. lia. Qed.
Lemma a_len_pos a : 0 < a_len a.
Proof. unfold a_len. pose proof (len_utf8_bounds (a_char a)). lia. Qed.
Lemma measured_nonneg p l : 0 ≤ measured_len p l.
Proof. induction l as [|a l IH]; cbn; [done|]. pose proof (a_len_pos a). unfold measured_len in IH. case_match; lia. Qed.
Lemma measured_ext p q l : Forall (λ a, p a = q a) l → measured_len p l = measured_len q l.
Proof. induction 1 as [|a l Ha _ IH]; cbn; [done|]. rewrite Ha. unfold measured_len in IH. lia. Qed.
Lemma measured_none p l : Forall (λ a, p a = false) l → measured_len p l = 0.
Proof. induction 1 as [|a l Ha _ IH]; cbn; [done|]. by rewrite Ha. Qed.
Lemma measured_zero p l : measured_len p l = 0 → Forall (λ a, p a = false) l.
Proof.
  induction l as [|a l IH]; cbn; [done|]. intros H. pose proof (measured_nonneg p l). pose proof (a_len_pos a).
  unfold measured_len in *. destruct (p a) eqn:E; [lia|]. constructor; [done|apply IH; lia].
Qed.
(** What is left of a prefix after another one. *)
Lemma measured_cut p m r x y : m ++ r = x ++ y → measured_len p m ≤ measured_len p x →
  ∃ x' y', r = x' ++ y' ∧ measured_len p x' = measured_len p x - measured_len p m.
Proof.
  intros [(k & -> & ->)|(k & -> & ->)]%app_eq_inv H; rewrite measured_app in *.
  - exists [], r. split; [done|]. pose proof (measured_nonneg p k). change (measured_len p []) with 0. lia.
  - exists k, y. split; [done|lia].
Qed.
Lemma text_len b l : str_len (text_of b l) = measured_len (λ a, Bool.eqb (a_visible a) b) l.
Proof.
  induction l as [|a l IH]; [done|]. unfold text_of in *. rewrite filter_cons. cbn [measured_len foldr].
  case_decide as E.
  - rewrite E, Bool.eqb_reflx. cbn [map str_len]. rewrite IH. unfold a_len. done.
  - assert (Bool.eqb (a_visible a) b = false) as -> by by apply Bool.eqb_false_iff. done.
Qed.
Lemma atoms_from_app f o s t : atoms_from f o (s ++ t) = atoms_from f o s ++ atoms_from f (o + str_len s) t.
Proof.
  revert o. induction s as [|c s IH]; intros o; cbn [app atoms_from str_len]; [by rewrite Z.add_0_r|].
  rewrite IH. cbn [app]. by rewrite Z.add_assoc.
Qed.
Lemma atoms_from_text f o s b : text_of b (atoms_from f o s) = pick (Bool.eqb (Fragment.visible f) b) s.
Proof.
  revert o. induction s as [|c s IH]; intros o; [by destruct (Bool.eqb _ _)|]. cbn [atoms_from].
  change (text_of b (?a :: ?l)) with (text_of b ([a] ++ l)). rewrite text_of_app, IH. unfold text_of. rewrite filter_cons.
  cbn [a_visible]. case_decide as E; [rewrite E, Bool.eqb_reflx; done|].
  by assert (Bool.eqb (Fragment.visible f) b = false) as -> by by apply Bool.eqb_false_iff.
Qed.
Lemma atoms_from_forall f o s (P : atom → Prop) :
  (∀ o c, P (mk_atom (Fragment.timestamp f) o c (Fragment.visible f) (Fragment.deletions f) (Fragment.max_undos f))) →
  Forall P (atoms_from f o s).
Proof. intros H. revert o. induction s; intros; cbn; constructor; eauto. Qed.
Lemma atoms_from_same f g o s :
  Fragment.timestamp f = Fragment.timestamp g → Fragment.visible f = Fragment.visible g →
  Fragment.deletions f = Fragment.deletions g → Fragment.max_undos f = Fragment.max_undos g → atoms_from f o s = atoms_from g o s.
Proof. intros E1 E2 E3 E4. revert o. induction s as [|c s IH]; intros o; cbn; [done|]. by rewrite E1, E2, E3, E4, IH. Qed.
(** Deleting a character. *)
Definition kill (timestamp : Lamport.t) (a : atom) : atom :=
  mk_atom (a_timestamp a) (a_offset a) (a_char a) false (a_deletions a ++ [timestamp]) (a_undos a).
Lemma atoms_from_killed timestamp f o s :
  atoms_from (Fragment.set_visible false (Fragment.push_deletion timestamp f)) o s = map (kill timestamp) (atoms_from f o s).
Proof. revert o. induction s as [|c s IH]; intros o; cbn; [done|]. by rewrite IH. Qed.
Lemma atoms_from_chars f o s : map a_char (atoms_from f o s) = s.
Proof. revert o. induction s as [|c s IH]; intros o; cbn; [done|]. by rewrite IH. Qed.

Lemma atoms_from_offset f o s a : a ∈ atoms_from f o s → o ≤ a_offset a.
Proof.
  revert o. induction s as [|c s IH]; intros o; cbn; [by intros ?%not_elem_of_nil|].
  intros [->|H]%elem_of_cons; [done|]. apply IH in H. pose proof (len_utf8_bounds c). lia.
Qed.
(** Characters are told apart by where they were inserted. *)
Definition a_key (a : atom) : InsertionFragmentKey := mk_key (a_timestamp a) (a_offset a).
Abbreviation a_keys l := (map a_key l).

(** ** Fragments with their texts *)
Record cell := mk_cell { frag : Fragment.t; chars : str }.
Implicit Types (c : cell) (cs : list cell).
Record cell_ok c : Prop := {
  c_fragment : fragment_ok (frag c);
  c_scalars : scalars (chars c);
  c_some : chars c ≠ [];
  c_len : Fragment.len (frag c) = str_len (chars c);
  c_end : Fragment.insertion_offset (frag c) + Fragment.len (frag c) < 2 ^ 32;
}.
Definition atoms_of c : list atom := atoms_from (frag c) (Fragment.insertion_offset (frag c)) (chars c).
Definition atoms cs : list atom := flat_map atoms_of cs.
Definition frags cs : list Fragment.t := map frag cs.

Lemma atoms_app cs ds : atoms (cs ++ ds) = atoms cs ++ atoms ds.
Proof. apply flat_map_app. Qed.
Lemma atoms_one c : atoms [c] = atoms_of c.
Proof. apply app_nil_r. Qed.
Lemma frags_app cs ds : frags (cs ++ ds) = frags cs ++ frags ds.
Proof. apply map_app. Qed.
Lemma atoms_text b c : text_of b (atoms_of c) = pick (Bool.eqb (Fragment.visible (frag c)) b) (chars c).
Proof. apply atoms_from_text. Qed.
Lemma cells_ok_frags cs : Forall cell_ok cs → Forall fragment_ok (frags cs).
Proof. unfold frags. rewrite Forall_map. intros H. eapply Forall_impl; [exact H|]. by intros c []. Qed.
Lemma cell_len_pos c : cell_ok c → 0 < Fragment.len (frag c).
Proof.
  intros []. rewrite c_len0. destruct (chars c) as [|x s]; [done|]. cbn. pose proof (len_utf8_bounds x).
  pose proof (str_len_nonneg s). lia.
Qed.

(** Counting in fragments and in characters. *)
Section counted.
Variable counts : Lamport.t → bool → bool.
Definition counted f : bool := counts (Fragment.timestamp f) (Fragment.visible f).
Definition a_counted (a : atom) : bool := counts (a_timestamp a) (a_visible a).
Definition counted_len f : Z := if counted f then Fragment.len f else 0.
Lemma measured_from f o s : measured_len a_counted (atoms_from f o s) = if counted f then str_len s else 0.
Proof.
  revert o. unfold counted, a_counted. induction s as [|c s IH]; intros o; cbn; [by case_match|].
  unfold measured_len in IH. rewrite IH. unfold a_len. cbn. by case_match.
Qed.
Lemma measured_cells cs : Forall cell_ok cs → measured_len a_counted (atoms cs) = total counted_len (frags cs).
Proof.
  induction 1 as [|c cs Hc _ IH]; [done|]. cbn [atoms flat_map frags map total]. fold (atoms cs) (frags cs).
  rewrite measured_app, IH. unfold atoms_of. rewrite measured_from. unfold counted_len. by rewrite (c_len _ Hc).
Qed.
End counted.
Lemma visible_cells cs : Forall cell_ok cs → total visible_len (frags cs) = str_len (text_of true (atoms cs)).
Proof.
  intros H. rewrite text_len. etransitivity; [|symmetry; apply (measured_ext _ (a_counted (λ _ v, v)))].
  - rewrite measured_cells by done. done.
  - apply Forall_true. intros a. unfold a_counted. by destruct (a_visible a).
Qed.
Lemma deleted_cells cs : Forall cell_ok cs → total deleted_len (frags cs) = str_len (text_of false (atoms cs)).
Proof.
  intros H. rewrite text_len. etransitivity; [|symmetry; apply (measured_ext _ (a_counted (λ _ v, negb v)))].
  - rewrite measured_cells by done. clear H. induction cs as [|c cs IH]; [done|]. cbn. unfold frags in IH. rewrite IH. f_equal.
    unfold deleted_len, counted_len, counted. by destruct (Fragment.visible (frag c)).
  - apply Forall_true. intros a. unfold a_counted. by destruct (a_visible a).
Qed.
Lemma len_cells cs : Forall cell_ok cs → total Fragment.len (frags cs) = measured_len (λ _, true) (atoms cs).
Proof.
  intros H. change (λ _ : atom, true) with (a_counted (λ _ _, true)). by rewrite measured_cells.
Qed.

(** ** The first characters that make up a number of bytes *)
Section take_measured.
Variable p : atom → bool.
(** As few as possible. *)
Fixpoint take_measured (n : Z) l : list atom * list atom :=
  match l with
  | [] => ([], [])
  | a :: l' =>
      if n <=? 0 then ([], l)
      else let '(x, y) := take_measured (n - (if p a then a_len a else 0)) l' in (a :: x, y)
  end.
(** [x] is the shortest prefix of its length. *)
Definition shortest (x : list atom) : Prop := x = [] ∨ ∃ x' a, x = x' ++ [a] ∧ p a = true.
Lemma take_measured_ok x y : shortest x → take_measured (measured_len p x) (x ++ y) = (x, y).
Proof.
  induction x as [|a x IH]; intros Hx.
  - destruct y; [done|]. cbn. done.
  - cbn [app take_measured measured_len foldr]. fold (measured_len p x).
    destruct Hx as [Hx|(x' & b & Hx & Hb)]; [done|].
    assert (0 < (if p a then a_len a else 0) + measured_len p x) as Hpos.
    { change ((if p a then a_len a else 0) + measured_len p x) with (measured_len p (a :: x)). rewrite Hx, measured_app. cbn.
      rewrite Hb. pose proof (a_len_pos b). pose proof (measured_nonneg p x'). lia. }
    rewrite (proj2 (Z.leb_gt _ _)) by done.
    replace (_ + measured_len p x - _) with (measured_len p x) by lia. rewrite IH; [done|].
    destruct x' as [|b' x']; [left; by injection Hx|]. injection Hx as <- ->. right. by exists x', b.
Qed.
Lemma take_measured_app n l : (take_measured n l).1 ++ (take_measured n l).2 = l.
Proof.
  revert n. induction l as [|a l IH]; intros n; [done|]. cbn. case_match; [done|].
  specialize (IH (n - (if p a then a_len a else 0))). destruct (take_measured _ l). cbn in *. by rewrite IH.
Qed.
Lemma take_measured_shortest n l : measured_len p (take_measured n l).1 = n → shortest (take_measured n l).1.
Proof.
  revert n. induction l as [|a l IH]; intros n; cbn; [by left|].
  destruct (Z.leb_spec n 0) as [Hn|Hn]; [by left|].
  specialize (IH (n - (if p a then a_len a else 0))). destruct (take_measured _ l) as [x y]. cbn [fst] in *.
  intros H. change ((if p a then a_len a else 0) + measured_len p x = n) in H. destruct IH as [->|(x' & b & -> & Hb)]; [lia| |].
  - right. exists [], a. split; [done|]. change (measured_len p []) with 0 in H. destruct (p a); [done|lia].
  - right. by exists (a :: x'), b.
Qed.
End take_measured.

(** ** Identifiers *)
Definition id_ok f : Prop :=
  Locator.ok (Fragment.id f) ∧ Locator.tight (Fragment.id f) ∧
  Locator.cmp Locator.min (Fragment.id f) = Lt ∧ Locator.cmp (Fragment.id f) Locator.max = Lt.
Definition id_lt f g : Prop := Locator.cmp (Fragment.id f) (Fragment.id g) = Lt.
(** They increase along the fragments, and there is room before and after. *)
Definition ids_ok (fs : list Fragment.t) : Prop := Forall id_ok fs ∧ StronglySorted id_lt fs.
Implicit Types (fs gs : list Fragment.t).

Lemma ids_app fs gs : ids_ok (fs ++ gs) ↔ ids_ok fs ∧ ids_ok gs ∧ ∀ f g, f ∈ fs → g ∈ gs → id_lt f g.
Proof. unfold ids_ok. rewrite Forall_app, StronglySorted_app. naive_solver. Qed.
Lemma ids_one f : ids_ok [f] ↔ id_ok f.
Proof. unfold ids_ok. rewrite Forall_singleton. split; [by intros []|]. intros H. split; [done|]. by repeat constructor. Qed.
Definition next_id gs : Locator.t := match gs with g :: _ => Fragment.id g | [] => Locator.max end.
Lemma last_id_below fs f : ids_ok fs → f ∈ fs → Locator.cmp (Fragment.id f) (last_id fs) ≠ Gt.
Proof.
  intros H Hf. destruct fs as [|g fs _] using rev_ind; [by apply not_elem_of_nil in Hf|].
  unfold last_id. rewrite list.last_snoc. change (default _ _) with (Fragment.id g). apply ids_app in H as (_ & _ & H).
  apply elem_of_app in Hf as [Hf|Hf%list_elem_of_singleton]; [|subst; by rewrite cmp_refl by apply _].
  specialize (H f g Hf). unfold id_lt in H. rewrite H; [done|by apply list_elem_of_singleton].
Qed.
Lemma next_id_above gs g : ids_ok gs → g ∈ gs → Locator.cmp (next_id gs) (Fragment.id g) ≠ Gt.
Proof.
  intros H Hg. destruct gs as [|g' gs]; [by apply not_elem_of_nil in Hg|]. cbn.
  change (g' :: gs) with ([g'] ++ gs) in *. apply ids_app in H as (_ & _ & H).
  apply elem_of_app in Hg as [Hg%list_elem_of_singleton|Hg]; [subst; by rewrite cmp_refl by apply _|].
  specialize (H g' g). unfold id_lt in H. rewrite H; [done|by apply list_elem_of_singleton|done].
Qed.
Lemma last_next fs gs : ids_ok (fs ++ gs) →
  Locator.ok (last_id fs) ∧ Locator.ok (next_id gs) ∧ Locator.tight (next_id gs) ∧
  Locator.cmp (last_id fs) (next_id gs) = Lt ∧ Locator.cmp Locator.min (last_id fs) ≠ Gt ∧
  Locator.cmp (next_id gs) Locator.max ≠ Gt.
Proof.
  intros ((Hf & _) & (Hg & _) & H)%ids_app.
  assert (Locator.ok (last_id fs) ∧ Locator.cmp Locator.min (last_id fs) ≠ Gt ∧ Locator.cmp (last_id fs) Locator.max = Lt) as (H1 & H2 & H3).
  { unfold last_id. destruct fs as [|f fs _] using rev_ind; [split_and!; [apply Locator.min_ok|done|done]|]. rewrite list.last_snoc.
    change (default _ _) with (Fragment.id f). apply Forall_app in Hf as [_ [(? & ? & E & ?) _]%Forall_cons]. by rewrite E. }
  assert (Locator.ok (next_id gs) ∧ Locator.tight (next_id gs) ∧ Locator.cmp (next_id gs) Locator.max ≠ Gt) as (H4 & H5 & H6).
  { destruct gs as [|g gs]; cbn [next_id]; [split_and!; [apply Locator.max_ok|apply Locator.max_tight|done]|]. apply Forall_cons in Hg as [(? & ? & ? & E) _]. by rewrite E. }
  split_and!; try done. destruct gs as [|g gs]; [done|]. unfold last_id. cbn [next_id].
  destruct fs as [|f fs _] using rev_ind.
  - by apply Forall_cons in Hg as [(_ & _ & ? & _) _].
  - rewrite list.last_snoc. apply H; [apply elem_of_app; right; left|left].
Qed.
(** Room for one more fragment, or another one with the same identifier. *)
Lemma ids_room fs gs f :
  ids_ok (fs ++ gs) → Fragment.id f = Locator.between (last_id fs) (next_id gs) → ids_ok ((fs ++ [f]) ++ gs).
Proof.
  intros H E. destruct (last_next fs gs H) as (H1 & H2 & H3 & H4 & H5 & H6). apply ids_app in H as (Hf & Hg & H).
  pose proof (Locator.between_gt _ _ H1 H2) as Hgt. pose proof (Locator.between_lt _ _ H1 H2 H3 H4) as Hlt. rewrite <- E in *.
  assert (id_ok f) as Hok.
  { split_and!; [rewrite E; by apply Locator.between_ok|rewrite E; by apply Locator.between_tight| |].
    - by eapply (cmp_le_lt_trans Locator.cmp); [|exact Hgt].
    - by eapply (cmp_lt_le_trans Locator.cmp); [exact Hlt|]. }
  rewrite <- app_assoc, !ids_app, ids_one. split_and!; try done.
  - intros x y ->%list_elem_of_singleton Hy. eapply (cmp_lt_le_trans Locator.cmp); [exact Hlt|]. by apply next_id_above.
  - intros x y Hx [->%list_elem_of_singleton|Hy]%elem_of_app; [|by apply H].
    eapply (cmp_le_lt_trans Locator.cmp); [|exact Hgt]. by apply last_id_below.
Qed.
Lemma ids_same fs gs f g : ids_ok (fs ++ f :: gs) → Fragment.id g = Fragment.id f → ids_ok ((fs ++ [g]) ++ gs).
Proof.
  intros H E. rewrite <- app_assoc. cbn. unfold ids_ok in *. destruct H as [H1 H2]. split.
  - apply Forall_app in H1 as [? [? ?]%Forall_cons]. apply Forall_app. split; [done|]. constructor; [|done]. unfold id_ok. by rewrite E.
  - apply StronglySorted_app in H2 as (H3 & H4 & H5). apply StronglySorted_app. split_and!; [|done|].
    + intros x y Hx [->|Hy]%elem_of_cons; unfold id_lt; [rewrite E; apply H3; [done|left]|apply H3; [done|by right]].
    + apply StronglySorted_inv in H5 as [? H5]. constructor; [done|]. eapply Forall_impl; [exact H5|].
      intros x. unfold id_lt. by rewrite E.
Qed.
