(* ===== verification/EditMachine.v ===== *)
(** What the steps of an edit do ([Buffer.edit_state] of [Buffer]): how the
    cursor over the old fragments, the new fragments and the new ropes move
    together. Both ways to apply an edit, at the replica where it is made and at
    the others, are compositions of these steps. *)
From S2P Require Import Prelude Clock Locator Patch SumTree TreeFind Cursor TreeWeight ParTree Iter Keyed TreeMap UndoMap.
From S2P Require Import Utf8 Rope Fragments Buffer FragmentLaws Builders Cells.
Import Buffer.

(** A patch that is extended by one replacement. *)
Lemma relates_text p (a b d s : str) :
  Patch.relates 0 0 p (encode a) (encode b) →
  Patch.relates 0 0 (Patch.push p (Edit.mk (str_len a) (str_len a + str_len d) (str_len b) (str_len b + str_len s)))
    (encode (a ++ d)) (encode (b ++ s)).
Proof.
  intros H%(λ H, Patch.relates_push 0 0 p _ _ (encode d) (encode s) H). rewrite !encode_app.
  pose proof (len_encode a) as Ea. pose proof (len_encode b) as Eb. pose proof (len_encode d) as Ed. pose proof (len_encode s) as Es.
  unfold len in *. by rewrite Ea, Eb, Ed, Es in H.
Qed.

(** ** What was written *)
(** A fragment is taken over, written again (its identifier or its range
    changed), deleted, or new. *)
Inductive tag := Kept | Moved | Deleted | Inserted.
#[global] Instance tag_eq_dec : EqDecision tag.
Proof. solve_decision. Defined.
Record written := mk_written { w_tag : tag; w_cell : cell }.
Implicit Types (out : list written) (c : cell) (bf rest cs : list cell) (t m q s : str).
Definition cells out : list cell := map w_cell out.
Definition all_len (l : list atom) : Z := measured_len (λ _, true) l.
Definition doc out : list atom := atoms (cells out).
Definition with_tag (p : tag → bool) out : list Fragment.t := frags (cells (filter (λ w, p (w_tag w) = true) out)).
Definition is_new (x : tag) : bool := match x with Kept => false | _ => true end.
Definition is_changed (x : tag) : bool := match x with Deleted | Inserted => true | _ => false end.
Definition is_insertion (x : tag) : bool := match x with Inserted => true | _ => false end.
Definition kept cs : list written := map (mk_written Kept) cs.

Lemma cells_app out out' : cells (out ++ out') = cells out ++ cells out'.
Proof. apply map_app. Qed.
Lemma doc_app out out' : doc (out ++ out') = doc out ++ doc out'.
Proof. unfold doc. by rewrite cells_app, atoms_app. Qed.
Lemma doc_one x c : doc [mk_written x c] = atoms_of c.
Proof. apply atoms_one. Qed.
Lemma cells_kept cs : cells (kept cs) = cs.
Proof. unfold cells, kept. rewrite map_map. apply map_id. Qed.
Lemma doc_kept cs : doc (kept cs) = atoms cs.
Proof. unfold doc. by rewrite cells_kept. Qed.
Lemma with_tag_app p out out' : with_tag p (out ++ out') = with_tag p out ++ with_tag p out'.
Proof. unfold with_tag. by rewrite list.filter_app, cells_app, frags_app. Qed.
Lemma with_tag_one p x c : with_tag p [mk_written x c] = if p x then [frag c] else [].
Proof. unfold with_tag. rewrite filter_cons. cbn [w_tag]. destruct (p x); [by rewrite decide_True|by rewrite decide_False]. Qed.
Lemma with_tag_kept p cs : p Kept = false → with_tag p (kept cs) = [].
Proof.
  intros H. unfold with_tag. induction cs as [|c cs IH]; [done|]. cbn [kept map]. rewrite filter_cons. cbn [w_tag].
  rewrite decide_False by by rewrite H. exact IH.
Qed.

(** ** Where the walk is *)
(** Before and after the text [t] of the current fragment, which was consumed. *)
Definition behind bf t rest : list atom :=
  atoms bf ++ match rest with c :: _ => atoms_from (frag c) (Fragment.insertion_offset (frag c)) t | [] => [] end.
Definition ahead t rest : list atom :=
  match rest with
  | c :: rest =>
      atoms_from (frag c) (Fragment.insertion_offset (frag c) + str_len t) (drop (length t) (chars c)) ++ atoms rest
  | [] => []
  end.
Lemma ahead_start rest : ahead [] rest = atoms rest.
Proof. destruct rest; [done|]. cbn. by rewrite Z.add_0_r, drop_0. Qed.
Lemma ahead_cons t m q c rest :
  chars c = t ++ m ++ q →
  ahead t (c :: rest) = atoms_from (frag c) (Fragment.insertion_offset (frag c) + str_len t) m ++ ahead (t ++ m) (c :: rest).
Proof.
  intros E. cbn [ahead]. rewrite E. rewrite drop_app_length, (app_assoc t m q), drop_app_length.
  by rewrite atoms_from_app, str_len_app, <- app_assoc, Z.add_assoc.
Qed.
Lemma ahead_done c rest : ahead (chars c) (c :: rest) = atoms rest.
Proof. cbn. by rewrite drop_all. Qed.
Lemma behind_start bf rest : behind bf [] rest = atoms bf.
Proof. unfold behind. destruct rest; cbn; apply app_nil_r. Qed.
Lemma behind_app bf t m c rest :
  behind bf (t ++ m) (c :: rest)
  = behind bf t (c :: rest) ++ atoms_from (frag c) (Fragment.insertion_offset (frag c) + str_len t) m.
Proof. unfold behind. by rewrite atoms_from_app, app_assoc. Qed.
Lemma behind_done bf c rest : behind bf (chars c) (c :: rest) = atoms (bf ++ [c]).
Proof. unfold behind. by rewrite atoms_app, atoms_one. Qed.
Lemma behind_ahead bf t rest :
  match rest with c :: _ => t `prefix_of` chars c | [] => t = [] end →
  atoms (bf ++ rest) = behind bf t rest ++ ahead t rest.
Proof.
  destruct rest as [|c rest]; [intros ->; unfold behind; cbn; by rewrite !app_nil_r|]. intros [m E].
  unfold behind. rewrite atoms_app, <- app_assoc. f_equal. rewrite <- (ahead_start (c :: rest)).
  rewrite (ahead_cons [] t m c rest E). cbn [str_len app]. by rewrite Z.add_0_r.
Qed.

(** Where the fragments that were written come from. *)
Definition piece c' c : Prop :=
  Fragment.timestamp (frag c') = Fragment.timestamp (frag c) ∧
  ∃ t q, chars c = t ++ chars c' ++ q ∧
    Fragment.insertion_offset (frag c') = Fragment.insertion_offset (frag c) + str_len t.
Definition marks (timestamp : Lamport.t) (x : tag) : list Lamport.t := match x with Deleted => [timestamp] | _ => [] end.
Definition comes_from (timestamp : Lamport.t) cs (w : written) : Prop :=
  match w_tag w with
  | Inserted => Fragment.timestamp (frag (w_cell w)) = timestamp ∧ Fragment.deletions (frag (w_cell w)) = []
  | Kept => w_cell w ∈ cs
  | x => ∃ c, c ∈ cs ∧ piece (w_cell w) c ∧
           Fragment.deletions (frag (w_cell w)) = Fragment.deletions (frag c) ++ marks timestamp x
  end.

(** ** The state of an edit *)
Section machine.
Context {D : Type} `{!Dimension D FragmentSummary, !Measured D Fragment.t FragmentSummary,
  !Positions D Fragment.t FragmentSummary}.
Abbreviation state := (edit_state D).
Variable timestamp : Lamport.t.
(** The text that is still to be inserted is no longer than [extra]. *)
Record sim (extra : Z) (st : state) out bf t rest : Prop := {
  m_cursor : Cursor.positioned (old_fragments st) (frags bf) (frags rest);
  m_prefix : match rest with c :: _ => t `prefix_of` chars c | [] => t = [] end;
  m_old : Forall cell_ok (bf ++ rest);
  m_out : Forall cell_ok (cells out);
  m_built : built (new_fragments st) (frags (cells out));
  m_ropes : ∃ av ad, ropes_at (new_ropes st) av (text_of true (ahead t rest)) ad (text_of false (ahead t rest))
                       (text_of true (doc out)) (text_of false (doc out));
  m_insertions : new_insertions st = map insert_new (with_tag is_new out);
  m_slices : slices st = map (from_fragment timestamp) (with_tag is_changed out);
  m_offset : insertion_offset st = total Fragment.len (with_tag is_insertion out);
  m_patch : Patch.relates 0 0 (edits_patch st) (encode (text_of true (behind bf t rest))) (encode (text_of true (doc out)));
  m_from : Forall (comes_from timestamp (bf ++ rest)) out;
  m_small : all_len (doc out) + all_len (ahead t rest) + extra < 2 ^ 32;
  m_small_old : all_len (atoms (bf ++ rest)) < 2 ^ 32;
  m_extra : 0 ≤ extra;
}.

Lemma all_len_nonneg l : 0 ≤ all_len l.
Proof. apply measured_nonneg. Qed.
Lemma all_len_app l k : all_len (l ++ k) = all_len l + all_len k.
Proof. apply measured_app. Qed.
Lemma all_len_from f o s : all_len (atoms_from f o s) = str_len s.
Proof. apply (measured_from (λ _ _, true)). Qed.
Lemma measured_le p l : measured_len p l ≤ all_len l.
Proof.
  unfold all_len. induction l as [|a l IH]; cbn; [done|]. pose proof (a_len_pos a). unfold measured_len in IH. case_match; lia.
Qed.
Lemma text_of_le b l : str_len (text_of b l) ≤ all_len l.
Proof. rewrite text_len. apply measured_le. Qed.

Lemma sim_item extra st out bf t rest : sim extra st out bf t rest → Cursor.item (old_fragments st) = Some (head (frags rest)).
Proof. intros H. eapply Cursor.item_ok, m_cursor, H. Qed.
Lemma sim_current extra st out bf t c rest : sim extra st out bf t (c :: rest) → current st = Some (frag c).
Proof. intros H. unfold current. by rewrite (sim_item _ _ _ _ _ _ H). Qed.
Lemma sim_start extra st out bf t rest : sim extra st out bf t rest → Cursor.start (old_fragments st) = dim D (frags bf).
Proof. intros H. eapply Cursor.p_position, m_cursor, H. Qed.
Lemma sim_end extra st out bf t rest :
  sim extra st out bf t rest →
  Cursor.end_ (old_fragments st) = Some (dim D (frags (bf ++ match rest with c :: _ => [c] | [] => [] end))).
Proof.
  intros H. rewrite (Cursor.end_ok _ _ _ (m_cursor _ _ _ _ _ _ H)), frags_app. by destruct rest.
Qed.
Lemma sim_new_start extra st out bf t rest : sim extra st out bf t rest → new_start st = str_len (text_of true (doc out)).
Proof.
  intros H. unfold new_start. rewrite (b_summary _ _ (m_built _ _ _ _ _ _ H)), measure_text. cbn [visible].
  rewrite visible_cells by apply (m_out _ _ _ _ _ _ H). apply wrap64_small.
  pose proof (text_of_le true (doc out)). pose proof (str_len_nonneg (text_of true (doc out))).
  pose proof (m_small _ _ _ _ _ _ H). pose proof (all_len_nonneg (ahead t rest)). pose proof (m_extra _ _ _ _ _ _ H). unfold doc in *. lia.
Qed.
Lemma sim_max_id extra st out bf t rest : sim extra st out bf t rest → new_max_id st = last_id (frags (cells out)).
Proof. intros H. unfold new_max_id. by rewrite (b_summary _ _ (m_built _ _ _ _ _ _ H)), measure_id. Qed.

(** What a step logs before it writes the fragment [f] over text of a fragment
    that was [was] visible; [old] is the place in the old visible text. *)
Record logs (st st1 : state) (old : Z) (was : bool) (x : tag) f : Prop := {
  l_old : old_fragments st1 = old_fragments st;
  l_start : fragment_start st1 = fragment_start st;
  l_new : new_fragments st1 = new_fragments st;
  l_ropes : new_ropes st1 = new_ropes st;
  l_insertions : new_insertions st1 = new_insertions st ++ (if is_new x then [insert_new f] else []);
  l_slices : slices st1 = slices st ++ (if is_changed x then [from_fragment timestamp f] else []);
  l_offset : insertion_offset st1 = insertion_offset st;
  l_patch : edits_patch st1 =
    if was && negb (Fragment.visible f)
    then Patch.push (edits_patch st) (Edit.mk old (old + Fragment.len f) (new_start st) (new_start st))
    else edits_patch st;
}.
(** Writing the text [m] of the current fragment after [t]. *)
Lemma push_fragment_ok extra st st1 out bf t m q c rest x f :
  sim extra st out bf t (c :: rest) → chars c = t ++ m ++ q → cell_ok (mk_cell f m) →
  x ≠ Inserted → (x = Kept → f = frag c ∧ m = chars c) →
  Fragment.timestamp f = Fragment.timestamp (frag c) →
  Fragment.insertion_offset f = Fragment.insertion_offset (frag c) + str_len t →
  Fragment.deletions f = Fragment.deletions (frag c) ++ marks timestamp x →
  (Fragment.visible f = true → Fragment.visible (frag c) = true) →
  logs st st1 (str_len (text_of true (behind bf t (c :: rest)))) (Fragment.visible (frag c)) x f →
  ∃ st', push_fragment f (Fragment.visible (frag c)) st1 = Some st' ∧
    sim extra st' (out ++ [mk_written x (mk_cell f m)]) bf (t ++ m) (c :: rest) ∧ fragment_start st' = fragment_start st.
Proof.
  intros H E Hf Hx Hk Hts Hoff Hdel Hvis L. pose proof (c_len _ Hf) as Hlen. cbn [frag chars] in Hlen.
  destruct (m_ropes _ _ _ _ _ _ H) as (av & ad & Hr). pose proof (m_small _ _ _ _ _ _ H) as Hsmall.
  rewrite (ahead_cons t m q c rest E), !text_of_app, !atoms_from_text in Hr.
  rewrite (ahead_cons t m q c rest E), all_len_app, all_len_from in Hsmall.
  pose proof (all_len_nonneg (ahead (t ++ m) (c :: rest))). pose proof (m_extra _ _ _ _ _ _ H).
  set (f0 := frag c) in *. set (was := Fragment.visible f0) in *.
  assert (∀ b, Bool.eqb was b = if b then was else negb was) as Eb by (intros []; by destruct was).
  rewrite !Eb in Hr.
  assert (∀ b, text_of b (doc (out ++ [mk_written x (mk_cell f m)]))
             = text_of b (doc out) ++ pick (if b then Fragment.visible f else negb (Fragment.visible f)) m) as Ed.
  { intros b. rewrite doc_app, text_of_app, doc_one, atoms_text. cbn [frag chars]. f_equal. by destruct b, (Fragment.visible f). }
  assert (∀ b k, sized (text_of b (doc out) ++ pick k m)) as Hsz.
  { intros b k. unfold sized. rewrite str_len_app. pose proof (text_of_le b (doc out)). pose proof (str_len_nonneg m).
    destruct k; cbn [pick str_len]; lia. }
  destruct (ropes_push _ was (Fragment.visible f) m _ _ _ _ _ _ Hr (Hsz _ _) (Hsz _ _)) as (rb & Erb & Hrb).
  unfold push_fragment, RopeBuilder.push_fragment. rewrite (l_ropes _ _ _ _ _ _ L), Hlen, Erb. cbn [mbind option_bind].
  eexists. split; [done|]. split; [|apply (l_start _ _ _ _ _ _ L)].
  split; cbn [old_fragments new_fragments new_ropes new_insertions slices insertion_offset edits_patch fragment_start].
  - rewrite (l_old _ _ _ _ _ _ L). apply (m_cursor _ _ _ _ _ _ H).
  - exists q. by rewrite E, app_assoc.
  - apply (m_old _ _ _ _ _ _ H).
  - rewrite cells_app. apply Forall_app. split; [apply (m_out _ _ _ _ _ _ H)|]. by apply Forall_singleton.
  - rewrite cells_app, frags_app, (l_new _ _ _ _ _ _ L). apply built_push, (m_built _ _ _ _ _ _ H).
  - exists (av ++ pick was m), (ad ++ pick (negb was) m). by rewrite !Ed.
  - rewrite (l_insertions _ _ _ _ _ _ L), (m_insertions _ _ _ _ _ _ H), with_tag_app, with_tag_one, map_app. by destruct (is_new x).
  - rewrite (l_slices _ _ _ _ _ _ L), (m_slices _ _ _ _ _ _ H), with_tag_app, with_tag_one, map_app. by destruct (is_changed x).
  - rewrite (l_offset _ _ _ _ _ _ L), (m_offset _ _ _ _ _ _ H), with_tag_app, with_tag_one. destruct x; [..|done]; by rewrite app_nil_r.
  - rewrite (l_patch _ _ _ _ _ _ L), Ed, behind_app, text_of_app, atoms_from_text, !encode_app. fold f0 was. rewrite Eb.
    pose proof (m_patch _ _ _ _ _ _ H) as Hp. destruct was eqn:Ew, (Fragment.visible f) eqn:Ef; cbn [pick andb negb].
    + by apply Patch.relates_gap.
    + rewrite (sim_new_start _ _ _ _ _ _ H), Hlen, <- !encode_app.
      rewrite <- (Z.add_0_r (str_len (text_of true (doc out)))) at 2. by apply (relates_text _ _ _ m []).
    + by specialize (Hvis eq_refl).
    + by rewrite !app_nil_r.
  - apply Forall_app. split; [apply (m_from _ _ _ _ _ _ H)|]. apply Forall_singleton. unfold comes_from. cbn [w_tag w_cell].
    assert (c ∈ bf ++ c :: rest) as Hin by (apply elem_of_app; right; left).
    assert (piece (mk_cell f m) c) as Hpc by (split; [done|]; by exists t, q).
    destruct x; [|by exists c..|done]. destruct (Hk eq_refl) as [-> ->]. by destruct c.
  - rewrite doc_app, all_len_app, doc_one. unfold atoms_of. rewrite all_len_from. cbn [frag chars]. lia.
  - apply (m_small_old _ _ _ _ _ _ H).
  - done.
Qed.

(** ** Moving on *)
Lemma machine_advance_ok extra st out bf c rest :
  sim extra st out bf (chars c) (c :: rest) →
  ∃ st', advance st = Some st' ∧ sim extra st' out (bf ++ [c]) [] rest ∧ fragment_start st' = fragment_start st.
Proof.
  intros H. destruct (Cursor.next_ok _ _ _ _ (m_cursor _ _ _ _ _ _ H)) as (cur & E & Hc).
  unfold advance. rewrite E. cbn [mbind option_bind]. eexists. split; [done|]. split; [|done].
  assert (bf ++ c :: rest = (bf ++ [c]) ++ rest) as Eo by by rewrite <- app_assoc.
  destruct H. rewrite ahead_done in *. rewrite behind_done in *. rewrite Eo in *.
  split; cbn [old_fragments new_fragments new_ropes new_insertions slices insertion_offset edits_patch]; try done.
  - by rewrite frags_app.
  - destruct rest; [done|]. apply prefix_nil.
  - by rewrite ahead_start.
  - by rewrite behind_start.
  - by rewrite ahead_start.
Qed.

(** *** Positions *)
Variable counts : Lamport.t → bool → bool.
Variable pos : D → option Z.
Hypothesis pos_dim : ∀ l, 0 ≤ total (counted_len counts) l < 2 ^ 64 → pos (dim D l) = Some (total (counted_len counts) l).
Abbreviation measured := (measured_len (a_counted counts)).
Definition here bf t rest : Z := measured (behind bf t rest).
Definition stop bf rest : Z := measured (atoms (bf ++ match rest with c :: _ => [c] | [] => [] end)).

Lemma pos_cells cs : Forall cell_ok cs → all_len (atoms cs) < 2 ^ 32 → pos (dim D (frags cs)) = Some (measured (atoms cs)).
Proof.
  intros H Hs. pose proof (measured_le (a_counted counts) (atoms cs)). pose proof (measured_nonneg (a_counted counts) (atoms cs)).
  rewrite pos_dim; rewrite <- measured_cells by done; [done|lia].
Qed.
Lemma small_app cs ds : all_len (atoms (cs ++ ds)) < 2 ^ 32 → all_len (atoms cs) < 2 ^ 32.
Proof. rewrite atoms_app, all_len_app. pose proof (all_len_nonneg (atoms ds)). lia. Qed.
Lemma start_ok extra st out bf t rest : sim extra st out bf t rest → current_start pos st = Some (measured (atoms bf)).
Proof.
  intros H. unfold current_start. rewrite (sim_start _ _ _ _ _ _ H). apply pos_cells.
  - by apply (Forall_app _ bf rest), (m_old _ _ _ _ _ _ H).
  - eapply small_app, (m_small_old _ _ _ _ _ _ H).
Qed.
Lemma fragment_end_ok extra st out bf t rest : sim extra st out bf t rest → current_end pos st = Some (stop bf rest).
Proof.
  intros H. unfold current_end, stop. rewrite (sim_end _ _ _ _ _ _ H). cbn [mbind option_bind].
  pose proof (m_old _ _ _ _ _ _ H) as Ho. pose proof (m_small_old _ _ _ _ _ _ H) as Hs.
  destruct rest as [|c rest]; [rewrite app_nil_r in *; by apply pos_cells|].
  change (c :: rest) with ([c] ++ rest) in *. rewrite app_assoc in *.
  apply pos_cells; [by apply Forall_app in Ho as [? _]|by eapply small_app].
Qed.

(** A state between two steps: the current fragment is only partly consumed where
    its text counts, and the new identifiers are below those ahead. *)
Record walk (extra : Z) st out bf t rest : Prop := {
  w_sim : sim extra st out bf t rest;
  w_start : fragment_start st = here bf t rest;
  w_counted : t = [] ∨ ∃ c rest', rest = c :: rest' ∧ counted counts (frag c) = true;
  w_ids : ids_ok (frags (cells out) ++ frags rest);
}.

(** *** Parts of the current fragment *)
Lemma walk_offset extra st out bf t c rest :
  walk extra st out bf t (c :: rest) → fragment_start st = measured (atoms bf) + str_len t.
Proof.
  intros [_ -> Hc _]. unfold here, behind. rewrite measured_app, measured_from.
  destruct Hc as [->|(? & ? & [= <- <-] & ->)]; [|done]. by destruct (counted _ _).
Qed.
Lemma walk_here extra st out bf t rest : walk extra st out bf t rest → 0 ≤ fragment_start st < 2 ^ 32.
Proof.
  intros [H -> _ _]. unfold here. split; [apply measured_nonneg|]. pose proof (measured_le (a_counted counts) (behind bf t rest)).
  pose proof (m_small_old _ _ _ _ _ _ H) as Hs. rewrite (behind_ahead _ _ _ (m_prefix _ _ _ _ _ _ H)), all_len_app in Hs.
  pose proof (all_len_nonneg (ahead t rest)). lia.
Qed.
Lemma sim_cell extra st out bf t c rest : sim extra st out bf t (c :: rest) → cell_ok c.
Proof. intros H. pose proof (m_old _ _ _ _ _ _ H) as Ho. by apply Forall_app in Ho as [_ [? _]%Forall_cons]. Qed.
Lemma part_ok extra st out bf t m q c rest :
  walk extra st out bf t (c :: rest) → chars c = t ++ m ++ q →
  part pos (fragment_start st + str_len m) st (frag c)
  = Some (Fragment.set_range (Fragment.insertion_offset (frag c) + str_len t) (str_len m) (frag c)).
Proof.
  intros H E. pose proof (sim_cell _ _ _ _ _ _ _ (w_sim _ _ _ _ _ _ H)) as Hc. unfold part.
  rewrite (start_ok _ _ _ _ _ _ (w_sim _ _ _ _ _ _ H)). cbn [mbind option_bind]. pose proof (walk_here _ _ _ _ _ _ H) as Hh.
  pose proof (walk_offset _ _ _ _ _ _ _ H) as Ho. pose proof (measured_nonneg (a_counted counts) (atoms bf)).
  pose proof (ok_offset _ (c_fragment _ Hc)). pose proof (c_end _ Hc) as He. rewrite (c_len _ Hc), E, !str_len_app in He.
  pose proof (str_len_nonneg t). pose proof (str_len_nonneg m). pose proof (str_len_nonneg q).
  do 2 f_equal; unfold wrap32, wrap64; rewrite ?(Z.mod_small (_ - _) (2 ^ 64)) by lia; rewrite ?(Z.mod_small (_ - _) (2 ^ 32)) by lia;
    [rewrite Z.mod_small; lia|lia].
Qed.
Definition cut c t m f : cell := mk_cell (Fragment.set_range (Fragment.insertion_offset (frag c) + str_len t) (str_len m) f) m.
Lemma cut_ok c t m q f :
  cell_ok c → chars c = t ++ m ++ q → m ≠ [] → fragment_ok f → cell_ok (cut c t m f).
Proof.
  intros Hc E Hm Hf. pose proof (c_len _ Hc) as Hl. pose proof (c_end _ Hc) as He. pose proof (ok_offset _ (c_fragment _ Hc)).
  pose proof (c_scalars _ Hc) as Hs. rewrite E in Hl, Hs. rewrite !str_len_app in Hl. apply scalars_app in Hs as [_ [Hs _]%scalars_app].
  pose proof (str_len_nonneg t). pose proof (str_len_nonneg m). pose proof (str_len_nonneg q).
  destruct Hf. split; cbn; [split; cbn; (done || lia)|done..|lia].
Qed.

(** [new_insertions.push] before it is written. *)
Definition add_insertion f (st : state) : state :=
  mk_state (old_fragments st) (fragment_start st) (new_fragments st) (new_ropes st) (new_insertions st ++ [insert_new f])
    (slices st) (insertion_offset st) (edits_patch st).
Lemma emit_def f was (st : state) : emit f was st = push_fragment f was (add_insertion f st).
Proof. done. Qed.
Lemma plain_logs st old f : logs st (add_insertion f st) old (Fragment.visible f) Moved f.
Proof. split; try done; cbn; [by rewrite app_nil_r|by destruct (Fragment.visible f)]. Qed.
Lemma keep_logs st old f : logs st st old (Fragment.visible f) Kept f.
Proof. split; try done; cbn; rewrite ?app_nil_r; [done..|by destruct (Fragment.visible f)]. Qed.

(** Writing a part of the current fragment unchanged, but for its identifier. *)
Lemma emit_part_ok extra st out bf t m q c rest f :
  walk extra st out bf t (c :: rest) → chars c = t ++ m ++ q → m ≠ [] →
  (∃ i, f = Fragment.set_id i (frag (cut c t m (frag c)))) →
  ∃ st', emit f (Fragment.visible f) st = Some st' ∧
    sim extra st' (out ++ [mk_written Moved (mk_cell f m)]) bf (t ++ m) (c :: rest) ∧
    fragment_start st' = fragment_start st.
Proof.
  intros H E Hm (i & ->). pose proof (w_sim _ _ _ _ _ _ H) as Hs. pose proof (sim_cell _ _ _ _ _ _ _ Hs) as Hc.
  set (f := Fragment.set_id i _). rewrite emit_def. change (Fragment.visible f) with (Fragment.visible (frag c)).
  apply (push_fragment_ok extra st _ out bf t m q); try done.
  - destruct (cut_ok c t m q (frag c) Hc E Hm (c_fragment _ Hc)) as [[] ? ? ? ?]. by split.
  - symmetry. apply app_nil_r.
  - exact (plain_logs st _ f).
Qed.
Lemma push_suffix_ok extra st out bf t q c rest :
  walk extra st out bf t (c :: rest) → chars c = t ++ q → q ≠ [] →
  ∃ st', push_suffix pos (fragment_start st + str_len q) st = Some st' ∧
    sim extra st' (out ++ [mk_written Moved (cut c t q (frag c))]) bf (chars c) (c :: rest) ∧
    fragment_start st' = fragment_start st.
Proof.
  intros H E Hq. pose proof (w_sim _ _ _ _ _ _ H) as Hs. unfold push_suffix.
  rewrite (sim_current _ _ _ _ _ _ _ Hs). cbn [mbind option_bind]. rewrite <- (app_nil_r q) in E.
  rewrite (part_ok _ _ _ _ _ _ _ _ _ H E). cbn [mbind option_bind].
  destruct (emit_part_ok _ _ _ _ t q [] c rest (frag (cut c t q (frag c))) H E Hq) as (st' & Est & Hst & Hf).
  { exists (Fragment.id (frag c)). done. }
  exists st'. split; [done|]. split; [|done]. rewrite app_nil_r in E. by rewrite E.
Qed.

(** *** Consuming the rest of the current fragment *)
Lemma atoms_cut c t m i : atoms_of (mk_cell (Fragment.set_id i (frag (cut c t m (frag c)))) m)
  = atoms_from (frag c) (Fragment.insertion_offset (frag c) + str_len t) m.
Proof. by apply atoms_from_same. Qed.
Lemma atoms_cut' c t m : atoms_of (cut c t m (frag c)) = atoms_from (frag c) (Fragment.insertion_offset (frag c) + str_len t) m.
Proof. by apply atoms_from_same. Qed.
Lemma consume_ok extra st out bf t q c rest :
  walk extra st out bf t (c :: rest) → chars c = t ++ q → q ≠ [] →
  ∃ st1 st2, push_suffix pos (fragment_start st + str_len q) st = Some st1 ∧ advance st1 = Some st2 ∧
    let k := [mk_written Moved (cut c t q (frag c))] in
    sim extra st2 (out ++ k) (bf ++ [c]) [] rest ∧ ids_ok (frags (cells (out ++ k)) ++ frags rest) ∧
    ahead t (c :: rest) = doc k ++ atoms rest ∧ fragment_start st2 = fragment_start st.
Proof.
  intros H E Hq. destruct (push_suffix_ok _ _ _ _ _ _ _ _ H E Hq) as (st1 & E1 & H1 & Hf1).
  destruct (machine_advance_ok _ _ _ _ _ _ H1) as (st2 & E2 & H2 & Hf2). exists st1, st2.
  split; [done|]. split; [done|]. intros k. split_and!; [done| | |by rewrite Hf2].
  - rewrite cells_app, frags_app. apply (ids_same _ _ (frag c)); [|done]. apply (w_ids _ _ _ _ _ _ H).
  - unfold k. rewrite doc_one, atoms_cut', (ahead_cons t q []) by by rewrite app_nil_r. by rewrite <- E, ahead_done.
Qed.
Lemma walk_stop extra st out bf t q c rest :
  walk extra st out bf t (c :: rest) → chars c = t ++ q → counted counts (frag c) = true →
  stop bf (c :: rest) = fragment_start st + str_len q.
Proof.
  intros H E Hcc. pose proof (walk_offset _ _ _ _ _ _ _ H) as Ho. unfold stop. rewrite atoms_app, atoms_one, measured_app.
  unfold atoms_of. rewrite measured_from, Hcc, E, str_len_app. lia.
Qed.
Lemma finish_fragment_ok extra st out bf t rest :
  walk extra st out bf t rest →
  ∃ st' k bf' rest', finish_fragment pos st = Some st' ∧ sim extra st' (out ++ k) bf' [] rest' ∧
    ids_ok (frags (cells (out ++ k)) ++ frags rest') ∧ bf' ++ rest' = bf ++ rest ∧
    ahead t rest = doc k ++ atoms rest' ∧ measured (atoms bf') ≤ stop bf rest ∧
    Forall (λ w, w_tag w = Moved ∨ w_tag w = Kept) k ∧ fragment_start st' = fragment_start st.
Proof.
  intros H. pose proof (w_sim _ _ _ _ _ _ H) as Hs. unfold finish_fragment.
  rewrite (start_ok _ _ _ _ _ _ Hs). cbn [mbind option_bind].
  assert (measured (atoms bf) ≤ stop bf rest) as Hstop.
  { unfold stop. rewrite atoms_app, measured_app.
    match goal with |- _ ≤ _ + measured ?l => pose proof (measured_nonneg (a_counted counts) l) end. lia. }
  destruct (Z.ltb_spec (measured (atoms bf)) (fragment_start st)) as [Hlt|Hge].
  - destruct rest as [|c rest].
    { pose proof (m_prefix _ _ _ _ _ _ Hs) as ->. rewrite (w_start _ _ _ _ _ _ H) in Hlt. unfold here in Hlt.
      rewrite behind_start in Hlt. lia. }
    rewrite (fragment_end_ok _ _ _ _ _ _ Hs). cbn [mbind option_bind].
    pose proof (walk_offset _ _ _ _ _ _ _ H) as Ho. destruct (m_prefix _ _ _ _ _ _ Hs) as [q E].
    destruct (w_counted _ _ _ _ _ _ H) as [->|(? & ? & [= <- <-] & Hcc)]; [cbn in Ho; lia|].
    pose proof (walk_stop _ _ _ _ _ _ _ _ H E Hcc) as Est. rewrite Est. clear Hstop.
    assert (bf ++ c :: rest = (bf ++ [c]) ++ rest) as Eo by by rewrite <- app_assoc.
    assert (measured (atoms (bf ++ [c])) = fragment_start st + str_len q) as Em by (by rewrite <- Est).
    destruct q as [|x q].
    + cbn [str_len]. rewrite (proj2 (Z.ltb_ge _ _)) by lia. cbn [mbind option_bind]. rewrite app_nil_r in E. subst t.
      destruct (machine_advance_ok _ _ _ _ _ _ Hs) as (st' & E' & H' & Hf). rewrite E'.
      exists st', [], (bf ++ [c]), rest. rewrite app_nil_r. split_and!; try done.
      * pose proof (w_ids _ _ _ _ _ _ H) as Hi. change (frags (c :: rest)) with ([frag c] ++ frags rest) in Hi.
        apply ids_app in Hi as (Hi1 & [_ Hi2]%ids_app & Hi3). apply ids_app. split_and!; [done|by apply Hi2|].
        intros f g Hf' Hg. apply Hi3; [done|]. apply elem_of_app. by right.
      * by rewrite ahead_done.
      * rewrite Em. cbn. lia.
    + rewrite (proj2 (Z.ltb_lt _ _)) by (cbn [str_len]; pose proof (len_utf8_bounds x); pose proof (str_len_nonneg q); lia).
      destruct (consume_ok _ _ _ _ _ _ _ _ H E) as (st1 & st2 & E1 & E2 & H2 & Hi & Ha & Hf); [done|].
      rewrite E1. cbn [mbind option_bind]. rewrite E2. eexists st2, _, (bf ++ [c]), rest.
      split_and!; try done; [by rewrite Em|]. by repeat constructor.
  - assert (t = []) as ->.
    { destruct (w_counted _ _ _ _ _ _ H) as [->|(c & rest' & -> & Hcc)]; [done|].
      pose proof (walk_offset _ _ _ _ _ _ _ H). destruct t as [|x t]; [done|]. cbn [str_len] in *.
      pose proof (len_utf8_bounds x). pose proof (str_len_nonneg t). lia. }
    exists st, [], bf, rest. rewrite app_nil_r, ahead_start. split_and!; try done. apply (w_ids _ _ _ _ _ _ H).
Qed.

(** *** Jumping ahead *)
Section jump.
Variable target : Z → D → comparison.
Variable b : bias.
Hypothesis target_dim : ∀ x l,
  0 ≤ total (counted_len counts) l < 2 ^ 64 → target x (dim D l) = Z.compare x (total (counted_len counts) l).
Hypothesis target_clear : ∀ x d, vague d → skips (target x d) b = false.
Lemma target_cells x cs : Forall cell_ok cs → all_len (atoms cs) < 2 ^ 32 →
  target x (dim D (frags cs)) = Z.compare x (measured (atoms cs)).
Proof.
  intros H Hs. pose proof (measured_le (a_counted counts) (atoms cs)). pose proof (measured_nonneg (a_counted counts) (atoms cs)).
  rewrite target_dim; rewrite <- measured_cells by done; [done|lia].
Qed.
(** How far the cursor goes: over [mid], and not the next fragment. *)
Definition jumped (x : Z) bf mid rest : Prop :=
  (mid = [] ∨ skips (x ?= measured (atoms (bf ++ mid))) b = true) ∧
  (rest = [] ∨ skips (x ?= stop (bf ++ mid) rest) b = false).
Lemma frags_split cs (l k : list Fragment.t) : frags cs = l ++ k → ∃ mid rest, cs = mid ++ rest ∧ frags mid = l ∧ frags rest = k.
Proof. intros (mid & rest & -> & <- & <-)%map_eq_app. by exists mid, rest. Qed.
Lemma slice_cells x (cur : Cursor.t Fragment.t FragmentSummary D) bf rest :
  Cursor.ready cur (frags bf) (frags rest) → Forall cell_ok (bf ++ rest) → all_len (atoms (bf ++ rest)) < 2 ^ 32 →
  measured (atoms bf) ≤ x →
  ∃ cur' y mid rest', Cursor.slice (target x) b cur = Some (cur', y) ∧ SumTree.represents y (frags mid) ∧
    rest = mid ++ rest' ∧ jumped x bf mid rest' ∧ Cursor.positioned cur' (frags (bf ++ mid)) (frags rest').
Proof.
  intros Hc Ho Hs Hx. pose proof (proj1 (Forall_app _ _ _) Ho) as [Hob _].
  destruct (Cursor.slice_clear_ok (target x) b cur _ _ (target_clear x) Hc) as (cur' & y & mid' & aft & E & Hy & Er & Hst & Hp).
  { rewrite target_cells by (done || by eapply small_app). by apply Z.compare_ge_iff. }
  destruct (frags_split _ _ _ Er) as (mid & rest' & -> & <- & <-).
  exists cur', y, mid, rest'. rewrite frags_app. split_and!; try done.
  assert (∀ cs ds, mid ++ rest' = cs ++ ds → TreeFind.passed (target x) b (frags bf ++ frags cs) = skips (x ?= measured (atoms (bf ++ cs))) b) as Hp'.
  { intros cs ds E'. rewrite E' in *. rewrite app_assoc in *. unfold TreeFind.passed. rewrite <- frags_app, target_cells; [done| |].
    - by apply Forall_app in Ho as [? _].
    - by eapply small_app. }
  destruct Hst as [Hst1 Hst2]. split.
  - destruct Hst1 as [Hst1|Hst1]; [left; by destruct mid|right]. by rewrite (Hp' mid rest') in Hst1.
  - destruct rest' as [|c rest']; [by left|right]. specialize (Hst2 (frag c) eq_refl).
    change [frag c] with (frags [c]) in Hst2. rewrite <- frags_app, (Hp' (mid ++ [c]) rest') in Hst2 by by rewrite <- app_assoc.
    unfold stop. by rewrite <- app_assoc.
Qed.
Lemma text_cells y mid : SumTree.represents y (frags mid) → Forall cell_ok mid → all_len (atoms mid) < 2 ^ 32 →
  text (SumTree.summary y) = mk_text (str_len (text_of true (atoms mid))) (str_len (text_of false (atoms mid))).
Proof.
  intros Hy Ho Hs. rewrite (SumTree.represents_summary _ _ Hy), measure_text, visible_cells, deleted_cells by done.
  rewrite !text_len. f_equal; apply wrap64_small; (split; [apply measured_nonneg|]);
    match goal with |- measured_len ?p ?l < _ => pose proof (measured_le p l) end; lia.
Qed.
Lemma reuse_ok extra x st out bf rest :
  sim extra st out bf [] rest → ids_ok (frags (cells out) ++ frags rest) → measured (atoms bf) ≤ x →
  ∃ st' mid rest', reuse pos (target x) b st = Some st' ∧ rest = mid ++ rest' ∧ jumped x bf mid rest' ∧
    walk extra st' (out ++ kept mid) (bf ++ mid) [] rest'.
Proof.
  intros H Hi Hx. unfold reuse.
  destruct (slice_cells x (old_fragments st) bf rest) as (cur & y & mid & rest' & E & Hy & -> & Hj & Hc);
    [left; apply (m_cursor _ _ _ _ _ _ H)|apply (m_old _ _ _ _ _ _ H)|apply (m_small_old _ _ _ _ _ _ H)|done|].
  rewrite E. cbn [mbind option_bind]. destruct H as [_ _ Ho Hout Hb (av & ad & Hr) Hins Hsl Hoff Hp Hfrom Hsm Hso Hex].
  rewrite app_assoc in Ho, Hso. rewrite ahead_start, atoms_app in Hr, Hsm. rewrite !text_of_app in Hr. rewrite !all_len_app in Hsm.
  pose proof (proj1 (Forall_app _ _ _) Ho) as [Hobm Hor]. pose proof (proj1 (Forall_app _ _ _) Hobm) as [_ Hom].
  pose proof (all_len_nonneg (atoms mid)). pose proof (all_len_nonneg (atoms rest')). pose proof (all_len_nonneg (doc out)).
  rewrite (text_cells y mid) by (done || lia).
  assert (∀ v, sized (text_of v (doc out) ++ text_of v (atoms mid))) as Hsz.
  { intros v. unfold sized. rewrite <- text_of_app. eapply Z.le_lt_trans; [apply text_of_le|]. rewrite all_len_app. lia. }
  destruct (ropes_append _ _ _ _ _ _ _ _ _ Hr (Hsz true) (Hsz false)) as (rb & Erb & Hrb). rewrite Erb. cbn [mbind option_bind].
  rewrite (Cursor.p_position _ _ _ Hc : Cursor.start cur = _), pos_cells by (done || by eapply small_app). cbn [mbind option_bind].
  pose proof (doc_kept mid) as Ek.
  eexists _, mid, rest'. split_and!; try done. split.
  - split; cbn [old_fragments new_fragments new_ropes new_insertions slices insertion_offset edits_patch]; rewrite ?cells_app, ?cells_kept.
    + done.
    + destruct rest'; [done|apply prefix_nil].
    + done.
    + by apply Forall_app.
    + rewrite frags_app. apply built_append; [done..|]. rewrite <- frags_app. apply cells_ok_frags. by apply Forall_app.
    + rewrite ahead_start, doc_app, !text_of_app, Ek. by eexists _, _.
    + by rewrite with_tag_app, with_tag_kept, app_nil_r.
    + by rewrite with_tag_app, with_tag_kept, app_nil_r.
    + by rewrite with_tag_app, with_tag_kept, app_nil_r.
    + rewrite behind_start in Hp |- *. rewrite atoms_app, doc_app, !text_of_app, Ek, !encode_app. by apply Patch.relates_gap.
    + rewrite <- app_assoc. apply Forall_app. split; [done|]. apply Forall_map, Forall_forall. intros c Hin.
      unfold comes_from. cbn. apply elem_of_app. right. apply elem_of_app. by left.
    + rewrite doc_app, all_len_app, Ek, ahead_start. lia.
    + done.
    + done.
  - cbn [fragment_start]. unfold here. by rewrite behind_start.
  - by left.
  - rewrite cells_app, cells_kept, frags_app, <- app_assoc. by rewrite frags_app in Hi.
Qed.
Lemma jump_ahead_ok extra x st out bf t rest :
  walk extra st out bf t rest → fragment_start st ≤ x →
  ∃ st' k bf' t' rest', jump_ahead pos (target x) b x st = Some st' ∧ walk extra st' (out ++ k) bf' t' rest' ∧
    bf' ++ rest' = bf ++ rest ∧ ahead t rest = doc k ++ ahead t' rest' ∧
    Forall (λ w, w_tag w = Moved ∨ w_tag w = Kept) k ∧
    (k = [] ∧ st' = st ∧ x ≤ stop bf rest ∧ bf' = bf ∧ t' = t ∧ rest' = rest ∨
     t' = [] ∧ skips (x ?= fragment_start st') b = true ∧ (rest' = [] ∨ skips (x ?= stop bf' rest') b = false)).
Proof.
  intros H Hx. pose proof (w_sim _ _ _ _ _ _ H) as Hs. unfold jump_ahead.
  rewrite (fragment_end_ok _ _ _ _ _ _ Hs). cbn [mbind option_bind].
  destruct (Z.ltb_spec (stop bf rest) x) as [Hlt|Hge].
  - destruct (finish_fragment_ok _ _ _ _ _ _ H) as (st1 & k & bf1 & rest1 & E1 & H1 & Hi & Eo & Ea & Hm & Hk & _).
    rewrite E1. cbn [mbind option_bind].
    destruct (reuse_ok extra x st1 (out ++ k) bf1 rest1) as (st2 & mid & rest' & E2 & -> & Hj & H2); [done|done|lia|].
    exists st2, (k ++ kept mid), (bf1 ++ mid), [], rest'. rewrite app_assoc. split_and!; [done|done|by rewrite <- app_assoc| | |].
    + by rewrite Ea, doc_app, doc_kept, atoms_app, ahead_start, <- app_assoc.
    + apply Forall_app. split; [done|]. apply Forall_map, Forall_forall. by right.
    + right. destruct Hj as [Hj1 Hj2]. split_and!; [done| |done].
      rewrite (w_start _ _ _ _ _ _ H2). unfold here. rewrite behind_start. destruct Hj1 as [->|Hj1]; [|done].
      rewrite app_nil_r. rewrite (proj2 (Z.compare_gt_iff _ _)) by lia. done.
  - exists st, [], bf, t, rest. rewrite app_nil_r. split_and!; try done. by left.
Qed.
End jump.

(** *** The part before a range, and new text *)
(** A boundary within the text of a fragment that counts cuts its text. *)
Lemma head_split f o s r (a a' : list atom) :
  counted counts f = true → atoms_from f o s ++ r = a ++ a' → measured a ≤ str_len s →
  ∃ m q, s = m ++ q ∧ str_len m = measured a.
Proof.
  intros Hc. revert o a. induction s as [|ch s IH]; intros o a E Ha.
  - exists [], []. split; [done|]. cbn in *. pose proof (measured_nonneg (a_counted counts) a). lia.
  - destruct a as [|x a]; [by exists [], (ch :: s)|]. injection E as <- E. rewrite measured_cons in *.
    change (a_counted counts (mk_atom _ o ch _ _ _)) with (counted counts f) in *. rewrite Hc in *. unfold a_len in *. cbn [a_char str_len] in *.
    destruct (IH _ a E) as (m & q & -> & Em); [lia|]. exists (ch :: m), q. split; [done|]. cbn. lia.
Qed.
(** Text that was walked over, with as little as possible of it. *)
Lemma shortest_atoms f o s : counted counts f = true → shortest (a_counted counts) (atoms_from f o s).
Proof.
  intros Hc. destruct s as [|ch s _] using rev_ind; [by left|right]. rewrite atoms_from_app. by eexists _, _.
Qed.
Lemma walk_head extra st out bf t rest x :
  walk extra st out bf t rest → fragment_start st < x ≤ stop bf rest →
  ∃ c rest', rest = c :: rest' ∧ counted counts (frag c) = true.
Proof.
  intros H [Hx1 Hx2]. pose proof (w_start _ _ _ _ _ _ H) as Es. unfold here, behind in Es. rewrite measured_app in Es.
  unfold stop in Hx2. rewrite atoms_app, measured_app in Hx2. destruct rest as [|c rest].
  { change (measured (atoms [])) with 0 in Hx2. change (measured []) with 0 in Es. lia. }
  exists c, rest. split; [done|]. rewrite atoms_one in Hx2. unfold atoms_of in Hx2. rewrite measured_from in *.
  destruct (counted counts (frag c)); [done|lia].
Qed.
Lemma walk_emitted extra st st' out bf t m q c rest w :
  walk extra st out bf t (c :: rest) → chars c = t ++ m ++ q → counted counts (frag c) = true →
  sim extra st' (out ++ [w]) bf (t ++ m) (c :: rest) → ids_ok (frags (cells (out ++ [w])) ++ frags (c :: rest)) →
  walk extra (set_start (fragment_start st + str_len m) st') (out ++ [w]) bf (t ++ m) (c :: rest).
Proof.
  intros H E Hc Hs Hi. split; [by destruct Hs| |right; by exists c, rest|done].
  cbn [set_start fragment_start]. rewrite (w_start _ _ _ _ _ _ H). unfold here. rewrite behind_app, measured_app, measured_from. by rewrite Hc.
Qed.
Lemma push_prefix_ok extra x st out bf t rest a a' :
  walk extra st out bf t rest → fragment_start st ≤ x ≤ stop bf rest →
  ahead t rest = a ++ a' → measured a = x - fragment_start st →
  ∃ st' k t', push_prefix pos x st = Some st' ∧ walk extra st' (out ++ k) bf t' rest ∧ fragment_start st' = x ∧
    ahead t rest = doc k ++ ahead t' rest ∧ shortest (a_counted counts) (doc k) ∧
    Forall (λ w, w_tag w = Moved ∨ w_tag w = Kept) k.
Proof.
  intros H Hx Ea Hm. pose proof (w_sim _ _ _ _ _ _ H) as Hs. unfold push_prefix.
  destruct (Z.ltb_spec (fragment_start st) x) as [Hlt|Hge].
  2: { exists st, [], t. rewrite app_nil_r. split_and!; try done; [lia|by left]. }
  destruct (walk_head _ _ _ _ _ _ x H) as (c & rest' & -> & Hc); [lia|]. destruct (m_prefix _ _ _ _ _ _ Hs) as [q0 E0].
  rewrite (walk_stop _ _ _ _ _ _ _ _ H E0 Hc) in Hx. cbn [ahead] in Ea. rewrite E0, drop_app_length in Ea.
  destruct (head_split _ _ _ _ _ _ Hc Ea) as (m & q & -> & Em); [lia|]. rewrite Hm in Em.
  assert (m ≠ []) as Hne by (intros ->; cbn in Em; lia).
  rewrite (sim_current _ _ _ _ _ _ _ Hs). cbn [mbind option_bind].
  replace x with (fragment_start st + str_len m) by lia. rewrite (part_ok _ _ _ _ _ _ _ _ _ H E0). cbn [mbind option_bind].
  destruct (emit_part_ok _ _ _ _ t m q c rest' (Fragment.set_id (Locator.between (new_max_id st) (Fragment.id (frag c))) (frag (cut c t m (frag c)))) H E0 Hne)
    as (st' & Est & Hst & Hf); [by eexists|].
  change (Fragment.set_range _ _ (frag c)) with (frag (cut c t m (frag c))).
  change (Fragment.id (frag (cut c t m (frag c)))) with (Fragment.id (frag c)). rewrite Est. cbn [mbind option_bind].
  eexists _, _, (t ++ m). split; [done|]. split.
  { eapply walk_emitted; [done..|]. rewrite cells_app, frags_app. apply ids_room; [apply (w_ids _ _ _ _ _ _ H)|].
    cbn. by rewrite (sim_max_id _ _ _ _ _ _ Hs). }
  rewrite doc_one, atoms_cut. split_and!; [cbn; lia|by apply (ahead_cons _ _ q)|by apply shortest_atoms|by repeat constructor].
Qed.
Lemma tagged_le p out : Forall cell_ok (cells out) → total Fragment.len (with_tag p out) ≤ all_len (doc out).
Proof.
  intros H. unfold doc, all_len. rewrite <- (len_cells (cells out)) by done. unfold with_tag. induction out as [|w out IH]; [done|].
  apply Forall_cons in H as [Hw H]. specialize (IH H). rewrite filter_cons. pose proof (cell_len_pos _ Hw).
  assert (∀ l, total Fragment.len (frags (cells (w :: l))) = Fragment.len (frag (w_cell w)) + total Fragment.len (frags (cells l))) as E by done.
  case_decide; rewrite !E; lia.
Qed.
Definition new_fragment extra_id (offset : Z) (u : str) : Fragment.t :=
  Fragment.mk extra_id timestamp offset (str_len u) true [] Global.new.
Hypothesis timestamp_ok : Lamport.ok timestamp.
Hypothesis timestamp_pos : 0 < Lamport.value timestamp.
Lemma insert_text_ok extra st out bf t rest u :
  walk extra st out bf t rest → scalars u → u ≠ [] → str_len u ≤ extra →
  ∃ st' i, insert_text (encode u) timestamp (str_len (text_of true (behind bf t rest))) st = Some st' ∧
    fragment_start st' = fragment_start st ∧
    walk (extra - str_len u) st' (out ++ [mk_written Inserted (mk_cell (new_fragment i (total Fragment.len (with_tag is_insertion out)) u) u)]) bf t rest.
Proof.
  intros H Hu Hne Hx. pose proof (w_sim _ _ _ _ _ _ H) as Hs. unfold insert_text. rewrite (sim_item _ _ _ _ _ _ Hs). cbn [mbind option_bind].
  assert (match head (frags rest) with Some f => Fragment.id f | None => Locator.max end = next_id (frags rest)) as -> by by destruct rest.
  pose proof (m_small _ _ _ _ _ _ Hs) as Hsm. pose proof (all_len_nonneg (ahead t rest)). pose proof (all_len_nonneg (doc out)).
  assert (0 < str_len u) as Hpos.
  { destruct u as [|x u]; [done|]. cbn. pose proof (len_utf8_bounds x). pose proof (str_len_nonneg u). lia. }
  set (off := total Fragment.len (with_tag is_insertion out)).
  assert (0 ≤ off ∧ off + str_len u < 2 ^ 32) as [Hoff1 Hoff2].
  { pose proof (tagged_le is_insertion out (m_out _ _ _ _ _ _ Hs)) as Hle. fold off in Hle. split; [|lia].
    apply total_nonneg. intros f (c & -> & Hc)%list_elem_of_fmap. pose proof (m_out _ _ _ _ _ _ Hs) as Ho.
    apply list_elem_of_fmap in Hc as (w & -> & Hw). apply list_elem_of_filter in Hw as [_ Hw].
    assert (cell_ok (w_cell w)) as Hwc by (eapply Forall_forall; [exact Ho|]; by apply list_elem_of_fmap_2).
    pose proof (cell_len_pos _ Hwc). lia. }
  unfold push_fragments_for_insertion. cbn [iterate insertion_step]. rewrite Utf8.len_encode.
  rewrite (proj2 (Z.ltb_lt _ _)) by done.
  assert (0 +w64 MAX_INSERTION_LEN = 2 ^ 32 - 1) as -> by done. rewrite (Z.min_l _ (2 ^ 32 - 1)) by lia. rewrite Z.eqb_refl.
  rewrite (proj2 (Z.eqb_neq _ _)) by lia.
  assert (wrap32 (str_len u -w64 0) = str_len u) as ->.
  { rewrite wrap64_small by lia. rewrite Z.sub_0_r. unfold wrap32. rewrite Z.mod_small; lia. }
  assert (0 < length (encode u))%nat as Hlen by (rewrite Utf8.length_encode; lia).
  destruct (length (encode u)) as [|fuel] eqn:El; [lia|]. cbn [iterate insertion_step]. rewrite Utf8.len_encode, Z.ltb_irrefl.
  cbn [mbind option_bind new_ropes new_fragments new_insertions slices insertion_offset edits_patch old_fragments fragment_start].
  rewrite (sim_max_id _ _ _ _ _ _ Hs), (m_offset _ _ _ _ _ _ Hs). fold off.
  set (i := Locator.between _ _). destruct (m_ropes _ _ _ _ _ _ Hs) as (av & ad & Hr).
  destruct (ropes_push_str _ u _ _ _ _ _ _ Hr Hu) as (rb & Erb & Hrb).
  { unfold sized. rewrite str_len_app. pose proof (text_of_le true (doc out)). lia. }
  rewrite Erb. cbn [mbind option_bind]. set (f := Fragment.mk i timestamp off (str_len u) true [] Global.new).
  set (w := mk_written Inserted (mk_cell (new_fragment i off u) u)). eexists _, i. split; [reflexivity|]. split; [done|].
  assert (cell_ok (mk_cell f u)) as Hfu.
  { split; cbn; try done. split; cbn; try done; [apply Global.wf_new|lia|lia]. }
  assert (∀ b, text_of b (doc (out ++ [w])) = text_of b (doc out) ++ pick b u) as Ed.
  { intros b. rewrite doc_app, text_of_app. unfold w. rewrite doc_one, atoms_text. by destruct b. }
  split; [split|apply (w_start _ _ _ _ _ _ H)|apply (w_counted _ _ _ _ _ _ H)|];
    cbn [push_edit old_fragments new_fragments new_ropes new_insertions slices insertion_offset edits_patch].
  - apply (m_cursor _ _ _ _ _ _ Hs).
  - apply (m_prefix _ _ _ _ _ _ Hs).
  - apply (m_old _ _ _ _ _ _ Hs).
  - rewrite cells_app. apply Forall_app. split; [apply (m_out _ _ _ _ _ _ Hs)|]. by apply Forall_singleton.
  - rewrite cells_app, frags_app. apply built_push, (m_built _ _ _ _ _ _ Hs).
  - exists av, ad. rewrite !Ed. cbn [pick]. by rewrite app_nil_r.
  - by rewrite (m_insertions _ _ _ _ _ _ Hs), with_tag_app, with_tag_one, map_app.
  - by rewrite (m_slices _ _ _ _ _ _ Hs), with_tag_app, with_tag_one, map_app.
  - rewrite with_tag_app, with_tag_one, total_app. fold off. cbn. unfold wrap32. rewrite Z.mod_small; lia.
  - rewrite Ed, (sim_new_start _ _ _ _ _ _ Hs). cbn [pick]. rewrite wrap64_small.
    2: { pose proof (text_of_le true (doc out)). pose proof (str_len_nonneg (text_of true (doc out))). lia. }
    pose proof (relates_text _ _ _ [] u (m_patch _ _ _ _ _ _ Hs)) as Hp. cbn [str_len] in Hp. by rewrite app_nil_r, Z.add_0_r in Hp.
  - apply Forall_app. split; [apply (m_from _ _ _ _ _ _ Hs)|]. by apply Forall_singleton.
  - unfold w. rewrite doc_app, all_len_app, doc_one. unfold atoms_of. rewrite all_len_from. cbn. lia.
  - apply (m_small_old _ _ _ _ _ _ Hs).
  - lia.
  - rewrite cells_app, frags_app. apply ids_room; [apply (w_ids _ _ _ _ _ _ H)|done].
Qed.

(** *** Deleting *)
Lemma emit_ok extra st st1 out bf t m q c rest x f old :
  walk extra st out bf t (c :: rest) → chars c = t ++ m ++ q → m ≠ [] → counted counts (frag c) = true →
  x = Moved ∨ x = Deleted → Fragment.id f = Locator.between (new_max_id st) (Fragment.id (frag c)) →
  Fragment.timestamp f = Fragment.timestamp (frag c) →
  Fragment.insertion_offset f = Fragment.insertion_offset (frag c) + str_len t → Fragment.len f = str_len m →
  Fragment.deletions f = Fragment.deletions (frag c) ++ marks timestamp x → Fragment.max_undos f = Fragment.max_undos (frag c) →
  (Fragment.visible f = true → Fragment.visible (frag c) = true) →
  logs st (add_insertion f st1) old (Fragment.visible (frag c)) x f → old = str_len (text_of true (behind bf t (c :: rest))) →
  ∃ st', emit f (Fragment.visible (frag c)) st1 = Some st' ∧
    walk extra (set_start (fragment_start st + str_len m) st') (out ++ [mk_written x (mk_cell f m)]) bf (t ++ m) (c :: rest).
Proof.
  intros H E Hm Hc Hx Hid Hts Hoff Hlen Hdel Hun Hvis Hlog ->. pose proof (w_sim _ _ _ _ _ _ H) as Hs.
  pose proof (sim_cell _ _ _ _ _ _ _ Hs) as Hok. rewrite emit_def.
  destruct (cut_ok c t m q (frag c) Hok E Hm (c_fragment _ Hok)) as [[] Hsc _ _ Hend]. cbn in *.
  assert (Forall Lamport.ok (Fragment.deletions f)) as Hdok.
  { rewrite Hdel. apply Forall_app. split; [done|]. destruct Hx as [-> | ->]; cbn [marks]; [constructor|by apply Forall_singleton]. }
  destruct (push_fragment_ok extra st (add_insertion f st1) out bf t m q c rest x f Hs E) as (st' & E' & H' & _); try done.
  - split; cbn; [split; cbn; rewrite ?Hts, ?Hoff, ?Hlen, ?Hun; done|done..|rewrite Hoff, Hlen; done].
  - by destruct Hx as [-> | ->].
  - by destruct Hx as [-> | ->].
  - exists st'. split; [done|]. eapply walk_emitted; [done..|]. rewrite cells_app, frags_app.
    apply ids_room; [apply (w_ids _ _ _ _ _ _ H)|]. cbn. by rewrite Hid, (sim_max_id _ _ _ _ _ _ Hs).
Qed.
Lemma ids_tail fs (f : Fragment.t) gs : ids_ok (fs ++ f :: gs) → ids_ok (fs ++ gs).
Proof.
  change (f :: gs) with ([f] ++ gs). rewrite !ids_app. intros (H1 & (_ & H2 & _) & H3). split_and!; [done..|].
  intros x y Hx Hy. apply H3; [done|]. apply elem_of_app. by right.
Qed.
Lemma walk_advance extra st out bf c rest :
  walk extra st out bf (chars c) (c :: rest) →
  ∃ st', advance st = Some st' ∧ walk extra st' out (bf ++ [c]) [] rest ∧ fragment_start st' = fragment_start st.
Proof.
  intros H. destruct (machine_advance_ok _ _ _ _ _ _ (w_sim _ _ _ _ _ _ H)) as (st' & E & H' & Hf). exists st'. split_and!; [done| |done].
  split; [done| |by left|].
  - rewrite Hf, (w_start _ _ _ _ _ _ H). unfold here. by rewrite behind_start, behind_done.
  - eapply ids_tail, (w_ids _ _ _ _ _ _ H).
Qed.
(** A fragment that does not count is taken over as it is. *)
Lemma pass_ok extra st st1 out bf c rest x :
  walk extra st out bf [] (c :: rest) → counted counts (frag c) = false → x = Kept ∨ x = Moved →
  logs st st1 (str_len (text_of true (behind bf [] (c :: rest)))) (Fragment.visible (frag c)) x (frag c) →
  ∃ st2, push_fragment (frag c) (Fragment.visible (frag c)) st1 = Some st2 ∧
    ∀ st3, st3 = st2 ∨ st3 = set_start (fragment_start st) st2 →
    ∃ st4, advance st3 = Some st4 ∧ walk extra st4 (out ++ [mk_written x c]) (bf ++ [c]) [] rest ∧
      fragment_start st4 = fragment_start st.
Proof.
  intros H Hc Hx Hlog. pose proof (w_sim _ _ _ _ _ _ H) as Hs. pose proof (sim_cell _ _ _ _ _ _ _ Hs) as Hok.
  destruct (push_fragment_ok extra st st1 out bf [] (chars c) [] c rest x (frag c) Hs) as (st2 & E & H2 & Hf); try done.
  - by rewrite app_nil_r.
  - by destruct c.
  - by destruct Hx as [-> | ->].
  - cbn. lia.
  - destruct Hx as [-> | ->]; symmetry; apply app_nil_r.
  - exists st2. split; [done|]. intros st3 H3.
    assert (sim extra st3 (out ++ [mk_written x c]) bf (chars c) (c :: rest) ∧ fragment_start st3 = fragment_start st) as [Hs3 Hf3].
    { destruct H3 as [->| ->]; [by destruct c|]. split; [|done]. destruct c, H2. by split. }
    destruct (machine_advance_ok _ _ _ _ _ _ Hs3) as (st4 & E4 & H4 & Hf4). exists st4. split_and!; [done| |by rewrite Hf4].
    split; [done| |by left|].
    + rewrite Hf4, Hf3, (w_start _ _ _ _ _ _ H). unfold here. rewrite !behind_start, atoms_app, measured_app, atoms_one.
      unfold atoms_of. rewrite measured_from, Hc. lia.
    + rewrite cells_app, frags_app. by apply (ids_same _ _ (frag c)), eq_refl; apply (w_ids _ _ _ _ _ _ H).
Qed.
(** The position in full offsets, deleted text included. *)
Lemma full_position extra st out bf t rest :
  walk extra st out bf t rest →
  all_len (behind bf t rest) = here bf t rest + measured_len (λ a, negb (a_counted counts a)) (atoms bf).
Proof.
  intros H. assert (∀ l, all_len l = measured l + measured_len (λ a, negb (a_counted counts a)) l) as E.
  { unfold all_len. intros l. induction l as [|a l IH]; [done|]. rewrite !measured_cons, IH. destruct (a_counted counts a); cbn; lia. }
  rewrite E. unfold here. f_equal. unfold behind. rewrite measured_app.
  destruct (w_counted _ _ _ _ _ _ H) as [->|(c & rest' & -> & Hc)]; [destruct rest; cbn; lia|].
  rewrite (measured_none _ (atoms_from _ _ _)); [lia|]. apply atoms_from_forall. intros o ch. unfold a_counted. cbn.
  unfold counted in Hc. by rewrite Hc.
Qed.
(** What is behind grows by what was walked over. *)
Lemma walk_progress extra extra' st st' out out' bf bf' t t' rest rest' x :
  walk extra st out bf t rest → walk extra' st' out' bf' t' rest' → bf' ++ rest' = bf ++ rest →
  ahead t rest = x ++ ahead t' rest' → behind bf' t' rest' = behind bf t rest ++ x.
Proof.
  intros H H' E Ex. pose proof (behind_ahead bf t rest (m_prefix _ _ _ _ _ _ (w_sim _ _ _ _ _ _ H))) as Eb.
  pose proof (behind_ahead bf' t' rest' (m_prefix _ _ _ _ _ _ (w_sim _ _ _ _ _ _ H'))) as Eb'.
  rewrite E, Eb, Ex, app_assoc in Eb'. by apply app_inv_tail in Eb'.
Qed.
End machine.
Lemma no_insertion k : Forall (λ w, w_tag w ≠ Inserted) k → with_tag is_insertion k = [].
Proof.
  unfold with_tag. induction 1 as [|w k Hw _ IH]; [done|]. rewrite filter_cons, decide_False; [done|]. by destruct (w_tag w).
Qed.
Lemma unchanged_not_inserted k : Forall (λ w, w_tag w = Moved ∨ w_tag w = Kept) k → Forall (λ w, w_tag w ≠ Inserted) k.
Proof. intros H. eapply Forall_impl; [exact H|]. by intros w [-> | ->]. Qed.
