(* ===== verification/Snapshot.v ===== *)
(** What a snapshot of a buffer holds, and how an edit starts from it and ends
    with the next one ([start_edit] and [finish_edit] of [Buffer]). *)
From S2P Require Import Prelude Clock Locator Patch SumTree TreeFind Cursor TreeWeight ParTree Iter Keyed TreeMap UndoMap.
From S2P Require Import Utf8 Rope Fragments Buffer FragmentLaws Builders Cells EditMachine.
Import Buffer.
Implicit Types (out : list written) (c : cell) (bf rest cs : list cell) (f : Fragment.t).

(** ** Keys *)
#[global] Instance slice_eq_dec : EqDecision InsertionSlice.
Proof. solve_decision. Defined.
#[global] Instance key_eq_dec : EqDecision InsertionFragmentKey.
Proof. solve_decision. Defined.
Definition frag_key f : InsertionFragmentKey := mk_key (Fragment.timestamp f) (Fragment.insertion_offset f).

Lemma NoDup_map_inj {A B} (g : A → B) (l : list A) x y : NoDup (map g l) → x ∈ l → y ∈ l → g x = g y → x = y.
Proof.
  induction l as [|z l IH]; cbn; [by intros _ ?%not_elem_of_nil|]. intros [Hz Hl]%NoDup_cons [->|Hx]%elem_of_cons [->|Hy]%elem_of_cons E;
    [done|destruct Hz; rewrite E; by apply list_elem_of_fmap_2|destruct Hz; rewrite <- E; by apply list_elem_of_fmap_2|by apply IH].
Qed.
Lemma atoms_of_head c : cell_ok c → ∃ a l, atoms_of c = a :: l ∧ a_key a = frag_key (frag c).
Proof. intros H. pose proof (c_some _ H) as Hs. unfold atoms_of. destruct (chars c) as [|x s]; [done|]. by eexists _, _. Qed.
Lemma frag_keys_sublist cs : Forall cell_ok cs → map frag_key (frags cs) `sublist_of` a_keys (atoms cs).
Proof.
  induction 1 as [|c cs Hc _ IH]; cbn; [done|]. destruct (atoms_of_head c Hc) as (a & l & E & Ek).
  rewrite E, map_app. cbn. rewrite Ek. apply sublist_skip. change (map frag_key (map frag cs)) with ([] ++ map frag_key (frags cs)).
  by apply sublist_app; [apply sublist_nil_l|].
Qed.
Lemma frag_keys_nodup cs : Forall cell_ok cs → NoDup (a_keys (atoms cs)) → NoDup (map frag_key (frags cs)).
Proof. intros H Hn. eapply sublist_NoDup; [exact Hn|]. by apply frag_keys_sublist. Qed.
Lemma frag_key_in cs c : Forall cell_ok cs → c ∈ cs → frag_key (frag c) ∈ a_keys (atoms_of c).
Proof.
  intros H Hc. destruct (atoms_of_head c) as (a & l & -> & <-); [by eapply Forall_forall in H|]. left.
Qed.
Lemma atoms_of_timestamp c a : a ∈ atoms_of c → a_timestamp a = Fragment.timestamp (frag c).
Proof. revert a. by apply Forall_forall, atoms_from_forall. Qed.
Lemma key_in_cells k cs : k ∈ a_keys (atoms cs) → ∃ c, c ∈ cs ∧ k ∈ a_keys (atoms_of c).
Proof.
  intros (a & -> & (c & Hc & Ha)%list_elem_of_In%in_flat_map)%list_elem_of_fmap. exists c.
  split; [by apply list_elem_of_In|]. by apply list_elem_of_fmap_2, list_elem_of_In.
Qed.
Lemma cell_in_keys k c cs : c ∈ cs → k ∈ a_keys (atoms_of c) → k ∈ a_keys (atoms cs).
Proof.
  intros Hc (a & -> & Ha)%list_elem_of_fmap. apply list_elem_of_fmap_2, list_elem_of_In, in_flat_map. exists c.
  split; by apply list_elem_of_In.
Qed.
Lemma cell_unique cs c c' k :
  NoDup (a_keys (atoms cs)) → c ∈ cs → c' ∈ cs → k ∈ a_keys (atoms_of c) → k ∈ a_keys (atoms_of c') → c = c'.
Proof.
  induction cs as [|d cs IH]; [by intros _ ?%not_elem_of_nil|]. cbn. rewrite map_app.
  intros (Hd & Hdis & Hcs)%NoDup_app Hc Hc' Hk Hk'.
  apply elem_of_cons in Hc as [->|Hc], Hc' as [->|Hc']; [done| | |by apply IH].
  - destruct (Hdis k Hk). by eapply cell_in_keys.
  - destruct (Hdis k Hk'). by eapply cell_in_keys.
Qed.
(** The fragment that covers the first character of an old fragment starts there. *)
Lemma piece_keys w c k : piece w c → k ∈ a_keys (atoms_of w) → k ∈ a_keys (atoms_of c).
Proof.
  intros (Et & t & q & E & Eo) H. unfold atoms_of in *. rewrite E, !atoms_from_app, !map_app. apply elem_of_app. right.
  apply elem_of_app. left. rewrite <- Eo. clear E Eo q t.
  assert (∀ o, a_keys (atoms_from (frag w) o (chars w)) = a_keys (atoms_from (frag c) o (chars w))) as <-; [|done].
  clear H. induction (chars w) as [|x s IH]; intros o; cbn; [done|]. unfold a_key at 1 3. cbn. by rewrite Et, IH.
Qed.
Lemma piece_start w c : piece w c → frag_key (frag c) ∈ a_keys (atoms_of w) → frag_key (frag w) = frag_key (frag c).
Proof.
  intros (Et & t & q & E & Eo) (a & Ea & Ha%atoms_from_offset)%list_elem_of_fmap. pose proof (str_len_nonneg t).
  unfold frag_key, a_key in *. injection Ea as _ Ea. rewrite Et. f_equal. lia.
Qed.

(** ** The trees of insertions *)
Definition insertions_of cs : list InsertionFragment := map insertion_new (frags cs).
Lemma with_tag_in p out f : f ∈ with_tag p out ↔ ∃ w, w ∈ out ∧ p (w_tag w) = true ∧ f = frag (w_cell w).
Proof.
  unfold with_tag, frags, cells. rewrite list_elem_of_fmap. split.
  - intros (c & -> & (w & -> & [Hp Hw]%list_elem_of_filter)%list_elem_of_fmap). by exists w.
  - intros (w & Hw & Hp & ->). exists (w_cell w). split; [done|]. apply list_elem_of_fmap_2. by apply list_elem_of_filter.
Qed.
Lemma with_tag_nodup p out : NoDup (map frag_key (frags (cells out))) → NoDup (map frag_key (with_tag p out)).
Proof.
  intros H. eapply sublist_NoDup; [exact H|]. unfold with_tag, frags, cells. by do 3 apply fmap_sublist; apply sublist_filter.
Qed.
Lemma sorted_nodup (l : list InsertionFragment) : insertions_sorted l → NoDup l.
Proof.
  induction l as [|x l IH]; [constructor|]. intros [Hs Hx]%Keyed.sorted_cons. apply NoDup_cons. split; [|by apply IH].
  intros H. specialize (Hx x H). by rewrite (cmp_refl insertion_key_cmp) in Hx.
Qed.
(** The edits of the tree make it hold the fragments that were written: those that
    are new are inserted, perhaps in place of an old entry, the others are there. *)
Section insertions.
Variables (timestamp : Lamport.t) (cs : list cell) (out : list written).
Hypothesis cs_ok : Forall cell_ok cs.
Hypothesis out_ok : Forall cell_ok (cells out).
Hypothesis from : Forall (comes_from timestamp cs) out.
Hypothesis keys : NoDup (a_keys (atoms cs)).
Hypothesis new_keys : NoDup (a_keys (doc out)).
Hypothesis all_there : ∀ k, k ∈ a_keys (atoms cs) → k ∈ a_keys (doc out).
Hypothesis fresh : Forall (λ a, a_timestamp a ≠ timestamp) (atoms cs).
Abbreviation es := (map insert_new (with_tag is_new out)).

Lemma edit_keys : map Keyed.edit_key es = map frag_key (with_tag is_new out).
Proof. by rewrite map_map. Qed.
Lemma out_key_inj w w' : w ∈ out → w' ∈ out → frag_key (frag (w_cell w)) = frag_key (frag (w_cell w')) → w = w'.
Proof.
  intros Hw Hw' E. apply (NoDup_map_inj (λ w, frag_key (frag (w_cell w))) out); try done.
  pose proof (frag_keys_nodup _ out_ok new_keys) as H. unfold frags, cells in H. by rewrite !map_map in H.
Qed.
Lemma old_key c : c ∈ cs →
  ∃ w, w ∈ out ∧ frag_key (frag (w_cell w)) = frag_key (frag c) ∧ (is_new (w_tag w) = false → w_cell w = c).
Proof.
  intros Hc. pose proof (frag_key_in _ _ cs_ok Hc) as Hk. pose proof (cell_in_keys _ _ _ Hc Hk) as Hk2. apply all_there in Hk2.
  apply key_in_cells in Hk2 as (d & (w & -> & Hw)%list_elem_of_fmap & Hkw). exists w.
  pose proof (proj1 (Forall_forall _ _) from w Hw) as Hf. unfold comes_from in Hf.
  assert (∀ c', c' ∈ cs → piece (w_cell w) c' → frag_key (frag (w_cell w)) = frag_key (frag c)) as Hp.
  { intros c' Hc' Hp. pose proof (piece_keys _ _ _ Hp Hkw) as Hk'. rewrite (cell_unique cs c c' _ keys Hc Hc' Hk Hk') in Hkw |- *.
    by apply piece_start. }
  split; [done|]. destruct (w_tag w); cbn.
  - pose proof (cell_unique cs c _ _ keys Hc Hf Hk Hkw) as <-. done.
  - split; [|done]. destruct Hf as (c' & ? & ? & _). by eapply Hp.
  - split; [|done]. destruct Hf as (c' & ? & ? & _). by eapply Hp.
  - exfalso. pose proof (cell_in_keys _ _ _ Hc Hk) as (a & Ea & Ha)%list_elem_of_fmap.
    apply (proj1 (Forall_forall _ _) fresh a Ha). injection Ea as <- _.
    apply list_elem_of_fmap in Hkw as (b & Eb & Hb). unfold frag_key, a_key in Eb. injection Eb as -> _.
    rewrite <- (proj1 Hf). by apply atoms_of_timestamp.
Qed.
Lemma insertions_edited t (l : list InsertionFragment) :
  Keyed.fits t l → l ≡ₚ insertions_of cs →
  ∃ t' l' removed, Keyed.edit_tree t es = Some (t', removed) ∧ SumTree.represents t' l' ∧ valid l' ∧ l' ≡ₚ insertions_of (cells out).
Proof.
  intros Hfit Hl. pose proof Hfit as (_ & _ & _ & _ & [Hsorted _]).
  assert (NoDup (map Keyed.edit_key es)) as Hnd.
  { rewrite edit_keys. apply with_tag_nodup. by apply frag_keys_nodup. }
  assert (Forall Keyed.edit_ok es) as Hok.
  { apply Forall_map, Forall_forall. intros f (w & Hw & _ & ->)%with_tag_in. cbn.
    assert (cell_ok (w_cell w)) as [[] _ _ _ _] by (eapply Forall_forall; [exact out_ok|]; by apply list_elem_of_fmap_2). split; cbn; [done|lia]. }
  destruct (Keyed.edit_tree_spec t l es Hfit Hnd Hok) as (t' & l' & removed & E & Ht & Hv & Hin & Hout & _).
  exists t', l', removed. split_and!; try done. pose proof Hv as [Hs' _].
  assert (NoDup (map frag_key (frags (cells out)))) as Hfk by by apply frag_keys_nodup.
  apply NoDup_Permutation; [by apply sorted_nodup| |].
  { unfold insertions_of. apply (NoDup_fmap_1 key). by rewrite <- list_fmap_compose. }
  assert (∀ w, w ∈ out → is_new (w_tag w) = true → Keyed.lookup (frag_key (frag (w_cell w))) l' = Some (insertion_new (frag (w_cell w)))) as Hnew.
  { intros w Hw Hn. apply (Hin (insert_new (frag (w_cell w)))). apply list_elem_of_fmap_2, with_tag_in. by exists w. }
  assert (∀ w, w ∈ out → is_new (w_tag w) = false → frag_key (frag (w_cell w)) ∉ map Keyed.edit_key es) as Hkept.
  { intros w Hw Hn. rewrite edit_keys. intros (f & Ef & (w' & Hw' & Hn' & ->)%with_tag_in)%list_elem_of_fmap.
    rewrite (out_key_inj w w' Hw Hw' Ef) in Hn. congruence. }
  intros x. split.
  - intros Hx. pose proof (Keyed.lookup_elem _ _ Hs' Hx) as Hlk. destruct (decide (key x ∈ map Keyed.edit_key es)) as [Hk|Hk].
    + rewrite edit_keys in Hk. apply list_elem_of_fmap in Hk as (f & Ef & (w & Hw & Hn & ->)%with_tag_in).
      rewrite Ef, Hnew in Hlk by done. injection Hlk as <-. unfold insertions_of, frags, cells. by do 3 apply list_elem_of_fmap_2.
    + rewrite (Hout _ Hk) in Hlk. apply Keyed.lookup_Some in Hlk as [Hlk _]. rewrite Hl in Hlk.
      apply list_elem_of_fmap in Hlk as (f & -> & (c & -> & Hc)%list_elem_of_fmap).
      destruct (old_key c Hc) as (w & Hw & Ek & Hwc). destruct (is_new (w_tag w)) eqn:En.
      { exfalso. apply Hk. rewrite edit_keys. change (key (insertion_new (frag c))) with (frag_key (frag c)). rewrite <- Ek.
        apply list_elem_of_fmap_2, with_tag_in. by exists w. }
      rewrite <- (Hwc eq_refl). unfold insertions_of, frags, cells. by do 3 apply list_elem_of_fmap_2.
  - intros (f & -> & (c & -> & (w & -> & Hw)%list_elem_of_fmap)%list_elem_of_fmap)%list_elem_of_fmap.
    destruct (is_new (w_tag w)) eqn:En; [by apply Hnew, Keyed.lookup_Some in En as [? _]|].
    pose proof (proj1 (Forall_forall _ _) from w Hw) as Hf. unfold comes_from in Hf. destruct (w_tag w) eqn:Et; try done.
    assert (insertion_new (frag (w_cell w)) ∈ l) as Hinl by (rewrite Hl; unfold insertions_of, frags; by do 2 apply list_elem_of_fmap_2).
    apply (Keyed.lookup_elem _ _ Hsorted) in Hinl. rewrite <- (Hout (key (insertion_new (frag (w_cell w))))) in Hinl.
    + by apply Keyed.lookup_Some in Hinl as [? _].
    + apply Hkept; [done|by rewrite Et].
Qed.
End insertions.

(** The set of slices gains those of the edit. *)
Definition slice_entry (x : InsertionSlice) : MapEntry InsertionSlice unit := mk_entry x tt.
Lemma set_extended (t : TreeMap.TreeSet InsertionSlice) (l : list (MapEntry InsertionSlice unit)) (sl : list InsertionSlice) :
  Keyed.fits t l → NoDup sl →
  ∃ t' l', TreeMap.set_extend t sl = Some t' ∧ SumTree.represents t' l' ∧ valid l' ∧
    ∀ x, slice_entry x ∈ l' ↔ slice_entry x ∈ l ∨ x ∈ sl.
Proof.
  intros Hfit Hsl. unfold TreeMap.set_extend, TreeMap.extend. rewrite map_map.
  set (es := map (λ x, Keyed.Insert (slice_entry x)) sl : list (Keyed.edit (MapEntry InsertionSlice unit) (MapKey InsertionSlice))).
  assert (map Keyed.edit_key es = map Some sl) as Ek by by (unfold es; rewrite map_map).
  pose proof Hfit as (_ & _ & _ & _ & Hs).
  destruct (Keyed.edit_tree_spec t l es Hfit) as (t' & l' & removed & E & Ht & Hv & Hin & Hout & _).
  { rewrite Ek. apply NoDup_fmap_2; [apply _|done]. }
  { apply Forall_map, Forall_forall. done. }
  exists t', l'. change (map _ sl) with es. rewrite E. split_and!; [done..|]. intros x.
  destruct (decide (x ∈ sl)) as [Hx|Hx].
  - split; [by right|]. intros _. assert (Keyed.Insert (slice_entry x) ∈ es) as He by by apply (list_elem_of_fmap_2 (λ x, Keyed.Insert (slice_entry x))).
    apply Hin in He. by apply Keyed.lookup_Some in He as [? _].
  - assert (Keyed.lookup (Some x) l' = Keyed.lookup (Some x) l) as El.
    { apply Hout. rewrite Ek. intros (y & [= ->] & Hy)%list_elem_of_fmap. done. }
    split; [intros H; left|intros [H|]; [|done]].
    + apply (Keyed.lookup_elem l' (slice_entry x) Hv) in H. change (Keyed.lookup (D := option InsertionSlice) (Some x) l' = Some (slice_entry x)) in H. rewrite El in H.
      by apply Keyed.lookup_Some in H as [? _].
    + apply (Keyed.lookup_elem l (slice_entry x) Hs) in H. change (Keyed.lookup (D := option InsertionSlice) (Some x) l = Some (slice_entry x)) in H. rewrite <- El in H.
      by apply Keyed.lookup_Some in H as [? _].
Qed.
Lemma slices_nodup ts p out :
  NoDup (map frag_key (frags (cells out))) → NoDup (map (from_fragment ts) (with_tag p out)).
Proof.
  intros H%(with_tag_nodup p). apply (NoDup_fmap_1 (λ s, mk_key (slice_insertion_id s) (range_start s))).
  rewrite <- list_fmap_compose. assert (∀ f, mk_key (slice_insertion_id (from_fragment ts f)) (range_start (from_fragment ts f)) = frag_key f) as E.
  { intros f. unfold slice_insertion_id, frag_key. cbn. by destruct (Fragment.timestamp f). }
  match goal with |- NoDup (?g <$> ?l) => assert (g <$> l = map frag_key l) as -> by by apply map_ext end. done.
Qed.

(** ** Snapshots *)
(** The document [cs] and the trees that index it. *)
Record snapshot_of (s : BufferSnapshot) cs : Prop := {
  s_fragments : SumTree.represents (fragments s) (frags cs);
  s_visible : has (visible_text s) (text_of true (atoms cs));
  s_deleted : has (deleted_text s) (text_of false (atoms cs));
  s_cells : Forall cell_ok cs;
  s_ids : ids_ok (frags cs);
  s_keys : NoDup (a_keys (atoms cs));
  s_insertions : ∃ l, SumTree.represents (insertions s) l ∧ valid l ∧ l ≡ₚ insertions_of cs;
  s_slices : ∃ l, SumTree.represents (insertion_slices s) l ∧ valid (T := MapEntry InsertionSlice unit) l;
}.
(** Its trees are low enough for the stack of a cursor. *)
Record roomy (s : BufferSnapshot) cs : Prop := {
  r_fragments : (SumTree.height (fragments s) < Cursor.stack_capacity)%nat;
  r_insertions : (SumTree.height (insertions s) < Cursor.stack_capacity)%nat;
  r_slices : (SumTree.height (insertion_slices s) < Cursor.stack_capacity)%nat;
  r_visible_text : ∃ w, Rope.holds w (visible_text s) (text_of true (atoms cs)) ∧ w < room;
  r_deleted_text : ∃ w, Rope.holds w (deleted_text s) (text_of false (atoms cs)) ∧ w < room;
}.
Lemma represents_fits {T U} `{!Summary U, !Item T U, !SummaryLaws T U} (t : SumTree.node T U) (l : list T) :
  SumTree.represents t l → valid l → (SumTree.height t < Cursor.stack_capacity)%nat → Keyed.fits t l.
Proof. intros [[h Hh] <-] Hv Ht. exists h. by rewrite (SumTree.wf_height _ _ Hh) in Ht. Qed.
Lemma holds_cursor r s : (∃ w, Rope.holds w r s ∧ w < room) → ∃ cur, Rope.cursor_at r 0 = Some cur ∧ between cur [] s.
Proof. intros (w & H & Hw). by eapply between_start. Qed.
Lemma has_new : has Rope.new [].
Proof. exists 0. apply Rope.holds_new. Qed.

Section edits.
Context {D : Type} `{!Dimension D FragmentSummary, !Measured D Fragment.t FragmentSummary,
  !Positions D Fragment.t FragmentSummary}.
Variable timestamp : Lamport.t.
Variable counts : Lamport.t → bool → bool.
Variable pos : D → option Z.
Hypothesis pos_dim : ∀ l, 0 ≤ total (counted_len counts) l < 2 ^ 64 → pos (dim D l) = Some (total (counted_len counts) l).
Variable target : Z → D → comparison.
Variable b : bias.
Hypothesis target_dim : ∀ x l,
  0 ≤ total (counted_len counts) l < 2 ^ 64 → target x (dim D l) = Z.compare x (total (counted_len counts) l).
Hypothesis target_clear : ∀ x d, vague d → skips (target x d) b = false.

Lemma start_edit_ok extra x s cs :
  snapshot_of s cs → roomy s cs → all_len (atoms cs) + extra < 2 ^ 32 → 0 ≤ extra → 0 ≤ x →
  ∃ st mid rest, start_edit pos s (target x) b = Some st ∧ cs = mid ++ rest ∧ jumped counts b x [] mid rest ∧
    walk timestamp counts extra st (kept mid) mid [] rest.
Proof.
  intros Hs Hr Hsm Hex Hx. pose proof (s_cells _ _ Hs) as Ho. unfold start_edit.
  destruct (holds_cursor _ _ (r_visible_text _ _ Hr)) as (cv & -> & Hcv). cbn [mbind option_bind].
  destruct (holds_cursor _ _ (r_deleted_text _ _ Hr)) as (cd & -> & Hcd). cbn [mbind option_bind].
  assert (Keyed.fits (fragments s) (frags cs)) as (h & Hw & Hc & Hh & Hv).
  { apply represents_fits; [apply Hs|by apply cells_ok_frags|apply Hr]. }
  destruct (slice_cells counts target b target_dim target_clear x (Cursor.new (fragments s)) [] cs)
    as (cur & y & mid & rest & E & Hy & -> & Hj & Hcur); [right; split; [done|]; by eapply Cursor.new_fresh|done|cbn [app]; lia|done|].
  rewrite E. cbn [mbind option_bind app] in *. rewrite atoms_app, !text_of_app in Hcv, Hcd. rewrite atoms_app, all_len_app in Hsm.
  pose proof (all_len_nonneg (atoms mid)). pose proof (all_len_nonneg (atoms rest)).
  pose proof (proj1 (Forall_app _ _ _) Ho) as [Hom Hor].
  assert (built (FragmentBuilder.new y) (frags mid)) as Hb by by apply built_new.
  assert (FragmentBuilder.summary (FragmentBuilder.new y) = SumTree.summary y) as -> by done.
  rewrite (text_cells y mid) by (done || lia).
  assert (∀ v, sized ([] ++ text_of v (atoms mid))) as Hsz.
  { intros v. unfold sized. cbn. eapply Z.le_lt_trans; [apply text_of_le|]. lia. }
  assert (ropes_at (RopeBuilder.new cv cd) [] (text_of true (atoms mid) ++ text_of true (atoms rest)) []
            (text_of false (atoms mid) ++ text_of false (atoms rest)) [] []) as Hr0.
  { split; cbn; [done|done|apply has_new|apply has_new]. }
  destruct (ropes_append _ _ _ _ _ _ _ _ _ Hr0 (Hsz true) (Hsz false)) as (rb & Erb & Hrb). rewrite Erb. cbn [mbind option_bind].
  rewrite (Cursor.p_position _ _ _ Hcur : Cursor.start cur = _), (pos_cells counts pos pos_dim) by (done || lia). cbn [mbind option_bind].
  pose proof (doc_kept mid) as Ek.
  eexists _, mid, rest. split_and!; try done. split.
  - split; cbn [old_fragments new_fragments new_ropes new_insertions slices insertion_offset edits_patch]; rewrite ?cells_kept, ?Ek; try done.
    + destruct rest; [done|apply prefix_nil].
    + rewrite ahead_start. by eexists _, _.
    + by rewrite with_tag_kept.
    + by rewrite with_tag_kept.
    + by rewrite with_tag_kept.
    + rewrite behind_start. constructor.
    + apply Forall_map, Forall_forall. intros c Hin. unfold comes_from. cbn. apply elem_of_app. by left.
    + rewrite ahead_start. lia.
    + rewrite atoms_app, all_len_app. lia.
  - cbn [fragment_start]. unfold here. by rewrite behind_start.
  - by left.
  - rewrite cells_kept, <- frags_app. apply Hs.
Qed.

(** What an edit makes of a snapshot: the document [out], the rest as it was. *)
Record edited (s s' : BufferSnapshot) cs out : Prop := {
  e_snapshot : snapshot_of s' (cells out);
  e_undo : undo_map s' = undo_map s;
  e_version : version s' = version s;
  e_remote : remote_id s' = remote_id s;
  e_replica : replica_id s' = replica_id s;
  e_ending : line_ending s' = line_ending s;
  e_slices : ∃ l l', SumTree.represents (insertion_slices s) l ∧ SumTree.represents (insertion_slices s') l' ∧
    ∀ x, slice_entry x ∈ l' ↔ slice_entry x ∈ l ∨ x ∈ map (from_fragment timestamp) (with_tag is_changed out);
  e_from : Forall (comes_from timestamp cs) out;
}.
Lemma finish_edit_ok extra st out bf t rest s :
  walk timestamp counts extra st out bf t rest → snapshot_of s (bf ++ rest) → roomy s (bf ++ rest) →
  NoDup (a_keys (doc out ++ ahead t rest)) → (∀ k, k ∈ a_keys (atoms (bf ++ rest)) → k ∈ a_keys (doc out ++ ahead t rest)) →
  Forall (λ a, a_timestamp a ≠ timestamp) (atoms (bf ++ rest)) →
  ∃ s' k, finish_edit pos s st = Some s' ∧ edited s s' (bf ++ rest) (out ++ k) ∧ doc (out ++ k) = doc out ++ ahead t rest ∧
    Forall (λ w, w_tag w = Moved ∨ w_tag w = Kept) k ∧
    Patch.relates 0 0 (edits_patch st) (encode (text_of true (atoms (bf ++ rest)))) (encode (text_of true (doc (out ++ k)))).
Proof.
  intros H Hs Hr Hnd Hin Hfr. unfold finish_edit. pose proof (w_sim _ _ _ _ _ _ _ _ H) as Hsim.
  destruct (finish_fragment_ok timestamp counts pos pos_dim _ _ _ _ _ _ H) as (st1 & k & bf1 & rest1 & E1 & H1 & Hi & Eo & Ea & _ & Hk & _).
  rewrite E1. cbn [mbind option_bind].
  destruct (Cursor.suffix_rest (old_fragments st1) (frags bf1) (frags rest1)) as (cur & y & E2 & Hy); [left; apply (m_cursor _ _ _ _ _ _ _ H1)|].
  rewrite E2. cbn [mbind option_bind]. destruct (m_ropes _ _ _ _ _ _ _ H1) as (av & ad & Hrb).
  pose proof (m_small _ _ _ _ _ _ _ H1) as Hsm. pose proof (m_small_old _ _ _ _ _ _ _ H1) as Hso. pose proof (m_old _ _ _ _ _ _ _ H1) as Ho.
  pose proof (m_extra _ _ _ _ _ _ _ H1). rewrite ahead_start in Hrb, Hsm. rewrite atoms_app, all_len_app in Hso.
  pose proof (all_len_nonneg (atoms bf1)). pose proof (all_len_nonneg (doc (out ++ k))).
  pose proof (proj1 (Forall_app _ _ _) Ho) as [Hob1 Hor1].
  rewrite (text_cells y rest1) by (done || lia). rewrite <- (app_nil_r (text_of true (atoms rest1))), <- (app_nil_r (text_of false (atoms rest1))) in Hrb.
  assert (∀ v, sized (text_of v (doc (out ++ k)) ++ text_of v (atoms rest1))) as Hsz.
  { intros v. unfold sized. rewrite <- text_of_app. eapply Z.le_lt_trans; [apply text_of_le|]. rewrite all_len_app. lia. }
  destruct (ropes_append _ _ _ _ _ _ _ _ _ Hrb (Hsz true) (Hsz false)) as (rb & -> & Hrb'). cbn [mbind option_bind].
  destruct (ropes_finish _ _ _ _ _ _ _ Hrb') as (rv & rd & -> & Hv & Hd); [by rewrite app_nil_r|by rewrite app_nil_r|].
  cbn [mbind option_bind]. rewrite !app_nil_r in Hv, Hd.
  set (kk := k ++ kept rest1). assert (doc (out ++ kk) = doc out ++ ahead t rest) as Ed.
  { unfold kk. by rewrite !doc_app, Ea, doc_kept. }
  assert (doc (out ++ kk) = doc (out ++ k) ++ atoms rest1) as Ed' by (unfold kk; by rewrite app_assoc, (doc_app (out ++ k)), doc_kept).
  assert (cells (out ++ kk) = cells (out ++ k) ++ rest1) as Ec by (unfold kk; by rewrite app_assoc, (cells_app (out ++ k)), cells_kept).
  assert (Forall cell_ok (cells (out ++ kk))) as Hok by (rewrite Ec; apply Forall_app; split; [apply (m_out _ _ _ _ _ _ _ H1)|done]).
  assert (built (FragmentBuilder.append (new_fragments st1) y) (frags (cells (out ++ kk)))) as Hb.
  { rewrite Ec, frags_app. apply built_append; [apply (m_built _ _ _ _ _ _ _ H1)|done|]. rewrite <- frags_app, <- Ec. by apply cells_ok_frags. }
  destruct (built_tree _ _ Hb) as (tree & Et & Htree); [by apply cells_ok_frags|]. rewrite Et. cbn [mbind option_bind].
  assert (∀ p, p Kept = false → with_tag p (out ++ kk) = with_tag p (out ++ k)) as Ew.
  { intros p Hp. unfold kk. by rewrite app_assoc, (with_tag_app p (out ++ k)), with_tag_kept, app_nil_r. }
  assert (Forall (comes_from timestamp (bf ++ rest)) (out ++ kk)) as Hfrom.
  { unfold kk. rewrite app_assoc. apply Forall_app. split; [rewrite <- Eo; apply (m_from _ _ _ _ _ _ _ H1)|].
    apply Forall_map, Forall_forall. intros c Hc. unfold comes_from. cbn. rewrite <- Eo. apply elem_of_app. by right. }
  rewrite (m_insertions _ _ _ _ _ _ _ H1), (m_slices _ _ _ _ _ _ _ H1), <- !Ew by done. rewrite <- Ed in Hnd, Hin.
  destruct (s_insertions _ _ Hs) as (li & Hli & Hvi & Hpi). destruct (s_slices _ _ Hs) as (ls & Hls & Hvs).
  destruct (insertions_edited timestamp (bf ++ rest) (out ++ kk) (s_cells _ _ Hs) Hok Hfrom (s_keys _ _ Hs) Hnd Hin Hfr (insertions s) li)
    as (ti & li' & removed & Ei & Hti & Hvi' & Hpi'); [apply represents_fits; [done|done|apply Hr]|done|].
  rewrite Ei. cbn [mbind option_bind].
  destruct (set_extended (insertion_slices s) ls (map (from_fragment timestamp) (with_tag is_changed (out ++ kk))))
    as (tl & ls' & Es & Htl & Hvs' & Hsl); [apply represents_fits; [done|done|apply Hr]|by apply slices_nodup, frag_keys_nodup|].
  rewrite Es. cbn [mbind option_bind]. eexists _, kk. split; [done|]. split_and!.
  - split; [|done..|by exists ls, ls'|done]. split; cbn [fragments visible_text deleted_text insertions insertion_slices].
    + done.
    + change (atoms (cells (out ++ kk))) with (doc (out ++ kk)). by rewrite Ed', text_of_app.
    + change (atoms (cells (out ++ kk))) with (doc (out ++ kk)). by rewrite Ed', text_of_app.
    + done.
    + rewrite Ec, frags_app. done.
    + done.
    + by exists li'.
    + by exists ls'.
  - done.
  - unfold kk. apply Forall_app. split; [done|]. apply Forall_map, Forall_forall. by right.
  - rewrite Ed, text_of_app, encode_app, (behind_ahead bf t rest), text_of_app, encode_app by apply (m_prefix _ _ _ _ _ _ _ Hsim).
    apply Patch.relates_gap, (m_patch _ _ _ _ _ _ _ Hsim).
Qed.
End edits.
