(* ===== verification/Script.v ===== *)
(** What edits mean: on a text, and on a document with deleted characters, where
    the ranges of an operation count what its author had seen. *)
From S2P Require Import Prelude Clock Locator SumTree UndoMap.
From S2P Require Import Utf8 Fragments Cells.

(** ** Edits of a text
    Ranges in bytes, in order; the text is read from offset [n] on. *)
Abbreviation edits := (list ((Z * Z) * str)).
Inductive edited_text : Z → edits → str → str → Prop :=
  | edited_nil n s : edited_text n [] s s
  | edited_cons n start stop u es a d b b' :
      str_len a = start - n → str_len d = stop - start → edited_text stop es b b' →
      edited_text n (((start, stop), u) :: es) (a ++ d ++ b) (a ++ u ++ b').
Definition inserted_len (es : edits) : Z := foldr (λ e n, str_len e.2 + n) 0 es.

Lemma no_bytes s : str_len s = 0 → s = [].
Proof. destruct s as [|c s]; [done|]. cbn. pose proof (len_utf8_bounds c). pose proof (str_len_nonneg s). lia. Qed.
Lemma app_str_inj (a b x y : str) : a ++ x = b ++ y → str_len a = str_len b → a = b ∧ x = y.
Proof.
  revert b. induction a as [|c a IH]; intros [|d b] E H; cbn in *.
  - done.
  - pose proof (len_utf8_bounds d). pose proof (str_len_nonneg b). lia.
  - pose proof (len_utf8_bounds c). pose proof (str_len_nonneg a). lia.
  - injection E as -> E. destruct (IH b E) as [-> ->]; [lia|done].
Qed.
Lemma app_str_le (a b x y : str) : a ++ x = b ++ y → str_len a ≤ str_len b → ∃ m, b = a ++ m ∧ x = m ++ y.
Proof.
  revert b. induction a as [|c a IH]; intros b E H; [by exists b|]. cbn in *. destruct b as [|d b]; cbn in *.
  - pose proof (len_utf8_bounds c). pose proof (str_len_nonneg a). lia.
  - injection E as -> E. destruct (IH b E) as (m & -> & ->); [lia|]. by exists m.
Qed.
Lemma edited_start n start stop u es s v : edited_text n (((start, stop), u) :: es) s v → n ≤ start ≤ stop ∧ start - n ≤ str_len s.
Proof.
  intros H. inversion H as [|? ? ? ? ? a d b b' Ha Hd Hrest]; subst. rewrite !str_len_app.
  pose proof (str_len_nonneg a). pose proof (str_len_nonneg d). pose proof (str_len_nonneg b). lia.
Qed.
Lemma edited_inv n start stop u es s v :
  edited_text n (((start, stop), u) :: es) s v →
  ∃ a d b b', s = a ++ d ++ b ∧ v = a ++ u ++ b' ∧ str_len a = start - n ∧ str_len d = stop - start ∧ edited_text stop es b b'.
Proof. inversion 1; subst. by eexists _, _, _, _. Qed.
(** Text before the first range stays. *)
Lemma edited_drop n start stop u es x y v :
  edited_text n (((start, stop), u) :: es) (x ++ y) v → str_len x ≤ start - n →
  ∃ v', v = x ++ v' ∧ edited_text (n + str_len x) (((start, stop), u) :: es) y v'.
Proof.
  intros H Hx. inversion H as [|? ? ? ? ? a d b b' Ha Hd Hrest E]; subst.
  destruct (app_str_le x a y (d ++ b)) as (m & -> & ->); [done|lia|]. rewrite str_len_app in Ha.
  exists (m ++ u ++ b'). rewrite <- app_assoc. split; [done|]. constructor; [lia|done..].
Qed.
Lemma inserted_len_nonneg es : 0 ≤ inserted_len es.
Proof. induction es as [|e es IH]; cbn; [done|]. pose proof (str_len_nonneg e.2). unfold inserted_len in IH. lia. Qed.

(** ** Texts of documents *)
Implicit Types (l k x y : list atom).
Lemma text_split b l (s t : str) : text_of b l = s ++ t → ∃ x y, l = x ++ y ∧ text_of b x = s ∧ text_of b y = t.
Proof.
  revert s. induction l as [|a l IH]; intros s E.
  - cbn in E. symmetry in E. apply app_nil in E as [-> ->]. by exists [], [].
  - unfold text_of in E. rewrite filter_cons in E. case_decide as Ha.
    + destruct s as [|c s]; cbn in E.
      * exists [], (a :: l). split_and!; [done..|]. unfold text_of. by rewrite filter_cons, decide_True.
      * injection E as Ec E. destruct (IH s E) as (x & y & -> & <- & <-). exists (a :: x), y. split_and!; [done| |done].
        unfold text_of. rewrite filter_cons, decide_True by done. cbn. by rewrite Ec.
    + destruct (IH s E) as (x & y & -> & <- & <-). exists (a :: x), y. split_and!; [done| |done].
      unfold text_of. by rewrite filter_cons, decide_False.
Qed.
Lemma visible_text_len l : str_len (text_of true l) = measured_len a_visible l.
Proof. rewrite text_len. apply measured_ext, Forall_true. intros a. by destruct (a_visible a). Qed.
Lemma text_killed ts l : text_of true (map (kill ts) l) = [].
Proof. induction l as [|a l IH]; [done|]. unfold text_of in *. cbn [map]. by rewrite filter_cons, decide_False. Qed.

(** ** Edits of a document
    The ranges count the characters with [p], which the author of the edit had
    seen, from offset [n] on; text goes behind the characters with [skip] at its
    place, [mark] deletes a character. New text is numbered from [off] on. *)
Section apply.
Variables (p skip : atom → bool) (mark : atom → atom) (timestamp : Lamport.t).
Definition new_text_atoms (off : Z) (u : str) : list atom :=
  atoms_from (Fragment.mk Locator.min timestamp off (str_len u) true [] Global.new) off u.
Fixpoint span (l : list atom) : list atom * list atom :=
  match l with
  | [] => ([], [])
  | a :: l' => if skip a then let '(x, y) := span l' in (a :: x, y) else ([], l)
  end.
Fixpoint apply_edits (n off : Z) (es : edits) l : list atom :=
  match es with
  | [] => l
  | ((start, stop), u) :: es =>
      let '(a, l) := take_measured p (start - n) l in
      let '(k, l) := span l in
      let '(d, l) := take_measured p (stop - start) l in
      a ++ k ++ new_text_atoms off u ++ map mark d ++ apply_edits stop (off + str_len u) es l
  end.
(** The ranges are in order and at boundaries of characters. *)
Fixpoint applicable (n : Z) (es : edits) l : Prop :=
  match es with
  | [] => True
  | ((start, stop), u) :: es =>
      let '(a, l) := take_measured p (start - n) l in
      let '(k, l) := span l in
      let '(d, l) := take_measured p (stop - start) l in
      measured_len p a = start - n ∧ measured_len p d = stop - start ∧ applicable stop es l
  end.
Lemma span_ok k l : Forall (λ c, skip c = true) k → (∀ c l', l = c :: l' → skip c = false) → span (k ++ l) = (k, l).
Proof.
  intros Hk Hl. induction Hk as [|c k Hc _ IH]; cbn [app span]; [|by rewrite Hc, IH].
  destruct l as [|c l]; [done|]. cbn. by rewrite (Hl c l eq_refl).
Qed.
Lemma take_measured_skip x m l :
  shortest p x ∧ measured_len p x ≤ m ∨ measured_len p x < m →
  take_measured p m (x ++ l) = (x ++ (take_measured p (m - measured_len p x) l).1, (take_measured p (m - measured_len p x) l).2).
Proof.
  revert m. induction x as [|a x IH]; intros m Hx.
  - cbn [app]. change (measured_len p []) with 0. rewrite Z.sub_0_r. by destruct (take_measured p m l).
  - rewrite measured_cons in *. cbn [app take_measured].
    assert (0 < m ∧ (shortest p x ∧ measured_len p x ≤ m - (if p a then a_len a else 0) ∨ measured_len p x < m - (if p a then a_len a else 0)))
      as [Hm Hx'].
    { pose proof (measured_nonneg p x). pose proof (a_len_pos a). destruct Hx as [[[Hs|(x' & c & E & Hc)] Hle]|Hlt]; [done| |].
      - destruct x' as [|b x']; injection E as -> E.
        + subst x. rewrite Hc in *. change (measured_len p []) with 0 in *. split; [lia|left]. split; [by left|lia].
        + subst x. assert (0 < measured_len p (x' ++ [c])).
          { rewrite measured_app, measured_cons, Hc. pose proof (measured_nonneg p x'). pose proof (a_len_pos c).
            change (measured_len p []) with 0. lia. }
          split; [case_match; lia|left]. split; [right; by exists x', c|case_match; lia].
      - split; [case_match; lia|right; case_match; lia]. }
    rewrite (proj2 (Z.leb_gt _ _)) by done. rewrite IH by done. by rewrite Z.sub_add_distr.
Qed.
(** What precedes the first range stays. *)
Lemma apply_edits_skip n off start stop u es x l :
  shortest p x ∧ measured_len p x ≤ start - n ∨ measured_len p x < start - n →
  apply_edits n off (((start, stop), u) :: es) (x ++ l) = x ++ apply_edits (n + measured_len p x) off (((start, stop), u) :: es) l.
Proof.
  intros H. cbn [apply_edits]. rewrite take_measured_skip by done.
  replace (start - n - measured_len p x) with (start - (n + measured_len p x)) by lia.
  destruct (take_measured p _ l) as [a l1]. cbn [fst snd]. destruct (span l1) as [k l2]. destruct (take_measured p _ l2). by rewrite <- app_assoc.
Qed.
(** One edit, from its parts. *)
Lemma apply_edits_parts n off start stop u es a k d l :
  shortest p a → measured_len p a = start - n → Forall (λ c, skip c = true) k →
  (∀ c l', d ++ l = c :: l' → skip c = false) → shortest p d → measured_len p d = stop - start →
  apply_edits n off (((start, stop), u) :: es) (a ++ k ++ d ++ l)
  = a ++ k ++ new_text_atoms off u ++ map mark d ++ apply_edits stop (off + str_len u) es l.
Proof.
  intros Ha Hma Hk Hd Hsd Hmd. cbn [apply_edits]. rewrite <- Hma, take_measured_ok, span_ok by done.
  by rewrite <- Hmd, take_measured_ok.
Qed.
(** The same, when the text is cut there. *)
Lemma applicable_parts n start stop u es a k l :
  shortest p a → measured_len p a = start - n → Forall (λ c, skip c = true) k → (∀ c l', l = c :: l' → skip c = false) →
  applicable n (((start, stop), u) :: es) (a ++ k ++ l) →
  ∃ d l', l = d ++ l' ∧ shortest p d ∧ measured_len p d = stop - start ∧ applicable stop es l'.
Proof.
  intros Ha Hma Hk Hl H. cbn [applicable] in H. rewrite <- Hma, take_measured_ok, span_ok in H by done.
  pose proof (take_measured_app p (stop - start) l) as E. pose proof (take_measured_shortest p (stop - start) l) as Hs.
  destruct (take_measured p (stop - start) l) as [d l']. destruct H as (_ & Hd & H). exists d, l'. cbn [fst snd] in *. split_and!; try done.
  by apply Hs.
Qed.
(** From its parts. *)
Lemma applicable_cons n start stop u es a k d l :
  shortest p a → measured_len p a = start - n → Forall (λ c, skip c = true) k →
  (∀ c l', d ++ l = c :: l' → skip c = false) → shortest p d → measured_len p d = stop - start → applicable stop es l →
  applicable n (((start, stop), u) :: es) (a ++ k ++ d ++ l).
Proof.
  intros Ha Hma Hk Hd Hsd Hmd H. cbn [applicable]. rewrite <- Hma, take_measured_ok, span_ok by done.
  by rewrite <- Hmd, take_measured_ok.
Qed.
Lemma applicable_start n start stop u es l :
  applicable n (((start, stop), u) :: es) l → ∃ a l', l = a ++ l' ∧ measured_len p a = start - n.
Proof.
  intros H. cbn [applicable] in H. pose proof (take_measured_app p (start - n) l) as E. destruct (take_measured p (start - n) l) as [a l1].
  destruct (span l1) as [k l2]. destruct (take_measured p _ l2). destruct H as (Ha & _). by exists a, l1.
Qed.
Lemma applicable_skip n start stop u es x l :
  shortest p x ∧ measured_len p x ≤ start - n ∨ measured_len p x < start - n →
  applicable n (((start, stop), u) :: es) (x ++ l) ↔ applicable (n + measured_len p x) (((start, stop), u) :: es) l.
Proof.
  intros Hx. cbn [applicable]. rewrite take_measured_skip by done.
  replace (start - n - measured_len p x) with (start - (n + measured_len p x)) by lia.
  destruct (take_measured p _ l) as [a l1]. cbn [fst snd]. destruct (span l1) as [k l2]. destruct (take_measured p _ l2).
  rewrite measured_app. split; intros (? & ? & ?); (split_and!; [lia|done..]).
Qed.

Lemma span_whole l : (span l).1 ++ (span l).2 = l.
Proof. induction l as [|a l IH]; [done|]. cbn. destruct (skip a); [|done]. destruct (span l). cbn in *. by rewrite IH. Qed.

(** *** The characters of the result *)
Fixpoint new_atoms (off : Z) (es : edits) : list atom :=
  match es with
  | [] => []
  | (_, u) :: es => new_text_atoms off u ++ new_atoms (off + str_len u) es
  end.
Lemma applied_map {B} (g : atom → B) n off es l :
  (∀ a, g (mark a) = g a) → map g (apply_edits n off es l) ≡ₚ map g (new_atoms off es) ++ map g l.
Proof.
  intros Hm. revert n off l. induction es as [|[[start stop] u] es IH]; intros n off l; [done|]. cbn [apply_edits new_atoms].
  pose proof (take_measured_app p (start - n) l) as E1. destruct (take_measured p _ l) as [a l1].
  pose proof (span_whole l1) as E2. destruct (span l1) as [k l2]. pose proof (take_measured_app p (stop - start) l2) as E3. destruct (take_measured p _ l2) as [d l3].
  cbn [fst snd] in *. subst l l1 l2. rewrite !map_app, map_map, (map_ext _ g Hm), IH. solve_Permutation.
Qed.
Lemma applied_keys n off es l :
  (∀ a, a_key (mark a) = a_key a) → a_keys (apply_edits n off es l) ≡ₚ a_keys (new_atoms off es) ++ a_keys l.
Proof. apply applied_map. Qed.
Lemma from_keys f o s : NoDup (a_keys (atoms_from f o s)) ∧
  Forall (λ a, a_timestamp a = Fragment.timestamp f ∧ o ≤ a_offset a < o + str_len s) (atoms_from f o s).
Proof.
  revert o. induction s as [|c s IH]; intros o; cbn; [by split; constructor|].
  destruct (IH (o + len_utf8 c)) as [H1 H2]. pose proof (len_utf8_bounds c). pose proof (str_len_nonneg s). split.
  - apply NoDup_cons. split; [|done]. intros (a & Ea & Ha)%list_elem_of_fmap. apply (proj1 (Forall_forall _ _) H2) in Ha as [_ Ha].
    unfold a_key in Ea. injection Ea as _ Ea. cbn in *. lia.
  - constructor; [cbn; split; [done|lia]|]. eapply Forall_impl; [exact H2|]. cbn. intros a [? ?]. split; [done|lia].
Qed.
Lemma new_atoms_keys off es : NoDup (a_keys (new_atoms off es)) ∧
  Forall (λ a, a_timestamp a = timestamp ∧ off ≤ a_offset a) (new_atoms off es).
Proof.
  revert off. induction es as [|[r u] es IH]; intros off; [by split; constructor|]. cbn [new_atoms].
  destruct (from_keys (Fragment.mk Locator.min timestamp off (str_len u) true [] Global.new) off u) as [H1 H2].
  destruct (IH (off + str_len u)) as [H3 H4]. pose proof (str_len_nonneg u). split.
  - rewrite map_app. apply NoDup_app. split_and!; [done| |done].
    intros k (a & -> & Ha)%list_elem_of_fmap (b & Eb & Hb)%list_elem_of_fmap. apply (proj1 (Forall_forall _ _) H2) in Ha as [_ Ha].
    apply (proj1 (Forall_forall _ _) H4) in Hb as [_ Hb]. unfold a_key in Eb. injection Eb as _ Eb. lia.
  - apply Forall_app. split; [eapply Forall_impl; [exact H2|]|eapply Forall_impl; [exact H4|]]; cbn; intros a [? ?]; (split; [done|lia]).
Qed.
Lemma applied_nodup n off es l :
  (∀ a, a_key (mark a) = a_key a) → NoDup (a_keys l) → Forall (λ a, a_timestamp a ≠ timestamp) l →
  NoDup (a_keys (apply_edits n off es l)) ∧ ∀ key, key ∈ a_keys l → key ∈ a_keys (apply_edits n off es l).
Proof.
  intros Hm Hl Hf. pose proof (applied_keys n off es l Hm) as Hp. split; [|intros k Hk; rewrite Hp; apply elem_of_app; by right].
  rewrite Hp. destruct (new_atoms_keys off es) as [H1 H2]. apply NoDup_app. split_and!; [done| |done].
  intros k (a & -> & Ha)%list_elem_of_fmap (b & Eb & Hb)%list_elem_of_fmap. apply (proj1 (Forall_forall _ _) H2) in Ha as [Ha _].
  apply (proj1 (Forall_forall _ _) Hf) in Hb. unfold a_key in Eb. injection Eb as Eb _. congruence.
Qed.
End apply.
Lemma shortest_all l : shortest (λ _, true) l.
Proof. destruct l as [|a l _] using rev_ind; [by left|]. right. by exists l, a. Qed.
(** What matters is what the predicates say of the characters that are there. *)
Section same_apply.
Variables (p p' skip skip' : atom → bool) (mark mark' : atom → atom) (ts : Lamport.t).
Definition alike (a : atom) : Prop := p a = p' a ∧ skip a = skip' a ∧ mark a = mark' a.
Lemma take_measured_ext n l : Forall alike l → take_measured p n l = take_measured p' n l.
Proof. intros H. revert n. induction H as [|a l (E & _) _ IH]; intros n; [done|]. cbn. by rewrite E, IH. Qed.
Lemma span_ext l : Forall alike l → span skip l = span skip' l.
Proof. induction 1 as [|a l (_ & E & _) _ IH]; [done|]. cbn. by rewrite E, IH. Qed.
Lemma apply_edits_ext es : ∀ n off l, Forall alike l →
  apply_edits p skip mark ts n off es l = apply_edits p' skip' mark' ts n off es l ∧
  (applicable p skip n es l ↔ applicable p' skip' n es l).
Proof.
  induction es as [|[[start stop] u] es IH]; intros n off l H; [done|]. cbn [apply_edits applicable].
  rewrite <- (take_measured_ext _ l) by done. pose proof (take_measured_app p (start - n) l) as E1. destruct (take_measured p (start - n) l) as [x l1].
  cbn [fst snd] in E1. subst l. apply Forall_app in H as [Hx H]. rewrite <- span_ext by done.
  pose proof (span_whole skip l1) as E2. destruct (span skip l1) as [k l2]. cbn [fst snd] in E2. subst l1. apply Forall_app in H as [_ H].
  rewrite <- (take_measured_ext _ l2) by done. pose proof (take_measured_app p (stop - start) l2) as E3.
  destruct (take_measured p (stop - start) l2) as [d l3]. cbn [fst snd] in E3. subst l2. apply Forall_app in H as [Hd H].
  assert (∀ y, Forall alike y → measured_len p y = measured_len p' y ∧ map mark y = map mark' y) as Hsame.
  { intros y Hy. split; [apply measured_ext|apply map_ext_Forall]; (eapply Forall_impl; [exact Hy|]); by intros a (? & ? & ?). }
  destruct (IH stop (off + str_len u) l3 H) as [-> ->]. destruct (Hsame x Hx) as [-> _], (Hsame d Hd) as [-> ->]. done.
Qed.
End same_apply.

(** Edits of characters that are changed otherwise, too. *)
Section mapped_apply.
Variables (p skip : atom → bool) (mark mark' g : atom → atom) (ts : Lamport.t).
Hypothesis g_p : ∀ a, p (g a) = p a.
Hypothesis g_skip : ∀ a, skip (g a) = skip a.
Hypothesis g_len : ∀ a, a_len (g a) = a_len a.
Lemma take_measured_map n l : take_measured p n (map g l) = (map g (take_measured p n l).1, map g (take_measured p n l).2).
Proof.
  revert n. induction l as [|a l IH]; intros n; cbn [map take_measured]; [done|]. destruct (n <=? 0); [done|].
  rewrite g_p, g_len, IH. by destruct (take_measured p _ l).
Qed.
Lemma span_mapped l : span skip (map g l) = (map g (span skip l).1, map g (span skip l).2).
Proof.
  induction l as [|a l IH]; [done|]. cbn [map span]. rewrite g_skip. destruct (skip a); [|done]. rewrite IH. by destruct (span skip l).
Qed.
Lemma measured_map l : measured_len p (map g l) = measured_len p l.
Proof. induction l as [|a l IH]; [done|]. cbn [map]. by rewrite !measured_cons, IH, g_p, g_len. Qed.
Lemma applicable_map es : ∀ n l, applicable p skip n es (map g l) ↔ applicable p skip n es l.
Proof.
  induction es as [|[[start stop] u] es IH]; intros n l; [done|]. cbn [applicable]. rewrite take_measured_map.
  destruct (take_measured p (start - n) l) as [a l1]. cbn [fst snd]. rewrite span_mapped. destruct (span skip l1) as [k l2]. cbn [fst snd].
  rewrite take_measured_map. destruct (take_measured p (stop - start) l2) as [d l3]. cbn [fst snd]. by rewrite !measured_map, IH.
Qed.
Hypothesis g_mark : ∀ a, mark (g a) = g (mark' a).
Hypothesis g_new : ∀ a, a_timestamp a = ts → a_deletions a = [] → g a = a.
Lemma apply_edits_map es : ∀ n off l, apply_edits p skip mark ts n off es (map g l) = map g (apply_edits p skip mark' ts n off es l).
Proof.
  induction es as [|[[start stop] u] es IH]; intros n off l; [done|]. cbn [apply_edits]. rewrite take_measured_map.
  destruct (take_measured p (start - n) l) as [a l1]. cbn [fst snd]. rewrite span_mapped. destruct (span skip l1) as [k l2]. cbn [fst snd].
  rewrite take_measured_map. destruct (take_measured p (stop - start) l2) as [d l3]. cbn [fst snd]. rewrite IH, !map_app, !map_map.
  do 3 f_equal; [|f_equal; by apply map_ext].
  rewrite <- (map_id (new_text_atoms ts off u)) at 1. apply map_ext_Forall.
  assert (Forall (λ a, a_timestamp a = ts ∧ a_deletions a = []) (new_text_atoms ts off u)) as H by by apply atoms_from_forall.
  eapply Forall_impl; [exact H|]. intros x [H1 H2]. symmetry. by apply g_new.
Qed.
End mapped_apply.
