(* ===== verification/Origin.v ===== *)
(** Where documents come from: a new buffer ([Buffer::new_normalized]) is a
    snapshot of one insertion that holds its text. *)
From S2P Require Import Prelude Clock Locator SumTree Cursor TreeWeight Keyed TreeMap UndoMap OperationQueue.
From S2P Require Import Utf8 Rope History Fragments Buffer BufferOps FragmentLaws Builders Cells Snapshot Script.
Import Buffer.
#[local] Existing Instances UndoMap.UndoMapKey_summary UndoMap.UndoMapEntry_item UndoMap.UndoMapEntry_laws UndoMap.UndoMapEntry_keyed.
Implicit Types (s : BufferSnapshot) (t : str).

(** ** Room on the stack of a cursor *)
(** The trees of the snapshot are low and light enough. *)
Definition low_trees s : bool :=
  (SumTree.height (fragments s) <? Cursor.stack_capacity)%nat && (SumTree.height (insertions s) <? Cursor.stack_capacity)%nat &&
  (SumTree.height (insertion_slices s) <? Cursor.stack_capacity)%nat &&
  (TreeWeight.weight (visible_text s) <? room) && (TreeWeight.weight (deleted_text s) <? room).
Lemma has_weight r t : has r t → Rope.holds (TreeWeight.weight r) r t.
Proof. intros (w & ss & ([H _] & F) & E). exists ss. by split. Qed.
Lemma low_roomy s cs : snapshot_of s cs → low_trees s = true → roomy s cs.
Proof.
  intros Hs. unfold low_trees. rewrite !andb_true_iff, !Nat.ltb_lt, !Z.ltb_lt. intros ((((H1 & H2) & H3) & H4) & H5). split; [done..| |].
  - eexists. split; [apply has_weight, (s_visible _ _ Hs)|done].
  - eexists. split; [apply has_weight, (s_deleted _ _ Hs)|done].
Qed.

(** ** A new buffer *)
Definition base_fragment t : Fragment.t :=
  Fragment.mk (Locator.between Locator.min Locator.max) (Lamport.new ReplicaId.LOCAL) 0 (str_len t) true [] Global.new.
Definition base_cells t : list cell := match t with [] => [] | _ => [mk_cell (base_fragment t) t] end.
Lemma base_atoms t : atoms (base_cells t) = atoms_from (base_fragment t) 0 t.
Proof. destruct t as [|c t]; [done|]. exact (app_nil_r _). Qed.
Lemma base_text t : text_of true (atoms (base_cells t)) = t ∧ text_of false (atoms (base_cells t)) = [].
Proof. rewrite base_atoms. split; apply atoms_from_text. Qed.
Lemma base_cell_ok t : t ≠ [] → scalars t → str_len t < 2 ^ 32 → cell_ok (mk_cell (base_fragment t) t).
Proof.
  intros Ht Hs Hl. pose proof (str_len_nonneg t). split; try done.
  split; try done. apply Global.wf_new.
Qed.
Lemma base_ids t : ids_ok [base_fragment t].
Proof. apply (ids_room [] [] (base_fragment t)); [|done]. split; constructor. Qed.
(** The trees of one insertion. *)
Lemma base_trees t : t ≠ [] → scalars t → str_len t < 2 ^ 32 →
  ∃ insertions fragments, SumTree.push SumTree.new (insertion_new (base_fragment t)) = Some insertions ∧
    SumTree.push SumTree.new (base_fragment t) = Some fragments ∧
    SumTree.represents insertions [insertion_new (base_fragment t)] ∧ SumTree.represents fragments [base_fragment t] ∧
    valid [insertion_new (base_fragment t)].
Proof.
  intros Ht Hs Hl. destruct (base_cell_ok t Ht Hs Hl) as [Hf _ _ _ _]. cbn [frag] in Hf.
  assert (valid [insertion_new (base_fragment t)]) as Hv by (split; [by repeat constructor|]; repeat constructor; cbn; lia).
  destruct (SumTree.represents_push SumTree.new [] (insertion_new (base_fragment t)) SumTree.represents_new Hv) as (i & Ei & Hi).
  destruct (SumTree.represents_push SumTree.new [] (base_fragment t) SumTree.represents_new) as (f & Ef & Hr); [by constructor|].
  exists i, f. by split_and!.
Qed.
Lemma base_loop normalized w t : Rope.holds w normalized t → t ≠ [] →
  ∃ insertions fragments,
    iterate (base_step normalized (Lamport.new ReplicaId.LOCAL)) (S (Z.to_nat (Rope.len normalized)))
      (SumTree.new, SumTree.new, Locator.min, 0, 0) = Some (fragments, insertions) ∧
    SumTree.represents insertions [insertion_new (base_fragment t)] ∧ SumTree.represents fragments [base_fragment t] ∧
    valid [insertion_new (base_fragment t)].
Proof.
  intros Hr Ht. destruct (Rope.holds_text _ _ _ Hr) as [Hsc Hsz]. unfold Rope.sized in Hsz.
  destruct (base_trees t Ht Hsc Hsz) as (i & f & Ei & Ef & Hi & Hf & Hv). exists i, f. split; [|done].
  assert (0 < str_len t) as Hpos.
  { destruct t as [|c t]; [done|]. cbn. pose proof (len_utf8_bounds c). pose proof (str_len_nonneg t). lia. }
  cbn [iterate]. unfold base_step at 1. rewrite (Rope.rope_len_ok _ _ _ Hr).
  rewrite (proj2 (Z.ltb_lt _ _)) by done. cbn zeta. unfold MAX_INSERTION_LEN, u32_MAX. rewrite (wrap64_small (0 + _)) by lia.
  rewrite Z.min_l, Z.eqb_refl by lia. cbn [mbind option_bind]. rewrite Z.sub_0_r, !(wrap64_small (str_len t)) by lia. rewrite !(wrap32_id (str_len t)) by width.
  change (Fragment.mk _ _ _ _ _ _ _) with (base_fragment t). rewrite Ei. cbn [mbind option_bind]. rewrite Ef. cbn [mbind option_bind].
  destruct (Z.to_nat (str_len t)) as [|n] eqn:En; [lia|]. cbn [iterate]. unfold base_step. rewrite (Rope.rope_len_ok _ _ _ Hr), Z.ltb_irrefl. done.
Qed.
Lemma new_buffer_runs replica_id remote_id line_ending normalized t : has normalized t →
  ∃ b, new_normalized replica_id remote_id line_ending normalized = Some b ∧ snapshot_of (snapshot b) (base_cells t) ∧
    visible_text (snapshot b) = normalized ∧ undo_map (snapshot b) = SumTree.new (Summary0 := UndoMap.UndoMapKey_summary) ∧
    deleted_text (snapshot b) = Rope.new.
Proof.
  intros [w Hr]. unfold new_normalized. change (History.base_text (History.new normalized)) with normalized.
  destruct (base_text t) as [Ev Ed]. destruct (Rope.holds_text _ _ _ Hr) as [Hsc Hsz]. rewrite (Rope.is_empty_ok _ _ _ Hr).
  destruct t as [|c t]; [|set (t' := c :: t) in *].
  - cbn [bool_decide negb mbind option_bind]. eexists. split; [reflexivity|]. split_and!; try done. split; cbn.
    + apply SumTree.represents_new.
    + by exists w.
    + apply has_new.
    + constructor.
    + split; constructor.
    + constructor.
    + exists []. split; [apply SumTree.represents_new|]. by repeat constructor.
    + exists []. split; [apply SumTree.represents_new|constructor].
  - rewrite bool_decide_eq_false_2 by done. destruct (base_loop normalized w t' Hr) as (i & f & E & Hi & Hf & Hv); [done|].
    cbn [negb]. rewrite E. cbn [mbind option_bind]. eexists. split; [reflexivity|]. split_and!; try done. split; cbn [snapshot fragments visible_text deleted_text insertions insertion_slices].
    + exact Hf.
    + rewrite Ev. by exists w.
    + rewrite Ed. apply has_new.
    + constructor; [by apply base_cell_ok|constructor].
    + apply base_ids.
    + rewrite base_atoms. apply from_keys.
    + exists [insertion_new (base_fragment t')]. by split_and!.
    + exists []. split; [apply SumTree.represents_new|constructor].
Qed.

Lemma new_buffer_fields replica_id remote_id line_ending normalized b :
  new_normalized replica_id remote_id line_ending normalized = Some b →
  insertion_slices (snapshot b) = TreeMap.default ∧ history b = History.new normalized ∧
  deferred_ops b = OperationQueue.OperationQueue.new ∧ deferred_replicas b = [] ∧
  version (snapshot b) = (if Rope.is_empty normalized then Global.new else Global.observe Global.new (Lamport.new ReplicaId.LOCAL)).
Proof.
  unfold new_normalized. change (History.base_text (History.new normalized)) with normalized. destruct (Rope.is_empty normalized); cbn [negb].
  - intros [= <-]. by split_and!.
  - destruct (iterate _ _ _) as [[f i]|]; [|done]. intros [= <-]. by split_and!.
Qed.
(** C26: A new buffer. [Buffer::new_normalized], given the rope of a text, does not
    panic and its loop ends; the snapshot holds the text as one insertion of the
    local replica (as none, when it is empty), nothing is deleted, and its trees
    index this document. *)
Theorem new_buffer_correct replica_id remote_id line_ending normalized t : has normalized t →
  ∃ b, new_normalized replica_id remote_id line_ending normalized = Some b ∧ snapshot_of (snapshot b) (base_cells t) ∧
    visible_text (snapshot b) = normalized ∧ deleted_text (snapshot b) = Rope.new ∧ text_of true (atoms (base_cells t)) = t.
Proof.
  intros H. destruct (new_buffer_runs replica_id remote_id line_ending normalized t H) as (b & E & Hs & Hv & _ & Hd).
  exists b. split_and!; try done. apply base_text.
Qed.
(** The text of the witnesses, and its buffer. *)
Definition sample_buffer (replica_id : Z) : option Buffer :=
  r ← Rope.from (encode [97; 98; 99]); new_normalized (ReplicaId.mk replica_id) 1 Unix r.
Definition sample : option BufferSnapshot := b ← sample_buffer 1; Some (snapshot b).
Lemma sample_text_rope : ∃ r, Rope.from (encode [97; 98; 99]) = Some r ∧ has r [97; 98; 99].
Proof. destruct (Rope.from_ok [97; 98; 99]) as (r & E & H); [by repeat constructor|done|]. exists r. split; [done|by eexists]. Qed.
Lemma sample_snapshot_ok : ∃ s, sample = Some s ∧ snapshot_of s (base_cells [97; 98; 99]) ∧ Keyed.fits (undo_map s) [].
Proof.
  destruct sample_text_rope as (r & E & Hr). destruct (new_buffer_runs (ReplicaId.mk 1) 1 Unix r [97; 98; 99] Hr) as (b & Eb & Hs & _ & Hu & _).
  exists (snapshot b). unfold sample, sample_buffer. rewrite E. cbn [mbind option_bind]. rewrite Eb. split_and!; [done..|]. rewrite Hu.
  apply UndoMap.fits_new.
Qed.
Lemma new_buffer_correct_witness : ∃ r b, Rope.from (encode [97; 98; 99]) = Some r ∧ new_normalized (ReplicaId.mk 1) 1 Unix r = Some b ∧
  snapshot_of (snapshot b) (base_cells [97; 98; 99]).
Proof.
  destruct sample_text_rope as (r & E & H). destruct (new_buffer_correct (ReplicaId.mk 1) 1 Unix r [97; 98; 99] H) as (b & Eb & Hs & _).
  by exists r, b.
Defined.
