(* ===== verification/Commuting.v ===== *)
(** Operations on replicated states, abstractly: if those that do not know of each
    other commute, then every order in which no operation comes before one that it
    knows of gives the same state. *)
From S2P Require Import Prelude.

(** ** What operations have to satisfy *)
(** [knows o o']: the author of [o] had seen [o'] when it was made. *)
Class Operations (O S : Type) := {
  name : Type;
  name_eq_dec :: EqDecision name;
  op_name : O → name;
  knows : O → O → bool;
  run : O → S → S;
  ready : O → S → Prop;
  agrees : relation S;
}.
Definition unrelated {O S} `{!Operations O S} (o o' : O) : Prop :=
  op_name o ≠ op_name o' ∧ knows o o' = false ∧ knows o' o = false.
Class OperationsLaws (O S : Type) `{!Operations O S} := {
  #[global] agrees_equiv :: Equivalence (agrees (O := O) (S := S));
  agrees_ready (o : O) (s t : S) : agrees (O := O) s t → ready o s → ready o t;
  agrees_run (o : O) (s t : S) : agrees (O := O) s t → ready o s → agrees (O := O) (run o s) (run o t);
  unrelated_ready (o o' : O) (s : S) : unrelated (S := S) o o' → ready o' s → ready o s ↔ ready o (run o' s);
  unrelated_run (o o' : O) (s : S) : unrelated (S := S) o o' → ready o s → ready o' s → agrees (O := O) (run o (run o' s)) (run o' (run o s));
}.

Section orders.
Context {O S : Type} `{!Operations O S, !OperationsLaws O S}.
Implicit Types (o : O) (ops a b c : list O) (s t : S).
#[local] Notation "s ≃ t" := (agrees (O := O) (S := S) s t) (at level 70).
Abbreviation unrelated := (unrelated (O := O) (S := S)).
Lemma unrelated_sym o o' : unrelated o o' → unrelated o' o.
Proof. intros (H1 & H2 & H3). by split_and!. Qed.

Fixpoint run_all ops s : S := match ops with [] => s | o :: ops => run_all ops (run o s) end.
Fixpoint ready_all ops s : Prop := match ops with [] => True | o :: ops => ready o s ∧ ready_all ops (run o s) end.
Lemma run_all_app a b s : run_all (a ++ b) s = run_all b (run_all a s).
Proof. revert s. induction a as [|o a IH]; intros s; [done|]. apply IH. Qed.
Lemma ready_all_app a b s : ready_all (a ++ b) s ↔ ready_all a s ∧ ready_all b (run_all a s).
Proof. revert s. induction a as [|o a IH]; intros s; cbn; [tauto|]. rewrite IH. tauto. Qed.
Lemma agrees_all ops : ∀ s t, s ≃ t → ready_all ops s → ready_all ops t ∧ run_all ops s ≃ run_all ops t.
Proof.
  induction ops as [|o ops IH]; intros s t H; [done|]. cbn. intros [Hd Hds].
  destruct (IH (run o s) (run o t)) as [H1 H2]; [by apply agrees_run|done|]. split; [|done]. split; [by eapply agrees_ready|done].
Qed.
(** An operation that is unrelated to those before it could have been first. *)
Lemma run_first o a : ∀ b s, Forall (unrelated o) a → ready_all (a ++ o :: b) s →
  ready_all (o :: a ++ b) s ∧ run_all (a ++ o :: b) s ≃ run_all (o :: a ++ b) s.
Proof.
  induction a as [|o' a IH]; intros b s Hc Hd; [by split|]. apply Forall_cons in Hc as [Hc Hcs]. cbn [app ready_all run_all] in *.
  destruct Hd as [Hd' Hd]. destruct (IH b (run o' s) Hcs Hd) as [[Ho Hds] Ha]. cbn [run_all] in Ha.
  apply (unrelated_ready o o' s Hc Hd') in Ho.
  destruct (agrees_all (a ++ b) (run o (run o' s)) (run o' (run o s))) as [H1 H2]; [by apply unrelated_run|done|].
  split; [|by etransitivity]. split_and!; [done|apply unrelated_ready; [by apply unrelated_sym|done..]|done].
Qed.
(** No operation comes before one that it knows of. *)
Definition causal_order ops : Prop := StronglySorted (λ o o', knows o o' = false) ops.
Abbreviation names ops := (map (op_name (O := O) (S := S)) ops).
Lemma causal_app a b : causal_order (a ++ b) ↔ causal_order a ∧ causal_order b ∧ ∀ o o', o ∈ a → o' ∈ b → knows o o' = false.
Proof.
  unfold causal_order. induction a as [|o a IH]; cbn [app].
  - split; [intros H; split_and!; [constructor|done|by intros ? ? ?%elem_of_nil]|tauto].
  - split.
    + intros [H Ho]%StronglySorted_inv. apply IH in H as (H1 & H2 & H3). apply Forall_app in Ho as [Ha Hb]. split_and!; [by constructor|done|].
      intros x y [->|Hx]%elem_of_cons Hy; [by apply (proj1 (Forall_forall _ _) Hb)|by apply H3].
    + intros ([H1 Ho]%StronglySorted_inv & H2 & H3). constructor; [apply IH; split_and!; [done|done|]|apply Forall_app; split; [done|]].
      * intros x y Hx. apply H3. by right.
      * apply Forall_forall. intros y. apply H3. left.
Qed.
Lemma causal_unrelated o a b c : NoDup (names (o :: a ++ b)) → causal_order (a ++ o :: b) → causal_order (o :: c) → c ≡ₚ a ++ b →
  Forall (unrelated o) a ∧ causal_order (a ++ b).
Proof.
  intros Hnd (H1 & [H2 Hb]%StronglySorted_inv & H3)%causal_app [_ Hc]%StronglySorted_inv Hp. rewrite Hp in Hc. apply Forall_app in Hc as [Hc _].
  cbn in Hnd. apply NoDup_cons in Hnd as [Hno _]. split.
  - apply Forall_forall. intros o' Ho'. split_and!.
    + intros E. apply Hno. rewrite E, map_app. apply elem_of_app. left. by apply list_elem_of_fmap_2.
    + by apply (proj1 (Forall_forall _ _) Hc).
    + apply H3; [done|left].
  - apply causal_app. split_and!; [done|done|]. intros x y Hx Hy. apply H3; [done|by right].
Qed.
(** All causal orders do the same, if one of them can be run. *)
Lemma orders_agree ops : ∀ ops' s, ops ≡ₚ ops' → NoDup (names ops) → causal_order ops → causal_order ops' →
  ready_all ops' s → ready_all ops s ∧ run_all ops' s ≃ run_all ops s.
Proof.
  induction ops as [|o ops IH]; intros ops' s Hp Hnd Hc Hc' Hd.
  { apply Permutation_nil in Hp as ->. by split. }
  assert (o ∈ ops') as (a & b & ->)%list_elem_of_split by (rewrite <- Hp; left).
  assert (ops ≡ₚ a ++ b) as Hp' by (eapply Permutation_cons_app_inv; exact Hp).
  destruct (causal_unrelated o a b ops) as [Hcon Hcab]; [|done..|].
  { eapply NoDup_Permutation_proper; [symmetry; apply (Permutation_map op_name (Permutation_cons eq_refl Hp'))|done]. }
  destruct (run_first o a b s Hcon Hd) as [[Ho Hds] Ha]. apply StronglySorted_inv in Hc as [Hc _]. cbn in Hnd. apply NoDup_cons in Hnd as [_ Hnd].
  destruct (IH (a ++ b) (run o s) Hp' Hnd Hc Hcab Hds) as [H1 H2]. split; [by split|]. by etransitivity.
Qed.

(** ** Histories
    Operations in an order in which they were made: each by someone whose state
    was that of the operations it knows of. *)
Definition known o ops : list O := filter (λ o', knows o o' = true) ops.
Inductive made : list O → S → Prop :=
  | made_nil s : made [] s
  | made_snoc ops o s : made ops s → op_name o ∉ names ops → Forall (λ o', knows o' o = false) ops →
      (∀ o1 o2, o1 ∈ ops → o2 ∈ ops → knows o o1 = true → knows o1 o2 = true → knows o o2 = true) →
      ready o (run_all (known o ops) s) → made (ops ++ [o]) s.
Lemma made_orders ops s : made ops s → NoDup (names ops) ∧ causal_order ops.
Proof.
  induction 1 as [s|ops o s _ [IH1 IH2] Hn Hk _ _]; [by split; constructor|]. rewrite map_app. split.
  - apply NoDup_app. split_and!; [done| |apply NoDup_singleton]. by intros x Hx ->%list_elem_of_singleton.
  - apply causal_app. split_and!; [done|by repeat constructor|]. intros x y Hx ->%list_elem_of_singleton. by apply (proj1 (Forall_forall _ _) Hk).
Qed.
Lemma filter_split (p : O → bool) ops : ops ≡ₚ filter (λ o, p o = true) ops ++ filter (λ o, p o = false) ops.
Proof.
  induction ops as [|o ops IH]; [done|]. rewrite !filter_cons. destruct (p o) eqn:E; repeat case_decide; try done.
  - cbn. by constructor.
  - rewrite IH at 1. apply Permutation_middle.
Qed.
Lemma causal_filter (p : O → bool) (v : bool) ops : causal_order ops → causal_order (filter (λ o, p o = v) ops).
Proof.
  unfold causal_order. induction 1 as [|o ops H IH Ho]; [constructor|]. rewrite filter_cons. case_decide; [|done].
  constructor; [done|]. apply Forall_forall. intros x [_ Hx]%list_elem_of_filter. by apply (proj1 (Forall_forall _ _) Ho).
Qed.
(** An operation stays ready while others come that it does not know of. *)
Lemma ready_after o ops : ∀ s, Forall (unrelated o) ops → ready_all ops s → ready o s ↔ ready o (run_all ops s).
Proof.
  induction ops as [|o' ops IH]; intros s Hu Hd; [done|]. apply Forall_cons in Hu as [Hu Hus]. destruct Hd as [Hd Hds]. cbn [run_all].
  rewrite <- IH by done. by apply unrelated_ready.
Qed.
(** So what was ready where it was made is ready in the end. *)
Lemma made_ready ops s : made ops s → ready_all ops s.
Proof.
  induction 1 as [s|ops o s Hm IH Hn Hk Ht Ho]; [done|]. apply ready_all_app. split; [done|]. split; [|done].
  destruct (made_orders ops s Hm) as [Hnd Hc].
  set (l := known o ops) in *. set (k := filter (λ o', knows o o' = false) ops).
  assert (l ++ k ≡ₚ ops) as Hp by (symmetry; apply filter_split).
  assert (causal_order (l ++ k)) as Hlk.
  { apply causal_app. split_and!; [by apply causal_filter|by apply causal_filter|].
    intros x y [Hx Hxo]%list_elem_of_filter [Hy Hyo]%list_elem_of_filter. apply not_true_iff_false. intros E.
    by rewrite (Ht x y Hxo Hyo Hx E) in Hy. }
  destruct (orders_agree (l ++ k) ops s) as [Hd Ha]; [done| |done|done|done|].
  { eapply NoDup_Permutation_proper; [apply (Permutation_map op_name Hp)|done]. }
  apply ready_all_app in Hd as [_ Hdk]. rewrite run_all_app in Ha. symmetry in Ha. eapply agrees_ready; [exact Ha|].
  apply ready_after; [|done|exact Ho]. apply Forall_forall. intros x [Hx Hxo]%list_elem_of_filter. split_and!.
  - intros E. apply Hn. rewrite E. by apply list_elem_of_fmap_2.
  - done.
  - by apply (proj1 (Forall_forall _ _) Hk).
Qed.
(** Some of them, and with each those that it knows of, can be run in any causal order. *)
Definition closed_in ops a : Prop := ∀ o o', o ∈ a → o' ∈ ops → knows o o' = true → o' ∈ a.
Lemma same_name ops o o' : NoDup (names ops) → o ∈ ops → o' ∈ ops → op_name o = op_name o' → o = o'.
Proof.
  induction ops as [|x ops IH]; intros Hnd Ho Ho' E; [by apply elem_of_nil in Ho|]. cbn in Hnd. apply NoDup_cons in Hnd as [Hx Hnd].
  apply elem_of_cons in Ho as [->|Ho], Ho' as [->|Ho']; [done| | |by apply IH]; exfalso; apply Hx; [rewrite E|rewrite <- E]; by apply list_elem_of_fmap_2.
Qed.
Lemma closed_ready ops a s : made ops s → NoDup a → (∀ o, o ∈ a → o ∈ ops) → causal_order a → closed_in ops a → ready_all a s.
Proof.
  intros Hm Hnd Hin Hc Hcl. destruct (made_orders ops s Hm) as [Hn Ho].
  set (p := λ o, bool_decide (op_name o ∈ names a)). pose proof (filter_split p ops) as Hp.
  assert (∀ o, o ∈ ops → p o = true → o ∈ a) as Hpa.
  { intros o Hoo (o' & E & Ho')%bool_decide_eq_true%list_elem_of_fmap. by rewrite (same_name ops o o' Hn Hoo (Hin _ Ho') E). }
  assert (filter (λ o, p o = true) ops ≡ₚ a) as Ea.
  { apply NoDup_Permutation; [by apply NoDup_filter, (NoDup_fmap_1 op_name)|done|]. intros o. rewrite list_elem_of_filter. split.
    - intros [H1 H2]. by apply Hpa.
    - intros H. split; [by apply bool_decide_eq_true, list_elem_of_fmap_2|by apply Hin]. }
  rewrite Ea in Hp. set (b := filter (λ o, p o = false) ops) in *.
  assert (∀ o, o ∈ b → o ∈ ops ∧ o ∉ a) as Hb.
  { intros o [H1 H2]%list_elem_of_filter. split; [done|]. intros H. unfold p in H1. apply bool_decide_eq_false in H1. by apply H1, list_elem_of_fmap_2. }
  destruct (orders_agree (a ++ b) ops s) as [Hd _]; [done| |apply causal_app|done|by apply made_ready|by apply ready_all_app in Hd as [? _]].
  - eapply NoDup_Permutation_proper; [apply (Permutation_map op_name (symmetry Hp))|done].
  - split_and!; [done|by apply causal_filter|]. intros x y Hx Hy. destruct (Hb y Hy) as [Hyo Hya]. apply not_true_iff_false. intros E.
    apply Hya. by eapply Hcl.
Qed.
(** Whoever has received them all, in whatever causal order, has the same state. *)
Lemma histories_agree ops ops1 ops2 s : made ops s → ops1 ≡ₚ ops → ops2 ≡ₚ ops → causal_order ops1 → causal_order ops2 →
  ready_all ops1 s ∧ ready_all ops2 s ∧ run_all ops1 s ≃ run_all ops2 s.
Proof.
  intros Hm H1 H2 Hc1 Hc2. pose proof (made_ready ops s Hm) as Hd. destruct (made_orders ops s Hm) as [Hnd Hc].
  assert (∀ k, k ≡ₚ ops → NoDup (names k)) as Hk.
  { intros k Hp. eapply NoDup_Permutation_proper; [apply (Permutation_map op_name Hp)|done]. }
  destruct (orders_agree ops1 ops s) as [Hd1 Ha1]; try done; [by apply Hk|].
  destruct (orders_agree ops2 ops s) as [Hd2 Ha2]; try done; [by apply Hk|].
  split_and!; [done..|]. rewrite <- Ha1. done.
Qed.
End orders.
