(* ===== verification/UndoLoop.v ===== *)
(** The loop of an undo operation ([Buffer::apply_undo]): it goes through the
    fragments that it was given and decides again whether they are visible. *)
From S2P Require Import Prelude Clock Locator Patch SumTree TreeFind Cursor TreeWeight ParTree Iter Keyed TreeMap UndoMap.
From S2P Require Import Utf8 Rope History Fragments Buffer FragmentLaws Builders Cells EditMachine.
Import Buffer.
#[local] Existing Instances UndoMap.UndoMapKey_summary UndoMap.UndoMapEntry_item UndoMap.UndoMapEntry_laws UndoMap.UndoMapEntry_keyed.
Implicit Types (c : cell) (bf rest cs dn : list cell) (f : Fragment.t) (l : list atom) (ts : Lamport.t).

(** ** Visibility *)
(** An edit counts as undone when its largest count is odd. *)
Definition undone (entries : list UndoMap.UndoMapEntry) ts : bool := Z.odd (UndoMap.undos (λ _, true) ts entries).
Definition still_shown (entries : list UndoMap.UndoMapEntry) ts (deletions : list Lamport.t) : bool :=
  negb (undone entries ts) && forallb (undone entries) deletions.
Lemma is_undone_ok undos entries ts : Keyed.fits undos entries → Lamport.ok ts →
  UndoMap.is_undone (undo_fuel undos) undos ts = Some (undone entries ts).
Proof.
  intros Hfit Hts. pose proof Hfit as (_ & _ & E & _). unfold UndoMap.is_undone, undo_fuel. rewrite E.
  assert (UndoMap.count (S (length entries)) undos ts = Some (UndoMap.undos (λ _, true) ts entries)) as ->.
  { destruct (UndoMap.count_from (λ _, true) undos entries ts (S (length entries)) Hfit Hts) as (cur & hit & E1 & E2); [lia|].
    unfold UndoMap.count. rewrite E1. exact E2. }
  cbn [mbind option_bind]. unfold undone. f_equal. set (n := UndoMap.undos _ _ _). assert (0 ≤ n) by apply UndoMap.undos_nonneg.
  rewrite Z.rem_mod_nonneg, Zmod_odd by lia. by destruct (Z.odd n).
Qed.
Lemma is_visible_ok undos entries f : Keyed.fits undos entries → fragment_ok f →
  is_visible f undos = Some (still_shown entries (Fragment.timestamp f) (Fragment.deletions f)).
Proof.
  intros Hfit []. unfold is_visible, still_shown. rewrite (is_undone_ok _ entries) by done. cbn [mbind option_bind].
  destruct (undone entries (Fragment.timestamp f)); [done|]. cbn [negb andb].
  induction ok_deletions as [|d l Hd _ IH]; [done|]. cbn [all_deletions forallb]. rewrite (is_undone_ok _ entries) by done. cbn [mbind option_bind].
  by destruct (undone entries d).
Qed.

(** ** One fragment after the other *)
Section undo.
Variables (undos : UndoMap.UndoMap) (entries : list UndoMap.UndoMapEntry) (undo_timestamp : Lamport.t).
Hypothesis undos_fit : Keyed.fits undos entries.
Hypothesis timestamp_ok : Lamport.ok undo_timestamp.
Definition redo f : Fragment.t :=
  Fragment.observe_undo undo_timestamp
    (Fragment.set_visible (still_shown entries (Fragment.timestamp f) (Fragment.deletions f)) f).
Definition redo_cell c : cell := mk_cell (redo (frag c)) (chars c).
Definition redo_if (sel : cell → bool) c : cell := if sel c then redo_cell c else c.
Record undoing (st : undo_state) dn bf rest : Prop := {
  n_cursor : Cursor.ready (u_old st) (frags bf) (frags rest);
  n_tree : SumTree.represents (u_new st) (frags dn);
  n_ropes : ∃ av ad, ropes_at (u_ropes st) av (text_of true (atoms rest)) ad (text_of false (atoms rest))
                       (text_of true (atoms dn)) (text_of false (atoms dn));
  n_patch : Patch.relates 0 0 (u_edits st) (encode (text_of true (atoms bf))) (encode (text_of true (atoms dn)));
  n_old : Forall cell_ok (bf ++ rest);
  n_done : Forall cell_ok dn;
  n_len : all_len (atoms dn) = all_len (atoms bf);
  n_ids : ids_ok (frags (bf ++ rest));
  n_small : all_len (atoms (bf ++ rest)) < 2 ^ 32;
}.
Lemma redo_cell_ok c : cell_ok c → cell_ok (redo_cell c).
Proof. intros [[] ? ? ? ?]. split; try done. split; try done. by apply Global.wf_observe. Qed.
Lemma redo_len c : all_len (atoms_of (redo_cell c)) = all_len (atoms_of c).
Proof. unfold atoms_of. by rewrite !all_len_from. Qed.

(** A cursor that looks for the fragment with an identifier stops before it. *)
Abbreviation seek_id c := (λ d : option Locator.t * Z, option_compare (Some (Fragment.id (frag c))) d.1).
Lemma stopped_at_id bf mid c rest : ids_ok (frags (bf ++ mid ++ c :: rest)) →
  seek_id c (dim (option Locator.t * Z) (frags bf)) ≠ Lt ∧
  ∀ mid' aft, frags (mid ++ c :: rest) = mid' ++ aft → Cursor.stopped (seek_id c) Left (frags bf) mid' aft → mid' = frags mid ∧ aft = frag c :: frags rest.
Proof.
  intros Hi. set (target := λ d : option Locator.t * Z, option_compare (Some (Fragment.id (frag c))) d.1).
  assert (∀ fs g, target (dim (option Locator.t * Z) (fs ++ [g])) = Locator.cmp (Fragment.id (frag c)) (Fragment.id g)) as Htarget.
  { intros fs g. unfold target. by rewrite dim_pair, dim_locator, list.last_snoc. }
  assert (∀ g, g ∈ frags (bf ++ mid) → Locator.cmp (Fragment.id (frag c)) (Fragment.id g) = Gt) as Hgt.
  { intros g Hg. rewrite app_assoc, frags_app in Hi. apply ids_app in Hi as (_ & _ & Hlt).
    specialize (Hlt g (frag c) Hg). apply (cmp_gt_lt Locator.cmp). apply Hlt. left. }
  assert (∀ fs, fs `prefix_of` frags (bf ++ mid) → target (dim (option Locator.t * Z) fs) = Gt) as Hpre.
  { intros fs [gs E]. destruct fs as [|g fs _] using rev_ind; [done|]. rewrite Htarget. apply Hgt. rewrite E. apply elem_of_app. left.
    apply elem_of_app. right. left. }
  split; [rewrite Hpre; [done|]; rewrite frags_app; by eexists|]. intros mid' aft Er Hst.
  rewrite frags_app in Er. cbn [frags map] in Er. fold (frags rest) in Er.
  apply app_eq_inv in Er as [(k & E1 & E2)|(k & -> & E2)].
  - destruct k as [|g k]; [cbn in E2; rewrite app_nil_r in E1; by split|]. exfalso. destruct Hst as [_ Hst].
    specialize (Hst g). rewrite E2 in Hst. specialize (Hst eq_refl). unfold TreeFind.passed in Hst. rewrite Hpre in Hst; [done|].
    rewrite frags_app, E1. exists k. by rewrite <- !app_assoc.
  - destruct k as [|g k]; [cbn in E2; rewrite app_nil_r; by split|]. exfalso. injection E2 as <- E2. destruct Hst as [[Hst|Hst] _].
    + by destruct (frags mid).
    + destruct k as [|g k _] using rev_ind.
      * rewrite app_assoc in Hst. unfold TreeFind.passed in Hst. rewrite Htarget, cmp_refl in Hst by apply _. done.
      * rewrite app_comm_cons, !app_assoc in Hst. unfold TreeFind.passed in Hst. rewrite Htarget in Hst.
        assert (Locator.cmp (Fragment.id (frag c)) (Fragment.id g) = Lt) as Hlt; [|by rewrite Hlt in Hst].
        rewrite !frags_app in Hi. apply ids_app in Hi as (_ & Hi & _). apply ids_app in Hi as (_ & Hi & _).
        change (frags (c :: rest)) with ([frag c] ++ frags rest) in Hi. apply ids_app in Hi as (_ & _ & Hi). apply Hi; [left|].
        rewrite E2. apply elem_of_app. left. apply elem_of_app. right. left.
Qed.
(** The cursor goes to the fragment with an identifier. *)
Lemma slice_to_id (cur : Cursor.t Fragment.t FragmentSummary (option Locator.t * Z)) bf mid c rest :
  Cursor.ready cur (frags bf) (frags (mid ++ c :: rest)) → ids_ok (frags (bf ++ mid ++ c :: rest)) →
  ∃ cur' y, Cursor.slice (seek_id c) Left cur = Some (cur', y) ∧
    SumTree.represents y (frags mid) ∧ Cursor.positioned cur' (frags (bf ++ mid)) (frag c :: frags rest).
Proof.
  intros Hc Hi. destruct (stopped_at_id bf mid c rest Hi) as [Ht Hs].
  destruct (Cursor.slice_ok (seek_id c) Left cur _ _ Hc Ht) as (cur' & y & mid' & aft & E & Hy & Er & Hst & Hp).
  destruct (Hs mid' aft Er Hst) as [-> ->]. exists cur', y. by rewrite frags_app.
Qed.
Lemma seek_to_id (cur : Cursor.t Fragment.t FragmentSummary (option Locator.t * Z)) bf mid c rest :
  Cursor.ready cur (frags bf) (frags (mid ++ c :: rest)) → ids_ok (frags (bf ++ mid ++ c :: rest)) →
  ∃ cur' hit, Cursor.seek_forward (seek_id c) Left cur = Some (cur', hit) ∧ Cursor.positioned cur' (frags (bf ++ mid)) (frag c :: frags rest).
Proof.
  intros Hc Hi. destruct (stopped_at_id bf mid c rest Hi) as [Ht Hs].
  destruct (Cursor.seek_forward_ok (seek_id c) Left cur _ _ Hc Ht) as (cur' & mid' & aft & E & Er & Hst & Hp).
  destruct (Hs mid' aft Er Hst) as [-> ->]. eexists cur', _. by rewrite frags_app.
Qed.
Lemma sized_docs cs x : all_len (atoms cs) + str_len x < 2 ^ 32 → ∀ v, sized (text_of v (atoms cs) ++ x).
Proof. intros H v. unfold sized. rewrite str_len_app. pose proof (text_of_le v (atoms cs)). lia. Qed.
(** What the patch learns when a fragment appears or disappears. *)
Lemma relates_redo p (a b t : str) (was now : bool) :
  Patch.relates 0 0 p (encode a) (encode b) →
  Patch.relates 0 0
    (if was && negb now then Patch.push p (Edit.mk (str_len a) (str_len a + str_len t) (str_len b) (str_len b))
     else if negb was && now then Patch.push p (Edit.mk (str_len a) (str_len a) (str_len b) (str_len b + str_len t)) else p)
    (encode (a ++ pick was t)) (encode (b ++ pick now t)).
Proof.
  intros H. destruct was, now; cbn [andb negb pick]; rewrite ?app_nil_r.
  - rewrite !encode_app. by apply Patch.relates_gap.
  - pose proof (relates_text p a b t [] H) as Hp. cbn [str_len] in Hp. by rewrite app_nil_r, Z.add_0_r in Hp.
  - pose proof (relates_text p a b [] t H) as Hp. cbn [str_len] in Hp. by rewrite app_nil_r, Z.add_0_r in Hp.
  - done.
Qed.
(** Places in the visible texts. *)
Lemma visible_place cs : Forall cell_ok cs → all_len (atoms cs) < 2 ^ 32 →
  wrap64 (total visible_len (frags cs)) = str_len (text_of true (atoms cs)) ∧ 0 ≤ str_len (text_of true (atoms cs)) < 2 ^ 32.
Proof.
  intros Ho Hs. rewrite visible_cells by done. pose proof (text_of_le true (atoms cs)). pose proof (str_len_nonneg (text_of true (atoms cs))).
  split; [apply wrap64_small|]; lia.
Qed.
Lemma undo_fragment_ok st dn bf mid c rest :
  undoing st dn bf (mid ++ c :: rest) →
  ∃ st', undo_fragment undos undo_timestamp st (Fragment.id (frag c)) = Some st' ∧
    undoing st' (dn ++ mid ++ [redo_cell c]) (bf ++ mid ++ [c]) rest.
Proof.
  intros [Hc Ht (av & ad & Hr) Hp Ho Hd Hl Hi Hs]. unfold undo_fragment.
  destruct (slice_to_id (u_old st) bf mid c rest Hc Hi) as (cur & y & -> & Hy & Hcur). cbn [mbind option_bind].
  assert (Forall cell_ok mid ∧ cell_ok c) as [Hom Hoc].
  { apply Forall_app in Ho as [_ [Hom [Hoc _]%Forall_cons]%Forall_app]. by split. }
  pose proof Hs as Hs'. rewrite !atoms_app in Hs'. change (atoms (c :: rest)) with (atoms_of c ++ atoms rest) in Hs'. rewrite !all_len_app in Hs'.
  pose proof (all_len_nonneg (atoms bf)). pose proof (all_len_nonneg (atoms mid)). pose proof (all_len_nonneg (atoms rest)).
  assert (all_len (atoms_of c) = str_len (chars c)) as Elc by apply all_len_from. pose proof (str_len_nonneg (chars c)).
  rewrite (text_cells y mid) by (done || lia).
  rewrite atoms_app in Hr. change (atoms (c :: rest)) with (atoms_of c ++ atoms rest) in Hr. rewrite !text_of_app in Hr.
  destruct (ropes_append _ _ _ _ _ _ _ _ _ Hr) as (rb & -> & Hrb); [apply sized_docs; pose proof (text_of_le true (atoms mid)); lia|apply sized_docs; pose proof (text_of_le false (atoms mid)); lia|].
  cbn [mbind option_bind].
  destruct (SumTree.represents_append (u_new st) y (frags dn) (frags mid) Ht Hy) as (t1 & -> & Ht1).
  { rewrite <- frags_app. apply cells_ok_frags. by apply Forall_app. }
  cbn [mbind option_bind]. rewrite (Cursor.item_ok _ _ _ Hcur). cbn [mbind option_bind head].
  rewrite (is_visible_ok undos entries) by (done || apply Hoc). cbn [mbind option_bind].
  change (Fragment.observe_undo undo_timestamp _) with (redo (frag c)). set (now := Fragment.visible (redo (frag c))).
  set (was := Fragment.visible (frag c)).
  assert (∀ v, sized (text_of v (atoms dn) ++ text_of v (atoms mid)) ∧
    ∀ b : bool, sized ((text_of v (atoms dn) ++ text_of v (atoms mid)) ++ pick b (chars c))) as Hsz.
  { intros v. rewrite <- !text_of_app, <- !atoms_app. split; [|intros b; apply sized_docs].
    - unfold sized. eapply Z.le_lt_trans; [apply text_of_le|]. rewrite atoms_app, all_len_app. lia.
    - rewrite atoms_app, all_len_app. destruct b; cbn [pick str_len]; lia. }
  unfold RopeBuilder.push_fragment. change (Fragment.len (redo (frag c))) with (Fragment.len (frag c)). rewrite (c_len _ Hoc). fold now.
  rewrite !atoms_text in Hrb. fold was in Hrb.
  assert (∀ b, Bool.eqb was b = if b then was else negb was) as Eb by (intros []; by destruct was). rewrite !Eb in Hrb.
  destruct (ropes_push rb was now (chars c) _ _ _ _ _ _ Hrb) as (rb2 & -> & Hrb2); [apply Hsz..|]. cbn [mbind option_bind].
  destruct (SumTree.represents_push t1 (frags dn ++ frags mid) (redo (frag c)) Ht1) as (t2 & -> & Ht2).
  { rewrite <- frags_app. change (redo (frag c)) with (frag (redo_cell c)). change [frag (redo_cell c)] with (frags [redo_cell c]).
    rewrite <- frags_app. apply cells_ok_frags. rewrite !Forall_app. split_and!; [done..|]. apply Forall_singleton. by apply redo_cell_ok. }
  cbn [mbind option_bind]. destruct (Cursor.next_ok _ _ _ _ Hcur) as (cur2 & -> & Hcur2). cbn [mbind option_bind].
  eexists. split; [reflexivity|].
  assert (bf ++ mid ++ c :: rest = (bf ++ mid ++ [c]) ++ rest) as Eo by by rewrite <- !app_assoc.
  assert (∀ v, text_of v (atoms (dn ++ mid ++ [redo_cell c])) = text_of v (atoms dn) ++ text_of v (atoms mid) ++ pick (if v then now else negb now) (chars c)) as Ed.
  { intros v. rewrite !atoms_app, !text_of_app, atoms_one, atoms_text. f_equal. f_equal. cbn [redo_cell frag chars]. fold now. by destruct v, now. }
  split; cbn [u_old u_new u_ropes u_edits]; try (by rewrite <- Eo).
  - left. by rewrite app_assoc, frags_app.
  - by rewrite !frags_app, app_assoc.
  - eexists _, _. rewrite !Ed, !app_assoc. exact Hrb2.
  - assert (Patch.relates 0 0 (u_edits st) (encode (text_of true (atoms (bf ++ mid)))) (encode (text_of true (atoms (dn ++ mid))))) as Hg.
    { rewrite !atoms_app, !text_of_app, !encode_app. by apply Patch.relates_gap. }
    apply (relates_redo _ _ _ (chars c) was now) in Hg.
    destruct (visible_place (bf ++ mid)) as [Eb1 Hb1]; [apply Forall_app in Ho as [? _]; by apply Forall_app|rewrite atoms_app, all_len_app; lia|].
    destruct (visible_place (dn ++ mid)) as [Eb2 Hb2]; [by apply Forall_app|rewrite atoms_app, all_len_app; lia|].
    rewrite (Cursor.p_position _ _ _ Hcur : Cursor.start cur = _), dim_pair, dim_visible, Eb1. cbn [snd].
    rewrite (SumTree.represents_summary _ _ Ht1), <- frags_app, measure_text, Eb2. cbn [visible].
    rewrite !(wrap64_small (_ + str_len (chars c))) by lia.
    rewrite Ed, (app_assoc bf mid [c]), (atoms_app (bf ++ mid)), text_of_app, atoms_one, atoms_text, Eb. fold was.
    rewrite app_assoc, <- text_of_app, <- atoms_app. exact Hg.
  - rewrite !Forall_app. split_and!; [done..|]. apply Forall_singleton. by apply redo_cell_ok.
  - by rewrite !atoms_app, !all_len_app, !atoms_one, redo_len, Hl.
Qed.
Definition undo_fragments (st : option undo_state) (ids : list Locator.t) : option undo_state :=
  foldl (λ st fragment_id, st ← st; undo_fragment undos undo_timestamp st fragment_id) st ids.
Definition selected_ids (sel : cell → bool) cs : list Locator.t := map (λ c, Fragment.id (frag c)) (filter (λ c, sel c = true) cs).
Lemma redo_none sel cs : Forall (λ c, sel c = false) cs → map (redo_if sel) cs = cs.
Proof. induction 1 as [|c cs Hc _ IH]; [done|]. cbn [map]. rewrite IH. unfold redo_if. by rewrite Hc. Qed.
Lemma undo_fragments_ok sel rest : ∀ mid st dn bf,
  Forall (λ c, sel c = false) mid → undoing st dn bf (mid ++ rest) →
  ∃ st' dn' bf' rest', undo_fragments (Some st) (selected_ids sel rest) = Some st' ∧ undoing st' dn' bf' rest' ∧
    bf' ++ rest' = bf ++ mid ++ rest ∧ dn' ++ rest' = dn ++ map (redo_if sel) (mid ++ rest).
Proof.
  induction rest as [|c rest IH]; intros mid st dn bf Hm H.
  - exists st, dn, bf, mid. rewrite app_nil_r in *. split_and!; try done. by rewrite redo_none.
  - unfold selected_ids. rewrite filter_cons. destruct (sel c) eqn:Ec.
    + rewrite decide_True by done. cbn [map]. unfold undo_fragments. cbn [foldl mbind option_bind].
      destruct (undo_fragment_ok st dn bf mid c rest H) as (st1 & E1 & H1). rewrite E1.
      destruct (IH [] st1 _ _ (Forall_nil_2 _) H1) as (st2 & dn2 & bf2 & rest2 & E2 & H2 & Eo & Ed). cbn [app] in *.
      exists st2, dn2, bf2, rest2. split_and!; [exact E2|done|by rewrite Eo, <- !app_assoc|].
      rewrite Ed, map_app, (redo_none sel mid) by done. cbn [map]. unfold redo_if at 2. by rewrite Ec, <- !app_assoc.
    + rewrite decide_False by congruence. destruct (IH (mid ++ [c]) st dn bf) as (st2 & dn2 & bf2 & rest2 & E2 & H2 & Eo & Ed).
      { apply Forall_app. split; [done|]. by apply Forall_singleton. }
      { by rewrite <- app_assoc. }
      exists st2, dn2, bf2, rest2. rewrite <- !app_assoc in Eo, Ed. by split_and!.
Qed.

(** ** What is left *)
Lemma undo_rest_ok st dn bf rest :
  undoing st dn bf rest →
  ∃ cur suffix rb tree rv rd, Cursor.suffix (u_old st) = Some (cur, suffix) ∧
    RopeBuilder.append (u_ropes st) (text (SumTree.summary suffix)) = Some rb ∧ SumTree.append (u_new st) suffix = Some tree ∧
    RopeBuilder.finish rb = Some (rv, rd) ∧ SumTree.represents tree (frags (dn ++ rest)) ∧
    has rv (text_of true (atoms (dn ++ rest))) ∧ has rd (text_of false (atoms (dn ++ rest))) ∧ Forall cell_ok (dn ++ rest) ∧
    Patch.relates 0 0 (u_edits st) (encode (text_of true (atoms (bf ++ rest)))) (encode (text_of true (atoms (dn ++ rest)))).
Proof.
  intros [Hc Ht (av & ad & Hr) Hp Ho Hd Hl Hi Hs]. apply Forall_app in Ho as [Hob Hor].
  destruct (Cursor.suffix_rest (u_old st) (frags bf) (frags rest) Hc) as (cur & y & E & Hy). rewrite atoms_app, all_len_app in Hs.
  pose proof (all_len_nonneg (atoms bf)). pose proof (all_len_nonneg (atoms rest)).
  assert (∀ v, sized (text_of v (atoms dn) ++ text_of v (atoms rest))) as Hsz.
  { intros v. apply sized_docs. pose proof (text_of_le v (atoms rest)). lia. }
  rewrite <- (app_nil_r (text_of true (atoms rest))), <- (app_nil_r (text_of false (atoms rest))) in Hr.
  destruct (ropes_append _ _ _ _ _ _ _ _ _ Hr (Hsz true) (Hsz false)) as (rb & Erb & Hrb).
  destruct (ropes_finish _ _ _ _ _ _ _ Hrb) as (rv & rd & Ef & Hv & Hdl); [by rewrite app_nil_r|by rewrite app_nil_r|]. rewrite !app_nil_r in Hv, Hdl.
  destruct (SumTree.represents_append (u_new st) y (frags dn) (frags rest) Ht Hy) as (tree & Et & Htree).
  { rewrite <- frags_app. apply cells_ok_frags. by apply Forall_app. }
  exists cur, y, rb, tree, rv, rd. rewrite (text_cells y rest) by (done || lia). rewrite frags_app, !atoms_app, !text_of_app, !encode_app.
  split_and!; try done; [by apply Forall_app|by apply Patch.relates_gap].
Qed.
End undo.
