(* ===== verification/UndoRanges.v ===== *)
(** Which fragments an undo operation looks at ([Buffer::fragment_ids_for_edits]):
    those in the slices that its edits left, each once, in the order of the
    document. *)
From S2P Require Import Prelude Clock Locator SumTree TreeFind Cursor TreeWeight ParTree Iter Keyed TreeMap UndoMap.
From S2P Require Import Rope History Fragments Buffer FragmentLaws.
Import Buffer.
Implicit Types (sl : InsertionSlice) (sls pending : list InsertionSlice) (i : InsertionFragment) (li before after : list InsertionFragment).

(** ** Sorting *)
Section sorting.
Context {A : Type} (le : A → A → bool).
Hypothesis le_total : ∀ x y, le x y = false → le y x = true.
Hypothesis le_trans : ∀ x y z, le x y = true → le y z = true → le x z = true.
Lemma insert_by_perm x (l : list A) : insert_by le x l ≡ₚ x :: l.
Proof. induction l as [|y l IH]; [done|]. cbn. destruct (le x y); [done|]. rewrite IH. apply Permutation_swap. Qed.
Lemma sort_by_perm (l : list A) : sort_by le l ≡ₚ l.
Proof. unfold sort_by. induction l as [|x l IH]; [done|]. cbn. by rewrite insert_by_perm, IH. Qed.
Lemma sort_by_sorted (l : list A) : StronglySorted (λ x y, le x y = true) (sort_by le l).
Proof.
  unfold sort_by. induction l as [|x l IH]; [constructor|]. cbn. revert IH. generalize (foldr (insert_by le) [] l). clear l.
  induction 1 as [|y l Hl IH Hy]; cbn; [by repeat constructor|]. destruct (le x y) eqn:E.
  - constructor; [by constructor|]. constructor; [done|]. eapply Forall_impl; [exact Hy|]. intros z. by apply le_trans.
  - constructor; [done|]. rewrite insert_by_perm. constructor; [by apply le_total|done].
Qed.
End sorting.
(** Sorting what is strictly sorted otherwise gives it back. *)
Lemma sort_by_unique {A} (c : A → A → comparison) `{!TotalCmp c} (l k : list A) :
  l ≡ₚ k → StronglySorted (λ x y, c x y = Lt) k → sort_by (λ x y, is_le (c x y)) l = k.
Proof.
  intros Hp Hk.
  assert (StronglySorted (λ x y, is_le (c x y) = true) (sort_by (λ x y, is_le (c x y)) l)) as Hs.
  { apply sort_by_sorted.
    - intros x y. pose proof (cmp_gt_lt c x y). destruct (c x y) eqn:E; cbn; [done..|]. intros _. rewrite (proj1 H eq_refl). done.
    - intros x y z. intros H1 H2. assert (c x z ≠ Gt) as Hne; [|by destruct (c x z)].
      apply (cmp_le_trans c x y z); [by destruct (c x y)|by destruct (c y z)]. }
  assert (sort_by (λ x y, is_le (c x y)) l ≡ₚ k) as Hp' by by rewrite sort_by_perm.
  revert Hs Hp'. generalize (sort_by (λ x y, is_le (c x y)) l). clear l Hp. induction Hk as [|x k Hk IH Hx]; intros l Hs Hp.
  { by apply Permutation_nil_r in Hp. }
  destruct l as [|y l]; [by apply Permutation_nil_l in Hp|]. apply StronglySorted_inv in Hs as [Hs Hy].
  assert (y = x) as ->.
  { assert (y ∈ x :: k) as [->|Hyk]%elem_of_cons by (rewrite <- Hp; left); [done|]. exfalso.
    apply (proj1 (Forall_forall _ _) Hx) in Hyk. assert (x ∈ y :: l) as [->|Hxl]%elem_of_cons by (rewrite Hp; left).
    - by rewrite cmp_refl in Hyk by apply _.
    - apply (proj1 (Forall_forall _ _) Hy) in Hxl. apply (cmp_gt_lt c) in Hyk. by rewrite Hyk in Hxl. }
  f_equal. apply IH; [done|]. by apply Permutation_cons_inv in Hp.
Qed.

(** ** The slices of some edits *)
Definition covers sl i : bool :=
  bool_decide (if_timestamp i = slice_insertion_id sl) && (range_start sl <=? split_offset i) && (split_offset i <? range_end sl).
Definition covered sls i : bool := existsb (λ sl, covers sl i) sls.
Record slice_ok sl : Prop := {
  sl_insertion : Lamport.ok (slice_insertion_id sl);
  sl_positive : 0 < Lamport.value (slice_insertion_id sl);
  sl_start : 0 ≤ range_start sl;
}.
(** *** All slices of an edit *)
Lemma keep_none {A} (p : A → bool) (l : list A) : Forall (λ x, p x = false) l → filter (λ x, p x = true) l = [].
Proof. induction 1 as [|x l Hx _ IH]; [done|]. rewrite filter_cons, decide_False by congruence. done. Qed.
Lemma keep_all {A} (p : A → bool) (l : list A) : Forall (λ x, p x = true) l → filter (λ x, p x = true) l = l.
Proof. induction 1 as [|x l Hx _ IH]; [done|]. rewrite filter_cons, decide_True by done. by rewrite IH. Qed.
Lemma keep_same {A} (p q : A → bool) (l : list A) : (∀ x, x ∈ l → p x = q x) → filter (λ x, p x = true) l = filter (λ x, q x = true) l.
Proof.
  induction l as [|x l IH]; intros H; [done|]. rewrite !filter_cons, (H x) by left. rewrite IH; [done|]. intros y Hy. apply H. by right.
Qed.
Lemma take_while_filter {A} (p : A → bool) (l : list A) : (∀ x y l1 l2, l = l1 ++ x :: l2 → p x = false → y ∈ l2 → p y = false) →
  take_while p l = filter (λ x, p x = true) l.
Proof.
  induction l as [|x l IH]; intros H; [done|]. cbn [take_while]. rewrite filter_cons. destruct (p x) eqn:E.
  - rewrite decide_True by done. f_equal. apply IH. intros y z l1 l2 ->. by apply (H y z (x :: l1)).
  - rewrite decide_False by congruence. symmetry. apply keep_none, Forall_forall. intros y Hy. by apply (H x y [] l).
Qed.
(** Slices of one edit are next to each other, behind the smallest key with its timestamp. *)
Definition first_slice (e : Lamport.t) : InsertionSlice :=
  mk_slice (Lamport.value e) (Lamport.replica_id e) (Lamport.value Lamport.MIN) (Lamport.replica_id Lamport.MIN) 0 0.
Lemma slice_before sl e : slice_ok sl → TreeMap.before_key (first_slice e) sl = is_lt (Lamport.cmp (slice_edit_id sl) e).
Proof.
  intros [[Hv Hr] Hp Hs]. unfold TreeMap.before_key. cbn. unfold slice_cmp.
  replace (slice_edit_id (first_slice e)) with e by by destruct e. destruct (Lamport.cmp (slice_edit_id sl) e); cbn [then_with]; try done.
  replace (Lamport.cmp (slice_insertion_id sl) (slice_insertion_id (first_slice e))) with Gt; [done|].
  symmetry. unfold Lamport.cmp, slice_insertion_id in *. cbn in *. rewrite (proj2 (Z.compare_gt_iff _ _)); [done|lia].
Qed.
Lemma slice_cmp_edit a b : slice_cmp a b = Lt → Lamport.cmp (slice_edit_id a) (slice_edit_id b) ≠ Gt.
Proof. unfold slice_cmp. by destruct (Lamport.cmp _ _). Qed.
Lemma keep_sorted {A} (R : A → A → Prop) (p : A → bool) (l : list A) : StronglySorted R l → StronglySorted R (filter (λ x, p x = true) l).
Proof.
  induction 1 as [|x l Hl IH Hx]; [constructor|]. rewrite filter_cons. case_decide; [|done]. constructor; [done|].
  apply Forall_forall. intros y [_ Hy]%list_elem_of_filter. by apply (proj1 (Forall_forall _ _) Hx).
Qed.
Lemma take_edit (sls : list InsertionSlice) e :
  StronglySorted (λ a b, slice_cmp a b = Lt) sls → Forall slice_ok sls →
  take_while (λ sl, bool_decide (slice_edit_id sl = e)) (filter (λ sl, TreeMap.before_key (first_slice e) sl = false) sls)
  = filter (λ sl, bool_decide (slice_edit_id sl = e) = true) sls.
Proof.
  intros Hs Hok. assert (filter (λ sl, TreeMap.before_key (first_slice e) sl = false) sls = filter (λ sl, negb (is_lt (Lamport.cmp (slice_edit_id sl) e)) = true) sls) as ->.
  { clear Hs. induction Hok as [|sl sls Hsl _ IH]; [done|]. rewrite !filter_cons, (slice_before sl) by done.
    destruct (is_lt _); cbn [negb]; [by rewrite !decide_False|]. rewrite !decide_True by done. by rewrite IH. }
  rewrite take_while_filter.
  - clear. induction sls as [|sl sls IH]; [done|]. rewrite !filter_cons. destruct (is_lt _) eqn:E; cbn [negb].
    + rewrite decide_False by done. rewrite bool_decide_eq_false_2; [by rewrite decide_False|]. intros <-. by rewrite cmp_refl in E by apply _.
    + rewrite decide_True, filter_cons by done. by rewrite IH.
  - intros x y l1 l2 El Hx%bool_decide_eq_false Hy. apply bool_decide_eq_false. intros E.
    apply (keep_sorted _ (λ sl, negb (is_lt (Lamport.cmp (slice_edit_id sl) e)))) in Hs. rewrite El in Hs.
    apply StronglySorted_app in Hs as (_ & _ & Hs). apply StronglySorted_inv in Hs as [_ Hxy].
    apply (proj1 (Forall_forall _ _) Hxy) in Hy. apply slice_cmp_edit in Hy. rewrite E in Hy.
    assert (x ∈ filter (λ sl, negb (is_lt (Lamport.cmp (slice_edit_id sl) e)) = true) sls) as [Hlt _]%list_elem_of_filter
      by (rewrite El; apply elem_of_app; right; left).
    destruct (Lamport.cmp (slice_edit_id x) e) eqn:Ec; [by apply (cmp_eq_iff Lamport.cmp) in Ec|done..].
Qed.
Lemma slices_for_edits_ok s (ls : list (MapEntry InsertionSlice unit)) ids :
  Keyed.fits (insertion_slices s) ls → Forall slice_ok (map entry_key ls) →
  slices_for_edits s ids = Some (flat_map (λ e, filter (λ sl, bool_decide (slice_edit_id sl = e) = true) (map entry_key ls)) ids).
Proof.
  intros Hf Hok. pose proof Hf as (_ & _ & Ec & _ & Hv). induction ids as [|e ids IH]; [done|]. cbn [slices_for_edits flat_map].
  change (mk_slice (Lamport.value e) _ _ _ 0 0) with (first_slice e).
  unfold TreeMap.set_iter_from. rewrite Ec, (TreeMap.iter_from_ok _ ls) by (done || lia). cbn [mbind option_bind]. rewrite IH. cbn [mbind option_bind].
  f_equal. f_equal. rewrite map_map. cbn [fst]. rewrite <- take_edit; [| |done].
  - f_equal. cbn [TreeMap.cut snd]. clear. induction ls as [|x ls IH]; [done|]. cbn [map]. rewrite !filter_cons. case_decide; cbn [map]; by rewrite IH.
  - clear -Hv. change (StronglySorted (λ a b : MapEntry InsertionSlice unit, slice_cmp (entry_key a) (entry_key b) = Lt) ls) in Hv.
    induction Hv as [|x ls _ IH Hx]; cbn [map]; constructor; [done|]. by apply Forall_map.
Qed.

(** ** Collecting the fragments of sorted slices *)
Definition slice_key sl : InsertionFragmentKey := mk_key (slice_insertion_id sl) (range_start sl).
Definition frag_cmp i j : comparison := insertion_key_cmp (key i) (key j).
Lemma covers_key sl i : covers sl i = true → insertion_key_cmp (key i) (slice_key sl) ≠ Lt.
Proof.
  unfold covers. rewrite !andb_true_iff, bool_decide_eq_true. intros [[E H1] H2]. unfold insertion_key_cmp. cbn. rewrite E, cmp_refl by apply _.
  cbn [then_with]. rewrite Z.compare_lt_iff. lia.
Qed.
Lemma not_covers sl i : insertion_key_cmp (key i) (slice_key sl) = Lt → covers sl i = false.
Proof. intros H. apply not_true_iff_false. intros Hc%covers_key. done. Qed.
Definition takes sl i : bool := bool_decide (if_timestamp i = slice_insertion_id sl) && (split_offset i <? range_end sl).
Lemma collect_items_ok sl after : ∀ cursor ids before fuel,
  Cursor.positioned cursor before after → (length after < fuel)%nat →
  ∃ cursor' mid after', iterate (collect_step sl) fuel (cursor, ids) = Some (cursor', ids ++ map fragment_id mid) ∧
    after = mid ++ after' ∧ Forall (λ i, takes sl i = true) mid ∧ (∀ i, head after' = Some i → takes sl i = false) ∧
    Cursor.positioned cursor' (before ++ mid) after'.
Proof.
  induction after as [|i after IH]; intros cursor ids before [|fuel] Hc Hf; cbn [length] in Hf; try lia; cbn [iterate]; unfold collect_step at 1;
    rewrite (Cursor.item_ok _ _ _ Hc); cbn [mbind option_bind head].
  - exists cursor, [], []. cbn [map]. rewrite !app_nil_r. by split_and!.
  - assert ((negb (bool_decide (if_timestamp i = slice_insertion_id sl)) || (range_end sl <=? split_offset i)) = negb (takes sl i)) as ->.
    { unfold takes. rewrite negb_andb. by rewrite Z.ltb_antisym, negb_involutive. }
    destruct (takes sl i) eqn:Et; cbn [negb].
    + destruct (Cursor.next_ok _ _ _ _ Hc) as (c2 & -> & Hc2). cbn [mbind option_bind].
      destruct (IH c2 (ids ++ [fragment_id i]) (before ++ [i]) fuel Hc2) as (c3 & mid & after' & E & -> & Hm & Hh & Hc3); [lia|].
      exists c3, (i :: mid), after'. rewrite <- app_assoc in Hc3. cbn [map]. rewrite E, <- app_assoc. split_and!; [done|done|by constructor|done|done].
    + exists cursor, [], (i :: after). cbn [map]. rewrite !app_nil_r. split_and!; [done|done|constructor| |done]. by intros ? [= <-].
Qed.

(** [sls] were collected, [pending] are still to come. *)
Record collected li sls pending (cursor : insertion_cursor) (ids : list Locator.t) before after : Prop := {
  o_cursor : Cursor.ready cursor before after;
  o_all : before ++ after = li;
  o_ids : ids = map fragment_id (filter (λ i, covered sls i = true) before);
  o_after : Forall (λ i, covered sls i = false) after;
  o_before : ∀ i sl, i ∈ before → sl ∈ pending → covered sls i = true ∨ insertion_key_cmp (key i) (slice_key sl) = Lt;
  o_order : ∀ sl sl', sl ∈ sls → sl' ∈ pending → insertion_key_cmp (slice_key sl) (slice_key sl') ≠ Gt;
}.
Definition frag_lt i j : Prop := insertion_key_cmp (key i) (key j) = Lt.
Lemma covered_app sls sls' i : covered (sls ++ sls') i = covered sls i || covered sls' i.
Proof. apply existsb_app. Qed.
Lemma dim_insertions before i : dim InsertionFragmentKey (before ++ [i]) = key i.
Proof. by rewrite <- (dim_measure InsertionFragmentKey (T := InsertionFragment)), measure_snoc_insertion. Qed.
(** The condition of the code finds out whether the cursor has got to the slice. *)
Lemma at_or_behind sls sl before :
  slice_ok sl → (∀ i, i ∈ before → covered sls i = true ∨ insertion_key_cmp (key i) (slice_key sl) = Lt) →
  (∀ sl', sl' ∈ sls → insertion_key_cmp (slice_key sl') (slice_key sl) ≠ Gt) →
  let k := dim InsertionFragmentKey before in
  let cond := negb (bool_decide (slice_insertion_id sl = k_timestamp k)) || (k_split_offset k <? range_start sl) in
  (cond = true ∧ insertion_key_cmp (slice_key sl) k = Gt) ∨
  ∃ i before', before = before' ++ [i] ∧ cond = false ∧ insertion_key_cmp (key i) (slice_key sl) ≠ Lt.
Proof.
  intros Hok Hb Hord. destruct before as [|i before _] using rev_ind.
  - left. change (dim InsertionFragmentKey []) with (mk_key Lamport.MIN 0). destruct Hok as [[Hv _] Hp _]. cbn. assert (slice_insertion_id sl ≠ Lamport.MIN) as Hne by (intros E; rewrite E in Hp; done).
    rewrite bool_decide_eq_false_2 by done. split; [done|]. unfold insertion_key_cmp, Lamport.cmp. cbn.
    unfold slice_insertion_id in *. cbn in *. destruct (Z.compare_spec (insertion_id_value sl) 0); [lia|lia|done].
  - intros k cond. assert (k = key i) as Ek by apply dim_insertions. clearbody k. subst k. cbn in cond. specialize (Hb i ltac:(apply elem_of_app; right; left)).
    assert (if cond then insertion_key_cmp (key i) (slice_key sl) = Lt else insertion_key_cmp (key i) (slice_key sl) ≠ Lt) as Hcond.
    { unfold cond, insertion_key_cmp. cbn. destruct (bool_decide_reflect (slice_insertion_id sl = if_timestamp i)) as [E|E]; cbn [negb orb].
      - rewrite E, cmp_refl by apply _. cbn [then_with]. destruct (Z.ltb_spec (split_offset i) (range_start sl)); [by apply Z.compare_lt_iff|].
        rewrite Z.compare_lt_iff. lia.
      - destruct Hb as [Hb|Hb].
        + apply existsb_exists in Hb as (sl' & Hin%list_elem_of_In & Hcov). unfold covers in Hcov.
          apply andb_true_iff in Hcov as [Hcov _]. apply andb_true_iff in Hcov as [Hcov _]. apply bool_decide_eq_true in Hcov.
          specialize (Hord sl' Hin). unfold insertion_key_cmp in Hord. cbn in Hord. rewrite <- Hcov in Hord.
          destruct (Lamport.cmp (if_timestamp i) (slice_insertion_id sl)) eqn:Ec; [apply (cmp_eq_iff Lamport.cmp) in Ec; congruence|done..].
        + unfold insertion_key_cmp in Hb. cbn in Hb. exact Hb. }
    destruct cond eqn:Econd; [left|right; by exists i, before]. split; [done|]. by apply (cmp_gt_lt insertion_key_cmp).
Qed.
(** The cursor gets to the first fragment that is not before the slice. *)
Lemma to_slice_ok li sls sl pending cursor ids before after :
  collected li sls (sl :: pending) cursor ids before after → StronglySorted frag_lt li → slice_ok sl →
  ∃ cursor' skipped after',
    (if negb (bool_decide (slice_insertion_id sl = k_timestamp (Cursor.start cursor))) || (k_split_offset (Cursor.start cursor) <? range_start sl)
     then '(cursor, _) ← Cursor.seek_forward (insertion_key_cmp (mk_key (slice_insertion_id sl) (range_start sl))) Left cursor; Some cursor
     else Some cursor) = Some cursor' ∧
    after = skipped ++ after' ∧ Cursor.positioned cursor' (before ++ skipped) after' ∧
    Forall (λ i, insertion_key_cmp (key i) (slice_key sl) = Lt) skipped ∧
    Forall (λ i, insertion_key_cmp (key i) (slice_key sl) ≠ Lt) after'.
Proof.
  intros [Hc Ho Hids Ha Hb Hord] Hs Hok. rewrite <- Ho in Hs.
  assert (Cursor.start cursor = dim InsertionFragmentKey before) as Est.
  { destruct Hc as [Hc|[-> Hc]]; [exact (Cursor.p_position _ _ _ Hc)|exact (Cursor.f_position _ _ Hc)]. }
  rewrite Est. destruct (at_or_behind sls sl before) as [[-> Hgt]|(i & before' & -> & -> & Hge)]; [done|..].
  { intros i Hi. apply Hb; [done|left]. } { intros sl' Hsl'. apply Hord; [done|left]. }
  - destruct (Cursor.seek_forward_ok (insertion_key_cmp (slice_key sl)) Left cursor before after Hc) as (c' & mid & after' & E & -> & [Hst1 Hst2] & Hc').
    { by rewrite Hgt. }
    change (mk_key (slice_insertion_id sl) (range_start sl)) with (slice_key sl). rewrite E. cbn [mbind option_bind].
    exists c', mid, after'. split_and!; [done..| |].
    + destruct mid as [|i mid _] using rev_ind; [constructor|]. destruct Hst1 as [Hst1|Hst1]; [by destruct mid|].
      unfold TreeFind.passed in Hst1. rewrite app_assoc, dim_insertions in Hst1.
      assert (insertion_key_cmp (key i) (slice_key sl) = Lt) as Hi.
      { apply (cmp_gt_lt insertion_key_cmp). by destruct (insertion_key_cmp (slice_key sl) (key i)). }
      apply StronglySorted_app in Hs as (_ & _ & Hs). apply StronglySorted_app in Hs as (_ & Hs & _). apply StronglySorted_app in Hs as (Hs & _ & _).
      apply Forall_app. split; [|by constructor]. apply Forall_forall. intros j Hj. eapply (cmp_lt_trans insertion_key_cmp); [|exact Hi]. apply Hs; [done|left].
    + destruct after' as [|x after']; [constructor|]. specialize (Hst2 x eq_refl). unfold TreeFind.passed in Hst2. rewrite app_assoc, dim_insertions in Hst2.
      assert (insertion_key_cmp (key x) (slice_key sl) ≠ Lt) as Hx.
      { intros E'%(cmp_gt_lt insertion_key_cmp). by rewrite E' in Hst2. }
      apply StronglySorted_app in Hs as (_ & _ & Hs). apply StronglySorted_app in Hs as (_ & _ & Hs). apply StronglySorted_inv in Hs as [_ Hs].
      constructor; [done|]. eapply Forall_impl; [exact Hs|]. intros j Hj. intros Hlt. apply Hx. by eapply (cmp_lt_trans insertion_key_cmp).
  - exists cursor, [], after. rewrite app_nil_r. split_and!; [done|done| |constructor|].
    + destruct Hc as [Hc|[Hc _]]; [done|by destruct before'].
    + apply StronglySorted_app in Hs as (Hs & _ & _). apply Forall_forall. intros j Hj Hlt.
      apply Hge. eapply (cmp_lt_trans insertion_key_cmp); [|exact Hlt]. apply Hs; [apply elem_of_app; right; left|done].
Qed.
Lemma takes_covers sl i : insertion_key_cmp (key i) (slice_key sl) ≠ Lt → takes sl i = covers sl i.
Proof.
  intros H. unfold takes, covers. destruct (bool_decide_reflect (if_timestamp i = slice_insertion_id sl)) as [E|E]; [|done]. cbn [andb].
  destruct (Z.leb_spec (range_start sl) (split_offset i)) as [Hle|Hlt]; [done|]. exfalso. apply H. unfold insertion_key_cmp. cbn.
  rewrite E, cmp_refl by apply _. by apply Z.compare_lt_iff.
Qed.
Lemma collect_slice_ok li sls sl pending cursor ids before after fuel :
  collected li sls (sl :: pending) cursor ids before after → StronglySorted frag_lt li → slice_ok sl →
  Forall (λ sl', insertion_key_cmp (slice_key sl) (slice_key sl') ≠ Gt) pending → (length li < fuel)%nat →
  ∃ cursor' ids' before' after', collect_slice fuel (cursor, ids) sl = Some (cursor', ids') ∧
    collected li (sls ++ [sl]) pending cursor' ids' before' after'.
Proof.
  intros H Hs Hok Hnext Hf. pose proof H as [_ Ho Hids Ha Hb Hord].
  destruct (to_slice_ok li sls sl pending cursor ids before after H Hs Hok) as (c1 & skipped & after1 & E1 & -> & Hc1 & Hsk & Hge).
  unfold collect_slice. rewrite E1. cbn [mbind option_bind].
  destruct (collect_items_ok sl after1 c1 ids (before ++ skipped) fuel Hc1) as (c2 & mid & after2 & E2 & -> & Hm & Hh & Hc2).
  { rewrite <- Ho, !length_app in Hf. lia. }
  rewrite E2. apply Forall_app in Hge as [Hgm Hg2]. apply Forall_app in Ha as [Hask [Ham Ha2]%Forall_app].
  assert (Forall (λ i, covers sl i = true) mid) as Hcm.
  { apply Forall_forall. intros i Hi. rewrite <- takes_covers by by apply (proj1 (Forall_forall _ _) Hgm). by apply (proj1 (Forall_forall _ _) Hm). }
  eexists c2, _, _, after2. split; [done|]. split.
  - by left.
  - by rewrite <- !app_assoc.
  - rewrite Hids, !list.filter_app, !map_app. rewrite (keep_none (covered (sls ++ [sl])) skipped), (keep_all (covered (sls ++ [sl])) mid).
    + cbn [map]. rewrite app_nil_r. f_equal. f_equal. apply keep_same. intros i Hi. rewrite covered_app. cbn. rewrite orb_false_r.
      destruct (Hb i sl Hi ltac:(left)) as [->|Hlt]; [done|]. by rewrite (not_covers sl i Hlt), orb_false_r.
    + eapply Forall_impl; [exact Hcm|]. intros i Hi. rewrite covered_app. cbn. by rewrite Hi, orb_true_r.
    + apply Forall_forall. intros i Hi. rewrite covered_app. cbn. rewrite (proj1 (Forall_forall _ _) Hask i Hi).
      by rewrite (not_covers sl i) by by apply (proj1 (Forall_forall _ _) Hsk).
  - apply Forall_forall. intros i Hi. rewrite covered_app. cbn. rewrite (proj1 (Forall_forall _ _) Ha2 i Hi), orb_false_r. cbn [orb].
    rewrite <- takes_covers by by apply (proj1 (Forall_forall _ _) Hg2).
    destruct after2 as [|x after2]; [by apply not_elem_of_nil in Hi|]. specialize (Hh x eq_refl).
    apply elem_of_cons in Hi as [->|Hi]; [done|]. apply not_true_iff_false. intros Ht.
    assert (frag_lt x i) as Hxi.
    { rewrite <- Ho in Hs. rewrite !StronglySorted_app in Hs. destruct Hs as (_ & _ & _ & _ & _ & _ & Hs). apply StronglySorted_inv in Hs as [_ Hs].
      by apply (proj1 (Forall_forall _ _) Hs). }
    apply Forall_cons in Hg2 as [Hgx _]. apply not_true_iff_false in Hh. apply Hh. revert Ht Hxi Hgx. clear.
    unfold takes, frag_lt, insertion_key_cmp. cbn. rewrite !andb_true_iff, !bool_decide_eq_true, !Z.ltb_lt. intros [E Hend].
    rewrite <- E. destruct (Lamport.cmp (if_timestamp x) (if_timestamp i)) eqn:Ec; cbn; try done.
    apply (cmp_eq_iff Lamport.cmp) in Ec. rewrite Ec. intros Hlt _. apply (proj1 (Z.compare_lt_iff _ _)) in Hlt. split; [done|lia].
  - intros i sl' Hi Hsl'. rewrite covered_app. apply elem_of_app in Hi as [[Hi|Hi]%elem_of_app|Hi].
    + destruct (Hb i sl' Hi ltac:(by right)) as [->|Hlt]; [by left|by right].
    + right. eapply (cmp_lt_le_trans insertion_key_cmp); [by apply (proj1 (Forall_forall _ _) Hsk)|]. by apply (proj1 (Forall_forall _ _) Hnext).
    + left. cbn. rewrite (proj1 (Forall_forall _ _) Hcm i Hi), orb_true_r. done.
  - intros x y [Hx|Hx%list_elem_of_singleton]%elem_of_app Hy; [apply Hord; [done|by right]|]. subst x. by apply (proj1 (Forall_forall _ _) Hnext).
Qed.
Definition key_le sl sl' : Prop := insertion_key_cmp (slice_key sl) (slice_key sl') ≠ Gt.
Lemma collect_all_ok li fuel pending : (length li < fuel)%nat → StronglySorted frag_lt li →
  StronglySorted key_le pending → Forall slice_ok pending → ∀ sls cursor ids before after,
  collected li sls pending cursor ids before after →
  ∃ cursor' ids' before' after', foldl (λ st slice, st ← st; collect_slice fuel st slice) (Some (cursor, ids)) pending = Some (cursor', ids') ∧
    collected li (sls ++ pending) [] cursor' ids' before' after'.
Proof.
  intros Hf Hli Hs. induction Hs as [|sl pending Hs IH Hsl]; intros Hok sls cursor ids before after H.
  - exists cursor, ids, before, after. rewrite app_nil_r. by split.
  - apply Forall_cons in Hok as [Hsok Hok].
    destruct (collect_slice_ok li sls sl pending cursor ids before after fuel H Hli Hsok Hsl Hf) as (c1 & ids1 & b1 & a1 & E1 & H1).
    destruct (IH Hok _ _ _ _ _ H1) as (c2 & ids2 & b2 & a2 & E2 & H2). exists c2, ids2, b2, a2. rewrite <- app_assoc in H2. split; [|done].
    cbn [foldl mbind option_bind]. by rewrite E1.
Qed.
Lemma slice_le_key a b : slice_key_le a b = true → key_le a b.
Proof.
  unfold slice_key_le, key_le, insertion_key_cmp. cbn. destruct (Lamport.cmp _ _); cbn; try done. by destruct (Z.compare _ _).
Qed.
Lemma sorted_slices sls : StronglySorted key_le (sort_by slice_key_le sls).
Proof.
  assert (StronglySorted (λ a b, slice_key_le a b = true) (sort_by slice_key_le sls)) as Hs.
  { set (c := λ a b : InsertionSlice, then_with (Lamport.cmp (slice_insertion_id a) (slice_insertion_id b))
        (then_with (Z.compare (range_start a) (range_start b)) (Z.compare (- range_end a) (- range_end b)))).
    set (g := λ a : InsertionSlice, (slice_insertion_id a, (range_start a, - range_end a))).
    set (d := λ x y : Lamport.t * (Z * Z), then_with (Lamport.cmp x.1 y.1) (then_with (Z.compare x.2.1 y.2.1) (Z.compare x.2.2 y.2.2))).
    assert (TotalCmp d) as Hd.
    { apply (pair_cmp_total Lamport.cmp (λ x y : Z * Z, then_with (Z.compare x.1 y.1) (Z.compare x.2 y.2))); [apply _|]. apply pair_cmp_total; apply _. }
    assert (∀ a b, slice_key_le a b = is_le (d (g a) (g b))) as E.
    { intros a b. unfold slice_key_le, d, g. cbn. do 3 f_equal. by rewrite Z.compare_opp. }
    apply sort_by_sorted.
    - intros x y. rewrite !E. pose proof (cmp_gt_lt d (g x) (g y)) as Hgt. destruct (d (g x) (g y)); cbn; [done..|]. intros _. by rewrite (proj1 Hgt eq_refl).
    - intros x y z. rewrite !E. intros H1 H2. assert (d (g x) (g z) ≠ Gt) as Hne; [|by destruct (d (g x) (g z))].
      apply (cmp_le_trans d _ (g y)); [by destruct (d (g x) (g y))|by destruct (d (g y) (g z))]. }
  induction Hs as [|x l _ IH Hx]; constructor; [done|]. eapply Forall_impl; [exact Hx|]. intros y. apply slice_le_key.
Qed.
(** Slices that are left by one of some edits. *)
Definition edit_slices (sls : list InsertionSlice) (ids : list Lamport.t) : list InsertionSlice :=
  filter (λ sl, bool_decide (slice_edit_id sl ∈ ids) = true) sls.
Lemma covered_perm sls sls' i : (∀ sl, sl ∈ sls ↔ sl ∈ sls') → covered sls i = covered sls' i.
Proof.
  intros H. apply eq_true_iff_eq. unfold covered. rewrite !existsb_exists. setoid_rewrite <- list_elem_of_In. naive_solver.
Qed.
Lemma fragment_ids_ok s (ls : list (MapEntry InsertionSlice unit)) li ids :
  Keyed.fits (insertion_slices s) ls → Forall slice_ok (map entry_key ls) → Keyed.fits (insertions s) li →
  fragment_ids_for_edits s ids
  = Some (sort_by (λ a b, is_le (Locator.cmp a b)) (map fragment_id (filter (λ i, covered (edit_slices (map entry_key ls) ids) i = true) li))).
Proof.
  intros Hls Hok Hli. unfold fragment_ids_for_edits. rewrite (slices_for_edits_ok s ls ids) by done. cbn [mbind option_bind].
  set (sls := flat_map _ ids). pose proof Hli as (_ & _ & Ec & _ & Hv). destruct Hv as [Hsort _].
  assert (∀ sl, sl ∈ sls ↔ sl ∈ edit_slices (map entry_key ls) ids) as Hin.
  { intros sl. unfold sls, edit_slices. rewrite list_elem_of_In, in_flat_map. setoid_rewrite <- list_elem_of_In. setoid_rewrite list_elem_of_filter.
    rewrite bool_decide_eq_true. split; [intros (e & He & Hd%bool_decide_eq_true & Hsl); by subst e|].
    intros [He Hsl]. exists (slice_edit_id sl). by rewrite bool_decide_eq_true. }
  assert (Forall slice_ok sls) as Hsok.
  { apply Forall_forall. intros sl Hsl. apply Hin, list_elem_of_filter in Hsl as [_ Hsl]. by apply (proj1 (Forall_forall _ _) Hok). }
  destruct (collect_all_ok li (S (length (SumTree.contents (insertions s)))) (sort_by slice_key_le sls)) with (sls := [] : list InsertionSlice)
    (cursor := Cursor.new (D := InsertionFragmentKey) (insertions s)) (ids := [] : list Locator.t) (before := [] : list InsertionFragment) (after := li)
    as (c & ids' & before & after & E & Hcol).
  - rewrite Ec. lia.
  - exact Hsort.
  - apply sorted_slices.
  - by rewrite sort_by_perm.
  - split; try done; [by apply Keyed.fits_ready|..].
    + by apply Forall_true.
    + by intros ? ? ?%not_elem_of_nil.
    + by intros ? ? ?%not_elem_of_nil.
  - rewrite E. cbn [mbind option_bind]. f_equal. f_equal. destruct Hcol as [_ Ho -> Ha _ _]. cbn [app] in *. f_equal. rewrite <- Ho.
    assert (∀ i, covered (sort_by slice_key_le sls) i = covered (edit_slices (map entry_key ls) ids) i) as Ecov.
    { intros i. apply covered_perm. intros sl. rewrite sort_by_perm. apply Hin. }
    rewrite list.filter_app, (keep_none (covered (edit_slices (map entry_key ls) ids)) after), app_nil_r.
    + apply keep_same. intros i _. apply Ecov.
    + eapply Forall_impl; [exact Ha|]. intros i Hi. by rewrite <- Ecov.
Qed.
