(* ===== verification/Slices.v ===== *)
(** The slices of a snapshot: for every edit the characters that it inserted or
    deleted. New buffers have this index, and edits keep it. *)
From S2P Require Import Prelude Clock Locator SumTree Cursor TreeWeight Keyed TreeMap UndoMap.
From S2P Require Import Utf8 Rope Fragments Buffer FragmentLaws Builders Cells EditMachine Snapshot Script UndoRanges.
Import Buffer.
Implicit Types (s : BufferSnapshot) (c : cell) (cs : list cell) (w : written) (out : list written) (sl : InsertionSlice) (a b : atom) (l k : list atom) (e ts : Lamport.t).

(** ** Characters of one insertion do not overlap *)
Definition apart l : Prop :=
  ∀ a b, a ∈ l → b ∈ l → a_timestamp a = a_timestamp b → a_offset a ≤ a_offset b < a_offset a + a_len a → a_offset a = a_offset b.
Definition place a : InsertionFragmentKey * Z := (a_key a, a_char a).
Lemma apart_places l k : map place k ⊆ map place l → apart l → apart k.
Proof.
  intros Hs H a b Ha Hb Et Ho. assert (∀ x, x ∈ k → ∃ y, y ∈ l ∧ place x = place y) as Hf.
  { intros x Hx. destruct (proj1 (list_elem_of_fmap place l (place x))) as (y & ? & ?); [by apply Hs, list_elem_of_fmap_2|by exists y]. }
  destruct (Hf a Ha) as (a' & Ha' & Ea), (Hf b Hb) as (b' & Hb' & Eb). unfold place, a_key in Ea, Eb. injection Ea as ? ? ?. injection Eb as ? ? ?.
  unfold a_len in *. assert (a_offset a' = a_offset b'); [|congruence]. apply H; [done|done|congruence|]. unfold a_len. by repeat match goal with E : _ = _ |- _ => rewrite <- E end.
Qed.
Lemma apart_app l k : apart l → apart k →
  (∀ a b, a ∈ l → b ∈ k → a_timestamp a = a_timestamp b → a_offset a + a_len a ≤ a_offset b) → apart (l ++ k).
Proof.
  intros Hl Hk Hlk a b [Ha|Ha]%elem_of_app [Hb|Hb]%elem_of_app Et Ho; [by apply Hl| |specialize (Hlk b a Hb Ha (eq_sym Et)); pose proof (a_len_pos b); lia|by apply Hk].
  specialize (Hlk a b Ha Hb Et). lia.
Qed.
Lemma apart_from f o (s : str) : apart (atoms_from f o s) ∧
  Forall (λ a, a_timestamp a = Fragment.timestamp f ∧ o ≤ a_offset a ∧ a_offset a + a_len a ≤ o + str_len s) (atoms_from f o s).
Proof.
  revert o. induction s as [|c s IH]; intros o; cbn [atoms_from]; [by split; [intros ? ? ?%elem_of_nil|constructor]|].
  destruct (IH (o + len_utf8 c)) as [H1 H2]. pose proof (len_utf8_bounds c). pose proof (str_len_nonneg s). split.
  - refine (apart_app [_] _ _ H1 _).
    + by intros x y ->%list_elem_of_singleton ->%list_elem_of_singleton.
    + intros x y ->%list_elem_of_singleton Hy _. apply (proj1 (Forall_forall _ _) H2) in Hy as (_ & ? & _). done.
  - constructor; [cbn; unfold a_len; cbn; split; [done|lia]|]. eapply Forall_impl; [exact H2|]. cbn [str_len foldr].
    intros x (? & ? & ?). split; [done|]. cbn in *. lia.
Qed.
Lemma new_atoms_apart ts off es : apart (new_atoms ts off es) ∧ Forall (λ a, a_timestamp a = ts ∧ off ≤ a_offset a) (new_atoms ts off es).
Proof.
  split; [|apply new_atoms_keys]. revert off. induction es as [|[r u] es IH]; intros off; cbn [new_atoms]; [by intros ? ? ?%elem_of_nil|].
  unfold new_text_atoms. destruct (apart_from (Fragment.mk Locator.min ts off (str_len u) true [] Global.new) off u) as [H1 H2].
  apply apart_app; [done|done|]. intros a b Ha Hb _.
  apply (proj1 (Forall_forall _ _) H2) in Ha as (_ & _ & ?). apply (proj1 (Forall_forall _ _) (proj2 (new_atoms_keys ts (off + str_len u) es))) in Hb as [_ ?]. lia.
Qed.
Lemma applied_apart p skip (mark : atom → atom) ts n off es l :
  (∀ a, place (mark a) = place a) → apart l → Forall (λ a, a_timestamp a ≠ ts) l → apart (apply_edits p skip mark ts n off es l).
Proof.
  intros Hm Hl Hf. apply (apart_places (new_atoms ts off es ++ l)).
  { rewrite map_app, (applied_map p skip mark ts place n off es l Hm). done. }
  destruct (new_atoms_apart ts off es) as [H1 H2]. apply apart_app; [done|done|]. intros a b Ha Hb Et.
  apply (proj1 (Forall_forall _ _) H2) in Ha as [Ea _]. apply (proj1 (Forall_forall _ _) Hf) in Hb. congruence.
Qed.

(** ** The index *)
Definition slices_of s : list InsertionSlice := map entry_key (SumTree.contents (insertion_slices s)).
Definition covers_atom sl a : Prop :=
  a_timestamp a = slice_insertion_id sl ∧ range_start sl ≤ a_offset a < range_end sl.
(** Inserted or deleted by the edit. *)
Definition changed_by e a : Prop := e = a_timestamp a ∨ e ∈ a_deletions a.
(** The text that a buffer starts with has no slice. *)
Definition base_timestamp : Lamport.t := Lamport.new ReplicaId.LOCAL.
Record slices_cover s l : Prop := {
  x_ok : Forall slice_ok (slices_of s);
  x_apart : apart l;
  x_known : ∀ sl, sl ∈ slices_of s → ∃ a, a ∈ l ∧ covers_atom sl a;
  x_cover : ∀ e a, e ≠ base_timestamp → a ∈ l → changed_by e a → ∃ sl, sl ∈ slices_of s ∧ slice_edit_id sl = e ∧ covers_atom sl a;
  x_exact : ∀ sl a, sl ∈ slices_of s → a ∈ l → covers_atom sl a → changed_by (slice_edit_id sl) a;
}.
Lemma slice_ids ts f : slice_edit_id (from_fragment ts f) = ts ∧ slice_insertion_id (from_fragment ts f) = Fragment.timestamp f.
Proof. by destruct ts, f as [? []]. Qed.
(** The slice of a fragment covers its characters and no others. *)
Lemma tiles f o (t : str) x : o ≤ x < o + str_len t → ∃ a, a ∈ atoms_from f o t ∧ a_offset a ≤ x < a_offset a + a_len a.
Proof.
  revert o. induction t as [|c t IH]; intros o H; cbn [str_len foldr atoms_from] in *; [lia|].
  destruct (Z.lt_ge_cases x (o + len_utf8 c)).
  - eexists. split; [by left|]. unfold a_len. cbn. lia.
  - destruct (IH (o + len_utf8 c)) as (a & Ha & ?); [lia|]. exists a. split; [by right|done].
Qed.
Lemma slice_range ts c : cell_ok c → range_start (from_fragment ts (frag c)) = Fragment.insertion_offset (frag c) ∧
  range_end (from_fragment ts (frag c)) = Fragment.insertion_offset (frag c) + str_len (chars c).
Proof.
  intros H. pose proof (c_len _ H). pose proof (c_end _ H). pose proof (ok_offset _ (c_fragment _ H)). pose proof (ok_len _ (c_fragment _ H)).
  cbn. split; [done|]. unfold wrap32. rewrite Z.mod_small; lia.
Qed.
Lemma covers_own ts c a : cell_ok c → a ∈ atoms_of c → covers_atom (from_fragment ts (frag c)) a.
Proof.
  intros H Ha. destruct (slice_range ts c H) as [E1 E2]. unfold covers_atom. rewrite E1, E2, (proj2 (slice_ids _ _)).
  apply (proj1 (Forall_forall _ _) (proj2 (apart_from _ _ _))) in Ha as (Et & ? & ?). pose proof (a_len_pos a). rewrite Et. split; [done|]. lia.
Qed.
Lemma covers_only ts c l a : cell_ok c → apart l → (∀ b, b ∈ atoms_of c → b ∈ l) → a ∈ l →
  covers_atom (from_fragment ts (frag c)) a → ∃ b, b ∈ atoms_of c ∧ a_key b = a_key a.
Proof.
  intros H Hl Hc Ha [Et Ho]. rewrite (proj2 (slice_ids _ _)) in Et. destruct (slice_range ts c H) as [E1 E2]. rewrite E1, E2 in Ho.
  destruct (tiles (frag c) _ _ _ Ho) as (b & Hb & Hr). exists b. split; [done|].
  assert (a_timestamp b = a_timestamp a) as Eb by (rewrite Et; by apply atoms_of_timestamp).
  unfold a_key. rewrite Eb, (Hl b a); [done|by apply Hc|done..].
Qed.

(** ** Edits keep it *)
Section edited.
Variables (ts : Lamport.t) (s s' : BufferSnapshot) (cs : list cell) (out : list written).
Hypothesis Hs : snapshot_of s cs.
Hypothesis He : edited ts s s' cs out.
Hypothesis Hx : slices_cover s (atoms cs).
Hypothesis fresh : Forall (λ a, a_timestamp a ≠ ts) (atoms cs).
Hypothesis ts_ok : Lamport.ok ts.
Hypothesis ts_pos : 0 < Lamport.value ts.
Lemma slices_after sl : sl ∈ slices_of s' ↔ sl ∈ slices_of s ∨ ∃ w, w ∈ out ∧ is_changed (w_tag w) = true ∧ sl = from_fragment ts (frag (w_cell w)).
Proof.
  destruct (e_slices _ _ _ _ _ He) as (l & l' & [_ Hl] & [_ Hl'] & Hin). unfold slices_of. rewrite Hl, Hl'.
  assert (∀ k : list (MapEntry InsertionSlice unit), sl ∈ map entry_key k ↔ slice_entry sl ∈ k) as Hk.
  { intros k. rewrite list_elem_of_fmap. split; [intros ([? []] & -> & ?); done|intros ?; by exists (slice_entry sl)]. }
  rewrite !Hk, Hin, list_elem_of_fmap. setoid_rewrite with_tag_in. naive_solver.
Qed.
Lemma out_cell_ok w : w ∈ out → cell_ok (w_cell w).
Proof. intros Hw. apply (proj1 (Forall_forall _ _) (s_cells _ _ (e_snapshot _ _ _ _ _ He))). by apply list_elem_of_fmap_2. Qed.
Lemma out_atom a : a ∈ doc out ↔ ∃ w, w ∈ out ∧ a ∈ atoms_of (w_cell w).
Proof.
  unfold doc, atoms, cells. rewrite list_elem_of_In, in_flat_map. setoid_rewrite <- list_elem_of_In. setoid_rewrite list_elem_of_fmap. naive_solver.
Qed.
Lemma cell_in_atoms c a : c ∈ cs → a ∈ atoms_of c → a ∈ atoms cs.
Proof. intros Hc Ha. apply list_elem_of_In, in_flat_map. exists c. by rewrite <- !list_elem_of_In. Qed.
Lemma atoms_of_deletions c a : a ∈ atoms_of c → a_deletions a = Fragment.deletions (frag c).
Proof. revert a. apply Forall_forall, atoms_from_forall. done. Qed.
(** Where the characters of the new document come from. *)
Lemma origin w a : w ∈ out → a ∈ atoms_of (w_cell w) →
  (w_tag w = Inserted ∧ a_timestamp a = ts ∧ a_deletions a = []) ∨
  ∃ b, b ∈ atoms cs ∧ a_key b = a_key a ∧ a_deletions a = a_deletions b ++ marks ts (w_tag w).
Proof.
  intros Hw Ha. pose proof (proj1 (Forall_forall _ _) (e_from _ _ _ _ _ He) w Hw) as Hf. unfold comes_from in Hf.
  pose proof (atoms_of_timestamp _ _ Ha) as Et. pose proof (atoms_of_deletions _ _ Ha) as Ed.
  assert (∀ c, c ∈ cs → piece (w_cell w) c → Fragment.deletions (frag (w_cell w)) = Fragment.deletions (frag c) ++ marks ts (w_tag w) →
    ∃ b, b ∈ atoms cs ∧ a_key b = a_key a ∧ a_deletions a = a_deletions b ++ marks ts (w_tag w)) as Hp.
  { intros c Hc Hp Hd. pose proof (piece_keys _ _ (a_key a) Hp (list_elem_of_fmap_2 _ _ _ Ha)) as (b & Eb & Hb)%list_elem_of_fmap.
    exists b. split_and!; [by eapply cell_in_atoms|done|]. by rewrite Ed, Hd, (atoms_of_deletions _ _ Hb). }
  destruct (w_tag w).
  - right. exists a. split_and!; [by eapply cell_in_atoms|done|]. symmetry. apply app_nil_r.
  - right. destruct Hf as (c & Hc & Hpc & Hd). by apply (Hp c).
  - right. destruct Hf as (c & Hc & Hpc & Hd). by apply (Hp c).
  - left. destruct Hf as [H1 H2]. split_and!; [done|congruence..].
Qed.
Lemma slices_edited : (∀ key, key ∈ a_keys (atoms cs) → key ∈ a_keys (doc out)) → apart (doc out) → slices_cover s' (doc out).
Proof.
  intros Hkeys Hap. pose proof (s_keys _ _ (e_snapshot _ _ _ _ _ He)) as Hnd. split.
  - apply Forall_forall. intros sl [Hsl|(w & Hw & _ & ->)]%slices_after; [by apply (proj1 (Forall_forall _ _) (x_ok _ _ Hx))|].
    destruct (c_fragment _ (out_cell_ok w Hw)) as [H1 H2 _ _ _ H3]. split; rewrite ?(proj2 (slice_ids _ _)); [done|done|cbn; lia].
  - done.
  - intros sl [Hsl|(w & Hw & _ & ->)]%slices_after.
    + destruct (x_known _ _ Hx sl Hsl) as (a & Ha & Hc). destruct (proj1 (list_elem_of_fmap a_key _ _) (Hkeys _ (list_elem_of_fmap_2 _ _ _ Ha))) as (b & Eb & Hb).
      exists b. split; [done|]. unfold a_key in Eb. injection Eb as Et Eo. unfold covers_atom. by rewrite <- Et, <- Eo.
    + destruct (atoms_of_head _ (out_cell_ok w Hw)) as (a & l & E & _). assert (a ∈ atoms_of (w_cell w)) as Ha by (rewrite E; left).
      exists a. split; [apply out_atom; by exists w|]. apply covers_own; [by apply out_cell_ok|done].
  - intros e a He' (w & Hw & Ha)%out_atom Hc.
    assert (is_changed (w_tag w) = true → e = ts → ∃ sl, sl ∈ slices_of s' ∧ slice_edit_id sl = e ∧ covers_atom sl a) as Hnew.
    { intros Hch ->. exists (from_fragment ts (frag (w_cell w))). split_and!; [|apply slice_ids|apply covers_own; [by apply out_cell_ok|done]].
      apply slices_after. right. by exists w. }
    destruct (origin w a Hw Ha) as [(Ew & Et & Ed)|(b & Hb & Ek & Ed)].
    + apply Hnew; [by rewrite Ew|]. destruct Hc as [-> | Hc]; [done|]. rewrite Ed in Hc. by apply elem_of_nil in Hc.
    + unfold a_key in Ek. injection Ek as Et Eo. assert (changed_by e b ∨ e ∈ marks ts (w_tag w)) as [Hb'|Hm].
      { destruct Hc as [-> | Hc]; [left; left; done|]. rewrite Ed in Hc. apply elem_of_app in Hc as [?|?]; [left; right; done|by right]. }
      * destruct (x_cover _ _ Hx e b He' Hb Hb') as (sl & Hsl & Esl & Hcov). exists sl. split_and!; [apply slices_after; by left|done|].
        unfold covers_atom. by rewrite <- Et, <- Eo.
      * apply Hnew; destruct (w_tag w); cbn in Hm; (done || (by apply elem_of_nil in Hm) || by apply list_elem_of_singleton in Hm).
  - intros sl a [Hsl|(w & Hw & Hch & ->)]%slices_after Ha Hc.
    + apply out_atom in Ha as (w & Hw & Ha). destruct (origin w a Hw Ha) as [(Ew & Et & Ed)|(b & Hb & Ek & Ed)].
      * exfalso. destruct (x_known _ _ Hx sl Hsl) as (b & Hb & Hcb). apply (proj1 (Forall_forall _ _) fresh b Hb).
        destruct Hc as [Ec _], Hcb as [Eb _]. congruence.
      * unfold a_key in Ek. injection Ek as Et Eo. destruct (x_exact _ _ Hx sl b Hsl Hb) as [E|Hd].
        -- unfold covers_atom in *. by rewrite Et, Eo.
        -- left. congruence.
        -- right. rewrite Ed. apply elem_of_app. by left.
    + destruct (covers_only ts (w_cell w) (doc out) a) as (b & Hb & Ek); [by apply out_cell_ok|done|intros b Hb; apply out_atom; by exists w|done|done|].
      assert (a = b) as ->. { apply (NoDup_map_inj a_key (doc out)); [done|done|apply out_atom; by exists w|done]. }
      rewrite (proj1 (slice_ids _ _)). destruct (origin w b Hw Hb) as [(Ew & Et & Ed)|(b' & Hb' & Ek' & Ed)]; [by left|right]. rewrite Ed. apply elem_of_app. right.
      pose proof (proj1 (Forall_forall _ _) (e_from _ _ _ _ _ He) w Hw) as Hf. unfold comes_from in Hf. destruct (w_tag w) eqn:Ew; try done; [by left|].
      destruct Hf as [Hf _]. exfalso. apply (proj1 (Forall_forall _ _) fresh b' Hb'). unfold a_key in Ek'. injection Ek' as Et _. rewrite Et, <- Hf. by apply atoms_of_timestamp.
Qed.
End edited.
(** Changing what is said of characters, other than their deletions, keeps it too. *)
Lemma slices_same s s' (g : atom → atom) l : insertion_slices s' = insertion_slices s →
  (∀ a, place (g a) = place a ∧ a_deletions (g a) = a_deletions a) → slices_cover s l → slices_cover s' (map g l).
Proof.
  intros Es Hg [H1 H2 H3 H4 H5]. assert (slices_of s' = slices_of s) as E by (unfold slices_of; by rewrite Es).
  assert (∀ a, a_timestamp (g a) = a_timestamp a ∧ a_offset (g a) = a_offset a) as Hp.
  { intros a. destruct (Hg a) as [Ep _]. unfold place, a_key in Ep. by injection Ep. }
  assert (∀ sl a, covers_atom sl (g a) ↔ covers_atom sl a) as Hc.
  { intros sl a. unfold covers_atom. by rewrite (proj1 (Hp a)), (proj2 (Hp a)). }
  assert (∀ e a, changed_by e (g a) ↔ changed_by e a) as Hch.
  { intros e a. unfold changed_by. by rewrite (proj1 (Hp a)), (proj2 (Hg a)). }
  split; rewrite ?E.
  - done.
  - apply (apart_places l); [|done]. rewrite map_map, (map_ext _ place) by apply Hg. done.
  - intros sl Hsl. destruct (H3 sl Hsl) as (a & Ha & Hca). exists (g a). split; [by apply list_elem_of_fmap_2|by apply Hc].
  - intros e a He (b & -> & Hb)%list_elem_of_fmap H. apply (proj1 (Hch _ _)) in H. destruct (H4 e b He Hb H) as (sl & ? & ? & ?). exists sl. by rewrite Hc.
  - intros sl a Hsl (b & -> & Hb)%list_elem_of_fmap H. apply (proj1 (Hc _ _)) in H. apply Hch. by apply H5.
Qed.
