(* ===== verification/UndoEdit.v ===== *)
(** An undo operation ([Buffer::apply_undo]): it finds the characters that the
    edits it names inserted or deleted, and decides again whether they are visible. *)
From S2P Require Import Prelude Clock Locator Patch SumTree TreeFind Cursor TreeWeight ParTree Iter Keyed TreeMap UndoMap.
From S2P Require Import Utf8 Rope History Fragments Buffer FragmentLaws Builders Cells EditMachine Snapshot Script Origin UndoLoop UndoRanges Slices.
Import Buffer.
#[local] Existing Instances UndoMap.UndoMapKey_summary UndoMap.UndoMapEntry_item UndoMap.UndoMapEntry_laws UndoMap.UndoMapEntry_keyed.
Implicit Types (s : BufferSnapshot) (c : cell) (cs : list cell) (sl : InsertionSlice) (a b : atom) (l : list atom) (e ts : Lamport.t).

(** ** The characters that are decided on *)
Definition touched (ids : list Lamport.t) a : bool :=
  bool_decide (a_timestamp a ∈ ids) || existsb (λ d, bool_decide (d ∈ ids)) (a_deletions a).
Definition redo_atom (entries : list UndoMap.UndoMapEntry) (undo_timestamp : Lamport.t) (ids : list Lamport.t) a : atom :=
  if touched ids a then
    mk_atom (a_timestamp a) (a_offset a) (a_char a) (still_shown entries (a_timestamp a) (a_deletions a)) (a_deletions a)
      (Global.observe (a_undos a) undo_timestamp)
  else a.
Lemma touched_spec ids a : touched ids a = true ↔ ∃ e, e ∈ ids ∧ changed_by e a.
Proof.
  unfold touched, changed_by. rewrite orb_true_iff, bool_decide_eq_true, existsb_exists. setoid_rewrite <- list_elem_of_In.
  setoid_rewrite bool_decide_eq_true. naive_solver.
Qed.
(** Characters of one fragment are decided on together. *)
Lemma covered_touched s cs ids c : slices_cover s (atoms cs) → base_timestamp ∉ ids → c ∈ cs → cell_ok c →
  ∀ a, a ∈ atoms_of c → covered (edit_slices (slices_of s) ids) (insertion_new (frag c)) = touched ids a.
Proof.
  intros [_ _ _ Hc Hx] Hb Hin Hok a Ha. apply eq_true_iff_eq. rewrite touched_spec.
  (* the first character of the fragment *)
  destruct (chars c) as [|ch u] eqn:Ech; [by apply c_some in Ech|].
  set (a0 := mk_atom (Fragment.timestamp (frag c)) (Fragment.insertion_offset (frag c)) ch (Fragment.visible (frag c)) (Fragment.deletions (frag c)) (Fragment.max_undos (frag c))).
  assert (a0 ∈ atoms_of c) as Ha0 by (unfold atoms_of; rewrite Ech; left).
  assert (a0 ∈ atoms cs) as Hal by (unfold atoms; apply list_elem_of_In, in_flat_map; exists c; rewrite <- !list_elem_of_In; by split).
  assert (∀ e, changed_by e a ↔ changed_by e a0) as Hsame.
  { intros e. unfold atoms_of in Ha. assert (a_timestamp a = a_timestamp a0 ∧ a_deletions a = a_deletions a0) as [Et Ed]; [|unfold changed_by; by rewrite Et, Ed].
    revert a Ha. apply Forall_forall, atoms_from_forall. done. }
  setoid_rewrite Hsame. unfold covered. rewrite existsb_exists. setoid_rewrite <- list_elem_of_In.
  assert (∀ sl, covers sl (insertion_new (frag c)) = true ↔ covers_atom sl a0) as Hcov.
  { intros sl. unfold covers, covers_atom. cbn. rewrite !andb_true_iff, bool_decide_eq_true, Z.leb_le, Z.ltb_lt. tauto. }
  split.
  - intros (sl & [He%bool_decide_eq_true Hsl]%list_elem_of_filter & Hs%Hcov). exists (slice_edit_id sl). split; [done|]. by apply Hx.
  - intros (e & He & Hch). destruct (Hc e a0) as (sl & Hsl & <- & Hs); [by intros ->|done|done|]. exists sl. split; [|by apply Hcov].
    apply list_elem_of_filter. by rewrite bool_decide_eq_true.
Qed.
Lemma redo_atoms entries undo_timestamp ids c (sel : bool) :
  (∀ a, a ∈ atoms_of c → sel = touched ids a) →
  atoms_of (if sel then redo_cell entries undo_timestamp c else c) = map (redo_atom entries undo_timestamp ids) (atoms_of c).
Proof.
  intros H. unfold atoms_of in *. destruct sel.
  - cbn [redo_cell frag chars redo Fragment.observe_undo Fragment.set_visible Fragment.insertion_offset]. revert H. generalize (Fragment.insertion_offset (frag c)).
    induction (chars c) as [|ch u IH]; intros o H; [done|]. cbn [atoms_from map]. rewrite <- (IH (o + len_utf8 ch)).
    + f_equal. unfold redo_atom. rewrite <- H by (cbn; left). done.
    + intros a Ha. apply H. cbn. by right.
  - rewrite <- (map_id (atoms_from _ _ _)) at 1. apply map_ext_in. intros a Ha%list_elem_of_In. unfold redo_atom. by rewrite <- (H a Ha).
Qed.

(** ** The whole operation *)
Definition undo_ids (undo : UndoOperation) : list Lamport.t := map fst (map_to_list (counts undo)).
(** The undo map with the new entries is still low enough. *)
Definition undo_room s (undo : UndoOperation) : Prop :=
  ∀ m, UndoMap.insert (undo_map s) undo = Some m → (SumTree.height m < Cursor.stack_capacity)%nat.
Definition redone (s s' : BufferSnapshot) : Prop :=
  insertions s' = insertions s ∧ insertion_slices s' = insertion_slices s ∧ version s' = version s ∧
  remote_id s' = remote_id s ∧ replica_id s' = replica_id s ∧ line_ending s' = line_ending s.
Lemma redo_fields entries ts (sel : cell → bool) cs :
  map Fragment.id (frags (map (redo_if entries ts sel) cs)) = map Fragment.id (frags cs) ∧
  insertions_of (map (redo_if entries ts sel) cs) = insertions_of cs.
Proof.
  induction cs as [|c cs [IH1 IH2]]; [done|]. unfold insertions_of, frags, redo_if in *. cbn [map]. rewrite IH1, IH2. by destruct (sel c).
Qed.
Lemma ids_ok_map fs gs : map Fragment.id fs = map Fragment.id gs → ids_ok fs → ids_ok gs.
Proof.
  revert gs. induction fs as [|f fs IH]; intros [|g gs]; try done. cbn. intros [= E1 E2]. change (f :: fs) with ([f] ++ fs). change (g :: gs) with ([g] ++ gs).
  rewrite !ids_app, !ids_one. intros (Hf & Hfs & Hlt). split_and!; [unfold id_ok in *; by rewrite <- E1|by apply IH|].
  intros x y ->%list_elem_of_singleton Hy. assert (Fragment.id y ∈ map Fragment.id fs) as (z & Ez & Hz)%list_elem_of_fmap by (rewrite E2; by apply list_elem_of_fmap_2).
  unfold id_lt in *. rewrite <- E1, Ez. apply Hlt; [left|done].
Qed.
Lemma redo_atom_key entries ts ids a : a_key (redo_atom entries ts ids a) = a_key a.
Proof. unfold redo_atom. by destruct (touched ids a). Qed.
Lemma selected_sorted sel cs : ids_ok (frags cs) → StronglySorted (λ x y, Locator.cmp x y = Lt) (selected_ids sel cs).
Proof.
  intros [_ Hs]. unfold selected_ids, frags in *. induction cs as [|c cs IH]; [constructor|]. cbn [map] in Hs. apply StronglySorted_inv in Hs as [Hs Hc].
  rewrite filter_cons. case_decide; [|by apply IH]. cbn [map]. constructor; [by apply IH|].
  apply Forall_map, Forall_forall. intros d [_ Hd]%list_elem_of_filter. rewrite Forall_map in Hc. by apply (proj1 (Forall_forall _ _) Hc).
Qed.
Lemma ids_to_redo s cs ids : snapshot_of s cs → roomy s cs → slices_cover s (atoms cs) →
  fragment_ids_for_edits s ids = Some (selected_ids (λ c, covered (edit_slices (slices_of s) ids) (insertion_new (frag c))) cs).
Proof.
  intros Hs Hr Hx. destruct (s_insertions _ _ Hs) as (li & Hli & Hvi & Hpi). destruct (s_slices _ _ Hs) as (ls & Hls & Hvs).
  assert (slices_of s = map entry_key ls) as Els by (unfold slices_of; by destruct Hls as [_ ->]).
  pose proof (x_ok _ _ Hx) as Hok. rewrite Els in *.
  rewrite (fragment_ids_ok s ls li ids); [|apply represents_fits; [done|done|apply Hr]|done|apply represents_fits; [done|done|apply Hr]].
  f_equal. apply (sort_by_unique Locator.cmp); [|apply selected_sorted, (s_ids _ _ Hs)].
  rewrite Hpi. unfold insertions_of, frags, selected_ids. clear. induction cs as [|c cs IH]; [done|]. cbn [map]. rewrite !filter_cons.
  case_decide; cbn [map]; [by rewrite IH|done].
Qed.
Lemma atoms_map (f : cell → cell) (g : atom → atom) cs :
  (∀ c, c ∈ cs → atoms_of (f c) = map g (atoms_of c)) → atoms (map f cs) = map g (atoms cs).
Proof.
  induction cs as [|c cs IH]; intros H; [done|]. cbn [map atoms flat_map]. fold (atoms (map f cs)) (atoms cs).
  rewrite map_app, (H c) by left. rewrite IH; [done|]. intros d Hd. apply H. by right.
Qed.
Lemma undoing_start s cs cv cd : snapshot_of s cs → roomy s cs → all_len (atoms cs) < 2 ^ 32 →
  between cv [] (text_of true (atoms cs)) → between cd [] (text_of false (atoms cs)) →
  undoing (mk_undo_state (Cursor.new (fragments s)) SumTree.new (RopeBuilder.new cv cd) []) [] [] ([] ++ cs).
Proof.
  intros Hs Hr Hsm Hcv Hcd. pose proof (s_cells _ _ Hs) as Ho.
  assert (Keyed.fits (fragments s) (frags cs)) as (h & Hw & Hc & Hh & Hv).
  { apply represents_fits; [apply Hs|by apply cells_ok_frags|apply Hr]. }
  split; cbn [app u_old u_new u_ropes u_edits]; try done.
  - right. split; [done|]. by eapply Cursor.new_fresh.
  - apply SumTree.represents_new.
  - exists [], []. split; [done|done|apply has_new|apply has_new].
  - constructor.
  - apply (s_ids _ _ Hs).
Qed.
Lemma undo_runs s cs undo entries :
  snapshot_of s cs → roomy s cs → slices_cover s (atoms cs) → all_len (atoms cs) < 2 ^ 32 →
  Keyed.fits (undo_map s) entries → UndoMap.undo_ok undo → UndoMap.new_undo undo entries → undo_room s undo →
  base_timestamp ∉ undo_ids undo →
  ∃ s' patch entries' cs', apply_undo s undo = Some (s', patch) ∧ snapshot_of s' cs' ∧ redone s s' ∧
    Keyed.fits (undo_map s') entries' ∧ entries' ≡ₚ UndoMap.entries undo ++ entries ∧
    atoms cs' = map (redo_atom entries' (timestamp undo) (undo_ids undo)) (atoms cs) ∧
    Patch.relates 0 0 patch (encode (text_of true (atoms cs))) (encode (text_of true (atoms cs'))).
Proof.
  intros Hs Hr Hx Hsm Hun Huok Hnew Hroom Hbase. unfold apply_undo. destruct (UndoMap.insert_ok (undo_map s) entries undo Hun Huok Hnew) as (m & entries' & Em & Hm & Hl & Hp).
  rewrite Em. cbn [mbind option_bind].
  assert (Keyed.fits m entries') as Hfit by (apply represents_fits; [done|done|by apply Hroom]).
  destruct (holds_cursor _ _ (r_visible_text _ _ Hr)) as (cv & -> & Hcv). cbn [mbind option_bind].
  destruct (holds_cursor _ _ (r_deleted_text _ _ Hr)) as (cd & -> & Hcd). cbn [mbind option_bind]. fold (undo_ids undo).
  rewrite (ids_to_redo s cs) by done. cbn [mbind option_bind]. set (sel := λ c : cell, covered _ (insertion_new (frag c))).
  assert (undoing (mk_undo_state (Cursor.new (fragments s)) SumTree.new (RopeBuilder.new cv cd) []) [] [] ([] ++ cs)) as H0.
  { by apply undoing_start. }
  destruct (undo_fragments_ok m entries' (timestamp undo) Hfit ltac:(apply Huok) sel cs [] _ [] [] (Forall_nil_2 _) H0)
    as (st & dn & bf & rest & E & H & Eo & Ed). unfold undo_fragments in E. rewrite E. cbn [mbind option_bind app] in *.
  destruct (undo_rest_ok st dn bf rest H) as (cur & suf & rb & tree & rv & rd & -> & E2 & E3 & E4 & Htree & Hv & Hd & Hok & Hpatch).
  cbn [mbind option_bind]. rewrite E2. cbn [mbind option_bind]. rewrite E3. cbn [mbind option_bind]. rewrite E4. cbn [mbind option_bind].
  rewrite Eo, Ed in *. set (cs' := map _ cs) in *.
  assert (atoms cs' = map (redo_atom entries' (timestamp undo) (undo_ids undo)) (atoms cs)) as Ea.
  { apply atoms_map. intros c Hc. apply redo_atoms. intros a Ha. apply (covered_touched s cs (undo_ids undo)); try done.
    by apply (proj1 (Forall_forall _ _) (s_cells _ _ Hs)). }
  destruct (redo_fields entries' (timestamp undo) sel cs) as [Ei Ej]. fold cs' in Ei, Ej.
  eexists _, _, entries', cs'. split; [reflexivity|]. split_and!; try done.
  split; cbn [fragments visible_text deleted_text insertions insertion_slices]; try done.
  - apply (ids_ok_map (frags cs)); [done|apply (s_ids _ _ Hs)].
  - rewrite Ea, map_map, (map_ext _ a_key) by (intros a; apply redo_atom_key). apply (s_keys _ _ Hs).
  - rewrite Ej. apply (s_insertions _ _ Hs).
  - apply (s_slices _ _ Hs).
Qed.
