(* ===== verification/LocalEdit.v ===== *)
(** A local edit ([BufferSnapshot::apply_edit_internal]): it does not panic, the
    text is the edited one, and the operation that it returns says what happened
    to the document. *)
From S2P Require Import Prelude Clock Locator Patch SumTree TreeFind Cursor TreeWeight ParTree Iter Keyed TreeMap UndoMap.
From S2P Require Import Utf8 Rope History Fragments Buffer FragmentLaws Builders Cells EditMachine Snapshot Script Origin.
Import Buffer.
Implicit Types (out : list written) (c : cell) (bf rest cs : list cell) (f : Fragment.t) (t m q u : str).

(** ** Positions in the visible text *)
Definition shown : Lamport.t → bool → bool := λ _ v, v.
Lemma total_shown (l : list Fragment.t) : total (counted_len shown) l = total visible_len l.
Proof. done. Qed.
Lemma visible_pos_dim (l : list Fragment.t) :
  0 ≤ total (counted_len shown) l < 2 ^ 64 → visible_pos (dim FragmentTextSummary l) = Some (total (counted_len shown) l).
Proof. intros H. unfold visible_pos. rewrite dim_text. cbn. by rewrite total_shown in *; rewrite wrap64_small. Qed.
Lemma visible_target_dim x (l : list Fragment.t) :
  0 ≤ total (counted_len shown) l < 2 ^ 64 → visible_target x (dim FragmentTextSummary l) = Z.compare x (total (counted_len shown) l).
Proof. intros H. unfold visible_target. rewrite dim_text. cbn. by rewrite total_shown in *; rewrite wrap64_small. Qed.
Lemma visible_target_clear x (d : FragmentTextSummary) :
  vague (T := Fragment.t) d → skips (visible_target x d) Right = false.
Proof. apply Cursor.exact_clear. Qed.
Lemma shown_text (l : list atom) : measured_len (a_counted shown) l = str_len (text_of true l).
Proof. by rewrite visible_text_len. Qed.

Section delete.
Variable timestamp : Lamport.t.
Hypothesis timestamp_ok : Lamport.ok timestamp.
Abbreviation state := (edit_state FragmentTextSummary).
Abbreviation walk := (walk (D := FragmentTextSummary) timestamp shown).
Abbreviation measured := (measured_len (a_counted shown)).
Definition mark_shown (a : atom) : atom := if a_visible a then kill timestamp a else a.
Lemma map_mark_from b f o s : Fragment.visible f = b →
  map mark_shown (atoms_from f o s) = if b then map (kill timestamp) (atoms_from f o s) else atoms_from f o s.
Proof.
  intros <-. revert o. induction s as [|c s IH]; intros o; cbn; [by destruct (Fragment.visible f)|]. rewrite IH.
  unfold mark_shown. cbn. by destruct (Fragment.visible f).
Qed.

Lemma marked_text l : text_of true (map mark_shown l) = [].
Proof.
  induction l as [|a l IH]; [done|]. unfold text_of in *. cbn [map]. rewrite filter_cons, decide_False; [done|].
  unfold mark_shown. destruct (a_visible a) eqn:E; [done|congruence].
Qed.
(** One step over [m], visible text of the current fragment. *)
Lemma delete_shown_ok extra (st : state) out bf t m q c rest stop_ :
  walk extra st out bf t (c :: rest) → chars c = t ++ m ++ q → m ≠ [] → Fragment.visible (frag c) = true →
  fragment_start st + str_len m ≤ stop_ → (q ≠ [] → stop_ = fragment_start st + str_len m) →
  ∃ st' w, local_delete_step timestamp stop_ st
      = (st'' ← (if bool_decide (q = []) then advance st' else Some st'); Some (inl st'')) ∧
    walk extra st' (out ++ [w]) bf (t ++ m) (c :: rest) ∧ fragment_start st' = fragment_start st + str_len m ∧
    w_tag w = Deleted ∧ doc [w] = map mark_shown (atoms_from (frag c) (Fragment.insertion_offset (frag c) + str_len t) m).
Proof.
  intros H E Hm Hv Hle Hq. pose proof (w_sim _ _ _ _ _ _ _ _ H) as Hs. unfold local_delete_step.
  assert (0 < str_len m) as Hpos.
  { destruct m as [|x m]; [done|]. cbn. pose proof (len_utf8_bounds x). pose proof (str_len_nonneg m). lia. }
  assert (0 < str_len q ∨ q = []) as Hqpos.
  { destruct q as [|x q']; [by right|left]. cbn. pose proof (len_utf8_bounds x). pose proof (str_len_nonneg q'). lia. }
  rewrite (proj2 (Z.ltb_lt _ _)) by lia. rewrite (sim_current _ _ _ _ _ _ _ _ Hs). cbn [mbind option_bind].
  rewrite (fragment_end_ok timestamp shown _ visible_pos_dim _ _ _ _ _ _ Hs). cbn [mbind option_bind].
  rewrite (walk_stop timestamp shown _ _ _ _ _ _ _ _ H E Hv), str_len_app.
  assert (Z.min stop_ (fragment_start st + (str_len m + str_len q)) = fragment_start st + str_len m) as ->.
  { destruct Hqpos as [Hp| ->]; [|cbn; lia]. rewrite Hq by (by intros ->). lia. }
  rewrite Hv, (part_ok timestamp shown _ visible_pos_dim _ _ _ _ _ _ _ _ _ H E). cbn [mbind option_bind Fragment.visible Fragment.set_visible andb negb].
  change (Fragment.set_range _ _ (frag c)) with (frag (cut c t m (frag c))).
  change (Fragment.id (frag (cut c t m (frag c)))) with (Fragment.id (frag c)).
  set (f := Fragment.set_visible false (Fragment.push_deletion timestamp (Fragment.set_id _ (frag (cut c t m (frag c)))))). change (Fragment.len f) with (str_len m). rewrite (proj2 (Z.ltb_lt _ _)) by done.
  set (st1 := push_slice _ _).
  pose proof (sim_cell timestamp _ _ _ _ _ _ _ Hs) as Hok.
  assert (fragment_start st = str_len (text_of true (behind bf t (c :: rest)))) as Efs
    by (rewrite (w_start _ _ _ _ _ _ _ _ H); apply shown_text).
  destruct (emit_ok timestamp shown timestamp_ok _ st st1 out bf t m q c rest Deleted f (fragment_start st) H E Hm Hv) as (st2 & E2 & H2); try done.
  - by right.
  - split; try done. rewrite Hv. done.
  - rewrite Hv in E2. rewrite E2. cbn [mbind option_bind].
    exists (set_start (fragment_start st + str_len m) st2), (mk_written Deleted (mk_cell f m)). split_and!; [|done|done|done|].
    + destruct Hqpos as [Hp| ->].
      * rewrite bool_decide_eq_false_2 by (by intros ->). rewrite (proj2 (Z.leb_gt _ _)); [done|]. rewrite Hq by (by intros ->). lia.
      * rewrite bool_decide_eq_true_2 by done. rewrite (proj2 (Z.leb_le _ _)) by (cbn; lia). done.
    + rewrite doc_one, (map_mark_from true) by done. unfold atoms_of. cbn [frag chars]. unfold f. rewrite atoms_from_killed.
      f_equal. by apply atoms_from_same.
Qed.
(** The current fragment was consumed already. *)
Lemma delete_consumed_ok extra (st : state) out bf c rest stop_ :
  walk extra st out bf (chars c) (c :: rest) → Fragment.visible (frag c) = true → fragment_start st < stop_ →
  local_delete_step timestamp stop_ st = (st' ← advance st; Some (inl st')).
Proof.
  intros H Hv Hlt. pose proof (w_sim _ _ _ _ _ _ _ _ H) as Hs. unfold local_delete_step.
  rewrite (proj2 (Z.ltb_lt _ _)) by lia. rewrite (sim_current _ _ _ _ _ _ _ _ Hs). cbn [mbind option_bind].
  rewrite (fragment_end_ok timestamp shown _ visible_pos_dim _ _ _ _ _ _ Hs). cbn [mbind option_bind].
  rewrite (walk_stop timestamp shown _ _ _ _ _ [] _ _ H) by (done || by rewrite app_nil_r). cbn [str_len].
  rewrite Z.add_0_r, Z.min_r, Hv by lia.
  replace (part visible_pos (fragment_start st) st (frag c)) with (part visible_pos (fragment_start st + str_len []) st (frag c)) by by rewrite Z.add_0_r.
  rewrite (part_ok timestamp shown _ visible_pos_dim _ _ _ _ _ [] [] _ _ H) by by rewrite !app_nil_r. cbn [mbind option_bind].
  cbn [Fragment.len Fragment.set_visible Fragment.push_deletion Fragment.set_id Fragment.set_range str_len].
  rewrite Z.ltb_irrefl. cbn [mbind option_bind]. by rewrite (proj2 (Z.leb_le _ _)) by lia.
Qed.
(** A fragment that is deleted already. *)
Lemma delete_hidden_ok extra (st : state) out bf c rest stop_ :
  walk extra st out bf [] (c :: rest) → Fragment.visible (frag c) = false → fragment_start st < stop_ →
  ∃ st', local_delete_step timestamp stop_ st = Some (inl st') ∧
    walk extra st' (out ++ [mk_written Moved c]) (bf ++ [c]) [] rest ∧ fragment_start st' = fragment_start st.
Proof.
  intros H Hv Hlt. pose proof (w_sim _ _ _ _ _ _ _ _ H) as Hs. unfold local_delete_step.
  rewrite (proj2 (Z.ltb_lt _ _)) by lia. rewrite (sim_current _ _ _ _ _ _ _ _ Hs). cbn [mbind option_bind].
  rewrite (fragment_end_ok timestamp shown _ visible_pos_dim _ _ _ _ _ _ Hs). cbn [mbind option_bind].
  pose proof (sim_cell timestamp _ _ _ _ _ _ _ Hs) as Hok.
  assert (stop shown bf (c :: rest) = fragment_start st) as ->.
  { rewrite (w_start _ _ _ _ _ _ _ _ H). unfold stop, here. rewrite behind_start, atoms_app, measured_app, atoms_one. unfold atoms_of.
    rewrite measured_from. unfold counted, shown. rewrite Hv. lia. }
  rewrite Z.min_r, Hv by lia. cbn [mbind option_bind andb]. rewrite (proj2 (Z.ltb_lt _ _)) by by apply cell_len_pos.
  rewrite emit_def.
  destruct (pass_ok timestamp shown extra st (add_insertion (frag c) st) out bf c rest Moved H) as (st2 & E2 & Hst2); [done|by right|apply plain_logs|].
  rewrite ?Hv in E2. rewrite E2. cbn [mbind option_bind].
  destruct (Hst2 (set_start (fragment_start st) st2)) as (st4 & E4 & H4 & Hf4); [by right|].
  rewrite (proj2 (Z.leb_le _ _)) by lia. rewrite E4. cbn [mbind option_bind]. by exists st4.
Qed.

Lemma text_prefix_head c rest t extra st out bf : walk extra st out bf t (c :: rest) → ∃ q, chars c = t ++ q.
Proof. intros H. apply (m_prefix _ _ _ _ _ _ _ (w_sim _ _ _ _ _ _ _ _ H)). Qed.
(** The loop marks everything up to the end of the range. *)
Lemma delete_loop_ok extra stop_ : ∀ rest st out bf t fuel x y,
  walk extra st out bf t rest → ahead t rest = x ++ y → measured x = stop_ - fragment_start st → (length rest + 2 ≤ fuel)%nat →
  ∃ st' k bf' t' rest' mid, iterate (local_delete_step timestamp stop_) fuel st = Some st' ∧
    walk extra st' (out ++ k) bf' t' rest' ∧ fragment_start st' = stop_ ∧ bf' ++ rest' = bf ++ rest ∧
    ahead t rest = mid ++ ahead t' rest' ∧ doc k = map mark_shown mid ∧ Forall (λ w, w_tag w ≠ Inserted) k.
Proof.
  assert (∀ st out bf t rest fuel, walk extra st out bf t rest → fragment_start st = stop_ → (0 < fuel)%nat →
    ∃ st' k bf' t' rest' mid, iterate (local_delete_step timestamp stop_) fuel st = Some st' ∧
    walk extra st' (out ++ k) bf' t' rest' ∧ fragment_start st' = stop_ ∧ bf' ++ rest' = bf ++ rest ∧
    ahead t rest = mid ++ ahead t' rest' ∧ doc k = map mark_shown mid ∧ Forall (λ w, w_tag w ≠ Inserted) k) as Hexit.
  { intros st out bf t rest [|fuel] H E Hf; [lia|]. exists st, [], bf, t, rest, []. rewrite app_nil_r. split_and!; try done.
    cbn [iterate]. unfold local_delete_step. by rewrite E, Z.ltb_irrefl. }
  intros rest. induction rest as [|c rest IH]; intros st out bf t fuel x y H Ex Em Hf; cbn [length] in Hf.
  { assert (x = []) as -> by (cbn in Ex; by destruct x). apply Hexit; [done|change (measured []) with 0 in Em; lia|lia]. }
  pose proof (measured_nonneg (a_counted shown) x).
  destruct (decide (fragment_start st = stop_)) as [E|E]; [apply Hexit; [done..|lia]|]. destruct fuel as [|fuel]; [lia|]. cbn [iterate].
  (* after an advance *)
  assert (∀ st' w (m : list atom), walk extra st' (out ++ w) (bf ++ [c]) [] rest → ahead t (c :: rest) = m ++ ahead [] rest →
     measured m ≤ measured x → fragment_start st' = fragment_start st + measured m → doc w = map mark_shown m →
     Forall (λ w, w_tag w ≠ Inserted) w →
     ∃ st'' k bf' t' rest' mid, iterate (local_delete_step timestamp stop_) fuel st' = Some st'' ∧
       walk extra st'' (out ++ k) bf' t' rest' ∧ fragment_start st'' = stop_ ∧ bf' ++ rest' = bf ++ c :: rest ∧
       ahead t (c :: rest) = mid ++ ahead t' rest' ∧ doc k = map mark_shown mid ∧ Forall (λ w, w_tag w ≠ Inserted) k) as Hnext.
  { intros st' w m H' Ea Hm Hfs Hd Hw.
    rewrite Ea in Ex. destruct (measured_cut _ _ _ _ _ Ex Hm) as (x' & y' & Ey & Em').
    destruct (IH st' (out ++ w) (bf ++ [c]) [] fuel x' y' H' Ey) as (st2 & k & bf' & t' & rest' & mid & E2 & H2 & Hf2 & Eo & Emid & Hdk & Hk); [lia|lia|].
    exists st2, (w ++ k), bf', t', rest', (m ++ mid). rewrite !app_assoc, doc_app, map_app, Hd, Hdk. split_and!; try done.
    - by rewrite Eo, <- app_assoc.
    - by rewrite Ea, Emid, app_assoc.
    - by apply Forall_app. }
  destruct (text_prefix_head _ _ _ _ _ _ _ H) as [q Eq]. destruct (Fragment.visible (frag c)) eqn:Hv.
  - destruct (decide (q = [])) as [->|Hq].
    + rewrite app_nil_r in Eq. subst t. rewrite (delete_consumed_ok extra _ _ _ _ rest) by (done || lia).
      destruct (walk_advance timestamp shown _ _ _ _ _ _ H) as (st' & E' & H' & Hf'). rewrite E'. cbn [mbind option_bind].
      apply (Hnext st' [] []); [by rewrite app_nil_r|by rewrite ahead_done, ahead_start|change (measured []) with 0; lia..|done|done].
    + assert (ahead t (c :: rest) = atoms_from (frag c) (Fragment.insertion_offset (frag c) + str_len t) q ++ atoms rest) as Ea.
      { rewrite (ahead_cons t q []) by by rewrite app_nil_r. by rewrite <- Eq, ahead_done. }
      assert (∀ o s, measured (atoms_from (frag c) o s) = str_len s) as Emf.
      { intros o s. rewrite measured_from. unfold counted, shown. by rewrite Hv. }
      destruct (decide (str_len q ≤ measured x)) as [Hle|Hgt].
      * destruct (delete_shown_ok extra st out bf t q [] c rest stop_ H) as (st' & w & Est & H' & Hf' & Hw & Hdw);
          [by rewrite app_nil_r|done|done|lia|done|].
        rewrite Est. rewrite bool_decide_eq_true_2 by done. rewrite <- Eq in H'.
        destruct (walk_advance timestamp shown _ _ _ _ _ _ H') as (st2 & E2 & H2 & Hf2). rewrite E2. cbn [mbind option_bind].
        apply (Hnext st2 [w] (atoms_from (frag c) (Fragment.insertion_offset (frag c) + str_len t) q)); [done|by rewrite Ea, ahead_start|rewrite Emf; lia|rewrite Emf; lia|done|].
        apply Forall_singleton. by rewrite Hw.
      * rewrite Ea in Ex. destruct (head_split shown (frag c) _ q _ x y Hv Ex) as (m & q' & -> & Elm); [lia|].
        assert (m ≠ []) as Hm by (intros ->; cbn in Elm; lia). rewrite str_len_app in *.
        destruct (delete_shown_ok extra st out bf t m q' c rest stop_ H Eq Hm Hv) as (st' & w & Est & H' & Hf' & Hw & Hdw); [lia|lia|].
        rewrite Est. rewrite bool_decide_eq_false_2 by (intros ->; cbn in *; lia). cbn [mbind option_bind].
        destruct (Hexit st' (out ++ [w]) bf (t ++ m) (c :: rest) fuel H') as (st2 & k & bf' & t' & rest' & mid & E2 & H2 & Hf2 & Eo & Emid & Hdk & Hk); [lia|lia|].
        eexists st2, ([w] ++ k), bf', t', rest', (_ ++ mid). rewrite !app_assoc, doc_app, map_app, Hdw, Hdk. split_and!; try done.
        -- rewrite (ahead_cons t m q' _ _ Eq), Emid. by rewrite app_assoc.
        -- apply Forall_app. split; [|done]. apply Forall_singleton. by rewrite Hw.
  - destruct (w_counted _ _ _ _ _ _ _ _ H) as [->|(? & ? & [= <- <-] & Hc)]; [|unfold counted, shown in Hc; congruence].
    destruct (delete_hidden_ok extra st out bf c rest stop_ H Hv) as (st' & E' & H' & Hf'); [lia|]. rewrite E'.
    assert (measured (atoms_of c) = 0) as Em0 by (unfold atoms_of; rewrite measured_from; unfold counted, shown; by rewrite Hv).
    apply (Hnext st' [mk_written Moved c] (atoms_of c)); [done|by rewrite !ahead_start|lia..| |by repeat constructor].
    rewrite doc_one. unfold atoms_of. by rewrite (map_mark_from false).
Qed.
End delete.

(** ** One edit *)
Section edits.
Variable timestamp : Lamport.t.
Hypothesis timestamp_ok : Lamport.ok timestamp.
Hypothesis timestamp_pos : 0 < Lamport.value timestamp.
Variable replace_all : list Z → option (list Z).
Abbreviation state := (edit_state FragmentTextSummary).
Abbreviation walk := (walk (D := FragmentTextSummary) timestamp shown).
Abbreviation mark := (mark_shown timestamp).

Lemma full_offset_ok extra (st : state) out bf t rest :
  walk extra st out bf t rest →
  fragment_start st +w64 deleted (Cursor.start (old_fragments st)) = all_len (behind bf t rest).
Proof.
  intros H. pose proof (w_sim _ _ _ _ _ _ _ _ H) as Hs. rewrite (full_position timestamp shown _ _ _ _ _ _ H), <- (w_start _ _ _ _ _ _ _ _ H).
  rewrite (sim_start timestamp _ _ _ _ _ _ Hs), dim_text. cbn [deleted].
  assert (Forall cell_ok bf) as Hb by by apply (Forall_app _ bf rest), (m_old _ _ _ _ _ _ _ Hs).
  rewrite deleted_cells, text_len by done. unfold a_counted, shown.
  rewrite (measured_ext _ (λ a, negb (a_visible a))) by (apply Forall_true; intros a; by destruct (a_visible a)).
  pose proof (walk_here timestamp shown _ _ _ _ _ _ H). pose proof (measured_nonneg (λ a, negb (a_visible a)) (atoms bf)).
  pose proof (measured_le (λ a, negb (a_visible a)) (atoms bf)). pose proof (m_small_old _ _ _ _ _ _ _ Hs) as Hso. apply small_app in Hso.
  rewrite wrap64_add_r. apply wrap64_small. lia.
Qed.

(** New text where the state is, if there is any. *)
Lemma insert_if_ok extra (st : state) out bf t rest u :
  walk extra st out bf t rest → scalars u → str_len u ≤ extra →
  ∃ st' k, (if Utf8.len (encode u) =? 0 then Some st else insert_text (encode u) timestamp (fragment_start st) st) = Some st' ∧
    walk (extra - str_len u) st' (out ++ k) bf t rest ∧ fragment_start st' = fragment_start st ∧
    doc k = new_text_atoms timestamp (total Fragment.len (with_tag is_insertion out)) u ∧
    total Fragment.len (with_tag is_insertion k) = str_len u.
Proof.
  intros H Hu Hex. rewrite Utf8.len_encode. destruct (Z.eqb_spec (str_len u) 0) as [E|E].
  - apply no_bytes in E as ->. exists st, []. rewrite app_nil_r, Z.sub_0_r. by split_and!.
  - assert (fragment_start st = str_len (text_of true (behind bf t rest))) as Ef
      by (rewrite (w_start _ _ _ _ _ _ _ _ H); apply shown_text).
    destruct (insert_text_ok timestamp shown timestamp_ok timestamp_pos extra st out bf t rest u H Hu) as (st' & i & Est & Hf & Hst);
      [by intros ->|done|].
    rewrite Ef, Est. eexists st', _. split_and!; [done|done|by rewrite Hf| |].
    + rewrite doc_one. by apply atoms_from_same.
    + rewrite with_tag_one. cbn. lia.
Qed.
Lemma local_edit_ok extra tree (st : state) out bf t rest start stop_ u text es v :
  walk extra st out bf t rest →
  edited_text (fragment_start st) (((start, stop_), u) :: es) (text_of true (ahead t rest)) v →
  normalize_arc replace_all text = encode u → scalars u → str_len u ≤ extra →
  SumTree.contents tree = frags (bf ++ rest) →
  ∃ st' k bf' t' rest' a d v',
    local_edit replace_all tree timestamp ((start, stop_), text) st
      = Some (st', (all_len (behind bf t rest ++ a), all_len (behind bf t rest ++ a ++ d)), encode u) ∧
    walk (extra - str_len u) st' (out ++ k) bf' t' rest' ∧ fragment_start st' = stop_ ∧ bf' ++ rest' = bf ++ rest ∧
    ahead t rest = a ++ d ++ ahead t' rest' ∧
    doc k = a ++ new_text_atoms timestamp (total Fragment.len (with_tag is_insertion out)) u ++ map mark d ∧
    total Fragment.len (with_tag is_insertion (out ++ k)) = total Fragment.len (with_tag is_insertion out) + str_len u ∧
    v = text_of true (doc k) ++ v' ∧ edited_text stop_ es (text_of true (ahead t' rest')) v'.
Proof.
  intros H Hed Hn Hu Hex Htree. pose proof (edited_start _ _ _ _ _ _ _ Hed) as [Hss Hlen]. unfold local_edit. rewrite Hn.
  (* to the range *)
  destruct (jump_ahead_ok timestamp shown visible_pos visible_pos_dim visible_target Right visible_target_dim visible_target_clear
    extra start st out bf t rest H) as (st1 & k1 & bf1 & t1 & rest1 & E1 & H1 & Eo1 & Ea1 & Hk1 & Hj); [lia|].
  rewrite E1. cbn [mbind option_bind].
  pose proof (walk_progress timestamp shown _ _ _ _ _ _ _ _ _ _ _ _ _ H H1 Eo1 Ea1) as Eb1.
  rewrite Ea1, text_of_app in Hed.
  assert (fragment_start st1 = fragment_start st + str_len (text_of true (doc k1))) as Ef1.
  { rewrite (w_start _ _ _ _ _ _ _ _ H1), (w_start _ _ _ _ _ _ _ _ H). unfold here. by rewrite Eb1, measured_app, shown_text, shown_text. }
  assert (fragment_start st1 ≤ start) as Hle1.
  { destruct Hj as [(-> & -> & _)|(_ & Hsk & _)]; [lia|]. unfold skips in Hsk. destruct (Z.compare_spec start (fragment_start st1)); (lia || done). }
  destruct (edited_drop _ _ _ _ _ _ _ _ Hed) as (v1 & -> & Hed1); [lia|]. rewrite <- Ef1 in Hed1. clear Hed.
  destruct (edited_inv _ _ _ _ _ _ _ Hed1) as (a0 & d0 & b0 & b' & Etext & -> & Ha0 & Hd0 & Hrest).
  destruct (text_split true _ _ _ Etext) as (la & l2 & Ela & <- & El2).
  assert (start ≤ EditMachine.stop shown bf1 rest1) as Hstop.
  { destruct Hj as [(-> & -> & Hj & -> & -> & ->)|(-> & _ & [->|Hsk])]; [done| |].
    - unfold EditMachine.stop. cbn in Ela. symmetry in Ela. apply app_nil in Ela as [-> _]. cbn in Ha0.
      rewrite (w_start _ _ _ _ _ _ _ _ H1) in Ha0. unfold here in Ha0. rewrite behind_start in Ha0. rewrite app_nil_r. lia.
    - unfold skips in Hsk. destruct (Z.compare_spec start (EditMachine.stop shown bf1 rest1)); (lia || done). }
  destruct (push_prefix_ok timestamp shown visible_pos visible_pos_dim extra start st1 (out ++ k1) bf1 t1 rest1 la l2 H1)
    as (st2 & k2 & t2 & E2 & H2 & Ef2 & Ea2 & _ & Hk2); [lia|done|by rewrite shown_text|].
  rewrite E2. cbn [mbind option_bind].
  pose proof (walk_progress timestamp shown _ _ _ _ _ _ _ _ _ _ _ _ _ H1 H2 eq_refl Ea2) as Eb2.
  assert (text_of true (doc k2) = text_of true la ∧ text_of true (ahead t2 rest1) = d0 ++ b0) as [Et2 Et2'].
  { apply app_str_inj; [by rewrite <- text_of_app, <- Ea2, <- Etext|]. rewrite Ha0.
    rewrite <- Ef2, (w_start _ _ _ _ _ _ _ _ H2), (w_start _ _ _ _ _ _ _ _ H1). unfold here. rewrite Eb2, measured_app, !shown_text. lia. }
  (* the new text and the deletion *)
  destruct (insert_if_ok extra st2 _ _ _ _ u H2 Hu Hex) as (st3 & k3 & E3 & H3 & Ef3 & Hd3 & Hi3). rewrite E3. cbn [mbind option_bind].
  destruct (text_split true _ _ _ Et2') as (ld & l4 & Eld & Etd & El4).
  destruct (delete_loop_ok timestamp timestamp_ok (extra - str_len u) stop_ rest1 st3 _ bf1 t2 (delete_fuel tree) ld l4 H3 Eld)
    as (st4 & k4 & bf4 & t4 & rest4 & mid & E4 & H4 & Ef4 & Eo4 & Ea4 & Hd4 & Hk4).
  { rewrite shown_text, Etd. lia. }
  { unfold delete_fuel. rewrite Htree. unfold frags. rewrite length_map, <- Eo1, length_app. lia. }
  rewrite E4. cbn [mbind option_bind].
  pose proof (walk_progress timestamp shown _ _ _ _ _ _ _ _ _ _ _ _ _ H3 H4 Eo4 Ea4) as Eb4.
  assert (text_of true mid = d0 ∧ text_of true (ahead t4 rest4) = b0) as [Em4 Er4].
  { apply app_str_inj; [by rewrite <- text_of_app, <- Ea4|]. rewrite Hd0, <- Ef4, <- Ef2, <- Ef3.
    rewrite (w_start _ _ _ _ _ _ _ _ H4), (w_start _ _ _ _ _ _ _ _ H3). unfold here. rewrite Eb4, measured_app, !shown_text. lia. }
  assert (with_tag is_insertion (k1 ++ k2) = []) as Ei12.
  { apply no_insertion, Forall_app. by split; apply unchanged_not_inserted. }
  rewrite <- app_assoc, with_tag_app, Ei12, app_nil_r in Hd3.
  exists st4, (k1 ++ k2 ++ k3 ++ k4), bf4, t4, rest4, (doc (k1 ++ k2)), mid, b'. split_and!.
  - do 3 f_equal. f_equal.
    + rewrite doc_app, app_assoc, <- Eb1, <- Eb2, <- Ef2 in *. rewrite <- (full_offset_ok _ _ _ _ _ _ H2).
      by rewrite (sim_start timestamp _ _ _ _ _ _ (w_sim _ _ _ _ _ _ _ _ H1)), (sim_start timestamp _ _ _ _ _ _ (w_sim _ _ _ _ _ _ _ _ H2)).
    + rewrite doc_app, !app_assoc, <- Eb1, <- Eb2, <- Eb4, <- Ef4. by rewrite <- (full_offset_ok _ _ _ _ _ _ H4).
  - by rewrite !app_assoc in *.
  - done.
  - by rewrite Eo4.
  - by rewrite Ea1, Ea2, Ea4, doc_app, <- !app_assoc.
  - rewrite app_assoc, doc_app, (doc_app k3), Hd3, Hd4. done.
  - rewrite !with_tag_app, !total_app, Hi3, (no_insertion k4 Hk4) in *. apply app_nil in Ei12 as [-> ->]. cbn. lia.
  - rewrite !doc_app, !text_of_app, Hd3, Hd4, Et2, <- !app_assoc. do 2 f_equal.
    rewrite marked_text.
    unfold new_text_atoms. by rewrite atoms_from_text.
  - by rewrite Er4.
Qed.

(** ** All the edits *)
(** The texts as the snapshot stores them: normalised and decoded. *)
Definition normalized (raw : (Z * Z) * list Z) (e : (Z * Z) * str) : Prop :=
  raw.1 = e.1 ∧ normalize_arc replace_all raw.2 = encode e.2 ∧ scalars e.2.
(** What the edits make of the document, for ranges that count deleted text. *)
Definition apply_full (off : Z) (n : Z) (es : edits) l : list atom := apply_edits (λ _, true) (λ _, false) mark timestamp n off es l.

Lemma local_edits_ok tree raws es : Forall2 normalized raws es → ∀ extra (st : state) out bf t rest v,
  walk extra st out bf t rest → inserted_len es ≤ extra →
  edited_text (fragment_start st) es (text_of true (ahead t rest)) v →
  SumTree.contents tree = frags (bf ++ rest) →
  ∃ st' k bf' t' rest' ranges,
    local_edits replace_all tree timestamp raws st = Some (st', ranges, map (λ e, encode e.2) es) ∧ length ranges = length es ∧
    walk (extra - inserted_len es) st' (out ++ k) bf' t' rest' ∧ bf' ++ rest' = bf ++ rest ∧
    doc k ++ ahead t' rest' = apply_full (total Fragment.len (with_tag is_insertion out)) (all_len (behind bf t rest))
                                (zip ranges (map snd es)) (ahead t rest) ∧
    text_of true (doc k ++ ahead t' rest') = v ∧ (∀ r, head ranges = Some r → all_len (behind bf t rest) ≤ r.1) ∧
    applicable (λ _, true) (λ _, false) (all_len (behind bf t rest)) (zip ranges (map snd es)) (ahead t rest).
Proof.
  induction 1 as [|[[start stop_] text] [r u] raws es [Er [Hn Hu]] _ IH]; intros extra st out bf t rest v H Hex Hed Htree.
  - inversion Hed; subst. exists st, [], bf, t, rest, []. rewrite app_nil_r, Z.sub_0_r. by split_and!.
  - cbn [fst snd] in Er, Hn, Hu. subst r. cbn [inserted_len foldr snd] in *. fold (inserted_len es) in *.
    pose proof (inserted_len_nonneg es) as Hp1. pose proof (str_len_nonneg u) as Hp2.
    destruct (local_edit_ok extra tree st out bf t rest start stop_ u text es v H Hed Hn Hu)
      as (st1 & k1 & bf1 & t1 & rest1 & a & d & v1 & E1 & H1 & Ef1 & Eo1 & Ea1 & Hd1 & Hi1 & -> & Hed1); [lia|done|].
    rewrite <- Ef1 in Hed1.
    destruct (IH (extra - str_len u) st1 (out ++ k1) bf1 t1 rest1 v1 H1) as (st2 & k2 & bf2 & t2 & rest2 & ranges & E2 & Hl & H2 & Eo2 & Hd2 & <- & _ & Happ);
      [lia|done|by rewrite Htree, Eo1|].
    exists st2, (k1 ++ k2), bf2, t2, rest2, ((all_len (behind bf t rest ++ a), all_len (behind bf t rest ++ a ++ d)) :: ranges).
    cbn [local_edits]. rewrite E1. cbn [mbind option_bind]. rewrite E2. cbn [mbind option_bind].
    assert (behind bf1 t1 rest1 = behind bf t rest ++ a ++ d) as Eb
      by (apply (walk_progress timestamp shown _ _ _ _ _ _ _ _ _ _ _ _ (a ++ d) H H1 Eo1); by rewrite <- app_assoc).
    rewrite Eb in Hd2, Happ. rewrite Ea1.
    change (zip (?r :: ranges) (map snd ((_, u) :: es))) with ((r, u) :: zip ranges (map snd es)).
    change (a ++ d ++ ahead t1 rest1) with (a ++ [] ++ d ++ ahead t1 rest1).
    assert (measured_len (λ _, true) a = all_len (behind bf t rest ++ a) - all_len (behind bf t rest)) as Ma by (rewrite all_len_app; unfold all_len; lia).
    assert (measured_len (λ _, true) d = all_len (behind bf t rest ++ a ++ d) - all_len (behind bf t rest ++ a)) as Md by (rewrite !all_len_app; unfold all_len; lia).
    split_and!; [done|cbn; by rewrite Hl|by rewrite app_assoc, Z.sub_add_distr|by rewrite Eo2| | | |].
    + rewrite doc_app, <- app_assoc, Hd2, Hi1, Hd1. unfold apply_full.
      rewrite (apply_edits_parts _ _ _ _ _ _ _ _ u _ a [] d) by (done || apply shortest_all). by rewrite <- !app_assoc.
    + by rewrite doc_app, <- app_assoc, text_of_app.
    + intros r [= <-]. cbn [fst]. rewrite all_len_app. pose proof (all_len_nonneg a). lia.
    + by apply applicable_cons; try apply shortest_all.
Qed.
Lemma mark_key a : a_key (mark a) = a_key a.
Proof. unfold mark_shown. by destruct (a_visible a). Qed.
End edits.

Lemma local_edit_runs replace_all timestamp s cs raw raws es v :
  snapshot_of s cs → roomy s cs → Lamport.ok timestamp → 0 < Lamport.value timestamp →
  Forall (λ a, a_timestamp a ≠ timestamp) (atoms cs) → all_len (atoms cs) + inserted_len es < 2 ^ 32 →
  Forall2 (normalized replace_all) (raw :: raws) es → edited_text 0 es (text_of true (atoms cs)) v →
  ∃ s' ranges patch out,
    apply_edit_internal replace_all s (raw :: raws) timestamp
      = Some (s', mk_edit_op timestamp (version s) ranges (map (λ e, encode e.2) es), patch) ∧
    edited timestamp s s' cs out ∧ text_of true (doc out) = v ∧ length ranges = length es ∧
    doc out = apply_full timestamp 0 0 (zip ranges (map snd es)) (atoms cs) ∧
    applicable (λ _, true) (λ _, false) 0 (zip ranges (map snd es)) (atoms cs) ∧
    Patch.relates 0 0 patch (encode (text_of true (atoms cs))) (encode v).
Proof.
  intros Hs Hr Hts Htp Hfr Hsm Hn Hed. inversion Hn as [|? [[start stop_] u] ? es' [Er [Hnr Hu]] Hns]; subst.
  destruct raw as [r text]. cbn [fst snd] in Er. subst r. unfold apply_edit_internal.
  pose proof (edited_start _ _ _ _ _ _ _ Hed) as [Hss _]. pose proof (inserted_len_nonneg (((start, stop_), u) :: es')).
  destruct (start_edit_ok timestamp shown visible_pos visible_pos_dim visible_target Right visible_target_dim visible_target_clear
    (inserted_len (((start, stop_), u) :: es')) start s cs Hs Hr) as (st & mid & rest & E1 & -> & [Hj _] & Hw); [done|lia..|].
  rewrite E1. cbn [mbind option_bind].
  assert (fragment_start st = str_len (text_of true (atoms mid))) as Ef
    by (rewrite (w_start _ _ _ _ _ _ _ _ Hw); unfold here; by rewrite behind_start, shown_text).
  assert (str_len (text_of true (atoms mid)) ≤ start) as Hle.
  { destruct Hj as [->|Hj]; [cbn; lia|]. cbn [app] in Hj. rewrite shown_text in Hj. unfold skips in Hj.
    destruct (Z.compare_spec start (str_len (text_of true (atoms mid)))); (lia || done). }
  rewrite atoms_app, text_of_app in Hed. destruct (edited_drop _ _ _ _ _ _ _ _ Hed) as (v' & -> & Hed'); [lia|].
  rewrite Z.add_0_l, <- Ef, <- ahead_start in Hed'.
  assert (SumTree.contents (fragments s) = frags (mid ++ rest)) as Htree by apply (s_fragments _ _ Hs).
  destruct (local_edits_ok timestamp Hts Htp replace_all (fragments s) _ _ Hn _ st (kept mid) mid [] rest v' Hw)
    as (st2 & k & bf2 & t2 & rest2 & ranges & E2 & Hl & Hw2 & Eo & Hd & Ht & Hhd & Happ); [done..|].
  rewrite E2. cbn [mbind option_bind]. rewrite behind_start, ahead_start in Happ.
  assert (applicable (λ _, true) (λ _, false) 0 (zip ranges (map snd (((start, stop_), u) :: es'))) (atoms (mid ++ rest))) as Happ0.
  { destruct ranges as [|[fs fe] ranges]; [done|]. rewrite atoms_app. apply applicable_skip; [left; split; [apply shortest_all|]|exact Happ].
    specialize (Hhd (fs, fe) eq_refl). rewrite behind_start in Hhd. cbn [fst] in Hhd. unfold all_len in Hhd. lia. }
  assert (doc (kept mid ++ k) ++ ahead t2 rest2 = apply_full timestamp 0 0 (zip ranges (map snd (((start, stop_), u) :: es'))) (atoms (mid ++ rest))) as Ed.
  { rewrite doc_app, doc_kept, <- app_assoc, Hd, with_tag_kept, behind_start, ahead_start, atoms_app by done.
    destruct ranges as [|[fs fe] ranges]; [done|]. cbn [zip map snd]. unfold apply_full. rewrite apply_edits_skip; [done|]. left.
    split; [apply shortest_all|]. specialize (Hhd (fs, fe) eq_refl). rewrite behind_start in Hhd. cbn [fst] in Hhd. unfold all_len in Hhd. lia. }
  destruct (applied_nodup (λ _, true) (λ _, false) (mark_shown timestamp) timestamp 0 0
    (zip ranges (map snd (((start, stop_), u) :: es'))) (atoms (mid ++ rest)) (mark_key timestamp) (s_keys _ _ Hs) Hfr) as [Hnd Hin].
  unfold apply_full in Ed. rewrite <- Ed in Hnd, Hin. rewrite <- Eo in Hs, Hr, Hin, Hfr.
  destruct (finish_edit_ok timestamp shown visible_pos visible_pos_dim _ st2 _ bf2 t2 rest2 s Hw2 Hs Hr Hnd Hin Hfr)
    as (s' & k' & E3 & He & Hd3 & _ & Hp). rewrite E3. cbn [mbind option_bind].
  rewrite Eo in *. eexists s', ranges, _, _. split_and!; [done|done| |done| |done|].
  - by rewrite Hd3, doc_app, doc_kept, <- app_assoc, text_of_app, Ht.
  - by rewrite Hd3, Ed.
  - rewrite Hd3, doc_app, doc_kept, <- app_assoc, text_of_app, Ht in Hp. done.
Qed.
(** C12: A local edit. Given a snapshot of the document [cs], edits of its visible
    text (ranges in order, at boundaries of characters, with the texts that the
    regular expression leaves), and a new timestamp: [apply_edit_internal] does
    not panic and its loops end; the visible text is the edited one, the patch
    relates the two texts, and all the trees of the new snapshot index the new
    document, in which nothing was lost. The operation that is returned says what
    happened: its ranges, which count deleted text, applied to the old document
    give the new one. *)
Theorem local_edit_correct replace_all timestamp s cs raw raws es v :
  snapshot_of s cs → roomy s cs → Lamport.ok timestamp → 0 < Lamport.value timestamp →
  Forall (λ a, a_timestamp a ≠ timestamp) (atoms cs) → all_len (atoms cs) + inserted_len es < 2 ^ 32 →
  Forall2 (normalized replace_all) (raw :: raws) es → edited_text 0 es (text_of true (atoms cs)) v →
  ∃ s' ranges patch out,
    apply_edit_internal replace_all s (raw :: raws) timestamp
      = Some (s', mk_edit_op timestamp (version s) ranges (map (λ e, encode e.2) es), patch) ∧
    edited timestamp s s' cs out ∧ text_of true (doc out) = v ∧ length ranges = length es ∧
    doc out = apply_full timestamp 0 0 (zip ranges (map snd es)) (atoms cs) ∧
    Patch.relates 0 0 patch (encode (text_of true (atoms cs))) (encode v).
Proof.
  intros Hs Hr Hts Htp Hfr Hlen Hn Hed. destruct (local_edit_runs replace_all timestamp s cs raw raws es v) as (s' & ranges & patch & out & ? & ? & ? & ? & ? & _ & ?); [done..|].
  by exists s', ranges, patch, out.
Qed.
Lemma local_edit_correct_witness : ∃ s s' op patch out, sample = Some s ∧
  apply_edit_internal (λ _, None) s [((1, 2), [120])] (Lamport.mk 2 (ReplicaId.mk 1)) = Some (s', op, patch) ∧
  snapshot_of s' (cells out) ∧ text_of true (doc out) = [97; 120; 99].
Proof.
  destruct sample_snapshot_ok as (s & E & Hs & _). exists s.
  destruct (local_edit_correct (λ _, None) (Lamport.mk 2 (ReplicaId.mk 1)) s _ ((1, 2), [120]) [] [((1, 2), [120])] [97; 120; 99] Hs)
    as (s' & ranges & patch & out & E' & He & Ht & _).
  - apply low_roomy; [done|]. clear Hs. vm_compute in E. injection E as <-. by vm_compute.
  - done.
  - done.
  - by repeat constructor.
  - by vm_compute.
  - constructor; [|constructor]. split_and!; [done|done|by repeat constructor].
  - rewrite (proj1 (base_text _)). apply (edited_cons 0 1 2 [120] [] [97] [98] [99] [99]); [done|done|constructor].
  - eexists s', _, patch, out. split_and!; [done|exact E'|apply (e_snapshot _ _ _ _ _ He)|done].
Defined.
