(* ===== verification/RemoteEdit.v ===== *)
(** A remote edit ([Buffer::apply_remote_edit]): at a replica that has seen other
    edits in the meantime, it does what the operation asks for on the characters
    that its author had seen. *)
From S2P Require Import Prelude Clock Locator Patch SumTree TreeFind Cursor TreeWeight ParTree Iter Keyed TreeMap UndoMap.
From S2P Require Import Utf8 Rope History Fragments Buffer FragmentLaws Builders Cells EditMachine Snapshot Script Origin.
Import Buffer.
#[local] Existing Instances UndoMap.UndoMapKey_summary UndoMap.UndoMapEntry_item UndoMap.UndoMapEntry_laws UndoMap.UndoMapEntry_keyed.
Implicit Types (out : list written) (c : cell) (bf rest cs : list cell) (f : Fragment.t) (t m q u : str).

Section remote.
Variables version : Global.t.
Hypothesis version_ok : Global.wf version.
#[local] Hint Extern 0 (Dimension VersionedFullOffset FragmentSummary) =>
  exact (Buffer.versioned_offset_dimension version) : typeclass_instances.
#[local] Instance remote_measured : Measured (VersionedFullOffset * Z) Fragment.t FragmentSummary := versioned_measured version.
#[local] Instance remote_positions : Positions (VersionedFullOffset * Z) Fragment.t FragmentSummary := versioned_positions version version_ok.
Abbreviation D := (VersionedFullOffset * Z)%type.

(** ** Positions among what the version had seen *)
Definition seen : Lamport.t → bool → bool := λ ts _, Global.observed version ts.
Lemma versioned_pos_dim (l : list Fragment.t) :
  0 ≤ total (counted_len seen) l < 2 ^ 64 → versioned_pos (dim D l) = Some (total (counted_len seen) l).
Proof. intros H. change (Some (wrap64 (total (counted_len seen) l)) = Some (total (counted_len seen) l)). by rewrite wrap64_small. Qed.
Definition range_target (x : Z) (d : D) : comparison := versioned_target x d.1.
Lemma range_target_dim x (l : list Fragment.t) :
  0 ≤ total (counted_len seen) l < 2 ^ 64 → range_target x (dim D l) = Z.compare x (total (counted_len seen) l).
Proof. intros H. change (Z.compare x (wrap64 (total (counted_len seen) l)) = Z.compare x (total (counted_len seen) l)). by rewrite wrap64_small. Qed.
Lemma range_target_clear x (d : D) : vague d → skips (range_target x d) Left = false.
Proof. destruct d as [d n]. change (d = Invalid → skips (versioned_target x d) Left = false). by intros ->. Qed.

(** ** Visibility at the version *)
Section undos.
Variables (undos : UndoMap.UndoMap) (entries : list UndoMap.UndoMapEntry).
Hypothesis undos_fit : Keyed.fits undos entries.
Definition undone_at (ts : Lamport.t) : bool :=
  Z.odd (UndoMap.undos (λ e, Global.observed version (UndoMap.undo_id (UndoMap.entry_key e))) ts entries).
Definition was_shown (ts : Lamport.t) (deletions : list Lamport.t) : bool :=
  Global.observed version ts && negb (undone_at ts) && forallb (λ d, negb (Global.observed version d) || undone_at d) deletions.
Lemma was_undone_ok ts : Lamport.ok ts → UndoMap.was_undone (undo_fuel undos) undos ts version = Some (undone_at ts).
Proof.
  intros Hts. unfold UndoMap.was_undone, undo_fuel. pose proof undos_fit as (_ & _ & -> & _).
  destruct (UndoMap.count_from (λ e, Global.observed version (UndoMap.undo_id (UndoMap.entry_key e))) undos entries ts
    (S (length entries)) undos_fit Hts) as (cur & hit & -> & E); [lia|]. cbn [mbind option_bind]. rewrite E. cbn [mbind option_bind].
  unfold undone_at. f_equal. set (n := UndoMap.undos _ _ _). assert (0 ≤ n) as Hn by apply UndoMap.undos_nonneg.
  rewrite Z.rem_mod_nonneg, Zmod_odd by lia. by destruct (Z.odd n).
Qed.
Lemma was_visible_ok f : fragment_ok f → was_visible f version undos = Some (was_shown (Fragment.timestamp f) (Fragment.deletions f)).
Proof.
  intros []. unfold was_visible, was_shown. destruct (Global.observed version (Fragment.timestamp f)); [|done].
  rewrite was_undone_ok by done. cbn [mbind option_bind andb]. destruct (undone_at (Fragment.timestamp f)); [done|]. cbn [negb andb].
  clear -ok_deletions undos_fit. induction ok_deletions as [|d l Hd _ IH]; [done|]. cbn [all_deletions forallb].
  destruct (Global.observed version d); cbn [negb orb]; [|done]. rewrite was_undone_ok by done. cbn [mbind option_bind]. by destruct (undone_at d).
Qed.
End undos.

(** ** To the start of a range *)
Variable timestamp : Lamport.t.
Hypothesis timestamp_ok : Lamport.ok timestamp.
Hypothesis timestamp_pos : 0 < Lamport.value timestamp.
Abbreviation state := (edit_state D).
Abbreviation walk := (walk (D := D) timestamp seen).
Abbreviation measured := (measured_len (a_counted seen)).
(** Characters that are behind an insertion at the same place. *)
Definition newer (a : atom) : bool := is_gt (Lamport.cmp (a_timestamp a) timestamp).
(** The author of the edit had seen only older ones. *)
Definition causal c : Prop :=
  Global.observed version (Fragment.timestamp (frag c)) = true → Lamport.cmp (Fragment.timestamp (frag c)) timestamp = Lt.
(** Some of the current fragment is ahead. *)
Definition partial t rest : Prop := match rest with c :: _ => t ≠ chars c | [] => True end.
Lemma partial_start rest : Forall cell_ok rest → partial [] rest.
Proof. intros H. destruct rest as [|c rest]; [done|]. apply Forall_cons in H as [H _]. cbn. intros E. by apply (c_some _ H). Qed.
Lemma sim_rest_ok extra (st : state) out bf t rest : sim timestamp extra st out bf t rest → Forall cell_ok rest.
Proof. intros H. pose proof (m_old _ _ _ _ _ _ _ H) as Ho. by apply Forall_app in Ho as [_ ?]. Qed.

(** [x] and [sk] were walked over and taken over as they were. *)
Definition moved_over out out' (l l' x sk : list atom) : Prop :=
  ∃ k, out' = out ++ k ∧ l = x ++ sk ++ l' ∧ doc k = x ++ sk ∧ Forall (λ w, w_tag w ≠ Inserted) k.

Lemma pass_boundary_ok extra (st : state) out bf t rest x :
  walk extra st out bf t rest → partial t rest → fragment_start st ≤ x →
  ∃ st' bf' t' rest' out' y, pass_boundary version x st = Some st' ∧ walk extra st' out' bf' t' rest' ∧ partial t' rest' ∧
    bf' ++ rest' = bf ++ rest ∧ moved_over out out' (ahead t rest) (ahead t' rest') y [] ∧ shortest (a_counted seen) y ∧
    (x = stop seen bf rest ∧ fragment_start st < x ∧ fragment_start st' = x ∨
     st' = st ∧ out' = out ∧ bf' = bf ∧ t' = t ∧ rest' = rest ∧ y = [] ∧ (x = fragment_start st ∨ x ≠ stop seen bf rest)).
Proof.
  intros H Hp Hx. pose proof (w_sim _ _ _ _ _ _ _ _ H) as Hs. unfold pass_boundary.
  rewrite (fragment_end_ok timestamp seen _ versioned_pos_dim _ _ _ _ _ _ Hs). cbn [mbind option_bind].
  destruct (Z.eqb_spec (stop seen bf rest) x) as [Ex|Ex], (Z.ltb_spec (fragment_start st) (stop seen bf rest)) as [Hl|Hl]; cbn [andb].
  2-4: exists st, bf, t, rest, out, []; split_and!; [done|done|done|done|exists []; by rewrite app_nil_r|by left|];
    right; split_and!; try done; (left; lia) || by right.
  destruct (walk_head timestamp seen _ _ _ _ _ _ x H) as (c & rest' & -> & Hc); [lia|].
  destruct (m_prefix _ _ _ _ _ _ _ Hs) as [q Eq]. assert (q ≠ []) as Hq by (intros ->; rewrite app_nil_r in Eq; by apply Hp).
  rewrite (walk_stop timestamp seen _ _ _ _ _ _ _ _ H Eq Hc) in *.
  destruct (consume_ok timestamp seen _ versioned_pos_dim _ _ _ _ _ _ _ _ H Eq Hq) as (st1 & st2 & E1 & E2 & H2). cbn zeta in H2.
  destruct H2 as (H2 & Hi & Ea & Hf). rewrite E1. cbn [mbind option_bind]. rewrite E2. cbn [mbind option_bind].
  rewrite (start_ok timestamp seen _ versioned_pos_dim _ _ _ _ _ _ H2). cbn [mbind option_bind].
  assert (measured (atoms (bf ++ [c])) = x) as Em.
  { pose proof (walk_stop timestamp seen _ _ _ _ _ _ _ _ H Eq Hc) as Hst. unfold stop in Hst. lia. }
  eexists _, (bf ++ [c]), [], rest', _, (doc [mk_written Moved (cut c t q (frag c))]). split; [done|]. split_and!.
  - split; [by destruct H2|cbn; unfold here; by rewrite behind_start|by left|exact Hi].
  - eapply partial_start, sim_rest_ok, H2.
  - by rewrite <- app_assoc.
  - exists [mk_written Moved (cut c t q (frag c))]. rewrite ahead_start. split_and!; [done|by rewrite Ea|by rewrite app_nil_r|by repeat constructor].
  - rewrite doc_one, atoms_cut'. by apply shortest_atoms.
  - left. split_and!; [done|lia|]. cbn. lia.
Qed.

Lemma skip_loop_ok extra x : ∀ rest (st : state) out bf t fuel,
  walk extra st out bf t rest → partial t rest → Forall causal rest → (length rest < fuel)%nat →
  ∃ st' bf' t' rest' out' sk, iterate (skip_step version timestamp x) fuel st = Some st' ∧ walk extra st' out' bf' t' rest' ∧ partial t' rest' ∧
    bf' ++ rest' = bf ++ rest ∧ moved_over out out' (ahead t rest) (ahead t' rest') [] sk ∧ fragment_start st' = fragment_start st ∧
    Forall (λ a, newer a = true) sk ∧
    if fragment_start st =? x then ∀ a l, ahead t' rest' = a :: l → newer a = false
    else st' = st ∧ sk = [] ∧ out' = out ∧ bf' = bf ∧ t' = t ∧ rest' = rest.
Proof.
  intros rest. induction rest as [|c rest IH]; intros st out bf t [|fuel] H Hp Hc Hf; cbn [length] in Hf; try lia;
    pose proof (w_sim _ _ _ _ _ _ _ _ H) as Hs; cbn [iterate]; unfold skip_step at 1; rewrite (sim_item timestamp _ _ _ _ _ _ Hs);
    cbn [mbind option_bind head frags map].
  { exists st, bf, t, [], out, []. split_and!; try done; [exists []; by rewrite app_nil_r|]. by destruct (_ =? _). }
  apply Forall_cons in Hc as [Hcc Hc].
  destruct (Z.eqb_spec (fragment_start st) x) as [Ex|Ex]; cbn [andb].
  2: { exists st, bf, t, (c :: rest), out, []. split_and!; try done. exists []. by rewrite app_nil_r. }
  destruct (is_gt _) eqn:Eg.
  - assert (Global.observed version (Fragment.timestamp (frag c)) = false) as Ho.
    { destruct (Global.observed _ _) eqn:Eo; [|done]. rewrite (Hcc Eo) in Eg. done. }
    destruct (w_counted _ _ _ _ _ _ _ _ H) as [->|(? & ? & [= <- <-] & Hcs)]; [|unfold counted, seen in Hcs; congruence].
    destruct (pass_ok timestamp seen extra st st out bf c rest Kept H Ho) as (st2 & E2 & Hst2); [by left|apply keep_logs|].
    rewrite E2. cbn [mbind option_bind]. destruct (Hst2 st2) as (st3 & E3 & H3 & Hf3); [by left|]. rewrite E3. cbn [mbind option_bind].
    destruct (IH st3 _ _ _ fuel H3) as (st' & bf' & t' & rest' & out' & sk & E' & H' & Hp' & Eo' & (k & -> & Ea & Hd & Hk) & Hf' & Hsk & Hend);
      [eapply partial_start, sim_rest_ok, (w_sim _ _ _ _ _ _ _ _ H3)|done|lia|].
    eexists st', bf', t', rest', _, (atoms_of c ++ sk). split_and!; [done|exact H'|done|by rewrite Eo', <- app_assoc| |by rewrite Hf'| |].
    + exists ([mk_written Kept c] ++ k). cbn [app] in Ea, Hd |- *. split_and!; [by rewrite <- app_assoc| | |by constructor].
      * by rewrite <- app_assoc, <- Ea, !ahead_start.
      * change (mk_written Kept c :: k) with ([mk_written Kept c] ++ k). by rewrite doc_app, doc_one, Hd.
    + apply Forall_app. split; [|done]. apply atoms_from_forall. intros o ch. exact Eg.
    + rewrite Hf3, Ex, Z.eqb_refl in Hend. done.
  - exists st, bf, t, (c :: rest), out, []. split_and!; try done; [exists []; by rewrite app_nil_r|].
    destruct (m_prefix _ _ _ _ _ _ _ Hs) as [q Eq]. destruct q as [|ch q]; [rewrite app_nil_r in Eq; by destruct Hp|].
    intros a l El. cbn [ahead] in El. rewrite Eq, drop_app_length in El. injection El as <- _. exact Eg.
Qed.
Lemma moved_over_refl out l : moved_over out out l l [] [].
Proof. exists []. by rewrite app_nil_r. Qed.
(** All of it: what is walked over is as short as possible, then what is newer. *)
Lemma to_range_ok extra (st : state) out bf t rest x la l2 fuel :
  walk extra st out bf t rest → partial t rest → Forall causal (bf ++ rest) → fragment_start st ≤ x →
  ahead t rest = la ++ l2 → measured la = x - fragment_start st → (length (bf ++ rest) < fuel)%nat →
  ∃ st' bf' t' rest' out' y sk,
    (st ← jump_ahead versioned_pos (λ d, versioned_target x d.1) Left x st;
     st ← pass_boundary version x st;
     st ← iterate (skip_step version timestamp x) fuel st;
     push_prefix versioned_pos x st) = Some st' ∧
    walk extra st' out' bf' t' rest' ∧ partial t' rest' ∧ fragment_start st' = x ∧ bf' ++ rest' = bf ++ rest ∧
    moved_over out out' (ahead t rest) (ahead t' rest') y sk ∧ shortest (a_counted seen) y ∧ measured y = x - fragment_start st ∧
    Forall (λ a, newer a = true) sk ∧ (∀ a l, ahead t' rest' = a :: l → newer a = false).
Proof.
  intros H Hp Hc Hx Ela Hma Hf. change (λ d : D, versioned_target x d.1) with (range_target x).
  destruct (jump_ahead_ok timestamp seen versioned_pos versioned_pos_dim range_target Left range_target_dim range_target_clear
    extra x st out bf t rest H Hx) as (st1 & k1 & bf1 & t1 & rest1 & E1 & H1 & Eo1 & Ea1 & Hk1 & Hj).
  rewrite E1. cbn [mbind option_bind].
  pose proof (walk_progress timestamp seen _ _ _ _ _ _ _ _ _ _ _ _ _ H H1 Eo1 Ea1) as Eb1.
  assert (fragment_start st1 = fragment_start st + measured (doc k1)) as Ef1.
  { rewrite (w_start _ _ _ _ _ _ _ _ H1), (w_start _ _ _ _ _ _ _ _ H). unfold here. by rewrite Eb1, measured_app. }
  assert (fragment_start st1 ≤ x ∧ (k1 = [] ∨ fragment_start st1 < x) ∧ partial t1 rest1 ∧ x ≤ stop seen bf1 rest1) as (Hle & Hk & Hp1 & Hstop).
  { destruct Hj as [(-> & -> & Hj & -> & -> & ->)|(-> & Hsk & Hend)]; [by split_and!; [| left|..]|].
    assert (fragment_start st1 < x) as Hlt by (unfold skips in Hsk; destruct (Z.compare_spec x (fragment_start st1)); (lia || done)).
    split_and!; [lia|by right|eapply partial_start, sim_rest_ok, (w_sim _ _ _ _ _ _ _ _ H1)|].
    destruct Hend as [->|Hend].
    - exfalso. rewrite Ea1 in Ela. cbn [ahead] in Ela. rewrite app_nil_r in Ela.
      assert (measured la ≤ measured (doc k1)) by (rewrite Ela, measured_app; pose proof (measured_nonneg (a_counted seen) l2); lia). lia.
    - unfold skips in Hend. destruct (Z.compare_spec x (stop seen bf1 rest1)); (lia || done). }
  rewrite Ea1 in Ela. destruct (measured_cut (a_counted seen) _ _ _ _ Ela) as (lb & l3 & Elb & Hmb); [by rewrite Hma; lia|].
  destruct (pass_boundary_ok extra st1 (out ++ k1) bf1 t1 rest1 x H1 Hp1 Hle)
    as (st2 & bf2 & t2 & rest2 & out2 & y2 & E2 & H2 & Hp2 & Eo2 & Hm2 & Hs2 & Hcase). rewrite E2. cbn [mbind option_bind].
  assert (Forall causal rest2 ∧ (length rest2 < fuel)%nat) as [Hc2 Hf2].
  { rewrite <- Eo1, <- Eo2 in Hc, Hf. rewrite length_app in Hf. apply Forall_app in Hc as [_ ?]. split; [done|lia]. }
  destruct (skip_loop_ok extra x rest2 st2 out2 bf2 t2 fuel H2 Hp2 Hc2 Hf2)
    as (st3 & bf3 & t3 & rest3 & out3 & sk & E3 & H3 & Hp3 & Eo3 & Hm3 & Ef3 & Hsk & Hend). rewrite E3. cbn [mbind option_bind].
  assert (moved_over out out3 (ahead t rest) (ahead t3 rest3) (doc k1 ++ y2) sk) as Hm.
  { destruct Hm2 as (j2 & -> & Ea2 & Hd2 & Hj2), Hm3 as (j3 & -> & Ea3 & Hd3 & Hj3).
    exists (k1 ++ j2 ++ j3). cbn [app] in *. rewrite !doc_app, Hd2, Hd3, !app_assoc. split_and!; [done| |by rewrite app_nil_r|].
    - rewrite Ea1, Ea2, Ea3. by rewrite <- !app_assoc.
    - apply Forall_app. split; [|done]. apply Forall_app. split; [by apply unchanged_not_inserted|done]. }
  destruct (Z.eqb_spec (fragment_start st2) x) as [Ex|Ex].
  - (* nothing is left to do for the prefix *)
    exists st3, bf3, t3, rest3, out3, (doc k1 ++ y2), sk. split_and!; try done.
    + unfold push_prefix. by rewrite Ef3, Ex, Z.ltb_irrefl.
    + by rewrite Ef3.
    + by rewrite Eo3, Eo2.
    + destruct Hcase as [(Hst & Hlt & _)|(-> & -> & -> & -> & -> & -> & Hcase)].
      * destruct Hs2 as [->|(y' & a & -> & Ha)]; [|right; exists (doc k1 ++ y'), a; by rewrite app_assoc]. exfalso.
        pose proof (walk_progress timestamp seen _ _ _ _ _ _ _ _ _ _ _ _ [] H1 H2 Eo2) as Eb2. destruct Hm2 as (j2 & _ & Ea2 & _).
        specialize (Eb2 Ea2). rewrite app_nil_r in Eb2. rewrite (w_start _ _ _ _ _ _ _ _ H1), (w_start _ _ _ _ _ _ _ _ H2) in *.
        unfold here in *. rewrite Eb2 in *. lia.
      * rewrite app_nil_r. destruct Hk as [->|Hk]; [by left|lia].
    + pose proof (walk_progress timestamp seen _ _ _ _ _ _ _ _ _ _ _ _ y2 H1 H2 Eo2) as Eb2. destruct Hm2 as (j2 & _ & Ea2 & _).
      rewrite measured_app. specialize (Eb2 Ea2). rewrite (w_start _ _ _ _ _ _ _ _ H2) in Ex. rewrite (w_start _ _ _ _ _ _ _ _ H1) in Ef1.
      unfold here in *. rewrite Eb2, measured_app in Ex. lia.
  - destruct Hcase as [(_ & _ & Hst)|(-> & -> & -> & -> & -> & -> & Hcase)]; [lia|].
    destruct Hend as (-> & -> & -> & -> & -> & ->). destruct Hcase as [Hcase|Hcase]; [lia|].
    destruct (push_prefix_ok timestamp seen versioned_pos versioned_pos_dim extra x st1 (out ++ k1) bf1 t1 rest1 lb l3 H1)
      as (st4 & k4 & t4 & E4 & H4 & Ef4 & Ea4 & Hs4 & Hk4); [lia|done|lia|].
    pose proof (walk_progress timestamp seen _ _ _ _ _ _ _ _ _ _ _ _ _ H1 H4 eq_refl Ea4) as Eb4.
    assert (measured (doc k4) = x - fragment_start st1) as Em4.
    { rewrite <- Ef4, (w_start _ _ _ _ _ _ _ _ H4), (w_start _ _ _ _ _ _ _ _ H1). unfold here. rewrite Eb4, measured_app. lia. }
    assert (partial t4 rest1) as Hp4.
    { destruct rest1 as [|c rest1]; [done|]. cbn. intros ->. rewrite (w_start _ _ _ _ _ _ _ _ H4) in Ef4. unfold here in Ef4.
      rewrite behind_done in Ef4. unfold stop in *. lia. }
    exists st4, bf1, t4, rest1, ((out ++ k1) ++ k4), (doc k1 ++ doc k4), []. split_and!; try done.
    + exists (k1 ++ k4). rewrite <- app_assoc, app_nil_r, doc_app. split_and!; [done|by rewrite Ea1, Ea4, <- app_assoc|done|].
      apply Forall_app. by split; apply unchanged_not_inserted.
    + destruct Hs4 as [E|(y' & a & -> & Ha)]; [rewrite E in Em4; change (measured []) with 0 in Em4; lia|].
      right. exists (doc k1 ++ y'), a. by rewrite app_assoc.
    + rewrite measured_app. lia.
    + intros a l El. destruct rest1 as [|c rest1]; [done|]. destruct (m_prefix _ _ _ _ _ _ _ (w_sim _ _ _ _ _ _ _ _ H4)) as [q Eq].
      destruct q as [|ch q]; [rewrite app_nil_r in Eq; by destruct Hp4|]. cbn [ahead] in El. rewrite Eq, drop_app_length in El. injection El as <- _.
      unfold newer. cbn [a_timestamp]. destruct (walk_head timestamp seen _ _ _ _ _ _ x H1) as (c' & ? & [= <- <-] & Hcc); [lia|].
      rewrite <- Eo1 in Hc. apply Forall_app in Hc as [_ [Hcau _]%Forall_cons]. by rewrite (Hcau Hcc).
Qed.

(** ** Places in the visible text *)
Lemma visible_start_ok extra (st : state) out bf t rest :
  walk extra st out bf t rest → (Cursor.start (old_fragments st)).2 = str_len (text_of true (atoms bf)).
Proof.
  intros H. pose proof (w_sim _ _ _ _ _ _ _ _ H) as Hs. rewrite (sim_start timestamp _ _ _ _ _ _ Hs).
  change ((dim D (frags bf)).2) with (wrap64 (total visible_len (frags bf))).
  assert (Forall cell_ok bf) as Hb by by apply (Forall_app _ bf rest), (m_old _ _ _ _ _ _ _ Hs).
  rewrite visible_cells by done. apply wrap64_small. pose proof (m_small_old _ _ _ _ _ _ _ Hs) as Hso. apply small_app in Hso.
  pose proof (text_of_le true (atoms bf)). pose proof (str_len_nonneg (text_of true (atoms bf))). lia.
Qed.
Lemma behind_visible bf t c rest :
  str_len (text_of true (behind bf t (c :: rest)))
  = str_len (text_of true (atoms bf)) + (if Fragment.visible (frag c) then str_len t else 0).
Proof. unfold behind. rewrite text_of_app, str_len_app, atoms_from_text. by destruct (Fragment.visible (frag c)). Qed.
Lemma behind_small extra (st : state) out bf t rest :
  walk extra st out bf t rest → 0 ≤ str_len (text_of true (behind bf t rest)) < 2 ^ 32.
Proof.
  intros H. pose proof (m_small_old _ _ _ _ _ _ _ (w_sim _ _ _ _ _ _ _ _ H)) as Hso.
  rewrite (behind_ahead bf t rest), all_len_app in Hso by apply (m_prefix _ _ _ _ _ _ _ (w_sim _ _ _ _ _ _ _ _ H)).
  pose proof (all_len_nonneg (ahead t rest)). pose proof (text_of_le true (behind bf t rest)).
  pose proof (str_len_nonneg (text_of true (behind bf t rest))). lia.
Qed.
Lemma old_start_eq extra (st : state) out bf t c rest :
  walk extra st out bf t (c :: rest) → Fragment.visible (frag c) = true →
  current_start versioned_pos st = Some (measured (atoms bf)) ∧
  (Cursor.start (old_fragments st)).2 +w64 (fragment_start st -w64 measured (atoms bf)) = str_len (text_of true (behind bf t (c :: rest))).
Proof.
  intros H Hv. pose proof (w_sim _ _ _ _ _ _ _ _ H) as Hs. split; [by apply (start_ok timestamp seen _ versioned_pos_dim _ _ _ _ _ _ Hs)|].
  rewrite (visible_start_ok _ _ _ _ _ _ H), (walk_offset timestamp seen _ _ _ _ _ _ _ H). pose proof (behind_small _ _ _ _ _ _ H) as Hb.
  rewrite behind_visible, Hv in *. pose proof (str_len_nonneg t). pose proof (str_len_nonneg (text_of true (atoms bf))).
  rewrite (wrap64_small (_ + _ - _)) by lia. rewrite wrap64_small by lia. lia.
Qed.
Lemma remote_old_start_ok extra (st : state) out bf t rest :
  walk extra st out bf t rest → remote_old_start st = Some (str_len (text_of true (behind bf t rest))).
Proof.
  intros H. pose proof (w_sim _ _ _ _ _ _ _ _ H) as Hs. unfold remote_old_start. rewrite (sim_item timestamp _ _ _ _ _ _ Hs).
  cbn [mbind option_bind]. destruct rest as [|c rest]; cbn [head frags map].
  - rewrite (visible_start_ok _ _ _ _ _ _ H). pose proof (m_prefix _ _ _ _ _ _ _ Hs) as ->. by rewrite behind_start.
  - destruct (Fragment.visible (frag c)) eqn:Hv.
    + destruct (old_start_eq _ _ _ _ _ _ _ H Hv) as [-> E]. cbn [mbind option_bind]. by rewrite E.
    + by rewrite (visible_start_ok _ _ _ _ _ _ H), behind_visible, Hv, Z.add_0_r.
Qed.

(** ** Deleting *)
Section delete.
Variables (undos : UndoMap.UndoMap) (entries : list UndoMap.UndoMapEntry).
Hypothesis undos_fit : Keyed.fits undos entries.
Definition mark_seen (a : atom) : atom := if was_shown entries (a_timestamp a) (a_deletions a) then kill timestamp a else a.
Lemma mark_seen_from f o s :
  map mark_seen (atoms_from f o s)
  = if was_shown entries (Fragment.timestamp f) (Fragment.deletions f) then map (kill timestamp) (atoms_from f o s) else atoms_from f o s.
Proof.
  revert o. induction s as [|c s IH]; intros o; cbn; [by destruct (was_shown _ _ _)|]. rewrite IH. unfold mark_seen. cbn.
  by destruct (was_shown _ _ _).
Qed.
(** One step over [m], text of a fragment that the author had seen. *)
Lemma delete_seen_ok extra (st : state) out bf t m q c rest stop_ :
  walk extra st out bf t (c :: rest) → chars c = t ++ m ++ q → m ≠ [] → Global.observed version (Fragment.timestamp (frag c)) = true →
  fragment_start st + str_len m ≤ stop_ → (q ≠ [] → stop_ = fragment_start st + str_len m) →
  ∃ st' w, remote_delete_step version undos timestamp stop_ st
      = (st'' ← (if bool_decide (q = []) then advance st' else Some st'); Some (inl st'')) ∧
    walk extra st' (out ++ [w]) bf (t ++ m) (c :: rest) ∧ fragment_start st' = fragment_start st + str_len m ∧
    w_tag w ≠ Inserted ∧ doc [w] = map mark_seen (atoms_from (frag c) (Fragment.insertion_offset (frag c) + str_len t) m).
Proof.
  intros H E Hm Hv Hle Hq. pose proof (w_sim _ _ _ _ _ _ _ _ H) as Hs. unfold remote_delete_step.
  assert (0 < str_len m) as Hpos.
  { destruct m as [|x m]; [done|]. cbn. pose proof (len_utf8_bounds x). pose proof (str_len_nonneg m). lia. }
  assert (0 < str_len q ∨ q = []) as Hqpos.
  { destruct q as [|x q']; [by right|left]. cbn. pose proof (len_utf8_bounds x). pose proof (str_len_nonneg q'). lia. }
  rewrite (proj2 (Z.ltb_lt _ _)) by lia. rewrite (sim_current _ _ _ _ _ _ _ _ Hs). cbn [mbind option_bind].
  rewrite (fragment_end_ok timestamp seen _ versioned_pos_dim _ _ _ _ _ _ Hs). cbn [mbind option_bind].
  rewrite (walk_stop timestamp seen _ _ _ _ _ _ _ _ H E Hv), str_len_app.
  assert (Z.min stop_ (fragment_start st + (str_len m + str_len q)) = fragment_start st + str_len m) as ->.
  { destruct Hqpos as [Hp| ->]; [|cbn; lia]. rewrite Hq by (by intros ->). lia. }
  assert (∀ st', (if fragment_start st + (str_len m + str_len q) <=? stop_ then advance (D := D) st' else Some st')
                 = (if bool_decide (q = []) then advance st' else Some st')) as Eadv.
  { intros st'. destruct Hqpos as [Hp| ->].
    - rewrite bool_decide_eq_false_2 by (by intros ->). rewrite (proj2 (Z.leb_gt _ _)); [done|]. rewrite Hq by (by intros ->). lia.
    - rewrite bool_decide_eq_true_2 by done. by rewrite (proj2 (Z.leb_le _ _)) by (cbn; lia). }
  rewrite Hv, (part_ok timestamp seen _ versioned_pos_dim _ _ _ _ _ _ _ _ _ H E). cbn [mbind option_bind].
  change (Fragment.set_range _ _ (frag c)) with (frag (cut c t m (frag c))).
  change (Fragment.id (frag (cut c t m (frag c)))) with (Fragment.id (frag c)).
  pose proof (sim_cell timestamp _ _ _ _ _ _ _ Hs) as Hok.
  rewrite (was_visible_ok undos entries undos_fit (frag c)) by apply Hok. cbn [mbind option_bind].
  set (i := Locator.between _ _). pose proof (behind_small _ _ _ _ _ _ H) as Hbs.
  destruct (was_shown _ _ _) eqn:Ews; cbn [mbind option_bind].
  - set (f := Fragment.set_visible false (Fragment.push_deletion timestamp (Fragment.set_id i (frag (cut c t m (frag c)))))).
    change (Fragment.len f) with (str_len m). change (Fragment.visible f) with false. rewrite (proj2 (Z.ltb_lt _ _)) by done.
    set (old := str_len (text_of true (behind bf t (c :: rest)))).
    set (st1 := if Fragment.visible (frag c) then push_edit (Edit.mk old (old + str_len m) (new_start st) (new_start st)) (push_slice (from_fragment timestamp f) st)
                else push_slice (from_fragment timestamp f) st).
    destruct (emit_ok timestamp seen timestamp_ok _ st st1 out bf t m q c rest Deleted f old H E Hm Hv) as (st2 & E2 & H2); try done.
    + by right.
    + unfold st1. destruct (Fragment.visible (frag c)); by split.
    + exists (set_start (fragment_start st + str_len m) st2), (mk_written Deleted (mk_cell f m)). split_and!; [|done|done|done|].
      * rewrite <- Eadv. assert (∀ X, st1 = X → emit f (Fragment.visible (frag c)) X = Some st2) as Hem by by intros X <-.
        unfold st1 in Hem. destruct (Fragment.visible (frag c)) eqn:Hvis; cbn [andb negb].
        -- destruct (old_start_eq _ _ _ _ _ _ _ H Hvis) as [Ecs Eos]. change (current_start versioned_pos (push_slice _ st)) with (current_start versioned_pos st).
           rewrite Ecs. cbn [mbind option_bind]. change (Cursor.start (old_fragments (push_slice _ st))) with (Cursor.start (old_fragments st)).
           change (fragment_start (push_slice _ st)) with (fragment_start st). rewrite Eos. fold old.
           assert (old +w64 str_len m = old + str_len m) as ->.
           { apply wrap64_small. pose proof (m_small_old _ _ _ _ _ _ _ Hs) as Hso. pose proof (c_end _ Hok). pose proof (c_len _ Hok) as Hl.
             pose proof (ok_offset _ (c_fragment _ Hok)). rewrite E, !str_len_app in Hl. pose proof (str_len_nonneg t). pose proof (str_len_nonneg q). lia. }
           change (new_start (push_slice _ st)) with (new_start st). rewrite (Hem _ eq_refl). done.
        -- cbn [mbind option_bind]. by rewrite (Hem _ eq_refl).
      * rewrite doc_one, mark_seen_from, Ews. unfold atoms_of. cbn [frag chars]. unfold f. rewrite atoms_from_killed.
        f_equal. by apply atoms_from_same.
  - set (f := Fragment.set_id i (frag (cut c t m (frag c)))). change (Fragment.len f) with (str_len m).
    change (Fragment.visible f) with (Fragment.visible (frag c)). rewrite (proj2 (Z.ltb_lt _ _)) by done.
    rewrite andb_negb_r. cbn [mbind option_bind].
    destruct (emit_ok timestamp seen timestamp_ok _ st st out bf t m q c rest Moved f (str_len (text_of true (behind bf t (c :: rest)))) H E Hm Hv) as (st2 & E2 & H2); try done.
    + by left.
    + symmetry. apply app_nil_r.
    + exact (plain_logs timestamp st _ f).
    + rewrite E2. cbn [mbind option_bind]. exists (set_start (fragment_start st + str_len m) st2), (mk_written Moved (mk_cell f m)).
      split_and!; [by rewrite Eadv|done|done|done|]. rewrite doc_one, mark_seen_from, Ews. by apply atoms_from_same.
Qed.
(** A fragment that the author had not seen. *)
Lemma delete_unseen_ok extra (st : state) out bf c rest stop_ :
  walk extra st out bf [] (c :: rest) → Global.observed version (Fragment.timestamp (frag c)) = false → fragment_start st < stop_ →
  ∃ st', remote_delete_step version undos timestamp stop_ st = Some (inl st') ∧
    walk extra st' (out ++ [mk_written Moved c]) (bf ++ [c]) [] rest ∧ fragment_start st' = fragment_start st.
Proof.
  intros H Hv Hlt. pose proof (w_sim _ _ _ _ _ _ _ _ H) as Hs. unfold remote_delete_step.
  rewrite (proj2 (Z.ltb_lt _ _)) by lia. rewrite (sim_current _ _ _ _ _ _ _ _ Hs). cbn [mbind option_bind].
  rewrite (fragment_end_ok timestamp seen _ versioned_pos_dim _ _ _ _ _ _ Hs). cbn [mbind option_bind].
  pose proof (sim_cell timestamp _ _ _ _ _ _ _ Hs) as Hok.
  assert (stop seen bf (c :: rest) = fragment_start st) as ->.
  { rewrite (w_start _ _ _ _ _ _ _ _ H). unfold stop, here. rewrite behind_start, atoms_app, measured_app, atoms_one. unfold atoms_of.
    rewrite measured_from. unfold counted, seen. rewrite Hv. lia. }
  rewrite Z.min_r, Hv by lia. cbn [mbind option_bind]. rewrite (proj2 (Z.ltb_lt _ _)) by by apply cell_len_pos.
  rewrite andb_negb_r. cbn [mbind option_bind]. rewrite emit_def.
  destruct (pass_ok timestamp seen extra st (add_insertion (frag c) st) out bf c rest Moved H) as (st2 & E2 & Hst2); [done|by right|apply plain_logs|].
  rewrite E2. cbn [mbind option_bind].
  destruct (Hst2 (set_start (fragment_start st) st2)) as (st4 & E4 & H4 & Hf4); [by right|].
  rewrite (proj2 (Z.leb_le _ _)) by lia. rewrite E4. cbn [mbind option_bind]. by exists st4.
Qed.
(** What a run of the loop from [st] to [st'] did. *)
Definition deleted_over extra (st st' : state) out bf t rest stop_ : Prop :=
  ∃ k bf' t' rest' mid, walk extra st' (out ++ k) bf' t' rest' ∧ partial t' rest' ∧ fragment_start st' = stop_ ∧
    bf' ++ rest' = bf ++ rest ∧ ahead t rest = mid ++ ahead t' rest' ∧ doc k = map mark_seen mid ∧
    Forall (λ w, w_tag w ≠ Inserted) k ∧ shortest (a_counted seen) mid ∧ measured mid = stop_ - fragment_start st.
Lemma deleted_over_more extra (st st1 st' : state) out bf bf1 t t1 rest rest1 stop_ w (m : list atom) :
  deleted_over extra st1 st' (out ++ w) bf1 t1 rest1 stop_ → bf1 ++ rest1 = bf ++ rest → ahead t rest = m ++ ahead t1 rest1 →
  doc w = map mark_seen m → Forall (λ w, w_tag w ≠ Inserted) w → fragment_start st1 = fragment_start st + measured m →
  fragment_start st < stop_ → measured m = 0 ∨ shortest (a_counted seen) m → deleted_over extra st st' out bf t rest stop_.
Proof.
  intros (k & bf' & t' & rest' & mid & H & Hp & Hf & Eo & Ea & Hd & Hk & Hs & Hm) Eo1 Ea1 Hdw Hw Hf1 Hlt Hm0.
  exists (w ++ k), bf', t', rest', (m ++ mid). rewrite (app_assoc out), doc_app, map_app, Hdw, Hd, measured_app, Ea1, Ea, Eo, <- (app_assoc m).
  split_and!; try done; [by apply Forall_app| |lia].
  destruct Hs as [->|(x' & a & -> & Ha)]; [|right; exists (m ++ x'), a; by rewrite app_assoc].
  rewrite app_nil_r. destruct Hm0 as [Hm0|]; [|done]. change (measured []) with 0 in Hm. lia.
Qed.
Lemma delete_loop_seen_ok extra stop_ : ∀ rest st out bf t fuel x y,
  walk extra st out bf t rest → partial t rest → ahead t rest = x ++ y → measured x = stop_ - fragment_start st →
  (length rest + 2 ≤ fuel)%nat →
  ∃ st', iterate (remote_delete_step version undos timestamp stop_) fuel st = Some st' ∧ deleted_over extra st st' out bf t rest stop_.
Proof.
  assert (∀ st out bf t rest fuel, walk extra st out bf t rest → partial t rest → fragment_start st = stop_ → (0 < fuel)%nat →
    ∃ st', iterate (remote_delete_step version undos timestamp stop_) fuel st = Some st' ∧ deleted_over extra st st' out bf t rest stop_) as Hexit.
  { intros st out bf t rest [|fuel] H Hp E Hf; [lia|]. exists st. split; [cbn [iterate]; unfold remote_delete_step; by rewrite E, Z.ltb_irrefl|].
    exists [], bf, t, rest, []. rewrite app_nil_r. split_and!; try done; [by left|change (measured []) with 0; lia]. }
  intros rest. induction rest as [|c rest IH]; intros st out bf t fuel x y H Hp Ex Em Hf; cbn [length] in Hf.
  { assert (x = []) as -> by (cbn in Ex; by destruct x). apply Hexit; [done|done|change (measured []) with 0 in Em; lia|lia]. }
  pose proof (measured_nonneg (a_counted seen) x).
  destruct (decide (fragment_start st = stop_)) as [E|E]; [apply Hexit; [done..|lia]|]. destruct fuel as [|fuel]; [lia|]. cbn [iterate].
  assert (∀ st' w (m : list atom), walk extra st' (out ++ w) (bf ++ [c]) [] rest → ahead t (c :: rest) = m ++ ahead [] rest →
     measured m ≤ measured x → fragment_start st' = fragment_start st + measured m → doc w = map mark_seen m →
     Forall (λ w, w_tag w ≠ Inserted) w → measured m = 0 ∨ shortest (a_counted seen) m →
     ∃ st'', iterate (remote_delete_step version undos timestamp stop_) fuel st' = Some st'' ∧
       deleted_over extra st st'' out bf t (c :: rest) stop_) as Hnext.
  { intros st' w m H' Ea Hm Hfs Hd Hw Hm0. rewrite Ea in Ex. destruct (measured_cut (a_counted seen) _ _ _ _ Ex Hm) as (x' & y' & Ey & Em').
    destruct (IH st' (out ++ w) (bf ++ [c]) [] fuel x' y' H') as (st2 & E2 & H2);
      [eapply partial_start, sim_rest_ok, (w_sim _ _ _ _ _ _ _ _ H')|done|lia|lia|].
    exists st2. split; [done|]. eapply deleted_over_more; [exact H2|by rewrite <- app_assoc|done..|lia|done]. }
  destruct (m_prefix _ _ _ _ _ _ _ (w_sim _ _ _ _ _ _ _ _ H)) as [q Eq]. destruct (Global.observed version (Fragment.timestamp (frag c))) eqn:Hv.
  - assert (q ≠ []) as Hq by (intros ->; rewrite app_nil_r in Eq; by apply Hp).
    assert (ahead t (c :: rest) = atoms_from (frag c) (Fragment.insertion_offset (frag c) + str_len t) q ++ atoms rest) as Ea.
    { rewrite (ahead_cons t q []) by by rewrite app_nil_r. by rewrite <- Eq, ahead_done. }
    assert (∀ o s, measured (atoms_from (frag c) o s) = str_len s) as Emf.
    { intros o s. rewrite measured_from. unfold counted, seen. by rewrite Hv. }
    destruct (decide (str_len q ≤ measured x)) as [Hle|Hgt].
    + destruct (delete_seen_ok extra st out bf t q [] c rest stop_ H) as (st' & w & Est & H' & Hf' & Hw & Hdw);
        [by rewrite app_nil_r|done|done|lia|done|].
      rewrite Est. rewrite bool_decide_eq_true_2 by done. rewrite <- Eq in H'.
      destruct (walk_advance timestamp seen _ _ _ _ _ _ H') as (st2 & E2 & H2 & Hf2). rewrite E2. cbn [mbind option_bind].
      apply (Hnext st2 [w] (atoms_from (frag c) (Fragment.insertion_offset (frag c) + str_len t) q));
        [done|by rewrite Ea, ahead_start|rewrite Emf; lia|rewrite Emf; lia|done|by apply Forall_singleton|].
      right. by apply shortest_atoms.
    + rewrite Ea in Ex. destruct (head_split seen (frag c) _ q _ x y Hv Ex) as (m & q' & -> & Elm); [lia|].
      assert (m ≠ []) as Hm by (intros ->; cbn in Elm; lia). rewrite str_len_app in *.
      assert (q' ≠ []) as Hq' by (intros ->; cbn in *; lia).
      destruct (delete_seen_ok extra st out bf t m q' c rest stop_ H Eq Hm Hv) as (st' & w & Est & H' & Hf' & Hw & Hdw); [lia|lia|].
      rewrite Est. rewrite bool_decide_eq_false_2 by done. cbn [mbind option_bind].
      destruct (Hexit st' (out ++ [w]) bf (t ++ m) (c :: rest) fuel H') as (st2 & E2 & H2); [|lia|lia|].
      { cbn. rewrite Eq. intros E'%app_inv_head. apply Hq'. rewrite <- (app_nil_r m) in E' at 1. by apply app_inv_head in E'. }
      exists st2. split; [done|]. eapply (deleted_over_more _ _ st' _ _ _ bf _ (t ++ m) _ (c :: rest)); [exact H2|done|by apply (ahead_cons t m q')|done|..].
      * by apply Forall_singleton.
      * rewrite Emf. lia.
      * lia.
      * right. by apply shortest_atoms.
  - destruct (w_counted _ _ _ _ _ _ _ _ H) as [->|(? & ? & [= <- <-] & Hc)]; [|unfold counted, seen in Hc; congruence].
    destruct (delete_unseen_ok extra st out bf c rest stop_ H Hv) as (st' & E' & H' & Hf'); [lia|]. rewrite E'.
    assert (measured (atoms_of c) = 0) as Em0 by (unfold atoms_of; rewrite measured_from; unfold counted, seen; by rewrite Hv).
    apply (Hnext st' [mk_written Moved c] (atoms_of c)); [done|by rewrite !ahead_start|lia..| |by repeat constructor|by left].
    rewrite doc_one. unfold atoms_of. rewrite mark_seen_from. unfold was_shown. by rewrite Hv.
Qed.

(** ** One range, and all of them *)
Lemma insert_seen_ok extra (st : state) out bf t rest u :
  walk extra st out bf t rest → scalars u → str_len u ≤ extra →
  ∃ st' k, (if Utf8.len (encode u) =? 0 then Some st
            else old_start ← remote_old_start st; insert_text (encode u) timestamp old_start st) = Some st' ∧
    walk (extra - str_len u) st' (out ++ k) bf t rest ∧ fragment_start st' = fragment_start st ∧
    doc k = new_text_atoms timestamp (total Fragment.len (with_tag is_insertion out)) u ∧
    total Fragment.len (with_tag is_insertion k) = str_len u.
Proof.
  intros H Hu Hex. rewrite Utf8.len_encode. destruct (Z.eqb_spec (str_len u) 0) as [E|E].
  - apply no_bytes in E as ->. exists st, []. rewrite app_nil_r, Z.sub_0_r. by split_and!.
  - rewrite (remote_old_start_ok _ _ _ _ _ _ H). cbn [mbind option_bind].
    destruct (insert_text_ok timestamp seen timestamp_ok timestamp_pos extra st out bf t rest u H Hu) as (st' & i & Est & Hf & Hst);
      [by intros ->|done|].
    rewrite Est. eexists st', _. split_and!; [done|done|by rewrite Hf| |].
    + rewrite doc_one. by apply atoms_from_same.
    + rewrite with_tag_one. cbn. lia.
Qed.
Lemma remote_edit_steps self start stop_ text (st : state) :
  remote_edit version self timestamp ((start, stop_), text) st
  = (st ← (st ← jump_ahead versioned_pos (λ d, versioned_target start d.1) Left start st;
           st ← pass_boundary version start st;
           st ← iterate (skip_step version timestamp start) (delete_fuel (fragments self)) st;
           push_prefix versioned_pos start st);
     st ← (if Utf8.len text =? 0 then Some st else old_start ← remote_old_start st; insert_text text timestamp old_start st);
     iterate (remote_delete_step version (undo_map self) timestamp stop_) (delete_fuel (fragments self)) st).
Proof.
  unfold remote_edit. destruct (jump_ahead _ _ _ _ _) as [st1|]; [|done]. cbn [mbind option_bind].
  destruct (pass_boundary _ _ _) as [st2|]; [|done]. cbn [mbind option_bind]. by destruct (iterate _ _ _).
Qed.
Abbreviation apply_seen := (apply_edits (a_counted seen) newer mark_seen timestamp).
Abbreviation applicable_seen := (applicable (a_counted seen) newer).
Lemma remote_edits_ok (self : BufferSnapshot) : undo_map self = undos → ∀ es extra (st : state) out bf t rest,
  walk extra st out bf t rest → partial t rest → Forall causal (bf ++ rest) → inserted_len es ≤ extra →
  applicable_seen (fragment_start st) es (ahead t rest) → Forall (λ e, scalars e.2) es → (∀ e, head es = Some e → fragment_start st ≤ e.1.1) →
  SumTree.contents (fragments self) = frags (bf ++ rest) →
  ∃ st' k bf' t' rest',
    remote_edits version self timestamp (map (λ e, (e.1, encode e.2)) es) st = Some st' ∧
    walk (extra - inserted_len es) st' (out ++ k) bf' t' rest' ∧ bf' ++ rest' = bf ++ rest ∧
    doc k ++ ahead t' rest' = apply_seen (fragment_start st) (total Fragment.len (with_tag is_insertion out)) es (ahead t rest).
Proof.
  intros Hun es. induction es as [|[[start stop_] u] es IH]; intros extra st out bf t rest H Hp Hc Hex Happ Hsc Hhd Htree.
  { exists st, [], bf, t, rest. rewrite app_nil_r, Z.sub_0_r. by split_and!. }
  specialize (Hhd _ eq_refl). cbn [fst snd] in Hhd. apply Forall_cons in Hsc as [Hu Hsc]. cbn [snd] in Hu.
  change (inserted_len (((start, stop_), u) :: es)) with (str_len u + inserted_len es) in *.
  pose proof (inserted_len_nonneg es) as Hp1. pose proof (str_len_nonneg u) as Hp2.
  cbn [map fst snd remote_edits]. rewrite remote_edit_steps, Hun.
  destruct (applicable_start _ _ _ _ _ _ _ _ Happ) as (la & l2 & Ela & Hla).
  destruct (to_range_ok extra st out bf t rest start la l2 (delete_fuel (fragments self)) H Hp Hc Hhd Ela Hla)
    as (st1 & bf1 & t1 & rest1 & out1 & y & sk & E1 & H1 & Hp1' & Ef1 & Eo1 & (k1 & -> & Ea1 & Hd1 & Hk1) & Hsy & Hmy & Hsk & Hend).
  { unfold delete_fuel. rewrite Htree. unfold frags. rewrite length_map. lia. }
  rewrite E1. cbn [mbind option_bind].
  destruct (insert_seen_ok extra st1 _ _ _ _ u H1 Hu) as (st2 & k2 & E2 & H2 & Ef2 & Hd2 & Hi2); [lia|]. rewrite E2. cbn [mbind option_bind].
  rewrite Ea1 in Happ. destruct (applicable_parts _ _ _ _ _ _ _ _ _ _ Hsy Hmy Hsk Hend Happ) as (d & l' & Ed & Hsd & Hmd & Happ').
  destruct (delete_loop_seen_ok (extra - str_len u) stop_ rest1 st2 _ bf1 t1 (delete_fuel (fragments self)) d l' H2 Hp1' Ed)
    as (st3 & E3 & k3 & bf3 & t3 & rest3 & mid & H3 & Hp3 & Ef3 & Eo3 & Ea3 & Hd3 & Hk3 & Hsm & Hmm).
  { rewrite Ef2, Ef1. lia. }
  { unfold delete_fuel. rewrite Htree, <- Eo1. unfold frags. rewrite length_map, length_app. lia. }
  rewrite E3. cbn [mbind option_bind].
  assert (mid = d ∧ ahead t3 rest3 = l') as [-> <-].
  { pose proof (take_measured_ok (a_counted seen) d l' Hsd) as T1. pose proof (take_measured_ok (a_counted seen) mid (ahead t3 rest3) Hsm) as T2.
    rewrite <- Ea3, Ed in T2. rewrite Hmm, Ef2, Ef1 in T2. rewrite Hmd in T1. rewrite T1 in T2. by injection T2. }
  rewrite <- Ef3 in Happ'.
  assert (∀ e, head es = Some e → fragment_start st3 ≤ e.1.1) as Hhd3.
  { intros [[s' e'] u'] He. destruct es as [|? es]; [done|]. injection He as ->. cbn [fst].
    destruct (applicable_start _ _ _ _ _ _ _ _ Happ') as (z & ? & _ & Hz). pose proof (measured_nonneg (a_counted seen) z). lia. }
  destruct (IH (extra - str_len u) st3 _ bf3 t3 rest3 H3 Hp3) as (st4 & k4 & bf4 & t4 & rest4 & E4 & H4 & Eo4 & Hd4);
    [by rewrite Eo3, Eo1|lia|done|done|done|by rewrite Htree, Eo3, Eo1|].
  exists st4, (k1 ++ k2 ++ k3 ++ k4), bf4, t4, rest4. split_and!; [done|by rewrite !app_assoc, Z.sub_add_distr in *|by rewrite Eo4, Eo3, Eo1|].
  rewrite with_tag_app, (no_insertion k1 Hk1), app_nil_r in Hd2.
  rewrite !doc_app, <- !app_assoc, Hd4, Hd1, Hd2, Hd3, Ea1, Ed. rewrite (apply_edits_parts _ _ _ _ _ _ _ _ _ _ y sk d); [|done..|by rewrite <- Ed|done|done].
  rewrite <- !app_assoc, Ef3. do 5 f_equal. rewrite !with_tag_app, !total_app, (no_insertion k1 Hk1), (no_insertion k3 Hk3), Hi2. cbn. lia.
Qed.
End delete.
Lemma mark_seen_key entries a : a_key (mark_seen entries a) = a_key a.
Proof. unfold mark_seen. by destruct (was_shown _ _ _). Qed.
End remote.

Lemma zip_pairs (es : edits) : zip (map fst es) (map (λ e, encode e.2) es) = map (λ e, (e.1, encode e.2)) es.
Proof. induction es as [|e es IH]; [done|]. cbn in *. by rewrite IH. Qed.
(** What an operation does to a document. *)
Definition apply_operation (version : Global.t) (timestamp : Lamport.t) (entries : list UndoMap.UndoMapEntry) (es : edits) (l : list atom) : list atom :=
  apply_edits (a_counted (seen version)) (newer timestamp) (mark_seen version timestamp entries) timestamp 0 0 es l.

Lemma remote_edit_runs version timestamp s cs entries e es :
  snapshot_of s cs → roomy s cs → Keyed.fits (undo_map s) entries → Global.wf version →
  Lamport.ok timestamp → 0 < Lamport.value timestamp →
  Forall (λ a, a_timestamp a ≠ timestamp) (atoms cs) → Forall (causal version timestamp) cs →
  all_len (atoms cs) + inserted_len (e :: es) < 2 ^ 32 → Forall (λ e, scalars e.2) (e :: es) →
  applicable (a_counted (seen version)) (newer timestamp) 0 (e :: es) (atoms cs) →
  ∃ s' patch out,
    apply_remote_edit version s (map fst (e :: es)) (map (λ e, encode e.2) (e :: es)) timestamp = Some (s', patch) ∧
    edited timestamp s s' cs out ∧ doc out = apply_operation version timestamp entries (e :: es) (atoms cs) ∧
    Patch.relates 0 0 patch (encode (text_of true (atoms cs))) (encode (text_of true (doc out))).
Proof.
  intros Hs Hr Hun Hv Hts Htp Hfr Hca Hsm Hsc Happ. destruct e as [[start stop_] u].
  pose proof (inserted_len_nonneg (((start, stop_), u) :: es)) as Hpos.
  unfold apply_remote_edit. cbn [map fst].
  assert (0 ≤ start) as Hst.
  { destruct (applicable_start _ _ _ _ _ _ _ _ Happ) as (la & l2 & _ & Hla). pose proof (measured_nonneg (a_counted (seen version)) la). lia. }
  destruct (start_edit_ok timestamp (seen version) versioned_pos (versioned_pos_dim version) (range_target) Left
    (range_target_dim version) (range_target_clear version Hv) (inserted_len (((start, stop_), u) :: es)) start s cs Hs Hr)
    as (st & mid & rest & E1 & -> & [Hj _] & Hw); [done|done|done|].
  change (λ d : VersionedFullOffset * Z, versioned_target start d.1) with (range_target start).
  rewrite E1. cbn [mbind option_bind].
  match goal with |- context [zip ?a ?b] =>
    assert (zip a b = map (λ e, (e.1, encode e.2)) (((start, stop_), u) :: es)) as -> by exact (zip_pairs (((start, stop_), u) :: es)) end.
  assert (fragment_start st = measured_len (a_counted (seen version)) (atoms mid)) as Ef
    by (rewrite (w_start _ _ _ _ _ _ _ _ Hw); unfold here; by rewrite behind_start).
  assert (shortest (a_counted (seen version)) (atoms mid) ∧ measured_len (a_counted (seen version)) (atoms mid) ≤ start - 0 ∨
          measured_len (a_counted (seen version)) (atoms mid) < start - 0) as Hskip.
  { destruct Hj as [->|Hj]; [left; split; [by left|cbn; lia]|right]. cbn [app] in Hj. unfold skips in Hj.
    destruct (Z.compare_spec start (measured_len (a_counted (seen version)) (atoms mid))); (lia || done). }
  pose proof Happ as Happ'. rewrite atoms_app in Happ'. apply applicable_skip in Happ'; [|done]. rewrite Z.add_0_l, <- Ef, <- ahead_start in Happ'.
  destruct (remote_edits_ok version Hv timestamp Hts Htp (undo_map s) entries Hun s eq_refl (((start, stop_), u) :: es) _ st (kept mid) mid [] rest Hw)
    as (st2 & k & bf2 & t2 & rest2 & E2 & Hw2 & Eo & Hd).
  { eapply partial_start, sim_rest_ok, (w_sim _ _ _ _ _ _ _ _ Hw). }
  { done. } { done. } { done. } { done. }
  { intros e' [= <-]. cbn [fst]. destruct Hskip as [[_ ?]|?]; lia. }
  { apply (s_fragments _ _ Hs). }
  rewrite E2. cbn [mbind option_bind].
  assert (doc (kept mid ++ k) ++ ahead t2 rest2 = apply_operation version timestamp entries (((start, stop_), u) :: es) (atoms (mid ++ rest))) as Ed.
  { unfold apply_operation. rewrite atoms_app, apply_edits_skip by done.
    by rewrite doc_app, doc_kept, <- app_assoc, Hd, with_tag_kept, Ef, ahead_start. }
  destruct (applied_nodup (a_counted (seen version)) (newer timestamp) (mark_seen version timestamp entries) timestamp 0 0
    (((start, stop_), u) :: es) (atoms (mid ++ rest)) (mark_seen_key version timestamp entries) (s_keys _ _ Hs) Hfr) as [Hnd Hin].
  fold (apply_operation version timestamp entries (((start, stop_), u) :: es) (atoms (mid ++ rest))) in Hnd, Hin.
  rewrite <- Ed in Hnd, Hin. rewrite <- Eo in Hs, Hr, Hin, Hfr.
  destruct (finish_edit_ok (Dimension0 := pair_dimension (VersionedFullOffset) Z FragmentSummary (Dimension0 := Buffer.versioned_offset_dimension version)) (Measured0 := versioned_measured version) (Positions0 := versioned_positions version Hv) timestamp (seen version) versioned_pos (versioned_pos_dim version) _ st2 _ bf2 t2 rest2 s Hw2 Hs Hr Hnd Hin Hfr)
    as (s' & k' & E3 & He & Hd3 & _ & Hp). rewrite E3. cbn [mbind option_bind].
  rewrite Eo in *. eexists s', _, _. split_and!; [done|done|by rewrite Hd3, Ed|done].
Qed.
(** C11: A remote edit. Given a snapshot of the document [cs] and an operation
    whose ranges are in order and at boundaries of characters among those that its
    author had seen, and which is later than what its author had seen:
    [apply_remote_edit] does not panic and its loops end; the new document is what
    [apply_operation] makes of the old one: each new text is behind the shortest
    prefix with as many bytes as the range starts at, and behind the newer
    insertions at the same place; the characters of the range that the author saw
    are deleted, the others stay. The patch relates the visible texts, and the
    trees of the new snapshot index the new document. *)
Theorem remote_edit_correct version timestamp s cs entries e es :
  snapshot_of s cs → roomy s cs → Keyed.fits (undo_map s) entries → Global.wf version →
  Lamport.ok timestamp → 0 < Lamport.value timestamp →
  Forall (λ a, a_timestamp a ≠ timestamp) (atoms cs) → Forall (causal version timestamp) cs →
  all_len (atoms cs) + inserted_len (e :: es) < 2 ^ 32 → Forall (λ e, scalars e.2) (e :: es) →
  applicable (a_counted (seen version)) (newer timestamp) 0 (e :: es) (atoms cs) →
  ∃ s' patch out,
    apply_remote_edit version s (map fst (e :: es)) (map (λ e, encode e.2) (e :: es)) timestamp = Some (s', patch) ∧
    edited timestamp s s' cs out ∧ doc out = apply_operation version timestamp entries (e :: es) (atoms cs) ∧
    Patch.relates 0 0 patch (encode (text_of true (atoms cs))) (encode (text_of true (doc out))).
Proof. apply remote_edit_runs. Qed.
Lemma remote_edit_correct_witness : ∃ s s' patch out, sample = Some s ∧
  apply_remote_edit (Global.observe Global.new (Lamport.new ReplicaId.LOCAL)) s [(1, 2)] [[121]] (Lamport.mk 2 (ReplicaId.mk 2)) = Some (s', patch) ∧
  snapshot_of s' (cells out) ∧ text_of true (doc out) = [97; 121; 99].
Proof.
  destruct sample_snapshot_ok as (s & E & Hs & Hu). exists s.
  assert (Forall (causal (Global.observe Global.new (Lamport.new ReplicaId.LOCAL)) (Lamport.mk 2 (ReplicaId.mk 2))) (base_cells [97; 98; 99])) as Hc
    by by repeat constructor.
  destruct (remote_edit_correct (Global.observe Global.new (Lamport.new ReplicaId.LOCAL)) (Lamport.mk 2 (ReplicaId.mk 2)) s _ [] ((1, 2), [121]) [] Hs)
    as (s' & patch & out & E' & He & Ed & _); [|done|apply Global.wf_observe; [apply Global.wf_new|done]|done|done| |exact Hc|by vm_compute|..].
  - apply low_roomy; [done|]. clear Hs Hu. vm_compute in E. injection E as <-. by vm_compute.
  - vm_compute. repeat (apply Forall_cons; split; [done|]); constructor.
  - by repeat constructor.
  - by vm_compute.
  - exists s', patch, out. split_and!; [done|exact E'|apply (e_snapshot _ _ _ _ _ He)|]. rewrite Ed. by vm_compute.
Defined.
