(* ===== verification/Convergence.v ===== *)
(** Replicas converge: edits that were made without knowledge of each other can be
    applied in any order. *)
From S2P Require Import Prelude Clock Locator SumTree UndoMap.
From S2P Require Import Utf8 Fragments Cells Script RemoteEdit.

Implicit Types (a b : atom) (l k x y : list atom) (ts : Lamport.t) (es : edits).

(** ** An edit as insertions and deletions
    Only the characters that its author had seen say where its ranges are: each
    text goes behind one of them, or to the start. *)
Definition units := list (InsertionFragmentKey * Z).
Definition units_of l : units := map (λ a, (a_key a, a_len a)) l.
Fixpoint take_units (n : Z) (us : units) : units * units :=
  match us with
  | [] => ([], [])
  | z :: us' => if n <=? 0 then ([], us) else let '(v, w) := take_units (n - z.2) us' in (z :: v, w)
  end.
Definition last_key (r : option InsertionFragmentKey) (us : units) : option InsertionFragmentKey :=
  match list.last us with Some x => Some x.1 | None => r end.
Definition insertion : Type := option InsertionFragmentKey * Z * str.
(** The insertions, and what is in the ranges. *)
Fixpoint script (r : option InsertionFragmentKey) (n off : Z) (es : edits) (us : units) : list insertion * list InsertionFragmentKey :=
  match es with
  | [] => ([], [])
  | ((start, stop), u) :: es =>
      let '(v, us) := take_units (start - n) us in
      let r := last_key r v in
      let '(d, us) := take_units (stop - start) us in
      let '(ins, del) := script (last_key r d) stop (off + str_len u) es us in
      ((r, off, u) :: ins, map fst d ++ del)
  end.
Definition units_len (us : units) : Z := foldr (λ z n, z.2 + n) 0 us.
Fixpoint units_applicable (n : Z) (es : edits) (us : units) : Prop :=
  match es with
  | [] => True
  | ((start, stop), u) :: es =>
      let '(v, us) := take_units (start - n) us in
      let '(d, us) := take_units (stop - start) us in
      units_len v = start - n ∧ units_len d = stop - start ∧ units_applicable stop es us
  end.

Section run.
Variable ts : Lamport.t.
Definition insert_here (u : list atom) l : list atom := let '(k, l) := span (newer ts) l in k ++ u ++ l.
Fixpoint insert_after (key : InsertionFragmentKey) (u : list atom) l : list atom :=
  match l with
  | [] => []
  | a :: l => if decide (a_key a = key) then a :: insert_here u l else a :: insert_after key u l
  end.
Definition insert_ref (r : option InsertionFragmentKey) (u : list atom) l : list atom :=
  match r with None => insert_here u l | Some key => insert_after key u l end.
(** The last one first: texts of one edit at the same place are in order. *)
Definition run_insertions (ins : list insertion) l : list atom :=
  foldr (λ '(r, off, u) l, insert_ref r (new_text_atoms ts off u) l) l ins.

(** *** Where a text goes *)
Definition ref_at (r : option InsertionFragmentKey) x : Prop :=
  match r with None => x = [] | Some key => ∃ x' a, x = x' ++ [a] ∧ a_key a = key end.
Lemma insert_ref_behind r u x y : NoDup (a_keys x) → ref_at r x → insert_ref r u (x ++ y) = x ++ insert_here u y.
Proof.
  destruct r as [key|]; [|by intros _ ->]. intros Hnd (x' & a & -> & Ha). cbn [insert_ref]. induction x' as [|b x' IH].
  - cbn. by rewrite decide_True.
  - cbn [map app insert_after] in *. apply NoDup_cons in Hnd as [Hb Hnd]. rewrite decide_False.
    + by rewrite IH.
    + intros E. apply Hb. rewrite E, <- Ha, map_app. apply elem_of_app. right. left.
Qed.
Lemma insert_ref_at r u x y : NoDup (a_keys (x ++ y)) → ref_at r x → insert_ref r u (x ++ y) = x ++ insert_here u y.
Proof. intros H. apply insert_ref_behind. rewrite map_app in H. by apply NoDup_app in H as (? & _). Qed.
Lemma insert_after_skip key u x y : key ∉ a_keys x → insert_after key u (x ++ y) = x ++ insert_after key u y.
Proof.
  induction x as [|a x IH]; [done|]. cbn [map app insert_after]. intros H. rewrite decide_False.
  - by rewrite IH by (intros Hk; apply H; by right).
  - intros <-. apply H. left.
Qed.
Lemma insert_here_skip u k l : Forall (λ a, newer ts a = true) k → insert_here u (k ++ l) = k ++ insert_here u l.
Proof.
  intros Hk. unfold insert_here. induction Hk as [|a k Ha _ IH]; [done|]. cbn [app span]. rewrite Ha.
  destruct (span (newer ts) (k ++ l)) as [x y], (span (newer ts) l) as [x' y']. cbn [app]. by rewrite IH.
Qed.
Lemma insert_here_stop u l : (∀ a l', l = a :: l' → newer ts a = false) → insert_here u l = u ++ l.
Proof. intros H. unfold insert_here. destruct l as [|a l]; [done|]. cbn. by rewrite (H a l eq_refl). Qed.
Lemma span_parts l : ∃ k l', l = k ++ l' ∧ Forall (λ a, newer ts a = true) k ∧ (∀ a l'', l' = a :: l'' → newer ts a = false).
Proof.
  induction l as [|a l (k & l' & -> & Hk & Hl)]; [by exists [], []|]. destruct (newer ts a) eqn:E.
  - exists (a :: k), l'. split_and!; [done|by constructor|done].
  - exists [], (a :: k ++ l'). split_and!; [done..|]. by intros ? ? [= <- <-].
Qed.
Lemma insert_here_perm u l : insert_here u l ≡ₚ u ++ l.
Proof.
  destruct (span_parts l) as (k & l' & -> & Hk & Hl). rewrite insert_here_skip, insert_here_stop by done. solve_Permutation.
Qed.
Lemma insert_ref_perm r u l : (∀ key, r = Some key → key ∈ a_keys l) → insert_ref r u l ≡ₚ u ++ l.
Proof.
  destruct r as [key|]; cbn [insert_ref]; intros H; [|apply insert_here_perm]. specialize (H key eq_refl). induction l as [|a l IH]; cbn in *.
  - by apply not_elem_of_nil in H.
  - case_decide as E; [rewrite insert_here_perm; solve_Permutation|].
    apply elem_of_cons in H as [H|H]; [congruence|]. rewrite IH by done. solve_Permutation.
Qed.
Lemma ref_split r l : (∀ key, r = Some key → key ∈ a_keys l) → ∃ x y, l = x ++ y ∧ ref_at r x.
Proof.
  destruct r as [key|]; intros H; [|by exists [], l]. specialize (H key eq_refl).
  apply list_elem_of_fmap in H as (a & -> & (x & y & ->)%list_elem_of_split). exists (x ++ [a]), y.
  split; [by rewrite <- app_assoc|]. by exists x, a.
Qed.
End run.

(** ** Two insertions *)
Lemma newer_spec ts a : newer ts a = true ↔ Lamport.cmp ts (a_timestamp a) = Lt.
Proof.
  unfold newer. pose proof (cmp_gt_lt Lamport.cmp (a_timestamp a) ts). destruct (Lamport.cmp (a_timestamp a) ts); cbn; intuition congruence.
Qed.
Lemma newer_all ts ts' (u : list atom) : Forall (λ a, a_timestamp a = ts') u → Lamport.cmp ts ts' = Lt → Forall (λ a, newer ts a = true) u.
Proof. intros H Hlt. eapply Forall_impl; [exact H|]. intros a <-. by apply newer_spec. Qed.
Lemma newer_none ts ts' a : a_timestamp a = ts' → Lamport.cmp ts ts' ≠ Lt → newer ts a = false.
Proof. intros <- H. apply not_true_iff_false. by rewrite newer_spec. Qed.
(** What a text goes behind is older than it. *)
Definition older_ref ts (r : option InsertionFragmentKey) : Prop := ∀ key, r = Some key → Lamport.cmp (k_timestamp key) ts = Lt.
(** The later edit's text first, both behind the first one's place. *)
Lemma insert_same_place t1 t2 u1 u2 c l :
  Forall (λ a, a_timestamp a = t1) u1 → Forall (λ a, a_timestamp a = t2) u2 → Lamport.cmp t1 t2 = Lt →
  Forall (λ a, newer t1 a = true) c →
  insert_here t1 u1 (c ++ insert_here t2 u2 l) = c ++ insert_here t2 u2 (insert_here t1 u1 l).
Proof.
  intros H1 H2 Hlt Hc. destruct (span_parts t2 l) as (k2 & l2 & -> & Hk2 & Hl2).
  assert (Forall (λ a, newer t1 a = true) k2) as Hk1.
  { eapply Forall_impl; [exact Hk2|]. intros a. rewrite !newer_spec. apply (cmp_lt_trans Lamport.cmp), Hlt. }
  assert (Forall (λ a, newer t1 a = true) u2) as Hu2 by by eapply newer_all.
  rewrite !(insert_here_skip t2) by done. rewrite (insert_here_stop t2) by done. rewrite !(insert_here_skip t1) by done.
  rewrite (insert_here_skip t2) by done. do 2 f_equal. symmetry. apply insert_here_stop. intros a l' E.
  destruct (span_parts t1 l2) as (k & l3 & -> & Hk & Hl3). rewrite insert_here_skip, insert_here_stop in E by done.
  destruct k as [|b k]; [|injection E as <- _; by apply (Hl2 b (k ++ l3))].
  destruct u1 as [|b u1]; [by apply (Hl2 a l')|]. injection E as <- _. apply Forall_cons in H1 as [H1 _].
  apply (newer_none _ t1); [done|]. intros E. by apply (cmp_lt_asym Lamport.cmp _ _ Hlt).
Qed.
Lemma ref_at_tail r x c : ref_at r (x ++ c) → c ≠ [] → ∃ c' a, c = c' ++ [a] ∧ r = Some (a_key a).
Proof.
  destruct r as [key|]; [|by intros [_ ->]%app_nil]. intros (x' & a & E & <-) Hc. destruct c as [|b c _] using rev_ind; [done|].
  rewrite app_assoc in E. apply app_inj_tail in E as [_ ->]. by exists c, a.
Qed.
Lemma ref_at_shift r x x' a c : ref_at r (x ++ a :: c) → ref_at r (x' ++ a :: c).
Proof.
  intros H. destruct (ref_at_tail r x (a :: c) H) as (c' & b & E & ->); [done|]. exists (x' ++ c'), b. by rewrite E, app_assoc.
Qed.
Lemma insert_commute_ordered t1 t2 r1 r2 u1 u2 x c y :
  NoDup (a_keys (u1 ++ u2 ++ x ++ c ++ y)) → Forall (λ a, a_timestamp a = t1) u1 → Forall (λ a, a_timestamp a = t2) u2 →
  ref_at r1 x → ref_at r2 (x ++ c) → older_ref t2 r2 → (c = [] → Lamport.cmp t1 t2 = Lt) →
  insert_ref t1 r1 u1 (insert_ref t2 r2 u2 (x ++ c ++ y)) = insert_ref t2 r2 u2 (insert_ref t1 r1 u1 (x ++ c ++ y)).
Proof.
  intros Hnd Hu1 Hu2 Hr1 Hr2 Hold Hc.
  assert (∀ l, l ≡ₚ x ++ c ++ y ∨ l ≡ₚ u1 ++ x ++ c ++ y ∨ l ≡ₚ u2 ++ x ++ c ++ y → NoDup (a_keys l)) as Hsub.
  { assert (NoDup (a_keys (u2 ++ u1 ++ x ++ c ++ y))) as Hnd' by (eapply NoDup_Permutation_proper; [|exact Hnd]; apply Permutation_map; solve_Permutation).
    intros l [->|[->| ->]]; rewrite ?map_app in *.
    - apply NoDup_app in Hnd as (_ & _ & Hnd). by apply NoDup_app in Hnd as (_ & _ & Hnd).
    - by apply NoDup_app in Hnd' as (_ & _ & Hnd').
    - by apply NoDup_app in Hnd as (_ & _ & Hnd). }
  rewrite (insert_ref_at t1 r1 u1 x) by (done || apply Hsub; by left).
  replace (insert_ref t2 r2 u2 (x ++ c ++ y)) with (x ++ c ++ insert_here t2 u2 y).
  2: { rewrite (app_assoc x c y), (insert_ref_at t2 r2 u2) by (done || apply Hsub; left; by rewrite app_assoc). by rewrite app_assoc. }
  rewrite (insert_ref_at t1 r1 u1 x); [|apply Hsub; right; right; rewrite insert_here_perm; solve_Permutation|done].
  destruct (span_parts t1 c) as (k & d & -> & Hk & Hd). destruct d as [|a d].
  - rewrite app_nil_r in *. rewrite (insert_here_skip t1 u1 k y) by done.
    assert (Lamport.cmp t1 t2 = Lt) as Hlt.
    { destruct k as [|a k _] using rev_ind; [by apply Hc|]. destruct (ref_at_tail r2 x (k ++ [a]) Hr2) as (k' & b & E & Er); [by destruct k|].
      apply app_inj_tail in E as [_ <-]. apply Forall_app in Hk as [_ [Ha _]%Forall_cons]. apply newer_spec in Ha.
      eapply (cmp_lt_trans Lamport.cmp); [exact Ha|]. by apply (Hold (a_key a)). }
    rewrite (insert_same_place t1 t2 u1 u2 k y Hu1 Hu2 Hlt Hk).
    rewrite (app_assoc x k), (app_assoc x k (insert_here t1 u1 y)), (insert_ref_at t2 r2 u2); [done| |done].
    apply Hsub. right. left. rewrite insert_here_perm. solve_Permutation.
  - assert (∀ z, insert_here t1 u1 ((k ++ a :: d) ++ z) = k ++ u1 ++ (a :: d) ++ z) as Hins.
    { intros z. rewrite <- app_assoc, insert_here_skip by done. f_equal. apply insert_here_stop. intros b l' [= <- _]. by apply (Hd a d). }
    rewrite !Hins. replace (x ++ k ++ u1 ++ (a :: d) ++ y) with ((x ++ k ++ u1 ++ a :: d) ++ y) by by rewrite <- !app_assoc.
    rewrite (insert_ref_at t2 r2 u2).
    + by rewrite <- !app_assoc.
    + apply Hsub. right. left. solve_Permutation.
    + rewrite (app_assoc x k) in Hr2. rewrite (app_assoc k), (app_assoc x). by eapply ref_at_shift.
Qed.
Lemma insert_commute t1 t2 r1 r2 u1 u2 l :
  NoDup (a_keys (u1 ++ u2 ++ l)) → Forall (λ a, a_timestamp a = t1) u1 → Forall (λ a, a_timestamp a = t2) u2 → t1 ≠ t2 →
  (∀ key, r1 = Some key → key ∈ a_keys l) → (∀ key, r2 = Some key → key ∈ a_keys l) → older_ref t1 r1 → older_ref t2 r2 →
  insert_ref t1 r1 u1 (insert_ref t2 r2 u2 l) = insert_ref t2 r2 u2 (insert_ref t1 r1 u1 l).
Proof.
  intros Hnd Hu1 Hu2 Ht Hr1 Hr2 Ho1 Ho2.
  destruct (ref_split r1 l Hr1) as (x1 & y1 & E1 & Hx1), (ref_split r2 l Hr2) as (x2 & y2 & E2 & Hx2).
  assert (NoDup (a_keys (u2 ++ u1 ++ l))) as Hnd' by (eapply NoDup_Permutation_proper; [|exact Hnd]; apply Permutation_map; solve_Permutation).
  pose proof E1 as E. rewrite E2 in E. apply app_eq_inv in E as [(c & -> & ->)|(c & -> & ->)]; subst l.
  - destruct (decide (c = [] ∧ Lamport.cmp t1 t2 ≠ Lt)) as [[-> Hlt]|Hc].
    + cbn [app] in *. rewrite app_nil_r in *. symmetry. apply (insert_commute_ordered t2 t1 r2 r1 u2 u1 x1 [] y2); try done; [by rewrite app_nil_r|].
      intros _. destruct (Lamport.cmp t2 t1) eqn:E; [by apply (cmp_eq_iff Lamport.cmp) in E|done|]. by apply (cmp_gt_lt Lamport.cmp) in E.
    + rewrite <- app_assoc in *. apply insert_commute_ordered; try done.
      intros ->. destruct (Lamport.cmp t1 t2) eqn:E; [|done|]; exfalso; apply Hc; (split; [done|congruence]).
  - destruct (decide (c = [] ∧ Lamport.cmp t2 t1 ≠ Lt)) as [[-> Hlt]|Hc].
    + cbn [app] in *. rewrite app_nil_r in *. apply (insert_commute_ordered t1 t2 r1 r2 u1 u2 x2 [] y1); try done; [by rewrite app_nil_r|].
      intros _. destruct (Lamport.cmp t1 t2) eqn:E; [by apply (cmp_eq_iff Lamport.cmp) in E|done|]. by apply (cmp_gt_lt Lamport.cmp) in E.
    + rewrite <- app_assoc in *. symmetry. apply insert_commute_ordered; try done.
      intros ->. destruct (Lamport.cmp t2 t1) eqn:E; [| done|]; exfalso; apply Hc; (split; [done|congruence]).
Qed.

(** ** The script does what the edit does *)
Lemma units_app l k : units_of (l ++ k) = units_of l ++ units_of k.
Proof. apply map_app. Qed.
Lemma last_key_app r us z : last_key r (us ++ [z]) = Some z.1.
Proof. unfold last_key. by rewrite list.last_snoc. Qed.
Definition rebase (r : option InsertionFragmentKey) (i : insertion) : insertion :=
  let '(r', off, u) := i in (match r' with Some key => Some key | None => r end, off, u).
Lemma last_key_rebase r us : last_key r us = match last_key None us with Some key => Some key | None => r end.
Proof. unfold last_key. by destruct (list.last us). Qed.
Lemma script_rebase r n off es us :
  script r n off es us = (map (rebase r) (script None n off es us).1, (script None n off es us).2).
Proof.
  revert r n off us. induction es as [|[[start stop] u] es IH]; intros r n off us; [done|]. cbn [script].
  destruct (take_units (start - n) us) as [v us1]. destruct (take_units (stop - start) us1) as [d us2].
  rewrite (IH (last_key (last_key r v) d)), (IH (last_key (last_key None v) d)). cbn [fst snd map]. f_equal. f_equal.
  - unfold rebase. by rewrite (last_key_rebase r v).
  - rewrite map_map. apply map_ext. intros [[[key|] o] w]; [done|]. cbn. unfold last_key. by destruct (list.last d), (list.last v).
Qed.
Lemma take_units_app n us : (take_units n us).1 ++ (take_units n us).2 = us.
Proof.
  revert n. induction us as [|z us IH]; intros n; [done|]. cbn. case_match; [done|]. specialize (IH (n - z.2)).
  destruct (take_units _ us). cbn in *. by rewrite IH.
Qed.
Lemma last_key_in us key : last_key None us = Some key → key ∈ map fst us.
Proof.
  unfold last_key. destruct us as [|z us _] using rev_ind; [done|]. rewrite list.last_snoc. intros [= <-].
  rewrite map_app. apply elem_of_app. right. left.
Qed.
Lemma script_keys es : ∀ n off us,
  Forall (λ i : insertion, ∀ key, i.1.1 = Some key → key ∈ map fst us) (script None n off es us).1 ∧
  ∀ key, key ∈ (script None n off es us).2 → key ∈ map fst us.
Proof.
  induction es as [|[[start stop] u] es IH]; intros n off us; [split; [constructor|by intros key ?%not_elem_of_nil]|]. cbn [script].
  pose proof (take_units_app (start - n) us) as E1. destruct (take_units (start - n) us) as [v us1]. cbn [fst snd] in E1.
  pose proof (take_units_app (stop - start) us1) as E2. destruct (take_units (stop - start) us1) as [d us2]. cbn [fst snd] in E2.
  rewrite script_rebase. cbn [fst snd]. destruct (IH stop (off + str_len u) us2) as [H1 H2]. subst us us1.
  assert (∀ key, last_key None v = Some key → key ∈ map fst (v ++ d ++ us2)) as Hv.
  { intros key H%last_key_in. rewrite map_app. apply elem_of_app. by left. }
  split.
  - constructor; [exact Hv|]. apply Forall_map. eapply Forall_impl; [exact H1|]. intros [[[key|] o] w] H key'; cbn.
    + intros [= <-]. rewrite !map_app. apply elem_of_app. right. apply elem_of_app. right. by apply (H key).
    + rewrite last_key_rebase. destruct (last_key None d) eqn:Ed; [|by apply Hv]. intros [= <-]. apply last_key_in in Ed.
      rewrite !map_app. apply elem_of_app. right. apply elem_of_app. by left.
  - intros key [H|H]%elem_of_app; rewrite !map_app; apply elem_of_app; right; apply elem_of_app; [by left|right; by apply H2].
Qed.

Section as_script.
Variables (p dead : atom → bool) (ts : Lamport.t).
Hypothesis dead_counts : ∀ a, dead a = true → p a = true.
Definition mark_dead (a : atom) : atom := if dead a then kill ts a else a.
Definition delete_keys (keys : list InsertionFragmentKey) l : list atom :=
  map (λ a, if bool_decide (a_key a ∈ keys) then mark_dead a else a) l.
Abbreviation counted_of l := (filter (λ a, p a = true) l).

Lemma take_units_of m l :
  take_units m (units_of (counted_of l)) = (units_of (counted_of (take_measured p m l).1), units_of (counted_of (take_measured p m l).2)).
Proof.
  revert m. induction l as [|a l IH]; intros m; [done|]. cbn [take_measured]. destruct (Z.leb_spec m 0) as [Hm|Hm].
  - cbn [fst snd]. destruct (counted_of (a :: l)); [done|]. cbn. by rewrite (proj2 (Z.leb_le _ _)).
  - rewrite filter_cons. destruct (p a) eqn:Ea.
    + rewrite decide_True by done. cbn [units_of map take_units snd]. fold (units_of (counted_of l)).
      rewrite (proj2 (Z.leb_gt _ _)), IH by done. destruct (take_measured p (m - a_len a) l) as [x y]. cbn [fst snd].
      by rewrite filter_cons, decide_True.
    + rewrite decide_False by done. rewrite Z.sub_0_r, IH. destruct (take_measured p m l) as [x y]. cbn [fst snd].
      rewrite filter_cons, decide_False by congruence. done.
Qed.
Lemma uncounted_newer k : Forall (λ a, p a = true → newer ts a = false) k → Forall (λ a, newer ts a = true) k → counted_of k = [].
Proof.
  induction 1 as [|a k Ha _ IH]; [done|]. intros [Hn Hk]%Forall_cons. rewrite filter_cons, decide_False; [by apply IH|].
  intros E. rewrite Ha in Hn; done.
Qed.
Lemma counted_shortest x : shortest p x → last_key None (units_of (counted_of x)) = a_key <$> list.last x.
Proof.
  intros [->|(x' & a & -> & Ha)]; [done|]. rewrite list.filter_app, units_app, filter_cons, decide_True by done.
  cbn. by rewrite last_key_app, list.last_snoc.
Qed.
Lemma ref_at_last x : ref_at (a_key <$> list.last x) x.
Proof. destruct x as [|a x _] using rev_ind; [done|]. rewrite list.last_snoc. by exists x, a. Qed.
Lemma run_behind r ins x k l :
  NoDup (a_keys x) → ref_at r x → Forall (λ a, newer ts a = true) k →
  Forall (λ i : insertion, ∀ key, i.1.1 = Some key → key ∉ a_keys (x ++ k)) ins →
  run_insertions ts (map (rebase r) ins) (x ++ k ++ l) = x ++ k ++ run_insertions ts ins l.
Proof.
  intros Hx Hr Hk. induction 1 as [|[[r' off] u] ins Hi _ IH]; [done|]. cbn [map run_insertions foldr rebase].
  fold (run_insertions ts (map (rebase r) ins) (x ++ k ++ l)). rewrite IH. fold (run_insertions ts ins l).
  destruct r' as [key|].
  - cbn [insert_ref]. rewrite app_assoc, insert_after_skip by by apply (Hi key). by rewrite <- app_assoc.
  - rewrite insert_ref_behind, insert_here_skip by done. done.
Qed.
Lemma applied_head n off es l : (∀ a l', l = a :: l' → newer ts a = false) →
  ∀ a l', apply_edits p (newer ts) mark_dead ts n off es l = a :: l' → newer ts a = false.
Proof.
  assert (∀ a, newer ts (mark_dead a) = newer ts a) as Hm by (intros a; unfold mark_dead; by destruct (dead a)).
  revert n off l. induction es as [|[[start stop] u] es IH]; intros n off l Hl; [done|]. cbn [apply_edits].
  pose proof (take_measured_app p (start - n) l) as E1. destruct (take_measured p (start - n) l) as [x l1]. cbn [fst snd] in E1. subst l.
  destruct x as [|b x]; [|destruct (span _ l1) as [k l2], (take_measured p _ l2); intros a l' [= <- _]; by eapply Hl].
  cbn [app] in *. assert (span (newer ts) l1 = ([], l1)) as -> by (destruct l1 as [|b l1]; [done|]; cbn; by rewrite (Hl b l1)).
  pose proof (take_measured_app p (stop - start) l1) as E2. destruct (take_measured p (stop - start) l1) as [d l3]. cbn [fst snd app] in *.
  intros a l'. destruct u as [|c u]; [|intros [= <- _]; unfold newer; cbn; by rewrite cmp_refl by apply _]. cbn [new_text_atoms atoms_from app].
  destruct d as [|b d]; [|intros [= <- _]; rewrite Hm; apply (Hl b (d ++ l3)); by rewrite <- E2]. cbn [map app] in *. subst l1. by apply IH.
Qed.
Lemma delete_keys_other keys l : (∀ a, a ∈ l → a_key a ∉ keys) → delete_keys keys l = l.
Proof.
  intros H. unfold delete_keys. rewrite <- (map_id l) at 2. apply map_ext_in. intros a Ha%list_elem_of_In.
  by rewrite bool_decide_eq_false_2 by by apply H.
Qed.
Lemma delete_keys_app keys l k : delete_keys keys (l ++ k) = delete_keys keys l ++ delete_keys keys k.
Proof. apply map_app. Qed.
Lemma delete_keys_ext keys keys' l : (∀ a, a ∈ l → p a = true → a_key a ∈ keys ↔ a_key a ∈ keys') → delete_keys keys l = delete_keys keys' l.
Proof.
  intros H. apply map_ext_in. intros a Ha%list_elem_of_In. unfold mark_dead. destruct (dead a) eqn:Ed; [|by repeat case_bool_decide].
  by rewrite (bool_decide_ext _ _ (H a Ha (dead_counts a Ed))).
Qed.
Lemma delete_own k keys : (∀ a, a ∈ k → p a = true → a_key a ∈ keys) → delete_keys keys k = map mark_dead k.
Proof.
  intros H. apply map_ext_in. intros a Ha%list_elem_of_In. unfold mark_dead. destruct (dead a) eqn:Ed; [|by case_bool_decide].
  by rewrite bool_decide_eq_true_2 by (apply H; [done|by apply dead_counts]).
Qed.
Lemma mark_dead_key a : a_key (mark_dead a) = a_key a.
Proof. unfold mark_dead. by destruct (dead a). Qed.
Lemma marked_keys l : a_keys (map mark_dead l) = a_keys l.
Proof. rewrite map_map. apply map_ext, mark_dead_key. Qed.
Lemma counted_keys l key : key ∈ map fst (units_of (counted_of l)) ↔ ∃ a, a ∈ l ∧ p a = true ∧ a_key a = key.
Proof.
  unfold units_of. rewrite map_map. cbn. rewrite list_elem_of_fmap. setoid_rewrite list_elem_of_filter. naive_solver.
Qed.
Lemma counted_in l key : key ∈ map fst (units_of (counted_of l)) → key ∈ a_keys l.
Proof. rewrite counted_keys. intros (a & Ha & _ & <-). by apply list_elem_of_fmap_2. Qed.
Lemma keys_apart x y key : NoDup (a_keys (x ++ y)) → key ∈ a_keys x → key ∉ a_keys y.
Proof. rewrite map_app, NoDup_app. naive_solver. Qed.
(** The last counted character of a range is what the next text goes behind. *)
Lemma behind_range r x k d ins l :
  NoDup (a_keys ((x ++ k) ++ d)) → ref_at r x → Forall (λ a, newer ts a = true) k → shortest p d →
  Forall (λ i : insertion, ∀ key, i.1.1 = Some key → key ∉ a_keys ((x ++ k) ++ d)) ins →
  run_insertions ts (map (rebase (last_key r (units_of (counted_of d)))) ins) (x ++ k ++ map mark_dead d ++ l)
  = x ++ k ++ map mark_dead d ++ run_insertions ts ins l.
Proof.
  intros Hnd Hr Hk Hd Hi. destruct Hd as [->|(d' & b & -> & Hb)].
  - rewrite app_nil_r in *. apply run_behind; try done. rewrite map_app in Hnd. by apply NoDup_app in Hnd as (? & _).
  - set (d := d' ++ [b]) in *. assert (∀ z, x ++ k ++ map mark_dead d ++ z = ((x ++ k) ++ map mark_dead d) ++ [] ++ z) as E
      by (intros z; cbn [app]; by rewrite <- !app_assoc).
    rewrite !E. assert (a_keys ((x ++ k) ++ map mark_dead d) = a_keys ((x ++ k) ++ d)) as Ek by by rewrite !(map_app _ (x ++ k)), marked_keys.
    apply run_behind; [by rewrite Ek| |done|by rewrite app_nil_r, Ek].
    unfold d. rewrite list.filter_app, units_app, filter_cons, decide_True by done. cbn [units_of map]. cbn. rewrite last_key_app. cbn.
    exists ((x ++ k) ++ map mark_dead d'), (mark_dead b). rewrite map_app, !app_assoc. split; [done|apply mark_dead_key].
Qed.
Lemma apply_as_script es : ∀ n off l,
  NoDup (a_keys l) → Forall (λ a, p a = true → newer ts a = false) l → applicable p (newer ts) n es l →
  apply_edits p (newer ts) mark_dead ts n off es l
  = run_insertions ts (script None n off es (units_of (counted_of l))).1
      (delete_keys (script None n off es (units_of (counted_of l))).2 l).
Proof.
  induction es as [|[[start stop] u] es IH]; intros n off l Hnd Hp Happ.
  { cbn. symmetry. apply delete_keys_other. intros a _ H. by apply not_elem_of_nil in H. }
  cbn [apply_edits applicable script] in *. rewrite take_units_of.
  pose proof (take_measured_app p (start - n) l) as E1. pose proof (take_measured_shortest p (start - n) l) as S1.
  destruct (take_measured p (start - n) l) as [x l1]. cbn [fst snd] in *.
  destruct (span_parts ts l1) as (k & l2 & -> & Hk & Hl2). rewrite span_ok in * by done.
  pose proof (take_measured_app p (stop - start) l2) as E2. pose proof (take_measured_shortest p (stop - start) l2) as S2.
  destruct (take_measured p (stop - start) l2) as [d l3] eqn:Et. cbn [fst snd] in *. destruct Happ as (M1 & M2 & Happ).
  specialize (S1 M1). specialize (S2 M2). subst l l2. apply Forall_app in Hp as [Hpx [Hpk Hp]%Forall_app].
  assert (counted_of (k ++ d ++ l3) = counted_of (d ++ l3)) as -> by by rewrite list.filter_app, uncounted_newer.
  rewrite take_units_of, Et. cbn [fst snd]. apply Forall_app in Hp as [Hpd Hp3].
  rewrite script_rebase. cbn [fst snd]. set (s := script None stop (off + str_len u) es (units_of (counted_of l3))) in *.
  assert (NoDup (a_keys l3)) as Hnd3 by (rewrite !map_app, !NoDup_app in Hnd; tauto).
  destruct (script_keys es stop (off + str_len u) (units_of (counted_of l3))) as [Hs1 Hs2]. fold s in Hs1, Hs2.
  assert (∀ y z key, key ∈ a_keys y → x ++ k ++ d ++ l3 = y ++ z → key ∉ a_keys z) as Hap.
  { intros y z key Hy E. rewrite E in Hnd. by apply (keys_apart y). }
  assert (delete_keys (map fst (units_of (counted_of d)) ++ s.2) (x ++ k ++ d ++ l3)
          = x ++ k ++ map mark_dead d ++ delete_keys s.2 l3) as ->.
  { rewrite !delete_keys_app. f_equal; [|f_equal; [|f_equal]].
    1-2: apply delete_keys_other; intros a Ha [H|H]%elem_of_app; [apply counted_in in H|apply Hs2, counted_in in H].
    - apply (Hap x (k ++ d ++ l3) (a_key a)); [by apply list_elem_of_fmap_2|done|]. rewrite !map_app, !elem_of_app. tauto.
    - apply (Hap x (k ++ d ++ l3) (a_key a)); [by apply list_elem_of_fmap_2|done|]. rewrite !map_app, !elem_of_app. tauto.
    - apply (Hap (x ++ k) (d ++ l3) (a_key a)); [rewrite map_app, elem_of_app; right; by apply list_elem_of_fmap_2|by rewrite <- !app_assoc|].
      rewrite !map_app, !elem_of_app. tauto.
    - apply (Hap (x ++ k) (d ++ l3) (a_key a)); [rewrite map_app, elem_of_app; right; by apply list_elem_of_fmap_2|by rewrite <- !app_assoc|].
      rewrite !map_app, !elem_of_app. tauto.
    - apply delete_own. intros a Ha Hpa. apply elem_of_app. left. apply counted_keys. by exists a.
    - apply delete_keys_ext. intros a Ha _. rewrite elem_of_app. split; [|tauto]. intros [H%counted_in|H]; [exfalso|done].
      apply (Hap (x ++ k ++ d) l3 (a_key a)); [rewrite !map_app, !elem_of_app; tauto|by rewrite <- !app_assoc|by apply list_elem_of_fmap_2]. }
  rewrite (IH stop (off + str_len u) l3) by done. fold s.
  change (run_insertions ts ((?r, ?o, ?v) :: ?ins) ?z) with (insert_ref ts r (new_text_atoms ts o v) (run_insertions ts ins z)).
  assert (NoDup (a_keys ((x ++ k) ++ d))) as Hndd .
  { replace (x ++ k ++ d ++ l3) with (((x ++ k) ++ d) ++ l3) in Hnd by by rewrite <- !app_assoc. rewrite map_app in Hnd.
    by apply NoDup_app in Hnd as (? & _). }
  rewrite (counted_shortest x) by done. rewrite behind_range; [|done|apply ref_at_last|done|done|].
  2: { eapply Forall_impl; [exact Hs1|]. intros i H key E%H%counted_in. intros Hk'. apply (Hap ((x ++ k) ++ d) l3 key); [done|by rewrite <- !app_assoc|done]. }
  assert (NoDup (a_keys x)) as Hndx by (rewrite !map_app, !NoDup_app in Hndd; tauto).
  rewrite insert_ref_behind by (done || apply ref_at_last). rewrite insert_here_skip, insert_here_stop; [done| |done].
  intros a l' E. destruct d as [|b d].
  - cbn [map app] in E. unfold s in E. rewrite <- IH in E by done. by eapply applied_head.
  - injection E as <- _. unfold newer, mark_dead. destruct (dead b); apply (Hl2 b (d ++ l3) eq_refl).
Qed.
End as_script.
