(* ===== verification/Replicas.v ===== *)
(** Edits as operations on documents ([op]): where they can be applied, and that
    two whose authors had not seen each other's commute. *)
From S2P Require Import Prelude Clock Locator SumTree UndoMap.
From S2P Require Import Utf8 Fragments Cells Script Origin RemoteEdit Convergence.

Implicit Types (a b : atom) (l k x y : list atom) (ts : Lamport.t) (es : edits).

Lemma keys_perm l k : l ≡ₚ k → NoDup (a_keys l) → NoDup (a_keys k).
Proof. intros H. by apply NoDup_Permutation_proper, Permutation_map. Qed.
Lemma keys_without x y z : NoDup (a_keys (x ++ y ++ z)) → NoDup (a_keys (x ++ z)).
Proof.
  intros H. apply (keys_perm _ (y ++ x ++ z)) in H; [|solve_Permutation]. rewrite map_app in H. by apply NoDup_app in H as (_ & _ & ?).
Qed.

(** ** Runs of insertions *)
Definition inserted ts (ins : list insertion) : list atom := flat_map (λ '(_, off, u), new_text_atoms ts off u) ins.
Lemma script_inserted ts es : ∀ r n off us, inserted ts (script r n off es us).1 = new_atoms ts off es.
Proof.
  induction es as [|[[start stop] u] es IH]; intros r n off us; [done|]. cbn [script].
  destruct (take_units _ us) as [v us1], (take_units _ us1) as [d us2]. specialize (IH (last_key (last_key r v) d) stop (off + str_len u) us2).
  destruct (script _ _ _ es us2). cbn [fst inserted flat_map new_atoms] in *. by f_equal.
Qed.
Definition refs_in (ins : list insertion) l : Prop := Forall (λ i : insertion, ∀ key, i.1.1 = Some key → key ∈ a_keys l) ins.
Lemma refs_more ins l l' : refs_in ins l → (∀ key, key ∈ a_keys l → key ∈ a_keys l') → refs_in ins l'.
Proof. intros H Hk. eapply Forall_impl; [exact H|]. eauto. Qed.
Lemma run_perm ts ins l : refs_in ins l → run_insertions ts ins l ≡ₚ inserted ts ins ++ l.
Proof.
  induction 1 as [|[[r off] u] ins Hi _ IH]; [done|]. cbn [run_insertions foldr inserted flat_map].
  fold (run_insertions ts ins l) (inserted ts ins). rewrite insert_ref_perm.
  - rewrite IH. solve_Permutation.
  - intros key ->. rewrite IH, map_app. apply elem_of_app. right. by apply (Hi key).
Qed.
Lemma run_keys ts ins l key : refs_in ins l → key ∈ a_keys l → key ∈ a_keys (run_insertions ts ins l).
Proof. intros H Hk. rewrite run_perm, map_app by done. apply elem_of_app. by right. Qed.
Lemma inserted_ts ts ins : Forall (λ a, a_timestamp a = ts) (inserted ts ins).
Proof.
  apply Forall_flat_map, Forall_true. intros [[r off] u]. unfold new_text_atoms. by apply atoms_from_forall.
Qed.
Lemma new_text_ts ts off u : Forall (λ a, a_timestamp a = ts) (new_text_atoms ts off u).
Proof. by apply atoms_from_forall. Qed.
Definition older_refs ts (ins : list insertion) : Prop := Forall (λ i : insertion, older_ref ts i.1.1) ins.
Lemma insert_run_commute t1 t2 r1 off1 u1 ins l :
  t1 ≠ t2 → NoDup (a_keys (new_text_atoms t1 off1 u1 ++ inserted t2 ins ++ l)) →
  (∀ key, r1 = Some key → key ∈ a_keys l) → refs_in ins l → older_ref t1 r1 → older_refs t2 ins →
  insert_ref t1 r1 (new_text_atoms t1 off1 u1) (run_insertions t2 ins l)
  = run_insertions t2 ins (insert_ref t1 r1 (new_text_atoms t1 off1 u1) l).
Proof.
  intros Ht Hnd H1 Hr Ho1. induction Hr as [|[[r off] u] ins Hi Hr IH]; [done|]. intros [Ho Hos]%Forall_cons.
  cbn [run_insertions foldr inserted flat_map] in *. fold (run_insertions t2 ins l) in *. fold (inserted t2 ins) in *.
  fold (run_insertions t2 ins (insert_ref t1 r1 (new_text_atoms t1 off1 u1) l)) in *. rewrite <- IH; [|rewrite <- app_assoc in Hnd; by apply keys_without in Hnd|done].
  apply insert_commute; try done.
  - eapply keys_perm; [|exact Hnd]. rewrite run_perm by done. solve_Permutation.
  - apply new_text_ts.
  - apply new_text_ts.
  - intros key ->. apply run_keys; [done|by apply H1].
  - intros key ->. apply run_keys; [done|by apply (Hi key)].
Qed.
Lemma run_commute t1 t2 ins1 ins2 l :
  t1 ≠ t2 → NoDup (a_keys (inserted t1 ins1 ++ inserted t2 ins2 ++ l)) →
  refs_in ins1 l → refs_in ins2 l → older_refs t1 ins1 → older_refs t2 ins2 →
  run_insertions t1 ins1 (run_insertions t2 ins2 l) = run_insertions t2 ins2 (run_insertions t1 ins1 l).
Proof.
  intros Ht Hnd H1 H2 Ho1 Ho2. induction H1 as [|[[r off] u] ins1 Hi Hr IH]; [done|]. apply Forall_cons in Ho1 as [Ho Ho1].
  cbn [run_insertions foldr inserted flat_map] in *. fold (run_insertions t1 ins1 l) in *. fold (inserted t1 ins1) in *.
  fold (run_insertions t1 ins1 (run_insertions t2 ins2 l)) in *. rewrite IH; [|rewrite <- app_assoc in Hnd; apply (keys_without [] _ _ Hnd)|done].
  apply insert_run_commute; try done.
  - eapply keys_perm; [|exact Hnd]. rewrite (run_perm t1) by done. solve_Permutation.
  - intros key ->. apply run_keys; [done|by apply (Hi key)].
  - eapply refs_more; [exact H2|]. intros. by apply run_keys.
Qed.
(** What changes neither keys nor new text can be done before. *)
Lemma newer_key ts a b : a_key a = a_key b → newer ts a = newer ts b.
Proof. intros [= E _]. unfold newer. by rewrite E. Qed.
Section mapped.
Variables (ts : Lamport.t) (g : atom → atom).
Hypothesis g_key : ∀ a, a_key (g a) = a_key a.
Hypothesis g_new : ∀ a, a_timestamp a = ts → g a = a.
Lemma map_new off u : map g (new_text_atoms ts off u) = new_text_atoms ts off u.
Proof.
  rewrite <- (map_id (new_text_atoms ts off u)) at 2. apply map_ext_Forall. eapply Forall_impl; [apply new_text_ts|exact g_new].
Qed.
Lemma span_map l : span (newer ts) (map g l) = (map g (span (newer ts) l).1, map g (span (newer ts) l).2).
Proof. apply span_mapped. intros a. by apply newer_key. Qed.
Lemma insert_here_map off u l :
  insert_here ts (new_text_atoms ts off u) (map g l) = map g (insert_here ts (new_text_atoms ts off u) l).
Proof. unfold insert_here. rewrite span_map. destruct (span _ l). cbn. by rewrite !map_app, map_new. Qed.
Lemma insert_ref_map r off u l :
  insert_ref ts r (new_text_atoms ts off u) (map g l) = map g (insert_ref ts r (new_text_atoms ts off u) l).
Proof.
  destruct r as [key|]; [|apply insert_here_map]. cbn. induction l as [|a l IH]; [done|]. cbn. rewrite g_key.
  case_decide; cbn; f_equal; [apply insert_here_map|done].
Qed.
Lemma run_map ins l : run_insertions ts ins (map g l) = map g (run_insertions ts ins l).
Proof. induction ins as [|[[r off] u] ins IH]; [done|]. cbn. unfold run_insertions in IH. by rewrite IH, insert_ref_map. Qed.
End mapped.

(** ** Marking changes no place *)
Section marked.
Variables (p q skip : atom → bool) (mark : atom → atom) (ts : Lamport.t).
Hypothesis mark_unit : ∀ a, a_key (mark a) = a_key a ∧ a_len (mark a) = a_len a ∧ q (mark a) = q a.
Hypothesis new_unseen : ∀ a, a_timestamp a = ts → q a = false.
Lemma units_marked l : units_of (filter (λ a, q a = true) (map mark l)) = units_of (filter (λ a, q a = true) l).
Proof.
  induction l as [|a l IH]; [done|]. destruct (mark_unit a) as (Ek & El & Eq). cbn [map]. rewrite !filter_cons, Eq.
  case_decide; [|done]. cbn [units_of map]. unfold units_of in IH. by rewrite Ek, El, IH.
Qed.
Lemma units_new off u : filter (λ a, q a = true) (new_text_atoms ts off u) = [].
Proof.
  assert (Forall (λ a, q a = false) (new_text_atoms ts off u)) as H by (eapply Forall_impl; [apply new_text_ts|exact new_unseen]).
  induction H as [|a l Ha _ IH]; [done|]. rewrite filter_cons, decide_False by congruence. done.
Qed.
(** Who has not seen the edit sees the characters where they were. *)
Lemma units_applied es : ∀ n off l,
  units_of (filter (λ a, q a = true) (apply_edits p skip mark ts n off es l)) = units_of (filter (λ a, q a = true) l).
Proof.
  induction es as [|[[start stop] u] es IH]; intros n off l; [done|]. cbn [apply_edits].
  pose proof (take_measured_app p (start - n) l) as E1. destruct (take_measured p (start - n) l) as [x l1].
  pose proof (span_whole skip l1) as E2. destruct (span skip l1) as [k l2].
  pose proof (take_measured_app p (stop - start) l2) as E3. destruct (take_measured p (stop - start) l2) as [d l3]. cbn [fst snd] in *. subst l l1 l2.
  by rewrite !list.filter_app, !units_app, units_new, units_marked, IH.
Qed.
End marked.

(** Applicability looks at the seen characters only. *)
Section applicable.
Variables (p : atom → bool) (ts : Lamport.t).
Lemma units_measured l : units_len (units_of (filter (λ a, p a = true) l)) = measured_len p l.
Proof.
  induction l as [|a l IH]; [done|]. rewrite filter_cons, measured_cons. case_decide as H.
  - rewrite H. cbn [units_of map units_len foldr snd]. unfold units_len, units_of in IH. by rewrite IH.
  - by destruct (p a).
Qed.
Lemma applicable_units es : ∀ n l, Forall (λ a, p a = true → newer ts a = false) l →
  applicable p (newer ts) n es l ↔ units_applicable n es (units_of (filter (λ a, p a = true) l)).
Proof.
  induction es as [|[[start stop] u] es IH]; intros n l Hl; [done|]. cbn [applicable units_applicable]. rewrite take_units_of.
  pose proof (take_measured_app p (start - n) l) as E1. destruct (take_measured p (start - n) l) as [x l1]. cbn [fst snd] in *.
  destruct (span_parts ts l1) as (k & l2 & -> & Hk & Hl2). rewrite span_ok by done. subst l. apply Forall_app in Hl as [_ [Hlk Hl]%Forall_app].
  rewrite list.filter_app, (uncounted_newer _ ts k), app_nil_l, take_units_of by done.
  pose proof (take_measured_app p (stop - start) l2) as E2. destruct (take_measured p (stop - start) l2) as [d l3]. cbn [fst snd] in *.
  subst l2. apply Forall_app in Hl as [_ Hl]. rewrite !units_measured, IH by done. done.
Qed.
End applicable.

(** ** Operations *)
Record op := mk_op { o_timestamp : Lamport.t; o_version : Global.t; o_edits : edits }.
Definition saw (o : op) (a : atom) : bool := Global.observed (o_version o) (a_timestamp a).
Definition concurrent (o o' : op) : Prop :=
  o_timestamp o ≠ o_timestamp o' ∧ Global.observed (o_version o) (o_timestamp o') = false ∧
  Global.observed (o_version o') (o_timestamp o) = false.
(** Its author had seen characters of [l], all older than it, and its ranges are of them. *)
Record deliverable (o : op) l : Prop := {
  d_keys : NoDup (a_keys l);
  d_fresh : Forall (λ a, a_timestamp a ≠ o_timestamp o) l;
  d_causal : Forall (λ a, saw o a = true → Lamport.cmp (a_timestamp a) (o_timestamp o) = Lt) l;
  d_applicable : applicable (saw o) (newer (o_timestamp o)) 0 (o_edits o) l;
}.
Section replicas.
Variable entries : list UndoMap.UndoMapEntry.
Definition apply (o : op) l : list atom := apply_operation (o_version o) (o_timestamp o) entries (o_edits o) l.
Definition dead (o : op) (a : atom) : bool := was_shown (o_version o) entries (a_timestamp a) (a_deletions a).
Definition plan (o : op) l : list insertion * list InsertionFragmentKey :=
  script None 0 0 (o_edits o) (units_of (filter (λ a, saw o a = true) l)).
Lemma dead_saw o a : dead o a = true → saw o a = true.
Proof. unfold dead, was_shown, saw. by destruct (Global.observed _ _). Qed.
Lemma older_newer o l : Forall (λ a, saw o a = true → Lamport.cmp (a_timestamp a) (o_timestamp o) = Lt) l →
  Forall (λ a, saw o a = true → newer (o_timestamp o) a = false) l.
Proof. intros H. eapply Forall_impl; [exact H|]. intros a Ha Hs. specialize (Ha Hs). unfold newer. by rewrite Ha. Qed.
Lemma causal_newer o l : deliverable o l → Forall (λ a, saw o a = true → newer (o_timestamp o) a = false) l.
Proof. intros H. apply older_newer, (d_causal _ _ H). Qed.
Lemma units_deliverable o l : Forall (λ a, saw o a = true → Lamport.cmp (a_timestamp a) (o_timestamp o) = Lt) l →
  applicable (saw o) (newer (o_timestamp o)) 0 (o_edits o) l ↔ units_applicable 0 (o_edits o) (units_of (filter (λ a, saw o a = true) l)).
Proof. intros H. by apply applicable_units, older_newer. Qed.
Lemma apply_plan o l : deliverable o l →
  apply o l = run_insertions (o_timestamp o) (plan o l).1 (delete_keys (dead o) (o_timestamp o) (plan o l).2 l).
Proof.
  intros H. apply (apply_as_script (saw o) (dead o) (o_timestamp o)); [apply dead_saw|apply (d_keys _ _ H)|by apply causal_newer|apply (d_applicable _ _ H)].
Qed.
Lemma plan_refs o l : refs_in (plan o l).1 l.
Proof.
  destruct (script_keys (o_edits o) 0 0 (units_of (filter (λ a, saw o a = true) l))) as [H _]. eapply Forall_impl; [exact H|].
  intros i Hi key Hk. by eapply counted_in, Hi.
Qed.
Lemma plan_older o l : deliverable o l → older_refs (o_timestamp o) (plan o l).1.
Proof.
  intros H. destruct (script_keys (o_edits o) 0 0 (units_of (filter (λ a, saw o a = true) l))) as [Hs _]. eapply Forall_impl; [exact Hs|].
  intros i Hi key Hk. apply Hi, counted_keys in Hk as (a & Ha & Hsaw & <-). by apply (proj1 (Forall_forall _ _) (d_causal _ _ H) a).
Qed.
(** What a concurrent edit does leaves the plan alone. *)
Lemma kill_dead o o' a : Global.observed (o_version o) (o_timestamp o') = false → dead o (kill (o_timestamp o') a) = dead o a.
Proof.
  intros H. unfold dead, was_shown, kill. cbn. rewrite forallb_app. cbn. by rewrite H, andb_true_r.
Qed.
Lemma apply_units o o' l : Global.observed (o_version o) (o_timestamp o') = false →
  units_of (filter (λ a, saw o a = true) (apply o' l)) = units_of (filter (λ a, saw o a = true) l).
Proof.
  intros H. apply units_applied.
  - intros a. unfold mark_seen. by destruct (was_shown _ _ _ _).
  - intros a Ha. unfold saw. by rewrite Ha.
Qed.
Lemma apply_in o l a : a ∈ apply o l → a_timestamp a = o_timestamp o ∨ ∃ b, b ∈ l ∧ a_key a = a_key b.
Proof.
  intros H. assert (a_key a ∈ a_keys (apply o l)) as Hk by by apply list_elem_of_fmap_2.
  unfold apply, apply_operation in Hk. rewrite applied_keys in Hk by apply mark_seen_key. apply elem_of_app in Hk as [Hk|Hk]; apply list_elem_of_fmap in Hk as (b & E & Hb).
  - left. destruct (new_atoms_keys (o_timestamp o) 0 (o_edits o)) as [_ Hn]. apply (proj1 (Forall_forall _ _) Hn) in Hb as [Hb _].
    injection E as -> _. done.
  - right. by exists b.
Qed.
Lemma apply_deliverable o o' l : deliverable o' l → concurrent o o' → deliverable o l ↔ deliverable o (apply o' l).
Proof.
  intros H' (Hne & Ho & Ho').
  destruct (applied_nodup (a_counted (seen (o_version o'))) (newer (o_timestamp o')) (mark_seen (o_version o') (o_timestamp o') entries)
    (o_timestamp o') 0 0 (o_edits o') l (mark_seen_key _ _ _) (d_keys _ _ H') (d_fresh _ _ H')) as [Hnd Hin].
  change (apply_edits _ _ _ _ 0 0 _ l) with (apply o' l) in Hnd, Hin. split; intros H.
  - assert (Forall (λ a, saw o a = true → Lamport.cmp (a_timestamp a) (o_timestamp o) = Lt) (apply o' l)) as Hc.
    { apply Forall_forall. intros a [Ha|(b & Hb & Eb)]%apply_in; [unfold saw; by rewrite Ha, Ho|].
      injection Eb as Eb _. unfold saw. rewrite Eb. by apply (proj1 (Forall_forall _ _) (d_causal _ _ H) b). }
    split; [done| |done|].
    + apply Forall_forall. intros a [Ha|(b & Hb & Eb)]%apply_in; [congruence|]. injection Eb as Eb _. rewrite Eb.
      by apply (proj1 (Forall_forall _ _) (d_fresh _ _ H) b).
    + apply (proj2 (units_deliverable o (apply o' l) Hc)). rewrite apply_units by done.
      apply (proj1 (units_deliverable o l (d_causal _ _ H))), (d_applicable _ _ H).
  - assert (∀ P : Lamport.t → Prop, Forall (λ a, P (a_timestamp a)) (apply o' l) → Forall (λ a, P (a_timestamp a)) l) as Hback.
    { intros P HP. apply Forall_forall. intros a Ha. assert (a_key a ∈ a_keys (apply o' l)) as (b & Eb & Hb)%list_elem_of_fmap
        by (apply Hin; by apply list_elem_of_fmap_2). injection Eb as -> _. by apply (proj1 (Forall_forall _ _) HP b). }
    assert (Forall (λ a, saw o a = true → Lamport.cmp (a_timestamp a) (o_timestamp o) = Lt) l) as Hc.
    { apply (Hback (λ t, Global.observed (o_version o) t = true → Lamport.cmp t (o_timestamp o) = Lt)), (d_causal _ _ H). }
    split; [apply (d_keys _ _ H')|apply (Hback (λ t, t ≠ o_timestamp o)), (d_fresh _ _ H)|done|].
    apply (proj2 (units_deliverable o l Hc)). rewrite <- (apply_units o o') by done.
    apply (proj1 (units_deliverable o (apply o' l) (d_causal _ _ H))), (d_applicable _ _ H).
Qed.

(** ** Documents up to the order of deletions *)
Definition same a b : Prop :=
  a_key a = a_key b ∧ a_char a = a_char b ∧ a_visible a = a_visible b ∧ a_undos a = a_undos b ∧ a_deletions a ≡ₚ a_deletions b.
#[export] Instance same_equiv : Equivalence same.
Proof.
  split; [done| |].
  - intros a b (? & ? & ? & ? & ?). by split_and!.
  - intros a b c (? & ? & ? & ? & ?) (? & ? & ? & ? & ?). split_and!; (congruence || by etransitivity).
Qed.
Definition agree : relation (list atom) := Forall2 same.
#[export] Instance agree_equiv : Equivalence agree.
Proof. unfold agree. split; apply _. Qed.
Lemma agree_keys l k : agree l k → a_keys l = a_keys k.
Proof. induction 1 as [|a b l k H _ IH]; [done|]. cbn. f_equal; [apply H|done]. Qed.
Lemma agree_text (b : bool) l k : agree l k → text_of b l = text_of b k.
Proof.
  unfold text_of. induction 1 as [|x y l k (_ & Ec & Ev & _) _ IH]; [done|]. rewrite !filter_cons, Ev. case_decide; cbn; [by rewrite Ec, IH|done].
Qed.
Lemma agree_units o l k : agree l k → units_of (filter (λ a, saw o a = true) l) = units_of (filter (λ a, saw o a = true) k).
Proof.
  induction 1 as [|a b l k (Ek & Ec & _) _ IH]; [done|]. rewrite !filter_cons. assert (saw o a = saw o b) as -> by (injection Ek as E _; unfold saw; by rewrite E).
  case_decide; [|done]. cbn [units_of map]. unfold units_of in IH. rewrite IH, Ek. unfold a_len. by rewrite Ec.
Qed.
Lemma agree_here ts u l k : agree l k → agree (insert_here ts u l) (insert_here ts u k).
Proof.
  intros H. unfold insert_here. assert (agree (span (newer ts) l).1 (span (newer ts) k).1 ∧ agree (span (newer ts) l).2 (span (newer ts) k).2) as [H1 H2].
  { induction H as [|a b l k Hab H IH]; [done|]. cbn. rewrite (newer_key ts a b) by apply Hab. destruct (newer ts b); cbn.
    - destruct IH as [IH1 IH2]. destruct (span _ l), (span _ k). cbn in *. split; [by constructor|done].
    - split; by constructor. }
  destruct (span _ l), (span _ k). cbn in *. apply Forall2_app; [done|]. apply Forall2_app; [reflexivity|done].
Qed.
Lemma agree_ref ts r u l k : agree l k → agree (insert_ref ts r u l) (insert_ref ts r u k).
Proof.
  destruct r as [key|]; [|apply agree_here]. cbn. induction 1 as [|a b l k H Hl IH]; [done|]. cbn. pose proof H as (-> & _).
  case_decide; constructor; try done. by apply agree_here.
Qed.
Lemma agree_run ts ins l k : agree l k → agree (run_insertions ts ins l) (run_insertions ts ins k).
Proof. intros H. induction ins as [|[[r off] u] ins IH]; [done|]. by apply agree_ref. Qed.
Lemma forallb_perm {A} (f : A → bool) (l k : list A) : l ≡ₚ k → forallb f l = forallb f k.
Proof. induction 1; cbn; [done|by f_equal|by rewrite !andb_assoc, (andb_comm (f y))|congruence]. Qed.
Lemma same_dead o a b : same a b → dead o a = dead o b.
Proof. intros ([= E _] & _ & _ & _ & Hd). unfold dead, was_shown. rewrite E. f_equal. by apply forallb_perm. Qed.
Lemma same_kill ts a b : same a b → same (kill ts a) (kill ts b).
Proof. intros (Ek & Ec & Ev & Eu & Ed). split_and!; try done. cbn. by apply Permutation_app. Qed.
Lemma agree_delete o keys l k : agree l k →
  agree (delete_keys (dead o) (o_timestamp o) keys l) (delete_keys (dead o) (o_timestamp o) keys k).
Proof.
  intros H. apply Forall2_fmap_2. eapply Forall2_impl; [exact H|]. intros a b Hab. pose proof Hab as [-> _].
  case_bool_decide; [|done]. unfold mark_dead. rewrite (same_dead o a b) by done. destruct (dead o b); [by apply same_kill|done].
Qed.
Lemma agree_forall (P : Lamport.t → Prop) l k : agree l k → Forall (λ a, P (a_timestamp a)) l → Forall (λ a, P (a_timestamp a)) k.
Proof. induction 1 as [|a b l k [[= E _] _] _ IH]; [done|]. intros [Ha Hl]%Forall_cons. constructor; [by rewrite <- E|by apply IH]. Qed.
Lemma agree_deliverable o l k : agree l k → deliverable o l → deliverable o k.
Proof.
  intros H Hd. assert (Forall (λ a, saw o a = true → Lamport.cmp (a_timestamp a) (o_timestamp o) = Lt) k) as Hc.
  { apply (agree_forall (λ t, Global.observed (o_version o) t = true → Lamport.cmp t (o_timestamp o) = Lt) l); [done|apply (d_causal _ _ Hd)]. }
  split; [rewrite <- (agree_keys _ _ H); apply (d_keys _ _ Hd)|by apply (agree_forall (λ t, t ≠ o_timestamp o) l), (d_fresh _ _ Hd)|done|].
  apply (proj2 (units_deliverable o k Hc)). rewrite <- (agree_units o l k) by done.
  apply (proj1 (units_deliverable o l (d_causal _ _ Hd))), (d_applicable _ _ Hd).
Qed.
Lemma agree_apply o l k : agree l k → deliverable o l → agree (apply o l) (apply o k).
Proof.
  intros H Hd. rewrite !apply_plan by (done || by eapply agree_deliverable). unfold plan. rewrite (agree_units o l k) by done.
  by apply agree_run, agree_delete.
Qed.

(** ** Two concurrent operations *)
Definition mark_planned o l a : atom := if bool_decide (a_key a ∈ (plan o l).2) then mark_dead (dead o) (o_timestamp o) a else a.
Lemma mark_planned_key o l a : a_key (mark_planned o l a) = a_key a.
Proof. unfold mark_planned. case_bool_decide; [apply mark_dead_key|done]. Qed.
Lemma planned_keys o l k : a_keys (map (mark_planned o l) k) = a_keys k.
Proof. rewrite map_map. apply map_ext, mark_planned_key. Qed.
Lemma mark_planned_commute o o' l a : concurrent o o' →
  same (mark_planned o l (mark_planned o' l a)) (mark_planned o' l (mark_planned o l a)).
Proof.
  intros (Hne & Ho & Ho'). unfold mark_planned at 1 3. rewrite !mark_planned_key. unfold mark_planned.
  repeat case_bool_decide; try reflexivity. unfold mark_dead.
  assert (∀ i j, Global.observed (o_version i) (o_timestamp j) = false → dead i (if dead j a then kill (o_timestamp j) a else a) = dead i a) as Hd.
  { intros i j E. destruct (dead j a); [by apply kill_dead|done]. }
  rewrite !Hd by done. destruct (dead o a), (dead o' a); try reflexivity. unfold same, kill. cbn. split_and!; try done. solve_Permutation.
Qed.
Lemma plan_after o o' l : Global.observed (o_version o) (o_timestamp o') = false → plan o (apply o' l) = plan o l.
Proof. intros H. unfold plan. by rewrite apply_units. Qed.
Lemma apply_twice o o' l : concurrent o o' → deliverable o l → deliverable o' l →
  apply o (apply o' l) = run_insertions (o_timestamp o) (plan o l).1
    (run_insertions (o_timestamp o') (plan o' l).1 (map (mark_planned o l) (map (mark_planned o' l) l))).
Proof.
  intros (Hne & Ho & Ho') H H'. rewrite apply_plan by by apply apply_deliverable. rewrite plan_after by done. f_equal.
  rewrite (apply_plan o') by done. change (delete_keys (dead o) _ _ ?x) with (map (mark_planned o l) x). rewrite <- run_map; [done|apply mark_planned_key|].
  intros a Ha. unfold mark_planned. case_bool_decide; [|done]. unfold mark_dead. destruct (dead o a) eqn:Hd; [|done].
  apply dead_saw in Hd. unfold saw in Hd. congruence.
Qed.
Lemma plan_nodup o o' l : o_timestamp o ≠ o_timestamp o' → deliverable o l → deliverable o' l →
  NoDup (a_keys (inserted (o_timestamp o) (plan o l).1 ++ inserted (o_timestamp o') (plan o' l).1 ++ l)).
Proof.
  intros Hne H H'. unfold plan. rewrite !script_inserted.
  destruct (new_atoms_keys (o_timestamp o) 0 (o_edits o)) as [N1 T1], (new_atoms_keys (o_timestamp o') 0 (o_edits o')) as [N2 T2].
  assert (∀ t l k, Forall (λ a, a_timestamp a = t) l → Forall (λ a, a_timestamp a ≠ t) k → ∀ key, key ∈ a_keys l → key ∉ a_keys k) as Hap.
  { intros t x y Hx Hy key (a & -> & Ha)%list_elem_of_fmap (b & [= E _] & Hb)%list_elem_of_fmap.
    apply (proj1 (Forall_forall _ _) Hx) in Ha. apply (proj1 (Forall_forall _ _) Hy) in Hb. congruence. }
  assert (∀ (t : Lamport.t) l, Forall (λ a, a_timestamp a = t ∧ 0 ≤ a_offset a) l → Forall (λ a, a_timestamp a = t) l) as Hts
    by (intros t x Hx; eapply Forall_impl; [exact Hx|]; by intros a [? _]).
  rewrite !map_app. apply NoDup_app. split_and!; [done| |apply NoDup_app; split_and!; [done| |apply (d_keys _ _ H)]].
  - intros key Hk. rewrite <- map_app. revert key Hk. apply (Hap (o_timestamp o)); [by apply Hts|]. apply Forall_app. split; [|apply (d_fresh _ _ H)].
    eapply Forall_impl; [exact T2|]. intros a [-> _]. congruence.
  - apply (Hap (o_timestamp o')); [by apply Hts|apply (d_fresh _ _ H')].
Qed.
Lemma apply_commutes o o' l : concurrent o o' → deliverable o l → deliverable o' l → agree (apply o (apply o' l)) (apply o' (apply o l)).
Proof.
  intros Hc H H'. assert (concurrent o' o) as Hc' by (destruct Hc as (? & ? & ?); by split_and!).
  rewrite !apply_twice by done. rewrite (run_commute (o_timestamp o)).
  - apply agree_run, agree_run. rewrite !map_map. apply Forall2_fmap_2, Forall_Forall2_diag, Forall_true. intros a. by apply mark_planned_commute.
  - apply Hc.
  - rewrite !map_app, !planned_keys, <- !map_app. apply plan_nodup; [apply Hc|done..].
  - eapply refs_more; [apply plan_refs|]. intros key. by rewrite !planned_keys.
  - eapply refs_more; [apply plan_refs|]. intros key. by rewrite !planned_keys.
  - by apply plan_older.
  - by apply plan_older.
Qed.
End replicas.

(** *** Two edits of one text *)
Definition sample_version : Global.t := Global.observe Global.new (Lamport.new ReplicaId.LOCAL).
Definition sample_op1 : op := mk_op (Lamport.mk 2 (ReplicaId.mk 1)) sample_version [((1, 1), [120])].
Definition sample_op2 : op := mk_op (Lamport.mk 2 (ReplicaId.mk 2)) sample_version [((1, 2), [121])].
Lemma sample_wf : Global.wf sample_version.
Proof. apply Global.wf_observe; [apply Global.wf_new|done]. Qed.
Lemma sample_deliverables :
  deliverable sample_op1 (atoms (base_cells [97; 98; 99])) ∧ deliverable sample_op2 (atoms (base_cells [97; 98; 99])).
Proof.
  assert (NoDup (a_keys (atoms (base_cells [97; 98; 99])))) as Hk by (rewrite base_atoms; apply from_keys).
  split; (split; [done|vm_compute; repeat (apply Forall_cons; split; [done|]); constructor..|by vm_compute]).
Qed.
