(* ===== verification/Changes.v ===== *)
(** Edits and undo operations together, as operations on documents with the counts
    of undone edits. They satisfy the laws of [Operations], so that documents
    converge. *)
From S2P Require Import Prelude Clock Locator Patch SumTree Keyed UndoMap.
From S2P Require Import Utf8 Fragments Builders Cells Script Origin Commuting UndoLoop UndoRanges Slices UndoEdit RemoteEdit Convergence Replicas.

Implicit Types (a b : atom) (l k : list atom) (ts e : Lamport.t) (o : op) (u : UndoOperation) (ids : list Lamport.t).
Abbreviation undo_entries := (list UndoMap.UndoMapEntry).
Implicit Types (es fs : undo_entries).
#[local] Existing Instance UndoMap.undos_perm.

(** ** Counts *)
Lemma forallb_same {A} (f g : A → bool) (l : list A) : (∀ x, x ∈ l → f x = g x) → forallb f l = forallb g l.
Proof. induction l as [|x l IH]; intros H; [done|]. cbn. rewrite (H x), IH; [done| |left]. intros y Hy. apply H. by right. Qed.
Lemma undos_unseen observed id es : (∀ x, x ∈ es → observed x = false) → UndoMap.undos observed id es = 0.
Proof.
  induction es as [|x es IH]; intros H; [done|]. rewrite UndoMap.undos_cons, IH, (H x), andb_false_r; [done|left|]. intros y Hy. apply H. by right.
Qed.
Lemma entry_id u x : x ∈ UndoMap.entries u → UndoMap.edit_id (UndoMap.entry_key x) ∈ undo_ids u ∧ UndoMap.undo_id (UndoMap.entry_key x) = timestamp u.
Proof.
  intros ([id n] & -> & Hx)%list_elem_of_fmap. cbn. split; [|done]. apply list_elem_of_fmap. by exists (id, n).
Qed.
Lemma undone_other u es e : e ∉ undo_ids u → undone (UndoMap.entries u ++ es) e = undone es e.
Proof.
  intros H. unfold undone. rewrite UndoMap.undos_app, UndoMap.undos_other.
  - by rewrite Z.max_r by apply UndoMap.undos_nonneg.
  - intros x Hx <-. by apply H, entry_id.
Qed.
Lemma never_undone es e : (∀ x, x ∈ es → UndoMap.edit_id (UndoMap.entry_key x) ≠ e) → undone es e = false.
Proof. intros H. unfold undone. by rewrite UndoMap.undos_other. Qed.
Lemma undone_perm es fs e : es ≡ₚ fs → undone es e = undone fs e.
Proof. intros H. unfold undone. by rewrite H. Qed.
Lemma still_shown_perm es fs e (ds gs : list Lamport.t) : es ≡ₚ fs → ds ≡ₚ gs → still_shown es e ds = still_shown fs e gs.
Proof.
  intros H Hd. unfold still_shown. rewrite (undone_perm _ _ _ H), (forallb_perm _ _ _ Hd). f_equal.
  apply forallb_same. intros x _. by apply undone_perm.
Qed.
(** Who has not seen the undo sees what was shown without it. *)
Lemma was_shown_other v u es e (ds : list Lamport.t) : Global.observed v (timestamp u) = false →
  was_shown v (UndoMap.entries u ++ es) e ds = was_shown v es e ds.
Proof.
  intros H. assert (∀ x, undone_at v (UndoMap.entries u ++ es) x = undone_at v es x) as E.
  { intros x. unfold undone_at. rewrite UndoMap.undos_app, undos_unseen.
    - by rewrite Z.max_r by apply UndoMap.undos_nonneg.
    - intros y Hy. by rewrite (proj2 (entry_id _ _ Hy)). }
  unfold was_shown. rewrite E. f_equal. apply forallb_same. intros x _. by rewrite E.
Qed.
Lemma was_shown_perm v es fs e (ds : list Lamport.t) : es ≡ₚ fs → was_shown v es e ds = was_shown v fs e ds.
Proof.
  intros H. assert (∀ x, undone_at v es x = undone_at v fs x) as E by (intros x; unfold undone_at; by rewrite H).
  unfold was_shown. rewrite E. f_equal. apply forallb_same. intros x _. by rewrite E.
Qed.

(** ** Deciding on characters again *)
Lemma redo_place es ts ids a : place (redo_atom es ts ids a) = place a ∧ a_deletions (redo_atom es ts ids a) = a_deletions a.
Proof. unfold redo_atom. by destruct (touched ids a). Qed.
Lemma redo_atom_facts es ts ids a :
  a_key (redo_atom es ts ids a) = a_key a ∧ a_char (redo_atom es ts ids a) = a_char a ∧ a_deletions (redo_atom es ts ids a) = a_deletions a ∧
  a_timestamp (redo_atom es ts ids a) = a_timestamp a ∧ a_len (redo_atom es ts ids a) = a_len a.
Proof. unfold redo_atom, a_len. by destruct (touched ids a). Qed.
Lemma existsb_perm {A} (f : A → bool) (l k : list A) : l ≡ₚ k → existsb f l = existsb f k.
Proof.
  induction 1 as [|x l k _ IH|x y l|l k m _ IH1 _ IH2]; cbn; [done|by rewrite IH|by destruct (f x), (f y)|by rewrite IH1].
Qed.
Lemma touched_same ids a b : same a b → touched ids a = touched ids b.
Proof. intros ([= E _] & _ & _ & _ & Hd). unfold touched. by rewrite E, (existsb_perm _ _ _ Hd). Qed.
Lemma agree_redo es fs ts ids l k : es ≡ₚ fs → agree l k → agree (map (redo_atom es ts ids) l) (map (redo_atom fs ts ids) k).
Proof.
  intros He H. apply Forall2_fmap_2. eapply Forall2_impl; [exact H|]. intros a b Hab. unfold redo_atom. rewrite (touched_same ids a b Hab).
  destruct (touched ids b); [|done]. destruct Hab as ([= E Eo] & Ec & Ev & Eu & Hd). split_and!; cbn; [|done| |by rewrite Eu|done].
  - unfold a_key. cbn. by rewrite E, Eo.
  - rewrite E. by apply still_shown_perm.
Qed.
Lemma still_shown_other u es a : touched (undo_ids u) a = false →
  still_shown (UndoMap.entries u ++ es) (a_timestamp a) (a_deletions a) = still_shown es (a_timestamp a) (a_deletions a).
Proof.
  intros H. assert (∀ x, changed_by x a → undone (UndoMap.entries u ++ es) x = undone es x) as Hu.
  { intros x Hx. apply undone_other. intros Hin. by rewrite (proj2 (touched_spec (undo_ids u) a)) in H by by exists x. }
  unfold still_shown. rewrite Hu by by left. f_equal. apply forallb_same. intros x Hx. apply Hu. by right.
Qed.
(** Two of them, in both orders. *)
Lemma redo_redo es u u' a :
  redo_atom (UndoMap.entries u ++ UndoMap.entries u' ++ es) (timestamp u) (undo_ids u)
    (redo_atom (UndoMap.entries u' ++ es) (timestamp u') (undo_ids u') a)
  = redo_atom (UndoMap.entries u' ++ UndoMap.entries u ++ es) (timestamp u') (undo_ids u')
      (redo_atom (UndoMap.entries u ++ es) (timestamp u) (undo_ids u) a).
Proof.
  assert (∀ es ts ids ids', touched ids (redo_atom es ts ids' a) = touched ids a) as Ht.
  { intros. unfold touched. destruct (redo_atom_facts es0 ts ids' a) as (_ & _ & -> & -> & _). done. }
  assert (UndoMap.entries u ++ UndoMap.entries u' ++ es ≡ₚ UndoMap.entries u' ++ UndoMap.entries u ++ es) as Hp by solve_Permutation.
  unfold redo_atom at 1 3. rewrite !Ht. unfold redo_atom.
  destruct (touched (undo_ids u) a) eqn:E1, (touched (undo_ids u') a) eqn:E2; cbn; f_equal.
  - by apply still_shown_perm.
  - apply Global.observe_comm.
  - rewrite (still_shown_perm _ _ _ _ _ Hp (reflexivity _)). by apply still_shown_other.
  - rewrite <- (still_shown_perm _ _ _ _ _ Hp (reflexivity _)). symmetry. by apply still_shown_other.
Qed.

(** ** Edits and undo operations that do not know of each other *)
Section edit_undo.
Variables (o : op) (u : UndoOperation) (es : undo_entries).
Hypothesis unseen_undo : Global.observed (o_version o) (timestamp u) = false.
Hypothesis unseen_edit : o_timestamp o ∉ undo_ids u.
Hypothesis new_edit : ∀ x, x ∈ es → UndoMap.edit_id (UndoMap.entry_key x) ≠ o_timestamp o.
Abbreviation es' := (UndoMap.entries u ++ es).
Abbreviation redo_it := (redo_atom es' (timestamp u) (undo_ids u)).
Lemma touched_kill a : touched (undo_ids u) (kill (o_timestamp o) a) = touched (undo_ids u) a.
Proof. unfold touched, kill. cbn. rewrite existsb_app. cbn. by rewrite (bool_decide_eq_false_2 _ unseen_edit), !orb_false_r. Qed.
Lemma mark_redo a : mark_seen (o_version o) (o_timestamp o) es' (redo_it a) = redo_it (mark_seen (o_version o) (o_timestamp o) es a).
Proof.
  destruct (redo_atom_facts es' (timestamp u) (undo_ids u) a) as (_ & _ & Ed & Et & _).
  unfold mark_seen. rewrite Ed, Et, was_shown_other by done. destruct (was_shown _ _ _ _); [|done].
  unfold redo_atom. rewrite touched_kill. destruct (touched (undo_ids u) a); [|done]. unfold kill. cbn. f_equal. unfold still_shown.
  rewrite forallb_app. cbn. rewrite (undone_other u es (o_timestamp o)) by done. rewrite (never_undone es (o_timestamp o)) by done. by rewrite !andb_false_r.
Qed.
Lemma edit_redo l : apply es' o (map redo_it l) = map redo_it (apply es o l).
Proof.
  apply apply_edits_map.
  - intros a. unfold a_counted, seen. by rewrite (proj1 (proj2 (proj2 (proj2 (redo_atom_facts _ _ _ a))))).
  - intros a. apply newer_key, redo_atom_facts.
  - intros a. apply redo_atom_facts.
  - apply mark_redo.
  - intros a Ha Hd. unfold redo_atom. assert (touched (undo_ids u) a = false) as ->; [|done].
    unfold touched. by rewrite Ha, Hd, bool_decide_eq_false_2.
Qed.
End edit_undo.
Lemma deliverable_redo o es ts ids l : deliverable o (map (redo_atom es ts ids) l) ↔ deliverable o l.
Proof.
  assert (∀ (P : Lamport.t → Prop), Forall (λ a, P (a_timestamp a)) (map (redo_atom es ts ids) l) ↔ Forall (λ a, P (a_timestamp a)) l) as Hts.
  { intros P. rewrite Forall_map. split; intros H; (eapply Forall_impl; [exact H|]); intros a; cbn; by rewrite (proj1 (proj2 (proj2 (proj2 (redo_atom_facts es ts ids a))))). }
  assert (a_keys (map (redo_atom es ts ids) l) = a_keys l) as Hk by (rewrite map_map; apply map_ext; intros a; apply redo_atom_facts).
  assert (applicable (saw o) (newer (o_timestamp o)) 0 (o_edits o) (map (redo_atom es ts ids) l) ↔ applicable (saw o) (newer (o_timestamp o)) 0 (o_edits o) l) as Ha.
  { apply applicable_map.
    - intros a. unfold saw. by rewrite (proj1 (proj2 (proj2 (proj2 (redo_atom_facts _ _ _ a))))).
    - intros a. apply newer_key, redo_atom_facts.
    - intros a. apply redo_atom_facts. }
  pose proof (Hts (λ t, t ≠ o_timestamp o)) as Hf.
  pose proof (Hts (λ t, Global.observed (o_version o) t = true → Lamport.cmp t (o_timestamp o) = Lt)) as Hc.
  split; intros [H1 H2 H3 H4]; split; [by rewrite <- Hk|by apply Hf|by apply Hc|by apply Ha|by rewrite Hk|by apply Hf|by apply Hc|by apply Ha].
Qed.

(** ** The laws *)
Record document := mk_document { d_atoms : list atom; d_entries : undo_entries }.
Inductive change := Edited (o : op) | Undone (u : UndoOperation).
Implicit Types (c : change) (d : document).
Definition c_timestamp c : Lamport.t := match c with Edited o => o_timestamp o | Undone u => timestamp u end.
Definition c_version c : Global.t := match c with Edited o => o_version o | Undone u => version u end.
Definition change_document c d : document :=
  match c with
  | Edited o => mk_document (apply (d_entries d) o (d_atoms d)) (d_entries d)
  | Undone u =>
      let entries := UndoMap.entries u ++ d_entries d in
      mk_document (map (redo_atom entries (timestamp u) (undo_ids u)) (d_atoms d)) entries
  end.
(** An edit that was not undone yet, or an undo operation of edits that its author
    had seen (the base text is no edit). *)
Definition change_ready c d : Prop :=
  match c with
  | Edited o => deliverable o (d_atoms d) ∧ (∀ x, x ∈ d_entries d → UndoMap.edit_id (UndoMap.entry_key x) ≠ o_timestamp o)
  | Undone u => UndoMap.undo_ok u ∧ UndoMap.new_undo u (d_entries d) ∧ base_timestamp ∉ undo_ids u ∧
      Forall (λ e, Global.observed (version u) e = true) (undo_ids u)
  end.
Definition documents_agree d d' : Prop := agree (d_atoms d) (d_atoms d') ∧ d_entries d ≡ₚ d_entries d'.
#[export] Instance change_operations : Operations change document := {
  op_name := c_timestamp;
  knows := λ c c', Global.observed (c_version c) (c_timestamp c');
  run := change_document;
  ready := change_ready;
  agrees := documents_agree;
}.
#[export] Instance documents_agree_equiv : Equivalence documents_agree.
Proof.
  split.
  - intros d. split; done.
  - intros d d' [H1 H2]. by split.
  - intros d d' d'' [H1 H2] [H3 H4]. split; by etransitivity.
Qed.
Lemma apply_perm es fs o l : es ≡ₚ fs → apply es o l = apply fs o l.
Proof.
  intros H. apply apply_edits_ext, Forall_true. intros a. split_and!; [done..|]. unfold mark_seen. by rewrite (was_shown_perm _ _ _ _ _ H).
Qed.
Lemma undo_unknown u o : Forall (λ e, Global.observed (version u) e = true) (undo_ids u) →
  Global.observed (version u) (o_timestamp o) = false → o_timestamp o ∉ undo_ids u.
Proof. intros H Hu Hin. apply (proj1 (Forall_forall _ _) H) in Hin. congruence. Qed.
#[export] Instance change_laws : OperationsLaws change document.
Proof.
  split.
  - apply _.
  - intros [o|u] d d' [Ha He]; cbn.
    + intros [Hd Hn]. split; [by eapply agree_deliverable|]. intros x. rewrite <- He. apply Hn.
    + intros (H1 & H2 & H3 & H4). split_and!; try done. intros x. rewrite <- He. apply H2.
  - intros [o|u] d d' [Ha He] Hr; split; cbn; try done.
    + rewrite (apply_perm _ _ _ (d_atoms d') (symmetry He)). apply agree_apply; [done|apply Hr].
    + apply agree_redo; [by rewrite He|done].
    + by rewrite He.
  - intros [o|u] [o'|u'] d (Hne & Hk & Hk') Hr; cbn in *.
    + rewrite <- (apply_deliverable (d_entries d) o o' (d_atoms d)); [done|apply Hr|by split_and!].
    + destruct Hr as (_ & _ & _ & Hids). rewrite deliverable_redo. split; intros [H1 H2]; (split; [done|]).
      * intros x [Hx|Hx]%elem_of_app; [|by apply H2]. intros E. apply (undo_unknown u' o Hids Hk'). rewrite <- E. by apply entry_id.
      * intros x Hx. apply H2, elem_of_app. by right.
    + done.
    + split; intros (H1 & H2 & H3 & H4); split_and!; try done; intros x Hx.
      * apply elem_of_app in Hx as [Hx|Hx]; [|by apply H2]. rewrite (proj2 (entry_id _ _ Hx)). by intros E.
      * apply H2, elem_of_app. by right.
  - intros [o|u] [o'|u'] d (Hne & Hk & Hk') Hr Hr'; split; cbn in *; try done.
    + apply apply_commutes; [by split_and!|apply Hr|apply Hr'].
    + destruct Hr as [_ Hn], Hr' as (_ & _ & _ & Hids). rewrite edit_redo; [done|done|by apply undo_unknown|done].
    + destruct Hr' as [_ Hn], Hr as (_ & _ & _ & Hids). rewrite edit_redo; [done|done|by apply undo_unknown|done].
    + rewrite !map_map. erewrite map_ext; [reflexivity|]. intros a. apply redo_redo.
    + solve_Permutation.
Qed.

(** ** What is visible
    A character is visible when its insertion is not undone and all its deletions are. *)
Definition atom_shown es a : Prop := a_visible a = still_shown es (a_timestamp a) (a_deletions a).
Definition shown d : Prop := Forall (atom_shown (d_entries d)) (d_atoms d).
Lemma apply_forall es o l (P : atom → Prop) :
  (∀ a, a_timestamp a = o_timestamp o → a_visible a = true → a_deletions a = [] → a_undos a = Global.new → P a) → (∀ a, P a → P (mark_seen (o_version o) (o_timestamp o) es a)) →
  Forall P l → Forall P (apply es o l).
Proof.
  intros Hnew Hm. unfold apply, apply_operation. generalize 0 at 1. generalize 0. revert l.
  induction (o_edits o) as [|[[start stop] t] eds IH]; intros l off n H; [done|]. cbn [apply_edits].
  match goal with |- context [take_measured ?p (start - n) l] => pose proof (take_measured_app p (start - n) l) as E1; destruct (take_measured p (start - n) l) as [x l1] end.
  pose proof (span_whole (newer (o_timestamp o)) l1) as E2. destruct (span _ l1) as [k l2].
  match goal with |- context [take_measured ?p (stop - start) l2] => pose proof (take_measured_app p (stop - start) l2) as E3; destruct (take_measured p (stop - start) l2) as [m l3] end.
  cbn [fst snd] in *. subst l l1 l2. rewrite !Forall_app in H. destruct H as (H1 & H2 & H3 & H4). rewrite !Forall_app. split_and!; [done|done| | |by apply IH].
  - assert (Forall (λ a, a_timestamp a = o_timestamp o ∧ a_visible a = true ∧ a_deletions a = [] ∧ a_undos a = Global.new) (new_text_atoms (o_timestamp o) off t)) as Hn
      by by apply atoms_from_forall.
    eapply Forall_impl; [exact Hn|]. intros a (? & ? & ? & ?). by apply Hnew.
  - apply Forall_map. eapply Forall_impl; [exact H3|done].
Qed.
Lemma change_shown c d : change_ready c d → shown d → shown (change_document c d).
Proof.
  destruct c as [o|u]; unfold shown; cbn [change_document d_atoms d_entries].
  - intros [_ Hn] H. apply apply_forall; [| |done].
    + intros a Et Ev Ed _. unfold atom_shown, still_shown. by rewrite Et, Ev, Ed, never_undone.
    + intros a Ha. unfold mark_seen. destruct (was_shown _ _ _ _); [|done]. unfold atom_shown, kill, still_shown. cbn.
      rewrite forallb_app. cbn. rewrite (never_undone _ (o_timestamp o)) by done. by rewrite !andb_false_r.
  - intros _ H. apply Forall_map. eapply Forall_impl; [exact H|]. intros a Ha. cbn. unfold atom_shown, redo_atom.
    destruct (touched _ a) eqn:Et; [done|]. by rewrite still_shown_other.
Qed.
Lemma document_text d : shown d →
  text_of true (d_atoms d) = map a_char (filter (λ a, still_shown (d_entries d) (a_timestamp a) (a_deletions a) = true) (d_atoms d)).
Proof.
  unfold shown, text_of. induction 1 as [|a l Ha _ IH]; [done|]. rewrite !filter_cons, Ha. case_decide; cbn [map]; by rewrite IH.
Qed.
