(* ===== verification/Delivery.v ===== *)
(** Replicas that receive operations ([Buffer::apply_op]): each does to the document
    what the operation says, and whatever the order is in which the operations
    arrive, the replicas end up with the same document. *)
From S2P Require Import Prelude Clock Locator Patch Subscription SumTree Cursor Keyed UndoMap.
From S2P Require Import Utf8 Rope History Fragments Buffer BufferOps FragmentLaws Builders Cells EditMachine Snapshot Script Origin.
From S2P Require Import Commuting UndoLoop UndoRanges Slices UndoEdit LocalEdit RemoteEdit Convergence Replicas Changes.
Import Buffer.
#[local] Existing Instances UndoMap.UndoMapKey_summary UndoMap.UndoMapEntry_item UndoMap.UndoMapEntry_laws UndoMap.UndoMapEntry_keyed.
Implicit Types (s : BufferSnapshot) (b : Buffer) (h : Topic.heap) (l k : list atom) (cs : list cell) (ts : Lamport.t)
  (o : op) (u : UndoOperation) (c : change) (d : document) (ops : list change).

(** ** Snapshots of documents *)
Record presents s d cs : Prop := {
  p_snapshot : snapshot_of s cs;
  p_atoms : atoms cs = d_atoms d;
  p_entries : ∃ es, Keyed.fits (undo_map s) es ∧ es ≡ₚ d_entries d;
  p_slices : slices_cover s (atoms cs);
  p_version : Global.wf (version s);
}.
Lemma mark_seen_place v ts es a : place (mark_seen v ts es a) = place a.
Proof. unfold mark_seen. by destruct (was_shown _ _ _ _). Qed.
Lemma mark_shown_place ts a : place (mark_shown ts a) = place a.
Proof. unfold mark_shown. by destruct (a_visible a). Qed.
(** What an edit leaves is a snapshot of what it makes of the document. *)
Lemma edited_presents p skip (mark : atom → atom) n es ts s s' cs out d :
  presents s d cs → edited ts s s' cs out → Lamport.ok ts → 0 < Lamport.value ts → Forall (λ a, a_timestamp a ≠ ts) (atoms cs) →
  (∀ a, place (mark a) = place a) → doc out = apply_edits p skip mark ts n 0 es (atoms cs) →
  presents s' (mk_document (doc out) (d_entries d)) (cells out).
Proof.
  intros [Hs Ha (fs & Hf & Hp) Hx Hv] He Hok Hpos Hfr Hm Ed.
  assert (∀ a, a_key (mark a) = a_key a) as Hk by (intros a; apply (f_equal fst (Hm a))).
  destruct (applied_nodup p skip mark ts n 0 es (atoms cs) Hk (s_keys _ _ Hs) Hfr) as [_ Hin]. split; cbn.
  - apply He.
  - done.
  - exists fs. by rewrite (e_undo _ _ _ _ _ He).
  - change (atoms (cells out)) with (doc out). eapply slices_edited; try done; rewrite Ed; [done|]. apply applied_apart; [done|apply Hx|done].
  - by rewrite (e_version _ _ _ _ _ He).
Qed.

(** ** One operation *)
(** The operation as it is sent, and what it satisfies. *)
Definition operation c : Operation :=
  match c with
  | Edited o => EditOp (mk_edit_op (o_timestamp o) (o_version o) (map fst (o_edits o)) (map (λ e, encode e.2) (o_edits o)))
  | Undone u => UndoOp u
  end.
Definition change_ok c : Prop :=
  Lamport.ok (c_timestamp c) ∧ 0 < Lamport.value (c_timestamp c) ∧ Global.wf (c_version c) ∧
  match c with Edited o => Forall (λ e, scalars e.2) (o_edits o) | Undone _ => True end.
Definition change_len c : Z := match c with Edited o => inserted_len (o_edits o) | Undone _ => 0 end.
(** The trees are low enough for the stack of a cursor. *)
Definition low_for s c : bool :=
  low_trees s &&
  match c with
  | Edited _ => true
  | Undone u => match UndoMap.insert (undo_map s) u with Some m => (SumTree.height m <? Cursor.stack_capacity)%nat | None => true end
  end.
Lemma operation_timestamp c : op_timestamp (operation c) = c_timestamp c.
Proof. by destruct c. Qed.
Lemma causal_cells o cs : Forall cell_ok cs → deliverable o (atoms cs) → Forall (causal (o_version o) (o_timestamp o)) cs.
Proof.
  intros Hok Hd. pose proof (d_causal _ _ Hd) as Hc. clear Hd. induction Hok as [|c cs H _ IH]; [done|].
  cbn [atoms flat_map] in Hc. apply Forall_app in Hc as [Hc Hcs]. constructor; [|by apply IH].
  unfold causal. pose proof (c_some _ H) as Hs. unfold atoms_of in Hc. destruct (chars c); [done|]. by apply Forall_cons in Hc as [Hc _].
Qed.
Lemma new_text_len ts off t : all_len (new_text_atoms ts off t) = str_len t.
Proof. exact (measured_from (λ _ _, true) _ off t). Qed.
Lemma all_len_map (g : atom → atom) l : (∀ a, a_len (g a) = a_len a) → all_len (map g l) = all_len l.
Proof. intros H. by apply measured_map. Qed.
Lemma applied_len p skip (mark : atom → atom) ts es : (∀ a, a_len (mark a) = a_len a) → ∀ n off l,
  all_len (apply_edits p skip mark ts n off es l) = inserted_len es + all_len l.
Proof.
  intros Hm. induction es as [|[[start stop] u] es IH]; intros n off l; [done|]. cbn [apply_edits].
  pose proof (take_measured_app p (start - n) l) as E1. destruct (take_measured p (start - n) l) as [x l1].
  pose proof (span_whole skip l1) as E2. destruct (span skip l1) as [k l2].
  pose proof (take_measured_app p (stop - start) l2) as E3. destruct (take_measured p (stop - start) l2) as [d l3]. cbn [fst snd] in *. subst l l1 l2.
  rewrite !all_len_app, new_text_len, all_len_map, IH by done. cbn [inserted_len foldr snd]. fold (inserted_len es). lia.
Qed.
Lemma change_document_len c d : all_len (d_atoms (change_document c d)) = change_len c + all_len (d_atoms d).
Proof.
  destruct c as [o|u]; cbn.
  - apply applied_len. intros a. unfold mark_seen. by destruct (was_shown _ _ _ _).
  - apply all_len_map. intros a. apply redo_atom_facts.
Qed.
Lemma edit_runs h b d cs o :
  presents (snapshot b) d cs → low_trees (snapshot b) = true → change_ok (Edited o) → change_ready (Edited o) d →
  all_len (d_atoms d) + inserted_len (o_edits o) < 2 ^ 32 →
  ∃ h' b' cs', BufferOps.apply_remote_edit h b (mk_edit_op (o_timestamp o) (o_version o) (map fst (o_edits o)) (map (λ e, encode e.2) (o_edits o))) = Some (h', b') ∧
    presents (snapshot b') (change_document (Edited o) d) cs' ∧ version (snapshot b') = version (snapshot b) ∧ lamport_clock b' = lamport_clock b.
Proof.
  intros Hp Hlow (Hok & Hpos & Hwf & Hsc) [Hd _] Hlen. destruct (o_edits o) as [|e es'] eqn:Ees.
  { exists h, b, cs. split_and!; try done. assert (change_document (Edited o) d = d) as ->; [|done].
    destruct d as [l fs]. cbn. unfold apply, apply_operation. by rewrite Ees. }
  pose proof Hp as [Hs Ha (es & Hf & Hes) Hx Hv]. cbn [c_timestamp c_version] in *. rewrite <- Ha in *.
  rewrite <- Ees in *. destruct (remote_edit_runs (o_version o) (o_timestamp o) (snapshot b) cs es e es') as (s' & patch & out & E & He & Ed & _);
    rewrite <- ?Ees; try done; try by apply low_roomy.
  { apply (d_fresh _ _ Hd). }
  { apply causal_cells; [apply Hs|done]. }
  { apply (d_applicable _ _ Hd). }
  rewrite <- Ees in E, Ed. unfold BufferOps.apply_remote_edit. cbn [ranges edit_version new_text edit_timestamp].
  destruct (map fst (o_edits o)) as [|r rs] eqn:Er; [by rewrite Ees in Er|]. rewrite E. cbn [mbind option_bind]. unfold publish. destruct (Topic.publish _ _ _) as [h' t].
  exists h', (set_subscriptions t (set_snapshot s' b)), (cells out). split_and!; [done| |apply He|done]. cbn.
  rewrite (apply_perm _ es) by done. change (apply_operation _ _ es _ _) with (apply es o (atoms cs)) in Ed. rewrite <- Ha, <- Ed.
  apply (edited_presents (a_counted (seen (o_version o))) (newer (o_timestamp o)) (mark_seen (o_version o) (o_timestamp o) es) 0 (o_edits o)
    (o_timestamp o) (snapshot b) s' cs out d); try done; [apply (d_fresh _ _ Hd)|apply mark_seen_place].
Qed.
Lemma undo_presents s d cs u :
  presents s d cs → low_for s (Undone u) = true → change_ready (Undone u) d → all_len (d_atoms d) < 2 ^ 32 →
  ∃ s' patch cs', Buffer.apply_undo s u = Some (s', patch) ∧ presents s' (change_document (Undone u) d) cs' ∧ version s' = version s ∧
    Patch.relates 0 0 patch (encode (text_of true (atoms cs))) (encode (text_of true (atoms cs'))).
Proof.
  intros [Hs Ha (es & Hf & Hes) Hx Hv] [Hlow Hroom]%andb_true_iff (Hu & Hn & Hb & _) Hlen. rewrite <- Ha in *.
  destruct (undo_runs s cs u es) as (s' & patch & es' & cs' & E & Hs' & (_ & Ei & Ev & _) & Hf' & Hes' & Ea & Hr); try done.
  - by apply low_roomy.
  - intros x Hin. apply Hn. by rewrite <- Hes.
  - intros m Em. rewrite Em in Hroom. by apply Nat.ltb_lt.
  - exists s', patch, cs'. split_and!; [done| |done|done]. split; cbn.
    + done.
    + rewrite Ea, Ha. apply map_ext. intros a. unfold redo_atom. destruct (touched _ _); [|done]. f_equal. apply still_shown_perm; [by rewrite Hes', Hes|done].
    + exists es'. split; [done|]. by rewrite Hes', Hes.
    + rewrite Ea. by apply (slices_same s); [|intros a; apply redo_place|].
    + by rewrite Ev.
Qed.
Lemma apply_undo_runs h b d cs u :
  presents (snapshot b) d cs → low_for (snapshot b) (Undone u) = true → change_ready (Undone u) d → all_len (d_atoms d) < 2 ^ 32 →
  ∃ h' b' cs', BufferOps.apply_undo h b u = Some (h', b') ∧
    presents (snapshot b') (change_document (Undone u) d) cs' ∧ version (snapshot b') = version (snapshot b) ∧ lamport_clock b' = lamport_clock b.
Proof.
  intros Hp Hlow Hr Hlen. destruct (undo_presents _ _ _ _ Hp Hlow Hr Hlen) as (s' & patch & cs' & E & Hp' & Ev & _).
  unfold BufferOps.apply_undo. rewrite E. cbn [mbind option_bind]. unfold publish. destruct (Topic.publish _ _ _) as [h' t].
  by exists h', (set_subscriptions t (set_snapshot s' b)), cs'.
Qed.
(** [apply_op] runs an operation that the version has not seen. *)
Lemma apply_op_runs h b d cs c :
  presents (snapshot b) d cs → low_for (snapshot b) c = true → change_ok c → change_ready c d →
  Global.observed (version (snapshot b)) (c_timestamp c) = false → all_len (d_atoms d) + change_len c < 2 ^ 32 →
  ∃ h' b' cs', apply_op h b (operation c) = Some (h', b') ∧ presents (snapshot b') (change_document c d) cs' ∧
    version (snapshot b') = Global.observe (version (snapshot b)) (c_timestamp c) ∧
    lamport_clock b' = Lamport.observe (lamport_clock b) (c_timestamp c).
Proof.
  intros Hp Hlow Hok Hr Hob Hlen. unfold apply_op. rewrite operation_timestamp, Hob. cbn [negb].
  assert (∃ h' b' cs', match operation c with EditOp edit => BufferOps.apply_remote_edit h b edit | UndoOp undo => BufferOps.apply_undo h b undo end = Some (h', b') ∧
    presents (snapshot b') (change_document c d) cs' ∧ version (snapshot b') = version (snapshot b) ∧ lamport_clock b' = lamport_clock b)
    as (h' & b' & cs' & E & Hp' & Ev & Ec).
  { destruct c as [o|u].
    - apply (edit_runs h b d cs o); try done. by apply andb_true_iff in Hlow as [? _].
    - apply (apply_undo_runs h b d cs u); try done. cbn in Hlen. lia. }
  rewrite E. cbn [mbind option_bind]. eexists h', _, cs'. split; [reflexivity|]. cbn. rewrite Ev, Ec. split_and!; [|done|done].
  destruct Hp' as [Hs Ha He Hx Hv]. split; cbn; [by destruct Hs|done|done| |].
  - by destruct Hx.
  - rewrite <- Ev. apply Global.wf_observe; [done|apply Hok].
Qed.

(** C10: Undo. Given a snapshot of the document [d], in which a character is
    visible when its insertion is not undone and all its deletions are, and an undo
    operation that is new and whose edits its author had seen: [apply_undo] does
    not panic. It keeps the characters, their order and what is known of them; the
    visible text is then that of the characters whose insertion is not undone and
    whose deletions all are, with the new counts; the patch relates the two texts,
    and the trees of the new snapshot index the new document. *)
Theorem undo_correct s d cs u :
  presents s d cs → shown d → low_for s (Undone u) = true → change_ready (Undone u) d → all_len (d_atoms d) < 2 ^ 32 →
  ∃ s' patch cs', Buffer.apply_undo s u = Some (s', patch) ∧ presents s' (change_document (Undone u) d) cs' ∧ shown (change_document (Undone u) d) ∧
    map place (atoms cs') = map place (atoms cs) ∧
    text_of true (atoms cs') =
      map a_char (filter (λ a, still_shown (UndoMap.entries u ++ d_entries d) (a_timestamp a) (a_deletions a) = true) (atoms cs)) ∧
    Patch.relates 0 0 patch (encode (text_of true (atoms cs))) (encode (text_of true (atoms cs'))).
Proof.
  intros Hp Hsh Hlow Hr Hlen. destruct (undo_presents _ _ _ _ Hp Hlow Hr Hlen) as (s' & patch & cs' & E & Hp' & _ & Hrel).
  pose proof (change_shown _ _ Hr Hsh) as Hsh'. exists s', patch, cs'. split_and!; try done.
  - rewrite (p_atoms _ _ _ Hp'), (p_atoms _ _ _ Hp). cbn. rewrite map_map. apply map_ext. intros a. apply redo_place.
  - rewrite (p_atoms _ _ _ Hp'), (document_text _ Hsh'), (p_atoms _ _ _ Hp). cbn [change_document d_atoms d_entries]. generalize (d_atoms d). clear.
    intros l. induction l as [|a l IH]; [done|]. cbn [map]. rewrite !filter_cons.
    destruct (redo_atom_facts (UndoMap.entries u ++ d_entries d) (timestamp u) (undo_ids u) a) as (_ & Ec & Ed & Et & _). rewrite Ed, Et.
    case_decide; cbn [map]; rewrite IH; [by rewrite Ec|done].
Qed.

(** C9: Receiving an operation. A buffer whose snapshot presents a document gets
    an operation that its version has not observed and that can be applied to the
    document: [apply_op] does not panic, and the snapshot then presents what the
    operation makes of the document, with what is visible decided by the counts of
    undone edits; the version and the clock have observed the operation. *)
Theorem apply_op_correct h b d cs c :
  presents (snapshot b) d cs → shown d → low_for (snapshot b) c = true → change_ok c → change_ready c d →
  Global.observed (version (snapshot b)) (c_timestamp c) = false → all_len (d_atoms d) + change_len c < 2 ^ 32 →
  ∃ h' b' cs', apply_op h b (operation c) = Some (h', b') ∧ presents (snapshot b') (change_document c d) cs' ∧ shown (change_document c d) ∧
    version (snapshot b') = Global.observe (version (snapshot b)) (c_timestamp c) ∧
    lamport_clock b' = Lamport.observe (lamport_clock b) (c_timestamp c).
Proof.
  intros Hp Hsh Hl Hok Hr Hu Hlen. destruct (apply_op_runs h b d cs c) as (h' & b' & cs' & E & Hp' & Ev & Ec); try done.
  exists h', b', cs'. split_and!; try done. by apply change_shown.
Qed.

(** ** A sequence of operations *)
Fixpoint deliver h b ops : option (Topic.heap * Buffer) :=
  match ops with [] => Some (h, b) | c :: ops => '(h, b) ← apply_op h b (operation c); deliver h b ops end.
(** The trees stay low enough. *)
Fixpoint stay_low h b ops : bool :=
  match ops with
  | [] => true
  | c :: ops => low_for (snapshot b) c && match apply_op h b (operation c) with Some (h, b) => stay_low h b ops | None => true end
  end.
Definition total_len ops : Z := foldr (λ c n, change_len c + n) 0 ops.
Lemma change_len_nonneg c : 0 ≤ change_len c.
Proof. destruct c; [apply inserted_len_nonneg|done]. Qed.
Lemma total_len_nonneg ops : 0 ≤ total_len ops.
Proof. unfold total_len. induction ops as [|c ops IH]; cbn; [done|]. pose proof (change_len_nonneg c). lia. Qed.
Lemma total_len_perm ops ops' : ops ≡ₚ ops' → total_len ops = total_len ops'.
Proof. unfold total_len. induction 1; cbn; lia. Qed.
(** A replica has seen what it made before. *)
Definition successive ops : Prop := ∀ c c', c ∈ ops → c' ∈ ops →
  Lamport.replica_id (c_timestamp c) = Lamport.replica_id (c_timestamp c') → Lamport.value (c_timestamp c) ≤ Lamport.value (c_timestamp c') →
  c = c' ∨ knows (O := change) (S := document) c' c = true.
Lemma observed_observe (v : Global.t) (x t : Lamport.t) : Global.wf v → Lamport.ok x → Lamport.ok t →
  Global.observed (Global.observe v x) t = true ↔
  Global.observed v t = true ∨ Lamport.replica_id t = Lamport.replica_id x ∧ Lamport.value t ≤ Lamport.value x.
Proof.
  intros Hv Hx Ht. rewrite !(observed_nth _ t Ht), !Z.leb_le, Global.nth_observe by (done || apply Hv).
  destruct Hx as [_ [Hx _]], Ht as [_ [Ht _]]. destruct (Lamport.replica_id x) as [rx], (Lamport.replica_id t) as [rt]. cbn in *.
  case_decide as E.
  - assert (rt = rx) as -> by lia. rewrite Z.max_le_iff. naive_solver.
  - split; [tauto|]. intros [?|[[=] ?]]; [done|congruence].
Qed.
Lemma observe_get (v : Global.t) (x : Lamport.t) r : Global.wf v → Lamport.ok x →
  Global.get (Global.observe v x) r = if decide (r = Lamport.replica_id x) then Z.max (Global.get v r) (Lamport.value x) else Global.get v r.
Proof.
  intros Hv Hx. destruct (Z.le_gt_cases 0 (ReplicaId.id r)) as [Hr|Hr].
  - rewrite !Global.get_nth, Global.nth_observe by (done || apply Hv). destruct Hx as [_ [Hx _]].
    destruct r as [r], (Lamport.replica_id x) as [rx]. cbn in *. repeat case_decide; try done; [|congruence]. exfalso. assert (r = rx) by lia. congruence.
  - rewrite !Global.get_neg by done. case_decide as E; [|done]. subst r. destruct Hx as [_ [? _]]. lia.
Qed.
(** What a version has observed after some operations is known: [v] before, and them. *)
Definition unseen_by (v : Global.t) ops : Prop := ∀ c, c ∈ ops → Global.observed v (c_timestamp c) = false.
Lemma unseen_observe v c ops : Global.wf v → change_ok c → Forall change_ok ops → successive (c :: ops) →
  NoDup (map c_timestamp (c :: ops)) → Forall (λ c', knows (O := change) (S := document) c c' = false) ops →
  unseen_by v (c :: ops) → unseen_by (Global.observe v (c_timestamp c)) ops.
Proof.
  intros Hv Hc Hok Hs [Hnd _]%NoDup_cons Hk Hu c' Hc'. apply not_true_iff_false.
  rewrite observed_observe; [|done|apply Hc|by apply (proj1 (Forall_forall _ _) Hok)]. intros [H|[Er Hle]].
  - rewrite Hu in H; [done|by right].
  - destruct (Hs c' c) as [->|H]; [by right|left|done|done| |].
    + apply Hnd. by apply list_elem_of_fmap_2.
    + apply (proj1 (Forall_forall _ _) Hk) in Hc'. congruence.
Qed.
Lemma successive_tail c ops : successive (c :: ops) → successive ops.
Proof. intros H x y Hx Hy. apply H; by right. Qed.
Lemma deliver_runs ops : Forall change_ok ops → ∀ h b d cs,
  presents (snapshot b) d cs → stay_low h b ops = true → ready_all ops d → unseen_by (version (snapshot b)) ops →
  successive ops → NoDup (map c_timestamp ops) → causal_order (O := change) (S := document) ops →
  all_len (d_atoms d) + total_len ops < 2 ^ 32 →
  ∃ h' b' cs', deliver h b ops = Some (h', b') ∧ presents (snapshot b') (run_all ops d) cs'.
Proof.
  induction 1 as [|c ops Hc Hok IH]; intros h b d cs Hp Hlow Hr Hu Hs Hnd Hco Hlen; [by exists h, b, cs|].
  cbn [deliver stay_low ready_all run_all total_len foldr] in *. fold (total_len ops) in Hlen. apply andb_true_iff in Hlow as [Hl Hlow]. destruct Hr as [Hr Hrs].
  pose proof (total_len_nonneg ops). apply StronglySorted_inv in Hco as [Hco Hck].
  destruct (apply_op_runs h b d cs c) as (h1 & b1 & cs1 & E & Hp1 & Ev & _); try done; [by apply Hu; left|lia|].
  rewrite E in *. cbn [mbind option_bind]. apply (IH h1 b1 _ cs1); try done.
  - rewrite Ev. apply unseen_observe; try done; apply Hp.
  - by eapply successive_tail.
  - by apply NoDup_cons in Hnd as [_ Hnd].
  - cbn [run change_operations]. rewrite change_document_len. lia.
Qed.
Lemma agree_len l k : agree l k → all_len l = all_len k.
Proof.
  unfold all_len. induction 1 as [|a b l k H _ IH]; [done|]. rewrite !measured_cons, IH. unfold a_len. destruct H as (_ & -> & _). done.
Qed.
Lemma successive_perm ops ops' : ops ≡ₚ ops' → successive ops → successive ops'.
Proof. intros Hp H x y. rewrite <- Hp. apply H. Qed.

(** Replicas converge. [log] is a history of edits and undo operations: each
    was made where the operations that its author had seen had been applied to
    the document [d], a replica sees its own operations, and whoever sees an
    operation has seen what its author had. Two replicas that start with [d] and
    have seen none of them receive all of them by [apply_op], each in an order of
    its own in which no operation precedes one that its author had seen. Then
    neither panics, and they end up with documents that agree (up to the order in
    which deletions of a character were recorded), and with the same text. *)
Theorem replicas_converge log ops ops' h h' b b' d cs cs' :
  made log d → Forall change_ok log → successive log →
  presents (snapshot b) d cs → presents (snapshot b') d cs' →
  unseen_by (version (snapshot b)) log → unseen_by (version (snapshot b')) log →
  ops ≡ₚ log → ops' ≡ₚ log → causal_order (O := change) (S := document) ops → causal_order (O := change) (S := document) ops' →
  all_len (d_atoms d) + total_len log < 2 ^ 32 → stay_low h b ops = true → stay_low h' b' ops' = true →
  ∃ g g' r r' e e' t, deliver h b ops = Some (g, r) ∧ deliver h' b' ops' = Some (g', r') ∧
    snapshot_of (snapshot r) e ∧ snapshot_of (snapshot r') e' ∧ agree (atoms e) (atoms e') ∧
    has (visible_text (snapshot r)) t ∧ has (visible_text (snapshot r')) t.
Proof.
  intros Hm Hok Hs Hp Hp' Hu Hu' H1 H2 Hc Hc' Hlen Hl Hl'.
  destruct (histories_agree log ops ops' d Hm H1 H2 Hc Hc') as (Hr & Hr' & [Ha _]). destruct (made_orders log d Hm) as [Hnd _].
  assert (∀ x, x ≡ₚ log → Forall change_ok x ∧ successive x ∧ NoDup (map c_timestamp x) ∧ total_len x = total_len log ∧
    ∀ v, unseen_by v log → unseen_by v x) as Hk.
  { intros x Hp0. split_and!; [by rewrite Hp0|by eapply (successive_perm log)|by rewrite Hp0|by apply total_len_perm|].
    intros v H y. rewrite Hp0. apply H. }
  destruct (Hk ops H1) as (Hok1 & Hs1 & Hn1 & Ht1 & Hu1), (Hk ops' H2) as (Hok2 & Hs2 & Hn2 & Ht2 & Hu2).
  destruct (deliver_runs ops Hok1 h b d cs) as (g & r & e & E & Hq); try done; [by apply Hu1|by rewrite Ht1|].
  destruct (deliver_runs ops' Hok2 h' b' d cs') as (g' & r' & e' & E' & Hq'); try done; [by apply Hu2|by rewrite Ht2|].
  assert (agree (atoms e) (atoms e')) as Hag by (by rewrite (p_atoms _ _ _ Hq), (p_atoms _ _ _ Hq')).
  exists g, g', r, r', e, e', (text_of true (atoms e)). split_and!; try done; [apply Hq|apply Hq'|apply (s_visible _ _ (p_snapshot _ _ _ Hq))|].
  rewrite (agree_text true _ _ Hag). apply (s_visible _ _ (p_snapshot _ _ _ Hq')).
Qed.

(** ** New replicas *)
Definition base_document t : document := mk_document (atoms (base_cells t)) [].
Lemma new_buffer_presents replica_id remote_id line_ending normalized t : has normalized t →
  ∃ b, new_normalized replica_id remote_id line_ending normalized = Some b ∧ presents (snapshot b) (base_document t) (base_cells t) ∧
    ∀ ops, Forall (λ c, Lamport.ok (c_timestamp c) ∧ 0 < Lamport.value (c_timestamp c) ∧ Lamport.replica_id (c_timestamp c) ≠ ReplicaId.LOCAL) ops →
      unseen_by (version (snapshot b)) ops.
Proof.
  intros H. destruct (new_buffer_runs replica_id remote_id line_ending normalized t H) as (b & E & Hs & _ & Hu & _).
  destruct (new_buffer_fields _ _ _ _ _ E) as (Ei & _ & _ & _ & Ev). exists b. split_and!; [done|split; cbn|].
  - done.
  - done.
  - exists []. split; [|done]. rewrite Hu. apply UndoMap.fits_new.
  - assert (slices_of (snapshot b) = []) as El by by (unfold slices_of; rewrite Ei). split; rewrite ?El.
    + constructor.
    + rewrite base_atoms. apply apart_from.
    + by intros sl ?%elem_of_nil.
    + intros e a He Ha [-> |Hd].
      * destruct He. rewrite base_atoms in Ha. revert a Ha. apply Forall_forall, atoms_from_forall. done.
      * assert (a_deletions a = []) as Ed by (rewrite base_atoms in Ha; revert a Ha Hd; intros a Ha _; revert a Ha; apply Forall_forall, atoms_from_forall; done).
        rewrite Ed in Hd. by apply elem_of_nil in Hd.
    + by intros sl a ?%elem_of_nil.
  - rewrite Ev. destruct (Rope.is_empty normalized); [apply Global.wf_new|]. apply Global.wf_observe; [apply Global.wf_new|done].
  - intros ops Hok c Hc. apply (proj1 (Forall_forall _ _) Hok) in Hc as (H1 & H2 & H3). apply not_true_iff_false. rewrite Ev.
    assert (Global.observed Global.new (c_timestamp c) ≠ true) as Hn.
    { rewrite (observed_nth _ _ H1), Z.leb_le. change (Global.nth Global.new _) with 0. lia. }
    destruct (Rope.is_empty normalized); [done|]. rewrite observed_observe by (done || apply Global.wf_new). intros [?|[? _]]; done.
Qed.

(** *** Two edits of one text, and an undo operation *)
Definition sample_undo : UndoOperation :=
  mk_undo (Lamport.mk 3 (ReplicaId.mk 1)) (Global.observe sample_version (Lamport.mk 2 (ReplicaId.mk 1))) {[Lamport.mk 2 (ReplicaId.mk 1) := 1]}.
Definition sample_log : list change := [Edited sample_op1; Edited sample_op2; Undone sample_undo].
Definition sample_order : list change := [Edited sample_op2; Edited sample_op1; Undone sample_undo].
Lemma sample_log_ok : Forall change_ok sample_log.
Proof.
  pose proof sample_wf. repeat apply Forall_cons_2; try apply Forall_nil_2; (split_and!; [by vm_compute|done| |]); try done; try by repeat constructor.
  by apply Global.wf_observe.
Qed.
Lemma sample_made : made sample_log (base_document [97; 98; 99]).
Proof.
  destruct sample_deliverables as [H1 H2].
  apply (made_snoc [Edited sample_op1; Edited sample_op2] (Undone sample_undo)); [apply (made_snoc [Edited sample_op1] (Edited sample_op2)); [apply (made_snoc [] (Edited sample_op1)); [constructor|..]|..]|..].
  - by apply not_elem_of_nil.
  - constructor.
  - by intros ? ? ?%elem_of_nil.
  - split; [done|]. by intros x ?%elem_of_nil.
  - cbn. by intros ?%list_elem_of_singleton.
  - by repeat constructor.
  - intros o1 o2 ->%list_elem_of_singleton ->%list_elem_of_singleton. done.
  - split; [done|]. by intros x ?%elem_of_nil.
  - cbn. intros [H|H%list_elem_of_singleton]%elem_of_cons; done.
  - by repeat constructor.
  - intros o1 o2 [->| ->%list_elem_of_singleton]%elem_of_cons [->| ->%list_elem_of_singleton]%elem_of_cons; done.
  - split_and!.
    + split; [done|]. intros id n. cbn. intros [<- <-]%lookup_singleton_Some. done.
    + by intros x ?%elem_of_nil.
    + by vm_compute; intros ?%list_elem_of_singleton.
    + vm_compute. by repeat constructor.
Qed.
Lemma sample_successive : successive sample_log.
Proof.
  intros c c' Hc Hc'. unfold sample_log in *. rewrite !elem_of_cons in Hc, Hc'.
  repeat match goal with H : _ ∨ _ |- _ => destruct H as [->|H] | H : _ ∈ [] |- _ => by apply elem_of_nil in H end;
    cbn; intros E Hle; (by left) || (by right; vm_compute) || (exfalso; lia) || congruence.
Qed.
Lemma sample_causal : causal_order (O := change) (S := document) sample_log ∧ causal_order (O := change) (S := document) sample_order.
Proof. split; repeat constructor. Qed.
Definition no_heap : Topic.heap := Topic.mk_heap ∅ 0.
Lemma sample_start replica_id : ∃ b, sample_buffer replica_id = Some b ∧ presents (snapshot b) (base_document [97; 98; 99]) (base_cells [97; 98; 99]) ∧
  unseen_by (version (snapshot b)) sample_log.
Proof.
  destruct sample_text_rope as (r & E & Hr). destruct (new_buffer_presents (ReplicaId.mk replica_id) 1 Unix r [97; 98; 99] Hr) as (b & Eb & Hp & Hu).
  exists b. unfold sample_buffer. rewrite E. cbn [mbind option_bind]. rewrite Eb. split_and!; [done..|]. apply Hu.
  repeat apply Forall_cons_2; try apply Forall_nil_2; by vm_compute.
Qed.
Lemma sample_low replica_id ops b : sample_buffer replica_id = Some b →
  match sample_buffer replica_id with Some b => stay_low no_heap b ops | None => false end = true → stay_low no_heap b ops = true.
Proof. by intros ->. Qed.
Lemma replicas_converge_witness : ∃ b b' g g' r r' t, sample_buffer 1 = Some b ∧ sample_buffer 2 = Some b' ∧
  deliver no_heap b sample_log = Some (g, r) ∧ deliver no_heap b' sample_order = Some (g', r') ∧
  has (visible_text (snapshot r)) t ∧ has (visible_text (snapshot r')) t.
Proof.
  destruct (sample_start 1) as (b & E & Hp & Hu), (sample_start 2) as (b' & E' & Hp' & Hu'). exists b, b'.
  destruct (replicas_converge sample_log sample_log sample_order no_heap no_heap b b' _ _ _ sample_made sample_log_ok sample_successive Hp Hp' Hu Hu')
    as (g & g' & r & r' & e & e' & t & E1 & E2 & _ & _ & _ & H1 & H2).
  - done.
  - apply Permutation_swap.
  - apply sample_causal.
  - apply sample_causal.
  - by vm_compute.
  - apply (sample_low 1); [done|by vm_compute].
  - apply (sample_low 2); [done|by vm_compute].
  - exists g, g', r, r', t. exact (conj E (conj E' (conj E1 (conj E2 (conj H1 H2))))).
Defined.
(** The undo operation, received after the edit that it takes back. *)
Definition sample_document : document := run_all (O := change) [Edited sample_op1] (base_document [97; 98; 99]).
Definition sample_edited : option BufferSnapshot := b ← sample_buffer 1; '(_, b) ← deliver no_heap b [Edited sample_op1]; Some (snapshot b).
Lemma sample_edited_ok : ∃ s cs, sample_edited = Some s ∧ presents s sample_document cs ∧ low_for s (Undone sample_undo) = true.
Proof.
  destruct (sample_start 1) as (b & E & Hp & Hu). pose proof (made_ready _ _ sample_made) as (Hr & _).
  destruct (deliver_runs [Edited sample_op1]) with (h := no_heap) (b := b) (d := base_document [97; 98; 99]) (cs := base_cells [97; 98; 99])
    as (g & r & e & E1 & Hq).
  - pose proof sample_log_ok as Hl. apply Forall_cons in Hl as [Hl _]. by apply Forall_singleton.
  - exact Hp.
  - apply (sample_low 1); [exact E|by vm_compute].
  - by split.
  - intros c ->%list_elem_of_singleton. apply Hu. left.
  - intros c c' ->%list_elem_of_singleton ->%list_elem_of_singleton _ _. by left.
  - apply NoDup_singleton.
  - by repeat constructor.
  - by vm_compute.
  - assert (sample_edited = Some (snapshot r)) as Es by (unfold sample_edited; rewrite E; cbn [mbind option_bind]; by rewrite E1).
    exists (snapshot r), e. split_and!; [exact Es|exact Hq|].
    assert (match sample_edited with Some s => low_for s (Undone sample_undo) | None => false end = true) as Hl by by vm_compute. by rewrite Es in Hl.
Qed.
Lemma sample_undo_ready : change_ready (Undone sample_undo) sample_document.
Proof.
  pose proof (made_ready _ _ sample_made) as (_ & _ & Hr & _). destruct Hr as (H1 & _ & H3 & H4). split_and!; [exact H1| |exact H3|exact H4].
  intros x. change (d_entries sample_document) with (@nil UndoMap.UndoMapEntry). by intros ?%elem_of_nil.
Qed.
Lemma undo_correct_witness : ∃ s s' patch cs', sample_edited = Some s ∧ Buffer.apply_undo s sample_undo = Some (s', patch) ∧
  snapshot_of s' cs' ∧ text_of true (atoms cs') = [97; 98; 99].
Proof.
  destruct sample_edited_ok as (s & cs & E & Hp & Hl).
  destruct (undo_correct s sample_document cs sample_undo Hp) as (s' & patch & cs' & E' & Hp' & _ & _ & Ht & _).
  - vm_compute. by repeat constructor.
  - exact Hl.
  - apply sample_undo_ready.
  - by vm_compute.
  - exists s, s', patch, cs'. split_and!; [exact E|exact E'|apply Hp'|]. rewrite Ht, (p_atoms _ _ _ Hp). by vm_compute.
Defined.
Lemma apply_op_correct_witness : ∃ b h' b' cs', sample_buffer 1 = Some b ∧ apply_op no_heap b (operation (Edited sample_op2)) = Some (h', b') ∧
  snapshot_of (snapshot b') cs' ∧ text_of true (atoms cs') = [97; 121; 99].
Proof.
  destruct (sample_start 1) as (b & E & Hp & Hu).
  destruct (apply_op_correct no_heap b (base_document [97; 98; 99]) (base_cells [97; 98; 99]) (Edited sample_op2) Hp)
    as (h' & b' & cs' & E' & Hp' & _).
  - vm_compute. by repeat constructor.
  - assert (match sample_buffer 1 with Some b => low_for (snapshot b) (Edited sample_op2) | None => false end = true) as Hl by by vm_compute. by rewrite E in Hl.
  - pose proof sample_log_ok as Hl. by apply Forall_cons in Hl as [_ [Hl _]%Forall_cons].
  - split; [apply sample_deliverables|]. intros x []%elem_of_nil.
  - apply Hu. right. left.
  - by vm_compute.
  - exists b, h', b', cs'. split_and!; [exact E|exact E'|apply Hp'|]. rewrite (p_atoms _ _ _ Hp'). by vm_compute.
Defined.
