(* ===== verification/Deferral.v ===== *)
(** Operations that arrive in any order ([Buffer::apply_ops]): those that the version
    does not cover yet wait in the queue of deferred operations. *)
From S2P Require Import Prelude Clock Locator Patch Subscription SumTree Cursor Iter Keyed TreeMap UndoMap OperationQueue.
From S2P Require Import Utf8 Rope History Fragments Buffer BufferOps FragmentLaws Builders Cells EditMachine Snapshot Script Origin.
From S2P Require Import Commuting UndoEdit Replicas Changes Delivery.
Import Buffer.
#[local] Existing Instances OperationQueue.OperationItem_item OperationQueue.OperationSummary_summary OperationQueue.OperationItem_laws
  OperationQueue.OperationItem_keyed OperationQueue.OperationKey_dimension.
Implicit Types (b : Buffer) (h : Topic.heap) (d : document) (x y z : change) (ops log A Q D P held : list change).
Abbreviation saw_change x y := (knows (O := change) (S := document) x y).
Abbreviation result A d := (run_all (O := change) (S := document) A d).

(** ** Histories that replicas receive *)
(** [d] and [v] are the document and the version before any of the operations. *)
Record log_ok d (v : Global.t) log : Prop := {
  g_made : made log d;
  g_changes : Forall change_ok log;
  g_successive : successive log;
  g_trans x y z : x ∈ log → y ∈ log → z ∈ log → saw_change x y = true → saw_change y z = true → saw_change x z = true;
  g_later x y : x ∈ log → y ∈ log → saw_change x y = true → Lamport.cmp (c_timestamp y) (c_timestamp x) = Lt;
  g_wf : Global.wf v;
  g_unseen : unseen_by v log;
  g_known x r : x ∈ log → Global.get (c_version x) r ≤ Global.get v r ∨
    ∃ y, y ∈ log ∧ saw_change x y = true ∧ Lamport.replica_id (c_timestamp y) = r ∧
      Global.get (c_version x) r ≤ Lamport.value (c_timestamp y);
  g_len : all_len (d_atoms d) + total_len log < 2 ^ 32;
  g_clock x : x ∈ log → Lamport.value (c_timestamp x) < u32_MAX;
}.
Lemma result_len A : ∀ d, all_len (d_atoms (result A d)) = total_len A + all_len (d_atoms d).
Proof.
  induction A as [|x A IH]; intros d; [done|]. cbn [run_all total_len foldr]. rewrite IH. cbn [run change_operations].
  rewrite change_document_len. unfold total_len. lia.
Qed.
Lemma total_len_part A log : NoDup A → (∀ x, x ∈ A → x ∈ log) → total_len A ≤ total_len log.
Proof.
  intros Hnd Hin. destruct (submseteq_Permutation A log) as [k Hp]; [by apply NoDup_submseteq|].
  rewrite (total_len_perm _ _ Hp). unfold total_len. rewrite foldr_app. pose proof (total_len_nonneg k).
  enough (∀ n, 0 ≤ n → foldr (λ c m, change_len c + m) 0 A ≤ foldr (λ c m, change_len c + m) n A) as H' by (by apply H').
  intros n Hn. clear - Hn. induction A as [|x A IH]; cbn; lia.
Qed.
(** What [apply_op] leaves alone. *)
Definition same_rest b b' : Prop :=
  history b' = history b ∧ deferred_ops b' = deferred_ops b ∧ deferred_replicas b' = deferred_replicas b ∧
  Lamport.replica_id (lamport_clock b') = Lamport.replica_id (lamport_clock b).
Lemma apply_op_rest h b op h' b' : apply_op h b op = Some (h', b') → same_rest b b'.
Proof.
  unfold same_rest, apply_op. destruct (negb _); [|intros [= _ <-]; by split_and!].
  destruct op as [edit|undo]; [unfold BufferOps.apply_remote_edit; destruct (ranges edit) as [|r rs]|unfold BufferOps.apply_undo].
  - intros [= _ <-]. by split_and!.
  - destruct (Buffer.apply_remote_edit _ _ _ _ _) as [[s p]|]; [|done]. cbn [mbind option_bind]. unfold publish.
    destruct (Topic.publish _ _ _). intros [= _ <-]. by split_and!.
  - destruct (Buffer.apply_undo _ _) as [[s p]|]; [|done]. cbn [mbind option_bind]. unfold publish.
    destruct (Topic.publish _ _ _). intros [= _ <-]. by split_and!.
Qed.
(** The trees are low enough, and the clock does not overflow. *)
Definition low_op b (op : Operation) : bool :=
  low_trees (snapshot b) && (Lamport.value (lamport_clock b) <? u32_MAX) &&
  match op with
  | EditOp _ => true
  | UndoOp u =>
      match UndoMap.insert (undo_map (snapshot b)) u with Some m => (SumTree.height m <? Cursor.stack_capacity)%nat | None => true end
  end.
Lemma low_operation b x : low_op b (operation x) = true → low_for (snapshot b) x = true ∧ Lamport.value (lamport_clock b) < u32_MAX.
Proof.
  unfold low_op, low_for. rewrite !andb_true_iff, Z.ltb_lt. destruct x; cbn [operation]; tauto.
Qed.
(** The clock is ahead of everything that was seen. *)
Definition clock_ahead b : Prop :=
  Lamport.ok (lamport_clock b) ∧ ∀ r, Global.get (version (snapshot b)) r < Lamport.value (lamport_clock b).

Section received.
Variables (d : document) (v : Global.t) (log : list change).
Hypothesis L : log_ok d v log.
(** Everything that [x] knows of is in [A]. *)
Definition known_in (A : change → Prop) x : Prop := ∀ y, y ∈ log → saw_change x y = true → A y.
(** ** A buffer that has applied [A], in this order *)
Record has_applied b A : Prop := {
  h_presents : ∃ cs, presents (snapshot b) (result A d) cs;
  h_nodup : NoDup A;
  h_log x : x ∈ A → x ∈ log;
  h_causal : causal_order (O := change) (S := document) A;
  h_closed : closed_in (S := document) log A;
  h_version x : x ∈ log → Global.observed (version (snapshot b)) (c_timestamp x) = true ↔ x ∈ A;
  h_base r : Global.get v r ≤ Global.get (version (snapshot b)) r;
  h_exact r : Global.get (version (snapshot b)) r ≤ Global.get v r ∨
    ∃ y, y ∈ A ∧ Lamport.replica_id (c_timestamp y) = r ∧ Global.get (version (snapshot b)) r ≤ Lamport.value (c_timestamp y);
  h_clock : clock_ahead b;
}.
Lemma log_change x : x ∈ log → change_ok x.
Proof. apply (proj1 (Forall_forall _ _) (g_changes _ _ _ L)). Qed.
Lemma applied_wf b A : has_applied b A → Global.wf (version (snapshot b)).
Proof. intros H. destruct (h_presents _ _ H) as [cs Hp]. apply Hp. Qed.
Lemma covers_known b A x : has_applied b A → x ∈ log →
  Global.observed_all (version (snapshot b)) (c_version x) = true ↔ known_in (λ y, y ∈ A) x.
Proof.
  intros H Hx. destruct (log_change x Hx) as (_ & _ & Hwf & _). rewrite Global.observed_all_get by (done || by eapply applied_wf). split.
  - intros Hall y Hy Hk. apply (h_version _ _ H y Hy). cbn in Hk. unfold Global.observed in *. apply Z.leb_le in Hk. apply Z.leb_le.
    specialize (Hall (Lamport.replica_id (c_timestamp y))). lia.
  - intros Hk r. destruct (g_known _ _ _ L x r Hx) as [Hle|(y & Hy & Hxy & <- & Hle)].
    + pose proof (h_base _ _ H r). lia.
    + pose proof (proj2 (h_version _ _ H y Hy) (Hk y Hy Hxy)) as Ho. apply Z.leb_le in Ho. lia.
Qed.
Lemma applied_snoc_closed A x : closed_in (S := document) log A → known_in (λ y, y ∈ A) x → closed_in (S := document) log (A ++ [x]).
Proof.
  intros Hcl Hk y z [Hy| ->%list_elem_of_singleton]%elem_of_app Hz Hyz; apply elem_of_app; left; [by eapply Hcl|by apply Hk].
Qed.
Lemma not_self x : x ∈ log → saw_change x x = false.
Proof.
  intros Hx. apply not_true_iff_false. intros H. pose proof (g_later _ _ _ L x x Hx Hx H). by apply (cmp_lt_irrefl Lamport.cmp (c_timestamp x)).
Qed.
(** Applying one more. *)
Lemma applied_step b b' A x : has_applied b A → x ∈ log → x ∉ A → known_in (λ y, y ∈ A) x →
  (∃ cs, presents (snapshot b') (result (A ++ [x]) d) cs) → version (snapshot b') = Global.observe (version (snapshot b)) (c_timestamp x) →
  Lamport.ok (lamport_clock b') → Lamport.value (lamport_clock b) ≤ Lamport.value (lamport_clock b') →
  Lamport.value (c_timestamp x) < Lamport.value (lamport_clock b') → has_applied b' (A ++ [x]).
Proof.
  intros H Hx Hn Hk Hp Ev Hc1 Hc2 Hc3. pose proof (log_change x Hx) as Hok. pose proof (applied_wf _ _ H) as Hwf.
  assert (∀ r, Global.get (version (snapshot b')) r = if decide (r = Lamport.replica_id (c_timestamp x))
    then Z.max (Global.get (version (snapshot b)) r) (Lamport.value (c_timestamp x)) else Global.get (version (snapshot b)) r) as Hget.
  { intros r. rewrite Ev. apply observe_get; [done|apply Hok]. }
  split.
  - done.
  - apply NoDup_app. split_and!; [apply H| |apply NoDup_singleton]. by intros y Hy ->%list_elem_of_singleton.
  - intros y [Hy| ->%list_elem_of_singleton]%elem_of_app; [by apply H|done].
  - apply causal_app. split_and!; [apply H|by repeat constructor|]. intros y z Hy ->%list_elem_of_singleton. apply not_true_iff_false.
    intros E. by apply Hn, (h_closed _ _ H y x Hy Hx E).
  - apply applied_snoc_closed; [apply H|done].
  - intros y Hy. rewrite Ev, observed_observe; [|done|apply Hok|apply (log_change y Hy)]. rewrite (h_version _ _ H y Hy), elem_of_app, list_elem_of_singleton.
    split; [|intros [?| ->]; [by left|right; split; [done|lia]]]. intros [?|[Er Hle]]; [by left|].
    destruct (g_successive _ _ _ L y x Hy Hx Er Hle) as [->|Hxy]; [by right|left; by apply Hk].
  - intros r. pose proof (h_base _ _ H r). pose proof (Hget r). case_decide; lia.
  - intros r. rewrite (Hget r). case_decide as Er.
    + right. destruct (Z.max_spec (Global.get (version (snapshot b)) r) (Lamport.value (c_timestamp x))) as [[? ->]|[? ->]].
      * exists x. split_and!; [apply elem_of_app; right; left|done|done].
      * exfalso. apply Hn, (h_version _ _ H x Hx), Z.leb_le. by rewrite <- Er.
    + destruct (h_exact _ _ H r) as [Hle|(y & Hy & Ey & Hle)]; [by left|right; exists y; split_and!; [apply elem_of_app; by left|done|done]].
  - split; [done|]. intros r. destruct (h_clock _ _ H) as [_ Hc]. specialize (Hc r). rewrite (Hget r). case_decide; lia.
Qed.
Lemma apply_new h b A x : has_applied b A → x ∈ log → x ∉ A → known_in (λ y, y ∈ A) x → low_op b (operation x) = true →
  ∃ h' b', apply_op h b (operation x) = Some (h', b') ∧ has_applied b' (A ++ [x]) ∧ same_rest b b'.
Proof.
  intros H Hx Hn Hk [Hlow Hcl]%low_operation. destruct (h_presents _ _ H) as [cs Hp]. pose proof (log_change x Hx) as Hok.
  assert (NoDup (A ++ [x])) as Hnd.
  { apply NoDup_app. split_and!; [apply H| |apply NoDup_singleton]. by intros y Hy ->%list_elem_of_singleton. }
  assert (causal_order (O := change) (S := document) (A ++ [x])) as Hc.
  { apply causal_app. split_and!; [apply H|by repeat constructor|]. intros y z Hy ->%list_elem_of_singleton. apply not_true_iff_false.
    intros E. by apply Hn, (h_closed _ _ H y x Hy Hx E). }
  assert (∀ y, y ∈ A ++ [x] → y ∈ log) as Hin by (intros y [Hy| ->%list_elem_of_singleton]%elem_of_app; [by apply H|done]).
  pose proof (applied_snoc_closed A x (h_closed _ _ H) Hk) as Hclosed.
  pose proof (closed_ready log (A ++ [x]) d (g_made _ _ _ L) Hnd Hin Hc Hclosed) as [_ [Hr _]]%ready_all_app.
  pose proof (total_len_part _ _ Hnd Hin) as Ht. pose proof (result_len (A ++ [x]) d) as Hl. pose proof (g_len _ _ _ L).
  rewrite run_all_app in Hl. cbn [run_all run change_operations] in Hl. rewrite change_document_len in Hl.
  destruct (apply_op_runs h b (result A d) cs x) as (h' & b' & cs' & E & Hp' & Ev & Ec); try done; [|lia|].
  { apply not_true_iff_false. intros Ho. by apply Hn, (h_version _ _ H x Hx). }
  exists h', b'. split_and!; [done| |by eapply apply_op_rest].
  destruct (h_clock _ _ H) as [Hc1 Hc2]. pose proof (g_clock _ _ _ L x Hx) as Hxs. destruct Hok as ([? ?] & ? & _), Hc1 as [? ?].
  assert (lamport_clock b' = Lamport.mk (Z.max (Lamport.value (lamport_clock b)) (Lamport.value (c_timestamp x)) + 1) (Lamport.replica_id (lamport_clock b))) as Ec'.
  { rewrite Ec. unfold Lamport.observe. rewrite wrap32_id by width. done. }
  apply (applied_step b); try done; rewrite ?Ec'; cbn; [|split; cbn; [width|done]|lia|lia].
  exists cs'. by rewrite run_all_app.
Qed.
Lemma apply_known h b A x : has_applied b A → x ∈ A → apply_op h b (operation x) = Some (h, b).
Proof.
  intros H Hx. unfold apply_op. rewrite operation_timestamp, (proj2 (h_version _ _ H x (h_log _ _ H x Hx)) Hx). done.
Qed.
End received.

(** ** A pass over some operations *)
Definition low_history b : bool := (SumTree.height (History.operations (history b)) <? Cursor.stack_capacity)%nat.
Definition low_queue b : bool := (SumTree.height (deferred_ops b) <? Cursor.stack_capacity)%nat.
Definition blocked (op : Operation) b : Buffer := set_deferred (deferred_ops b) (set_insert (op_replica_id op) (deferred_replicas b)) b.
(** The trees stay low enough during it. *)
Fixpoint low_ops (record : Operation → Buffer → option Buffer) h b (ops : list Operation) : bool :=
  match ops with
  | [] => true
  | op :: ops =>
      low_history b &&
      match record op b with
      | Some b =>
          low_op b op &&
          if can_apply_op b op then match apply_op h b op with Some (h, b) => low_ops record h b ops | None => true end
          else low_ops record h (blocked op b) ops
      | None => true
      end
  end.
(** The map of all operations is a map, and an open transaction has an entry. *)
Definition kept b : Prop :=
  (History.transaction_depth (history b) ≠ 0%nat → History.undo_stack (history b) ≠ []) ∧
  ∃ l, SumTree.represents (History.operations (history b)) l ∧ valid l.
Definition same_state b b' : Prop :=
  snapshot b' = snapshot b ∧ deferred_ops b' = deferred_ops b ∧ deferred_replicas b' = deferred_replicas b ∧ lamport_clock b' = lamport_clock b.
Definition records (record : Operation → Buffer → option Buffer) : Prop :=
  ∀ op b, kept b → low_history b = true → ∃ b', record op b = Some b' ∧ kept b' ∧ same_state b b'.
Lemma record_op_records : records record_op.
Proof.
  intros op b (Hd & l & Hl & Hv) Hlow%Nat.ltb_lt. assert (Keyed.fits (History.operations (history b)) l) as Hf by by apply represents_fits.
  unfold record_op, History.push, TreeMap.insert.
  destruct (Keyed.insert_or_replace_ok (D := MapKey Lamport.t) _ l (Keyed.mk_entry (op_timestamp op) op) Hf) as (t & -> & Ht); [exact I|].
  cbn [mbind option_bind]. eexists. split; [reflexivity|]. split; [split; [done|]|done]. eexists. split; [exact Ht|]. by apply Keyed.replace_valid.
Qed.
Lemma keeps_records : records (λ _ b, Some b).
Proof. intros op b Hk _. by exists b. Qed.

Definition earlier x y : Prop := Lamport.cmp (c_timestamp x) (c_timestamp y) = Lt.
Lemma earlier_value x y : Lamport.replica_id (c_timestamp x) = Lamport.replica_id (c_timestamp y) → earlier x y →
  Lamport.value (c_timestamp x) ≤ Lamport.value (c_timestamp y).
Proof.
  unfold earlier, Lamport.cmp, then_with. intros _. destruct (Z.compare_spec (Lamport.value (c_timestamp x)) (Lamport.value (c_timestamp y))); [lia|lia|done].
Qed.
Lemma earlier_irrefl x : ¬ earlier x x.
Proof. apply (cmp_lt_irrefl Lamport.cmp). Qed.

Section passes.
Variables (d : document) (v : Global.t) (log : list change).
Hypothesis L : log_ok d v log.
Abbreviation has_applied := (has_applied d v log).
Abbreviation known_in := (known_in log).
Lemma applied_same b b' A : same_state b b' → has_applied b A → has_applied b' A.
Proof. intros (E & _ & _ & Ec) []. split; unfold clock_ahead in *; rewrite ?E, ?Ec; done. Qed.
(** In a pass in the order of the timestamps, [P] came before. Nothing of it waits
    whose predecessors are there ([avail]). *)
Record in_order (avail : change → Prop) P A b (rest : list change) : Prop := {
  i_avail x : avail x → x ∈ A ∨ x ∈ P ∨ x ∈ rest;
  i_log x : x ∈ P → x ∈ log;
  i_done x : x ∈ P → known_in avail x → x ∈ A;
  i_blocked r : r ∈ deferred_replicas b → ∃ z, z ∈ P ∧ Lamport.replica_id (c_timestamp z) = r ∧ z ∉ A;
  i_sorted : StronglySorted earlier rest;
  i_before x y : x ∈ P → y ∈ rest → earlier x y;
}.
Lemma known_trans avail x y : x ∈ log → y ∈ log → known_in avail x → saw_change x y = true → known_in avail y.
Proof. intros Hx Hy Hk Hxy z Hz Hyz. apply Hk; [done|]. by apply (g_trans _ _ _ L x y z). Qed.
(** What can be applied then is not held back. *)
Lemma not_blocked avail P A b x rest : has_applied b A → in_order avail P A b (x :: rest) → x ∈ log →
  (∀ z, z ∈ P → saw_change x z = true → z ∈ A) → Lamport.replica_id (c_timestamp x) ∉ deferred_replicas b.
Proof.
  intros H Ho Hx Hk Hin. destruct (i_blocked _ _ _ _ _ Ho _ Hin) as (z & Hz & Er & Hn). pose proof (i_before _ _ _ _ _ Ho z x Hz (list_elem_of_here _ _)) as Hlt.
  destruct (g_successive _ _ _ L z x (i_log _ _ _ _ _ Ho z Hz) Hx Er (earlier_value z x Er Hlt)) as [->|Hxz].
  - by apply earlier_irrefl in Hlt.
  - by apply Hn, Hk.
Qed.
Lemma in_order_can avail P A b x rest : has_applied b A → in_order avail P A b (x :: rest) → x ∈ log →
  known_in avail x ∨ x ∈ A → can_apply_op b (operation x) = true.
Proof.
  intros H Ho Hx Hor. assert (known_in (λ y, y ∈ A) x) as Hk.
  { destruct Hor as [Hk|Ha]; [|intros y Hy Hxy; by apply (h_closed _ _ _ _ _ H x y)]. intros y Hy Hxy.
    destruct (i_avail _ _ _ _ _ Ho y (Hk y Hy Hxy)) as [?|[HP|Hr]]; [done| |].
    - apply (i_done _ _ _ _ _ Ho y HP). by apply (known_trans avail x y).
    - pose proof (g_later _ _ _ L x y Hx Hy Hxy) as Hlt. exfalso. pose proof (i_sorted _ _ _ _ _ Ho) as [_ Hs]%StronglySorted_inv.
      apply elem_of_cons in Hr as [->|Hr]; [by apply earlier_irrefl in Hlt|]. apply (proj1 (Forall_forall _ _) Hs) in Hr.
      by apply (cmp_lt_asym Lamport.cmp) in Hlt; apply Hlt. }
  unfold can_apply_op. rewrite bool_decide_eq_false_2.
  - destruct x as [o|u]; by apply (covers_known d v log L b A _ H Hx).
  - unfold op_replica_id. rewrite operation_timestamp. eapply not_blocked; [done..|]. intros z Hz Hxz. apply Hk; [by apply (i_log _ _ _ _ _ Ho)|done].
Qed.
Lemma in_order_step avail P A A' b b' x rest : in_order avail P A b (x :: rest) → x ∈ log → (∀ y, y ∈ A' ↔ y ∈ A ∨ y = x) →
  deferred_replicas b' = deferred_replicas b → in_order avail (x :: P) A' b' rest.
Proof.
  intros Ho Hx HA Er. pose proof (i_sorted _ _ _ _ _ Ho) as [Hs Hlt]%StronglySorted_inv. split.
  - intros y Hy. rewrite HA. destruct (i_avail _ _ _ _ _ Ho y Hy) as [?|[?|[->|?]%elem_of_cons]]; [by left; left|right; left; by right|right; left; left|by right; right].
  - intros y [->|Hy]%elem_of_cons; [done|by apply (i_log _ _ _ _ _ Ho)].
  - intros y Hy Hk. rewrite HA. apply elem_of_cons in Hy as [->|Hy]; [by right|left; by apply (i_done _ _ _ _ _ Ho)].
  - intros r Hr. rewrite Er in Hr. destruct (i_blocked _ _ _ _ _ Ho r Hr) as (z & Hz & E & Hn). exists z. split_and!; [by right|done|].
    rewrite HA. intros [?| ->]; [done|]. apply (earlier_irrefl x), (i_before _ _ _ _ _ Ho x x Hz). left.
  - done.
  - intros y z [->|Hy]%elem_of_cons Hz; [by apply (proj1 (Forall_forall _ _) Hlt)|apply (i_before _ _ _ _ _ Ho); [done|by right]].
Qed.
Lemma in_order_blocked avail P A b x rest : in_order avail P A b (x :: rest) → x ∈ log → x ∉ A → ¬ known_in avail x →
  in_order avail (x :: P) A (blocked (operation x) b) rest.
Proof.
  intros Ho Hx Hn Hk. pose proof (i_sorted _ _ _ _ _ Ho) as [Hs Hlt]%StronglySorted_inv. split.
  - intros y Hy. destruct (i_avail _ _ _ _ _ Ho y Hy) as [?|[?|[->|?]%elem_of_cons]]; [by left|right; left; by right|right; left; left|by right; right].
  - intros y [->|Hy]%elem_of_cons; [done|by apply (i_log _ _ _ _ _ Ho)].
  - intros y Hy Hk'. apply elem_of_cons in Hy as [->|Hy]; [done|by apply (i_done _ _ _ _ _ Ho)].
  - intros r Hr. assert (r ∈ deferred_replicas b ∨ r = Lamport.replica_id (c_timestamp x)) as [Hr'| ->].
    { revert Hr. cbn. unfold set_insert, op_replica_id. rewrite operation_timestamp. case_bool_decide; [by left|]. intros [->|?]%elem_of_cons; [by right|by left]. }
    + destruct (i_blocked _ _ _ _ _ Ho r Hr') as (z & ? & ? & ?). exists z. split_and!; [by right|done..].
    + exists x. split_and!; [left|done|done].
  - done.
  - intros y z [->|Hy]%elem_of_cons Hz; [by apply (proj1 (Forall_forall _ _) Hlt)|apply (i_before _ _ _ _ _ Ho); [done|by right]].
Qed.
Lemma pass_runs record : records record → ∀ cs h b A held, has_applied b A → kept b → (∀ x, x ∈ cs → x ∈ log) →
  low_ops record h b (map operation cs) = true →
  ∃ h' b' A' D, apply_or_defer record h b (map operation cs) (map operation held) = Some (h', b', map operation (held ++ D)) ∧
    has_applied b' (A ++ A') ∧ kept b' ∧ deferred_ops b' = deferred_ops b ∧
    (∀ x, x ∈ A' → x ∈ cs) ∧ (∀ x, x ∈ D → x ∈ cs) ∧ (∀ x, x ∈ cs → x ∈ A ++ A' ∨ x ∈ D) ∧
    (∀ avail P, in_order avail P A b cs →
      (∀ x, x ∈ cs → known_in avail x → x ∈ A ++ A') ∧ (∀ x, x ∈ D → x ∉ A ++ A')).
Proof.
  intros Hrec. induction cs as [|x cs IH]; intros h b A held H Hkept Hin Hlow.
  { exists h, b, [], []. rewrite !app_nil_r. split_and!; try done; [by intros x ?%elem_of_nil|]. intros avail P _. split; by intros ? ?%elem_of_nil. }
  cbn [map low_ops apply_or_defer] in *. apply andb_true_iff in Hlow as [Hh Hlow].
  destruct (Hrec (operation x) b Hkept Hh) as (b1 & E1 & Hk1 & Hs1). rewrite E1 in *. cbn [mbind option_bind]. apply andb_true_iff in Hlow as [Hop Hlow].
  pose proof (applied_same _ _ _ Hs1 H) as H1. assert (x ∈ log) as Hx by (apply Hin; left). assert (∀ y, y ∈ cs → y ∈ log) as Hin' by (intros y Hy; apply Hin; by right).
  assert (∀ avail P rest, in_order avail P A b rest → in_order avail P A b1 rest) as Hio.
  { intros avail P rest []. split; try done. destruct Hs1 as (_ & _ & -> & _). done. }
  destruct (can_apply_op b1 (operation x)) eqn:Ecan.
  - assert (known_in (λ y, y ∈ A) x) as Hk.
    { apply (covers_known d v log L b1 A x H1 Hx). unfold can_apply_op in Ecan. case_bool_decide; [done|]. by destruct x. }
    assert (∃ h2 b2 A1, apply_op h b1 (operation x) = Some (h2, b2) ∧ has_applied b2 (A ++ A1) ∧ same_rest b1 b2 ∧
      (∀ y, y ∈ A1 → y = x) ∧ x ∈ A ++ A1) as (h2 & b2 & A1 & E2 & H2 & Hr2 & HA1 & HxA).
    { assert (x ∈ A ∨ x ∉ A) as [Ha|Ha].
      { rewrite <- (h_version _ _ _ _ _ H1 x Hx). destruct (Global.observed _ _); [by left|by right]. }
      - exists h, b1, []. rewrite app_nil_r. split_and!; try done; [by apply (apply_known d v log h b1 A x H1)|by intros y ?%elem_of_nil].
      - destruct (apply_new d v log L h b1 A x H1 Hx Ha Hk Hop) as (h2 & b2 & E2 & H2 & Hr2). exists h2, b2, [x].
        split_and!; try done; [by intros y ?%list_elem_of_singleton|apply elem_of_app; right; left]. }
    rewrite E2 in *. cbn [mbind option_bind]. assert (kept b2) as Hk2 by (unfold kept; by rewrite (proj1 Hr2)).
    destruct (IH h2 b2 (A ++ A1) held H2 Hk2 Hin' Hlow) as (h' & b' & A' & D & E & H' & Hk' & Eq & HA' & HD & Hall & Hlive).
    exists h', b', (A1 ++ A'), D. rewrite app_assoc. split_and!; try done.
    + rewrite Eq. destruct Hr2 as (_ & -> & _), Hs1 as (_ & -> & _). done.
    + intros y [Hy|Hy]%elem_of_app; [by rewrite (HA1 y Hy); left|right; by apply HA'].
    + intros y Hy. right. by apply HD.
    + intros y [->|Hy]%elem_of_cons; [left; apply elem_of_app; by left|by apply Hall].
    + intros avail P Ho. destruct (Hlive avail (x :: P)) as [Hl1 Hl2].
      { apply (in_order_step avail P A (A ++ A1) b1 b2); [by apply Hio|done| |by destruct Hr2 as (_ & _ & -> & _)].
        intros y. rewrite elem_of_app. split; [intros [?|?]; [by left|right; by apply HA1]|intros [?| ->]; [by left|by apply elem_of_app]]. }
      split; [|done]. intros y [->|Hy]%elem_of_cons Hky; [apply elem_of_app; by left|by apply Hl1].
  - assert (has_applied (blocked (operation x) b1) A) as H2 by (destruct H1; by split).
    destruct (IH h (blocked (operation x) b1) A (held ++ [x]) H2 Hk1 Hin' Hlow) as (h' & b' & A' & D & E & H' & Hk' & Eq & HA' & HD & Hall & Hlive).
    exists h', b', A', (x :: D). rewrite map_app in E. cbn [map] in E. unfold blocked in E. cbn [mbind option_bind]. rewrite E, <- app_assoc. split_and!; try done.
    + rewrite Eq. by destruct Hs1 as (_ & <- & _).
    + intros y Hy. right. by apply HA'.
    + intros y [->|Hy]%elem_of_cons; [left|right; by apply HD].
    + intros y [->|Hy]%elem_of_cons; [right; left|]. destruct (Hall y Hy) as [?|?]; [by left|right; by right].
    + intros avail P Ho. pose proof (Hio _ _ _ Ho) as Ho1.
      assert (x ∉ A ∧ ¬ known_in avail x) as [Hn Hnk].
      { split; intros Hc; assert (can_apply_op b1 (operation x) = true) as Ht by (eapply in_order_can; [done..|]; tauto); congruence. }
      destruct (Hlive avail (x :: P)) as [Hl1 Hl2]; [by apply in_order_blocked|]. split.
      * intros y [->|Hy]%elem_of_cons Hky; [done|by apply Hl1].
      * intros y [->|Hy]%elem_of_cons; [|by apply Hl2]. intros [?|Hc%HA']%elem_of_app; [done|].
        pose proof (i_sorted _ _ _ _ _ Ho) as [_ Hlt]%StronglySorted_inv. apply (proj1 (Forall_forall _ _) Hlt) in Hc. by apply earlier_irrefl in Hc.
Qed.
End passes.

(** ** The queue *)
Definition queue_item x : OperationQueue.OperationItem Operation := OperationQueue.mk_item (operation x).
Record queued b Q : Prop := {
  q_tree : SumTree.represents (deferred_ops b) (map queue_item Q);
  q_ok : OperationQueue.ok (map queue_item Q);
}.
Lemma queue_ts x : OperationQueue.timestamp (queue_item x) = c_timestamp x.
Proof. apply operation_timestamp. Qed.
Lemma queued_sorted b Q : queued b Q → StronglySorted earlier Q.
Proof.
  intros [_ [Hs _]]. induction Q as [|x Q IH]; [constructor|]. cbn [map] in Hs. apply StronglySorted_inv in Hs as [Hs Hx]. constructor; [by apply IH|].
  rewrite Forall_map in Hx. eapply Forall_impl; [exact Hx|]. intros y Hy. unfold earlier. rewrite <- !queue_ts. exact Hy.
Qed.
Section queue.
Variables (d : document) (v : Global.t) (log : list change).
Hypothesis L : log_ok d v log.
Lemma log_same x y : x ∈ log → y ∈ log → c_timestamp x = c_timestamp y → x = y.
Proof.
  intros Hx Hy E. destruct (made_orders log d (g_made _ _ _ L)) as [Hnd _]. by apply (same_name (S := document) log x y).
Qed.
Lemma queue_items l : (∀ i, i ∈ l → ∃ x, x ∈ log ∧ i = queue_item x) → ∃ Q, l = map queue_item Q ∧ ∀ x, x ∈ Q → x ∈ log.
Proof.
  induction l as [|i l IH]; intros H; [exists []; split; [done|by intros x ?%elem_of_nil]|].
  destruct (H i) as (x & Hx & ->); [left|]. destruct IH as (Q & -> & HQ); [intros j Hj; apply H; by right|].
  exists (x :: Q). split; [done|]. intros y [->|Hy]%elem_of_cons; [done|by apply HQ].
Qed.
Lemma insert_queued b Q D : queued b Q → low_queue b = true → (∀ x, x ∈ Q → x ∈ log) → (∀ x, x ∈ D → x ∈ log) →
  ∃ q Q', OperationQueue.insert (deferred_ops b) (map operation D) = Some q ∧
    (∀ b', deferred_ops b' = q → queued b' Q') ∧ (∀ x, x ∈ Q' ↔ x ∈ Q ∨ x ∈ D).
Proof.
  intros [Ht Hok] Hlow%Nat.ltb_lt HQ HD.
  assert (Keyed.fits (deferred_ops b) (map queue_item Q)) as Hf by by apply represents_fits.
  destruct (OperationQueue.queue_insert_runs (deferred_ops b) (map queue_item Q) (map operation D) Hf) as (q & l & E & Hq & Hl & _ & _ & Hts & Hfrom & _).
  { apply Forall_map, Forall_forall. intros x Hx. destruct (log_change d v log L x (HD x Hx)) as (_ & Hpos & _).
    unfold OperationQueue.item_ok. change (OperationQueue.timestamp _) with (OperationQueue.timestamp (queue_item x)). rewrite queue_ts.
    unfold Lamport.cmp, then_with. change (Lamport.value Lamport.MIN) with 0. by rewrite (proj2 (Z.compare_lt_iff _ _) Hpos). }
  assert (∀ i, i ∈ l → ∃ x, i = queue_item x ∧ (x ∈ Q ∨ x ∈ D)) as Hi.
  { intros [op] Hi. destruct (Hfrom op Hi) as [(x & -> & Hx)%list_elem_of_fmap|[(x & E' & Hx)%list_elem_of_fmap _]].
    - exists x. split; [done|by right].
    - exists x. split; [done|by left]. }
  destruct (queue_items l) as (Q' & -> & HQ').
  { intros i Hin. destruct (Hi i Hin) as (x & -> & [?|?]); exists x; (split; [auto|done]). }
  exists q, Q'. split_and!; [done|intros b' Eb; split; [by rewrite Eb|done]|].
  assert (∀ x y, x ∈ log → y ∈ log → OperationQueue.timestamp (queue_item x) = OperationQueue.timestamp (queue_item y) → x = y) as Hinj.
  { intros x y Hx Hy. rewrite !queue_ts. by apply log_same. }
  intros x. split.
  - intros Hx. destruct (Hi (queue_item x)) as (y & Exy & Hy); [by apply list_elem_of_fmap_2|].
    assert (x = y) as ->; [|done]. apply Hinj; [by apply HQ'|destruct Hy; auto|by rewrite Exy].
  - intros Hx. assert (x ∈ log) as Hxl by (destruct Hx; auto).
    assert (OperationQueue.timestamp (queue_item x) ∈ map OperationQueue.timestamp (map queue_item Q')) as (i & Ei & (y & -> & Hy)%list_elem_of_fmap)%list_elem_of_fmap.
    { apply Hts. destruct Hx as [Hx|Hx]; [right; by apply list_elem_of_fmap_2, list_elem_of_fmap_2|left].
      change (OperationQueue.timestamp (queue_item x)) with (OperationQueue.lamport_timestamp (operation x)). by apply list_elem_of_fmap_2, list_elem_of_fmap_2. }
    by rewrite (Hinj x y Hxl (HQ' y Hy) Ei).
Qed.
Lemma queue_contents b Q : queued b Q → low_queue b = true →
  OperationQueue.iter (S (length (SumTree.contents (deferred_ops b)))) (deferred_ops b) = Some (map operation Q).
Proof.
  intros [[[n Hw] Hc] _] Hlow%Nat.ltb_lt. unfold OperationQueue.iter. rewrite (SumTree.wf_height n _ Hw) in Hlow.
  rewrite (Iter.collect_ok (deferred_ops b) n Hw Hlow (Iter.new (deferred_ops b)) (SumTree.contents (deferred_ops b)));
    [|by apply Iter.ahead_start|lia].
  cbn [mbind option_bind]. by rewrite Hc, map_map.
Qed.
End queue.

(** ** Receiving operations *)
(** The trees stay low enough while [apply_ops] runs. *)
Definition low_apply_ops h b (ops : list Operation) : bool :=
  low_ops record_op h b ops &&
  match apply_or_defer record_op h b ops [] with
  | Some (h, b, deferred) =>
      low_queue b &&
      match defer b deferred with
      | Some b =>
          low_queue b &&
          match OperationQueue.iter (S (length (SumTree.contents (deferred_ops b)))) (deferred_ops b) with
          | Some ops => low_ops (λ _ b, Some b) h (set_deferred OperationQueue.new [] b) ops
          | None => true
          end
      | None => true
      end
  | None => true
  end.
Record receives d v log b A Q : Prop := {
  r_applied : has_applied d v log b A;
  r_kept : kept b;
  r_queued : queued b Q;
  r_queue_log x : x ∈ Q → x ∈ log;
}.
Lemma new_queued b : deferred_ops b = OperationQueue.new → queued b [].
Proof. intros E. split; [rewrite E; apply SumTree.represents_new|split; constructor]. Qed.
Lemma apply_ops_runs d v log h b A Q ops : log_ok d v log → receives d v log b A Q → (∀ x, x ∈ ops → x ∈ log) →
  low_apply_ops h b (map operation ops) = true →
  ∃ h' b' A' Q', apply_ops h b (map operation ops) = Some (h', b') ∧ receives d v log b' (A ++ A') Q' ∧
    (∀ x, x ∈ A ++ A' ↔ (x ∈ A ∨ x ∈ Q ∨ x ∈ ops) ∧ known_in log (λ y, y ∈ A ∨ y ∈ Q ∨ y ∈ ops) x) ∧
    (∀ x, x ∈ Q' ↔ (x ∈ A ∨ x ∈ Q ∨ x ∈ ops) ∧ x ∉ A ++ A').
Proof.
  intros L [H Hk Hq HQ] Hops [Hlow1 Hlow]%andb_true_iff. unfold apply_ops.
  destruct (pass_runs d v log L record_op record_op_records ops h b A [] H Hk Hops Hlow1)
    as (h1 & b1 & A1 & D1 & E1 & H1 & Hk1 & Eq1 & HA1 & HD1 & Hall1 & _).
  change (map operation []) with (@nil Operation) in E1. rewrite E1 in *. cbn [mbind option_bind app] in *. apply andb_true_iff in Hlow as [Hl1 Hlow].
  destruct (insert_queued d v log L b1 Q D1) as (q & Q1 & E2 & Hq1 & HQ1); [destruct Hq; by split; rewrite ?Eq1|done|done|auto|].
  set (b2 := set_deferred q (deferred_replicas b1) b1) in *.
  assert (defer b1 (map operation D1) = Some b2) as Ed by (unfold defer; by rewrite E2).
  rewrite Ed in *. cbn [mbind option_bind] in *. unfold flush_deferred_ops, OperationQueue.drain. apply andb_true_iff in Hlow as [Hl2 Hlow].
  specialize (Hq1 b2 eq_refl). change (deferred_ops b2) with q in *.
  pose proof (queue_contents b2 Q1 Hq1 Hl2) as E3. change (deferred_ops b2) with q in E3. rewrite E3 in *. cbn [mbind option_bind] in *.
  set (b3 := set_deferred _ [] b2) in *. assert (has_applied d v log b3 (A ++ A1)) as H3 by (destruct H1; by split).
  assert (∀ x, x ∈ Q1 → x ∈ log) as HQ1l by (intros x [?|?]%HQ1; auto).
  destruct (pass_runs d v log L (λ _ b, Some b) keeps_records Q1 h1 b3 (A ++ A1) [] H3 Hk1 HQ1l Hlow)
    as (h4 & b4 & A2 & D2 & E4 & H4 & Hk4 & Eq4 & HA2 & HD2 & Hall2 & Hlive).
  change (map operation []) with (@nil Operation) in E4. rewrite E4. cbn [mbind option_bind app].
  destruct (insert_queued d v log L b4 [] D2) as (q' & Q' & E5 & Hq' & HQ'); [by apply new_queued|unfold low_queue; by rewrite Eq4|by intros x ?%elem_of_nil|auto|].
  unfold defer. rewrite E5. cbn [mbind option_bind]. rewrite <- app_assoc in *.
  set (avail := λ x, x ∈ A ∨ x ∈ Q ∨ x ∈ ops) in *.
  assert (∀ x, avail x ↔ x ∈ A ++ A1 ∨ x ∈ Q1) as Hav.
  { intros x. rewrite HQ1. split.
    - intros [?|[?|Hx]]; [left; apply elem_of_app; by left|right; by left|]. destruct (Hall1 x Hx) as [?|?]; [by left|right; by right].
    - intros [[?|?%HA1]%elem_of_app|[?|?%HD1]]; unfold avail; auto. }
  destruct (Hlive avail []) as [Hl Hd].
  { split; try by intros ? ?%elem_of_nil.
    - intros x Hx. apply Hav in Hx. tauto.
    - by apply queued_sorted with b2.
    - by intros x y ?%elem_of_nil. }
  assert (∀ x, x ∈ A ++ A1 ++ A2 → avail x) as Hsub.
  { intros x. rewrite app_assoc. intros [?|?%HA2]%elem_of_app; apply Hav; auto. }
  eexists h4, _, (A1 ++ A2), Q'. split; [reflexivity|]. split_and!.
  - split; [destruct H4; by split|done|by apply Hq'|]. intros x [?%elem_of_nil|?]%HQ'; [done|auto].
  - intros x. split.
    + intros Hx. split; [by apply Hsub|]. intros y Hy Hxy. by apply Hsub, (h_closed _ _ _ _ _ H4 x y).
    + intros [[Hx|Hx]%Hav Hkx]; [rewrite app_assoc; apply elem_of_app; by left|by apply Hl].
  - intros x. rewrite HQ'. split.
    + intros [?%elem_of_nil|Hx]; [done|]. split; [apply Hav; right; by apply HD2|by apply Hd].
    + intros [[Hx|Hx]%Hav Hn]; [exfalso; apply Hn; rewrite app_assoc; apply elem_of_app; by left|]. destruct (Hall2 x Hx) as [?|?]; [done|by right].
Qed.

(** ** Everything that was sent *)
(** The operations come in batches, in any order, perhaps more than once. *)
Fixpoint receive_all h b (batches : list (list change)) : option (Topic.heap * Buffer) :=
  match batches with
  | [] => Some (h, b)
  | ops :: batches => '(h, b) ← apply_ops h b (map operation ops); receive_all h b batches
  end.
Fixpoint low_receive h b (batches : list (list change)) : bool :=
  match batches with
  | [] => true
  | ops :: batches =>
      low_apply_ops h b (map operation ops) &&
      match apply_ops h b (map operation ops) with Some (h, b) => low_receive h b batches | None => true end
  end.
(** Only what misses something waits. *)
Definition waiting log A Q : Prop := ∀ x, x ∈ Q → ¬ known_in log (λ y, y ∈ A ∨ y ∈ Q) x.
Lemma receive_all_runs d v log : log_ok d v log → ∀ batches h b A Q, receives d v log b A Q → waiting log A Q →
  (∀ x, x ∈ concat batches → x ∈ log) → low_receive h b batches = true →
  ∃ h' b' A' Q', receive_all h b batches = Some (h', b') ∧ receives d v log b' A' Q' ∧ waiting log A' Q' ∧
    ∀ x, x ∈ A' ∨ x ∈ Q' ↔ x ∈ A ∨ x ∈ Q ∨ x ∈ concat batches.
Proof.
  intros L. induction batches as [|ops batches IH]; intros h b A Q Hr Hw Hin Hlow; cbn [receive_all low_receive concat] in *.
  { exists h, b, A, Q. split_and!; try done. intros x. split; [intros [?|?]; auto|]. intros [?|[?|[]%elem_of_nil]]; auto. }
  apply andb_true_iff in Hlow as [Hl Hlow].
  destruct (apply_ops_runs d v log h b A Q ops L Hr) as (h1 & b1 & A1 & Q1 & E1 & Hr1 & HA1 & HQ1);
    [intros x Hx; apply Hin, elem_of_app; by left|done|]. rewrite E1 in *. cbn [mbind option_bind].
  assert (∀ x, x ∈ A ++ A1 ∨ x ∈ Q1 ↔ x ∈ A ∨ x ∈ Q ∨ x ∈ ops) as Hall.
  { intros x. rewrite HQ1. split; [intros [[? _]%HA1|[? _]]; done|]. intros Hx. destruct (Global.observed (version (snapshot b1)) (c_timestamp x)) eqn:E.
    - left. apply (h_version _ _ _ _ _ (r_applied _ _ _ _ _ _ Hr1)); [|done]. destruct Hx as [Hx|[Hx|Hx]];
        [by apply (h_log _ _ _ _ _ (r_applied _ _ _ _ _ _ Hr))|by apply (r_queue_log _ _ _ _ _ _ Hr)|apply Hin, elem_of_app; by left].
    - right. split; [done|]. intros Hx'. rewrite (proj2 (h_version _ _ _ _ _ (r_applied _ _ _ _ _ _ Hr1) x (h_log _ _ _ _ _ (r_applied _ _ _ _ _ _ Hr1) x Hx')) Hx') in E. done. }
  destruct (IH h1 b1 (A ++ A1) Q1 Hr1) as (h' & b' & A' & Q' & E & Hr' & Hw' & Hall').
  - intros x [Hx Hn]%HQ1 Hk. apply Hn, HA1. split; [done|]. intros y Hy Hxy. by apply Hall, Hk.
  - intros x Hx. apply Hin, elem_of_app. by right.
  - done.
  - exists h', b', A', Q'. split_and!; try done. intros x. rewrite Hall', (elem_of_app ops). specialize (Hall x). tauto.
Qed.
(** When nothing is missing, nothing waits. *)
Lemma waiting_nothing d v log A Q : log_ok d v log → waiting log A Q → (∀ x, x ∈ log → x ∈ A ∨ x ∈ Q) → (∀ x, x ∈ Q → x ∈ log) → Q = [].
Proof.
  intros L Hw Hall HQ. destruct Q as [|x Q]; [done|]. destruct (Hw x); [left|]. intros y Hy _. by apply Hall.
Qed.
Lemma nothing_deferred b : queued b [] → has_deferred_ops b = Some false.
Proof.
  intros [Hq Hok]. unfold has_deferred_ops, OperationQueue.is_empty, OperationQueue.queue_len.
  by rewrite (SumTree.represents_summary _ _ Hq), OperationQueue.measure_total.
Qed.
(** A buffer that has received nothing. *)
Record starts d v b : Prop := {
  s_presents : ∃ cs, presents (snapshot b) d cs;
  s_version : version (snapshot b) = v;
  s_history : History.operations (history b) = TreeMap.default;
  s_deferred : deferred_ops b = OperationQueue.new;
  s_depth : History.transaction_depth (history b) = 0%nat;
  s_clock : clock_ahead b;
}.
Lemma starts_receives d v log b : log_ok d v log → starts d v b → receives d v log b [] [].
Proof.
  intros L [Hp Ev Eh Eq Ed Hc]. split; [split| |by apply new_queued|by intros x ?%elem_of_nil].
  - exact Hp.
  - constructor.
  - by intros x ?%elem_of_nil.
  - constructor.
  - by intros x y ?%elem_of_nil.
  - intros x Hx. rewrite Ev, (g_unseen _ _ _ L x Hx). split; [done|by intros ?%elem_of_nil].
  - by rewrite Ev.
  - intros r. left. by rewrite Ev.
  - exact Hc.
  - split; [by rewrite Ed|]. exists []. rewrite Eh. split; [apply SumTree.represents_new|by repeat constructor].
Qed.
Lemma all_applied d v log b A : log_ok d v log → has_applied d v log b A → (∀ x, x ∈ log → x ∈ A) → A ≡ₚ log.
Proof.
  intros L H Hall. destruct (made_orders log d (g_made _ _ _ L)) as [Hnd _]. apply NoDup_Permutation; [apply H|exact (NoDup_fmap_1 c_timestamp _ Hnd)|].
  intros x. split; [apply H|apply Hall].
Qed.
Lemma receive_everything d v log h b batches : log_ok d v log → starts d v b → (∀ x, x ∈ concat batches ↔ x ∈ log) →
  low_receive h b batches = true →
  ∃ h' b' A, receive_all h b batches = Some (h', b') ∧ has_applied d v log b' A ∧ A ≡ₚ log ∧ has_deferred_ops b' = Some false.
Proof.
  intros L Hs Hb Hlow. pose proof (starts_receives d v log b L Hs) as Hr.
  destruct (receive_all_runs d v log L batches h b [] [] Hr) as (h' & b' & A & Q & E & Hr' & Hw & Hall);
    [by intros x ?%elem_of_nil|intros x; apply Hb|done|].
  assert (∀ x, x ∈ log → x ∈ A ∨ x ∈ Q) as Hall' by (intros x Hx; apply Hall; right; right; by apply Hb).
  pose proof (waiting_nothing d v log A Q L Hw Hall' (r_queue_log _ _ _ _ _ _ Hr')) as ->.
  exists h', b', A. split_and!; [done|apply Hr'| |apply nothing_deferred, Hr'].
  eapply all_applied; [done|apply Hr'|]. intros x Hx. by destruct (Hall' x Hx) as [?|?%elem_of_nil].
Qed.

(** C8: Receiving operations. A buffer has applied the operations [A] of a
    history, and [Q] wait in its queue. Whatever further operations of the history
    [apply_ops] is given, in whatever order and however often: it does not panic,
    and afterwards exactly those of the received operations are applied whose
    predecessors (what their authors had seen) were all received, each once and in
    a causal order, so that the document is the one of that history; the others
    wait in the queue. *)
Theorem apply_ops_correct d v log h b A Q ops : log_ok d v log → receives d v log b A Q → (∀ x, x ∈ ops → x ∈ log) →
  low_apply_ops h b (map operation ops) = true →
  ∃ h' b' A' Q' cs, apply_ops h b (map operation ops) = Some (h', b') ∧ receives d v log b' (A ++ A') Q' ∧
    presents (snapshot b') (result (A ++ A') d) cs ∧ causal_order (O := change) (S := document) (A ++ A') ∧
    (∀ x, x ∈ A ++ A' ↔ (x ∈ A ∨ x ∈ Q ∨ x ∈ ops) ∧ known_in log (λ y, y ∈ A ∨ y ∈ Q ∨ y ∈ ops) x) ∧
    (∀ x, x ∈ Q' ↔ (x ∈ A ∨ x ∈ Q ∨ x ∈ ops) ∧ x ∉ A ++ A').
Proof.
  intros L Hr Hin Hlow. destruct (apply_ops_runs d v log h b A Q ops L Hr Hin Hlow) as (h' & b' & A' & Q' & E & Hr' & HA & HQ).
  destruct (h_presents _ _ _ _ _ (r_applied _ _ _ _ _ _ Hr')) as [cs Hp]. exists h', b', A', Q', cs. split_and!; try done. apply Hr'.
Qed.

(** Eventual consistency. Two replicas start with the same document and get
    all operations of a history (edits and undo operations) by [apply_ops]: in
    batches, in any order, repeated or not, each its own way. Then no call panics,
    in the end no operation is waiting, both documents agree (up to the order in
    which deletions of a character were recorded) and have the same text. *)
Theorem eventually_consistent d v log h h' b b' batches batches' : log_ok d v log → starts d v b → starts d v b' →
  (∀ x, x ∈ concat batches ↔ x ∈ log) → (∀ x, x ∈ concat batches' ↔ x ∈ log) →
  low_receive h b batches = true → low_receive h' b' batches' = true →
  ∃ g g' r r' e e' t, receive_all h b batches = Some (g, r) ∧ receive_all h' b' batches' = Some (g', r') ∧
    has_deferred_ops r = Some false ∧ has_deferred_ops r' = Some false ∧
    snapshot_of (snapshot r) e ∧ snapshot_of (snapshot r') e' ∧ agree (atoms e) (atoms e') ∧
    has (visible_text (snapshot r)) t ∧ has (visible_text (snapshot r')) t.
Proof.
  intros L Hs Hs' Hb Hb' Hl Hl'.
  destruct (receive_everything d v log h b batches L Hs Hb Hl) as (g & r & A & E & HA & Hp & Hd).
  destruct (receive_everything d v log h' b' batches' L Hs' Hb' Hl') as (g' & r' & A' & E' & HA' & Hp' & Hd').
  destruct (histories_agree log A A' d (g_made _ _ _ L) Hp Hp' (h_causal _ _ _ _ _ HA) (h_causal _ _ _ _ _ HA')) as (_ & _ & [Hag _]).
  destruct (h_presents _ _ _ _ _ HA) as [e He], (h_presents _ _ _ _ _ HA') as [e' He'].
  assert (agree (atoms e) (atoms e')) as Hee by (by rewrite (p_atoms _ _ _ He), (p_atoms _ _ _ He')).
  exists g, g', r, r', e, e', (text_of true (atoms e)). split_and!; try done; [apply He|apply He'|apply (s_visible _ _ (p_snapshot _ _ _ He))|].
  rewrite (agree_text true _ _ Hee). apply (s_visible _ _ (p_snapshot _ _ _ He')).
Qed.

(** *** The history of the other examples, out of order *)
Lemma sample_log_good : log_ok (base_document [97; 98; 99]) sample_version sample_log.
Proof.
  split.
  - apply sample_made.
  - apply sample_log_ok.
  - apply sample_successive.
  - intros x y z Hx Hy Hz. unfold sample_log in *. rewrite !elem_of_cons in Hx, Hy, Hz.
    repeat match goal with H : _ ∨ _ |- _ => destruct H as [->|H] | H : _ ∈ [] |- _ => by apply elem_of_nil in H end; by vm_compute.
  - intros x y Hx Hy. unfold sample_log in *. rewrite !elem_of_cons in Hx, Hy.
    repeat match goal with H : _ ∨ _ |- _ => destruct H as [->|H] | H : _ ∈ [] |- _ => by apply elem_of_nil in H end; by vm_compute.
  - apply sample_wf.
  - intros x Hx. unfold sample_log in *. rewrite !elem_of_cons in Hx.
    repeat match goal with H : _ ∨ _ |- _ => destruct H as [->|H] | H : _ ∈ [] |- _ => by apply elem_of_nil in H end; by vm_compute.
  - intros x [r] Hx. unfold sample_log in *. rewrite !elem_of_cons in Hx.
    destruct Hx as [->|[->|[->|?%elem_of_nil]]]; [by left|by left| |done].
    cbn [c_version sample_undo UndoMap.version]. destruct (Z.lt_ge_cases r 0) as [Hr|Hr]; [left; by rewrite !Global.get_neg|].
    destruct (decide (r = 1)) as [->|Hne].
    + right. exists (Edited sample_op1). split_and!; [left|by vm_compute|done|by vm_compute].
    + left. rewrite !Global.get_nth by done. rewrite Global.nth_observe_pos, decide_False by (cbn; lia). done.
  - by vm_compute.
  - intros x Hx. unfold sample_log in *. rewrite !elem_of_cons in Hx.
    repeat match goal with H : _ ∨ _ |- _ => destruct H as [->|H] | H : _ ∈ [] |- _ => by apply elem_of_nil in H end; by vm_compute.
Qed.
Lemma get_new r : Global.get Global.new r = 0.
Proof. unfold Global.get, get_or. cbn. by destruct (_ <? 0). Qed.
Lemma new_buffer_clock replica_id remote_id line_ending normalized b : ReplicaId.ok replica_id →
  new_normalized replica_id remote_id line_ending normalized = Some b → clock_ahead b.
Proof.
  intros Hr. unfold new_normalized, clock_ahead. change (History.base_text (History.new normalized)) with normalized. destruct (Rope.is_empty normalized); cbn [negb].
  - intros [= <-]. cbn. split; [split; cbn; [width|done]|]. intros r. by rewrite get_new.
  - destruct (iterate _ _ _) as [[f i]|]; [|done]. intros [= <-]. split; [split; cbn; [by vm_compute|done]|]. intros r. cbn [version snapshot lamport_clock].
    rewrite observe_get; [|apply Global.wf_new|by vm_compute]. case_decide; by rewrite ?get_new.
Qed.
Lemma sample_starts replica_id : ReplicaId.ok (ReplicaId.mk replica_id) → ∃ b, sample_buffer replica_id = Some b ∧ starts (base_document [97; 98; 99]) sample_version b.
Proof.
  intros Hid. destruct (sample_start replica_id) as (b & E & Hp & _). exists b. split; [exact E|]. unfold sample_buffer in E.
  destruct sample_text_rope as (r & Er & Hr). rewrite Er in E. cbn [mbind option_bind] in E.
  destruct (new_buffer_fields _ _ _ _ _ E) as (_ & Eh & Ed & _ & Ev). split.
  - by eexists.
  - rewrite Ev. destruct Hr as [w Hr]. by rewrite (Rope.is_empty_ok _ _ _ Hr).
  - by rewrite Eh.
  - exact Ed.
  - by rewrite Eh.
  - by eapply new_buffer_clock.
Qed.
Definition sample_batches : list (list change) := [[Undone sample_undo]; [Edited sample_op2; Undone sample_undo]; [Edited sample_op1]].
Lemma sample_batches_log x : x ∈ concat sample_batches ↔ x ∈ sample_log.
Proof. unfold sample_batches, sample_log. cbn [concat app]. rewrite !elem_of_cons. tauto. Qed.
Lemma sample_low_receive replica_id (batches : list (list change)) b : sample_buffer replica_id = Some b →
  match sample_buffer replica_id with Some b => low_receive no_heap b batches | None => false end = true → low_receive no_heap b batches = true.
Proof. by intros ->. Qed.
Lemma eventually_consistent_witness : ∃ b b' g g' r r' t, sample_buffer 1 = Some b ∧ sample_buffer 2 = Some b' ∧
  receive_all no_heap b sample_batches = Some (g, r) ∧ receive_all no_heap b' [sample_log] = Some (g', r') ∧
  has_deferred_ops r = Some false ∧ has (visible_text (snapshot r)) t ∧ has (visible_text (snapshot r')) t.
Proof.
  destruct (sample_starts 1 ltac:(by vm_compute)) as (b & E & Hs), (sample_starts 2 ltac:(by vm_compute)) as (b' & E' & Hs'). exists b, b'.
  destruct (eventually_consistent _ _ sample_log no_heap no_heap b b' sample_batches [sample_log] sample_log_good Hs Hs' sample_batches_log)
    as (g & g' & r & r' & e & e' & t & E1 & E2 & D1 & _ & _ & _ & _ & H1 & H2).
  - intros x. cbn [concat]. by rewrite app_nil_r.
  - apply (sample_low_receive 1); [exact E|by vm_compute].
  - apply (sample_low_receive 2); [exact E'|by vm_compute].
  - exists g, g', r, r', t. exact (conj E (conj E' (conj E1 (conj E2 (conj D1 (conj H1 H2)))))).
Defined.
Lemma apply_ops_correct_witness : ∃ b h' b' cs Q, sample_buffer 1 = Some b ∧
  apply_ops no_heap b (map operation [Undone sample_undo; Edited sample_op2]) = Some (h', b') ∧
  snapshot_of (snapshot b') cs ∧ queued b' Q ∧ Undone sample_undo ∈ Q.
Proof.
  destruct (sample_starts 1 ltac:(by vm_compute)) as (b & E & Hs). pose proof (starts_receives _ _ sample_log b sample_log_good Hs) as Hr.
  destruct (apply_ops_correct _ _ sample_log no_heap b [] [] [Undone sample_undo; Edited sample_op2] sample_log_good Hr)
    as (h' & b' & A & Q & cs & E1 & Hr' & Hp & _ & HA & HQ).
  - intros x. unfold sample_log. rewrite !elem_of_cons. tauto.
  - pose proof (sample_low_receive 1 [[Undone sample_undo; Edited sample_op2]] b E) as Hl. cbn [low_receive] in Hl.
    apply andb_true_iff in Hl as [Hl _]; [exact Hl|by vm_compute].
  - exists b, h', b', cs, Q. split_and!; [exact E|exact E1|apply Hp|apply Hr'|]. apply HQ. split; [right; right; left|].
    intros [_ Hk]%HA. destruct (Hk (Edited sample_op1)) as [H|[H|H]]; [left|by vm_compute|..].
    + by apply elem_of_nil in H.
    + by apply elem_of_nil in H.
    + rewrite !elem_of_cons in H. destruct H as [H|[H|H%elem_of_nil]]; done.
Defined.
