(* ===== verification/Local.v ===== *)
(** What a replica does itself ([Buffer::edit], [Buffer::undo], [Buffer::redo]), as
    further operations of the history that the replicas receive. *)
From S2P Require Import Prelude Clock Locator Patch Subscription SumTree TreeFind Cursor Iter Keyed TreeMap UndoMap OperationQueue.
From S2P Require Import Utf8 Rope History Fragments Buffer BufferOps FragmentLaws Builders Cells EditMachine Snapshot Script Origin.
From S2P Require Import Commuting UndoLoop UndoEdit LocalEdit RemoteEdit Convergence Replicas Changes Delivery Deferral.
Import Buffer.
#[local] Existing Instances UndoMap.UndoMapKey_summary UndoMap.UndoMapEntry_item UndoMap.UndoMapEntry_laws UndoMap.UndoMapEntry_keyed.
Implicit Types (b : Buffer) (h : Topic.heap) (d : document) (x y z : change) (A Q log : list change) (l : list atom) (w : Global.t) (ts t : Lamport.t) (a : atom).

(** ** What a document tells about *)
(** [w] has seen every insertion, deletion and undo operation of [d]. *)
Record seen_all w d : Prop := {
  sa_atoms a : a ∈ d_atoms d → Global.observed w (a_timestamp a) = true ∧ ∀ t, t ∈ a_deletions a → Global.observed w t = true;
  sa_entries e : e ∈ d_entries d →
    Global.observed w (UndoMap.edit_id (UndoMap.entry_key e)) = true ∧ Global.observed w (UndoMap.undo_id (UndoMap.entry_key e)) = true;
}.
Definition covers w x : Prop := Global.observed w (c_timestamp x) = true ∧ ∀ t, Global.observed (c_version x) t = true → Global.observed w t = true.
Lemma change_seen w x d : change_ready x d → covers w x → seen_all w d → seen_all w (change_document x d).
Proof.
  intros Hr [Hx Hv] [Ha He]. destruct x as [o|u]; cbn in *.
  - split; [|done]. apply Forall_forall, apply_forall; [| |by apply Forall_forall].
    + intros a -> _ -> _. split; [done|]. by intros t ?%elem_of_nil.
    + intros a [H1 H2]. unfold mark_seen. destruct (was_shown _ _ _ _); [|done]. split; [done|]. cbn.
      intros t [?| ->%list_elem_of_singleton]%elem_of_app; [by apply H2|done].
  - destruct Hr as (_ & _ & _ & Hids). split; cbn.
    + intros a (a0 & -> & Hin)%list_elem_of_fmap. destruct (redo_atom_facts (UndoMap.entries u ++ d_entries d) (timestamp u) (undo_ids u) a0) as (_ & _ & -> & -> & _).
      by apply Ha.
    + intros e [[H1 ->]%entry_id|H]%elem_of_app; [|by apply He]. split; [|done]. apply Hv. by apply (proj1 (Forall_forall _ _) Hids).
Qed.
Lemma result_seen w A : ∀ d, ready_all (O := change) A d → (∀ x, x ∈ A → covers w x) → seen_all w d → seen_all w (result A d).
Proof.
  induction A as [|x A IH]; intros d Hr Hc Hd; [done|]. destruct Hr as [Hr Hrs]. apply (IH (change_document x d)); [done| |].
  - intros y Hy. apply Hc. by right.
  - apply change_seen; [done|apply Hc; left|done].
Qed.
Lemma result_shown A : ∀ d, ready_all (O := change) A d → shown d → shown (result A d).
Proof.
  induction A as [|x A IH]; intros d Hr Hd; [done|]. destruct Hr as [Hr Hrs]. apply (IH (change_document x d)); [done|]. by apply change_shown.
Qed.
Lemma undos_all (observed : UndoMap.UndoMapEntry → bool) t (es : undo_entries) :
  (∀ e, e ∈ es → observed e = true) → UndoMap.undos observed t es = UndoMap.undos (λ _, true) t es.
Proof.
  induction es as [|e es IH]; intros H; [done|]. rewrite !UndoMap.undos_cons, (H e), IH; [done| |left]. intros y Hy. apply H. by right.
Qed.
(** Who has seen everything sees what is visible. *)
Lemma seen_shown w d a : seen_all w d → shown d → a ∈ d_atoms d → was_shown w (d_entries d) (a_timestamp a) (a_deletions a) = a_visible a.
Proof.
  intros [Ha He] Hs Hin. rewrite (proj1 (Forall_forall _ _) Hs a Hin). destruct (Ha a Hin) as [H1 H2].
  assert (∀ t, undone_at w (d_entries d) t = undone (d_entries d) t) as Hu.
  { intros t. unfold undone_at, undone. by rewrite undos_all by (intros e He'; by apply He). }
  unfold was_shown, still_shown. rewrite H1, Hu. cbn [andb]. f_equal. apply forallb_same. intros t Ht. by rewrite (H2 t Ht), Hu.
Qed.

(** ** A local edit is an operation *)
(** A timestamp that is later than everything that was seen. *)
Definition later w ts : Prop := ∀ t, Global.observed w t = true → Lamport.cmp t ts = Lt.
Lemma later_unseen w ts : later w ts → Global.observed w ts = false.
Proof. intros H. apply not_true_iff_false. intros E. apply (cmp_lt_irrefl Lamport.cmp ts). by apply H. Qed.
Lemma ahead_later w ts : (∀ r, Global.get w r < Lamport.value ts) → later w ts.
Proof.
  intros H t Ht%Z.leb_le. specialize (H (Lamport.replica_id t)). unfold Lamport.cmp, then_with.
  by rewrite (proj2 (Z.compare_lt_iff _ _)) by lia.
Qed.
Lemma ahead_unseen w ts : (∀ r, Global.get w r < Lamport.value ts) → Global.observed w ts = false.
Proof. intros H. by apply later_unseen, ahead_later. Qed.
(** The operation says what was done: at the place where it was made, it can be
    applied and does the same. *)
Lemma local_is_operation ts w d es : seen_all w d → shown d → later w ts → NoDup (a_keys (d_atoms d)) →
  applicable (λ _, true) (λ _, false) 0 es (d_atoms d) →
  change_ready (Edited (mk_op ts w es)) d ∧ apply_full ts 0 0 es (d_atoms d) = apply (d_entries d) (mk_op ts w es) (d_atoms d).
Proof.
  intros Hs Hsh Hl Hnd Happ.
  assert (Forall (alike (λ _, true) (a_counted (seen w)) (λ _, false) (newer ts) (mark_shown ts) (mark_seen w ts (d_entries d))) (d_atoms d)) as Hal.
  { apply Forall_forall. intros a Ha. destruct (sa_atoms _ _ Hs a Ha) as [Ho _]. split_and!.
    - symmetry. exact Ho.
    - unfold newer. by rewrite (Hl _ Ho).
    - unfold mark_shown, mark_seen. by rewrite (seen_shown w d a). }
  destruct (apply_edits_ext _ _ _ _ _ _ ts es 0 0 (d_atoms d) Hal) as [E Ha]. split; [|exact E]. split; [split|].
  - done.
  - apply Forall_forall. intros a Hin Ea. destruct (sa_atoms _ _ Hs a Hin) as [Ho _]. cbn in Ea. rewrite Ea in Ho. by rewrite (later_unseen w ts Hl) in Ho.
  - apply Forall_forall. intros a Hin _. apply Hl. by apply (sa_atoms _ _ Hs).
  - by apply Ha.
  - intros e He Ee. destruct (sa_entries _ _ Hs e He) as [Ho _]. cbn in Ee. rewrite Ee in Ho. by rewrite (later_unseen w ts Hl) in Ho.
Qed.
Lemma total_len_app A log : total_len (A ++ log) = total_len A + total_len log.
Proof. unfold total_len. induction A as [|x A IH]; cbn; [done|]. rewrite IH. lia. Qed.

(** ** A further operation of the history *)
Section extend.
Variables (d : document) (v : Global.t) (log : list change) (b : Buffer) (A : list change) (x : change).
Hypothesis L : log_ok d v log.
Hypothesis H : has_applied d v log b A.
(** The replica has seen all that it made itself, *)
Hypothesis own : ∀ y, y ∈ log → Lamport.replica_id (c_timestamp y) = Lamport.replica_id (lamport_clock b) → y ∈ A.
(** and makes [x] where it is, under a new timestamp. *)
Hypothesis x_replica : Lamport.replica_id (c_timestamp x) = Lamport.replica_id (lamport_clock b).
Hypothesis x_ahead : ∀ r, Global.get (version (snapshot b)) r < Lamport.value (c_timestamp x).
Hypothesis x_small : Lamport.value (c_timestamp x) < u32_MAX.
Hypothesis x_version : c_version x = version (snapshot b).
Hypothesis x_ok : change_ok x.
Hypothesis x_ready : change_ready x (result A d).
Hypothesis x_len : all_len (d_atoms d) + total_len log + change_len x < 2 ^ 32.
Lemma applied_ready B : has_applied d v log b B → ready_all (O := change) B d.
Proof. intros HB. eapply closed_ready; [apply L|apply HB..]. Qed.
Lemma seen_applied y : y ∈ log → saw_change x y = true ↔ y ∈ A.
Proof. intros Hy. cbn. rewrite x_version. by apply (h_version _ _ _ _ _ H). Qed.
Lemma own_below y : y ∈ log → Lamport.replica_id (c_timestamp y) = Lamport.replica_id (c_timestamp x) →
  Lamport.value (c_timestamp y) < Lamport.value (c_timestamp x).
Proof.
  intros Hy Er. rewrite x_replica in Er. pose proof (proj2 (h_version _ _ _ _ _ H y Hy) (own y Hy Er)) as Ho%Z.leb_le.
  specialize (x_ahead (Lamport.replica_id (c_timestamp y))). lia.
Qed.
Lemma x_new : x ∉ log.
Proof. intros Hx. specialize (own_below x Hx eq_refl). lia. Qed.
Lemma below_unseen w : Global.get w (Lamport.replica_id (c_timestamp x)) < Lamport.value (c_timestamp x) → Global.observed w (c_timestamp x) = false.
Proof. intros Hw. apply Z.leb_gt. exact Hw. Qed.
Lemma start_below : Global.get v (Lamport.replica_id (c_timestamp x)) < Lamport.value (c_timestamp x).
Proof. pose proof (h_base _ _ _ _ _ H (Lamport.replica_id (c_timestamp x))). specialize (x_ahead (Lamport.replica_id (c_timestamp x))). lia. Qed.
Lemma not_known y : y ∈ log → saw_change y x = false.
Proof.
  intros Hy. apply below_unseen. pose proof start_below. destruct (g_known _ _ _ L y (Lamport.replica_id (c_timestamp x)) Hy) as [Hle|(z & Hz & _ & Er & Hle)]; [lia|].
  pose proof (own_below z Hz Er). lia.
Qed.
Lemma not_seen b' A' : has_applied d v log b' A' → Global.observed (version (snapshot b')) (c_timestamp x) = false.
Proof.
  intros H'. apply below_unseen. pose proof start_below. destruct (h_exact _ _ _ _ _ H' (Lamport.replica_id (c_timestamp x))) as [Hle|(z & Hz & Er & Hle)]; [lia|].
  pose proof (own_below z (h_log _ _ _ _ _ H' z Hz) Er). lia.
Qed.
Lemma known_ready : change_ready x (run_all (O := change) (S := document) (known (S := document) x log) d).
Proof.
  destruct (made_orders log d (g_made _ _ _ L)) as [Hnd Hc]. pose proof (applied_ready A H) as Hr.
  assert (A ≡ₚ known (S := document) x log) as Hp.
  { apply NoDup_Permutation; [apply H|by apply NoDup_filter, (NoDup_fmap_1 c_timestamp)|]. intros y. unfold known. rewrite list_elem_of_filter. split.
    - intros Hy. split; [by apply seen_applied, Hy; apply H|by apply H].
    - intros [Hk Hy]. by apply seen_applied. }
  destruct (orders_agree (S := document) (known (S := document) x log) A d) as [_ Ha].
  - by symmetry.
  - eapply sublist_NoDup; [exact Hnd|]. apply fmap_sublist, sublist_filter.
  - by apply (causal_filter (λ y, saw_change x y)).
  - apply H.
  - done.
  - exact (agrees_ready (O := change) (S := document) x _ _ Ha x_ready).
Qed.
Lemma extended : log_ok d v (log ++ [x]).
Proof.
  pose proof (g_len _ _ _ L) as Hlen. destruct x_ok as (Hok & _).
  assert (∀ y, y ∈ log ++ [x] → y ∈ log ∨ y = x) as Hin by (intros y [?| ->%list_elem_of_singleton]%elem_of_app; [by left|by right]).
  assert (saw_change x x = false) as Hxx by (cbn; rewrite x_version; apply below_unseen, x_ahead).
  split.
  - apply (made_snoc log x d (g_made _ _ _ L)).
    + intros (y & E & Hy)%list_elem_of_fmap. cbn in E. pose proof (own_below y Hy) as Hlt. rewrite <- E in Hlt. specialize (Hlt eq_refl). lia.
    + apply Forall_forall. intros y Hy. by apply not_known.
    + intros y z Hy Hz Hxy Hyz. apply seen_applied; [done|]. apply (h_closed _ _ _ _ _ H y z); [by apply seen_applied|done|done].
    + exact known_ready.
  - apply Forall_app. split; [apply L|by apply Forall_singleton].
  - intros y z [Hy| ->]%Hin [Hz| ->]%Hin Er Hle.
    + by apply (g_successive _ _ _ L).
    + right. apply seen_applied; [done|]. apply own; [done|]. by rewrite Er.
    + pose proof (own_below z Hz (symmetry Er)). lia.
    + by left.
  - intros y z u [Hy| ->]%Hin [Hz| ->]%Hin [Hu| ->]%Hin Hyz Hzu; try done.
    + by apply (g_trans _ _ _ L y z u).
    + by rewrite not_known in Hzu.
    + by rewrite not_known in Hyz.
    + apply seen_applied; [done|]. apply (h_closed _ _ _ _ _ H z u); [by apply seen_applied|done|done].
    + by rewrite not_known in Hzu.
  - intros y z [Hy| ->]%Hin [Hz| ->]%Hin Hyz.
    + by apply (g_later _ _ _ L).
    + by rewrite not_known in Hyz.
    + apply (ahead_later (version (snapshot b))); [done|]. cbn in Hyz. by rewrite x_version in Hyz.
    + congruence.
  - apply L.
  - intros y [Hy| ->]%Hin; [by apply L|]. apply below_unseen, start_below.
  - intros y r [Hy| ->]%Hin.
    + destruct (g_known _ _ _ L y r Hy) as [?|(z & Hz & ?)]; [by left|right; exists z; split; [apply elem_of_app; by left|done]].
    + rewrite x_version. destruct (h_exact _ _ _ _ _ H r) as [?|(z & Hz & Er & Hle)]; [by left|right; exists z].
      split_and!; [apply elem_of_app; left; by apply H|by apply seen_applied, Hz; apply H|done|done].
  - rewrite total_len_app. unfold total_len at 2. cbn. lia.
  - intros y [Hy| ->]%Hin; [by apply L|done].
Qed.
(** The other replicas have applied what they had. *)
Lemma applied_extended b' A' : has_applied d v log b' A' → has_applied d v (log ++ [x]) b' A'.
Proof.
  intros H'. pose proof (not_seen b' A' H') as Hn. split; try apply H'.
  - intros y Hy. apply elem_of_app. left. by apply H'.
  - intros y z Hy [Hz| ->%list_elem_of_singleton]%elem_of_app Hyz; [by apply (h_closed _ _ _ _ _ H' y z)|].
    rewrite not_known in Hyz; [done|by apply H'].
  - intros y [Hy| ->%list_elem_of_singleton]%elem_of_app; [by apply H'|]. rewrite Hn. split; [done|]. intros Hy. exfalso. by apply x_new, H'.
Qed.
(** The replica itself has applied [x], too. *)
Lemma made_applied b' : (∃ cs, presents (snapshot b') (change_document x (result A d)) cs) →
  version (snapshot b') = Global.observe (version (snapshot b)) (c_timestamp x) →
  Lamport.ok (lamport_clock b') → Lamport.value (lamport_clock b) ≤ Lamport.value (lamport_clock b') →
  Lamport.value (c_timestamp x) < Lamport.value (lamport_clock b') → has_applied d v (log ++ [x]) b' (A ++ [x]).
Proof.
  intros [cs Hp] Ev Hc1 Hc2 Hc3. apply (applied_step d v (log ++ [x]) extended b b' A x); try done.
  - by apply applied_extended.
  - apply elem_of_app. right. left.
  - intros Hx. by apply x_new, H.
  - intros y [Hy| ->%list_elem_of_singleton]%elem_of_app Hxy; [by apply seen_applied|]. exfalso. cbn in Hxy. rewrite x_version in Hxy.
    by rewrite below_unseen in Hxy.
  - exists cs. by rewrite run_all_app.
Qed.
End extend.

(** ** Editing a snapshot *)
Definition edited_op ts w (ranges : list (Z * Z)) (es : edits) : op := mk_op ts w (zip ranges (map snd es)).
Lemma edited_operation ts w (ranges : list (Z * Z)) (es : edits) : length ranges = length es →
  operation (Edited (edited_op ts w ranges es)) = EditOp (mk_edit_op ts w ranges (map (λ e, encode e.2) es)).
Proof.
  intros Hl. unfold edited_op. cbn. do 2 f_equal.
  - rewrite <- (fst_zip ranges (map snd es)) at 2; [done|]. rewrite length_map. lia.
  - transitivity (map encode (map snd (zip ranges (map snd es)))); [by rewrite map_map|].
    assert (map snd (zip ranges (map snd es)) = map snd es) as -> by (apply snd_zip; rewrite length_map; lia). by rewrite map_map.
Qed.
Lemma zip_len (ranges : list (Z * Z)) (es : edits) : length ranges = length es → inserted_len (zip ranges (map snd es)) = inserted_len es.
Proof.
  revert es. induction ranges as [|r rs IH]; intros [|e es] E; try done. cbn [map zip inserted_len foldr snd].
  fold (inserted_len (zip rs (map snd es))) (inserted_len es). rewrite IH; [done|]. by injection E.
Qed.
Lemma presented_edit replace_all ts s d cs raws es u :
  presents s d cs → low_trees s = true → Lamport.ok ts → 0 < Lamport.value ts → Forall (λ a, a_timestamp a ≠ ts) (d_atoms d) →
  all_len (d_atoms d) + inserted_len es < 2 ^ 32 → Forall2 (normalized replace_all) raws es → edited_text 0 es (text_of true (d_atoms d)) u →
  ∃ s' ranges patch cs', apply_edit_internal replace_all s raws ts = Some (s', mk_edit_op ts (version s) ranges (map (λ e, encode e.2) es), patch) ∧
    length ranges = length es ∧ applicable (λ _, true) (λ _, false) 0 (zip ranges (map snd es)) (d_atoms d) ∧
    presents s' (mk_document (apply_full ts 0 0 (zip ranges (map snd es)) (d_atoms d)) (d_entries d)) cs' ∧
    version s' = version s ∧ text_of true (atoms cs') = u ∧ Patch.relates 0 0 patch (encode (text_of true (d_atoms d))) (encode u).
Proof.
  intros Hp Hlow Hok Hpos Hfr Hlen Hn Hed. rewrite <- (p_atoms _ _ _ Hp) in Hfr, Hlen, Hed. destruct raws as [|raw raws].
  - inversion Hn; subst es. inversion Hed; subst. exists s, [], [], cs. rewrite (p_atoms _ _ _ Hp). split_and!; try done; [by destruct d|apply Patch.relates_nil].
  - destruct (local_edit_runs replace_all ts s cs raw raws es u) as (s' & ranges & patch & out & E & He & Et & Hl & Ed & Happ & Hr); try done.
    { apply Hp. }
    { apply low_roomy; [apply Hp|done]. }
    exists s', ranges, patch, (cells out). rewrite <- (p_atoms _ _ _ Hp). split_and!; try done; [|apply He]. rewrite <- Ed.
    apply (edited_presents (λ _, true) (λ _, false) (mark_shown ts) 0 (zip ranges (map snd es)) ts s s' cs out d); try done. apply mark_shown_place.
Qed.

(** ** The edits of the transactions *)
Section tracked.
Implicit Types (hs : History.History) (e : History.HistoryEntry).
Definition tracked hs : list Lamport.t := History.edits (History.undo_stack hs ++ History.redo_stack hs).
Lemma edits_elem t (es : list History.HistoryEntry) : t ∈ History.edits es ↔ ∃ e, e ∈ es ∧ t ∈ History.edit_ids (History.transaction e).
Proof. unfold History.edits. rewrite list_elem_of_In, in_flat_map. setoid_rewrite <- list_elem_of_In. done. Qed.
Lemma edits_app (es fs : list History.HistoryEntry) : History.edits (es ++ fs) = History.edits es ++ History.edits fs.
Proof. unfold History.edits. apply flat_map_app. Qed.
Lemma edits_part t (es fs : list History.HistoryEntry) : (∀ e, e ∈ es → e ∈ fs) → t ∈ History.edits es → t ∈ History.edits fs.
Proof. intros H (e & He & Ht)%edits_elem. apply edits_elem. exists e. split; [by apply H|done]. Qed.
Lemma start_tracked hs w now clock hs' clock' id : History.start_transaction hs w now clock = (hs', clock', id) → tracked hs' = tracked hs.
Proof.
  unfold History.start_transaction, tracked. cbn. destruct (Nat.eqb _ _); intros [= <- _ _]; [|done]. cbn. by rewrite !edits_app, app_nil_r.
Qed.
Lemma push_tracked hs op hs' : History.push hs op = Some hs' → tracked hs' = tracked hs.
Proof. unfold History.push. destruct (TreeMap.insert _ _ _); [|done]. by intros [= <-]. Qed.
Lemma push_undo_tracked hs t hs' : History.push_undo hs t = Some hs' → ∀ t', t' ∈ tracked hs' → t' ∈ tracked hs ∨ t' = t.
Proof.
  unfold History.push_undo. destruct (History.assert _); [|done]. cbn [mbind option_bind].
  destruct (TreeMap.get _ _) as [[[edit|undo]|]|]; cbn [mbind option_bind]; try done; try (intros [= <-] t'; by left).
  destruct (list.last _) eqn:El; [|done]. cbn [mbind option_bind]. intros [= <-] t'. unfold tracked. cbn.
  apply last_Some in El as [l ->]. rewrite History.update_top_snoc, !edits_app, !elem_of_app. cbn.
  rewrite !app_nil_r, elem_of_app, list_elem_of_singleton. tauto.
Qed.
Lemma end_tracked hs now hs' r : History.end_transaction_at hs now = Some (hs', r) →
  History.operations hs' = History.operations hs ∧ ∀ t, t ∈ tracked hs' → t ∈ tracked hs.
Proof.
  unfold History.end_transaction_at, History.end_transaction. destruct (History.assert _); [|done]. cbn [mbind option_bind].
  destruct (Nat.eqb _ _); [|by intros [= <- _]]. destruct (list.last (History.undo_stack (History.set_depth hs _))) as [last|] eqn:El; [|done]; cbn [mbind option_bind].
  cbn in El. apply last_Some in El as [l El]. destruct (History.edit_ids _) as [|t0 ts0] eqn:Ei.
  - cbn. intros [= <- _]. split; [done|]. intros t. unfold tracked. cbn. rewrite El, History.removelast_snoc, !edits_app, !elem_of_app. tauto.
  - cbn [History.undo_stack History.set_stacks History.set_depth History.redo_stack]. rewrite El, History.update_top_snoc, last_snoc. cbn [mbind option_bind].
    match goal with |- context [History.group ?g] => set (hs1 := g) end.
    destruct (History.group_ok hs1) as (keep & e & merged & Eu & _ & _ & ->); [cbn; by destruct l|]. cbn. intros [= <- _]. split; [done|]. intros t. unfold tracked. cbn.
    rewrite El, app_nil_r. cbn in Eu. rewrite !edits_app, !elem_of_app. intros Ht. left.
    assert (t ∈ History.edits (l ++ [History.set_last_edit_at now last])) as Hl; [|by rewrite edits_app in Hl; apply elem_of_app in Hl].
    rewrite Eu, edits_app, elem_of_app. destruct Ht as [?|Ht]; [by left|right]. cbn in Ht. rewrite app_nil_r in Ht. exact Ht.
Qed.
Lemma pop_tracked hs hs' r : History.pop_undo hs = Some (hs', r) ∨ History.pop_redo hs = Some (hs', r) →
  (∀ t, t ∈ tracked hs' → t ∈ tracked hs) ∧ (∀ e t, r = Some e → t ∈ History.edit_ids (History.transaction e) → t ∈ tracked hs).
Proof.
  unfold History.pop_undo, History.pop_redo. destruct (History.assert _); [|by intros [?|?]]. cbn [mbind option_bind]. unfold tracked.
  intros [E|E]; revert E.
  - destruct (History.undo_stack hs) as [|e l _] eqn:Eu using rev_ind; [intros [= <- <-]; rewrite Eu; by split|].
    rewrite History.vec_pop_snoc. intros [= <- <-]. cbn. split.
    + intros t. rewrite !edits_app, !elem_of_app. tauto.
    + intros e' t [= <-] Ht. rewrite !edits_app, !elem_of_app. left. right. apply edits_elem. exists e. split; [left|done].
  - destruct (History.redo_stack hs) as [|e l _] eqn:Eu using rev_ind; [intros [= <- <-]; rewrite Eu; by split|].
    rewrite History.vec_pop_snoc. intros [= <- <-]. cbn. split.
    + intros t. rewrite !edits_app, !elem_of_app. tauto.
    + intros e' t [= <-] Ht. rewrite !edits_app, !elem_of_app. right. right. apply edits_elem. exists e. split; [left|done].
Qed.
End tracked.

(** ** Calls that do not touch the document *)
Lemma tick_ok t : Lamport.ok t → Lamport.value t < u32_MAX →
  Lamport.tick t = (t, Lamport.mk (Lamport.value t + 1) (Lamport.replica_id t)) ∧ Lamport.ok (Lamport.mk (Lamport.value t + 1) (Lamport.replica_id t)).
Proof. intros [? ?] ?. unfold Lamport.tick. rewrite wrap32_id by width. split; [by destruct t|split; cbn; [width|done]]. Qed.
(** Only the history and the clock change, and the clock goes on. *)
Record beside b b' : Prop := {
  be_snapshot : snapshot b' = snapshot b;
  be_deferred : deferred_ops b' = deferred_ops b;
  be_replica : Lamport.replica_id (lamport_clock b') = Lamport.replica_id (lamport_clock b);
  be_clock : Lamport.ok (lamport_clock b');
  be_later : Lamport.value (lamport_clock b) ≤ Lamport.value (lamport_clock b');
  be_operations : History.operations (history b') = History.operations (history b);
}.
Lemma beside_applied d v log b b' A : beside b b' → has_applied d v log b A → has_applied d v log b' A.
Proof.
  intros [E _ _ Hc Hle _] H. split; rewrite ?E; try apply H. split; [done|]. intros r. rewrite E. pose proof (proj2 (h_clock _ _ _ _ _ H) r). lia.
Qed.
Lemma start_runs b now : kept b → Lamport.ok (lamport_clock b) → Lamport.value (lamport_clock b) < u32_MAX →
  ∃ b' id, start_transaction_at b now = (b', id) ∧ beside b b' ∧ Lamport.value (lamport_clock b') ≤ Lamport.value (lamport_clock b) + 1 ∧
    kept b' ∧ History.transaction_depth (history b') ≠ 0%nat ∧ tracked (history b') = tracked (history b).
Proof.
  intros [Hd Hl] Hc Hs. destruct (tick_ok _ Hc Hs) as [Et Ho]. unfold start_transaction_at.
  destruct (History.start_transaction _ _ _ _) as [[hs c] id] eqn:E. pose proof (start_tracked _ _ _ _ _ _ _ E) as Htr.
  eexists _, id. split; [reflexivity|]. unfold History.start_transaction in E. rewrite Et in E. cbn [History.set_depth History.transaction_depth] in E.
  destruct (Nat.eqb_spec (S (History.transaction_depth (history b))) 1) as [E1|E1]; injection E as <- <- _; (split_and!; [split; cbn; (done || lia)|cbn; lia| | |exact Htr]).
  - split; [|done]. cbn. intros _ H. by destruct (History.undo_stack (history b)).
  - done.
  - split; [|done]. cbn. intros _. apply Hd. lia.
  - done.
Qed.
Definition low_push b (op : Operation) : bool :=
  low_history b && match record_op op b with Some b => low_history b | None => true end.
Lemma inv_kept b : History.inv (history b) ↔ kept b ∧ low_history b = true.
Proof. unfold History.inv, kept, low_history. rewrite Nat.ltb_lt. tauto. Qed.
Lemma record_runs b b' op : kept b' → low_push b op = true → History.operations (history b') = History.operations (history b) →
  ∃ hs, record_op op b' = Some (set_history hs b') ∧ History.inv hs ∧
    History.transaction_depth hs = History.transaction_depth (history b') ∧ tracked hs = tracked (history b').
Proof.
  intros Hk [Hl1 Hl2]%andb_true_iff Eo. assert (low_history b' = true) as Hl by (unfold low_history; by rewrite Eo).
  destruct (History.push_some (history b') op) as (hs & E & Hi); [by apply inv_kept|]. exists hs. unfold record_op. rewrite E. split; [done|].
  pose proof (push_tracked _ _ _ E) as Ht. unfold record_op, History.push in *. rewrite <- Eo in Hl2. destruct (TreeMap.insert _ _ _) as [ops|]; [|done].
  cbn [mbind option_bind] in *. injection E as <-. split_and!; [|done|done]. apply Hi. by apply Nat.ltb_lt in Hl2.
Qed.
Lemma end_runs b now : History.inv (history b) → History.transaction_depth (history b) ≠ 0%nat →
  ∃ hs r, end_transaction_at b now = Some (set_history hs b, r) ∧ History.inv hs ∧
    History.operations hs = History.operations (history b) ∧ ∀ t, t ∈ tracked hs → t ∈ tracked (history b).
Proof.
  intros Hi Hd. destruct (History.end_transaction_at_some (history b) now Hi Hd) as (hs & r & E & Hi'). exists hs, r.
  unfold end_transaction_at. rewrite E. cbn [mbind option_bind].
  destruct (end_tracked _ _ _ _ E) as [? ?]. by split_and!.
Qed.

(** ** Replicas that make operations *)
(** A replica has applied what it made itself; the transactions that it can undo
    or redo hold such edits. *)
Record replica d (v : Global.t) log b A Q : Prop := {
  p_receives : receives d v log b A Q;
  p_own y : y ∈ log → Lamport.replica_id (c_timestamp y) = Lamport.replica_id (lamport_clock b) → y ∈ A;
  p_tracked t : t ∈ tracked (history b) → ∃ o, Edited o ∈ A ∧ o_timestamp o = t ∧ Lamport.replica_id t = Lamport.replica_id (lamport_clock b);
}.
(** [b'] comes out of [b] with a further operation [x] of the history. *)
Record adds d (v : Global.t) log b A Q x b' : Prop := {
  ad_log : log_ok d v (log ++ [x]);
  ad_replica : replica d v (log ++ [x]) b' (A ++ [x]) Q;
  ad_clock : Lamport.replica_id (lamport_clock b') = Lamport.replica_id (lamport_clock b);
  ad_timestamp : Lamport.replica_id (c_timestamp x) = Lamport.replica_id (lamport_clock b);
  ad_version : c_version x = version (snapshot b);
  ad_new : x ∉ log;
  ad_unknown y : y ∈ log → saw_change y x = false;
  ad_others b2 A2 Q2 : replica d v log b2 A2 Q2 → Lamport.replica_id (lamport_clock b2) ≠ Lamport.replica_id (lamport_clock b) →
    replica d v (log ++ [x]) b2 A2 Q2;
}.
Lemma adds_new d v log b A Q x b' : log_ok d v log → replica d v log b A Q →
  Lamport.replica_id (c_timestamp x) = Lamport.replica_id (lamport_clock b) →
  (∀ r, Global.get (version (snapshot b)) r < Lamport.value (c_timestamp x)) → Lamport.value (c_timestamp x) < u32_MAX →
  c_version x = version (snapshot b) → change_ok x → change_ready x (result A d) →
  all_len (d_atoms d) + total_len log + change_len x < 2 ^ 32 →
  (∃ cs, presents (snapshot b') (change_document x (result A d)) cs) →
  version (snapshot b') = Global.observe (version (snapshot b)) (c_timestamp x) →
  Lamport.replica_id (lamport_clock b') = Lamport.replica_id (lamport_clock b) → Lamport.ok (lamport_clock b') →
  Lamport.value (lamport_clock b) ≤ Lamport.value (lamport_clock b') → Lamport.value (c_timestamp x) < Lamport.value (lamport_clock b') →
  kept b' → deferred_ops b' = deferred_ops b →
  (∀ t, t ∈ tracked (history b') → t ∈ tracked (history b) ∨ t = c_timestamp x ∧ ∃ o, x = Edited o) →
  adds d v log b A Q x b'.
Proof.
  intros L [Hr Hown Htr] X1 X2 X3 X4 X5 X6 X7 Hp Ev Er Hc1 Hc2 Hc3 Hk Ed Ht. pose proof (r_applied _ _ _ _ _ _ Hr) as H.
  assert (∀ B y, y ∈ B → y ∈ B ++ [x]) as Hmore by (intros B y Hy; apply elem_of_app; by left).
  split; try done.
  - by apply (extended d v log b A x).
  - split.
    + split; [by apply (made_applied d v log b A x)|done| |intros y Hy; by apply Hmore, (r_queue_log _ _ _ _ _ _ Hr)].
      destruct (r_queued _ _ _ _ _ _ Hr). split; [by rewrite Ed|done].
    + rewrite Er. intros y [Hy| ->%list_elem_of_singleton]%elem_of_app Ey; apply elem_of_app; [left; by apply Hown|right; left].
    + rewrite Er. intros t [Hin|[-> [o ->]]]%Ht.
      * destruct (Htr t Hin) as (o & Ho & ?). exists o. split; [by apply Hmore|done].
      * exists o. split; [apply elem_of_app; right; left|done].
  - by apply (x_new d v log b A x).
  - intros y Hy. by apply (not_known d v log b A x).
  - intros b2 A2 Q2 [Hr2 Hown2 Htr2] Hne. split; [|  |done].
    + split; [|apply Hr2|apply Hr2|intros y Hy; by apply Hmore, (r_queue_log _ _ _ _ _ _ Hr2)].
      apply (applied_extended d v log b A x); try done. apply Hr2.
    + intros y [Hy| ->%list_elem_of_singleton]%elem_of_app Ey; [by apply Hown2|]. congruence.
Qed.
(** What the first version and the first document have to do with each other. *)
Record first_document d (v : Global.t) : Prop := { f_seen : seen_all v d; f_shown : shown d; f_version : Global.wf v; f_len : all_len (d_atoms d) < 2 ^ 32 }.
Lemma applied_covers d v log b A x : log_ok d v log → has_applied d v log b A → x ∈ A → covers (version (snapshot b)) x.
Proof.
  intros L H Hx. pose proof (h_log _ _ _ _ _ H x Hx) as Hxl. split; [by apply (h_version _ _ _ _ _ H)|]. intros t Ht%Z.leb_le. apply Z.leb_le.
  destruct (g_known _ _ _ L x (Lamport.replica_id t) Hxl) as [Hle|(y & Hy & Hxy & Er & Hle)].
  - pose proof (h_base _ _ _ _ _ H (Lamport.replica_id t)). lia.
  - pose proof (proj2 (h_version _ _ _ _ _ H y Hy) (h_closed _ _ _ _ _ H x y Hx Hy Hxy)) as Ho%Z.leb_le. rewrite Er in Ho. lia.
Qed.
Lemma applied_document d v log b A : log_ok d v log → first_document d v → has_applied d v log b A →
  seen_all (version (snapshot b)) (result A d) ∧ shown (result A d) ∧ NoDup (a_keys (d_atoms (result A d))).
Proof.
  intros L [[Ha He] Hs _ _] H. assert (ready_all (O := change) A d) as Hr by (eapply applied_ready; [exact L|exact H]).
  assert (∀ t, Global.observed v t = true → Global.observed (version (snapshot b)) t = true) as Hb.
  { intros t Ht%Z.leb_le. apply Z.leb_le. pose proof (h_base _ _ _ _ _ H (Lamport.replica_id t)). lia. }
  split_and!.
  - apply result_seen; [done|intros x; by eapply applied_covers|]. split.
    + intros a [H1 H2]%Ha. split; [by apply Hb|]. intros t Ht. by apply Hb, H2.
    + intros e [H1 H2]%He. split; by apply Hb.
  - by apply result_shown.
  - destruct (h_presents _ _ _ _ _ H) as [cs Hp]. rewrite <- (p_atoms _ _ _ Hp). apply (s_keys _ _ (p_snapshot _ _ _ Hp)).
Qed.
Lemma beside_replica d v log b b' A Q : beside b b' → kept b' → (∀ t, t ∈ tracked (history b') → t ∈ tracked (history b)) →
  replica d v log b A Q → replica d v log b' A Q.
Proof.
  intros Hb Hk Ht [[H _ Hq HQ] Hown Htr]. split.
  - split; [by eapply beside_applied|done| |done]. destruct Hq. split; [by rewrite (be_deferred _ _ Hb)|done].
  - by rewrite (be_replica _ _ Hb).
  - rewrite (be_replica _ _ Hb). intros t Hin%Ht. by apply Htr.
Qed.
Lemma adds_beside d v log b b1 A Q x b' : beside b b1 → adds d v log b1 A Q x b' → adds d v log b A Q x b'.
Proof.
  intros Hb [H1 H2 H3 H4 H5 H6 H7 H8]. rewrite (be_replica _ _ Hb), ?(be_snapshot _ _ Hb) in *. by split.
Qed.
Lemma applied_len_bound d v log b A : log_ok d v log → has_applied d v log b A → all_len (d_atoms (result A d)) ≤ all_len (d_atoms d) + total_len log.
Proof. intros L H. rewrite result_len. pose proof (total_len_part A log (h_nodup _ _ _ _ _ H) (h_log _ _ _ _ _ H)). lia. Qed.

Lemma presents_version w s d cs : presents s d cs → Global.wf w → presents (set_version w s) d cs.
Proof. intros [Hs Ha He Hx Hv] Hw. split; cbn; [by destruct Hs|done|done|by destruct Hx|done]. Qed.
Lemma zip_scalars replace_all raws (ranges : list (Z * Z)) (es : edits) :
  Forall2 (normalized replace_all) raws es → Forall (λ e, scalars e.2) (zip ranges (map snd es)).
Proof.
  intros H. revert ranges. induction H as [|raw e raws es (_ & _ & He) _ IH]; intros [|r ranges]; cbn; try constructor; [done|apply IH].
Qed.
Lemma get_nonneg w r : Global.wf w → 0 ≤ Global.get w r.
Proof.
  intros [Hw _]. destruct (Z.le_gt_cases 0 (ReplicaId.id r)); [|by rewrite Global.get_neg].
  rewrite Global.get_nth by done. by apply Global.nth_nonneg.
Qed.

(** ** [Buffer::edit] *)
Section edit.
Context {S : Type} `{!ToOffset S}.
Variable replace_all : list Z → option (list Z).
(** The trees are low enough, and the clock does not overflow. *)
Definition low_edit b (started : Z) (raw : list ((S * S) * list Z)) : bool :=
  low_trees (snapshot b) && (Lamport.value (lamport_clock b) + 2 <? u32_MAX) &&
  match raws ← edit_offsets (snapshot b) raw; apply_edit_internal replace_all (snapshot b) raws (lamport_clock (start_transaction_at b started).1) with
  | Some (_, op, _) => low_push b (EditOp op)
  | None => true
  end.
Lemma edit_adds d v log h b A Q started ended raw raws es u :
  log_ok d v log → first_document d v → replica d v log b A Q →
  edit_offsets (snapshot b) raw = Some raws → Forall2 (normalized replace_all) raws es → edited_text 0 es (text_of true (d_atoms (result A d))) u →
  low_edit b started raw = true → all_len (d_atoms d) + total_len log + inserted_len es < 2 ^ 32 →
  ∃ h' b' o, edit replace_all h b started ended raw = Some (h', b', operation (Edited o)) ∧ adds d v log b A Q (Edited o) b' ∧
    inserted_len (o_edits o) = inserted_len es ∧ text_of true (d_atoms (result (A ++ [Edited o]) d)) = u.
Proof.
  intros L F Hr Eo Hn Hed [[Hlow Hmax]%andb_true_iff Hpush]%andb_true_iff Hlen. apply Z.ltb_lt in Hmax.
  pose proof (r_applied _ _ _ _ _ _ (p_receives _ _ _ _ _ _ Hr)) as H. destruct (h_presents _ _ _ _ _ H) as [cs Hp]. pose proof (proj1 (h_clock _ _ _ _ _ H)) as Hck.
  destruct (start_runs b started (r_kept _ _ _ _ _ _ (p_receives _ _ _ _ _ _ Hr)) Hck) as (b1 & id & E1 & Hb & Hle & Hk1 & Hd1 & Ht1); [lia|].
  rewrite E1, Eo in Hpush. cbn [fst mbind option_bind] in Hpush. unfold edit. rewrite E1.
  assert (replica d v log b1 A Q) as Hr1 by (apply (beside_replica d v log b); [done|done|by rewrite Ht1|done]).
  pose proof (r_applied _ _ _ _ _ _ (p_receives _ _ _ _ _ _ Hr1)) as H1. pose proof (applied_len_bound _ _ _ _ _ L H1) as Hal.
  destruct (applied_document _ _ _ _ _ L F H1) as (Hseen & Hshown & Hnd). destruct (h_clock _ _ _ _ _ H1) as [Hck1 Hahead].
  set (ts := lamport_clock b1) in *. destruct (tick_ok ts Hck1) as [Et Htok]; [lia|]. rewrite Et. pose proof (be_snapshot _ _ Hb) as Es.
  pose proof (be_later _ _ Hb). pose proof (ahead_later _ _ Hahead) as Hlat. rewrite <- Es in Hp, Hlow, Eo.
  assert (0 < Lamport.value ts) as Hpos by (specialize (Hahead (Lamport.replica_id ts)); pose proof (get_nonneg (version (snapshot b1)) (Lamport.replica_id ts) (applied_wf _ _ _ _ _ H1)); lia).
  destruct (presented_edit replace_all ts (snapshot b1) (result A d) cs raws es u Hp Hlow Hck1 Hpos) as (s' & ranges & patch & cs' & E2 & Hlr & Happ & Hp' & Ev & Eu & _);
    [|lia|done|done|].
  { apply Forall_forall. intros a Ha Ea. destruct (sa_atoms _ _ Hseen a Ha) as [Hs _]. rewrite Ea in Hs. by rewrite (later_unseen _ _ Hlat) in Hs. }
  rewrite <- Es, E2 in Hpush.
  set (o := edited_op ts (version (snapshot b1)) ranges es).
  destruct (local_is_operation ts _ _ _ Hseen Hshown Hlat Hnd Happ) as [Hready Ea]. change (mk_op _ _ _) with o in Hready, Ea. rewrite Ea in Hp'.
  unfold apply_local_edit. change (snapshot (set_clock _ b1)) with (snapshot b1). rewrite Eo. cbn [mbind option_bind]. rewrite E2. cbn [mbind option_bind].
  unfold publish. destruct (Topic.publish _ _ _) as [h' tp]. cbn [mbind option_bind].
  rewrite <- (edited_operation ts (version (snapshot b1)) ranges es Hlr) in Hpush |- *. change (edited_op ts _ ranges es) with o in Hpush |- *.
  set (b2 := set_subscriptions tp _). destruct (record_runs b b2 (operation (Edited o)) Hk1 Hpush (be_operations _ _ Hb)) as (hs & -> & Hi & Hdep & Ht2).
  cbn [mbind option_bind]. change (History.transaction_depth (history b2)) with (History.transaction_depth (history b1)) in Hdep.
  change (history (set_history hs b2)) with hs. destruct (History.push_undo_some hs (op_timestamp (operation (Edited o))) Hi) as (hs' & E3 & Hkeep); [by rewrite Hdep|].
  rewrite E3. cbn [mbind option_bind]. pose proof (push_undo_tracked _ _ _ E3) as Ht3. set (b4 := observe_version _ _).
  assert (history b4 = hs') as E4' by done.
  destruct (end_runs b4 ended) as (hs4 & r & E4 & Hi4 & _ & Ht4); [rewrite E4'; by apply (History.keeps_inv hs)|by rewrite E4', (proj1 (proj2 Hkeep)), Hdep|].
  rewrite E4. cbn [mbind option_bind]. exists h', (set_history hs4 b4), o. split; [done|].
  assert (inserted_len (o_edits o) = inserted_len es) as Eil by by apply zip_len.
  split_and!; [|done|].
  - apply (adds_beside d v log b b1); [done|]. apply adds_new; try done.
    + change (Lamport.value ts < u32_MAX). lia.
    + split_and!; [done|done|eapply applied_wf, H1|]. by eapply zip_scalars.
    + change (all_len (d_atoms d) + total_len log + inserted_len (o_edits o) < 2 ^ 32). lia.
    + exists cs'. apply presents_version; [exact Hp'|]. apply Global.wf_observe; [|done]. change (Global.wf (version s')). rewrite Ev. eapply applied_wf, H1.
    + change (Global.observe (version s') ts = Global.observe (version (snapshot b1)) ts). by rewrite Ev.
    + change (Lamport.value ts ≤ Lamport.value ts + 1). lia.
    + change (Lamport.value ts < Lamport.value ts + 1). lia.
    + by apply inv_kept.
    + intros t Hin%Ht4%Ht3. change (tracked (history b2)) with (tracked (history b1)) in Ht2. rewrite Ht2 in Hin.
      destruct Hin as [?| ->]; [by left|right]. split; [done|by exists o].
  - rewrite run_all_app, <- Eu. by rewrite (p_atoms _ _ _ Hp').
Qed.
End edit.

(** ** [Buffer::undo] and [Buffer::redo] *)
Definition counted_again (es : undo_entries) (counts : gmap Lamport.t Z) (ids : list Lamport.t) : gmap Lamport.t Z :=
  foldl (λ counts id, <[id := saturating_add 32 (UndoMap.undos (λ _, true) id es) 1]> counts) counts ids.
Lemma count_fits undos (es : undo_entries) t : Keyed.fits undos es → Lamport.ok t →
  UndoMap.count (undo_fuel undos) undos t = Some (UndoMap.undos (λ _, true) t es).
Proof.
  intros Hfit Ht. pose proof Hfit as (_ & _ & E & _). unfold undo_fuel. rewrite E.
  destruct (UndoMap.count_from (λ _, true) undos es t (S (length es)) Hfit Ht) as (cur & hit & E1 & E2); [lia|].
  unfold UndoMap.count. rewrite E1. exact E2.
Qed.
Lemma counts_run undos (es fs : undo_entries) ids : Keyed.fits undos es → es ≡ₚ fs → Forall Lamport.ok ids → ∀ counts,
  foldl (λ counts edit_id, counts ← counts; n ← UndoMap.count (undo_fuel undos) undos edit_id; Some (<[edit_id := saturating_add 32 n 1]> counts))
    (Some counts) ids = Some (counted_again fs counts ids).
Proof.
  intros Hf Hp. induction 1 as [|t ids Ht _ IH]; intros counts; [done|]. cbn [foldl counted_again]. cbn [mbind option_bind].
  rewrite (count_fits undos es t Hf Ht). cbn [mbind option_bind]. rewrite IH. by rewrite (UndoMap.undos_perm _ _ _ _ Hp).
Qed.
Lemma counted_lookup (es : undo_entries) ids : ∀ counts t n, counted_again es counts ids !! t = Some n →
  t ∈ ids ∧ n = saturating_add 32 (UndoMap.undos (λ _, true) t es) 1 ∨ counts !! t = Some n.
Proof.
  induction ids as [|t ids IH]; intros counts t' n; [by right|]. cbn. intros [[H ->]|H]%IH; [left; split; [by right|done]|].
  apply lookup_insert_Some in H as [[-> <-]|[_ H]]; [left; split; [left|done]|by right].
Qed.
(** The operation that undoes, or does again, the edits [ids]. *)
Definition toggle d b (ids : list Lamport.t) : UndoOperation :=
  mk_undo (lamport_clock b) (version (snapshot b)) (counted_again (d_entries d) ∅ ids).
Definition low_undo b (transaction : History.Transaction) : bool :=
  low_trees (snapshot b) && (Lamport.value (lamport_clock b) + 1 <? u32_MAX) &&
  match foldl (λ counts edit_id, counts ← counts; n ← UndoMap.count (undo_fuel (undo_map (snapshot b))) (undo_map (snapshot b)) edit_id;
      Some (<[edit_id := saturating_add 32 n 1]> counts)) (Some (∅ : gmap Lamport.t Z)) (History.edit_ids transaction) with
  | Some counts =>
      let undo := mk_undo (lamport_clock b) (version (snapshot b)) counts in
      low_for (snapshot b) (Undone undo) && low_push b (UndoOp undo)
  | None => true
  end.
Lemma undo_rest h b u h' b' : BufferOps.apply_undo h b u = Some (h', b') →
  history b' = history b ∧ deferred_ops b' = deferred_ops b ∧ deferred_replicas b' = deferred_replicas b.
Proof.
  unfold BufferOps.apply_undo. destruct (Buffer.apply_undo _ _) as [[s p]|]; [|done]. cbn [mbind option_bind]. unfold publish.
  destruct (Topic.publish _ _ _). intros [= _ <-]. by split_and!.
Qed.
Definition apart_from_base (v : Global.t) b : Prop :=
  Global.observed v Slices.base_timestamp = true ∨ Lamport.replica_id (lamport_clock b) ≠ Lamport.replica_id Slices.base_timestamp.
Lemma toggle_adds d v log h b A Q transaction :
  log_ok d v log → first_document d v → replica d v log b A Q → apart_from_base v b →
  (∀ t, t ∈ History.edit_ids transaction → ∃ o, Edited o ∈ A ∧ o_timestamp o = t ∧ Lamport.replica_id t = Lamport.replica_id (lamport_clock b)) →
  low_undo b transaction = true →
  let u := toggle (result A d) b (History.edit_ids transaction) in
  ∃ h' b', undo_or_redo h b transaction = Some (h', b', operation (Undone u)) ∧ adds d v log b A Q (Undone u) b' ∧
    tracked (history b') = tracked (history b).
Proof.
  intros L F Hr Hbase Hids [[Hlow Hmax]%andb_true_iff Hpush]%andb_true_iff u. apply Z.ltb_lt in Hmax.
  pose proof (p_receives _ _ _ _ _ _ Hr) as Hrec. pose proof (r_applied _ _ _ _ _ _ Hrec) as H. destruct (h_presents _ _ _ _ _ H) as [cs Hp].
  destruct (h_clock _ _ _ _ _ H) as [Hck Hahead]. pose proof (ahead_later _ _ Hahead) as Hlat. destruct (tick_ok _ Hck) as [Et Htok]; [lia|].
  destruct (applied_document _ _ _ _ _ L F H) as (Hseen & _ & _). destruct (p_entries _ _ _ Hp) as (es & Hf & Hes).
  assert (∀ t, t ∈ History.edit_ids transaction → Lamport.ok t ∧ Global.observed (version (snapshot b)) t = true ∧ t ≠ Slices.base_timestamp) as Ht.
  { intros t (o & Ho & Eo & Er)%Hids. pose proof (h_log _ _ _ _ _ H _ Ho) as Hl. rewrite <- Eo. split_and!.
    - apply (log_change d v log L (Edited o) Hl).
    - by apply (h_version _ _ _ _ _ H (Edited o)).
    - intros E. pose proof (g_unseen _ _ _ L _ Hl) as Hu. cbn in Hu. rewrite E in Hu. destruct Hbase as [?|Hb]; [congruence|].
      apply Hb. by rewrite <- Er, <- Eo, E. }
  assert (Forall Lamport.ok (History.edit_ids transaction)) as Hok by (apply Forall_forall; intros t Hin; by apply Ht).
  pose proof (counts_run _ es _ _ Hf Hes Hok ∅) as Ec. rewrite Ec in Hpush. apply andb_true_iff in Hpush as [Hlf Hpush]. fold u in Hlf, Hpush.
  unfold undo_or_redo. rewrite Ec. cbn [mbind option_bind]. unfold undo_operations. rewrite Et.
  assert (change_ready (Undone u) (result A d)) as Hready.
  { assert (∀ t n, counts u !! t = Some n → t ∈ History.edit_ids transaction ∧ 0 ≤ n) as Hc.
    { intros t n [[Hin ->]|Hn]%counted_lookup; [|by rewrite lookup_empty in Hn]. split; [done|].
      pose proof (UndoMap.undos_nonneg (λ _, true) t (d_entries (result A d))). unfold saturating_add. lia. }
    assert (∀ t, t ∈ undo_ids u → t ∈ History.edit_ids transaction) as Hui.
    { intros t ([t' n] & -> & Hin%elem_of_map_to_list)%list_elem_of_fmap. by apply (Hc t' n). }
    split_and!.
    - split; [done|]. intros t n [Hin Hn]%Hc. split; [by apply Ht|done].
    - intros e He Ee. destruct (sa_entries _ _ Hseen e He) as [_ Ho]. rewrite Ee in Ho. cbn in Ho. by rewrite (later_unseen _ _ Hlat) in Ho.
    - intros Hin%Hui. by apply Ht in Hin as (_ & _ & ?).
    - apply Forall_forall. intros t Hin%Hui. by apply Ht. }
  pose proof (applied_len_bound _ _ _ _ _ L H) as Hal. pose proof (g_len _ _ _ L).
  set (b1 := observe_version (lamport_clock b) (set_clock _ b)).
  assert (presents (snapshot b1) (result A d) cs) as Hp1 by (apply presents_version; [done|apply Global.wf_observe; [apply Hp|done]]).
  destruct (apply_undo_runs h b1 (result A d) cs u Hp1 Hlf Hready) as (h' & b' & cs' & E & Hp' & Ev & Ecl); [lia|].
  change (mk_undo _ _ _) with u. rewrite E. cbn [mbind option_bind]. pose proof (undo_rest _ _ _ _ _ E) as (Eh & Ed & Edr).
  change (UndoOp u) with (operation (Undone u)). destruct (record_runs b b' (operation (Undone u))) as (hs & -> & Hi & _ & Ht2); [by unfold kept; rewrite Eh; apply Hrec|done|by rewrite Eh|].
  cbn [mbind option_bind]. exists h', (set_history hs b'). split; [done|]. split; [|change (tracked hs = tracked (history b)); by rewrite Ht2, Eh].
  assert (0 < Lamport.value (lamport_clock b)) as Hpos.
  { specialize (Hahead (Lamport.replica_id (lamport_clock b))). pose proof (get_nonneg (version (snapshot b)) (Lamport.replica_id (lamport_clock b)) (applied_wf _ _ _ _ _ H)). lia. }
  apply adds_new; try done.
  - change (Lamport.value (lamport_clock b) < u32_MAX). lia.
  - split_and!; [done|done|eapply applied_wf, H|done].
  - cbn [change_len]. lia.
  - by exists cs'.
  - change (Lamport.replica_id (lamport_clock b') = Lamport.replica_id (lamport_clock b)). by rewrite Ecl.
  - change (Lamport.ok (lamport_clock b')). by rewrite Ecl.
  - change (Lamport.value (lamport_clock b) ≤ Lamport.value (lamport_clock b')). rewrite Ecl. cbn. lia.
  - change (Lamport.value (lamport_clock b) < Lamport.value (lamport_clock b')). rewrite Ecl. cbn. lia.
  - by apply inv_kept.
  - change (∀ t, t ∈ tracked hs → t ∈ tracked (history b) ∨ t = lamport_clock b ∧ ∃ o, Undone u = Edited o). rewrite Ht2, Eh. by left.
Qed.

Lemma inv_set hs b : History.inv hs → kept (set_history hs b).
Proof. intros H. by apply (inv_kept (set_history hs b)). Qed.
(** [pop] is [History::pop_undo] or [History::pop_redo]. *)
Definition low_revert (pop : History.History → option (History.History * option History.HistoryEntry)) b : bool :=
  match pop (history b) with
  | Some (hs, Some entry) => low_undo (set_history hs b) (History.transaction entry)
  | _ => true
  end.
Definition revert (pop : History.History → option (History.History * option History.HistoryEntry)) h b :
    option (Topic.heap * Buffer * option (Lamport.t * Operation)) :=
  '(hs, entry) ← pop (history b);
  match entry with
  | Some entry =>
      '(h, b, op) ← undo_or_redo h (set_history hs b) (History.transaction entry);
      Some (h, b, Some (History.id (History.transaction entry), op))
  | None => Some (h, set_history hs b, None)
  end.
Lemma undo_revert h b : BufferOps.undo h b = revert History.pop_undo h b.
Proof. unfold BufferOps.undo, revert. by destruct (History.pop_undo _) as [[hs [e|]]|]. Qed.
Lemma redo_revert h b : BufferOps.redo h b = revert History.pop_redo h b.
Proof. unfold BufferOps.redo, revert. by destruct (History.pop_redo _) as [[hs [e|]]|]. Qed.
Lemma pop_some pop hs : pop = History.pop_undo ∨ pop = History.pop_redo → History.transaction_depth hs = 0%nat →
  ∃ hs' r, pop hs = Some (hs', r) ∧ History.operations hs' = History.operations hs ∧ History.transaction_depth hs' = 0%nat.
Proof.
  intros Hpop Hd. assert (History.assert (History.no_transaction hs) = Some tt) as Ha by (unfold History.assert, History.no_transaction; by rewrite Hd).
  destruct Hpop as [->| ->]; [unfold History.pop_undo|unfold History.pop_redo]; rewrite Ha; cbn [mbind option_bind];
    destruct (vec_pop _) as [[e l]|]; eexists _, _; split_and!; try reflexivity; done.
Qed.
Lemma revert_adds pop d v log h b A Q : pop = History.pop_undo ∨ pop = History.pop_redo →
  log_ok d v log → first_document d v → replica d v log b A Q → apart_from_base v b →
  History.transaction_depth (history b) = 0%nat → low_revert pop b = true →
  ∃ h' b' r, revert pop h b = Some (h', b', r) ∧
    match r with
    | Some (_, op) => ∃ u, op = operation (Undone u) ∧ adds d v log b A Q (Undone u) b'
    | None => beside b b' ∧ replica d v log b' A Q
    end.
Proof.
  intros Hpop L F Hr Hbase Hd Hlow. destruct (pop_some pop (history b) Hpop Hd) as (hs & r & E & Eo & Ed).
  destruct (pop_tracked (history b) hs r) as [Ht He]; [destruct Hpop as [<-| <-]; auto|].
  unfold revert, low_revert in *. rewrite E in *. cbn [mbind option_bind].
  assert (beside b (set_history hs b)) as Hb.
  { split; try done. apply (h_clock _ _ _ _ _ (r_applied _ _ _ _ _ _ (p_receives _ _ _ _ _ _ Hr))). }
  assert (replica d v log (set_history hs b) A Q) as Hr1.
  { apply (beside_replica d v log b); [done| |done|done]. split; [cbn; by rewrite Ed|cbn]. rewrite Eo. apply (r_kept _ _ _ _ _ _ (p_receives _ _ _ _ _ _ Hr)). }
  destruct r as [entry|]; [|exists h, (set_history hs b), None; done].
  destruct (toggle_adds d v log h (set_history hs b) A Q (History.transaction entry) L F Hr1 Hbase) as (h' & b' & E1 & Ha & _); [|done|].
  { intros t Hin. apply (p_tracked _ _ _ _ _ _ Hr). by apply (He entry t). }
  rewrite E1. cbn [mbind option_bind]. eexists h', b', _. split; [reflexivity|]. eexists. split; [reflexivity|]. by apply (adds_beside d v log b (set_history hs b)).
Qed.
