(* ===== verification/Network.v ===== *)
(** Replicas that edit, undo, redo, and send each other what they did: whatever they
    do, in whatever order what was sent arrives, the documents of replicas that
    have seen the same operations agree. *)
From S2P Require Import Prelude Clock Locator Patch Subscription SumTree TreeFind Cursor Iter Keyed TreeMap UndoMap OperationQueue.
From S2P Require Import Utf8 Rope History Fragments Buffer BufferOps FragmentLaws Builders Cells EditMachine Snapshot Script Origin.
From S2P Require Import Commuting UndoLoop UndoEdit LocalEdit RemoteEdit Convergence Replicas Changes Delivery Deferral Local.
Import Buffer.
Implicit Types (b : Buffer) (h : Topic.heap) (d : document) (x y z : change) (A Q log : list change) (ops : list Operation).

(** ** What receiving does not touch *)
(** The replica, its transactions. *)
Definition same_author b b' : Prop :=
  Lamport.replica_id (lamport_clock b') = Lamport.replica_id (lamport_clock b) ∧
  History.undo_stack (history b') = History.undo_stack (history b) ∧ History.redo_stack (history b') = History.redo_stack (history b).
#[export] Instance same_author_preorder : PreOrder same_author.
Proof. split; [done|]. intros b1 b2 b3 (H1 & H2 & H3) (H4 & H5 & H6). unfold same_author. by rewrite H4, H5, H6. Qed.
Lemma record_author op b b' : record_op op b = Some b' → same_author b b'.
Proof. unfold record_op, History.push. destruct (TreeMap.insert _ _ _); [|done]. by intros [= <-]. Qed.
Lemma apply_author h b op h' b' : apply_op h b op = Some (h', b') → same_author b b'.
Proof. intros (E1 & _ & _ & E2)%apply_op_rest. unfold same_author. by rewrite E1. Qed.
Lemma defer_author b ops b' : defer b ops = Some b' → same_author b b'.
Proof. unfold defer. destruct (OperationQueue.insert _ _); [|done]. by intros [= <-]. Qed.
Lemma pass_author record : (∀ op b b', record op b = Some b' → same_author b b') →
  ∀ ops h b held h' b' held', apply_or_defer record h b ops held = Some (h', b', held') → same_author b b'.
Proof.
  intros Hrec. induction ops as [|op ops IH]; intros h b held h' b' held'; cbn [apply_or_defer]; [by intros [= _ <- _]|].
  destruct (record op b) as [b1|] eqn:E1; [|done]. cbn [mbind option_bind]. apply Hrec in E1. destruct (can_apply_op b1 op).
  - destruct (apply_op h b1 op) as [[h2 b2]|] eqn:E2; [|done]. cbn [mbind option_bind]. apply apply_author in E2. intros E%IH. by do 2 etransitivity.
  - intros E%IH. etransitivity; [exact E1|]. exact E.
Qed.
Lemma receive_author h b ops h' b' : apply_ops h b ops = Some (h', b') → same_author b b'.
Proof.
  unfold apply_ops, flush_deferred_ops. destruct (apply_or_defer _ _ _ _ _) as [[[h1 b1] held1]|] eqn:E1; [|done]. cbn [mbind option_bind].
  destruct (defer b1 held1) as [b2|] eqn:E2; [|done]. cbn [mbind option_bind]. unfold OperationQueue.drain.
  destruct (OperationQueue.iter _ _) as [ops'|]; [|done]. cbn [mbind option_bind].
  destruct (apply_or_defer _ _ (set_deferred _ _ _) _ _) as [[[h3 b3] held3]|] eqn:E3; [|done]. cbn [mbind option_bind].
  destruct (defer b3 held3) as [b4|] eqn:E4; [|done]. cbn [mbind option_bind]. intros [= _ <-].
  apply pass_author in E1; [|apply record_author]. apply defer_author in E2, E4. apply pass_author in E3; [|by intros ? ? ? [= <-]].
  etransitivity; [exact E1|]. etransitivity; [exact E2|]. etransitivity; [|exact E4]. exact E3.
Qed.

(** ** The network *)
(** What was sent, and the replicas, each with the heap of its subscribers. *)
Record network := mk_network { sent : list Operation; replicas : list (Topic.heap * Buffer) }.
Section network.
Context {S : Type} `{!ToOffset S}.
Variable replace_all : list Z → option (list Z).
Inductive action :=
  | Edit (started ended : Z) (edits : list ((S * S) * list Z)) | Undo | Redo
  | StartTransaction (now : Z) | EndTransaction (now : Z) | Receive (ops : list Operation).
(** What a replica does, and what it sends. *)
Definition act (a : action) h b : option (Topic.heap * Buffer * list Operation) :=
  match a with
  | Edit started ended edits => '(h, b, op) ← edit replace_all h b started ended edits; Some (h, b, [op])
  | Undo => '(h, b, r) ← BufferOps.undo h b; Some (h, b, match r with Some (_, op) => [op] | None => [] end)
  | Redo => '(h, b, r) ← BufferOps.redo h b; Some (h, b, match r with Some (_, op) => [op] | None => [] end)
  | StartTransaction now => Some (h, (start_transaction_at b now).1, [])
  | EndTransaction now => '(b, _) ← end_transaction_at b now; Some (h, b, [])
  | Receive ops => '(h, b) ← apply_ops h b ops; Some (h, b, [])
  end.
Definition perform (i : nat) (a : action) (N : network) : option network :=
  '(h, b) ← replicas N !! i;
  '(h, b, ops) ← act a h b;
  Some (mk_network (sent N ++ ops) (<[i := (h, b)]> (replicas N))).
(** The bytes of an operation. *)
Definition op_text (op : Operation) : Z :=
  match op with EditOp edit => foldr (λ t n, Utf8.len t + n) 0 (new_text edit) | UndoOp _ => 0 end.
Definition sent_text ops : Z := foldr (λ op n, op_text op + n) 0 ops.

Variables (d : document) (v : Global.t).
(** What a replica may do: edit its visible text at boundaries of characters, end
    transactions that it has started, undo and redo when none is open, and receive
    what was sent. The trees fit the stack of a cursor, the clock and the lengths
    their widths. *)
Definition allowed (a : action) (N : network) h b : Prop :=
  match a with
  | Edit started _ edits => ∃ raws es, edit_offsets (snapshot b) edits = Some raws ∧ Forall2 (normalized replace_all) raws es ∧
      (∀ t, has (visible_text (snapshot b)) t → ∃ u, edited_text 0 es t u) ∧ low_edit replace_all b started edits = true ∧
      all_len (d_atoms d) + sent_text (sent N) + inserted_len es < 2 ^ 32
  | Undo => History.transaction_depth (history b) = 0%nat ∧ low_revert History.pop_undo b = true
  | Redo => History.transaction_depth (history b) = 0%nat ∧ low_revert History.pop_redo b = true
  | StartTransaction _ => Lamport.value (lamport_clock b) < u32_MAX
  | EndTransaction _ => History.transaction_depth (history b) ≠ 0%nat ∧ low_history b = true
  | Receive ops => (∀ op, op ∈ ops → op ∈ sent N) ∧ low_apply_ops h b ops = true
  end.
(** The replicas start with the same document, and with clocks of their own. *)
Definition distinct (N : network) : Prop := ∀ i j h b h' b', replicas N !! i = Some (h, b) → replicas N !! j = Some (h', b') →
  Lamport.replica_id (lamport_clock b) = Lamport.replica_id (lamport_clock b') → i = j.
Record first (N : network) : Prop := {
  n_nothing : sent N = [];
  n_starts i h b : replicas N !! i = Some (h, b) → starts d v b ∧ History.undo_stack (history b) = [] ∧ History.redo_stack (history b) = [] ∧ apart_from_base v b;
  n_authors : distinct N;
}.
Inductive reachable : network → Prop :=
  | reachable_first N : first N → reachable N
  | reachable_perform i a N N' h b : reachable N → replicas N !! i = Some (h, b) → allowed a N h b → perform i a N = Some N' → reachable N'.
End network.

Section correct.
Context {S : Type} `{!ToOffset S}.
Variable replace_all : list Z → option (list Z).
Variables (d : document) (v : Global.t).
Hypothesis F : first_document d v.
Abbreviation reachable := (reachable (S := S) replace_all d v).
Abbreviation allowed := (allowed (S := S) replace_all d).
Abbreviation act := (act (S := S) replace_all).
Abbreviation perform := (perform (S := S) replace_all).
(** ** The invariant *)
Record network_inv (N : network) log : Prop := {
  n_sent : sent N = map operation log;
  n_log : log_ok d v log;
  n_replica i h b : replicas N !! i = Some (h, b) → ∃ A Q, replica d v log b A Q ∧ waiting log A Q;
  n_distinct : distinct N;
  n_base i h b : replicas N !! i = Some (h, b) → apart_from_base v b;
}.
Lemma sent_changes log ops : (∀ op, op ∈ ops → op ∈ map operation log) → ∃ cs, ops = map operation cs ∧ ∀ x, x ∈ cs → x ∈ log.
Proof.
  induction ops as [|op ops IH]; intros H; [exists []; split; [done|by intros x ?%elem_of_nil]|].
  assert (op ∈ map operation log) as (x & -> & Hx)%list_elem_of_fmap by (apply H; left). destruct IH as (cs & -> & Hc); [intros op Hop; apply H; by right|].
  exists (x :: cs). split; [done|]. intros y [->|Hy]%elem_of_cons; [done|by apply Hc].
Qed.
Lemma sent_text_changes log : sent_text (map operation log) = total_len log.
Proof.
  induction log as [|x log IH]; [done|]. cbn [map sent_text total_len foldr]. fold (sent_text (map operation log)) (total_len log). rewrite IH. f_equal.
  destruct x as [o|u]; [|done]. cbn. unfold inserted_len. induction (o_edits o) as [|e es IHe]; [done|]. cbn. by rewrite IHe, len_encode.
Qed.
Lemma first_inv N : first d v N → network_inv N [].
Proof.
  intros [Hs Hst Hd]. destruct F as [_ _ Hwf Hlen].
  assert (log_ok d v []) as L.
  { split.
    - constructor.
    - constructor.
    - by intros x y ?%elem_of_nil.
    - by intros x y z ?%elem_of_nil.
    - by intros x y ?%elem_of_nil.
    - done.
    - by intros x ?%elem_of_nil.
    - by intros x r ?%elem_of_nil.
    - cbn. lia.
    - by intros x ?%elem_of_nil. }
  split; [done|done| |done|by intros i h b (_ & _ & _ & ?)%Hst].
  intros i h b (H1 & H2 & H3 & _)%Hst. exists [], []. split; [|by intros x ?%elem_of_nil]. split.
  - by apply starts_receives.
  - by intros y ?%elem_of_nil.
  - unfold tracked. rewrite H2, H3. by intros t ?%elem_of_nil.
Qed.
(** What an action leaves of the replica: it sends nothing, or a further operation. *)
Inductive acted log b A Q : list Operation → Buffer → Prop :=
  | acted_silent b' A' Q' : Lamport.replica_id (lamport_clock b') = Lamport.replica_id (lamport_clock b) →
      replica d v log b' A' Q' → waiting log A' Q' → acted log b A Q [] b'
  | acted_sent x b' : adds d v log b A Q x b' → acted log b A Q [operation x] b'.
Lemma act_runs N log a i h b A Q : network_inv N log → replicas N !! i = Some (h, b) → replica d v log b A Q → waiting log A Q →
  allowed a N h b → ∃ h' b' ops, act a h b = Some (h', b', ops) ∧ acted log b A Q ops b'.
Proof.
  intros [Hs L _ _ Hbase] Hi Hr Hw Ha. apply Hbase in Hi as Hb. clear Hbase.
  pose proof (p_receives _ _ _ _ _ _ Hr) as Hrec. pose proof (r_applied _ _ _ _ _ _ Hrec) as H. pose proof (proj1 (h_clock _ _ _ _ _ H)) as Hck.
  assert (∀ pop, pop = History.pop_undo ∨ pop = History.pop_redo → History.transaction_depth (history b) = 0%nat → low_revert pop b = true →
    ∃ h' b' ops, ('(h, b, r) ← revert pop h b; Some (h, b, match r with Some (_, op) => [op] | None => [] end)) = Some (h', b', ops) ∧
      acted log b A Q ops b') as Hrev.
  { intros pop Hpop Hd Hl. destruct (revert_adds pop d v log h b A Q Hpop L F Hr Hb Hd Hl) as (h' & b' & r & -> & Hres). cbn [mbind option_bind].
    eexists h', b', _. split; [reflexivity|]. destruct r as [[t op]|].
    - destruct Hres as (u & -> & Hadd). by constructor.
    - destruct Hres as [Hbe Hr']. econstructor; [apply Hbe|exact Hr'|exact Hw]. }
  destruct a as [started ended edits| | |now|now|ops]; cbn [allowed act] in *.
  - destruct Ha as (raws & es & Eo & Hn & Hed & Hlow & Hlen). destruct (h_presents _ _ _ _ _ H) as [cs Hp].
    destruct (Hed _ (s_visible _ _ (p_snapshot _ _ _ Hp))) as [u Hu]. rewrite (p_atoms _ _ _ Hp) in Hu.
    rewrite Hs, sent_text_changes in Hlen.
    destruct (edit_adds replace_all d v log h b A Q started ended edits raws es u L F Hr Eo Hn Hu Hlow Hlen) as (h' & b' & o & E & Hadd & _).
    rewrite E. cbn [mbind option_bind]. eexists h', b', _. split; [reflexivity|by constructor].
  - rewrite undo_revert. apply Hrev; [by left|apply Ha..].
  - rewrite redo_revert. apply Hrev; [by right|apply Ha..].
  - destruct (start_runs b now (r_kept _ _ _ _ _ _ Hrec) Hck Ha) as (b' & id & -> & Hbe & _ & Hk & _ & Ht). eexists h, b', _. split; [reflexivity|].
    econstructor; [apply Hbe| |exact Hw]. apply (beside_replica d v log b); [done|done|by rewrite Ht|done].
  - destruct Ha as [Hd Hlow]. destruct (end_runs b now) as (hs & r & -> & Hi' & Eop & Ht); [apply inv_kept; split; [apply Hrec|done]|done|].
    cbn [mbind option_bind]. eexists h, _, _. split; [reflexivity|]. econstructor; [reflexivity| |exact Hw].
    apply (beside_replica d v log b); [|by apply inv_set|done|done]. by split.
  - destruct Ha as [Hin Hlow]. rewrite Hs in Hin. destruct (sent_changes log ops Hin) as (cs & -> & Hcs).
    destruct (apply_ops_runs d v log h b A Q cs L Hrec Hcs Hlow) as (h' & b' & A' & Q' & E & Hrec' & HA & HQ).
    pose proof (receive_author _ _ _ _ _ E) as (Er & Eu & Ere). rewrite E. cbn [mbind option_bind]. eexists h', b', _. split; [reflexivity|].
    destruct Hr as [_ Hown Htr]. econstructor; [done|split; [exact Hrec'| |]|].
    + rewrite Er. intros y Hy Ey. apply elem_of_app. left. by apply Hown.
    + unfold tracked. rewrite Er, Eu, Ere. intros t (o & Ho & ?)%Htr. exists o. split; [apply elem_of_app; by left|done].
    + intros x [Hx Hn]%HQ Hk. apply Hn, HA. split; [done|]. intros y Hy Hxy. by destruct (Hk y Hy Hxy) as [[? _]%HA|[? _]%HQ].
Qed.
Lemma acted_author log b A Q ops b' : acted log b A Q ops b' → Lamport.replica_id (lamport_clock b') = Lamport.replica_id (lamport_clock b).
Proof. destruct 1 as [b' A' Q' E _ _|x b' Ha]; [done|apply Ha]. Qed.
(** Every replica follows. *)
Lemma acted_inv N log i h b A Q ops h' b' : network_inv N log → replicas N !! i = Some (h, b) → replica d v log b A Q → waiting log A Q →
  acted log b A Q ops b' →
  ∃ log', network_inv (mk_network (sent N ++ ops) (<[i := (h', b')]> (replicas N))) log' ∧ log `prefix_of` log'.
Proof.
  intros [Hs L Hrep Hd Hbase] Hi Hr Hw Hact. pose proof (acted_author _ _ _ _ _ _ Hact) as Ea.
  assert (distinct (mk_network (sent N ++ ops) (<[i := (h', b')]> (replicas N)))) as Hd'.
  { assert (∀ j g c, <[i := (h', b')]> (replicas N) !! j = Some (g, c) →
      ∃ g' c', replicas N !! j = Some (g', c') ∧ Lamport.replica_id (lamport_clock c') = Lamport.replica_id (lamport_clock c)) as Hold.
    { intros j g c [(<- & [= <- <-] & _)|[_ Hj]]%list_lookup_insert_Some; [by exists h, b|by exists g, c]. }
    intros j k g c g' c' (g1 & c1 & Hj & E1)%Hold (g2 & c2 & Hk & E2)%Hold E. eapply Hd; [exact Hj|exact Hk|congruence]. }
  assert (∀ j g c, <[i := (h', b')]> (replicas N) !! j = Some (g, c) → apart_from_base v c) as Hb'.
  { intros j g c [(<- & [= <- <-] & _)|[_ Hj]]%list_lookup_insert_Some; [|by eapply Hbase].
    unfold apart_from_base. rewrite Ea. by eapply Hbase. }
  destruct Hact as [b' A' Q' _ Hr' Hw'|x b' Hadd].
  - exists log. split; [|done]. split; [cbn; by rewrite app_nil_r|done| |done|done].
    intros j g c [(<- & [= <- <-] & _)|[_ Hj]]%list_lookup_insert_Some; [by exists A', Q'|by eapply Hrep].
  - exists (log ++ [x]). split; [|by apply prefix_app_r].
    assert (∀ B P, waiting log B P → (∀ y, y ∈ P → y ∈ log) → ∀ B', (∀ y, y ∈ log → y ∈ B' ↔ y ∈ B) → waiting (log ++ [x]) B' P) as Hwait.
    { intros B P HB HP B' Heq y Hy Hk. apply (HB y Hy). intros z Hz Hyz. rewrite <- Heq by done. apply Hk; [apply elem_of_app; by left|done]. }
    split; [cbn; by rewrite map_app, Hs|apply Hadd| |done|done].
    intros j g c [(<- & [= <- <-] & _)|[Hne Hj]]%list_lookup_insert_Some.
    + exists (A ++ [x]), Q. split; [apply Hadd|]. apply (Hwait A); [done|apply Hr|]. intros y Hy. rewrite elem_of_app, list_elem_of_singleton.
      split; [intros [?| ->]; [done|]|by left]. by apply (ad_new _ _ _ _ _ _ _ _ Hadd) in Hy.
    + destruct (Hrep j g c Hj) as (A2 & Q2 & Hr2 & Hw2). exists A2, Q2. split; [apply (ad_others _ _ _ _ _ _ _ _ Hadd); [done|]|by apply (Hwait A2); [done|apply Hr2|]].
      intros E. by apply Hne, (Hd i j h b g c).
Qed.
Lemma perform_runs N log i a h b : network_inv N log → replicas N !! i = Some (h, b) → allowed a N h b →
  ∃ N' log', perform i a N = Some N' ∧ network_inv N' log' ∧ log `prefix_of` log'.
Proof.
  intros HN Hi Ha. destruct (n_replica _ _ HN i h b Hi) as (A & Q & Hr & Hw).
  destruct (act_runs N log a i h b A Q HN Hi Hr Hw Ha) as (h' & b' & ops & E & Hact).
  destruct (acted_inv N log i h b A Q ops h' b' HN Hi Hr Hw Hact) as (log' & HN' & Hpre).
  eexists _, log'. split; [|done]. unfold perform. rewrite Hi. cbn [mbind option_bind]. by rewrite E.
Qed.
Lemma network_reachable_inv N : reachable N → ∃ log, network_inv N log.
Proof.
  induction 1 as [N H|i a N N' h b _ [log HN] Hi Ha E]; [exists []; by apply first_inv|].
  destruct (perform_runs N log i a h b HN Hi Ha) as (N2 & log' & E2 & HN' & _). rewrite E in E2. injection E2 as <-. by exists log'.
Qed.
End correct.

(** ** What holds in every network *)
Section properties.
Context {S : Type} `{!ToOffset S}.
Implicit Types (N : network).

(** C2: Networks of replicas. However replicas, which start with one document,
    edit, undo, redo and receive (anything that was sent, in any order, more than
    once): the operations that were sent are a history, each made where those that
    its author had seen were applied. Each replica's document is that of the
    operations its version has observed, among them its own and all that the
    authors of these had seen, in a causal order; and what is visible in it is what
    is not deleted or undone. (In all networks: if the first document has no base
    text, none of the replicas has the id [LOCAL], whose first timestamp is that of
    the base text.) *)
Theorem network_documents replace_all d v N : first_document d v → reachable (S := S) replace_all d v N →
  ∃ log, sent N = map operation log ∧ made log d ∧
    ∀ i h b, replicas N !! i = Some (h, b) → ∃ A cs, presents (snapshot b) (result A d) cs ∧ shown (result A d) ∧
      NoDup A ∧ causal_order (O := change) (S := document) A ∧ closed_in (S := document) log A ∧
      (∀ x, x ∈ A ↔ x ∈ log ∧ Global.observed (version (snapshot b)) (c_timestamp x) = true) ∧
      ∀ x, x ∈ log → Lamport.replica_id (c_timestamp x) = Lamport.replica_id (lamport_clock b) → x ∈ A.
Proof.
  intros F (log & [Hs L Hrep _ _])%network_reachable_inv; [|done]. exists log. split_and!; [done|apply L|]. intros i h b Hi.
  destruct (Hrep i h b Hi) as (A & Q & Hr & _). pose proof (r_applied _ _ _ _ _ _ (p_receives _ _ _ _ _ _ Hr)) as H.
  destruct (h_presents _ _ _ _ _ H) as [cs Hp], (applied_document _ _ _ _ _ L F H) as (_ & Hsh & _). exists A, cs.
  split_and!; [done|done|apply H..| |apply Hr]. intros x. split.
  - intros Hx. pose proof (h_log _ _ _ _ _ H x Hx). split; [done|]. by apply (h_version _ _ _ _ _ H).
  - intros [Hx Ho]. by apply (h_version _ _ _ _ _ H).
Qed.

(** C4: No panic. In every network that can be reached, a replica that does
    something it may do does not panic: an edit of its visible text at boundaries
    of characters, an undo or redo outside of a transaction, the end of a
    transaction that it started, or [apply_ops] of operations that were sent. (No
    replica has the id [LOCAL] if the first document has no base text.) *)
Theorem network_no_panic replace_all d v N i a h b : first_document d v → reachable (S := S) replace_all d v N →
  replicas N !! i = Some (h, b) → allowed replace_all d a N h b → ∃ N', perform replace_all i a N = Some N'.
Proof.
  intros F (log & HN)%network_reachable_inv Hi Ha; [|done]. destruct (perform_runs replace_all d v F N log i a h b HN Hi Ha) as (N' & _ & E & _). by exists N'.
Qed.

(** C1: Strong eventual consistency. In every network that can be reached, two
    replicas that have seen the same of the operations that were sent have
    documents that agree (up to the order in which deletions of a character were
    recorded), and show the same text. (Replicas start with one document, and with
    ids of their own; if that document has no base text, none of them has the id
    [LOCAL], whose first timestamp is that of the base text.) *)
Theorem network_converges replace_all d v N i j h b h' b' : first_document d v → reachable (S := S) replace_all d v N →
  replicas N !! i = Some (h, b) → replicas N !! j = Some (h', b') →
  (∀ op, op ∈ sent N → Global.observed (version (snapshot b)) (op_timestamp op) = Global.observed (version (snapshot b')) (op_timestamp op)) →
  ∃ cs cs' t, snapshot_of (snapshot b) cs ∧ snapshot_of (snapshot b') cs' ∧ agree (atoms cs) (atoms cs') ∧
    has (visible_text (snapshot b)) t ∧ has (visible_text (snapshot b')) t.
Proof.
  intros F (log & [Hs L Hrep _ _])%network_reachable_inv Hi Hj Heq; [|done].
  destruct (Hrep i h b Hi) as (A & Q & Hr & _), (Hrep j h' b' Hj) as (A' & Q' & Hr' & _).
  pose proof (r_applied _ _ _ _ _ _ (p_receives _ _ _ _ _ _ Hr)) as H. pose proof (r_applied _ _ _ _ _ _ (p_receives _ _ _ _ _ _ Hr')) as H'.
  assert (A ≡ₚ A') as HA.
  { apply NoDup_Permutation; [apply H|apply H'|]. intros x.
    assert (x ∈ log → x ∈ A ↔ x ∈ A') as Hx.
    { intros Hx. rewrite <- (h_version _ _ _ _ _ H x Hx), <- (h_version _ _ _ _ _ H' x Hx), <- operation_timestamp, Heq; [done|].
      rewrite Hs. by apply list_elem_of_fmap_2. }
    split; intros Hin; apply Hx; try done; [by apply H|by apply H']. }
  destruct (made_orders log d (g_made _ _ _ L)) as [Hnd _].
  destruct (orders_agree (O := change) (S := document) A A' d HA) as [_ [Hag _]]; [|apply H|apply H'|eapply applied_ready; [exact L|exact H']|].
  { apply NoDup_fmap_2_strong; [|apply H]. intros x y Hx Hy. apply (log_same d v log L); by apply H. }
  destruct (h_presents _ _ _ _ _ H) as [cs Hp], (h_presents _ _ _ _ _ H') as [cs' Hp'].
  assert (agree (atoms cs) (atoms cs')) as Hc by (rewrite (p_atoms _ _ _ Hp), (p_atoms _ _ _ Hp'); by symmetry).
  exists cs, cs', (text_of true (atoms cs)). split_and!; [apply Hp|apply Hp'|done|apply (s_visible _ _ (p_snapshot _ _ _ Hp))|].
  rewrite (agree_text true _ _ Hc). apply (s_visible _ _ (p_snapshot _ _ _ Hp')).
Qed.

(** C3: Delivery. In every network that can be reached, a replica that receives
    everything that was sent (in any order, more than once) has then observed all
    of it, and no operation waits. (No replica has the id [LOCAL] if the first
    document has no base text.) *)
Theorem network_delivers replace_all d v N i h b ops : first_document d v → reachable (S := S) replace_all d v N →
  replicas N !! i = Some (h, b) → (∀ op, op ∈ ops ↔ op ∈ sent N) → low_apply_ops h b ops = true →
  ∃ N' h' b', perform (S := S) replace_all i (Receive ops) N = Some N' ∧ replicas N' !! i = Some (h', b') ∧ sent N' = sent N ∧
    (∀ op, op ∈ sent N → Global.observed (version (snapshot b')) (op_timestamp op) = true) ∧ has_deferred_ops b' = Some false.
Proof.
  intros F (log & [Hs L Hrep _ _])%network_reachable_inv Hi Hops Hlow; [|done]. destruct (Hrep i h b Hi) as (A & Q & Hr & _).
  destruct (sent_changes log ops) as (cs & -> & Hcs); [intros op; rewrite <- Hs; apply Hops|].
  destruct (apply_ops_runs d v log h b A Q cs L (p_receives _ _ _ _ _ _ Hr) Hcs Hlow) as (h' & b' & A' & Q' & E & Hrec & HA & HQ).
  assert (∀ x, x ∈ log → x ∈ cs) as Hall.
  { intros x Hx. assert (operation x ∈ map operation cs) as (y & E' & Hy)%list_elem_of_fmap by (apply Hops; rewrite Hs; by apply list_elem_of_fmap_2).
    assert (c_timestamp x = c_timestamp y) as Et by by rewrite <- !operation_timestamp, E'. by rewrite (log_same d v log L x y Hx (Hcs y Hy) Et). }
  assert (∀ x, x ∈ log → x ∈ A ++ A') as Happ by (intros x Hx; apply HA; split; [auto|intros y Hy _; auto]).
  assert (Q' = []) as ->.
  { destruct Q' as [|x Q']; [done|]. exfalso. assert (x ∈ x :: Q') as Hin by left. apply HQ in Hin as [_ Hn]. apply Hn, Happ, (r_queue_log _ _ _ _ _ _ Hrec). left. }
  exists (mk_network (sent N) (<[i := (h', b')]> (replicas N))), h', b'. split_and!.
  - unfold perform. rewrite Hi. cbn [mbind option_bind act]. rewrite E. cbn [mbind option_bind]. by rewrite app_nil_r.
  - cbn. apply list_lookup_insert_eq. by eapply lookup_lt_Some.
  - done.
  - rewrite Hs. intros op (x & -> & Hx)%list_elem_of_fmap. rewrite operation_timestamp. apply (h_version _ _ _ _ _ (r_applied _ _ _ _ _ _ Hrec) x Hx). by apply Happ.
  - apply nothing_deferred, Hrec.
Qed.
End properties.

(** ** Two replicas
    They insert in front of their texts, undo, and receive all that was sent, the
    latest first. *)
#[local] Instance sample_offset : ToOffset Z := to_offset_usize true.
Inductive sample_step := Front (c : Z) | TakeBack | Again | ReceiveAll.
Definition sample_action (st : sample_step) (N : network) : action (S := Z) :=
  match st with
  | Front c => Edit 0 0 [((0, 0), [c])]
  | TakeBack => Undo
  | Again => Redo
  | ReceiveAll => Receive (rev (sent N))
  end.
Definition sample_allowed (st : sample_step) (N : network) h b : bool :=
  match st with
  | Front c => let edits := [((0, 0), [c])] in
      bool_decide (0 ≤ c < 128) && bool_decide (edit_offsets (snapshot b) edits = Some edits) &&
      low_edit (λ _, None) b 0 edits && (3 + sent_text (sent N) + 1 <? 2 ^ 32)
  | TakeBack => Nat.eqb (History.transaction_depth (history b)) 0 && low_revert History.pop_undo b
  | Again => Nat.eqb (History.transaction_depth (history b)) 0 && low_revert History.pop_redo b
  | ReceiveAll => low_apply_ops h b (rev (sent N))
  end.
Lemma sample_allowed_ok st N h b : sample_allowed st N h b = true → allowed (λ _, None) (base_document [97; 98; 99]) (sample_action st N) N h b.
Proof.
  destruct st as [c| | |]; cbn [sample_allowed sample_action allowed].
  - intros [[[Hc%bool_decide_eq_true Ho%bool_decide_eq_true]%andb_true_iff Hl]%andb_true_iff Ht%Z.ltb_lt]%andb_true_iff.
    assert (encode [c] = [c]) as Ec.
    { unfold encode, encode_char. cbn. rewrite (proj2 (Z.ltb_lt c 128)) by lia. done. }
    assert (str_len [c] = 1) as El by by rewrite <- len_encode, Ec.
    exists [((0, 0), [c])], [((0, 0), [c])]. split_and!; [done| | |done|].
    + constructor; [|constructor]. split_and!; [done|exact (symmetry Ec)|]. constructor; [|constructor]. unfold is_scalar. lia.
    + intros t _. exists ([] ++ [c] ++ t). by apply (edited_cons 0 0 0 [c] [] [] [] t t); [..|constructor].
    + change (all_len (d_atoms (base_document [97; 98; 99]))) with 3. unfold inserted_len. cbn [foldr snd]. rewrite El. lia.
  - intros [Hd%Nat.eqb_eq Hl]%andb_true_iff. done.
  - intros [Hd%Nat.eqb_eq Hl]%andb_true_iff. done.
  - intros Hl. split; [|done]. intros op. rewrite list_elem_of_In, <- in_rev, <- list_elem_of_In. done.
Qed.
Fixpoint sample_run (sts : list (nat * sample_step)) (N : network) : option network :=
  match sts with
  | [] => Some N
  | (i, st) :: sts =>
      '(h, b) ← replicas N !! i;
      if sample_allowed st N h b then N' ← perform (λ _, None) i (sample_action st N) N; sample_run sts N' else None
  end.
Abbreviation sample_reachable := (reachable (S := Z) (λ _, None) (base_document [97; 98; 99]) sample_version).
Lemma sample_run_reachable sts : ∀ N N', sample_reachable N → sample_run sts N = Some N' → sample_reachable N'.
Proof.
  induction sts as [|[i st] sts IH]; intros N N' HN; cbn [sample_run]; [by intros [= <-]|].
  destruct (replicas N !! i) as [[h b]|] eqn:Hi; [|done]. cbn [mbind option_bind]. destruct (sample_allowed st N h b) eqn:Ha; [|done].
  destruct (perform _ i _ N) as [N1|] eqn:E; [|done]. cbn [mbind option_bind]. apply IH.
  eapply reachable_perform; [exact HN|exact Hi|by apply sample_allowed_ok|exact E].
Qed.
Definition sample_net (sts : list (nat * sample_step)) : option network :=
  b ← sample_buffer 1; b' ← sample_buffer 2; sample_run sts (mk_network [] [(no_heap, b); (no_heap, b')]).
Lemma sample_first_document : first_document (base_document [97; 98; 99]) sample_version.
Proof.
  split; [split| | |].
  - apply Forall_forall. repeat (apply Forall_cons_2; [split; [by vm_compute|by intros t ?%elem_of_nil]|]). apply Forall_nil_2.
  - by intros e ?%elem_of_nil.
  - unfold shown. repeat (apply Forall_cons_2; [by vm_compute|]). apply Forall_nil_2.
  - apply sample_wf.
  - by vm_compute.
Qed.
Lemma sample_author replica_id b : sample_buffer replica_id = Some b → ReplicaId.ok (ReplicaId.mk replica_id) →
  starts (base_document [97; 98; 99]) sample_version b ∧ History.undo_stack (history b) = [] ∧ History.redo_stack (history b) = [] ∧
  apart_from_base sample_version b ∧ Lamport.replica_id (lamport_clock b) = ReplicaId.mk replica_id.
Proof.
  intros E Hid. destruct (sample_starts replica_id Hid) as (b' & E' & Hs). rewrite E in E'. injection E' as <-. unfold sample_buffer in E.
  destruct sample_text_rope as (r & Er & _). rewrite Er in E. cbn [mbind option_bind] in E.
  destruct (new_buffer_fields _ _ _ _ _ E) as (_ & Eh & _). rewrite Eh. split_and!; [done..|left; by vm_compute|].
  revert E. unfold new_normalized. destruct (Rope.is_empty _); cbn [negb]; [by intros [= <-]|]. destruct (iterate _ _ _) as [[f i]|]; [|done]. by intros [= <-].
Qed.
Definition sample_first (b b' : Buffer) : network := mk_network [] [(no_heap, b); (no_heap, b')].
Lemma sample_first_ok b b' : sample_buffer 1 = Some b → sample_buffer 2 = Some b' → first (base_document [97; 98; 99]) sample_version (sample_first b b').
Proof.
  assert (ReplicaId.ok (ReplicaId.mk 1) ∧ ReplicaId.ok (ReplicaId.mk 2)) as [K1 K2] by by vm_compute.
  intros E1 E2. destruct (sample_author 1 b E1 K1) as (H1 & H2 & H3 & H4 & H5), (sample_author 2 b' E2 K2) as (G1 & G2 & G3 & G4 & G5). clear E1 E2.
  split; [reflexivity| |].
  - intros [|[|i]] h c; cbn; [| |discriminate]; intros [= <- <-]; (split_and!; assumption).
  - intros i j h c h' c' Hi Hj E. destruct i as [|[|i]], j as [|[|j]]; cbn in Hi, Hj; try discriminate; try reflexivity;
      injection Hi as <- <-; injection Hj as <- <-; rewrite H5, G5 in E; discriminate.
Qed.
Lemma sample_net_reachable sts N : sample_net sts = Some N → sample_reachable N.
Proof.
  unfold sample_net. destruct (sample_buffer 1) as [b1|] eqn:E1; [|discriminate]. destruct (sample_buffer 2) as [b2|] eqn:E2; [|discriminate]. cbn [mbind option_bind].
  apply sample_run_reachable. constructor. exact (sample_first_ok b1 b2 E1 E2).
Qed.
(** What is checked of the two replicas in the end. *)
Definition sample_check (sts : list (nat * sample_step)) (f : network → Topic.heap → Buffer → Topic.heap → Buffer → bool) : bool :=
  match sample_net sts with
  | Some N => match replicas N with [(h, b); (h', b')] => f N h b h' b' | _ => false end
  | None => false
  end.
Lemma sample_checked sts f : sample_check sts f = true →
  ∃ N h b h' b', sample_reachable N ∧ replicas N !! 0%nat = Some (h, b) ∧ replicas N !! 1%nat = Some (h', b') ∧ f N h b h' b' = true.
Proof.
  unfold sample_check. destruct (sample_net sts) as [N|] eqn:E; [|discriminate]. apply sample_net_reachable in E.
  destruct (replicas N) as [|[h b] [|[h' b'] [|]]] eqn:Er; try discriminate. intros Hf. exists N, h, b, h', b'. rewrite Er. split_and!; [exact E|reflexivity|reflexivity|exact Hf].
Qed.
Definition sample_story : list (nat * sample_step) :=
  [(0%nat, Front 120); (1%nat, Front 121); (0%nat, TakeBack); (1%nat, ReceiveAll); (1%nat, Front 122); (0%nat, ReceiveAll)].
Definition same_seen (N : network) (h : Topic.heap) b (h' : Topic.heap) b' : bool :=
  forallb (λ op, Bool.eqb (Global.observed (version (snapshot b)) (op_timestamp op)) (Global.observed (version (snapshot b')) (op_timestamp op))) (sent N) &&
  Nat.eqb (length (sent N)) 4.
Lemma network_converges_witness : ∃ N h b h' b' t, sample_reachable N ∧ length (sent N) = 4%nat ∧
  replicas N !! 0%nat = Some (h, b) ∧ replicas N !! 1%nat = Some (h', b') ∧ has (visible_text (snapshot b)) t ∧ has (visible_text (snapshot b')) t.
Proof.
  destruct (sample_checked sample_story same_seen) as (N & h & b & h' & b' & HN & Hi & Hj & [Hf Hl%Nat.eqb_eq]%andb_true_iff); [by vm_compute|].
  destruct (network_converges (λ _, None) _ _ N 0 1 h b h' b' sample_first_document HN Hi Hj) as (cs & cs' & t & _ & _ & _ & H1 & H2).
  { intros op Hop. by apply Bool.eqb_prop, (proj1 (forallb_forall _ _) Hf), list_elem_of_In. }
  exists N, h, b, h', b', t. exact (conj HN (conj Hl (conj Hi (conj Hj (conj H1 H2))))).
Defined.
Lemma network_documents_witness : ∃ N log h b A cs, sample_reachable N ∧ sent N = map operation log ∧ length log = 4%nat ∧
  replicas N !! 0%nat = Some (h, b) ∧ presents (snapshot b) (result A (base_document [97; 98; 99])) cs.
Proof.
  destruct (sample_checked sample_story same_seen) as (N & h & b & h' & b' & HN & Hi & Hj & [_ Hl%Nat.eqb_eq]%andb_true_iff); [by vm_compute|].
  destruct (network_documents (λ _, None) _ _ N sample_first_document HN) as (log & Es & _ & Hr). destruct (Hr 0%nat h b Hi) as (A & cs & Hp & _).
  assert (length log = 4%nat) as Hl' by by rewrite <- Hl, Es, length_map.
  exists N, log, h, b, A, cs. exact (conj HN (conj Es (conj Hl' (conj Hi Hp)))).
Defined.
Lemma network_no_panic_witness : ∃ N N' : network, sample_reachable N ∧ perform (λ _, None) 0 (Undo (S := Z)) N = Some N'.
Proof.
  destruct (sample_checked [(0%nat, Front 120); (1%nat, ReceiveAll)] (λ N h b _ _, sample_allowed TakeBack N h b)) as (N & h & b & h' & b' & HN & Hi & _ & Hf); [by vm_compute|].
  destruct (network_no_panic (λ _, None) _ _ N 0 (Undo (S := Z)) h b sample_first_document HN Hi) as (N' & E).
  { exact (sample_allowed_ok TakeBack N h b Hf). }
  exists N, N'. exact (conj HN E).
Defined.
Lemma network_delivers_witness : ∃ N N' h' b', sample_reachable N ∧ length (sent N) = 2%nat ∧
  perform (λ _, None) 1 (Receive (S := Z) (rev (sent N))) N = Some N' ∧ replicas N' !! 1%nat = Some (h', b') ∧ has_deferred_ops b' = Some false.
Proof.
  destruct (sample_checked [(0%nat, Front 120); (0%nat, TakeBack)] (λ N _ _ h b, low_apply_ops h b (rev (sent N)) && Nat.eqb (length (sent N)) 2))
    as (N & _ & _ & h & b & HN & _ & Hi & [Hf Hl%Nat.eqb_eq]%andb_true_iff); [by vm_compute|].
  destruct (network_delivers (λ _, None) _ _ N 1 h b (rev (sent N)) sample_first_document HN Hi) as (N' & h' & b' & E & Hi' & _ & _ & Hd).
  { intros op. rewrite !list_elem_of_In. symmetry. apply in_rev. }
  { exact Hf. }
  exists N, N', h', b'. exact (conj HN (conj Hl (conj E (conj Hi' Hd)))).
Defined.
