(* ===== verification/Anchor.v ===== *)
(** Anchors ([crates/text/src/anchor.rs] and the methods of [BufferSnapshot] in
    [crates/text/src/text.rs]): positions that stay with a character while the text
    around it changes, named by the insertion that the character is from. *)
From S2P Require Import Prelude Clock Locator Points Patch Subscription SumTree TreeFind Cursor TreeWeight ParTree Iter Keyed TreeMap.
From S2P Require Import UndoMap OperationQueue Utf8 Rope RopePosition Selection History Fragments Buffer BufferOps.
Import Buffer.

Module Anchor.
(** The id of the buffer is a nonzero [u64].
    [crates/text/src/anchor.rs:10-28] Anchor *)
Record t := mk {
  timestamp_replica_id : ReplicaId.t;
  timestamp_value : Z;
  offset : Z;
  bias : SumTree.bias;
  buffer_id : Z;
}.
(** [crates/text/src/anchor.rs:49-57] Anchor::new *)
Definition new (timestamp : Lamport.t) (offset : Z) (bias : SumTree.bias) (buffer_id : Z) : t :=
  mk (Lamport.replica_id timestamp) (Lamport.value timestamp) offset bias buffer_id.
(** [crates/text/src/anchor.rs:59-67] Anchor::min_for_buffer *)
Definition min_for_buffer (buffer_id : Z) : t :=
  mk (Lamport.replica_id Lamport.MIN) (Lamport.value Lamport.MIN) 0 Left buffer_id.
(** [crates/text/src/anchor.rs:69-77] Anchor::max_for_buffer *)
Definition max_for_buffer (buffer_id : Z) : t :=
  mk (Lamport.replica_id Lamport.MAX) (Lamport.value Lamport.MAX) u32_MAX Right buffer_id.
(** [crates/text/src/anchor.rs:79-82] Anchor::min_min_range_for_buffer *)
Definition min_min_range_for_buffer (buffer_id : Z) : t * t := (min_for_buffer buffer_id, min_for_buffer buffer_id).
(** [crates/text/src/anchor.rs:83-86] Anchor::max_max_range_for_buffer *)
Definition max_max_range_for_buffer (buffer_id : Z) : t * t := (max_for_buffer buffer_id, max_for_buffer buffer_id).
(** [crates/text/src/anchor.rs:87-89] Anchor::min_max_range_for_buffer *)
Definition min_max_range_for_buffer (buffer_id : Z) : t * t := (min_for_buffer buffer_id, max_for_buffer buffer_id).
(** [crates/text/src/anchor.rs:183-188] Anchor::timestamp *)
Definition timestamp (self : t) : Lamport.t := Lamport.mk (timestamp_value self) (timestamp_replica_id self).
(** [crates/text/src/anchor.rs:170-174] Anchor::is_min *)
Definition is_min (self : t) : bool :=
  bool_decide (timestamp self = Lamport.MIN) && (offset self =? 0) && bool_decide (bias self = Left).
(** [crates/text/src/anchor.rs:176-180] Anchor::is_max *)
Definition is_max (self : t) : bool :=
  bool_decide (timestamp self = Lamport.MAX) && (offset self =? u32_MAX) && bool_decide (bias self = Right).
(** [{u16,u32,u64}::to_le_bytes] *)
Definition to_le_bytes (n : nat) (x : Z) : list Z := map (λ i, Z.land (Z.shiftr x (8 * Z.of_nat i)) 255) (seq 0 n).
(** [crates/text/src/anchor.rs:190-200] Anchor::opaque_id *)
Definition opaque_id (self : t) : list Z :=
  to_le_bytes 8 (buffer_id self) ++ to_le_bytes 4 (offset self) ++ to_le_bytes 4 (timestamp_value self) ++
  to_le_bytes 2 (ReplicaId.id (timestamp_replica_id self)) ++ [match bias self with Left => 0 | Right => 1 end; 0].
End Anchor.

Section anchors.
(** Whether [cfg!(debug_assertions)] holds. *)
Variable debug_assertions : bool.
Implicit Types (self : BufferSnapshot) (anchor : Anchor.t).
(** [debug_assert!] *)
Definition debug_assert (b : bool) : option unit := if debug_assertions && negb b then None else Some tt.
(** [crates/text/src/text.rs:2580-2604] BufferSnapshot::try_find_fragment *)
Definition try_find_fragment self anchor : option (option InsertionFragment) :=
  let anchor_key := mk_key (Anchor.timestamp anchor) (Anchor.offset anchor) in
  '(_, _, found) ← TreeFind.find_with_prev (insertion_key_cmp anchor_key) (Anchor.bias anchor) (insertions self);
  match found with
  | Some (prev, insertion) =>
      let comparison := insertion_key_cmp (key insertion) anchor_key in
      Some (if is_gt comparison || (bool_decide (Anchor.bias anchor = Left) && is_eq comparison && (0 <? Anchor.offset anchor))
            then prev else Some insertion)
  | None => SumTree.last (insertions self)
  end.
(** [crates/text/src/text.rs:2566-2578] BufferSnapshot::try_fragment_id_for_anchor *)
Definition try_fragment_id_for_anchor self anchor : option (option Locator.t) :=
  if Anchor.is_min anchor then Some (Some Locator.min)
  else if Anchor.is_max anchor then Some (Some Locator.max)
  else
    item ← try_find_fragment self anchor;
    Some match item with
         | Some insertion =>
             if negb debug_assertions || bool_decide (if_timestamp insertion = Anchor.timestamp anchor) then Some (fragment_id insertion) else None
         | None => None
         end.
(** [crates/text/src/text.rs:2561-2564] BufferSnapshot::fragment_id_for_anchor *)
Definition fragment_id_for_anchor self anchor : option Locator.t :=
  id ← try_fragment_id_for_anchor self anchor; id.
(** The place of a fragment in the visible text, and the fragment. *)
Definition find_fragment self (fragment_id : Locator.t) : option (Z * option Fragment.t) :=
  '(start, _, item) ← TreeFind.find (D := option Locator.t * Z) (λ d, option_compare (Some fragment_id) d.1) Left (fragments self);
  Some (start.2, item).
(** [crates/text/src/text.rs:2505-2539] BufferSnapshot::offset_for_anchor *)
Definition offset_for_anchor self anchor : option Z :=
  if Anchor.is_min anchor then Some 0
  else if Anchor.is_max anchor then Some (Rope.len (visible_text self))
  else
    _ ← debug_assert (Anchor.buffer_id anchor =? remote_id self);
    _ ← debug_assert (Global.observed (version self) (Anchor.timestamp anchor));
    item ← try_find_fragment self anchor;
    insertion ← item;
    if bool_decide (if_timestamp insertion = Anchor.timestamp anchor) then
      '(fragment_offset, item) ← find_fragment self (fragment_id insertion);
      fragment ← item;
      Some (if Fragment.visible fragment then fragment_offset +w64 (Anchor.offset anchor -w32 split_offset insertion) else fragment_offset)
    else None.
(** [crates/text/src/text.rs:2419-2426] BufferSnapshot::text_summary_for_range *)
Definition text_summary_for_range {D S} `{!TextDimension D, !ToOffset S} self (range : S * S) : option D :=
  start ← to_offset range.1 self;
  cursor ← Rope.cursor_at (visible_text self) start;
  end_ ← to_offset range.2 self;
  '(_, d) ← Rope.cursor_summary cursor end_; Some d.
(** [crates/text/src/text.rs:2498-2503] BufferSnapshot::summary_for_anchor *)
Definition summary_for_anchor {D} `{!TextDimension D} self anchor : option D :=
  end_ ← offset_for_anchor self anchor;
  text_summary_for_range (ToOffset0 := to_offset_usize debug_assertions) self (0, end_).
(** [crates/text/src/text.rs:2630-2665] BufferSnapshot::anchor_at_offset *)
Definition anchor_at_offset self (offset : Z) (bias : SumTree.bias) : option Anchor.t :=
  if bool_decide (bias = Left) && (offset =? 0) then Some (Anchor.min_for_buffer (remote_id self))
  else if bool_decide (bias = Right) && ((negb debug_assertions && (len self <=? offset)) || (offset =? len self))
  then Some (Anchor.max_for_buffer (remote_id self))
  else
    is_boundary ← Rope.assert_char_boundary debug_assertions (visible_text self) offset;
    offset ← (if negb is_boundary then
                match bias with
                | Left => Rope.floor_char_boundary (visible_text self) offset
                | Right => Rope.ceil_char_boundary (visible_text self) offset
                end
              else Some offset);
    '(start, _, item) ← TreeFind.find (D := Z) (Z.compare offset) bias (fragments self);
    match item with
    | Some fragment =>
        let overshoot := offset -w64 start in
        Some (Anchor.new (Fragment.timestamp fragment) (Fragment.insertion_offset fragment +w32 wrap32 overshoot) bias (remote_id self))
    | None => if debug_assertions then None else Some (Anchor.max_for_buffer (remote_id self))
    end.
Section positions.
Context {S : Type} `{!ToOffset S}.
(** [crates/text/src/text.rs:2626-2628] BufferSnapshot::anchor_at *)
Definition anchor_at self (position : S) (bias : SumTree.bias) : option Anchor.t :=
  offset ← to_offset position self; anchor_at_offset self offset bias.
(** [crates/text/src/text.rs:2617-2619] BufferSnapshot::anchor_before *)
Definition anchor_before self (position : S) : option Anchor.t := anchor_at self position Left.
(** [crates/text/src/text.rs:2622-2624] BufferSnapshot::anchor_after *)
Definition anchor_after self (position : S) : option Anchor.t := anchor_at self position Right.
(** [crates/text/src/text.rs:2607-2609] BufferSnapshot::anchor_range_inside *)
Definition anchor_range_inside self (position : S * S) : option (Anchor.t * Anchor.t) :=
  start ← anchor_after self position.1; end_ ← anchor_before self position.2; Some (start, end_).
(** [crates/text/src/text.rs:2612-2614] BufferSnapshot::anchor_range_outside *)
Definition anchor_range_outside self (position : S * S) : option (Anchor.t * Anchor.t) :=
  start ← anchor_before self position.1; end_ ← anchor_after self position.2; Some (start, end_).
End positions.
(** [crates/text/src/text.rs:2667-2671] BufferSnapshot::can_resolve *)
Definition can_resolve self anchor : bool :=
  Anchor.is_min anchor || Anchor.is_max anchor ||
  ((remote_id self =? Anchor.buffer_id anchor) && Global.observed (version self) (Anchor.timestamp anchor)).
(** [crates/text/src/text.rs:3428-3433] ToOffset for Anchor *)
#[export] Instance to_offset_anchor : ToOffset Anchor.t := { to_offset := λ anchor self, offset_for_anchor self anchor }.

(** *** Methods of anchors *)
(** [Bias] derives [Ord]. *)
Definition bias_cmp (a b : SumTree.bias) : comparison :=
  match a, b with Left, Right => Lt | Right, Left => Gt | _, _ => Eq end.
(** [crates/text/src/anchor.rs:91-103] Anchor::cmp *)
Definition anchor_cmp (a b : Anchor.t) (buffer : BufferSnapshot) : option comparison :=
  fragment_id_comparison ←
    (if bool_decide (Anchor.timestamp a = Anchor.timestamp b) then Some Eq
     else
       i ← fragment_id_for_anchor buffer a;
       j ← fragment_id_for_anchor buffer b;
       Some (Locator.cmp i j));
  Some (then_with (then_with fragment_id_comparison (Anchor.offset a ?= Anchor.offset b)) (bias_cmp (Anchor.bias a) (Anchor.bias b))).
(** [crates/text/src/anchor.rs:105-111] Anchor::min *)
Definition anchor_min (a b : Anchor.t) (buffer : BufferSnapshot) : option Anchor.t :=
  c ← anchor_cmp a b buffer; Some (if is_le c then a else b).
(** [crates/text/src/anchor.rs:113-119] Anchor::max *)
Definition anchor_max (a b : Anchor.t) (buffer : BufferSnapshot) : option Anchor.t :=
  c ← anchor_cmp a b buffer; Some (if is_ge c then a else b).
(** [crates/text/src/anchor.rs:128-133] Anchor::bias_left *)
Definition bias_left anchor (buffer : BufferSnapshot) : option Anchor.t :=
  match Anchor.bias anchor with Left => Some anchor | Right => anchor_before buffer anchor end.
(** [crates/text/src/anchor.rs:135-140] Anchor::bias_right *)
Definition bias_right anchor (buffer : BufferSnapshot) : option Anchor.t :=
  match Anchor.bias anchor with Left => anchor_after buffer anchor | Right => Some anchor end.
(** [crates/text/src/anchor.rs:121-126] Anchor::bias *)
Definition with_bias anchor (bias : SumTree.bias) (buffer : BufferSnapshot) : option Anchor.t :=
  match bias with Left => bias_left anchor buffer | Right => bias_right anchor buffer end.
(** [crates/text/src/anchor.rs:150-168] Anchor::is_valid *)
Definition is_valid anchor (buffer : BufferSnapshot) : option bool :=
  if Anchor.is_min anchor || Anchor.is_max anchor then Some true
  else if negb (Anchor.buffer_id anchor =? remote_id buffer) then Some false
  else
    fragment_id ← try_fragment_id_for_anchor buffer anchor;
    match fragment_id with
    | Some fragment_id =>
        '(_, item) ← find_fragment buffer fragment_id;
        Some match item with Some fragment => Fragment.visible fragment | None => false end
    | None => Some false
    end.
(** [crates/text/src/anchor.rs:213-215] OffsetRangeExt::to_offset *)
Definition range_to_offset {S} `{!ToOffset S} (range : S * S) (snapshot : BufferSnapshot) : option (Z * Z) :=
  start ← to_offset range.1 snapshot; end_ ← to_offset range.2 snapshot; Some (start, end_).
(** [crates/text/src/anchor.rs:235-240] AnchorRangeExt::cmp *)
Definition range_cmp (a b : Anchor.t * Anchor.t) (buffer : BufferSnapshot) : option comparison :=
  c ← anchor_cmp a.1 b.1 buffer;
  match c with Eq => anchor_cmp b.2 a.2 buffer | ord => Some ord end.
(** [crates/text/src/anchor.rs:242-244] AnchorRangeExt::overlaps *)
Definition range_overlaps (a b : Anchor.t * Anchor.t) (buffer : BufferSnapshot) : option bool :=
  c ← anchor_cmp a.1 b.2 buffer;
  if is_lt c then d ← anchor_cmp b.1 a.2 buffer; Some (is_lt d) else Some false.
(** [crates/text/src/anchor.rs:246-248] AnchorRangeExt::contains_anchor *)
Definition contains_anchor (a : Anchor.t * Anchor.t) (b : Anchor.t) (buffer : BufferSnapshot) : option bool :=
  c ← anchor_cmp a.1 b buffer;
  if is_le c then d ← anchor_cmp a.2 b buffer; Some (is_ge d) else Some false.
End anchors.

(** *** Positions of anchors *)
Section resolving.
Variable debug_assertions : bool.
Abbreviation summary_for_anchor := (summary_for_anchor debug_assertions).
(** [crates/text/src/anchor.rs:142-147] Anchor::summary *)
Definition anchor_summary {D} `{!TextDimension D} (anchor : Anchor.t) (content : BufferSnapshot) : option D :=
  summary_for_anchor content anchor.
(** [crates/text/src/selection.rs:156-169] Selection::resolve *)
Definition resolve {D Goal} `{!TextDimension D} (self : Selection.t Anchor.t Goal) (snapshot : BufferSnapshot) : option (Selection.t D Goal) :=
  start ← summary_for_anchor snapshot (Selection.start self);
  end_ ← summary_for_anchor snapshot (Selection.end_ self);
  Some (Selection.mk (Selection.id self) start end_ (Selection.reversed self) (Selection.goal self)).
(** [crates/text/src/text.rs:3456-3458] ToPoint *)
Class ToPoint (S : Type) := { to_point : S → BufferSnapshot → option Point.t }.
(** [crates/text/src/text.rs:3460-3465] ToPoint for Anchor *)
#[export] Instance to_point_anchor : ToPoint Anchor.t := { to_point := λ self snapshot, summary_for_anchor snapshot self }.
(** [crates/text/src/text.rs:3467-3472] ToPoint for usize *)
#[export] Instance to_point_usize : ToPoint Z := { to_point := λ self snapshot, RopePosition.offset_to_point (visible_text snapshot) self }.
(** [crates/text/src/text.rs:3474-3479] ToPoint for Point *)
#[export] Instance to_point_point : ToPoint Point.t := { to_point := λ self _, Some self }.
(** [crates/text/src/text.rs:3481-3486] ToPoint for Unclipped *)
#[export] Instance to_point_unclipped : ToPoint (Unclipped.t PointUtf16.t) :=
  { to_point := λ self snapshot, RopePosition.unclipped_point_utf16_to_point (visible_text snapshot) self }.
(** [crates/text/src/text.rs:3488-3490] ToPointUtf16 *)
Class ToPointUtf16 (S : Type) := { to_point_utf16 : S → BufferSnapshot → option PointUtf16.t }.
(** [crates/text/src/text.rs:3492-3497] ToPointUtf16 for Anchor *)
#[export] Instance to_point_utf16_anchor : ToPointUtf16 Anchor.t := { to_point_utf16 := λ self snapshot, summary_for_anchor snapshot self }.
(** [crates/text/src/text.rs:3499-3504] ToPointUtf16 for usize *)
#[export] Instance to_point_utf16_usize : ToPointUtf16 Z := { to_point_utf16 := λ self snapshot, RopePosition.offset_to_point_utf16 (visible_text snapshot) self }.
(** [crates/text/src/text.rs:3506-3511] ToPointUtf16 for PointUtf16 *)
#[export] Instance to_point_utf16_point_utf16 : ToPointUtf16 PointUtf16.t := { to_point_utf16 := λ self _, Some self }.
(** [crates/text/src/text.rs:3513-3518] ToPointUtf16 for Point *)
#[export] Instance to_point_utf16_point : ToPointUtf16 Point.t := { to_point_utf16 := λ self snapshot, RopePosition.point_to_point_utf16 debug_assertions (visible_text snapshot) self }.
(** [crates/text/src/text.rs:3520-3522] ToOffsetUtf16 *)
Class ToOffsetUtf16 (S : Type) := { to_offset_utf16 : S → BufferSnapshot → option OffsetUtf16.t }.
(** [crates/text/src/text.rs:3524-3529] ToOffsetUtf16 for Anchor *)
#[export] Instance to_offset_utf16_anchor : ToOffsetUtf16 Anchor.t := { to_offset_utf16 := λ self snapshot, summary_for_anchor snapshot self }.
(** [crates/text/src/text.rs:3531-3536] ToOffsetUtf16 for usize *)
#[export] Instance to_offset_utf16_usize : ToOffsetUtf16 Z := { to_offset_utf16 := λ self snapshot, RopePosition.offset_to_offset_utf16 (visible_text snapshot) self }.
(** [crates/text/src/text.rs:3538-3543] ToOffsetUtf16 for OffsetUtf16 *)
#[export] Instance to_offset_utf16_offset_utf16 : ToOffsetUtf16 OffsetUtf16.t := { to_offset_utf16 := λ self _, Some self }.
(** [crates/text/src/text.rs:3545-3547] FromAnchor *)
Class FromAnchor (S : Type) := { from_anchor : Anchor.t → BufferSnapshot → option S }.
(** [crates/text/src/text.rs:3549-3554] FromAnchor for Anchor *)
#[export] Instance from_anchor_anchor : FromAnchor Anchor.t := { from_anchor := λ anchor _, Some anchor }.
(** [crates/text/src/text.rs:3556-3561] FromAnchor for Point *)
#[export] Instance from_anchor_point : FromAnchor Point.t := { from_anchor := λ anchor snapshot, summary_for_anchor snapshot anchor }.
(** [crates/text/src/text.rs:3563-3568] FromAnchor for PointUtf16 *)
#[export] Instance from_anchor_point_utf16 : FromAnchor PointUtf16.t := { from_anchor := λ anchor snapshot, summary_for_anchor snapshot anchor }.
(** [crates/text/src/text.rs:3570-3575] FromAnchor for usize *)
#[export] Instance from_anchor_usize : FromAnchor Z := { from_anchor := λ anchor snapshot, offset_for_anchor debug_assertions snapshot anchor }.
(** [crates/text/src/anchor.rs:217-220] OffsetRangeExt::to_point *)
Definition range_to_point {S} `{!ToOffset S} (range : S * S) (snapshot : BufferSnapshot) : option (Point.t * Point.t) :=
  start ← to_offset range.1 snapshot; start ← to_point start snapshot;
  end_ ← to_offset range.2 snapshot; end_ ← to_point end_ snapshot; Some (start, end_).
(** [crates/text/src/anchor.rs:222-225] OffsetRangeExt::to_point_utf16 *)
Definition range_to_point_utf16 {S} `{!ToOffset S} (range : S * S) (snapshot : BufferSnapshot) : option (PointUtf16.t * PointUtf16.t) :=
  start ← to_offset range.1 snapshot; start ← to_point_utf16 start snapshot;
  end_ ← to_offset range.2 snapshot; end_ ← to_point_utf16 end_ snapshot; Some (start, end_).

(** [BufferSnapshot::summaries_for_anchors_with_payload]: the cursors of the fragments
    and the text, and the position of the second. *)
Record summaries_state (D : Type) := mk_summaries { fragment_cursor : id_cursor; text_cursor : Rope.cursor; position : D }.
#[global] Arguments mk_summaries {D} _ _ _.
#[global] Arguments fragment_cursor {D} _.
#[global] Arguments text_cursor {D} _.
#[global] Arguments position {D} _.
(** [crates/text/src/text.rs:2448-2494] BufferSnapshot::summaries_for_anchors_with_payload *)
Definition anchor_step {D} `{!TextDimension D} (self : BufferSnapshot) (st : summaries_state D) (anchor : Anchor.t) : option (summaries_state D * D) :=
  if Anchor.is_min anchor then Some (st, dzero)
  else if Anchor.is_max anchor then Some (st, from_text_summary (Rope.summary (visible_text self)))
  else
    item ← try_find_fragment self anchor;
    insertion ← item;
    if bool_decide (if_timestamp insertion = Anchor.timestamp anchor) then
      '(cursor, _) ← Cursor.seek_forward (λ d, option_compare (Some (fragment_id insertion)) d.1) Left (fragment_cursor st);
      item ← Cursor.item cursor;
      fragment ← item;
      let fragment_offset := (Cursor.start cursor).2 in
      let fragment_offset := if Fragment.visible fragment then fragment_offset +w64 (Anchor.offset anchor -w32 split_offset insertion) else fragment_offset in
      '(text, d) ← Rope.cursor_summary (text_cursor st) fragment_offset;
      let position := td_add_assign (position st) d in
      Some (mk_summaries cursor text position, position)
    else None.
Fixpoint anchor_steps {D T} `{!TextDimension D} (self : BufferSnapshot) (st : summaries_state D) (anchors : list (Anchor.t * T)) : option (list (D * T)) :=
  match anchors with
  | [] => Some []
  | (anchor, payload) :: anchors =>
      '(st, d) ← anchor_step self st anchor; rest ← anchor_steps self st anchors; Some ((d, payload) :: rest)
  end.
(** [crates/text/src/text.rs:2438-2448] BufferSnapshot::summaries_for_anchors_with_payload *)
Definition summaries_for_anchors_with_payload {D T} `{!TextDimension D} (self : BufferSnapshot) (anchors : list (Anchor.t * T)) : option (list (D * T)) :=
  text ← Rope.cursor_at (visible_text self) 0;
  anchor_steps self (mk_summaries (Cursor.new (fragments self)) text dzero) anchors.
(** [crates/text/src/text.rs:2428-2436] BufferSnapshot::summaries_for_anchors *)
Definition summaries_for_anchors {D} `{!TextDimension D} (self : BufferSnapshot) (anchors : list Anchor.t) : option (list D) :=
  l ← summaries_for_anchors_with_payload self (map (λ a, (a, tt)) anchors); Some (map fst l).
End resolving.
