(* ===== verification/Resolve.v ===== *)
(** What anchors mean: an anchor names a character of the document, and resolves to
    the place beside it in the visible text, whatever happened to the text since. *)
From S2P Require Import Prelude Clock Locator Points Patch Subscription SumTree TreeFind Cursor TreeWeight Keyed TreeMap UndoMap.
From S2P Require Import Utf8 Rope RopePosition History Fragments Buffer BufferOps FragmentLaws Builders Cells EditMachine Snapshot Script.
From S2P Require Import UndoLoop UndoRanges Slices Origin Commuting UndoEdit RemoteEdit Convergence Replicas Changes Delivery Deferral Local Network Anchor.
Import Buffer.
Implicit Types (s : BufferSnapshot)   (c : cell) (cs : list cell) (i j : InsertionFragment).

(** ** Finding the fragment of an insertion *)
Section search.
Variables (s : BufferSnapshot) (li : list InsertionFragment) (anchor : Anchor.t).
Hypothesis Hli : SumTree.represents (insertions s) li.
Hypothesis valid_li : valid li.
Abbreviation target := (mk_key (Anchor.timestamp anchor) (Anchor.offset anchor)).
(** The anchor is not before the fragment. *)
Definition begun i : bool := skips (insertion_key_cmp target (key i)) (Anchor.bias anchor).
Lemma passed_begun before i : TreeFind.passed (insertion_key_cmp target) (Anchor.bias anchor) (before ++ [i]) = begun i.
Proof. unfold TreeFind.passed. by rewrite dim_insertions. Qed.
Lemma begun_before i j : frag_lt i j → begun j = true → begun i = true.
Proof.
  unfold begun, frag_lt. intros H Hj. assert (insertion_key_cmp target (key i) = Gt) as ->; [|by destruct (Anchor.bias anchor)].
  apply (cmp_gt_lt insertion_key_cmp). eapply (cmp_lt_le_trans insertion_key_cmp); [exact H|]. rewrite (cmp_antisym insertion_key_cmp target (key j)).
  by destruct (insertion_key_cmp target (key j)), (Anchor.bias anchor).
Qed.
Lemma try_find_ok i : i ∈ li → begun i = true → (∀ j, j ∈ li → frag_lt i j → begun j = false) →
  (Anchor.bias anchor = Left → 0 < Anchor.offset anchor) → try_find_fragment s anchor = Some (Some i).
Proof.
  intros Hi Hb Hlast Hpos. assert (StronglySorted frag_lt li) as Hs by apply valid_li.
  assert (∀ bf af : list InsertionFragment, li = bf ++ af → begun <$> list.last bf = Some true → (∀ j, j ∈ af → j ≠ i) → list.last bf = Some i) as Hfind.
  { intros bf af E Hl Hn. destruct bf as [|j bf _] using rev_ind; [done|]. rewrite last_snoc in *. injection Hl as Hj. f_equal.
    rewrite E in Hi, Hs. apply elem_of_app in Hi as [Hi|Hi]; [|by apply Hn in Hi]. apply elem_of_app in Hi as [Hi|Hi]; [|by apply list_elem_of_singleton in Hi].
    apply StronglySorted_app in Hs as (_ & Hs & _). apply StronglySorted_app in Hs as (Hs & _ & _).
    rewrite (Hlast j) in Hj; [done| |apply Hs; [done|left]]. rewrite E. apply elem_of_app. left. apply elem_of_app. right. left. }
  destruct (TreeFind.find_found (insertion_key_cmp target) (Anchor.bias anchor) (insertions s) li Hli valid_li) as (start & end_ & r & Hf & _ & E).
  unfold try_find_fragment. rewrite E. cbn [mbind option_bind]. clear E. destruct Hf as [bf i' af (El & Hr & Hp)|Hr].
  - cbn in El, Hr, Hp. rewrite passed_begun in Hp.
    assert (is_gt (insertion_key_cmp (key i') target) || (bool_decide (Anchor.bias anchor = Left) && is_eq (insertion_key_cmp (key i') target) && (0 <? Anchor.offset anchor)) = true) as ->.
    { unfold begun in Hp. rewrite (cmp_antisym insertion_key_cmp target (key i')). destruct (insertion_key_cmp target (key i')) eqn:Ec, (Anchor.bias anchor) eqn:Eb; try done.
      cbn. rewrite (proj2 (Z.ltb_lt _ _)); [done|by apply Hpos]. }
    f_equal. apply (Hfind bf (i' :: af) El).
    + destruct Hr as [->|Hr].
      * cbn in El. exfalso. rewrite El in Hi, Hs. apply elem_of_cons in Hi as [->|Hi]; [congruence|]. apply StronglySorted_inv in Hs as [_ Hs].
        apply (proj1 (Forall_forall _ _) Hs) in Hi. rewrite (begun_before i' i Hi Hb) in Hp. done.
      * destruct bf as [|j bf _] using rev_ind; [|rewrite last_snoc; cbn [fmap option_fmap option_map]; f_equal; rewrite <- (passed_begun bf j); exact Hr].
        cbn in El. exfalso. rewrite El in Hi, Hs. apply elem_of_cons in Hi as [->|Hi]; [congruence|]. apply StronglySorted_inv in Hs as [_ Hs].
        apply (proj1 (Forall_forall _ _) Hs) in Hi. rewrite (begun_before i' i Hi Hb) in Hp. done.
    + intros j Hj ->. rewrite El in Hs. apply StronglySorted_app in Hs as (_ & _ & [_ Hs]%StronglySorted_inv).
      apply elem_of_cons in Hj as [->|Hj]; [congruence|]. apply (proj1 (Forall_forall _ _) Hs) in Hj. rewrite (begun_before i' i Hj Hb) in Hp. done.
  - destruct Hli as [[n Hw] Hc]. rewrite (SumTree.last_ok n _ Hw), Hc. f_equal. apply (Hfind li []); [by rewrite app_nil_r| |by intros j ?%elem_of_nil].
    destruct li as [|j li' _] using rev_ind; [by apply elem_of_nil in Hi|]. rewrite last_snoc. cbn. f_equal.
    destruct Hr as [Hr|Hr]; [by destruct li'|]. rewrite <- (passed_begun li' j). exact Hr.
Qed.
End search.

(** ** Finding a fragment by its id *)
Section nonempty.
Import SumTree TreeFind.
Context {T U D : Type} `{!Summary U, !Item T U, !Dimension D U, !SummaryLaws T U, !DimensionLaws D T U}.
Lemma find_nonempty (target : D → comparison) (b : bias) (t : node T U) (l : list T) : represents t l → valid l → l ≠ [] →
  ∃ start end_ r, found target b l start end_ r ∧ find target b t = Some (start, end_, snd <$> r).
Proof.
  intros Hrep Hv Hne. pose proof (represents_summary _ _ Hrep) as Hs. destruct Hrep as [[h Ht] <-]. unfold find, find_from. rewrite Hs.
  assert (dadd dzero (measure (contents t)) = dim D (contents t)) as -> by (destruct (contents t); [|done]; by destruct Hne).
  fold (passed target b (contents t)). destruct (passed target b (contents t)) eqn:E.
  - exists (dim D (contents t)), (dim D (contents t)), None. split; [|done]. apply found_end. by right.
  - rewrite (wf_height h t Ht). destruct (find_iterate_ok target b h h [] t) as (l1 & x & l2 & H1 & H2 & _); [done|lia|done|by left|done|].
    rewrite (dim_nil (D := D) (T := T)) in H2. rewrite H2. cbn [mbind option_bind]. eexists _, _, (Some (list.last l1, x)).
    split; [|done]. by apply found_item with l2.
Qed.
End nonempty.
Lemma visible_small s (cs c1 c2 : list cell) : snapshot_of s cs → cs = c1 ++ c2 → wrap64 (total visible_len (frags c1)) = str_len (text_of true (atoms c1)).
Proof.
  intros Hs ->. assert (Forall cell_ok c1) as Hc by apply (Forall_app cell_ok c1 c2), Hs. rewrite visible_cells by done.
  destruct (s_visible _ _ Hs) as (w & ss & (_ & _ & Hsz) & E). rewrite E in Hsz. unfold sized in Hsz. rewrite atoms_app, text_of_app, str_len_app in Hsz.
  pose proof (str_len_nonneg (text_of true (atoms c1))). pose proof (str_len_nonneg (text_of true (atoms c2))). apply wrap64_small. lia.
Qed.
Lemma find_fragment_ok s (cs c1 c2 : list cell) c : snapshot_of s cs → cs = c1 ++ c :: c2 →
  find_fragment s (Fragment.id (frag c)) = Some (str_len (text_of true (atoms c1)), Some (frag c)).
Proof.
  intros Hs E0. pose proof (s_ids _ _ Hs) as Hids. pose proof (cells_ok_frags _ (s_cells _ _ Hs)) as Hv.
  pose proof (visible_small s cs c1 (c :: c2) Hs E0) as Hsm. pose proof (s_fragments _ _ Hs) as Hrep.
  rewrite E0, frags_app in Hids, Hv, Hrep. cbn [frags map] in Hids, Hv, Hrep. fold (frags c2) in Hids, Hv, Hrep.
  pose (target := λ d : option Locator.t * Z, option_compare (Some (Fragment.id (frag c))) d.1).
  destruct (find_nonempty target Left (fragments s) (frags c1 ++ frag c :: frags c2) Hrep) as (start & end_ & r & Hf & E); [exact Hv|by destruct (frags c1)|].
  unfold find_fragment. change (λ d : option Locator.t * Z, option_compare (Some (Fragment.id (frag c))) d.1) with target.
  rewrite E. cbn [mbind option_bind]. clear E.
  assert (∀ fs f, TreeFind.passed target Left (fs ++ [f]) = true ↔ Locator.cmp (Fragment.id (frag c)) (Fragment.id f) = Gt) as Hp.
  { intros fs f. unfold TreeFind.passed, target. rewrite dim_pair, dim_locator, last_snoc. cbn.
    change (compare (Fragment.id (frag c)) (Fragment.id f)) with (Locator.cmp (Fragment.id (frag c)) (Fragment.id f)). by destruct (Locator.cmp _ _). }
  apply ids_app in Hids as (_ & [_ [_ H2]%StronglySorted_inv] & H1).
  assert (∀ fs k k', frag c :: frags c2 = k ++ k' → k ≠ [] → TreeFind.passed target Left (fs ++ k) = true → False) as Hlong.
  { intros fs k k' Ek Hk Hpk. destruct k as [|g k _] using rev_ind; [done|]. rewrite app_assoc in Hpk. apply Hp in Hpk.
    assert (g ∈ frag c :: frags c2) as [->|Hg]%elem_of_cons by (rewrite Ek; apply elem_of_app; left; apply elem_of_app; right; left).
    - by rewrite (cmp_refl Locator.cmp) in Hpk.
    - apply (proj1 (Forall_forall _ _) H2) in Hg. unfold id_lt in Hg. congruence. }
  destruct Hf as [l1 f l2 (El & Hr & Hn)|[Hr|Hr]]; [|by destruct (frags c1)|by destruct (Hlong (frags c1) (frag c :: frags c2) [] (eq_sym (app_nil_r _)) ltac:(done) Hr)].
  cbn in El, Hr, Hn. cbn [snd fmap option_fmap option_map].
  assert (l1 = frags c1 ∧ f = frag c) as [-> ->].
  { symmetry in El. apply app_eq_inv in El as [(k & -> & Ek)|(k & Ek & Ek')].
    - destruct k as [|g k]; [injection Ek as <- _; by rewrite app_nil_r|]. exfalso.
      destruct Hr as [Hr|Hr]; [by destruct (frags c1)|]. by eapply (Hlong (frags c1)); [exact Ek| |exact Hr].
    - destruct k as [|g k]; [injection Ek' as -> _; by rewrite app_nil_r in Ek|]. injection Ek' as <- _. exfalso.
      assert (f ∈ frags c1) as Hf by (rewrite Ek; apply elem_of_app; right; left). specialize (H1 f (frag c) Hf ltac:(left)).
      rewrite (proj2 (Hp l1 f)) in Hn; [done|]. by apply (cmp_gt_lt Locator.cmp). }
  rewrite dim_pair. cbn [snd]. by rewrite dim_visible, Hsm.
Qed.

(** ** Places in a document *)
(** The anchor is between [x] and [y]. *)
Inductive anchored (A : Anchor.t) : list atom → list atom → Prop :=
  | anchored_min l : Anchor.is_min A = true → anchored A [] l
  | anchored_max l : Anchor.is_max A = true → anchored A l []
  | anchored_before x a y : Anchor.bias A = Right → Anchor.timestamp A = a_timestamp a → Anchor.offset A = a_offset a →
      anchored A x (a :: y)
  | anchored_after x a y : Anchor.bias A = Left → Anchor.timestamp A = a_timestamp a → Anchor.offset A = a_offset a + a_len a →
      anchored A (x ++ [a]) y.
(** The anchor is before or after the character. *)
Definition beside A a : Prop := Anchor.timestamp A = a_timestamp a ∧
  (Anchor.bias A = Right ∧ Anchor.offset A = a_offset a ∨ Anchor.bias A = Left ∧ Anchor.offset A = a_offset a + a_len a).
Lemma atoms_from_split f (o : Z) (t : str) (p q : list atom) a : atoms_from f o t = p ++ a :: q →
  ∃ u v, t = u ++ a_char a :: v ∧ p = atoms_from f o u ∧ q = atoms_from f (a_offset a + a_len a) v ∧ a_offset a = o + str_len u.
Proof.
  revert o p. induction t as [|c t IH]; intros o p; cbn [atoms_from]; [by destruct p|]. destruct p as [|b p]; cbn [app]; intros [= E1 E2].
  - exists [], t. subst a. cbn. split_and!; [done|done|by rewrite <- E2|lia].
  - destruct (IH _ _ E2) as (u & v & -> & -> & -> & E). exists (c :: u), v. split_and!; [done|by rewrite <- E1|done|]. cbn [str_len foldr]. cbn in *. lia.
Qed.
Definition side A (x : list atom) a : list atom := match Anchor.bias A with Left => x ++ [a] | Right => x end.
Lemma anchored_spot A x y : anchored A x y → (Anchor.is_min A = true ∧ x = []) ∨ (Anchor.is_max A = true ∧ y = []) ∨
  ∃ x0 a y0, x ++ y = x0 ++ a :: y0 ∧ beside A a ∧ x = side A x0 a.
Proof.
  unfold side. destruct 1 as [l Hm|l Hm|x a y Hb Et Eo|x a y Hb Et Eo]; [by left|by right; left| |]; right; right; exists x, a, y; rewrite Hb.
  - split_and!; [done|split; [done|by left]|done].
  - split_and!; [by rewrite <- app_assoc|split; [done|by right]|done].
Qed.
(** The cell of a character. *)
Lemma cell_at (cs : list cell) (x y : list atom) a : atoms cs = x ++ a :: y →
  ∃ (c1 c2 : list cell) c p q, cs = c1 ++ c :: c2 ∧ atoms_of c = p ++ a :: q ∧ x = atoms c1 ++ p ∧ y = q ++ atoms c2.
Proof.
  revert x. induction cs as [|c cs IH]; intros x; cbn [atoms flat_map]; [by destruct x|]. fold (atoms cs). intros E.
  apply app_eq_inv in E as [(k & E1 & E2)|(k & E1 & E2)].
  - destruct k as [|b k].
    + rewrite app_nil_r in E1. cbn in E2. destruct (IH [] (eq_sym E2)) as (c1 & c2 & d & p & q & -> & Ed & Ex & ->).
      exists (c :: c1), c2, d, p, q. split_and!; [done|done| |done]. cbn [atoms flat_map]. fold (atoms c1). by rewrite <- E1, <- app_assoc, <- Ex, app_nil_r.
    + cbn in E2. injection E2 as <- ->. exists [], cs, c, x, k. by split_and!.
  - destruct (IH k E2) as (c1 & c2 & d & p & q & -> & Ed & -> & ->). exists (c :: c1), c2, d, p, q. split_and!; [done|done| |done].
    cbn [atoms flat_map]. fold (atoms c1). by rewrite E1, app_assoc.
Qed.
Lemma text_prefix_small s (cs : list cell) (x y : list atom) : snapshot_of s cs → atoms cs = x ++ y → 0 ≤ str_len (text_of true x) < 2 ^ 64.
Proof.
  intros Hs E. destruct (s_visible _ _ Hs) as (w & ss & (_ & _ & Hsz) & Ev). rewrite Ev in Hsz. unfold sized in Hsz. rewrite E, text_of_app, str_len_app in Hsz.
  pose proof (str_len_nonneg (text_of true x)). pose proof (str_len_nonneg (text_of true y)). lia.
Qed.

(** ** Resolving *)
Section resolved.
Variables (debug : bool) (s : BufferSnapshot) (cs : list cell).
Hypothesis Hs : snapshot_of s cs.
Hypothesis Hap : apart (atoms cs).
(** The fragment with the character is the last one that begins before the anchor. *)
Lemma fragment_of_atom A c a : c ∈ cs → a ∈ atoms_of c → beside A a → try_find_fragment s A = Some (Some (insertion_new (frag c))).
Proof.
  intros Hc Ha [Et Ho]. destruct (s_insertions _ _ Hs) as (li & Hli & Hv & Hp).
  assert (cell_ok c) as Hok by by apply (proj1 (Forall_forall _ _) (s_cells _ _ Hs)).
  pose proof (proj1 (Forall_forall _ _) (proj2 (apart_from _ _ _)) a Ha) as (Ets & Hlo & Hhi). pose proof (a_len_pos a) as Hpos.
  pose proof (ok_offset _ (c_fragment _ Hok)) as Hoff.
  apply (try_find_ok s li A Hli Hv).
  - rewrite Hp. by apply list_elem_of_fmap_2, list_elem_of_fmap_2.
  - unfold begun, insertion_key_cmp. cbn. rewrite Et, Ets, (cmp_refl Lamport.cmp). cbn.
    destruct Ho as [[-> ->]|[-> ->]]; destruct (Z.compare_spec (a_offset a) (Fragment.insertion_offset (frag c))), (Z.compare_spec (a_offset a + a_len a) (Fragment.insertion_offset (frag c))); try done; lia.
  - intros j Hj Hlt. destruct (begun A j) eqn:Hb; [|done]. exfalso. rewrite Hp in Hj.
    apply list_elem_of_fmap in Hj as (f & -> & (c' & -> & Hc')%list_elem_of_fmap).
    assert (cell_ok c') as Hok' by by apply (proj1 (Forall_forall _ _) (s_cells _ _ Hs)).
    assert (Fragment.timestamp (frag c') = a_timestamp a ∧ Fragment.insertion_offset (frag c) < Fragment.insertion_offset (frag c') < a_offset a + a_len a) as [Et' Ho'].
    { unfold frag_lt, begun, insertion_key_cmp in *. cbn in *. rewrite Et in Hb. rewrite <- Ets in Hlt.
      destruct (Lamport.cmp (a_timestamp a) (Fragment.timestamp (frag c'))) eqn:El; cbn in *; [|by destruct (Anchor.bias A)|done].
      apply (cmp_eq_iff Lamport.cmp) in El. split; [done|]. apply Z.compare_lt_iff in Hlt. split; [done|].
      destruct Ho as [[Eb Eo]|[Eb Eo]]; rewrite Eb, Eo in Hb; cbn in Hb.
      - destruct (Z.compare_spec (a_offset a) (Fragment.insertion_offset (frag c'))); cbn in Hb; try done; lia.
      - destruct (Z.compare_spec (a_offset a + a_len a) (Fragment.insertion_offset (frag c'))); cbn in Hb; try done; lia. }
    destruct (atoms_of_head c' Hok') as (b & l & Eb & Ek). unfold a_key, frag_key in Ek. injection Ek as Ekt Eko.
    assert (b ∈ atoms_of c') as Hb' by (rewrite Eb; left).
    destruct (tiles (frag c) (Fragment.insertion_offset (frag c)) (chars c) (a_offset b)) as (e & He & Hr); [lia|].
    assert (a_timestamp e = a_timestamp b) as Ee by (rewrite Ekt, Et', Ets; by apply atoms_of_timestamp).
    assert (∀ d g, d ∈ cs → g ∈ atoms_of d → g ∈ atoms cs) as Hin.
    { intros d g Hd Hg. apply list_elem_of_In, in_flat_map. exists d. by rewrite <- !list_elem_of_In. }
    assert (a_offset e = a_offset b) as Eo by (apply Hap; eauto).
    assert (a_key e = a_key b) as Ek by (unfold a_key; congruence).
    assert (c = c') as <-; [|lia]. apply (cell_unique cs c c' (a_key b)); [apply Hs|done|done|rewrite <- Ek; by apply list_elem_of_fmap_2|by apply list_elem_of_fmap_2].
  - destruct Ho as [[-> _]|[_ ->]]; [done|]. intros _. lia.
Qed.
Lemma beside_real A c a : c ∈ cs → a ∈ atoms_of c → beside A a → Anchor.is_min A = false ∧ Anchor.is_max A = false ∧ 0 ≤ Anchor.offset A ≤ u32_MAX.
Proof.
  intros Hc Ha [_ Ho]. assert (cell_ok c) as Hok by by apply (proj1 (Forall_forall _ _) (s_cells _ _ Hs)).
  pose proof (proj1 (Forall_forall _ _) (proj2 (apart_from _ _ _)) a Ha) as (_ & Hlo & Hhi). pose proof (a_len_pos a) as Hpos.
  pose proof (ok_offset _ (c_fragment _ Hok)) as Hoff. pose proof (c_end _ Hok) as He. rewrite (c_len _ Hok) in He. unfold Anchor.is_min, Anchor.is_max, u32_MAX in *.
  destruct Ho as [[-> ->]|[-> ->]]; cbn [bool_decide decide_rel]; rewrite ?andb_false_r.
  - rewrite (proj2 (Z.eqb_neq (a_offset a) _)) by lia. rewrite andb_false_r. split_and!; [done|done|lia|lia].
  - rewrite (proj2 (Z.eqb_neq (a_offset a + a_len a) 0)) by lia. rewrite andb_false_r. split_and!; [done|done|lia|lia].
Qed.
Lemma in_cells (c1 c2 : list cell) c (p q : list atom) a : cs = c1 ++ c :: c2 → atoms_of c = p ++ a :: q → c ∈ cs ∧ a ∈ atoms_of c ∧ cell_ok c.
Proof.
  intros -> E. assert (c ∈ c1 ++ c :: c2) as Hc by (apply elem_of_app; right; left). split_and!; [done|rewrite E; apply elem_of_app; right; left|].
  by apply (proj1 (Forall_forall _ _) (s_cells _ _ Hs)).
Qed.
Lemma anchored_cases A x y : anchored A x y → atoms cs = x ++ y →
  (Anchor.is_min A = true ∧ x = []) ∨ (Anchor.is_max A = true ∧ y = []) ∨
  (Anchor.is_min A = false ∧ Anchor.is_max A = false ∧
   ∃ (c1 c2 : list cell) c u v, cs = c1 ++ c :: c2 ∧ cell_ok c ∧ chars c = u ++ v ∧ text_of true x = text_of true (atoms c1) ++ pick (Fragment.visible (frag c)) u ∧
     Anchor.timestamp A = Fragment.timestamp (frag c) ∧ Anchor.offset A = Fragment.insertion_offset (frag c) + str_len u ∧
     try_find_fragment s A = Some (Some (insertion_new (frag c))) ∧
     ∃ (p q : list atom) a, atoms_of c = p ++ a :: q ∧ beside A a ∧ x = side A (atoms c1 ++ p) a).
Proof.
  intros [?|[?|(x0 & a & y0 & E & Hb & Ex)]]%anchored_spot; [by left|by right; left|]. rewrite E. intros Ecs. right. right.
  destruct (cell_at cs x0 y0 a Ecs) as (c1 & c2 & c & p & q & Ec & Ea & Ex0 & _). destruct (in_cells c1 c2 c p q a Ec Ea) as (Hc & Ha & Hok).
  pose proof (fragment_of_atom A c a Hc Ha Hb) as Hf. destruct (beside_real A c a Hc Ha Hb) as (H1 & H2 & _). split_and!; [done..|].
  pose proof (atoms_of_timestamp _ _ Ha) as Ets. unfold atoms_of in Ea. destruct (atoms_from_split _ _ _ _ _ _ Ea) as (u & v & Eu & Ep & Eq & Eoff).
  assert (∀ u, text_of true (atoms_from (frag c) (Fragment.insertion_offset (frag c)) u) = pick (Fragment.visible (frag c)) u) as Ht.
  { intros t. rewrite atoms_from_text. by destruct (Fragment.visible (frag c)). }
  pose proof Hb as [Et [[Eb Eo]|[Eb Eo]]]; unfold side in Ex; rewrite Eb in Ex.
  - exists c1, c2, c, u, (a_char a :: v). rewrite Ex, Ex0, text_of_app, Ep, Ht. split_and!; [done..|congruence|lia|done|]. exists p, q, a. split_and!; [exact Ea|done|]. unfold side. by rewrite Eb, Ep.
  - exists c1, c2, c, (u ++ [a_char a]), v. rewrite Ex, Ex0, <- !app_assoc, text_of_app, <- Ht, atoms_from_app, str_len_app. split_and!; [done|done|done| |congruence| |done|].
    + f_equal. f_equal. rewrite <- Ep. f_equal. rewrite Eu, atoms_from_app, <- Ep in Ea. apply app_inv_head in Ea. cbn in Ea |- *. by injection Ea as ->.
    + cbn. unfold a_len in Eo. lia.
    + exists p, q, a. split_and!; [exact Ea|done|]. unfold side. by rewrite Eb, <- app_assoc.
Qed.
(** The anchor resolves to the place in the visible text. *)
Lemma resolves A x y : anchored A x y → atoms cs = x ++ y →
  (Anchor.is_min A = false → Anchor.is_max A = false → can_resolve s A = true) →
  offset_for_anchor debug s A = Some (str_len (text_of true x)).
Proof.
  intros HA E Hc. unfold offset_for_anchor. pose proof (text_prefix_small s cs x y Hs E) as Hsm.
  destruct (anchored_cases A x y HA E) as [[-> ->]|[[Hm ->]|(Hn & Hm & c1 & c2 & c & u & v & Ec & Hok & Eu & Ex & Et & Eo & Ef & _)]]; [done| |].
  { rewrite Hm. destruct (Anchor.is_min A) eqn:Hn.
    - exfalso. unfold Anchor.is_min, Anchor.is_max in *. destruct (Anchor.bias A); [by rewrite andb_false_r in Hm|by rewrite andb_false_r in Hn].
    - rewrite app_nil_r in E. subst x. f_equal. destruct (s_visible _ _ Hs) as (w & Hw). by eapply Rope.rope_len_ok. }
  specialize (Hc Hn Hm). unfold can_resolve in Hc. rewrite Hn, Hm in Hc |- *. cbn [orb] in Hc. apply andb_true_iff in Hc as [Hid Hobs].
  assert (∀ b, b = true → debug_assert debug b = Some tt) as Hd by (intros b ->; unfold debug_assert; by rewrite andb_false_r).
  rewrite (Hd _ Hobs), Hd by by rewrite Z.eqb_sym. cbn [mbind option_bind]. rewrite Ef. cbn [mbind option_bind].
  rewrite bool_decide_eq_true_2 by by rewrite Et. change (fragment_id (insertion_new (frag c))) with (Fragment.id (frag c)).
  rewrite (find_fragment_ok s cs c1 c2 c Hs Ec). cbn [mbind option_bind]. f_equal. rewrite Ex in Hsm |- *.
  destruct (Fragment.visible (frag c)); cbn [pick] in *; [|by rewrite app_nil_r].
  rewrite str_len_app in Hsm |- *. pose proof (str_len_nonneg u). pose proof (str_len_nonneg (text_of true (atoms c1))).
  pose proof (c_end _ Hok) as He. rewrite (c_len _ Hok), Eu, str_len_app in He. pose proof (str_len_nonneg v). pose proof (ok_offset _ (c_fragment _ Hok)).
  rewrite Eo. change (split_offset (insertion_new (frag c))) with (Fragment.insertion_offset (frag c)). unfold wrap32, wrap64.
  replace (Fragment.insertion_offset (frag c) + str_len u - Fragment.insertion_offset (frag c)) with (str_len u) by lia.
  rewrite (Z.mod_small (str_len u)) by lia. by rewrite Z.mod_small.
Qed.
End resolved.

(** ** Making an anchor *)
Lemma text_cut (u v a b : str) : u ++ v = a ++ b → str_len a ≤ str_len u → ∃ w, u = a ++ w ∧ b = w ++ v.
Proof.
  intros [(k & -> & ->)|(k & -> & ->)]%app_eq_inv H; [by exists k|]. rewrite str_len_app in H. destruct k as [|c k].
  - exists []. by rewrite !app_nil_r.
  - cbn in H. pose proof (len_utf8_bounds c). pose proof (str_len_nonneg k). fold (str_len k) in H. lia.
Qed.
Lemma split_atoms (c : cell) (w w' : str) : chars c = w ++ w' →
  atoms_of c = atoms_from (frag c) (Fragment.insertion_offset (frag c)) w ++ atoms_from (frag c) (Fragment.insertion_offset (frag c) + str_len w) w'.
Proof. intros E. unfold atoms_of. by rewrite E, atoms_from_app. Qed.
#[export] Instance visible_zero : DimensionZero Z FragmentSummary.
Proof. by split. Qed.
Section made.
Variables (debug : bool) (s : BufferSnapshot) (cs : list cell).
Hypothesis Hs : snapshot_of s cs.
(** The fragment that is found for an offset. *)
Lemma visible_offset_ok (u v : str) b : text_of true (atoms cs) = u ++ v → (b = Left → u ≠ []) → (b = Right → v ≠ []) →
  ∃ (c1 c2 : list cell) c w w' end_, cs = c1 ++ c :: c2 ∧ Fragment.visible (frag c) = true ∧ chars c = w ++ w' ∧ u = text_of true (atoms c1) ++ w ∧
    (b = Left → w ≠ []) ∧ (b = Right → w' ≠ []) ∧
    TreeFind.find (D := Z) (Z.compare (str_len u)) b (fragments s) = Some (str_len (text_of true (atoms c1)), end_, Some (frag c)).
Proof.
  intros E Hl Hr. destruct (TreeFind.find_found (D := Z) (Z.compare (str_len u)) b (fragments s) (frags cs) (s_fragments _ _ Hs)) as (start & end_ & r & Hf & Ef & _).
  { apply cells_ok_frags, Hs. }
  assert (∀ c1 c2 : list cell, cs = c1 ++ c2 → dim Z (frags c1) = str_len (text_of true (atoms c1))) as Hdim.
  { intros c1 c2 Ec. rewrite dim_visible. by eapply visible_small. }
  assert (∀ c1 c2 : list cell, cs = c1 ++ c2 → TreeFind.passed (Z.compare (str_len u)) b (frags c1) = true ↔
    match b with Left => str_len (text_of true (atoms c1)) < str_len u | Right => str_len (text_of true (atoms c1)) ≤ str_len u end) as Hp.
  { intros c1 c2 Ec. unfold TreeFind.passed. rewrite (Hdim c1 c2 Ec). destruct (Z.compare_spec (str_len u) (str_len (text_of true (atoms c1)))), b; cbn; lia || (split; [done|lia]) || (split; [lia|done]) || idtac; (split; [discriminate|lia]) || (split; [lia|reflexivity]). }
  destruct Hf as [l1 f l2 (El & Hreach & Hn)|Hreach].
  - cbn in El, Hreach, Hn. unfold frags in El. apply map_eq_app in El as (c1 & k & Ec & E1 & Ek). destruct k as [|c c2]; [done|]. cbn in Ek. injection Ek as Efr _. subst l1 f.
    fold (frags c1) in *. rewrite Ec, atoms_app, text_of_app in E. cbn [atoms flat_map] in E. fold (atoms c2) in E. rewrite text_of_app in E.
    assert (str_len (text_of true (atoms c1)) ≤ str_len u) as Hle.
    { destruct Hreach as [Hreach|Hreach]; [destruct c1; [apply str_len_nonneg|done]|]. apply (Hp c1 (c :: c2) Ec) in Hreach. destruct b; lia. }
    assert (frags c1 ++ [frag c] = frags (c1 ++ [c])) as E1 by by rewrite frags_app. rewrite E1 in Hn.
    assert (cs = (c1 ++ [c]) ++ c2) as Ec' by by rewrite Ec, <- app_assoc.
    destruct (text_cut u v _ _ (eq_sym E) Hle) as (w & Eu & Ew).
    assert (¬ match b with Left => str_len (text_of true (atoms (c1 ++ [c]))) < str_len u | Right => str_len (text_of true (atoms (c1 ++ [c]))) ≤ str_len u end) as Hn'.
    { rewrite <- (Hp _ _ Ec'). by rewrite Hn. }
    rewrite atoms_app, atoms_one, text_of_app, Eu, !str_len_app in Hn'. rewrite atoms_text in Ew, Hn'.
    assert (str_len w ≤ str_len (pick (Bool.eqb (Fragment.visible (frag c)) true) (chars c))) as Hw by (destruct b; lia).
    destruct (text_cut _ _ _ _ Ew Hw) as (w' & Ep & Ev).
    assert (b = Left → w ≠ []) as Hwl.
    { intros -> ->. destruct Hreach as [Hreach|Hreach]; [destruct c1; [|done]; by apply Hl|]. apply (Hp c1 (c :: c2) Ec) in Hreach. rewrite Eu, app_nil_r in Hreach. lia. }
    assert (b = Right → w' ≠ []) as Hwr.
    { intros -> ->. rewrite app_nil_r in Ep. rewrite Ep in Hn'. lia. }
    assert (Fragment.visible (frag c) = true) as Hvis.
    { destruct (Fragment.visible (frag c)); [done|]. cbn in Ep. symmetry in Ep. apply app_eq_nil in Ep as [-> ->]. destruct b; [by destruct Hwl|by destruct Hwr]. }
    rewrite Hvis in Ep. cbn in Ep. exists c1, c2, c, w, w', (dim Z (frags c1 ++ [frag c])). split_and!; try done. rewrite Ef. cbn. by rewrite (Hdim c1 (c :: c2) Ec).
  - exfalso. assert (0 < str_len u ∨ b = Right) as Hpos.
    { destruct b; [left|by right]. destruct u as [|x u]; [by destruct Hl|]. cbn. pose proof (len_utf8_bounds x). pose proof (str_len_nonneg u). fold (str_len u). lia. }
    destruct Hreach as [Hreach|Hreach].
    + destruct cs; [|done]. symmetry in E. apply app_eq_nil in E as [-> ->]. destruct b; [by destruct Hl|by destruct Hr].
    + apply (Hp cs []) in Hreach; [|by rewrite app_nil_r]. rewrite E, str_len_app in Hreach. destruct b; [pose proof (str_len_nonneg v); lia|].
      destruct v as [|x v]; [by destruct Hr|]. cbn in Hreach. pose proof (len_utf8_bounds x). pose proof (str_len_nonneg v). fold (str_len v) in Hreach. lia.
Qed.
Lemma boundary_asserted (u v : str) : text_of true (atoms cs) = u ++ v → Rope.assert_char_boundary debug (visible_text s) (str_len u) = Some true.
Proof.
  intros E. destruct (s_visible _ _ Hs) as (wt & Hw). rewrite (Rope.assert_char_boundary_rope _ _ _ (str_len u) debug Hw).
  - rewrite E, Utf8.boundary_app by (rewrite <- E; by eapply Rope.holds_text). done.
  - pose proof (text_prefix_small s cs (atoms cs) [] Hs (eq_sym (app_nil_r _))) as H. rewrite E, str_len_app in H.
    pose proof (str_len_nonneg u). pose proof (str_len_nonneg v). lia.
Qed.
Lemma anchor_made (u v : str) b : text_of true (atoms cs) = u ++ v →
  ∃ A x y, anchor_at_offset debug s (str_len u) b = Some A ∧ Anchor.bias A = b ∧ Anchor.buffer_id A = remote_id s ∧
    atoms cs = x ++ y ∧ anchored A x y ∧ text_of true x = u ∧
    (Anchor.is_min A = true ∨ Anchor.is_max A = true ∨ ∃ a, a ∈ atoms cs ∧ Anchor.timestamp A = a_timestamp a).
Proof.
  intros E. destruct (s_visible _ _ Hs) as (wt & Hw). pose proof (Rope.rope_len_ok _ _ _ Hw) as Hlen.
  assert (0 ≤ str_len u < 2 ^ 64 ∧ str_len u + str_len v < 2 ^ 64) as [Hu Huv].
  { pose proof (text_prefix_small s cs (atoms cs) [] Hs (eq_sym (app_nil_r _))) as H. rewrite E, str_len_app in H.
    pose proof (str_len_nonneg u). pose proof (str_len_nonneg v). lia. }
  assert (∀ t : str, str_len t = 0 → t = []) as H0.
  { intros [|c t]; [done|]. cbn. pose proof (len_utf8_bounds c). pose proof (str_len_nonneg t). fold (str_len t). lia. }
  unfold anchor_at_offset. change (len s) with (Rope.len (visible_text s)). rewrite Hlen, E, str_len_app.
  destruct (bool_decide (b = Left) && (str_len u =? 0)) eqn:Emin.
  { apply andb_true_iff in Emin as [->%bool_decide_eq_true ->%Z.eqb_eq%H0]. exists (Anchor.min_for_buffer (remote_id s)), [], (atoms cs).
    split_and!; try done; [by constructor|by left]. }
  destruct (bool_decide (b = Right) && _) eqn:Emax.
  { apply andb_true_iff in Emax as [->%bool_decide_eq_true Hmax]. assert (v = []) as ->.
    { pose proof (str_len_nonneg v). apply H0. apply orb_true_iff in Hmax as [[_ Hmax]%andb_true_iff|Hmax]; lia. }
    exists (Anchor.max_for_buffer (remote_id s)), (atoms cs), []. rewrite app_nil_r in *. split_and!; try done; [by constructor|by right; left]. }
  rewrite (boundary_asserted u v E). cbn [mbind option_bind negb].
  assert (b = Left → u ≠ []) as Hl by by intros -> ->.
  assert (b = Right → v ≠ []) as Hr.
  { intros -> ->. cbn in Emax. rewrite Z.add_0_r, Z.eqb_refl, orb_true_r in Emax. done. }
  destruct (visible_offset_ok u v b E Hl Hr) as (c1 & c2 & c & w & w' & end_ & Ec & Hvis & Ew & Eu & Hwl & Hwr & Ef).
  rewrite Ef. cbn [mbind option_bind]. assert (cell_ok c) as Hok. { apply (proj1 (Forall_forall _ _) (s_cells _ _ Hs)). rewrite Ec. apply elem_of_app. right. left. }
  pose proof (c_end _ Hok) as Hend. rewrite (c_len _ Hok), Ew, str_len_app in Hend. pose proof (ok_offset _ (c_fragment _ Hok)).
  pose proof (str_len_nonneg w). pose proof (str_len_nonneg w').
  assert (Fragment.insertion_offset (frag c) +w32 wrap32 (str_len u -w64 str_len (text_of true (atoms c1))) = Fragment.insertion_offset (frag c) + str_len w) as ->.
  { rewrite Eu, str_len_app. unfold wrap32, wrap64. replace (_ + str_len w - _) with (str_len w) by lia. rewrite (Z.mod_small (str_len w) (2 ^ 64)) by lia.
    rewrite (Z.mod_small (str_len w)) by lia. rewrite Z.mod_small; lia. }
  assert (∀ x y, atoms_of c = x ++ y → atoms cs = (atoms c1 ++ x) ++ (y ++ atoms c2)) as Hcut.
  { intros x y Exy. rewrite Ec, atoms_app. cbn [atoms flat_map]. fold (atoms c2). by rewrite Exy, <- !app_assoc. }
  assert (∀ t, text_of true (atoms_from (frag c) (Fragment.insertion_offset (frag c)) t) = t) as Ht.
  { intros t. rewrite atoms_from_text. by rewrite Hvis. }
  eexists _, (atoms c1 ++ atoms_from (frag c) (Fragment.insertion_offset (frag c)) w),
    (atoms_from (frag c) (Fragment.insertion_offset (frag c) + str_len w) w' ++ atoms c2).
  split_and!; [reflexivity|done|done|apply Hcut, split_atoms, Ew| |by rewrite text_of_app, Ht|].
  - destruct b.
    + destruct w as [|ch w _] using rev_ind; [by destruct Hwl|]. rewrite atoms_from_app. cbn [atoms_from]. rewrite app_assoc. constructor; [done|by destruct (Fragment.timestamp (frag c))|].
      unfold a_len. cbn. rewrite str_len_app. cbn. lia.
    + destruct w' as [|ch w']; [by destruct Hwr|]. cbn [atoms_from app]. constructor; [done|by destruct (Fragment.timestamp (frag c))|done].
  - right. right. destruct (atoms_of_head c Hok) as (a & l & Ea & _). exists a. assert (a ∈ atoms_of c) as Ha by (rewrite Ea; left). split.
    + rewrite Ec, atoms_app. apply elem_of_app. right. cbn. apply elem_of_app. by left.
    + rewrite (atoms_of_timestamp _ _ Ha). cbn. by destruct (Fragment.timestamp (frag c)).
Qed.
End made.

(** *** The text before an anchor *)
Section summaries.
Context {D : Type} `{TextPosition D}.
Variables (debug : bool) (s : BufferSnapshot) (cs : list cell).
Hypothesis Hs : snapshot_of s cs.
Hypothesis Hap : apart (atoms cs).
Hypothesis Hr : roomy s cs.
Lemma anchor_summary_ok A x y : anchored A x y → atoms cs = x ++ y → (Anchor.is_min A = false → Anchor.is_max A = false → can_resolve s A = true) →
  summary_for_anchor (D := D) debug s A = Some (pos D (text_of true x)).
Proof.
  intros HA E Hc. unfold summary_for_anchor, text_summary_for_range. rewrite (resolves debug s cs Hs Hap A x y HA E Hc). cbn [mbind option_bind fst snd to_offset to_offset_usize].
  change 0 with (str_len []). rewrite (boundary_asserted debug s cs Hs [] (text_of true (atoms cs))) by done. cbn [mbind option_bind negb].
  assert (text_of true (atoms cs) = text_of true x ++ text_of true y) as Et by by rewrite E, text_of_app.
  destruct (r_visible_text _ _ Hr) as (w & Hw & Hroom). destruct (between_start _ _ _ Hw Hroom) as (cur & Ecur & w1 & w2 & before & after & Hcur & Hw1 & _).
  change (str_len []) with 0. rewrite Ecur. cbn [mbind option_bind]. rewrite (boundary_asserted debug s cs Hs (text_of true x) (text_of true y) Et). cbn [mbind option_bind negb].
  unfold room in Hw1. assert (w1 < 6 ^ 16) as Hw2 by lia. rewrite Et in Hcur. destruct (Rope.cursor_summary_ok (D := D) w1 w2 cur [] (text_of true x) (text_of true y) before after Hcur Hw2) as (c' & b' & a' & E' & _).
  cbn [app] in E'. by rewrite E'.
Qed.
End summaries.

(** ** What anchors mean *)
(** C14: Resolving anchors. In a snapshot that presents a document, an anchor that
    is between the characters [x] and the characters [y] of the document (deleted
    ones included), and that [can_resolve] accepts, resolves without a panic to the
    length of what is visible of [x]; and if the trees fit the stack of a cursor,
    [summary_for_anchor] gives the position after it in every unit. *)
Theorem anchor_resolves {D} `{TextPosition D} debug s d cs A x y : presents s d cs → d_atoms d = x ++ y → anchored A x y → can_resolve s A = true →
  offset_for_anchor debug s A = Some (str_len (text_of true x)) ∧
  (low_trees s = true → summary_for_anchor debug s A = Some (pos D (text_of true x))).
Proof.
  intros [Hs <- _ Hx _] E HA Hc. split; [by apply (resolves debug s cs Hs (x_apart _ _ Hx) A x y)|]. intros Hl.
  apply (anchor_summary_ok debug s cs Hs (x_apart _ _ Hx) (low_roomy s cs Hs Hl) A x y); done.
Qed.
(** C15: Anchors come back. In a snapshot whose version has observed all of the document
    that it presents, as that of a replica has, [anchor_before] and [anchor_after] of an offset at a
    boundary of characters of the visible text do not panic, in either build; the
    anchor has the bias that was asked for, is of this buffer, is between two parts
    of the document the first of which shows the text before the offset, can be
    resolved, and resolves to the offset. *)
Theorem anchor_roundtrip debug s d cs (u v : str) b : presents s d cs → seen_all (version s) d → text_of true (d_atoms d) = u ++ v →
  ∃ A x y, anchor_at (ToOffset0 := to_offset_usize debug) debug s (str_len u) b = Some A ∧ Anchor.bias A = b ∧ can_resolve s A = true ∧
    d_atoms d = x ++ y ∧ anchored A x y ∧ text_of true x = u ∧ offset_for_anchor debug s A = Some (str_len u).
Proof.
  intros [Hs Hat _ Hx _] Hseen E. pose proof (sa_atoms _ _ Hseen) as Hobs. rewrite <- Hat in *. destruct (anchor_made debug s cs Hs u v b E) as (A & x & y & EA & Hb & Hid & Exy & HA & Ex & Hts).
  assert (can_resolve s A = true) as Hc.
  { unfold can_resolve. destruct Hts as [->|[->|(a & Ha & ->)]]; [done|by rewrite orb_true_r|]. rewrite Hid, Z.eqb_refl, (proj1 (Hobs a Ha)). by rewrite !orb_true_r. }
  exists A, x, y. split_and!; try done.
  - unfold anchor_at. cbn [to_offset to_offset_usize]. rewrite (boundary_asserted debug s cs Hs u v E). exact EA.
  - rewrite <- Ex. by apply (resolves debug s cs Hs (x_apart _ _ Hx) A x y).
Qed.

(** *** Anchors in the text "abc" *)
Definition sample_anchor (offset : Z) (bias : SumTree.bias) : Anchor.t := Anchor.new (Lamport.new ReplicaId.LOCAL) offset bias 1.
Lemma anchor_resolves_witness : ∃ b, sample_buffer 1 = Some b ∧ offset_for_anchor true (snapshot b) (sample_anchor 2 Right) = Some 2 ∧
  summary_for_anchor true (snapshot b) (sample_anchor 2 Right) = Some (Point.mk 0 2).
Proof.
  destruct (sample_start 1) as (b & E & Hp & _). exists b. split; [exact E|].
  assert (match sample_buffer 1 with Some b => can_resolve (snapshot b) (sample_anchor 2 Right) | None => false end = true) as Hc by by vm_compute.
  assert (match sample_buffer 1 with Some b => low_trees (snapshot b) | None => false end = true) as Hl by by vm_compute.
  rewrite E in Hc, Hl. destruct (anchor_resolves (D := Point.t) true (snapshot b) _ _ (sample_anchor 2 Right) (take 2 (atoms (base_cells [97; 98; 99]))) (drop 2 (atoms (base_cells [97; 98; 99]))) Hp) as [E1 E2].
  - reflexivity.
  - apply anchored_before; reflexivity.
  - exact Hc.
  - split; [exact E1|exact (E2 Hl)].
Defined.
Lemma anchor_roundtrip_witness : ∃ b A, sample_buffer 1 = Some b ∧
  anchor_at (ToOffset0 := to_offset_usize true) true (snapshot b) 1 Left = Some A ∧ Anchor.bias A = Left ∧ offset_for_anchor true (snapshot b) A = Some 1.
Proof.
  destruct (sample_starts 1 ltac:(by vm_compute)) as (b & E & Hst). destruct (sample_start 1) as (b' & E' & Hp & _). rewrite E in E'. injection E' as <-.
  destruct (anchor_roundtrip true (snapshot b) _ _ [97] [98; 99] Left Hp) as (A & x & y & EA & Hb & _ & _ & _ & _ & Eo); [| |].
  - rewrite (s_version _ _ _ Hst). apply sample_first_document.
  - reflexivity.
  - exists b, A. exact (conj E (conj EA (conj Hb Eo))).
Defined.
