(* ===== verification/AnchorOrder.v ===== *)
(** Anchors while the document changes: an anchor stays with its character, and the
    order of anchors is that of the places in the document. *)
From S2P Require Import Prelude Clock Locator Points Patch Subscription SumTree TreeFind Cursor TreeWeight Keyed TreeMap UndoMap.
From S2P Require Import Utf8 Rope RopePosition History Fragments Buffer BufferOps FragmentLaws Builders Cells EditMachine Snapshot Script.
From S2P Require Import UndoLoop UndoRanges Slices Origin Commuting UndoEdit RemoteEdit Convergence Replicas Changes Delivery Deferral Local Network Anchor Resolve.
Import Buffer.
Implicit Types (s : BufferSnapshot)   (c : cell) (cs : list cell) (d : document).

(** ** Documents that change *)
Abbreviation places l := (map place l).
Lemma applied_places p skip (mark : atom → atom) ts es : (∀ a, place (mark a) = place a) → ∀ n off (l : list atom),
  places l `sublist_of` places (apply_edits p skip mark ts n off es l).
Proof.
  intros Hm. induction es as [|[[start stop] u] es IH]; intros n off l; [done|]. cbn [apply_edits].
  pose proof (take_measured_app p (start - n) l) as E1. destruct (take_measured p (start - n) l) as [x l1].
  pose proof (span_whole skip l1) as E2. destruct (span skip l1) as [k l2].
  pose proof (take_measured_app p (stop - start) l2) as E3. destruct (take_measured p (stop - start) l2) as [e l3]. cbn [fst snd] in *. subst l l1 l2.
  rewrite !map_app. apply sublist_app; [done|]. apply sublist_app; [done|]. apply sublist_inserts_l.
  rewrite map_map, (map_ext _ place Hm). by apply sublist_app.
Qed.
Lemma change_places (x : change) d : places (d_atoms d) `sublist_of` places (d_atoms (change_document x d)).
Proof.
  destruct x as [o|u]; cbn.
  - apply applied_places. intros a. apply mark_seen_place.
  - rewrite map_map. erewrite (map_ext (λ a, place (redo_atom _ _ _ a))); [done|]. intros a. apply redo_place.
Qed.
Lemma run_places (A : list change) d : places (d_atoms d) `sublist_of` places (d_atoms (run_all (O := change) A d)).
Proof.
  revert d. induction A as [|x A IH]; intros d; [done|]. exact (transitivity (change_places x d) (IH (change_document x d))).
Qed.
Lemma agree_places (l k : list atom) : agree l k → places l = places k.
Proof. induction 1 as [|a b l k (E & Ec & _) _ IH]; cbn; [done|]. unfold place at 1 3. by rewrite E, Ec, IH. Qed.
(** An anchor stays with its character. *)
Lemma anchored_moves A (x y k : list atom) : anchored A x y → places (x ++ y) `sublist_of` places k →
  ∃ x' y', k = x' ++ y' ∧ anchored A x' y' ∧ places x `sublist_of` places x' ∧ places y `sublist_of` places y'.
Proof.
  assert (∀ l1 l2 : list atom, places (l1 ++ l2) `sublist_of` places k → ∃ k1 k2, k = k1 ++ k2 ∧ places l1 `sublist_of` places k1 ∧ places l2 `sublist_of` places k2) as Hsplit.
  { intros l1 l2. rewrite map_app. intros (m1 & m2 & E & H1 & H2)%sublist_app_l. apply map_eq_app in E as (k1 & k2 & -> & <- & <-). by exists k1, k2. }
  assert (∀ a (l m : list atom), places (a :: l) `sublist_of` places m → ∃ m1 b m2, m = m1 ++ b :: m2 ∧ place a = place b ∧ places l `sublist_of` places m2) as Hcons.
  { cbn. intros a l m (m1 & m2 & E & H)%sublist_cons_l. apply map_eq_app in E as (k1 & k2 & -> & <- & E). destruct k2 as [|b k2]; [done|]. cbn in E. injection E as E1 E2 E3 E. exists k1, b, k2. split_and!; [done|unfold place, a_key; congruence|congruence]. }
  assert (∀ a b, place a = place b → a_timestamp a = a_timestamp b ∧ a_offset a = a_offset b ∧ a_len a = a_len b) as Hp.
  { unfold place, a_key, a_len. intros a b [= -> -> E]. by rewrite E. }
  destruct 1 as [l Hm|l Hm|x a y Hb Et Eo|x a y Hb Et Eo]; intros H.
  - exists [], k. split_and!; [done|by constructor|done|done].
  - exists k, []. rewrite !app_nil_r in *. split_and!; [done|by constructor|done|done].
  - destruct (Hsplit x (a :: y) H) as (k1 & k2 & -> & H1 & (m1 & b & m2 & -> & E & H2)%Hcons). destruct (Hp a b E) as (E1 & E2 & _).
    exists (k1 ++ m1), (b :: m2). split_and!; [by rewrite <- app_assoc| | |].
    + constructor; congruence.
    + rewrite map_app. by apply sublist_inserts_r.
    + cbn. rewrite E. by apply sublist_skip.
  - rewrite <- app_assoc in H. destruct (Hsplit x ([a] ++ y) H) as (k1 & k2 & -> & H1 & (m1 & b & m2 & -> & E & H2)%Hcons). destruct (Hp a b E) as (E1 & E2 & E3).
    exists ((k1 ++ m1) ++ [b]), m2. split_and!; [by rewrite <- !app_assoc| | |done].
    + constructor; congruence.
    + rewrite !map_app. cbn. rewrite E. apply sublist_app; [|done]. by apply sublist_inserts_r.
Qed.

(** ** Characters of one insertion are in order *)
Definition before_in a b : Prop := a_timestamp a = a_timestamp b → a_offset a < a_offset b.
Definition in_order (l : list atom) : Prop := StronglySorted before_in l.
Lemma in_order_places (l k : list atom) : places l = places k → in_order l → in_order k.
Proof.
  assert (∀ a b, place a = place b → a_timestamp a = a_timestamp b ∧ a_offset a = a_offset b) as Hp by (by unfold place, a_key; intros a b [=]).
  revert k. induction l as [|a l IH]; intros [|b k]; try done. cbn. intros [= E1 E2 E3 E] [Hl Ha]%StronglySorted_inv.
  constructor; [by apply IH|]. apply Forall_forall. intros c Hc. assert (place c ∈ places l) as (e & Ee & He)%list_elem_of_fmap by (rewrite E; by apply list_elem_of_fmap_2).
  apply (proj1 (Forall_forall _ _) Ha) in He. destruct (Hp c e Ee) as [E4 E5]. unfold before_in in *. rewrite <- E1, <- E2, E4, E5. done.
Qed.
Lemma from_in_order f o (t : str) : in_order (atoms_from f o t) ∧
  Forall (λ a, a_timestamp a = Fragment.timestamp f ∧ o ≤ a_offset a < o + str_len t) (atoms_from f o t).
Proof.
  split; [|apply from_keys]. revert o. induction t as [|c t IH]; intros o; cbn [atoms_from]; constructor; [apply IH|].
  apply Forall_forall. intros b Hb _. apply atoms_from_offset in Hb. cbn. pose proof (len_utf8_bounds c). lia.
Qed.
Lemma applied_in_order p skip (mark : atom → atom) ts es : (∀ a, place (mark a) = place a) → ∀ n off (l : list atom),
  Forall (λ a, a_timestamp a ≠ ts) l → in_order l → in_order (apply_edits p skip mark ts n off es l).
Proof.
  intros Hm. induction es as [|[[start stop] u] es IH]; intros n off l Hf Hl; [done|]. cbn [apply_edits].
  pose proof (take_measured_app p (start - n) l) as E1. destruct (take_measured p (start - n) l) as [x l1].
  pose proof (span_whole skip l1) as E2. destruct (span skip l1) as [k l2].
  pose proof (take_measured_app p (stop - start) l2) as E3. destruct (take_measured p (stop - start) l2) as [e l3]. cbn [fst snd] in *. subst l l1 l2.
  rewrite app_assoc in Hf, Hl |- *. generalize dependent (x ++ k). clear x k. intros x Hl Hf.
  apply Forall_app in Hf as [Hfx [Hfe Hf3]%Forall_app]. apply StronglySorted_app in Hl as (Hxe & Hx & Hl). apply StronglySorted_app in Hl as (He3 & He & Hl3).
  assert (in_order (map mark e)) as He' by (eapply in_order_places; [|exact He]; by rewrite map_map, (map_ext _ place Hm)).
  assert (∀ a, a ∈ map mark e → ∃ b, b ∈ e ∧ a_timestamp a = a_timestamp b ∧ a_offset a = a_offset b) as Hme.
  { intros a (b & -> & Hb)%list_elem_of_fmap. exists b. specialize (Hm b). unfold place, a_key in Hm. by injection Hm. }
  assert (∀ off' a, a ∈ apply_edits p skip mark ts stop off' es l3 → (a_timestamp a = ts ∧ off' ≤ a_offset a) ∨ ∃ b, b ∈ l3 ∧ a_timestamp a = a_timestamp b ∧ a_offset a = a_offset b) as Hr.
  { intros off' a Ha. apply (list_elem_of_fmap_2 place) in Ha. rewrite (applied_map p skip mark ts place stop off' es l3 Hm) in Ha.
    apply elem_of_app in Ha as [(b & E & Hb)%list_elem_of_fmap|(b & E & Hb)%list_elem_of_fmap]; unfold place, a_key in E; injection E as Et Eo _.
    - left. apply (proj1 (Forall_forall _ _) (proj2 (new_atoms_keys ts off' es))) in Hb as [? ?]. split; [congruence|lia].
    - right. by exists b. }
  destruct (from_in_order (Fragment.mk Locator.min ts off (str_len u) true [] Global.new) off u) as [Hn1 Hn2]. fold (new_text_atoms ts off u) in Hn1, Hn2. cbn [Fragment.timestamp] in Hn2.
  rewrite Forall_forall in Hfx, Hfe, Hf3, Hn2.
  apply StronglySorted_app. split_and!; [|done|apply StronglySorted_app; split_and!; [|done|apply StronglySorted_app; split_and!; [|done|by apply IH; [apply Forall_forall|]]]].
  - intros a b Ha [Hb|[(b' & Hb & E1 & E2)%Hme|[[E1 _]|(b' & Hb & E1 & E2)]%Hr]%elem_of_app]%elem_of_app.
    + intros E. destruct (Hfx a Ha). rewrite E. by apply Hn2.
    + unfold before_in. rewrite E1, E2. apply Hxe; [done|]. apply elem_of_app. by left.
    + intros E. destruct (Hfx a Ha). congruence.
    + unfold before_in. rewrite E1, E2. apply Hxe; [done|]. apply elem_of_app. by right.
  - intros a b [Et Ho]%Hn2 [(b' & Hb & E1 & E2)%Hme|[[E1 E2]|(b' & Hb & E1 & E2)]%Hr]%elem_of_app E.
    + destruct (Hfe b' Hb). congruence.
    + lia.
    + destruct (Hf3 b' Hb). congruence.
  - intros a b (a' & Ha & Ea1 & Ea2)%Hme [[E1 E2]|(b' & Hb & E1 & E2)]%Hr E.
    + destruct (Hfe a' Ha). congruence.
    + rewrite Ea2, E2. apply He3; [done|done|congruence].
Qed.
Lemma change_in_order (x : change) d : change_ready x d → in_order (d_atoms d) → in_order (d_atoms (change_document x d)).
Proof.
  destruct x as [o|u]; cbn; intros Hr.
  - apply applied_in_order; [apply mark_seen_place|]. apply (d_fresh _ _ (proj1 Hr)).
  - apply in_order_places. rewrite map_map. symmetry. apply map_ext. intros a. apply redo_place.
Qed.
Lemma run_in_order (A : list change) d : ready_all (O := change) A d → in_order (d_atoms d) → in_order (d_atoms (run_all (O := change) A d)).
Proof.
  revert d. induction A as [|x A IH]; intros d; [done|]. intros [H1 H2] H. apply (IH (change_document x d)); [exact H2|]. by apply change_in_order.
Qed.

(** ** Comparing anchors *)
(** The order is that of the places; at one place the left bias is first. *)
Abbreviation order A x B x' := (then_with (length x ?= length x')%nat (bias_cmp (Anchor.bias A) (Anchor.bias B))).
Lemma later_atom (x x' y y' : list atom) a b : x ++ a :: y = x' ++ b :: y' → (length x < length x')%nat → ∃ m, x' = x ++ a :: m.
Proof.
  intros [(k & -> & _)|(k & -> & Ek)]%app_eq_inv H; [rewrite length_app in H; lia|]. destruct k as [|e k]; [rewrite length_app in H; cbn in H; lia|].
  injection Ek as <- _. by exists k.
Qed.
Section compared.
Variables (debug : bool) (s : BufferSnapshot) (cs : list cell).
Hypothesis Hs : snapshot_of s cs.
Hypothesis Hap : apart (atoms cs).
Hypothesis Hord : in_order (atoms cs).
Abbreviation id_of A := (fragment_id_for_anchor debug s A).
Lemma id_beside A c a : c ∈ cs → a ∈ atoms_of c → beside A a → id_of A = Some (Fragment.id (frag c)).
Proof.
  intros Hc Ha Hb. unfold fragment_id_for_anchor, try_fragment_id_for_anchor. destruct (beside_real s cs Hs A c a Hc Ha Hb) as (-> & -> & _).
  rewrite (fragment_of_atom s cs Hs Hap A c a Hc Ha Hb). cbn [mbind option_bind].
  rewrite bool_decide_eq_true_2; [by rewrite orb_true_r|]. destruct Hb as [-> _]. symmetry. by apply atoms_of_timestamp.
Qed.
Lemma anchor_cmp_opp A B r : anchor_cmp debug A B s = Some r → anchor_cmp debug B A s = Some (CompOpp r).
Proof.
  assert (∀ x y z x' y' z', x' = CompOpp x → y' = CompOpp y → z' = CompOpp z → then_with (then_with x' y') z' = CompOpp (then_with (then_with x y) z)) as Ht.
  { intros [] [] [] ? ? ? -> -> ->; done. }
  assert (bias_cmp (Anchor.bias B) (Anchor.bias A) = CompOpp (bias_cmp (Anchor.bias A) (Anchor.bias B))) as Hbias by by destruct (Anchor.bias A), (Anchor.bias B).
  unfold anchor_cmp. destruct (decide (Anchor.timestamp A = Anchor.timestamp B)) as [E|Hne].
  - rewrite !bool_decide_eq_true_2 by done. cbn [mbind option_bind]. intros [= <-]. f_equal. by apply (Ht Eq _ _ Eq); [|apply Z.compare_antisym|].
  - rewrite !bool_decide_eq_false_2 by congruence. destruct (id_of A) as [i|], (id_of B) as [j|]; try done. cbn [mbind option_bind].
    intros [= <-]. f_equal. by apply Ht; [apply (cmp_antisym Locator.cmp)|apply Z.compare_antisym|].
Qed.
(** Both sides of a character are before both sides of a later one. *)
Lemma before_next (x m z : list atom) a b : atoms cs = x ++ a :: m ++ b :: z → a_timestamp a = a_timestamp b → a_offset a + a_len a ≤ a_offset b.
Proof.
  intros E Et. assert (a_offset a < a_offset b) as Hlt.
  { pose proof Hord as H. rewrite E in H. apply StronglySorted_app in H as (_ & _ & [_ H]%StronglySorted_inv). apply Forall_app in H as [_ [H _]%Forall_cons]. by apply H. }
  destruct (Z.lt_ge_cases (a_offset b) (a_offset a + a_len a)) as [H|]; [|done]. assert (a_offset a = a_offset b); [|lia].
  apply Hap; [rewrite E; apply elem_of_app; right; left|rewrite E; apply elem_of_app; right; right; apply elem_of_app; right; left|done|lia].
Qed.
Lemma cmp_earlier A B (x m z : list atom) a b : atoms cs = x ++ a :: m ++ b :: z → beside A a → beside B b → anchor_cmp debug A B s = Some Lt.
Proof.
  intros E HA HB. destruct (cell_at cs x _ a E) as (c1 & c2 & c & p & q & Ec & Ea & _ & Ey). destruct (in_cells s cs Hs Hap c1 c2 c p q a Ec Ea) as (Hc & Ha & _).
  unfold anchor_cmp. pose proof HA as [EtA HoA]. pose proof HB as [EtB HoB]. destruct (decide (Anchor.timestamp A = Anchor.timestamp B)) as [Et|Hne].
  - rewrite bool_decide_eq_true_2 by done. cbn [mbind option_bind then_with]. f_equal.
    pose proof (before_next x m z a b E ltac:(congruence)). pose proof (a_len_pos a). pose proof (a_len_pos b).
    destruct HoA as [[-> ->]|[-> ->]], HoB as [[-> ->]|[-> ->]];
      match goal with |- context [?u ?= ?w] => destruct (Z.compare_spec u w); try done; lia end.
  - rewrite bool_decide_eq_false_2 by done.
    assert (b ∈ q ++ atoms c2) as [Hb|Hb]%elem_of_app by (rewrite <- Ey; apply elem_of_app; right; left).
    { destruct Hne. rewrite EtA, EtB, (atoms_of_timestamp c a Ha). symmetry. apply atoms_of_timestamp. rewrite Ea. apply elem_of_app. right. by right. }
    apply list_elem_of_In, in_flat_map in Hb as (c' & Hc'%list_elem_of_In & Hb%list_elem_of_In).
    rewrite (id_beside A c a Hc Ha HA), (id_beside B c' b) by (done || (rewrite Ec; apply elem_of_app; right; by right)). cbn [mbind option_bind]. do 2 f_equal.
    pose proof (s_ids _ _ Hs) as Hi. rewrite Ec, frags_app in Hi. apply ids_app in Hi as (_ & [_ [_ Hi]%StronglySorted_inv] & _).
    rewrite (proj1 (Forall_forall _ _) Hi (frag c')); [done|]. by apply list_elem_of_fmap_2.
Qed.
Lemma cmp_same A B a : beside A a → beside B a → anchor_cmp debug A B s = Some (bias_cmp (Anchor.bias B) (Anchor.bias A)).
Proof.
  intros [E1 H1] [E2 H2]. unfold anchor_cmp. rewrite bool_decide_eq_true_2 by congruence. cbn [mbind option_bind then_with]. f_equal. pose proof (a_len_pos a).
  destruct H1 as [[-> ->]|[-> ->]], H2 as [[-> ->]|[-> ->]]; match goal with |- context [?u ?= ?w] => destruct (Z.compare_spec u w); try done; lia end.
Qed.
Lemma is_min_facts A : Anchor.is_min A = true → Anchor.timestamp A = Lamport.MIN ∧ Anchor.offset A = 0 ∧ Anchor.bias A = Left.
Proof. unfold Anchor.is_min. by intros [[->%bool_decide_eq_true ->%Z.eqb_eq]%andb_true_iff ->%bool_decide_eq_true]%andb_true_iff. Qed.
Lemma is_max_facts A : Anchor.is_max A = true → Anchor.timestamp A = Lamport.MAX ∧ Anchor.offset A = u32_MAX ∧ Anchor.bias A = Right.
Proof. unfold Anchor.is_max. by intros [[->%bool_decide_eq_true ->%Z.eqb_eq]%andb_true_iff ->%bool_decide_eq_true]%andb_true_iff. Qed.
Lemma id_min A : Anchor.is_min A = true → id_of A = Some Locator.min.
Proof. unfold fragment_id_for_anchor, try_fragment_id_for_anchor. by intros ->. Qed.
Lemma id_max A : Anchor.is_max A = true → id_of A = Some Locator.max.
Proof.
  intros H. unfold fragment_id_for_anchor, try_fragment_id_for_anchor. rewrite H. destruct (Anchor.is_min A) eqn:E; [|done].
  apply is_min_facts in E as (_ & _ & E). apply is_max_facts in H as (_ & _ & H). congruence.
Qed.
Lemma cmp_min A B c a : Anchor.is_min A = true → c ∈ cs → a ∈ atoms_of c → beside B a → anchor_cmp debug A B s = Some Lt.
Proof.
  intros HA Hc Ha HB. destruct (is_min_facts A HA) as (_ & Eo & Eb), (beside_real s cs Hs B c a Hc Ha HB) as (_ & _ & Hpos).
  unfold anchor_cmp. rewrite (id_min A HA), (id_beside B c a Hc Ha HB), Eo, Eb. cbn [mbind option_bind].
  assert (then_with (0 ?= Anchor.offset B) (bias_cmp Left (Anchor.bias B)) = Lt) as Hlt.
  { destruct (Z.compare_spec 0 (Anchor.offset B)); [|done|lia]. cbn. destruct HB as [_ [[-> _]|[_ E]]]; [done|].
    assert (cell_ok c) as Hok by by apply (proj1 (Forall_forall _ _) (s_cells _ _ Hs)). pose proof (ok_offset _ (c_fragment _ Hok)).
    pose proof (proj1 (Forall_forall _ _) (proj2 (apart_from _ _ _)) a Ha) as (_ & Hlo & _). pose proof (a_len_pos a). lia. }
  case_bool_decide; cbn [mbind option_bind]; [f_equal; exact Hlt|].
  assert (Locator.cmp Locator.min (Fragment.id (frag c)) = Lt) as ->; [|done].
  assert (id_ok (frag c)) as (_ & _ & H1 & _); [|done]. apply (proj1 (Forall_forall _ _) (proj1 (s_ids _ _ Hs))). by apply list_elem_of_fmap_2.
Qed.
Lemma cmp_max A B c a : Anchor.is_max A = true → c ∈ cs → a ∈ atoms_of c → beside B a → anchor_cmp debug A B s = Some Gt.
Proof.
  intros HA Hc Ha HB. destruct (is_max_facts A HA) as (_ & Eo & Eb), (beside_real s cs Hs B c a Hc Ha HB) as (_ & Hm & Hpos).
  unfold anchor_cmp. rewrite (id_max A HA), (id_beside B c a Hc Ha HB), Eo, Eb. cbn [mbind option_bind].
  assert (cell_ok c) as Hok by by apply (proj1 (Forall_forall _ _) (s_cells _ _ Hs)).
  assert (then_with (u32_MAX ?= Anchor.offset B) (bias_cmp Right (Anchor.bias B)) = Gt) as Hgt.
  { destruct (Z.compare_spec u32_MAX (Anchor.offset B)) as [E| |]; [|lia|done]. cbn. destruct HB as [_ [[_ E']|[-> _]]]; [|done].
    pose proof (proj1 (Forall_forall _ _) (proj2 (apart_from _ _ _)) a Ha) as (_ & _ & Hhi). pose proof (a_len_pos a). pose proof (c_end _ Hok) as He. rewrite (c_len _ Hok) in He. unfold u32_MAX in *. lia. }
  case_bool_decide; cbn [mbind option_bind]; [f_equal; exact Hgt|].
  assert (Locator.cmp Locator.max (Fragment.id (frag c)) = Gt) as ->; [|done]. apply (cmp_gt_lt Locator.cmp).
  assert (id_ok (frag c)) as (_ & _ & _ & H1); [|done]. apply (proj1 (Forall_forall _ _) (proj1 (s_ids _ _ Hs))). by apply list_elem_of_fmap_2.
Qed.
Lemma cmp_ends A B : Anchor.is_min A = true → Anchor.is_max B = true → anchor_cmp debug A B s = Some Lt.
Proof.
  intros H1 H2. unfold anchor_cmp. rewrite (id_min _ H1), (id_max _ H2). destruct (is_min_facts _ H1) as (-> & _ & ->), (is_max_facts _ H2) as (-> & _ & ->).
  by rewrite bool_decide_eq_false_2.
Qed.
Lemma cmp_equal A B : Anchor.timestamp A = Anchor.timestamp B → Anchor.offset A = Anchor.offset B → Anchor.bias A = Anchor.bias B → anchor_cmp debug A B s = Some Eq.
Proof. intros E1 E2 E3. unfold anchor_cmp. rewrite bool_decide_eq_true_2, E2, E3, Z.compare_refl by done. cbn. by destruct (Anchor.bias B). Qed.
Lemma order_opp A B (x x' : list atom) : order B x' A x = CompOpp (order A x B x').
Proof. rewrite (Nat.compare_antisym (length x')). by destruct (length x' ?= length x)%nat, (Anchor.bias A), (Anchor.bias B). Qed.
Ltac compare_lengths := rewrite ?length_app; cbn [length]; rewrite ?length_app; cbn [length];
  match goal with |- context [(?u ?= ?w)%nat] => destruct (Nat.compare_spec u w); try done; lia end.
Lemma cell_of_atom (x y : list atom) a : atoms cs = x ++ a :: y → ∃ c, c ∈ cs ∧ a ∈ atoms_of c.
Proof. intros E. destruct (cell_at cs _ _ _ E) as (c1 & c2 & c & p & q & Ec & Ea & _). exists c. by destruct (in_cells s cs Hs Hap c1 c2 c p q a Ec Ea) as (? & ? & _). Qed.
Lemma ordered_real A B (x x' y y' : list atom) a b : atoms cs = x ++ a :: y → atoms cs = x' ++ b :: y' → beside A a → beside B b → (length x ≤ length x')%nat →
  anchor_cmp debug A B s = Some (order A (side A x a) B (side B x' b)).
Proof.
  intros E E' HA HB Hle. destruct (decide (length x = length x')) as [Hl|Hl].
  - rewrite E in E'. apply app_inj_1 in E' as [<- [= <- _]]; [|done]. rewrite (cmp_same A B a HA HB). f_equal.
    unfold side; destruct (Anchor.bias A), (Anchor.bias B); compare_lengths.
  - destruct (later_atom x x' y y' a b) as [m ->]; [congruence|lia|].
    rewrite (cmp_earlier A B x m y' a b); [|by rewrite E', <- app_assoc|done..]. f_equal. unfold side; destruct (Anchor.bias A), (Anchor.bias B); compare_lengths.
Qed.
Lemma ordered_min A B (x y : list atom) b : Anchor.is_min A = true → atoms cs = x ++ b :: y → beside B b →
  anchor_cmp debug A B s = Some (order A (@nil atom) B (side B x b)).
Proof.
  intros Hm E Hb. destruct (cell_of_atom x y b E) as (c & Hc & Hbc). rewrite (cmp_min A B c b Hm Hc Hbc Hb). f_equal.
  destruct (is_min_facts _ Hm) as (_ & _ & ->). unfold side; destruct (Anchor.bias B); compare_lengths.
Qed.
Lemma ordered_max A B (x y : list atom) b : Anchor.is_max A = true → atoms cs = x ++ b :: y → beside B b →
  anchor_cmp debug A B s = Some (order A (atoms cs) B (side B x b)).
Proof.
  intros Hm E Hb. destruct (cell_of_atom x y b E) as (c & Hc & Hbc). rewrite (cmp_max A B c b Hm Hc Hbc Hb). f_equal.
  destruct (is_max_facts _ Hm) as (_ & _ & ->). rewrite E. unfold side; destruct (Anchor.bias B); compare_lengths.
Qed.
Lemma ordered_ends A B : Anchor.is_min A = true → Anchor.is_max B = true → anchor_cmp debug A B s = Some (order A (@nil atom) B (atoms cs)).
Proof.
  intros H1 H2. rewrite (cmp_ends A B H1 H2). f_equal. destruct (is_min_facts _ H1) as (_ & _ & ->), (is_max_facts _ H2) as (_ & _ & ->). destruct (atoms cs); compare_lengths.
Qed.
Lemma ordered A B x y x' y' : anchored A x y → anchored B x' y' → atoms cs = x ++ y → atoms cs = x' ++ y' →
  anchor_cmp debug A B s = Some (order A x B x').
Proof.
  intros HA HB E E'.
  destruct (anchored_spot A x y HA) as [[Hm ->]|[[Hm ->]|(x0 & a & y0 & Ex & Ha & ->)]], (anchored_spot B x' y' HB) as [[Hm' ->]|[[Hm' ->]|(x1 & b & y1 & Ex' & Hb & ->)]];
    rewrite ?app_nil_r in *; rewrite ?Ex in E; rewrite ?Ex' in E'; rewrite <- ?E, <- ?E'.
  - destruct (is_min_facts _ Hm) as (? & ? & Eb), (is_min_facts _ Hm') as (? & ? & Eb'). rewrite cmp_equal by congruence. by rewrite Eb, Eb'.
  - by apply ordered_ends.
  - by eapply ordered_min.
  - rewrite order_opp. by apply anchor_cmp_opp, ordered_ends.
  - destruct (is_max_facts _ Hm) as (? & ? & Eb), (is_max_facts _ Hm') as (? & ? & Eb'). rewrite cmp_equal by congruence. by rewrite Eb, Eb', Nat.compare_refl.
  - by eapply ordered_max.
  - rewrite order_opp. apply anchor_cmp_opp. by eapply ordered_min.
  - rewrite order_opp. apply anchor_cmp_opp. by eapply ordered_max.
  - destruct (Nat.le_ge_cases (length x0) (length x1)) as [Hl|Hl]; [by eapply ordered_real|]. rewrite order_opp. apply anchor_cmp_opp. by eapply ordered_real.
Qed.
End compared.

(** ** Many anchors at once *)
Section summaries.
Context {D : Type} `{TextPosition D}.
Variables (s : BufferSnapshot) (cs : list cell).
Hypothesis Hs : snapshot_of s cs.
Hypothesis Hap : apart (atoms cs).
Hypothesis Hr : roomy s cs.
(** The cursors are before a fragment, and at a place of the text. *)
Record summing (st : summaries_state D) (c1 c2 : list cell) (u v : str) : Prop := {
  g_cursor : Cursor.ready (fragment_cursor st) (frags c1) (frags c2);
  g_cells : cs = c1 ++ c2;
  g_text : between (text_cursor st) u v;
  g_position : position st = pos D u;
  g_whole : text_of true (atoms cs) = u ++ v;
}.
(** The cursors need not go back for the anchor. *)
Definition ahead (c1 : list cell) (u : str) A (x : list atom) : Prop :=
  Anchor.is_min A = true ∨ Anchor.is_max A = true ∨
  ∃ x0 a y0, atoms cs = x0 ++ a :: y0 ∧ beside A a ∧ x = side A x0 a ∧ (length (atoms c1) ≤ length x0)%nat ∧ ∃ w, text_of true x = u ++ w.
Lemma ahead_spot A (x x0 y0 : list atom) a (c1 : list cell) (u : str) : Anchor.is_min A = false → Anchor.is_max A = false → atoms cs = x0 ++ a :: y0 → x = side A x0 a →
  ahead c1 u A x → (length (atoms c1) ≤ length x0)%nat ∧ ∃ w, text_of true x = u ++ w.
Proof.
  intros Hn Hm E Ex [?|[?|(x1 & b & y1 & E1 & _ & Ex1 & Hl & Hw)]]; [congruence..|]. split; [|done].
  assert (length x0 = length x1) as ->; [|done]. rewrite Ex in Ex1. unfold side in Ex1. destruct (Anchor.bias A); [|congruence].
  apply (f_equal length) in Ex1. rewrite !length_app in Ex1. cbn in Ex1. lia.
Qed.
Lemma order_places A (x x' : list atom) B a b (x0 y0 x1 y1 : list atom) : atoms cs = x0 ++ a :: y0 → atoms cs = x1 ++ b :: y1 → x = side A x0 a → x' = side B x1 b →
  order A x B x' ≠ Gt → (length x0 ≤ length x1)%nat ∧ ∃ m, x' = x ++ m.
Proof.
  intros E E' Ex Ex' Ho. assert (length x0 ≤ length x1 ∧ length x ≤ length x')%nat as [Hl Hl'].
  { subst x x'. unfold side in *. destruct (Anchor.bias A), (Anchor.bias B); revert Ho; rewrite ?length_app; cbn;
      match goal with |- context [(?u ?= ?w)%nat] => destruct (Nat.compare_spec u w) end; cbn; try done; lia. }
  split; [done|]. assert (∀ C (z z' : list atom) e, atoms cs = z ++ e :: z' → ∃ k, atoms cs = side C z e ++ k) as Hpre.
  { intros C z z' e Ez. unfold side. destruct (Anchor.bias C); [exists z'; by rewrite Ez, <- app_assoc|by exists (e :: z')]. }
  destruct (Hpre A x0 y0 a E) as [k Hk], (Hpre B x1 y1 b E') as [k' Hk']. rewrite <- Ex in Hk. rewrite <- Ex' in Hk'. rewrite Hk in Hk'.
  apply app_eq_inv in Hk' as [(z & -> & _)|(z & -> & _)]; [|by exists z]. rewrite length_app in Hl'. destruct z; [|cbn in Hl'; lia]. exists []. by rewrite !app_nil_r.
Qed.
Lemma anchor_step_ok A (x y : list atom) st (c1 c2 : list cell) u v : anchored A x y → atoms cs = x ++ y → summing st c1 c2 u v → ahead c1 u A x →
  ∃ st' (c1' c2' : list cell) (u' v' : str), anchor_step s st A = Some (st', pos D (text_of true x)) ∧ summing st' c1' c2' u' v' ∧
    ∀ B x' y', anchored B x' y' → atoms cs = x' ++ y' → order A x B x' ≠ Gt → ahead c1 u B x' → ahead c1' u' B x'.
Proof.
  intros HA E G Hahead. unfold anchor_step.
  destruct (anchored_cases s cs Hs Hap A x y HA E) as [[-> ->]|[[Hm ->]|(Hn & Hm & C1 & C2 & c & u0 & v0 & Ec & Hok & Eu & Ex & Et & Eo & Ef & p & q & a & Ea & Hb & Es)]].
  - exists st, c1, c2, u, v. rewrite pos_nil. by split_and!.
  - destruct (Anchor.is_min A) eqn:Hn. { apply is_min_facts in Hn as (_ & _ & Hn). apply is_max_facts in Hm as (_ & _ & Hm). congruence. }
    rewrite Hm. exists st, c1, c2, u, v. split_and!; [|done|done]. rewrite app_nil_r in E. rewrite <- E. do 2 f_equal. destruct (s_visible _ _ Hs) as [w Hw].
    rewrite (Rope.rope_summary_ok _ _ _ Hw). apply pos_summary. by eapply Rope.holds_text.
  - rewrite Hn, Hm, Ef. cbn [mbind option_bind]. rewrite bool_decide_eq_true_2 by by rewrite Et.
    change (fragment_id (insertion_new (frag c))) with (Fragment.id (frag c)).
    assert (atoms cs = (atoms C1 ++ p) ++ a :: (q ++ atoms C2)) as E0 by (rewrite Ec, atoms_app; cbn [atoms flat_map]; fold (atoms C2); by rewrite Ea, <- !app_assoc).
    destruct (ahead_spot A x _ _ a c1 u Hn Hm E0 Es Hahead) as [Hl [m Em]]. destruct G as [Gc Gs Gt Gp Gw].
    assert (∃ mid, C1 = c1 ++ mid ∧ c2 = mid ++ c :: C2) as (mid & -> & ->).
    { rewrite Gs in Ec. apply app_eq_inv in Ec as [(k & -> & Ek)|(k & -> & Ek)]; [|by exists k]. destruct k as [|d k]; [exists []; by rewrite !app_nil_r|].
      injection Ek as <- _. exfalso. rewrite !atoms_app, !length_app in Hl. cbn [atoms flat_map] in Hl. rewrite Ea, !length_app in Hl. cbn in Hl. lia. }
    destruct (seek_to_id (fragment_cursor st) c1 mid c C2 Gc) as (cur & hit & Ecur & Hcur); [rewrite <- Gs; apply Hs|].
    rewrite Ecur. cbn [mbind option_bind]. rewrite (Cursor.item_ok _ _ _ Hcur). cbn [mbind option_bind head].
    assert ((if Fragment.visible (frag c) then (Cursor.start cur).2 +w64 (Anchor.offset A -w32 split_offset (insertion_new (frag c))) else (Cursor.start cur).2) = str_len (text_of true x)) as ->.
    { pose proof (text_prefix_small s cs x y Hs E) as Hsm. rewrite Ex in Hsm |- *. rewrite (Cursor.p_position _ _ _ Hcur : Cursor.start cur = _), dim_pair, dim_visible. cbn [snd].
      rewrite (visible_small s cs (c1 ++ mid) (c :: C2) Hs Ec). rewrite str_len_app in Hsm |- *. pose proof (str_len_nonneg (text_of true (atoms (c1 ++ mid)))).
      pose proof (str_len_nonneg u0). pose proof (str_len_nonneg v0). pose proof (c_end _ Hok) as He. rewrite (c_len _ Hok), Eu, str_len_app in He. pose proof (ok_offset _ (c_fragment _ Hok)).
      destruct (Fragment.visible (frag c)); cbn [pick str_len foldr] in *; [|lia]. rewrite Eo. change (split_offset (insertion_new (frag c))) with (Fragment.insertion_offset (frag c)).
      unfold wrap32, wrap64. replace (Fragment.insertion_offset (frag c) + str_len u0 - Fragment.insertion_offset (frag c)) with (str_len u0) by lia. rewrite (Z.mod_small (str_len u0)) by lia. by rewrite Z.mod_small. }
    assert (v = m ++ text_of true y) as ->. { apply (app_inv_head u). by rewrite <- Gw, E, text_of_app, Em, app_assoc. }
    destruct Gt as (w1 & w2 & bf & af & Gt & Hw1 & Hw2). pose proof Hw1 as Hw1'. unfold room in Hw1. assert (w1 < 6 ^ 16) as Hw by lia.
    destruct (Rope.cursor_summary_ok (D := D) w1 w2 _ u m (text_of true y) bf af Gt Hw) as (cur' & bf' & af' & E1 & Hcur' & _).
    rewrite Em, E1. cbn [mbind option_bind]. rewrite Gp, pos_add.
    2: { rewrite <- Em. destruct (s_visible _ _ Hs) as (wv & Hv). apply Rope.holds_text in Hv as [_ Hsz]. rewrite E, text_of_app in Hsz. unfold sized in *. rewrite str_len_app in Hsz. pose proof (str_len_nonneg (text_of true y)). lia. }
    eexists _, (c1 ++ mid), (c :: C2), (u ++ m), (text_of true y). split; [reflexivity|]. split.
    + split; cbn; [by left|done|by exists w1, w2, bf', af'|done|by rewrite E, text_of_app, Em].
    + intros B x' y' HB E' Ho HaB. destruct (anchored_spot B x' y' HB) as [[? _]|[[? _]|(x1 & b & y1 & Ex1 & Hb1 & Es1)]]; [by left|by right; left|]. right. right.
      rewrite <- E' in Ex1. destruct (order_places A x x' B a b _ _ x1 y1 E0 Ex1 Es Es1 Ho) as [Hl1 [k ->]]. exists x1, b, y1. split_and!; [done|done|done| |].
      * rewrite length_app in Hl1. lia.
      * exists (text_of true k). by rewrite text_of_app, Em.
Qed.
Definition in_place (e : Anchor.t * list atom) : Prop := ∃ y, anchored e.1 e.2 y ∧ atoms cs = e.2 ++ y.
Lemma anchor_steps_ok {T} (es : list ((Anchor.t * list atom) * T)) : ∀ st (c1 c2 : list cell) (u v : str), summing st c1 c2 u v → Forall in_place (map fst es) →
  StronglySorted (λ e e', order e.1 e.2 e'.1 e'.2 ≠ Gt) (map fst es) → Forall (λ e, ahead c1 u e.1 e.2) (map fst es) →
  anchor_steps s st (map (λ e, (e.1.1, e.2)) es) = Some (map (λ e, (pos D (text_of true e.1.2), e.2)) es).
Proof.
  induction es as [|[[A x] t] es IH]; intros st c1 c2 u v G; [done|]. cbn [map fst snd]. intros [(y & HA & E) Hes]%Forall_cons [Hso Hle]%StronglySorted_inv [Ha Has]%Forall_cons.
  cbn [fst snd] in *. destruct (anchor_step_ok A x y st c1 c2 u v HA E G Ha) as (st' & c1' & c2' & u' & v' & E1 & G' & Hn). cbn [anchor_steps]. rewrite E1. cbn [mbind option_bind].
  rewrite (IH st' c1' c2' u' v' G' Hes Hso); [done|]. apply Forall_forall. intros [B x'] Hin. rewrite Forall_forall in Hes, Hle, Has.
  destruct (Hes _ Hin) as (y' & HB & EB). by apply (Hn B x' y' HB EB (Hle _ Hin)), (Has _ Hin).
Qed.
End summaries.
(** The order stays when characters are added. *)
Section stays.
Variables (debug : bool) (s s' : BufferSnapshot) (cs cs' : list cell).
Hypothesis Hs : snapshot_of s cs.
Hypothesis Hap : apart (atoms cs).
Hypothesis Hord : in_order (atoms cs).
Hypothesis Hs' : snapshot_of s' cs'.
Hypothesis Hap' : apart (atoms cs').
Hypothesis Hord' : in_order (atoms cs').
Hypothesis Hp : places (atoms cs) `sublist_of` places (atoms cs').
Abbreviation stays A B := (anchor_cmp debug A B s' = anchor_cmp debug A B s).
Lemma beside_place A a b : place a = place b → beside A a → beside A b.
Proof. unfold place, a_key, beside, a_len. by intros [= -> -> ->]. Qed.
Lemma kept_place (x y k : list atom) a : places (x ++ a :: y) `sublist_of` places k →
  ∃ x' y' b, k = x' ++ b :: y' ∧ place a = place b ∧ places y `sublist_of` places y'.
Proof.
  rewrite map_app. intros (m1 & m2 & Em & _ & (k1 & k2 & -> & H2)%sublist_cons_l)%sublist_app_l.
  apply map_eq_app in Em as (x1 & l & E1 & <- & El). apply map_eq_app in El as (x2 & k' & -> & <- & Ek). destruct k' as [|b k']; [done|]. cbn in Ek.
  assert (place a = place b ∧ places k' = k2) as [Eb <-] by (unfold place, a_key; injection Ek as ? ? ? ?; split; [congruence|done]).
  exists (x1 ++ x2), k', b. split_and!; [by rewrite E1, <- app_assoc|done|done].
Qed.
Lemma kept_atom A (x y : list atom) a : atoms cs = x ++ a :: y → beside A a → ∃ x' y' b, atoms cs' = x' ++ b :: y' ∧ beside A b.
Proof.
  intros E Ha. rewrite E in Hp. destruct (kept_place x y (atoms cs') a Hp) as (x' & y' & b & Eb & Ep & _). exists x', y', b. split; [done|by eapply beside_place].
Qed.
Lemma stays_opp A B : (∃ r, anchor_cmp debug A B s = Some r) → stays A B → stays B A.
Proof. intros [r E] E'. rewrite (anchor_cmp_opp debug s A B r E). apply anchor_cmp_opp. by rewrite E'. Qed.
Lemma stays_real A B (x x' y y' : list atom) a b : atoms cs = x ++ a :: y → atoms cs = x' ++ b :: y' → beside A a → beside B b → (length x ≤ length x')%nat → stays A B.
Proof.
  intros E E' HA HB Hle. assert (places (x ++ a :: y) `sublist_of` places (atoms cs')) as H by by rewrite <- E.
  destruct (kept_place x y (atoms cs') a H) as (X & Y & a' & EX & Ea & HY). destruct (decide (length x = length x')) as [Hl|Hl].
  - rewrite E in E'. apply app_inj_1 in E' as [<- [= <- _]]; [|done]. rewrite (cmp_same debug s A B a HA HB), (cmp_same debug s' A B a'); [done|by eapply beside_place..].
  - destruct (later_atom x x' y y' a b) as [m ->]; [congruence|lia|]. assert (y = m ++ b :: y') as ->.
    { rewrite E, <- app_assoc in E'. apply app_inv_head in E'. by injection E'. }
    destruct (kept_place m y' Y b HY) as (M & Z & b' & -> & Eb & _).
    rewrite (cmp_earlier debug s cs Hs Hap Hord A B x m y' a b), (cmp_earlier debug s' cs' Hs' Hap' Hord' A B X M Z a' b'); try done; by eapply beside_place.
Qed.
Lemma stays_end A B (x y : list atom) b : atoms cs = x ++ b :: y → beside B b → Anchor.is_min A = true ∨ Anchor.is_max A = true → stays A B.
Proof.
  intros E HB HA. destruct (kept_atom B x y b E HB) as (X & Y & b' & E' & HB'). destruct (cell_of_atom s cs Hs Hap x y b E) as (c & Hc & Hb), (cell_of_atom s' cs' Hs' Hap' X Y b' E') as (c' & Hc' & Hb').
  destruct HA as [HA|HA].
  - by rewrite (cmp_min debug s cs Hs Hap A B c b HA Hc Hb HB), (cmp_min debug s' cs' Hs' Hap' A B c' b' HA Hc' Hb' HB').
  - by rewrite (cmp_max debug s cs Hs Hap A B c b HA Hc Hb HB), (cmp_max debug s' cs' Hs' Hap' A B c' b' HA Hc' Hb' HB').
Qed.
Lemma order_stays A B x y x' y' : anchored A x y → anchored B x' y' → atoms cs = x ++ y → atoms cs = x' ++ y' → stays A B.
Proof.
  intros HA HB E E'. pose proof (ordered debug s cs Hs Hap Hord A B x y x' y' HA HB E E') as Hr. pose proof (ordered debug s cs Hs Hap Hord B A x' y' x y HB HA E' E) as Hr'.
  assert (∀ A, Anchor.is_min A = true ∨ Anchor.is_max A = true → ∀ B, Anchor.is_min B = true ∨ Anchor.is_max B = true → stays A B) as Hends.
  { assert (∀ A B, Anchor.is_min A = true → Anchor.is_max B = true → stays A B ∧ stays B A) as Hmm.
    { intros A0 B0 H1 H2. pose proof (cmp_ends debug s A0 B0 H1 H2) as E1. pose proof (cmp_ends debug s' A0 B0 H1 H2) as E2.
      split; [by rewrite E1, E2|]. by rewrite (anchor_cmp_opp debug s A0 B0 _ E1), (anchor_cmp_opp debug s' A0 B0 _ E2). }
    intros A0 [H1|H1] B0 [H2|H2].
    - destruct (is_min_facts _ H1) as (E1 & E2 & E3), (is_min_facts _ H2) as (E4 & E5 & E6). by rewrite !cmp_equal by congruence.
    - apply (Hmm A0 B0 H1 H2).
    - apply (Hmm B0 A0 H2 H1).
    - destruct (is_max_facts _ H1) as (E1 & E2 & E3), (is_max_facts _ H2) as (E4 & E5 & E6). by rewrite !cmp_equal by congruence. }
  assert (∀ A x y, anchored A x y → atoms cs = x ++ y → (Anchor.is_min A = true ∨ Anchor.is_max A = true) ∨ ∃ x0 a y0, atoms cs = x0 ++ a :: y0 ∧ beside A a) as Hspot.
  { intros A0 z z' H Ez. destruct (anchored_spot A0 z z' H) as [[? _]|[[? _]|(x0 & a & y0 & Ea & Ha & _)]]; [by left; left|by left; right|right]. exists x0, a, y0. by rewrite <- Ea. }
  destruct (Hspot A x y HA E) as [Ha|(x0 & a & y0 & Ea & Ha)], (Hspot B x' y' HB E') as [Hb|(x1 & b & y1 & Eb & Hb)].
  - by apply Hends.
  - by eapply stays_end.
  - apply stays_opp; [eexists; exact Hr'|]. by eapply stays_end.
  - destruct (Nat.le_ge_cases (length x0) (length x1)); [by apply (stays_real A B x0 x1 y0 y1 a b)|]. apply stays_opp; [eexists; exact Hr'|]. by apply (stays_real B A x1 x0 y1 y0 b a).
Qed.
End stays.

(** ** What happens to anchors *)
(** C16: The order of anchors. In a snapshot that presents a document in which the
    characters of every insertion are in order, [Anchor::cmp] does not panic, and
    compares anchors by their places: by the number of characters (deleted ones
    included) before them, and at one place an anchor with the left bias is before
    one with the right bias. *)
Theorem anchor_order debug s d cs A B x y x' y' : presents s d cs → in_order (d_atoms d) →
  anchored A x y → anchored B x' y' → d_atoms d = x ++ y → d_atoms d = x' ++ y' →
  anchor_cmp debug A B s = Some (then_with (length x ?= length x')%nat (bias_cmp (Anchor.bias A) (Anchor.bias B))).
Proof. intros [Hs <- _ Hx _] Ho HA HB E E'. by apply (ordered debug s cs Hs (x_apart _ _ Hx) Ho A B x y x' y'). Qed.

(** C17: Many anchors. In a snapshot that presents a document and whose trees fit the
    stack of a cursor, [summaries_for_anchors_with_payload], which goes through the
    fragments and the text once, gives for anchors in the order of [Anchor::cmp] the
    positions, in any unit, after what is visible before each of them, with their
    payloads. It does not panic. *)
Theorem anchor_summaries {D T} `{TextPosition D} s d cs (es : list ((Anchor.t * list atom) * T)) : presents s d cs → low_trees s = true →
  Forall (λ e, ∃ y, anchored e.1 e.2 y ∧ d_atoms d = e.2 ++ y) (map fst es) →
  StronglySorted (λ e e', then_with (length e.2 ?= length e'.2)%nat (bias_cmp (Anchor.bias e.1) (Anchor.bias e'.1)) ≠ Gt) (map fst es) →
  summaries_for_anchors_with_payload s (map (λ e, (e.1.1, e.2)) es) = Some (map (λ e, (pos D (text_of true e.1.2), e.2)) es).
Proof.
  intros [Hs <- _ Hx _] Hl Hes Hso. pose proof (low_roomy s cs Hs Hl) as Hr. unfold summaries_for_anchors_with_payload.
  destruct (r_visible_text _ _ Hr) as (w & Hw & Hroom). destruct (between_start _ _ _ Hw Hroom) as (cur & -> & Hcur). cbn [mbind option_bind].
  assert (Cursor.ready (Cursor.new (D := option Locator.t * Z) (fragments s)) (frags []) (frags cs)) as Hc.
  { apply Keyed.fits_ready, represents_fits; [apply Hs|apply cells_ok_frags, Hs|apply Hr]. }
  refine (anchor_steps_ok s cs Hs (x_apart _ _ Hx) es _ [] cs [] (text_of true (atoms cs)) _ Hes Hso _).
  - split; cbn; [done|done|done|by rewrite pos_nil|done].
  - eapply Forall_impl; [exact Hes|]. intros [A x] (y & HA & E). cbn [fst snd] in *. destruct (anchored_spot A x y HA) as [[? _]|[[? _]|(x0 & a & y0 & Ea & Hb & Ex)]]; [by left|by right; left|].
    right. right. exists x0, a, y0. rewrite E. split_and!; [done|done|done|cbn; lia|by eexists].
Qed.

Section networks.
Context {S : Type} `{!ToOffset S}.
Variable replace_all : list Z → option (list Z).
Variables (d : document) (v : Global.t).
Hypothesis F : first_document d v.
(** A replica that has seen all that another one has applied has applied more. *)
Lemma more_run log b b' A A' : log_ok d v log → has_applied d v log b A → has_applied d v log b' A' → (∀ x, x ∈ A → x ∈ A') →
  ∃ rest, documents_agree (result A' d) (run_all (O := change) rest (result A d)) ∧ ready_all (O := change) A' d ∧
    ∀ x, x ∈ rest → x ∈ log ∧ Global.observed (version (snapshot b)) (c_timestamp x) = false.
Proof.
  intros L H H' Hsub. set (new := λ x, negb (Global.observed (version (snapshot b)) (c_timestamp x))). set (rest := filter (λ x, new x = true) A').
  assert (∀ x, x ∈ A' → new x = true ↔ x ∉ A) as Hnew.
  { intros x Hx. unfold new. rewrite negb_true_iff, <- not_true_iff_false. by rewrite (h_version _ _ _ _ _ H x) by by apply H'. }
  assert (∀ x, x ∈ rest ↔ x ∈ A' ∧ x ∉ A) as Hrest.
  { intros x. unfold rest. rewrite list_elem_of_filter. split; intros [H1 H2]; (split; [|done || by apply Hnew]); [done|]. by apply Hnew. }
  assert (A ++ rest ≡ₚ A') as HA.
  { apply NoDup_Permutation; [apply NoDup_app; split_and!; [apply H|by intros x Hx [_ Hn]%Hrest|apply NoDup_filter, H']|apply H'|].
    intros x. rewrite elem_of_app, Hrest. split; [intros [Hx|[Hx _]]; [by apply Hsub|done]|]. intros Hx. destruct (new x) eqn:E; [right; split; [done|by apply Hnew]|].
    left. unfold new in E. apply negb_false_iff in E. apply (h_version _ _ _ _ _ H x); [by apply H'|done]. }
  assert (causal_order (O := change) (S := document) (A ++ rest)) as Hc.
  { apply causal_app. split_and!; [apply H|apply keep_sorted, H'|]. intros x y Hx [Hy Hn]%Hrest. apply not_true_is_false. intros Hk. apply Hn.
    eapply (h_closed _ _ _ _ _ H); [exact Hx| |exact Hk]. by apply H'. }
  assert (ready_all (O := change) A' d) as Hr by by eapply applied_ready. exists rest. split_and!.
  - rewrite <- run_all_app. destruct (orders_agree (O := change) (S := document) (A ++ rest) A' d HA) as [_ Hag]; [|done|apply H'|done|done].
    rewrite HA. apply NoDup_fmap_2_strong; [|apply H']. intros x y Hx Hy. apply (log_same d v log L); by apply H'.
  - done.
  - intros x [Hx Hn]%Hrest. split; [by apply H'|]. apply (Hnew x Hx), negb_true_iff in Hn. done.
Qed.
Lemma more_applied log b b' A A' : log_ok d v log → has_applied d v log b A → has_applied d v log b' A' → (∀ x, x ∈ A → x ∈ A') →
  places (d_atoms (result A d)) `sublist_of` places (d_atoms (result A' d)) ∧ ready_all (O := change) A' d.
Proof.
  intros L H H' Hsub. destruct (more_run log b b' A A' L H H' Hsub) as (rest & [Hag _] & Hr & _). split; [|done].
  rewrite (agree_places _ _ Hag). apply run_places.
Qed.
(** Two replicas, the second of which has seen what the first has. *)
Lemma seen_more N i j h b h' b' : reachable (S := S) replace_all d v N → replicas N !! i = Some (h, b) → replicas N !! j = Some (h', b') →
  (∀ op, op ∈ sent N → Global.observed (version (snapshot b)) (op_timestamp op) = true → Global.observed (version (snapshot b')) (op_timestamp op) = true) →
  ∃ B B' cs cs', presents (snapshot b) (result B d) cs ∧ presents (snapshot b') (result B' d) cs' ∧ ready_all (O := change) B d ∧ ready_all (O := change) B' d ∧
    seen_all (version (snapshot b')) (result B' d) ∧ places (atoms cs) `sublist_of` places (atoms cs').
Proof.
  intros (log & [Hs L Hrep _ _])%network_reachable_inv Hi Hj Hsub; [|done].
  destruct (Hrep i h b Hi) as (B & Q & Hr & _), (Hrep j h' b' Hj) as (B' & Q' & Hr' & _).
  pose proof (r_applied _ _ _ _ _ _ (p_receives _ _ _ _ _ _ Hr)) as H. pose proof (r_applied _ _ _ _ _ _ (p_receives _ _ _ _ _ _ Hr')) as H'.
  destruct (more_applied log b b' B B' L H H') as [Hp HB'].
  { intros x Hx. assert (x ∈ log) as Hxl by by apply H. apply (h_version _ _ _ _ _ H' x Hxl). rewrite <- operation_timestamp. apply Hsub.
    - rewrite Hs. by apply list_elem_of_fmap_2.
    - rewrite operation_timestamp. by apply (h_version _ _ _ _ _ H x Hxl). }
  destruct (h_presents _ _ _ _ _ H) as [cs Hcs], (h_presents _ _ _ _ _ H') as [cs' Hcs']. exists B, B', cs, cs'.
  split_and!; [done|done|by eapply applied_ready|done|by eapply applied_document|]. by rewrite (p_atoms _ _ _ Hcs), (p_atoms _ _ _ Hcs').
Qed.
(** C5: Anchors travel. In every network that can be reached, take an offset at a
    boundary of characters of the text that one replica shows, and a replica that
    has observed all the operations that the first has. The anchor that the first
    replica makes does not panic, and resolves at the second, without a panic, to
    the length of what is visible there of the part of its document before the
    anchor: every character that the first replica had before (after) the anchor,
    deleted ones included, is before (after) it at the second one. (No replica of a
    network has the id [LOCAL] if the first document has no base text.) *)
Theorem network_anchors N debug i j h b h' b' : reachable (S := S) replace_all d v N →
  replicas N !! i = Some (h, b) → replicas N !! j = Some (h', b') → remote_id (snapshot b) = remote_id (snapshot b') →
  (∀ op, op ∈ sent N → Global.observed (version (snapshot b)) (op_timestamp op) = true → Global.observed (version (snapshot b')) (op_timestamp op) = true) →
  ∃ cs cs', snapshot_of (snapshot b) cs ∧ snapshot_of (snapshot b') cs' ∧
    ∀ (u w : str) bias, text_of true (atoms cs) = u ++ w →
      ∃ A x y x' y', anchor_at_offset debug (snapshot b) (str_len u) bias = Some A ∧ atoms cs = x ++ y ∧ text_of true x = u ∧
        atoms cs' = x' ++ y' ∧ places x `sublist_of` places x' ∧ places y `sublist_of` places y' ∧
        offset_for_anchor debug (snapshot b') A = Some (str_len (text_of true x')).
Proof.
  intros HN Hi Hj Hid Hsub. destruct (seen_more N i j h b h' b' HN Hi Hj Hsub) as (B & B' & cs & cs' & [Hcs _ _ _ _] & [Hcs' Ha' _ Hx' _] & _ & _ & [Hseen _] & Hp).
  exists cs, cs'. split_and!; [done|done|]. intros u w bias E.
  destruct (anchor_made debug (snapshot b) cs Hcs u w bias E) as (A & x & y & EA & _ & Hb & Exy & HA & Ex & Hts).
  assert (places (x ++ y) `sublist_of` places (atoms cs')) as Hp' by by rewrite <- Exy.
  destruct (anchored_moves A x y (atoms cs') HA Hp') as (x' & y' & Exy' & HA' & Hpx & Hpy).
  exists A, x, y, x', y'. split_and!; try done. apply (resolves debug (snapshot b') cs' Hcs' (x_apart _ _ Hx') A x' y'); [done|done|].
  intros Hn Hm. unfold can_resolve. rewrite Hn, Hm, Hb, Hid, Z.eqb_refl. cbn. destruct Hts as [?|[?|(a & Hin & ->)]]; [congruence..|].
  assert (place a ∈ places (atoms cs')) as (a' & Ea & Hin')%list_elem_of_fmap by (eapply elem_of_sublist; [|exact Hp]; by apply list_elem_of_fmap_2).
  unfold place, a_key in Ea. injection Ea as -> _ _. rewrite Ha' in Hin'. by apply Hseen.
Qed.
(** C6: The order of anchors stays. In every network that can be reached, if the
    characters of the insertions of the first document are in order, anchors of
    places in the document of one replica are compared alike, without a panic, by
    it and by every replica that has observed all the operations that it has. (No
    replica has the id [LOCAL] if the first document has no base text.) *)
Theorem network_anchor_order N debug i j h b h' b' : in_order (d_atoms d) → reachable (S := S) replace_all d v N →
  replicas N !! i = Some (h, b) → replicas N !! j = Some (h', b') →
  (∀ op, op ∈ sent N → Global.observed (version (snapshot b)) (op_timestamp op) = true → Global.observed (version (snapshot b')) (op_timestamp op) = true) →
  ∃ cs, snapshot_of (snapshot b) cs ∧
    ∀ A B x y x' y', anchored A x y → anchored B x' y' → atoms cs = x ++ y → atoms cs = x' ++ y' →
      ∃ r, anchor_cmp debug A B (snapshot b) = Some r ∧ anchor_cmp debug A B (snapshot b') = Some r.
Proof.
  intros Hord HN Hi Hj Hsub. destruct (seen_more N i j h b h' b' HN Hi Hj Hsub) as (C & C' & cs & cs' & [Hcs Ha _ Hx _] & [Hcs' Ha' _ Hx' _] & Hr & Hr' & _ & Hp).
  exists cs. split; [done|]. intros A B x y x' y' HA HB E E'.
  assert (in_order (atoms cs)) as Ho by (rewrite Ha; by apply run_in_order). assert (in_order (atoms cs')) as Ho' by (rewrite Ha'; by apply run_in_order).
  pose proof (ordered debug (snapshot b) cs Hcs (x_apart _ _ Hx) Ho A B x y x' y' HA HB E E') as Er. eexists. split; [exact Er|]. rewrite <- Er.
  exact (order_stays debug _ _ cs cs' Hcs (x_apart _ _ Hx) Ho Hcs' (x_apart _ _ Hx') Ho' Hp A B x y x' y' HA HB E E').
Qed.
End networks.

(** *** Two replicas that show "abc" first *)
Lemma base_in_order (t : str) : in_order (d_atoms (base_document t)).
Proof. cbn. rewrite base_atoms. apply from_in_order. Qed.
Lemma anchor_order_witness : ∃ b, sample_buffer 1 = Some b ∧ anchor_cmp true (sample_anchor 1 Right) (sample_anchor 1 Left) (snapshot b) = Some Gt.
Proof.
  destruct (sample_start 1) as (b & E & Hp & _). exists b. split; [exact E|].
  rewrite (anchor_order true (snapshot b) _ _ (sample_anchor 1 Right) (sample_anchor 1 Left) (take 1 (atoms (base_cells [97; 98; 99]))) (drop 1 (atoms (base_cells [97; 98; 99])))
    (take 1 (atoms (base_cells [97; 98; 99]))) (drop 1 (atoms (base_cells [97; 98; 99]))) Hp (base_in_order _)); try reflexivity.
  - apply anchored_before; reflexivity.
  - apply (anchored_after _ []); reflexivity.
Defined.
Lemma anchor_summaries_witness : ∃ b, sample_buffer 1 = Some b ∧
  summaries_for_anchors_with_payload (snapshot b) [(sample_anchor 1 Left, 7); (sample_anchor 2 Right, 8)] = Some [(Point.mk 0 1, 7); (Point.mk 0 2, 8)].
Proof.
  destruct (sample_start 1) as (b & E & Hp & _). exists b. split; [exact E|].
  assert (match sample_buffer 1 with Some b => low_trees (snapshot b) | None => false end = true) as Hl by by vm_compute. rewrite E in Hl.
  pose (t := atoms (base_cells [97; 98; 99])). refine (anchor_summaries (D := Point.t) (snapshot b) _ _ [((sample_anchor 1 Left, take 1 t), 7); ((sample_anchor 2 Right, take 2 t), 8)] Hp Hl _ _).
  - constructor; [exists (drop 1 t); split; [apply (anchored_after _ []); reflexivity|reflexivity]|]. constructor; [|constructor].
    exists (drop 2 t). split; [apply anchored_before; reflexivity|reflexivity].
  - constructor; [constructor; [constructor|constructor]|]. constructor; [discriminate|constructor].
Defined.
#[local] Instance sample_offset : ToOffset Z := to_offset_usize true.
(** The second replica has seen what the first has. *)
Definition seen_there (N : network) (h : Topic.heap) (b : Buffer) (h' : Topic.heap) (b' : Buffer) : bool :=
  forallb (λ op, negb (Global.observed (version (snapshot b)) (op_timestamp op)) || Global.observed (version (snapshot b')) (op_timestamp op)) (sent N) &&
  Nat.eqb (length (sent N)) 3 && (remote_id (snapshot b) =? remote_id (snapshot b')).
Lemma seen_there_ok N h b h' b' : seen_there N h b h' b' = true → remote_id (snapshot b) = remote_id (snapshot b') ∧ length (sent N) = 3%nat ∧
  ∀ op, op ∈ sent N → Global.observed (version (snapshot b)) (op_timestamp op) = true → Global.observed (version (snapshot b')) (op_timestamp op) = true.
Proof.
  unfold seen_there. intros [[Hf Hl%Nat.eqb_eq]%andb_true_iff Hr%Z.eqb_eq]%andb_true_iff. split_and!; [exact Hr|exact Hl|]. intros op Hop Ho.
  apply list_elem_of_In, (proj1 (forallb_forall _ _) Hf) in Hop. by rewrite Ho in Hop.
Qed.
Definition sample_anchors : list (nat * sample_step) := [(0%nat, Front 120); (1%nat, Front 121); (1%nat, ReceiveAll); (1%nat, TakeBack)].
Lemma network_anchors_witness : ∃ N h b h' b' A cs' x', sample_reachable N ∧ length (sent N) = 3%nat ∧ replicas N !! 0%nat = Some (h, b) ∧ replicas N !! 1%nat = Some (h', b') ∧
  anchor_at_offset true (snapshot b) 0 Right = Some A ∧ snapshot_of (snapshot b') cs' ∧ x' `prefix_of` atoms cs' ∧
  offset_for_anchor true (snapshot b') A = Some (str_len (text_of true x')).
Proof.
  destruct (sample_checked sample_anchors seen_there) as (N & h & b & h' & b' & HN & Hi & Hj & (Hr & Hl & Hs)%seen_there_ok); [by vm_compute|].
  destruct (network_anchors (λ _, None) _ _ sample_first_document N true 0 1 h b h' b' HN Hi Hj Hr Hs) as (cs & cs' & _ & H' & Ha).
  destruct (Ha [] (text_of true (atoms cs)) Right eq_refl) as (A & x & y & x' & y' & EA & _ & _ & Ex & _ & _ & Eo).
  exists N, h, b, h', b', A, cs', x'. split_and!; [exact HN|exact Hl|exact Hi|exact Hj|exact EA|exact H'|exists y'; exact Ex|exact Eo].
Defined.
Lemma network_anchor_order_witness : ∃ N h b h' b' r, sample_reachable N ∧ replicas N !! 0%nat = Some (h, b) ∧ replicas N !! 1%nat = Some (h', b') ∧
  anchor_cmp true (Anchor.min_for_buffer 1) (Anchor.max_for_buffer 1) (snapshot b) = Some r ∧
  anchor_cmp true (Anchor.min_for_buffer 1) (Anchor.max_for_buffer 1) (snapshot b') = Some r.
Proof.
  destruct (sample_checked sample_anchors seen_there) as (N & h & b & h' & b' & HN & Hi & Hj & (Hr & Hl & Hs)%seen_there_ok); [by vm_compute|].
  destruct (network_anchor_order (λ _, None) _ _ sample_first_document N true 0 1 h b h' b' (base_in_order _) HN Hi Hj Hs) as (cs & _ & Hc).
  destruct (Hc (Anchor.min_for_buffer 1) (Anchor.max_for_buffer 1) [] (atoms cs) (atoms cs) []) as (r & E1 & E2).
  - by apply anchored_min.
  - by apply anchored_max.
  - reflexivity.
  - by rewrite app_nil_r.
  - exists N, h, b, h', b', r. exact (conj HN (conj Hi (conj Hj (conj E1 E2)))).
Defined.
