(* ===== verification/Diff.v ===== *)
(** Differences between versions: [Edits] and what [BufferSnapshot] does with it, in
    [crates/text/src/text.rs]. *)
From S2P Require Import Prelude Clock Locator Points Patch Subscription SumTree TreeFind Cursor TreeWeight ParTree Iter Keyed TreeMap.
From S2P Require Import UndoMap OperationQueue Utf8 Rope RopePosition Selection History Fragments Buffer BufferOps Anchor.
Import Buffer.

(** An edit in some unit, with the anchors around it. *)
Record edit_in (D : Type) := mk_edit_in { old : D * D; new : D * D }.
#[global] Arguments mk_edit_in {D} _ _.
#[global] Arguments old {D} _.
#[global] Arguments new {D} _.
Abbreviation anchored_edit D := (edit_in D * (Anchor.t * Anchor.t))%type.

(** [Ord] of the units. *)
Class Compare (D : Type) := compare_positions : D → D → comparison.
#[export] Instance usize_compare : Compare Z := Z.compare.
#[export] Instance offset_utf16_compare : Compare OffsetUtf16.t := OffsetUtf16.cmp.
#[export] Instance point_compare : Compare Point.t := Point.cmp.
#[export] Instance point_utf16_compare : Compare PointUtf16.t := PointUtf16.cmp.

Section edits.
Context {D : Type} `{!TextDimension D, !Compare D}.
(** What changes; the rest is a parameter of the steps.
    [crates/text/src/text.rs:514-524] Edits *)
Record Edits := mk_edits {
  visible_cursor : Rope.cursor;
  deleted_cursor : Rope.cursor;
  fragments_cursor : option filter_cursor;
  e_old_end : D;
  e_new_end : D;
}.
Section next.
Variables (undos : UndoMap.UndoMap) (since : Global.t) (range : (Locator.t * Z) * (Locator.t * Z)) (buffer_id : Z).
(** The filter of [fragments_cursor]. *)
Definition filter_node (summary : FragmentSummary) : bool := negb (Global.observed_all since (max_version summary)).
Definition advance_cursor (cursor : filter_cursor) (st : Edits) : option Edits :=
  cursor ← Cursor.search_forward filter_node cursor;
  Some (mk_edits (visible_cursor st) (deleted_cursor st) (Some cursor) (e_old_end st) (e_new_end st)).
(** A fragment that has appeared.
    [crates/text/src/text.rs:3047-3075] Edits::next *)
Definition appeared (cursor : filter_cursor) (fragment : Fragment.t) (anchors : Anchor.t * Anchor.t) (st : Edits) (pending_edit : option (anchored_edit D)) :
    option (Edits * option (anchored_edit D)) :=
  end_ ← Cursor.end_ cursor;
  let visible_end :=
    if bool_decide (Fragment.id fragment = range.2.1)
    then Z.min (visible end_) (visible (Cursor.start cursor) +w64 (range.2.2 -w32 Fragment.insertion_offset fragment))
    else visible end_ in
  '(c, fragment_summary) ← Rope.cursor_summary (visible_cursor st) visible_end;
  let new_end := td_add_assign (e_new_end st) fragment_summary in
  let pending_edit :=
    match pending_edit with
    | Some (edit, r) => (mk_edit_in (old edit) ((new edit).1, new_end), (r.1, anchors.2))
    | None => (mk_edit_in (e_old_end st, e_old_end st) (e_new_end st, new_end), anchors)
    end in
  Some (mk_edits c (deleted_cursor st) (fragments_cursor st) (e_old_end st) new_end, Some pending_edit).
(** A fragment that has disappeared.
    [crates/text/src/text.rs:3076-3103] Edits::next *)
Definition disappeared (cursor : filter_cursor) (fragment : Fragment.t) (anchors : Anchor.t * Anchor.t) (st : Edits) (pending_edit : option (anchored_edit D)) :
    option (Edits * option (anchored_edit D)) :=
  end_ ← Cursor.end_ cursor;
  let deleted_end :=
    if bool_decide (Fragment.id fragment = range.2.1)
    then Z.min (deleted end_) (deleted (Cursor.start cursor) +w64 (range.2.2 -w32 Fragment.insertion_offset fragment))
    else deleted end_ in
  c ← (if Rope.cursor_offset (deleted_cursor st) <? deleted (Cursor.start cursor)
       then Rope.seek_forward (deleted_cursor st) (deleted (Cursor.start cursor)) else Some (deleted_cursor st));
  '(c, fragment_summary) ← Rope.cursor_summary c deleted_end;
  let old_end := td_add_assign (e_old_end st) fragment_summary in
  let pending_edit :=
    match pending_edit with
    | Some (edit, r) => (mk_edit_in ((old edit).1, old_end) (new edit), (r.1, anchors.2))
    | None => (mk_edit_in (e_old_end st, old_end) (e_new_end st, e_new_end st), anchors)
    end in
  Some (mk_edits (visible_cursor st) c (fragments_cursor st) old_end (e_new_end st), Some pending_edit).
(** The unchanged text before the fragment.
    [crates/text/src/text.rs:3020-3024] Edits::next *)
Definition pass_unchanged (cursor : filter_cursor) (st : Edits) : option Edits :=
  if Rope.cursor_offset (visible_cursor st) <? visible (Cursor.start cursor) then
    '(c, summary) ← Rope.cursor_summary (visible_cursor st) (visible (Cursor.start cursor));
    Some (mk_edits c (deleted_cursor st) (fragments_cursor st) (td_add_assign (e_old_end st) summary) (td_add_assign (e_new_end st) summary))
  else Some st.
(** One iteration of the loop.
    [crates/text/src/text.rs:3012-3106] Edits::next *)
Definition edits_step (st : Edits * option (anchored_edit D)) : option (Edits * option (anchored_edit D) + Edits * option (anchored_edit D)) :=
  let '(st, pending_edit) := st in
  match fragments_cursor st with
  | None => Some (inr (st, None))
  | Some cursor =>
      item ← Cursor.item cursor;
      match item with
      | None => Some (inr (st, pending_edit))
      | Some fragment =>
          if is_lt (Locator.cmp (Fragment.id fragment) range.1.1) then st ← advance_cursor cursor st; Some (inl (st, pending_edit))
          else if is_gt (Locator.cmp (Fragment.id fragment) range.2.1) then Some (inr (st, pending_edit))
          else
            st ← pass_unchanged cursor st;
            if match pending_edit with Some (change, _) => is_lt (compare_positions (new change).2 (e_new_end st)) | None => false end
            then Some (inr (st, pending_edit))
            else
              let start_anchor := Anchor.new (Fragment.timestamp fragment) (Fragment.insertion_offset fragment) Right buffer_id in
              let end_anchor := Anchor.new (Fragment.timestamp fragment) (Fragment.insertion_offset fragment +w32 Fragment.len fragment) Left buffer_id in
              was ← was_visible fragment since undos;
              '(st, pending_edit) ←
                (if negb was && Fragment.visible fragment then appeared cursor fragment (start_anchor, end_anchor) st pending_edit
                 else if was && negb (Fragment.visible fragment) then disappeared cursor fragment (start_anchor, end_anchor) st pending_edit
                 else Some (st, pending_edit));
              st ← advance_cursor cursor st;
              Some (inl (st, pending_edit))
      end
  end.
(** [crates/text/src/text.rs:3008-3109] Edits::next *)
Definition edits_next (fuel : nat) (st : Edits) : option (Edits * option (anchored_edit D)) := iterate edits_step fuel (st, None).
(** The iterator until it ends. *)
Fixpoint edits_collect (fuel n : nat) (st : Edits) : option (list (anchored_edit D)) :=
  match n with
  | O => None
  | S n =>
      '(st, edit) ← edits_next fuel st;
      match edit with
      | None => Some []
      | Some edit => rest ← edits_collect fuel n st; Some (edit :: rest)
      end
  end.
End next.

Section snapshot.
Variable debug_assertions : bool.
Implicit Types (self : BufferSnapshot) (since : Global.t).
(** The parts of the text that the range starts in.
    [crates/text/src/text.rs:2742-2760] BufferSnapshot::anchored_edits_since_in_range *)
Definition range_starts self (start_fragment_id : Locator.t) (offset : Z) : option (Z * Z) :=
  '(start, _, item) ← TreeFind.find (D := option Locator.t * FragmentTextSummary) (λ d, option_compare (Some start_fragment_id) d.1) Left (fragments self);
  Some match item with
       | Some fragment =>
           let overshoot := offset -w32 Fragment.insertion_offset fragment in
           if Fragment.visible fragment then (visible start.2 +w64 overshoot, deleted start.2) else (visible start.2, deleted start.2 +w64 overshoot)
       | None => (visible start.2, deleted start.2)
       end.
(** [crates/text/src/text.rs:2727-2776] BufferSnapshot::anchored_edits_since_in_range *)
Definition anchored_edits_since_in_range self since (range : Anchor.t * Anchor.t) : option (list (anchored_edit D)) :=
  if bool_decide (since = version self) then Some []
  else
    cursor ← Cursor.search_forward (filter_node since) (Cursor.new (fragments self));
    start_fragment_id ← fragment_id_for_anchor debug_assertions self range.1;
    '(visible_start, deleted_start) ← range_starts self start_fragment_id (Anchor.offset range.1);
    end_fragment_id ← fragment_id_for_anchor debug_assertions self range.2;
    visible_cursor ← Rope.cursor_at (visible_text self) visible_start;
    deleted_cursor ← Rope.cursor_at (deleted_text self) deleted_start;
    let n := S (length (SumTree.contents (fragments self))) in
    edits_collect (undo_map self) since ((start_fragment_id, Anchor.offset range.1), (end_fragment_id, Anchor.offset range.2)) (remote_id self) n n
      (mk_edits visible_cursor deleted_cursor (Some cursor) dzero dzero).
(** [crates/text/src/text.rs:2702-2713] BufferSnapshot::anchored_edits_since *)
Definition anchored_edits_since self since : option (list (anchored_edit D)) :=
  anchored_edits_since_in_range self since (Anchor.min_for_buffer (remote_id self), Anchor.max_for_buffer (remote_id self)).
(** [crates/text/src/text.rs:2715-2725] BufferSnapshot::edits_since_in_range *)
Definition edits_since_in_range self since (range : Anchor.t * Anchor.t) : option (list (edit_in D)) :=
  es ← anchored_edits_since_in_range self since range; Some (map fst es).
(** [crates/text/src/text.rs:2689-2700] BufferSnapshot::edits_since *)
Definition edits_since self since : option (list (edit_in D)) :=
  edits_since_in_range self since (Anchor.min_for_buffer (remote_id self), Anchor.max_for_buffer (remote_id self)).
End snapshot.
End edits.
#[global] Arguments Edits : clear implicits.

Section has_edits.
Variable debug_assertions : bool.
Implicit Types (self : BufferSnapshot) (since : Global.t).
Abbreviation offset_cursor := (Cursor.t Fragment.t FragmentSummary Z).
(** Whether some fragment that the loop comes to satisfies [changed], before one that satisfies [stop]. *)
Definition has_edits_step self since (changed : Fragment.t → option bool) (stop : Fragment.t → bool) (cursor : offset_cursor) : option (offset_cursor + bool) :=
  item ← Cursor.item cursor;
  match item with
  | None => Some (inr false)
  | Some fragment =>
      if stop fragment then Some (inr false)
      else
        b ← changed fragment;
        if (b : bool) then Some (inr true) else cursor ← Cursor.search_forward (filter_node since) cursor; Some (inl cursor)
  end.
Definition visibility_changed self since (fragment : Fragment.t) : option bool :=
  was ← was_visible fragment since (undo_map self); Some (negb (Bool.eqb was (Fragment.visible fragment))).
(** [crates/text/src/text.rs:2778-2801] BufferSnapshot::has_edits_since_in_range *)
Definition has_edits_since_in_range self since (range : Anchor.t * Anchor.t) : option bool :=
  if bool_decide (since = version self) then Some false
  else
    start_fragment_id ← fragment_id_for_anchor debug_assertions self range.1;
    end_fragment_id ← fragment_id_for_anchor debug_assertions self range.2;
    cursor ← Cursor.search_forward (filter_node since) (Cursor.new (fragments self));
    iterate (has_edits_step self since
        (λ f, if is_gt (Locator.cmp (Fragment.id f) start_fragment_id) then visibility_changed self since f else Some false)
        (λ f, is_gt (Locator.cmp (Fragment.id f) end_fragment_id)))
      (S (length (SumTree.contents (fragments self)))) cursor.
(** [crates/text/src/text.rs:2803-2819] BufferSnapshot::has_edits_since *)
Definition has_edits_since self since : option bool :=
  if bool_decide (since = version self) then Some false
  else
    cursor ← Cursor.search_forward (filter_node since) (Cursor.new (fragments self));
    iterate (has_edits_step self since (visibility_changed self since) (λ _, false)) (S (length (SumTree.contents (fragments self)))) cursor.
End has_edits.

Section offsets.
(** The end of the loop for one offset: the offset in the old text, and the edits and
    ends for the next one.
    [crates/text/src/text.rs:2838-2858] BufferSnapshot::offsets_to_version *)
Fixpoint offset_to_version (edits : list (edit_in Z)) (last_old_end last_new_end new_offset : Z) : Z * (list (edit_in Z) * Z * Z) :=
  match edits with
  | edit :: rest =>
      if new_offset <? (new edit).1 then (last_old_end +w64 saturating_sub new_offset last_new_end, (edits, last_old_end, last_new_end))
      else if (new edit).2 <=? new_offset then offset_to_version rest (old edit).2 (new edit).2 new_offset
      else (Z.min ((old edit).1 +w64 (new_offset -w64 (new edit).1)) (old edit).2, (edits, last_old_end, last_new_end))
  | [] => (last_old_end +w64 saturating_sub new_offset last_new_end, ([], last_old_end, last_new_end))
  end.
Fixpoint offsets_from (edits : list (edit_in Z)) (last_old_end last_new_end : Z) (offsets : list Z) : list Z :=
  match offsets with
  | [] => []
  | new_offset :: offsets =>
      let '(o, (edits, last_old_end, last_new_end)) := offset_to_version edits last_old_end last_new_end new_offset in
      o :: offsets_from edits last_old_end last_new_end offsets
  end.
(** [crates/text/src/text.rs:2828-2859] BufferSnapshot::offsets_to_version *)
Definition offsets_to_version (debug_assertions : bool) (self : BufferSnapshot) (offsets : list Z) (version : Global.t) : option (list Z) :=
  edits ← edits_since debug_assertions self version; Some (offsets_from edits 0 0 offsets).
(** [crates/text/src/text.rs:2821-2824] BufferSnapshot::range_to_version *)
Definition range_to_version (debug_assertions : bool) (self : BufferSnapshot) (range : Z * Z) (version : Global.t) : option (Z * Z) :=
  offsets ← offsets_to_version debug_assertions self [range.1; range.2] version;
  match offsets with start :: end_ :: _ => Some (start, end_) | _ => None end.
End offsets.
