(* ===== verification/Versions.v ===== *)
(** What the edits since a version say: they turn the text that the version showed
    into the text that is shown now. *)
From S2P Require Import Prelude Clock Locator Points Patch Subscription SumTree TreeFind Cursor TreeWeight Keyed TreeMap UndoMap.
From S2P Require Import Utf8 Rope RopePosition History Fragments Buffer BufferOps FragmentLaws Builders Cells EditMachine Snapshot Script.
From S2P Require Import UndoLoop UndoRanges Slices Origin Commuting UndoEdit RemoteEdit Convergence Replicas Changes Delivery Deferral Local Network.
From S2P Require Import Anchor Resolve AnchorOrder Diff.
Import Buffer.
Implicit Types (s : BufferSnapshot)   (c : cell) (cs : list cell) (d : document) (f : Fragment.t).

(** ** What a filter passes *)
Section filtered.
Variable since : Global.t.
Hypothesis since_wf : Global.wf since.
Lemma all_observe v t : Global.wf v → Lamport.ok t →
  Global.observed_all since (Global.observe v t) = true ↔ Global.observed_all since v = true ∧ Global.observed since t = true.
Proof.
  intros Hv Ht. rewrite !Global.observed_all_nth by (done || by apply Global.wf_observe). rewrite (observed_nth since t Ht), Z.leb_le.
  setoid_rewrite (λ i, Global.nth_observe v t i (proj1 Hv) Ht). split.
  - intros H. split; [intros i; specialize (H i)|specialize (H (Z.to_nat (ReplicaId.id (Lamport.replica_id t))))]; case_decide; (lia || done).
  - intros [H1 H2] i. specialize (H1 i). case_decide; [subst; lia|done].
Qed.
Lemma all_join v w : Global.wf v → Global.wf w →
  Global.observed_all since (Global.join v w) = true ↔ Global.observed_all since v = true ∧ Global.observed_all since w = true.
Proof.
  intros Hv Hw. rewrite !Global.observed_all_nth by (done || by apply Global.wf_join). setoid_rewrite (λ i, Global.nth_join v w i (proj1 Hv)). split.
  - intros H. split; intros i; specialize (H i); lia.
  - intros [H1 H2] i. specialize (H1 i). specialize (H2 i). lia.
Qed.
Lemma all_new : Global.observed_all since Global.new = true.
Proof. apply Global.observed_all_nth; [done|apply Global.wf_new|]. intros i. change (0 ≤ Global.nth since i). apply Global.nth_nonneg, since_wf. Qed.
(** The version has observed all that happened to the fragment. *)
Definition quiet f : Prop := Global.observed since (Fragment.timestamp f) = true ∧
  Forall (λ t, Global.observed since t = true) (Fragment.deletions f) ∧ Global.observed_all since (Fragment.max_undos f) = true.
Lemma all_item f : fragment_ok f → Global.observed_all since (max_version (item_summary f)) = true ↔ quiet f.
Proof.
  intros []. cbn [item_summary fragment_item max_version].
  assert (∀ v, Global.wf v → Global.wf (foldl Global.observe v (Fragment.deletions f)) ∧
    (Global.observed_all since (foldl Global.observe v (Fragment.deletions f)) = true ↔ Global.observed_all since v = true ∧ Forall (λ t, Global.observed since t = true) (Fragment.deletions f))) as Hd.
  { induction ok_deletions as [|t l Ht _ IH]; intros v Hv; cbn [foldl].
    - split; [done|]. split; [intros H; by split; [|constructor]|tauto].
    - destruct (IH (Global.observe v t)) as [H1 H2]; [by apply Global.wf_observe|]. split; [done|]. rewrite H2, all_observe, Forall_cons by done. tauto. }
  destruct (Hd (Global.observe Global.new (Fragment.timestamp f))) as [H1 H2]; [by apply Global.wf_observe; [apply Global.wf_new|]|].
  rewrite all_join, H2, all_observe by (done || apply Global.wf_new). unfold quiet. pose proof all_new. tauto.
Qed.
Lemma filter_node_item f : fragment_ok f → filter_node since (item_summary f) = false ↔ quiet f.
Proof. intros H. unfold filter_node. rewrite negb_false_iff. by apply all_item. Qed.
Lemma filter_node_ok : Cursor.filter_ok (T := Fragment.t) (filter_node since).
Proof.
  intros k Hk. unfold filter_node. rewrite negb_false_iff. change (Forall fragment_ok k) in Hk. intros H. induction k as [|f k IH] using rev_ind; [constructor|].
  pose proof Hk as [Hk' Hf]%Forall_app. pose proof Hf as [Hf1 _]%Forall_cons. rewrite measure_snoc_fragment in H. cbn [add_summary fragment_summary_summary max_version] in H.
  apply all_join in H as [H1 H2]; [|apply (measure_versions_ok k Hk')|apply (item_versions_ok f Hf1)]. apply Forall_app. split; [by apply IH|].
  constructor; [by apply negb_false_iff|constructor].
Qed.
End filtered.

(** ** The text that a version showed *)
Definition shown_at (v : Global.t) es a : bool := was_shown v es (a_timestamp a) (a_deletions a).
Definition text_at (v : Global.t) d : str := map a_char (filter (λ a, shown_at v (d_entries d) a = true) (d_atoms d)).
(** What is known of a character says which undo operations it was touched by. *)
Record undos_known d : Prop := {
  uk_wf : Forall (λ a, Global.wf (a_undos a)) (d_atoms d);
  uk_known a e : a ∈ d_atoms d → e ∈ d_entries d → changed_by (UndoMap.edit_id (UndoMap.entry_key e)) a →
    Lamport.ok (UndoMap.undo_id (UndoMap.entry_key e)) ∧ Global.observed (a_undos a) (UndoMap.undo_id (UndoMap.entry_key e)) = true;
}.
Lemma undos_same (obs obs' : UndoMap.UndoMapEntry → bool) id (l : list UndoMap.UndoMapEntry) :
  (∀ e, e ∈ l → UndoMap.edit_id (UndoMap.entry_key e) = id → obs e = obs' e) → UndoMap.undos obs id l = UndoMap.undos obs' id l.
Proof.
  induction l as [|e l IH]; intros H; [done|]. rewrite !UndoMap.undos_cons, IH by (intros x Hx; apply H; by right).
  destruct (decide (UndoMap.edit_id (UndoMap.entry_key e) = id)) as [E|E]; [rewrite (H e) by (done || left); done|by rewrite bool_decide_eq_false_2].
Qed.
(** Nothing is said to have happened to it since. *)
Lemma quiet_shown since d a : Global.wf since → undos_known d → shown d → a ∈ d_atoms d →
  Global.observed since (a_timestamp a) = true → Forall (λ t, Global.observed since t = true) (a_deletions a) → Global.observed_all since (a_undos a) = true →
  shown_at since (d_entries d) a = a_visible a.
Proof.
  intros Hwf [Huw Huk] Hsh Ha Hts Hds Hun. apply (proj1 (Forall_forall _ _) Hsh) in Ha as Hv. rewrite Hv.
  assert (∀ t, changed_by t a → undone_at since (d_entries d) t = undone (d_entries d) t) as Hu.
  { intros t Ht. unfold undone_at, undone. f_equal. apply undos_same. intros e He <-. destruct (Huk a e Ha He Ht) as [Hok Ho].
    rewrite (observed_nth _ _ Hok), Z.leb_le in Ho. rewrite (observed_nth _ _ Hok), Z.leb_le. apply (proj1 (Global.observed_all_nth since _ Hwf (proj1 (Forall_forall _ _) Huw a Ha))) with (i := Z.to_nat (ReplicaId.id (Lamport.replica_id (UndoMap.undo_id (UndoMap.entry_key e))))) in Hun. lia. }
  unfold shown_at, was_shown, still_shown. rewrite Hts, (Hu (a_timestamp a)) by by left. cbn [andb]. f_equal. apply forallb_same. intros t Ht.
  rewrite (proj1 (Forall_forall _ _) Hds t Ht). cbn. apply Hu. by right.
Qed.
(** Operations keep this. *)
Lemma change_undos_known (x : change) d : change_ok x → change_ready x d → undos_known d → undos_known (change_document x d).
Proof.
  intros (Hok & Hpos & Hwf & _) Hr [Hw Hk]. destruct x as [o|u]; cbn [change_document] in *.
  - destruct Hr as [_ Hn]. split; cbn.
    + apply apply_forall; [|intros a; unfold mark_seen; by destruct (was_shown _ _ _ _)|done]. intros a _ _ _ ->. apply Global.wf_new.
    + intros a e Ha He. pose (P := λ a, changed_by (UndoMap.edit_id (UndoMap.entry_key e)) a → Lamport.ok (UndoMap.undo_id (UndoMap.entry_key e)) ∧ Global.observed (a_undos a) (UndoMap.undo_id (UndoMap.entry_key e)) = true).
      revert a Ha. apply (proj1 (Forall_forall P _)), apply_forall; subst P; cbn.
      * intros b Et _ Ed _ [E|E]; [|rewrite Ed in E; by apply elem_of_nil in E]. destruct (Hn e He). congruence.
      * intros b H. unfold mark_seen. destruct (was_shown _ _ _ _); [|done]. cbn. intros [E|[E|E%list_elem_of_singleton]%elem_of_app]; [apply H; by left|apply H; by right|]. by destruct (Hn e He).
      * apply Forall_forall. intros b Hb. by apply Hk.
  - destruct Hr as (_ & _ & _ & _). split; cbn.
    + apply Forall_map. eapply Forall_impl; [exact Hw|]. intros a Ha. cbn. unfold redo_atom. destruct (touched _ a); [|done]. cbn. by apply Global.wf_observe.
    + intros a' e (a & -> & Ha)%list_elem_of_fmap He. destruct (redo_atom_facts (UndoMap.entries u ++ d_entries d) (timestamp u) (undo_ids u) a) as (_ & _ & Ed & Et & _).
      unfold changed_by. rewrite Ed, Et. change (changed_by (UndoMap.edit_id (UndoMap.entry_key e)) a → Lamport.ok (UndoMap.undo_id (UndoMap.entry_key e)) ∧
        Global.observed (a_undos (redo_atom (UndoMap.entries u ++ d_entries d) (timestamp u) (undo_ids u) a)) (UndoMap.undo_id (UndoMap.entry_key e)) = true).
      intros Hc. pose proof (proj1 (Forall_forall _ _) Hw a Ha) as Hwa. unfold redo_atom. apply elem_of_app in He as [He|He].
      * apply entry_id in He as [He ->]. split; [done|]. rewrite (proj2 (touched_spec (undo_ids u) a)) by by exists (UndoMap.edit_id (UndoMap.entry_key e)).
        cbn. apply observed_observe; [done..|]. right. split; [done|lia].
      * destruct (Hk a e Ha He Hc) as [H1 H2]. split; [done|]. destruct (touched _ a); [|done]. cbn. apply observed_observe; [done..|]. by left.
Qed.
Lemma run_undos_known (A : list change) d : Forall change_ok A → ready_all (O := change) A d → undos_known d → undos_known (run_all (O := change) A d).
Proof.
  revert d. induction A as [|x A IH]; intros d; [done|]. intros [Hx HA]%Forall_cons [H1 H2] H. apply (IH (change_document x d)); [done|exact H2|]. by apply change_undos_known.
Qed.
(** The first character is the first one of its insertion. *)
Definition starts_insertion (l : list atom) : Prop := match l with a :: _ => a_offset a = 0 | [] => True end.
Lemma starts_app (l k : list atom) : starts_insertion l → (l = [] → starts_insertion k) → starts_insertion (l ++ k).
Proof. destruct l as [|a l]; [intros _ H; by apply H|done]. Qed.
Lemma applied_starts p skip (mark : atom → atom) ts es : (∀ a, place (mark a) = place a) → ∀ n (l : list atom),
  starts_insertion l → starts_insertion (apply_edits p skip mark ts n 0 es l).
Proof.
  intros Hm. induction es as [|[[start stop] u] es IH]; intros n l Hl; [done|]. cbn [apply_edits].
  pose proof (take_measured_app p (start - n) l) as E1. destruct (take_measured p (start - n) l) as [x l1].
  pose proof (span_whole skip l1) as E2. destruct (span skip l1) as [k l2].
  pose proof (take_measured_app p (stop - start) l2) as E3. destruct (take_measured p (stop - start) l2) as [e l3]. cbn [fst snd] in *. subst l l1 l2.
  apply starts_app; [by destruct x|]. intros ->. apply starts_app; [by destruct k|]. intros ->. cbn [app] in Hl. apply starts_app; [by destruct u|].
  intros Hu. assert (u = []) as -> by by destruct u. apply starts_app.
  - destruct e as [|a e]; [done|]. cbn in *. specialize (Hm a). unfold place, a_key in Hm. injection Hm as _ -> _. done.
  - intros He. assert (e = []) as -> by by destruct e. by apply IH.
Qed.
Lemma run_starts (A : list change) d : starts_insertion (d_atoms d) → starts_insertion (d_atoms (run_all (O := change) A d)).
Proof.
  revert d. induction A as [|x A IH]; intros d H; [done|]. apply (IH (change_document x d)). destruct x as [o|u]; cbn.
  - apply applied_starts; [apply mark_seen_place|done].
  - destruct (d_atoms d) as [|a l]; [done|]. cbn. unfold redo_atom. by destruct (touched _ a).
Qed.
