(* ===== verification/Hunks.v ===== *)
(** The edits since a version ([BufferSnapshot::edits_since] and [has_edits_since] in
    [crates/text/src/text.rs]): what the iterator yields, in terms of the two texts. *)
From S2P Require Import Prelude Clock Locator Points Patch Subscription SumTree TreeFind Cursor TreeWeight Keyed TreeMap UndoMap.
From S2P Require Import Utf8 Rope RopePosition History Fragments Buffer BufferOps FragmentLaws Builders Cells EditMachine Snapshot Script.
From S2P Require Import UndoLoop UndoRanges Slices Origin Commuting UndoEdit RemoteEdit Convergence Replicas Changes Delivery Deferral Local Network.
From S2P Require Import Chunk Anchor Resolve AnchorOrder Diff Versions.
Import Buffer.
Implicit Types (s : BufferSnapshot)   (c : cell) (cs : list cell) (d : document) (f : Fragment.t).

(** ** Hunks *)
(** A part of the text that stays, and what is removed and added after it. *)
Record hunk := mk_hunk { gap : str; removed : str; added : str }.
Implicit Types (hs : list hunk).
Definition old_of hs : str := flat_map (λ h, gap h ++ removed h) hs.
Definition new_of hs : str := flat_map (λ h, gap h ++ added h) hs.
(** Something changes, and something stays between two changes. *)
Definition hunk_ok (h : hunk) : Prop := removed h ≠ [] ∨ added h ≠ [].
Definition hunks_ok hs : Prop := Forall hunk_ok hs ∧ Forall (λ h, gap h ≠ []) (tail hs).
Section hunks.
Context {D : Type} `{TextPosition D}.
(** The edits that they are, after the texts [o] and [n]. *)
Fixpoint hunk_edits (o n : str) hs : list (edit_in D) :=
  match hs with
  | [] => []
  | h :: hs =>
      mk_edit_in (pos D (o ++ gap h), pos D (o ++ gap h ++ removed h)) (pos D (n ++ gap h), pos D (n ++ gap h ++ added h)) ::
        hunk_edits (o ++ gap h ++ removed h) (n ++ gap h ++ added h) hs
  end.
(** A longer gap before the first one. *)
Definition longer (g : str) hs : list hunk := match hs with [] => [] | h :: hs => mk_hunk (g ++ gap h) (removed h) (added h) :: hs end.
Lemma longer_edits g o n hs : hunk_edits o n (longer g hs) = hunk_edits (o ++ g) (n ++ g) hs.
Proof. destruct hs as [|h hs]; [done|]. cbn. by rewrite <- !app_assoc. Qed.
Lemma longer_ok g hs : hunks_ok hs → hunks_ok (longer g hs).
Proof. destruct hs as [|h hs]; [done|]. intros [[H1 H2]%Forall_cons H3]. split; [by constructor|done]. Qed.
(** What is left of two texts after [g]. *)
Definition turns (hs : list hunk) (o n : str) : Prop := ∃ t, o = old_of hs ++ t ∧ n = new_of hs ++ t.
Lemma longer_turns g hs (o n : str) : turns hs o n → turns (longer g hs) (g ++ o) (g ++ n).
Proof.
  intros (t & -> & ->). destruct hs as [|h hs]; [by exists (g ++ t)|]. exists t. cbn. by rewrite <- !app_assoc.
Qed.
End hunks.

(** ** Texts of fragments *)
Lemma between_summary {D} `{TextPosition D} cur (a m b : str) : between cur a (m ++ b) →
  ∃ cur', Rope.cursor_summary (D := D) cur (str_len (a ++ m)) = Some (cur', pos D m) ∧ between cur' (a ++ m) b.
Proof.
  intros (w & v & bf & af & Hc & Hw & Hv). unfold room in *. destruct (Rope.cursor_summary_ok (D := D) w v cur a m b bf af Hc) as (cur' & bf' & af' & E & Hc' & _); [lia|].
  exists cur'. split; [done|]. exists w, v, bf', af'. unfold room. split_and!; [done|lia..].
Qed.
Lemma between_offset cur (a b : str) : between cur a b → Rope.cursor_offset cur = str_len a.
Proof. intros (w & v & bf & af & [] & _). done. Qed.
Lemma between_seek cur (a m b : str) : between cur a (m ++ b) → ∃ cur', Rope.seek_forward cur (str_len (a ++ m)) = Some cur' ∧ between cur' (a ++ m) b.
Proof.
  intros (w & v & bf & af & Hc & Hw & Hv). destruct (Rope.cursor_seek_forward_ok w v cur a m b bf af Hc) as (cur' & bf' & af' & E & Hc' & _).
  exists cur'. split; [done|]. exists w, v, bf', af'. by split_and!.
Qed.
Section texts.
Variables (s : BufferSnapshot) (cs : list cell).
Hypothesis Hs : snapshot_of s cs.
Lemma has_small r (t u : str) : has r (t ++ u) → 0 ≤ str_len t < 2 ^ 64.
Proof.
  intros (w & ss & (_ & _ & Hsz) & E). rewrite E in Hsz. unfold sized in Hsz. rewrite str_len_app in Hsz.
  pose proof (str_len_nonneg t). pose proof (str_len_nonneg u). lia.
Qed.
Lemma texts_before (c1 c2 : list cell) : cs = c1 ++ c2 →
  dim FragmentTextSummary (frags c1) = mk_text (str_len (text_of true (atoms c1))) (str_len (text_of false (atoms c1))).
Proof.
  intros E. pose proof (s_visible _ _ Hs) as Hv. pose proof (s_deleted _ _ Hs) as Hd. rewrite E, atoms_app, text_of_app in Hv, Hd.
  pose proof (s_cells _ _ Hs) as Hc. rewrite E in Hc. apply Forall_app in Hc as [Hc _].
  rewrite dim_text, visible_cells, deleted_cells by done. by rewrite !wrap64_small by (by eapply has_small).
Qed.
Lemma cons_text b (c2 : list cell) c : text_of b (atoms (c :: c2)) = pick (Bool.eqb (Fragment.visible (frag c)) b) (chars c) ++ text_of b (atoms c2).
Proof. cbn [atoms flat_map]. fold (atoms c2). by rewrite text_of_app, atoms_text. Qed.
End texts.

(** ** The iterator *)
#[export] Instance usize_text_key : RopePosition.TextKey (compare_positions (D := Z)) (λ a b, a -w64 b) := RopePosition.usize_key.
#[export] Instance point_text_key : RopePosition.TextKey (compare_positions (D := Point.t)) Point.sub := RopePosition.point_key.
#[export] Instance point_utf16_text_key : RopePosition.TextKey (compare_positions (D := PointUtf16.t)) PointUtf16.sub := RopePosition.point_utf16_key.
#[local] Existing Instances UndoMap.UndoMapKey_summary UndoMap.UndoMapEntry_item UndoMap.UndoMapEntry_laws UndoMap.UndoMapEntry_keyed.
Section machine.
Context {D : Type} `{TextPosition D, !Compare D} (sub : D → D → D) `{!RopePosition.TextKey (compare_positions (D := D)) sub}.
Variables (s : BufferSnapshot) (cs : list cell) (since : Global.t) (es : undo_entries).
Hypothesis Hs : snapshot_of s cs.
Hypothesis since_wf : Global.wf since.
Hypothesis undos_fit : Keyed.fits (undo_map s) es.
(** Whether the version showed the fragment. *)
Definition shown_then c : bool := was_shown since es (Fragment.timestamp (frag c)) (Fragment.deletions (frag c)).
Definition shown_now c : bool := Fragment.visible (frag c).
Hypothesis unchanged : ∀ c, c ∈ cs → filter_node since (item_summary (frag c)) = false → shown_then c = shown_now c.
Definition old_text (l : list cell) : str := flat_map (λ c, pick (shown_then c) (chars c)) l.
Definition new_text (l : list cell) : str := text_of true (atoms l).
Hypothesis old_sized : sized (old_text cs).
Variables (start_offset end_offset : Z).
Abbreviation range := ((Locator.min, start_offset), (Locator.max, end_offset)).
Abbreviation edits := (Edits D).

Lemma old_app (c1 c2 : list cell) : old_text (c1 ++ c2) = old_text c1 ++ old_text c2.
Proof. apply flat_map_app. Qed.
Lemma old_cons c (c2 : list cell) : old_text (c :: c2) = pick (shown_then c) (chars c) ++ old_text c2.
Proof. done. Qed.
Lemma new_app (c1 c2 : list cell) : new_text (c1 ++ c2) = new_text c1 ++ new_text c2.
Proof. unfold new_text. by rewrite atoms_app, text_of_app. Qed.
Lemma new_cons c (c2 : list cell) : new_text (c :: c2) = pick (shown_now c) (chars c) ++ new_text c2.
Proof. unfold new_text. rewrite cons_text. unfold shown_now. by destruct (Fragment.visible (frag c)). Qed.
(** The parts of the texts that come from fragments that the filter rejects. *)
Lemma rejected_texts (l : list cell) : (∀ c, c ∈ l → c ∈ cs) → Cursor.rejected (T := Fragment.t) (filter_node since) (frags l) → old_text l = new_text l.
Proof.
  induction l as [|c l IH]; intros Hin; [done|]. cbn [frags map]. intros [Hc Hl]%Forall_cons. rewrite old_cons, new_cons, IH by (done || intros x Hx; apply Hin; by right).
  by rewrite (unchanged c (Hin c ltac:(left)) Hc).
Qed.

(** The edits so far end after [o] and [n], and the text [g] from there to before
    [c2] is the same in both. *)
Record passed (st : edits) (c1 c2 : list cell) (o n g : str) : Prop := {
  i_cells : cs = c1 ++ c2;
  i_visible : between (visible_cursor st) n (g ++ new_text c2);
  i_deleted : ∃ a k, text_of false (atoms c1) = a ++ k ∧ between (deleted_cursor st) a (k ++ text_of false (atoms c2));
  i_old : e_old_end st = pos D o;
  i_new : e_new_end st = pos D n;
  i_old_text : old_text c1 = o ++ g;
  i_new_text : new_text c1 = n ++ g;
}.
(** The cursor of the fragments is there, too. *)
Definition at_fragment cur (st : edits) (c1 c2 : list cell) (o n g : str) : Prop :=
  fragments_cursor st = Some cur ∧ Cursor.positioned cur (frags c1) (frags c2) ∧ passed st c1 c2 o n g.
Lemma sized_prefix (a b t : str) : sized t → t = a ++ b → sized a.
Proof. intros H1 ->. by apply sized_app in H1 as [? _]. Qed.
Lemma old_prefix (c1 c2 : list cell) : cs = c1 ++ c2 → sized (old_text c1).
Proof. intros E. eapply sized_prefix; [exact old_sized|]. by rewrite E, old_app. Qed.
Lemma new_prefix (c1 c2 : list cell) : cs = c1 ++ c2 → sized (new_text c1).
Proof.
  intros E. destruct (s_visible _ _ Hs) as (w & Hw). apply Rope.holds_text in Hw as [_ Hw]. eapply sized_prefix; [exact Hw|]. rewrite E. apply new_app.
Qed.
Lemma start_at cur (c1 c2 : list cell) : Cursor.positioned cur (frags c1) (frags c2) → cs = c1 ++ c2 →
  Cursor.start cur = mk_text (str_len (new_text c1)) (str_len (text_of false (atoms c1))).
Proof. intros Hc E. rewrite (Cursor.p_position _ _ _ Hc : Cursor.start cur = _). exact (texts_before s cs Hs c1 c2 E). Qed.
Lemma end_at cur (c1 c2 : list cell) c : Cursor.positioned cur (frags c1) (frags (c :: c2)) → cs = c1 ++ c :: c2 →
  Cursor.end_ cur = Some (mk_text (str_len (new_text (c1 ++ [c]))) (str_len (text_of false (atoms (c1 ++ [c]))))).
Proof.
  intros Hc E. rewrite (Cursor.end_ok _ _ _ Hc). cbn [frags map]. f_equal. replace (frags c1 ++ [frag c]) with (frags (c1 ++ [c])) by apply frags_app.
  apply (texts_before s cs Hs _ c2). by rewrite <- app_assoc.
Qed.
Lemma passed_ok cur st (c1 c2 : list cell) o n g : at_fragment cur st c1 c2 o n g →
  ∃ st', pass_unchanged cur st = Some st' ∧ at_fragment cur st' c1 c2 (o ++ g) (n ++ g) [].
Proof.
  intros (Ecur & Hc & [E Hv Hd Eo En Ho Hn]). unfold pass_unchanged.
  rewrite (start_at cur c1 c2 Hc E). cbn [visible deleted].
  rewrite (between_offset _ _ _ Hv). rewrite Hn. destruct g as [|x g].
  - rewrite !app_nil_r in *. rewrite Z.ltb_irrefl. exists st. split; [done|]. split; [done|]. split; [done|]. split; by rewrite ?app_nil_r.
  - rewrite (proj2 (Z.ltb_lt _ _)).
    2: { rewrite str_len_app. cbn [str_len]. pose proof (len_utf8_bounds x). pose proof (str_len_nonneg g). lia. }
    destruct (between_summary (D := D) _ n (x :: g) (new_text c2) Hv) as (cv & E1 & Hcv). rewrite E1. cbn [mbind option_bind]. rewrite Eo, En.
    rewrite !pos_add by (rewrite <- ?Ho, <- ?Hn; by eapply old_prefix || by eapply new_prefix).
    eexists. split; [done|]. split; [done|]. split; [done|]. split; cbn; try done; by rewrite app_nil_r.
Qed.
Lemma advanced_ok cur st (c1 c2 : list cell) c o n g : Cursor.positioned cur (frags c1) (frags (c :: c2)) → passed st (c1 ++ [c]) c2 o n g →
  ∃ cur' st' (mid rest : list cell), advance_cursor since cur st = Some st' ∧ c2 = mid ++ rest ∧ old_text mid = new_text mid ∧
    at_fragment cur' st' ((c1 ++ [c]) ++ mid) rest o n (g ++ new_text mid).
Proof.
  intros Hc [E Hv (a & k & Ed & Hd) Eo En Ho Hn].
  destruct (Cursor.search_forward_ok _ (filter_node_ok since since_wf) (Cursor.exact_jumps _) cur _ _ Hc) as (cur' & fm & fr & E1 & Ef & Hrej & _ & Hc').
  fold (frags c2) in Ef. unfold frags in Ef. apply map_eq_app in Ef as (mid & rest & -> & <- & <-). fold (frags mid) (frags rest) in *.
  assert (old_text mid = new_text mid) as Em.
  { apply rejected_texts; [|done]. intros x Hx. rewrite E. apply elem_of_app. right. apply elem_of_app. by left. }
  exists cur', (mk_edits (visible_cursor st) (deleted_cursor st) (Some cur') (e_old_end st) (e_new_end st)), mid, rest. unfold advance_cursor. rewrite E1.
  split_and!; [done|done|done|]. split; [done|]. split; [by rewrite !frags_app, <- app_assoc|]. split; cbn; try done.
  - by rewrite <- !app_assoc in *.
  - rewrite new_app in Hv. by rewrite <- app_assoc.
  - exists a, (k ++ text_of false (atoms mid)). rewrite (atoms_app (c1 ++ [c]) mid), text_of_app, Ed, app_assoc. split; [done|].
    by rewrite atoms_app, text_of_app, app_assoc in Hd.
  - by rewrite (old_app (c1 ++ [c]) mid), Ho, Em, app_assoc.
  - by rewrite (new_app (c1 ++ [c]) mid), Hn, app_assoc.
Qed.

(** The edit that is not complete: after [o] and [n], it removes [d] and adds [i]. *)
Definition pending (p : option (anchored_edit D)) (o n d i : str) : Prop :=
  match p with
  | None => d = [] ∧ i = []
  | Some (e, _) => e = mk_edit_in (pos D o, pos D (o ++ d)) (pos D n, pos D (n ++ i)) ∧ (d ≠ [] ∨ i ≠ [])
  end.
Lemma id_not_max c : c ∈ cs → Locator.cmp (Fragment.id (frag c)) Locator.min = Gt ∧ Locator.cmp (Fragment.id (frag c)) Locator.max = Lt ∧ Fragment.id (frag c) ≠ Locator.max.
Proof.
  intros Hc. assert (id_ok (frag c)) as (_ & _ & H1 & H2). { apply (proj1 (Forall_forall _ _) (proj1 (s_ids _ _ Hs))). by apply list_elem_of_fmap_2. }
  split_and!; [by apply (cmp_gt_lt Locator.cmp)|done|]. intros E. rewrite E, (cmp_refl Locator.cmp) in H2. done.
Qed.
Lemma chars_some c : c ∈ cs → chars c ≠ [].
Proof. intros Hc. apply (proj1 (Forall_forall _ _) (s_cells _ _ Hs) c Hc). Qed.
Lemma appeared_ok cur st (c1 c2 : list cell) c o n (d i : str) p anchors : at_fragment cur st c1 (c :: c2) (o ++ d) (n ++ i) [] → pending p o n d i → shown_then c = false → shown_now c = true →
  ∃ st' p', appeared range cur (frag c) anchors st p = Some (st', Some p') ∧ passed st' (c1 ++ [c]) c2 (o ++ d) (n ++ i ++ chars c) [] ∧ pending (Some p') o n d (i ++ chars c).
Proof.
  intros (Ecur & Hc & [E Hv (a & k & Ed & Hd) Eo En Ho Hn]) Hp Hwas His. assert (c ∈ cs) as Hin by (rewrite E; apply elem_of_app; right; left).
  unfold appeared. rewrite (end_at cur c1 c2 c Hc E). cbn [mbind option_bind fst snd]. rewrite bool_decide_eq_false_2 by by apply id_not_max. cbn [visible].
  assert (new_text (c1 ++ [c]) = (n ++ i) ++ chars c) as En'.
  { rewrite new_app, Hn, new_cons, His. cbn. by rewrite !app_nil_r. }
  assert (old_text (c1 ++ [c]) = o ++ d) as Eo' by (rewrite old_app, Ho, old_cons, Hwas; cbn; by rewrite !app_nil_r).
  assert (cs = (c1 ++ [c]) ++ c2) as E' by by rewrite <- app_assoc.
  rewrite En'. cbn [app] in Hv. rewrite new_cons, His in Hv. cbn [pick] in Hv.
  destruct (between_summary (D := D) _ (n ++ i) (chars c) (new_text c2) Hv) as (cv & -> & Hcv). cbn [mbind option_bind].
  rewrite En, Eo, pos_add by (rewrite <- En'; by eapply new_prefix). eexists _, _. split; [reflexivity|]. split.
  - split; cbn; rewrite ?app_nil_r; try done; rewrite ?app_assoc; try done.
    unfold shown_now in His. rewrite cons_text, His in Hd. exists a, k. rewrite atoms_app, text_of_app, atoms_one, atoms_text, His. cbn. by rewrite app_nil_r.
  - rewrite <- app_assoc. destruct p as [[e r]|]; cbn.
    + destruct Hp as [-> _]. cbn. split; [done|]. right. intros [_ ?]%app_eq_nil. by apply (chars_some c Hin).
    + destruct Hp as [-> ->]. rewrite !app_nil_r. split; [done|]. right. by apply chars_some.
Qed.
Lemma disappeared_ok cur st (c1 c2 : list cell) c o n (d i : str) p anchors : at_fragment cur st c1 (c :: c2) (o ++ d) (n ++ i) [] → pending p o n d i → shown_then c = true → shown_now c = false →
  ∃ st' p', disappeared range cur (frag c) anchors st p = Some (st', Some p') ∧ passed st' (c1 ++ [c]) c2 (o ++ d ++ chars c) (n ++ i) [] ∧ pending (Some p') o n (d ++ chars c) i.
Proof.
  intros (Ecur & Hc & [E Hv (a & k & Ed & Hd) Eo En Ho Hn]) Hp Hwas His. assert (c ∈ cs) as Hin by (rewrite E; apply elem_of_app; right; left).
  unfold disappeared. rewrite (end_at cur c1 c2 c Hc E), (start_at cur c1 _ Hc E). cbn [mbind option_bind fst snd]. rewrite bool_decide_eq_false_2 by by apply id_not_max. cbn [deleted].
  assert (new_text (c1 ++ [c]) = n ++ i) as En' by (rewrite new_app, Hn, new_cons, His; cbn; by rewrite !app_nil_r).
  assert (old_text (c1 ++ [c]) = (o ++ d) ++ chars c) as Eo' by (rewrite old_app, Ho, old_cons, Hwas; cbn; by rewrite !app_nil_r).
  assert (text_of false (atoms (c1 ++ [c])) = text_of false (atoms c1) ++ chars c) as Ed'.
  { unfold shown_now in His. by rewrite atoms_app, text_of_app, atoms_one, atoms_text, His. }
  assert (cs = (c1 ++ [c]) ++ c2) as E' by by rewrite <- app_assoc.
  rewrite Ed', (between_offset _ _ _ Hd). unfold shown_now in His. rewrite cons_text, His in Hd. cbn [Bool.eqb pick] in Hd.
  assert (∃ cd, (if str_len a <? str_len (text_of false (atoms c1)) then Rope.seek_forward (deleted_cursor st) (str_len (text_of false (atoms c1))) else Some (deleted_cursor st)) = Some cd ∧
    between cd (text_of false (atoms c1)) (chars c ++ text_of false (atoms c2))) as (cd & -> & Hcd).
  { rewrite Ed. destruct (Z.ltb_spec (str_len a) (str_len (a ++ k))) as [Hl|Hl]; [by apply between_seek|].
    rewrite str_len_app in Hl. assert (k = []) as -> by (apply Chunk.str_len_zero; pose proof (str_len_nonneg k); lia). exists (deleted_cursor st). by rewrite app_nil_r. }
  cbn [mbind option_bind].
  destruct (between_summary (D := D) _ _ (chars c) (text_of false (atoms c2)) Hcd) as (cd' & -> & Hcd'). cbn [mbind option_bind].
  rewrite En, Eo, pos_add by (rewrite <- Eo'; by eapply old_prefix). eexists _, _. split; [reflexivity|]. split.
  - split; cbn; rewrite ?app_nil_r; try done; rewrite ?app_assoc; try done.
    + rewrite new_cons in Hv. unfold shown_now in Hv. by rewrite His in Hv.
    + exists (text_of false (atoms c1) ++ chars c), []. by rewrite Ed', app_nil_r.
  - rewrite <- app_assoc. destruct p as [[e r]|]; cbn.
    + destruct Hp as [-> _]. cbn. split; [done|]. left. intros [_ ?]%app_eq_nil. by apply (chars_some c Hin).
    + destruct Hp as [-> ->]. rewrite !app_nil_r. split; [done|]. left. by apply chars_some.
Qed.
(** What a fragment does to the edit that is not complete. *)
Lemma changes_ok cur st (c1 c2 : list cell) c o n (d i : str) p anchors : at_fragment cur st c1 (c :: c2) (o ++ d) (n ++ i) [] → pending p o n d i →
  ∃ st' p' (d' i' g : str), (if negb (shown_then c) && shown_now c then appeared range cur (frag c) anchors st p
      else if shown_then c && negb (shown_now c) then disappeared range cur (frag c) anchors st p else Some (st, p)) = Some (st', p') ∧
    passed st' (c1 ++ [c]) c2 (o ++ d') (n ++ i') g ∧ pending p' o n d' i' ∧ (p ≠ None → p' ≠ None) ∧ (p' = None → shown_then c = shown_now c).
Proof.
  intros H1 Hp. destruct (shown_then c) eqn:E1, (shown_now c) eqn:E2; cbn [negb andb].
  3: { destruct (appeared_ok cur st c1 c2 c o n d i p anchors H1 Hp E1 E2) as (st' & p' & E & H2 & H3). by exists st', (Some p'), d, (i ++ chars c), []. }
  2: { destruct (disappeared_ok cur st c1 c2 c o n d i p anchors H1 Hp E1 E2) as (st' & p' & E & H2 & H3). by exists st', (Some p'), (d ++ chars c), i, []. }
  all: exists st, p, d, i, (pick (shown_now c) (chars c)); split_and!; try done; destruct H1 as (_ & _ & [E Hv (a & k & Ed & Hd) Eo En Ho Hn]);
    rewrite E2; unfold shown_now in E2; split; rewrite <- ?app_assoc; try done.
  - rewrite new_cons in Hv. unfold shown_now in Hv. by rewrite E2 in Hv.
  - rewrite cons_text, E2 in Hd. exists a, k. rewrite atoms_app, text_of_app, atoms_one, atoms_text, E2. cbn. by rewrite app_nil_r.
  - rewrite old_app, Ho, old_cons, E1, <- !app_assoc. cbn. by rewrite app_nil_r.
  - rewrite new_app, Hn, new_cons, <- !app_assoc. unfold shown_now. rewrite E2. cbn. by rewrite app_nil_r.
  - rewrite new_cons in Hv. unfold shown_now in Hv. by rewrite E2 in Hv.
  - rewrite cons_text, E2 in Hd. exists a, (k ++ chars c). rewrite atoms_app, text_of_app, atoms_one, atoms_text, E2, Ed. cbn. by rewrite <- !app_assoc.
  - rewrite old_app, Ho, old_cons, E1, <- !app_assoc. cbn. by rewrite !app_nil_r.
  - rewrite new_app, Hn, new_cons, <- !app_assoc. unfold shown_now. rewrite E2. cbn. by rewrite !app_nil_r.
Qed.
Variable buffer_id : Z.
Abbreviation step := (edits_step (undo_map s) since range buffer_id).
Lemma ends_before (n g : str) : sized (n ++ g) → is_lt (compare_positions (pos D n) (pos D (n ++ g))) = bool_decide (g ≠ []).
Proof.
  intros Hsz. rewrite (RopePosition.key_cmp (cmp := compare_positions) (sub := sub) n g (n ++ g) []) by (done || by rewrite app_nil_r).
  destruct g as [|x g]; [by rewrite app_nil_r, Z.compare_refl|]. rewrite str_len_app. cbn [str_len]. pose proof (len_utf8_bounds x). pose proof (str_len_nonneg g).
  by rewrite (proj2 (Z.compare_lt_iff _ _)) by lia.
Qed.
(** One fragment: an edit before it is complete, or the cursor gets on. *)
Lemma step_ok cur st (c1 c2 : list cell) c o n (d i : str) g p : at_fragment cur st c1 (c :: c2) (o ++ d) (n ++ i) g → pending p o n d i →
  (p ≠ None ∧ g ≠ [] ∧ ∃ st', step (st, p) = Some (inr (st', p)) ∧ at_fragment cur st' c1 (c :: c2) (o ++ d ++ g) (n ++ i ++ g) []) ∨
  ((p ≠ None → g = []) ∧ ∃ cur' st' p' (a d' i' g' : str) (mid rest : list cell), step (st, p) = Some (inl (st', p')) ∧ c2 = mid ++ rest ∧ a = g ∧
    at_fragment cur' st' ((c1 ++ [c]) ++ mid) rest ((o ++ a) ++ d') ((n ++ a) ++ i') g' ∧ pending p' (o ++ a) (n ++ a) d' i' ∧ (p ≠ None → p' ≠ None) ∧
    (p' = None → shown_then c = shown_now c) ∧ old_text mid = new_text mid).
Proof.
  intros Hat Hp. pose proof Hat as (Ecur & Hc & Hpa). assert (c ∈ cs) as Hin by (rewrite (i_cells _ _ _ _ _ _ Hpa); apply elem_of_app; right; left).
  unfold edits_step. rewrite Ecur, (Cursor.item_ok _ _ _ Hc). cbn [frags map head mbind option_bind fst snd].
  destruct (id_not_max c Hin) as (-> & -> & _). cbn [is_lt is_gt].
  destruct (passed_ok cur st c1 (c :: c2) _ _ g Hat) as (st1 & -> & H1). cbn [mbind option_bind].
  assert (sized ((n ++ i) ++ g)) as Hsz.
  { rewrite <- (i_new_text _ _ _ _ _ _ Hpa). eapply new_prefix, Hpa. }
  assert (∀ p' : option (anchored_edit D), p' = p → (p ≠ None → g = []) → pending p (o ++ g) (n ++ g) d i) as Hmove.
  { intros p' -> Hg. destruct p as [[e r]|]; [|done]. by rewrite (Hg ltac:(done)), !app_nil_r. }
  destruct (decide (p ≠ None ∧ g ≠ [])) as [[Hn Hg]|Hno].
  - left. split_and!; [done|done|]. destruct p as [[e r]|]; [|done]. destruct Hp as [-> Hp]. cbn [new snd].
    destruct H1 as (E1 & Hc1 & H1). rewrite (i_new _ _ _ _ _ _ H1), ends_before, bool_decide_eq_true_2 by done.
    exists st1. split; [done|]. rewrite !app_assoc. by split.
  - right. assert (p ≠ None → g = []) as Hg.
    { intros Hpn. destruct (decide (g = [])); [done|]. by destruct Hno. }
    split; [done|].
    assert (match p with Some (change, _) => is_lt (compare_positions (new change).2 (e_new_end st1)) | None => false end = false) as ->.
    { destruct p as [[e r]|]; [|done]. destruct Hp as [-> _]. cbn [new snd]. destruct H1 as (_ & _ & H1). rewrite (i_new _ _ _ _ _ _ H1), ends_before by done.
      apply bool_decide_eq_false_2. rewrite (Hg ltac:(done)). tauto. }
    rewrite (was_visible_ok since (undo_map s) es undos_fit) by (eapply c_fragment, (proj1 (Forall_forall _ _) (s_cells _ _ Hs)); exact Hin).
    fold (shown_then c). fold (shown_now c). cbn [mbind option_bind].
    assert (at_fragment cur st1 c1 (c :: c2) ((o ++ g) ++ d) ((n ++ g) ++ i) []) as H1'.
    { destruct p as [[e r]|]; [rewrite (Hg ltac:(done)) in *; by rewrite !app_nil_r in *|]. destruct Hp as [-> ->]. by rewrite !app_nil_r in *. }
    destruct (changes_ok cur st1 c1 c2 c (o ++ g) (n ++ g) d i p
      (Anchor.new (Fragment.timestamp (frag c)) (Fragment.insertion_offset (frag c)) Right buffer_id,
       Anchor.new (Fragment.timestamp (frag c)) (Fragment.insertion_offset (frag c) +w32 Fragment.len (frag c)) Left buffer_id) H1' (Hmove p eq_refl Hg))
      as (st2 & p' & d' & i' & g' & -> & H2 & Hp' & Hsome & Hnone). cbn [mbind option_bind].
    destruct (advanced_ok cur st2 c1 c2 c _ _ g' Hc H2) as (cur' & st3 & mid & rest & -> & -> & Em & H3). cbn [mbind option_bind].
    by exists cur', st3, p', g, d', i', (g' ++ new_text mid), mid, rest.
Qed.
(** *** One edit *)
Lemma next_edit_ok fuel : ∀ cur st (c1 c2 : list cell) o n (d i : str) g p, at_fragment cur st c1 c2 (o ++ d) (n ++ i) g → pending p o n d i → (length c2 < fuel)%nat →
  ∃ st' p', iterate step fuel (st, p) = Some (st', p') ∧
    match p' with
    | None => p = None ∧ old_text c2 = new_text c2
    | Some (e, _) => ∃ cur' (a d' i' m g' : str) (k1 k2 : list cell), (p ≠ None → a = []) ∧ (d' ≠ [] ∨ i' ≠ []) ∧
        e = mk_edit_in (pos D (o ++ a), pos D (o ++ a ++ d')) (pos D (n ++ a), pos D (n ++ a ++ i')) ∧
        at_fragment cur' st' k1 k2 (o ++ a ++ d' ++ m) (n ++ a ++ i' ++ m) g' ∧ (m ≠ [] ∨ k2 = []) ∧ (length k2 ≤ length c2)%nat ∧ (p = None → (length k2 < length c2)%nat)
    end.
Proof.
  induction fuel as [|fuel IH]; intros cur st c1 c2 o n d i g p Hat Hp Hf; [lia|]. cbn [iterate]. destruct c2 as [|c c2].
  - exists st, p. pose proof Hat as (Ecur & Hc & _). unfold edits_step at 1. rewrite Ecur, (Cursor.item_ok _ _ _ Hc). cbn [frags map head mbind option_bind]. split; [done|].
    destruct p as [[e r]|]; [|done]. destruct Hp as [-> Hp]. exists cur, [], d, i, [], g, c1, []. rewrite !app_nil_r. cbn. split_and!; try done. by right.
  - destruct (step_ok cur st c1 c2 c o n d i g p Hat Hp) as [(Hn & Hg & st' & -> & H')|(Hg & cur' & st' & p' & a & d' & i' & g' & mid & rest & -> & -> & -> & H' & Hp' & Hsome & Hnone & Em)]; cbn [mbind option_bind].
    + exists st', p. split; [done|]. destruct p as [[e r]|]; [|done]. destruct Hp as [-> Hp]. exists cur, [], d, i, g, [], c1, (c :: c2). rewrite !app_nil_r.
      cbn [app]. split_and!; try done. by left.
    + destruct (IH cur' st' _ rest _ _ d' i' g' p' H' Hp') as (st2 & p2 & E2 & H2). { cbn [length] in Hf. rewrite length_app in Hf. lia. }
      exists st2, p2. split; [done|]. destruct p2 as [[e r]|].
      * destruct H2 as (cur2 & b & d2 & i2 & m & g2 & k1 & k2 & Hb & Hne & -> & H2 & Hm & Hl & _). exists cur2, (g ++ b), d2, i2, m, g2, k1, k2.
        rewrite <- !app_assoc in *. split_and!; try done.
        { intros Hpn. by rewrite (Hg Hpn), (Hb (Hsome Hpn)). }
        all: cbn [length]; rewrite length_app; lia.
      * destruct H2 as [-> E]. split; [destruct p; [by destruct (Hsome ltac:(done))|done]|]. rewrite old_cons, new_cons, old_app, new_app, Em, E, (Hnone eq_refl). done.
Qed.
(** *** All of them *)
Lemma all_edits_ok fuel n0 : ∀ cur st (c1 c2 : list cell) o n g, at_fragment cur st c1 c2 o n g → (length c2 < fuel)%nat → (length c2 < n0)%nat →
  ∃ l hs, edits_collect (undo_map s) since range buffer_id fuel n0 st = Some l ∧ map fst l = hunk_edits o n hs ∧ hunks_ok hs ∧
    turns hs (g ++ old_text c2) (g ++ new_text c2) ∧ (c2 = [] → hs = []).
Proof.
  induction n0 as [|n0 IH]; intros cur st c1 c2 o n g Hat Hf Hn; [lia|]. cbn [edits_collect]. unfold edits_next.
  destruct (next_edit_ok fuel cur st c1 c2 o n [] [] g None) as (st' & p' & -> & H'); [by rewrite !app_nil_r|done|done|]. cbn [mbind option_bind].
  destruct p' as [[e r]|].
  - destruct H' as (cur' & a & d' & i' & m & g' & k1 & k2 & _ & Hne & -> & H' & Hm & _ & Hl). specialize (Hl eq_refl).
    destruct (IH cur' st' k1 k2 _ _ g' H' ltac:(lia) ltac:(lia)) as (l & hs & -> & El & Hok & Ht & Hnil). cbn [mbind option_bind].
    eexists _, (mk_hunk a d' i' :: longer m hs). split; [reflexivity|]. pose proof Hat as (_ & _ & Hp1). pose proof H' as (_ & _ & Hp2). split_and!.
    + cbn [map fst hunk_edits gap removed added]. f_equal. rewrite longer_edits, El, <- !app_assoc. done.
    + destruct (longer_ok m hs Hok) as [H1 H2]. split; [by constructor|]. cbn [tail]. destruct hs as [|h hs]; [by constructor|]. cbn in *. constructor; [|done]. cbn.
      intros [-> _]%app_eq_nil. destruct Hm as [?|Hm]; [done|]. by specialize (Hnil Hm).
    + destruct (longer_turns m hs _ _ Ht) as (t & E1 & E2). exists t. cbn [old_of new_of flat_map gap removed added]. fold (old_of (longer m hs)) (new_of (longer m hs)).
      pose proof (i_cells _ _ _ _ _ _ Hp1) as C1. pose proof (i_cells _ _ _ _ _ _ Hp2) as C2.
      split; rewrite <- app_assoc; [rewrite <- E1|rewrite <- E2].
      * apply (app_inv_head o). rewrite !app_assoc, <- (i_old_text _ _ _ _ _ _ Hp1), <- old_app, <- C1, C2, old_app, (i_old_text _ _ _ _ _ _ Hp2), <- !app_assoc. done.
      * apply (app_inv_head n). rewrite !app_assoc, <- (i_new_text _ _ _ _ _ _ Hp1), <- new_app, <- C1, C2, new_app, (i_new_text _ _ _ _ _ _ Hp2), <- !app_assoc. done.
    + intros ->. cbn in Hl. lia.
  - destruct H' as [_ E]. eexists _, []. split_and!; [reflexivity|done|by repeat constructor| |done]. exists (g ++ new_text c2). cbn. by rewrite E.
Qed.
End machine.

(** ** The edits of a snapshot *)
Section snapshots.
#[local] Existing Instances UndoMap.UndoMapKey_summary UndoMap.UndoMapEntry_item UndoMap.UndoMapEntry_laws UndoMap.UndoMapEntry_keyed.
Variables (debug : bool) (s : BufferSnapshot) (d : document) (cs : list cell) (since : Global.t).
Hypothesis Hp : presents s d cs.
Hypothesis Hroom : roomy s cs.
Hypothesis since_wf : Global.wf since.
Hypothesis Hshown : shown d.
Hypothesis Hknown : undos_known d.
Hypothesis Hstarts : starts_insertion (d_atoms d).
Abbreviation then_ es := (shown_then since es).
Lemma cell_atom c a : a ∈ atoms_of c →
  a_timestamp a = Fragment.timestamp (frag c) ∧ a_deletions a = Fragment.deletions (frag c) ∧ a_undos a = Fragment.max_undos (frag c) ∧ a_visible a = Fragment.visible (frag c).
Proof.
  pose (P := λ a, a_timestamp a = Fragment.timestamp (frag c) ∧ a_deletions a = Fragment.deletions (frag c) ∧ a_undos a = Fragment.max_undos (frag c) ∧ a_visible a = Fragment.visible (frag c)).
  revert a. apply (proj1 (Forall_forall P _)), atoms_from_forall. done.
Qed.
Lemma cell_shown es a c : es ≡ₚ d_entries d → a ∈ atoms_of c → then_ es c = shown_at since (d_entries d) a ∧ shown_now c = a_visible a.
Proof.
  intros He (E1 & E2 & _ & E3)%cell_atom. unfold shown_then, shown_at, shown_now. by rewrite (was_shown_perm since es (d_entries d)), E1, E2, E3.
Qed.
Lemma unchanged_ok es c : es ≡ₚ d_entries d → c ∈ cs → filter_node since (item_summary (frag c)) = false → then_ es c = shown_now c.
Proof.
  intros He Hc Hf. pose proof (p_snapshot _ _ _ Hp) as Hs. assert (cell_ok c) as Hok by by apply (proj1 (Forall_forall _ _) (s_cells _ _ Hs)).
  apply filter_node_item in Hf as (Q1 & Q2 & Q3); [|done|apply Hok]. destruct (atoms_of_head c Hok) as (a & l & Ea & _).
  assert (a ∈ atoms_of c) as Ha by (rewrite Ea; left). destruct (cell_shown es a c He Ha) as [-> ->].
  assert (a ∈ d_atoms d) as Had. { rewrite <- (p_atoms _ _ _ Hp). apply list_elem_of_In, in_flat_map. exists c. by rewrite <- !list_elem_of_In. }
  destruct (cell_atom c a Ha) as (E1 & E2 & E3 & _).
  apply quiet_shown; [done|done|done|done|by rewrite E1|by rewrite E2|by rewrite E3].
Qed.
Lemma old_text_at es : es ≡ₚ d_entries d → old_text since es cs = text_at since d.
Proof.
  intros He. unfold text_at. rewrite <- (p_atoms _ _ _ Hp). assert (∀ l : list cell, (∀ c, c ∈ l → c ∈ cs) → old_text since es l = map a_char (filter (λ a, shown_at since (d_entries d) a = true) (atoms l))) as H; [|by apply H].
  induction l as [|c l IH]; intros Hin; [done|]. cbn [atoms flat_map]. fold (atoms l). rewrite list.filter_app, map_app, <- IH by (intros x Hx; apply Hin; by right). cbn [old_text flat_map]. f_equal.
  destruct (then_ es c) eqn:E; cbn [pick].
  - rewrite Keyed.filter_all. { symmetry. unfold atoms_of. apply atoms_from_chars. } intros a Ha. by rewrite <- (proj1 (cell_shown es a c He Ha)).
  - assert (filter (λ a, shown_at since (d_entries d) a = true) (atoms_of c) = []) as ->; [|done]. apply Keyed.filter_none. intros a Ha. by rewrite <- (proj1 (cell_shown es a c He Ha)), E.
Qed.
Lemma range_starts_ok : range_starts s Locator.min 0 = Some (0, 0).
Proof.
  pose proof (p_snapshot _ _ _ Hp) as Hs. pose proof (s_fragments _ _ Hs) as Hrep. pose proof (cells_ok_frags _ (s_cells _ _ Hs)) as Hv. unfold range_starts.
  destruct cs as [|c cs'].
  - pose proof (SumTree.represents_empty _ _ Hrep) as He. destruct Hrep as [[h Hw] Hcont]. destruct (fragments s) as [? ? ? ?|sm its ss]; [by specialize (proj2 He eq_refl)|].
    destruct h; [|by destruct Hw]. cbn in Hcont. subst its. by destruct Hw as (_ & -> & ->).
  - destruct (find_nonempty (λ d0 : option Locator.t * FragmentTextSummary, option_compare (Some Locator.min) d0.1) Left (fragments s) (frags (c :: cs')) Hrep) as (start & end_ & r & Hf & ->); [exact Hv|done|].
    cbn [mbind option_bind].
    assert (∀ l k : list Fragment.t, frags (c :: cs') = l ++ k → l ≠ [] → TreeFind.passed (λ d0 : option Locator.t * FragmentTextSummary, option_compare (Some Locator.min) d0.1) Left l = false) as Hn.
    { intros l k El Hl. destruct l as [|f l _] using rev_ind; [done|]. unfold TreeFind.passed. rewrite dim_pair, dim_locator, last_snoc.
      assert (id_ok f) as (_ & _ & H1 & _). { apply (proj1 (Forall_forall _ _) (proj1 (s_ids _ _ Hs))). rewrite El. apply elem_of_app. left. apply elem_of_app. right. left. }
      change (skips (Locator.cmp Locator.min (Fragment.id f)) Left = false). by rewrite H1. }
    destruct Hf as [l1 f l2 (El & Hr & _)|[Hr|Hr]]; [|done|by rewrite (Hn _ []) in Hr by by rewrite ?app_nil_r].
    cbn in El, Hr. destruct l1 as [|f' l1]; [|destruct Hr as [Hr|Hr]; [done|]; by rewrite (Hn _ (f :: l2)) in Hr].
    injection El as <- _. cbn [snd fmap option_fmap option_map]. assert (Fragment.insertion_offset (frag c) = 0) as ->; [|by destruct (Fragment.visible (frag c))].
    pose proof Hstarts as H0. rewrite <- (p_atoms _ _ _ Hp) in H0. assert (cell_ok c) as Hok by (pose proof (s_cells _ _ Hs) as Hc; by apply Forall_cons in Hc as [? _]).
    destruct (atoms_of_head c Hok) as (a & l & Ea & Ho). cbn [atoms flat_map] in H0. rewrite Ea in H0. cbn in H0. unfold a_key, frag_key in Ho. congruence.
Qed.
Lemma filtered_start {E} `{!Dimension E FragmentSummary, !DimensionLaws E Fragment.t FragmentSummary} :
  ∃ (cur : Cursor.t Fragment.t FragmentSummary E) (c1 c2 : list cell), Cursor.search_forward (filter_node since) (Cursor.new (fragments s)) = Some cur ∧ cs = c1 ++ c2 ∧
    Cursor.rejected (T := Fragment.t) (filter_node since) (frags c1) ∧ Cursor.positioned cur (frags c1) (frags c2).
Proof.
  pose proof (p_snapshot _ _ _ Hp) as Hs. destruct (represents_fits (fragments s) (frags cs) (s_fragments _ _ Hs)) as (h & Hw & Hcont & Hh & Hv).
  { exact (cells_ok_frags _ (s_cells _ _ Hs)). } { apply Hroom. }
  destruct (Cursor.search_forward_idle (D := E) (filter_node since) (filter_node_ok since since_wf) (Cursor.exact_jumps _) (Cursor.new (fragments s)) (frags cs)) as (cur & fm & fr & E1 & Ef & Hrej & _ & Hc').
  { apply Cursor.fresh_idle. by eapply Cursor.new_fresh. }
  unfold frags in Ef. apply map_eq_app in Ef as (c1 & c2 & -> & <- & <-). by exists cur, c1, c2.
Qed.
Lemma edits_ok {D} `{TextPosition D, !Compare D} (sub : D → D → D) `{!RopePosition.TextKey (compare_positions (D := D)) sub} : sized (text_at since d) → since ≠ version s →
  ∃ es hs, anchored_edits_since (D := D) debug s since = Some es ∧ map fst es = hunk_edits [] [] hs ∧ hunks_ok hs ∧ turns hs (text_at since d) (text_of true (d_atoms d)).
Proof.
  intros Hsz Hne. pose proof (p_snapshot _ _ _ Hp) as Hs. destruct (p_entries _ _ _ Hp) as (es & Hfits & Hes). rewrite <- (old_text_at es Hes) in *. rewrite <- (p_atoms _ _ _ Hp).
  unfold anchored_edits_since, anchored_edits_since_in_range. rewrite bool_decide_eq_false_2 by done.
  destruct (filtered_start (E := FragmentTextSummary)) as (cur & c1 & c2 & -> & Ecs & Hrej & Hc). cbn [mbind option_bind fst snd].
  rewrite (id_min debug s (Anchor.min_for_buffer (remote_id s))) by done. cbn [mbind option_bind]. change (Anchor.offset (Anchor.min_for_buffer (remote_id s))) with 0. rewrite range_starts_ok. cbn [mbind option_bind].
  rewrite (id_max debug s (Anchor.max_for_buffer (remote_id s))) by done. cbn [mbind option_bind].
  destruct (holds_cursor _ _ (r_visible_text _ _ Hroom)) as (cv & -> & Hcv). cbn [mbind option_bind].
  destruct (holds_cursor _ _ (r_deleted_text _ _ Hroom)) as (cd & -> & Hcd). cbn [mbind option_bind].
  assert (∀ c, c ∈ cs → filter_node since (item_summary (frag c)) = false → shown_then since es c = shown_now c) as Hun by (intros c; by apply unchanged_ok).
  assert (old_text since es c1 = new_text c1) as E1.
  { apply (rejected_texts cs since es Hun); [|done]. intros c Hin. rewrite Ecs. apply elem_of_app. by left. }
  destruct (all_edits_ok (D := D) sub s cs since es Hs since_wf Hfits Hun Hsz 0 (Anchor.offset (Anchor.max_for_buffer (remote_id s))) (remote_id s)
    (S (length (SumTree.contents (fragments s)))) (S (length (SumTree.contents (fragments s)))) cur (mk_edits cv cd (Some cur) dzero dzero) c1 c2 [] [] (new_text c1)) as (l & hs & E & El & Hok & Ht & _).
  - split; [done|]. split; [done|]. split; cbn; rewrite ?app_nil_l; try done; try apply pos_nil.
    + rewrite <- new_app, <- Ecs. exact Hcv.
    + exists [], (text_of false (atoms c1)). split; [done|]. by rewrite <- text_of_app, <- atoms_app, <- Ecs.
  - destruct (s_fragments _ _ Hs) as [_ ->]. rewrite Ecs, frags_app, length_app. unfold frags. rewrite !length_map. lia.
  - destruct (s_fragments _ _ Hs) as [_ ->]. rewrite Ecs, frags_app, length_app. unfold frags. rewrite !length_map. lia.
  - exists l, hs. split; [exact E|]. split_and!; [done|done|]. rewrite Ecs, old_app, atoms_app, text_of_app. fold (new_text c1) (new_text c2). by rewrite E1.
Qed.
(** *** Whether there are any *)
Lemma changed_loop es : Keyed.fits (undo_map s) es → es ≡ₚ d_entries d → ∀ fuel cur (c1 c2 : list cell), cs = c1 ++ c2 → Cursor.positioned (D := Z) cur (frags c1) (frags c2) → (length c2 < fuel)%nat →
  iterate (has_edits_step s since (visibility_changed s since) (λ _, false)) fuel cur = Some (existsb (λ c, negb (Bool.eqb (then_ es c) (shown_now c))) c2).
Proof.
  intros Hfits Hes. induction fuel as [|fuel IH]; intros cur c1 c2 Ecs Hc Hf; [lia|]. cbn [iterate]. unfold has_edits_step at 1. rewrite (Cursor.item_ok _ _ _ Hc).
  destruct c2 as [|c c2]; [done|]. cbn [frags map head mbind option_bind existsb]. pose proof (p_snapshot _ _ _ Hp) as Hs.
  assert (visibility_changed s since (frag c) = Some (negb (Bool.eqb (then_ es c) (shown_now c)))) as ->.
  { unfold visibility_changed. rewrite (was_visible_ok since (undo_map s) es Hfits); [done|]. apply c_fragment. apply (proj1 (Forall_forall _ _) (s_cells _ _ Hs)). rewrite Ecs. apply elem_of_app. right. left. }
  cbn [mbind option_bind]. destruct (negb (Bool.eqb (then_ es c) (shown_now c))); [done|].
  destruct (Cursor.search_forward_ok _ (filter_node_ok since since_wf) (Cursor.exact_jumps _) cur _ _ Hc) as (cur' & fm & fr & -> & Ef & Hrej & _ & Hc').
  fold (frags c2) in Ef. unfold frags in Ef. apply map_eq_app in Ef as (mid & rest & -> & <- & <-). fold (frags mid) (frags rest) in *. cbn [mbind option_bind orb].
  rewrite (IH cur' (c1 ++ [c] ++ mid) rest); [|by rewrite Ecs, <- !app_assoc|by rewrite !frags_app|cbn [length] in Hf; rewrite length_app in Hf; lia].
  rewrite existsb_app. assert (existsb (λ c, negb (Bool.eqb (then_ es c) (shown_now c))) mid = false) as ->; [|done].
  apply not_true_is_false. intros (x & Hx & Hn)%existsb_exists. rewrite (unchanged_ok es x Hes), Bool.eqb_reflx in Hn; [done| |].
  - rewrite Ecs. apply elem_of_app. right. right. apply elem_of_app. left. by apply list_elem_of_In.
  - apply (proj1 (Forall_forall _ _) Hrej). apply list_elem_of_fmap_2. by apply list_elem_of_In.
Qed.
Lemma has_edits_ok : since ≠ version s → ∃ b, has_edits_since s since = Some b ∧ (b = true ↔ ∃ a, a ∈ d_atoms d ∧ shown_at since (d_entries d) a ≠ a_visible a).
Proof.
  intros Hne. pose proof (p_snapshot _ _ _ Hp) as Hs. destruct (p_entries _ _ _ Hp) as (es & Hfits & Hes). unfold has_edits_since. rewrite bool_decide_eq_false_2 by done.
  destruct (filtered_start (E := Z)) as (cur & c1 & c2 & -> & Ecs & Hrej & Hc). cbn [mbind option_bind].
  rewrite (changed_loop es Hfits Hes _ cur c1 c2 Ecs Hc).
  2: { destruct (s_fragments _ _ Hs) as [_ ->]. rewrite Ecs, frags_app, length_app. unfold frags. rewrite !length_map. lia. }
  eexists. split; [reflexivity|]. rewrite <- (p_atoms _ _ _ Hp), existsb_exists. split.
  - intros (c & Hc2%list_elem_of_In & Hn%negb_true_iff%Bool.eqb_false_iff). assert (c ∈ cs) as Hin by (rewrite Ecs; apply elem_of_app; by right).
    assert (cell_ok c) as Hok by by apply (proj1 (Forall_forall _ _) (s_cells _ _ Hs)). destruct (atoms_of_head c Hok) as (a & l & Ea & _).
    assert (a ∈ atoms_of c) as Ha by (rewrite Ea; left). exists a. split; [apply list_elem_of_In, in_flat_map; exists c; by rewrite <- !list_elem_of_In|].
    destruct (cell_shown es a c Hes Ha) as [E1 E2]. congruence.
  - intros (a & (c & Hin%list_elem_of_In & Ha%list_elem_of_In)%list_elem_of_In%in_flat_map & Hn). destruct (cell_shown es a c Hes Ha) as [E1 E2]. exists c. rewrite E1, E2.
    split; [|by apply negb_true_iff, Bool.eqb_false_iff]. apply list_elem_of_In. rewrite Ecs in Hin. apply elem_of_app in Hin as [Hin|Hin]; [|done]. destruct Hn. rewrite <- E1, <- E2.
    apply unchanged_ok; [done|rewrite Ecs; apply elem_of_app; by left|]. apply (proj1 (Forall_forall _ _) Hrej). by apply list_elem_of_fmap_2.
Qed.
End snapshots.

(** ** What operations do to the text of a version *)
Lemma applied_filtered p skip (mark : atom → atom) ts es (P : atom → bool) :
  (∀ a, a_timestamp a = ts → P a = false) → (∀ a, P (mark a) = P a ∧ a_char (mark a) = a_char a) → ∀ n off (l : list atom),
  map a_char (filter (λ a, P a = true) (apply_edits p skip mark ts n off es l)) = map a_char (filter (λ a, P a = true) l).
Proof.
  intros Hnew Hm. induction es as [|[[start stop] u] es IH]; intros n off l; [done|]. cbn [apply_edits].
  pose proof (take_measured_app p (start - n) l) as E1. destruct (take_measured p (start - n) l) as [x l1].
  pose proof (span_whole skip l1) as E2. destruct (span skip l1) as [k l2].
  pose proof (take_measured_app p (stop - start) l2) as E3. destruct (take_measured p (stop - start) l2) as [e l3]. cbn [fst snd] in *. subst l l1 l2.
  rewrite !list.filter_app, !map_app, IH. do 2 f_equal. rewrite Keyed.filter_none; cbn [map app]; [f_equal|].
  - induction e as [|a e IHe]; [done|]. cbn [map]. destruct (Hm a) as [E1 E2]. rewrite !filter_cons, E1. case_decide; cbn [map]; by rewrite ?E2, IHe.
  - intros a Ha. rewrite Hnew; [done|]. apply (proj1 (Forall_forall _ _) (proj2 (from_in_order _ _ _))) in Ha as [-> _]. done.
Qed.
Lemma change_text_at v (x : change) d : Global.observed v (c_timestamp x) = false → text_at v (change_document x d) = text_at v d.
Proof.
  intros Hv. unfold text_at, shown_at. destruct x as [o|u]; cbn [change_document d_atoms d_entries c_timestamp] in *.
  - apply (applied_filtered _ _ _ _ _ (λ a, was_shown v (d_entries d) (a_timestamp a) (a_deletions a))).
    + intros a ->. unfold was_shown. by rewrite Hv.
    + intros a. unfold mark_seen. destruct (was_shown (o_version o) _ _ _); [|done]. split; [|done]. unfold was_shown, kill. cbn. rewrite forallb_app. cbn. by rewrite Hv, !andb_true_r.
  - induction (d_atoms d) as [|a l IH]; [done|]. cbn [map].
    destruct (redo_atom_facts (UndoMap.entries u ++ d_entries d) (timestamp u) (undo_ids u) a) as (_ & Ec & Ed & Et & _).
    rewrite !filter_cons, Ed, Et, was_shown_other by done. case_decide; cbn [map]; by rewrite ?IH, ?Ec.
Qed.
Lemma run_text_at v (A : list change) d : (∀ x, x ∈ A → Global.observed v (c_timestamp x) = false) → text_at v (run_all (O := change) A d) = text_at v d.
Proof.
  revert d. induction A as [|x A IH]; intros d H; [done|]. change (run_all (O := change) (x :: A) d) with (run_all (O := change) A (change_document x d)).
  rewrite IH by (intros y Hy; apply H; by right). apply change_text_at, H. left.
Qed.
Lemma agree_text_at v d d' : documents_agree d d' → text_at v d = text_at v d'.
Proof.
  intros [Ha He]. unfold text_at, shown_at. induction Ha as [|a b l k (Ek & Ec & _ & _ & Hd) _ IH]; [done|]. rewrite !filter_cons.
  assert (was_shown v (d_entries d) (a_timestamp a) (a_deletions a) = was_shown v (d_entries d') (a_timestamp b) (a_deletions b)) as ->.
  { rewrite (was_shown_perm v _ _ _ _ He). injection Ek as -> _. unfold was_shown. f_equal. by apply forallb_perm. }
  case_decide; cbn [map]; by rewrite ?Ec, IH.
Qed.
(** To a version that has observed everything, the text is what is visible. *)
Lemma seen_text_at v d : seen_all v d → shown d → text_at v d = text_of true (d_atoms d).
Proof.
  intros H1 H2. unfold text_at, text_of, shown_at. f_equal. assert (∀ l : list atom, (∀ a, a ∈ l → a ∈ d_atoms d) →
    filter (λ a, was_shown v (d_entries d) (a_timestamp a) (a_deletions a) = true) l = filter (λ a, a_visible a = true) l) as H; [|by apply H].
  induction l as [|a l IH]; intros Hin; [done|]. rewrite !filter_cons, IH by (intros b Hb; apply Hin; by right). by rewrite (seen_shown v d a H1 H2 (Hin a ltac:(left))).
Qed.

(** ** What the edits since a version are *)
Lemma edits_since_runs {D} `{TextPosition D, !Compare D} sub `{!RopePosition.TextKey (compare_positions (D := D)) sub} debug s d cs since :
  presents s d cs → low_trees s = true → Global.wf since → shown d → undos_known d → starts_insertion (d_atoms d) →
  (since = version s → seen_all since d) → sized (text_at since d) →
  (∃ hs t, edits_since (D := D) debug s since = Some (hunk_edits [] [] hs) ∧ hunks_ok hs ∧
    text_at since d = old_of hs ++ t ∧ text_of true (d_atoms d) = new_of hs ++ t) ∧
  ∃ b, has_edits_since s since = Some b ∧ (b = true ↔ ∃ a, a ∈ d_atoms d ∧ shown_at since (d_entries d) a ≠ a_visible a).
Proof.
  intros Hp Hl Hwf Hsh Hk Hst Hown Hsz. pose proof (low_roomy s cs (p_snapshot _ _ _ Hp) Hl) as Hr. destruct (decide (since = version s)) as [E|Hne].
  - specialize (Hown E). unfold edits_since, edits_since_in_range, anchored_edits_since_in_range, has_edits_since. rewrite !bool_decide_eq_true_2 by done. split.
    + exists [], (text_of true (d_atoms d)). rewrite (seen_text_at since d Hown Hsh). by repeat constructor.
    + exists false. split; [done|]. split; [done|]. intros (a & Ha & []). by apply (seen_shown since d a).
  - split; [|by apply (has_edits_ok s d cs since)]. destruct (edits_ok debug s d cs since Hp Hr Hwf Hsh Hk Hst sub Hsz Hne) as (es & hs & E & Em & Hok & t & Eo & En).
    exists hs, t. split_and!; [|done..]. unfold edits_since, edits_since_in_range. unfold anchored_edits_since in E. rewrite E. cbn [mbind option_bind]. by rewrite Em.
Qed.
(** C13: Diffs between versions. In a snapshot that presents a document and whose
    trees fit the stack of a cursor, take a version at which the text was not too
    long (and which, if it is the snapshot's own, has observed the document). Of the
    document, what holds of all that networks reach: a character is visible as its
    deletions and the undo counts say ([shown]), knows the undo operations that
    touched it ([undos_known]), and the first one starts an insertion
    ([starts_insertion]).
    [edits_since] does not panic, in any unit of positions, and yields the
    positions of hunks that turn the text of the version into the text that is
    visible: in order, each removing or adding something, with something that stays
    between any two. [has_edits_since] says whether a character (deleted ones
    included) is visible now and was not at the version, or the other way round. *)
Theorem edits_since_correct {D} `{TextPosition D, !Compare D} sub `{!RopePosition.TextKey (compare_positions (D := D)) sub} debug s d cs since :
  presents s d cs → low_trees s = true → Global.wf since → shown d → undos_known d → starts_insertion (d_atoms d) →
  (since = version s → seen_all since d) → sized (text_at since d) →
  (∃ hs t, edits_since (D := D) debug s since = Some (hunk_edits [] [] hs) ∧ hunks_ok hs ∧
    text_at since d = old_of hs ++ t ∧ text_of true (d_atoms d) = new_of hs ++ t) ∧
  ∃ b, has_edits_since s since = Some b ∧ (b = true ↔ ∃ a, a ∈ d_atoms d ∧ shown_at since (d_entries d) a ≠ a_visible a).
Proof. apply (edits_since_runs sub). Qed.
Section networks.
Context {S : Type} `{!ToOffset S}.
Variable replace_all : list Z → option (list Z).
Variables (d : document) (v : Global.t).
Hypothesis F : first_document d v.
(** C7: Diffs between replicas. In every network that can be reached (from a document
    in which nothing is undone that its characters do not know of, and which begins
    with the start of an insertion), take a replica that has observed all the
    operations that another one has, and whose trees fit the stack of a cursor. Its
    [edits_since] the version of the other replica does not panic, and yields hunks
    that turn the text that the other replica shows into the text that it shows. (No
    replica has the id [LOCAL] if the first document has no base text.) *)
Theorem network_edits {D} `{TextPosition D, !Compare D} sub `{!RopePosition.TextKey (compare_positions (D := D)) sub} N debug i j h b h' b' :
  undos_known d → starts_insertion (d_atoms d) → reachable (S := S) replace_all d v N →
  replicas N !! i = Some (h, b) → replicas N !! j = Some (h', b') → low_trees (snapshot b') = true →
  (∀ op, op ∈ sent N → Global.observed (version (snapshot b)) (op_timestamp op) = true → Global.observed (version (snapshot b')) (op_timestamp op) = true) →
  ∃ cs cs' hs t, snapshot_of (snapshot b) cs ∧ snapshot_of (snapshot b') cs' ∧
    edits_since (D := D) debug (snapshot b') (version (snapshot b)) = Some (hunk_edits [] [] hs) ∧ hunks_ok hs ∧
    text_of true (atoms cs) = old_of hs ++ t ∧ text_of true (atoms cs') = new_of hs ++ t.
Proof.
  intros Hk Hst (log & [Hs L Hrep _ _])%network_reachable_inv Hi Hj Hl Hsub; [|done].
  destruct (Hrep i h b Hi) as (A & Q & Hr & _), (Hrep j h' b' Hj) as (A' & Q' & Hr' & _).
  pose proof (r_applied _ _ _ _ _ _ (p_receives _ _ _ _ _ _ Hr)) as HA. pose proof (r_applied _ _ _ _ _ _ (p_receives _ _ _ _ _ _ Hr')) as HA'.
  destruct (more_run d v log b b' A A' L HA HA') as (rest & Hag & Hready & Hrest).
  { intros x Hx. assert (x ∈ log) as Hxl by by apply HA. apply (h_version _ _ _ _ _ HA' x Hxl). rewrite <- operation_timestamp. apply Hsub.
    - rewrite Hs. by apply list_elem_of_fmap_2.
    - rewrite operation_timestamp. by apply (h_version _ _ _ _ _ HA x Hxl). }
  destruct (h_presents _ _ _ _ _ HA) as [cs Hcs], (h_presents _ _ _ _ _ HA') as [cs' Hcs']. 
  destruct (applied_document _ _ _ _ _ L F HA) as (Hseen & Hsh & _), (applied_document _ _ _ _ _ L F HA') as (Hseen' & Hsh' & _).
  assert (text_at (version (snapshot b)) (result A' d) = text_of true (atoms cs)) as Et.
  { rewrite (agree_text_at _ _ _ Hag), run_text_at by (intros x Hx; by apply Hrest). by rewrite (seen_text_at _ _ Hseen Hsh), (p_atoms _ _ _ Hcs). }
  assert (Forall change_ok A') as Hok.
  { apply Forall_forall. intros x Hx. eapply log_change; [exact L|]. by apply HA'. }
  destruct (edits_since_runs sub debug (snapshot b') _ cs' (version (snapshot b)) Hcs' Hl) as ((hs & t & E & Hh & Eo & En) & _).
  - apply Hcs.
  - done.
  - by apply run_undos_known.
  - by apply run_starts.
  - by intros ->.
  - rewrite Et. destruct (s_visible _ _ (p_snapshot _ _ _ Hcs)) as (w & Hw). by apply Rope.holds_text in Hw as [_ Hw].
  - exists cs, cs', hs, t. rewrite Et in Eo. rewrite <- (p_atoms _ _ _ Hcs') in En. split_and!; [apply Hcs|apply Hcs'|done..].
Qed.
End networks.

(** ** Offsets at a version *)
(** The offset in the old text: in what stays, it is that of the same place; in an
    addition, it counts in what was removed there. *)
Fixpoint old_offset hs (k : Z) : Z :=
  match hs with
  | [] => k
  | h :: hs =>
      if k <? str_len (gap h) then k
      else if k <? str_len (gap h ++ added h) then str_len (gap h) + Z.min (k - str_len (gap h)) (str_len (removed h))
      else str_len (gap h ++ removed h) + old_offset hs (k - str_len (gap h ++ added h))
  end.
(** Offsets before the same character that stays, or at the end. *)
Inductive kept hs (t : str) : str → str → Prop :=
  | kept_gap hs1 h hs2 g g' : hs = hs1 ++ h :: hs2 → gap h = g ++ g' → g' ≠ [] → kept hs t (old_of hs1 ++ g) (new_of hs1 ++ g)
  | kept_rest g g' : t = g ++ g' → kept hs t (old_of hs ++ g) (new_of hs ++ g).
Lemma old_of_cons h hs : old_of (h :: hs) = (gap h ++ removed h) ++ old_of hs.
Proof. done. Qed.
Lemma new_of_cons h hs : new_of (h :: hs) = (gap h ++ added h) ++ new_of hs.
Proof. done. Qed.
Lemma old_of_app hs1 hs2 : old_of (hs1 ++ hs2) = old_of hs1 ++ old_of hs2.
Proof. apply flat_map_app. Qed.
Lemma old_offset_app hs1 hs2 k : 0 ≤ k → old_offset (hs1 ++ hs2) (str_len (new_of hs1) + k) = str_len (old_of hs1) + old_offset hs2 k.
Proof.
  revert k. induction hs1 as [|h hs1 IH]; intros k Hk; [done|]. cbn [app old_offset]. rewrite new_of_cons, old_of_cons, (str_len_app (gap h ++ added h)), (str_len_app (gap h ++ removed h)).
  pose proof (str_len_nonneg (new_of hs1)). rewrite (str_len_app _ (added h)). pose proof (str_len_nonneg (added h)).
  rewrite !(proj2 (Z.ltb_ge _ _)) by lia. replace (_ + k - _) with (str_len (new_of hs1) + k) by lia. rewrite IH by done. lia.
Qed.
Lemma kept_offset hs (t o n : str) : kept hs t o n → old_offset hs (str_len n) = str_len o.
Proof.
  destruct 1 as [hs1 h hs2 g g' -> Eg Hg|g g' Et]; rewrite !str_len_app; pose proof (str_len_nonneg g).
  - rewrite old_offset_app by done. cbn [old_offset]. rewrite Eg, str_len_app. pose proof (RopePosition.str_len_pos g' Hg). by rewrite (proj2 (Z.ltb_lt _ _)) by lia.
  - rewrite <- (app_nil_r hs) at 1. by rewrite old_offset_app.
Qed.
Lemma old_offset_bounds hs (k : Z) : 0 ≤ k → 0 ≤ old_offset hs k ∧ old_offset hs k + str_len (new_of hs) ≤ str_len (old_of hs) + Z.max k (str_len (new_of hs)).
Proof.
  revert k. induction hs as [|h hs IH]; intros k Hk; cbn [old_offset]; [cbn; lia|]. rewrite new_of_cons, old_of_cons, !str_len_app.
  pose proof (str_len_nonneg (gap h)). pose proof (str_len_nonneg (added h)). pose proof (str_len_nonneg (removed h)). pose proof (str_len_nonneg (old_of hs)). pose proof (str_len_nonneg (new_of hs)).
  destruct (Z.ltb_spec k (str_len (gap h))); [lia|]. destruct (Z.ltb_spec k (str_len (gap h) + str_len (added h))); [lia|].
  specialize (IH (k - (str_len (gap h) + str_len (added h))) ltac:(lia)). lia.
Qed.
Lemma old_offset_mono hs (k k' : Z) : 0 ≤ k ≤ k' → old_offset hs k ≤ old_offset hs k'.
Proof.
  revert k k'. induction hs as [|h hs IH]; intros k k' Hk; cbn [old_offset]; [lia|]. rewrite !str_len_app.
  pose proof (str_len_nonneg (gap h)). pose proof (str_len_nonneg (added h)). pose proof (str_len_nonneg (removed h)).
  destruct (Z.ltb_spec k (str_len (gap h))), (Z.ltb_spec k' (str_len (gap h))); try lia.
  all: destruct (Z.ltb_spec k' (str_len (gap h) + str_len (added h))); try lia.
  - pose proof (old_offset_bounds hs (k' - (str_len (gap h) + str_len (added h))) ltac:(lia)). lia.
  - destruct (Z.ltb_spec k (str_len (gap h) + str_len (added h))); lia.
  - destruct (Z.ltb_spec k (str_len (gap h) + str_len (added h))).
    + pose proof (old_offset_bounds hs (k' - (str_len (gap h) + str_len (added h))) ltac:(lia)). lia.
    + apply Zplus_le_compat_l, IH. lia.
Qed.
(** *** The loop *)
Lemma offset_ok hs : ∀ (o n : str) k, str_len n ≤ k → str_len (o ++ old_of hs) + k < 2 ^ 64 →
  ∃ hs1 hs2, hs = hs1 ++ hs2 ∧ str_len (n ++ new_of hs1) ≤ k ∧
    offset_to_version (hunk_edits o n hs) (str_len o) (str_len n) k =
      (str_len o + old_offset hs (k - str_len n), (hunk_edits (o ++ old_of hs1) (n ++ new_of hs1) hs2, str_len (o ++ old_of hs1), str_len (n ++ new_of hs1))).
Proof.
  assert (∀ a, 0 ≤ a < 2 ^ 64 → wrap64 a = a) as Hw by (intros a; apply Z.mod_small).
  induction hs as [|h hs IH]; intros o n k Hk Hb; cbn [hunk_edits offset_to_version old_offset].
  - exists [], []. cbn in Hb |- *. rewrite !app_nil_r in *. split_and!; [done|done|]. unfold saturating_sub. pose proof (str_len_nonneg o). pose proof (str_len_nonneg n). f_equal. rewrite Z.max_r, Hw by lia. lia.
  - change (pos Z) with str_len. cbn [Diff.new Diff.old fst snd]. rewrite old_of_cons, !str_len_app in Hb.
    pose proof (str_len_nonneg o). pose proof (str_len_nonneg n). pose proof (str_len_nonneg (gap h)). pose proof (str_len_nonneg (added h)). pose proof (str_len_nonneg (removed h)). pose proof (str_len_nonneg (old_of hs)).
    pose proof (str_len_app n (gap h)) as E1. pose proof (str_len_app o (gap h)) as E2. pose proof (str_len_app (gap h) (added h)) as E3. pose proof (str_len_app (gap h) (removed h)) as E4.
    pose proof (str_len_app n (gap h ++ added h)) as E5. pose proof (str_len_app o (gap h ++ removed h)) as E6.
    destruct (Z.ltb_spec k (str_len (n ++ gap h))) as [L1|L1].
    + exists [], (h :: hs). cbn [old_of new_of flat_map app]. rewrite !app_nil_r. split_and!; [done|done|]. rewrite (proj2 (Z.ltb_lt _ _)) by lia.
      unfold saturating_sub. rewrite Z.max_r, Hw by lia. done.
    + rewrite (proj2 (Z.ltb_ge (k - str_len n) _)) by lia. destruct (Z.leb_spec (str_len (n ++ gap h ++ added h)) k) as [L2|L2].
      * rewrite (proj2 (Z.ltb_ge (k - str_len n) _)) by lia.
        destruct (IH (o ++ gap h ++ removed h) (n ++ gap h ++ added h) k) as (hs1 & hs2 & -> & Hle & ->); [done|rewrite str_len_app; lia|].
        exists (h :: hs1), hs2. rewrite old_of_cons, new_of_cons, !(app_assoc _ _ (old_of hs1)), !(app_assoc _ _ (new_of hs1)). split_and!; [done|done|]. f_equal.
        rewrite E6, E4. replace (k - str_len (n ++ gap h ++ added h)) with (k - str_len n - str_len (gap h ++ added h)) by lia. lia.
      * exists [], (h :: hs). cbn [old_of new_of flat_map app]. rewrite !app_nil_r. split_and!; [done|done|]. rewrite (proj2 (Z.ltb_lt (k - str_len n) _)) by lia.
        unfold wrap64. rewrite (Z.mod_small (k - _)), Z.mod_small by lia. f_equal. lia.
Qed.
Lemma offsets_ok offsets : ∀ hs (o n : str) b, StronglySorted Z.le offsets → Forall (λ k, str_len n ≤ k ≤ b) offsets → str_len (o ++ old_of hs) + b < 2 ^ 64 →
  offsets_from (hunk_edits o n hs) (str_len o) (str_len n) offsets = map (λ k, str_len o + old_offset hs (k - str_len n)) offsets.
Proof.
  induction offsets as [|k offsets IH]; intros hs o n b Hso Hbd Hb; [done|]. cbn [offsets_from map]. apply StronglySorted_inv in Hso as [Hso Hk]. apply Forall_cons in Hbd as [Hk0 Hbd].
  destruct (offset_ok hs o n k) as (hs1 & hs2 & -> & Hle & ->); [lia|lia|]. f_equal. rewrite (IH hs2 _ _ b); [|done| |by rewrite <- app_assoc, <- old_of_app].
  - apply map_ext_in. intros k' Hk'%list_elem_of_In. assert (k ≤ k') by by apply (proj1 (Forall_forall _ _) Hk). rewrite !str_len_app in *.
    pose proof (old_offset_app hs1 hs2 (k' - (str_len n + str_len (new_of hs1))) ltac:(lia)) as E. replace (str_len (new_of hs1) + _) with (k' - str_len n) in E by lia. lia.
  - rewrite Forall_forall in Hk, Hbd |- *. intros k' Hk'. specialize (Hk k' Hk'). specialize (Hbd k' Hk'). lia.
Qed.
(** C18: Offsets at a version. As for the edits since a version (of a document that is
    [shown], [undos_known] and [starts_insertion], as those of networks are, and at
    a version that, if it is the snapshot's own, has observed it): let them be the
    hunks [hs], between which and after which the text [t] stays. [offsets_to_version] of
    offsets in the text in ascending order does not panic and gives, one for one,
    offsets in the text of the version in ascending order, [range_to_version] those
    of the ends of a range. The offset before a character that was there at the
    version, or of the end, goes to the offset before that character, or of the end. *)
Theorem offsets_to_version_correct debug s d cs since offsets : presents s d cs → low_trees s = true → Global.wf since → shown d → undos_known d → starts_insertion (d_atoms d) →
  (since = version s → seen_all since d) → sized (text_at since d) → StronglySorted Z.le offsets → Forall (λ k, 0 ≤ k ≤ str_len (text_of true (d_atoms d))) offsets →
  ∃ hs t, text_at since d = old_of hs ++ t ∧ text_of true (d_atoms d) = new_of hs ++ t ∧ hunks_ok hs ∧
    offsets_to_version debug s offsets since = Some (map (old_offset hs) offsets) ∧
    Forall (λ k, 0 ≤ k ≤ str_len (text_at since d)) (map (old_offset hs) offsets) ∧ StronglySorted Z.le (map (old_offset hs) offsets) ∧
    (∀ start end_, 0 ≤ start ≤ end_ → end_ ≤ str_len (text_of true (d_atoms d)) → range_to_version debug s (start, end_) since = Some (old_offset hs start, old_offset hs end_)) ∧
    ∀ o n, kept hs t o n → old_offset hs (str_len n) = str_len o.
Proof.
  intros Hp Hl Hwf Hsh Hk Hst Hown Hsz Hso Hbd.
  destruct (edits_since_runs (D := Z) (λ a b, a -w64 b) debug s d cs since Hp Hl Hwf Hsh Hk Hst Hown Hsz) as ((hs & t & E & Hh & Eo & En) & _).
  assert (sized (text_of true (d_atoms d))) as Hsz'.
  { rewrite <- (p_atoms _ _ _ Hp). destruct (s_visible _ _ (p_snapshot _ _ _ Hp)) as (w & Hw). by apply Rope.holds_text in Hw as [_ Hw]. }
  assert (∀ l, StronglySorted Z.le l → Forall (λ k, 0 ≤ k ≤ str_len (text_of true (d_atoms d))) l → offsets_to_version debug s l since = Some (map (old_offset hs) l)) as Hmap.
  { intros l Hl1 Hl2. unfold offsets_to_version. rewrite E. cbn [mbind option_bind]. f_equal.
    etransitivity; [apply (offsets_ok l hs [] [] (str_len (text_of true (d_atoms d))) Hl1 Hl2)|].
    - cbn [app]. rewrite Eo in Hsz. unfold sized in *. rewrite str_len_app in Hsz. pose proof (str_len_nonneg t). lia.
    - apply map_ext. intros k. change (str_len []) with 0. rewrite Z.sub_0_r. lia. }
  exists hs, t. split_and!; [done..|by apply Hmap| | | |].
  - apply Forall_map. eapply Forall_impl; [exact Hbd|]. cbn. intros k Hk0. pose proof (old_offset_bounds hs k ltac:(lia)). rewrite Eo, En, !str_len_app in *. pose proof (str_len_nonneg t). lia.
  - clear -Hso Hbd. induction Hso as [|k l _ IH Hle]; [constructor|]. apply Forall_cons in Hbd as [Hk0 Hbd]. cbn. constructor; [by apply IH|].
    apply Forall_map. rewrite Forall_forall in Hle, Hbd |- *. intros k' Hk'. apply old_offset_mono. specialize (Hle k' Hk'). lia.
  - intros start end_ H1 H2. unfold range_to_version. cbn [fst snd]. rewrite Hmap; [done| |repeat constructor; lia]. repeat constructor. lia.
  - intros o n. apply kept_offset.
Qed.

(** ** Concrete buffers *)
#[local] Instance sample_offset : ToOffset Z := to_offset_usize true.
Lemma base_undos_known (t : str) : undos_known (base_document t).
Proof.
  split; [|by intros a e _ ?%elem_of_nil]. cbn. rewrite base_atoms. apply atoms_from_forall. intros o x. apply Global.wf_new.
Qed.
(** At the version that has seen nothing there was no text. *)
Lemma sample_since : ∃ b, sample_buffer 1 = Some b ∧ presents (snapshot b) (base_document [97; 98; 99]) (base_cells [97; 98; 99]) ∧ low_trees (snapshot b) = true ∧
  (Global.new = version (snapshot b) → seen_all Global.new (base_document [97; 98; 99])).
Proof.
  destruct (sample_start 1) as (b & E & Hp & _). exists b. split_and!; [exact E|exact Hp| |].
  - assert (match sample_buffer 1 with Some b => low_trees (snapshot b) | None => false end = true) as Hl by by vm_compute. by rewrite E in Hl.
  - intros Hv. assert (match sample_buffer 1 with Some b => bool_decide (Global.new ≠ version (snapshot b)) | None => false end = true) as Hn by by vm_compute.
    rewrite E in Hn. apply bool_decide_eq_true in Hn. by destruct (Hn Hv).
Qed.
Lemma edits_since_correct_witness : ∃ b hs t, sample_buffer 1 = Some b ∧ edits_since (D := Point.t) true (snapshot b) Global.new = Some (hunk_edits [] [] hs) ∧
  [97; 98; 99] = new_of hs ++ t ∧ [] = old_of hs ++ t ∧ has_edits_since (snapshot b) Global.new = Some true.
Proof.
  destruct sample_since as (b & E & Hp & Hl & Hown).
  destruct (edits_since_correct (D := Point.t) Point.sub true (snapshot b) _ _ Global.new Hp Hl Global.wf_new (f_shown _ _ sample_first_document) (base_undos_known _) eq_refl Hown ltac:(by vm_compute))
    as [(hs & t & E1 & _ & Eo & En) (x & E2 & Hx)].
  exists b, hs, t. assert (x = true) as ->.
  { apply Hx. destruct (d_atoms (base_document [97; 98; 99])) as [|a l] eqn:Ea; [discriminate|]. exists a. split; [left|]. vm_compute in Ea. injection Ea as <- _. by vm_compute. }
  exact (conj E (conj E1 (conj En (conj Eo E2)))).
Defined.
Lemma offsets_to_version_correct_witness : ∃ b hs, sample_buffer 1 = Some b ∧ offsets_to_version true (snapshot b) [1; 3] Global.new = Some (map (old_offset hs) [1; 3]).
Proof.
  destruct sample_since as (b & E & Hp & Hl & Hown).
  destruct (offsets_to_version_correct true (snapshot b) _ _ Global.new [1; 3] Hp Hl Global.wf_new (f_shown _ _ sample_first_document) (base_undos_known _) eq_refl Hown ltac:(by vm_compute))
    as (hs & t & _ & _ & _ & E1 & _).
  - repeat constructor. lia.
  - change (str_len (text_of true (d_atoms (base_document [97; 98; 99])))) with 3. repeat constructor; lia.
  - exists b, hs. exact (conj E E1).
Defined.
(** The second replica has received what the first has. *)
Definition received_there (N : network) (h : Topic.heap) (b : Buffer) (h' : Topic.heap) (b' : Buffer) : bool :=
  forallb (λ op, negb (Global.observed (version (snapshot b)) (op_timestamp op)) || Global.observed (version (snapshot b')) (op_timestamp op)) (sent N) &&
  low_trees (snapshot b') && match edits_since (D := Z) true (snapshot b') (version (snapshot b)) with Some [edit] => (old edit).2 =? 0 | _ => false end.
Lemma network_edits_witness : ∃ N h b h' b' hs, sample_reachable N ∧ replicas N !! 0%nat = Some (h, b) ∧ replicas N !! 1%nat = Some (h', b') ∧
  edits_since (D := Z) true (snapshot b') (version (snapshot b)) = Some (hunk_edits [] [] hs) ∧ length hs = 1%nat.
Proof.
  destruct (sample_checked [(0%nat, Front 120); (1%nat, Front 121); (1%nat, ReceiveAll)] received_there) as (N & h & b & h' & b' & HN & Hi & Hj & [[Hf Hl]%andb_true_iff He]%andb_true_iff); [by vm_compute|].
  destruct (network_edits (λ _, None) _ _ sample_first_document (D := Z) (λ a b, a -w64 b) N true 0 1 h b h' b' (base_undos_known _) eq_refl HN Hi Hj Hl) as (cs & cs' & hs & t & _ & _ & E & _).
  { intros op Hop Ho. apply list_elem_of_In, (proj1 (forallb_forall _ _) Hf) in Hop. by rewrite Ho in Hop. }
  exists N, h, b, h', b', hs. rewrite E in He. split; [exact HN|]. split; [exact Hi|]. split; [exact Hj|]. split; [exact E|]. destruct hs as [|x [|]]; (reflexivity || discriminate).
Defined.
(** After the deletion of the second character, the edits in the range of that
    character are one, but [has_edits_since_in_range] sees none: it skips the
    fragment that the range starts in. *)
Definition sample_deletion : option (Buffer * Buffer) :=
  b ← sample_buffer 1;
  N ← perform (S := Z) (λ _, None) 0 (Edit 0 0 [((1, 2), [])]) (mk_network [] [(no_heap, b)]);
  '(_, b') ← replicas N !! 0%nat; Some (b, b').
#[local] Instance edit_in_eq_dec : EqDecision (edit_in Z).
Proof. solve_decision. Defined.
Lemma has_edits_in_range_misses : ∃ b b' A B, sample_deletion = Some (b, b') ∧
  anchor_at_offset true (snapshot b) 1 Right = Some A ∧ anchor_at_offset true (snapshot b) 2 Left = Some B ∧
  edits_since_in_range (D := Z) true (snapshot b') (version (snapshot b)) (A, B) = Some [mk_edit_in (0, 1) (0, 0)] ∧
  has_edits_since_in_range true (snapshot b') (version (snapshot b)) (A, B) = Some false.
Proof.
  assert (match sample_deletion with
    | Some (b, b') => match anchor_at_offset true (snapshot b) 1 Right, anchor_at_offset true (snapshot b) 2 Left with
        | Some A, Some B => bool_decide (edits_since_in_range (D := Z) true (snapshot b') (version (snapshot b)) (A, B) = Some [mk_edit_in (0, 1) (0, 0)] ∧
            has_edits_since_in_range true (snapshot b') (version (snapshot b)) (A, B) = Some false)
        | _, _ => false end
    | None => false end = true) as H by by vm_compute.
  destruct sample_deletion as [[b b']|]; [|done]. exists b, b'.
  destruct (anchor_at_offset true (snapshot b) 1 Right) as [A|]; [|done]. destruct (anchor_at_offset true (snapshot b) 2 Left) as [B|]; [|done]. exists A, B.
  apply bool_decide_eq_true in H as [H1 H2]. by split_and!.
Qed.
